(* ===== verification/_CoqProject ===== *)
-Q . S2P
Prelude.v
Sha256.v
Merkle.v
FinalityCore.v
BlockTree.v
Bitset.v
OrderedDiff.v
ProducerSchedule.v
FinalizerPolicy.v
Qc.v
BlockHeaderState.v
BlockHeaderTheory.v
QcTheory.v
QcSignatures.v
BlockState.v
BlockStateTheory.v
ForkDatabase.v
ForkDatabaseTheory.v
ForkSwitch.v
ForkSwitchTheory.v
BlockAcceptance.v
BlockAcceptanceTheory.v
SeenBlocks.v
BlockProduction.v
BlockProductionTheory.v
Node.v
Finalizer.v
ConsensusSafety.v
Network.v
BranchExample.v
SafetyFile.v
ResourceLimits.v
Names.v
Assets.v
AssetsTheory.v
Authority.v
AuthorityTheory.v
Permissions.v
PermissionsTheory.v
NativeState.v
Authorization.v
Contract.v
Token.v
TokenTheory.v
Org.v
OrgTheory.v
OrgActions.v
OrgExample.v
Authex.v
Claim.v
ClaimTheory.v
AuthexTheory.v
ClaimExample.v
Msig.v
MsigTheory.v
Bpay.v
Resources.v
ContractExamples.v
HostContext.v
HostContextTheory.v
HostOperations.v
HostIterators.v
HostSafety.v
HostExample.v
TransactionQueue.v
SubjectiveBilling.v
TransactionQueueTheory.v
SubjectiveBillingTheory.v
ProducerTransactions.v
ProducerTheory.v
ProducerExample.v
UndoIndex.v
UndoIndexTheory.v
UndoIndexOps.v
UndoIndexSquash.v
UndoIndexRefinement.v
UndoIndexExample.v
TransactionContext.v
TransactionContextTheory.v
TransactionContextExample.v
