(* ===== verification/Prelude.v ===== *)
(** * The Channel: a verification library for consensus, permissions and contracts

    The program is a node of an Antelope network with Savanna consensus
    ([src/libraries/chain], with helpers of [src/libraries/libfc]). A producer
    makes a block on the head of its chain; the block claims a quorum certificate (QC)
    for one of its ancestors and carries it. The other nodes check the block, store it in
    a tree of reversible blocks (the fork database), execute the best branch,
    and let their finalizers vote on what they executed; votes are aggregated
    into the certificates of later blocks, and a chain of strong certificates
    makes a block final, which becomes the root of the tree. This library
    models that cycle, from the bits of a vote to the steps of a node. It also models
    the way of a transaction: it waits in the queue of the producer plugin, gets limits on what it may
    consume from the block, its accounts and the subjective bills of the node, is checked against the
    permissions, which the native actions change, and against duplicates, runs contracts that
    work on tables through iterators, and is billed. All state is in tables with a stack of undo sessions. On top
    of these run contracts, which keep tables and send each other actions ([src/contracts]); those that
    hold money or decide who may spend it are modelled too: tokens, backpay, claims of deposits
    made on other chains with the keys linked for them, multisig, block pay and subscriptions.

    ** Parts, files and sources

    Files are listed in dependency order; unless said otherwise sources are under
    [src/libraries/chain], headers under its [include/eosio/chain].

    - [Prelude.v]: machine integers, the [result] monad in which every fallible
      function is written ([Err] has the exception thrown, a failed [assert],
      undefined behaviour or exhausted fuel), vectors, tactics.
    - [Sha256.v]: digests and the block number kept in a block id ([fc::sha256],
      [block_header::num_from_id]).
    - [Merkle.v]: batch and incremental Merkle roots ([merkle.hpp],
      [incremental_merkle.hpp]).
    - [FinalityCore.v]: [finality_core], all members ([finality_core.cpp]).
      [BlockTree.v]: its abstract specification, blocks as their whole ancestry
      with the finality rule stated on it, and the refinement.
    - [Bitset.v], [OrderedDiff.v]: [fc::bitset] and [fc::ordered_diff] of libfc.
    - [ProducerSchedule.v]: schedules, signing authorities, rounds, proposer
      policies, block signatures. [FinalizerPolicy.v]: finalizer policies and
      their differences, the validation in [set_finalizers]
      ([webassembly/privileged.cpp]).
    - [Qc.v], [QcTheory.v]: certificates, their verification, and the
      aggregation of votes with its state machine ([qc.hpp], [qc.cpp]). [QcSignatures.v]: the signatures
      in the certificates that a node assembles.
    - [BlockHeaderState.v], [BlockHeaderTheory.v]: headers and extensions,
      [block_header_state] with the promotion of policies.
    - [BlockState.v], [BlockStateTheory.v]: signed blocks and [block_state]
      with its validation tree.
    - [ForkDatabase.v], [ForkDatabaseTheory.v]: [fork_database_t] over the class
      [BlockStateLike], the interface its template parameter has to offer.
    - [ForkSwitch.v], [ForkSwitchTheory.v]: [maybe_apply_blocks], [pop_block]
      and [log_irreversible] of [controller.cpp].
    - [BlockAcceptance.v], [BlockAcceptanceTheory.v]: the checks of a received
      block and the creation of its state ([controller.cpp]); the instance of
      [BlockStateLike] for [block_state].
    - [SeenBlocks.v]: the block of the tree that an accepted state stands for, and the votes and
      certificates in block states, which were verified.
    - [BlockProduction.v], [BlockProductionTheory.v]: the stages a block goes through
      when it is produced or executed ([controller.cpp]).
    - [Node.v]: the operations of the controller as the steps of a node.
    - [Finalizer.v], [ConsensusSafety.v]: the voting decision of a finalizer
      ([finalizer.cpp]) and the safety of consensus on the block tree.
    - [Network.v]: several nodes, and their agreement.
    - [BranchExample.v]: a branch of four blocks and two nodes on which the theorems
      on blocks, nodes and the network are evaluated.
    - [SafetyFile.v]: the finalizers of a node and the file with their safety
      information ([my_finalizers_t]).
    - [ResourceLimits.v]: usage accumulators, elastic limits, account limits and
      billing ([resource_limits.cpp], [resource_limits_private.hpp]).
    - [Names.v]: names and their strings ([name.hpp], [name.cpp]). [Assets.v], [AssetsTheory.v]: symbols,
      assets and their strings ([symbol.cpp], [asset.cpp], [fc::safe]).
    - [Authority.v], [AuthorityTheory.v]: authorities ([authority.hpp]) and [authority_checker], with a
      specification [grants] that knows no cache, order or depth.
    - [Permissions.v], [PermissionsTheory.v], [NativeState.v], [Authorization.v]: the permission tables,
      [authorization_manager.cpp] and the native actions of [eosio_contract.cpp]; the states these actions
      reach from genesis; what [check_authorization] lets pass.
    - [Contract.v]: what contracts use of the chain and of the contract development kit.
    - [Token.v], [TokenTheory.v]: [contracts/ra.token].
    - [Org.v], [OrgTheory.v], [OrgActions.v], [OrgExample.v]: [contracts/ra.org], reviews and backpay, and
      its composition with the token contract.
    - [Authex.v], [AuthexTheory.v], [Claim.v], [ClaimTheory.v], [ClaimExample.v]: [contracts/ra.authex] and
      [contracts/ra.claim], keys of other chains and the deposits they claim.
    - [Msig.v], [MsigTheory.v]: [contracts/ra.msig]. [Bpay.v]: [contracts/ra.bpay]. [Resources.v]:
      [contracts/ra.resources]. [ContractExamples.v]: the three on concrete states.
    - [HostContext.v], [HostContextTheory.v], [HostOperations.v], [HostIterators.v], [HostSafety.v], [HostExample.v]: the tables
      of contracts, with primary and secondary indices and their iterator caches ([host_context.hpp],
      [host_context.cpp], [apply_context.cpp], [sync_call_context.cpp]).
    - [TransactionQueue.v], [TransactionQueueTheory.v]: [unapplied_transaction_queue.hpp]. [SubjectiveBilling.v],
      [SubjectiveBillingTheory.v]: [subjective_billing.hpp]. [ProducerTransactions.v], [ProducerTheory.v], [ProducerExample.v]:
      what the producer plugin does with transactions ([plugins/producer_plugin/producer_plugin.cpp]).
    - [UndoIndex.v], [UndoIndexTheory.v], [UndoIndexOps.v], [UndoIndexSquash.v], [UndoIndexRefinement.v], [UndoIndexExample.v]: a
      table with its undo stack ([src/libraries/chaindb/include/chainbase/undo_index.hpp]).
    - [TransactionContext.v], [TransactionContextTheory.v], [TransactionContextExample.v]: the limits, checks and billing of a
      transaction, its record against duplicates and its restart ([transaction_context.cpp], [controller.cpp]).

    State is a record per class and an operation a function on it; a method that
    changes an object returns the new one next to its result. Shared block
    states are kept in the fork database and replaced there by [update_block]. Maps
    keyed by id or account are [gmap]s. Integers are [Z] at the width the code uses, with
    the conversions written out where they can wrap.

    ** What the theorems show

    - Consensus: two nodes never have conflicting irreversible blocks while the
      faulty finalizers weigh less than the overlap of quorums ([Network]). This
      composes the theorems on nodes below with the safety of the block tree, where
      no two conflicting blocks become final ([ConsensusSafety]); it rests
      on the rules that votes cast by [decide_vote] keep, on the intersection of
      verified certificates ([QcTheory]), and on the finality core implementing the
      finality rule of the block tree ([BlockTree]).
    - Blocks: every claim on a branch of accepted blocks is backed by a certificate
      verified against the policies in force at the claimed block
      ([BlockAcceptanceTheory]); header states refine the block tree and retrieve
      the policies of ancestors, policies are promoted as documented, a header
      is accepted as it was built ([BlockHeaderTheory]); validation roots are the
      Merkle roots of the finality leaves ([BlockStateTheory]); a block
      that a reachable node produces is accepted and executes elsewhere ([Node], from
      [BlockProductionTheory]). Its certificate is the one assembled from the collected votes; that it
      verifies is proved ([QcSignatures], [SeenBlocks]), except for the rule on finalizers of
      both policies, which the code may break ([QcTheory]) and the theorems assume.
    - Nodes: the fork database stays a tree on its root under all its operations,
      which terminate, and is read back from its file ([ForkDatabaseTheory]);
      switching forks keeps the head on an executed branch whatever fails or is interrupted,
      removes only blocks that failed and the blocks on them, and
      reaches the best block when nothing fails ([ForkSwitchTheory]);
      in every state a node can reach all of this holds together ([Node]).
    - Votes: the aggregation counts every finalizer once, its certificates pass
      verification except in a case that is exhibited, and a vote is recorded in the safety
      file before it is sent ([QcTheory], [SafetyFile]).
    - Data: Merkle roots, bitsets, differences and files round trip or agree with
      a reference definition; usage stays within limits and totals are exact
      ([Merkle], [Bitset], [OrderedDiff], [ResourceLimits]). Names and assets print to strings that read
      back; the strings that are read and should not be are exhibited ([Names], [AssetsTheory]).
    - Permissions: an authority that validates has the properties the checker needs; what the checker
      grants is granted by the specification, and with enough depth it decides it ([AuthorityTheory]); a
      transaction passes only if every permission its actions declare is relevant and granted
      ([Authorization]); the permissions of every account form trees in all states that native actions
      reach, and RAM is charged for what is stored ([NativeState]).
    - Tables of contracts: iterators stay sound under all operations, the rows are maps from table and key
      to value, iterators go through them in the order of the keys, and the RAM charged is that of the rows
      ([HostSafety]); two ways around this are exhibited on concrete states ([HostExample]).
    - Transactions that wait: every client is answered once as long as the queue has room, and at the start of a block those
      of expired transactions are; when it has none, a client is answered twice and the size of the queue is wrong afterwards ([ProducerTheory]). Subjective billing asks
      an account for what it owes, and expired bills move to its average ([SubjectiveBillingTheory]).
    - Undo stack: the shared lists of old and removed values implement a stack of whole copies of the table
      ([UndoIndexRefinement]), but for a change that was put back: a later change of the object then escapes undo.
    - Transactions that run: what passed the checks and used some CPU time and network bandwidth is billed without failure and within every
      limit; none is accepted twice on a branch, unless it was restarted for recompiled code, which forgets that it was
      accepted ([TransactionContextTheory]).
    - Contracts: balances add up to the supply, transfers do what they say and only owners spend
      ([TokenTheory]); what workers are owed adds up to the total, a month is closed once, and a payment never
      exceeds what came in ([OrgTheory], [OrgActions]); a deposit is paid once, to its recipient, with his
      authority, and stays covered ([ClaimTheory]), by keys whose holders attested the link ([AuthexTheory]);
      a proposal is executed only with approvals given for it and not invalidated
      ([MsigTheory]); rewards are divided evenly, or the loop hangs ([Bpay]); the delegated weight is that of the
      open subscriptions ([Resources]).

    ** Assumptions

    Code outside the repository is a parameter with named laws: BLS12-381
    ([Bls], and [BlsLaws] for aggregation: adding signatures is commutative and associative with a
    zero, and signatures that verify one by one verify as a sum, also none), SHA-256 ([Digests]), the recovery of keys from signatures, CRC-32
    ([Crc32]), and the packed bytes of the larger structures (the classes
    [ExtensionCodec] and [BlockExtensionCodec], whose laws say that what is packed
    is unpacked). The outcome of executing transactions is an argument
    ([execution]), as is the protocol feature validator. Theorems on produced blocks assume that no
    message hashes to zero, which the code uses as the empty digest. The agreement of
    nodes assumes that ids of the blocks that exist do not collide, that
    honest finalizers voted as the certificates that verify say, and that one finalizer
    policy stays active; the theorems on nodes assume that the policies in blocks are such as
    [set_finalizers] accepts, that the certificates in produced blocks keep the rule on finalizers of both policies,
    and that block numbers stay below [2^32 - 1]. The example instantiates all of them. Locks and
    threads are not modelled: an operation is one critical section, and the
    theorems on aggregation and nodes quantify over the orders of operations.

    The unpacking of action data ([ActionCodec], typed by [CodecTyped]) and [boost::lexical_cast]
    ([LexicalCast]) are parameters too. That links name existing permissions is proved
    for runs in which the protocol feature is active that asks for it; block time, configuration and features may change
    from action to action; the deadline timer of the checker, which
    can only abort, is left out. The contract development kit is outside the repository: its assets
    ([CdtAsset], which the chain's own assets satisfy), the division of an asset ([CdtDivision]), free keys of a
    table ([AvailableKey]), and the host's hashing, key recovery, printing and transaction checks ([ContractHost],
    [MsigHost]) are parameters with the laws their documentation gives. A contract action that aborts leaves no
    state behind; the inline actions it sends are a list, executed in order after it. Contracts that are
    notified of a transfer, which may refuse it, are not run; a sum that overflows the 64 bits of an amount ends the action. Table rows
    are not billed for RAM in the models of contracts; they are in those of the tables.

    Tables of contracts: new objects are placed at addresses that are free, by any rule that looks at the
    objects and at how many were made before ([Allocator]), SoftFloat orders the keys that are not NaN
    (a weak order), a table has fewer than 2^32 rows and a cache fewer than 2^31 iterators. Waiting transactions: the
    metadata of an arriving transaction is a new object, and the controller, the clock and the interruptions of a block are
    arguments; exceptions that stop the node are left out. Subjective billing: times are below 2^32 intervals and bills add up to less than 2^64.
    Undo stack: a position in a list is its distance from the end, which additions in front do not change, objects are known by
    id, secondary indices by their keys, and there is memory for all. Resources of transactions: the
    numbers of the tables are in the ranges that a configuration gives them ([resources_ok], [weights_ok], [usages_small]); the actions of a transaction are an argument.

    ** Fuel

    Walks of the fork database carry the number of its blocks as fuel, Merkle trees
    the length of the input or the 64 bits of the leaf mask, differences the
    lengths of both sequences, integers of variable length their five bytes. The walk to the
    ancestors of a permission has the number of permissions, the checker the depth limit it is
    given, decimal strings 20 digits and symbol names 8 characters. The removal of expired transactions has the number of
    entries, walks through tables the number of rows, and undoing all sessions their number. The theorems prove that these are
    enough: no result is [Err out_of_fuel]. The one exception is the loop over producers of
    [ra.bpay], which need not end: its theorem is for every number of rounds.

    ** Not modelled

    Legacy blocks and the fork database during the transition (but the checks on
    transition blocks and the Savanna genesis state are), start-up and replay,
    irreversible mode, the scheduling of actions and deferred transactions, WASM and the host functions that do not
    work on tables, the memory-mapped file below the tables, block log, snapshots and state history. Of the
    plugins, only what the producer plugin does with transactions is modelled: its timing of blocks, and the
    network, HTTP and other plugins and the programs are input and output around these parts. Of the
    contracts, [ra.system] (staking, voting, REX, powerup), [ra.bios], [ra.boot], [ra.fees], [ra.wrap] and [ra.pure]
    are left out: they forward to privileged host functions or, for [ra.system] and [ra.pure], are subsystems of their
    own, with markets and votes in floating point.

    Further work: agreement of nodes across changes of the finalizer policy; the system contract, from its
    exchange and staking; the synchronisation of blocks between nodes; protocol features. *)

From Stdlib Require Export Lia ZArith.
From stdpp Require Export base option numbers gmap sorting strings list.
Open Scope Z_scope.

(** ** Machine integers

    A w-bit unsigned value is a [Z] in [[0, 2^w)]; the conversions below are
    the C++ conversions to the fixed width types. *)

Definition u8 (x : Z) : Z := x mod 2 ^ 8.
Definition u16 (x : Z) : Z := x mod 2 ^ 16.
Definition u32 (x : Z) : Z := x mod 2 ^ 32.
Definition u64 (x : Z) : Z := x mod 2 ^ 64.
Definition u128 (x : Z) : Z := x mod 2 ^ 128.

(** Two's complement conversion to a signed w-bit type. *)
Definition sint (w : Z) (x : Z) : Z := (x + 2 ^ (w - 1)) mod 2 ^ w - 2 ^ (w - 1).
Definition i32 (x : Z) : Z := sint 32 x.
Definition i64 (x : Z) : Z := sint 64 x.

Arguments u8 : simpl never.
Arguments u16 : simpl never.
Arguments u32 : simpl never.
Arguments u64 : simpl never.
Arguments u128 : simpl never.
Arguments sint : simpl never.
Arguments i32 : simpl never.
Arguments i64 : simpl never.

Definition u8_max : Z := 255.
Definition u32_max : Z := 4294967295.
Definition u64_max : Z := 18446744073709551615.
Definition i64_max : Z := 9223372036854775807.

Definition is_u8 (x : Z) : Prop := 0 <= x < 256.
Definition is_u32 (x : Z) : Prop := 0 <= x < 4294967296.
Definition is_u64 (x : Z) : Prop := 0 <= x < 18446744073709551616.
Definition is_i64 (x : Z) : Prop := -9223372036854775808 <= x < 9223372036854775808.

Lemma u8_small x : is_u8 x → u8 x = x.
Proof. intros H. apply Z.mod_small. exact H. Qed.

Lemma u32_small x : is_u32 x → u32 x = x.
Proof. intros H. apply Z.mod_small. exact H. Qed.

Lemma u64_small x : is_u64 x → u64 x = x.
Proof. intros H. apply Z.mod_small. exact H. Qed.

Lemma u8_range x : is_u8 (u8 x).
Proof. apply Z.mod_pos_bound. lia. Qed.

Lemma u32_range x : is_u32 (u32 x).
Proof. apply Z.mod_pos_bound. lia. Qed.

Lemma u32_add_l x y : u32 (u32 x + y) = u32 (x + y).
Proof. unfold u32. by rewrite Z.add_mod_idemp_l. Qed.

Lemma u64_range x : is_u64 (u64 x).
Proof. apply Z.mod_pos_bound. lia. Qed.

Lemma i64_small x : is_i64 x → i64 x = x.
Proof.
  intros H. unfold i64, sint, is_i64 in *. change (2 ^ (64 - 1)) with 9223372036854775808.
  rewrite Z.mod_small; [lia|]. change (2 ^ 64) with 18446744073709551616. lia.
Qed.

Lemma i32_small x : -2147483648 <= x < 2147483648 → i32 x = x.
Proof.
  intros H. unfold i32, sint. change (2 ^ (32 - 1)) with 2147483648.
  rewrite Z.mod_small; [lia|]. change (2 ^ 32) with 4294967296. lia.
Qed.

(** Disjunction and shifts stay within a width. *)
Lemma lor_range n a b : 0 <= n → 0 <= a < 2 ^ n → 0 <= b < 2 ^ n → 0 <= Z.lor a b < 2 ^ n.
Proof.
  intros Hn Ha Hb. assert (0 <= Z.lor a b) as H0 by (apply Z.lor_nonneg; lia). split; [done|].
  replace (Z.lor a b) with (Z.lor a b mod 2 ^ n); [apply Z.mod_pos_bound; lia|].
  rewrite <- Z.land_ones, Z.land_lor_distr_l, !Z.land_ones, !Z.mod_small by lia. done.
Qed.

Lemma byte_shift_range x k n :
  0 <= k → k + 8 <= n → 0 <= Z.shiftl (Z.land x 255) k < 2 ^ n.
Proof.
  intros Hk Hn. change 255 with (Z.ones 8). rewrite Z.land_ones, Z.shiftl_mul_pow2 by lia.
  pose proof (Z.mod_pos_bound x (2 ^ 8) ltac:(lia)) as Hm.
  assert (2 ^ 8 * 2 ^ k <= 2 ^ n) by (rewrite <- Z.pow_add_r by lia; apply Z.pow_le_mono_r; lia).
  pose proof (Z.pow_pos_nonneg 2 k ltac:(lia) ltac:(lia)). nia.
Qed.

(** ** Exceptions and the error monad

    [assert_failed] is a failing C [assert], [undefined_behaviour] an access
    outside of a container or an over-wide shift, [out_of_fuel] the exhausted
    recursion bound of a model; the other constructors are the exception
    classes the sources throw. *)

Inductive exn : Type :=
| assert_failed
| undefined_behaviour
| out_of_fuel
| fc_assert_exception
| overflow_exception
| invalid_argument
| invalid_qc
| invalid_qc_signature
| invalid_qc_claim
| rate_limiting_state_inconsistent
| resource_limit_exception
| transaction_exception
| ram_usage_exceeded
| tx_cpu_usage_exceeded
| tx_net_usage_exceeded
| block_resource_exhausted
| wasm_execution_error
| finalizer_safety_exception
| file_exception
| wrong_signing_key
| no_block_signatures
| block_too_old_exception
| block_validate_exception
| unlinkable_block_exception
| wrong_producer
| producer_schedule_exception
| invalid_block_header_extension
| ill_formed_protocol_feature_activation
| chain_exception
| ill_formed_additional_block_signatures_extension
| invalid_block_extension
| fork_database_exception
| fork_db_block_not_found
| out_of_range
| name_type_exception
| symbol_type_exception
| asset_type_exception
| parse_error_exception
| underflow_exception
| action_validate_exception
| permission_query_exception
| irrelevant_auth_exception
| unlinkable_min_permission_action
| unactivated_key_type
| tx_not_found
| unsatisfied_authorization
| tx_irrelevant_sig
| missing_auth_exception
| eosio_assert_message_exception
| account_name_exists_exception
| account_query_exception
| unknown_key_exception
| logic_error
| key_blacklist_exception
| table_not_in_cache
| invalid_table_iterator
| table_operation_not_permitted
| invalid_table_payer
| table_access_violation
| subjective_block_production_exception
| unauthorized_ram_usage_increase
| sync_call_depth_exception
| sync_call_call_data_exception
| sync_call_validate_exception
| sync_call_return_value_exception
| protocol_feature_exception
| protocol_feature_validation_exception
| protocol_feature_bad_block_exception
| protocol_feature_iterator_exception
| tx_duplicate
| expired_tx_exception
| tx_resource_exhaustion
| block_cpu_usage_exceeded
| block_net_usage_exceeded
| deadline_exception
| interrupt_exception
| ro_trx_vm_oc_compile_temporary_failure
| eosio_assert_code_exception
| producer_exception
| plugin_config_exception
| leeway_deadline_exception
| greylist_cpu_usage_exceeded
| greylist_net_usage_exceeded
| tx_exp_too_far_exception
| invalid_ref_block_exception
| tx_no_auths
| interrupt_oc_exception
| disallowed_transaction_extensions_bad_block_exception
| bad_alloc.

#[export] Instance exn_eq_dec : EqDecision exn.
Proof. solve_decision. Defined.

Inductive result (A : Type) : Type :=
| Ok (a : A)
| Err (e : exn).
Arguments Ok {A} a.
Arguments Err {A} e.

#[export] Instance result_ret : MRet result := λ A a, Ok a.
#[export] Instance result_bind : MBind result := λ A B f r,
  match r with Ok a => f a | Err e => Err e end.
#[export] Instance result_fmap : FMap result := λ A B f r,
  match r with Ok a => Ok (f a) | Err e => Err e end.

(** [check b e] throws [e] unless [b] holds. *)
Definition check (b : bool) (e : exn) : result unit :=
  if b then Ok tt else Err e.

(** [m] returns a value that satisfies [P]. *)
Definition returns {A} (m : result A) (P : A → Prop) : Prop :=
  match m with Ok a => P a | Err _ => False end.

Lemma returns_ok {A} (m : result A) (P : A → Prop) : returns m P → ∃ a, m = Ok a.
Proof. destruct m as [a|]; [by exists a|done]. Qed.

(** C [assert]. *)
Definition assert_ (b : bool) : result unit := check b assert_failed.

(** [v.front()], [v.back()] and [v[i]] of a [std::vector]. *)
Definition vec_front {A} (l : list A) : result A :=
  match l with x :: _ => Ok x | [] => Err undefined_behaviour end.

Definition vec_back {A} (l : list A) : result A :=
  match last l with Some x => Ok x | None => Err undefined_behaviour end.

Definition vec_at {A} (l : list A) (i : Z) : result A :=
  if i <? 0 then Err undefined_behaviour
  else match l !! Z.to_nat i with Some x => Ok x | None => Err undefined_behaviour end.

(** The value of a computation, where it has one. *)
Definition get_ok {A : Type} (m : result A) : match m return Type with Ok _ => A | Err _ => unit end :=
  match m with Ok x => x | Err _ => tt end.

(** ** Proof automation *)

Create HintDb channel.

Lemma check_true b e : b = true → check b e = Ok tt.
Proof. by intros ->. Qed.

Lemma assert_true b : b = true → assert_ b = Ok tt.
Proof. by intros ->. Qed.

Lemma bind_ok {A B} (a : A) (f : A → result B) : (Ok a ≫= f) = f a.
Proof. done. Qed.

Lemma bind_inv {A B} (m : result A) (f : A → result B) b :
  m ≫= f = Ok b → ∃ a, m = Ok a ∧ f a = Ok b.
Proof. destruct m as [a|e]; simpl; [by exists a|done]. Qed.

Lemma check_inv b e u : check b e = Ok u → b = true.
Proof. by destruct b. Qed.

Lemma check_bind {A} b e (k : unit → result A) : b = true → check b e ≫= k = k tt.
Proof. by intros ->. Qed.

Lemma assert_bind {A} b (k : unit → result A) : b = true → assert_ b ≫= k = k tt.
Proof. by intros ->. Qed.

Lemma if_same {A} (b : bool) (x : A) : (if b then x else x) = x.
Proof. by destruct b. Qed.

(** A boolean test of the code from the arithmetic facts in the context. *)
Ltac solve_test :=
  first
    [ done
    | apply Z.leb_le; lia
    | apply Z.ltb_lt; lia
    | apply Z.eqb_eq; lia
    | apply andb_true_intro; split; solve_test
    | apply orb_true_iff; first [left; solve_test | right; solve_test]
    | apply negb_true_iff; first [apply Z.eqb_neq; lia | apply Z.leb_gt; lia | apply Z.ltb_ge; lia] ].

(** [step] runs the next statement of a monadic computation, proving the
    tests it makes; [inv_ok H] decomposes [H : m ≫= f = Ok b]. *)
Ltac step :=
  lazymatch goal with
  | |- (Ok _ ≫= _) = _ => rewrite bind_ok
  | |- (assert_ ?b ≫= _) = _ => rewrite (assert_bind b); [|solve_test]
  | |- (check ?b ?e ≫= _) = _ => rewrite (check_bind b e); [|solve_test]
  end.

Ltac inv_ok H :=
  let a := fresh "a" in let Ha := fresh "Ha" in
  apply bind_inv in H as (a & Ha & H).

(** Turns boolean tests of the code into propositions. *)
Ltac breflect :=
  repeat match goal with
  | H : (_ =? _) = true |- _ => apply Z.eqb_eq in H
  | H : (_ =? _) = false |- _ => apply Z.eqb_neq in H
  | H : (_ <=? _) = true |- _ => apply Z.leb_le in H
  | H : (_ <=? _) = false |- _ => apply Z.leb_gt in H
  | H : (_ <? _) = true |- _ => apply Z.ltb_lt in H
  | H : (_ <? _) = false |- _ => apply Z.ltb_ge in H
  | H : (_ && _)%bool = true |- _ => apply andb_prop in H as [??]
  | H : bool_decide _ = true |- _ => apply bool_decide_eq_true in H
  | H : bool_decide _ = false |- _ => apply bool_decide_eq_false in H
  | H : negb _ = true |- _ => apply negb_true_iff in H
  | H : negb _ = false |- _ => apply negb_false_iff in H
  end.

(** ** Lists *)

Lemma vec_front_lookup {A} (l : list A) x : l !! 0%nat = Some x → vec_front l = Ok x.
Proof. destruct l; simpl; congruence. Qed.

Lemma vec_back_lookup {A} (l : list A) x : last l = Some x → vec_back l = Ok x.
Proof. unfold vec_back. by intros ->. Qed.

Lemma vec_at_lookup {A} (l : list A) (i : Z) x :
  0 <= i → l !! Z.to_nat i = Some x → vec_at l i = Ok x.
Proof. intros Hi Hl. unfold vec_at. rewrite (proj2 (Z.ltb_ge i 0)) by lia. by rewrite Hl. Qed.

Lemma last_snoc_eq {A} (l : list A) x : last (l ++ [x]) = Some x.
Proof. apply last_snoc. Qed.

Lemma last_drop {A} (l : list A) n : (n < length l)%nat → last (drop n l) = last l.
Proof.
  revert n; induction l as [|x l IH]; intros n Hn; [simpl in Hn; lia|].
  destruct n as [|n]; [done|]. simpl in *. rewrite IH by lia.
  destruct l; [simpl in Hn; lia|done].
Qed.

(** Consecutive elements of [l] are related by [R]. *)
Definition adjacent {A} (R : A → A → Prop) (l : list A) : Prop :=
  ∀ i x y, l !! i = Some x → l !! S i = Some y → R x y.

Lemma adjacent_drop {A} (R : A → A → Prop) l n : adjacent R l → adjacent R (drop n l).
Proof.
  intros H i x y. rewrite !lookup_drop, Nat.add_succ_r. apply H.
Qed.

Lemma adjacent_snoc {A} (R : A → A → Prop) l x :
  adjacent R l → (∀ y, last l = Some y → R y x) → adjacent R (l ++ [x]).
Proof.
  intros Hl Hx i a b Ha Hb. apply lookup_app_Some in Hb as [Hb|[Hge Hb]].
  - apply lookup_lt_Some in Hb as Hlt. rewrite lookup_app_l in Ha by lia. eauto.
  - apply list_lookup_singleton_Some in Hb as [Hi ->].
    rewrite lookup_app_l in Ha by lia. apply Hx. rewrite last_lookup, <- Ha. f_equal. lia.
Qed.

(** An index that counts up along the list. *)
Lemma adjacent_count {A} (g : A → Z) l x0 i x :
  adjacent (λ a b, g a + 1 = g b) l → l !! 0%nat = Some x0 → l !! i = Some x → g x = g x0 + Z.of_nat i.
Proof.
  intros Hl H0. revert x. induction i as [|i IH]; intros x Hx; [simplify_eq; lia|].
  destruct (lookup_lt_is_Some_2 l i) as [y Hy]; [apply lookup_lt_Some in Hx; lia|].
  pose proof (Hl _ _ _ Hy Hx) as Hn. cbn in Hn. pose proof (IH _ Hy). lia.
Qed.

(** A value that never decreases along the list. *)
Lemma adjacent_mono {A} (g : A → Z) l i j x y :
  adjacent (λ a b, g a <= g b) l → (i ≤ j)%nat → l !! i = Some x → l !! j = Some y → g x <= g y.
Proof.
  intros Hl Hij Hx. revert y. induction Hij as [|j Hij IH]; intros y Hy; [simplify_eq; lia|].
  destruct (lookup_lt_is_Some_2 l j) as [z Hz]; [apply lookup_lt_Some in Hy; lia|].
  pose proof (Hl _ _ _ Hz Hy) as Hn. cbn in Hn. pose proof (IH _ Hz). lia.
Qed.

Lemma adjacent_impl {A} (R R' : A → A → Prop) l :
  adjacent R l → (∀ x y, R x y → R' x y) → adjacent R' l.
Proof. intros H HR i x y Hx Hy. eauto. Qed.

Lemma head_drop_lookup {A} (l : list A) n : head (drop n l) = l !! n.
Proof. revert l. induction n; intros [|]; simpl; auto. Qed.

Lemma mapM_ok {A B} (f : A → result B) (g : A → B) (l : list A) :
  (∀ x, x ∈ l → f x = Ok (g x)) → mapM f l = Ok (g <$> l).
Proof.
  induction l as [|x l IH]; intros H; [done|]. simpl.
  rewrite H by (apply list_elem_of_here). rewrite bind_ok.
  rewrite IH by (intros y Hy; apply H; by apply list_elem_of_further). done.
Qed.

#[export] Hint Resolve u8_range u32_range u64_range : channel.

(** ** Sums *)

Definition zsum {A} (f : A → Z) (l : list A) : Z := foldr (λ x s, f x + s) 0 l.

Lemma zsum_app {A} (f : A → Z) l l' : zsum f (l ++ l') = zsum f l + zsum f l'.
Proof. induction l as [|x l IH]; simpl in *; lia. Qed.

#[export] Instance zsum_perm {A} (f : A → Z) : Proper (Permutation ==> eq) (zsum f).
Proof. induction 1; simpl in *; lia. Qed.

Lemma zsum_le {A} (f g : A → Z) l : (∀ x, x ∈ l → f x <= g x) → zsum f l <= zsum g l.
Proof.
  induction l as [|x l IH]; intros H; simpl; [lia|].
  pose proof (H x (list_elem_of_here _ _)). assert (zsum f l <= zsum g l); [|lia].
  apply IH. intros y Hy. apply H. by constructor.
Qed.

Lemma zsum_ext {A} (f g : A → Z) l : (∀ x, x ∈ l → f x = g x) → zsum f l = zsum g l.
Proof. intros H. apply Z.le_antisymm; apply zsum_le; intros x Hx; rewrite (H x Hx); lia. Qed.

Lemma zsum_bounds {A} (f : A → Z) l b : (∀ x, x ∈ l → 0 <= f x <= b) → 0 <= zsum f l <= b * Z.of_nat (length l).
Proof.
  induction l as [|x l IH]; intros H; simpl length; [simpl; lia|].
  pose proof (H x (list_elem_of_here _ _)). specialize (IH (λ y Hy, H y (list_elem_of_further _ _ _ Hy))). simpl. lia.
Qed.

Lemma zsum_fmap {A B} (g : A → B) (f : B → Z) l : zsum f (g <$> l) = zsum (λ x, f (g x)) l.
Proof. unfold zsum. induction l as [|x l IH]; csimpl; congruence. Qed.

(** ** Elements by key *)

Lemma filter_iff_in {A} (P Q : A → Prop) `{!∀ x, Decision (P x), !∀ x, Decision (Q x)} (l : list A) :
  (∀ x, x ∈ l → P x ↔ Q x) → filter P l = filter Q l.
Proof.
  induction l as [|x l IH]; intros HPQ; [done|]. assert (filter P l = filter Q l) as Hl by (apply IH; intros; apply HPQ; by right).
  specialize (HPQ x (list_elem_of_here _ _)). destruct (decide (P x)).
  - rewrite !filter_cons_True by tauto. by f_equal.
  - rewrite !filter_cons_False by tauto. done.
Qed.

Lemma filter_all_in {A} (P : A → Prop) `{!∀ x, Decision (P x)} (l : list A) : (∀ x, x ∈ l → P x) → filter P l = l.
Proof.
  intros HP. rewrite (filter_iff_in P (λ _, True)) by naive_solver. clear HP. induction l as [|x l IH]; [done|].
  rewrite filter_cons_True by done. by rewrite IH.
Qed.

(** Taking out the element with a key, where keys are distinct. *)
Lemma erase_key_perm {A} (f : A → Z) (l : list A) e : NoDup (f <$> l) → e ∈ l → l ≡ₚ e :: filter (λ x, f x ≠ f e) l.
Proof.
  induction l as [|x l IH]; [by intros _ ?%elem_of_nil|]. rewrite fmap_cons, NoDup_cons. intros [Hx Hl] He.
  apply elem_of_cons in He as [->|He].
  - rewrite filter_cons_False by naive_solver. f_equiv.
    rewrite filter_all_in; [done|]. intros y Hy Hid. destruct Hx. rewrite <- Hid. by apply list_elem_of_fmap_2.
  - assert (f x ≠ f e) by (intros Hid; destruct Hx; rewrite Hid; by apply list_elem_of_fmap_2).
    rewrite filter_cons_True by done. rewrite (IH Hl He) at 1. constructor.
Qed.
