(* ===== verification/Sha256.v ===== *)
(** * Digests and block ids: [fc::sha256], [fc::endian_reverse_u32] and
    [block_header::num_from_id]. *)

From S2P Require Import Prelude.
Open Scope Z_scope.

(** [fc::sha256] stores four 64-bit words. *)
Record sha256 : Type := Sha256 { hash0 : Z; hash1 : Z; hash2 : Z; hash3 : Z }.

#[export] Instance sha256_eq_dec : EqDecision sha256.
Proof. solve_decision. Defined.

Definition sha256_wf (h : sha256) : Prop :=
  is_u64 (hash0 h) ∧ is_u64 (hash1 h) ∧ is_u64 (hash2 h) ∧ is_u64 (hash3 h).

(** The default constructor zeroes the words. *)
Definition sha256_zero : sha256 := Sha256 0 0 0 0.

Definition sha256_empty (h : sha256) : bool :=
  Z.lor (Z.lor (Z.lor (hash0 h) (hash1 h)) (hash2 h)) (hash3 h) =? 0.

(** [operator==]. *)
Definition sha256_eqb (a b : sha256) : bool :=
  (hash0 a =? hash0 b) && (hash1 a =? hash1 b) && (hash2 a =? hash2 b) && (hash3 a =? hash3 b).

(** [fc::endian_reverse_u32] on a 32-bit argument. *)
Definition endian_reverse_u32 (x : Z) : Z :=
  Z.lor (Z.lor (Z.lor (Z.land (Z.shiftr x 24) 255)
                      (Z.shiftl (Z.land (Z.shiftr x 16) 255) 8))
               (Z.shiftl (Z.land (Z.shiftr x 8) 255) 16))
        (Z.shiftl (Z.land x 255) 24).

(** [block_header::num_from_id]: the word is converted to [uint32_t] by the call. *)
Definition num_from_id (id : sha256) : Z := endian_reverse_u32 (u32 (hash0 id)).

Arguments endian_reverse_u32 : simpl never.
Arguments num_from_id : simpl never.

(** Little-endian bytes of a fixed width integer, as [fc::raw::pack] writes it. *)
Fixpoint le_bytes (n : nat) (x : Z) : list Z :=
  match n with
  | O => []
  | S n => u8 x :: le_bytes n (Z.shiftr x 8)
  end.

Definition pack_u32 (x : Z) : list Z := le_bytes 4 x.
Definition pack_u64 (x : Z) : list Z := le_bytes 8 x.

(** [operator<<] of [fc::sha256] writes the 32 bytes of the words. *)
Definition pack_sha256 (h : sha256) : list Z :=
  le_bytes 8 (hash0 h) ++ le_bytes 8 (hash1 h) ++ le_bytes 8 (hash2 h) ++ le_bytes 8 (hash3 h).

Lemma sha256_eqb_eq a b : sha256_eqb a b = true ↔ a = b.
Proof.
  unfold sha256_eqb. rewrite !andb_true_iff, !Z.eqb_eq. destruct a, b; simpl. split.
  - by intros [[[-> ->] ->] ->].
  - by intros [= -> -> -> ->].
Qed.

Lemma num_from_id_zero id : hash0 id = 0 → num_from_id id = 0.
Proof. unfold num_from_id. by intros ->. Qed.

(** Byte [k / 8] of [x], bit by bit. *)
Lemma byte_testbit x k j : 0 <= k →
  Z.testbit (Z.land (Z.shiftr x k) 255) j = (0 <=? j) && (j <? 8) && Z.testbit x (j + k).
Proof.
  intros Hk. rewrite Z.land_spec. destruct (Z.leb_spec 0 j) as [Hj|Hj]; [|by rewrite !Z.testbit_neg_r by lia].
  rewrite Z.shiftr_spec by done. change 255 with (Z.ones 8). rewrite Z.testbit_ones_nonneg by lia.
  destruct (Z.ltb_spec j 8); simpl; [by rewrite andb_true_r|by rewrite andb_false_r].
Qed.

Lemma endian_reverse_testbit x i :
  Z.testbit (endian_reverse_u32 x) i =
    (0 <=? i) && (i <? 8) && Z.testbit x (i + 24) || (8 <=? i) && (i <? 16) && Z.testbit x (i + 8) ||
    (16 <=? i) && (i <? 24) && Z.testbit x (i - 8) || (24 <=? i) && (i <? 32) && Z.testbit x (i - 24).
Proof.
  destruct (Z.leb_spec 0 i) as [Hi|Hi].
  2: { rewrite Z.testbit_neg_r by done. by rewrite !(proj2 (Z.leb_gt _ i)) by lia. }
  unfold endian_reverse_u32. rewrite !Z.lor_spec, !Z.shiftl_spec, !byte_testbit by lia.
  rewrite <- (Z.shiftr_0_r x) at 4. rewrite byte_testbit by lia.
  repeat match goal with |- context [Z.testbit x ?a] => progress ring_simplify a end.
  repeat first [rewrite (proj2 (Z.leb_le 0 i)) by lia].
  replace (0 <=? i - 8) with (8 <=? i) by (destruct (Z.leb_spec 8 i), (Z.leb_spec 0 (i - 8)); lia).
  replace (0 <=? i - 16) with (16 <=? i) by (destruct (Z.leb_spec 16 i), (Z.leb_spec 0 (i - 16)); lia).
  replace (0 <=? i - 24) with (24 <=? i) by (destruct (Z.leb_spec 24 i), (Z.leb_spec 0 (i - 24)); lia).
  replace (i - 8 <? 8) with (i <? 16) by (destruct (Z.ltb_spec i 16), (Z.ltb_spec (i - 8) 8); lia).
  replace (i - 16 <? 8) with (i <? 24) by (destruct (Z.ltb_spec i 24), (Z.ltb_spec (i - 16) 8); lia).
  replace (i - 24 <? 8) with (i <? 32) by (destruct (Z.ltb_spec i 32), (Z.ltb_spec (i - 24) 8); lia).
  done.
Qed.

Lemma endian_reverse_involutive x : is_u32 x → endian_reverse_u32 (endian_reverse_u32 x) = x.
Proof.
  intros Hx. apply Z.bits_inj'. intros i Hi. rewrite endian_reverse_testbit, !endian_reverse_testbit.
  assert (32 <= i → Z.testbit x i = false) as Hhigh.
  { intros H. unfold is_u32 in Hx. destruct (Z.eq_dec x 0) as [->|]; [apply Z.testbit_0_l|].
    apply Z.bits_above_log2; [lia|]. assert (Z.log2 x < 32); [apply Z.log2_lt_pow2; lia|lia]. }
  replace (i + 24 - 24) with i by lia. replace (i + 8 - 8) with i by lia.
  replace (i - 8 + 8) with i by lia. replace (i - 24 + 24) with i by lia.
  assert (i < 8 ∨ 8 <= i < 16 ∨ 16 <= i < 24 ∨ 24 <= i < 32 ∨ 32 <= i) as [H|[H|[H|[H|H]]]] by lia.
  all: repeat match goal with
    | |- context [?a <=? ?b] =>
      first [rewrite (proj2 (Z.leb_le a b)) by lia | rewrite (proj2 (Z.leb_gt a b)) by lia]
    | |- context [?a <? ?b] =>
      first [rewrite (proj2 (Z.ltb_lt a b)) by lia | rewrite (proj2 (Z.ltb_ge a b)) by lia]
    end; rewrite ?andb_false_l, ?andb_true_l, ?orb_false_l, ?orb_false_r; try done.
  by rewrite Hhigh.
Qed.

Lemma endian_reverse_range x : is_u32 (endian_reverse_u32 x).
Proof.
  unfold endian_reverse_u32, is_u32.
  change 4294967296 with (2 ^ 32). repeat (apply lor_range; [lia|..]).
  all: try (apply byte_shift_range; lia).
  rewrite <- (Z.shiftl_0_r (Z.land _ _)). apply byte_shift_range; lia.
Qed.

(** [block_header::calculate_id]: the low half of the first word of the digest
    is replaced by the block number. *)
Definition store_block_num (digest : sha256) (num : Z) : sha256 :=
  Sha256 (u64 (Z.land (hash0 digest) 18446744069414584320 + endian_reverse_u32 num))
    (hash1 digest) (hash2 digest) (hash3 digest).

Lemma num_from_id_stored digest num : is_u32 num → num_from_id (store_block_num digest num) = num.
Proof.
  intros Hn. unfold num_from_id, store_block_num. cbn [hash0].
  assert (u32 (u64 (Z.land (hash0 digest) 18446744069414584320 + endian_reverse_u32 num)) = endian_reverse_u32 num) as ->.
  { unfold u32, u64. rewrite Z.mod_mod_divide by (by exists (2 ^ 32)).
    rewrite <- Zplus_mod_idemp_l. assert (Z.land (hash0 digest) 18446744069414584320 mod 2 ^ 32 = 0) as ->.
    { rewrite <- Z.land_ones, <- Z.land_assoc by lia. change (Z.land 18446744069414584320 (Z.ones 32)) with 0.
      apply Z.land_0_r. }
    rewrite Z.add_0_l. apply Z.mod_small, endian_reverse_range. }
  by apply endian_reverse_involutive.
Qed.

Lemma num_from_id_range id : is_u32 (num_from_id id).
Proof. apply endian_reverse_range. Qed.

#[export] Hint Resolve num_from_id_range : channel.

#[global] Opaque num_from_id.
