(* ===== verification/Merkle.v ===== *)
(** * Merkle roots: [merkle.hpp] and [incremental_merkle.hpp]

    The batch computation (with its sliced, multi-threaded variant) and the
    incremental tree, and that both yield the same root. *)

From S2P Require Import Prelude Sha256.
Open Scope Z_scope.

(** [std::bit_floor]. *)
Definition bit_floor (n : Z) : Z := if n <=? 0 then 0 else 2 ^ Z.log2 n.

Section Merkle.

(** SHA-256 of a byte sequence (OpenSSL). *)
Variable sha256_hash : list Z → sha256.

Definition hash_combine (a b : sha256) : sha256 :=
  sha256_hash (pack_sha256 a ++ pack_sha256 b).

(** [calculate_merkle_pow2<It, async>]; each call posted to the thread pool is
    the plain recursion on a slice. *)
Fixpoint calculate_merkle_pow2 (fuel : nat) (async : bool) (l : list sha256) : result sha256 :=
  match fuel with
  | O => Err out_of_fuel
  | S fuel =>
    let size := Z.of_nat (length l) in
    assert_ (2 <=? size);;
    assert_ (bit_floor size =? size);;
    if size =? 2 then
      a ← vec_at l 0; b ← vec_at l 1; Ok (hash_combine a b)
    else if (async && (256 <=? size))%bool then
      let n := if 2048 <=? size then 4%nat else 2%nat in
      let slice_size := (length l / n)%nat in
      res ← mapM (λ i, calculate_merkle_pow2 fuel false (take slice_size (drop (slice_size * i) l)))
                 (seq 0 n);
      calculate_merkle_pow2 fuel false res
    else
      let mid := (length l / 2)%nat in
      a ← calculate_merkle_pow2 fuel false (take mid l);
      b ← calculate_merkle_pow2 fuel false (drop mid l);
      Ok (hash_combine a b)
  end.

Fixpoint calculate_merkle_aux (fuel : nat) (l : list sha256) : result sha256 :=
  match fuel with
  | O => Err out_of_fuel
  | S fuel =>
    let size := Z.of_nat (length l) in
    if size <=? 1 then
      match l with [] => Ok sha256_zero | x :: _ => Ok x end
    else
      let midpoint := bit_floor size in
      if size =? midpoint then calculate_merkle_pow2 (length l) true l
      else
        let mid := Z.to_nat midpoint in
        a ← calculate_merkle_pow2 (length l) true (take mid l);
        b ← calculate_merkle_aux fuel (drop mid l);
        Ok (hash_combine a b)
  end.

Definition calculate_merkle (ids : list sha256) : result sha256 :=
  calculate_merkle_aux (S (length ids)) ids.

(** ** The incremental tree *)

Record incremental_merkle_tree : Type := IMT { mask : Z; trees : list sha256 }.

Definition empty_tree : incremental_merkle_tree := IMT 0 [].

(** [1ull << idx], undefined for a shift by the width or more. *)
Definition shl1 (idx : Z) : result Z :=
  if (0 <=? idx) && (idx <? 64) then Ok (Z.shiftl 1 idx) else Err undefined_behaviour.

Definition is_bit_set (t : incremental_merkle_tree) (idx : Z) : result bool :=
  b ← shl1 idx; Ok (negb (Z.land (mask t) b =? 0)).

Definition set_bit (t : incremental_merkle_tree) (idx : Z) : result incremental_merkle_tree :=
  b ← shl1 idx; Ok (IMT (Z.lor (mask t) b) (trees t)).

Definition clear_bit (t : incremental_merkle_tree) (idx : Z) : result incremental_merkle_tree :=
  b ← shl1 idx; Ok (IMT (Z.land (mask t) (u64 (Z.lnot b))) (trees t)).

Definition set_trees (t : incremental_merkle_tree) (ts : list sha256) : incremental_merkle_tree :=
  IMT (mask t) ts.

(** [_append]: [slot] is the insertion point as an index into [trees]. *)
Fixpoint append_at (fuel : nat) (t : incremental_merkle_tree) (digest : sha256)
    (slot : Z) (idx : Z) : result incremental_merkle_tree :=
  match fuel with
  | O => Err out_of_fuel
  | S fuel =>
    set ← is_bit_set t idx;
    if (set : bool) then
      assert_ (negb (Z.of_nat (length (trees t)) =? 0));;
      set1 ← is_bit_set t (idx + 1);
      if negb set1 then
        x ← vec_at (trees t) (slot - 1);
        let t := set_trees t (<[Z.to_nat (slot - 1) := hash_combine x digest]> (trees t)) in
        t ← clear_bit t idx;
        set_bit t (idx + 1)
      else
        assert_ (2 <=? Z.of_nat (length (trees t)));;
        t ← clear_bit t idx;
        t ← clear_bit t (idx + 1);
        x2 ← vec_at (trees t) (slot - 2);
        x1 ← vec_at (trees t) (slot - 1);
        let d := hash_combine x2 (hash_combine x1 digest) in
        let t := set_trees t (take (Z.to_nat (slot - 2)) (trees t) ++ drop (Z.to_nat slot) (trees t)) in
        append_at fuel t d (slot - 2) (idx + 2)
    else
      let t := set_trees t (take (Z.to_nat slot) (trees t) ++ digest :: drop (Z.to_nat slot) (trees t)) in
      set_bit t idx
  end.

(** [std::popcount] of a 64-bit value. *)
Fixpoint popcount_aux (n : nat) (x : Z) : Z :=
  match n with
  | O => 0
  | S n => (if Z.odd x then 1 else 0) + popcount_aux n (Z.div2 x)
  end.
Definition popcount (x : Z) : Z := popcount_aux 64 x.

Definition append (t : incremental_merkle_tree) (digest : sha256) : result incremental_merkle_tree :=
  assert_ (Z.of_nat (length (trees t)) =? popcount (mask t));;
  t ← append_at 33 t digest (Z.of_nat (length (trees t))) 0;
  assert_ (Z.of_nat (length (trees t)) =? popcount (mask t));;
  Ok t.

(** [_get_root idx] on the suffix [trees[idx..]]. *)
Fixpoint get_root_from (ts : list sha256) : result sha256 :=
  match ts with
  | [] => Err undefined_behaviour
  | [x] => Ok x
  | x :: ts => r ← get_root_from ts; Ok (hash_combine x r)
  end.

Definition get_root (t : incremental_merkle_tree) : result sha256 :=
  if mask t =? 0 then Ok sha256_zero
  else
    assert_ (negb (Z.of_nat (length (trees t)) =? 0));;
    get_root_from (trees t).

Definition num_digests_appended (t : incremental_merkle_tree) : Z := mask t.

Fixpoint append_all (t : incremental_merkle_tree) (l : list sha256) : result incremental_merkle_tree :=
  match l with
  | [] => Ok t
  | d :: l => t ← append t d; append_all t l
  end.

(** ** Reference definitions *)

(** The root of a perfect tree with [2^n] leaves. *)
Fixpoint perfect_root (n : nat) (l : list sha256) : sha256 :=
  match n with
  | O => default sha256_zero (head l)
  | S n => hash_combine (perfect_root n (take (2 ^ n) l)) (perfect_root n (drop (2 ^ n) l))
  end.

(** [forest k m L ts]: the leaves [L] are [m * 2^k] many, and [ts] holds the
    roots of the perfect trees for the set bits of [m], largest first; bit [i]
    of [m] stands for a tree with [2^(k+i)] leaves. *)
Inductive forest : nat → Z → list sha256 → list sha256 → Prop :=
| forest_nil k : forest k 0 [] []
| forest_even k m L ts : 0 < m → forest (S k) m L ts → forest k (2 * m) L ts
| forest_odd k m L1 L2 ts :
    0 <= m → forest (S k) m L1 ts → length L2 = (2 ^ k)%nat →
    forest k (2 * m + 1) (L1 ++ L2) (ts ++ [perfect_root k L2]).


(** ** The batch computation *)

Lemma of_nat_pow2 n : Z.of_nat (2 ^ n) = 2 ^ Z.of_nat n.
Proof. rewrite Nat2Z.inj_pow. done. Qed.

Lemma pow2_pos n : (0 < 2 ^ n)%nat.
Proof. induction n; simpl; lia. Qed.

Lemma bit_floor_pow2 n : bit_floor (Z.of_nat (2 ^ n)) = Z.of_nat (2 ^ n).
Proof.
  unfold bit_floor. pose proof (pow2_pos n). rewrite (proj2 (Z.leb_gt _ _)) by lia.
  rewrite of_nat_pow2, Z.log2_pow2 by lia. done.
Qed.

Lemma length_half {A} (l : list A) n : length l = (2 ^ S n)%nat → (length l / 2)%nat = (2 ^ n)%nat.
Proof. intros ->. rewrite Nat.pow_succ_r', Nat.mul_comm. apply Nat.div_mul. lia. Qed.

Lemma pow2_split {A} (l : list A) n :
  length l = (2 ^ S n)%nat →
  length (take (2 ^ n) l) = (2 ^ n)%nat ∧ length (drop (2 ^ n) l) = (2 ^ n)%nat.
Proof. intros H. simpl in H. rewrite length_take, length_drop. lia. Qed.

(** The opening assertions of [calculate_merkle_pow2] hold on a power of two. *)
Lemma pow2_asserts {A} (l : list A) n :
  length l = (2 ^ S n)%nat →
  (2 <=? Z.of_nat (length l)) = true ∧ (bit_floor (Z.of_nat (length l)) =? Z.of_nat (length l)) = true.
Proof.
  intros H. split.
  - pose proof (pow2_pos n). simpl in H. apply Z.leb_le. lia.
  - rewrite H, bit_floor_pow2. apply Z.eqb_refl.
Qed.

Lemma merkle_pow2_sync n : ∀ fuel l,
  length l = (2 ^ S n)%nat → (n < fuel)%nat →
  calculate_merkle_pow2 fuel false l = Ok (perfect_root (S n) l).
Proof.
  induction n as [|n IH]; intros fuel l Hl Hf; (destruct fuel as [|fuel]; [lia|]); cbn [calculate_merkle_pow2].
  all: destruct (pow2_asserts l _ Hl) as [-> ->]; cbn [assert_ check]; rewrite !bind_ok.
  - destruct l as [|a [|b [|]]]; simpl in Hl; try lia. done.
  - rewrite (proj2 (Z.eqb_neq _ _)) by (pose proof (pow2_pos n); simpl in Hl; lia).
    cbn [andb]. rewrite (length_half _ _ Hl).
    destruct (pow2_split _ _ Hl) as [H1 H2].
    rewrite !IH by (done || lia). done.
Qed.

(** A perfect tree cut into two or four slices. *)
Lemma perfect_root_2 n l :
  length l = (2 ^ S n)%nat →
  perfect_root (S n) l =
  perfect_root 1 ((λ i, perfect_root n (take (2 ^ n) (drop (2 ^ n * i) l))) <$> seq 0 2).
Proof.
  intros Hl. cbn [perfect_root seq fmap list_fmap Nat.pow]. simpl.
  rewrite Nat.mul_0_r, Nat.mul_1_r, drop_0. f_equal. f_equal.
  rewrite take_ge; [done|]. rewrite length_drop. simpl in Hl. lia.
Qed.

Lemma perfect_root_4 n l :
  length l = (2 ^ S (S n))%nat →
  perfect_root (S (S n)) l =
  perfect_root 2 ((λ i, perfect_root n (take (2 ^ n) (drop (2 ^ n * i) l))) <$> seq 0 4).
Proof.
  intros Hl. destruct (pow2_split _ _ Hl) as [H1 H2].
  cbn [perfect_root].
  change (perfect_root (S n) (take (2 ^ S n) l)) with (perfect_root (S n) (take (2 ^ S n) l)).
  simpl in Hl. simpl. rewrite !Nat.add_0_r, !Nat.mul_0_r, Nat.mul_1_r, drop_0.
  rewrite drop_drop, take_take, <- take_drop_commute.
  replace (2 ^ n `min` (2 ^ n + 2 ^ n))%nat with (2 ^ n)%nat by lia.
  replace (2 ^ n * 2)%nat with (2 ^ n + 2 ^ n)%nat by lia.
  replace (2 ^ n * 3)%nat with (2 ^ n + 2 ^ n + 2 ^ n)%nat by lia.
  do 3 f_equal. rewrite take_ge; [done|]. rewrite length_drop. lia.
Qed.

Lemma slice_length {A} (l : list A) n k i :
  length l = (2 ^ (n + k))%nat → (i < 2 ^ k)%nat →
  length (take (2 ^ n) (drop (2 ^ n * i) l)) = (2 ^ n)%nat.
Proof.
  intros Hl Hi. rewrite length_take, length_drop, Hl, Nat.pow_add_r. nia.
Qed.

(** The slices the thread pool works on: [2^k] slices of [2^(S n)] leaves. *)
Lemma merkle_slices n k fuel l :
  length l = (2 ^ (S n + k))%nat → (n < fuel)%nat →
  mapM (λ i, calculate_merkle_pow2 fuel false (take (2 ^ S n) (drop (2 ^ S n * i) l))) (seq 0 (2 ^ k))
  = Ok ((λ i, perfect_root (S n) (take (2 ^ S n) (drop (2 ^ S n * i) l))) <$> seq 0 (2 ^ k)).
Proof.
  intros Hl Hf. apply mapM_ok. intros i Hi. apply elem_of_seq in Hi.
  apply merkle_pow2_sync; [|done]. eapply slice_length; [done|lia].
Qed.

Lemma slice_size_pow2 n k : (2 ^ (n + k) / 2 ^ k)%nat = (2 ^ n)%nat.
Proof. rewrite Nat.pow_add_r. apply Nat.div_mul. pose proof (pow2_pos k). lia. Qed.

Lemma merkle_pow2 n fuel async l :
  length l = (2 ^ S n)%nat → (n < fuel)%nat →
  calculate_merkle_pow2 fuel async l = Ok (perfect_root (S n) l).
Proof.
  intros Hl Hf. destruct async; [|by apply merkle_pow2_sync].
  destruct (decide (256 <= Z.of_nat (length l))) as [Hbig|Hsmall]; last first.
  { rewrite <- (merkle_pow2_sync n fuel l) by done. destruct fuel; [lia|]. cbn [calculate_merkle_pow2].
    by rewrite (proj2 (Z.leb_gt 256 _)) by lia. }
  destruct fuel as [|fuel]; [lia|]. cbn [calculate_merkle_pow2].
  destruct (pow2_asserts l _ Hl) as [-> ->]; cbn [assert_ check]; rewrite !bind_ok.
  rewrite (proj2 (Z.eqb_neq _ _)), (proj2 (Z.leb_le 256 _)) by lia. cbn [andb].
  assert (∃ m, n = S (S m)) as [m ->].
  { destruct n as [|[|m]]; [simpl in Hl; lia..|]. by exists m. }
  destruct (2048 <=? Z.of_nat (length l)).
  - replace (length l / 4)%nat with (2 ^ S m)%nat
      by (rewrite Hl; replace (S (S (S m))) with (S m + 2)%nat by lia; symmetry; apply (slice_size_pow2 (S m) 2)).
    change (seq 0 4) with (seq 0 (2 ^ 2)). rewrite (merkle_slices m 2 fuel l) by (lia || (rewrite Hl; f_equal; lia)).
    rewrite bind_ok, (merkle_pow2_sync 1) by (done || lia). by rewrite (perfect_root_4 (S m)).
  - replace (length l / 2)%nat with (2 ^ S (S m))%nat by (by rewrite (length_half _ _ Hl)).
    change (seq 0 2) with (seq 0 (2 ^ 1)). rewrite (merkle_slices (S m) 1 fuel l) by (lia || (rewrite Hl; f_equal; lia)).
    rewrite bind_ok, (merkle_pow2_sync 0) by (done || lia). by rewrite (perfect_root_2 (S (S m))).
Qed.

(** ** Forests *)

(** The root of a forest: [get_root_from] as a total function. *)
Fixpoint forest_root (ts : list sha256) : sha256 :=
  match ts with
  | [] => sha256_zero
  | [x] => x
  | x :: ts => hash_combine x (forest_root ts)
  end.

Lemma get_root_from_ok ts : ts ≠ [] → get_root_from ts = Ok (forest_root ts).
Proof.
  induction ts as [|x [|y ts] IH]; intros H; [done|done|].
  change (get_root_from (x :: y :: ts)) with (r ← get_root_from (y :: ts); Ok (hash_combine x r)).
  rewrite IH by done. done.
Qed.

Lemma forest_nonneg k m L ts : forest k m L ts → 0 <= m.
Proof. induction 1; lia. Qed.

Lemma forest_length k m L ts : forest k m L ts → Z.of_nat (length L) = m * 2 ^ Z.of_nat k.
Proof.
  induction 1 as [|k m L ts Hm _ IH|k m L1 L2 ts Hm _ IH Hl]; [done|..].
  - rewrite IH, Nat2Z.inj_succ, Z.pow_succ_r by lia. lia.
  - rewrite length_app, Nat2Z.inj_add, IH, Hl, of_nat_pow2, Nat2Z.inj_succ, Z.pow_succ_r by lia. lia.
Qed.

Lemma forest_zero k L ts : forest k 0 L ts → L = [] ∧ ts = [].
Proof. inversion 1; subst; try lia. done. Qed.

Lemma forest_empty k m L : forest k m L [] → L = [].
Proof.
  remember [] as ts eqn:Hts. induction 1; [done|by auto|].
  by apply app_nil in Hts as [_ ?].
Qed.

(** The largest tree of a forest comes first. *)
Lemma forest_head k m L ts :
  forest k m L ts → 0 < m →
  ∃ L1 L2 ts', L = L1 ++ L2 ∧ ts = perfect_root (k + Z.to_nat (Z.log2 m)) L1 :: ts' ∧
    length L1 = (2 ^ (k + Z.to_nat (Z.log2 m)))%nat ∧
    forest k (m - 2 ^ Z.log2 m) L2 ts'.
Proof.
  induction 1 as [|k m L ts Hm Hf IH|k m L1 L2 ts Hm Hf IH Hl]; intros Hpos; [lia|..].
  - destruct IH as (L1 & L2 & ts' & -> & -> & Hl & Hf'); [done|].
    assert (Z.log2 (2 * m) = Z.succ (Z.log2 m)) as Hlog by (apply Z.log2_double; lia).
    pose proof (Z.log2_nonneg m). rewrite Hlog, Z2Nat.inj_succ, Z.pow_succ_r by lia.
    rewrite Nat.add_succ_r. exists L1, L2, ts'. repeat split; [done|].
    replace (2 * m - 2 * 2 ^ Z.log2 m) with (2 * (m - 2 ^ Z.log2 m)) by lia.
    pose proof (forest_nonneg _ _ _ _ Hf').
    destruct (decide (m - 2 ^ Z.log2 m = 0)) as [Heq|]; [|constructor; [lia|done]].
    rewrite Heq in Hf' |- *. apply forest_zero in Hf' as [-> ->]. constructor.
  - destruct (decide (m = 0)) as [->|Hne].
    + apply forest_zero in Hf as [-> ->]. simpl. rewrite Nat.add_0_r.
      exists L2, [], []. rewrite app_nil_r. repeat split; [done|]. constructor.
    + destruct IH as (L1' & L2' & ts' & -> & -> & Hl' & Hf'); [lia|].
      assert (Z.log2 (2 * m + 1) = Z.succ (Z.log2 m)) as Hlog by (apply Z.log2_succ_double; lia).
      pose proof (Z.log2_nonneg m). rewrite Hlog, Z2Nat.inj_succ, Z.pow_succ_r by lia.
      rewrite Nat.add_succ_r. exists L1', (L2' ++ L2), (ts' ++ [perfect_root k L2]).
      rewrite app_assoc. repeat split; [done|].
      replace (2 * m + 1 - 2 * 2 ^ Z.log2 m) with (2 * (m - 2 ^ Z.log2 m) + 1) by lia.
      constructor; [|done..]. by eapply forest_nonneg.
Qed.

Lemma calculate_merkle_forest fuel : ∀ m L ts,
  forest 0 m L ts → (length L < fuel)%nat → calculate_merkle_aux fuel L = Ok (forest_root ts).
Proof.
  induction fuel as [|fuel IH]; intros m L ts Hf Hfuel; [lia|]. cbn [calculate_merkle_aux].
  pose proof (forest_length _ _ _ _ Hf) as Hm. rewrite Z.mul_1_r in Hm. rewrite Hm.
  destruct (decide (m <= 0)) as [H0|Hpos].
  { pose proof (forest_nonneg _ _ _ _ Hf). assert (m = 0) as -> by lia.
    apply forest_zero in Hf as [-> ->]. done. }
  destruct (forest_head _ _ _ _ Hf) as (L1 & L2 & ts' & -> & -> & Hl & Hf'); [lia|]. simpl in Hl.
  rewrite length_app in *. pose proof (forest_length _ _ _ _ Hf') as Hm'. rewrite Z.mul_1_r in Hm'.
  destruct (Z.leb_spec m 1) as [H1|H1].
  { assert (m = 1) as -> by lia. assert (L2 = []) as -> by (by destruct L2).
    apply forest_zero in Hf' as [_ ->]. by destruct L1 as [|? [|]]. }
  pose proof (Z.log2_pos m). assert (∃ n, Z.to_nat (Z.log2 m) = S n) as [n Hn].
  { exists (Nat.pred (Z.to_nat (Z.log2 m))). lia. }
  assert (bit_floor m = Z.of_nat (length L1)) as ->.
  { unfold bit_floor. rewrite (proj2 (Z.leb_gt m 0)), Hl, of_nat_pow2, Z2Nat.id by lia. done. }
  rewrite Hn in Hl |- *. simpl plus.
  assert (S n < 2 ^ S n)%nat as Hgt by (apply Nat.pow_gt_lin_r; lia).
  destruct (Z.eqb_spec m (Z.of_nat (length L1))) as [He|Hne].
  - assert (L2 = []) as -> by (destruct L2; [done|simpl in *; lia]).
    assert (m - 2 ^ Z.log2 m = 0) as Hz by (simpl in *; lia). rewrite Hz in Hf'.
    apply forest_zero in Hf' as [_ ->]. rewrite app_nil_r, (merkle_pow2 n) by (simpl in *; lia). done.
  - rewrite Nat2Z.id, take_app_length, drop_app_length, (merkle_pow2 n), bind_ok by (simpl in *; lia).
    rewrite (IH _ _ _ Hf') by lia. destruct ts' as [|]; [|done].
    apply forest_empty in Hf'. subst L2. simpl in *. lia.
Qed.

(** ** Appending *)

Lemma land_bit (x : Z) i : 0 <= i → negb (Z.land x (Z.shiftl 1 i) =? 0) = Z.testbit x i.
Proof.
  intros Hi. rewrite Z.shiftl_1_l. destruct (Z.testbit x i) eqn:E.
  - apply negb_true_iff, Z.eqb_neq. intros H0.
    assert (Z.testbit (Z.land x (2 ^ i)) i = false) as H by (rewrite H0; apply Z.bits_0).
    rewrite Z.land_spec, E, Z.pow2_bits_true in H by lia. done.
  - apply negb_false_iff, Z.eqb_eq. apply Z.bits_inj'. intros j Hj.
    rewrite Z.land_spec, Z.bits_0, Z.pow2_bits_eqb by lia.
    destruct (Z.eqb_spec i j) as [->|]; [by rewrite E|by rewrite andb_false_r].
Qed.

Lemma lor_bit_clear (x : Z) i : 0 <= i → Z.testbit x i = false → Z.lor x (Z.shiftl 1 i) = x + 2 ^ i.
Proof.
  intros Hi Hb. rewrite Z.shiftl_1_l, <- Z.lxor_lor, <- Z.add_nocarry_lxor; [done|..].
  all: pose proof (land_bit x i Hi) as H; rewrite Hb, Z.shiftl_1_l in H; by apply negb_false_iff, Z.eqb_eq in H.
Qed.

Lemma land_lnot_bit (x : Z) i :
  is_u64 x → 0 <= i < 64 → Z.testbit x i = true →
  Z.land x (u64 (Z.lnot (Z.shiftl 1 i))) = x - 2 ^ i.
Proof.
  intros Hx Hi Hb. rewrite Z.shiftl_1_l, Z.sub_nocarry_ldiff.
  - unfold u64. rewrite <- Z.land_ones, (Z.land_comm (Z.lnot _)), Z.land_assoc, Z.land_ones by lia.
    rewrite Z.mod_small by exact Hx. by rewrite <- Z.ldiff_land.
  - apply Z.bits_inj'. intros j Hj. rewrite Z.ldiff_spec, Z.bits_0, Z.pow2_bits_eqb by lia.
    destruct (Z.eqb_spec i j) as [->|]; [by rewrite Hb|done].
Qed.

Lemma testbit_shifted m k i : 0 <= k → 0 <= i → Z.testbit (m * 2 ^ k) (k + i) = Z.testbit m i.
Proof. intros Hk Hi. rewrite <- Z.shiftl_mul_pow2, Z.shiftl_spec by lia. f_equal. lia. Qed.

Lemma is_bit_set_at m k i ts :
  0 <= i → Z.of_nat k + i < 64 →
  is_bit_set (IMT (m * 2 ^ Z.of_nat k) ts) (Z.of_nat k + i) = Ok (Z.testbit m i).
Proof.
  intros Hi Hk. unfold is_bit_set, shl1.
  rewrite (proj2 (Z.leb_le 0 _)), (proj2 (Z.ltb_lt _ 64)) by lia. simpl.
  rewrite land_bit, testbit_shifted by lia. done.
Qed.

Lemma set_bit_at m k i ts :
  0 <= i → Z.of_nat k + i < 64 → Z.testbit m i = false →
  set_bit (IMT (m * 2 ^ Z.of_nat k) ts) (Z.of_nat k + i) = Ok (IMT ((m + 2 ^ i) * 2 ^ Z.of_nat k) ts).
Proof.
  intros Hi Hk Hb. unfold set_bit, shl1.
  rewrite (proj2 (Z.leb_le 0 _)), (proj2 (Z.ltb_lt _ 64)) by lia. simpl.
  rewrite lor_bit_clear by (rewrite ?testbit_shifted; lia || done).
  rewrite Z.pow_add_r by lia. do 2 f_equal. ring.
Qed.

Lemma clear_bit_at m k i ts :
  0 <= i → Z.of_nat k + i < 64 → Z.testbit m i = true → is_u64 (m * 2 ^ Z.of_nat k) →
  clear_bit (IMT (m * 2 ^ Z.of_nat k) ts) (Z.of_nat k + i) = Ok (IMT ((m - 2 ^ i) * 2 ^ Z.of_nat k) ts).
Proof.
  intros Hi Hk Hb Hu. unfold clear_bit, shl1.
  rewrite (proj2 (Z.leb_le 0 _)), (proj2 (Z.ltb_lt _ 64)) by lia. simpl.
  rewrite land_lnot_bit by (rewrite ?testbit_shifted; lia || done).
  rewrite Z.pow_add_r by lia. do 2 f_equal. ring.
Qed.

Lemma is_bit_set_0 m k ts :
  Z.of_nat k < 64 → is_bit_set (IMT (m * 2 ^ Z.of_nat k) ts) (Z.of_nat k) = Ok (Z.odd m).
Proof.
  intros Hk. rewrite <- Z.bit0_odd, <- (is_bit_set_at m k 0 ts) by lia. by rewrite Z.add_0_r.
Qed.

Lemma set_bit_0 m k ts :
  Z.of_nat k < 64 → Z.odd m = false →
  set_bit (IMT (m * 2 ^ Z.of_nat k) ts) (Z.of_nat k) = Ok (IMT ((m + 1) * 2 ^ Z.of_nat k) ts).
Proof.
  intros Hk Hb. rewrite <- Z.bit0_odd in Hb.
  pose proof (set_bit_at m k 0 ts) as H. rewrite Z.add_0_r in H. apply H; lia || done.
Qed.

Lemma clear_bit_0 m k ts :
  Z.of_nat k < 64 → Z.odd m = true → is_u64 (m * 2 ^ Z.of_nat k) →
  clear_bit (IMT (m * 2 ^ Z.of_nat k) ts) (Z.of_nat k) = Ok (IMT ((m - 1) * 2 ^ Z.of_nat k) ts).
Proof.
  intros Hk Hb Hu. rewrite <- Z.bit0_odd in Hb.
  pose proof (clear_bit_at m k 0 ts) as H. rewrite Z.add_0_r in H. apply H; lia || done.
Qed.

(** Combining perfect trees of equal size. *)
Lemma perfect_root_app k L1 L2 :
  length L1 = (2 ^ k)%nat →
  hash_combine (perfect_root k L1) (perfect_root k L2) = perfect_root (S k) (L1 ++ L2).
Proof. intros H. cbn [perfect_root]. rewrite <- H, take_app_length, drop_app_length. done. Qed.

Lemma vec_at_snoc {A} (l : list A) x r :
  vec_at (l ++ x :: r) (Z.of_nat (length l)) = Ok x.
Proof. apply vec_at_lookup; [lia|]. rewrite Nat2Z.id. apply list_lookup_middle. done. Qed.

Lemma shift_bound m k : 0 <= m → (m + 1) * 2 ^ Z.of_nat k <= 2 ^ 63 →
  Z.of_nat k < 64 ∧ (0 < m → Z.of_nat k + 1 < 64) ∧ is_u64 (m * 2 ^ Z.of_nat k).
Proof.
  intros Hm Hb. pose proof (Z.pow_pos_nonneg 2 (Z.of_nat k) ltac:(lia) ltac:(lia)).
  assert (Z.of_nat k < 64).
  { destruct (Z_lt_ge_dec (Z.of_nat k) 64) as [|Hge]; [done|exfalso].
    assert (2 ^ 64 <= 2 ^ Z.of_nat k) as Hle by (apply Z.pow_le_mono_r; lia).
    change (2 ^ 63) with 9223372036854775808 in Hb. change (2 ^ 64) with 18446744073709551616 in Hle. nia. }
  repeat split; [done| |nia|change (2 ^ 63) with 9223372036854775808 in Hb; nia].
  intros Hp. destruct (Z_lt_ge_dec (Z.of_nat k) 63) as [|Hge]; [lia|exfalso].
  assert (Z.of_nat k = 63) as Hk by lia. rewrite Hk in Hb. nia.
Qed.

(** Inserting into a forest with an even count only adds a tree. *)
Lemma append_at_even fuel q k L ts D :
  forest k (2 * q) L ts → length D = (2 ^ k)%nat → (2 * q + 1) * 2 ^ Z.of_nat k <= 2 ^ 63 →
  ∃ ts', append_at (S fuel) (IMT (2 * q * 2 ^ Z.of_nat k) ts) (perfect_root k D) (Z.of_nat (length ts)) (Z.of_nat k)
         = Ok (IMT ((2 * q + 1) * 2 ^ Z.of_nat k) ts') ∧ forest k (2 * q + 1) (L ++ D) ts'.
Proof.
  intros Hf HD Hb. pose proof (forest_nonneg _ _ _ _ Hf) as Hq.
  destruct (shift_bound _ _ Hq Hb) as (Hk & _ & _).
  exists (ts ++ [perfect_root k D]). split.
  - cbn [append_at]. assert (Z.odd (2 * q) = false) as Hodd by (by rewrite Z.odd_mul).
    rewrite is_bit_set_0, Hodd, bind_ok by lia. unfold set_trees; simpl trees; simpl mask.
    rewrite Nat2Z.id, take_ge, drop_ge by lia. by rewrite set_bit_0 by lia || done.
  - constructor; [lia| |done]. inversion Hf; subst; try lia.
    + replace q with 0 by lia. constructor.
    + by replace q with m by lia.
Qed.

Lemma forest_even_inv k q L ts : forest k (2 * q) L ts → forest (S k) q L ts.
Proof.
  inversion 1; subst; try lia.
  - replace q with 0 by lia. constructor.
  - by replace q with m by lia.
Qed.

Lemma forest_odd_inv k q L ts : forest k (2 * q + 1) L ts →
  ∃ L1 L2 ts', L = L1 ++ L2 ∧ ts = ts' ++ [perfect_root k L2] ∧ length L2 = (2 ^ k)%nat ∧ forest (S k) q L1 ts'.
Proof. inversion 1; subst; try lia. replace q with m by lia. eauto 10. Qed.

Lemma forest_step k m L ts : 0 < m → forest (S k) m L ts → forest k (2 * m) L ts.
Proof. by constructor. Qed.

Lemma double_app_length {A} (L1 L2 : list A) k :
  length L1 = (2 ^ k)%nat → length L2 = (2 ^ k)%nat → length (L1 ++ L2) = (2 ^ S k)%nat.
Proof. intros. rewrite length_app. simpl. lia. Qed.

Lemma even_odd_cases m : 0 <= m → ∃ q, 0 <= q ∧ (m = 2 * q ∨ m = 2 * q + 1).
Proof. intros Hm. exists (m / 2). pose proof (Z.div_mod m 2). pose proof (Z.mod_pos_bound m 2). lia. Qed.

Lemma testbit_1_odd m : Z.testbit (2 * m + 1) 1 = Z.odd m.
Proof. change 1 with (Z.succ 0) at 2. by rewrite Z.testbit_odd_succ, Z.bit0_odd by lia. Qed.

Lemma testbit_1_even m : Z.testbit (2 * m) 1 = Z.odd m.
Proof. change 1 with (Z.succ 0). by rewrite Z.testbit_even_succ, Z.bit0_odd by lia. Qed.

(** One tree of the same size is present and none of twice the size. *)
Lemma append_at_one fuel q k L ts D :
  forest k (2 * (2 * q) + 1) L ts → length D = (2 ^ k)%nat →
  (2 * (2 * q) + 1 + 1) * 2 ^ Z.of_nat k <= 2 ^ 63 →
  ∃ ts', append_at (S fuel) (IMT ((2 * (2 * q) + 1) * 2 ^ Z.of_nat k) ts) (perfect_root k D) (Z.of_nat (length ts)) (Z.of_nat k)
         = Ok (IMT ((2 * (2 * q) + 1 + 1) * 2 ^ Z.of_nat k) ts') ∧ forest k (2 * (2 * q) + 1 + 1) (L ++ D) ts'.
Proof.
  intros Hf HD Hb. pose proof (forest_nonneg _ _ _ _ Hf) as Hq.
  destruct (shift_bound _ _ Hq Hb) as (Hk & Hk1 & Hu).
  destruct (forest_odd_inv _ _ _ _ Hf) as (L1 & L2 & ts' & -> & -> & HL2 & Hf').
  exists (ts' ++ [perfect_root (S k) (L2 ++ D)]). split.
  - cbn [append_at]. rewrite is_bit_set_0, Z.odd_odd, bind_ok by lia. simpl trees.
    rewrite (assert_true (negb _)), bind_ok by (apply negb_true_iff, Z.eqb_neq; rewrite length_app; simpl; lia).
    rewrite is_bit_set_at, testbit_1_odd, Z.odd_even by lia. rewrite bind_ok. cbn [negb].
    replace (Z.of_nat (length (ts' ++ [perfect_root k L2])) - 1) with (Z.of_nat (length ts'))
      by (rewrite length_app; simpl; lia).
    rewrite vec_at_snoc, bind_ok, Nat2Z.id. unfold set_trees; simpl trees; simpl mask.
    rewrite insert_app_r_alt, Nat.sub_diag by lia. simpl insert. rewrite perfect_root_app by done.
    rewrite clear_bit_0, bind_ok by (lia || done || apply Z.odd_odd).
    rewrite set_bit_at; [do 3 f_equal; lia|lia|lia|].
    replace (2 * (2 * q) + 1 - 1) with (2 * (2 * q)) by lia.
    by rewrite testbit_1_even, Z.odd_even.
  - replace (2 * (2 * q) + 1 + 1) with (2 * (2 * q + 1)) by lia. apply forest_step; [lia|].
    rewrite <- app_assoc. constructor; [lia|by apply forest_even_inv|by apply double_app_length].
Qed.

Lemma append_at_spec fuel : ∀ m k L ts D,
  forest k m L ts → length D = (2 ^ k)%nat → (m + 1) * 2 ^ Z.of_nat k <= 2 ^ 63 →
  64 <= 2 * Z.of_nat fuel + Z.of_nat k →
  ∃ ts', append_at fuel (IMT (m * 2 ^ Z.of_nat k) ts) (perfect_root k D) (Z.of_nat (length ts)) (Z.of_nat k)
         = Ok (IMT ((m + 1) * 2 ^ Z.of_nat k) ts') ∧ forest k (m + 1) (L ++ D) ts'.
Proof.
  induction fuel as [|fuel IH]; intros m k L ts D Hf HD Hb Hfuel;
    pose proof (forest_nonneg _ _ _ _ Hf) as Hm; destruct (shift_bound _ _ Hm Hb) as (Hk & Hk1 & Hu); [lia|].
  destruct (even_odd_cases m Hm) as (r & Hr & [-> | ->]); [by apply append_at_even|].
  destruct (even_odd_cases r Hr) as (q & Hq & [-> | ->]); [by apply append_at_one|].
  destruct (forest_odd_inv _ _ _ _ Hf) as (L1 & L2 & ts1 & -> & -> & HL2 & Hf1).
  destruct (forest_odd_inv _ _ _ _ Hf1) as (L0 & L1' & ts0 & -> & -> & HL1 & Hf0).
  assert ((q + 1) * 2 ^ Z.of_nat (S (S k)) = (2 * (2 * q + 1) + 1 + 1) * 2 ^ Z.of_nat k) as Hpow.
  { rewrite !Nat2Z.inj_succ, !Z.pow_succ_r by lia. lia. }
  destruct (IH q (S (S k)) L0 ts0 (L1' ++ (L2 ++ D))) as (ts' & Happ & Hfor); [done|..].
  { apply double_app_length; [done|]. by apply double_app_length. }
  { by rewrite Hpow. }
  { lia. }
  exists ts'. split; last first.
  { replace (2 * (2 * q + 1) + 1 + 1) with (2 * (2 * (q + 1))) by lia.
    rewrite <- !app_assoc. do 2 (apply forest_step; [lia|]). done. }
  rewrite <- Hpow, <- Happ. cbn [append_at].
  rewrite is_bit_set_0, Z.odd_odd, bind_ok by lia. cbn [trees].
  rewrite (assert_true (negb _)), bind_ok by (apply negb_true_iff, Z.eqb_neq; rewrite !length_app; simpl; lia).
  rewrite is_bit_set_at, testbit_1_odd, Z.odd_odd by lia. rewrite bind_ok. cbn [negb].
  rewrite assert_true, bind_ok by (apply Z.leb_le; rewrite !length_app; simpl; lia).
  rewrite clear_bit_0, bind_ok by (lia || done || apply Z.odd_odd).
  replace (2 * (2 * q + 1) + 1 - 1) with (2 * (2 * q + 1)) by lia.
  rewrite clear_bit_at, bind_ok by (lia || (unfold is_u64 in *; nia) || (rewrite testbit_1_even; apply Z.odd_odd)).
  cbn [trees]. rewrite <- !app_assoc. cbn [app].
  replace (Z.of_nat (length (ts0 ++ [perfect_root (S k) L1'; perfect_root k L2]))) with (Z.of_nat (length ts0) + 2)
    by (rewrite length_app; simpl; lia).
  rewrite Z.add_simpl_r, vec_at_snoc, bind_ok.
  replace (Z.of_nat (length ts0) + 2 - 1) with (Z.of_nat (length (ts0 ++ [perfect_root (S k) L1'])))
    by (rewrite length_app; simpl; lia).
  rewrite (cons_middle (perfect_root (S k) L1')), app_assoc, vec_at_snoc, bind_ok.
  rewrite (perfect_root_app k L2) by done. rewrite perfect_root_app by done.
  unfold set_trees; cbn [trees mask]. f_equal.
  - f_equal; [rewrite !Nat2Z.inj_succ, !Z.pow_succ_r by lia; lia|].
    rewrite Nat2Z.id, <- app_assoc, take_app_length, drop_ge, app_nil_r; [done|].
    rewrite !length_app. simpl. lia.
  - lia.
Qed.

(** The forest of all leaves appended so far; the root depends on them only. *)
Lemma forest_popcount n : ∀ k m L ts,
  forest k m L ts → m < 2 ^ Z.of_nat n → Z.of_nat (length ts) = popcount_aux n m.
Proof.
  induction n as [|n IH]; intros k m L ts Hf Hm.
  { pose proof (forest_nonneg _ _ _ _ Hf). assert (m = 0) as -> by (simpl in Hm; lia).
    by apply forest_zero in Hf as [_ ->]. }
  rewrite Nat2Z.inj_succ, Z.pow_succ_r in Hm by lia. cbn [popcount_aux].
  destruct (even_odd_cases m (forest_nonneg _ _ _ _ Hf)) as (q & Hq & [-> | ->]).
  - rewrite Z.odd_even, Z.div2_div, Z.mul_comm, Z.div_mul by lia.
    rewrite <- (IH (S k) q L ts); [lia|by apply forest_even_inv|lia].
  - destruct (forest_odd_inv _ _ _ _ Hf) as (L1 & L2 & ts' & -> & -> & _ & Hf').
    rewrite Z.odd_odd, length_app.
    replace (Z.div2 (2 * q + 1)) with q by (rewrite Z.div2_div; apply (Z.div_unique _ 2 q 1); lia).
    rewrite <- (IH (S k) q L1 ts'); [simpl; lia|done|lia].
Qed.

Definition tree_repr (t : incremental_merkle_tree) (L : list sha256) : Prop :=
  forest 0 (mask t) L (trees t).

Lemma tree_repr_empty : tree_repr empty_tree [].
Proof. constructor. Qed.

Lemma tree_repr_count t L : tree_repr t L → mask t = Z.of_nat (length L).
Proof. intros H. apply forest_length in H. rewrite Z.mul_1_r in H. done. Qed.

Lemma tree_repr_popcount t L :
  tree_repr t L → mask t < 2 ^ 64 → Z.of_nat (length (trees t)) = popcount (mask t).
Proof. intros H Hm. by eapply (forest_popcount 64). Qed.

Lemma append_repr t L d :
  tree_repr t L → mask t < 2 ^ 63 →
  ∃ t', append t d = Ok t' ∧ tree_repr t' (L ++ [d]) ∧ mask t' = mask t + 1.
Proof.
  intros Hr Hm. destruct (append_at_spec 33 (mask t) 0 L (trees t) [d]) as (ts' & Happ & Hf).
  { exact Hr. }
  { reflexivity. }
  { change (2 ^ Z.of_nat 0) with 1. lia. }
  { lia. }
  rewrite !Z.mul_1_r in Happ. change (perfect_root 0 [d]) with d in Happ.
  change (Z.of_nat 0) with 0 in Happ.
  exists (IMT (mask t + 1) ts'). split; [|done]. unfold append.
  rewrite assert_true by (apply Z.eqb_eq, (tree_repr_popcount t L); [done|lia]). rewrite bind_ok.
  destruct t as [m ts]. cbn [mask trees] in *. rewrite Happ, bind_ok. cbn [mask trees].
  rewrite assert_true; [done|]. apply Z.eqb_eq.
  apply (tree_repr_popcount (IMT (m + 1) ts') (L ++ [d])); [done|cbn [mask]; lia].
Qed.

Lemma append_all_repr l : ∀ t L,
  tree_repr t L → mask t + Z.of_nat (length l) <= 2 ^ 63 →
  ∃ t', append_all t l = Ok t' ∧ tree_repr t' (L ++ l).
Proof.
  induction l as [|d l IH]; intros t L Hr Hm; simpl append_all.
  { exists t. by rewrite app_nil_r. }
  simpl length in Hm. destruct (append_repr t L d Hr) as (t' & -> & Hr' & Hm'); [lia|]. rewrite bind_ok.
  destruct (IH t' (L ++ [d]) Hr') as (t'' & -> & Hr''); [lia|].
  exists t''. by rewrite <- app_assoc in Hr''.
Qed.

Lemma get_root_repr t L : tree_repr t L → get_root t = calculate_merkle L.
Proof.
  intros Hr. unfold calculate_merkle. rewrite (calculate_merkle_forest _ (mask t) L (trees t)) by (done || lia).
  unfold get_root. destruct (Z.eqb_spec (mask t) 0) as [H0|Hne].
  - unfold tree_repr in Hr. rewrite H0 in Hr. by apply forest_zero in Hr as [_ ->].
  - assert (trees t ≠ []) as Hts.
    { intros Hts. pose proof (tree_repr_count _ _ Hr). unfold tree_repr in Hr. rewrite Hts in Hr.
      apply forest_empty in Hr. subst. done. }
    rewrite assert_true by (apply negb_true_iff, Z.eqb_neq; destruct (trees t); simpl; [done|lia]).
    by rewrite bind_ok, get_root_from_ok.
Qed.

Lemma calculate_merkle_total l : Z.of_nat (length l) <= 2 ^ 63 → ∃ r, calculate_merkle l = Ok r.
Proof.
  intros Hl. destruct (append_all_repr l empty_tree [] tree_repr_empty Hl) as (t & Ht & Hr).
  exists (forest_root (trees t)). apply (calculate_merkle_forest _ (mask t)); [done|lia].
Qed.


End Merkle.

(** ** Concrete runs *)

(** A stand-in hash for evaluation: a polynomial over the bytes. *)
Definition toy_hash (l : list Z) : sha256 :=
  Sha256 (u64 (foldl (λ a x, a * 31 + x + 7) 5 l)) (Z.of_nat (length l)) 0 0.

Definition sample_digests (n : nat) : list sha256 := (λ i, Sha256 (Z.of_nat i) 1 2 3) <$> seq 0 n.

