(* ===== verification/FinalityCore.v ===== *)
(** * The finality core: [finality_core.hpp] / [finality_core.cpp]

    The data a block carries to compute finality: the QC links back to the last
    final block, and references to the reversible ancestors.  Every function is
    in the error monad; a failing [assert] of the source is [Err assert_failed]. *)

From S2P Require Import Prelude Sha256 Merkle.
Open Scope Z_scope.

(** A [block_timestamp_type] is represented by its slot. *)
Record block_ref : Type := BlockRef {
  block_id : sha256;
  timestamp : Z;
  finality_digest : sha256;
  active_policy_generation : Z;
  pending_policy_generation : Z }.

Definition empty_block_ref : block_ref := BlockRef sha256_zero 0 sha256_zero 0 0.

Definition block_ref_empty (r : block_ref) : bool := sha256_empty (block_id r).

Definition block_num (r : block_ref) : Z := num_from_id (block_id r).

Arguments block_num : simpl never.

Record qc_link : Type := QcLink {
  source_block_num : Z;
  target_block_num : Z;
  is_link_strong : bool }.

Record qc_claim_t : Type := QcClaim {
  claim_block_num : Z;
  is_strong_qc : bool }.

(** The defaulted [operator<=>]: lexicographic, with [false < true]. *)
Definition qc_claim_le (a b : qc_claim_t) : bool :=
  (claim_block_num a <? claim_block_num b)
  || ((claim_block_num a =? claim_block_num b) && (implb (is_strong_qc a) (is_strong_qc b))).

Record core_metadata : Type := CoreMetadata {
  md_last_final_block_num : Z;
  md_latest_qc_claim_block_num : Z }.

Record finality_core : Type := FinalityCore {
  links : list qc_link;
  refs : list block_ref;
  genesis_timestamp : Z }.

#[export] Instance block_ref_eq_dec : EqDecision block_ref.
Proof. solve_decision. Defined.
#[export] Instance qc_link_eq_dec : EqDecision qc_link.
Proof. solve_decision. Defined.
#[export] Instance qc_claim_eq_dec : EqDecision qc_claim_t.
Proof. solve_decision. Defined.
#[export] Instance finality_core_eq_dec : EqDecision finality_core.
Proof. solve_decision. Defined.

(** ** Operations *)

Definition is_empty {A} (l : list A) : bool := match l with [] => true | _ => false end.

Definition create_core_for_genesis_block (id : sha256) (ts : Z) : finality_core :=
  let num := num_from_id id in
  {| links := [QcLink num num false]; refs := []; genesis_timestamp := ts |}.

Definition is_genesis_core (c : finality_core) : bool := is_empty (refs c).

Definition current_block_num (c : finality_core) : result Z :=
  assert_ (negb (is_empty (links c)));;
  l ← vec_back (links c);
  Ok (source_block_num l).

Definition last_final_block_num (c : finality_core) : result Z :=
  assert_ (negb (is_empty (links c)));;
  l ← vec_front (links c);
  Ok (target_block_num l).

Definition latest_qc_claim (c : finality_core) : result qc_claim_t :=
  assert_ (negb (is_empty (links c)));;
  l ← vec_back (links c);
  Ok (QcClaim (target_block_num l) (is_link_strong l)).

Definition get_block_reference (c : finality_core) (num : Z) : result block_ref :=
  lf ← last_final_block_num c;
  assert_ (lf <=? num);;
  cur ← current_block_num c;
  assert_ (num <? cur);;
  let ref_index := u32 (num - lf) in
  assert_ (ref_index <? Z.of_nat (length (refs c)));;
  vec_at (refs c) ref_index.

Definition last_final_block_timestamp (c : finality_core) : result Z :=
  if is_genesis_core c then Ok (genesis_timestamp c)
  else lf ← last_final_block_num c; r ← get_block_reference c lf; Ok (timestamp r).

Definition latest_qc_block_timestamp (c : finality_core) : result Z :=
  assert_ (negb (is_empty (links c)));;
  if is_genesis_core c then Ok (genesis_timestamp c)
  else l ← vec_back (links c); r ← get_block_reference c (target_block_num l); Ok (timestamp r).

Definition extends (c : finality_core) (id : sha256) : result bool :=
  let num := num_from_id id in
  lf ← last_final_block_num c;
  cur ← current_block_num c;
  if (lf <=? num) && (num <? cur) then
    ref ← get_block_reference c num;
    Ok (sha256_eqb (block_id ref) id)
  else Ok false.

Definition is_genesis_block_num (c : finality_core) (candidate : Z) : result bool :=
  lf ← last_final_block_num c;
  cur ← current_block_num c;
  assert_ ((lf <=? candidate) && (candidate <=? cur));;
  l ← vec_front (links c);
  Ok ((source_block_num l =? target_block_num l) && (source_block_num l =? candidate)).

(** [block_ref_digest_data], as packed for hashing. *)
Definition pack_block_ref_digest_data (num ts : Z) (digest : sha256) (parent_ts : Z) : list Z :=
  pack_u32 num ++ pack_u32 ts ++ pack_sha256 digest ++ pack_u32 parent_ts.

(** The digests of [refs[1..]], each with the timestamp of its predecessor. *)
Fixpoint block_ref_digests (sha256_hash : list Z → sha256) (prev : block_ref) (rs : list block_ref) : list sha256 :=
  match rs with
  | [] => []
  | r :: rs =>
    sha256_hash (pack_block_ref_digest_data (block_num r) (timestamp r) (finality_digest r) (timestamp prev))
    :: block_ref_digests sha256_hash r rs
  end.

Definition get_reversible_blocks_mroot (sha256_hash : list Z → sha256) (c : finality_core) : result sha256 :=
  match refs c with
  | [] | [_] => Ok sha256_zero
  | r :: rs => calculate_merkle sha256_hash (block_ref_digests sha256_hash r rs)
  end.

Definition get_qc_link_from (c : finality_core) (num : Z) : result qc_link :=
  assert_ (negb (is_empty (links c)));;
  front ← vec_front (links c);
  assert_ (source_block_num front <=? num);;
  cur ← current_block_num c;
  assert_ (num <=? cur);;
  let link_index := u32 (num - source_block_num front) in
  assert_ (link_index <? Z.of_nat (length (links c)));;
  vec_at (links c) link_index.

(** (new last final block number, source block number of the first link kept). *)
Definition get_new_block_numbers (c : finality_core) (claim : qc_claim_t) : result (Z * Z) :=
  cur ← current_block_num c;
  assert_ (claim_block_num claim <=? cur);;
  latest ← latest_qc_claim c;
  assert_ (claim_block_num latest <=? claim_block_num claim);;
  front ← vec_front (links c);
  assert_ (source_block_num front <=? claim_block_num claim);;
  lf ← last_final_block_num c;
  if negb (is_strong_qc claim) then Ok (lf, source_block_num front)
  else
    link ← get_qc_link_from c (claim_block_num claim);
    assert_ (lf <=? target_block_num link);;
    assert_ (source_block_num front <=? source_block_num link);;
    assert_ (claim_block_num latest <=? claim_block_num claim);;
    Ok (target_block_num link, source_block_num link).

Definition next_metadata (c : finality_core) (claim : qc_claim_t) : result core_metadata :=
  cur ← current_block_num c;
  assert_ (claim_block_num claim <=? cur);;
  latest ← latest_qc_claim c;
  assert_ (qc_claim_le latest claim);;
  '(new_last_final, _) ← get_new_block_numbers c claim;
  Ok (CoreMetadata new_last_final (claim_block_num claim)).

(** [{v.cbegin() + i, v.cend()}]: undefined when [i] is past the end. *)
Definition vec_suffix {A} (l : list A) (i : Z) : result (list A) :=
  if (0 <=? i) && (i <=? Z.of_nat (length l)) then Ok (drop (Z.to_nat i) l)
  else Err undefined_behaviour.

(** The garbage collected links, extended by the new link. *)
Definition next_links (c : finality_core) (claim : qc_claim_t) (cur new_last_final new_front_source : Z)
    : result (list qc_link) :=
  front ← vec_front (links c);
  let links_index := u32 (new_front_source - source_block_num front) in
  assert_ (links_index <? Z.of_nat (length (links c)));;
  ls ← vec_suffix (links c) links_index;
  f ← vec_front ls;
  assert_ (target_block_num f =? new_last_final);;
  b ← vec_back ls;
  assert_ (source_block_num b =? cur);;
  assert_ (target_block_num b <=? claim_block_num claim);;
  Ok (ls ++ [QcLink (u32 (cur + 1)) (claim_block_num claim) (is_strong_qc claim)]).

(** The garbage collected references, extended by the current block. *)
Definition next_refs (c : finality_core) (current_block : block_ref) (last_final new_last_final : Z)
    : result (list block_ref) :=
  let refs_index := u32 (new_last_final - last_final) in
  assert_ (negb (is_empty (refs c)) || (refs_index =? 0));;
  assert_ (is_empty (refs c) || (refs_index <? Z.of_nat (length (refs c))));;
  rs ← vec_suffix (refs c) refs_index;
  (if is_empty (refs c) then Ok tt
   else f ← vec_front rs; assert_ (block_num f =? new_last_final));;
  let rs := rs ++ [current_block] in
  f ← vec_front rs;
  assert_ (block_num f =? new_last_final);;
  Ok rs.

Definition next (c : finality_core) (current_block : block_ref) (claim : qc_claim_t) : result finality_core :=
  cur ← current_block_num c;
  assert_ (block_num current_block =? cur);;
  (if is_empty (refs c) then Ok tt
   else b ← vec_back (refs c);
        assert_ (u32 (block_num b + 1) =? block_num current_block);;
        assert_ (timestamp b <? timestamp current_block));;
  assert_ (claim_block_num claim <=? cur);;
  latest ← latest_qc_claim c;
  assert_ (qc_claim_le latest claim);;
  '(new_last_final, new_front_source) ← get_new_block_numbers c claim;
  assert_ (new_last_final <=? new_front_source);;
  assert_ (new_front_source <=? claim_block_num claim);;
  lf ← last_final_block_num c;
  assert_ (lf <=? new_last_final);;
  front ← vec_front (links c);
  assert_ (source_block_num front <=? new_front_source);;
  ls ← next_links c claim cur new_last_final new_front_source;
  rs ← next_refs c current_block lf new_last_final;
  b ← vec_back ls;
  assert_ (claim_block_num latest <=? target_block_num b);;
  Ok {| links := ls; refs := rs; genesis_timestamp := 0 |}.

(** ** The invariant

    [core_wf c f b] states the invariants listed in [finality_core.hpp] with
    [f] and [b] for [links.front()] and [links.back()]; the numbers are those
    of the source's list. [wf_back] is the condition of the [qc_link] comment
    (the target is below the source except for the genesis block) for the last
    link, which the source's list leaves implicit. *)

Definition link_next (l1 l2 : qc_link) : Prop :=
  source_block_num l1 + 1 = source_block_num l2 ∧ target_block_num l1 <= target_block_num l2.

Definition ref_next (r1 r2 : block_ref) : Prop :=
  block_num r1 + 1 = block_num r2 ∧ timestamp r1 < timestamp r2.

Record core_wf (c : finality_core) (f b : qc_link) : Prop := {
  (* 1 *) wf_front : head (links c) = Some f;
  wf_last : last (links c) = Some b;
  (* 2 *) wf_order : target_block_num f <= source_block_num f <= target_block_num b;
  (* 3 *) wf_genesis : refs c = [] → length (links c) = 1%nat ∧ target_block_num b = source_block_num b;
  (* 4 *) wf_refs_front : ∀ r, head (refs c) = Some r → block_num r = target_block_num f;
  (* 5 *) wf_refs_back : ∀ r, last (refs c) = Some r → block_num r + 1 = source_block_num b;
  (* 6 *) wf_refs : adjacent ref_next (refs c);
  (* 7 *) wf_links : adjacent link_next (links c);
  wf_back : refs c ≠ [] → target_block_num b < source_block_num b;
  (* block numbers are 32-bit *)
  wf_u32 : 0 <= target_block_num f ∧ source_block_num b <= u32_max }.

Definition core_inv (c : finality_core) : Prop := ∃ f b, core_wf c f b.

(** ** Navigation under the invariant *)

Section Navigation.
Context (c : finality_core) (f b : qc_link) (Hwf : core_wf c f b).

Lemma wf_nonempty : negb (is_empty (links c)) = true.
Proof using Hwf. pose proof (wf_front _ _ _ Hwf). by destruct (links c). Qed.

Lemma wf_vec_front : vec_front (links c) = Ok f.
Proof using Hwf. pose proof (wf_front _ _ _ Hwf). apply vec_front_lookup. by destruct (links c). Qed.

Lemma wf_vec_back : vec_back (links c) = Ok b.
Proof using Hwf. apply vec_back_lookup, (wf_last _ _ _ Hwf). Qed.

Lemma current_block_num_ok : current_block_num c = Ok (source_block_num b).
Proof using Hwf.
  unfold current_block_num. rewrite assert_true by apply wf_nonempty.
  rewrite bind_ok, wf_vec_back. done.
Qed.

Lemma last_final_block_num_ok : last_final_block_num c = Ok (target_block_num f).
Proof using Hwf.
  unfold last_final_block_num. rewrite assert_true by apply wf_nonempty.
  rewrite bind_ok, wf_vec_front. done.
Qed.

Lemma latest_qc_claim_ok : latest_qc_claim c = Ok (QcClaim (target_block_num b) (is_link_strong b)).
Proof using Hwf.
  unfold latest_qc_claim. rewrite assert_true by apply wf_nonempty.
  rewrite bind_ok, wf_vec_back. done.
Qed.

Lemma wf_front_lookup : links c !! 0%nat = Some f.
Proof using Hwf. rewrite <- head_lookup. apply (wf_front _ _ _ Hwf). Qed.

Lemma wf_last_lookup : links c !! Nat.pred (length (links c)) = Some b.
Proof using Hwf. rewrite <- last_lookup. apply (wf_last _ _ _ Hwf). Qed.

(** Invariant 9. *)
Lemma wf_links_length : source_block_num b = source_block_num f + Z.of_nat (length (links c)) - 1.
Proof using Hwf.
  assert (source_block_num b = source_block_num f + Z.of_nat (Nat.pred (length (links c)))) as H.
  { eapply (adjacent_count source_block_num); [|apply wf_front_lookup|apply wf_last_lookup].
    eapply adjacent_impl; [apply (wf_links _ _ _ Hwf)|]. by intros ?? []. }
  pose proof (lookup_lt_Some _ _ _ wf_front_lookup). lia.
Qed.

(** Every block number from the first link's source to the current block has
    its link, with a target between the last final block and the latest QC. *)
Lemma wf_link_at n :
  source_block_num f <= n <= source_block_num b →
  ∃ l, links c !! Z.to_nat (n - source_block_num f) = Some l ∧ source_block_num l = n ∧
       target_block_num f <= target_block_num l <= target_block_num b.
Proof using Hwf.
  intros Hn. pose proof wf_links_length as Hlen.
  destruct (lookup_lt_is_Some_2 (links c) (Z.to_nat (n - source_block_num f))) as [l Hl]; [lia|].
  exists l. split; [done|]. split.
  - enough (source_block_num l = source_block_num f + Z.of_nat (Z.to_nat (n - source_block_num f))) by lia.
    eapply (adjacent_count source_block_num); [|apply wf_front_lookup|done].
    eapply adjacent_impl; [apply (wf_links _ _ _ Hwf)|]. by intros ?? [].
  - assert (adjacent (λ a b, target_block_num a <= target_block_num b) (links c)) as Hmono.
    { eapply adjacent_impl; [apply (wf_links _ _ _ Hwf)|]. by intros ?? []. }
    pose proof (lookup_lt_Some _ _ _ Hl). split.
    + eapply (adjacent_mono target_block_num); [done| |apply wf_front_lookup|done]. lia.
    + eapply (adjacent_mono target_block_num); [done| |done|apply wf_last_lookup]. lia.
Qed.

(** Invariant 8. *)
Lemma wf_refs_length : source_block_num b = target_block_num f + Z.of_nat (length (refs c)).
Proof using Hwf.
  destruct (refs c) as [|r rs] eqn:Hr.
  - destruct (wf_genesis _ _ _ Hwf Hr) as [Hlen Heq]. pose proof wf_links_length.
    pose proof (wf_order _ _ _ Hwf). simpl.
    assert (b = f) as ->; [|lia].
    pose proof wf_last_lookup as Hb. rewrite Hlen in Hb. simpl in Hb. rewrite wf_front_lookup in Hb. congruence.
  - destruct (last (refs c)) as [r'|] eqn:Hl; [|by apply last_None in Hl; rewrite Hr in Hl].
    pose proof (wf_refs_back _ _ _ Hwf _ Hl) as Hb.
    pose proof (wf_refs_front _ _ _ Hwf r) as Hf. rewrite Hr in Hf, Hl. specialize (Hf eq_refl).
    rewrite last_lookup in Hl.
    enough (block_num r' = block_num r + Z.of_nat (Nat.pred (length (r :: rs)))) by (simpl in *; lia).
    apply (adjacent_count block_num (r :: rs)); [|done|done].
    rewrite <- Hr. eapply adjacent_impl; [apply (wf_refs _ _ _ Hwf)|]. by intros ?? [].
Qed.

Lemma wf_ref_at n :
  target_block_num f <= n < source_block_num b →
  ∃ r, refs c !! Z.to_nat (n - target_block_num f) = Some r ∧ block_num r = n.
Proof using Hwf.
  intros Hn. pose proof wf_refs_length as Hlen.
  destruct (lookup_lt_is_Some_2 (refs c) (Z.to_nat (n - target_block_num f))) as [r Hr]; [lia|].
  exists r. split; [done|].
  destruct (lookup_lt_is_Some_2 (refs c) 0) as [r0 Hr0]; [lia|].
  pose proof (wf_refs_front _ _ _ Hwf r0) as Hf. rewrite head_lookup in Hf. rewrite <- Hf in * by done.
  enough (block_num r = block_num r0 + Z.of_nat (Z.to_nat (n - block_num r0))) by lia.
  eapply (adjacent_count block_num); [|done|done].
  eapply adjacent_impl; [apply (wf_refs _ _ _ Hwf)|]. by intros ?? [].
Qed.

Lemma wf_target_le : target_block_num b <= source_block_num b.
Proof using Hwf.
  destruct (decide (refs c = [])) as [Hr|Hr].
  - destruct (wf_genesis _ _ _ Hwf Hr). lia.
  - pose proof (wf_back _ _ _ Hwf Hr). lia.
Qed.

Lemma wf_range n : target_block_num f <= n <= source_block_num b → is_u32 (n - target_block_num f).
Proof using Hwf. pose proof (wf_u32 _ _ _ Hwf). unfold is_u32, u32_max in *. lia. Qed.

Lemma get_block_reference_ok n :
  target_block_num f <= n < source_block_num b →
  ∃ r, get_block_reference c n = Ok r ∧ block_num r = n ∧ refs c !! Z.to_nat (n - target_block_num f) = Some r.
Proof using Hwf.
  intros Hn. destruct (wf_ref_at n Hn) as (r & Hr & Hnum). exists r. split; [|done].
  unfold get_block_reference. rewrite last_final_block_num_ok. do 2 step.
  rewrite current_block_num_ok. do 2 step. rewrite u32_small by (apply wf_range; lia).
  apply lookup_lt_Some in Hr as Hlt. step. apply vec_at_lookup; [lia|done].
Qed.

Lemma get_qc_link_from_ok n :
  source_block_num f <= n <= source_block_num b →
  ∃ l, get_qc_link_from c n = Ok l ∧ source_block_num l = n ∧
       target_block_num f <= target_block_num l <= target_block_num b ∧
       links c !! Z.to_nat (n - source_block_num f) = Some l.
Proof using Hwf.
  intros Hn. destruct (wf_link_at n Hn) as (l & Hl & Hs & Ht). exists l. split; [|done].
  unfold get_qc_link_from. rewrite assert_bind by apply wf_nonempty.
  rewrite wf_vec_front. do 2 step. rewrite current_block_num_ok. do 2 step.
  pose proof (wf_order _ _ _ Hwf). pose proof (wf_u32 _ _ _ Hwf).
  rewrite u32_small by (unfold is_u32, u32_max in *; lia).
  apply lookup_lt_Some in Hl as Hlt. step. apply vec_at_lookup; [lia|done].
Qed.

End Navigation.

(** ** Advancing the core *)

(** The preconditions of [next] (and of [next_metadata]) stated in the header,
    and that the block number does not exhaust its 32 bits. *)
Definition next_pre (c : finality_core) (blk : block_ref) (claim : qc_claim_t) : Prop :=
  ∃ cur latest,
    current_block_num c = Ok cur ∧ latest_qc_claim c = Ok latest ∧
    block_num blk = cur ∧ (∀ r, last (refs c) = Some r → timestamp r < timestamp blk) ∧
    claim_block_num claim <= cur ∧ qc_claim_le latest claim = true ∧ cur < u32_max.

(** The link that becomes the first one of the next core: the link of the
    claimed block for a strong claim, the present first link otherwise. *)
Definition kept_link (c : finality_core) (f : qc_link) (claim : qc_claim_t) (l : qc_link) : Prop :=
  if is_strong_qc claim
  then source_block_num l = claim_block_num claim ∧
       links c !! Z.to_nat (claim_block_num claim - source_block_num f) = Some l
  else l = f.

Section Next.
Context (c : finality_core) (f b : qc_link) (blk : block_ref) (claim : qc_claim_t).
Context (Hwf : core_wf c f b) (Hpre : next_pre c blk claim).

Lemma pre_num : block_num blk = source_block_num b ∧ source_block_num b < u32_max.
Proof using Hwf Hpre.
  destruct Hpre as (cur & latest & Hc & _ & Hn & _ & _ & _ & Hm).
  rewrite (current_block_num_ok c f b Hwf) in Hc. injection Hc as Hc. lia.
Qed.

Lemma pre_time r : last (refs c) = Some r → timestamp r < timestamp blk.
Proof using Hpre. destruct Hpre as (? & ? & _ & _ & _ & H & _). apply H. Qed.

Lemma pre_claim_le : qc_claim_le (QcClaim (target_block_num b) (is_link_strong b)) claim = true.
Proof using Hwf Hpre.
  destruct Hpre as (cur & latest & _ & Hl & _ & _ & _ & Hle & _).
  rewrite (latest_qc_claim_ok c f b Hwf) in Hl. by injection Hl as <-.
Qed.

Lemma pre_claim : target_block_num b <= claim_block_num claim <= source_block_num b.
Proof using Hwf Hpre.
  pose proof pre_claim_le as Hle. unfold qc_claim_le in Hle. simpl in Hle.
  destruct Hpre as (cur & latest & Hc & _ & _ & _ & Hh & _).
  rewrite (current_block_num_ok c f b Hwf) in Hc. injection Hc as Hc.
  apply orb_prop in Hle as [H|H]; breflect; lia.
Qed.

Lemma kept_link_exists : ∃ l, kept_link c f claim l ∧
  links c !! Z.to_nat (source_block_num l - source_block_num f) = Some l ∧
  source_block_num f <= source_block_num l <= claim_block_num claim ∧
  target_block_num f <= target_block_num l <= target_block_num b ∧
  target_block_num l <= source_block_num l.
Proof using Hwf Hpre.
  pose proof (wf_order _ _ _ Hwf) as Ho. pose proof pre_claim as Hc. unfold kept_link.
  destruct (is_strong_qc claim).
  - destruct (wf_link_at c f b Hwf (claim_block_num claim)) as (l & Hl & Hs & Ht); [lia|].
    exists l. rewrite Hs. split; [done|]. split; [done|]. lia.
  - exists f. rewrite Z.sub_diag. split; [done|]. split; [apply (wf_front_lookup c f b Hwf)|].
    lia.
Qed.

Lemma get_new_block_numbers_ok l :
  kept_link c f claim l →
  get_new_block_numbers c claim = Ok (target_block_num l, source_block_num l).
Proof using Hwf Hpre.
  intros Hk. pose proof pre_claim as Hc. pose proof (wf_order _ _ _ Hwf) as Ho.
  unfold get_new_block_numbers. rewrite (current_block_num_ok c f b Hwf). do 2 step.
  rewrite (latest_qc_claim_ok c f b Hwf). step. cbn [claim_block_num]. step.
  rewrite (wf_vec_front c f b Hwf). do 2 step. rewrite (last_final_block_num_ok c f b Hwf). step.
  unfold kept_link in Hk. destruct (is_strong_qc claim); simpl negb; cbv iota; [|by subst].
  destruct (get_qc_link_from_ok c f b Hwf (claim_block_num claim)) as (l' & -> & Hs & Ht & Hl); [lia|].
  destruct Hk as [Hs' Hl']. assert (l' = l) as -> by congruence.
  do 4 step. by rewrite Hs'.
Qed.

Lemma next_metadata_ok l :
  kept_link c f claim l →
  next_metadata c claim = Ok (CoreMetadata (target_block_num l) (claim_block_num claim)).
Proof using Hwf Hpre.
  intros Hk. pose proof pre_claim as Hc. unfold next_metadata.
  rewrite (current_block_num_ok c f b Hwf). do 2 step. rewrite (latest_qc_claim_ok c f b Hwf). step.
  rewrite assert_bind by apply pre_claim_le. rewrite (get_new_block_numbers_ok l Hk). done.
Qed.

Definition new_link : qc_link :=
  QcLink (source_block_num b + 1) (claim_block_num claim) (is_strong_qc claim).

Lemma next_links_ok l :
  kept_link c f claim l →
  next_links c claim (source_block_num b) (target_block_num l) (source_block_num l)
  = Ok (drop (Z.to_nat (source_block_num l - source_block_num f)) (links c) ++ [new_link]).
Proof using Hwf Hpre.
  intros Hk. destruct kept_link_exists as (l' & Hk' & Hl & Hs & Ht & _).
  assert (l' = l) as ->. { unfold kept_link in *. destruct (is_strong_qc claim); destruct_and?; congruence. }
  pose proof pre_num as [_ Hmax]. pose proof pre_claim. pose proof (wf_u32 _ _ _ Hwf).
  pose proof (wf_order _ _ _ Hwf). apply lookup_lt_Some in Hl as Hlt. unfold u32_max in *.
  unfold next_links. rewrite (wf_vec_front c f b Hwf). step.
  rewrite (u32_small (source_block_num l - _)) by (unfold is_u32; lia). step. unfold vec_suffix.
  rewrite (proj2 (andb_true_iff _ _)) by (split; apply Z.leb_le; lia). step.
  rewrite (vec_front_lookup _ l) by (by rewrite lookup_drop, Nat.add_0_r). do 2 step.
  rewrite (vec_back_lookup _ b) by (rewrite last_drop by done; apply (wf_last _ _ _ Hwf)). do 3 step.
  rewrite u32_small by (unfold is_u32; lia). done.
Qed.

Lemma next_refs_ok l :
  kept_link c f claim l →
  next_refs c blk (target_block_num f) (target_block_num l)
  = Ok (drop (Z.to_nat (target_block_num l - target_block_num f)) (refs c) ++ [blk]).
Proof using Hwf Hpre.
  intros Hk. destruct kept_link_exists as (l' & Hk' & Hl & Hs & Ht & _).
  assert (l' = l) as ->. { unfold kept_link in *. destruct (is_strong_qc claim); destruct_and?; congruence. }
  pose proof (wf_refs_length c f b Hwf) as Hlen. pose proof pre_num as [Hnum Hmax]. unfold u32_max in *.
  pose proof (wf_u32 _ _ _ Hwf). pose proof (wf_order _ _ _ Hwf).
  pose proof (wf_target_le c f b Hwf). unfold u32_max in *.
  unfold next_refs. rewrite u32_small by (unfold is_u32; lia).
  destruct (decide (refs c = [])) as [Hr|Hr].
  - destruct (wf_genesis _ _ _ Hwf Hr) as [_ Hg]. rewrite Hr in *. simpl in Hlen.
    assert (target_block_num l = target_block_num f) as Hlf by lia. rewrite Hlf, Z.sub_diag.
    do 2 step. change (vec_suffix (@nil block_ref) 0) with (Ok (@nil block_ref)). step.
    cbn [is_empty app]. cbn [vec_front]. do 3 step. done.
  - pose proof (wf_back _ _ _ Hwf Hr).
    destruct (wf_ref_at c f b Hwf (target_block_num l)) as (r & Hat & Hrn); [lia|].
    assert (is_empty (refs c) = false) as -> by (by destruct (refs c)). simpl negb. simpl orb.
    apply lookup_lt_Some in Hat as Hlt. do 2 step. unfold vec_suffix.
    rewrite (proj2 (andb_true_iff _ _)) by (split; apply Z.leb_le; lia). step. cbv iota.
    rewrite (vec_front_lookup (drop _ (refs c)) r) by (by rewrite lookup_drop, Nat.add_0_r). rewrite bind_ok.
    rewrite assert_true by solve_test. step. rewrite (vec_front_lookup (drop _ (refs c) ++ [blk]) r); [do 2 step; done|].
    rewrite lookup_app_l by (rewrite length_drop; lia). by rewrite lookup_drop, Nat.add_0_r.
Qed.

(** The core [next] returns: the links from the kept link on and the
    references from its target on, each extended by one element. *)
Definition next_core (l : qc_link) : finality_core := {|
  links := drop (Z.to_nat (source_block_num l - source_block_num f)) (links c) ++ [new_link];
  refs := drop (Z.to_nat (target_block_num l - target_block_num f)) (refs c) ++ [blk];
  genesis_timestamp := 0 |}.

Lemma next_ok l : kept_link c f claim l → next c blk claim = Ok (next_core l).
Proof using Hwf Hpre.
  intros Hk. destruct kept_link_exists as (l' & Hk' & _ & Hs & Ht & Hts).
  assert (l' = l) as ->. { unfold kept_link in *. destruct (is_strong_qc claim); destruct_and?; congruence. }
  pose proof pre_num as [Hnum Hmax]. pose proof pre_claim as Hc. unfold next.
  rewrite (current_block_num_ok c f b Hwf). do 2 step.
  assert ((if is_empty (refs c) then Ok tt else
    r ← vec_back (refs c);
    assert_ (u32 (block_num r + 1) =? block_num blk);; assert_ (timestamp r <? timestamp blk)) = Ok tt) as ->.
  { destruct (last (refs c)) as [r|] eqn:Hl; [|by apply last_None in Hl as ->].
    assert (is_empty (refs c) = false) as -> by (by destruct (refs c)).
    rewrite (vec_back_lookup _ r) by done. step. pose proof (wf_refs_back _ _ _ Hwf _ Hl) as Hb.
    pose proof (wf_u32 _ _ _ Hwf). pose proof (wf_target_le c f b Hwf). pose proof (wf_order _ _ _ Hwf).
    rewrite u32_small by (unfold is_u32, u32_max in *; lia). step.
    pose proof (pre_time _ Hl). by rewrite assert_true by solve_test. }
  do 2 step. rewrite (latest_qc_claim_ok c f b Hwf). step. rewrite assert_bind by apply pre_claim_le.
  rewrite (get_new_block_numbers_ok l Hk). rewrite bind_ok. do 2 step.
  rewrite (last_final_block_num_ok c f b Hwf). do 2 step. rewrite (wf_vec_front c f b Hwf). do 2 step.
  rewrite (next_links_ok l Hk), bind_ok, (next_refs_ok l Hk), bind_ok.
  rewrite (vec_back_lookup _ new_link) by apply last_snoc. step. cbn [claim_block_num].
  rewrite assert_bind; [done|]. unfold new_link. cbn [target_block_num]. solve_test.
Qed.

Lemma next_core_wf l : kept_link c f claim l → core_wf (next_core l) l new_link.
Proof using Hwf Hpre.
  intros Hk. destruct kept_link_exists as (l' & Hk' & Hl & Hs & Ht & Hts).
  assert (l' = l) as ->. { unfold kept_link in *. destruct (is_strong_qc claim); destruct_and?; congruence. }
  pose proof pre_num as [Hnum Hmax]. pose proof pre_claim as Hc. pose proof (wf_u32 _ _ _ Hwf) as Hu.
  pose proof (wf_refs_length c f b Hwf) as Hlen. pose proof (wf_target_le c f b Hwf) as Htle.
  apply lookup_lt_Some in Hl as Hlt. unfold next_core. split; cbn [links refs].
  - rewrite head_lookup, lookup_app_l by (rewrite length_drop; lia). by rewrite lookup_drop, Nat.add_0_r.
  - apply last_snoc.
  - unfold new_link; simpl. lia.
  - intros Hr. by apply app_nil in Hr as [_ ?].
  - intros r Hr. rewrite head_lookup in Hr. destruct (decide (refs c = [])) as [He|He].
    + rewrite He, drop_nil in Hr. simpl in Hr. simplify_eq.
      destruct (wf_genesis _ _ _ Hwf He) as [_ Hg]. rewrite He in Hlen. simpl in Hlen. lia.
    + pose proof (wf_back _ _ _ Hwf He).
      destruct (wf_ref_at c f b Hwf (target_block_num l)) as (r' & Hr' & Hn'); [lia|].
      apply lookup_lt_Some in Hr' as Hlt'.
      rewrite lookup_app_l, lookup_drop, Nat.add_0_r in Hr by (rewrite length_drop; lia). congruence.
  - intros r Hr. rewrite last_snoc in Hr. simplify_eq. unfold new_link; simpl. lia.
  - apply adjacent_snoc; [apply adjacent_drop, (wf_refs _ _ _ Hwf)|].
    intros r Hr. assert (last (refs c) = Some r) as Hr'.
    { destruct (decide (Z.to_nat (target_block_num l - target_block_num f) < length (refs c))%nat) as [Hd|Hd].
      - by rewrite last_drop in Hr.
      - by rewrite drop_ge in Hr by lia. }
    pose proof (wf_refs_back _ _ _ Hwf _ Hr'). split; [lia|by apply pre_time].
  - apply adjacent_snoc; [apply adjacent_drop, (wf_links _ _ _ Hwf)|].
    intros r Hr. rewrite last_drop, (wf_last _ _ _ Hwf) in Hr by done. simplify_eq.
    split; unfold new_link; simpl; lia.
  - intros _. unfold new_link; simpl. lia.
  - unfold new_link; simpl. lia.
Qed.

End Next.

(** The preconditions are what the assertions of [next] check. *)
Lemma next_returns_pre c f b blk claim c' :
  core_wf c f b → source_block_num b < u32_max → next c blk claim = Ok c' → next_pre c blk claim.
Proof.
  intros Hwf Hmax H. unfold next in H. rewrite (current_block_num_ok c f b Hwf), bind_ok in H.
  inv_ok H. apply check_inv, Z.eqb_eq in Ha. inv_ok H. inv_ok H. apply check_inv, Z.leb_le in Ha1.
  rewrite (latest_qc_claim_ok c f b Hwf), bind_ok in H. inv_ok H. apply check_inv in Ha2.
  exists (source_block_num b), (QcClaim (target_block_num b) (is_link_strong b)).
  rewrite (current_block_num_ok c f b Hwf), (latest_qc_claim_ok c f b Hwf). split_and!; try done.
  intros r Hr. destruct (refs c) as [|r0 rs] eqn:Hrefs; [done|]. rewrite <- Hrefs in *.
  assert (is_empty (refs c) = false) as He by (by rewrite Hrefs). rewrite He in Ha0.
  rewrite (vec_back_lookup _ r Hr), bind_ok in Ha0. inv_ok Ha0. by apply check_inv, Z.ltb_lt in Ha0.
Qed.

Lemma genesis_wf id ts :
  let n := num_from_id id in
  core_wf (create_core_for_genesis_block id ts) (QcLink n n false) (QcLink n n false).
Proof.
  intros n. pose proof (num_from_id_range id) as Hn. unfold is_u32 in Hn. split; simpl; try done; try lia.
  all: unfold u32_max; subst n; lia.
Qed.

(** A genesis core satisfies the documented invariants and postconditions. *)
Theorem genesis_core_correct id ts :
  let c := create_core_for_genesis_block id ts in
  core_inv c ∧ current_block_num c = Ok (num_from_id id) ∧
  latest_qc_claim c = Ok (QcClaim (num_from_id id) false) ∧
  last_final_block_num c = Ok (num_from_id id).
Proof. intros c. repeat split. eexists _, _. apply genesis_wf. Qed.

(** On a core that satisfies the invariants, and arguments that satisfy the
    documented preconditions, [next] trips none of its assertions and returns a
    core that satisfies the invariants and the documented postconditions. *)
Theorem next_correct c blk claim :
  core_inv c → next_pre c blk claim →
  ∃ c' lf lf', next c blk claim = Ok c' ∧ core_inv c' ∧
    current_block_num c' = Ok (block_num blk + 1) ∧ latest_qc_claim c' = Ok claim ∧
    last_final_block_num c = Ok lf ∧ last_final_block_num c' = Ok lf' ∧ lf <= lf' ∧
    next_metadata c claim = Ok (CoreMetadata lf' (claim_block_num claim)) ∧ lf' <= claim_block_num claim.
Proof.
  intros (f & b & Hwf) Hpre.
  destruct (kept_link_exists _ _ _ _ _ Hwf Hpre) as (l & Hk & _ & Hs & Ht & Hts).
  pose proof (next_core_wf _ _ _ _ _ Hwf Hpre l Hk) as Hwf'.
  exists (next_core c f b blk claim l), (target_block_num f), (target_block_num l).
  split; [by apply next_ok|]. split; [by eexists _, _|].
  rewrite (current_block_num_ok _ _ _ Hwf'), (latest_qc_claim_ok _ _ _ Hwf'), (last_final_block_num_ok _ _ _ Hwf').
  rewrite (last_final_block_num_ok _ _ _ Hwf), (next_metadata_ok c f b blk claim Hwf Hpre l Hk).
  destruct (pre_num _ _ _ _ _ Hwf Hpre) as [-> _]. destruct claim. simpl in *. repeat split; lia.
Qed.

(** The child of a genesis block with number 2. *)
Lemma next_correct_witness :
  let id := Sha256 (2 * 2 ^ 24) 0 1 1 in
  let c := create_core_for_genesis_block id 10 in
  ∃ c', next c (BlockRef id 10 sha256_zero 1 0) (QcClaim 2 false) = Ok c' ∧ core_inv c' ∧ current_block_num c' = Ok 3.
Proof.
  intros id c.
  destruct (next_correct c (BlockRef id 10 sha256_zero 1 0) (QcClaim 2 false)) as (c' & _ & _ & Hn & Hi & Hc & _).
  - eexists _, _. apply genesis_wf.
  - exists 2, (QcClaim 2 false). repeat split; by vm_compute.
  - exists c'. split; [done|]. split; [done|]. exact Hc.
Defined.
