(* ===== verification/BlockTree.v ===== *)
(** * Block trees: an abstract specification of the finality core

    A block is its whole ancestry back to the Savanna genesis block. The
    finality rule is stated on the ancestry, without the garbage collected
    lists of the finality core; the core computed by [finality_core::next]
    along the ancestry is shown to implement it. *)

From S2P Require Import Prelude Sha256 Merkle FinalityCore.
Open Scope Z_scope.

Inductive block : Type :=
| Genesis (r : block_ref)
| Child (parent : block) (r : block_ref) (claim : qc_claim_t).

#[export] Instance block_eq_dec : EqDecision block.
Proof. solve_decision. Defined.

Definition ref_of (B : block) : block_ref :=
  match B with Genesis r => r | Child _ r _ => r end.

Definition num (B : block) : Z := block_num (ref_of B).
Definition time (B : block) : Z := timestamp (ref_of B).
Arguments num : simpl never.
Arguments time : simpl never.
Definition id_of (B : block) : sha256 := block_id (ref_of B).

(** The core of a block: a child's core is computed from its parent's core,
    the reference to the parent and the claim of the child. *)
Fixpoint core_of (B : block) : result finality_core :=
  match B with
  | Genesis r => Ok (create_core_for_genesis_block (block_id r) (timestamp r))
  | Child p r claim => c ← core_of p; next c (ref_of p) claim
  end.

(** ** The abstract rule *)

Definition claim_num (B : block) : Z :=
  match B with Genesis r => block_num r | Child _ _ claim => claim_block_num claim end.

Definition claim_strong (B : block) : bool :=
  match B with Genesis r => false | Child _ _ claim => is_strong_qc claim end.

(** The block with number [n] on the branch of [B], [B] included. *)
Fixpoint at_num (B : block) (n : Z) : option block :=
  if num B =? n then Some B
  else match B with Genesis _ => None | Child p _ _ => at_num p n end.

(** Two-chain finality: a strong QC on a block makes final the block which that
    block's own claim refers to. *)
Fixpoint final_num (B : block) : Z :=
  match B with
  | Genesis r => block_num r
  | Child p r claim =>
    if is_strong_qc claim
    then match at_num p (claim_block_num claim) with Some A => claim_num A | None => final_num p end
    else final_num p
  end.

(** The timestamp of the block the latest QC claim refers to. *)
Definition qc_time (B : block) : Z :=
  match B with
  | Genesis r => timestamp r
  | Child p _ claim => match at_num p (claim_block_num claim) with Some A => time A | None => 0 end
  end.

Fixpoint ancestor (A B : block) : Prop :=
  match B with Genesis _ => False | Child p _ _ => A = p ∨ ancestor A p end.

(** Valid blocks: a child follows its parent by one block number and at a later
    time, and its claim is on a block of the branch, not below its parent's claim. *)
Fixpoint valid (B : block) : Prop :=
  match B with
  | Genesis r => True
  | Child p r claim =>
    valid p ∧ block_num r = num p + 1 ∧ time p < timestamp r ∧
    claim_block_num claim <= num p ∧
    qc_claim_le (QcClaim (claim_num p) (claim_strong p)) claim = true
  end.

(** All references and links of the ancestry, oldest first. *)
Fixpoint anc_refs (B : block) : list block_ref :=
  match B with Genesis _ => [] | Child p _ _ => anc_refs p ++ [ref_of p] end.

Definition own_link (B : block) : qc_link := QcLink (num B) (claim_num B) (claim_strong B).

Fixpoint chain_links (B : block) : list qc_link :=
  match B with Genesis _ => [own_link B] | Child p _ _ => chain_links p ++ [own_link B] end.

Fixpoint root (B : block) : block :=
  match B with Genesis _ => B | Child p _ _ => root p end.

(** ** Basic facts *)

Lemma num_child p r claim : num (Child p r claim) = block_num r.
Proof. done. Qed.

Lemma time_child p r claim : time (Child p r claim) = timestamp r.
Proof. done. Qed.

Lemma num_range B : is_u32 (num B).
Proof. apply num_from_id_range. Qed.

Lemma length_anc_refs B : valid B → num B = num (root B) + Z.of_nat (length (anc_refs B)).
Proof.
  induction B as [r|p IH r claim]; simpl; [lia|]. intros (Hv & Hn & _).
  rewrite length_app. simpl. unfold num at 1. simpl. specialize (IH Hv). lia.
Qed.

Lemma length_chain_links B : length (chain_links B) = S (length (anc_refs B)).
Proof. induction B as [r|p IH r claim]; simpl; [done|]. rewrite !length_app, IH. simpl. lia. Qed.

Lemma last_chain_links B : last (chain_links B) = Some (own_link B).
Proof. destruct B; simpl; [done|]. apply last_snoc. Qed.

Lemma at_num_some B n A : at_num B n = Some A → num A = n.
Proof.
  induction B as [r|p IH r claim]; cbn [at_num].
  - destruct (Z.eqb_spec (num (Genesis r)) n); [congruence|done].
  - destruct (Z.eqb_spec (num (Child p r claim)) n); [congruence|done].
Qed.

Lemma at_num_self B : at_num B (num B) = Some B.
Proof. destruct B; cbn [at_num]; by rewrite Z.eqb_refl. Qed.

Lemma at_num_ancestor B n A : at_num B n = Some A → A = B ∨ ancestor A B.
Proof.
  induction B as [r|p IH r claim]; cbn [at_num ancestor].
  - destruct (Z.eqb_spec (num (Genesis r)) n); [intros [= ->]; by left|done].
  - destruct (Z.eqb_spec (num (Child p r claim)) n); [intros [= ->]; by left|].
    intros H. destruct (IH H) as [->|?]; auto.
Qed.

Lemma valid_ancestor A B : valid B → ancestor A B → valid A ∧ num A < num B ∧ time A < time B.
Proof.
  induction B as [r|p IH r claim]; simpl; [done|]. intros (Hv & Hn & Ht & _) [->|Ha].
  - split; [done|]. unfold num, time in *. simpl. lia.
  - destruct (IH Hv Ha) as (? & ? & ?). split; [done|]. unfold num, time in *. simpl. lia.
Qed.

Lemma ancestor_trans A B C : ancestor A B → ancestor B C → ancestor A C.
Proof.
  intros HAB. induction C as [r|p IH r claim]; simpl; [done|]. intros [->|H]; auto.
Qed.

Lemma ancestor_at_num A B : valid B → ancestor A B → at_num B (num A) = Some A.
Proof.
  induction B as [r|p IH r claim]; cbn [at_num]; [intros _ []|]. intros Hv Ha.
  pose proof (valid_ancestor A (Child p r claim) Hv Ha) as (_ & Hlt & _).
  rewrite (proj2 (Z.eqb_neq _ _)) by lia. simpl in Ha. destruct Hv as [Hv _].
  destruct Ha as [->|Ha]; [apply at_num_self|by apply IH].
Qed.

(** [anc_refs] holds the ancestors at their distance from the root. *)
Lemma anc_refs_lookup B A :
  valid B → ancestor A B → anc_refs B !! Z.to_nat (num A - num (root B)) = Some (ref_of A).
Proof.
  induction B as [r|p IH r claim]; simpl; [intros _ []|]. intros (Hv & Hn & _) Ha.
  pose proof (length_anc_refs p Hv) as Hlen. destruct Ha as [->|Ha].
  - rewrite lookup_app_r by lia. replace (_ - _)%nat with 0%nat by lia. reflexivity.
  - pose proof (IH Hv Ha) as H. apply lookup_lt_Some in H as Hlt. by rewrite lookup_app_l.
Qed.

Lemma anc_refs_elem B r : r ∈ anc_refs B → ∃ A, ancestor A B ∧ ref_of A = r.
Proof.
  induction B as [r0|p IH r0 claim]; simpl; [by intros ?%not_elem_of_nil|].
  intros [H|H%list_elem_of_singleton]%elem_of_app.
  - destruct (IH H) as (A & ? & ?). eauto.
  - subst. eauto.
Qed.

Lemma chain_links_lookup B A :
  valid B → A = B ∨ ancestor A B → chain_links B !! Z.to_nat (num A - num (root B)) = Some (own_link A).
Proof.
  intros Hv. pose proof (length_anc_refs B Hv) as Hlen. intros [->|Ha].
  { pose proof (last_chain_links B) as H. rewrite last_lookup, length_chain_links in H.
    rewrite <- H. f_equal. simpl. lia. }
  revert Hv Hlen Ha. induction B as [r|p IH r claim]; [intros _ _ []|]. simpl. intros (Hv & Hn & _) _ Ha.
  pose proof (length_anc_refs p Hv) as Hlen. pose proof (length_chain_links p) as Hll.
  assert (chain_links p !! Z.to_nat (num A - num (root p)) = Some (own_link A)) as H.
  { destruct Ha as [->|Ha]; [|by apply IH].
    pose proof (last_chain_links p) as H. rewrite last_lookup, Hll in H. rewrite <- H. f_equal. simpl. lia. }
  apply lookup_lt_Some in H as Hlt. by rewrite lookup_app_l.
Qed.

Lemma root_num_le B : valid B → num (root B) <= num B.
Proof. intros Hv. pose proof (length_anc_refs B Hv). lia. Qed.

Lemma at_num_exists B n : valid B → num (root B) <= n <= num B → ∃ A, at_num B n = Some A.
Proof.
  induction B as [r|p IH r claim]; intros Hv Hn.
  - assert (num (Genesis r) = n) as <- by (simpl root in Hn; lia). rewrite at_num_self. eauto.
  - cbn [at_num]. destruct (Z.eqb_spec (num (Child p r claim)) n); [eauto|].
    destruct Hv as (Hv & Hnum & _). apply IH; [done|]. cbn [root] in Hn. rewrite num_child in *. lia.
Qed.

Lemma anc_refs_last B r : valid B → last (anc_refs B) = Some r → timestamp r < time B.
Proof.
  destruct B as [|p r0 claim]; simpl; [done|]. intros (_ & _ & Ht & _). rewrite last_snoc.
  intros [= <-]. apply Ht.
Qed.

(** ** The simulation *)

Record sim (B : block) (c : finality_core) (f : qc_link) : Prop := {
  sim_wf : core_wf c f (own_link B);
  sim_links : links c = drop (Z.to_nat (source_block_num f - num (root B))) (chain_links B);
  sim_refs : refs c = drop (Z.to_nat (final_num B - num (root B))) (anc_refs B);
  sim_final : target_block_num f = final_num B;
  sim_root : num (root B) <= target_block_num f;
  sim_genesis_time : ∀ r, B = Genesis r → genesis_timestamp c = timestamp r }.

Lemma sim_genesis r :
  sim (Genesis r) (create_core_for_genesis_block (block_id r) (timestamp r)) (own_link (Genesis r)).
Proof.
  split; try done.
  - apply genesis_wf.
  - cbn [own_link source_block_num root]. by rewrite Z.sub_diag.
  - cbn [final_num root anc_refs]. by rewrite drop_nil.
  - by intros r' [= ->].
Qed.

Lemma sim_next_pre p r claim c f :
  valid (Child p r claim) → sim p c f → next_pre c (ref_of p) claim.
Proof.
  intros (Hv & Hn & Ht & Hc & Hle) Hs.
  exists (num p), (QcClaim (claim_num p) (claim_strong p)).
  rewrite (current_block_num_ok _ _ _ (sim_wf _ _ _ Hs)), (latest_qc_claim_ok _ _ _ (sim_wf _ _ _ Hs)).
  repeat split; try done.
  - intros r0 Hr0. apply anc_refs_last; [done|]. rewrite (sim_refs _ _ _ Hs) in Hr0.
    destruct (decide (Z.to_nat (final_num p - num (root p)) < length (anc_refs p))%nat) as [Hd|Hd].
    + by rewrite last_drop in Hr0.
    + by rewrite drop_ge in Hr0 by lia.
  - pose proof (num_range (Child p r claim)) as Hu. rewrite num_child in Hu.
    unfold is_u32, u32_max in *. lia.
Qed.

(** The kept link is the link of the block the strong claim refers to. *)
Lemma sim_kept p r claim c f l :
  valid (Child p r claim) → sim p c f → kept_link c f claim l →
  target_block_num l = final_num (Child p r claim).
Proof.
  intros Hv Hs Hk. pose proof (sim_next_pre _ _ _ _ _ Hv Hs) as Hpre. cbn [final_num].
  unfold kept_link in Hk. destruct (is_strong_qc claim); [|by rewrite Hk, (sim_final _ _ _ Hs)].
  pose proof (pre_claim _ _ _ _ _ (sim_wf _ _ _ Hs) Hpre) as Hc. cbn [own_link target_block_num source_block_num] in Hc.
  pose proof (wf_order _ _ _ (sim_wf _ _ _ Hs)) as Ho. cbn [own_link target_block_num] in Ho.
  pose proof (sim_root _ _ _ Hs). destruct Hv as [Hv _].
  destruct (at_num_exists p (claim_block_num claim) Hv) as [A HA]; [lia|]. rewrite HA.
  pose proof (chain_links_lookup p A Hv (at_num_ancestor _ _ _ HA)) as Hl.
  rewrite (at_num_some _ _ _ HA) in Hl. destruct Hk as [_ Hk].
  rewrite (sim_links _ _ _ Hs), lookup_drop in Hk.
  replace (_ + _)%nat with (Z.to_nat (claim_block_num claim - num (root p))) in Hk by lia.
  rewrite Hl in Hk. by injection Hk as <-.
Qed.

Lemma drop_drop_app {A} (l : list A) (x : A) i j :
  (i + j ≤ length l)%nat → drop j (drop i l) ++ [x] = drop (i + j) (l ++ [x]).
Proof. intros H. rewrite drop_drop. by rewrite drop_app_le. Qed.

Lemma core_of_sim B : valid B → ∃ c f, core_of B = Ok c ∧ sim B c f.
Proof.
  induction B as [r|p IH r claim]; intros Hv; [eexists _, _; split; [done|apply sim_genesis]|].
  destruct (IH (proj1 Hv)) as (c & f & Hcore & Hs). pose proof (sim_wf _ _ _ Hs) as Hwf.
  pose proof (sim_next_pre _ _ _ _ _ Hv Hs) as Hpre.
  destruct (kept_link_exists _ _ _ _ _ Hwf Hpre) as (l & Hk & Hl & Hsl & Ht & _).
  pose proof (sim_kept _ _ _ _ _ _ Hv Hs Hk) as Hfin. pose proof (sim_final _ _ _ Hs) as Hf.
  pose proof (sim_root _ _ _ Hs). pose proof (wf_order _ _ _ Hwf). pose proof (wf_target_le _ _ _ Hwf) as Htl.
  pose proof (length_anc_refs p (proj1 Hv)) as Hlen. pose proof (length_chain_links p) as Hlen'.
  assert (new_link (own_link p) claim = own_link (Child p r claim)) as Hnew.
  { destruct Hv as (_ & Hn & _). unfold new_link, own_link. cbn. f_equal. rewrite num_child. lia. }
  exists (next_core c f (own_link p) (ref_of p) claim l), l. cbn [core_of]. rewrite Hcore, bind_ok.
  split; [by apply next_ok|]. cbn [own_link source_block_num target_block_num] in *.
  split; cbn [next_core links refs root chain_links anc_refs].
  - rewrite <- Hnew. by apply next_core_wf.
  - rewrite Hnew, (sim_links _ _ _ Hs), drop_drop_app; [f_equal; lia|].
    pose proof (pre_claim _ _ _ _ _ Hwf Hpre) as Hc. cbn [own_link source_block_num] in Hc. lia.
  - rewrite (sim_refs _ _ _ Hs), <- Hf, <- Hfin, drop_drop_app; [f_equal; lia|]. lia.
  - done.
  - lia.
  - done.
Qed.

(** ** What the core answers *)

Lemma claim_num_le B : valid B → num (root B) <= claim_num B <= num B.
Proof.
  intros Hv. destruct (core_of_sim B Hv) as (c & f & _ & Hs). pose proof (sim_wf _ _ _ Hs) as Hwf.
  pose proof (wf_order _ _ _ Hwf). pose proof (wf_target_le _ _ _ Hwf). pose proof (sim_root _ _ _ Hs).
  cbn [own_link source_block_num target_block_num] in *. lia.
Qed.

Lemma ref_lookup_ancestor B c f n r :
  valid B → sim B c f → final_num B <= n → num (root B) <= n →
  refs c !! Z.to_nat (n - final_num B) = Some r → n < num B →
  ∃ A, at_num B n = Some A ∧ ancestor A B ∧ ref_of A = r.
Proof.
  intros Hv Hs Hf Hr Hlook Hlt. destruct (at_num_exists B n Hv) as [A HA]; [lia|].
  pose proof (at_num_some _ _ _ HA) as HnA.
  destruct (at_num_ancestor _ _ _ HA) as [->|Ha]; [lia|]. exists A. repeat split; [done..|].
  rewrite (sim_refs _ _ _ Hs), lookup_drop in Hlook. pose proof (sim_root _ _ _ Hs).
  pose proof (sim_final _ _ _ Hs). pose proof (anc_refs_lookup B A Hv Ha) as Hl.
  replace (_ + _)%nat with (Z.to_nat (num A - num (root B))) in Hlook by lia. congruence.
Qed.

Lemma sim_extends B c f id :
  valid B → sim B c f →
  ∃ e, extends c id = Ok e ∧
    (e = true ↔ ∃ A, ancestor A B ∧ id_of A = id ∧ final_num B <= num A).
Proof.
  intros Hv Hs. pose proof (sim_wf _ _ _ Hs) as Hwf. unfold extends.
  rewrite (last_final_block_num_ok _ _ _ Hwf), (current_block_num_ok _ _ _ Hwf), !bind_ok.
  rewrite (sim_final _ _ _ Hs). cbn [own_link source_block_num].
  destruct ((final_num B <=? num_from_id id) && (num_from_id id <? num B)) eqn:Hrange.
  - breflect. pose proof (sim_final _ _ _ Hs) as Hf. pose proof (sim_root _ _ _ Hs).
    destruct (get_block_reference_ok _ _ _ Hwf (num_from_id id)) as (r & -> & Hn & Hl);
      [cbn [own_link source_block_num]; lia|]. rewrite bind_ok. eexists. split; [done|].
    rewrite Hf in Hl. destruct (ref_lookup_ancestor B c f (num_from_id id) r) as (A & HA & Ha & Hr); [done|done|lia|lia|done|lia|].
    rewrite sha256_eqb_eq. split.
    + intros Hid. exists A. unfold id_of. rewrite Hr. repeat split; [done..|]. rewrite (at_num_some _ _ _ HA). lia.
    + intros (A' & Ha' & Hid' & Hf'). assert (num A' = num_from_id id) as Hn' by (by rewrite <- Hid').
      pose proof (ancestor_at_num A' B Hv Ha') as HA'. rewrite Hn' in HA'. assert (A' = A) as -> by congruence.
      unfold id_of in Hid'. by rewrite Hr in Hid'.
  - exists false. split; [done|]. split; [done|]. intros (A & Ha & Hid & Hf).
    assert (num A = num_from_id id) as Hn by (by rewrite <- Hid).
    destruct (valid_ancestor A B Hv Ha) as (_ & Hlt & _).
    rewrite andb_false_iff in Hrange. destruct Hrange; breflect; lia.
Qed.

(** The block a child's claim refers to. *)
Definition claimed (B : block) : option block :=
  match B with Genesis _ => None | Child p _ claim => at_num p (claim_block_num claim) end.

(** The reference kept for the claimed block. *)
Lemma sim_claimed p r claim c f : let B := Child p r claim in
  valid B → sim B c f →
  ∃ A, claimed B = Some A ∧ ancestor A B ∧ qc_time B = time A ∧
       latest_qc_claim c = Ok claim ∧ get_block_reference c (claim_block_num claim) = Ok (ref_of A).
Proof.
  intros B Hv Hs. pose proof (sim_wf _ _ _ Hs) as Hwf. pose proof (sim_final _ _ _ Hs) as Hf.
  pose proof (sim_root _ _ _ Hs). pose proof (wf_order _ _ _ Hwf) as Ho. pose proof Hv as (_ & Hn & _ & Hc & _).
  subst B. cbn [own_link source_block_num target_block_num claim_num] in *.
  destruct (get_block_reference_ok _ _ _ Hwf (claim_block_num claim)) as (r1 & Hget & _ & Hl).
  { cbn [own_link source_block_num]. rewrite num_child. lia. }
  rewrite Hf in Hl.
  destruct (ref_lookup_ancestor _ c f (claim_block_num claim) r1 Hv Hs) as (A & HA & Ha & <-);
    [lia|lia|done|rewrite num_child; lia|].
  cbn [at_num] in HA. rewrite num_child, (proj2 (Z.eqb_neq _ _)) in HA by lia.
  exists A. cbn [claimed qc_time]. rewrite HA, (latest_qc_claim_ok _ _ _ Hwf). by destruct claim.
Qed.

Lemma sim_qc_time B c f : valid B → sim B c f → latest_qc_block_timestamp c = Ok (qc_time B).
Proof.
  intros Hv Hs. pose proof (sim_wf _ _ _ Hs) as Hwf. unfold latest_qc_block_timestamp.
  rewrite assert_bind by apply (wf_nonempty _ _ _ Hwf). unfold is_genesis_core.
  destruct B as [r|p r claim].
  { pose proof (sim_refs _ _ _ Hs) as Hr. cbn [anc_refs] in Hr. rewrite drop_nil in Hr. rewrite Hr.
    cbn [is_empty qc_time]. by rewrite (sim_genesis_time _ _ _ Hs r). }
  destruct (sim_claimed p r claim c f Hv Hs) as (A & _ & _ & -> & _ & Hget).
  destruct (refs c) as [|r0 rs] eqn:Hrefs.
  { destruct (wf_genesis _ _ _ Hwf Hrefs) as [_ Hg]. cbn [own_link source_block_num target_block_num claim_num] in Hg.
    rewrite num_child in Hg. destruct Hv as (_ & Hn & _ & Hc & _). lia. }
  cbn [is_empty]. rewrite (wf_vec_back _ _ _ Hwf), bind_ok. cbn [own_link target_block_num claim_num].
  by rewrite Hget.
Qed.

(** C7: the core computed along any valid branch never trips an assertion,
    satisfies the invariants, and implements the two-chain finality rule on the
    whole ancestry: its last final block, latest claim and latest QC timestamp
    are those of the rule, and its references are exactly the ancestors from
    the last final block on. *)
Theorem core_implements_finality_rule B :
  valid B →
  ∃ c, core_of B = Ok c ∧ core_inv c ∧ current_block_num c = Ok (num B) ∧
    last_final_block_num c = Ok (final_num B) ∧
    latest_qc_claim c = Ok (QcClaim (claim_num B) (claim_strong B)) ∧
    latest_qc_block_timestamp c = Ok (qc_time B) ∧
    refs c = drop (Z.to_nat (final_num B - num (root B))) (anc_refs B).
Proof.
  intros Hv. destruct (core_of_sim B Hv) as (c & f & Hc & Hs). pose proof (sim_wf _ _ _ Hs) as Hwf.
  exists c. rewrite (current_block_num_ok _ _ _ Hwf), (last_final_block_num_ok _ _ _ Hwf),
    (latest_qc_claim_ok _ _ _ Hwf), (sim_qc_time _ _ _ Hv Hs), (sim_final _ _ _ Hs).
  repeat split; [done|by eexists _, _|apply (sim_refs _ _ _ Hs)].
Qed.

(** [extends] decides ancestry among the blocks that are not below the last
    final block. *)
Theorem extends_decides_ancestry B id :
  valid B →
  ∃ c e, core_of B = Ok c ∧ extends c id = Ok e ∧
    (e = true ↔ ∃ A, ancestor A B ∧ id_of A = id ∧ final_num B <= num A).
Proof.
  intros Hv. destruct (core_of_sim B Hv) as (c & f & Hc & Hs).
  destruct (sim_extends B c f id Hv Hs) as (e & He & Hiff). exists c, e. done.
Qed.

(** The reference the core of a block has for an ancestor. *)
Lemma core_reference B c A : valid B → core_of B = Ok c → ancestor A B → final_num B <= num A →
  get_block_reference c (num A) = Ok (ref_of A).
Proof.
  intros Hv Hc Ha Hf. destruct (core_of_sim B Hv) as (c' & f & Hc' & Hs). assert (c' = c) as -> by congruence.
  pose proof (sim_wf _ _ _ Hs) as Hwf. pose proof (sim_final _ _ _ Hs) as Hfin. pose proof (sim_root _ _ _ Hs) as Hroot.
  destruct (valid_ancestor _ _ Hv Ha) as (_ & Hlt & _).
  destruct (get_block_reference_ok _ _ _ Hwf (num A)) as (r & Hr & _ & Hl); [cbn [own_link source_block_num]; lia|].
  rewrite Hfin in Hl. destruct (ref_lookup_ancestor B c f (num A) r Hv Hs) as (A' & HA' & _ & <-); [lia|lia|done|done|].
  rewrite (ancestor_at_num A B Hv Ha) in HA'. by injection HA' as <-.
Qed.

(** The timestamp of the last final block. *)
Definition final_time (B : block) : Z := match at_num B (final_num B) with Some A => time A | None => 0 end.

Lemma final_timestamp B c : valid B → core_of B = Ok c → last_final_block_timestamp c = Ok (final_time B).
Proof.
  intros Hv Hc. destruct (core_of_sim B Hv) as (c' & f & Hc' & Hs). assert (c' = c) as -> by congruence.
  pose proof (sim_wf _ _ _ Hs) as Hwf. pose proof (sim_final _ _ _ Hs) as Hfin. pose proof (sim_root _ _ _ Hs) as Hroot.
  pose proof (wf_order _ _ _ Hwf) as Ho. pose proof (wf_refs_length _ _ _ Hwf) as Hlen.
  cbn [own_link source_block_num target_block_num] in *. unfold last_final_block_timestamp, final_time, is_genesis_core.
  destruct (at_num_exists B (final_num B) Hv) as [A HA]; [pose proof (claim_num_le B Hv); lia|].
  rewrite HA. pose proof (at_num_some _ _ _ HA) as HnA. destruct (at_num_ancestor _ _ _ HA) as [->|Ha].
  - assert (refs c = []) as Hr by (destruct (refs c); [done|simpl in Hlen; lia]). rewrite Hr. cbn [is_empty].
    destruct B as [r|p r claim]; [by rewrite (sim_genesis_time _ _ _ Hs r)|].
    destruct Hv as (_ & Hn & _ & Hle & _). cbn [claim_num] in *. rewrite num_child in *. lia.
  - destruct (valid_ancestor _ _ Hv Ha) as (_ & Hlt & _).
    assert (is_empty (refs c) = false) as -> by (destruct (refs c); [simpl in Hlen; lia|done]).
    rewrite (last_final_block_num_ok _ _ _ Hwf), bind_ok, Hfin, <- HnA, (core_reference B c A Hv Hc Ha) by lia. done.
Qed.

(** ** Monotonicity along a branch *)

Lemma final_num_le_claim B : valid B → final_num B <= claim_num B.
Proof.
  intros Hv. destruct (core_of_sim B Hv) as (c & f & _ & Hs). pose proof (sim_wf _ _ _ Hs) as Hwf.
  pose proof (wf_order _ _ _ Hwf). rewrite (sim_final _ _ _ Hs) in *. cbn [own_link target_block_num] in *. lia.
Qed.

Lemma final_num_ge_root B : valid B → num (root B) <= final_num B.
Proof.
  intros Hv. destruct (core_of_sim B Hv) as (c & f & _ & Hs). pose proof (sim_root _ _ _ Hs). by rewrite (sim_final _ _ _ Hs) in *.
Qed.

Lemma ancestor_root A B : ancestor A B → root A = root B.
Proof. induction B as [|p IH r claim]; [done|]. intros [->|Ha]; [done|by apply IH]. Qed.

(** For any number from the latest claim on, the test of the first link decides
    whether it is the number of the genesis block. *)
Lemma is_genesis_from_claim B c n : valid B → core_of B = Ok c → claim_num B <= n <= num B →
  is_genesis_block_num c n = Ok (n =? num (root B)).
Proof.
  intros Hv Hc Hn. destruct (core_of_sim B Hv) as (c' & f & Hc' & Hs). assert (c' = c) as -> by congruence.
  pose proof (sim_wf _ _ _ Hs) as Hwf. pose proof (sim_final _ _ _ Hs) as Hf. pose proof (sim_root _ _ _ Hs) as Hr.
  pose proof (wf_order _ _ _ Hwf) as Ho. pose proof (final_num_le_claim B Hv) as Hfc. pose proof (claim_num_le B Hv) as Hcl.
  cbn [own_link target_block_num] in Ho. unfold is_genesis_block_num.
  rewrite (last_final_block_num_ok _ _ _ Hwf), bind_ok, (current_block_num_ok _ _ _ Hwf), bind_ok.
  cbn [own_link source_block_num]. rewrite assert_bind by solve_test. rewrite (wf_vec_front _ _ _ Hwf), bind_ok. f_equal.
  destruct (Z.eqb_spec n (num (root B))) as [->|Hne].
  - apply andb_true_intro. split; apply Z.eqb_eq; lia.
  - apply andb_false_iff. destruct (Z.eqb_spec (source_block_num f) n) as [<-|]; [left|by right]. apply Z.eqb_neq.
    intros Heq. apply Hne. clear Hne Hn.
    pose proof (wf_front_lookup _ _ _ Hwf) as Hl. rewrite (sim_links _ _ _ Hs), lookup_drop, Nat.add_0_r in Hl.
    destruct (at_num_exists B (source_block_num f) Hv) as [A HA]; [lia|].
    pose proof (at_num_some _ _ _ HA) as HnA. apply at_num_ancestor in HA.
    pose proof (chain_links_lookup B A Hv HA) as HlA. rewrite HnA, Hl in HlA. injection HlA as ->.
    cbn [own_link source_block_num target_block_num] in *.
    assert (valid A ∧ root A = root B) as [HvA <-].
    { destruct HA as [->|HA]; [done|]. split; [by apply (valid_ancestor _ _ Hv HA)|by apply ancestor_root]. }
    destruct A as [r|p r cl]; [done|]. destruct HvA as (_ & Hn & _ & Hle & _). cbn [claim_num] in Heq.
    rewrite num_child in *. lia.
Qed.

Lemma final_num_parent p r claim : valid (Child p r claim) → final_num p <= final_num (Child p r claim).
Proof.
  intros Hv. destruct (core_of_sim p (proj1 Hv)) as (c & f & _ & Hs).
  pose proof (sim_next_pre _ _ _ _ _ Hv Hs) as Hpre.
  destruct (kept_link_exists _ _ _ _ _ (sim_wf _ _ _ Hs) Hpre) as (l & Hk & _ & _ & Ht & _).
  rewrite <- (sim_kept _ _ _ _ _ _ Hv Hs Hk), <- (sim_final _ _ _ Hs). lia.
Qed.

Lemma claim_num_parent p r claim : valid (Child p r claim) → claim_num p <= claim_block_num claim.
Proof.
  intros (_ & _ & _ & _ & Hle). unfold qc_claim_le in Hle. cbn [claim_block_num] in Hle.
  apply orb_prop in Hle as [H|H]; breflect; lia.
Qed.

Lemma at_num_time_mono B n m A A' :
  valid B → at_num B n = Some A → at_num B m = Some A' → n <= m → time A <= time A'.
Proof.
  intros Hv HA HA' Hnm. pose proof (at_num_some _ _ _ HA). pose proof (at_num_some _ _ _ HA').
  revert Hv HA HA'. induction B as [r|p IH r claim]; intros Hv HA HA'.
  - destruct (at_num_ancestor _ _ _ HA) as [->|[]]. destruct (at_num_ancestor _ _ _ HA') as [->|[]]. lia.
  - destruct (at_num_ancestor _ _ _ HA') as [->|Ha'].
    + destruct (at_num_ancestor _ _ _ HA) as [->|Ha]; [lia|].
      destruct (valid_ancestor _ _ Hv Ha) as (_ & _ & ?). lia.
    + destruct (valid_ancestor _ _ Hv Ha') as (_ & Hlt' & _).
      cbn [at_num] in HA, HA'. rewrite (proj2 (Z.eqb_neq _ n)) in HA by lia. rewrite (proj2 (Z.eqb_neq _ m)) in HA' by lia.
      apply IH; [apply Hv|done..].
Qed.

(** The QC block of [B]: the latest claim refers to it. *)
Lemma qc_time_at B : valid B → ∃ A, at_num B (claim_num B) = Some A ∧ qc_time B = time A.
Proof.
  destruct B as [r|p r claim]; intros Hv.
  - exists (Genesis r). split; [apply at_num_self|done].
  - pose proof (claim_num_le _ Hv) as Hc. destruct Hv as (Hv & Hn & _ & Hle & _). cbn [root claim_num] in *.
    destruct (at_num_exists p (claim_block_num claim) Hv) as [A HA]; [lia|].
    exists A. cbn [at_num qc_time]. rewrite num_child, (proj2 (Z.eqb_neq _ _)), HA by lia. done.
Qed.

Lemma qc_time_le B : valid B → qc_time B <= time B.
Proof.
  intros Hv. destruct (qc_time_at B Hv) as (A & HA & ->).
  destruct (at_num_ancestor _ _ _ HA) as [->|Ha]; [lia|].
  destruct (valid_ancestor _ _ Hv Ha) as (_ & _ & ?). lia.
Qed.

Lemma qc_time_parent p r claim : valid (Child p r claim) → qc_time p <= qc_time (Child p r claim).
Proof.
  intros Hv. destruct (qc_time_at p (proj1 Hv)) as (A & HA & ->).
  pose proof (claim_num_parent _ _ _ Hv) as Hc. pose proof (claim_num_le p (proj1 Hv)).
  pose proof (proj1 (proj2 (proj2 (proj2 Hv)))) as Hle.
  destruct (at_num_exists p (claim_block_num claim) (proj1 Hv)) as [A' HA']; [lia|].
  cbn [qc_time]. rewrite HA'.
  apply (at_num_time_mono p (claim_num p) (claim_block_num claim)); [apply Hv|done..].
Qed.

Lemma ancestor_mono (g : block → Z) :
  (∀ p r claim, valid (Child p r claim) → g p <= g (Child p r claim)) →
  ∀ A B, valid B → ancestor A B → g A <= g B.
Proof.
  intros Hg A B. induction B as [r|p IH r claim]; [intros _ []|]. intros Hv [->|Ha]; [by apply Hg|].
  pose proof (IH (proj1 Hv) Ha). pose proof (Hg _ _ _ Hv). lia.
Qed.

(** Along a branch the last final block, the QC claims and their timestamps
    never go back. *)
Theorem finality_is_monotone A B :
  valid B → ancestor A B →
  final_num A <= final_num B ∧ claim_num A <= claim_num B ∧ qc_time A <= qc_time B.
Proof.
  intros Hv Ha. repeat split; apply ancestor_mono; try done.
  - apply final_num_parent.
  - apply claim_num_parent.
  - apply qc_time_parent.
Qed.

(** A concrete chain: two blocks with strong certificates, and a fork. *)
Module ChainExample.
(** The id of a block with number [n]; [k] tells blocks with one number apart. *)
Definition ex_id (n k : Z) : sha256 := Sha256 (n * 2 ^ 24) k 1 1.
Definition ex_ref (n k t : Z) : block_ref := BlockRef (ex_id n k) t (Sha256 n k 2 2) 1 0.

Definition g : block := Genesis (ex_ref 2 0 10).
Definition b1 : block := Child g (ex_ref 3 0 11) (QcClaim 2 false).
Definition b2 : block := Child b1 (ex_ref 4 0 12) (QcClaim 3 true).
Definition b3 : block := Child b2 (ex_ref 5 0 13) (QcClaim 4 true).
(** A fork that was not voted for. *)
Definition c2 : block := Child b1 (ex_ref 4 1 14) (QcClaim 2 false).

Definition ex_blocks : list block := [g; b1; b2; b3; c2].
Ltac each_block H := repeat (apply elem_of_cons in H as [->|H]); [..|by apply not_elem_of_nil in H].

Lemma chain_valid B : B ∈ ex_blocks → valid B.
Proof. intros H. each_block H; vm_compute; repeat split; done. Qed.

Lemma chain_b3 : valid b3.
Proof. apply chain_valid. right; right; right; by left. Qed.

(** Block 5 carries a strong certificate on block 4, which carries one on block 3. *)
Lemma core_implements_finality_rule_witness :
  final_num b3 = 3 ∧ claim_num b3 = 4 ∧
  ∃ c, core_of b3 = Ok c ∧ last_final_block_num c = Ok (final_num b3).
Proof.
  split; [by vm_compute|]. split; [by vm_compute|].
  destruct (core_implements_finality_rule b3 chain_b3) as (c & Hc & _ & _ & Hf & _).
  exists c. exact (conj Hc Hf).
Defined.

Lemma extends_decides_ancestry_witness :
  (∃ c e, core_of b3 = Ok c ∧ extends c (id_of b1) = Ok e ∧
    (e = true ↔ ∃ A, ancestor A b3 ∧ id_of A = id_of b1 ∧ final_num b3 <= num A)) ∧
  ancestor b1 b3 ∧ final_num b3 <= num b1.
Proof.
  split; [exact (extends_decides_ancestry b3 (id_of b1) chain_b3)|].
  split; [right; left; done|by vm_compute].
Defined.

Lemma finality_is_monotone_witness : final_num b1 < final_num b3 ∧ qc_time b1 <= qc_time b3.
Proof.
  split; [by vm_compute|]. apply (finality_is_monotone b1 b3 chain_b3). right; left; done.
Defined.

(** Block 4 has a strong certificate on block 3, whose claim is on the genesis
    block 2: block 2 is the last final block of its core, and yet the test for
    the genesis number, whose precondition it satisfies, answers no. *)
Example genesis_number_denied :
  ∃ c, core_of b2 = Ok c ∧ last_final_block_num c = Ok 2 ∧ num (root b2) = 2 ∧ is_genesis_block_num c 2 = Ok false.
Proof. eexists. split; [vm_compute; reflexivity|]. repeat split; vm_compute; reflexivity. Qed.
End ChainExample.
