(* ===== verification/Bitset.v ===== *)
(** * [fc::bitset]: a bit set over a vector of bytes

    Bit [pos] is bit [pos mod 8] of byte [pos / 8]; the unused bits of the last
    byte are zero. The abstract value of a bitset is the list of its bits. *)

From Stdlib Require Import Ascii.
From S2P Require Import Prelude.
Open Scope Z_scope.

Record bitset : Type := Bitset { m_num_bits : nat; m_bits : list Z }.

#[export] Instance bitset_eq_dec : EqDecision bitset.
Proof. solve_decision. Defined.

Definition bits_per_block : nat := 8.

Definition calc_num_blocks (num_bits : nat) : nat := (num_bits + bits_per_block - 1) / bits_per_block.

Definition block_index (pos : nat) : nat := pos / bits_per_block.
Definition bit_index (pos : nat) : nat := pos mod bits_per_block.
Definition bit_mask (pos : nat) : Z := u8 (Z.shiftl 1 (Z.of_nat (bit_index pos))).

Definition bitset_size (b : bitset) : nat := m_num_bits b.

(** [m_bits.back() &= (1 << extra_bits) - 1] *)
Definition zero_unused_bits (b : bitset) : result bitset :=
  assert_ (bool_decide (length (m_bits b) = calc_num_blocks (m_num_bits b)));;
  let extra_bits := bit_index (bitset_size b) in
  if bool_decide (extra_bits = 0%nat) then Ok b
  else
    back ← vec_back (m_bits b);
    let m := u8 (Z.shiftl 1 (Z.of_nat extra_bits) - 1) in
    Ok (Bitset (m_num_bits b) (<[Nat.pred (length (m_bits b)) := Z.land back m]> (m_bits b))).

(** [m_bits.resize(n, 0)] keeps a prefix and pads with zeroes. *)
Definition bitset_resize (b : bitset) (num_bits : nat) : result bitset :=
  zero_unused_bits (Bitset num_bits (resize (calc_num_blocks num_bits) 0 (m_bits b))).

Definition bitset_default : bitset := Bitset 0 [].
Definition bitset_new (num_bits : nat) : result bitset := bitset_resize bitset_default num_bits.

Definition bitset_set (b : bitset) (pos : nat) : result bitset :=
  assert_ (bool_decide (pos < m_num_bits b)%nat);;
  byte ← vec_at (m_bits b) (Z.of_nat (block_index pos));
  Ok (Bitset (m_num_bits b) (<[block_index pos := Z.lor byte (bit_mask pos)]> (m_bits b))).

Definition bitset_clear (b : bitset) (pos : nat) : result bitset :=
  assert_ (bool_decide (pos < m_num_bits b)%nat);;
  byte ← vec_at (m_bits b) (Z.of_nat (block_index pos));
  Ok (Bitset (m_num_bits b) (<[block_index pos := Z.land byte (u8 (Z.lnot (bit_mask pos)))]> (m_bits b))).

(** [operator[]] and [test]. *)
Definition bitset_test (b : bitset) (pos : nat) : result bool :=
  assert_ (bool_decide (pos < m_num_bits b)%nat);;
  byte ← vec_at (m_bits b) (Z.of_nat (block_index pos));
  Ok (negb (Z.land byte (bit_mask pos) =? 0)).

Definition bitset_flip_at (b : bitset) (pos : nat) : result bitset :=
  assert_ (bool_decide (pos < m_num_bits b)%nat);;
  t ← bitset_test b pos;
  if (t : bool) then bitset_clear b pos else bitset_set b pos.

Definition bitset_flip (b : bitset) : result bitset :=
  zero_unused_bits (Bitset (m_num_bits b) ((λ byte, u8 (Z.lnot byte)) <$> m_bits b)).

(** The loop of [all], from bit [i] on. *)
Fixpoint bitset_all_from (b : bitset) (i n : nat) : result bool :=
  match n with
  | O => Ok true
  | S n => t ← bitset_test b i; if negb t then Ok false else bitset_all_from b (S i) n
  end.
Definition bitset_all (b : bitset) : result bool := bitset_all_from b 0 (bitset_size b).

Definition bitset_none (b : bitset) : bool := forallb (λ byte, byte =? 0) (m_bits b).

Definition zero_all_bits (b : bitset) : bitset := Bitset (m_num_bits b) ((λ _, 0) <$> m_bits b).

Definition bitset_or (b o : bitset) : result bitset :=
  assert_ (bool_decide (bitset_size b = bitset_size o));;
  bytes ← mapM (λ i, x ← vec_at (m_bits b) (Z.of_nat i); y ← vec_at (m_bits o) (Z.of_nat i); Ok (Z.lor x y))
               (seq 0 (length (m_bits b)));
  Ok (Bitset (m_num_bits b) bytes).

Definition unused_bits_zeroed (b : bitset) : result bool :=
  let extra_bits := bit_index (bitset_size b) in
  if bool_decide (extra_bits = 0%nat) then Ok true
  else back ← vec_back (m_bits b);
       Ok (Z.land back (Z.lnot (Z.shiftl 1 (Z.of_nat extra_bits) - 1)) =? 0).

(** Characters, highest bit first. *)
Definition bitset_to_string (b : bitset) : result (list ascii) :=
  mapM (λ i, t ← bitset_test b i; Ok (if (t : bool) then "1" else "0")%char) (reverse (seq 0 (bitset_size b))).

Fixpoint from_string_loop (bs : bitset) (num_bits i : nat) (s : list ascii) : result bitset :=
  match s with
  | [] => Ok bs
  | ch :: s =>
    if bool_decide (ch = "0"%char) then from_string_loop bs num_bits (S i) s
    else if bool_decide (ch = "1"%char) then
      bs ← bitset_set bs (num_bits - i - 1); from_string_loop bs num_bits (S i) s
    else Err invalid_argument
  end.

Definition bitset_from_string (s : list ascii) : result bitset :=
  bs ← bitset_new (length s);
  bs ← from_string_loop bs (length s) 0 s;
  z ← unused_bits_zeroed bs;
  assert_ z;;
  Ok bs.

(** ** Abstraction *)

Definition bit (b : bitset) (pos : nat) : bool :=
  Z.testbit (default 0 (m_bits b !! block_index pos)) (Z.of_nat (bit_index pos)).

Definition bits (b : bitset) : list bool := bit b <$> seq 0 (m_num_bits b).

Record bitset_wf (b : bitset) : Prop := {
  bw_len : length (m_bits b) = calc_num_blocks (m_num_bits b);
  bw_bytes : ∀ i x, m_bits b !! i = Some x → is_u8 x;
  bw_unused : ∀ pos, (m_num_bits b ≤ pos)%nat → bit b pos = false }.

(** ** Positions and bytes *)

Lemma bit_index_lt pos : (bit_index pos < 8)%nat.
Proof. apply Nat.mod_upper_bound. done. Qed.

Lemma pos_eq p q : block_index p = block_index q → bit_index p = bit_index q → p = q.
Proof.
  unfold block_index, bit_index, bits_per_block. intros Hb Hi.
  rewrite (Nat.div_mod_eq p 8), (Nat.div_mod_eq q 8). congruence.
Qed.

Lemma block_index_lt pos n : (pos < n)%nat → (block_index pos < calc_num_blocks n)%nat.
Proof.
  intros H. unfold block_index, calc_num_blocks, bits_per_block.
  pose proof (Nat.div_mod_eq pos 8). pose proof (Nat.mod_upper_bound pos 8).
  pose proof (Nat.div_mod_eq (n + 8 - 1) 8). pose proof (Nat.mod_upper_bound (n + 8 - 1) 8). lia.
Qed.

(** A position beyond the size that still falls into a block is in the last one. *)
Lemma block_index_unused pos n :
  (n ≤ pos)%nat → (block_index pos < calc_num_blocks n)%nat →
  block_index pos = Nat.pred (calc_num_blocks n) ∧ (bit_index n ≤ bit_index pos)%nat ∧ bit_index n ≠ 0%nat.
Proof.
  unfold block_index, bit_index, calc_num_blocks, bits_per_block. intros H1 H2.
  pose proof (Nat.div_mod_eq pos 8). pose proof (Nat.mod_upper_bound pos 8).
  pose proof (Nat.div_mod_eq n 8). pose proof (Nat.mod_upper_bound n 8).
  pose proof (Nat.div_mod_eq (n + 8 - 1) 8). pose proof (Nat.mod_upper_bound (n + 8 - 1) 8). lia.
Qed.

Lemma last_block_used n : (bit_index n ≠ 0)%nat → (0 < calc_num_blocks n)%nat ∧
  ∀ pos, block_index pos = Nat.pred (calc_num_blocks n) → (pos < n ↔ bit_index pos < bit_index n)%nat.
Proof.
  unfold block_index, bit_index, calc_num_blocks, bits_per_block. intros H1.
  pose proof (Nat.div_mod_eq n 8). pose proof (Nat.mod_upper_bound n 8).
  pose proof (Nat.div_mod_eq (n + 8 - 1) 8). pose proof (Nat.mod_upper_bound (n + 8 - 1) 8).
  split; [lia|]. intros pos Hp. pose proof (Nat.div_mod_eq pos 8). pose proof (Nat.mod_upper_bound pos 8). lia.
Qed.

Lemma pos_of i j : 0 <= j < 8 →
  block_index (i * 8 + Z.to_nat j) = i ∧ Z.of_nat (bit_index (i * 8 + Z.to_nat j)) = j.
Proof.
  intros Hj. unfold block_index, bit_index, bits_per_block.
  rewrite Nat.add_comm, Nat.div_add, Nat.Div0.mod_add by done.
  rewrite Nat.div_small, Nat.mod_small by lia. lia.
Qed.

Lemma testbit_u8 x i : 0 <= i < 8 → Z.testbit (u8 x) i = Z.testbit x i.
Proof. intros H. unfold u8. apply Z.mod_pow2_bits_low. lia. Qed.

Lemma testbit_u8_high x i : is_u8 x → 8 <= i → Z.testbit x i = false.
Proof.
  intros Hx Hi. rewrite <- (Z.mod_small x (2 ^ 8)) by exact Hx. apply Z.mod_pow2_bits_high. lia.
Qed.

Lemma bit_mask_pow pos : bit_mask pos = 2 ^ Z.of_nat (bit_index pos).
Proof.
  unfold bit_mask. rewrite Z.shiftl_1_l. apply u8_small. pose proof (bit_index_lt pos).
  split; [apply Z.pow_nonneg; lia|].
  apply Z.lt_le_trans with (2 ^ 8); [apply Z.pow_lt_mono_r; lia|lia].
Qed.

Lemma land_mask x pos : negb (Z.land x (bit_mask pos) =? 0) = Z.testbit x (Z.of_nat (bit_index pos)).
Proof.
  rewrite bit_mask_pow. set (i := Z.of_nat (bit_index pos)). assert (0 <= i) by lia.
  destruct (Z.testbit x i) eqn:E.
  - apply negb_true_iff, Z.eqb_neq. intros H0.
    assert (Z.testbit (Z.land x (2 ^ i)) i = false) as Hf by (rewrite H0; apply Z.bits_0).
    by rewrite Z.land_spec, E, Z.pow2_bits_true in Hf by lia.
  - apply negb_false_iff, Z.eqb_eq, Z.bits_inj'. intros j Hj.
    rewrite Z.land_spec, Z.bits_0, Z.pow2_bits_eqb by lia.
    destruct (Z.eqb_spec i j) as [<-|]; [by rewrite E|by rewrite andb_false_r].
Qed.

Lemma is_u8_lor x y : is_u8 x → is_u8 y → is_u8 (Z.lor x y).
Proof. intros. apply (lor_range 8); [lia|done..]. Qed.

Lemma is_u8_land x y : is_u8 x → 0 <= y → is_u8 (Z.land x y).
Proof.
  intros Hx Hy. unfold is_u8 in *. rewrite <- (Z.mod_small x (2 ^ 8)) by exact Hx.
  rewrite <- Z.land_ones, <- Z.land_assoc, (Z.land_comm (Z.ones 8)), Z.land_assoc, Z.land_ones by lia.
  apply Z.mod_pos_bound. lia.
Qed.

(** ** Operations, bit by bit *)

Lemma lookup_block b pos : bitset_wf b → (pos < m_num_bits b)%nat →
  ∃ x, m_bits b !! block_index pos = Some x ∧ is_u8 x ∧
       vec_at (m_bits b) (Z.of_nat (block_index pos)) = Ok x ∧
       bit b pos = Z.testbit x (Z.of_nat (bit_index pos)).
Proof.
  intros Hw Hp. destruct (lookup_lt_is_Some_2 (m_bits b) (block_index pos)) as [x Hx].
  { rewrite (bw_len _ Hw). by apply block_index_lt. }
  exists x. repeat split; [done|by eapply bw_bytes..| |unfold bit; by rewrite Hx].
  apply vec_at_lookup; [lia|by rewrite Nat2Z.id].
Qed.

Lemma bit_insert n l j x q :
  (j < length l)%nat →
  bit (Bitset n (<[j := x]> l)) q =
  if bool_decide (block_index q = j) then Z.testbit x (Z.of_nat (bit_index q)) else bit (Bitset n l) q.
Proof.
  intros Hj. unfold bit. simpl. case_bool_decide as H.
  - subst. by rewrite list_lookup_insert_eq.
  - by rewrite list_lookup_insert_ne by done.
Qed.

Lemma test_ok b pos : bitset_wf b → (pos < m_num_bits b)%nat → bitset_test b pos = Ok (bit b pos).
Proof.
  intros Hw Hp. destruct (lookup_block b pos Hw Hp) as (x & _ & _ & Hv & ->).
  unfold bitset_test. rewrite assert_bind by (by apply bool_decide_eq_true). rewrite Hv, bind_ok.
  by rewrite land_mask.
Qed.

Lemma bytes_insert (l : list Z) j x :
  (∀ i y, l !! i = Some y → is_u8 y) → is_u8 x → ∀ i y, <[j := x]> l !! i = Some y → is_u8 y.
Proof.
  intros Hl Hx i y Hy. apply list_lookup_insert_Some in Hy as [(_ & <- & _)|[_ Hy]]; [done|by eapply Hl].
Qed.

Lemma set_ok b pos : bitset_wf b → (pos < m_num_bits b)%nat →
  ∃ b', bitset_set b pos = Ok b' ∧ bitset_wf b' ∧ m_num_bits b' = m_num_bits b ∧
        ∀ q, bit b' q = bool_decide (q = pos) || bit b q.
Proof.
  intros Hw Hp. destruct (lookup_block b pos Hw Hp) as (x & Hx & Hu & Hv & Hb).
  unfold bitset_set. rewrite assert_bind by (by apply bool_decide_eq_true). rewrite Hv, bind_ok.
  eexists. split; [done|]. pose proof (lookup_lt_Some _ _ _ Hx) as Hlt.
  assert (∀ q, bit (Bitset (m_num_bits b) (<[block_index pos := Z.lor x (bit_mask pos)]> (m_bits b))) q
          = bool_decide (q = pos) || bit b q) as Hbit.
  { intros q. rewrite bit_insert by done. destruct b as [n l]; simpl in *. case_bool_decide as He.
    - rewrite Z.lor_spec, bit_mask_pow, Z.pow2_bits_eqb by lia.
      unfold bit at 1. simpl. rewrite He, Hx. simpl. rewrite orb_comm. f_equal.
      case_bool_decide as Hq; [subst; apply Z.eqb_refl|].
      apply Z.eqb_neq. intros Hi. apply Hq, pos_eq; [done|lia].
    - rewrite bool_decide_eq_false_2; [done|by intros ->]. }
  split; [|split; [done|apply Hbit]]. split; simpl; [rewrite length_insert; by apply bw_len| |].
  - apply bytes_insert; [apply bw_bytes, Hw|]. apply is_u8_lor; [done|]. apply u8_range.
  - intros q Hq. rewrite Hbit, bool_decide_eq_false_2 by lia. by apply bw_unused.
Qed.

Lemma clear_ok b pos : bitset_wf b → (pos < m_num_bits b)%nat →
  ∃ b', bitset_clear b pos = Ok b' ∧ bitset_wf b' ∧ m_num_bits b' = m_num_bits b ∧
        ∀ q, bit b' q = negb (bool_decide (q = pos)) && bit b q.
Proof.
  intros Hw Hp. destruct (lookup_block b pos Hw Hp) as (x & Hx & Hu & Hv & Hb).
  unfold bitset_clear. rewrite assert_bind by (by apply bool_decide_eq_true). rewrite Hv, bind_ok.
  eexists. split; [done|]. pose proof (lookup_lt_Some _ _ _ Hx) as Hlt.
  assert (∀ q, bit (Bitset (m_num_bits b) (<[block_index pos := Z.land x (u8 (Z.lnot (bit_mask pos)))]> (m_bits b))) q
          = negb (bool_decide (q = pos)) && bit b q) as Hbit.
  { intros q. rewrite bit_insert by done. destruct b as [n l]; simpl in *. case_bool_decide as He.
    - pose proof (bit_index_lt q).
      rewrite Z.land_spec, testbit_u8, Z.lnot_spec, bit_mask_pow, Z.pow2_bits_eqb by lia.
      unfold bit at 1. simpl. rewrite He, Hx. simpl. rewrite andb_comm. f_equal. f_equal.
      case_bool_decide as Hq; [subst; apply Z.eqb_refl|].
      apply Z.eqb_neq. intros Hi. apply Hq, pos_eq; [done|lia].
    - rewrite bool_decide_eq_false_2; [done|by intros ->]. }
  split; [|split; [done|apply Hbit]]. split; simpl; [rewrite length_insert; by apply bw_len| |].
  - apply bytes_insert; [apply bw_bytes, Hw|]. apply is_u8_land; [done|]. apply u8_range.
  - intros q Hq. rewrite Hbit, bw_unused by done. apply andb_false_r.
Qed.

(** A value with the right number of byte-sized blocks, unused bits aside. *)
Definition bitset_raw (b : bitset) : Prop :=
  length (m_bits b) = calc_num_blocks (m_num_bits b) ∧ ∀ i x, m_bits b !! i = Some x → is_u8 x.

Lemma low_mask k : (k < 8)%nat → u8 (Z.shiftl 1 (Z.of_nat k) - 1) = Z.ones (Z.of_nat k).
Proof.
  intros Hk. rewrite Z.shiftl_1_l, Z.ones_equiv, <- Z.sub_1_r. apply u8_small.
  pose proof (Z.pow_pos_nonneg 2 (Z.of_nat k) ltac:(lia) ltac:(lia)).
  pose proof (Z.pow_le_mono_r 2 (Z.of_nat k) 8 ltac:(lia) ltac:(lia)) as H1.
  change (2 ^ 8) with 256 in H1. unfold is_u8. lia.
Qed.

Lemma bit_no_block b q : bitset_raw b → (calc_num_blocks (m_num_bits b) ≤ block_index q)%nat → bit b q = false.
Proof.
  intros [Hlen _] Hq. unfold bit. rewrite lookup_ge_None_2 by lia. apply Z.bits_0.
Qed.

Lemma zero_unused_ok b : bitset_raw b →
  ∃ b', zero_unused_bits b = Ok b' ∧ bitset_wf b' ∧ m_num_bits b' = m_num_bits b ∧
        ∀ q, bit b' q = bool_decide (q < m_num_bits b)%nat && bit b q.
Proof.
  intros Hraw. pose proof Hraw as [Hlen Hbytes]. unfold zero_unused_bits, bitset_size.
  rewrite assert_bind by (by apply bool_decide_eq_true).
  case_bool_decide as Hx.
  - assert (∀ q, bit b q = bool_decide (q < m_num_bits b)%nat && bit b q) as Hbit.
    { intros q. case_bool_decide; [done|]. apply bit_no_block; [done|].
      destruct (decide (block_index q < calc_num_blocks (m_num_bits b))%nat) as [Hlt|]; [|lia].
      apply block_index_unused in Hlt as (_ & _ & ?); [done|lia]. }
    exists b. split; [done|]. split; [|done]. split; [done..|].
    intros q Hq. rewrite Hbit, bool_decide_eq_false_2 by lia. done.
  - destruct (last_block_used (m_num_bits b) Hx) as [Hpos Hused].
    destruct (lookup_lt_is_Some_2 (m_bits b) (Nat.pred (length (m_bits b)))) as [back Hback]; [lia|].
    rewrite (vec_back_lookup _ back) by (by rewrite last_lookup). rewrite bind_ok, low_mask by apply bit_index_lt.
    eexists. split; [done|].
    assert (∀ q, bit (Bitset (m_num_bits b) (<[Nat.pred (length (m_bits b)) :=
        Z.land back (Z.ones (Z.of_nat (bit_index (m_num_bits b))))]> (m_bits b))) q
      = bool_decide (q < m_num_bits b)%nat && bit b q) as Hbit.
    { intros q. rewrite bit_insert by lia. case_bool_decide as He.
      - rewrite Z.land_spec, andb_comm. unfold bit. rewrite He, Hback. simpl. f_equal.
        rewrite Hlen in He. specialize (Hused q He). rewrite Z.testbit_ones_nonneg by lia.
        case_bool_decide; [apply Z.ltb_lt|apply Z.ltb_ge]; lia.
      - change (bit (Bitset (m_num_bits b) (m_bits b)) q) with (bit b q).
        case_bool_decide as Hq; [done|]. apply bit_no_block; [done|].
        destruct (decide (block_index q < calc_num_blocks (m_num_bits b))%nat) as [Hlt|]; [|lia].
        apply block_index_unused in Hlt as (? & _ & _); [|lia]. congruence. }
    split; [|split; [done|apply Hbit]]. split; simpl; [by rewrite length_insert| |].
    + apply bytes_insert; [done|]. apply is_u8_land; [by eapply Hbytes|]. rewrite <- low_mask by apply bit_index_lt. apply u8_range.
    + intros q Hq. rewrite Hbit, bool_decide_eq_false_2 by lia. done.
Qed.

Lemma resize_ok b n : bitset_wf b →
  ∃ b', bitset_resize b n = Ok b' ∧ bitset_wf b' ∧ m_num_bits b' = n ∧
        ∀ q, bit b' q = bool_decide (q < n)%nat && bit b q.
Proof.
  intros Hw. unfold bitset_resize.
  destruct (zero_unused_ok (Bitset n (resize (calc_num_blocks n) 0 (m_bits b)))) as (b' & Hb' & Hw' & Hn & Hbit).
  { split; simpl; [apply length_resize|]. intros i x Hx.
    destruct (decide (i < length (m_bits b))%nat) as [Hlt|Hge].
    - apply lookup_lt_Some in Hx as Hi. rewrite length_resize in Hi.
      rewrite lookup_resize in Hx by lia. by eapply bw_bytes.
    - apply lookup_lt_Some in Hx as Hi. rewrite length_resize in Hi.
      rewrite lookup_resize_new in Hx by lia. simplify_eq. done. }
  exists b'. split; [done|]. split; [done|]. split; [done|]. intros q. rewrite Hbit. simpl.
  case_bool_decide as Hq; [|done]. simpl. unfold bit. simpl. apply block_index_lt in Hq.
  destruct (decide (block_index q < length (m_bits b))%nat) as [Hlt|Hge].
  - by rewrite lookup_resize by lia.
  - by rewrite lookup_resize_new, (lookup_ge_None_2 (m_bits b)) by lia.
Qed.

Lemma default_wf : bitset_wf bitset_default.
Proof. split; [done|by intros ??|]. intros pos _. unfold bit. simpl. apply Z.bits_0. Qed.

Lemma new_ok n :
  ∃ b, bitset_new n = Ok b ∧ bitset_wf b ∧ m_num_bits b = n ∧ ∀ q, bit b q = false.
Proof.
  destruct (resize_ok bitset_default n default_wf) as (b & Hb & Hw & Hn & Hbit).
  exists b. split; [done|]. split; [done|]. split; [done|]. intros q. rewrite Hbit.
  rewrite (bw_unused _ default_wf) by (simpl; lia). apply andb_false_r.
Qed.

Lemma flip_ok b : bitset_wf b →
  ∃ b', bitset_flip b = Ok b' ∧ bitset_wf b' ∧ m_num_bits b' = m_num_bits b ∧
        ∀ q, bit b' q = bool_decide (q < m_num_bits b)%nat && negb (bit b q).
Proof.
  intros Hw. unfold bitset_flip.
  destruct (zero_unused_ok (Bitset (m_num_bits b) ((λ byte, u8 (Z.lnot byte)) <$> m_bits b)))
    as (b' & Hb' & Hw' & Hn & Hbit).
  { split; simpl; [rewrite length_fmap; by apply bw_len|]. intros i x Hx.
    apply list_lookup_fmap_Some in Hx as (y & -> & _). apply u8_range. }
  exists b'. split; [done|]. split; [done|]. split; [done|]. intros q. rewrite Hbit. simpl.
  case_bool_decide as Hq; [|done]. simpl.
  destruct (lookup_block b q Hw Hq) as (x & Hx & _ & _ & ->). unfold bit. simpl.
  rewrite list_lookup_fmap, Hx. simpl. pose proof (bit_index_lt q).
  rewrite testbit_u8, Z.lnot_spec by lia. done.
Qed.

Lemma or_ok b o : bitset_wf b → bitset_wf o → m_num_bits b = m_num_bits o →
  ∃ b', bitset_or b o = Ok b' ∧ bitset_wf b' ∧ m_num_bits b' = m_num_bits b ∧
        ∀ q, bit b' q = bit b q || bit o q.
Proof.
  intros Hb Ho Hn. unfold bitset_or, bitset_size. rewrite assert_bind by (by apply bool_decide_eq_true).
  set (g := λ i, Z.lor (default 0 (m_bits b !! i)) (default 0 (m_bits o !! i))).
  assert (length (m_bits b) = length (m_bits o)) as Hlen by (rewrite !bw_len by done; by rewrite Hn).
  rewrite (mapM_ok _ g); last first.
  { intros i Hi. apply elem_of_seq in Hi. unfold g.
    destruct (lookup_lt_is_Some_2 (m_bits b) i) as [x Hx]; [lia|].
    destruct (lookup_lt_is_Some_2 (m_bits o) i) as [y Hy]; [lia|].
    rewrite (vec_at_lookup (m_bits b) _ x), (vec_at_lookup (m_bits o) _ y), Hx, Hy by (lia || by rewrite Nat2Z.id). done. }
  rewrite bind_ok. eexists. split; [done|].
  assert (∀ q, bit (Bitset (m_num_bits b) (g <$> seq 0 (length (m_bits b)))) q = bit b q || bit o q) as Hbit.
  { intros q. unfold bit. simpl. rewrite list_lookup_fmap.
    destruct (decide (block_index q < length (m_bits b))%nat) as [Hlt|Hge].
    - rewrite lookup_seq_lt by done. simpl. unfold g. by rewrite Z.lor_spec.
    - rewrite lookup_seq_ge, !lookup_ge_None_2 by lia. simpl. by rewrite Z.bits_0. }
  split; [|split; [done|apply Hbit]]. split; simpl.
  - rewrite length_fmap, length_seq. by apply bw_len.
  - intros i x Hx. apply list_lookup_fmap_Some in Hx as (j & -> & Hj). apply lookup_seq in Hj as [-> Hj]. simpl.
    destruct (lookup_lt_is_Some_2 (m_bits b) i) as [x Hx]; [lia|].
    destruct (lookup_lt_is_Some_2 (m_bits o) i) as [y Hy]; [lia|].
    unfold g. rewrite Hx, Hy. simpl. apply is_u8_lor; [by eapply (bw_bytes b)|by eapply (bw_bytes o)].
  - intros q Hq. rewrite Hbit, !bw_unused by (done || lia). done.
Qed.

(** ** The whole value *)

Lemma bits_lookup b q : bits b !! q = if bool_decide (q < m_num_bits b)%nat then Some (bit b q) else None.
Proof.
  unfold bits. rewrite list_lookup_fmap. case_bool_decide.
  - by rewrite lookup_seq_lt.
  - by rewrite lookup_seq_ge by lia.
Qed.

Lemma bits_length b : length (bits b) = m_num_bits b.
Proof. unfold bits. by rewrite length_fmap, length_seq. Qed.

(** Two bitsets with the same bits are the same value: no hidden state. *)
Lemma bitset_ext b1 b2 : bitset_wf b1 → bitset_wf b2 → bits b1 = bits b2 → b1 = b2.
Proof.
  intros H1 H2 Heq.
  assert (m_num_bits b1 = m_num_bits b2) as Hn by (rewrite <- !bits_length; by rewrite Heq).
  assert (∀ q, bit b1 q = bit b2 q) as Hbit.
  { intros q. destruct (decide (q < m_num_bits b1)%nat) as [Hq|Hq].
    - apply (f_equal (lookup q)) in Heq. rewrite !bits_lookup, !bool_decide_eq_true_2 in Heq by lia. congruence.
    - by rewrite !bw_unused by (done || lia). }
  destruct b1 as [n l1], b2 as [n2 l2]. simpl in Hn. subst n2. f_equal.
  pose proof (bw_len _ H1) as Hl1. pose proof (bw_len _ H2) as Hl2. simpl in *.
  apply list_eq_same_length with (n := calc_num_blocks n); [done..|].
  intros i x y Hi Hx Hy. apply Z.bits_inj'. intros j Hj.
  destruct (Z_lt_ge_dec j 8) as [Hj8|Hj8].
  - specialize (Hbit (i * 8 + Z.to_nat j)%nat). unfold bit in Hbit. simpl in Hbit.
    destruct (pos_of i j) as [Hbi Hji]; [lia|].
    rewrite Hbi, Hji, Hx, Hy in Hbit. exact Hbit.
  - rewrite !testbit_u8_high; [done|by eapply (bw_bytes _ H2)|lia|by eapply (bw_bytes _ H1)|lia].
Qed.

Lemma all_from_ok b : bitset_wf b → ∀ n i, (i + n = m_num_bits b)%nat →
  bitset_all_from b i n = Ok (forallb (bit b) (seq i n)).
Proof.
  intros Hw n. induction n as [|n IH]; intros i Hi; [done|]. cbn [bitset_all_from].
  rewrite test_ok, bind_ok by (done || lia). cbn [seq forallb]. destruct (bit b i); [|done]. simpl.
  apply IH. lia.
Qed.

Lemma none_ok b : bitset_wf b → bitset_none b = true ↔ ∀ q, bit b q = false.
Proof.
  intros Hw. unfold bitset_none. rewrite forallb_forall. split.
  - intros H q. unfold bit. destruct (m_bits b !! block_index q) as [x|] eqn:Hx; simpl; [|apply Z.bits_0].
    apply list_elem_of_lookup_2, list_elem_of_In, H, Z.eqb_eq in Hx. subst. apply Z.bits_0.
  - intros H x Hx. apply list_elem_of_In, list_elem_of_lookup in Hx as [i Hi]. apply Z.eqb_eq, Z.bits_inj'.
    intros j Hj. rewrite Z.bits_0. destruct (Z_lt_ge_dec j 8) as [Hj8|Hj8].
    + specialize (H (i * 8 + Z.to_nat j)%nat). unfold bit in H.
      destruct (pos_of i j) as [Hbi Hji]; [lia|].
      rewrite Hbi, Hji, Hi in H. exact H.
    + apply testbit_u8_high; [by eapply bw_bytes|lia].
Qed.

(** ** Strings *)

Definition bit_char (t : bool) : ascii := if t then "1"%char else "0"%char.

#[export] Instance bit_char_inj : Inj (=) (=) bit_char.
Proof. by intros [] []. Qed.

Lemma to_string_ok b : bitset_wf b → bitset_to_string b = Ok (bit_char <$> reverse (bits b)).
Proof.
  intros Hw. unfold bitset_to_string, bitset_size.
  rewrite (mapM_ok _ (λ i, bit_char (bit b i))).
  - f_equal. unfold bits. rewrite <- fmap_reverse, <- list_fmap_compose. done.
  - intros i Hi. rewrite list_elem_of_In, <- in_rev, <- list_elem_of_In in Hi || rewrite elem_of_reverse in Hi.
    apply elem_of_seq in Hi. by rewrite test_ok by (done || lia).
Qed.

Definition is_bit_char (ch : ascii) : Prop := ch = "0"%char ∨ ch = "1"%char.

Lemma from_string_loop_ok n s : ∀ i bs,
  bitset_wf bs → m_num_bits bs = n → (i + length s = n)%nat → Forall is_bit_char s →
  ∃ bs', from_string_loop bs n i s = Ok bs' ∧ bitset_wf bs' ∧ m_num_bits bs' = n ∧
    ∀ q, bit bs' q = bit bs q || bool_decide (q < length s ∧ s !! (length s - 1 - q)%nat = Some "1"%char)%nat.
Proof.
  induction s as [|ch s IH]; intros i bs Hw Hn Hi Hall.
  { exists bs. split; [done|]. split; [done|]. split; [done|]. intros q.
    rewrite bool_decide_eq_false_2 by (simpl; lia). by rewrite orb_false_r. }
  apply Forall_cons in Hall as [Hch Hall]. cbn [from_string_loop]. simpl length in *.
  assert (∀ q, bool_decide (q < length s ∧ s !! (length s - 1 - q)%nat = Some "1"%char)%nat =
     negb (bool_decide (q = length s)) &&
     bool_decide (q < S (length s) ∧ (ch :: s) !! (S (length s) - 1 - q)%nat = Some "1"%char)%nat) as Hstep.
  { intros q. destruct (decide (q = length s)) as [->|Hne].
    - rewrite (bool_decide_eq_true_2 (length s = length s)) by done. simpl. apply bool_decide_eq_false_2. lia.
    - rewrite (bool_decide_eq_false_2 (q = length s)) by done. simpl. apply bool_decide_ext.
      destruct (decide (q < length s)%nat); [|split; intros []; lia].
      replace (length s - 0 - q)%nat with (S (length s - 1 - q)) by lia. simpl. split; intros [? ?]; split; (lia || done). }
  destruct Hch as [-> | ->].
  - rewrite bool_decide_eq_true_2 by done.
    destruct (IH (S i) bs Hw Hn) as (bs' & Hl & Hw' & Hn' & Hb); [lia|done|].
    exists bs'. split; [done|]. split; [done|]. split; [done|]. intros q. rewrite Hb. f_equal. rewrite Hstep.
    destruct (decide (q = length s)) as [->|]; [|by rewrite bool_decide_eq_false_2].
    rewrite bool_decide_eq_true_2 by done. simpl. symmetry. apply bool_decide_eq_false_2.
    rewrite Nat.sub_0_r, Nat.sub_diag. simpl. by intros [].
  - rewrite bool_decide_eq_false_2, bool_decide_eq_true_2 by done.
    replace (n - i - 1)%nat with (length s) by lia.
    destruct (set_ok bs (length s) Hw) as (b1 & -> & Hw1 & Hn1 & Hb1); [lia|]. rewrite bind_ok.
    destruct (IH (S i) b1 Hw1) as (bs' & Hl & Hw' & Hn' & Hb); [lia..|done|].
    exists bs'. split; [done|]. split; [done|]. split; [done|]. intros q. rewrite Hb, Hb1, Hstep.
    destruct (decide (q = length s)) as [->|Hne].
    + rewrite !bool_decide_eq_true_2; [destruct (bit bs (length s)); done|..|done].
      replace (S (length s) - 1 - length s)%nat with 0%nat by lia. simpl. split; [lia|done].
    + by rewrite (bool_decide_eq_false_2 (q = length s)).
Qed.

Lemma from_string_loop_err n s : ∀ i bs,
  bitset_wf bs → m_num_bits bs = n → (i + length s = n)%nat → ¬ Forall is_bit_char s →
  from_string_loop bs n i s = Err invalid_argument.
Proof.
  induction s as [|ch s IH]; intros i bs Hw Hn Hi Hall; [by destruct Hall|]. cbn [from_string_loop].
  simpl length in Hi. case_bool_decide as H0.
  { apply IH; [done..|lia|]. intros Hs. apply Hall. constructor; [by left|done]. }
  case_bool_decide as H1; [|done].
  destruct (set_ok bs (n - i - 1) Hw) as (b1 & -> & Hw1 & Hn1 & _); [lia|]. rewrite bind_ok.
  apply IH; [done|lia|lia|]. intros Hs. apply Hall. constructor; [by right|done].
Qed.

Lemma unused_bits_zeroed_ok b : bitset_wf b → unused_bits_zeroed b = Ok true.
Proof.
  intros Hw. unfold unused_bits_zeroed, bitset_size. case_bool_decide as Hx; [done|].
  destruct (last_block_used _ Hx) as [Hpos Hused]. pose proof (bw_len _ Hw) as Hlen.
  destruct (lookup_lt_is_Some_2 (m_bits b) (Nat.pred (length (m_bits b)))) as [back Hback]; [lia|].
  rewrite (vec_back_lookup _ back) by (by rewrite last_lookup). rewrite bind_ok. f_equal.
  apply Z.eqb_eq, Z.bits_inj'. intros j Hj. pose proof (bit_index_lt (m_num_bits b)) as Hlt.
  rewrite Z.land_spec, Z.lnot_spec, Z.bits_0, Z.shiftl_1_l, Z.sub_1_r, <- Z.ones_equiv, Z.testbit_ones_nonneg by lia.
  destruct (Z.ltb_spec j (Z.of_nat (bit_index (m_num_bits b)))) as [|Hge]; [by rewrite andb_false_r|].
  rewrite andb_true_r. destruct (Z_lt_ge_dec j 8) as [Hj8|Hj8]; last first.
  { apply testbit_u8_high; [by eapply bw_bytes|lia]. }
  set (i := Nat.pred (length (m_bits b))) in *.
  destruct (pos_of i j) as [Hbi Hji]; [lia|].
  pose proof (bw_unused _ Hw (i * 8 + Z.to_nat j)) as Hu. unfold bit in Hu. rewrite Hbi, Hji, Hback in Hu.
  apply Hu. destruct (Hused (i * 8 + Z.to_nat j)%nat) as [H1 _]; [rewrite Hbi; unfold i; by rewrite Hlen|]. lia.
Qed.

Lemma from_string_ok s : Forall is_bit_char s →
  ∃ b, bitset_from_string s = Ok b ∧ bitset_wf b ∧ m_num_bits b = length s ∧ bit_char <$> reverse (bits b) = s.
Proof.
  intros Hs. unfold bitset_from_string. destruct (new_ok (length s)) as (b0 & -> & Hw0 & Hn0 & Hb0). rewrite bind_ok.
  destruct (from_string_loop_ok (length s) s 0 b0 Hw0 Hn0) as (b & -> & Hw & Hn & Hb); [lia|done|].
  rewrite bind_ok, unused_bits_zeroed_ok by done. exists b. split; [done|]. split; [done|]. split; [done|].
  apply list_eq. intros i. rewrite list_lookup_fmap.
  destruct (decide (i < length s)%nat) as [Hi|Hi]; last first.
  { rewrite (lookup_ge_None_2 s) by lia. rewrite lookup_ge_None_2; [done|]. rewrite length_reverse, bits_length. lia. }
  rewrite reverse_lookup by (rewrite bits_length; lia). rewrite bits_lookup, bits_length, Hn, bool_decide_eq_true_2 by lia.
  simpl. rewrite Hb, Hb0. simpl. destruct (lookup_lt_is_Some_2 s i Hi) as [ch Hch]. rewrite Hch. f_equal.
  replace (length s - 1 - (length s - S i))%nat with i by lia. rewrite Hch.
  pose proof (Forall_lookup_1 _ _ _ _ Hs Hch) as [-> | ->].
  - by rewrite bool_decide_eq_false_2 by (by intros []).
  - by rewrite bool_decide_eq_true_2 by (split; [lia|done]).
Qed.

(** Parsing yields well-formed bitsets only. *)
Lemma from_string_wf s b : bitset_from_string s = Ok b → bitset_wf b.
Proof.
  intros H. destruct (decide (Forall is_bit_char s)) as [Hs|Hs].
  - destruct (from_string_ok s Hs) as (b' & Hb' & Hw & _). congruence.
  - unfold bitset_from_string in H. destruct (new_ok (length s)) as (b0 & Hb0 & Hw0 & Hn0 & _).
    rewrite Hb0, bind_ok, (from_string_loop_err (length s) s 0 b0) in H; [done|done..].
Qed.

(** A bitset from its size and bits. *)
Lemma bits_intro b l :
  m_num_bits b = length l → (∀ q, (q < length l)%nat → l !! q = Some (bit b q)) → bits b = l.
Proof.
  intros Hn Hl. apply list_eq. intros q. rewrite bits_lookup. case_bool_decide.
  - by rewrite Hl by lia.
  - by rewrite lookup_ge_None_2 by lia.
Qed.

Lemma bits_at b q : (q < m_num_bits b)%nat → bits b !! q = Some (bit b q).
Proof. intros H. by rewrite bits_lookup, bool_decide_eq_true_2. Qed.

Lemma forallb_bits b : forallb (bit b) (seq 0 (m_num_bits b)) = forallb id (bits b).
Proof. unfold bits. generalize (seq 0 (m_num_bits b)). induction l; simpl; [done|]. by rewrite IHl. Qed.

Lemma none_bits b : bitset_wf b → bitset_none b = negb (existsb id (bits b)).
Proof.
  intros Hw. apply eq_true_iff_eq. rewrite none_ok, negb_true_iff, <- not_true_iff_false, existsb_exists by done. split.
  - intros H (x & Hx & Ht). apply list_elem_of_In, list_elem_of_lookup in Hx as [q Hq].
    rewrite bits_lookup in Hq. case_bool_decide; [|done]. rewrite H in Hq. by simplify_eq.
  - intros H q. destruct (bit b q) eqn:E; [|done]. destruct H. exists true. split; [|done].
    apply list_elem_of_In, list_elem_of_lookup. exists q. rewrite bits_lookup, E.
    case_bool_decide; [done|]. by rewrite bw_unused in E by (done || lia).
Qed.

(** On well-formed bitsets the byte-level operations are the operations on
    the list of bits, never fail inside the bounds, and keep the bitset well formed. *)
Theorem bitset_operations_correct b o pos :
  bitset_wf b → bitset_wf o → m_num_bits o = m_num_bits b → (pos < m_num_bits b)%nat →
  (∃ t, bitset_test b pos = Ok t ∧ bits b !! pos = Some t) ∧
  (∃ b', bitset_set b pos = Ok b' ∧ bitset_wf b' ∧ bits b' = <[pos := true]> (bits b)) ∧
  (∃ b', bitset_clear b pos = Ok b' ∧ bitset_wf b' ∧ bits b' = <[pos := false]> (bits b)) ∧
  (∃ b', bitset_flip b = Ok b' ∧ bitset_wf b' ∧ bits b' = negb <$> bits b) ∧
  (∃ b', bitset_or b o = Ok b' ∧ bitset_wf b' ∧ bits b' = zip_with orb (bits b) (bits o)) ∧
  bitset_all b = Ok (forallb id (bits b)) ∧
  bitset_none b = negb (existsb id (bits b)).
Proof.
  intros Hb Ho Hno Hp. rewrite none_bits by done. unfold bitset_all, bitset_size.
  rewrite all_from_ok, forallb_bits by (done || lia).
  destruct (set_ok b pos Hb Hp) as (bs & Hs & Hws & Hns & Hbs).
  destruct (clear_ok b pos Hb Hp) as (bc & Hc & Hwc & Hnc & Hbc).
  destruct (flip_ok b Hb) as (bf & Hf & Hwf & Hnf & Hbf).
  destruct (or_ok b o Hb Ho) as (bo & Hor & Hwo & Hno' & Hbo); [done|].
  split_and!; try done.
  - exists (bit b pos). by rewrite test_ok, bits_at.
  - exists bs. split_and!; [done..|]. apply bits_intro; rewrite length_insert, bits_length; [done|].
    intros q Hq. rewrite list_lookup_insert, bits_length, bits_at, Hbs by done.
    case_decide as H; [destruct H as [-> _]; by rewrite bool_decide_eq_true_2|].
    by rewrite bool_decide_eq_false_2 by (intros ->; by destruct H).
  - exists bc. split_and!; [done..|]. apply bits_intro; rewrite length_insert, bits_length; [done|].
    intros q Hq. rewrite list_lookup_insert, bits_length, bits_at, Hbc by done.
    case_decide as H; [destruct H as [-> _]; by rewrite bool_decide_eq_true_2|].
    by rewrite bool_decide_eq_false_2 by (intros ->; by destruct H).
  - exists bf. split_and!; [done..|]. apply bits_intro; rewrite length_fmap, bits_length; [done|].
    intros q Hq. by rewrite list_lookup_fmap, bits_at, Hbf, bool_decide_eq_true_2.
  - exists bo. split_and!; [done..|].
    assert (length (zip_with orb (bits b) (bits o)) = m_num_bits b) as Hz
      by (rewrite length_zip_with, !bits_length; lia).
    apply bits_intro; rewrite Hz; [done|].
    intros q Hq. rewrite lookup_zip_with, !bits_at, Hbo by lia. done.
Qed.

(** The textual form round-trips in both directions, and a string with any
    other character is rejected. *)
Theorem bitset_string_roundtrip :
  (∀ b, bitset_wf b → ∃ s, bitset_to_string b = Ok s ∧ bitset_from_string s = Ok b) ∧
  (∀ s, Forall is_bit_char s → ∃ b, bitset_from_string s = Ok b ∧ bitset_wf b ∧ bitset_to_string b = Ok s) ∧
  (∀ s, ¬ Forall is_bit_char s → bitset_from_string s = Err invalid_argument).
Proof.
  split; [|split].
  - intros b Hw. exists (bit_char <$> reverse (bits b)). split; [by apply to_string_ok|].
    destruct (from_string_ok (bit_char <$> reverse (bits b))) as (b' & Hb' & Hw' & Hn' & Heq).
    { apply Forall_fmap, Forall_forall. intros [] _; [by right|by left]. }
    rewrite Hb'. f_equal. apply bitset_ext; [done..|].
    by apply (inj (fmap (M := list) bit_char)), (inj reverse) in Heq.
  - intros s Hs. destruct (from_string_ok s Hs) as (b & Hb & Hw & Hn & Heq).
    exists b. rewrite to_string_ok, Heq by done. done.
  - intros s Hs. unfold bitset_from_string. destruct (new_ok (length s)) as (b0 & -> & Hw0 & Hn0 & Hb0). rewrite bind_ok.
    by rewrite from_string_loop_err by (done || lia).
Qed.

(** Nine bits, so that the last block is not full. *)
Lemma bitset_operations_correct_witness :
  ∃ b o b', bitset_wf b ∧ bitset_wf o ∧ bitset_set b 8 = Ok b' ∧ bits b' = <[8%nat := true]> (bits b).
Proof.
  destruct (from_string_ok ["0"; "1"; "0"; "1"; "0"; "0"; "0"; "1"; "1"]%char) as (b & _ & Hb & Hn & _).
  { repeat constructor; (by left) || by right. }
  destruct (from_string_ok ["1"; "1"; "0"; "1"; "0"; "0"; "0"; "1"; "1"]%char) as (o & _ & Ho & Hno & _).
  { repeat constructor; (by left) || by right. }
  destruct (bitset_operations_correct b o 8) as (_ & (b' & Hs & _ & Hbs) & _); [done|done|by rewrite Hno, Hn|rewrite Hn; simpl; lia|].
  exists b, o, b'. done.
Defined.
