(* ===== verification/OrderedDiff.v ===== *)
(** * [fc::ordered_diff]: difference of two sequences and its application

    Used for the finalizer and proposer policy differences carried in blocks. *)

From S2P Require Import Prelude.
Open Scope Z_scope.

Section OrderedDiff.
Context {T : Type} `{!EqDecision T}.

(** [std::numeric_limits<SizeType>::max()]. *)
Variable size_type_max : nat.

(** Conversion of a [size_t] to the (unsigned) [SizeType]. *)
Definition to_size_type (n : nat) : nat := n mod (S size_type_max).

Record diff_result : Type := DiffResult {
  remove_indexes : list nat;
  insert_indexes : list (nat * T) }.

Definition push_remove (r : diff_result) (s : nat) : result diff_result :=
  assert_ (bool_decide (s ≤ size_type_max)%nat);;
  Ok (DiffResult (remove_indexes r ++ [to_size_type s]) (insert_indexes r)).

Definition push_insert (r : diff_result) (t : nat) (v : T) : result diff_result :=
  assert_ (bool_decide (t ≤ size_type_max)%nat);;
  Ok (DiffResult (remove_indexes r) (insert_indexes r ++ [(to_size_type t, v)])).

(** The [while] loop of [diff]. *)
Fixpoint diff_loop (fuel : nat) (source target : list T) (s t : nat) (r : diff_result) : result diff_result :=
  match fuel with
  | O => Err out_of_fuel
  | S fuel =>
    if bool_decide (s < length source ∨ t < length target)%nat then
      assert_ (bool_decide (s ≤ length source)%nat);;
      assert_ (bool_decide (t ≤ length target)%nat);;
      match source !! s, target !! t with
      | Some x, Some y =>
        if bool_decide (x = y) then diff_loop fuel source target (S s) (S t) r
        else if bool_decide (s = length source - 1 ∧ t = length target - 1)%nat then
          r ← push_remove r s; r ← push_insert r t y;
          diff_loop fuel source target (S s) (S t) r
        else if bool_decide (S s < length source ∧ S t < length target ∧ source !! S s = target !! S t)%nat then
          r ← push_remove r s; r ← push_insert r t y;
          diff_loop fuel source target (S s) (S t) r
        else if bool_decide (S t < length target ∧ Some x = target !! S t)%nat then
          r ← push_insert r t y;
          diff_loop fuel source target s (S t) r
        else
          r ← push_remove r s;
          diff_loop fuel source target (S s) t r
      | Some _, None => r ← push_remove r s; diff_loop fuel source target (S s) t r
      | None, Some y => r ← push_insert r t y; diff_loop fuel source target s (S t) r
      | None, None => diff_loop fuel source target s t r
      end
    else Ok r
  end.

Definition diff (source target : list T) : result diff_result :=
  check (bool_decide (source = [] ∨ length source - 1 ≤ size_type_max)%nat) fc_assert_exception;;
  check (bool_decide (target = [] ∨ length target - 1 ≤ size_type_max)%nat) fc_assert_exception;;
  diff_loop (S (length source + length target)) source target 0 0 (DiffResult [] []).

(** The loop over [remove_indexes]; [prev] is the index of the previous round. *)
Fixpoint remove_loop (i : nat) (prev : option nat) (rem : list nat) (container : list T) : result (list T) :=
  match rem with
  | [] => Ok container
  | idx :: rem =>
    check (match prev with None => true | Some p => bool_decide (p < idx)%nat end) fc_assert_exception;;
    assert_ (bool_decide (i ≤ idx)%nat);;
    let updated_index := (idx - i)%nat in
    check (bool_decide (updated_index < length container)%nat) fc_assert_exception;;
    remove_loop (S i) (Some idx) rem (delete updated_index container)
  end.

Fixpoint insert_loop (prev : option nat) (ins : list (nat * T)) (container : list T) : result (list T) :=
  match ins with
  | [] => Ok container
  | (idx, v) :: ins =>
    check (match prev with None => true | Some p => bool_decide (p < idx)%nat end) fc_assert_exception;;
    check (bool_decide (idx ≤ length container)%nat) fc_assert_exception;;
    insert_loop (Some idx) ins (take idx container ++ v :: drop idx container)
  end.

Definition apply_diff (container : list T) (d : diff_result) : result (list T) :=
  c ← remove_loop 0 None (remove_indexes d) container;
  insert_loop None (insert_indexes d) c.

(** ** Edit scripts

    [script s t S T K R I]: from position [s] of the source with [S] left and
    position [t] of the target with [T] left, [R] and [I] are the indexes still
    to be recorded, and [K] the elements kept. *)
Inductive script : nat → nat → list T → list T → list T → list nat → list (nat * T) → Prop :=
| script_nil s t : script s t [] [] [] [] []
| script_keep s t x S' T' K R I : script (S s) (S t) S' T' K R I → script s t (x :: S') (x :: T') (x :: K) R I
| script_remove s t x S' T' K R I : script (S s) t S' T' K R I → script s t (x :: S') T' K (s :: R) I
| script_insert s t y S' T' K R I : script s (S t) S' T' K R I → script s t S' (y :: T') K R ((t, y) :: I).

Lemma script_removes s t S' T' K R I : script s t S' T' K R I →
  ∀ P i prev, (length P + i = s)%nat → (∀ p, prev = Some p → p < s)%nat →
  remove_loop i prev R (P ++ S') = Ok (P ++ K).
Proof.
  induction 1 as [| s t x S' T' K R I _ IH | s t x S' T' K R I _ IH | s t y S' T' K R I _ IH];
    intros P i prev HP Hprev; [done|..].
  - rewrite (cons_middle x P S'), (cons_middle x P K), !app_assoc. apply IH; [rewrite length_app; simpl; lia|].
    intros p Hp. specialize (Hprev p Hp). lia.
  - cbn [remove_loop]. rewrite check_bind by (destruct prev; [apply bool_decide_eq_true; by apply Hprev|done]).
    rewrite assert_bind by (apply bool_decide_eq_true; lia). cbv zeta.
    rewrite check_bind by (apply bool_decide_eq_true; rewrite length_app; simpl; lia).
    replace (s - i)%nat with (length P) by lia. rewrite delete_middle.
    apply IH; [lia|]. intros p [= <-]. lia.
  - by apply IH.
Qed.

Lemma script_inserts s t S' T' K R I : script s t S' T' K R I →
  ∀ P prev, (length P = t)%nat → (∀ p, prev = Some p → p < t)%nat →
  insert_loop prev I (P ++ K) = Ok (P ++ T').
Proof.
  induction 1 as [| s t x S' T' K R I _ IH | s t x S' T' K R I _ IH | s t y S' T' K R I _ IH];
    intros P prev HP Hprev; [done|..].
  - rewrite (cons_middle x P T'), (cons_middle x P K), !app_assoc. apply IH; [rewrite length_app; simpl; lia|].
    intros p Hp. specialize (Hprev p Hp). lia.
  - by apply IH.
  - cbn [insert_loop]. rewrite check_bind by (destruct prev; [apply bool_decide_eq_true; by apply Hprev|done]).
    rewrite check_bind by (apply bool_decide_eq_true; rewrite length_app; lia).
    rewrite <- HP, take_app_length, drop_app_length. rewrite (cons_middle y P K), (cons_middle y P T'), !app_assoc.
    apply IH; [rewrite length_app; simpl; lia|]. intros p [= <-]. lia.
Qed.

Section Loop.
Context (source target : list T).
Hypothesis Hsource : source = [] ∨ (length source - 1 ≤ size_type_max)%nat.
Hypothesis Htarget : target = [] ∨ (length target - 1 ≤ size_type_max)%nat.

Lemma source_index s x : source !! s = Some x → (s ≤ size_type_max)%nat.
Proof using Hsource. clear Htarget. intros H. apply lookup_lt_Some in H as Hlt. destruct Hsource as [->|?]; [done|lia]. Qed.

Lemma target_index t y : target !! t = Some y → (t ≤ size_type_max)%nat.
Proof using Htarget. clear Hsource. intros H. apply lookup_lt_Some in H as Hlt. destruct Htarget as [->|?]; [done|lia]. Qed.

Lemma push_remove_ok r s x : source !! s = Some x →
  push_remove r s = Ok (DiffResult (remove_indexes r ++ [s]) (insert_indexes r)).
Proof using Hsource.
  clear Htarget. intros H%source_index. unfold push_remove, to_size_type.
  rewrite assert_bind by (by apply bool_decide_eq_true). by rewrite Nat.mod_small by lia.
Qed.

Lemma push_insert_ok r t y : target !! t = Some y →
  push_insert r t y = Ok (DiffResult (remove_indexes r) (insert_indexes r ++ [(t, y)])).
Proof using Htarget.
  clear Hsource. intros H%target_index. unfold push_insert, to_size_type.
  rewrite assert_bind by (by apply bool_decide_eq_true). by rewrite Nat.mod_small by lia.
Qed.

(** The loop terminates and records an edit script for what is left. *)
Lemma diff_loop_script fuel : ∀ s t r,
  (s ≤ length source)%nat → (t ≤ length target)%nat →
  (length source - s + (length target - t) < fuel)%nat →
  ∃ K R I, diff_loop fuel source target s t r = Ok (DiffResult (remove_indexes r ++ R) (insert_indexes r ++ I)) ∧
    script s t (drop s source) (drop t target) K R I.
Proof using Hsource Htarget.
  induction fuel as [|fuel IH]; intros s t r Hs Ht Hfuel; [lia|]. cbn [diff_loop].
  case_bool_decide as Hgo; last first.
  { exists [], [], []. rewrite !app_nil_r, !drop_ge by lia. destruct r. split; [done|constructor]. }
  rewrite !assert_bind by (by apply bool_decide_eq_true).
  destruct (source !! s) as [x|] eqn:Hx, (target !! t) as [y|] eqn:Hy.
  4: { apply lookup_ge_None in Hx, Hy. lia. }
  all: try (apply lookup_lt_Some in Hx as Hlx); try (apply lookup_lt_Some in Hy as Hly).
  all: rewrite ?(drop_S source x s) by done; rewrite ?(drop_S target y t) by done.
  3: { apply lookup_ge_None in Hx as Hgx. rewrite push_insert_ok, bind_ok by done.
       edestruct (IH s (S t)) as (K & R & I & -> & Hsc); [lia..|]. exists K, R, ((t, y) :: I). simpl. rewrite <- app_assoc.
       split; [done|by constructor]. }
  2: { apply lookup_ge_None in Hy as Hgy. rewrite (push_remove_ok _ _ x), bind_ok by done.
       edestruct (IH (S s) t) as (K & R & I & -> & Hsc); [lia..|]. exists K, (s :: R), I. simpl. rewrite <- app_assoc.
       split; [done|by constructor]. }
  case_bool_decide as Hxy.
  { subst x.
    edestruct (IH (S s) (S t)) as (K & R & I & -> & Hsc); [lia..|]. exists (y :: K), R, I. split; [done|by constructor]. }
  assert (∃ K R I, (r0 ← push_remove r s; r1 ← push_insert r0 t y; diff_loop fuel source target (S s) (S t) r1)
     = Ok (DiffResult (remove_indexes r ++ R) (insert_indexes r ++ I)) ∧
     script s t (x :: drop (S s) source) (y :: drop (S t) target) K R I) as Hboth.
  { rewrite (push_remove_ok _ _ x), bind_ok, push_insert_ok, bind_ok by done.
    edestruct (IH (S s) (S t)) as (K & R & I & -> & Hsc); [lia..|]. exists K, (s :: R), ((t, y) :: I). simpl.
    rewrite <- !app_assoc. split; [done|by do 2 constructor]. }
  case_bool_decide; [done|]. case_bool_decide; [done|]. case_bool_decide.
  - rewrite push_insert_ok, bind_ok by done.
    edestruct (IH s (S t)) as (K & R & I & -> & Hsc); [lia..|]. exists K, R, ((t, y) :: I). simpl. rewrite <- app_assoc.
    rewrite (drop_S source x s) in Hsc by done. split; [done|by constructor].
  - rewrite (push_remove_ok _ _ x), bind_ok by done.
    edestruct (IH (S s) t) as (K & R & I & -> & Hsc); [lia..|]. exists K, (s :: R), I. simpl. rewrite <- app_assoc.
    rewrite (drop_S target y t) in Hsc by done. split; [done|by constructor].
Qed.

Lemma diff_apply_ok : ∃ d, diff source target = Ok d ∧ apply_diff source d = Ok target.
Proof using Hsource Htarget.
  unfold diff. rewrite !check_bind by (by apply bool_decide_eq_true).
  destruct (diff_loop_script (S (length source + length target)) 0 0 (DiffResult [] [])) as (K & R & I & -> & Hsc); [lia..|].
  rewrite !drop_0 in Hsc. eexists. split; [done|]. unfold apply_diff. simpl.
  pose proof (script_removes _ _ _ _ _ _ _ Hsc [] 0 None) as Hrem. simpl in Hrem. rewrite Hrem by done.
  rewrite bind_ok. by apply (script_inserts _ _ _ _ _ _ _ Hsc [] None).
Qed.

End Loop.

(** A difference is computed only within the bounds, so applying it gives the target. *)
Lemma diff_ok_apply source target d : diff source target = Ok d → apply_diff source d = Ok target.
Proof.
  intros Hd. pose proof Hd as Hc. unfold diff in Hc. apply bind_inv in Hc as ([] & Hs & Hc). apply bind_inv in Hc as ([] & Ht & _).
  apply check_inv, bool_decide_eq_true in Hs. apply check_inv, bool_decide_eq_true in Ht.
  destruct (diff_apply_ok source target Hs Ht) as (d' & Hd' & Ha). congruence.
Qed.

(** The difference of two sequences whose indexes fit the index type is
    computed without failure, and applying it to the source yields the target. *)
Theorem diff_apply_roundtrip source target :
  (source = [] ∨ length source - 1 ≤ size_type_max)%nat →
  (target = [] ∨ length target - 1 ≤ size_type_max)%nat →
  ∃ d, diff source target = Ok d ∧ apply_diff source d = Ok target.
Proof. apply diff_apply_ok. Qed.

End OrderedDiff.

(** Indexes of one byte; the target moves an element, drops one and adds one. *)
Lemma diff_apply_roundtrip_witness :
  ∃ d, diff 255 [1; 2; 3; 4] [2; 5; 1; 4] = Ok d ∧ apply_diff [1; 2; 3; 4] d = Ok [2; 5; 1; 4].
Proof. apply (diff_apply_roundtrip 255 [1; 2; 3; 4] [2; 5; 1; 4]); right; simpl; lia. Defined.
