(* ===== verification/ProducerSchedule.v ===== *)
(** * Producers: schedules and block signing authorities ([producer_schedule.hpp],
    [proposer_policy.hpp]), rounds ([block_header_state_utils.hpp]) and the
    verification of block signatures ([block_state.cpp])

    A public key is compared as the bytes it is stored in. Key recovery from a
    signature is a parameter. *)

From S2P Require Import Prelude Sha256 OrderedDiff.
Open Scope Z_scope.

Definition public_key_type : Type := list Z.

Record key_weight : Type := KeyWeight { kw_key : public_key_type; kw_weight : Z }.

Record block_signing_authority_v0 : Type := BlockSigningAuthority {
  bsa_threshold : Z;
  bsa_keys : list key_weight }.

Record producer_authority : Type := ProducerAuthority {
  producer_name : Z;
  authority : block_signing_authority_v0 }.

Record producer_authority_schedule : Type := ProducerAuthoritySchedule {
  version : Z;
  producers : list producer_authority }.

#[export] Instance key_weight_eq_dec : EqDecision key_weight.
Proof. solve_decision. Defined.
#[export] Instance block_signing_authority_eq_dec : EqDecision block_signing_authority_v0.
Proof. solve_decision. Defined.
#[export] Instance producer_authority_eq_dec : EqDecision producer_authority.
Proof. solve_decision. Defined.
#[export] Instance producer_authority_schedule_eq_dec : EqDecision producer_authority_schedule.
Proof. solve_decision. Defined.

(** ** Block signatures *)

(** The loop of [keys_satisfy_and_relevant]: the relevant keys so far and their
    weight, which is not increased once it reaches the threshold. *)
Fixpoint keys_loop (threshold : Z) (presented : list public_key_type) (keys : list key_weight)
    (num_relevant_keys total_weight : Z) : Z * Z :=
  match keys with
  | [] => (num_relevant_keys, total_weight)
  | kw :: keys =>
    if bool_decide (kw_key kw ∈ presented) then
      keys_loop threshold presented keys (num_relevant_keys + 1)
        (if total_weight <? threshold then u32 (total_weight + Z.min (u32_max - total_weight) (kw_weight kw)) else total_weight)
    else keys_loop threshold presented keys num_relevant_keys total_weight
  end.

Definition keys_satisfy_and_relevant (presented : list public_key_type) (a : block_signing_authority_v0) : bool * Z :=
  let '(num_relevant_keys, total_weight) := keys_loop (bsa_threshold a) presented (bsa_keys a) 0 0 in
  (bsa_threshold a <=? total_weight, num_relevant_keys).

Section Signatures.
Context {signature_type : Type} (recover : signature_type → sha256 → result public_key_type).

(** The keys of the additional signatures, each required to be new. *)
Fixpoint recover_keys (sigs : list signature_type) (digest : sha256) (keys : list public_key_type)
    : result (list public_key_type) :=
  match sigs with
  | [] => Ok keys
  | s :: sigs =>
    k ← recover s digest;
    check (bool_decide (k ∉ keys)) wrong_signing_key;;
    recover_keys sigs digest (k :: keys)
  end.

Definition verify_signee (producer_signature : signature_type) (block_id : sha256)
    (additional_signatures : list signature_type) (a : block_signing_authority_v0) : result unit :=
  check (1 + Z.of_nat (length additional_signatures) <=? Z.of_nat (length (bsa_keys a))) wrong_signing_key;;
  k ← recover producer_signature block_id;
  keys ← recover_keys additional_signatures block_id [k];
  let '(is_satisfied, relevant_sig_count) := keys_satisfy_and_relevant keys a in
  check (relevant_sig_count =? Z.of_nat (length keys)) wrong_signing_key;;
  check is_satisfied wrong_signing_key.

End Signatures.

(** ** Rounds *)

Definition producer_repetitions : Z := 12.

Definition get_current_round_start_slot (t : Z) : Z := u32 (t - t mod producer_repetitions).

Definition in_same_round (next curr : Z) : bool :=
  next <? u32 (get_current_round_start_slot curr + producer_repetitions).

Definition get_prior_round_start_slot (t : Z) : option Z :=
  if t <? producer_repetitions then None
  else Some (u32 (get_current_round_start_slot t - producer_repetitions)).

Definition first_block_of_round (curr_block_time parent_block_time : Z) : result bool :=
  assert_ (parent_block_time <? curr_block_time);;
  Ok (parent_block_time <? get_current_round_start_slot curr_block_time).

(** The remainder by zero of an empty schedule is undefined. *)
Definition get_scheduled_producer (ps : list producer_authority) (t : Z) : result producer_authority :=
  let n := u64 (Z.of_nat (length ps) * producer_repetitions) in
  if n =? 0 then Err undefined_behaviour
  else vec_at ps (t mod n / producer_repetitions).

(** ** Proposer policies *)

Record proposer_policy : Type := ProposerPolicy {
  proposal_time : Z;
  proposer_schedule : producer_authority_schedule }.

#[export] Instance proposer_policy_eq_dec : EqDecision proposer_policy.
Proof. solve_decision. Defined.

Record proposer_policy_diff : Type := ProposerPolicyDiff {
  pd_version : Z;
  pd_proposal_time : Z;
  producer_auth_diff : diff_result (T := producer_authority) }.

(** [producer_auth_differ] uses [uint16_t] indexes. *)
Definition producer_diff_max : nat := Z.to_nat 65535.

Definition proposer_create_diff (p target : proposer_policy) : result proposer_policy_diff :=
  d ← diff producer_diff_max (producers (proposer_schedule p)) (producers (proposer_schedule target));
  Ok (ProposerPolicyDiff (version (proposer_schedule target)) (proposal_time target) d).

Definition proposer_apply_diff (p : proposer_policy) (d : proposer_policy_diff) : result proposer_policy :=
  ps ← apply_diff (producers (proposer_schedule p)) (producer_auth_diff d);
  Ok (ProposerPolicy (pd_proposal_time d) (ProducerAuthoritySchedule (pd_version d) ps)).

Lemma proposer_create_diff_apply p target d : proposer_create_diff p target = Ok d → proposer_apply_diff p d = Ok target.
Proof.
  intros H. unfold proposer_create_diff in H. apply bind_inv in H as (pd & Hpd & H). injection H as <-.
  unfold proposer_apply_diff. simpl. rewrite (diff_ok_apply _ _ _ _ Hpd), bind_ok. by destruct target as [? []].
Qed.

(** ** Lemmas on signatures *)

(** The weight of the keys of an authority that are among [ks]. *)
Definition weight_in (ks : list public_key_type) (keys : list key_weight) : Z :=
  foldr (λ kw acc, (if bool_decide (kw_key kw ∈ ks) then kw_weight kw else 0) + acc) 0 keys.

Definition relevant (ks : list public_key_type) (keys : list key_weight) : list public_key_type :=
  filter (λ k, k ∈ ks) (kw_key <$> keys).

Lemma weight_in_nonneg ks keys : Forall (λ kw, 0 <= kw_weight kw) keys → 0 <= weight_in ks keys.
Proof. induction 1; simpl; [done|]. case_bool_decide; lia. Qed.

#[export] Instance weight_in_proper : Proper ((≡ₚ) ==> (=) ==> (=)) weight_in.
Proof.
  intros ks ks' Hp keys _ <-. unfold weight_in. induction keys as [|kw keys IH]; simpl; [done|]. rewrite IH.
  by rewrite (bool_decide_ext (kw_key kw ∈ ks) (kw_key kw ∈ ks')) by (by rewrite Hp).
Qed.

Lemma keys_loop_spec th ks keys : ∀ n t,
  Forall (λ kw, 0 <= kw_weight kw) keys → th <= u32_max → 0 <= t <= u32_max →
  ∃ t', keys_loop th ks keys n t = (n + Z.of_nat (length (relevant ks keys)), t') ∧
    (th <= t' ↔ th <= t + weight_in ks keys).
Proof.
  induction keys as [|kw keys IH]; intros n t Hw Hth Ht; cbn [keys_loop].
  { exists t. split; [f_equal; simpl; lia|]. simpl. lia. }
  apply Forall_cons in Hw as [Hk Hw]. pose proof (weight_in_nonneg ks keys Hw).
  unfold relevant in *. rewrite fmap_cons, filter_cons. cbn [weight_in foldr].
  destruct (decide (kw_key kw ∈ ks)) as [Hin|Hin].
  - rewrite bool_decide_eq_true_2 by done. destruct (Z.ltb_spec t th) as [Hlt|Hge].
    + rewrite u32_small by (unfold is_u32, u32_max in *; lia).
      destruct (IH (n + 1) (t + Z.min (u32_max - t) (kw_weight kw)) Hw Hth) as (t' & -> & Ht'); [lia|].
      exists t'. split; [f_equal; simpl; lia|]. rewrite Ht'. fold (weight_in ks keys). lia.
    + destruct (IH (n + 1) t Hw Hth Ht) as (t' & -> & Ht').
      exists t'. split; [f_equal; simpl; lia|]. rewrite Ht'. fold (weight_in ks keys). lia.
  - rewrite bool_decide_eq_false_2 by done. destruct (IH n t Hw Hth Ht) as (t' & -> & Ht').
    exists t'. split; [done|]. rewrite Ht'. fold (weight_in ks keys). lia.
Qed.

(** Every presented key is relevant exactly when as many keys are relevant as presented. *)
Lemma relevant_all ks keys : NoDup ks → NoDup (kw_key <$> keys) →
  length (relevant ks keys) = length ks ↔ ∀ k, k ∈ ks → k ∈ kw_key <$> keys.
Proof.
  intros Hks Hkeys. unfold relevant. assert (NoDup (filter (λ k, k ∈ ks) (kw_key <$> keys))) as Hf by by apply NoDup_filter.
  split.
  - intros Hlen k Hk. assert (filter (λ k, k ∈ ks) (kw_key <$> keys) ≡ₚ ks) as Hp.
    { apply submseteq_length_Permutation; [|lia]. apply NoDup_submseteq; [done|].
      intros x Hx. by apply list_elem_of_filter in Hx as [? _]. }
    rewrite <- Hp in Hk. by apply list_elem_of_filter in Hk as [_ ?].
  - intros Hsub. apply Permutation_length, NoDup_Permutation; [done..|].
    intros k. rewrite list_elem_of_filter. naive_solver.
Qed.

Section SignatureLemmas.
Context {signature_type : Type} (recover : signature_type → sha256 → result public_key_type).

Lemma recover_keys_iff sigs id : ∀ keys out, NoDup keys →
  recover_keys recover sigs id keys = Ok out ↔
  ∃ ks, Forall2 (λ s k, recover s id = Ok k) sigs ks ∧ out = reverse ks ++ keys ∧ NoDup out.
Proof.
  induction sigs as [|s sigs IH]; intros keys out Hnd; cbn [recover_keys].
  - split; [intros [= <-]; by exists []|]. intros (ks & H & -> & _). apply Forall2_nil_inv_l in H as ->. done.
  - split.
    + intros H. inv_ok H. inv_ok H. apply check_inv, bool_decide_eq_true in Ha0.
      apply IH in H as (ks & Hf & -> & Hnd'); [|by constructor].
      exists (a :: ks). split; [by constructor|]. by rewrite reverse_cons, <- app_assoc.
    + intros (ks & Hf & -> & Hnd'). apply Forall2_cons_inv_l in Hf as (k & ks' & Hk & Hf & ->).
      rewrite Hk. rewrite reverse_cons, <- app_assoc in *. simpl in *.
      apply NoDup_app in Hnd' as Hnd3. destruct Hnd3 as (_ & _ & Hnd3). apply NoDup_cons in Hnd3 as [Hnk _].
      rewrite check_bind by (by apply bool_decide_eq_true). apply IH; [by constructor|]. by exists ks'.
Qed.

(** Signatures that recover distinct keys are distinct. *)
Lemma verify_signee_nodup s id sigs a : verify_signee recover s id sigs a = Ok tt → NoDup sigs.
Proof.
  intros H. unfold verify_signee in H. inv_ok H. inv_ok H. inv_ok H.
  apply recover_keys_iff in Ha1 as (ks & Hf & -> & Hnd); [|apply NoDup_singleton].
  apply NoDup_app in Hnd as (Hnd & _). rewrite reverse_Permutation in Hnd. clear H Ha.
  induction Hf as [|x k sigs ks Hx Hf IH]; [constructor|]. apply NoDup_cons in Hnd as [Hk Hnd]. constructor; [|by apply IH].
  intros Hin. apply Hk. apply list_elem_of_lookup in Hin as [i Hi].
  destruct (Forall2_lookup_l _ _ _ _ _ Hf Hi) as (k' & Hk' & Hr). assert (k' = k) as -> by congruence.
  by eapply list_elem_of_lookup_2.
Qed.

(** A block is accepted exactly when its signatures recover distinct keys, all of
    them keys of the authority of its producer, whose weight reaches the threshold. *)
Theorem verify_signee_correct s id sigs a :
  NoDup (kw_key <$> bsa_keys a) → Forall (λ kw, 0 <= kw_weight kw) (bsa_keys a) → bsa_threshold a <= u32_max →
  verify_signee recover s id sigs a = Ok tt ↔
  ∃ ks, Forall2 (λ s k, recover s id = Ok k) (s :: sigs) ks ∧ NoDup ks ∧
    (∀ k, k ∈ ks → k ∈ kw_key <$> bsa_keys a) ∧ bsa_threshold a <= weight_in ks (bsa_keys a).
Proof.
  intros Hnd Hw Hth. unfold verify_signee, keys_satisfy_and_relevant. split.
  - intros H. inv_ok H. inv_ok H. inv_ok H. apply recover_keys_iff in Ha1 as (ks & Hf & Hout & Hks); [|apply NoDup_singleton].
    destruct (keys_loop_spec (bsa_threshold a) a2 (bsa_keys a) 0 0 Hw Hth) as (t' & Ht & Hiff); [unfold u32_max; lia|].
    rewrite Ht in H. inv_ok H. apply check_inv, Z.eqb_eq in Ha1. apply check_inv, Z.leb_le, Hiff in H.
    assert (a2 ≡ₚ a1 :: ks) as Hp by (subst a2; rewrite reverse_Permutation; symmetry; apply Permutation_cons_append).
    exists (a1 :: ks). split; [by constructor|]. split; [by rewrite <- Hp|].
    split; [|rewrite <- Hp; lia]. intros k Hk. apply (relevant_all a2); [done|done|lia|by rewrite Hp].
  - intros (ks & Hf & Hks & Hsub & Hsum). apply Forall2_cons_inv_l in Hf as (k & ks' & Hk & Hf & ->).
    pose proof (Forall2_length _ _ _ Hf) as Hlen.
    rewrite check_bind.
    2: { apply Z.leb_le. pose proof (relevant_all (k :: ks') _ Hks Hnd) as [_ Hr]. specialize (Hr Hsub).
         unfold relevant in Hr. pose proof (length_filter (λ x, x ∈ k :: ks') (kw_key <$> bsa_keys a)) as Hle.
         rewrite length_fmap in Hle. simpl in *. lia. }
    rewrite Hk, bind_ok. assert (recover_keys recover sigs id [k] = Ok (reverse ks' ++ [k])) as ->.
    { apply recover_keys_iff; [apply NoDup_singleton|]. exists ks'. split_and!; [done..|].
      rewrite reverse_Permutation, <- Permutation_cons_append. done. }
    rewrite bind_ok.
    assert (reverse ks' ++ [k] ≡ₚ k :: ks') as Hp by (rewrite reverse_Permutation; symmetry; apply Permutation_cons_append).
    destruct (keys_loop_spec (bsa_threshold a) (reverse ks' ++ [k]) (bsa_keys a) 0 0 Hw Hth) as (t' & -> & Hiff); [unfold u32_max; lia|].
    rewrite check_bind.
    + apply check_true, Z.leb_le, Hiff. rewrite Hp. lia.
    + apply Z.eqb_eq. rewrite Z.add_0_l. f_equal. apply relevant_all; [by rewrite Hp|done|].
      intros x Hx. apply Hsub. by rewrite <- Hp.
Qed.

End SignatureLemmas.

(** ** Lemmas on rounds *)

Definition round_of (t : Z) : Z := t / producer_repetitions.

Lemma round_start t : is_u32 t → get_current_round_start_slot t = producer_repetitions * round_of t.
Proof.
  unfold is_u32, get_current_round_start_slot, round_of, producer_repetitions. intros Ht.
  pose proof (Z.div_mod t 12 ltac:(done)). pose proof (Z.mod_pos_bound t 12 ltac:(done)).
  rewrite u32_small by (unfold is_u32; lia). lia.
Qed.

(** The last slots before the 32-bit overflow have no complete round. *)
Definition slot_ok (t : Z) : Prop := 0 <= t < 4294967280.

Lemma slot_ok_u32 t : slot_ok t → is_u32 t.
Proof. unfold slot_ok, is_u32. lia. Qed.

Lemma in_same_round_spec next curr : slot_ok curr → curr <= next →
  in_same_round next curr = bool_decide (round_of next = round_of curr).
Proof.
  intros Hc Hle. unfold in_same_round. rewrite round_start by by apply slot_ok_u32.
  unfold slot_ok, round_of, producer_repetitions in *.
  pose proof (Z.div_mod curr 12 ltac:(done)). pose proof (Z.mod_pos_bound curr 12 ltac:(done)).
  pose proof (Z.div_mod next 12 ltac:(done)). pose proof (Z.mod_pos_bound next 12 ltac:(done)).
  rewrite u32_small by (unfold is_u32; lia).
  case_bool_decide; [apply Z.ltb_lt|apply Z.ltb_ge]; lia.
Qed.

Lemma first_block_of_round_spec next curr : slot_ok curr → is_u32 next → curr < next →
  first_block_of_round next curr = Ok (negb (in_same_round next curr)).
Proof.
  intros Hc Hn Hlt. unfold first_block_of_round. rewrite assert_bind by solve_test. f_equal.
  rewrite in_same_round_spec, round_start by (done || lia). unfold slot_ok, round_of, producer_repetitions in *.
  pose proof (Z.div_mod curr 12 ltac:(done)). pose proof (Z.mod_pos_bound curr 12 ltac:(done)).
  pose proof (Z.div_mod next 12 ltac:(done)). pose proof (Z.mod_pos_bound next 12 ltac:(done)).
  case_bool_decide; simpl; [apply Z.ltb_ge|apply Z.ltb_lt]; lia.
Qed.

(** The producer of a slot is the one at the index of its round. *)
Lemma scheduled_producer_round ps t : ps ≠ [] → Z.of_nat (length ps) < 2 ^ 60 → 0 <= t →
  ∃ p, get_scheduled_producer ps t = Ok p ∧ ps !! Z.to_nat (round_of t mod Z.of_nat (length ps)) = Some p.
Proof.
  intros Hne Hlen Ht. unfold get_scheduled_producer, round_of, producer_repetitions.
  assert (0 < Z.of_nat (length ps)) as Hpos by (destruct ps; [done|simpl; lia]).
  rewrite u64_small by (unfold is_u64; change (2 ^ 60) with 1152921504606846976 in Hlen; lia).
  rewrite (proj2 (Z.eqb_neq _ _)) by lia.
  rewrite (Z.mul_comm _ 12), Z.rem_mul_r by lia.
  assert ((t mod 12 + 12 * ((t / 12) mod Z.of_nat (length ps))) / 12 = (t / 12) mod Z.of_nat (length ps)) as ->.
  { rewrite (Z.mul_comm 12), Z.div_add, Z.div_small by (lia || apply Z.mod_pos_bound; lia). lia. }
  pose proof (Z.mod_pos_bound (t / 12) (Z.of_nat (length ps)) Hpos) as Hm. unfold vec_at.
  rewrite (proj2 (Z.ltb_ge _ _)) by lia.
  destruct (lookup_lt_is_Some_2 ps (Z.to_nat ((t / 12) mod Z.of_nat (length ps)))) as [p Hp]; [lia|].
  exists p. by rewrite Hp.
Qed.

(** Slots are divided into rounds of twelve: two slots are in the same round
    exactly when they have the same twelfth, the first block of a round is the one
    whose parent is in an earlier round, every slot has a producer, and all slots of
    a round have the same one, the schedule being used in turn. *)
Theorem rounds_correct ps next curr :
  slot_ok curr → is_u32 next → curr < next → ps ≠ [] → Z.of_nat (length ps) < 2 ^ 60 →
  in_same_round next curr = bool_decide (round_of next = round_of curr) ∧
  first_block_of_round next curr = Ok (negb (in_same_round next curr)) ∧
  (∃ p, get_scheduled_producer ps next = Ok p ∧ ps !! Z.to_nat (round_of next mod Z.of_nat (length ps)) = Some p) ∧
  (in_same_round next curr = true → get_scheduled_producer ps next = get_scheduled_producer ps curr).
Proof.
  intros Hc Hn Hlt Hne Hlen. split; [apply in_same_round_spec; [done|lia]|].
  split; [by apply first_block_of_round_spec|].
  destruct (scheduled_producer_round ps next Hne Hlen) as (p & Hp & Hl); [unfold is_u32 in Hn; lia|].
  split; [by exists p|]. rewrite in_same_round_spec by (done || lia). intros Hr%bool_decide_eq_true.
  destruct (scheduled_producer_round ps curr Hne Hlen) as (q & Hq & Hl'); [unfold slot_ok in Hc; lia|]. congruence.
Qed.

(** ** Instances *)

Module ProducerExample.
Definition prod (n : Z) : producer_authority :=
  ProducerAuthority n (BlockSigningAuthority 3 [KeyWeight [n; 1] 2; KeyWeight [n; 2] 1]).
(** A signature is the key it was made with. *)
Definition recover (s : list Z) (d : sha256) : result public_key_type := Ok s.

Lemma verify_signee_correct_witness :
  verify_signee recover [7; 1] sha256_zero [[7; 2]] (authority (prod 7)) = Ok tt ∧
  ∃ ks, Forall2 (λ s k, recover s sha256_zero = Ok k) [[7; 1]; [7; 2]] ks ∧ NoDup ks.
Proof.
  assert (verify_signee recover [7; 1] sha256_zero [[7; 2]] (authority (prod 7)) = Ok tt) as H by (vm_compute; reflexivity).
  split; [exact H|].
  apply (verify_signee_correct recover [7; 1] sha256_zero [[7; 2]] (authority (prod 7))) in H as (ks & Hf & Hn & _).
  - exists ks. exact (conj Hf Hn).
  - apply (bool_decide_unpack _). vm_compute. done.
  - repeat constructor; simpl; lia.
  - vm_compute. discriminate.
Defined.

Lemma rounds_correct_witness :
  in_same_round 35 25 = true ∧ get_scheduled_producer [prod 1; prod 2] 35 = get_scheduled_producer [prod 1; prod 2] 25.
Proof.
  split; [reflexivity|].
  destruct (rounds_correct [prod 1; prod 2] 35 25) as (_ & _ & _ & H);
    [unfold slot_ok; lia|unfold is_u32; lia|lia|discriminate|vm_compute; reflexivity|exact (H eq_refl)].
Defined.
End ProducerExample.
