(* ===== verification/FinalizerPolicy.v ===== *)
(** * Finalizer policies: [finalizer_authority.hpp], [finalizer_policy.hpp] and
    the validation of [interface::set_finalizers] ([webassembly/privileged.cpp])

    The BLS12-381 library is a parameter: the class [Bls] names what is used of it. *)

From Stdlib Require Import Ascii.
From S2P Require Import Prelude OrderedDiff.
Open Scope Z_scope.

(** The third-party [bls12_381] library: group elements for public keys and
    signatures, their sums, and the verification predicates. *)
Class Bls : Type := {
  bls_g1 : Type;
  bls_g2 : Type;
  g1_from_affine_bytes_le : list Z → option bls_g1;
  bls_g2_zero : bls_g2;
  bls_g2_add : bls_g2 → bls_g2 → bls_g2;
  aggregate_public_keys : list bls_g1 → bls_g1;
  bls_verify : bls_g1 → list Z → bls_g2 → bool;
  aggregate_verify : list bls_g1 → list (list Z) → bls_g2 → bool }.

(** A public key is its affine byte array: [operator==] and [operator<=>]
    compare these bytes, and the Jacobian form is computed from them. *)
Definition bls_public_key : Type := list Z.

Definition max_finalizers : nat := Z.to_nat 65536.
Definition max_finalizer_description_size : nat := 256.

Section Policy.
Context {bls : Bls}.

(** [bls_public_key::from_affine_bytes_le]. *)
Definition jacobian_montgomery_le (pk : bls_public_key) : result bls_g1 :=
  match g1_from_affine_bytes_le pk with Some g => Ok g | None => Err fc_assert_exception end.

Record finalizer_authority : Type := FinalizerAuthority {
  description : list ascii;
  weight : Z;
  public_key : bls_public_key }.

#[export] Instance finalizer_authority_eq_dec : EqDecision finalizer_authority.
Proof. solve_decision. Defined.

Record finalizer_policy : Type := FinalizerPolicy {
  generation : Z;
  threshold : Z;
  finalizers : list finalizer_authority }.

(** [finalizers_differ] uses [uint16_t] indexes. *)
Definition finalizers_diff_max : nat := Z.to_nat 65535.

Record finalizer_policy_diff : Type := FinalizerPolicyDiff {
  diff_generation : Z;
  diff_threshold : Z;
  finalizers_diff : diff_result (T := finalizer_authority) }.

Definition create_diff (p target : finalizer_policy) : result finalizer_policy_diff :=
  d ← diff finalizers_diff_max (finalizers p) (finalizers target);
  Ok (FinalizerPolicyDiff (generation target) (threshold target) d).

Definition policy_apply_diff (p : finalizer_policy) (d : finalizer_policy_diff) : result finalizer_policy :=
  fs ← apply_diff (finalizers p) (finalizers_diff d);
  Ok (FinalizerPolicy (diff_generation d) (diff_threshold d) fs).

Lemma create_diff_apply p target d : create_diff p target = Ok d → policy_apply_diff p d = Ok target.
Proof.
  intros H. unfold create_diff in H. apply bind_inv in H as (fd & Hfd & H). injection H as <-.
  unfold policy_apply_diff. simpl. rewrite (diff_ok_apply _ _ _ _ Hfd), bind_ok. by destruct target.
Qed.

(** [std::accumulate] is started with the [int] literal [0], so the running sum
    is converted back to [int] after every addition. *)
Definition max_weak_sum_before_weak_final (p : finalizer_policy) : Z :=
  let sum := u64 (foldl (λ acc f, i32 (u64 (u64 acc + weight f))) 0 (finalizers p)) in
  u64 (sum - threshold p).

(** The sum of the weights, for comparison. *)
Definition total_weight (fs : list finalizer_authority) : Z := foldr (λ f acc, weight f + acc) 0 fs.

(** ** [set_finalizers] *)

(** The packed form: the public key as bytes. *)
Record abi_finalizer_authority : Type := AbiFinalizerAuthority {
  abi_description : list ascii;
  abi_weight : Z;
  abi_public_key : bls_public_key }.

Fixpoint set_finalizers_loop (fs : list abi_finalizer_authority) (weight_sum : Z) (keys : list bls_public_key)
    (acc : list finalizer_authority) : result (Z * list finalizer_authority) :=
  match fs with
  | [] => Ok (weight_sum, acc)
  | f :: fs =>
    check (bool_decide (length (abi_description f) ≤ max_finalizer_description_size)%nat) wasm_execution_error;;
    check (abi_weight f <=? u64_max - weight_sum) wasm_execution_error;;
    let weight_sum := u64 (weight_sum + abi_weight f) in
    check (bool_decide (length (abi_public_key f) = 96%nat)) wasm_execution_error;;
    let pk := abi_public_key f in
    _ ← jacobian_montgomery_le pk;
    check (negb (bool_decide (pk ∈ keys))) wasm_execution_error;;
    set_finalizers_loop fs weight_sum (pk :: keys)
      (acc ++ [FinalizerAuthority (abi_description f) (abi_weight f) pk])
  end.

(** The policy handed to [set_proposed_finalizers]. *)
Definition set_finalizers (packed_finalizer_format : Z) (thr : Z) (fs : list abi_finalizer_authority)
    : result finalizer_policy :=
  check (packed_finalizer_format =? 0) wasm_execution_error;;
  check (bool_decide (length fs ≤ max_finalizers)%nat) wasm_execution_error;;
  check (bool_decide (0 < length fs)%nat) wasm_execution_error;;
  '(weight_sum, acc) ← set_finalizers_loop fs 0 [] [];
  check ((thr <=? weight_sum) && (weight_sum / 2 <? thr)) wasm_execution_error;;
  Ok (FinalizerPolicy 0 thr acc).

(** ** Well-formed policies: what [set_finalizers] guarantees *)

Record policy_wf (p : finalizer_policy) : Prop := {
  pw_weights : Forall (λ f, 0 <= weight f) (finalizers p);
  pw_total : total_weight (finalizers p) <= u64_max;
  pw_threshold : total_weight (finalizers p) < 2 * threshold p ∧ threshold p <= total_weight (finalizers p);
  pw_keys : NoDup (public_key <$> finalizers p);
  pw_size : (0 < length (finalizers p) ≤ max_finalizers)%nat }.

Lemma total_weight_app l1 l2 : total_weight (l1 ++ l2) = total_weight l1 + total_weight l2.
Proof. unfold total_weight. induction l1; simpl; lia. Qed.

Lemma total_weight_nonneg fs : Forall (λ f, 0 <= weight f) fs → 0 <= total_weight fs.
Proof. induction 1; simpl; lia. Qed.

(** While the total weight fits an [int], the accumulation is exact. *)
Lemma max_weak_sum_exact p :
  policy_wf p → total_weight (finalizers p) < 2147483648 →
  max_weak_sum_before_weak_final p = total_weight (finalizers p) - threshold p.
Proof.
  intros Hp Ht. unfold max_weak_sum_before_weak_final.
  assert (∀ fs acc, Forall (λ f, 0 <= weight f) fs → 0 <= acc → acc + total_weight fs < 2147483648 →
    foldl (λ acc f, i32 (u64 (u64 acc + weight f))) acc fs = acc + total_weight fs) as Hfold.
  { induction fs as [|f fs IH]; intros acc Hfs H0 Hlt; simpl in *; [lia|]. fold (total_weight fs) in *.
    apply Forall_cons in Hfs as [Hf Hfs]. pose proof (total_weight_nonneg fs Hfs).
    rewrite (u64_small acc), (u64_small (acc + weight f)), i32_small by (unfold is_u64; lia).
    rewrite IH by (done || lia). lia. }
  pose proof (total_weight_nonneg _ (pw_weights _ Hp)). pose proof (pw_threshold _ Hp).
  rewrite Hfold by (apply Hp || lia). rewrite Z.add_0_l, (u64_small (total_weight _)), u64_small by (unfold is_u64; lia). done.
Qed.

Lemma set_finalizers_loop_inv fs : ∀ sum keys acc sum' acc',
  Forall (λ f, 0 <= abi_weight f) fs →
  Forall (λ f, 0 <= weight f) acc → sum = total_weight acc → sum <= u64_max → keys ≡ₚ (public_key <$> acc) → NoDup keys →
  set_finalizers_loop fs sum keys acc = Ok (sum', acc') →
  Forall (λ f, 0 <= weight f) acc' ∧ sum' = total_weight acc' ∧ sum' <= u64_max ∧
  NoDup (public_key <$> acc') ∧ length acc' = (length acc + length fs)%nat.
Proof.
  induction fs as [|f fs IH]; intros sum keys acc sum' acc' Hw Hacc Hsum Hmax Hkeys Hnd H; cbn [set_finalizers_loop] in H.
  { injection H as <- <-. rewrite <- Hkeys. simpl. split_and!; [done..|lia]. }
  apply Forall_cons in Hw as [Hf Hw]. inv_ok H. inv_ok H. apply check_inv in Ha0. breflect. inv_ok H.
  inv_ok H. inv_ok H. apply check_inv, negb_true_iff, bool_decide_eq_false in Ha3.
  pose proof (total_weight_nonneg acc Hacc) as Hnn. unfold u64_max in *.
  rewrite u64_small in H by (unfold is_u64; lia).
  apply IH in H as (H1 & H2 & H3 & H4 & H5); [|done|apply Forall_app; split; [done|by repeat constructor]|..].
  - split_and!; [done..|]. rewrite H5, length_app. simpl. lia.
  - rewrite total_weight_app. simpl. lia.
  - lia.
  - rewrite fmap_app. simpl. rewrite <- Hkeys. apply Permutation_cons_append.
  - by constructor.
Qed.

Lemma set_finalizers_wf fmt thr fs p :
  Forall (λ f, 0 <= abi_weight f) fs → set_finalizers fmt thr fs = Ok p → policy_wf p.
Proof.
  intros Hw H. unfold set_finalizers in H. inv_ok H. inv_ok H. inv_ok H. inv_ok H.
  apply check_inv, bool_decide_eq_true in Ha0, Ha1.
  destruct a2 as [sum acc]. inv_ok H. apply check_inv in Ha3. breflect. injection H as <-.
  apply set_finalizers_loop_inv in Ha2 as (L1 & L2 & L3 & L4 & L5); [|done..|constructor].
  subst sum. split; simpl; [done..| |done|].
  - pose proof (Z.div_mod (total_weight acc) 2). pose proof (Z.mod_pos_bound (total_weight acc) 2). lia.
  - simpl in L5. rewrite L5. lia.
Qed.

(** Every policy [set_finalizers] accepts has distinct keys, weights whose
    sum fits 64 bits, and a threshold that is a majority of that sum; a second
    policy reached by a difference is exactly the proposed one. *)
Theorem set_finalizers_policy_wf fmt thr fs p q :
  Forall (λ f, 0 <= abi_weight f) fs → set_finalizers fmt thr fs = Ok p →
  (length (finalizers q) ≤ max_finalizers)%nat →
  policy_wf p ∧ ∃ d, create_diff q p = Ok d ∧ policy_apply_diff q d = Ok p.
Proof.
  intros Hw H Hq. pose proof (set_finalizers_wf _ _ _ _ Hw H) as Hp. split; [done|].
  pose proof (pw_size _ Hp). unfold max_finalizers in *.
  destruct (diff_apply_ok finalizers_diff_max (finalizers q) (finalizers p)) as (d & Hd & Ha).
  1,2: right; unfold finalizers_diff_max; lia.
  unfold create_diff. rewrite Hd. eexists. split; [done|]. unfold policy_apply_diff. simpl. rewrite Ha.
  by destruct p.
Qed.

End Policy.

(** Three finalizers with 96-byte keys, proposed in place of one finalizer. *)
Module PolicyExample.
Definition byte_bls : Bls := {|
  bls_g1 := list Z; bls_g2 := Z; g1_from_affine_bytes_le := Some; bls_g2_zero := 0; bls_g2_add := Z.add;
  aggregate_public_keys := λ ks, mjoin ks; bls_verify := λ pk m s, true; aggregate_verify := λ pks ms s, true |}.
#[local] Existing Instance byte_bls.

Definition key (k : Z) : bls_public_key := replicate 96 k.
Definition proposal : list abi_finalizer_authority :=
  [AbiFinalizerAuthority [] 2 (key 1); AbiFinalizerAuthority [] 1 (key 2); AbiFinalizerAuthority [] 4294967296 (key 3)].
Definition old_policy : finalizer_policy := FinalizerPolicy 1 1 [FinalizerAuthority [] 1 (key 2)].

Lemma proposal_accepted : ∃ p, set_finalizers 0 4294967297 proposal = Ok p.
Proof.
  unfold set_finalizers. rewrite !check_bind by (done || (apply bool_decide_eq_true; unfold max_finalizers; simpl; lia)).
  eexists. vm_compute. reflexivity.
Qed.

Lemma set_finalizers_policy_wf_witness :
  ∃ p, set_finalizers 0 4294967297 proposal = Ok p ∧ policy_wf p ∧
    ∃ d, create_diff old_policy p = Ok d ∧ policy_apply_diff old_policy d = Ok p.
Proof.
  destruct proposal_accepted as [p Hp]. exists p. split; [exact Hp|].
  apply (set_finalizers_policy_wf 0 4294967297 proposal p old_policy);
    [repeat constructor; simpl; lia|exact Hp|unfold max_finalizers; simpl; lia].
Defined.
End PolicyExample.
