(* ===== verification/Qc.v ===== *)
(** * Quorum certificates: [qc.hpp], [qc.cpp], [vote_message.hpp]

    [qc_sig_t] and [qc_t] are the certificates that travel in block extensions,
    with the checks made on a received one; [aggregating_qc_sig_t] and
    [aggregating_qc_t] collect votes into certificates. The mutex-protected
    methods are functions on the state; the lock-free [processed] flags are
    kept next to the bitset they duplicate. *)

From Stdlib Require Import Ascii.
From S2P Require Import Prelude Sha256 FinalityCore Bitset FinalizerPolicy.
Open Scope Z_scope.

(** ** Certificates *)

Definition weak_bls_sig_postfix : list Z := [87; 69; 65; 75].

Definition create_weak_digest (digest : sha256) : list Z := pack_sha256 digest ++ weak_bls_sig_postfix.

Inductive vote_result_t : Type :=
| success | duplicate | unknown_public_key | invalid_signature | unknown_block | max_exceeded.

Inductive vote_status_t : Type := voted | not_voted | irrelevant_finalizer.

#[export] Instance vote_result_eq_dec : EqDecision vote_result_t.
Proof. solve_decision. Defined.

#[export] Instance vote_status_eq_dec : EqDecision vote_status_t.
Proof. solve_decision. Defined.

(** [qc_vote_metrics_t::fin_auth] and the [std::set] of them ordered by public key. *)
Record fin_auth_t : Type := FinAuth { fa_auth : finalizer_authority; fa_generation : Z }.

Abbreviation fin_auth_set_t := (gmap bls_public_key fin_auth_t).

(** [aggregating_qc_sig_t::state_t] *)
Inductive state_t : Type := unrestricted | restricted | weak_achieved | weak_final | strong.

#[export] Instance state_eq_dec : EqDecision state_t.
Proof. solve_decision. Defined.

Section Qc.
Context {bls : Bls}.

Record finalizer_policies_t : Type := FinalizerPolicies {
  policies_finality_digest : sha256;
  active_finalizer_policy : finalizer_policy;
  pending_finalizer_policy : option finalizer_policy }.

Record qc_sig_t : Type := QcSig {
  strong_votes : option bitset;
  weak_votes : option bitset;
  qc_sig : bls_g2 }.

Definition sig_is_weak (s : qc_sig_t) : bool := match weak_votes s with Some _ => true | None => false end.
Definition sig_is_strong (s : qc_sig_t) : bool := negb (sig_is_weak s).

Record qc_t : Type := Qc {
  qc_block_num : Z;
  active_policy_sig : qc_sig_t;
  pending_policy_sig : option qc_sig_t }.

Definition qc_is_strong (qc : qc_t) : bool :=
  sig_is_strong (active_policy_sig qc) &&
  match pending_policy_sig qc with None => true | Some s => sig_is_strong s end.

Definition qc_is_weak (qc : qc_t) : bool := negb (qc_is_strong qc).

Definition to_qc_claim (qc : qc_t) : qc_claim_t := QcClaim (qc_block_num qc) (qc_is_strong qc).

(** [votes && ( *votes)[i]] *)
Definition opt_test (votes : option bitset) (i : nat) : result bool :=
  match votes with None => Ok false | Some b => bitset_test b i end.

Definition opt_index_ok (votes : option bitset) (i : nat) : bool :=
  match votes with None => true | Some b => bool_decide (i < bitset_size b)%nat end.

Definition vote_same_at (me other : qc_sig_t) (my_vote_index other_vote_index : nat) : result bool :=
  assert_ (opt_index_ok (strong_votes me) my_vote_index);;
  assert_ (opt_index_ok (weak_votes me) my_vote_index);;
  my_strong ← opt_test (strong_votes me) my_vote_index;
  other_strong ← opt_test (strong_votes other) other_vote_index;
  my_weak ← opt_test (weak_votes me) my_vote_index;
  other_weak ← opt_test (weak_votes other) other_vote_index;
  Ok (Bool.eqb my_strong other_strong && Bool.eqb my_weak other_weak).

(** The loop of [verify_vote_format] over the indexes [i, ..., i + n - 1]. *)
Fixpoint verify_not_both (sv wv : bitset) (i n : nat) : result unit :=
  match n with
  | O => Ok tt
  | S n =>
    s ← bitset_test sv i;
    w ← (if (s : bool) then bitset_test wv i else Ok false);
    check (negb (s && w)) invalid_qc;;
    verify_not_both sv wv (S i) n
  end.

Definition verify_size (num_finalizers : nat) (votes : option bitset) : result unit :=
  match votes with
  | None => Ok tt
  | Some b => check (bool_decide (num_finalizers = bitset_size b)) invalid_qc
  end.

Definition verify_vote_format (s : qc_sig_t) (fin_policy : finalizer_policy) : result unit :=
  let num_finalizers := length (finalizers fin_policy) in
  check (match strong_votes s, weak_votes s with None, None => false | _, _ => true end) invalid_qc;;
  verify_size num_finalizers (strong_votes s);;
  verify_size num_finalizers (weak_votes s);;
  match strong_votes s, weak_votes s with
  | Some sv, Some wv => verify_not_both sv wv 0 (bitset_size sv)
  | _, _ => Ok tt
  end.

(** The lambda [weights], from index [i] with the running [sum]. *)
Fixpoint weights_from (votes : bitset) (fs : list finalizer_authority) (i : nat) (sum : Z) : result Z :=
  match fs with
  | [] => Ok sum
  | f :: fs =>
    t ← bitset_test votes i;
    weights_from votes fs (S i) (if (t : bool) then u64 (sum + weight f) else sum)
  end.

Definition weights (fs : list finalizer_authority) (votes : option bitset) : result Z :=
  match votes with None => Ok 0 | Some b => weights_from b fs 0 0 end.

Definition verify_weights (s : qc_sig_t) (fin_policy : finalizer_policy) : result unit :=
  strong_weights ← weights (finalizers fin_policy) (strong_votes s);
  weak_weights ← weights (finalizers fin_policy) (weak_votes s);
  if sig_is_strong s
  then check (threshold fin_policy <=? strong_weights) invalid_qc
  else check (threshold fin_policy <=? u64 (strong_weights + weak_weights)) invalid_qc.

(** The lambda [aggregate_pubkeys]: the keys of the finalizers that voted,
    among the first [std::min(num_finalizers, votes_bitset.size())]. *)
Fixpoint pubkeys_to_aggregate (votes : bitset) (fs : list finalizer_authority) (i : nat) : result (list bls_g1) :=
  match fs with
  | [] => Ok []
  | f :: fs =>
    if bool_decide (i < bitset_size votes)%nat then
      t ← bitset_test votes i;
      if (t : bool) then
        g ← jacobian_montgomery_le (public_key f);
        gs ← pubkeys_to_aggregate votes fs (S i);
        Ok (g :: gs)
      else pubkeys_to_aggregate votes fs (S i)
    else Ok []
  end.

Definition aggregate_pubkeys (fs : list finalizer_authority) (votes : option bitset) : result (list bls_g1) :=
  match votes with
  | None => Ok []
  | Some b => gs ← pubkeys_to_aggregate b fs 0; Ok [aggregate_public_keys gs]
  end.

Definition sig_verify_signatures (s : qc_sig_t) (fin_policy : finalizer_policy)
    (strong_digest : sha256) (weak_digest : list Z) : result unit :=
  spk ← aggregate_pubkeys (finalizers fin_policy) (strong_votes s);
  wpk ← aggregate_pubkeys (finalizers fin_policy) (weak_votes s);
  let digests := (if strong_votes s is Some _ then [pack_sha256 strong_digest] else []) ++
                 (if weak_votes s is Some _ then [weak_digest] else []) in
  check (aggregate_verify (spk ++ wpk) digests (qc_sig s)) invalid_qc_signature.

(** The inner loop of [verify_dual_finalizers_votes], up to its [break]. *)
Fixpoint verify_dual_finalizer (active_sig pending_sig : qc_sig_t) (key : bls_public_key)
    (active_vote_index : nat) (pending_fins : list finalizer_authority) (pending_vote_index : nat) : result unit :=
  match pending_fins with
  | [] => Ok tt
  | pending_fin :: pending_fins =>
    if bool_decide (key = public_key pending_fin) then
      same ← vote_same_at active_sig pending_sig active_vote_index pending_vote_index;
      check same invalid_qc
    else verify_dual_finalizer active_sig pending_sig key active_vote_index pending_fins (S pending_vote_index)
  end.

Fixpoint verify_dual_finalizers_votes (active_sig pending_sig : qc_sig_t)
    (active_fins : list finalizer_authority) (active_vote_index : nat)
    (pending_fins : list finalizer_authority) : result unit :=
  match active_fins with
  | [] => Ok tt
  | active_fin :: active_fins =>
    verify_dual_finalizer active_sig pending_sig (public_key active_fin) active_vote_index pending_fins 0;;
    verify_dual_finalizers_votes active_sig pending_sig active_fins (S active_vote_index) pending_fins
  end.

Definition qc_verify_signatures (qc : qc_t) (policies : finalizer_policies_t) : result unit :=
  let strong_digest := policies_finality_digest policies in
  let weak_digest := create_weak_digest strong_digest in
  sig_verify_signatures (active_policy_sig qc) (active_finalizer_policy policies) strong_digest weak_digest;;
  match pending_policy_sig qc with
  | None => Ok tt
  | Some s =>
    match pending_finalizer_policy policies with
    | None => Err invalid_qc
    | Some p => sig_verify_signatures s p strong_digest weak_digest
    end
  end.

Definition verify_basic (qc : qc_t) (policies : finalizer_policies_t) : result unit :=
  verify_vote_format (active_policy_sig qc) (active_finalizer_policy policies);;
  verify_weights (active_policy_sig qc) (active_finalizer_policy policies);;
  match pending_policy_sig qc, pending_finalizer_policy policies with
  | Some s, None => Err invalid_qc
  | Some s, Some p =>
    verify_dual_finalizers_votes (active_policy_sig qc) s
      (finalizers (active_finalizer_policy policies)) 0 (finalizers p);;
    verify_vote_format s p;;
    verify_weights s p
  | None, None => Ok tt
  | None, Some _ => Err invalid_qc
  end.

(** ** Collecting the votes of one policy *)

Record votes_t : Type := Votes {
  votes_bitset : bitset;
  votes_sig : bls_g2;
  processed : list bool }.

Definition votes_new (num_finalizers : nat) : result votes_t :=
  b ← bitset_new num_finalizers;
  Ok (Votes b bls_g2_zero (replicate num_finalizers false)).

(** After unpacking: the flags are recomputed from the bitset. *)
Definition reflector_init (v : votes_t) : result votes_t :=
  ps ← mapM (bitset_test (votes_bitset v)) (seq 0 (bitset_size (votes_bitset v)));
  Ok (Votes (votes_bitset v) (votes_sig v) ps).

Definition votes_has_voted (v : votes_t) (index : nat) : result bool :=
  assert_ (bool_decide (index < length (processed v))%nat);;
  vec_at (processed v) (Z.of_nat index).

Definition votes_add_vote (v : votes_t) (index : nat) (signature : bls_g2) : result votes_t :=
  check (bool_decide (index < length (processed v))%nat) undefined_behaviour;;
  b ← bitset_set (votes_bitset v) index;
  Ok (Votes b (bls_g2_add (votes_sig v) signature) (<[index := true]> (processed v))).

Record aggregating_qc_sig_t : Type := AggregatingQcSig {
  received_qc_sig : option qc_sig_t;
  agg_quorum : Z;
  agg_max_weak_sum_before_weak_final : Z;
  aggregating_state : state_t;
  strong_sum : Z;
  weak_sum : Z;
  agg_weak_votes : votes_t;
  agg_strong_votes : votes_t }.

Definition aggregating_qc_sig_new (num_finalizers : nat) (quorum max_weak : Z) : result aggregating_qc_sig_t :=
  v ← votes_new num_finalizers;
  Ok (AggregatingQcSig None quorum max_weak unrestricted 0 0 v v).

Definition aggregating_qc_sig_of_policy (p : finalizer_policy) : result aggregating_qc_sig_t :=
  aggregating_qc_sig_new (length (finalizers p)) (threshold p) (max_weak_sum_before_weak_final p).

Definition state_is_quorum_met (s : state_t) : bool :=
  bool_decide (s = strong) || bool_decide (s = weak_achieved) || bool_decide (s = weak_final).

Definition sig_is_quorum_met (a : aggregating_qc_sig_t) : bool := state_is_quorum_met (aggregating_state a).

Definition sig_has_voted (a : aggregating_qc_sig_t) (index : nat) : result bool :=
  s ← votes_has_voted (agg_strong_votes a) index;
  if (s : bool) then Ok true else votes_has_voted (agg_weak_votes a) index.

Definition check_duplicate (a : aggregating_qc_sig_t) (index : nat) : result vote_result_t :=
  s ← bitset_test (votes_bitset (agg_strong_votes a)) index;
  if (s : bool) then Ok duplicate
  else w ← bitset_test (votes_bitset (agg_weak_votes a)) index;
       Ok (if (w : bool) then duplicate else success).

(** The [switch] of [add_strong_vote], on the updated sums. *)
Definition strong_vote_state (st : state_t) (ssum wsum quorum : Z) : result state_t :=
  match st with
  | unrestricted | restricted =>
    if quorum <=? ssum then
      assert_ (bool_decide (st ≠ restricted));; Ok strong
    else if quorum <=? u64 (wsum + ssum) then
      Ok (if bool_decide (st = restricted) then weak_final else weak_achieved)
    else Ok st
  | weak_achieved => Ok (if quorum <=? ssum then strong else st)
  | weak_final | strong => Ok st
  end.

Definition add_strong_vote (a : aggregating_qc_sig_t) (index : nat) (sig : bls_g2) (weight : Z)
    : result (aggregating_qc_sig_t * vote_result_t) :=
  sv ← votes_add_vote (agg_strong_votes a) index sig;
  let ssum := u64 (strong_sum a + weight) in
  st ← strong_vote_state (aggregating_state a) ssum (weak_sum a) (agg_quorum a);
  Ok (AggregatingQcSig (received_qc_sig a) (agg_quorum a) (agg_max_weak_sum_before_weak_final a)
        st ssum (weak_sum a) (agg_weak_votes a) sv, success).

(** The [switch] of [add_weak_vote], on the updated sums. *)
Definition weak_vote_state (st : state_t) (ssum wsum quorum max_weak : Z) : state_t :=
  match st with
  | unrestricted | restricted =>
    let st := if quorum <=? u64 (wsum + ssum) then weak_achieved else st in
    if max_weak <? wsum then
      match st with
      | weak_achieved => weak_final
      | unrestricted => restricted
      | _ => st
      end
    else st
  | weak_achieved => if max_weak <=? wsum then weak_final else st
  | weak_final | strong => st
  end.

Definition add_weak_vote (a : aggregating_qc_sig_t) (index : nat) (sig : bls_g2) (weight : Z)
    : result (aggregating_qc_sig_t * vote_result_t) :=
  wv ← votes_add_vote (agg_weak_votes a) index sig;
  let wsum := u64 (weak_sum a + weight) in
  let st := weak_vote_state (aggregating_state a) (strong_sum a) wsum (agg_quorum a)
              (agg_max_weak_sum_before_weak_final a) in
  Ok (AggregatingQcSig (received_qc_sig a) (agg_quorum a) (agg_max_weak_sum_before_weak_final a)
        st (strong_sum a) wsum wv (agg_strong_votes a), success).

Definition sig_add_vote (a : aggregating_qc_sig_t) (is_strong : bool) (index : nat) (sig : bls_g2) (weight : Z)
    : result (aggregating_qc_sig_t * vote_result_t) :=
  s ← check_duplicate a index;
  if bool_decide (s = success) then
    if is_strong then add_strong_vote a index sig weight else add_weak_vote a index sig weight
  else Ok (a, s).

Definition extract_qc_sig_from_aggregating (a : aggregating_qc_sig_t) : result qc_sig_t :=
  let sv := agg_strong_votes a in
  let wv := agg_weak_votes a in
  if bool_decide (aggregating_state a = strong) then
    Ok (QcSig (Some (votes_bitset sv)) None (votes_sig sv))
  else if sig_is_quorum_met a then
    Ok (QcSig (Some (votes_bitset sv)) (Some (votes_bitset wv)) (bls_g2_add (votes_sig sv) (votes_sig wv)))
  else Err assert_failed.

Definition sig_get_best_qc (a : aggregating_qc_sig_t) : result (option qc_sig_t) :=
  if negb (sig_is_quorum_met a) then Ok (received_qc_sig a)
  else
    from_agg ← extract_qc_sig_from_aggregating a;
    match received_qc_sig a with
    | None => Ok (Some from_agg)
    | Some r => Ok (Some (if sig_is_strong r || sig_is_weak from_agg then r else from_agg))
    end.

(** Returns true when the certificate is better than the one held. *)
Definition set_received_qc_sig (a : aggregating_qc_sig_t) (qc : qc_sig_t) : aggregating_qc_sig_t * bool :=
  if match received_qc_sig a with None => true | Some r => sig_is_weak r && sig_is_strong qc end
  then (AggregatingQcSig (Some qc) (agg_quorum a) (agg_max_weak_sum_before_weak_final a)
          (aggregating_state a) (strong_sum a) (weak_sum a) (agg_weak_votes a) (agg_strong_votes a), true)
  else (a, false).

Definition received_qc_sig_is_strong (a : aggregating_qc_sig_t) : bool :=
  match received_qc_sig a with None => false | Some r => sig_is_strong r end.

(** ** Collecting the votes of a block *)

Record aggregating_qc_t : Type := AggregatingQc {
  agg_active_policy : finalizer_policy;
  agg_pending_policy : option finalizer_policy;
  agg_active_sig : aggregating_qc_sig_t;
  agg_pending_sig : option aggregating_qc_sig_t }.

Definition aggregating_qc_new (active : finalizer_policy) (pending : option finalizer_policy)
    : result aggregating_qc_t :=
  a ← aggregating_qc_sig_of_policy active;
  match pending with
  | None => Ok (AggregatingQc active None a None)
  | Some p => b ← aggregating_qc_sig_of_policy p; Ok (AggregatingQc active (Some p) a (Some b))
  end.

Record vote_message : Type := VoteMessage {
  vote_block_id : sha256;
  vote_strong : bool;
  finalizer_key : bls_public_key;
  vote_sig : bls_g2 }.

Record aggregate_vote_result_t : Type := AggregateVoteResult {
  avr_result : vote_result_t;
  active_authority : option finalizer_authority;
  pending_authority : option finalizer_authority }.

Definition agg_get_best_qc (q : aggregating_qc_t) (block_num : Z) : result (option qc_t) :=
  active_best ← sig_get_best_qc (agg_active_sig q);
  match active_best with
  | None => Ok None
  | Some active =>
    match agg_pending_sig q with
    | Some ps =>
      pending_best ← sig_get_best_qc ps;
      match pending_best with
      | Some pending => Ok (Some (Qc block_num active (Some pending)))
      | None => Ok None
      end
    | None => Ok (Some (Qc block_num active None))
    end
  end.

Definition set_received_qc (q : aggregating_qc_t) (qc : qc_t) : result (aggregating_qc_t * bool) :=
  match agg_pending_sig q, pending_policy_sig qc with
  | Some _, None => Err invalid_qc
  | Some ps, Some s =>
    let '(a, active_better) := set_received_qc_sig (agg_active_sig q) (active_policy_sig qc) in
    let '(b, pending_better) := set_received_qc_sig ps s in
    Ok (AggregatingQc (agg_active_policy q) (agg_pending_policy q) a (Some b), active_better || pending_better)
  | None, _ =>
    let '(a, active_better) := set_received_qc_sig (agg_active_sig q) (active_policy_sig qc) in
    Ok (AggregatingQc (agg_active_policy q) (agg_pending_policy q) a None, active_better)
  end.

Definition received_qc_is_strong (q : aggregating_qc_t) : bool :=
  match agg_pending_sig q with
  | None => received_qc_sig_is_strong (agg_active_sig q)
  | Some ps => received_qc_sig_is_strong (agg_active_sig q) && received_qc_sig_is_strong ps
  end.

(** The lambda [verify_sig] with the captured flag [verified_sig]. *)
Definition verify_sig (vote : vote_message) (digest : list Z) (verified_sig : bool)
    : result (bool * vote_result_t) :=
  if verified_sig then Ok (true, success)
  else
    g ← jacobian_montgomery_le (finalizer_key vote);
    Ok (if bls_verify g digest (vote_sig vote) then (true, success) else (false, invalid_signature)).

(** The lambda [add_vote] of [aggregate_vote]; it also returns the authority it
    sets and the captured flag. *)
Definition add_vote_to (vote : vote_message) (digest : list Z) (verified_sig : bool)
    (p : finalizer_policy) (a : aggregating_qc_sig_t)
    : result (aggregating_qc_sig_t * bool * option finalizer_authority * vote_result_t) :=
  match list_find (λ f, public_key f = finalizer_key vote) (finalizers p) with
  | None => Ok (a, verified_sig, None, unknown_public_key)
  | Some (index, auth) =>
    hv ← sig_has_voted a index;
    if (hv : bool) then Ok (a, verified_sig, Some auth, duplicate)
    else
      '(verified_sig, vs) ← verify_sig vote digest verified_sig;
      if bool_decide (vs = success) then
        '(a, s) ← sig_add_vote a (vote_strong vote) index (vote_sig vote) (weight auth);
        Ok (a, verified_sig, Some auth, s)
      else Ok (a, verified_sig, Some auth, vs)
  end.

Definition aggregate_vote (q : aggregating_qc_t) (vote : vote_message) (digest : list Z)
    : result (aggregating_qc_t * aggregate_vote_result_t) :=
  '(a, verified_sig, auth, r) ← add_vote_to vote digest false (agg_active_policy q) (agg_active_sig q);
  let q1 := AggregatingQc (agg_active_policy q) (agg_pending_policy q) a (agg_pending_sig q) in
  if bool_decide (r = success) || bool_decide (r = unknown_public_key) then
    match agg_pending_policy q with
    | None => Ok (q1, AggregateVoteResult r auth None)
    | Some p =>
      match agg_pending_sig q with
      | None => Err assert_failed
      | Some ps =>
        '(b, _, pauth, pr) ← add_vote_to vote digest verified_sig p ps;
        Ok (AggregatingQc (agg_active_policy q) (agg_pending_policy q) a (Some b),
            AggregateVoteResult (if bool_decide (pr = unknown_public_key) then r else pr) auth pauth)
      end
    end
  else Ok (q1, AggregateVoteResult r auth None).

Definition finalizer_has_voted (p : finalizer_policy) (a : aggregating_qc_sig_t) (key : bls_public_key)
    : result vote_status_t :=
  match list_find (λ f, public_key f = key) (finalizers p) with
  | None => Ok irrelevant_finalizer
  | Some (index, _) => hv ← sig_has_voted a index; Ok (if (hv : bool) then voted else not_voted)
  end.

Definition agg_has_voted (q : aggregating_qc_t) (key : bls_public_key) : result vote_status_t :=
  active_status ← finalizer_has_voted (agg_active_policy q) (agg_active_sig q) key;
  match agg_pending_policy q with
  | None => Ok active_status
  | Some p =>
    if bool_decide (active_status = not_voted) then Ok active_status
    else
      match agg_pending_sig q with
      | None => Err invalid_qc
      | Some ps =>
        pending_status ← finalizer_has_voted p ps key;
        Ok (if bool_decide (pending_status = irrelevant_finalizer) then active_status else pending_status)
      end
  end.

Definition agg_is_quorum_met (q : aggregating_qc_t) : bool :=
  sig_is_quorum_met (agg_active_sig q) &&
  match agg_pending_sig q with None => true | Some ps => sig_is_quorum_met ps end.

(** ** Vote metrics *)

(** [std::set::insert] keeps an element already there. *)
Definition fin_auth_insert (x : fin_auth_t) (s : fin_auth_set_t) : fin_auth_set_t :=
  match s !! public_key (fa_auth x) with
  | Some _ => s
  | None => <[public_key (fa_auth x) := x]> s
  end.

Record qc_vote_metrics_t : Type := QcVoteMetrics {
  metrics_strong : fin_auth_set_t;
  metrics_weak : fin_auth_set_t;
  metrics_missing : fin_auth_set_t }.

(** The lambda [add_votes]: inserts the finalizers from index [i] on whose bit
    is set and counts them. *)
Fixpoint add_votes_from (gen : Z) (votes : bitset) (fs : list finalizer_authority) (i : nat)
    (results : fin_auth_set_t) (added : nat) : result (fin_auth_set_t * nat) :=
  match fs with
  | [] => Ok (results, added)
  | f :: fs =>
    t ← bitset_test votes i;
    if (t : bool)
    then add_votes_from gen votes fs (S i) (fin_auth_insert (FinAuth f gen) results) (S added)
    else add_votes_from gen votes fs (S i) results added
  end.

Definition add_votes (p : finalizer_policy) (votes : bitset) (results : fin_auth_set_t)
    : result (fin_auth_set_t * nat) :=
  assert_ (bool_decide (bitset_size votes = length (finalizers p)));;
  add_votes_from (generation p) votes (finalizers p) 0 results 0.

Definition add_policy_votes (p : finalizer_policy) (s : qc_sig_t) (m : qc_vote_metrics_t)
    : result qc_vote_metrics_t :=
  '(st, added) ← match strong_votes s with
                 | Some b => add_votes p b (metrics_strong m)
                 | None => Ok (metrics_strong m, 0%nat)
                 end;
  '(wk, added) ← match weak_votes s with
                 | Some b => add_votes p b (metrics_weak m)
                 | None => Ok (metrics_weak m, added)
                 end;
  if bool_decide (added = length (finalizers p)) then Ok (QcVoteMetrics st wk (metrics_missing m))
  else
    not_voted_bits ← match strong_votes s with
                     | Some b => Ok b
                     | None => bitset_new (length (finalizers p))
                     end;
    not_voted_bits ← match weak_votes s with
                     | Some b => assert_ (bool_decide (bitset_size not_voted_bits = bitset_size b));;
                                 bitset_or not_voted_bits b
                     | None => Ok not_voted_bits
                     end;
    not_voted_bits ← bitset_flip not_voted_bits;
    '(ms, _) ← add_votes p not_voted_bits (metrics_missing m);
    Ok (QcVoteMetrics st wk ms).

Definition vote_metrics (q : aggregating_qc_t) (qc : qc_t) : result qc_vote_metrics_t :=
  m ← add_policy_votes (agg_active_policy q) (active_policy_sig qc) (QcVoteMetrics ∅ ∅ ∅);
  match agg_pending_policy q with
  | None => Ok m
  | Some p =>
    match agg_pending_sig q, pending_policy_sig qc with
    | None, _ => Err assert_failed
    | Some _, None => Err undefined_behaviour
    | Some _, Some s => add_policy_votes p s m
    end
  end.

Fixpoint add_not_voted_from (gen : Z) (votes : bitset) (other_votes : option bitset)
    (fs : list finalizer_authority) (i : nat) (acc : fin_auth_set_t) : result fin_auth_set_t :=
  match fs with
  | [] => Ok acc
  | f :: fs =>
    t ← bitset_test votes i;
    o ← (if (t : bool) then Ok false else opt_test other_votes i);
    add_not_voted_from gen votes other_votes fs (S i)
      (if negb t && negb o then fin_auth_insert (FinAuth f gen) acc else acc)
  end.

Definition add_not_voted (p : finalizer_policy) (s : qc_sig_t) (acc : fin_auth_set_t) : result fin_auth_set_t :=
  '(votes, other_votes) ← match strong_votes s, weak_votes s with
                          | Some sv, wv => Ok (sv, wv)
                          | None, Some wv => Ok (wv, None)
                          | None, None => Err assert_failed
                          end;
  assert_ (bool_decide (bitset_size votes = length (finalizers p)));;
  assert_ (match other_votes with
           | None => true
           | Some o => bool_decide (bitset_size o = length (finalizers p))
           end);;
  add_not_voted_from (generation p) votes other_votes (finalizers p) 0 acc.

Definition missing_votes (q : aggregating_qc_t) (qc : qc_t) : result fin_auth_set_t :=
  nv ← add_not_voted (agg_active_policy q) (active_policy_sig qc) ∅;
  match agg_pending_policy q with
  | None => Ok nv
  | Some p =>
    match agg_pending_sig q, pending_policy_sig qc with
    | None, _ => Err assert_failed
    | Some _, None => Err undefined_behaviour
    | Some _, Some s => add_not_voted p s nv
    end
  end.

End Qc.
