(* ===== verification/BlockHeaderState.v ===== *)
(** * Block header states: [block_header.hpp/.cpp], [block_header_state.hpp/.cpp],
    [protocol_feature_activation.cpp] and [emplace_extension] ([types.hpp])

    [finish_next] is written as a function of the parent state, the header and
    the decoded extensions of the child. The payload of a header extension is of
    an abstract type with pack and unpack functions, and the bytes of the larger
    reflected structures are parameters, used under the hash only. *)

From stdpp Require Import gmap.
From S2P Require Import Prelude Sha256 Merkle FinalityCore OrderedDiff ProducerSchedule FinalizerPolicy Qc.
Open Scope Z_scope.

#[export] Instance sha256_countable : Countable sha256.
Proof.
  apply (inj_countable' (λ h, (hash0 h, hash1 h, hash2 h, hash3 h)) (λ '(a, b, c, d), Sha256 a b c d)). by intros [].
Defined.

Record finality_extension : Type := FinalityExtension {
  fe_qc_claim : qc_claim_t;
  new_finalizer_policy_diff : option finalizer_policy_diff;
  new_proposer_policy_diff : option proposer_policy_diff }.

(** ** Header extensions *)

Inductive block_header_extension : Type :=
| protocol_feature_activation (protocol_features : list sha256)
| producer_schedule_change_extension (s : producer_authority_schedule)
| finality_extension_ext (f : finality_extension).

(** [fc::raw::pack] and [fc::raw::unpack] of the three extension types;
    [unpack] gives [None] when it throws. *)
Class ExtensionCodec : Type := {
  ext_data : Type;
  pack_features : list sha256 → ext_data;
  unpack_features : ext_data → option (list sha256);
  unpack_schedule : ext_data → option producer_authority_schedule;
  pack_finality : finality_extension → ext_data;
  unpack_finality : ext_data → option finality_extension }.

Class ExtensionCodecLaws (codec : ExtensionCodec) : Prop := {
  unpack_pack_features fs : unpack_features (pack_features fs) = Some fs;
  unpack_pack_finality f : unpack_finality (pack_finality f) = Some f }.

Section Header.
Context {codec : ExtensionCodec}.

Record block_header : Type := BlockHeader {
  h_timestamp : Z;
  h_producer : Z;
  h_confirmed : Z;
  h_previous : sha256;
  h_transaction_mroot : sha256;
  h_action_mroot : sha256;
  h_schedule_version : Z;
  h_new_producers : option (Z * list (Z * public_key_type));
  h_header_extensions : list (Z * ext_data) }.

Definition proper_svnn_schedule_version : Z := 2147483648.

Definition is_proper_svnn_block (h : block_header) : bool := h_schedule_version h =? proper_svnn_schedule_version.

Definition h_block_num (h : block_header) : Z := u32 (num_from_id (h_previous h) + 1).

(** [reflector_init] of [protocol_feature_activation]: at least one feature, none repeated. *)
Definition features_reflector_init (fs : list sha256) : result unit :=
  check (bool_decide (fs ≠ [])) ill_formed_protocol_feature_activation;;
  check (bool_decide (NoDup fs)) ill_formed_protocol_feature_activation.

(** [decompose_t::extract]: [None] for an unknown id; all three types are unique. *)
Definition extract (id : Z) (data : ext_data) : result (option block_header_extension) :=
  if id =? 0 then
    match unpack_features data with
    | Some fs => features_reflector_init fs;; Ok (Some (protocol_feature_activation fs))
    | None => Err fc_assert_exception
    end
  else if id =? 1 then
    match unpack_schedule data with
    | Some s => Ok (Some (producer_schedule_change_extension s))
    | None => Err fc_assert_exception
    end
  else if id =? 2 then
    match unpack_finality data with
    | Some f => Ok (Some (finality_extension_ext f))
    | None => Err fc_assert_exception
    end
  else Ok None.

(** The loop of [validate_and_extract_header_extensions]; [first] is [i == 0]. *)
Fixpoint extract_extensions (exts : list (Z * ext_data)) (first : bool) (id_type_lower_bound : Z)
    : result (list (Z * block_header_extension)) :=
  match exts with
  | [] => Ok []
  | (id, data) :: exts =>
    check (id_type_lower_bound <=? id) invalid_block_header_extension;;
    e ← extract id data;
    match e with
    | None => Err invalid_block_header_extension
    | Some e =>
      check (first || (id_type_lower_bound <? id)) invalid_block_header_extension;;
      rest ← extract_extensions exts false id;
      Ok ((id, e) :: rest)
    end
  end.

Definition validate_and_extract_header_extensions (h : block_header) : result (list (Z * block_header_extension)) :=
  extract_extensions (h_header_extensions h) true 0.

(** Inserts after the extensions with an id not greater than [eid]. *)
Fixpoint emplace_extension (exts : list (Z * ext_data)) (eid : Z) (data : ext_data) : list (Z * ext_data) :=
  match exts with
  | [] => [(eid, data)]
  | e :: exts' => if eid <? e.1 then (eid, data) :: exts else e :: emplace_extension exts' eid data
  end.

(** [find] on the multimap of decoded extensions. *)
Fixpoint find_extension (id : Z) (exts : list (Z * block_header_extension)) : option block_header_extension :=
  match exts with
  | [] => None
  | (i, e) :: exts => if i =? id then Some e else find_extension id exts
  end.

(** [protocol_feature_activation_set]: the union, which must be disjoint. *)
Definition protocol_feature_activation_set (orig : gset sha256) (additional_features : list sha256)
    : result (gset sha256) :=
  let s := orig ∪ list_to_set additional_features in
  check (bool_decide (size s = size orig + length additional_features)%nat) invalid_block_header_extension;;
  Ok s.

End Header.

(** ** Serialization of the digests *)

(** The hash function, and [fc::raw::pack] of the structures that are only hashed. *)
Class Digests (codec : ExtensionCodec) : Type := {
  hash_bytes : list Z → sha256;
  pack_header : block_header (codec := codec) → list Z;
  pack_finalizer_policy : finalizer_policy → list Z;
  pack_proposer_policy : proposer_policy → list Z;
  pack_feature_set : gset sha256 → list Z }.

(** [fc::raw::pack] of an [unsigned_int]. *)
Fixpoint pack_varuint_from (fuel : nat) (val : Z) : list Z :=
  match fuel with
  | O => []
  | S fuel =>
    let b := Z.land val 127 in
    let val := Z.shiftr val 7 in
    if 0 <? val then Z.lor b 128 :: pack_varuint_from fuel val else [b]
  end.
Definition pack_varuint (val : Z) : list Z := pack_varuint_from 10 val.

Definition pack_bool (b : bool) : list Z := [if b then 1 else 0].

(** An [std::optional] or an [std::shared_ptr]. *)
Definition pack_opt {A} (pack : A → list Z) (x : option A) : list Z :=
  match x with None => pack_bool false | Some a => pack_bool true ++ pack a end.

Definition pack_vector {A} (pack : A → list Z) (l : list A) : list Z :=
  pack_varuint (Z.of_nat (length l)) ++ mjoin (pack <$> l).

Definition pack_link (l : qc_link) : list Z :=
  pack_u32 (source_block_num l) ++ pack_u32 (target_block_num l) ++ pack_bool (is_link_strong l).

Definition pack_for_digest (c : finality_core) : list Z :=
  pack_vector pack_link (links c) ++
  pack_vector (λ r, pack_sha256 (block_id r) ++ pack_u32 (timestamp r) ++ pack_sha256 (finality_digest r)) (refs c) ++
  pack_u32 (genesis_timestamp c).

Record level_3_commitments_t : Type := Level3Commitments {
  l3_reversible_blocks_mroot : sha256;
  l3_latest_qc_claim_block_num : Z;
  l3_latest_qc_claim_finality_digest : sha256;
  l3_latest_qc_claim_timestamp : Z;
  l3_timestamp : Z;
  l3_base_digest : sha256 }.

Definition pack_level_3 (l : level_3_commitments_t) : list Z :=
  pack_sha256 (l3_reversible_blocks_mroot l) ++ pack_u32 (l3_latest_qc_claim_block_num l) ++
  pack_sha256 (l3_latest_qc_claim_finality_digest l) ++ pack_u32 (l3_latest_qc_claim_timestamp l) ++
  pack_u32 (l3_timestamp l) ++ pack_sha256 (l3_base_digest l).

Record level_2_commitments_t : Type := Level2Commitments {
  l2_last_pending_fin_pol_digest : sha256;
  l2_last_pending_fin_pol_start_timestamp : Z;
  l2_l3_commitments_digest : sha256 }.

Definition pack_level_2 (l : level_2_commitments_t) : list Z :=
  pack_sha256 (l2_last_pending_fin_pol_digest l) ++ pack_u32 (l2_last_pending_fin_pol_start_timestamp l) ++
  pack_sha256 (l2_l3_commitments_digest l).

Record finality_digest_data_v1 : Type := FinalityDigestData {
  fd_active_finalizer_policy_generation : Z;
  fd_last_pending_finalizer_policy_generation : Z;
  fd_finality_tree_digest : sha256;
  fd_l2_commitments_digest : sha256 }.

(** The light header protocol version 1.0 comes first. *)
Definition pack_finality_digest_data (d : finality_digest_data_v1) : list Z :=
  pack_u32 1 ++ pack_u32 0 ++ pack_u32 (fd_active_finalizer_policy_generation d) ++
  pack_u32 (fd_last_pending_finalizer_policy_generation d) ++ pack_sha256 (fd_finality_tree_digest d) ++
  pack_sha256 (fd_l2_commitments_digest d).

(** ** The state *)

Section State.
Context {codec : ExtensionCodec} {digests : Digests codec}.

Record block_header_state : Type := BlockHeaderState {
  s_block_id : sha256;
  s_header : block_header;
  s_activated_protocol_features : gset sha256;
  s_core : finality_core;
  s_active_finalizer_policy : finalizer_policy;
  s_active_proposer_policy : proposer_policy;
  s_latest_proposed_proposer_policy : option proposer_policy;
  s_latest_pending_proposer_policy : option proposer_policy;
  s_proposed_finalizer_policies : list (Z * finalizer_policy);
  s_pending_finalizer_policy : option (Z * finalizer_policy);
  s_latest_qc_claim_block_active_finalizer_policy : option finalizer_policy;
  s_finalizer_policy_generation : Z;
  s_last_pending_finalizer_policy_digest : sha256;
  s_last_pending_finalizer_policy_start_timestamp : Z;
  s_header_exts : list (Z * block_header_extension) }.

Definition s_timestamp (s : block_header_state) : Z := h_timestamp (s_header s).
Definition s_block_num (s : block_header_state) : Z := h_block_num (s_header s).

Definition h_digest (h : block_header) : sha256 := hash_bytes (pack_header h).

Definition calculate_id (h : block_header) : sha256 := store_block_num (h_digest h) (h_block_num h).

Definition finality_mroot (s : block_header_state) : sha256 :=
  if is_proper_svnn_block (s_header s) then h_action_mroot (s_header s) else sha256_zero.

Definition is_savanna_genesis_block (s : block_header_state) : result bool :=
  is_genesis_block_num (s_core s) (s_block_num s).

(** [qc_claim > core.latest_qc_claim()]. *)
Definition is_needed (s : block_header_state) (claim : qc_claim_t) : result bool :=
  latest ← latest_qc_claim (s_core s);
  Ok (negb (qc_claim_le claim latest)).

Definition compute_base_digest (s : block_header_state) : sha256 :=
  hash_bytes (
    pack_header (s_header s) ++
    pack_for_digest (s_core s) ++
    pack_vector (λ p, pack_u32 p.1 ++ pack_opt pack_finalizer_policy (Some p.2)) (s_proposed_finalizer_policies s) ++
    pack_opt (λ p, pack_u32 p.1 ++ pack_opt pack_finalizer_policy (Some p.2)) (s_pending_finalizer_policy s) ++
    pack_proposer_policy (s_active_proposer_policy s) ++
    pack_opt pack_proposer_policy (s_latest_proposed_proposer_policy s) ++
    pack_opt pack_proposer_policy (s_latest_pending_proposer_policy s) ++
    pack_feature_set (s_activated_protocol_features s)).

(** The last pending finalizer policy, or the active one. *)
Definition get_last_pending_finalizer_policy (s : block_header_state) : finalizer_policy :=
  match s_pending_finalizer_policy s with Some (_, p) => p | None => s_active_finalizer_policy s end.

(** The last proposed finalizer policy, or the pending one, or the active one. *)
Definition get_last_proposed_finalizer_policy (s : block_header_state) : finalizer_policy :=
  match last (s_proposed_finalizer_policies s) with
  | Some (_, p) => p
  | None => get_last_pending_finalizer_policy s
  end.

Definition get_last_proposed_proposer_policy (s : block_header_state) : proposer_policy :=
  match s_latest_proposed_proposer_policy s, s_latest_pending_proposer_policy s with
  | Some p, _ => p
  | None, Some p => p
  | None, None => s_active_proposer_policy s
  end.

Definition compute_finality_digest (s : block_header_state) : result sha256 :=
  claim ← latest_qc_claim (s_core s);
  let num := claim_block_num claim in
  blk_ref ← (if is_genesis_core (s_core s) then Ok empty_block_ref else get_block_reference (s_core s) num);
  mroot ← get_reversible_blocks_mroot hash_bytes (s_core s);
  let level_3 := Level3Commitments mroot num (finality_digest blk_ref) (timestamp blk_ref) (s_timestamp s)
                   (compute_base_digest s) in
  let level_2 := Level2Commitments (s_last_pending_finalizer_policy_digest s)
                   (s_last_pending_finalizer_policy_start_timestamp s) (hash_bytes (pack_level_3 level_3)) in
  Ok (hash_bytes (pack_finality_digest_data
        (FinalityDigestData (generation (s_active_finalizer_policy s))
           (generation (get_last_pending_finalizer_policy s)) (finality_mroot s)
           (hash_bytes (pack_level_2 level_2))))).

Definition pending_generation (s : block_header_state) : Z :=
  match s_pending_finalizer_policy s with Some (_, p) => generation p | None => 0 end.

Definition s_make_block_ref (s : block_header_state) : result block_ref :=
  d ← compute_finality_digest s;
  Ok (BlockRef (s_block_id s) (s_timestamp s) d (generation (s_active_finalizer_policy s)) (pending_generation s)).

(** *** Proposer policies *)

(** The policy pointers of a state are distinct objects: the code compares the
    pointers, which is comparing the slots they come from. *)
Inductive policy_slot : Type := active_slot | proposed_slot | pending_slot.

#[export] Instance policy_slot_eq_dec : EqDecision policy_slot.
Proof. solve_decision. Defined.

Definition get_active_proposer_policy_for_block_at (s : block_header_state) (next_block_timestamp : Z)
    : result (policy_slot * proposer_policy) :=
  check (s_timestamp s <? next_block_timestamp) block_too_old_exception;;
  let active := Ok (active_slot, s_active_proposer_policy s) in
  if in_same_round next_block_timestamp (s_timestamp s) then active
  else
    match s_latest_proposed_proposer_policy s, s_latest_pending_proposer_policy s with
    | None, None => active
    | proposed, pending =>
      from_proposed ←
        match proposed, get_prior_round_start_slot (s_timestamp s) with
        | Some p, Some start =>
          if proposal_time p <? start then
            lf ← last_final_block_timestamp (s_core s);
            Ok (if proposal_time p <=? lf then Some (proposed_slot, p) else None)
          else Ok None
        | _, _ => Ok None
        end;
      match from_proposed with
      | Some r => Ok r
      | None =>
        match pending with
        | Some p =>
          lf ← last_final_block_timestamp (s_core s);
          if proposal_time p <=? lf then Ok (pending_slot, p) else active
        | None => active
        end
      end
    end.

Definition get_producer_for_block_at (s : block_header_state) (next_block_timestamp : Z) : result producer_authority :=
  '(_, p) ← get_active_proposer_policy_for_block_at s next_block_timestamp;
  get_scheduled_producer (producers (proposer_schedule p)) next_block_timestamp.

(** (active, latest proposed, latest pending) proposer policies of the child. *)
Definition evaluate_proposer_policies_for_promotion (prev : block_header_state) (next_timestamp : Z)
    : result (proposer_policy * option proposer_policy * option proposer_policy) :=
  assert_ (s_timestamp prev <? next_timestamp);;
  '(slot, new_policy) ← get_active_proposer_policy_for_block_at prev next_timestamp;
  let '(proposed, pending) :=
    match slot with
    | active_slot => (s_latest_proposed_proposer_policy prev, s_latest_pending_proposer_policy prev)
    | proposed_slot => (None, None)
    | pending_slot => (s_latest_proposed_proposer_policy prev, None)
    end in
  first ← first_block_of_round next_timestamp (s_timestamp prev);
  match (first : bool), proposed, pending with
  | true, Some p, None => Ok (new_policy, None, Some p)
  | _, _, _ => Ok (new_policy, proposed, pending)
  end.

(** *** Finalizer policies *)

Record finalizer_policy_state : Type := FinalizerPolicyState {
  fps_active : finalizer_policy;
  fps_pending : option (Z * finalizer_policy);
  fps_proposed : list (Z * finalizer_policy);
  fps_start_timestamp : Z }.

(** The index of the first proposed policy with a block number above [lib]. *)
Definition first_reversible (lib : Z) (proposed : list (Z * finalizer_policy)) : nat :=
  match list_find (λ p, lib < p.1) proposed with Some (i, _) => i | None => length proposed end.

(** The second half of the evaluation: [target] is the proposed policy before the
    first reversible one. *)
Definition promote_target (prev_proposed : list (Z * finalizer_policy)) (lib next_block_num next_timestamp start : Z)
    (active : finalizer_policy) (pending : option (Z * finalizer_policy)) : finalizer_policy_state :=
  let i := first_reversible lib prev_proposed in
  match i, prev_proposed !! pred i with
  | S _, Some target =>
    match pending with
    | None => FinalizerPolicyState active (Some (next_block_num, target.2)) (drop i prev_proposed) next_timestamp
    | Some _ => FinalizerPolicyState active pending (target :: drop i prev_proposed) start
    end
  | _, _ => FinalizerPolicyState active pending prev_proposed start
  end.

Definition evaluate_finalizer_policies_for_promotion (prev : block_header_state) (next_core : finality_core)
    (next_block_num next_timestamp : Z) : result finalizer_policy_state :=
  let active := s_active_finalizer_policy prev in
  let prev_pending := s_pending_finalizer_policy prev in
  let prev_proposed := s_proposed_finalizer_policies prev in
  let start := s_last_pending_finalizer_policy_start_timestamp prev in
  match prev_pending, prev_proposed with
  | None, [] => Ok (FinalizerPolicyState active None [] start)
  | _, _ =>
    lib ← last_final_block_num next_core;
    let '(active, pending) :=
      match prev_pending with
      | Some (num, p) => if num <=? lib then (p, None) else (active, prev_pending)
      | None => (active, None)
      end in
    Ok (promote_target prev_proposed lib next_block_num next_timestamp start active pending)
  end.

(** [core.links.empty()] is for states made up in tests. *)
Definition get_active_finalizer_policy_generation (s : block_header_state) (num : Z) : result Z :=
  (if is_empty (links (s_core s)) then Ok tt
   else lf ← last_final_block_num (s_core s);
        cur ← current_block_num (s_core s);
        assert_ ((lf <=? num) && (num <=? cur)));;
  if num =? s_block_num s then Ok (generation (s_active_finalizer_policy s))
  else r ← get_block_reference (s_core s) num; Ok (active_policy_generation r).

Definition get_finalizer_policies (s : block_header_state) (ref : block_ref) : result finalizer_policies_t :=
  (if is_empty (links (s_core s)) then Ok tt
   else claim ← latest_qc_claim (s_core s);
        cur ← current_block_num (s_core s);
        assert_ ((claim_block_num claim <=? FinalityCore.block_num ref) && (FinalityCore.block_num ref <=? cur)));;
  let active := s_active_finalizer_policy s in
  let active_gen := active_policy_generation ref in
  assert_ (negb (active_gen =? 0));;
  res_active ←
    (if generation active =? active_gen then Ok active
     else
       assert_ (match s_pending_finalizer_policy s with Some (_, p) => active_gen <? generation p | None => true end);;
       match s_latest_qc_claim_block_active_finalizer_policy s with
       | None => Err assert_failed
       | Some p => assert_ (generation p =? active_gen);; Ok p
       end);
  let pending_gen := pending_policy_generation ref in
  res_pending ←
    (if pending_gen =? 0 then Ok None
     else if pending_gen =? generation active then Ok (Some active)
     else match s_pending_finalizer_policy s with
          | None => Err assert_failed
          | Some (_, p) => assert_ (generation p =? pending_gen);; Ok (Some p)
          end);
  Ok (FinalizerPolicies (finality_digest ref) res_active res_pending).

(** *** The next state *)

Definition finish_next (prev : block_header_state) (header : block_header)
    (header_exts : list (Z * block_header_extension)) (new_features : list sha256) (f_ext : finality_extension)
    : result block_header_state :=
  let next_timestamp := h_timestamp header in
  let next_block_num := h_block_num header in
  features ← (if bool_decide (new_features ≠ [])
              then protocol_feature_activation_set (s_activated_protocol_features prev) new_features
              else Ok (s_activated_protocol_features prev));
  '(active_proposer, proposed_proposer, pending_proposer) ←
    evaluate_proposer_policies_for_promotion prev next_timestamp;
  proposed_proposer ←
    match new_proposer_policy_diff f_ext with
    | Some d => p ← proposer_apply_diff (get_last_proposed_proposer_policy prev) d; Ok (Some p)
    | None => Ok proposed_proposer
    end;
  parent_block ← s_make_block_ref prev;
  core ← next (s_core prev) parent_block (fe_qc_claim f_ext);
  fps ← evaluate_finalizer_policies_for_promotion prev core next_block_num next_timestamp;
  let last_pending := match fps_pending fps with Some (_, p) => p | None => fps_active fps end in
  '(gen, proposed) ←
    match new_finalizer_policy_diff f_ext with
    | Some d =>
      p ← policy_apply_diff (get_last_proposed_finalizer_policy prev) d;
      check (s_finalizer_policy_generation prev <? generation p) invalid_block_header_extension;;
      Ok (generation p, fps_proposed fps ++ [(next_block_num, p)])
    | None => Ok (s_finalizer_policy_generation prev, fps_proposed fps)
    end;
  claim ← latest_qc_claim core;
  claim_gen ← get_active_finalizer_policy_generation prev (claim_block_num claim);
  latest_qc_claim_policy ←
    (if negb (claim_gen =? generation (fps_active fps)) then
       r ← get_block_reference core (claim_block_num claim);
       ps ← get_finalizer_policies prev r;
       Ok (Some (active_finalizer_policy ps))
     else Ok None);
  Ok {| s_block_id := calculate_id header;
        s_header := header;
        s_activated_protocol_features := features;
        s_core := core;
        s_active_finalizer_policy := fps_active fps;
        s_active_proposer_policy := active_proposer;
        s_latest_proposed_proposer_policy := proposed_proposer;
        s_latest_pending_proposer_policy := pending_proposer;
        s_proposed_finalizer_policies := proposed;
        s_pending_finalizer_policy := fps_pending fps;
        s_latest_qc_claim_block_active_finalizer_policy := latest_qc_claim_policy;
        s_finalizer_policy_generation := gen;
        s_last_pending_finalizer_policy_digest := hash_bytes (pack_finalizer_policy last_pending);
        s_last_pending_finalizer_policy_start_timestamp := fps_start_timestamp fps;
        s_header_exts := header_exts |}.

Record block_header_state_input : Type := BlockHeaderStateInput {
  in_parent_id : sha256;
  in_timestamp : Z;
  in_producer : Z;
  in_new_protocol_feature_activations : list sha256;
  in_transaction_mroot : sha256;
  in_new_proposer_policy : option proposer_policy;
  in_new_finalizer_policy : option finalizer_policy;
  in_most_recent_ancestor_with_qc : qc_claim_t;
  in_finality_mroot_claim : sha256 }.

(** [next] when assembling a block. *)
Definition next_from_input (s : block_header_state) (input : block_header_state_input) : result block_header_state :=
  fin_diff ←
    match in_new_finalizer_policy input with
    | Some p => d ← create_diff (get_last_proposed_finalizer_policy s) p; Ok (Some d)
    | None => Ok None
    end;
  prop_diff ←
    match in_new_proposer_policy input with
    | Some p => d ← proposer_create_diff (get_last_proposed_proposer_policy s) p; Ok (Some d)
    | None => Ok None
    end;
  let f_ext := FinalityExtension (in_most_recent_ancestor_with_qc input) fin_diff prop_diff in
  let features := in_new_protocol_feature_activations input in
  let exts := emplace_extension [] 2 (pack_finality f_ext) in
  let '(exts, header_exts) :=
    if bool_decide (features ≠ [])
    then (emplace_extension exts 0 (pack_features features),
          [(0, protocol_feature_activation features); (2, finality_extension_ext f_ext)])
    else (exts, [(2, finality_extension_ext f_ext)]) in
  let header := BlockHeader (in_timestamp input) (in_producer input) 0 (in_parent_id input)
                  (in_transaction_mroot input) (in_finality_mroot_claim input) proper_svnn_schedule_version None exts in
  finish_next s header header_exts features f_ext.

(** The protocol feature validator called with the parent's timestamp and features. *)
Context (validator : Z → gset sha256 → list sha256 → result unit).

(** [next] when validating a received header. *)
Definition next_from_header (s : block_header_state) (h : block_header) : result block_header_state :=
  producer ← get_producer_for_block_at s (h_timestamp h);
  check (bool_decide (h_previous h = s_block_id s)) unlinkable_block_exception;;
  check (h_producer h =? producer_name producer) wrong_producer;;
  check (bool_decide (h_new_producers h = None)) producer_schedule_exception;;
  exts ← validate_and_extract_header_extensions h;
  new_features ←
    match find_extension 0 exts with
    | Some (protocol_feature_activation fs) =>
      validator (s_timestamp s) (s_activated_protocol_features s) fs;; Ok fs
    | Some _ => Err undefined_behaviour
    | None => Ok []
    end;
  f_ext ←
    match find_extension 2 exts with
    | Some (finality_extension_ext f) => Ok f
    | Some _ => Err undefined_behaviour
    | None => Err invalid_block_header_extension
    end;
  (if is_proper_svnn_block h then
     m ← next_metadata (s_core s) (fe_qc_claim f_ext);
     no_finality_tree ← is_genesis_block_num (s_core s) (md_latest_qc_claim_block_num m);
     check (Bool.eqb no_finality_tree (sha256_empty (h_action_mroot h))) block_validate_exception
   else Ok tt);;
  finish_next s h exts new_features f_ext.

End State.

(** ** The Savanna genesis state ([block_state::create_if_genesis_block]) *)

Section Genesis.
Context {codec : ExtensionCodec} {digests : Digests codec}.

(** From the id, header, features and producer schedule of the legacy block
    whose header has the first finalizer policy. *)
Definition create_if_genesis_state (id : sha256) (header : block_header) (features : gset sha256)
    (active_schedule : producer_authority_schedule) (header_exts : list (Z * block_header_extension))
    : result block_header_state :=
  f_ext ←
    match find_extension 2 header_exts with
    | Some (finality_extension_ext f) => Ok f
    | _ => Err assert_failed
    end;
  policy ←
    match new_finalizer_policy_diff f_ext with
    | Some d => policy_apply_diff (FinalizerPolicy 0 0 []) d
    | None => Err assert_failed
    end;
  Ok {| s_block_id := id;
        s_header := header;
        s_activated_protocol_features := features;
        s_core := create_core_for_genesis_block id (h_timestamp header);
        s_active_finalizer_policy := policy;
        s_active_proposer_policy := ProposerPolicy 0 active_schedule;
        s_latest_proposed_proposer_policy := None;
        s_latest_pending_proposer_policy := None;
        s_proposed_finalizer_policies := [];
        s_pending_finalizer_policy := None;
        s_latest_qc_claim_block_active_finalizer_policy := None;
        s_finalizer_policy_generation := 1;
        s_last_pending_finalizer_policy_digest := hash_bytes (pack_finalizer_policy policy);
        s_last_pending_finalizer_policy_start_timestamp := h_timestamp header;
        s_header_exts := header_exts |}.

End Genesis.
