(* ===== verification/BlockHeaderTheory.v ===== *)
(** * Theorems on block header states

    The promotion of finalizer policies follows the documented rule; the states
    of a branch carry the finality core of the block tree of [BlockTree.v];
    the policies kept in a state are enough to verify a certificate of any block
    from the latest claim on; a header built from an input is accepted by the
    validation of headers and yields the same state. *)

From stdpp Require Import gmap.
From S2P Require Import Prelude Sha256 Merkle FinalityCore BlockTree OrderedDiff ProducerSchedule FinalizerPolicy Qc BlockHeaderState.
Open Scope Z_scope.

(** ** The queue of proposed policies *)

Section Promotion.
Context {codec : ExtensionCodec} {digests : Digests codec}.

(** Proposed policies are queued in the order of their blocks and generations. *)
Definition queue_lt (x y : Z * finalizer_policy) : Prop := x.1 < y.1 ∧ generation x.2 < generation y.2.

Definition final_part (lib : Z) (q : list (Z * finalizer_policy)) := filter (λ x, x.1 <= lib) q.
Definition reversible_part (lib : Z) (q : list (Z * finalizer_policy)) := filter (λ x, lib < x.1) q.

Lemma parts_reversible lib q : Forall (λ x, lib < x.1) q → final_part lib q = [] ∧ reversible_part lib q = q.
Proof.
  unfold final_part, reversible_part. induction 1 as [|x q Hx _ [IH1 IH2]]; [done|].
  rewrite !filter_cons, decide_False, decide_True, IH1, IH2 by lia. done.
Qed.

Lemma first_reversible_cons lib x q :
  first_reversible lib (x :: q) = if decide (lib < x.1) then 0%nat else S (first_reversible lib q).
Proof.
  unfold first_reversible. cbn [list_find]. destruct (decide (lib < x.1)); [done|].
  by destruct (list_find _ q) as [[]|].
Qed.

Lemma queue_split lib q : StronglySorted queue_lt q →
  take (first_reversible lib q) q = final_part lib q ∧ drop (first_reversible lib q) q = reversible_part lib q.
Proof.
  induction 1 as [|x q Hs [IH1 IH2] Hx]; [done|]. rewrite first_reversible_cons.
  destruct (decide (lib < x.1)) as [Hlt|Hge].
  - assert (Forall (λ y, lib < y.1) (x :: q)) as Hall.
    { constructor; [done|]. eapply Forall_impl; [exact Hx|]. intros y [Hy _]. lia. }
    destruct (parts_reversible lib _ Hall) as [-> ->]. done.
  - cbn [take drop]. rewrite IH1, IH2. unfold final_part, reversible_part.
    rewrite !filter_cons, decide_True, decide_False by lia. done.
Qed.

(** The pending policy that stays pending. *)
Definition kept_pending (lib : Z) (pending : option (Z * finalizer_policy)) : option (Z * finalizer_policy) :=
  match pending with Some (n, p) => if n <=? lib then None else pending | None => None end.

(** The policy active after the evaluation. *)
Definition promoted_active (lib : Z) (active : finalizer_policy) (pending : option (Z * finalizer_policy)) : finalizer_policy :=
  match pending with Some (n, p) => if n <=? lib then p else active | None => active end.

(** The documented rule: the target is the last proposed policy whose block is
    final; it becomes pending if the slot is open, earlier proposals are dropped. *)
Definition promotion_spec (prev : block_header_state) (lib num ts : Z) : finalizer_policy_state :=
  let q := s_proposed_finalizer_policies prev in
  let start := s_last_pending_finalizer_policy_start_timestamp prev in
  let active := promoted_active lib (s_active_finalizer_policy prev) (s_pending_finalizer_policy prev) in
  let kept := kept_pending lib (s_pending_finalizer_policy prev) in
  match last (final_part lib q), kept with
  | None, _ => FinalizerPolicyState active kept (reversible_part lib q) start
  | Some target, None => FinalizerPolicyState active (Some (num, target.2)) (reversible_part lib q) ts
  | Some target, Some _ => FinalizerPolicyState active kept (target :: reversible_part lib q) start
  end.

Lemma promote_target_spec q lib num ts start active pending : StronglySorted queue_lt q →
  promote_target q lib num ts start active pending =
  match last (final_part lib q), pending with
  | None, _ => FinalizerPolicyState active pending (reversible_part lib q) start
  | Some target, None => FinalizerPolicyState active (Some (num, target.2)) (reversible_part lib q) ts
  | Some target, Some _ => FinalizerPolicyState active pending (target :: reversible_part lib q) start
  end.
Proof.
  intros Hs. destruct (queue_split lib q Hs) as [Hf Hr]. unfold promote_target. rewrite <- Hf, <- Hr.
  destruct (first_reversible lib q) as [|i] eqn:Ei; [by rewrite take_0|]. cbn [pred].
  assert (i < length q)%nat as Hi.
  { unfold first_reversible in Ei. destruct (list_find _ q) as [[j y]|] eqn:E; [|lia].
    apply list_find_Some in E as (E & _). apply lookup_lt_Some in E. lia. }
  destruct (lookup_lt_is_Some_2 q i Hi) as [t Ht]. by rewrite Ht, (take_S_r _ _ _ Ht), last_snoc.
Qed.

Lemma evaluate_finalizer_policies_ok prev core lib num ts :
  StronglySorted queue_lt (s_proposed_finalizer_policies prev) → last_final_block_num core = Ok lib →
  evaluate_finalizer_policies_for_promotion prev core num ts = Ok (promotion_spec prev lib num ts).
Proof.
  intros Hs Hlib. unfold evaluate_finalizer_policies_for_promotion, promotion_spec. rewrite Hlib.
  destruct (s_pending_finalizer_policy prev) as [[n p]|]; cbn [kept_pending promoted_active].
  - rewrite bind_ok. destruct (n <=? lib); by rewrite promote_target_spec.
  - destruct (s_proposed_finalizer_policies prev) as [|x q']; [done|]. by rewrite bind_ok, promote_target_spec.
Qed.

Lemma queue_total q x y : StronglySorted queue_lt q → x ∈ q → y ∈ q → x = y ∨ queue_lt x y ∨ queue_lt y x.
Proof.
  induction 1 as [|z q Hs IH Hz]; [by intros ?%not_elem_of_nil|].
  rewrite Forall_forall in Hz. intros [->|Hx]%elem_of_cons [->|Hy]%elem_of_cons; auto.
Qed.

Lemma queue_filter (P : Z * finalizer_policy → Prop) `{!∀ x, Decision (P x)} q :
  StronglySorted queue_lt q → StronglySorted queue_lt (filter P q).
Proof.
  induction 1 as [|z q Hs IH Hz]; [constructor|]. rewrite filter_cons. destruct (decide (P z)); [|done].
  constructor; [done|]. rewrite Forall_forall in *. intros x [_ Hx]%list_elem_of_filter. auto.
Qed.

(** The target precedes every reversible proposal. *)
Lemma target_before lib q t : StronglySorted queue_lt q → last (final_part lib q) = Some t →
  t ∈ q ∧ t.1 <= lib ∧ Forall (queue_lt t) (reversible_part lib q).
Proof.
  intros Hs Hl. apply last_Some_elem_of, list_elem_of_filter in Hl as [Ht Hin]. split_and!; [done..|].
  apply Forall_forall. intros x [Hx Hxq]%list_elem_of_filter.
  destruct (queue_total q t x Hs Hin Hxq) as [->|[?|[? _]]]; [lia|done|lia].
Qed.

(** *** What every state keeps true of its policies *)

Record policies_inv (s : block_header_state) : Prop := {
  pi_active : 1 <= generation (s_active_finalizer_policy s);
  pi_pending : ∀ n p, s_pending_finalizer_policy s = Some (n, p) →
    n <= s_block_num s ∧ generation (s_active_finalizer_policy s) < generation p;
  pi_queue : StronglySorted queue_lt (s_proposed_finalizer_policies s);
  pi_queue_range : Forall (λ x, x.1 <= s_block_num s ∧
    generation (get_last_pending_finalizer_policy s) < generation x.2 <= s_finalizer_policy_generation s)
    (s_proposed_finalizer_policies s);
  pi_gen : generation (get_last_pending_finalizer_policy s) <= s_finalizer_policy_generation s }.

Definition fps_last_pending (st : finalizer_policy_state) : finalizer_policy :=
  match fps_pending st with Some (_, p) => p | None => fps_active st end.

(** How the active and the pending policy of a child relate to its parent's. *)
Inductive promotion (prev : block_header_state) (lib num : Z) (st : finalizer_policy_state) : Prop :=
| promotion_active n p : s_pending_finalizer_policy prev = Some (n, p) → n <= lib → fps_active st = p →
    (∀ m q, fps_pending st = Some (m, q) → m = num) → promotion prev lib num st
| promotion_none : s_pending_finalizer_policy prev = None → fps_active st = s_active_finalizer_policy prev →
    (∀ m q, fps_pending st = Some (m, q) → m = num) → promotion prev lib num st
| promotion_kept : fps_active st = s_active_finalizer_policy prev →
    fps_pending st = s_pending_finalizer_policy prev → promotion prev lib num st.

Lemma promotion_cases prev lib num ts : promotion prev lib num (promotion_spec prev lib num ts).
Proof.
  unfold promotion_spec. set (F := last _). set (R := reversible_part _ _).
  destruct (s_pending_finalizer_policy prev) as [[n p]|] eqn:Ep; cbn [kept_pending promoted_active].
  - destruct (Z.leb_spec n lib) as [Hle|Hgt].
    + apply (promotion_active _ _ _ _ n p); [done|done|by destruct F|]. by destruct F; intros ?? [= ->].
    + apply promotion_kept; destruct F; simpl; congruence.
  - apply promotion_none; [done|by destruct F|]. by destruct F; intros ?? [= ->].
Qed.

Record fps_inv (prev : block_header_state) (num : Z) (st : finalizer_policy_state) : Prop := {
  fi_active : generation (s_active_finalizer_policy prev) <= generation (fps_active st);
  fi_pending : ∀ n p, fps_pending st = Some (n, p) → n <= num ∧ generation (fps_active st) < generation p;
  fi_queue : StronglySorted queue_lt (fps_proposed st);
  fi_range : Forall (λ x, x.1 <= s_block_num prev ∧
    generation (fps_last_pending st) < generation x.2 <= s_finalizer_policy_generation prev) (fps_proposed st);
  fi_gen : generation (fps_last_pending st) <= s_finalizer_policy_generation prev }.

Lemma promotion_spec_inv prev lib num ts :
  policies_inv prev → s_block_num prev < num → fps_inv prev num (promotion_spec prev lib num ts).
Proof.
  intros [Hact Hpend Hq Hrange Hgen] Hnum. unfold promotion_spec.
  set (q := s_proposed_finalizer_policies prev) in *. rewrite Forall_forall in Hrange.
  set (act := promoted_active _ _ _). set (kept := kept_pending _ _).
  set (lp := get_last_pending_finalizer_policy prev) in *.
  assert (generation (s_active_finalizer_policy prev) <= generation act ∧
    (match kept with Some (n, p) => p | None => act end = lp ) ∧
    ∀ n p, kept = Some (n, p) → n <= num ∧ generation act < generation p) as (Ha & Hlp & Hk).
  { subst act kept lp. unfold get_last_pending_finalizer_policy.
    destruct (s_pending_finalizer_policy prev) as [[n p]|]; cbn [kept_pending promoted_active]; [|done].
    destruct (Hpend n p eq_refl). destruct (n <=? lib); (split; [lia|split; [done|]]); [done|].
    intros ?? [= <- <-]. lia. }
  assert (∀ x, x ∈ q → x.1 <= s_block_num prev ∧ generation lp < generation x.2 <= s_finalizer_policy_generation prev) as Hr by auto.
  assert (Forall (λ x, x.1 <= s_block_num prev ∧ generation lp < generation x.2 <= s_finalizer_policy_generation prev)
    (reversible_part lib q)) as Hrev.
  { apply Forall_forall. intros x [_ Hx]%list_elem_of_filter. auto. }
  destruct (last (final_part lib q)) as [t|] eqn:El.
  - destruct (target_before lib q t Hq El) as (Htq & _ & Hbefore). destruct (Hr t Htq) as [Ht1 Ht2].
    destruct kept as [[n p]|] eqn:Ekept.
    + split; cbn [fps_active fps_pending fps_proposed]; [done|done| | |unfold fps_last_pending; cbn [fps_pending]; rewrite Hlp; lia].
      * constructor; [by apply queue_filter|done].
      * unfold fps_last_pending; cbn [fps_pending]. rewrite Hlp. by constructor.
    + split; cbn [fps_active fps_pending fps_proposed fps_last_pending]; [done| |by apply queue_filter| |lia].
      * intros ?? [= <- <-]. split; [lia|]. rewrite Hlp. lia.
      * apply Forall_forall. intros x Hx. rewrite Forall_forall in Hrev, Hbefore.
        destruct (Hrev x Hx), (Hbefore x Hx). lia.
  - split; cbn [fps_active fps_pending fps_proposed]; [done|done|by apply queue_filter| |].
    + unfold fps_last_pending. cbn [fps_active fps_pending]. by rewrite Hlp.
    + unfold fps_last_pending. cbn [fps_active fps_pending]. rewrite Hlp. lia.
Qed.

End Promotion.

(** ** Branches of header states *)

Section Chain.
Context {codec : ExtensionCodec} {digests : Digests codec}.

(** The legacy block that becomes the Savanna genesis block has the number its
    header gives it, and its finalizer policy is the first one. *)
Definition genesis_state (s : block_header_state) : Prop :=
  ∃ id header features schedule exts,
    create_if_genesis_state id header features schedule exts = Ok s ∧
    num_from_id id = h_block_num header ∧ generation (s_active_finalizer_policy s) = 1.

(** The states of a branch with the references to them, newest first, and the
    block of the tree they stand for. *)
Inductive header_chain : list (block_header_state * block_ref) → block → Prop :=
| hc_genesis s r : genesis_state s → s_make_block_ref s = Ok r → header_chain [(s, r)] (Genesis r)
| hc_next p rp l B h exts features f_ext s r :
    header_chain ((p, rp) :: l) B → h_previous h = s_block_id p → s_block_num p < u32_max →
    finish_next p h exts features f_ext = Ok s → s_make_block_ref s = Ok r →
    header_chain ((s, r) :: (p, rp) :: l) (Child B r (fe_qc_claim f_ext)).

Lemma make_block_ref_inv s r : s_make_block_ref s = Ok r →
  block_id r = s_block_id s ∧ timestamp r = s_timestamp s ∧
  active_policy_generation r = generation (s_active_finalizer_policy s) ∧ pending_policy_generation r = pending_generation s.
Proof. intros H. unfold s_make_block_ref in H. inv_ok H. injection H as <-. done. Qed.

Record finished (p : block_header_state) (h : block_header) (claim : qc_claim_t) (s : block_header_state)
    (core : finality_core) (fps : finalizer_policy_state) : Prop := {
  fn_time : s_timestamp p < h_timestamp h;
  fn_ref : ∃ rp, s_make_block_ref p = Ok rp ∧ next (s_core p) rp claim = Ok core;
  fn_fps : evaluate_finalizer_policies_for_promotion p core (h_block_num h) (h_timestamp h) = Ok fps;
  fn_header : s_header s = h ∧ s_block_id s = calculate_id h ∧ s_core s = core;
  fn_policies : s_active_finalizer_policy s = fps_active fps ∧ s_pending_finalizer_policy s = fps_pending fps;
  fn_proposed :
    (s_proposed_finalizer_policies s = fps_proposed fps ∧
     s_finalizer_policy_generation s = s_finalizer_policy_generation p) ∨
    ∃ q, s_finalizer_policy_generation p < generation q ∧ s_finalizer_policy_generation s = generation q ∧
      s_proposed_finalizer_policies s = fps_proposed fps ++ [(h_block_num h, q)];
  fn_claim_policy : ∃ c g, latest_qc_claim core = Ok c ∧
    get_active_finalizer_policy_generation p (claim_block_num c) = Ok g ∧
    if g =? generation (fps_active fps)
    then s_latest_qc_claim_block_active_finalizer_policy s = None
    else ∃ r ps, get_block_reference core (claim_block_num c) = Ok r ∧ get_finalizer_policies p r = Ok ps ∧
      s_latest_qc_claim_block_active_finalizer_policy s = Some (active_finalizer_policy ps) }.

Lemma evaluate_proposer_time p ts x : evaluate_proposer_policies_for_promotion p ts = Ok x → s_timestamp p < ts.
Proof. intros H. unfold evaluate_proposer_policies_for_promotion in H. inv_ok H. by apply check_inv, Z.ltb_lt in Ha. Qed.

Lemma finish_next_inv p h exts features f_ext s : finish_next p h exts features f_ext = Ok s →
  ∃ core fps, finished p h (fe_qc_claim f_ext) s core fps.
Proof.
  intros H. unfold finish_next in H.
  apply bind_inv in H as (feat & _ & H). apply bind_inv in H as ([[ap pp] pe] & Hprop & H).
  apply evaluate_proposer_time in Hprop. apply bind_inv in H as (pp' & _ & H).
  apply bind_inv in H as (rp & Hrp & H). apply bind_inv in H as (core & Hcore & H).
  apply bind_inv in H as (fps & Hfps & H). apply bind_inv in H as ([gen proposed] & Hgen & H).
  apply bind_inv in H as (c & Hc & H). apply bind_inv in H as (g & Hg & H). apply bind_inv in H as (lq & Hlq & H).
  injection H as <-. exists core, fps. split; cbn; try done.
  - by exists rp.
  - destruct (new_finalizer_policy_diff f_ext) as [d|]; [right|left; by injection Hgen as <- <-].
    apply bind_inv in Hgen as (q & _ & Hgen). apply bind_inv in Hgen as ([] & Hlt & Hgen).
    apply check_inv, Z.ltb_lt in Hlt. injection Hgen as <- <-. by exists q.
  - exists c, g. split; [done|]. split; [done|].
    destruct (g =? generation (fps_active fps)); cbn in Hlq; [by injection Hlq as <-|].
    apply bind_inv in Hlq as (r & Hr & Hlq). apply bind_inv in Hlq as (ps & Hps & Hlq). injection Hlq as <-. by exists r, ps.
Qed.

(** How the policies of an ancestor (or of the block itself) relate to those of the block. *)
Record anc_ok (s : block_header_state) (B : block) (sA : block_header_state) (rA : block_ref) : Prop := {
  ao_active_gen : active_policy_generation rA = generation (s_active_finalizer_policy sA);
  ao_pending_gen : pending_policy_generation rA = pending_generation sA;
  ao_inv : policies_inv sA;
  ao_num : FinalityCore.block_num rA <= num B;
  ao_mono : generation (s_active_finalizer_policy sA) <= generation (s_active_finalizer_policy s);
  ao_pend : ∀ n P, s_pending_finalizer_policy s = Some (n, P) → n <= FinalityCore.block_num rA →
    s_active_finalizer_policy sA = s_active_finalizer_policy s ∧ s_pending_finalizer_policy sA = Some (n, P);
  ao_claim : claim_num B <= FinalityCore.block_num rA →
    (s_active_finalizer_policy sA = s_active_finalizer_policy s ∨
     generation (s_active_finalizer_policy sA) < generation (s_active_finalizer_policy s) ∧
     s_latest_qc_claim_block_active_finalizer_policy s = Some (s_active_finalizer_policy sA)) ∧
    (s_pending_finalizer_policy sA = None ∨
     snd <$> s_pending_finalizer_policy sA = Some (s_active_finalizer_policy s) ∨
     s_pending_finalizer_policy sA = s_pending_finalizer_policy s) }.

Record chain_ok (s : block_header_state) (r : block_ref) (l : list (block_header_state * block_ref)) (B : block) : Prop := {
  co_valid : valid B;
  co_core : core_of B = Ok (s_core s);
  co_ref : ref_of B = r;
  co_made : s_make_block_ref s = Ok r;
  co_num : s_block_num s = num B;
  co_entries : ∀ A, ancestor A B → ∃ sA, (sA, ref_of A) ∈ l;
  co_inv : policies_inv s;
  co_anc : ∀ sA rA, (sA, rA) ∈ (s, r) :: l → anc_ok s B sA rA;
  co_mono : ∀ sX rX sY rY, (sX, rX) ∈ (s, r) :: l → (sY, rY) ∈ (s, r) :: l →
    FinalityCore.block_num rX <= FinalityCore.block_num rY →
    generation (s_active_finalizer_policy sX) <= generation (s_active_finalizer_policy sY) }.

(** The state retrieves the policies of every block from the claimed one on. *)
Lemma policies_retrieved s r l B sA rA :
  chain_ok s r l B → (sA, rA) ∈ (s, r) :: l → claim_num B <= FinalityCore.block_num rA →
  get_finalizer_policies s rA =
    Ok (FinalizerPolicies (finality_digest rA) (s_active_finalizer_policy sA) (snd <$> s_pending_finalizer_policy sA)).
Proof.
  intros Hco Hin Hc. destruct (co_anc _ _ _ _ Hco _ _ Hin) as [Hag Hpg Hinv Hn Hmono Hpend Hclaim].
  destruct (Hclaim Hc) as [Ha Hp]. clear Hclaim Hpend. destruct (core_of_sim B (co_valid _ _ _ _ Hco)) as (c & f & Hcc & Hs).
  rewrite (co_core _ _ _ _ Hco) in Hcc. injection Hcc as <-. pose proof (sim_wf _ _ _ Hs) as Hwf.
  unfold get_finalizer_policies. rewrite (proj1 (negb_true_iff _) (wf_nonempty _ _ _ Hwf)).
  rewrite (latest_qc_claim_ok _ _ _ Hwf), (current_block_num_ok _ _ _ Hwf). cbn [own_link target_block_num source_block_num claim_block_num].
  rewrite !bind_ok. cbn [claim_block_num]. rewrite assert_bind by solve_test. rewrite Hag, Hpg.
  pose proof (pi_active _ Hinv) as H1. pose proof (co_inv _ _ _ _ Hco) as Hsinv. rewrite assert_bind by solve_test.
  assert (∀ n P, s_pending_finalizer_policy sA = Some (n, P) → 1 < generation P) as HgenP.
  { intros n P H. apply (pi_pending _ Hinv) in H. lia. }
  match goal with |- (?m ≫= _) = _ => assert (m = Ok (s_active_finalizer_policy sA)) as -> end.
  { destruct Ha as [->|[Hlt Hlq]]; [by rewrite Z.eqb_refl|]. rewrite (proj2 (Z.eqb_neq _ _)) by lia.
    rewrite assert_bind, Hlq; [by rewrite assert_bind by (by apply Z.eqb_eq)|].
    destruct (s_pending_finalizer_policy s) as [[n P]|] eqn:E; [|done].
    apply (pi_pending _ Hsinv) in E. apply Z.ltb_lt. lia. }
  rewrite bind_ok. unfold pending_generation.
  destruct (s_pending_finalizer_policy sA) as [[n P]|] eqn:EA; [|done]. specialize (HgenP n P eq_refl).
  rewrite (proj2 (Z.eqb_neq _ 0)) by lia. destruct Hp as [Hp|[Hp|Hp]]; [done|..].
  - injection Hp as ->. by rewrite Z.eqb_refl.
  - rewrite <- Hp. symmetry in Hp. apply (pi_pending _ Hsinv) in Hp. rewrite (proj2 (Z.eqb_neq _ _)) by lia.
    by rewrite assert_bind by (by apply Z.eqb_eq).
Qed.

Lemma claim_entry p rp l B n : chain_ok p rp l B → claim_num B <= n <= num B →
  ∃ sC A, (sC, ref_of A) ∈ (p, rp) :: l ∧ num A = n ∧ at_num B n = Some A ∧
    get_active_finalizer_policy_generation p n = Ok (generation (s_active_finalizer_policy sC)).
Proof.
  intros Hco Hn. pose proof (co_valid _ _ _ _ Hco) as Hv. pose proof (claim_num_le B Hv) as Hcl.
  pose proof (final_num_le_claim B Hv) as Hfc.
  destruct (at_num_exists B n Hv) as [A HA]; [lia|]. pose proof (at_num_some _ _ _ HA) as HnA.
  destruct (core_of_sim B Hv) as (c & f & Hcc & Hs). rewrite (co_core _ _ _ _ Hco) in Hcc. injection Hcc as <-.
  pose proof (sim_wf _ _ _ Hs) as Hwf. pose proof (sim_final _ _ _ Hs) as Hf.
  assert (∀ x, (if n =? s_block_num p then Ok (generation (s_active_finalizer_policy p))
                else r ← get_block_reference (s_core p) n; Ok (active_policy_generation r)) = Ok x →
    get_active_finalizer_policy_generation p n = Ok x) as Hget.
  { intros x Hx. unfold get_active_finalizer_policy_generation.
    rewrite (proj1 (negb_true_iff _) (wf_nonempty _ _ _ Hwf)), (last_final_block_num_ok _ _ _ Hwf), (current_block_num_ok _ _ _ Hwf).
    rewrite !bind_ok, assert_bind; [done|]. rewrite Hf. cbn [own_link source_block_num]. solve_test. }
  destruct (at_num_ancestor _ _ _ HA) as [->|Ha].
  - exists p, B. split; [rewrite (co_ref _ _ _ _ Hco); left|]. split; [done|]. split; [done|].
    apply Hget. by rewrite (co_num _ _ _ _ Hco), (proj2 (Z.eqb_eq _ _)) by lia.
  - destruct (co_entries _ _ _ _ Hco A Ha) as [sA HsA]. assert ((sA, ref_of A) ∈ (p, rp) :: l) as Hin by (by apply elem_of_cons; right).
    exists sA, A. split; [done|]. split; [done|]. split; [done|]. apply Hget.
    destruct (valid_ancestor _ _ Hv Ha) as (_ & Hlt & _). rewrite (co_num _ _ _ _ Hco), (proj2 (Z.eqb_neq _ _)) by lia.
    rewrite <- HnA, (core_reference B (s_core p) A Hv (co_core _ _ _ _ Hco) Ha) by lia. rewrite bind_ok.
    by rewrite (ao_active_gen _ _ _ _ (co_anc _ _ _ _ Hco _ _ Hin)).
Qed.

Section Step.
Context (p : block_header_state) (rp : block_ref) (l : list (block_header_state * block_ref)) (B : block).
Context (h : block_header) (claim : qc_claim_t) (s : block_header_state) (r : block_ref).
Context (core : finality_core) (fps : finalizer_policy_state).
Context (Hco : chain_ok p rp l B) (Hprev : h_previous h = s_block_id p) (Hmax : s_block_num p < u32_max).
Context (Hfin : finished p h claim s core fps) (Hr : s_make_block_ref s = Ok r).

Lemma child_num : FinalityCore.block_num r = num B + 1 ∧ h_block_num h = num B + 1.
Proof using Hco Hprev Hmax Hfin Hr.
  destruct (fn_header _ _ _ _ _ _ Hfin) as (_ & Hid & _). destruct (make_block_ref_inv _ _ Hr) as (Hidr & _).
  destruct (make_block_ref_inv _ _ (co_made _ _ _ _ Hco)) as (Hidp & _).
  assert (h_block_num h = num B + 1) as Hh.
  { unfold h_block_num. rewrite Hprev, <- Hidp. pose proof (co_ref _ _ _ _ Hco) as Href. subst rp. fold (FinalityCore.block_num (ref_of B)).
    fold (num B). pose proof (co_num _ _ _ _ Hco). pose proof (num_range B).
    apply u32_small. unfold is_u32, u32_max in *. lia. }
  split; [|done]. unfold FinalityCore.block_num. rewrite Hidr, Hid. unfold calculate_id. rewrite num_from_id_stored; [done|].
  apply u32_range.
Qed.

Lemma child_valid : valid (Child B r claim) ∧ core_of (Child B r claim) = Ok core ∧ s_block_num s = num (Child B r claim).
Proof using Hco Hprev Hmax Hfin Hr.
  destruct child_num as [Hn Hh]. pose proof (co_valid _ _ _ _ Hco) as Hv.
  destruct (core_of_sim B Hv) as (c & f & Hcc & Hs). rewrite (co_core _ _ _ _ Hco) in Hcc. injection Hcc as <-.
  pose proof (sim_wf _ _ _ Hs) as Hwf. destruct (fn_ref _ _ _ _ _ _ Hfin) as (rp' & Hrp & Hnext).
  assert (rp' = rp) as -> by (pose proof (co_made _ _ _ _ Hco); congruence).
  destruct (make_block_ref_inv _ _ Hr) as (_ & Htr & _).
  destruct (make_block_ref_inv _ _ (co_made _ _ _ _ Hco)) as (_ & Htp & _).
  destruct (fn_header _ _ _ _ _ _ Hfin) as (Hhd & _).
  assert (source_block_num (own_link B) < u32_max) as Hm by (cbn; by rewrite <- (co_num _ _ _ _ Hco)).
  destruct (next_returns_pre _ _ _ _ _ _ Hwf Hm Hnext) as (cur & latest & Hcur & Hlat & _ & _ & Hle & Hcl & _).
  rewrite (current_block_num_ok _ _ _ Hwf) in Hcur. injection Hcur as <-.
  rewrite (latest_qc_claim_ok _ _ _ Hwf) in Hlat. injection Hlat as <-.
  split_and!.
  - cbn [valid]. split_and!; try done. unfold time. rewrite (co_ref _ _ _ _ Hco), Htp, Htr.
    pose proof (fn_time _ _ _ _ _ _ Hfin). unfold s_timestamp at 2. by rewrite Hhd.
  - cbn [core_of]. by rewrite (co_core _ _ _ _ Hco), bind_ok, (co_ref _ _ _ _ Hco).
  - unfold s_block_num. rewrite Hhd, num_child. lia.
Qed.

(** The policies are evaluated with the final block of the child. *)
Lemma child_fps : fps = promotion_spec p (final_num (Child B r claim)) (h_block_num h) (h_timestamp h) ∧
  fps_inv p (h_block_num h) fps.
Proof using Hco Hprev Hmax Hfin Hr.
  destruct child_valid as (Hv & Hcore & _). destruct child_num as [_ Hh].
  destruct (core_of_sim _ Hv) as (c & f & Hcc & Hs). rewrite Hcore in Hcc. injection Hcc as <-.
  pose proof (fn_fps _ _ _ _ _ _ Hfin) as Hfps.
  rewrite (evaluate_finalizer_policies_ok p core (final_num (Child B r claim))) in Hfps.
  - injection Hfps as <-. split; [done|]. apply promotion_spec_inv; [apply Hco|]. rewrite (co_num _ _ _ _ Hco). lia.
  - apply (co_inv _ _ _ _ Hco).
  - rewrite (last_final_block_num_ok _ _ _ (sim_wf _ _ _ Hs)). by rewrite (sim_final _ _ _ Hs).
Qed.

Lemma child_policies_inv : policies_inv s.
Proof using Hco Hprev Hmax Hfin Hr.
  destruct child_fps as [_ [Fa Fp Fq Fr Fg]]. destruct (fn_policies _ _ _ _ _ _ Hfin) as [Ha Hp].
  destruct child_valid as (_ & _ & Hn). destruct child_num as [Hrn Hh]. rewrite num_child in Hn.
  pose proof (co_inv _ _ _ _ Hco) as Hinv. pose proof (co_num _ _ _ _ Hco) as Hpn.
  assert (get_last_pending_finalizer_policy s = fps_last_pending fps) as Hlp
    by (unfold get_last_pending_finalizer_policy, fps_last_pending; by rewrite Ha, Hp).
  split; rewrite ?Ha, ?Hp, ?Hlp.
  - pose proof (pi_active _ Hinv). lia.
  - intros n q Hq. destruct (Fp n q Hq). lia.
  - destruct (fn_proposed _ _ _ _ _ _ Hfin) as [[-> _]|(q & Hlt & _ & ->)]; [done|].
    apply StronglySorted_app_2; [|done|apply SSorted_cons; [apply SSorted_nil|constructor]].
    intros x y Hx ->%list_elem_of_singleton. rewrite Forall_forall in Fr. destruct (Fr x Hx) as [? ?].
    split; cbn; lia.
  - destruct (fn_proposed _ _ _ _ _ _ Hfin) as [[-> ->]|(q & Hlt & -> & ->)].
    + eapply Forall_impl; [exact Fr|]. cbn. intros x [? ?]. lia.
    + apply Forall_app. split; [|constructor; [cbn; lia|constructor]].
      eapply Forall_impl; [exact Fr|]. cbn. intros x [? ?]. lia.
  - destruct (fn_proposed _ _ _ _ _ _ Hfin) as [[_ ->]|(q & Hlt & -> & _)]; lia.
Qed.

Lemma child_entry sA rA : (sA, rA) ∈ (p, rp) :: l → FinalityCore.block_num rA <= num B.
Proof using Hco. intros Hin. apply (ao_num _ _ _ _ (co_anc _ _ _ _ Hco _ _ Hin)). Qed.

(** The policy kept for the claimed block of the child. *)
Lemma child_claim_policy : ∃ sC rC, (sC, rC) ∈ (p, rp) :: l ∧ FinalityCore.block_num rC = claim_block_num claim ∧
  claim_num B <= claim_block_num claim ∧
  (generation (s_active_finalizer_policy sC) ≠ generation (fps_active fps) →
   s_latest_qc_claim_block_active_finalizer_policy s = Some (s_active_finalizer_policy sC)).
Proof using Hco Hprev Hmax Hfin Hr.
  destruct child_valid as (Hv & Hcore & _). destruct (core_of_sim _ Hv) as (c & f & Hcc & Hs).
  rewrite Hcore in Hcc. injection Hcc as <-. pose proof (claim_num_parent _ _ _ Hv) as Hcp.
  pose proof Hv as (_ & _ & _ & Hle & _).
  destruct (sim_claimed _ _ _ _ _ Hv Hs) as (A & HA & _ & _ & Hclaim & Href). cbn [claimed] in HA.
  destruct (claim_entry p rp l B (claim_block_num claim) Hco) as (sC & A' & Hin & HnA & HA' & Hgen); [lia|].
  assert (A' = A) as -> by congruence. exists sC, (ref_of A). split_and!; [done..|]. intros Hne.
  destruct (fn_claim_policy _ _ _ _ _ _ Hfin) as (c & g & Hc & Hg & Hlq).
  rewrite Hclaim in Hc. injection Hc as <-. rewrite Hgen in Hg. injection Hg as <-.
  rewrite (proj2 (Z.eqb_neq _ _)) in Hlq by done. destruct Hlq as (r' & ps & Hr' & Hps & ->).
  rewrite Href in Hr'. injection Hr' as <-.
  rewrite (policies_retrieved p rp l B sC (ref_of A) Hco Hin) in Hps; [by injection Hps as <-|].
  fold (num A). lia.
Qed.

Lemma child_anc sA rA : (sA, rA) ∈ (p, rp) :: l → anc_ok s (Child B r claim) sA rA.
Proof using Hco Hprev Hmax Hfin Hr.
  intros Hin. destruct (co_anc _ _ _ _ Hco _ _ Hin) as [Hag Hpg Hinv Hn Hmono Hpend Hclaim].
  destruct child_fps as [Hspec [Fa _ _ _ _]]. destruct (fn_policies _ _ _ _ _ _ Hfin) as [Hsa Hsp].
  destruct child_num as [Hrn Hh]. destruct child_valid as (Hv & _ & _).
  pose proof (final_num_le_claim _ Hv) as Hfc. cbn [claim_num] in Hfc.
  pose proof (co_inv _ _ _ _ Hco) as Hpinv. destruct child_claim_policy as (sC & rC & HinC & HnC & Hcp & Hlq).
  pose proof (promotion_cases p (final_num (Child B r claim)) (h_block_num h) (h_timestamp h)) as Hcases.
  rewrite <- Hspec in Hcases. split; rewrite ?Hsa, ?Hsp; try done; [rewrite num_child; lia|lia|..].
  - intros n P HnP HleA. destruct Hcases as [n0 P0 _ _ _ Hnew|_ _ Hnew|Ha Hp].
    + apply Hnew in HnP. lia.
    + apply Hnew in HnP. lia.
    + rewrite Ha. rewrite Hp in HnP. by apply Hpend.
  - cbn [claim_num]. intros HleA. destruct Hcases as [n0 P0 Hpp Hlib Ha _|Hpp Ha _|Ha Hp].
    + destruct (pi_pending _ Hpinv _ _ Hpp) as [_ Hlt]. destruct (Hpend n0 P0 Hpp) as [HA1 HA2]; [lia|].
      destruct (ao_pend _ _ _ _ (co_anc _ _ _ _ Hco _ _ HinC) n0 P0 Hpp) as [HC1 _]; [lia|].
      split; [right|right; left; by rewrite HA2, Ha]. rewrite Ha, HA1 in *. split; [done|]. rewrite <- HC1.
      apply Hlq. rewrite HC1. lia.
    + destruct Hclaim as [HA1 HA2]; [lia|]. rewrite Ha. split; [|destruct HA2 as [?|[?|?]]; [by left|by right; left|left; congruence]].
      destruct HA1 as [?|[Hlt HlqA]]; [by left|right]. split; [done|].
      pose proof (co_mono _ _ _ _ Hco _ _ _ _ HinC Hin ltac:(lia)).
      destruct (ao_claim _ _ _ _ (co_anc _ _ _ _ Hco _ _ HinC)) as [[HC|[_ HC]] _]; [lia|rewrite HC in *; lia|].
      rewrite Hlq by (rewrite Ha; lia). congruence.
    + destruct Hclaim as [HA1 HA2]; [lia|]. rewrite Ha, Hp. split; [|done].
      destruct HA1 as [?|[Hlt HlqA]]; [by left|right]. split; [done|].
      pose proof (co_mono _ _ _ _ Hco _ _ _ _ HinC Hin ltac:(lia)).
      destruct (ao_claim _ _ _ _ (co_anc _ _ _ _ Hco _ _ HinC)) as [[HC|[_ HC]] _]; [lia|rewrite HC in *; lia|].
      rewrite Hlq by (rewrite Ha; lia). congruence.
Qed.

(** A state is related to itself. *)
Lemma anc_self B' : s_block_num s = num B' → FinalityCore.block_num r = num B' → policies_inv s → anc_ok s B' s r.
Proof using Hr.
  intros Hn Hrn Hinv. destruct (make_block_ref_inv _ _ Hr) as (_ & _ & Hag & Hpg).
  split; try done; [lia|]. intros _. split; [by left|]. right. by right.
Qed.

Lemma child_chain_ok : chain_ok s r ((p, rp) :: l) (Child B r claim).
Proof using Hco Hprev Hmax Hfin Hr.
  destruct child_valid as (Hv & Hcore & Hn). destruct child_num as [Hrn _].
  destruct (fn_header _ _ _ _ _ _ Hfin) as (_ & _ & Hsc). pose proof child_policies_inv as Hinv.
  assert (∀ sA rA, (sA, rA) ∈ (s, r) :: (p, rp) :: l → anc_ok s (Child B r claim) sA rA) as Hanc.
  { intros sA rA [[= -> ->]|Hin]%elem_of_cons; [|by apply child_anc]. by apply anc_self. }
  split; try done.
  - by rewrite Hsc.
  - cbn [ancestor]. intros A [->|HA].
    + exists p. rewrite (co_ref _ _ _ _ Hco). left.
    + destruct (co_entries _ _ _ _ Hco A HA) as [sA HsA]. exists sA. by apply elem_of_cons; right.
  - intros sX rX sY rY HX HY Hle. apply elem_of_cons in HY as [[= -> ->]|HY].
    + apply (ao_mono _ _ _ _ (Hanc _ _ HX)).
    + apply elem_of_cons in HX as [[= -> ->]|HX].
      * apply child_entry in HY. lia.
      * by apply (co_mono _ _ _ _ Hco sX rX sY rY).
Qed.

End Step.

Lemma genesis_chain_ok s r : genesis_state s → s_make_block_ref s = Ok r → chain_ok s r [] (Genesis r).
Proof.
  intros (id & header & features & schedule & exts & Hs & Hid & Hgen) Hr.
  unfold create_if_genesis_state in Hs. inv_ok Hs. inv_ok Hs. injection Hs as <-.
  destruct (make_block_ref_inv _ _ Hr) as (Hidr & Htr & _). cbn in Hidr, Htr, Hgen.
  match goal with |- chain_ok ?s0 _ _ _ => set (s := s0) in * end.
  assert (s_block_num s = num (Genesis r)) as Hn.
  { unfold s_block_num, num. cbn [s s_header ref_of]. unfold FinalityCore.block_num. by rewrite Hidr, Hid. }
  assert (policies_inv s) as Hinv.
  { split; cbn [s s_active_finalizer_policy s_pending_finalizer_policy s_proposed_finalizer_policies s_finalizer_policy_generation];
      [lia|done|constructor|constructor|unfold get_last_pending_finalizer_policy; cbn; lia]. }
  assert (anc_ok s (Genesis r) s r) as Hself by (by apply anc_self).
  split; try done.
  - cbn [core_of s s_core]. by rewrite Hidr, Htr.
  - by intros sA rA [= -> ->]%list_elem_of_singleton.
  - intros sX rX sY rY [= -> ->]%list_elem_of_singleton [= -> ->]%list_elem_of_singleton _. lia.
Qed.

Lemma header_chain_ok L B : header_chain L B → ∃ s r l, L = (s, r) :: l ∧ chain_ok s r l B.
Proof.
  induction 1 as [s r Hg Hr|p rp l B h exts features f_ext s r _ (p' & rp' & l' & Heq & Hco) Hprev Hmax Hfin Hr].
  - exists s, r, []. split; [done|]. by apply genesis_chain_ok.
  - injection Heq as <- <- <-. exists s, r, ((p, rp) :: l). split; [done|].
    destruct (finish_next_inv _ _ _ _ _ _ Hfin) as (core & fps & Hf). by eapply child_chain_ok.
Qed.

(** ** Progress *)

Lemma make_block_ref_total s B : valid B → core_of B = Ok (s_core s) → ∃ r, s_make_block_ref s = Ok r.
Proof.
  intros Hv Hc. destruct (core_of_sim B Hv) as (c & f & Hcc & Hs). rewrite Hc in Hcc. injection Hcc as <-.
  pose proof (sim_wf _ _ _ Hs) as Hwf. unfold s_make_block_ref, compute_finality_digest.
  rewrite (latest_qc_claim_ok _ _ _ Hwf), bind_ok. cbn [own_link target_block_num claim_block_num].
  assert (∃ b, (if is_genesis_core (s_core s) then Ok empty_block_ref else get_block_reference (s_core s) (claim_num B)) = Ok b)
    as [b ->].
  { unfold is_genesis_core. destruct (is_empty (refs (s_core s))) eqn:E; [by eexists|].
    pose proof (wf_order _ _ _ Hwf) as Ho. pose proof (wf_refs_length _ _ _ Hwf) as Hlen. pose proof (claim_num_le B Hv).
    destruct (get_block_reference_ok _ _ _ Hwf (claim_num B)) as (b & Hb & _); [|by exists b].
    cbn [own_link target_block_num source_block_num] in *. split; [lia|]. destruct B as [r0|p0 r0 cl].
    - rewrite (sim_refs _ _ _ Hs) in E. cbn [anc_refs] in E. by rewrite drop_nil in E.
    - destruct Hv as (_ & Hn & _ & Hle & _). cbn [claim_num]. rewrite num_child. lia. }
  rewrite bind_ok. assert (∃ m, get_reversible_blocks_mroot hash_bytes (s_core s) = Ok m) as [m ->].
  { unfold get_reversible_blocks_mroot. pose proof (wf_refs_length _ _ _ Hwf) as Hlen. pose proof (wf_u32 _ _ _ Hwf) as Hu.
    pose proof (num_range B) as Hnr. cbn [own_link source_block_num] in Hlen. unfold is_u32 in *.
    pose proof (sim_root _ _ _ Hs). pose proof (num_range (root B)).
    destruct (refs (s_core s)) as [|r0 [|r1 rs]]; [by eexists..|]. apply calculate_merkle_total.
    assert (∀ rs r, length (block_ref_digests hash_bytes r rs) = length rs) as Hd
      by (induction rs0; intros; simpl; [done|by f_equal]).
    rewrite Hd. change (2 ^ 63) with 9223372036854775808. unfold is_u32 in *. simpl in *. lia. }
  rewrite bind_ok. by eexists.
Qed.

Lemma evaluate_proposer_total p B ts : valid B → core_of B = Ok (s_core p) → s_timestamp p < ts →
  ∃ x, evaluate_proposer_policies_for_promotion p ts = Ok x.
Proof.
  intros Hv Hc Ht. unfold evaluate_proposer_policies_for_promotion, get_active_proposer_policy_for_block_at, first_block_of_round.
  rewrite (final_timestamp B _ Hv Hc), assert_bind, check_bind, assert_bind by solve_test.
  destruct (in_same_round ts (s_timestamp p)); [rewrite !bind_ok; repeat case_match; by eexists|].
  repeat (case_match || rewrite bind_ok || cbn [bind]); simplify_eq; by eexists.
Qed.

(** What a child has to satisfy, apart from the policies kept in its parent. *)
Record child_pre (p : block_header_state) (B : block) (h : block_header) (features : list sha256) (f_ext : finality_extension)
    : Prop := {
  cp_previous : h_previous h = s_block_id p;
  cp_max : s_block_num p < u32_max;
  cp_time : s_timestamp p < h_timestamp h;
  cp_claim : claim_block_num (fe_qc_claim f_ext) <= num B;
  cp_claim_le : qc_claim_le (QcClaim (claim_num B) (claim_strong B)) (fe_qc_claim f_ext) = true;
  cp_features : features = [] ∨
    ∃ fs, protocol_feature_activation_set (s_activated_protocol_features p) features = Ok fs;
  cp_proposer : ∀ d, new_proposer_policy_diff f_ext = Some d →
    ∃ q, proposer_apply_diff (get_last_proposed_proposer_policy p) d = Ok q;
  cp_finalizer : ∀ d, new_finalizer_policy_diff f_ext = Some d →
    ∃ q, policy_apply_diff (get_last_proposed_finalizer_policy p) d = Ok q ∧ s_finalizer_policy_generation p < generation q }.

(** A reference with the number and time of the child, for facts that do not depend on the rest. *)
Definition stub_ref (n ts : Z) : block_ref := BlockRef (store_block_num sha256_zero n) ts sha256_zero 0 0.

Lemma child_core p rp l B h features f_ext : chain_ok p rp l B → child_pre p B h features f_ext →
  let C := Child B (stub_ref (num B + 1) (h_timestamp h)) (fe_qc_claim f_ext) in
  ∃ core, valid C ∧ next (s_core p) rp (fe_qc_claim f_ext) = Ok core ∧ core_of C = Ok core.
Proof.
  intros Hco Hpre C. pose proof (co_valid _ _ _ _ Hco) as HvB. pose proof (num_range B) as Hnr.
  pose proof (cp_max _ _ _ _ _ Hpre) as Hmax. rewrite (co_num _ _ _ _ Hco) in Hmax.
  destruct (make_block_ref_inv _ _ (co_made _ _ _ _ Hco)) as (_ & Htp & _).
  assert (valid C) as Hv.
  { subst C. cbn [valid]. split_and!; [done| | |apply Hpre..].
    - unfold FinalityCore.block_num, stub_ref. cbn [block_id]. apply num_from_id_stored. unfold is_u32, u32_max in *. lia.
    - unfold time. rewrite (co_ref _ _ _ _ Hco), Htp. apply (cp_time _ _ _ _ _ Hpre). }
  destruct (core_of_sim C Hv) as (core & f & Hcore & _). exists core. split; [done|]. split; [|done].
  subst C. cbn [core_of] in Hcore. by rewrite (co_core _ _ _ _ Hco), bind_ok, (co_ref _ _ _ _ Hco) in Hcore.
Qed.

Lemma finish_next_total p rp l B h exts features f_ext : chain_ok p rp l B → child_pre p B h features f_ext →
  ∃ s, finish_next p h exts features f_ext = Ok s.
Proof.
  intros Hco Hpre. destruct (child_core _ _ _ _ _ _ _ Hco Hpre) as (core & Hv & Hnext & Hcore).
  destruct (core_of_sim _ Hv) as (c & f & Hcc & Hs). rewrite Hcore in Hcc. injection Hcc as <-.
  destruct (sim_claimed _ _ _ _ _ Hv Hs) as (A & HA & _ & _ & Hclaim & Href). cbn [claimed] in HA.
  destruct (evaluate_proposer_total p B (h_timestamp h) (co_valid _ _ _ _ Hco) (co_core _ _ _ _ Hco)
    (cp_time _ _ _ _ _ Hpre)) as ([[ap pp] pe] & Hprop).
  pose proof (evaluate_finalizer_policies_ok p core _ (h_block_num h) (h_timestamp h) (pi_queue _ (co_inv _ _ _ _ Hco))
    (last_final_block_num_ok _ _ _ (sim_wf _ _ _ Hs))) as Hfps.
  pose proof (claim_num_parent _ _ _ Hv) as Hcp.
  destruct (claim_entry p rp l B (claim_block_num (fe_qc_claim f_ext)) Hco) as (sC & A' & Hin & HnA & HA' & Hgen).
  { pose proof (cp_claim _ _ _ _ _ Hpre). lia. }
  assert (A' = A) as -> by congruence.
  pose proof (policies_retrieved p rp l B sC (ref_of A) Hco Hin ltac:(fold (num A); lia)) as Hret.
  unfold finish_next. assert (∃ fs, (if bool_decide (features ≠ [])
    then protocol_feature_activation_set (s_activated_protocol_features p) features
    else Ok (s_activated_protocol_features p)) = Ok fs) as [fs ->].
  { destruct (cp_features _ _ _ _ _ Hpre) as [->|[fs ->]]; [by eexists|]. case_bool_decide; by eexists. }
  rewrite bind_ok, Hprop, bind_ok. cbv zeta beta iota.
  assert (∃ q, match new_proposer_policy_diff f_ext with
    | Some d => p0 ← proposer_apply_diff (get_last_proposed_proposer_policy p) d; Ok (Some p0)
    | None => Ok pp end = Ok q) as [q ->].
  { destruct (new_proposer_policy_diff f_ext) as [d|] eqn:Ed; [|by eexists].
    destruct (cp_proposer _ _ _ _ _ Hpre d Ed) as [q ->]. by eexists. }
  rewrite bind_ok, (co_made _ _ _ _ Hco), bind_ok, Hnext, bind_ok, Hfps, bind_ok. cbv zeta.
  set (fps := promotion_spec _ _ _ _).
  match goal with |- ∃ s, (?m ≫= _) = Ok s => assert (∃ gp, m = Ok gp) as [[gen proposed] ->] end.
  { destruct (new_finalizer_policy_diff f_ext) as [d|] eqn:Ed; [|by eexists].
    destruct (cp_finalizer _ _ _ _ _ Hpre d Ed) as (q' & -> & Hlt). rewrite bind_ok, check_bind by solve_test. by eexists. }
  rewrite bind_ok, Hclaim, bind_ok, Hgen, bind_ok. cbv beta iota.
  destruct (generation _ =? generation _); cbn [negb]; [by eexists|].
  rewrite Href, bind_ok, Hret. by eexists.
Qed.

(** The policy of a child, and where it comes from. *)
Lemma proposer_for_block p ts lf : last_final_block_timestamp (s_core p) = Ok lf → s_timestamp p < ts →
  ∃ slot a, get_active_proposer_policy_for_block_at p ts = Ok (slot, a) ∧
    match slot with
    | active_slot => a = s_active_proposer_policy p
    | proposed_slot => in_same_round ts (s_timestamp p) = false ∧ s_latest_proposed_proposer_policy p = Some a ∧ proposal_time a <= lf
    | pending_slot => in_same_round ts (s_timestamp p) = false ∧ s_latest_pending_proposer_policy p = Some a ∧ proposal_time a <= lf
    end.
Proof.
  intros Hlf Hlt. unfold get_active_proposer_policy_for_block_at. rewrite check_bind by solve_test. cbv zeta.
  assert (∃ slot a, Ok (active_slot, s_active_proposer_policy p) = Ok (slot, a) ∧
    match slot with active_slot => a = s_active_proposer_policy p | _ => False end) as Hact by (eexists _, _; done).
  destruct (in_same_round ts (s_timestamp p)); [by eexists _, _|]. rewrite Hlf.
  assert (∀ pe, s_latest_pending_proposer_policy p = Some pe →
    ∃ slot a, (lf0 ← Ok lf; if proposal_time pe <=? lf0 then Ok (pending_slot, pe) else Ok (active_slot, s_active_proposer_policy p)) =
      Ok (slot, a) ∧
    match slot with
    | active_slot => a = s_active_proposer_policy p
    | proposed_slot => false = false ∧ s_latest_proposed_proposer_policy p = Some a ∧ proposal_time a <= lf
    | pending_slot => false = false ∧ s_latest_pending_proposer_policy p = Some a ∧ proposal_time a <= lf
    end) as Hpend.
  { intros pe Hpe. rewrite bind_ok. destruct (Z.leb_spec (proposal_time pe) lf); eexists _, _; (split; [done|]); done. }
  destruct (s_latest_proposed_proposer_policy p) as [pp|] eqn:Ep.
  - assert (∃ o, match get_prior_round_start_slot (s_timestamp p) with
      | Some start => if proposal_time pp <? start then lf0 ← Ok lf; Ok (if proposal_time pp <=? lf0 then Some (proposed_slot, pp) else None) else Ok None
      | None => Ok None end = Ok o ∧ (o = None ∨ o = Some (proposed_slot, pp) ∧ proposal_time pp <= lf)) as (o & -> & Ho).
    { destruct (get_prior_round_start_slot _) as [start|]; [|by eexists; split; [|left]].
      destruct (proposal_time pp <? start); [|by eexists; split; [|left]]. rewrite bind_ok.
      destruct (Z.leb_spec (proposal_time pp) lf); eexists; (split; [done|]); [right|left]; done. }
    rewrite bind_ok. destruct Ho as [->|[-> Hle]]; [|eexists _, _; split; [done|]; done].
    destruct (s_latest_pending_proposer_policy p) as [pe|]; [by apply Hpend|by eexists _, _].
  - destruct (s_latest_pending_proposer_policy p) as [pe|]; [|by eexists _, _].
    rewrite bind_ok; by apply Hpend.
Qed.

(** * Theorems *)

(** C15: the header states of a branch refine the block tree: the block is valid, the
    core of the state is the core of the block, so that its final block is the one
    of the finality rule, and the numbers agree; and a child that satisfies what a
    block has to satisfy is always built: no assertion on the core or on the
    policies kept in the parent fails. *)
Theorem header_states_refine_block_tree p rp l B :
  header_chain ((p, rp) :: l) B →
  valid B ∧ core_of B = Ok (s_core p) ∧ last_final_block_num (s_core p) = Ok (final_num B) ∧ s_block_num p = num B ∧
  ∀ h exts features f_ext, child_pre p B h features f_ext →
    ∃ s r, finish_next p h exts features f_ext = Ok s ∧
      header_chain ((s, r) :: (p, rp) :: l) (Child B r (fe_qc_claim f_ext)).
Proof.
  intros Hch. destruct (header_chain_ok _ _ Hch) as (p' & rp' & l' & [= <- <- <-] & Hco).
  pose proof (co_valid _ _ _ _ Hco) as Hv. pose proof (co_core _ _ _ _ Hco) as Hc.
  destruct (core_of_sim B Hv) as (c & f & Hcc & Hs). rewrite Hc in Hcc. injection Hcc as <-.
  split; [done|]. split; [done|]. split.
  { by rewrite (last_final_block_num_ok _ _ _ (sim_wf _ _ _ Hs)), (sim_final _ _ _ Hs). }
  split; [apply Hco|]. intros h exts features f_ext Hpre.
  destruct (finish_next_total p rp l B h exts features f_ext Hco Hpre) as [s Hs'].
  destruct (child_core _ _ _ _ _ _ _ Hco Hpre) as (core & HvC & Hnext & HcoreC).
  destruct (finish_next_inv _ _ _ _ _ _ Hs') as (core' & fps & Hfin).
  destruct (fn_ref _ _ _ _ _ _ Hfin) as (rp' & Hrp & Hnext'). destruct (fn_header _ _ _ _ _ _ Hfin) as (_ & _ & Hsc).
  assert (rp' = rp) as -> by (pose proof (co_made _ _ _ _ Hco); congruence). assert (core' = core) as -> by congruence.
  destruct (make_block_ref_total s _ HvC) as [r Hr]; [by rewrite Hsc|].
  exists s, r. split; [done|]. eapply hc_next; [done|apply Hpre..|done|done].
Qed.

(** A state retrieves, for itself and every ancestor from the block of its
    latest QC claim on, exactly the finalizer policies that were active and pending
    at that block, without tripping an assertion. *)
Theorem policies_of_ancestors_retrieved s r l B sA rA :
  header_chain ((s, r) :: l) B → (sA, rA) ∈ (s, r) :: l → claim_num B <= FinalityCore.block_num rA →
  get_finalizer_policies s rA =
    Ok (FinalizerPolicies (finality_digest rA) (s_active_finalizer_policy sA) (snd <$> s_pending_finalizer_policy sA)).
Proof.
  intros Hch. destruct (header_chain_ok _ _ Hch) as (s' & r' & l' & [= <- <- <-] & Hco). by apply policies_retrieved.
Qed.

(** On every state of a branch the generations of the active, pending and
    proposed policies increase, the queue is in the order of the blocks, and the
    evaluation of the policies for a child with final block [lib] is the documented
    rule: the pending policy becomes active when its block is final, and the last
    proposed policy whose block is final becomes pending if the slot is open. *)
Theorem finalizer_policy_promotion p rp l B core lib num ts :
  header_chain ((p, rp) :: l) B → last_final_block_num core = Ok lib → s_block_num p < num →
  policies_inv p ∧
  evaluate_finalizer_policies_for_promotion p core num ts = Ok (promotion_spec p lib num ts) ∧
  fps_inv p num (promotion_spec p lib num ts).
Proof.
  intros Hch Hlib Hnum. destruct (header_chain_ok _ _ Hch) as (s' & r' & l' & [= <- <- <-] & Hco).
  pose proof (co_inv _ _ _ _ Hco) as Hinv. split; [done|]. split; [|by apply promotion_spec_inv].
  apply evaluate_finalizer_policies_ok; [apply Hinv|done].
Qed.

(** The proposer policy changes at most at the first block of a round, to a
    policy of the parent that was proposed in a block not later than its last final
    block; the latest proposed policy becomes pending there if none is. *)
Theorem proposer_policy_promotion p rp l B ts :
  header_chain ((p, rp) :: l) B → slot_ok (s_timestamp p) → is_u32 ts → s_timestamp p < ts →
  ∃ a proposed pending, evaluate_proposer_policies_for_promotion p ts = Ok (a, proposed, pending) ∧
    (round_of ts = round_of (s_timestamp p) →
       a = s_active_proposer_policy p ∧ proposed = s_latest_proposed_proposer_policy p ∧
       pending = s_latest_pending_proposer_policy p) ∧
    (round_of ts ≠ round_of (s_timestamp p) → proposed = None ∨ pending ≠ None) ∧
    (a = s_active_proposer_policy p ∨
     proposal_time a <= final_time B ∧
     (s_latest_proposed_proposer_policy p = Some a ∧ proposed = None ∧ pending = None ∨
      s_latest_pending_proposer_policy p = Some a)).
Proof.
  intros Hch Hok Hts Hlt. destruct (header_chain_ok _ _ Hch) as (p' & rp' & l' & [= <- <- <-] & Hco).
  pose proof (final_timestamp B _ (co_valid _ _ _ _ Hco) (co_core _ _ _ _ Hco)) as Hlf.
  unfold evaluate_proposer_policies_for_promotion. rewrite assert_bind by solve_test.
  rewrite first_block_of_round_spec by done.
  destruct (proposer_for_block p ts (final_time B) Hlf Hlt) as (slot & a & -> & Hslot).
  rewrite in_same_round_spec in * by (done || lia). rewrite bind_ok. cbv beta iota.
  destruct (bool_decide (round_of ts = round_of (s_timestamp p))) eqn:Er; breflect.
  - destruct slot; [|by destruct Hslot..]. subst a. rewrite bind_ok. cbn [negb].
    eexists _, _, _. split; [done|]. split; [done|]. split; [done|]. by left.
  - destruct slot.
    + subst a. rewrite bind_ok. cbn [negb].
      destruct (s_latest_proposed_proposer_policy p), (s_latest_pending_proposer_policy p);
        eexists _, _, _; (split; [done|]); (split; [done|]); (split; [|by left]); intros _; (by left) || by right.
    + destruct Hslot as (_ & Hpp & Hle). rewrite bind_ok. cbn [negb].
      eexists _, _, _. split; [done|]. split; [done|]. split; [by left|]. right. split; [done|]. by left.
    + destruct Hslot as (_ & Hpe & Hle). rewrite bind_ok. cbn [negb].
      destruct (s_latest_proposed_proposer_policy p);
        eexists _, _, _; (split; [done|]); (split; [done|]); (split; [intros _; (by left) || by right|]); right; (split; [done|]); by right.
Qed.

End Chain.

(** ** Assembling and validating *)

Section Assemble.
Context {codec : ExtensionCodec} {digests : Digests codec} {laws : ExtensionCodecLaws codec}.
Context (validator : Z → gset sha256 → list sha256 → result unit).

(** The policies [finish_next] records are those the differences of the extension give. *)
Lemma finish_next_policies p h exts features f_ext s : finish_next p h exts features f_ext = Ok s →
  s_header s = h ∧
  (∀ d, new_finalizer_policy_diff f_ext = Some d → ∃ q,
     policy_apply_diff (get_last_proposed_finalizer_policy p) d = Ok q ∧
     last (s_proposed_finalizer_policies s) = Some (h_block_num h, q)) ∧
  (∀ d, new_proposer_policy_diff f_ext = Some d → ∃ q,
     proposer_apply_diff (get_last_proposed_proposer_policy p) d = Ok q ∧ s_latest_proposed_proposer_policy s = Some q).
Proof.
  intros H. unfold finish_next in H.
  apply bind_inv in H as (feat & _ & H). apply bind_inv in H as ([[ap pp] pe] & _ & H).
  apply bind_inv in H as (pp' & Hpp & H). apply bind_inv in H as (rp & _ & H). apply bind_inv in H as (core & _ & H).
  apply bind_inv in H as (fps & _ & H). apply bind_inv in H as ([gen proposed] & Hgen & H).
  apply bind_inv in H as (c & _ & H). apply bind_inv in H as (g & _ & H). apply bind_inv in H as (lq & _ & H).
  injection H as <-. cbn. split; [done|]. split; intros d Hd.
  - rewrite Hd in Hgen. apply bind_inv in Hgen as (q & Hq & Hgen). apply bind_inv in Hgen as ([] & _ & Hgen).
    injection Hgen as <- <-. exists q. split; [done|]. apply last_snoc.
  - rewrite Hd in Hpp. apply bind_inv in Hpp as (q & Hq & Hpp). injection Hpp as <-. by exists q.
Qed.

Lemma finish_next_fields p h exts features f_ext s : finish_next p h exts features f_ext = Ok s →
  s_header_exts s = exts ∧ s_header s = h ∧ s_block_id s = calculate_id h.
Proof.
  intros H. unfold finish_next in H.
  apply bind_inv in H as (feat & _ & H). apply bind_inv in H as ([[ap pp] pe] & _ & H).
  apply bind_inv in H as (pp' & _ & H). apply bind_inv in H as (rp & _ & H). apply bind_inv in H as (core & _ & H).
  apply bind_inv in H as (fps & _ & H). apply bind_inv in H as ([gen proposed] & _ & H).
  apply bind_inv in H as (c & _ & H). apply bind_inv in H as (g & _ & H). apply bind_inv in H as (lq & _ & H).
  by injection H as <-.
Qed.

Lemma finish_next_exts p h exts features f_ext s : finish_next p h exts features f_ext = Ok s → s_header_exts s = exts ∧ s_header s = h.
Proof. intros H. apply finish_next_fields in H. naive_solver. Qed.

Lemma finish_next_id p h exts features f_ext s : finish_next p h exts features f_ext = Ok s → s_block_id s = calculate_id h.
Proof. intros H. apply finish_next_fields in H. naive_solver. Qed.

(** What the header a producer assembles looks like when it is received. *)
Lemma next_from_input_inv s input s' :
  next_from_input s input = Ok s' → NoDup (in_new_protocol_feature_activations input) →
  ∃ fd pd exts, let f := FinalityExtension (in_most_recent_ancestor_with_qc input) fd pd in
    finish_next s (s_header s') exts (in_new_protocol_feature_activations input) f = Ok s' ∧
    validate_and_extract_header_extensions (s_header s') = Ok exts ∧
    find_extension 2 exts = Some (finality_extension_ext f) ∧
    find_extension 0 exts = (if bool_decide (in_new_protocol_feature_activations input = []) then None
      else Some (protocol_feature_activation (in_new_protocol_feature_activations input))) ∧
    h_timestamp (s_header s') = in_timestamp input ∧ h_previous (s_header s') = in_parent_id input ∧
    h_producer (s_header s') = in_producer input ∧ h_new_producers (s_header s') = None ∧
    h_action_mroot (s_header s') = in_finality_mroot_claim input ∧ is_proper_svnn_block (s_header s') = true ∧
    (∀ P, in_new_finalizer_policy input = Some P →
       ∃ d, fd = Some d ∧ policy_apply_diff (get_last_proposed_finalizer_policy s) d = Ok P) ∧
    (∀ P, in_new_proposer_policy input = Some P →
       ∃ d, pd = Some d ∧ proposer_apply_diff (get_last_proposed_proposer_policy s) d = Ok P).
Proof.
  intros H Hnd. unfold next_from_input in H. apply bind_inv in H as (fd & Hfd & H). apply bind_inv in H as (pd & Hpd & H).
  assert (∀ P, in_new_finalizer_policy input = Some P →
    ∃ d, fd = Some d ∧ policy_apply_diff (get_last_proposed_finalizer_policy s) d = Ok P) as Hfin.
  { intros P HP. rewrite HP in Hfd. apply bind_inv in Hfd as (d & Hd & Hfd). injection Hfd as <-.
    exists d. split; [done|]. by apply create_diff_apply. }
  assert (∀ P, in_new_proposer_policy input = Some P →
    ∃ d, pd = Some d ∧ proposer_apply_diff (get_last_proposed_proposer_policy s) d = Ok P) as Hprop.
  { intros P HP. rewrite HP in Hpd. apply bind_inv in Hpd as (d & Hd & Hpd). injection Hpd as <-.
    exists d. split; [done|]. by apply proposer_create_diff_apply. }
  clear Hfd Hpd. cbv zeta in H. destruct (in_new_protocol_feature_activations input) as [|f0 fs] eqn:Ef.
  - rewrite bool_decide_eq_false_2 in H by auto. cbn [emplace_extension] in H.
    destruct (finish_next_policies _ _ _ _ _ _ H) as (Hh & _). rewrite Hh.
    eexists fd, pd, _. split; [exact H|]. split; [|by rewrite bool_decide_eq_true_2].
    unfold validate_and_extract_header_extensions, extract. cbn. rewrite unpack_pack_finality. done.
  - rewrite bool_decide_eq_true_2 in H by done. cbn [emplace_extension] in H.
    destruct (finish_next_policies _ _ _ _ _ _ H) as (Hh & _). rewrite Hh.
    eexists fd, pd, _. split; [exact H|]. split; [|by rewrite bool_decide_eq_false_2].
    unfold validate_and_extract_header_extensions. cbn. unfold extract. cbn.
    rewrite unpack_pack_features, unpack_pack_finality. unfold features_reflector_init.
    rewrite (bool_decide_eq_true_2 (f0 :: fs ≠ [])), (bool_decide_eq_true_2 (NoDup _)) by done. done.
Qed.

(** A header assembled on a state is accepted on it. *)
Lemma own_header_ok s input s' producer m genesis :
  next_from_input s input = Ok s' →
  in_parent_id input = s_block_id s →
  get_producer_for_block_at s (in_timestamp input) = Ok producer → producer_name producer = in_producer input →
  NoDup (in_new_protocol_feature_activations input) →
  (in_new_protocol_feature_activations input ≠ [] →
   validator (s_timestamp s) (s_activated_protocol_features s) (in_new_protocol_feature_activations input) = Ok tt) →
  next_metadata (s_core s) (in_most_recent_ancestor_with_qc input) = Ok m →
  is_genesis_block_num (s_core s) (md_latest_qc_claim_block_num m) = Ok genesis →
  sha256_empty (in_finality_mroot_claim input) = genesis →
  next_from_header validator s (s_header s') = Ok s' ∧
  (∀ P, in_new_finalizer_policy input = Some P → last (s_proposed_finalizer_policies s') = Some (s_block_num s', P)) ∧
  (∀ P, in_new_proposer_policy input = Some P → s_latest_proposed_proposer_policy s' = Some P).
Proof.
  intros H Hparent Hprod Hname Hnd Hval Hm Hg Hempty.
  destruct (next_from_input_inv _ _ _ H Hnd)
    as (fd & pd & exts & Hf & Hexts & H2 & H0 & Hts & Hprev & Hpn & Hnp & Hmr & Hsv & Hfin & Hprop). split.
  - unfold next_from_header. rewrite Hts, Hprod, bind_ok, Hprev, Hpn, Hnp.
    rewrite check_bind by (by apply bool_decide_eq_true_2). rewrite check_bind by (by apply Z.eqb_eq).
    rewrite check_bind by (by apply bool_decide_eq_true_2).
    rewrite Hexts, bind_ok, H0, H2, Hsv. case_bool_decide as Hnil.
    + rewrite Hnil in Hf. rewrite !bind_ok. cbn [fe_qc_claim]. rewrite Hm, bind_ok, Hg, bind_ok, Hmr, Hempty, eqb_reflx.
      exact Hf.
    + rewrite (Hval Hnil), !bind_ok. cbn [fe_qc_claim]. rewrite Hm, bind_ok, Hg, bind_ok, Hmr, Hempty, eqb_reflx. exact Hf.
  - destruct (finish_next_policies _ _ _ _ _ _ Hf) as (_ & Hfp & Hpp). split; intros P HP.
    + destruct (Hfin P HP) as (d & -> & Hd). destruct (Hfp d eq_refl) as (q & Hq & Hlast). cbn in Hd, Hq. assert (q = P) as <- by congruence. exact Hlast.
    + destruct (Hprop P HP) as (d & -> & Hd). destruct (Hpp d eq_refl) as (q & Hq & Hlast). cbn in Hd, Hq. assert (q = P) as <- by congruence. exact Hlast.
Qed.

(** The header a producer assembles on a state is accepted by every node with
    that state, which computes the same next state from it, and the policies
    proposed in that state are those of the input: extensions and policy
    differences are written and read back without loss. *)
Theorem own_header_accepted s input s' producer m genesis :
  next_from_input s input = Ok s' →
  in_parent_id input = s_block_id s →
  get_producer_for_block_at s (in_timestamp input) = Ok producer → producer_name producer = in_producer input →
  NoDup (in_new_protocol_feature_activations input) →
  (in_new_protocol_feature_activations input ≠ [] →
   validator (s_timestamp s) (s_activated_protocol_features s) (in_new_protocol_feature_activations input) = Ok tt) →
  next_metadata (s_core s) (in_most_recent_ancestor_with_qc input) = Ok m →
  is_genesis_block_num (s_core s) (md_latest_qc_claim_block_num m) = Ok genesis →
  sha256_empty (in_finality_mroot_claim input) = genesis →
  next_from_header validator s (s_header s') = Ok s' ∧
  (∀ P, in_new_finalizer_policy input = Some P → last (s_proposed_finalizer_policies s') = Some (s_block_num s', P)) ∧
  (∀ P, in_new_proposer_policy input = Some P → s_latest_proposed_proposer_policy s' = Some P).
Proof. apply own_header_ok. Qed.

End Assemble.

(** A branch of four blocks, assembled from inputs. The second block proposes a
    finalizer policy and a proposer policy; each later block carries a strong
    certificate on its parent, and the fourth makes the second final. *)
Module HeaderExample.
Definition codec : ExtensionCodec := {|
  ext_data := block_header_extension;
  pack_features := protocol_feature_activation;
  unpack_features := λ e, match e with protocol_feature_activation fs => Some fs | _ => None end;
  unpack_schedule := λ e, match e with producer_schedule_change_extension s => Some s | _ => None end;
  pack_finality := finality_extension_ext;
  unpack_finality := λ e, match e with finality_extension_ext f => Some f | _ => None end |}.

#[local] Instance laws : ExtensionCodecLaws codec.
Proof. split; done. Qed.

Definition digests : Digests codec := {|
  hash_bytes := toy_hash;
  pack_header := λ h, pack_u32 (h_timestamp h) ++ pack_sha256 (h_previous h);
  pack_finalizer_policy := λ p, pack_u32 (generation p);
  pack_proposer_policy := λ p, pack_u32 (version (proposer_schedule p));
  pack_feature_set := λ s, pack_u32 (Z.of_nat (size s)) |}.
#[local] Existing Instances codec digests.

Definition fin (k : Z) : finalizer_authority := FinalizerAuthority [] 1 [k].
Definition policy1 : finalizer_policy := FinalizerPolicy 1 1 [fin 1].
Definition policy2 : finalizer_policy := FinalizerPolicy 2 2 [fin 1; fin 2].
Definition schedule1 : producer_authority_schedule :=
  ProducerAuthoritySchedule 1 [ProducerAuthority 7 (BlockSigningAuthority 1 [KeyWeight [1] 1])].
Definition proposer2 : proposer_policy :=
  ProposerPolicy 25 (ProducerAuthoritySchedule 2 [ProducerAuthority 8 (BlockSigningAuthority 1 [KeyWeight [2] 1])]).
Definition feature : sha256 := Sha256 5 5 5 5.

Definition g_header : block_header :=
  BlockHeader 24 7 0 (store_block_num sha256_zero 0) sha256_zero sha256_zero 1 None [].
Definition g_exts : list (Z * block_header_extension) :=
  [(2, finality_extension_ext (FinalityExtension (QcClaim 1 false)
     (Some (FinalizerPolicyDiff 1 1 (DiffResult [] [(0%nat, fin 1)]))) None))].
Definition g_result : result block_header_state :=
  create_if_genesis_state (store_block_num sha256_zero 1) g_header ∅ schedule1 g_exts.

Definition or_genesis (m : result block_header_state) : block_header_state :=
  match m with Ok s => s | Err _ =>
    BlockHeaderState sha256_zero g_header ∅ (create_core_for_genesis_block sha256_zero 0) policy1
      (ProposerPolicy 0 schedule1) None None [] None None 0 sha256_zero 0 []
  end.
Definition ref_or_empty (m : result block_ref) : block_ref := match m with Ok r => r | Err _ => empty_block_ref end.

Definition input (parent : block_header_state) (ts prod : Z) (fs : list sha256) (pp : option proposer_policy)
    (fp : option finalizer_policy) (claim : qc_claim_t) (mroot : sha256) : block_header_state_input :=
  BlockHeaderStateInput (s_block_id parent) ts prod fs sha256_zero pp fp claim mroot.
Definition mroot : sha256 := Sha256 9 9 9 9.

Definition s0 : block_header_state := Eval vm_compute in or_genesis g_result.
Definition i1 : block_header_state_input :=
  input s0 25 7 [feature] (Some proposer2) (Some policy2) (QcClaim 1 false) sha256_zero.
Definition s1 : block_header_state := Eval vm_compute in or_genesis (next_from_input s0 i1).
Definition i2 : block_header_state_input := input s1 26 7 [] None None (QcClaim 2 true) mroot.
Definition s2 : block_header_state := Eval vm_compute in or_genesis (next_from_input s1 i2).
Definition i3 : block_header_state_input := input s2 27 7 [] None None (QcClaim 3 true) mroot.
Definition s3 : block_header_state := Eval vm_compute in or_genesis (next_from_input s2 i3).
Definition r0 : block_ref := Eval vm_compute in ref_or_empty (s_make_block_ref s0).
Definition r1 : block_ref := Eval vm_compute in ref_or_empty (s_make_block_ref s1).
Definition r2 : block_ref := Eval vm_compute in ref_or_empty (s_make_block_ref s2).
Definition r3 : block_ref := Eval vm_compute in ref_or_empty (s_make_block_ref s3).
Definition B0 : block := Genesis r0.
Definition B1 : block := Child B0 r1 (QcClaim 1 false).
Definition B2 : block := Child B1 r2 (QcClaim 2 true).
Definition B3 : block := Child B2 r3 (QcClaim 3 true).

Lemma chain0 : header_chain [(s0, r0)] B0.
Proof.
  constructor; [|vm_compute; reflexivity].
  exists (store_block_num sha256_zero 1), g_header, ∅, schedule1, g_exts. repeat split; vm_compute; reflexivity.
Qed.

(** A block assembled from an input extends the chain. *)
Lemma chain_next p rp l B i s r :
  header_chain ((p, rp) :: l) B → in_parent_id i = s_block_id p → s_block_num p < u32_max →
  NoDup (in_new_protocol_feature_activations i) → next_from_input p i = Ok s → s_make_block_ref s = Ok r →
  header_chain ((s, r) :: (p, rp) :: l) (Child B r (in_most_recent_ancestor_with_qc i)).
Proof.
  intros Hch Hp Hmax Hnd Hs Hr.
  destruct (next_from_input_inv _ _ _ Hs Hnd) as (fd & pd & exts & Hf & _ & _ & _ & _ & Hprev & _).
  eapply (hc_next p rp l B (s_header s) exts _ _ s r) in Hf; [exact Hf|done|congruence|done|done].
Qed.

Lemma chain2 : header_chain [(s2, r2); (s1, r1); (s0, r0)] B2.
Proof.
  eapply (chain_next _ _ _ _ i2); [|reflexivity|reflexivity|constructor|vm_compute; reflexivity|vm_compute; reflexivity].
  eapply (chain_next _ _ _ _ i1); [apply chain0|reflexivity|reflexivity| |vm_compute; reflexivity|vm_compute; reflexivity].
  apply NoDup_singleton.
Qed.

Lemma chain3 : header_chain [(s3, r3); (s2, r2); (s1, r1); (s0, r0)] B3.
Proof. eapply (chain_next _ _ _ _ i3); [apply chain2|reflexivity|reflexivity|constructor|vm_compute; reflexivity|vm_compute; reflexivity]. Qed.

(** A fifth block is built on the fourth. *)
Lemma header_states_refine_block_tree_witness :
  final_num B3 = 2 ∧ last_final_block_num (s_core s3) = Ok (final_num B3) ∧
  ∃ s r, finish_next s3 (BlockHeader 28 7 0 (s_block_id s3) sha256_zero mroot proper_svnn_schedule_version None []) [] []
      (FinalityExtension (QcClaim 3 true) None None) = Ok s ∧
    header_chain ((s, r) :: [(s3, r3); (s2, r2); (s1, r1); (s0, r0)]) (Child B3 r (QcClaim 3 true)).
Proof.
  split; [vm_compute; reflexivity|].
  destruct (header_states_refine_block_tree s3 r3 [(s2, r2); (s1, r1); (s0, r0)] B3 chain3) as (_ & _ & Hf & _ & Hnext).
  split; [exact Hf|]. apply (Hnext _ [] [] (FinalityExtension (QcClaim 3 true) None None)).
  split; [reflexivity|reflexivity|reflexivity|vm_compute; discriminate|reflexivity|left; reflexivity|discriminate|discriminate].
Defined.

(** The fourth block has the policy of the second as pending; the policies of its
    ancestor, the third block, were the first policy alone. *)
Lemma policies_of_ancestors_retrieved_witness :
  s_pending_finalizer_policy s3 = Some (4, policy2) ∧
  get_finalizer_policies s3 r2 = Ok (FinalizerPolicies (finality_digest r2) policy1 None).
Proof.
  split; [reflexivity|].
  apply (policies_of_ancestors_retrieved s3 r3 [(s2, r2); (s1, r1); (s0, r0)] B3 s2 r2 chain3);
    [right; left|vm_compute; discriminate].
Defined.

(** On the third block: with the second block final, its proposal becomes pending. *)
Lemma finalizer_policy_promotion_witness :
  promotion_spec s2 2 4 27 = FinalizerPolicyState policy1 (Some (4, policy2)) [] 27 ∧
  evaluate_finalizer_policies_for_promotion s2 (s_core s3) 4 27 = Ok (promotion_spec s2 2 4 27).
Proof.
  split; [vm_compute; reflexivity|].
  apply (finalizer_policy_promotion s2 r2 [(s1, r1); (s0, r0)] B2 (s_core s3) 2 4 27 chain2); reflexivity.
Defined.

(** The first block of the next round. *)
Lemma proposer_policy_promotion_witness :
  ∃ a proposed pending, evaluate_proposer_policies_for_promotion s3 36 = Ok (a, proposed, pending) ∧
    (proposed = None ∨ pending ≠ None).
Proof.
  destruct (proposer_policy_promotion s3 r3 [(s2, r2); (s1, r1); (s0, r0)] B3 36 chain3)
    as (a & proposed & pending & H & _ & Hn & _).
  - vm_compute. repeat split; discriminate.
  - vm_compute. repeat split; discriminate.
  - reflexivity.
  - exists a, proposed, pending. split; [exact H|]. apply Hn. vm_compute. discriminate.
Defined.

(** The second block, with a protocol feature and both policies. *)
Lemma own_header_accepted_witness :
  next_from_header (λ _ _ _, Ok tt) s0 (s_header s1) = Ok s1 ∧
  last (s_proposed_finalizer_policies s1) = Some (s_block_num s1, policy2).
Proof.
  destruct (own_header_accepted (λ _ _ _, Ok tt) s0 i1 s1 (ProducerAuthority 7 (BlockSigningAuthority 1 [KeyWeight [1] 1]))
    (CoreMetadata 1 1) true) as (H & Hf & _); try (vm_compute; reflexivity).
  - apply NoDup_singleton.
  - split; [exact H|]. exact (Hf policy2 eq_refl).
Defined.
End HeaderExample.
