(* ===== verification/QcTheory.v ===== *)
(** * Quorum certificates: correctness

    The sums kept by [aggregating_qc_sig_t] are the weights of the bits that are
    set, its state is a function of these sums, and the certificates it extracts
    pass the checks made on a received one; two accepted certificates of a
    policy share a finalizer. *)

From Stdlib Require Import Ascii.
From S2P Require Import Prelude Sha256 FinalityCore Bitset OrderedDiff FinalizerPolicy Qc.
Open Scope Z_scope.

(** ** Weights of sets of finalizers *)

(** The weight of the finalizers whose index, counted from [i], satisfies [P]. *)
Fixpoint weight_where (P : nat → bool) (i : nat) (fs : list finalizer_authority) : Z :=
  match fs with
  | [] => 0
  | f :: fs => (if P i then weight f else 0) + weight_where P (S i) fs
  end.

Definition weights_nonneg (fs : list finalizer_authority) : Prop := Forall (λ f, 0 <= weight f) fs.

Lemma weight_where_nonneg P fs i : weights_nonneg fs → 0 <= weight_where P i fs.
Proof.
  intros H. revert i. induction H as [|f fs Hf _ IH]; intros i; simpl; [lia|].
  specialize (IH (S i)). destruct (P i); lia.
Qed.

Lemma weight_where_ext P Q fs i :
  (∀ j, (i ≤ j < i + length fs)%nat → P j = Q j) → weight_where P i fs = weight_where Q i fs.
Proof.
  revert i. induction fs as [|f fs IH]; intros i H; simpl; [done|].
  rewrite (H i) by (simpl; lia). rewrite (IH (S i)); [done|]. intros j Hj. apply H. simpl. lia.
Qed.

Lemma weight_where_none P fs i : (∀ j, (i ≤ j < i + length fs)%nat → P j = false) → weight_where P i fs = 0.
Proof.
  revert i. induction fs as [|f fs IH]; intros i H; simpl; [done|].
  rewrite (H i) by (simpl; lia). rewrite (IH (S i)); [lia|]. intros j Hj. apply H. simpl. lia.
Qed.

(** Two disjoint sets together weigh at most the total. *)
Lemma weight_where_disjoint P Q fs i :
  weights_nonneg fs → (∀ j, (i ≤ j < i + length fs)%nat → P j && Q j = false) →
  weight_where P i fs + weight_where Q i fs <= total_weight fs.
Proof.
  intros Hn. revert i. induction Hn as [|f fs Hf _ IH]; intros i H; simpl; [lia|].
  pose proof (H i ltac:(simpl; lia)) as Hi.
  specialize (IH (S i) ltac:(intros j Hj; apply H; simpl; lia)).
  destruct (P i), (Q i); simpl in *; try done; lia.
Qed.

Lemma weight_where_le_total P fs i : weights_nonneg fs → weight_where P i fs <= total_weight fs.
Proof.
  intros Hn. pose proof (weight_where_disjoint P (λ _, false) fs i Hn) as H.
  rewrite (weight_where_none (λ _, false)) in H by done. specialize (H ltac:(intros; apply andb_false_r)). lia.
Qed.

(** Adding one index to the set. *)
Lemma weight_where_add P Q fs i k f :
  fs !! k = Some f → P (i + k)%nat = false →
  (∀ j, (i ≤ j < i + length fs)%nat → Q j = bool_decide (j = i + k)%nat || P j) →
  weight_where Q i fs = weight_where P i fs + weight f.
Proof.
  revert i k. induction fs as [|g fs IH]; intros i k Hk HP HQ; [done|]. simpl.
  rewrite (HQ i) by (simpl; lia). destruct k as [|k]; simpl in Hk.
  - simplify_eq. rewrite Nat.add_0_r in *. rewrite bool_decide_eq_true_2, HP by done. simpl.
    rewrite (weight_where_ext Q P); [lia|].
    intros j Hj. rewrite HQ by (simpl; lia). by rewrite bool_decide_eq_false_2 by lia.
  - rewrite bool_decide_eq_false_2 by lia. simpl.
    rewrite (IH (S i) k Hk); [lia|by rewrite Nat.add_succ_comm in *|].
    intros j Hj. rewrite HQ by (simpl; lia). f_equal. apply bool_decide_ext. lia.
Qed.

(** Two sets that each exceed half of the total share a finalizer. *)
Lemma quorum_intersection P Q fs q :
  weights_nonneg fs → total_weight fs < 2 * q →
  q <= weight_where P 0 fs → q <= weight_where Q 0 fs →
  ∃ j f, fs !! j = Some f ∧ P j = true ∧ Q j = true.
Proof.
  intros Hn Hq HP HQ.
  destruct (existsb (λ j, P j && Q j) (seq 0 (length fs))) eqn:E.
  - apply existsb_exists in E as (j & Hj & Hb). apply andb_prop in Hb as [HPj HQj].
    apply in_seq in Hj. destruct (lookup_lt_is_Some_2 fs j) as [f Hf]; [lia|]. by exists j, f.
  - pose proof (weight_where_disjoint P Q fs 0 Hn) as Hd. exfalso.
    enough (weight_where P 0 fs + weight_where Q 0 fs <= total_weight fs) by lia.
    apply Hd. intros j Hj. destruct (P j && Q j) eqn:Ej; [|done].
    enough (existsb (λ j, P j && Q j) (seq 0 (length fs)) = true) by congruence.
    apply existsb_exists. exists j. split; [apply in_seq; lia|done].
Qed.

(** Two quorums overlap in more than the weight of a small set [F]. *)
Lemma weight_where_overlap P Q fs i : weights_nonneg fs →
  weight_where P i fs + weight_where Q i fs <= total_weight fs + weight_where (λ j, P j && Q j) i fs.
Proof.
  intros Hn. revert i. induction Hn as [|f fs Hf _ IH]; intros i; simpl; [lia|].
  specialize (IH (S i)). destruct (P i), (Q i); simpl; lia.
Qed.

Lemma weight_where_mono P Q fs i : weights_nonneg fs →
  (∀ j, (i ≤ j < i + length fs)%nat → P j = true → Q j = true) → weight_where P i fs <= weight_where Q i fs.
Proof.
  intros Hn. revert i. induction Hn as [|f fs Hf _ IH]; intros i H; simpl; [lia|].
  specialize (IH (S i) ltac:(intros j Hj; apply H; simpl; lia)). pose proof (H i ltac:(simpl; lia)) as Hi.
  destruct (P i); [rewrite Hi by done|destruct (Q i)]; lia.
Qed.

Lemma quorum_intersection_outside P Q F fs q : weights_nonneg fs →
  total_weight fs + weight_where F 0 fs < 2 * q → q <= weight_where P 0 fs → q <= weight_where Q 0 fs →
  ∃ j, P j = true ∧ Q j = true ∧ F j = false.
Proof.
  intros Hn Hq HP HQ. pose proof (weight_where_overlap P Q fs 0 Hn).
  destruct (existsb (λ j, P j && Q j && negb (F j)) (seq 0 (length fs))) eqn:E.
  - apply existsb_exists in E as (j & _ & Hb). exists j. by breflect.
  - exfalso. enough (weight_where (λ j, P j && Q j) 0 fs <= weight_where F 0 fs) by lia.
    apply weight_where_mono; [done|]. intros j Hj HPQ. destruct (F j) eqn:EF; [done|].
    enough (existsb (λ j, P j && Q j && negb (F j)) (seq 0 (length fs)) = true) by congruence.
    apply existsb_exists. exists j. split; [apply in_seq; lia|]. by rewrite HPQ, EF.
Qed.

Section Theory.
Context {bls : Bls}.

(** ** The checks on a received certificate *)

Definition opt_bit (votes : option bitset) (i : nat) : bool :=
  match votes with None => false | Some b => bit b i end.

Definition opt_wf (n : nat) (votes : option bitset) : Prop :=
  match votes with None => True | Some b => bitset_wf b ∧ m_num_bits b = n end.

(** The bitsets of a certificate are values the deserializer can produce. *)
Definition sig_wf (s : qc_sig_t) : Prop :=
  (∀ b, strong_votes s = Some b → bitset_wf b) ∧ (∀ b, weak_votes s = Some b → bitset_wf b).

Definition has_vote (s : qc_sig_t) (i : nat) : bool := opt_bit (strong_votes s) i || opt_bit (weak_votes s) i.

(** What a certificate for policy [p] has to satisfy. *)
Record valid_sig (p : finalizer_policy) (s : qc_sig_t) : Prop := {
  vs_present : strong_votes s ≠ None ∨ weak_votes s ≠ None;
  vs_strong : opt_wf (length (finalizers p)) (strong_votes s);
  vs_weak : opt_wf (length (finalizers p)) (weak_votes s);
  vs_disjoint : ∀ i, opt_bit (strong_votes s) i && opt_bit (weak_votes s) i = false;
  vs_quorum : threshold p <= weight_where (has_vote s) 0 (finalizers p) }.

Lemma opt_test_ok n votes i : opt_wf n votes → (i < n)%nat → opt_test votes i = Ok (opt_bit votes i).
Proof. destruct votes as [b|]; [|done]. intros [Hw Hn] Hi. apply test_ok; [done|lia]. Qed.

Lemma opt_bit_unused n votes i : opt_wf n votes → (n ≤ i)%nat → opt_bit votes i = false.
Proof. destruct votes as [b|]; [|done]. intros [Hw Hn] Hi. apply (bw_unused _ Hw). lia. Qed.

Lemma verify_not_both_ok sv wv : bitset_wf sv → bitset_wf wv → ∀ n i,
  (i + n ≤ m_num_bits sv)%nat → (i + n ≤ m_num_bits wv)%nat →
  verify_not_both sv wv i n =
  check (forallb (λ j, negb (bit sv j && bit wv j)) (seq i n)) invalid_qc.
Proof.
  intros Hs Hw. induction n as [|n IH]; intros i H1 H2; [done|]. cbn [verify_not_both seq forallb].
  rewrite (test_ok sv) by (done || lia). rewrite bind_ok.
  assert ((if bit sv i then bitset_test wv i else Ok false) = Ok (bit sv i && bit wv i)) as ->.
  { destruct (bit sv i); [|done]. rewrite test_ok by (done || lia). done. }
  rewrite bind_ok, IH by lia. destruct (bit sv i), (bit wv i); done.
Qed.

Lemma weights_from_ok b fs : bitset_wf b → weights_nonneg fs → ∀ i sum,
  (i + length fs ≤ m_num_bits b)%nat → 0 <= sum → sum + total_weight fs <= u64_max →
  weights_from b fs i sum = Ok (sum + weight_where (bit b) i fs).
Proof.
  intros Hb Hn. induction Hn as [|f fs Hf Hn IH]; intros i sum Hi H0 Hmax; cbn [weights_from weight_where].
  - f_equal. lia.
  - simpl in Hi, Hmax. rewrite test_ok by (done || lia). rewrite bind_ok.
    pose proof (total_weight_nonneg fs Hn). unfold u64_max in *.
    destruct (bit b i).
    + rewrite u64_small by (unfold is_u64; lia). rewrite IH by lia. f_equal. lia.
    + rewrite IH by lia. f_equal. 
Qed.

Lemma weights_ok n fs votes : opt_wf n votes → n = length fs → weights_nonneg fs → total_weight fs <= u64_max →
  weights fs votes = Ok (weight_where (opt_bit votes) 0 fs).
Proof.
  destruct votes as [b|]; intros Hw -> Hn Hmax; simpl.
  - destruct Hw as [Hw Hl]. rewrite weights_from_ok; [done..|lia|lia|lia].
  - by rewrite weight_where_none.
Qed.

Lemma weight_where_or P Q fs i : (∀ j, P j && Q j = false) →
  weight_where (λ j, P j || Q j) i fs = weight_where P i fs + weight_where Q i fs.
Proof.
  intros H. revert i. induction fs as [|f fs IH]; intros i; simpl; [done|].
  rewrite IH. specialize (H i). destruct (P i), (Q i); simpl in *; try done; lia.
Qed.

(** [verify_vote_format] decides the shape of the certificate. *)
Lemma verify_vote_format_spec s p : sig_wf s →
  verify_vote_format s p = Ok tt ↔
  (strong_votes s ≠ None ∨ weak_votes s ≠ None) ∧
  opt_wf (length (finalizers p)) (strong_votes s) ∧ opt_wf (length (finalizers p)) (weak_votes s) ∧
  (∀ i, opt_bit (strong_votes s) i && opt_bit (weak_votes s) i = false).
Proof.
  intros [Hsw Hww]. unfold verify_vote_format, verify_size, bitset_size.
  destruct (strong_votes s) as [sv|], (weak_votes s) as [wv|]; simpl.
  - specialize (Hsw _ eq_refl). specialize (Hww _ eq_refl).
    case_bool_decide as H1; case_bool_decide as H2; simpl; [|split; [done|]; intros (_ & [] & [] & _); congruence..].
    rewrite verify_not_both_ok by (done || lia). destruct (forallb _ _) eqn:E; simpl.
    + split; [|done]. intros _. split_and!; [by left|done..|]. intros i.
      destruct (decide (i < m_num_bits sv)%nat) as [Hi|Hi]; [|by rewrite (bw_unused sv) by (done || lia)].
      eapply forallb_forall in E; [|apply in_seq; split; [lia|exact Hi]]. by apply negb_true_iff in E.
    + split; [done|]. intros (_ & _ & _ & Hd).
      enough (forallb (λ j, negb (bit sv j && bit wv j)) (seq 0 (m_num_bits sv)) = true) by congruence.
      apply forallb_forall. intros j _. by rewrite Hd.
  - specialize (Hsw _ eq_refl). case_bool_decide; simpl; split; try done.
    + intros _. split_and!; [by left|done..|]. intros i. apply andb_false_r.
    + intros (_ & [_ ?] & _). congruence.
  - specialize (Hww _ eq_refl). case_bool_decide; simpl; split; try done.
    + intros _. split_and!; [by right|done..].
    + intros (_ & _ & [_ ?] & _). congruence.
  - split; [done|]. by intros ([|] & _).
Qed.

Lemma verify_weights_spec s p : policy_wf p →
  opt_wf (length (finalizers p)) (strong_votes s) → opt_wf (length (finalizers p)) (weak_votes s) →
  (∀ i, opt_bit (strong_votes s) i && opt_bit (weak_votes s) i = false) →
  verify_weights s p = check (threshold p <=? weight_where (has_vote s) 0 (finalizers p)) invalid_qc.
Proof.
  intros Hp Hs Hw Hd. pose proof (pw_weights _ Hp) as Hn. pose proof (pw_total _ Hp) as Ht.
  unfold verify_weights. rewrite !(weights_ok (length (finalizers p))) by done. rewrite !bind_ok.
  unfold has_vote. rewrite weight_where_or by done.
  unfold sig_is_strong, sig_is_weak. destruct (weak_votes s) as [wv|] eqn:E; simpl negb; cbv iota.
  - rewrite u64_small; [done|].
    pose proof (weight_where_nonneg (opt_bit (strong_votes s)) _ 0 Hn).
    pose proof (weight_where_nonneg (opt_bit (Some wv)) _ 0 Hn).
    pose proof (weight_where_disjoint (opt_bit (strong_votes s)) (opt_bit (Some wv)) _ 0 Hn (λ j _, Hd j)).
    unfold is_u64, u64_max in *. lia.
  - rewrite (weight_where_none (opt_bit None)) by done. by rewrite Z.add_0_r.
Qed.

(** The two checks accept exactly the valid certificates. *)
Lemma verify_sig_iff s p : policy_wf p → sig_wf s →
  (verify_vote_format s p;; verify_weights s p) = Ok tt ↔ valid_sig p s.
Proof.
  intros Hp Hs. split.
  - intros H. apply bind_inv in H as ([] & Hf & H). apply verify_vote_format_spec in Hf as (H1 & H2 & H3 & H4); [|done].
    rewrite verify_weights_spec in H by done. apply check_inv, Z.leb_le in H. by split.
  - intros []. rewrite (proj2 (verify_vote_format_spec s p Hs)) by done. rewrite bind_ok, verify_weights_spec by done.
    rewrite (proj2 (Z.leb_le _ _)) by done. done.
Qed.

(** ** Dual finalizers *)

(** The two signatures record the same vote for a finalizer of both policies. *)
Definition same_vote (a b : qc_sig_t) (i j : nat) : Prop :=
  opt_bit (strong_votes a) i = opt_bit (strong_votes b) j ∧ opt_bit (weak_votes a) i = opt_bit (weak_votes b) j.

Lemma vote_same_at_ok a b n m i j :
  opt_wf n (strong_votes a) → opt_wf n (weak_votes a) → opt_wf m (strong_votes b) → opt_wf m (weak_votes b) →
  (i < n)%nat → (j < m)%nat →
  ∃ t, vote_same_at a b i j = Ok t ∧ (t = true ↔ same_vote a b i j).
Proof.
  intros H1 H2 H3 H4 Hi Hj. unfold vote_same_at, same_vote.
  assert (∀ v, opt_wf n v → opt_index_ok v i = true) as Hx.
  { intros [v|] Hv; [|done]. destruct Hv as [_ Hv]. apply bool_decide_eq_true. unfold bitset_size. lia. }
  rewrite !assert_bind by auto.
  rewrite (opt_test_ok n _ i H1), (opt_test_ok n _ i H2), (opt_test_ok m _ j H3), (opt_test_ok m _ j H4), !bind_ok by done.
  eexists. split; [done|]. by rewrite andb_true_iff, !eqb_true_iff.
Qed.

Definition dual_votes_agree (a b : qc_sig_t) (afs pfs : list finalizer_authority) : Prop :=
  ∀ i j f g, afs !! i = Some f → pfs !! j = Some g → public_key f = public_key g → same_vote a b i j.

Section Dual.
Context (a b : qc_sig_t) (n m : nat).
Context (Has : opt_wf n (strong_votes a)) (Haw : opt_wf n (weak_votes a)).
Context (Hbs : opt_wf m (strong_votes b)) (Hbw : opt_wf m (weak_votes b)).

Lemma verify_dual_finalizer_ok key i : (i < n)%nat → ∀ pfs k,
  (k + length pfs ≤ m)%nat → NoDup (public_key <$> pfs) →
  verify_dual_finalizer a b key i pfs k = Ok tt ↔
  ∀ j g, pfs !! j = Some g → public_key g = key → same_vote a b i (k + j).
Proof using Has Haw Hbs Hbw.
  intros Hi. induction pfs as [|g pfs IH]; intros k Hk Hnd; cbn [verify_dual_finalizer]; [done|].
  apply NoDup_cons in Hnd as [Hg Hnd]. simpl in Hk. case_bool_decide as He.
  - subst key. destruct (vote_same_at_ok a b n m i k) as (t & -> & Ht); [done..|lia|].
    rewrite bind_ok. split.
    + intros Hc. apply check_inv, Ht in Hc. intros [|j] g' Hj Hkey; simpl in Hj.
      * by rewrite Nat.add_0_r.
      * exfalso. apply Hg. rewrite <- Hkey. by eapply list_elem_of_fmap_2, list_elem_of_lookup_2.
    + intros H. rewrite (proj2 Ht); [done|]. rewrite <- (Nat.add_0_r k). by apply (H 0%nat g).
  - rewrite IH by (done || lia). split.
    + intros H [|j] g' Hj Hkey; simpl in Hj; [simplify_eq|]. rewrite <- Nat.add_succ_comm. eauto.
    + intros H j g' Hj Hkey. rewrite Nat.add_succ_comm. by apply (H (S j) g').
Qed.

Lemma verify_dual_finalizers_votes_ok pfs : NoDup (public_key <$> pfs) → length pfs = m → ∀ afs k,
  (k + length afs ≤ n)%nat →
  verify_dual_finalizers_votes a b afs k pfs = Ok tt ↔
  ∀ i j f g, afs !! i = Some f → pfs !! j = Some g → public_key f = public_key g → same_vote a b (k + i) j.
Proof using Has Haw Hbs Hbw.
  intros Hnd Hm. induction afs as [|f afs IH]; intros k Hk; cbn [verify_dual_finalizers_votes]; [done|].
  simpl in Hk. pose proof (verify_dual_finalizer_ok (public_key f) k ltac:(lia) pfs 0 ltac:(lia) Hnd) as Hd. split.
  - intros H. apply bind_inv in H as ([] & H1 & H2). rewrite Hd in H1. rewrite IH in H2 by lia.
    intros [|i] j f' g Hi Hj Hkey; simpl in Hi.
    + simplify_eq. rewrite Nat.add_0_r. by apply (H1 j g).
    + rewrite <- Nat.add_succ_comm. eauto.
  - intros H. rewrite (proj2 Hd); [rewrite bind_ok; apply IH; [lia|]|].
    + intros i j f' g Hi Hj Hkey. rewrite Nat.add_succ_comm. by apply (H (S i) j f' g).
    + intros j g Hj Hkey. rewrite <- (Nat.add_0_r k). by apply (H 0%nat j f g).
Qed.
End Dual.

(** What [verify_basic] is for: both signatures are valid for their policies,
    a pending signature is there exactly when a pending policy is, and every
    finalizer of both policies voted the same way in both. *)
Definition valid_qc (policies : finalizer_policies_t) (qc : qc_t) : Prop :=
  valid_sig (active_finalizer_policy policies) (active_policy_sig qc) ∧
  match pending_policy_sig qc, pending_finalizer_policy policies with
  | Some s, Some p => valid_sig p s ∧
      dual_votes_agree (active_policy_sig qc) s (finalizers (active_finalizer_policy policies)) (finalizers p)
  | None, None => True
  | _, _ => False
  end.

Definition policies_wf (policies : finalizer_policies_t) : Prop :=
  policy_wf (active_finalizer_policy policies) ∧
  ∀ p, pending_finalizer_policy policies = Some p → policy_wf p.

Definition qc_wf (qc : qc_t) : Prop :=
  sig_wf (active_policy_sig qc) ∧ ∀ s, pending_policy_sig qc = Some s → sig_wf s.

(** *** The quorum behind an accepted certificate, whatever the bytes of its bitsets *)

Definition tested (votes : option bitset) (i : nat) : bool := match opt_test votes i with Ok t => t | Err _ => false end.

Lemma weights_from_tested b fs : weights_nonneg fs → ∀ i sum w,
  0 <= sum → sum + total_weight fs <= u64_max → weights_from b fs i sum = Ok w → w = sum + weight_where (tested (Some b)) i fs.
Proof.
  induction 1 as [|f fs Hf Hn IH]; intros i sum w H0 Hmax H; cbn [weights_from weight_where] in *.
  - injection H as <-. lia.
  - apply bind_inv in H as (t & Ht & H). simpl in Hmax. pose proof (total_weight_nonneg fs Hn). unfold u64_max in *.
    assert (tested (Some b) i = t) as -> by (unfold tested, opt_test; by rewrite Ht). destruct t.
    + rewrite u64_small in H by (unfold is_u64; lia). apply IH in H; lia.
    + apply IH in H; lia.
Qed.

Lemma weights_tested fs votes w : weights_nonneg fs → total_weight fs <= u64_max → weights fs votes = Ok w →
  w = weight_where (tested votes) 0 fs.
Proof.
  intros Hn Hmax H. destruct votes as [b|]; cbn in H.
  - apply weights_from_tested in H; [lia|done|lia|lia].
  - injection H as <-. by rewrite weight_where_none.
Qed.

Lemma not_both_tested sv wv n : ∀ i, verify_not_both sv wv i n = Ok tt → ∀ j, (i ≤ j < i + n)%nat →
  tested (Some sv) j && tested (Some wv) j = false.
Proof.
  induction n as [|n IH]; intros i H j Hj; [lia|]. cbn in H. apply bind_inv in H as (a & Ha & H). apply bind_inv in H as (w & Hw & H).
  apply bind_inv in H as ([] & Hc & H). destruct (decide (j = i)) as [->|Hne]; [|apply (IH (S i)); [done|lia]].
  apply check_inv, negb_true_iff in Hc. unfold tested, opt_test. rewrite Ha. destruct a; [|done]. by rewrite Hw.
Qed.

Lemma tested_outside b i : (bitset_size b ≤ i)%nat → tested (Some b) i = false.
Proof. intros H. unfold tested, opt_test, bitset_test. unfold bitset_size in H. by rewrite bool_decide_eq_false_2 by lia. Qed.

(** An accepted certificate has a quorum of votes of the active policy, and one of strong votes when it is strong. *)
Lemma verified_quorum qc policies : policy_wf (active_finalizer_policy policies) → verify_basic qc policies = Ok tt →
  let p := active_finalizer_policy policies in let s := active_policy_sig qc in
  if qc_is_strong qc then threshold p <= weight_where (tested (strong_votes s)) 0 (finalizers p)
  else threshold p <= weight_where (λ i, tested (strong_votes s) i || tested (weak_votes s) i) 0 (finalizers p).
Proof.
  intros Hp H p s. pose proof (pw_weights _ Hp) as Hn. pose proof (pw_total _ Hp) as Hmax. unfold verify_basic in H.
  apply bind_inv in H as ([] & Hf & H). apply bind_inv in H as ([] & Hw & _). fold p s in Hf, Hw, Hn, Hmax.
  unfold verify_weights in Hw. apply bind_inv in Hw as (sw & Hsw & Hw). apply bind_inv in Hw as (ww & Hww & Hw).
  apply (weights_tested _ _ _ Hn Hmax) in Hsw as ->, Hww as ->.
  assert (∀ i, tested (strong_votes s) i && tested (weak_votes s) i = false) as Hd.
  { intros i. unfold verify_vote_format in Hf. apply bind_inv in Hf as ([] & _ & Hf). apply bind_inv in Hf as ([] & _ & Hf).
    apply bind_inv in Hf as ([] & _ & Hf). destruct (strong_votes s) as [sv|], (weak_votes s) as [wv|]; try done; [|apply andb_false_r].
    destruct (decide (i < bitset_size sv)%nat) as [Hi|Hi]; [apply (not_both_tested _ _ _ _ Hf); lia|].
    by rewrite tested_outside by lia. }
  rewrite weight_where_or by done. unfold qc_is_strong. fold s.
  pose proof (weight_where_nonneg (tested (strong_votes s)) (finalizers p) 0 Hn).
  pose proof (weight_where_nonneg (tested (weak_votes s)) (finalizers p) 0 Hn).
  destruct (sig_is_strong s); cbn [andb]; apply check_inv, Z.leb_le in Hw.
  - destruct (match pending_policy_sig qc with None => true | Some s => sig_is_strong s end); [done|lia].
  - pose proof (Z.mod_le (weight_where (tested (strong_votes s)) 0 (finalizers p) + weight_where (tested (weak_votes s)) 0 (finalizers p)) (2 ^ 64)).
    unfold u64 in Hw. lia.
Qed.

Lemma verify_basic_iff qc policies :
  policies_wf policies → qc_wf qc → verify_basic qc policies = Ok tt ↔ valid_qc policies qc.
Proof.
  intros [Hp Hpp] [Ha Hs]. unfold valid_qc.
  rewrite <- (verify_sig_iff _ _ Hp Ha). unfold verify_basic.
  destruct (verify_vote_format (active_policy_sig qc) _) as [[]|] eqn:Ef; [|simpl; split; [done|by intros []]].
  rewrite !bind_ok.
  destruct (verify_weights (active_policy_sig qc) _) as [[]|] eqn:Ew; [|simpl; split; [done|by intros []]].
  rewrite bind_ok. apply verify_vote_format_spec in Ef as (_ & H1 & H2 & _); [|done].
  destruct (pending_policy_sig qc) as [s|], (pending_finalizer_policy policies) as [p|];
    [|split; [done|by intros []]..|done].
  specialize (Hs _ eq_refl). specialize (Hpp _ eq_refl).
  rewrite <- (verify_sig_iff _ _ Hpp Hs). split.
  - intros H. apply bind_inv in H as ([] & Hd & H). split; [done|]. split; [done|].
    apply bind_inv in H as ([] & Hf & _). apply verify_vote_format_spec in Hf as (_ & H3 & H4 & _); [|done].
    rewrite (verify_dual_finalizers_votes_ok _ _ _ _ H1 H2 H3 H4) in Hd; [exact Hd|apply Hpp|done|lia].
  - intros (_ & H & Hd). pose proof H as H'. apply bind_inv in H' as ([] & Hf & _).
    apply verify_vote_format_spec in Hf as (_ & H3 & H4 & _); [|done].
    rewrite (proj2 (verify_dual_finalizers_votes_ok _ _ _ _ H1 H2 H3 H4 _ (pw_keys _ Hpp) eq_refl _ 0 (le_n _)) Hd).
    done.
Qed.

(** ** Collecting votes *)

(** The state the comments on [state_t] describe, as a function of the sums. *)
Definition spec_state (quorum max_weak ssum wsum : Z) : state_t :=
  if quorum <=? ssum then strong
  else if quorum <=? ssum + wsum then (if max_weak <? wsum then weak_final else weak_achieved)
  else if max_weak <? wsum then restricted else unrestricted.

(** The state the code reaches: at [wsum = max_weak] it may already be [weak_final]. *)
Definition state_ok (quorum max_weak ssum wsum : Z) (st : state_t) : Prop :=
  st = spec_state quorum max_weak ssum wsum ∨ (st = weak_final ∧ wsum = max_weak ∧ quorum <= ssum + wsum).

Ltac state_cases :=
  repeat match goal with
  | H : context [if ?b then _ else _] |- _ => destruct b eqn:?
  | |- context [if ?b then _ else _] => destruct b eqn:?
  end; breflect.

Lemma strong_vote_state_ok quorum max_weak ssum wsum w st :
  0 <= quorum → 0 <= max_weak → 0 <= ssum → 0 <= wsum → 0 <= w →
  ssum + w + wsum <= quorum + max_weak → quorum + max_weak <= u64_max →
  state_ok quorum max_weak ssum wsum st →
  ∃ st', strong_vote_state st (ssum + w) wsum quorum = Ok st' ∧ state_ok quorum max_weak (ssum + w) wsum st'.
Proof.
  unfold state_ok, spec_state, u64_max. intros Hq Hm Hs Hw H0 Hle Hmax [->|(-> & He & Hg)].
  - unfold strong_vote_state. rewrite u64_small by (unfold is_u64; lia).
    unfold assert_, check. state_cases; try (exfalso; lia);
      try (by match goal with H : ¬ (_ ≠ _) |- _ => destruct H end);
      by (eexists; split; [done|left]).
  - exists weak_final. split; [done|]. right. split; [done|lia].
Qed.

Lemma weak_vote_state_ok quorum max_weak ssum wsum w st :
  0 <= quorum → 0 <= max_weak → 0 <= ssum → 0 <= wsum → 0 <= w →
  ssum + (wsum + w) <= quorum + max_weak → quorum + max_weak <= u64_max →
  state_ok quorum max_weak ssum wsum st →
  state_ok quorum max_weak ssum (wsum + w) (weak_vote_state st ssum (wsum + w) quorum max_weak).
Proof.
  unfold state_ok, spec_state, u64_max. intros Hq Hm Hs Hw H0 Hle Hmax [->|(-> & He & Hg)].
  - unfold weak_vote_state. rewrite u64_small by (unfold is_u64; lia).
    state_cases; simpl; try (by left); try lia; right; split; [done|lia].
  - simpl. state_cases; try (by left); try lia; right; split; (done || lia).
Qed.

Definition votes_wf (n : nat) (v : votes_t) : Prop :=
  bitset_wf (votes_bitset v) ∧ m_num_bits (votes_bitset v) = n ∧ processed v = bits (votes_bitset v).

Definition strong_bit (a : aggregating_qc_sig_t) (i : nat) : bool := bit (votes_bitset (agg_strong_votes a)) i.
Definition weak_bit (a : aggregating_qc_sig_t) (i : nat) : bool := bit (votes_bitset (agg_weak_votes a)) i.

Record agg_inv (p : finalizer_policy) (a : aggregating_qc_sig_t) : Prop := {
  ai_strong : votes_wf (length (finalizers p)) (agg_strong_votes a);
  ai_weak : votes_wf (length (finalizers p)) (agg_weak_votes a);
  ai_disjoint : ∀ i, strong_bit a i && weak_bit a i = false;
  ai_quorum : agg_quorum a = threshold p;
  ai_max : agg_max_weak_sum_before_weak_final a = total_weight (finalizers p) - threshold p;
  ai_ssum : strong_sum a = weight_where (strong_bit a) 0 (finalizers p);
  ai_wsum : weak_sum a = weight_where (weak_bit a) 0 (finalizers p);
  ai_state : state_ok (agg_quorum a) (agg_max_weak_sum_before_weak_final a) (strong_sum a) (weak_sum a)
               (aggregating_state a);
  ai_received : ∀ s, received_qc_sig a = Some s → valid_sig p s }.

Lemma votes_new_ok n : ∃ v, votes_new n = Ok v ∧ votes_wf n v ∧ ∀ i, bit (votes_bitset v) i = false.
Proof.
  destruct (new_ok n) as (b & Hb & Hw & Hn & Hz). unfold votes_new. rewrite Hb, bind_ok.
  eexists. split; [done|]. split; [|done]. split_and!; [done..|]. simpl. apply list_eq. intros i.
  rewrite bits_lookup, Hn, Hz. case_bool_decide; [by rewrite lookup_replicate_2|].
  apply lookup_ge_None_2. rewrite length_replicate. lia.
Qed.

Lemma votes_has_voted_ok n v i : votes_wf n v → (i < n)%nat → votes_has_voted v i = Ok (bit (votes_bitset v) i).
Proof.
  intros (Hw & Hn & Hp) Hi. unfold votes_has_voted. rewrite Hp, bits_length, Hn.
  rewrite assert_bind by (by apply bool_decide_eq_true). apply vec_at_lookup; [lia|].
  rewrite Nat2Z.id, bits_at by lia. done.
Qed.

Lemma votes_add_vote_ok n v i sig : votes_wf n v → (i < n)%nat →
  ∃ v', votes_add_vote v i sig = Ok v' ∧ votes_wf n v' ∧
        ∀ j, bit (votes_bitset v') j = bool_decide (j = i) || bit (votes_bitset v) j.
Proof.
  intros (Hw & Hn & Hp) Hi. destruct (set_ok (votes_bitset v) i Hw) as (b & Hb & Hwb & Hnb & Hbit); [lia|].
  unfold votes_add_vote. rewrite Hp, bits_length, check_bind by (apply bool_decide_eq_true; lia).
  rewrite Hb, bind_ok. eexists. split; [done|]. split; [|done]. split_and!; [done|simpl; lia|]. simpl.
  apply list_eq. intros j. rewrite bits_lookup, Hnb, Hbit. destruct (decide (j = i)) as [->|Hj].
  - rewrite list_lookup_insert_eq by (rewrite bits_length; lia).
    rewrite !bool_decide_eq_true_2 by lia. done.
  - rewrite list_lookup_insert_ne, bits_lookup by done. rewrite (bool_decide_eq_false_2 (j = i)) by done. done.
Qed.

Lemma sum_bounds p P Q : policy_wf p → (∀ i, P i && Q i = false) →
  let fs := finalizers p in
  0 <= weight_where P 0 fs ∧ 0 <= weight_where Q 0 fs ∧
  weight_where P 0 fs + weight_where Q 0 fs <= total_weight fs ∧ total_weight fs <= u64_max.
Proof.
  intros Hp Hd fs. pose proof (pw_weights _ Hp). pose proof (pw_total _ Hp).
  split_and!; [by apply weight_where_nonneg..|by apply weight_where_disjoint|done].
Qed.

Lemma agg_new_ok p : policy_wf p → total_weight (finalizers p) < 2147483648 →
  ∃ a, aggregating_qc_sig_of_policy p = Ok a ∧ agg_inv p a ∧
       (∀ i, strong_bit a i = false) ∧ ∀ i, weak_bit a i = false.
Proof.
  intros Hp Ht. destruct (votes_new_ok (length (finalizers p))) as (v & Hv & Hw & Hz).
  unfold aggregating_qc_sig_of_policy, aggregating_qc_sig_new. rewrite Hv, bind_ok, max_weak_sum_exact by done.
  eexists. split; [done|]. split; [|done]. unfold strong_bit, weak_bit.
  split; simpl; try done.
  - intros i. unfold strong_bit. simpl. by rewrite Hz.
  - rewrite weight_where_none; [done|]. intros j _. apply Hz.
  - rewrite weight_where_none; [done|]. intros j _. apply Hz.
  - left. unfold spec_state. pose proof (pw_threshold _ Hp). pose proof (total_weight_nonneg _ (pw_weights _ Hp)).
    rewrite !(proj2 (Z.leb_gt _ _)), (proj2 (Z.ltb_ge _ _)) by lia. done.
Qed.

Lemma check_duplicate_ok p a i : agg_inv p a → (i < length (finalizers p))%nat →
  check_duplicate a i = Ok (if strong_bit a i || weak_bit a i then duplicate else success).
Proof.
  intros [(Hs & Hsn & _) (Hw & Hwn & _)] Hi. unfold check_duplicate.
  rewrite (test_ok _ _ Hs), (test_ok _ _ Hw), !bind_ok by lia. by destruct (strong_bit a i) eqn:E; unfold strong_bit in E; rewrite E.
Qed.

Lemma sig_has_voted_ok p a i : agg_inv p a → (i < length (finalizers p))%nat →
  sig_has_voted a i = Ok (strong_bit a i || weak_bit a i).
Proof.
  intros [Hs Hw] Hi. unfold sig_has_voted. rewrite (votes_has_voted_ok _ _ _ Hs Hi), bind_ok.
  unfold strong_bit. destruct (bit _ _); [done|]. by apply (votes_has_voted_ok _ _ _ Hw).
Qed.

(** The sets of votes after one more vote. *)
Definition vote_added (is_strong : bool) (i : nat) (a a' : aggregating_qc_sig_t) : Prop :=
  (∀ j, strong_bit a' j = (is_strong && bool_decide (j = i)) || strong_bit a j) ∧
  (∀ j, weak_bit a' j = (negb is_strong && bool_decide (j = i)) || weak_bit a j) ∧
  received_qc_sig a' = received_qc_sig a.

Section OneVote.
Context (p : finalizer_policy) (Hp : policy_wf p) (a : aggregating_qc_sig_t) (Hinv : agg_inv p a).
Context (i : nat) (f : finalizer_authority) (Hf : finalizers p !! i = Some f) (sig : bls_g2).
Context (Hns : strong_bit a i = false) (Hnw : weak_bit a i = false).

Lemma add_strong_vote_ok : ∃ a',
  add_strong_vote a i sig (weight f) = Ok (a', success) ∧ agg_inv p a' ∧ vote_added true i a a'.
Proof using All.
  pose proof (lookup_lt_Some _ _ _ Hf) as Hi. destruct Hinv as [Hs Hw Hd Hq Hm Hss Hws Hst Hr].
  destruct (votes_add_vote_ok _ _ i sig Hs Hi) as (v & Hv & Hwf & Hbit).
  unfold add_strong_vote. rewrite Hv, bind_ok.
  assert (∀ j, bit (votes_bitset v) j && weak_bit a j = false) as Hd'.
  { intros j. rewrite Hbit. case_bool_decide as Hj; [subst; by rewrite Hnw|apply Hd]. }
  assert (weight_where (bit (votes_bitset v)) 0 (finalizers p) = strong_sum a + weight f) as Hsum.
  { rewrite Hss. apply (weight_where_add _ _ _ _ i); [done..|]. intros j _. apply Hbit. }
  destruct (sum_bounds p _ _ Hp Hd') as (B1 & B2 & B3 & B4). rewrite Hsum, <- Hws in *.
  pose proof (pw_threshold _ Hp). pose proof (Forall_lookup_1 _ _ _ _ (pw_weights _ Hp) Hf) as Hpos. cbn in Hpos.
  pose proof (weight_where_nonneg (strong_bit a) (finalizers p) 0 (pw_weights _ Hp)). rewrite <- Hss in *.
  rewrite u64_small by (unfold is_u64, u64_max in *; lia).
  destruct (strong_vote_state_ok (agg_quorum a) (agg_max_weak_sum_before_weak_final a) (strong_sum a) (weak_sum a)
    (weight f) (aggregating_state a)) as (st & Hst' & Hok); [lia..|done|].
  rewrite Hst', bind_ok. eexists. split; [done|]. split; [split; simpl; done|].
  split_and!; [intros j; apply Hbit|done..].
Qed.

Lemma add_weak_vote_ok : ∃ a',
  add_weak_vote a i sig (weight f) = Ok (a', success) ∧ agg_inv p a' ∧ vote_added false i a a'.
Proof using All.
  pose proof (lookup_lt_Some _ _ _ Hf) as Hi. destruct Hinv as [Hs Hw Hd Hq Hm Hss Hws Hst Hr].
  destruct (votes_add_vote_ok _ _ i sig Hw Hi) as (v & Hv & Hwf & Hbit).
  unfold add_weak_vote. rewrite Hv, bind_ok.
  assert (∀ j, strong_bit a j && bit (votes_bitset v) j = false) as Hd'.
  { intros j. rewrite Hbit. case_bool_decide as Hj; [subst; by rewrite Hns|apply Hd]. }
  assert (weight_where (bit (votes_bitset v)) 0 (finalizers p) = weak_sum a + weight f) as Hsum.
  { rewrite Hws. apply (weight_where_add _ _ _ _ i); [done..|]. intros j _. apply Hbit. }
  destruct (sum_bounds p _ _ Hp Hd') as (B1 & B2 & B3 & B4). rewrite Hsum, <- Hss in *.
  pose proof (pw_threshold _ Hp). pose proof (Forall_lookup_1 _ _ _ _ (pw_weights _ Hp) Hf) as Hpos. cbn in Hpos.
  pose proof (weight_where_nonneg (weak_bit a) (finalizers p) 0 (pw_weights _ Hp)). rewrite <- Hws in *.
  rewrite u64_small by (unfold is_u64, u64_max in *; lia).
  eexists. split; [done|]. split; [split; simpl; try done|].
  - apply weak_vote_state_ok; [lia..|done].
  - split_and!; [done|intros j; apply Hbit|done].
Qed.
End OneVote.

(** One call of [add_vote]: the first vote of a finalizer is recorded, a later
    one is reported as a duplicate and changes nothing. *)
Lemma sig_add_vote_ok p a i f is_strong sig :
  policy_wf p → agg_inv p a → finalizers p !! i = Some f →
  if strong_bit a i || weak_bit a i
  then sig_add_vote a is_strong i sig (weight f) = Ok (a, duplicate)
  else ∃ a', sig_add_vote a is_strong i sig (weight f) = Ok (a', success) ∧ agg_inv p a' ∧ vote_added is_strong i a a'.
Proof.
  intros Hp Ha Hf. pose proof (lookup_lt_Some _ _ _ Hf) as Hi.
  unfold sig_add_vote. rewrite (check_duplicate_ok _ _ _ Ha Hi), bind_ok.
  destruct (strong_bit a i) eqn:Es; [done|]. destruct (weak_bit a i) eqn:Ew; [done|]. simpl.
  destruct is_strong; [by apply add_strong_vote_ok|by apply add_weak_vote_ok].
Qed.

(** ** The certificate extracted from the votes *)

Lemma quorum_met_iff p a : policy_wf p → agg_inv p a →
  sig_is_quorum_met a = true ↔ threshold p <= strong_sum a + weak_sum a.
Proof.
  intros Hp [Hs Hw Hd Hq Hm Hss Hws Hst Hr]. unfold sig_is_quorum_met. rewrite <- Hq.
  destruct (sum_bounds p _ _ Hp Hd) as (_ & B & _). rewrite <- Hws in B.
  destruct Hst as [->|(-> & _ & ?)]; [|done]. unfold spec_state. state_cases; split; try done; intros; lia.
Qed.

Lemma strong_sum_of_strong p a : agg_inv p a → aggregating_state a = strong → threshold p <= strong_sum a.
Proof.
  intros [_ _ _ Hq _ _ _ Hst _] He. rewrite <- Hq. destruct Hst as [H|(H & _)]; rewrite He in H; [|done].
  unfold spec_state in H. state_cases; try done; lia.
Qed.

(** A certificate extracted from the aggregated votes is valid for the policy. *)
Lemma extract_valid p a : policy_wf p → agg_inv p a → sig_is_quorum_met a = true →
  ∃ s, extract_qc_sig_from_aggregating a = Ok s ∧ valid_sig p s ∧
       sig_is_strong s = bool_decide (aggregating_state a = strong) ∧
       strong_votes s = Some (votes_bitset (agg_strong_votes a)).
Proof.
  intros Hp Hinv Hq. pose proof (proj1 (quorum_met_iff p a Hp Hinv) Hq) as Hsum.
  unfold extract_qc_sig_from_aggregating. rewrite Hq. case_bool_decide as Hst.
  - pose proof (strong_sum_of_strong _ _ Hinv Hst) as Hge. destruct Hinv as [(Hs & Hsn & _) _ Hd _ _ Hss _ _ _].
    eexists. split; [done|]. split; [|done]. split; simpl; [by left|done..| |].
    + intros i. apply andb_false_r.
    + rewrite (weight_where_ext _ (strong_bit a)); [lia|]. intros j _. apply orb_false_r.
  - destruct Hinv as [(Hs & Hsn & _) (Hw & Hwn & _) Hd _ _ Hss Hws _ _].
    eexists. split; [done|]. split; [|done]. split; simpl; [by left|done..|].
    change (threshold p <= weight_where (λ j, strong_bit a j || weak_bit a j) 0 (finalizers p)).
    rewrite weight_where_or by done. lia.
Qed.

Lemma best_qc_ok p a : policy_wf p → agg_inv p a →
  ∃ best, sig_get_best_qc a = Ok best ∧ (∀ s, best = Some s → valid_sig p s) ∧
    (best = None ↔ strong_sum a + weak_sum a < threshold p ∧ received_qc_sig a = None) ∧
    (∀ s, best = Some s →
       sig_is_strong s = bool_decide (aggregating_state a = strong) || received_qc_sig_is_strong a).
Proof.
  intros Hp Hinv. pose proof (quorum_met_iff p a Hp Hinv) as Hq. pose proof (ai_received _ _ Hinv) as Hr.
  unfold sig_get_best_qc, received_qc_sig_is_strong. destruct (sig_is_quorum_met a) eqn:E; simpl.
  - destruct (extract_valid p a Hp Hinv E) as (s & Hs & Hv & Hstr & _). rewrite Hs, bind_ok.
    pose proof (proj1 Hq eq_refl). destruct (received_qc_sig a) as [r|]; eexists; (split; [done|]).
    + destruct (sig_is_strong r) eqn:Er; [|unfold sig_is_strong in Hstr; destruct (sig_is_weak s) eqn:Es]; simpl;
        (split; [intros ? [= <-]; auto|]); (split; [split; [done|intros []; lia]|]); intros ? [= <-].
      * by rewrite orb_true_r.
      * by rewrite Er, orb_false_r, <- Hstr.
      * unfold sig_is_strong. by rewrite Es, orb_false_r, <- Hstr.
    + split; [by intros ? [= <-]|]. split; [split; [done|intros []; lia]|].
      intros ? [= <-]. by rewrite orb_false_r.
  - exists (received_qc_sig a). split; [done|]. split; [done|]. split.
    + split; [|tauto]. intros ->. split; [|done]. destruct (Z_lt_le_dec (strong_sum a + weak_sum a) (threshold p)); [done|].
      by apply Hq in l.
    + intros s ->. rewrite (bool_decide_eq_false_2 (aggregating_state a = strong)); [done|].
      intros Hst. unfold sig_is_quorum_met in E. by rewrite Hst in E.
Qed.

(** ** Sequences of votes and received certificates *)

Inductive sig_op : Type :=
| op_vote (is_strong : bool) (index : nat) (sig : bls_g2)
| op_received (s : qc_sig_t).

(** Votes are only added at the index of a finalizer, with its weight. *)
Definition apply_sig_op (p : finalizer_policy) (a : aggregating_qc_sig_t) (op : sig_op)
    : result aggregating_qc_sig_t :=
  match op with
  | op_vote is_strong index sig =>
    match finalizers p !! index with
    | None => Ok a
    | Some f => '(a, _) ← sig_add_vote a is_strong index sig (weight f); Ok a
    end
  | op_received s => Ok (fst (set_received_qc_sig a s))
  end.

Definition run_sig_ops (p : finalizer_policy) (ops : list sig_op) : result aggregating_qc_sig_t :=
  foldl (λ r op, a ← r; apply_sig_op p a op) (aggregating_qc_sig_of_policy p) ops.

(** The first vote of a finalizer, in the order the calls took the lock. *)
Definition vote_of (i : nat) (op : sig_op) : option bool :=
  match op with
  | op_vote s j _ => if bool_decide (i = j) then Some s else None
  | op_received _ => None
  end.

Definition first_vote (ops : list sig_op) (i : nat) : option bool := head (omap (vote_of i) ops).

Lemma first_vote_snoc ops op i :
  first_vote (ops ++ [op]) i = match first_vote ops i with Some s => Some s | None => vote_of i op end.
Proof.
  unfold first_vote. rewrite omap_app. simpl. destruct (omap (vote_of i) ops); [|done]. simpl.
  by destruct (vote_of i op).
Qed.

Definition votes_are (a : aggregating_qc_sig_t) (n : nat) (fv : nat → option bool) : Prop :=
  ∀ i, (i < n)%nat → strong_bit a i = bool_decide (fv i = Some true) ∧ weak_bit a i = bool_decide (fv i = Some false).

Lemma set_received_inv p a s : agg_inv p a → valid_sig p s → agg_inv p (fst (set_received_qc_sig a s)).
Proof.
  intros Hinv Hs. unfold set_received_qc_sig.
  destruct (received_qc_sig a) as [r|]; [destruct (sig_is_weak r && sig_is_strong s); [|done]|];
    destruct Hinv; split; simpl; try done; by intros ? [= <-].
Qed.

Lemma set_received_bits a s i :
  strong_bit (fst (set_received_qc_sig a s)) i = strong_bit a i ∧
  weak_bit (fst (set_received_qc_sig a s)) i = weak_bit a i.
Proof.
  unfold set_received_qc_sig.
  by destruct (received_qc_sig a) as [r|]; [destruct (sig_is_weak r && sig_is_strong s)|].
Qed.

Lemma vote_op_ok p a n fv is_strong k sig fv' :
  policy_wf p → agg_inv p a → n = length (finalizers p) → votes_are a n fv →
  (∀ i, fv' i = match fv i with Some s => Some s | None => vote_of i (op_vote is_strong k sig) end) →
  ∃ a', apply_sig_op p a (op_vote is_strong k sig) = Ok a' ∧ agg_inv p a' ∧ votes_are a' n fv'.
Proof.
  intros Hp Hinv -> Hv Hfv. simpl. destruct (finalizers p !! k) as [f|] eqn:Hf.
  2: { exists a. split_and!; [done..|]. intros i Hi. destruct (Hv i Hi) as [-> ->]. rewrite Hfv. simpl.
       rewrite (bool_decide_eq_false_2 (i = k)) by (intros ->; apply lookup_ge_None in Hf; lia). by destruct (fv i). }
  pose proof (sig_add_vote_ok p a k f is_strong sig Hp Hinv Hf) as H.
  pose proof (lookup_lt_Some _ _ _ Hf) as Hk. destruct (Hv k Hk) as [Hks Hkw].
  destruct (strong_bit a k || weak_bit a k) eqn:Eb.
  - rewrite H. exists a. split_and!; [done..|]. intros i Hi. destruct (Hv i Hi) as [-> ->]. rewrite Hfv. simpl.
    destruct (fv i) as [|] eqn:E; [done|]. destruct (decide (i = k)) as [->|Hik].
    + by rewrite Hks, Hkw, E in Eb.
    + by rewrite (bool_decide_eq_false_2 (i = k)).
  - destruct H as (a' & -> & Hinv' & Hs & Hw & _). exists a'. split_and!; [done..|]. intros i Hi.
    rewrite Hs, Hw, Hfv. destruct (Hv i Hi) as [-> ->]. simpl. destruct (decide (i = k)) as [->|Hik].
    + rewrite (bool_decide_eq_true_2 (k = k)) by done.
      rewrite Hks, Hkw in Eb. destruct (fv k) as [[]|]; [done..|]. by destruct is_strong.
    + rewrite (bool_decide_eq_false_2 (i = k)), !andb_false_r by done. by destruct (fv i).
Qed.

Lemma run_sig_ops_ok p ops :
  policy_wf p → total_weight (finalizers p) < 2147483648 →
  (∀ s, op_received s ∈ ops → valid_sig p s) →
  ∃ a, run_sig_ops p ops = Ok a ∧ agg_inv p a ∧ votes_are a (length (finalizers p)) (first_vote ops).
Proof.
  intros Hp Ht. unfold run_sig_ops. induction ops as [|op ops IH] using rev_ind; intros Hr.
  - destruct (agg_new_ok p Hp Ht) as (a & Ha & Hinv & Hs & Hw). exists a. split_and!; [done..|].
    intros i _. by rewrite Hs, Hw.
  - destruct IH as (a & Ha & Hinv & Hv); [intros s Hs; apply Hr, elem_of_app; by left|].
    rewrite foldl_snoc, Ha, bind_ok. destruct op as [is_strong k sig|s].
    + apply (vote_op_ok p a _ (first_vote ops)); [done..|]. intros i. apply first_vote_snoc.
    + simpl. eexists. split; [done|]. split; [apply set_received_inv; [done|apply Hr, elem_of_app; right; by left]|].
      intros i Hi. destruct (set_received_bits a s i) as [-> ->]. rewrite first_vote_snoc. simpl.
      destruct (Hv i Hi) as [-> ->]. by destruct (first_vote ops i).
Qed.

(** ** Votes on a block *)

(** The policies and their aggregators belong together. *)
Definition agg_qc_inv (q : aggregating_qc_t) : Prop :=
  policy_wf (agg_active_policy q) ∧ agg_inv (agg_active_policy q) (agg_active_sig q) ∧
  match agg_pending_policy q, agg_pending_sig q with
  | None, None => True
  | Some p, Some a => policy_wf p ∧ agg_inv p a
  | _, _ => False
  end.

(** What one policy's aggregator does with a vote message. *)
Definition vote_effect (vote : vote_message) (ok : bool) (p : finalizer_policy)
    (a a' : aggregating_qc_sig_t) (r : vote_result_t) : Prop :=
  match list_find (λ f, public_key f = finalizer_key vote) (finalizers p) with
  | None => a' = a ∧ r = unknown_public_key
  | Some (i, f) =>
    if strong_bit a i || weak_bit a i then a' = a ∧ r = duplicate
    else if ok then vote_added (vote_strong vote) i a a' ∧ r = success
    else a' = a ∧ r = invalid_signature
  end.

Lemma add_vote_to_ok vote digest g verified p a :
  policy_wf p → agg_inv p a → jacobian_montgomery_le (finalizer_key vote) = Ok g →
  (verified = true → bls_verify g digest (vote_sig vote) = true) →
  ∃ a' verified' auth r, add_vote_to vote digest verified p a = Ok (a', verified', auth, r) ∧ agg_inv p a' ∧
    vote_effect vote (bls_verify g digest (vote_sig vote)) p a a' r ∧
    (verified' = true → bls_verify g digest (vote_sig vote) = true).
Proof.
  intros Hp Hinv Hg Hver. unfold add_vote_to, vote_effect.
  destruct (list_find _ _) as [[i f]|] eqn:E; [|by eexists a, _, _, _].
  apply list_find_Some in E as (Hf & Hkey & _). pose proof (lookup_lt_Some _ _ _ Hf) as Hi.
  rewrite (sig_has_voted_ok _ _ _ Hinv Hi), bind_ok.
  pose proof (sig_add_vote_ok p a i f (vote_strong vote) (vote_sig vote) Hp Hinv Hf) as H.
  destruct (strong_bit a i || weak_bit a i); [by eexists a, _, _, _|].
  destruct H as (a' & Ha' & Hinv' & Hadd). unfold verify_sig.
  destruct verified.
  - rewrite Hver by done. rewrite bind_ok. simpl. rewrite Ha', bind_ok. by eexists a', _, _, _.
  - rewrite Hg, bind_ok. destruct (bls_verify _ _ _); rewrite bind_ok; simpl; [|by eexists a, _, _, _].
    rewrite Ha', bind_ok. by eexists a', _, _, _.
Qed.

Lemma vote_effect_bad vote p a a' r : vote_effect vote false p a a' r → a' = a ∧ r ≠ success.
Proof.
  unfold vote_effect. destruct (list_find _ _) as [[i f]|]; [destruct (_ || _)|]; by intros [-> ->].
Qed.

Lemma vote_effect_unknown vote ok p a a' : vote_effect vote ok p a a' unknown_public_key → a' = a.
Proof.
  unfold vote_effect. destruct (list_find _ _) as [[i f]|]; [destruct (_ || _); [|destruct ok]|]; by intros [].
Qed.

(** ** The certificate of a block *)

Lemma agg_get_best_qc_ok q n :
  agg_qc_inv q →
  ∃ best, agg_get_best_qc q n = Ok best ∧
    ∀ qc, best = Some qc →
      qc_block_num qc = n ∧ valid_sig (agg_active_policy q) (active_policy_sig qc) ∧
      match agg_pending_policy q, pending_policy_sig qc with
      | None, None => True
      | Some p, Some s => valid_sig p s
      | _, _ => False
      end.
Proof.
  intros (Hp & Hinv & Hpend). unfold agg_get_best_qc.
  destruct (best_qc_ok _ _ Hp Hinv) as (b & -> & Hv & _). rewrite bind_ok.
  destruct b as [b|]; [|by eexists].
  destruct (agg_pending_policy q) as [p|], (agg_pending_sig q) as [a|]; try done.
  - destruct Hpend as [Hp' Hinv']. destruct (best_qc_ok _ _ Hp' Hinv') as (b' & -> & Hv' & _). rewrite bind_ok.
    destruct b' as [b'|]; eexists; (split; [done|]); [|done]. intros ? [= <-]. simpl. auto.
  - eexists. split; [done|]. intros ? [= <-]. simpl. auto.
Qed.

Lemma opt_wf_sig_wf p s : valid_sig p s → sig_wf s.
Proof.
  intros [_ Hs Hw _ _]. split; intros b Hb; rewrite Hb in *; [apply Hs|apply Hw].
Qed.

(** ** Vote metrics *)

(** The finalizers whose index satisfies [P], by key. *)
Fixpoint fin_map (P : nat → bool) (gen : Z) (i : nat) (fs : list finalizer_authority) : fin_auth_set_t :=
  match fs with
  | [] => ∅
  | f :: fs =>
    if P i then <[public_key f := FinAuth f gen]> (fin_map P gen (S i) fs) else fin_map P gen (S i) fs
  end.

Definition policy_map (P : nat → bool) (p : finalizer_policy) : fin_auth_set_t :=
  fin_map P (generation p) 0 (finalizers p).

(** [std::set::insert] is a left-biased union with a singleton. *)
Lemma fin_auth_insert_union (x : fin_auth_t) (acc m : fin_auth_set_t) :
  fin_auth_insert x acc ∪ m = acc ∪ <[public_key (fa_auth x) := x]> m.
Proof.
  apply map_eq. intros k. unfold fin_auth_insert.
  destruct (acc !! public_key (fa_auth x)) as [y|] eqn:E.
  - destruct (decide (k = public_key (fa_auth x))) as [->|Hk].
    + by rewrite !(lookup_union_Some_l _ _ _ _ E).
    + rewrite !lookup_union, lookup_insert_ne by done. done.
  - destruct (decide (k = public_key (fa_auth x))) as [->|Hk].
    + by rewrite !lookup_union, E, !lookup_insert_eq, union_Some_l, (left_id_L None _).
    + by rewrite !lookup_union, !lookup_insert_ne by done.
Qed.

Lemma fin_map_ext P Q gen fs i :
  (∀ j, (i ≤ j < i + length fs)%nat → P j = Q j) → fin_map P gen i fs = fin_map Q gen i fs.
Proof.
  revert i. induction fs as [|f fs IH]; intros i H; simpl; [done|].
  rewrite (H i) by (simpl; lia). rewrite (IH (S i)); [done|]. intros j Hj. apply H. simpl. lia.
Qed.

Lemma fin_map_none P gen fs i : (∀ j, (i ≤ j < i + length fs)%nat → P j = false) → fin_map P gen i fs = ∅.
Proof.
  revert i. induction fs as [|f fs IH]; intros i H; simpl; [done|].
  rewrite (H i) by (simpl; lia). apply IH. intros j Hj. apply H. simpl. lia.
Qed.

(** With distinct keys, the map holds exactly the selected finalizers. *)
Lemma fin_map_lookup P gen fs i k x : NoDup (public_key <$> fs) →
  fin_map P gen i fs !! k = Some x ↔
  ∃ j f, fs !! j = Some f ∧ P (i + j)%nat = true ∧ public_key f = k ∧ x = FinAuth f gen.
Proof.
  revert i. induction fs as [|f fs IH]; intros i Hnd; simpl.
  { rewrite lookup_empty. split; [done|]. by intros (j & ? & ? & _). }
  apply NoDup_cons in Hnd as [Hf Hnd]. specialize (IH (S i) Hnd).
  assert (∀ j g, fs !! j = Some g → public_key g ≠ public_key f) as Hne.
  { intros j g Hj He. apply Hf. rewrite <- He. by eapply list_elem_of_fmap_2, list_elem_of_lookup_2. }
  assert ((∃ j g, fs !! j = Some g ∧ P (S i + j)%nat = true ∧ public_key g = k ∧ x = FinAuth g gen) ↔
          ∃ j g, (f :: fs) !! S j = Some g ∧ P (i + S j)%nat = true ∧ public_key g = k ∧ x = FinAuth g gen) as Hsh.
  { split; intros (j & g & ? & ? & ?); exists j, g; rewrite ?Nat.add_succ_r in *; done. }
  destruct (P i) eqn:EP; [destruct (decide (k = public_key f)) as [->|Hk]|].
  - rewrite lookup_insert_eq. split.
    + intros [= <-]. exists 0%nat, f. by rewrite Nat.add_0_r.
    + intros ([|j] & g & Hj & _ & Hkey & ->); simpl in Hj; [by simplify_eq|]. by apply Hne in Hj.
  - rewrite lookup_insert_ne by done. rewrite IH, Hsh. split.
    + intros (j & g & ?). by exists (S j), g.
    + intros ([|j] & g & Hj & ? & ? & ?); simpl in Hj; [simplify_eq|by exists j, g].
  - rewrite IH, Hsh. split.
    + intros (j & g & ?). by exists (S j), g.
    + intros ([|j] & g & Hj & ? & ? & ?); simpl in Hj; [|by exists j, g]. rewrite Nat.add_0_r in *. congruence.
Qed.

Lemma add_not_voted_from_ok gen b o fs : bitset_wf b → opt_wf (m_num_bits b) o → ∀ i acc,
  (i + length fs ≤ m_num_bits b)%nat →
  add_not_voted_from gen b o fs i acc = Ok (acc ∪ fin_map (λ j, negb (bit b j || opt_bit o j)) gen i fs).
Proof.
  intros Hb Ho. induction fs as [|f fs IH]; intros i acc Hi; cbn [add_not_voted_from fin_map].
  { by rewrite (right_id_L ∅ (∪)). }
  simpl in Hi. rewrite (test_ok b) by (done || lia). rewrite bind_ok.
  assert ((if bit b i then Ok false else opt_test o i) = Ok (negb (bit b i) && opt_bit o i)) as ->.
  { destruct (bit b i); [done|]. by rewrite (opt_test_ok _ _ _ Ho) by lia. }
  rewrite bind_ok, IH by lia. destruct (bit b i), (opt_bit o i); simpl; [done..|].
  by rewrite fin_auth_insert_union.
Qed.

Lemma add_not_voted_ok p s acc : valid_sig p s →
  add_not_voted p s acc = Ok (acc ∪ policy_map (λ i, negb (has_vote s i)) p).
Proof.
  intros [Hpr Hs Hw Hd _]. unfold add_not_voted, policy_map, has_vote.
  destruct (strong_votes s) as [sv|].
  - destruct Hs as [Hs Hsn]. rewrite bind_ok, assert_bind by (by apply bool_decide_eq_true).
    rewrite assert_bind by (destruct (weak_votes s); [apply bool_decide_eq_true, Hw|done]).
    apply add_not_voted_from_ok; [done|by rewrite Hsn|lia].
  - destruct (weak_votes s) as [wv|]; [|by destruct Hpr]. destruct Hw as [Hw Hwn].
    rewrite bind_ok, assert_bind by (by apply bool_decide_eq_true). rewrite assert_bind by done.
    rewrite add_not_voted_from_ok by (done || lia). do 2 f_equal. apply fin_map_ext. intros j _. simpl.
    by rewrite orb_false_r.
Qed.

Fixpoint count_where (P : nat → bool) (i : nat) (fs : list finalizer_authority) : nat :=
  match fs with [] => 0 | f :: fs => (if P i then 1 else 0) + count_where P (S i) fs end.

Lemma count_where_full P fs i :
  (count_where P i fs ≤ length fs)%nat ∧
  (count_where P i fs = length fs → ∀ j, (i ≤ j < i + length fs)%nat → P j = true).
Proof.
  revert i. induction fs as [|f fs IH]; intros i; simpl; [split; intros; lia|].
  destruct (IH (S i)) as [Hle Hall]. destruct (P i) eqn:E; simpl; (split; [lia|]); intros Hc j Hj; [|lia].
  destruct (decide (j = i)) as [->|]; [done|]. apply Hall; lia.
Qed.

Lemma add_votes_ok p b acc : bitset_wf b → m_num_bits b = length (finalizers p) →
  add_votes p b acc = Ok (acc ∪ policy_map (bit b) p, count_where (bit b) 0 (finalizers p)).
Proof.
  intros Hb Hn. unfold add_votes, policy_map. rewrite assert_bind by (by apply bool_decide_eq_true).
  assert (∀ fs i acc added, (i + length fs ≤ m_num_bits b)%nat →
    add_votes_from (generation p) b fs i acc added =
    Ok (acc ∪ fin_map (bit b) (generation p) i fs, (count_where (bit b) i fs + added)%nat)) as Hloop.
  { induction fs as [|f fs IH]; intros i acc' added Hi; cbn [add_votes_from fin_map count_where].
    { by rewrite (right_id_L ∅ (∪)). }
    simpl in Hi. rewrite test_ok by (done || lia). rewrite bind_ok.
    destruct (bit b i); rewrite IH by lia; [|done].
    rewrite fin_auth_insert_union. do 2 f_equal. lia. }
  rewrite Hloop by lia. by rewrite Nat.add_0_r.
Qed.

(** The metrics of one policy, added to those of another. *)
Definition metrics_of (p : finalizer_policy) (s : qc_sig_t) (m : qc_vote_metrics_t) : qc_vote_metrics_t :=
  QcVoteMetrics (metrics_strong m ∪ policy_map (opt_bit (strong_votes s)) p)
                (metrics_weak m ∪ policy_map (opt_bit (weak_votes s)) p)
                (metrics_missing m ∪ policy_map (λ i, negb (has_vote s i)) p).

Lemma opt_votes_ok p votes acc added : opt_wf (length (finalizers p)) votes →
  match votes with Some b => add_votes p b acc | None => Ok (acc, added) end =
  Ok (acc ∪ policy_map (opt_bit votes) p, match votes with Some b => count_where (bit b) 0 (finalizers p) | None => added end).
Proof.
  destruct votes as [b|]; [intros []; by apply add_votes_ok|]. intros _. do 2 f_equal. unfold policy_map.
  by rewrite fin_map_none, (right_id_L ∅ (∪)).
Qed.

(** The bits that are set in neither set of votes. *)
Lemma not_voted_bits_ok p s : valid_sig p s → ∃ b,
  (nv ← match strong_votes s with Some b => Ok b | None => bitset_new (length (finalizers p)) end;
   nv ← match weak_votes s with
        | Some b => assert_ (bool_decide (bitset_size nv = bitset_size b));; bitset_or nv b
        | None => Ok nv
        end;
   bitset_flip nv) = Ok b ∧ bitset_wf b ∧ m_num_bits b = length (finalizers p) ∧
  ∀ i, (i < length (finalizers p))%nat → bit b i = negb (has_vote s i).
Proof.
  intros [_ Hs Hw _ _]. unfold has_vote.
  assert (∃ sv, match strong_votes s with Some b => Ok b | None => bitset_new (length (finalizers p)) end = Ok sv ∧
    bitset_wf sv ∧ m_num_bits sv = length (finalizers p) ∧ ∀ i, bit sv i = opt_bit (strong_votes s) i)
    as (sv & -> & Hsv & Hsn & Hsb).
  { destruct (strong_votes s) as [sv|]; [destruct Hs; by exists sv|].
    destruct (new_ok (length (finalizers p))) as (sv & H1 & H2 & H3 & H4). by exists sv. }
  rewrite bind_ok.
  assert (∃ nv, match weak_votes s with
        | Some b => assert_ (bool_decide (bitset_size sv = bitset_size b));; bitset_or sv b
        | None => Ok sv
        end = Ok nv ∧ bitset_wf nv ∧ m_num_bits nv = length (finalizers p) ∧
      ∀ i, bit nv i = opt_bit (strong_votes s) i || opt_bit (weak_votes s) i) as (nv & -> & Hnv & Hnn & Hnb).
  { destruct (weak_votes s) as [wv|].
    - destruct Hw as [Hw Hwn]. destruct (or_ok sv wv) as (o & H1 & H2 & H3 & H4); [done..|congruence|].
      rewrite assert_bind by (apply bool_decide_eq_true; unfold bitset_size; congruence).
      exists o. split_and!; [done..|congruence|]. intros i. by rewrite H4, Hsb.
    - exists sv. split_and!; [done..|]. intros i. by rewrite Hsb, orb_false_r. }
  rewrite bind_ok. destruct (flip_ok nv Hnv) as (b & H1 & H2 & H3 & H4). exists b.
  split_and!; [done..|congruence|]. intros i Hi. rewrite H4, Hnb, bool_decide_eq_true_2 by lia. done.
Qed.

Lemma add_policy_votes_ok p s m : valid_sig p s → add_policy_votes p s m = Ok (metrics_of p s m).
Proof.
  intros Hv. pose proof Hv as [Hpr Hs Hw Hd _]. unfold add_policy_votes, metrics_of.
  rewrite (opt_votes_ok p (strong_votes s)) by done. rewrite bind_ok.
  rewrite (opt_votes_ok p (weak_votes s)) by done. rewrite bind_ok.
  case_bool_decide as Hc.
  - do 2 f_equal. unfold policy_map. rewrite fin_map_none; [by rewrite (right_id_L ∅ (∪))|].
    intros j Hj. apply negb_false_iff. unfold has_vote. destruct (weak_votes s) as [wv|]; simpl.
    + rewrite (proj2 (count_where_full _ _ _) Hc j Hj). apply orb_true_r.
    + destruct (strong_votes s) as [sv|]; [|by destruct Hpr]. simpl.
      by rewrite (proj2 (count_where_full _ _ _) Hc j Hj).
  - destruct (not_voted_bits_ok p s Hv) as (b & Hb & Hwf & Hn & Hbit).
    apply bind_inv in Hb as (nv & -> & Hb). apply bind_inv in Hb as (nv' & Hb' & Hb). rewrite bind_ok, Hb', bind_ok, Hb, bind_ok.
    rewrite add_votes_ok, bind_ok by done. do 3 f_equal. unfold policy_map. apply fin_map_ext.
    intros j Hj. apply Hbit. lia.
Qed.

(** * Theorems *)

(** [verify_basic] accepts a certificate exactly when each signature has
    well-formed, disjoint vote sets whose weight reaches the threshold, a
    pending signature is there exactly when a pending policy is, and every
    finalizer of both policies voted the same way in both. *)
Theorem verify_basic_accepts_valid qc policies :
  policies_wf policies → qc_wf qc → verify_basic qc policies = Ok tt ↔ valid_qc policies qc.
Proof. apply verify_basic_iff. Qed.

(** Two certificates accepted for the same policies were both voted for by
    a common finalizer of the active policy, and by one of the pending policy. *)
Theorem verified_qcs_intersect qc1 qc2 policies :
  policies_wf policies → qc_wf qc1 → qc_wf qc2 →
  verify_basic qc1 policies = Ok tt → verify_basic qc2 policies = Ok tt →
  (∃ j f, finalizers (active_finalizer_policy policies) !! j = Some f ∧
     has_vote (active_policy_sig qc1) j = true ∧ has_vote (active_policy_sig qc2) j = true) ∧
  ∀ p, pending_finalizer_policy policies = Some p →
    ∃ s1 s2 j f, pending_policy_sig qc1 = Some s1 ∧ pending_policy_sig qc2 = Some s2 ∧
      finalizers p !! j = Some f ∧ has_vote s1 j = true ∧ has_vote s2 j = true.
Proof.
  intros Hp H1 H2 Hv1 Hv2. rewrite verify_basic_iff in Hv1, Hv2 by done. destruct Hp as [Hp Hpp].
  destruct Hv1 as [Ha1 Hb1], Hv2 as [Ha2 Hb2]. split.
  - apply (quorum_intersection _ _ _ _ (pw_weights _ Hp) (proj1 (pw_threshold _ Hp))); [apply Ha1|apply Ha2].
  - intros p Hpe. rewrite Hpe in *. specialize (Hpp _ eq_refl).
    destruct (pending_policy_sig qc1) as [s1|], (pending_policy_sig qc2) as [s2|]; try done.
    destruct Hb1 as [Hb1 _], Hb2 as [Hb2 _].
    destruct (quorum_intersection _ _ _ _ (pw_weights _ Hpp) (proj1 (pw_threshold _ Hpp))
      (vs_quorum _ _ Hb1) (vs_quorum _ _ Hb2)) as (j & f & Hj).
    by exists s1, s2, j, f.
Qed.

(** After any sequence of votes and received certificates, in any order, no
    assertion is tripped, exactly the first vote of each finalizer is counted,
    the sums are the weights of these votes, and the state is the documented
    function of the sums, up to an early [weak_final] at the boundary. *)
Theorem aggregation_counts_first_votes p ops :
  policy_wf p → total_weight (finalizers p) < 2147483648 →
  (∀ s, op_received s ∈ ops → valid_sig p s) →
  ∃ a, run_sig_ops p ops = Ok a ∧
    strong_sum a = weight_where (λ i, bool_decide (first_vote ops i = Some true)) 0 (finalizers p) ∧
    weak_sum a = weight_where (λ i, bool_decide (first_vote ops i = Some false)) 0 (finalizers p) ∧
    (sig_is_quorum_met a = true ↔ threshold p <= strong_sum a + weak_sum a) ∧
    state_ok (threshold p) (total_weight (finalizers p) - threshold p) (strong_sum a) (weak_sum a) (aggregating_state a).
Proof.
  intros Hp Ht Hr. destruct (run_sig_ops_ok p ops Hp Ht Hr) as (a & Ha & Hinv & Hv).
  exists a. split; [done|]. split_and!; [| |by apply quorum_met_iff|].
  - rewrite (ai_ssum _ _ Hinv). apply weight_where_ext. intros j Hj. apply Hv. lia.
  - rewrite (ai_wsum _ _ Hinv). apply weight_where_ext. intros j Hj. apply Hv. lia.
  - rewrite <- (ai_quorum _ _ Hinv) at 1. rewrite <- (ai_max _ _ Hinv). apply Hinv.
Qed.

(** The best certificate of one policy, after any sequence of votes and
    received certificates, is valid; there is one exactly when the votes reach the
    threshold or a certificate was received, and it is strong when the strong
    votes reached the threshold in time or a strong one was received. *)
Theorem best_qc_valid p ops :
  policy_wf p → total_weight (finalizers p) < 2147483648 →
  (∀ s, op_received s ∈ ops → valid_sig p s) →
  ∃ a best, run_sig_ops p ops = Ok a ∧ sig_get_best_qc a = Ok best ∧
    (∀ s, best = Some s → (verify_vote_format s p;; verify_weights s p) = Ok tt ∧
       sig_is_strong s = bool_decide (aggregating_state a = strong) || received_qc_sig_is_strong a) ∧
    (best = None ↔ strong_sum a + weak_sum a < threshold p ∧ received_qc_sig a = None).
Proof.
  intros Hp Ht Hr. destruct (run_sig_ops_ok p ops Hp Ht Hr) as (a & Ha & Hinv & Hv).
  destruct (best_qc_ok _ _ Hp Hinv) as (b & Hb & Hval & Hnone & Hstr).
  exists a, b. split_and!; [done..| |done]. intros s Hs. split; [|auto].
  apply verify_sig_iff; [done|eapply opt_wf_sig_wf|]; by apply Hval.
Qed.

(** [aggregate_vote] never fails on a well-formed aggregator; a vote whose
    signature does not verify, or whose key is in neither policy, changes
    nothing; a verified one is recorded with its kind at the voter's index. *)
Theorem aggregate_vote_correct q vote digest g :
  agg_qc_inv q → jacobian_montgomery_le (finalizer_key vote) = Ok g →
  let ok := bls_verify g digest (vote_sig vote) in
  ∃ q' r, aggregate_vote q vote digest = Ok (q', r) ∧ agg_qc_inv q' ∧
    (ok = false → q' = q ∧ avr_result r ≠ success) ∧
    (avr_result r = unknown_public_key → q' = q) ∧
    ∃ ra, vote_effect vote ok (agg_active_policy q) (agg_active_sig q) (agg_active_sig q') ra ∧
      match agg_pending_policy q, agg_pending_sig q, agg_pending_sig q' with
      | Some p, Some a, Some a' =>
        if bool_decide (ra = success ∨ ra = unknown_public_key)
        then ∃ rp, vote_effect vote ok p a a' rp ∧ avr_result r = (if bool_decide (rp = unknown_public_key) then ra else rp)
        else a' = a ∧ avr_result r = ra
      | _, _, _ => avr_result r = ra ∧ agg_pending_sig q' = agg_pending_sig q
      end.
Proof.
  intros (Hp & Hinv & Hpend) Hg ok. unfold aggregate_vote.
  destruct (add_vote_to_ok vote digest g false _ _ Hp Hinv Hg ltac:(done)) as (a & vf & auth & ra & -> & Hinv' & He & Hvf).
  rewrite bind_ok. fold ok in He, Hvf.
  destruct q as [ap pp asig psig]; simpl in *. destruct pp as [p|], psig as [ps|]; try done.
  - destruct Hpend as [Hp' Hinvp].
    destruct (bool_decide (ra = success) || bool_decide (ra = unknown_public_key)) eqn:Eb.
    + destruct (add_vote_to_ok vote digest g vf _ _ Hp' Hinvp Hg Hvf) as (b & vf' & pauth & rp & -> & Hinvp' & Hep & _).
      rewrite bind_ok. fold ok in Hep. eexists _, _. split; [done|]. split; [done|]. simpl. split_and!.
      * intros Hok. rewrite Hok in He, Hep. apply vote_effect_bad in He as [-> ?], Hep as [-> ?].
        split; [done|]. by destruct (bool_decide (rp = _)).
      * destruct (bool_decide (rp = _)) eqn:Erp; breflect; intros H; [|done]. subst. by rewrite (vote_effect_unknown _ _ _ _ _ He), (vote_effect_unknown _ _ _ _ _ Hep).
      * exists ra. split; [done|]. rewrite bool_decide_eq_true_2; [by exists rp|].
        apply orb_prop in Eb as [E|E]; apply bool_decide_eq_true in E; auto.
    + eexists _, _. split; [done|]. split; [done|]. simpl. apply orb_false_elim in Eb as [E1 E2].
      apply bool_decide_eq_false in E1, E2. split_and!; [|done|].
      * intros Hok. rewrite Hok in He. by apply vote_effect_bad in He as [-> ?].
      * exists ra. split; [done|]. rewrite bool_decide_eq_false_2 by tauto. done.
  - rewrite if_same. eexists _, _. split; [done|]. split; [done|]. simpl. split_and!; [| |by exists ra].
    + intros Hok. rewrite Hok in He. by apply vote_effect_bad in He as [-> ?].
    + intros ->. by rewrite (vote_effect_unknown _ _ _ _ _ He).
Qed.

(** For a certificate with valid signatures, [vote_metrics] partitions the
    finalizers of the policies into strong, weak and missing voters, an entry of
    the active policy taking precedence, and [missing_votes] returns the same
    missing voters. *)
Theorem metrics_account_for_every_finalizer q qc :
  policy_wf (agg_active_policy q) → valid_sig (agg_active_policy q) (active_policy_sig qc) →
  match agg_pending_policy q, agg_pending_sig q, pending_policy_sig qc with
  | None, _, _ => True
  | Some p, Some _, Some s => valid_sig p s
  | _, _, _ => False
  end →
  ∃ m, vote_metrics q qc = Ok m ∧ missing_votes q qc = Ok (metrics_missing m) ∧
    ∀ j f, finalizers (agg_active_policy q) !! j = Some f →
      let x := FinAuth f (generation (agg_active_policy q)) in
      (opt_bit (strong_votes (active_policy_sig qc)) j = true → metrics_strong m !! public_key f = Some x) ∧
      (opt_bit (weak_votes (active_policy_sig qc)) j = true → metrics_weak m !! public_key f = Some x) ∧
      (has_vote (active_policy_sig qc) j = false → metrics_missing m !! public_key f = Some x).
Proof.
  intros Hp Ha Hpend. unfold vote_metrics, missing_votes.
  rewrite (add_policy_votes_ok _ _ _ Ha), (add_not_voted_ok _ _ _ Ha), !bind_ok.
  assert (∃ r, metrics_of (agg_active_policy q) (active_policy_sig qc) (QcVoteMetrics ∅ ∅ ∅) = r) as [r Hr] by eauto.
  assert (∀ (P : nat → bool) j f (m : fin_auth_set_t), finalizers (agg_active_policy q) !! j = Some f → P j = true →
    (∅ ∪ policy_map P (agg_active_policy q) ∪ m) !! public_key f = Some (FinAuth f (generation (agg_active_policy q)))) as Hin.
  { intros P j f m Hj HP. apply lookup_union_Some_l. rewrite (left_id_L ∅ (∪)).
    apply fin_map_lookup; [apply Hp|]. by exists j, f. }
  assert (∀ st wk ms : fin_auth_set_t, ∀ j f, finalizers (agg_active_policy q) !! j = Some f →
    let x := FinAuth f (generation (agg_active_policy q)) in
    let m := QcVoteMetrics (metrics_strong r ∪ st) (metrics_weak r ∪ wk) (metrics_missing r ∪ ms) in
    (opt_bit (strong_votes (active_policy_sig qc)) j = true → metrics_strong m !! public_key f = Some x) ∧
    (opt_bit (weak_votes (active_policy_sig qc)) j = true → metrics_weak m !! public_key f = Some x) ∧
    (has_vote (active_policy_sig qc) j = false → metrics_missing m !! public_key f = Some x)) as Hall.
  { intros st wk ms j f Hj. subst r. simpl. split_and!; intros Hb; apply (Hin _ j f _ Hj); [done..|by rewrite Hb]. }
  rewrite Hr. destruct (agg_pending_policy q) as [p|].
  - destruct (agg_pending_sig q), (pending_policy_sig qc) as [s|]; try done.
    rewrite (add_policy_votes_ok _ _ _ Hpend), (add_not_voted_ok _ _ _ Hpend).
    eexists. split; [done|]. split; [by rewrite <- Hr|]. apply Hall.
  - eexists. split; [done|]. split; [by rewrite <- Hr|]. intros j f Hj.
    destruct (Hall ∅ ∅ ∅ j f Hj) as (H1 & H2 & H3). simpl in H1, H2, H3. rewrite !(right_id_L ∅ (∪)) in H1, H2, H3. done.
Qed.

End Theory.

(** * Concrete policies and votes *)

(** A signature scheme for the examples: a signature is the sum of the first
    byte of the key and the first byte of the message. *)
Definition toy_bls : Bls := {|
  bls_g1 := list Z; bls_g2 := Z; g1_from_affine_bytes_le := Some;
  bls_g2_zero := 0; bls_g2_add := Z.add;
  aggregate_public_keys := λ ks, [foldr (λ k s, default 0 (head k) + s) 0 ks];
  bls_verify := λ pk m s, s =? default 0 (head pk) + default 0 (head m);
  aggregate_verify := λ pks ms s,
    s =? foldr Z.add 0 (zip_with (λ k m, default 0 (head k) + default 0 (head m)) pks ms) |}.

#[local] Existing Instance toy_bls.

Definition fin (k w : Z) : finalizer_authority := FinalizerAuthority [] w [k].
Definition policy3 (gen a b c : Z) : finalizer_policy := FinalizerPolicy gen 2 [fin a 1; fin b 1; fin c 1].
Definition policy5 : finalizer_policy := FinalizerPolicy 1 3 [fin 1 1; fin 2 1; fin 3 1; fin 4 1; fin 5 1].
Definition a_vote (is_strong : bool) (k : Z) : vote_message := VoteMessage sha256_zero is_strong [k] (k + 7).

Lemma policy3_wf gen a b c : NoDup [[a]; [b]; [c]] → policy_wf (policy3 gen a b c).
Proof.
  intros Hnd. split; [repeat constructor; simpl; lia|vm_compute; done|vm_compute; done|done|].
  unfold max_finalizers. simpl. lia.
Qed.

Lemma policy5_wf : policy_wf policy5.
Proof.
  split; [repeat constructor; simpl; lia|vm_compute; done|vm_compute; done| |unfold max_finalizers; simpl; lia].
  apply (bool_decide_unpack _). vm_compute. done.
Qed.

(** Votes for a block with an active and a pending policy that share the finalizer with key 1. *)
Definition run_votes (q : result aggregating_qc_t) (votes : list vote_message) : result aggregating_qc_t :=
  foldl (λ r v, q ← r; '(q, _) ← aggregate_vote q v [7]; Ok q) q votes.

(** Honest votes on a block with a pending policy can aggregate to a
    certificate that [verify_basic] rejects: the active policy reaches a strong
    quorum without the shared finalizer, whose weak vote is then dropped from
    the active signature but kept in the weak signature of the pending policy. *)
Theorem best_qc_may_break_the_dual_vote_rule :
  let active := policy3 1 1 2 3 in
  let pending := policy3 2 1 4 5 in
  let votes := [a_vote false 1; a_vote true 2; a_vote true 3; a_vote true 4] in
  returns (run_votes (aggregating_qc_new active (Some pending)) votes) (λ q,
    agg_is_quorum_met q = true ∧
    returns (agg_get_best_qc q 10) (λ best,
      (λ qc, verify_basic qc (FinalizerPolicies sha256_zero active (Some pending))) <$> best = Some (Err invalid_qc))).
Proof. vm_compute. done. Qed.

(** [add_weak_vote] declares [weak_final], documented as strong not being
    possible anymore, when the weak votes weigh exactly the maximum: a later
    strong vote reaches the threshold and the certificate is still weak. *)
Theorem weak_final_may_be_premature :
  let ops := [op_vote true 0 8; op_vote true 1 9; op_vote false 2 10; op_vote false 3 11; op_vote true 4 12] in
  returns (run_sig_ops policy5 ops) (λ a,
    threshold policy5 <= strong_sum a ∧ aggregating_state a = weak_final ∧
    returns (sig_get_best_qc a) (λ best, sig_is_strong <$> best = Some false)).
Proof. vm_compute. done. Qed.

(** A pending signature with too short a vote bitset trips an assertion in
    [vote_same_at] instead of being rejected with [invalid_qc]. *)
Theorem short_pending_bitset_is_not_rejected :
  let active := policy3 1 1 2 3 in
  let pending := policy3 2 4 5 1 in
  let all := QcSig (Some (Bitset 3 [7])) None 0 in
  let short := QcSig (Some (Bitset 2 [3])) None 0 in
  let qc := Qc 10 all (Some short) in
  qc_wf qc ∧ verify_basic qc (FinalizerPolicies sha256_zero active (Some pending)) = Err assert_failed ∧
  verify_vote_format short pending = Err invalid_qc.
Proof.
  intros active pending all short qc. split; [|vm_compute; done].
  split; [split; [intros b [= <-]; by apply (from_string_wf (["1"; "1"; "1"]%char))|done]|].
  intros s [= <-]. split; [intros b [= <-]; by apply (from_string_wf (["1"; "1"]%char))|done].
Qed.

(** * Instances of the theorems *)

(** A certificate with two strong votes and one weak vote out of five, and one
    with three strong votes. *)
Definition qc_mixed : qc_t := Qc 10 (QcSig (Some (Bitset 5 [3])) (Some (Bitset 5 [4])) 27) None.
Definition qc_three : qc_t := Qc 10 (QcSig (Some (Bitset 5 [28])) None 33) None.
Definition only5 : finalizer_policies_t := FinalizerPolicies sha256_zero policy5 None.

Lemma only5_wf : policies_wf only5.
Proof. split; [apply policy5_wf|done]. Qed.

Lemma qc_mixed_wf : qc_wf qc_mixed.
Proof.
  split; [|done]. split; intros b [= <-].
  - by apply (from_string_wf ["0"; "0"; "0"; "1"; "1"]%char).
  - by apply (from_string_wf ["0"; "0"; "1"; "0"; "0"]%char).
Qed.

Lemma qc_three_wf : qc_wf qc_three.
Proof. split; [|done]. split; [intros b [= <-]; by apply (from_string_wf ["1"; "1"; "1"; "0"; "0"]%char)|done]. Qed.

Lemma verify_basic_accepts_valid_witness : verify_basic qc_mixed only5 = Ok tt ∧ valid_qc only5 qc_mixed.
Proof.
  assert (verify_basic qc_mixed only5 = Ok tt) as H by (vm_compute; reflexivity). split; [done|].
  exact (proj1 (verify_basic_accepts_valid qc_mixed only5 only5_wf qc_mixed_wf) H).
Defined.

Lemma verified_qcs_intersect_witness :
  ∃ j f, finalizers policy5 !! j = Some f ∧
    has_vote (active_policy_sig qc_mixed) j = true ∧ has_vote (active_policy_sig qc_three) j = true.
Proof.
  exact (proj1 (verified_qcs_intersect qc_mixed qc_three only5 only5_wf qc_mixed_wf qc_three_wf eq_refl eq_refl)).
Defined.

(** Finalizer 0 votes twice, a certificate is received between the votes. *)
Definition ops5 : list sig_op :=
  [op_vote true 0 8; op_vote false 0 8; op_vote false 1 9; op_received (active_policy_sig qc_mixed); op_vote true 2 10].

Lemma ops5_received s : op_received s ∈ ops5 → valid_sig policy5 s.
Proof.
  intros H. assert (s = active_policy_sig qc_mixed) as ->.
  { unfold ops5 in H. repeat (apply elem_of_cons in H as [H|H]); [done..|congruence|done|by apply not_elem_of_nil in H]. }
  assert (verify_basic qc_mixed only5 = Ok tt) as Hv by (vm_compute; reflexivity).
  exact (proj1 (proj1 (verify_basic_iff qc_mixed only5 only5_wf qc_mixed_wf) Hv)).
Qed.

Lemma aggregation_counts_first_votes_witness :
  ∃ a, run_sig_ops policy5 ops5 = Ok a ∧
    strong_sum a = weight_where (λ i, bool_decide (first_vote ops5 i = Some true)) 0 (finalizers policy5).
Proof.
  destruct (aggregation_counts_first_votes policy5 ops5 policy5_wf ltac:(vm_compute; done) ops5_received)
    as (a & Ha & Hs & _). exists a. exact (conj Ha Hs).
Defined.

Lemma best_qc_valid_witness :
  ∃ a best, run_sig_ops policy5 ops5 = Ok a ∧ sig_get_best_qc a = Ok best ∧
    (best = None ↔ strong_sum a + weak_sum a < threshold policy5 ∧ received_qc_sig a = None).
Proof.
  destruct (best_qc_valid policy5 ops5 policy5_wf ltac:(vm_compute; done) ops5_received)
    as (a & best & Ha & Hb & _ & Hn). exists a, best. exact (conj Ha (conj Hb Hn)).
Defined.

Lemma aggregate_vote_correct_witness :
  ∃ a q' r, aggregating_qc_sig_of_policy policy5 = Ok a ∧
    aggregate_vote (AggregatingQc policy5 None a None) (a_vote true 4) [7] = Ok (q', r) ∧ agg_qc_inv q'.
Proof.
  destruct (agg_new_ok policy5 policy5_wf ltac:(vm_compute; done)) as (a & Ha & Hinv & _).
  destruct (aggregate_vote_correct (AggregatingQc policy5 None a None) (a_vote true 4) [7] [4])
    as (q' & r & Hq & Hi & _); [split; [apply policy5_wf|done]|done|].
  exists a, q', r. exact (conj Ha (conj Hq Hi)).
Defined.

Lemma metrics_account_for_every_finalizer_witness :
  ∃ a m, vote_metrics (AggregatingQc policy5 None a None) qc_mixed = Ok m ∧
    metrics_weak m !! [3] = Some (FinAuth (fin 3 1) 1).
Proof.
  destruct (agg_new_ok policy5 policy5_wf ltac:(vm_compute; done)) as (a & _).
  destruct (metrics_account_for_every_finalizer (AggregatingQc policy5 None a None) qc_mixed) as (m & Hm & _ & Hall).
  - apply policy5_wf.
  - apply ops5_received. right; right; right; by left.
  - done.
  - exists a, m. split; [exact Hm|]. exact (proj1 (proj2 (Hall 2%nat (fin 3 1) eq_refl)) eq_refl).
Defined.
