(* ===== verification/QcSignatures.v ===== *)
(** * Certificates made of verified votes

    A node adds a vote to a certificate only after its signature verified, and holds a received
    certificate only after checking it. The certificate it then takes from its collections passes
    the checks other nodes make on it, except the rule on finalizers of both policies: the laws
    of the signature scheme ([BlsLaws]) are those of aggregation. *)

From stdpp Require Import list.
From S2P Require Import Prelude Sha256 FinalityCore Bitset FinalizerPolicy Qc QcTheory.
Open Scope Z_scope.

(** The sum of signatures. *)
Definition sum_signatures {bls : Bls} (l : list bls_g2) : bls_g2 := foldr bls_g2_add bls_g2_zero l.

(** Signatures are added in a commutative monoid, and signatures that verify one by one
    verify together: for each message the keys are aggregated into one. *)
Class BlsLaws (bls : Bls) : Prop := {
  g2_add_zero x : bls_g2_add bls_g2_zero x = x;
  g2_add_comm x y : bls_g2_add x y = bls_g2_add y x;
  g2_add_assoc x y z : bls_g2_add x (bls_g2_add y z) = bls_g2_add (bls_g2_add x y) z;
  verify_aggregated (groups : list (list (bls_g1 * bls_g2) * list Z)) : groups ≠ [] → NoDup groups.*2 →
    Forall (λ g, Forall (λ v, bls_verify v.1 g.2 v.2 = true) g.1) groups →
    aggregate_verify ((λ g, aggregate_public_keys g.1.*1) <$> groups) groups.*2
      (sum_signatures (concat ((λ g, g.1.*2) <$> groups))) = true }.

Section Signatures.
Context {bls : Bls} {blslaws : BlsLaws bls}.

Lemma sum_app l1 l2 : sum_signatures (l1 ++ l2) = bls_g2_add (sum_signatures l1) (sum_signatures l2).
Proof.
  induction l1 as [|x l1 IH]; cbn; [by rewrite g2_add_zero|]. fold (sum_signatures (l1 ++ l2)) (sum_signatures l1).
  by rewrite IH, g2_add_assoc.
Qed.

Lemma sum_insert l1 x l2 : sum_signatures (l1 ++ x :: l2) = bls_g2_add (sum_signatures (l1 ++ l2)) x.
Proof.
  rewrite !sum_app. cbn. fold (sum_signatures l2). rewrite (g2_add_comm x), g2_add_assoc. done.
Qed.

(** ** The votes of one policy *)

(** The signatures of the finalizers whose bit is set, in the order of the policy. *)
Definition votes_signed (p : finalizer_policy) (m : list Z) (v : votes_t) : Prop :=
  ∃ vs : list (bls_g1 * bls_g2), pubkeys_to_aggregate (votes_bitset v) (finalizers p) 0 = Ok vs.*1 ∧
    Forall (λ x, bls_verify x.1 m x.2 = true) vs ∧ votes_sig v = sum_signatures vs.*2.

Lemma pubkeys_none b fs i : bitset_wf b → (∀ j, bit b j = false) → pubkeys_to_aggregate b fs i = Ok [].
Proof.
  intros Hw Hz. revert i. induction fs as [|f fs IH]; intros i; [done|]. cbn [pubkeys_to_aggregate].
  case_bool_decide as Hi; [|done]. by rewrite test_ok, bind_ok, Hz, IH.
Qed.

(** One more bit adds one key. *)
Lemma pubkeys_insert b b' k f g fs : bitset_wf b → bitset_wf b' → m_num_bits b' = m_num_bits b →
  (∀ j, bit b' j = bool_decide (j = k) || bit b j) → bit b k = false → jacobian_montgomery_le (public_key f) = Ok g →
  ∀ i ks, (i + length fs ≤ m_num_bits b)%nat → pubkeys_to_aggregate b fs i = Ok ks →
  if bool_decide (i ≤ k)%nat then fs !! (k - i)%nat = Some f →
    ∃ l1 l2, ks = l1 ++ l2 ∧ pubkeys_to_aggregate b' fs i = Ok (l1 ++ g :: l2)
  else pubkeys_to_aggregate b' fs i = Ok ks.
Proof.
  intros Hw Hw' Hn Hbit Hk Hg. induction fs as [|x fs IH]; intros i ks Hi Hks; [by case_bool_decide|].
  cbn [length] in Hi. cbn [pubkeys_to_aggregate] in Hks |- *. unfold bitset_size in *.
  rewrite bool_decide_eq_true_2 in Hks by lia. rewrite (bool_decide_eq_true_2 (i < m_num_bits b')%nat) by lia.
  rewrite test_ok, bind_ok in Hks by (done || lia). rewrite (test_ok b'), bind_ok, Hbit by (done || lia).
  specialize (IH (S i)). destruct (decide (i = k)) as [->|Hne].
  - rewrite (bool_decide_eq_true_2 (k ≤ k)%nat), (bool_decide_eq_true_2 (k = k)), Nat.sub_diag by lia.
    intros [= ->]. rewrite Hk in Hks. exists [], ks. split; [done|]. cbn [orb app].
    specialize (IH ks ltac:(lia) Hks). rewrite bool_decide_eq_false_2 in IH by lia. by rewrite Hg, bind_ok, IH, bind_ok.
  - rewrite (bool_decide_eq_false_2 (i = k)) by done. cbn [orb]. destruct (bit b i).
    + apply bind_inv in Hks as (gx & Hgx & Hks). apply bind_inv in Hks as (gs & Hgs & Hks). injection Hks as <-.
      rewrite Hgx, bind_ok. specialize (IH gs ltac:(lia) Hgs). destruct (decide (i < k)%nat) as [Hle|Hle].
      * rewrite bool_decide_eq_true_2 in IH by lia. rewrite (bool_decide_eq_true_2 (i ≤ k)%nat) by lia.
        replace (k - i)%nat with (S (k - S i)) by lia. intros Hf.
        destruct (IH Hf) as (l1 & l2 & -> & ->). rewrite bind_ok. by exists (gx :: l1), l2.
      * rewrite bool_decide_eq_false_2 in IH by lia. rewrite (bool_decide_eq_false_2 (i ≤ k)%nat) by lia. by rewrite IH, bind_ok.
    + specialize (IH ks ltac:(lia) Hks). destruct (decide (i < k)%nat) as [Hle|Hle].
      * rewrite bool_decide_eq_true_2 in IH by lia. rewrite (bool_decide_eq_true_2 (i ≤ k)%nat) by lia.
        replace (k - i)%nat with (S (k - S i)) by lia. exact IH.
      * rewrite bool_decide_eq_false_2 in IH by lia. by rewrite (bool_decide_eq_false_2 (i ≤ k)%nat) by lia.
Qed.

Lemma votes_signed_add p m v i f g sig v' : votes_wf (length (finalizers p)) v → votes_signed p m v →
  bit (votes_bitset v) i = false → finalizers p !! i = Some f → jacobian_montgomery_le (public_key f) = Ok g →
  bls_verify g m sig = true → votes_add_vote v i sig = Ok v' → votes_signed p m v'.
Proof.
  intros Hwf (vs & Hks & HF & Hsum) Hbit Hf Hg Hver Hadd. pose proof (lookup_lt_Some _ _ _ Hf) as Hi.
  destruct (votes_add_vote_ok _ _ i sig Hwf Hi) as (v2 & Hv2 & Hwf' & Hb). assert (v2 = v') as -> by congruence.
  assert (votes_sig v' = bls_g2_add (votes_sig v) sig) as Hsig.
  { unfold votes_add_vote in Hadd. apply bind_inv in Hadd as ([] & _ & Hadd). apply bind_inv in Hadd as (b & _ & Hadd). by injection Hadd as <-. }
  destruct Hwf as (Hw & Hn & _), Hwf' as (Hw' & Hn' & _).
  pose proof (pubkeys_insert _ _ i f g (finalizers p) Hw Hw' ltac:(congruence) Hb Hbit Hg 0 _ ltac:(lia) Hks) as Hins.
  rewrite bool_decide_eq_true_2, Nat.sub_0_r in Hins by lia. destruct (Hins Hf) as (l1 & l2 & Heq & Hks').
  apply fmap_app_inv in Heq as (vs1 & vs2 & -> & -> & ->). exists (vs1 ++ (g, sig) :: vs2).
  split; [by rewrite fmap_app|]. apply Forall_app in HF as [HF1 HF2]. split; [apply Forall_app; split; [done|by constructor]|].
  rewrite Hsig, Hsum, !fmap_app. cbn. by rewrite sum_insert.
Qed.

(** What is checked on the certificate of a policy for the digest [d]. *)
Definition sig_checked (p : finalizer_policy) (d : sha256) (s : qc_sig_t) : Prop :=
  verify_vote_format s p = Ok tt ∧ verify_weights s p = Ok tt ∧ sig_verify_signatures s p d (create_weak_digest d) = Ok tt.

Definition forget_received (a : aggregating_qc_sig_t) : aggregating_qc_sig_t :=
  AggregatingQcSig None (agg_quorum a) (agg_max_weak_sum_before_weak_final a) (aggregating_state a) (strong_sum a) (weak_sum a)
    (agg_weak_votes a) (agg_strong_votes a).

(** Every vote was verified and the received certificate was checked. *)
Record agg_signed (p : finalizer_policy) (d : sha256) (a : aggregating_qc_sig_t) : Prop := {
  as_inv : agg_inv p (forget_received a);
  as_strong : votes_signed p (pack_sha256 d) (agg_strong_votes a);
  as_weak : votes_signed p (create_weak_digest d) (agg_weak_votes a);
  as_received : ∀ s, received_qc_sig a = Some s → sig_checked p d s }.

Definition vote_digest (d : sha256) (is_strong : bool) : list Z := if is_strong then pack_sha256 d else create_weak_digest d.

Lemma agg_signed_new p d a : policy_wf p → total_weight (finalizers p) < 2147483648 → aggregating_qc_sig_of_policy p = Ok a → agg_signed p d a.
Proof.
  intros Hp Ht Ha. destruct (agg_new_ok p Hp Ht) as (a' & Ha' & Hinv & Hs & Hw). assert (a' = a) as -> by congruence.
  assert (received_qc_sig a = None ∧ votes_sig (agg_strong_votes a) = bls_g2_zero ∧ votes_sig (agg_weak_votes a) = bls_g2_zero) as (Hr & Hz1 & Hz2).
  { unfold aggregating_qc_sig_of_policy, aggregating_qc_sig_new in Ha. apply bind_inv in Ha as (v & Hv & Ha). injection Ha as <-.
    unfold votes_new in Hv. apply bind_inv in Hv as (b & _ & Hv). by injection Hv as <-. }
  split; [| | |by rewrite Hr].
  - destruct Hinv. by split.
  - exists []. rewrite (pubkeys_none _ _ _ (proj1 (ai_strong _ _ Hinv)) Hs). done.
  - exists []. rewrite (pubkeys_none _ _ _ (proj1 (ai_weak _ _ Hinv)) Hw). done.
Qed.

Lemma forget_add_vote a st i sig w a' r : sig_add_vote a st i sig w = Ok (a', r) →
  sig_add_vote (forget_received a) st i sig w = Ok (forget_received a', r) ∧ received_qc_sig a' = received_qc_sig a ∧
  (r = success → votes_add_vote (if st then agg_strong_votes a else agg_weak_votes a) i sig =
     Ok (if st then agg_strong_votes a' else agg_weak_votes a') ∧
   (if st then agg_weak_votes a' = agg_weak_votes a else agg_strong_votes a' = agg_strong_votes a)) ∧ (r ≠ success → a' = a).
Proof.
  intros H. unfold sig_add_vote in H |- *. apply bind_inv in H as (c & Hc & H).
  change (check_duplicate (forget_received a) i) with (check_duplicate a i). rewrite Hc, bind_ok. case_bool_decide as E; [|by injection H as <- <-].
  destruct st.
  - unfold add_strong_vote in H |- *. apply bind_inv in H as (sv & Hsv & H). apply bind_inv in H as (s & Hst & H). injection H as <- <-.
    cbn [forget_received agg_strong_votes strong_sum aggregating_state weak_sum agg_quorum agg_weak_votes agg_max_weak_sum_before_weak_final received_qc_sig].
    by rewrite Hsv, bind_ok, Hst, bind_ok.
  - unfold add_weak_vote in H |- *. apply bind_inv in H as (sv & Hsv & H). injection H as <- <-.
    cbn [forget_received agg_strong_votes strong_sum aggregating_state weak_sum agg_quorum agg_weak_votes agg_max_weak_sum_before_weak_final received_qc_sig].
    by rewrite Hsv, bind_ok.
Qed.

Lemma agg_signed_vote p d a st i sig f g a' r : policy_wf p → agg_signed p d a → finalizers p !! i = Some f →
  jacobian_montgomery_le (public_key f) = Ok g → bls_verify g (vote_digest d st) sig = true →
  sig_add_vote a st i sig (weight f) = Ok (a', r) → agg_signed p d a'.
Proof.
  intros Hp Has Hf Hg Hver Hadd. destruct (forget_add_vote _ _ _ _ _ _ _ Hadd) as (Hadd' & Hrec & Hvotes & Hsame).
  destruct (decide (r = success)) as [->|Hne]; [|by rewrite (Hsame Hne)]. destruct (Hvotes eq_refl) as [Hv Ho]. destruct Has as [Hinv Hs Hw Hr].
  pose proof (sig_add_vote_ok p _ i f st sig Hp Hinv Hf) as H.
  destruct (strong_bit (forget_received a) i || weak_bit (forget_received a) i) eqn:Eb; [congruence|]. destruct H as (a2 & Ha2 & Hinv' & _).
  assert (a2 = forget_received a') as -> by congruence. apply orb_false_iff in Eb as [Es Ew].
  destruct st; (split; [done| | |by rewrite Hrec]).
  - eapply (votes_signed_add p _ (agg_strong_votes a) i f g sig); [apply Hinv|done|exact Es|done|done|exact Hver|exact Hv].
  - by rewrite Ho.
  - by rewrite Ho.
  - eapply (votes_signed_add p _ (agg_weak_votes a) i f g sig); [apply Hinv|done|exact Ew|done|done|exact Hver|exact Hv].
Qed.

Lemma agg_signed_received p d a s : agg_signed p d a → sig_checked p d s → agg_signed p d (set_received_qc_sig a s).1.
Proof.
  intros Has Hc. unfold set_received_qc_sig. destruct (received_qc_sig a) as [r|];
    [destruct (sig_is_weak r && sig_is_strong s); [|exact Has]|]; destruct Has; (split; [done..|]; by intros ? [= <-]).
Qed.

(** ** The certificate of one policy *)

Lemma aggregate_pubkeys_signed p m v : votes_signed p m v →
  ∃ vs, aggregate_pubkeys (finalizers p) (Some (votes_bitset v)) = Ok [aggregate_public_keys vs.*1] ∧
    Forall (λ x, bls_verify x.1 m x.2 = true) vs ∧ votes_sig v = sum_signatures vs.*2.
Proof. intros (vs & Hks & HF & Hsum). exists vs. cbn [aggregate_pubkeys]. by rewrite Hks, bind_ok. Qed.

Lemma weak_digest_other d : pack_sha256 d ≠ create_weak_digest d.
Proof. intros H. apply (f_equal length) in H. unfold create_weak_digest in H. rewrite length_app in H. cbn in H. lia. Qed.

Lemma extract_checked p d a s : policy_wf p → agg_signed p d a → sig_is_quorum_met a = true →
  extract_qc_sig_from_aggregating a = Ok s → sig_checked p d s.
Proof.
  intros Hp [Hinv Hs Hw _] Hq Hx. destruct (extract_valid p (forget_received a) Hp Hinv Hq) as (s' & Hs' & Hval & _).
  assert (s' = s) as -> by (unfold extract_qc_sig_from_aggregating, sig_is_quorum_met in *; cbn in Hs'; congruence).
  pose proof (proj2 (verify_sig_iff s p Hp (opt_wf_sig_wf _ _ Hval)) Hval) as Hver. apply bind_inv in Hver as ([] & Hf & Hwt).
  split; [done|]. split; [done|]. destruct (aggregate_pubkeys_signed _ _ _ Hs) as (vs & Hks & HF & Hsum).
  destruct (aggregate_pubkeys_signed _ _ _ Hw) as (ws & Hkw & HFw & Hsumw). unfold extract_qc_sig_from_aggregating in Hx.
  unfold sig_verify_signatures. pose proof (weak_digest_other d) as Hne. revert HF HFw Hne.
  generalize (pack_sha256 d) (create_weak_digest d). intros sd wd HF HFw Hne. case_bool_decide.
  - injection Hx as <-. cbn [strong_votes weak_votes qc_sig]. rewrite Hks, bind_ok. cbn [app aggregate_pubkeys]. rewrite bind_ok.
    pose proof (verify_aggregated [(vs, sd)]) as Hlaw. cbn [fmap list_fmap concat app fst snd] in Hlaw. rewrite app_nil_r in Hlaw. rewrite Hsum.
    rewrite Hlaw; [done|done|by apply NoDup_singleton|by repeat constructor].
  - rewrite Hq in Hx. injection Hx as <-. cbn [strong_votes weak_votes qc_sig]. rewrite Hks, Hkw, !bind_ok. cbn [app].
    pose proof (verify_aggregated [(vs, sd); (ws, wd)]) as Hlaw. cbn [fmap list_fmap concat app fst snd] in Hlaw.
    rewrite app_nil_r, sum_app in Hlaw. rewrite Hsum, Hsumw, Hlaw; [done|done| |by repeat constructor].
    apply NoDup_cons. split; [by rewrite list_elem_of_singleton|by apply NoDup_singleton].
Qed.

Lemma best_checked p d a s : policy_wf p → agg_signed p d a → sig_get_best_qc a = Ok (Some s) → sig_checked p d s.
Proof.
  intros Hp Has H. unfold sig_get_best_qc in H. destruct (sig_is_quorum_met a) eqn:Eq; cbn [negb] in H.
  - apply bind_inv in H as (x & Hx & H). pose proof (extract_checked _ _ _ _ Hp Has Eq Hx) as Hcx.
    destruct (received_qc_sig a) as [r|] eqn:Er; [|by injection H as <-]. destruct (sig_is_strong r || sig_is_weak x); injection H as <-; [|done].
    by apply (as_received _ _ _ Has).
  - injection H as H. by apply (as_received _ _ _ Has).
Qed.

(** ** Both policies of a block *)

Definition policy_ok (p : finalizer_policy) : Prop := policy_wf p ∧ total_weight (finalizers p) < 2147483648.

Record qc_signed (d : sha256) (q : aggregating_qc_t) : Prop := {
  qs_active : policy_wf (agg_active_policy q) ∧ agg_signed (agg_active_policy q) d (agg_active_sig q);
  qs_pending : match agg_pending_policy q, agg_pending_sig q with
    | None, None => True
    | Some p, Some a => policy_wf p ∧ agg_signed p d a
    | _, _ => False
    end }.

Lemma qc_signed_new d active pending q : policy_ok active → (∀ p, pending = Some p → policy_ok p) →
  aggregating_qc_new active pending = Ok q →
  qc_signed d q ∧ agg_active_policy q = active ∧ agg_pending_policy q = pending.
Proof.
  intros [Ha Hat] Hpend H. unfold aggregating_qc_new in H. apply bind_inv in H as (a & Hs & H). destruct pending as [p|].
  - apply bind_inv in H as (b & Hb & H). injection H as <-. destruct (Hpend p eq_refl) as [Hp Hpt].
    split; [|done]. split; cbn; (split; [done|by apply agg_signed_new]).
  - injection H as <-. split; [|done]. split; cbn; [|done]. split; [done|by apply agg_signed_new].
Qed.

Lemma add_vote_to_signed vote d ver p a a' ver' auth r : policy_wf p → agg_signed p d a →
  (ver = true → ∃ g, jacobian_montgomery_le (finalizer_key vote) = Ok g ∧ bls_verify g (vote_digest d (vote_strong vote)) (vote_sig vote) = true) →
  add_vote_to vote (vote_digest d (vote_strong vote)) ver p a = Ok (a', ver', auth, r) →
  agg_signed p d a' ∧
  (ver' = true → ∃ g, jacobian_montgomery_le (finalizer_key vote) = Ok g ∧ bls_verify g (vote_digest d (vote_strong vote)) (vote_sig vote) = true).
Proof.
  intros Hp Has Hver H. unfold add_vote_to in H. destruct (list_find _ _) as [[i f]|] eqn:E; [|by injection H as <- <- _ _].
  apply list_find_Some in E as (Hf & Hkey & _). apply bind_inv in H as (hv & _ & H). destruct hv; [by injection H as <- <- _ _|].
  apply bind_inv in H as ([ver2 vs] & Hv & H). unfold verify_sig in Hv.
  assert ((ver2 = true → ∃ g, jacobian_montgomery_le (finalizer_key vote) = Ok g ∧ bls_verify g (vote_digest d (vote_strong vote)) (vote_sig vote) = true) ∧
    (vs = success → ver2 = true)) as [Hver2 Hvs].
  { destruct ver; [injection Hv as <- <-; auto|]. apply bind_inv in Hv as (g & Hg & Hv). destruct (bls_verify g _ _) eqn:Eb; injection Hv as <- <-; [|done].
    split; [by exists g|done]. }
  case_bool_decide as Es; [|by injection H as <- <- _ _]. apply bind_inv in H as ([a2 r2] & Hadd & H). injection H as <- <- _ _.
  split; [|done]. destruct (Hver2 (Hvs Es)) as (g & Hg & Hb). rewrite <- Hkey in Hg. by eapply agg_signed_vote.
Qed.

Lemma aggregate_vote_signed d q vote q' r : qc_signed d q → aggregate_vote q vote (vote_digest d (vote_strong vote)) = Ok (q', r) →
  qc_signed d q' ∧ agg_active_policy q' = agg_active_policy q ∧ agg_pending_policy q' = agg_pending_policy q.
Proof.
  intros [[Ha Has] Hp] H. unfold aggregate_vote in H. apply bind_inv in H as ([[[a ver] auth] r1] & Hadd & H).
  assert (false = true → ∃ g, jacobian_montgomery_le (finalizer_key vote) = Ok g ∧
    bls_verify g (vote_digest d (vote_strong vote)) (vote_sig vote) = true) as Hno by done.
  destruct (add_vote_to_signed _ _ _ _ _ _ _ _ _ Ha Has Hno Hadd) as [Has' Hver].
  destruct (_ || _); [|injection H as <- _; by split].
  destruct (agg_pending_policy q) as [p|] eqn:Ep, (agg_pending_sig q) as [ps|] eqn:Es; try done; [|injection H as <- _; by split].
  apply bind_inv in H as ([[[b ver2] pauth] pr] & Hadd2 & H). injection H as <- _. destruct Hp as [Hp Hps].
  destruct (add_vote_to_signed _ _ _ _ _ _ _ _ _ Hp Hps Hver Hadd2) as [Hps' _]. by split.
Qed.

(** A checked certificate for the policies of the block. *)
Definition qc_checked (d : sha256) (active : finalizer_policy) (pending : option finalizer_policy) (qc : qc_t) : Prop :=
  sig_checked active d (active_policy_sig qc) ∧
  match pending, pending_policy_sig qc with None, None => True | Some p, Some s => sig_checked p d s | _, _ => False end.

Lemma set_received_signed d q qc q' bet : qc_signed d q → qc_checked d (agg_active_policy q) (agg_pending_policy q) qc →
  set_received_qc q qc = Ok (q', bet) →
  qc_signed d q' ∧ agg_active_policy q' = agg_active_policy q ∧ agg_pending_policy q' = agg_pending_policy q.
Proof.
  intros [[Ha Has] Hp] [Hca Hcp] H. unfold set_received_qc in H. pose proof (agg_signed_received _ _ _ _ Has Hca) as Has'.
  destruct (agg_pending_policy q) as [p|] eqn:Ep, (agg_pending_sig q) as [ps|] eqn:Es, (pending_policy_sig qc) as [s|]; try done.
  - destruct Hp as [Hp Hps]. pose proof (agg_signed_received _ _ _ _ Hps Hcp) as Hps'.
    destruct (set_received_qc_sig (agg_active_sig q) _) as [a b1], (set_received_qc_sig ps s) as [b b2]. injection H as <- _. by split.
  - destruct (set_received_qc_sig (agg_active_sig q) _) as [a b1]. injection H as <- _. by split.
Qed.

(** The rule on finalizers of both policies. *)
Definition dual_rule (policies : finalizer_policies_t) (qc : qc_t) : Prop :=
  ∀ p s, pending_finalizer_policy policies = Some p → pending_policy_sig qc = Some s →
    verify_dual_finalizers_votes (active_policy_sig qc) s (finalizers (active_finalizer_policy policies)) 0 (finalizers p) = Ok tt.

Lemma verified_checked qc policies : verify_basic qc policies = Ok tt → qc_verify_signatures qc policies = Ok tt →
  qc_checked (policies_finality_digest policies) (active_finalizer_policy policies) (pending_finalizer_policy policies) qc.
Proof.
  intros Hb Hs. unfold verify_basic in Hb. apply bind_inv in Hb as ([] & H1 & Hb). apply bind_inv in Hb as ([] & H2 & Hb).
  unfold qc_verify_signatures in Hs. apply bind_inv in Hs as ([] & H3 & Hs). split; [done|].
  destruct (pending_policy_sig qc) as [s|], (pending_finalizer_policy policies) as [p|]; try done.
  apply bind_inv in Hb as ([] & _ & Hb). apply bind_inv in Hb as ([] & H4 & H5). done.
Qed.

(** The best certificate of verified votes passes all checks but the dual rule. *)
Lemma best_certificate_verifies q d active pending n qc : qc_signed d q → agg_active_policy q = active → agg_pending_policy q = pending →
  agg_get_best_qc q n = Ok (Some qc) → dual_rule (FinalizerPolicies d active pending) qc →
  qc_block_num qc = n ∧ verify_basic qc (FinalizerPolicies d active pending) = Ok tt ∧
  qc_verify_signatures qc (FinalizerPolicies d active pending) = Ok tt.
Proof.
  intros [[Ha Has] Hp] <- <- H Hdual. unfold agg_get_best_qc in H. apply bind_inv in H as (b & Hb & H). destruct b as [b|]; [|done].
  destruct (best_checked _ _ _ _ Ha Has Hb) as (Hf & Hw & Hs). unfold verify_basic, qc_verify_signatures.
  cbn [active_finalizer_policy pending_finalizer_policy policies_finality_digest].
  destruct (agg_pending_policy q) as [p|] eqn:Ep, (agg_pending_sig q) as [ps|] eqn:Es; try done.
  - apply bind_inv in H as (pb & Hpb & H). destruct pb as [pb|]; [|done]. injection H as <-. destruct Hp as [Hp Hps].
    destruct (best_checked _ _ _ _ Hp Hps Hpb) as (Hf' & Hw' & Hs'). specialize (Hdual p pb eq_refl eq_refl).
    cbn [active_policy_sig pending_policy_sig qc_block_num active_finalizer_policy] in *.
    by rewrite Hf, bind_ok, Hw, bind_ok, Hdual, bind_ok, Hf', bind_ok, Hw', Hs, bind_ok, Hs'.
  - injection H as <-. cbn [active_policy_sig pending_policy_sig qc_block_num]. by rewrite Hf, bind_ok, Hw, bind_ok, Hs, bind_ok.
Qed.

End Signatures.
