(* ===== verification/BlockState.v ===== *)
(** * Block states: [block_state.hpp/.cpp], [block.hpp/.cpp]

    A block state is a header state with the data needed to validate the blocks
    built on it: the digests finalizers sign, the aggregated votes, and, once the
    block was executed, its validation tree. *)

From stdpp Require Import gmap.
From S2P Require Import Prelude Sha256 Merkle FinalityCore OrderedDiff ProducerSchedule FinalizerPolicy Qc BlockHeaderState.
Open Scope Z_scope.

(** ** Signed blocks and their extensions *)

(** The packed bytes of a signature. *)
Definition signature_type : Type := list Z.

Inductive block_extension {bls : Bls} : Type :=
| additional_block_signatures_extension (signatures : list signature_type)
| quorum_certificate_extension (qc : qc_t).

(** [fc::raw::pack] and [fc::raw::unpack] of the block extensions, and the
    comparison of packed extensions. *)
Class BlockExtensionCodec (bls : Bls) (codec : ExtensionCodec) : Type := {
  pack_signatures : list signature_type → ext_data;
  unpack_signatures : ext_data → option (list signature_type);
  pack_qc : qc_t → ext_data;
  unpack_qc : ext_data → option qc_t;
  ext_data_lt : ext_data → ext_data → bool }.

Class BlockExtensionCodecLaws (bls : Bls) (codec : ExtensionCodec) (bcodec : BlockExtensionCodec bls codec) : Prop := {
  unpack_pack_signatures l : unpack_signatures (pack_signatures l) = Some l;
  unpack_pack_qc qc : unpack_qc (pack_qc qc) = Some qc }.

Section SignedBlock.
Context {bls : Bls} {codec : ExtensionCodec} {bcodec : BlockExtensionCodec bls codec}.

(** The transactions are represented by the digests of their receipts. *)
Record signed_block : Type := SignedBlock {
  sb_header : block_header;
  sb_producer_signature : signature_type;
  sb_transactions : list sha256;
  sb_block_extensions : list (Z * ext_data) }.

(** [reflector_init]: at least one signature, none repeated. *)
Definition signatures_reflector_init (sigs : list signature_type) : result unit :=
  check (negb (is_empty sigs)) ill_formed_additional_block_signatures_extension;;
  check (bool_decide (NoDup (sigs : list (list Z)))) ill_formed_additional_block_signatures_extension.

Definition block_extract (id : Z) (data : ext_data) : result (option block_extension) :=
  if id =? 2 then
    match unpack_signatures data with
    | Some l => signatures_reflector_init l;; Ok (Some (additional_block_signatures_extension l))
    | None => Err fc_assert_exception
    end
  else if id =? 3 then
    match unpack_qc data with
    | Some qc => Ok (Some (quorum_certificate_extension qc))
    | None => Err fc_assert_exception
    end
  else Ok None.

Fixpoint block_extract_extensions (exts : list (Z * ext_data)) (first : bool) (id_type_lower_bound : Z)
    : result (list (Z * block_extension)) :=
  match exts with
  | [] => Ok []
  | (id, data) :: exts =>
    check (id_type_lower_bound <=? id) invalid_block_extension;;
    e ← block_extract id data;
    match e with
    | None => Err invalid_block_extension
    | Some e =>
      check (first || (id_type_lower_bound <? id)) invalid_block_header_extension;;
      rest ← block_extract_extensions exts false id;
      Ok ((id, e) :: rest)
    end
  end.

Definition validate_and_extract_extensions (b : signed_block) : result (list (Z * block_extension)) :=
  block_extract_extensions (sb_block_extensions b) true 0.

Fixpoint find_block_extension (id : Z) (exts : list (Z * block_extension)) : option block_extension :=
  match exts with
  | [] => None
  | (i, e) :: exts => if i =? id then Some e else find_block_extension id exts
  end.

(** [std::is_sorted] on pairs of an id and a byte vector. *)
Definition ext_lt (x y : Z * ext_data) : bool :=
  (x.1 <? y.1) || ((x.1 =? y.1) && ext_data_lt x.2 y.2).
Fixpoint ext_is_sorted (exts : list (Z * ext_data)) : bool :=
  match exts with
  | x :: ((y :: _) as exts') => negb (ext_lt y x) && ext_is_sorted exts'
  | _ => true
  end.

(** The first entry with the id, up to the first greater id. *)
Fixpoint find_entry (id : Z) (exts : list (Z * ext_data)) : option ext_data :=
  match exts with
  | [] => None
  | (i, d) :: exts => if id <? i then None else if i =? id then Some d else find_entry id exts
  end.

Definition extract_header_extension (h : block_header) (id : Z) : result (option block_header_extension) :=
  assert_ (ext_is_sorted (h_header_extensions h));;
  match find_entry id (h_header_extensions h) with
  | None => Ok None
  | Some d =>
    e ← extract id d;
    match e with Some e => Ok (Some e) | None => Err invalid_block_header_extension end
  end.

Definition contains_header_extension (h : block_header) (id : Z) : bool :=
  existsb (λ p, p.1 =? id) (h_header_extensions h).

Definition is_legacy_block (h : block_header) : bool := negb (contains_header_extension h 2).

Definition extract_extension (b : signed_block) (id : Z) : result (option block_extension) :=
  assert_ (ext_is_sorted (sb_block_extensions b));;
  match find_entry id (sb_block_extensions b) with
  | None => Ok None
  | Some d =>
    e ← block_extract id d;
    match e with Some e => Ok (Some e) | None => Err invalid_block_extension end
  end.

Definition contains_extension (b : signed_block) (id : Z) : bool :=
  existsb (λ p, p.1 =? id) (sb_block_extensions b).

Definition extract_additional_signatures (b : signed_block) : result (list signature_type) :=
  exts ← validate_and_extract_extensions b;
  match find_block_extension 2 exts with
  | Some (additional_block_signatures_extension l) => Ok l
  | Some _ => Err undefined_behaviour
  | None => Ok []
  end.

Definition inject_additional_signatures (b : signed_block) (sigs : list signature_type) : signed_block :=
  if negb (is_empty sigs)
  then SignedBlock (sb_header b) (sb_producer_signature b) (sb_transactions b)
         (emplace_extension (sb_block_extensions b) 2 (pack_signatures sigs))
  else b.

End SignedBlock.

(** ** The validation tree *)

Record finality_leaf_node_t : Type := FinalityLeafNode {
  ln_block_num : Z;
  ln_timestamp : Z;
  ln_parent_timestamp : Z;
  ln_finality_digest : sha256;
  ln_action_mroot : sha256 }.

(** The light header protocol version 1.0 comes first. *)
Definition pack_leaf_node (n : finality_leaf_node_t) : list Z :=
  pack_u32 1 ++ pack_u32 0 ++ pack_u32 (ln_block_num n) ++ pack_u32 (ln_timestamp n) ++
  pack_u32 (ln_parent_timestamp n) ++ pack_sha256 (ln_finality_digest n) ++ pack_sha256 (ln_action_mroot n).

Record valid_t : Type := Valid {
  validation_tree : incremental_merkle_tree;
  validation_mroots : list sha256 }.

(** ** The state *)

Section BlockState.
Context {bls : Bls} {codec : ExtensionCodec} {digests : Digests codec} {bcodec : BlockExtensionCodec bls codec}.

(** Without the cache of transaction metadata. *)
Record block_state : Type := BlockState {
  b_bhs : block_header_state;
  b_block : signed_block;
  b_strong_digest : sha256;
  b_weak_digest : list Z;
  b_aggregating_qc : aggregating_qc_t;
  b_valid : option valid_t;
  b_validated : bool;
  b_action_mroot : sha256;
  b_base_digest : option sha256 }.

Definition pending_policy (s : block_header_state) : option finalizer_policy := snd <$> s_pending_finalizer_policy s.

(** A state with the digests and the empty aggregation of a header state. *)
Definition block_state_of (bhs : block_header_state) (b : signed_block) (valid : option valid_t) (action_mroot : sha256)
    : result block_state :=
  strong ← compute_finality_digest bhs;
  agg ← aggregating_qc_new (s_active_finalizer_policy bhs) (pending_policy bhs);
  Ok (BlockState bhs b strong (create_weak_digest strong) agg valid false action_mroot None).

(** Recovery of the key of a signature. *)
Context (recover : signature_type → sha256 → result public_key_type).
Context (validator : Z → gset sha256 → list sha256 → result unit).

Definition verify_block_sig (prev : block_header_state) (b : signed_block) (skip_validate_signee : bool) : result unit :=
  if skip_validate_signee then Ok tt
  else
    sigs ← extract_additional_signatures b;
    producer ← get_producer_for_block_at prev (h_timestamp (sb_header b));
    verify_signee recover (sb_producer_signature b) (calculate_id (sb_header b)) sigs (authority producer).

(** The state of a received block. *)
Definition block_state_from_block (prev : block_header_state) (b : signed_block) (skip_validate_signee : bool)
    : result block_state :=
  verify_block_sig prev b skip_validate_signee;;
  bhs ← next_from_header validator prev (sb_header b);
  block_state_of bhs b None sha256_zero.

(** The signer gives the producer signature last. *)
Definition sign (b : signed_block) (id : sha256) (signer : sha256 → list signature_type) (a : block_signing_authority_v0)
    : result signed_block :=
  let sigs := signer id in
  match last sigs with
  | None => Err no_block_signatures
  | Some producer_signature =>
    let sigs := take (pred (length sigs)) sigs in
    verify_signee recover producer_signature id sigs a;;
    Ok (inject_additional_signatures
          (SignedBlock (sb_header b) producer_signature (sb_transactions b) (sb_block_extensions b)) sigs)
  end.

(** The state of a block assembled by this node. *)
Definition block_state_assemble (bhs : block_header_state) (trx_receipts : list sha256) (valid : option valid_t)
    (qc : option qc_t) (signer : sha256 → list signature_type) (a : block_signing_authority_v0) (action_mroot : sha256)
    : result block_state :=
  let new_block := SignedBlock (s_header bhs) [] trx_receipts
    (match qc with Some qc => emplace_extension [] 3 (pack_qc qc) | None => [] end) in
  s ← block_state_of bhs new_block valid action_mroot;
  b ← sign new_block (s_block_id bhs) signer a;
  Ok (BlockState bhs b (b_strong_digest s) (b_weak_digest s) (b_aggregating_qc s) valid false action_mroot None).

(** The Savanna genesis block, from the legacy state of the block. *)
Definition create_if_genesis_block (id : sha256) (header : block_header) (features : gset sha256)
    (active_schedule : producer_authority_schedule) (header_exts : list (Z * block_header_extension))
    (b : signed_block) (action_mroot_savanna : option sha256) (is_valid : bool) : result block_state :=
  match action_mroot_savanna with
  | None => Err assert_failed
  | Some action_mroot =>
    bhs ← create_if_genesis_state id header features active_schedule header_exts;
    strong ← compute_finality_digest bhs;
    agg ← aggregating_qc_new (s_active_finalizer_policy bhs) None;
    let leaf := FinalityLeafNode (h_block_num header) (h_timestamp header) 0 strong action_mroot in
    tree ← append hash_bytes empty_tree (hash_bytes (pack_leaf_node leaf));
    root ← get_root hash_bytes tree;
    Ok (BlockState bhs b strong (create_weak_digest strong) agg (Some (Valid tree [root])) is_valid action_mroot None)
  end.

(** *** Votes and certificates *)

Definition b_aggregate_vote (s : block_state) (vote : vote_message) : result (block_state * aggregate_vote_result_t) :=
  let digest := if vote_strong vote then pack_sha256 (b_strong_digest s) else b_weak_digest s in
  '(agg, r) ← aggregate_vote (b_aggregating_qc s) vote digest;
  Ok (BlockState (b_bhs s) (b_block s) (b_strong_digest s) (b_weak_digest s) agg (b_valid s) (b_validated s)
        (b_action_mroot s) (b_base_digest s), r).

Definition b_has_voted (s : block_state) (key : bls_public_key) : result vote_status_t :=
  agg_has_voted (b_aggregating_qc s) key.

Definition b_get_best_qc (s : block_state) : result (option qc_t) :=
  agg_get_best_qc (b_aggregating_qc s) (s_block_num (b_bhs s)).

Definition b_set_received_qc (s : block_state) (qc : qc_t) : result (block_state * bool) :=
  '(agg, better) ← set_received_qc (b_aggregating_qc s) qc;
  Ok (BlockState (b_bhs s) (b_block s) (b_strong_digest s) (b_weak_digest s) agg (b_valid s) (b_validated s)
        (b_action_mroot s) (b_base_digest s), better).

(** [make_block_ref] with the cached digest. *)
Definition b_make_block_ref (s : block_state) : block_ref :=
  BlockRef (s_block_id (b_bhs s)) (s_timestamp (b_bhs s)) (b_strong_digest s)
    (generation (s_active_finalizer_policy (b_bhs s))) (pending_generation (b_bhs s)).

Definition b_get_finalizer_policies (s : block_state) (num : Z) : result finalizer_policies_t :=
  if num =? s_block_num (b_bhs s) then get_finalizer_policies (b_bhs s) (b_make_block_ref s)
  else r ← get_block_reference (s_core (b_bhs s)) num; get_finalizer_policies (b_bhs s) r.

Definition b_verify_qc_signatures (s : block_state) (qc : qc_t) : result unit :=
  policies ← b_get_finalizer_policies s (qc_block_num qc);
  qc_verify_signatures qc policies.

Definition b_verify_qc_basic (s : block_state) (qc : qc_t) : result unit :=
  policies ← b_get_finalizer_policies s (qc_block_num qc);
  verify_basic qc policies.

Definition b_verify_qc (s : block_state) (qc : qc_t) : result unit :=
  policies ← b_get_finalizer_policies s (qc_block_num qc);
  verify_basic qc policies;;
  qc_verify_signatures qc policies.

Definition extract_qc_claim (s : block_state) : result qc_claim_t :=
  match find_extension 2 (s_header_exts (b_bhs s)) with
  | Some (finality_extension_ext f) => Ok (fe_qc_claim f)
  | Some _ => Err undefined_behaviour
  | None => Ok (QcClaim 0 false)
  end.

(** *** Validation *)

Definition new_valid (s : block_state) (next_bhs : block_header_state) (action_mroot strong_digest : sha256)
    : result valid_t :=
  match b_valid s with
  | None => Err assert_failed
  | Some v =>
    next_final ← last_final_block_num (s_core next_bhs);
    final ← last_final_block_num (s_core (b_bhs s));
    assert_ (final <=? next_final);;
    assert_ (negb (sha256_empty strong_digest));;
    let start := next_final - final in
    roots ← vec_suffix (validation_mroots v) start;
    let leaf := FinalityLeafNode (s_block_num next_bhs) (s_timestamp next_bhs) (s_timestamp (b_bhs s)) strong_digest
                  action_mroot in
    tree ← append hash_bytes (validation_tree v) (hash_bytes (pack_leaf_node leaf));
    root ← get_root hash_bytes tree;
    assert_ (Z.of_nat (length (roots ++ [root])) =? u32 (s_block_num next_bhs - next_final + 1));;
    Ok (Valid tree (roots ++ [root]))
  end.

Definition get_validation_mroot (s : block_state) (target_block_num : Z) : result sha256 :=
  match b_valid s with
  | None => Ok sha256_zero
  | Some v =>
    assert_ (negb (is_empty (validation_mroots v)));;
    low ← last_final_block_num (s_core (b_bhs s));
    let high := low + Z.of_nat (length (validation_mroots v)) in
    check ((low <=? target_block_num) && (target_block_num <? high)) block_validate_exception;;
    vec_at (validation_mroots v) (target_block_num - low)
  end.

Definition get_finality_mroot_claim (s : block_state) (claim : qc_claim_t) : result sha256 :=
  m ← next_metadata (s_core (b_bhs s)) claim;
  genesis ← is_genesis_block_num (s_core (b_bhs s)) (md_latest_qc_claim_block_num m);
  if (genesis : bool) then Ok sha256_zero else get_validation_mroot s (md_latest_qc_claim_block_num m).

(** A transition block, which is validated from the legacy data when there is some. *)
Definition create_transition_block (prev : block_state) (b : signed_block) (skip_validate_signee : bool)
    (action_mroot_savanna : option sha256) : result block_state :=
  s ← block_state_from_block (b_bhs prev) b skip_validate_signee;
  let action_mroot := default sha256_zero action_mroot_savanna in
  v ← (if sha256_empty action_mroot then Ok None
       else v ← new_valid prev (b_bhs s) action_mroot (b_strong_digest s); Ok (Some v));
  Ok (BlockState (b_bhs s) (b_block s) (b_strong_digest s) (b_weak_digest s) (b_aggregating_qc s) v (b_validated s)
        action_mroot (b_base_digest s)).

(** *** Finality data for state history *)

Record finality_data_t : Type := FinalityData {
  fdt_active_finalizer_policy_generation : Z;
  fdt_action_mroot : sha256;
  fdt_reversible_blocks_mroot : sha256;
  fdt_latest_qc_claim_block_num : Z;
  fdt_latest_qc_claim_finality_digest : sha256;
  fdt_latest_qc_claim_timestamp : Z;
  fdt_base_digest : sha256;
  fdt_pending_finalizer_policy : option finalizer_policy;
  fdt_last_pending_finalizer_policy_generation : Z }.

Definition get_finality_data (s : block_state) : result (block_state * finality_data_t) :=
  let bhs := b_bhs s in
  let base := default (compute_base_digest bhs) (b_base_digest s) in
  let s' := BlockState bhs (b_block s) (b_strong_digest s) (b_weak_digest s) (b_aggregating_qc s) (b_valid s)
              (b_validated s) (b_action_mroot s) (Some base) in
  claim ← latest_qc_claim (s_core bhs);
  genesis ← is_savanna_genesis_block bhs;
  '(pending, ref) ←
    (if (genesis : bool) then Ok (Some (s_active_finalizer_policy bhs), empty_block_ref)
     else
       r ← get_block_reference (s_core bhs) (claim_block_num claim);
       Ok (match s_pending_finalizer_policy bhs with
           | Some (n, p) => if n =? s_block_num bhs then Some p else None
           | None => None
           end, r));
  mroot ← get_reversible_blocks_mroot hash_bytes (s_core bhs);
  Ok (s', FinalityData (generation (s_active_finalizer_policy bhs)) (b_action_mroot s) mroot (claim_block_num claim)
            (finality_digest ref) (timestamp ref) base pending (generation (get_last_pending_finalizer_policy bhs))).

End BlockState.
