(* ===== verification/BlockStateTheory.v ===== *)
(** * Theorems on block states

    The validation roots kept in a state are the Merkle roots of the finality
    leaves of the branch, and a state verifies certificates of its ancestors
    against the policies that were in force there. *)

From stdpp Require Import gmap.
From S2P Require Import Prelude Sha256 Merkle FinalityCore BlockTree OrderedDiff ProducerSchedule FinalizerPolicy Qc BlockHeaderState BlockHeaderTheory QcTheory BlockState.
Open Scope Z_scope.

Section Theory.
Context {bls : Bls} {codec : ExtensionCodec} {digests : Digests codec} {bcodec : BlockExtensionCodec bls codec}.

(** ** Branches of executed blocks *)

(** Votes and received certificates change a state outside of these. *)
Definition same_execution (s s' : block_state) : Prop :=
  b_bhs s' = b_bhs s ∧ b_strong_digest s' = b_strong_digest s ∧ b_valid s' = b_valid s ∧ b_action_mroot s' = b_action_mroot s.

(** The states of a branch, newest first: each has the validation tree built
    from its parent's. *)
Inductive state_chain : list block_state → block → Prop :=
| sc_genesis id header features schedule exts b action_mroot ok s :
    create_if_genesis_block id header features schedule exts b (Some action_mroot) ok = Ok s →
    num_from_id id = h_block_num header → generation (s_active_finalizer_policy (b_bhs s)) = 1 →
    state_chain [s] (Genesis (b_make_block_ref s))
| sc_next p l B h exts features f_ext s v :
    state_chain (p :: l) B → h_previous h = s_block_id (b_bhs p) → s_block_num (b_bhs p) < u32_max →
    finish_next (b_bhs p) h exts features f_ext = Ok (b_bhs s) →
    compute_finality_digest (b_bhs s) = Ok (b_strong_digest s) →
    new_valid p (b_bhs s) (b_action_mroot s) (b_strong_digest s) = Ok v → b_valid s = Some v →
    state_chain (s :: p :: l) (Child B (b_make_block_ref s) (fe_qc_claim f_ext))
| sc_update s s' l B : state_chain (s :: l) B → same_execution s s' → state_chain (s' :: l) B.

Definition entry (s : block_state) : block_header_state * block_ref := (b_bhs s, b_make_block_ref s).

Lemma make_block_ref_cached s : compute_finality_digest (b_bhs s) = Ok (b_strong_digest s) →
  s_make_block_ref (b_bhs s) = Ok (b_make_block_ref s).
Proof. intros H. unfold s_make_block_ref. by rewrite H. Qed.

Lemma create_if_genesis_inv id header features schedule exts b am ok s :
  create_if_genesis_block id header features schedule exts b (Some am) ok = Ok s →
  create_if_genesis_state id header features schedule exts = Ok (b_bhs s) ∧
  compute_finality_digest (b_bhs s) = Ok (b_strong_digest s) ∧ b_action_mroot s = am ∧
  ∃ tree root, b_valid s = Some (Valid tree [root]) ∧ get_root hash_bytes tree = Ok root ∧
    append hash_bytes empty_tree (hash_bytes (pack_leaf_node
      (FinalityLeafNode (h_block_num header) (h_timestamp header) 0 (b_strong_digest s) am))) = Ok tree.
Proof.
  intros H. unfold create_if_genesis_block in H. apply bind_inv in H as (bhs & Hb & H).
  apply bind_inv in H as (strong & Hs & H). apply bind_inv in H as (agg & _ & H).
  apply bind_inv in H as (tree & Ht & H). apply bind_inv in H as (root & Hr & H). injection H as <-. cbn. eauto 10.
Qed.

Lemma genesis_header id header features schedule exts s :
  create_if_genesis_state id header features schedule exts = Ok s → s_header s = header.
Proof.
  intros H. unfold create_if_genesis_state in H. apply bind_inv in H as (f & _ & H).
  apply bind_inv in H as (p & _ & H). by injection H as <-.
Qed.

(** The header states form a branch of header states. *)
Lemma state_chain_headers L B : state_chain L B → header_chain (entry <$> L) B.
Proof.
  induction 1 as [id header features schedule exts b am ok s Hs Hid Hgen|p l B h exts features f_ext s v _ IH Hp Hm Hf Hd _ _
    |s s' l B _ IH (H1 & H2 & _)].
  - destruct (create_if_genesis_inv _ _ _ _ _ _ _ _ _ Hs) as (Hg & Hd & _).
    constructor; [|by apply make_block_ref_cached]. by exists id, header, features, schedule, exts.
  - eapply hc_next; [exact IH|exact Hp|exact Hm|exact Hf|by apply make_block_ref_cached].
  - cbn in *. assert (entry s' = entry s) as -> by (unfold entry, b_make_block_ref; by rewrite H1, H2). exact IH.
Qed.

Lemma state_chain_ok s l B : state_chain (s :: l) B → chain_ok (b_bhs s) (b_make_block_ref s) (entry <$> l) B.
Proof.
  intros H. destruct (header_chain_ok _ _ (state_chain_headers _ _ H)) as (s' & r' & l' & Heq & Hco).
  by injection Heq as <- <- <-.
Qed.

(** ** The validation tree *)

Definition leaf_of (s : block_state) (parent_timestamp : Z) : sha256 :=
  hash_bytes (pack_leaf_node (FinalityLeafNode (s_block_num (b_bhs s)) (s_timestamp (b_bhs s)) parent_timestamp
    (b_strong_digest s) (b_action_mroot s))).

(** The finality leaves of a branch, from the genesis block on. *)
Fixpoint leaf_digests (l : list block_state) : list sha256 :=
  match l with
  | [] => []
  | s :: l' => leaf_digests l' ++ [leaf_of s (match l' with p :: _ => s_timestamp (b_bhs p) | [] => 0 end)]
  end.

Lemma length_leaves_cons s l : length (leaf_digests (s :: l)) = S (length (leaf_digests l)).
Proof. cbn [leaf_digests]. rewrite length_app. simpl. lia. Qed.

(** The leaves of the blocks from genesis up to number [n]. *)
Definition leaves_upto (l : list block_state) (B : block) (n : Z) : list sha256 :=
  take (Z.to_nat (n - num (root B) + 1)) (leaf_digests l).

Record tree_ok (s : block_state) (l : list block_state) (B : block) (v : valid_t) : Prop := {
  to_valid : b_valid s = Some v;
  to_tree : tree_repr hash_bytes (validation_tree v) (leaf_digests (s :: l));
  to_count : Z.of_nat (length (leaf_digests (s :: l))) = num B - num (root B) + 1;
  to_roots : Z.of_nat (length (validation_mroots v)) = num B - final_num B + 1;
  to_root : ∀ n, final_num B <= n <= num B → ∃ r, validation_mroots v !! Z.to_nat (n - final_num B) = Some r ∧
    calculate_merkle hash_bytes (leaves_upto (s :: l) B n) = Ok r }.

Lemma new_valid_inv p bhs am strong v v0 :
  new_valid p bhs am strong = Ok v → b_valid p = Some v0 →
  ∃ nf f root, last_final_block_num (s_core bhs) = Ok nf ∧ last_final_block_num (s_core (b_bhs p)) = Ok f ∧ f <= nf ∧
    nf - f <= Z.of_nat (length (validation_mroots v0)) ∧
    append hash_bytes (validation_tree v0) (hash_bytes (pack_leaf_node (FinalityLeafNode (s_block_num bhs) (s_timestamp bhs)
      (s_timestamp (b_bhs p)) strong am))) = Ok (validation_tree v) ∧
    get_root hash_bytes (validation_tree v) = Ok root ∧
    validation_mroots v = drop (Z.to_nat (nf - f)) (validation_mroots v0) ++ [root].
Proof.
  intros H Hv. unfold new_valid in H. rewrite Hv in H.
  apply bind_inv in H as (nf & Hnf & H). apply bind_inv in H as (f & Hf & H). apply bind_inv in H as ([] & Hle & H).
  apply bind_inv in H as ([] & _ & H). apply bind_inv in H as (roots & Hroots & H).
  apply bind_inv in H as (tree & Ht & H). apply bind_inv in H as (root & Hr & H). apply bind_inv in H as ([] & _ & H).
  injection H as <-. apply check_inv, Z.leb_le in Hle. unfold vec_suffix in Hroots.
  destruct ((0 <=? nf - f) && (nf - f <=? Z.of_nat (length (validation_mroots v0)))) eqn:E; [|done].
  injection Hroots as <-. breflect. exists nf, f, root. done.
Qed.

Lemma leaves_upto_snoc s p l B r claim n : n <= num B → Z.of_nat (length (leaf_digests (p :: l))) = num B - num (root B) + 1 →
  leaves_upto (s :: p :: l) (Child B r claim) n = leaves_upto (p :: l) B n.
Proof.
  intros Hn Hc. unfold leaves_upto. cbn [root]. change (leaf_digests (s :: p :: l)) with
    (leaf_digests (p :: l) ++ [leaf_of s (s_timestamp (b_bhs p))]).
  apply take_app_le. lia.
Qed.

Lemma genesis_tree_ok id header features schedule exts b am ok s :
  create_if_genesis_block id header features schedule exts b (Some am) ok = Ok s →
  num_from_id id = h_block_num header → generation (s_active_finalizer_policy (b_bhs s)) = 1 →
  ∃ v, tree_ok s [] (Genesis (b_make_block_ref s)) v.
Proof.
  intros Hs Hid Hgen. pose proof (state_chain_ok s [] _ (sc_genesis _ _ _ _ _ _ _ _ _ Hs Hid Hgen)) as Hco.
  pose proof (co_num _ _ _ _ Hco) as Hnum.
  destruct (create_if_genesis_inv _ _ _ _ _ _ _ _ _ Hs) as (Hg & Hd & Ham & tree & root & Hv & Hr & Ht).
  pose proof (genesis_header _ _ _ _ _ _ Hg) as Hh.
  assert (leaf_digests [s] = [hash_bytes (pack_leaf_node
    (FinalityLeafNode (h_block_num header) (h_timestamp header) 0 (b_strong_digest s) am))]) as Hl.
  { cbn [leaf_digests app]. unfold leaf_of, s_block_num, s_timestamp. by rewrite Hh, Ham. }
  destruct (append_repr hash_bytes empty_tree [] (hash_bytes (pack_leaf_node
    (FinalityLeafNode (h_block_num header) (h_timestamp header) 0 (b_strong_digest s) am)))
    (tree_repr_empty _)) as (t' & Ht' & Hrep & _); [done|].
  assert (t' = tree) as -> by congruence.
  exists (Valid tree [root]). split; cbn [validation_tree validation_mroots BlockTree.root final_num].
  - done.
  - by rewrite Hl.
  - rewrite Hl. simpl. lia.
  - unfold num. cbn [length ref_of]. lia.
  - intros n Hn. exists root. replace n with (num (Genesis (b_make_block_ref s))) by (unfold num in *; cbn [ref_of] in *; lia).
    unfold leaves_upto. cbn [BlockTree.root]. rewrite !Z.sub_diag, Hl. split; [done|].
    change (take _ _) with [hash_bytes (pack_leaf_node
      (FinalityLeafNode (h_block_num header) (h_timestamp header) 0 (b_strong_digest s) am))].
    rewrite <- Hr. symmetry. by apply (get_root_repr hash_bytes).
Qed.

(** Appending the leaf of a child and dropping the roots below its final block. *)
Lemma next_tree_ok p l B r claim s v0 v :
  let C := Child B r claim in
  chain_ok (b_bhs p) (b_make_block_ref p) (entry <$> l) B → chain_ok (b_bhs s) (b_make_block_ref s) (entry <$> p :: l) C →
  tree_ok p l B v0 → new_valid p (b_bhs s) (b_action_mroot s) (b_strong_digest s) = Ok v → b_valid s = Some v →
  tree_ok s (p :: l) C v.
Proof.
  intros C Hcop Hco [Hv0 Htree Hcount Hroots Hroot] Hnv Hv.
  assert (num C = num B + 1) as Hnum.
  { pose proof (co_valid _ _ _ _ Hco) as (_ & Hn & _). subst C. by rewrite num_child. }
  destruct (core_of_sim C (co_valid _ _ _ _ Hco)) as (c & f & Hc & Hs). rewrite (co_core _ _ _ _ Hco) in Hc. injection Hc as <-.
  destruct (core_of_sim B (co_valid _ _ _ _ Hcop)) as (c & fp & Hc & Hsp). rewrite (co_core _ _ _ _ Hcop) in Hc. injection Hc as <-.
  destruct (new_valid_inv _ _ _ _ _ _ Hnv Hv0) as (nf & pf & root & Hnf & Hpf & Hle & Hlen & Happ & Hgr & Hmr).
  rewrite (last_final_block_num_ok _ _ _ (sim_wf _ _ _ Hs)), (sim_final _ _ _ Hs) in Hnf. assert (nf = final_num C) as -> by congruence.
  rewrite (last_final_block_num_ok _ _ _ (sim_wf _ _ _ Hsp)), (sim_final _ _ _ Hsp) in Hpf. assert (pf = final_num B) as -> by congruence.
  pose proof (num_range C) as Hu. pose proof (num_range (BlockTree.root B)) as Hu0. unfold is_u32, u32_max in *.
  destruct (append_repr hash_bytes _ _ (leaf_of s (s_timestamp (b_bhs p))) Htree) as (t' & Ht' & Hrep & _).
  { rewrite (tree_repr_count _ _ _ Htree), Hcount. lia. }
  unfold leaf_of in Ht'. rewrite Happ in Ht'. injection Ht' as <-.
  split; cbn [BlockTree.root].
  - done.
  - exact Hrep.
  - rewrite length_leaves_cons. subst C. cbn [BlockTree.root]. lia.
  - rewrite Hmr, length_app, length_drop. cbn [length]. lia.
  - intros n Hn. destruct (Z.eq_dec n (num C)) as [->|Hne].
    + exists root. split.
      * rewrite Hmr, lookup_app_r by (rewrite length_drop; lia).
         replace (Z.to_nat (num C - final_num C) - length _)%nat with 0%nat by (rewrite length_drop; lia). done.
      * unfold leaves_upto. rewrite take_ge; [rewrite <- Hgr; symmetry; by apply (get_root_repr hash_bytes)|].
         rewrite length_leaves_cons. subst C. cbn [BlockTree.root]. lia.
    + destruct (Hroot n) as (r' & Hr & Hm'); [lia|]. exists r'. split.
      * rewrite Hmr, lookup_app_l by (rewrite length_drop; lia). rewrite lookup_drop. rewrite <- Hr. f_equal. lia.
      * subst C. rewrite leaves_upto_snoc by (done || lia). done.
Qed.

Lemma state_chain_tree s l B : state_chain (s :: l) B → ∃ v, tree_ok s l B v.
Proof.
  remember (s :: l) as L eqn:HL. intros Hch. revert s l HL.
  induction Hch as [id header features schedule exts b am ok s0 Hs Hid Hgen|p l B h exts features f_ext s0 v Hch IH Hp Hm Hf Hd Hnv Hv
    |s0 s1 l B Hch IH (H1 & H2 & H3 & H4)]; intros s l' [= <- <-]; [by eapply genesis_tree_ok| |].
  2:{ destruct (IH s0 l eq_refl) as (v & [Hv Ht Hc Hr Hroot]). exists v.
      assert (leaf_digests (s1 :: l) = leaf_digests (s0 :: l)) as Hl by (cbn [leaf_digests]; unfold leaf_of; by rewrite H1, H2, H4).
      split; [by rewrite H3|by rewrite Hl|by rewrite Hl|done|]. unfold leaves_upto in *. by rewrite Hl. }
  destruct (IH p l eq_refl) as (v0 & Hok). exists v. apply (next_tree_ok p l B _ _ s0 v0 v); try done.
  - by apply state_chain_ok.
  - apply state_chain_ok. by eapply sc_next.
Qed.

(** ** Policies of the ancestors *)

Lemma header_chain_entries L B sA rA : header_chain L B → (sA, rA) ∈ L → ∃ A, (A = B ∨ ancestor A B) ∧ ref_of A = rA.
Proof.
  induction 1 as [s r _ _|p rp l B h exts features f_ext s r _ IH _ _ _ _].
  - intros [= -> ->]%list_elem_of_singleton. eexists. by split; [left|].
  - intros [[= -> ->]|Hin]%elem_of_cons; [eexists; by split; [left|]|].
    destruct (IH Hin) as (A & HA & Hr). exists A. split; [right|done]. simpl. destruct HA as [->|]; auto.
Qed.

(** The policies in force at a block. *)
Definition policies_at (s : block_state) : finalizer_policies_t :=
  FinalizerPolicies (b_strong_digest s) (s_active_finalizer_policy (b_bhs s)) (pending_policy (b_bhs s)).

(** The number of a state is the number in its id. *)
Lemma header_chain_nums L B sA rA : header_chain L B → (sA, rA) ∈ L → FinalityCore.block_num rA = s_block_num sA.
Proof.
  intros Hch. assert (∀ s r l, L = (s, r) :: l → FinalityCore.block_num r = s_block_num s) as Hhead.
  { intros s r l ->. destruct (header_chain_ok _ _ Hch) as (s' & r' & l' & [= <- <- <-] & Hco).
    rewrite (co_num _ _ _ _ Hco). unfold num. by rewrite (co_ref _ _ _ _ Hco). }
  induction Hch as [s r Hg Hr|p rp l B h exts features f_ext s r Hch IH Hp Hm Hf Hr].
  - intros [= -> ->]%list_elem_of_singleton. by eapply Hhead.
  - intros [[= -> ->]|Hin]%elem_of_cons; [by eapply Hhead|]. apply IH; [|done].
    intros s' r' l' [= <- <- <-]. destruct (header_chain_ok _ _ Hch) as (s' & r' & l' & [= <- <- <-] & Hco).
    rewrite (co_num _ _ _ _ Hco). unfold num. by rewrite (co_ref _ _ _ _ Hco).
Qed.

Lemma ancestor_policies s l B sA : header_chain (entry <$> s :: l) B → sA ∈ s :: l → claim_num B <= s_block_num (b_bhs sA) →
  b_get_finalizer_policies s (s_block_num (b_bhs sA)) = Ok (policies_at sA).
Proof.
  intros Hh Hin Hc. destruct (header_chain_ok _ _ Hh) as (s' & r' & l' & Heq & Hco). injection Heq as <- <- <-.
  assert (entry sA ∈ entry <$> s :: l) as HinE by (by apply list_elem_of_fmap_2).
  pose proof (header_chain_nums _ _ _ _ Hh HinE) as HnA.
  pose proof (policies_retrieved _ _ _ _ (b_bhs sA) (b_make_block_ref sA) Hco HinE ltac:(lia)) as Hret.
  destruct (header_chain_entries _ _ _ _ Hh HinE) as (A & HA & HrA). unfold b_get_finalizer_policies.
  pose proof (co_num _ _ _ _ Hco) as Hnum. pose proof (co_ref _ _ _ _ Hco) as Href.
  assert (num A = s_block_num (b_bhs sA)) as HnumA by (unfold num; by rewrite HrA). destruct HA as [->|HA].
  - rewrite Hnum, <- HnumA, Z.eqb_refl, <- Href, HrA. exact Hret.
  - pose proof (co_valid _ _ _ _ Hco) as Hv. destruct (valid_ancestor _ _ Hv HA) as (_ & Hlt & _).
    pose proof (final_num_le_claim B Hv) as Hfc.
    rewrite Hnum, <- HnumA, (proj2 (Z.eqb_neq _ _)) by lia.
    rewrite (core_reference B _ A Hv (co_core _ _ _ _ Hco) HA), bind_ok, HrA by lia. exact Hret.
Qed.

(** ** Theorems *)

(** The roots a state gives. *)
Lemma finality_tree_ok s l B :
  state_chain (s :: l) B →
  (∃ v, b_valid s = Some v ∧ get_root hash_bytes (validation_tree v) = calculate_merkle hash_bytes (leaf_digests (s :: l))) ∧
  (∀ n, get_validation_mroot s n = if bool_decide (final_num B <= n <= num B)
     then calculate_merkle hash_bytes (leaves_upto (s :: l) B n) else Err block_validate_exception) ∧
  (∀ claim, claim_block_num claim <= num B → qc_claim_le (QcClaim (claim_num B) (claim_strong B)) claim = true →
     num B < u32_max →
     get_finality_mroot_claim s claim = if claim_block_num claim =? num (root B) then Ok sha256_zero
       else calculate_merkle hash_bytes (leaves_upto (s :: l) B (claim_block_num claim))).
Proof.
  intros Hch. destruct (state_chain_tree s l B Hch) as (v & [Hv Htree Hcount Hroots Hroot]).
  pose proof (state_chain_ok s l B Hch) as Hco. pose proof (co_valid _ _ _ _ Hco) as HvB.
  destruct (core_of_sim B HvB) as (c & f & Hc & Hs). rewrite (co_core _ _ _ _ Hco) in Hc. injection Hc as <-.
  pose proof (sim_wf _ _ _ Hs) as Hwf. pose proof (claim_num_le B HvB) as Hcl. pose proof (final_num_le_claim B HvB) as Hfc.
  assert (∀ n, get_validation_mroot s n = if bool_decide (final_num B <= n <= num B)
     then calculate_merkle hash_bytes (leaves_upto (s :: l) B n) else Err block_validate_exception) as Hmroot.
  { intros n. unfold get_validation_mroot. rewrite Hv, assert_bind by (destruct (validation_mroots v); [simpl in Hroots; lia|done]).
    rewrite (last_final_block_num_ok _ _ _ Hwf), (sim_final _ _ _ Hs), bind_ok. cbv zeta. rewrite Hroots.
    case_bool_decide as Hn.
    - rewrite check_bind by solve_test. destruct (Hroot n Hn) as (r & Hr & ->). apply vec_at_lookup; [lia|done].
    - rewrite (proj2 (andb_false_iff _ _)); [done|]. rewrite Z.leb_gt, Z.ltb_ge. lia. }
  split; [exists v; split; [done|by apply get_root_repr]|]. split; [done|]. intros claim Hle Hcle Hmax.
  assert (claim_num B <= claim_block_num claim) as Hge.
  { unfold qc_claim_le in Hcle. cbn in Hcle. apply orb_prop in Hcle as [?|?]; breflect; lia. }
  unfold get_finality_mroot_claim. assert (next_pre (s_core (b_bhs s)) (b_make_block_ref s) claim) as Hpre.
  { rewrite <- (co_ref _ _ _ _ Hco). apply (sim_next_pre B (stub_ref (num B + 1) (time B + 1)) claim _ f); [|done].
    pose proof (num_range B). unfold is_u32, u32_max in *. split_and!; [done| |simpl; lia|done..].
    apply num_from_id_stored. unfold is_u32, u32_max. lia. }
  destruct (kept_link_exists _ _ _ _ _ Hwf Hpre) as (k & Hk & _).
  rewrite (next_metadata_ok _ _ _ _ _ Hwf Hpre k Hk), bind_ok. cbn [md_latest_qc_claim_block_num].
  rewrite (is_genesis_from_claim B _ _ HvB (co_core _ _ _ _ Hco)), bind_ok by lia.
  destruct (claim_block_num claim =? num (BlockTree.root B)); [done|]. rewrite Hmroot. by rewrite bool_decide_eq_true_2 by lia.
Qed.

(** C16: on every branch of executed blocks the validation roots of a state are
    the Merkle roots of the finality leaves: the root for a block from the last
    final one to the state's own is that of the leaves from the genesis block up
    to it, any other number is refused, and the root claimed for a child is that
    of the block its certificate is for, or empty when that is the genesis block. *)
Theorem finality_tree_correct s l B :
  state_chain (s :: l) B →
  (∃ v, b_valid s = Some v ∧ get_root hash_bytes (validation_tree v) = calculate_merkle hash_bytes (leaf_digests (s :: l))) ∧
  (∀ n, get_validation_mroot s n = if bool_decide (final_num B <= n <= num B)
     then calculate_merkle hash_bytes (leaves_upto (s :: l) B n) else Err block_validate_exception) ∧
  (∀ claim, claim_block_num claim <= num B → qc_claim_le (QcClaim (claim_num B) (claim_strong B)) claim = true →
     num B < u32_max →
     get_finality_mroot_claim s claim = if claim_block_num claim =? num (root B) then Ok sha256_zero
       else calculate_merkle hash_bytes (leaves_upto (s :: l) B (claim_block_num claim))).
Proof. apply finality_tree_ok. Qed.

(** A state verifies a certificate for an ancestor, from its latest claim on,
    exactly as the block itself would, against the policies in force there; and
    the certificate assembled from the votes on that block is accepted exactly
    when the finalizers in both of its policies have the same vote in both. *)
Theorem ancestor_certificates_verified s l B sA qc :
  state_chain (s :: l) B → sA ∈ s :: l → claim_num B <= s_block_num (b_bhs sA) → qc_block_num qc = s_block_num (b_bhs sA) →
  b_verify_qc_basic s qc = verify_basic qc (policies_at sA) ∧
  b_verify_qc s qc = (verify_basic qc (policies_at sA);; qc_verify_signatures qc (policies_at sA)) ∧
  (agg_qc_inv (b_aggregating_qc sA) → agg_active_policy (b_aggregating_qc sA) = s_active_finalizer_policy (b_bhs sA) →
   agg_pending_policy (b_aggregating_qc sA) = pending_policy (b_bhs sA) → b_get_best_qc sA = Ok (Some qc) →
   b_verify_qc_basic s qc = Ok tt ↔
     ∀ p sp, pending_policy (b_bhs sA) = Some p → pending_policy_sig qc = Some sp →
       dual_votes_agree (active_policy_sig qc) sp (finalizers (s_active_finalizer_policy (b_bhs sA))) (finalizers p)).
Proof.
  intros Hch Hin Hc Hqc. pose proof (ancestor_policies s l B sA (state_chain_headers _ _ Hch) Hin Hc) as Hp.
  assert (b_verify_qc_basic s qc = verify_basic qc (policies_at sA)) as Hbasic by (unfold b_verify_qc_basic; by rewrite Hqc, Hp).
  split; [done|]. split; [unfold b_verify_qc; by rewrite Hqc, Hp|]. intros Hinv Ha Hpe Hbest.
  destruct (agg_get_best_qc_ok _ (s_block_num (b_bhs sA)) Hinv) as (best & Hb & Hval).
  unfold b_get_best_qc in Hbest. assert (best = Some qc) as -> by congruence.
  destruct (Hval qc eq_refl) as (_ & Hva & Hvp). rewrite Ha, Hpe in *. destruct Hinv as (Hwa & _ & Hwp). rewrite Ha, Hpe in *.
  rewrite Hbasic, verify_basic_iff; unfold valid_qc, policies_at; cbn [active_finalizer_policy pending_finalizer_policy].
  - destruct (pending_policy (b_bhs sA)) as [p|], (pending_policy_sig qc) as [sp|]; try done. naive_solver.
  - split; [done|]. cbn. intros p' Hp'. rewrite Hp' in Hwp. destruct (agg_pending_sig _); [apply Hwp|done].
  - split; [by eapply opt_wf_sig_wf|]. intros sp Hsp. rewrite Hsp in Hvp.
    destruct (pending_policy (b_bhs sA)); [by eapply opt_wf_sig_wf|done].
Qed.

End Theory.
