(* ===== verification/ForkDatabase.v ===== *)
(** * The fork database: [fork_database.hpp/.cpp]

    The tree of reversible blocks on top of the root. The template parameter (a
    pointer to a block state) is the interface [BlockStateLike]; the container
    with its three indices is a map by id, with the order by best branch computed
    from it. Walks along [previous] and the removal of subtrees carry fuel: the
    number of blocks, which the theorems show to be enough. *)

From stdpp Require Import gmap sorting.
From S2P Require Import Prelude Sha256 FinalityCore BlockHeaderState.
Open Scope Z_scope.

(** ** What the database uses of a block state *)

(** [bs_best] are the values compared before the id in the order by best branch;
    [bs_qc_claim] is [None] for legacy states, whose claims are not looked at;
    [bs_claimed_final] is the id of the block that the latest claim of a state
    refers to. *)
Class BlockStateLike (BS : Type) : Type := {
  bs_id : BS → sha256;
  bs_previous : BS → sha256;
  bs_block_num : BS → Z;
  bs_timestamp : BS → Z;
  bs_best : BS → Z * Z;
  bs_is_valid : BS → bool;
  bs_set_valid : BS → BS;
  bs_features : BS → gset sha256;
  bs_new_features : BS → option (list sha256);
  bs_qc_claim : BS → result (option qc_claim_t);
  bs_claimed_final : BS → result sha256 }.

(** ** The order by best branch *)

(** [memcmp] on sequences of one length. *)
Fixpoint lex_leb (a b : list Z) : bool :=
  match a, b with
  | [], _ => true
  | _ :: _, [] => false
  | x :: a, y :: b => (x <? y) || ((x =? y) && lex_leb a b)
  end.

Inductive fork_db_add_t : Type := failure | duplicate_block | added | appended_to_head | fork_switch.

Section ForkDatabase.
Context {BS : Type} {bsl : BlockStateLike BS}.

Definition best_key (b : BS) : list Z := (bs_best b).1 :: (bs_best b).2 :: pack_sha256 (bs_id b).

(** [a] does not come after [b]: all three values are compared with [std::greater]. *)
Definition best_before (a b : BS) : Prop := lex_leb (best_key b) (best_key a) = true.

#[global] Instance best_before_dec : RelDecision best_before.
Proof. intros a b. unfold best_before. apply _. Defined.

(** ** The state *)

Record fork_database : Type := ForkDatabase {
  fd_root : option BS;
  fd_pending_savanna_lib_id : sha256;
  fd_index : gmap sha256 BS }.

Definition fork_database_new : fork_database := ForkDatabase None sha256_zero ∅.

(** The blocks of the index in the order by best branch. *)
Definition by_best_branch (index : gmap sha256 BS) : list BS :=
  merge_sort best_before (snd <$> map_to_list index).

Definition with_lib (db : fork_database) (id : sha256) : fork_database := ForkDatabase (fd_root db) id (fd_index db).
Definition with_index (db : fork_database) (index : gmap sha256 BS) : fork_database :=
  ForkDatabase (fd_root db) (fd_pending_savanna_lib_id db) index.

Definition is_root (db : fork_database) (id : sha256) : bool :=
  match fd_root db with Some r => bool_decide (bs_id r = id) | None => false end.

(** ** Queries *)

Definition size (db : fork_database) : nat := base.size (fd_index db).

Definition fd_is_valid (db : fork_database) : bool := match fd_root db with Some _ => true | None => false end.

Definition get_block (db : fork_database) (id : sha256) (include_root : bool) : option BS :=
  if include_root && is_root db id then fd_root db else fd_index db !! id.

Definition block_exists (db : fork_database) (id : sha256) : bool :=
  match fd_index db !! id with Some _ => true | None => false end.

Definition head_impl (db : fork_database) (include_root : bool) : option BS :=
  match by_best_branch (fd_index db) with
  | [] => if include_root then fd_root db else None
  | b :: _ => Some b
  end.

(** The blocks visited by [for (i = index.find(h); i != end; i = index.find(previous))]. *)
Fixpoint branch_from (index : gmap sha256 BS) (fuel : nat) (h : sha256) : result (list BS) :=
  match index !! h with
  | None => Ok []
  | Some b =>
    match fuel with
    | O => Err out_of_fuel
    | S fuel => rest ← branch_from index fuel (bs_previous b); Ok (b :: rest)
    end
  end.
Definition branch (db : fork_database) (h : sha256) : result (list BS) := branch_from (fd_index db) (size db) h.

Definition fetch_branch (db : fork_database) (h : sha256) (trim_after_block_num : Z) : result (list BS) :=
  bs ← branch db h; Ok (filter (λ b, bs_block_num b <= trim_after_block_num) bs).

(** From the block [b] of the branch on. *)
Fixpoint from_block (b : sha256) (bs : list BS) : list BS :=
  match bs with
  | [] => []
  | x :: bs' => if bool_decide (bs_id x = b) then bs else from_block b bs'
  end.
Definition fetch_branch_to (db : fork_database) (h b : sha256) : result (list BS) :=
  bs ← branch db h; Ok (from_block b bs).

Definition fetch_full_branch (db : fork_database) (h : sha256) : result (list BS) :=
  bs ← branch db h; Ok (bs ++ option_list (fd_root db)).

Definition search_on_branch (db : fork_database) (h : sha256) (block_num : Z) (include_root : bool) : result (option BS) :=
  match fd_root db with
  | None => Ok None
  | Some r =>
    if include_root && (bs_block_num r =? block_num) then Ok (Some r)
    else if block_num <=? bs_block_num r then Ok None
    else bs ← branch db h; Ok (snd <$> list_find (λ b, bs_block_num b = block_num) bs)
  end.

Definition search_on_head_branch (db : fork_database) (block_num : Z) (include_root : bool) : result (option BS) :=
  match head_impl db include_root with
  | None => Ok None
  | Some h => search_on_branch db (bs_id h) block_num include_root
  end.

(** The loop of [is_descendant_of]. *)
Fixpoint descendant_loop (ancestor : sha256) (bs : list BS) : bool :=
  match bs with
  | [] => false
  | b :: bs =>
    if bool_decide (bs_previous b = ancestor) then true
    else if bs_block_num b <=? u32 (num_from_id ancestor + 1) then false
    else descendant_loop ancestor bs
  end.
Definition is_descendant_of (db : fork_database) (ancestor descendant : sha256) : result bool :=
  if num_from_id descendant <=? num_from_id ancestor then Ok false
  else bs ← branch db descendant; Ok (descendant_loop ancestor bs).

Definition is_descendant_of_pending_savanna_lib (db : fork_database) (id : sha256) : result bool :=
  if bool_decide (fd_pending_savanna_lib_id db = id) then Ok true
  else is_descendant_of db (fd_pending_savanna_lib_id db) id.

(** The loop of [validated_block_exists]: an answer, or whether a block was seen. *)
Fixpoint validated_loop (claimed_id : sha256) (bs : list BS) (id_present : bool) : bool + bool :=
  match bs with
  | [] => inr id_present
  | b :: bs =>
    if bs_is_valid b then inl true
    else if bool_decide (bs_id b = claimed_id) then inl false
    else validated_loop claimed_id bs true
  end.
Definition validated_block_exists (db : fork_database) (id claimed_id : sha256) : result bool :=
  bs ← branch db id;
  match validated_loop claimed_id bs false with
  | inl answer => Ok answer
  | inr id_present =>
    match fd_root db with
    | None => Err undefined_behaviour
    | Some r =>
      assert_ (negb id_present || (num_from_id claimed_id <=? num_from_id (bs_id r)));;
      Ok (id_present || bool_decide (id = bs_id r))
    end
  end.

(** *** The branches of two blocks down to a common ancestor *)

Definition block_or_root (db : fork_database) (id : sha256) : result BS :=
  match get_block db id true with Some b => Ok b | None => Err fork_db_block_not_found end.

(** The first and the second loop: down to the height of the other block. *)
Fixpoint down_to (db : fork_database) (fuel : nat) (b : BS) (num : Z) : result (list BS * BS) :=
  if num <? bs_block_num b then
    match fuel with
    | O => Err out_of_fuel
    | S fuel =>
      p ← block_or_root db (bs_previous b);
      '(bs, e) ← down_to db fuel p num;
      Ok (b :: bs, e)
    end
  else Ok ([], b).

(** The third loop, and the last blocks pushed after it. *)
Fixpoint down_both (db : fork_database) (fuel : nat) (a b : BS) : result (list BS * list BS) :=
  if bool_decide (bs_previous a = bs_previous b) then Ok ([a], [b])
  else
    match fuel with
    | O => Err out_of_fuel
    | S fuel =>
      match fd_index db !! bs_previous a, fd_index db !! bs_previous b with
      | Some pa, Some pb => '(l1, l2) ← down_both db fuel pa pb; Ok (a :: l1, b :: l2)
      | _, _ => Err fork_db_block_not_found
      end
    end.

Definition fetch_branch_from (db : fork_database) (first second : sha256) : result (list BS * list BS) :=
  match fd_root db with
  | None => Err undefined_behaviour
  | Some _ =>
    a ← block_or_root db first;
    b ← block_or_root db second;
    '(l1, a) ← down_to db (size db) a (bs_block_num b);
    '(l2, b) ← down_to db (size db) b (bs_block_num a);
    if bool_decide (bs_id a = bs_id b) then Ok (l1, l2)
    else '(r1, r2) ← down_both db (size db) a b; Ok (l1 ++ r1, l2 ++ r2)
  end.

(** ** Updates *)

Definition reset_root (root_bsp : BS) : fork_database := ForkDatabase (Some (bs_set_valid root_bsp)) sha256_zero ∅.

Definition set_pending_savanna_lib_id (db : fork_database) (id : sha256) : fork_database * bool :=
  if num_from_id (fd_pending_savanna_lib_id db) <? num_from_id id then (with_lib db id, true) else (db, false).

(** The ids found by [by_prev] for one id. *)
Definition children (index : gmap sha256 BS) (id : sha256) : list sha256 :=
  fst <$> filter (λ p, bs_previous p.2 = id) (map_to_list index).

(** The queue of [remove]. *)
Fixpoint remove_queue (index : gmap sha256 BS) (fuel : nat) (queue : list sha256) : result (list sha256) :=
  match queue with
  | [] => Ok []
  | id :: queue =>
    match fuel with
    | O => Err out_of_fuel
    | S fuel => rest ← remove_queue index fuel (queue ++ children index id); Ok (id :: rest)
    end
  end.

Definition erase_all (index : gmap sha256 BS) (ids : list sha256) : gmap sha256 BS := foldl (λ m id, delete id m) index ids.

Definition remove (db : fork_database) (id : sha256) : result fork_database :=
  ids ← remove_queue (fd_index db) (S (size db)) [id];
  Ok (with_index db (erase_all (fd_index db) ids)).

Definition remove_from_num (db : fork_database) (num : Z) : fork_database :=
  with_index db (filter (λ p, bs_block_num p.2 < num) (fd_index db)).

(** The ids below a block, down to the root. *)
Fixpoint blocks_to_remove (db : fork_database) (r : BS) (fuel : nat) (b : BS) : result (list sha256) :=
  match fd_index db !! bs_previous b with
  | None => check (bool_decide (bs_previous b = bs_id r)) fork_database_exception;; Ok [bs_previous b]
  | Some p =>
    match fuel with
    | O => Err out_of_fuel
    | S fuel => rest ← blocks_to_remove db r fuel p; Ok (bs_previous b :: rest)
    end
  end.

Fixpoint remove_all (db : fork_database) (ids : list sha256) : result fork_database :=
  match ids with
  | [] => Ok db
  | id :: ids => db ← remove db id; remove_all db ids
  end.

Definition advance_root (db : fork_database) (id : sha256) : result fork_database :=
  match fd_root db with
  | None => Err fork_database_exception
  | Some r =>
    match fd_index db !! id with
    | None => Err fork_database_exception
    | Some new_root =>
      check (bs_is_valid new_root) fork_database_exception;;
      ids ← blocks_to_remove db r (size db) new_root;
      db' ← remove_all (with_index db (delete id (fd_index db))) ids;
      Ok (ForkDatabase (Some new_root) (fd_pending_savanna_lib_id db') (fd_index db'))
    end
  end.

(** A strong claim of the new block makes final the block that the claimed one claims. *)
Definition claim_to_lib (db : fork_database) (n : BS) : result fork_database :=
  c ← bs_qc_claim n;
  match c with
  | Some claim =>
    if is_strong_qc claim && (num_from_id (fd_pending_savanna_lib_id db) <? claim_block_num claim) then
      claimed ← search_on_branch db (bs_previous n) (claim_block_num claim) false;
      match claimed with
      | Some b => id ← bs_claimed_final b; Ok (fst (set_pending_savanna_lib_id db id))
      | None => Ok db
      end
    else Ok db
  | None => Ok db
  end.

(** The changes made before an exception stay: the state comes with the outcome. *)
Definition add_impl (validate : option (Z → gset sha256 → list sha256 → result unit)) (db : fork_database) (n : BS)
    (ignore_duplicate : bool) : fork_database * result fork_db_add_t :=
  match fd_root db with
  | None => (db, Err fork_database_exception)
  | Some _ =>
    match claim_to_lib db n with
    | Err e => (db, Err e)
    | Ok db =>
      match get_block db (bs_previous n) true with
      | None => (db, Err unlinkable_block_exception)
      | Some prev_bh =>
        match
          match validate, bs_new_features n with
          | Some validator, Some fs => validator (bs_timestamp n) (bs_features prev_bh) fs
          | _, _ => Ok tt
          end
        with
        | Err _ => (db, Err fork_database_exception)
        | Ok _ =>
          let prev_head := head_impl db true in
          if block_exists db (bs_id n)
          then (db, if ignore_duplicate then Ok duplicate_block else Err fork_database_exception)
          else
            let db' := with_index db (<[bs_id n := n]> (fd_index db)) in
            let new_head := match head_impl db' false with Some h => bool_decide (bs_id h = bs_id n) | None => false end in
            let on_head := match prev_head with Some h => bool_decide (bs_previous n = bs_id h) | None => false end in
            (db', Ok (if new_head && on_head then appended_to_head else if new_head then fork_switch else added))
        end
      end
    end
  end.

Definition add (db : fork_database) (n : BS) (ignore_duplicate : bool) : fork_database * result fork_db_add_t :=
  add_impl None db n ignore_duplicate.

(** The states are shared: a change through one pointer is seen through the others. *)
Definition update_block (db : fork_database) (s : BS) : fork_database :=
  if is_root db (bs_id s)
  then ForkDatabase (Some s) (fd_pending_savanna_lib_id db) (fd_index db)
  else match fd_index db !! bs_id s with
       | Some _ => with_index db (<[bs_id s := s]> (fd_index db))
       | None => db
       end.

(** ** Saving and loading *)

(** What the file of the database holds. *)
Record fork_db_file : Type := ForkDbFile {
  file_lib : sha256;
  file_root : BS;
  file_blocks : list BS }.

Definition close (db : fork_database) : result fork_db_file :=
  match fd_root db with
  | None => Err assert_failed
  | Some r => Ok (ForkDbFile (fd_pending_savanna_lib_id db) r (reverse (by_best_branch (fd_index db))))
  end.

Fixpoint add_all (validator : Z → gset sha256 → list sha256 → result unit) (db : fork_database) (bs : list BS)
    : result fork_database :=
  match bs with
  | [] => Ok db
  | b :: bs =>
    match add_impl (Some validator) db b false with
    | (db, Ok _) => add_all validator db bs
    | (_, Err e) => Err e
    end
  end.

Definition open (validator : Z → gset sha256 → list sha256 → result unit) (f : fork_db_file) : result fork_database :=
  let db := fst (set_pending_savanna_lib_id (reset_root (file_root f)) (file_lib f)) in
  add_all validator db (file_blocks f).

End ForkDatabase.
