(* ===== verification/ForkDatabaseTheory.v ===== *)
(** * Theorems on the fork database

    The index is a tree on top of the root; every operation keeps it so, walks
    end, removing a block removes exactly its subtree, advancing the root keeps
    exactly the descendants of the new root, and the head is the best block. *)

From stdpp Require Import gmap sorting.
From S2P Require Import Prelude Sha256 FinalityCore BlockHeaderState ForkDatabase.
Open Scope Z_scope.

(** ** The order *)

Lemma lex_leb_refl a : lex_leb a a = true.
Proof. induction a as [|x a IH]; [done|]. simpl. by rewrite Z.ltb_irrefl, Z.eqb_refl, IH. Qed.

Lemma lex_leb_total a b : lex_leb a b = true ∨ lex_leb b a = true.
Proof.
  revert b. induction a as [|x a IH]; intros [|y b]; [by left|by left|by right|]. simpl.
  destruct (Z.lt_trichotomy x y) as [H|[->|H]].
  - left. by rewrite (proj2 (Z.ltb_lt _ _) H).
  - rewrite Z.ltb_irrefl, Z.eqb_refl. apply IH.
  - right. by rewrite (proj2 (Z.ltb_lt _ _) H).
Qed.

Lemma lex_leb_trans a b c : lex_leb a b = true → lex_leb b c = true → lex_leb a c = true.
Proof.
  revert b c. induction a as [|x a IH]; [done|]. intros [|y b] [|z c]; try done. simpl. intros H1 H2.
  apply orb_prop in H1, H2. rewrite !andb_true_iff, Z.ltb_lt, Z.eqb_eq in *. apply orb_true_intro.
  rewrite andb_true_iff, Z.ltb_lt, Z.eqb_eq. destruct H1 as [?|[-> ?]], H2 as [?|[-> ?]]; [left; lia|left; lia|left; lia|].
  right. split; [done|by eapply IH].
Qed.

(** Marking a state as valid changes nothing else the database uses. *)
Class BlockStateLaws (BS : Type) (bsl : BlockStateLike BS) : Prop := {
  set_valid_id (b : BS) : bs_id (bs_set_valid b) = bs_id b;
  set_valid_num (b : BS) : bs_block_num (bs_set_valid b) = bs_block_num b;
  set_valid_features (b : BS) : bs_features (bs_set_valid b) = bs_features b;
  set_valid_valid (b : BS) : bs_is_valid (bs_set_valid b) = true }.

Section Theory.
Context {BS : Type} {bsl : BlockStateLike BS}.
Implicit Types (db : fork_database (BS := BS)) (idx : gmap sha256 BS) (b r : BS).

#[local] Instance best_before_total : Total best_before.
Proof. intros a b. unfold best_before. apply lex_leb_total. Qed.
#[local] Instance best_before_trans : Transitive best_before.
Proof. intros a b c H1 H2. unfold best_before in *. by eapply lex_leb_trans. Qed.

Lemma by_best_branch_perm idx : by_best_branch idx ≡ₚ snd <$> map_to_list idx.
Proof. apply merge_sort_Permutation. Qed.

Lemma by_best_branch_elem idx b : b ∈ by_best_branch idx ↔ ∃ k, idx !! k = Some b.
Proof.
  rewrite by_best_branch_perm, list_elem_of_fmap. split.
  - intros ([k b'] & -> & H). exists k. by apply elem_of_map_to_list.
  - intros [k H]. exists (k, b). split; [done|by apply elem_of_map_to_list].
Qed.

Lemma by_best_branch_sorted idx : StronglySorted best_before (by_best_branch idx).
Proof. apply Sorted_StronglySorted; [apply _|]. apply Sorted_merge_sort. apply _. Qed.

(** The head is a best block of the index. *)
Lemma head_best db h : head_impl db false = Some h →
  (∃ k, fd_index db !! k = Some h) ∧ ∀ k b, fd_index db !! k = Some b → best_before h b.
Proof.
  unfold head_impl. pose proof (by_best_branch_elem (fd_index db)) as Hel. pose proof (by_best_branch_sorted (fd_index db)) as Hs.
  destruct (by_best_branch (fd_index db)) as [|h' l]; [done|]. intros [= ->]. split; [apply Hel; left|].
  intros k b Hb. apply StronglySorted_inv in Hs as [_ Hf]. rewrite Forall_forall in Hf.
  assert (b ∈ h :: l) as [->|Hin]%elem_of_cons by (apply Hel; eauto); [|by apply Hf].
  unfold best_before. apply lex_leb_refl.
Qed.

Lemma head_none db : head_impl db false = None ↔ fd_index db = ∅.
Proof.
  unfold head_impl. pose proof (by_best_branch_elem (fd_index db)) as Hel.
  destruct (by_best_branch (fd_index db)) as [|h l]; split; try done.
  - intros _. apply map_empty. intros k. destruct (fd_index db !! k) as [b|] eqn:E; [|done].
    assert (b ∈ []) as ?%not_elem_of_nil by (apply Hel; eauto). done.
  - intros Hem. destruct (proj1 (Hel h)) as [k Hk]; [left|]. by rewrite Hem, lookup_empty in Hk.
Qed.

(** ** The tree *)

(** The number of a block is in its id, and is one more than that of the block
    before; the block its claim refers to is not later than the block itself. *)
Definition node_ok b : Prop :=
  num_from_id (bs_id b) = bs_block_num b ∧ num_from_id (bs_previous b) + 1 = bs_block_num b ∧
  (∃ c, bs_qc_claim b = Ok c) ∧ ∃ id, bs_claimed_final b = Ok id ∧ num_from_id id <= bs_block_num b.

Definition idx_ok idx : Prop := ∀ k b, idx !! k = Some b → bs_id b = k ∧ node_ok b.

Definition linked idx (root_id : sha256) : Prop :=
  ∀ k b, idx !! k = Some b → bs_previous b = root_id ∨ is_Some (idx !! bs_previous b).

(** From block [a] of the index along [previous] down to [c]. *)
Inductive path idx : sha256 → list BS → sha256 → Prop :=
| path_nil a : path idx a [] a
| path_cons a b l c : idx !! a = Some b → path idx (bs_previous b) l c → path idx a (b :: l) c.

(** The pending final block is not before any that the strong claim of a block makes final. *)
Definition settled idx (lib : sha256) : Prop :=
  ∀ k b claim l c a id, idx !! k = Some b → bs_qc_claim b = Ok (Some claim) → is_strong_qc claim = true →
    path idx (bs_previous b) l c → a ∈ l → bs_block_num a = claim_block_num claim → bs_claimed_final a = Ok id →
    num_from_id id <= num_from_id lib.

Definition better (a b : BS) : Prop :=
  (bs_best b).1 < (bs_best a).1 ∨ (bs_best b).1 = (bs_best a).1 ∧ (bs_best b).2 < (bs_best a).2.

(** A block is better than the one before it. *)
Definition best_grows idx : Prop := ∀ k b p, idx !! k = Some b → idx !! bs_previous b = Some p → better b p.

Record fd_inv db r : Prop := {
  fi_root : fd_root db = Some r;
  fi_root_num : num_from_id (bs_id r) = bs_block_num r;
  fi_idx : idx_ok (fd_index db);
  fi_linked : linked (fd_index db) (bs_id r);
  fi_settled : settled (fd_index db) (fd_pending_savanna_lib_id db);
  fi_best : best_grows (fd_index db) }.

Lemma num_step idx k b : idx_ok idx → idx !! k = Some b → num_from_id (bs_previous b) + 1 = num_from_id k.
Proof. intros Hok Hk. destruct (Hok _ _ Hk) as (<- & H1 & H2 & _). lia. Qed.

Lemma num_from_id_nonneg id : 0 <= num_from_id id.
Proof. apply num_from_id_range. Qed.

Lemma path_num idx a l c : idx_ok idx → path idx a l c → num_from_id a = num_from_id c + Z.of_nat (length l).
Proof. intros Hok. induction 1 as [|a b l c Ha _ IH]; [simpl; lia|]. pose proof (num_step _ _ _ Hok Ha). simpl. lia. Qed.

Lemma path_app idx a l c l' d : path idx a l c → path idx c l' d → path idx a (l ++ l') d.
Proof. induction 1; [done|]. intros. simpl. econstructor; eauto. Qed.

Lemma path_sub idx idx' a l c : path idx a l c → idx ⊆ idx' → path idx' a l c.
Proof. induction 1; intros; econstructor; eauto. by eapply lookup_weaken. Qed.

Lemma path_blocks idx a l c b : idx_ok idx → path idx a l c → b ∈ l → idx !! bs_id b = Some b ∧ num_from_id c < num_from_id (bs_id b).
Proof.
  intros Hok. induction 1 as [|a b' l c Ha Hp IH]; [by intros ?%not_elem_of_nil|]. intros [->|Hin]%elem_of_cons; [|by apply IH].
  destruct (Hok _ _ Ha) as (Hid & _). rewrite Hid. split; [done|].
  pose proof (num_step _ _ _ Hok Ha). pose proof (path_num _ _ _ _ Hok Hp). lia.
Qed.

(** Two paths from one block: one continues the other. *)
Lemma path_split idx a l1 c1 l2 c2 : path idx a l1 c1 → path idx a l2 c2 → (length l1 ≤ length l2)%nat →
  ∃ l, l2 = l1 ++ l ∧ path idx c1 l c2.
Proof.
  intros H. revert l2 c2. induction H as [a|a b l c Ha _ IH]; intros l2 c2 H2 Hlen; [by exists l2|].
  inversion H2 as [|? b' l' ? Ha' H']; subst; [simpl in Hlen; lia|]. rewrite Ha in Ha'. injection Ha' as <-.
  destruct (IH l' c2 H') as (l0 & -> & Hl); [simpl in Hlen; lia|]. by exists l0.
Qed.

Lemma above_root idx rid k b : idx_ok idx → linked idx rid → idx !! k = Some b → num_from_id rid < num_from_id k.
Proof.
  intros Hok Hl. remember (Z.to_nat (num_from_id k)) as m eqn:Hm. revert k b Hm.
  induction m as [m IH] using lt_wf_ind. intros k b -> Hk. pose proof (num_step _ _ _ Hok Hk) as Hn.
  pose proof (num_from_id_nonneg (bs_previous b)). destruct (Hl _ _ Hk) as [<-|[p Hp]]; [lia|].
  assert (num_from_id rid < num_from_id (bs_previous b)); [|lia]. eapply IH; [|done|done]. lia.
Qed.

Lemma root_not_in idx rid : idx_ok idx → linked idx rid → idx !! rid = None.
Proof. intros Hok Hl. destruct (idx !! rid) eqn:E; [|done]. pose proof (above_root _ _ _ _ Hok Hl E). lia. Qed.

(** Every block of the index has a path to the root. *)
Lemma path_to_root idx rid k b : idx_ok idx → linked idx rid → idx !! k = Some b → ∃ l, path idx k l rid.
Proof.
  intros Hok Hl. remember (Z.to_nat (num_from_id k)) as m eqn:Hm. revert k b Hm.
  induction m as [m IH] using lt_wf_ind. intros k b -> Hk. pose proof (num_step _ _ _ Hok Hk) as Hn.
  pose proof (num_from_id_nonneg (bs_previous b)). destruct (Hl _ _ Hk) as [He|[p Hp]].
  - exists [b]. econstructor; [done|]. rewrite He. constructor.
  - destruct (IH (Z.to_nat (num_from_id (bs_previous b)))) with (k := bs_previous b) (b := p) as [l Hp']; [lia|done|done|].
    exists (b :: l). by econstructor.
Qed.

(** ** Walks end *)

Definition below idx (n : Z) : gmap sha256 BS := filter (λ p, num_from_id p.1 <= n) idx.

Lemma below_step idx k b : idx_ok idx → idx !! k = Some b →
  (base.size (below idx (num_from_id (bs_previous b))) < base.size (below idx (num_from_id k)))%nat.
Proof.
  intros Hok Hk. pose proof (num_step _ _ _ Hok Hk) as Hn.
  assert (below idx (num_from_id k) !! k = Some b) as Hb by (apply map_lookup_filter_Some; simpl; split; [done|lia]).
  assert (below idx (num_from_id (bs_previous b)) ⊆ delete k (below idx (num_from_id k))) as Hsub.
  { apply map_subseteq_spec. intros j x [Hj Hle]%map_lookup_filter_Some. simpl in Hle.
    apply lookup_delete_Some. split; [intros ->; lia|]. apply map_lookup_filter_Some. simpl. split; [done|lia]. }
  apply map_subseteq_size in Hsub. rewrite map_size_delete_Some in Hsub by (by rewrite Hb). 
  assert (base.size (below idx (num_from_id k)) ≠ 0)%nat; [|lia].
  intros H0. apply map_size_empty_inv in H0. by rewrite H0, lookup_empty in Hb.
Qed.

Lemma below_size idx n : (base.size (below idx n) ≤ base.size idx)%nat.
Proof. apply map_subseteq_size, map_filter_subseteq. Qed.

Lemma branch_from_ok idx fuel h : idx_ok idx → (base.size (below idx (num_from_id h)) ≤ fuel)%nat →
  ∃ l c, branch_from idx fuel h = Ok l ∧ path idx h l c ∧ idx !! c = None.
Proof.
  intros Hok. revert h. induction fuel as [|fuel IH]; intros h Hf; cbn [branch_from].
  - destruct (idx !! h) as [b|] eqn:Eh; [pose proof (below_step _ _ _ Hok Eh); lia|].
    exists [], h. by repeat constructor.
  - destruct (idx !! h) as [b|] eqn:Eh; [|exists [], h; by repeat constructor].
    pose proof (below_step _ _ _ Hok Eh). destruct (IH (bs_previous b)) as (l & c & -> & Hp & Hc); [lia|].
    exists (b :: l), c. rewrite bind_ok. split; [done|]. split; [|done]. by econstructor.
Qed.

(** The branch of a block of the index goes down to the root. *)
Lemma branch_ok db r h : fd_inv db r → ∃ l, branch db h = Ok l ∧
  (fd_index db !! h = None ∧ l = [] ∨ path (fd_index db) h l (bs_id r)).
Proof.
  intros [_ _ Hok Hl _ _]. unfold branch, size.
  destruct (branch_from_ok (fd_index db) (base.size (fd_index db)) h Hok) as (l & c & -> & Hp & Hc); [apply below_size|].
  exists l. split; [done|]. destruct (fd_index db !! h) as [b|] eqn:Eh; [right|left].
  - destruct (path_to_root _ _ _ _ Hok Hl Eh) as [l' Hp'].
    pose proof (path_num _ _ _ _ Hok Hp) as Hn. pose proof (path_num _ _ _ _ Hok Hp') as Hn'.
    destruct (le_lt_dec (length l) (length l')) as [Hle|Hlt].
    + destruct (path_split _ _ _ _ _ _ Hp Hp' Hle) as (l0 & -> & H0).
      inversion H0 as [|? ? ? ? Hx]; subst; [done|by rewrite Hc in Hx].
    + destruct (path_split _ _ _ _ _ _ Hp' Hp ltac:(lia)) as (l0 & -> & H0).
      inversion H0 as [|? ? ? ? Hx]; subst; [done|]. by rewrite (root_not_in _ _ Hok Hl) in Hx.
  - split; [done|]. by inversion Hp as [|? ? ? ? Hx]; subst; [|rewrite Eh in Hx].
Qed.

(** ** Removing subtrees *)

Lemma children_spec idx id c : c ∈ children idx id ↔ ∃ b, idx !! c = Some b ∧ bs_previous b = id.
Proof.
  unfold children. rewrite list_elem_of_fmap. split.
  - intros ([k b] & -> & [Hp Hin]%list_elem_of_filter). exists b. split; [by apply elem_of_map_to_list|done].
  - intros (b & Hb & Hp). exists (c, b). split; [done|]. apply list_elem_of_filter. split; [done|by apply elem_of_map_to_list].
Qed.

Lemma children_nodup idx id : NoDup (children idx id).
Proof.
  unfold children. eapply sublist_NoDup; [apply (NoDup_fst_map_to_list idx)|].
  apply fmap_sublist, sublist_filter.
Qed.

(** The queue has exactly the ids whose path reaches an id of the initial queue. *)
Lemma remove_queue_spec idx fuel Q R x : remove_queue idx fuel Q = Ok R →
  x ∈ R ↔ ∃ q l, q ∈ Q ∧ path idx x l q.
Proof.
  revert Q R. induction fuel as [|fuel IH]; intros [|q Q] R; simpl; try done.
  1,2: intros [= <-]; split; [by intros ?%not_elem_of_nil|by intros (? & ? & ?%not_elem_of_nil & _)].
  intros H. apply bind_inv in H as (R' & HR & H). injection H as <-. rewrite elem_of_cons, (IH _ _ HR). split.
  - intros [->|(q' & l & [Hq|Hq]%elem_of_app & Hp)].
    + exists q, []. split; [left|constructor].
    + exists q', l. split; [by right|done].
    + apply children_spec in Hq as (b & Hb & Hprev). exists q, (l ++ [b]). split; [left|].
      eapply path_app; [done|]. econstructor; [done|]. rewrite Hprev. constructor.
  - intros (q' & l & [->|Hq]%elem_of_cons & Hp); [|right; exists q', l; split; [apply elem_of_app; by left|done]].
    destruct l as [|b l _] using rev_ind; [inversion Hp; by left|]. right.
    assert (∃ c, path idx x l c ∧ idx !! c = Some b ∧ bs_previous b = q) as (c & Hl & Hc & Hq).
    { clear -Hp. revert x Hp. induction l as [|b' l IH]; intros x Hp; simpl in Hp.
      - inversion Hp as [|? ? ? ? Hx Hn]; subst. inversion Hn; subst. exists x. by repeat constructor.
      - inversion Hp as [|? ? ? ? Hx Hn]; subst. destruct (IH _ Hn) as (c & Hl & Hc). exists c. split; [by econstructor|done]. }
    exists c, l. split; [|done]. apply elem_of_app. right. apply children_spec. eauto.
Qed.

(** Each block enters the queue once: the fuel is enough. [P] are the ids done. *)
Record queue_inv idx (id0 : sha256) (P Q : list sha256) : Prop := {
  qi_nodup : NoDup (P ++ Q);
  qi_above : ∀ x, x ∈ P ++ Q → num_from_id id0 <= num_from_id x;
  qi_prev : ∀ x, x ∈ P ++ Q → x = id0 ∨ ∃ b, idx !! x = Some b ∧ bs_previous b ∈ P }.

Lemma queue_inv_step idx id0 P q Q : idx_ok idx → queue_inv idx id0 P (q :: Q) → queue_inv idx id0 (P ++ [q]) (Q ++ children idx q).
Proof.
  intros Hok [Hnd Hab Hpr]. assert (q ∈ P ++ q :: Q) as Hq by (apply elem_of_app; right; left).
  assert (∀ c, c ∈ children idx q → c ∉ P ++ q :: Q ∧ num_from_id id0 < num_from_id c) as Hc.
  { intros c (b & Hb & Hp)%children_spec. pose proof (num_step _ _ _ Hok Hb) as Hn. rewrite Hp in Hn.
    pose proof (Hab q Hq). split; [|lia]. intros Hin. destruct (Hpr c Hin) as [->|(b' & Hb' & Hin')]; [lia|].
    assert (b' = b) as -> by congruence. rewrite Hp in Hin'. apply NoDup_app in Hnd as (_ & Hd & _).
    apply (Hd q Hin'). left. }
  assert (∀ x, x ∈ (P ++ [q]) ++ Q ++ children idx q ↔ x ∈ P ++ q :: Q ∨ x ∈ children idx q) as Heq by (intros; set_solver).
  split.
  - rewrite app_assoc, <- (app_assoc P [q] Q). simpl. apply NoDup_app. split; [done|]. split; [|apply children_nodup].
    intros x Hx Hcx. by apply (Hc x Hcx).
  - intros x [Hx|Hx]%Heq; [by apply Hab|]. pose proof (proj2 (Hc x Hx)). lia.
  - intros x [Hx|Hx]%Heq.
    + destruct (Hpr x Hx) as [->|(b & Hb & Hin)]; [by left|]. right. exists b. set_solver.
    + apply children_spec in Hx as (b & Hb & Hp). right. exists b. rewrite Hp. set_solver.
Qed.

Lemma queue_inv_length idx id0 P Q : queue_inv idx id0 P Q → (length (P ++ Q) ≤ S (base.size idx))%nat.
Proof.
  intros [Hnd _ Hpr]. rewrite <- (size_list_to_set (C := gset sha256)) by done.
  assert (list_to_set (P ++ Q) ⊆ {[id0]} ∪ (dom idx : gset sha256)) as Hsub.
  { intros x Hx%elem_of_list_to_set. destruct (Hpr x Hx) as [->|(b & Hb & _)]; [set_solver|].
    apply elem_of_union. right. by eapply elem_of_dom_2. }
  apply subseteq_size in Hsub. pose proof (size_union_alt {[id0]} (dom idx : gset sha256)) as Hu.
  pose proof (subseteq_size (dom idx ∖ {[id0]}) (dom idx : gset sha256) ltac:(set_solver)) as Hd.
  rewrite Hu, size_singleton, size_dom in *. lia.
Qed.

Lemma remove_queue_total idx id0 fuel P Q : idx_ok idx → queue_inv idx id0 P Q → (length P + fuel = S (base.size idx))%nat →
  ∃ R, remove_queue idx fuel Q = Ok R.
Proof.
  intros Hok. revert P Q. induction fuel as [|fuel IH]; intros P [|q Q] Hinv Hf; simpl; try by eexists.
  - apply queue_inv_length in Hinv. rewrite length_app in Hinv. simpl in Hinv. lia.
  - destruct (IH (P ++ [q]) (Q ++ children idx q)) as [R ->].
    + by apply queue_inv_step.
    + rewrite length_app. simpl. lia.
    + by eexists.
Qed.

Lemma erase_all_lookup idx ids k : erase_all idx ids !! k = if bool_decide (k ∈ ids) then None else idx !! k.
Proof.
  unfold erase_all. revert idx. induction ids as [|id ids IH]; intros idx; simpl; [done|]. rewrite IH.
  destruct (decide (k = id)) as [->|Hne].
  - rewrite lookup_delete_eq. rewrite (bool_decide_eq_true_2 (id ∈ id :: ids)) by left. by case_bool_decide.
  - rewrite lookup_delete_ne by done. rewrite (bool_decide_ext (k ∈ ids) (k ∈ id :: ids)); [done|]. rewrite elem_of_cons. naive_solver.
Qed.

(** Removing [id] removes exactly the blocks whose path reaches it. *)
Lemma remove_ok db id : idx_ok (fd_index db) → ∃ idx', remove db id = Ok (with_index db idx') ∧
  ∀ k b, idx' !! k = Some b ↔ fd_index db !! k = Some b ∧ ¬ ∃ l, path (fd_index db) k l id.
Proof.
  intros Hok. unfold remove, size.
  destruct (remove_queue_total (fd_index db) id (S (base.size (fd_index db))) [] [id] Hok) as [R HR]; [|done|].
  { split; simpl.
    - apply NoDup_singleton.
    - by intros x ->%list_elem_of_singleton.
    - intros x ->%list_elem_of_singleton. by left. }
  rewrite HR, bind_ok. eexists. split; [done|]. intros k b. rewrite erase_all_lookup.
  pose proof (remove_queue_spec _ _ _ _ k HR) as Hspec.
  assert (k ∈ R ↔ ∃ l, path (fd_index db) k l id) as Hiff.
  { rewrite Hspec. split; [intros (q & l & ->%list_elem_of_singleton & Hp); eauto|].
    intros [l Hp]. exists id, l. split; [left|done]. }
  case_bool_decide; naive_solver.
Qed.

(** Removing a subtree leaves a tree. *)
Lemma filter_idx_ok idx idx' : idx_ok idx → (∀ k b, idx' !! k = Some b → idx !! k = Some b) → idx_ok idx'.
Proof. intros Hok Hsub k b Hk. by apply Hok, Hsub. Qed.

Lemma settled_sub idx idx' lib : settled idx lib → idx' ⊆ idx → settled idx' lib.
Proof.
  intros H Hsub k b claim l c a id Hk Hcl Hst Hp Ha Hn Hid.
  eapply H; [by eapply lookup_weaken|done|done|by eapply path_sub|done..].
Qed.

Lemma best_grows_sub idx idx' : best_grows idx → idx' ⊆ idx → best_grows idx'.
Proof. intros H Hsub k b p Hk Hp. eapply H; by eapply lookup_weaken. Qed.

Lemma remove_linked idx idx' rid id : linked idx rid →
  (∀ k b, idx' !! k = Some b ↔ idx !! k = Some b ∧ ¬ ∃ l, path idx k l id) → linked idx' rid.
Proof.
  intros Hl Hiff k b [Hk Hn]%Hiff. destruct (Hl k b Hk) as [|[p Hp]]; [by left|right].
  exists p. apply Hiff. split; [done|]. intros [l Hpath]. apply Hn. exists (b :: l). by econstructor.
Qed.

(** ** Advancing the root *)

(** The ids below a block, down to the root. *)
Lemma remove_inv db r id : fd_inv db r → ∃ db', remove db id = Ok db' ∧ fd_inv db' r ∧
  ∀ k b, fd_index db' !! k = Some b ↔ fd_index db !! k = Some b ∧ ¬ ∃ l, path (fd_index db) k l id.
Proof.
  intros [Hr Hrn Hok Hl Hset Hbest]. destruct (remove_ok db id Hok) as (idx' & -> & Hiff). eexists. split; [done|]. split; [|done].
  assert (idx' ⊆ fd_index db) as Hsub by (apply map_subseteq_spec; by intros k b [Hk _]%Hiff).
  split; cbn; [done|done|by eapply filter_idx_ok; [|intros k b [Hk _]%Hiff]|by eapply remove_linked|
    by eapply settled_sub|by eapply best_grows_sub].
Qed.

Lemma blocks_to_remove_ok db r fuel k b : fd_inv db r → fd_index db !! k = Some b →
  (base.size (below (fd_index db) (num_from_id k)) ≤ S fuel)%nat →
  ∃ ids, blocks_to_remove db r fuel b = Ok ids ∧ bs_id r ∈ ids ∧
    ∀ x, x ∈ ids → num_from_id x < num_from_id k ∧ ∃ l, path (fd_index db) k l x.
Proof.
  intros [_ _ Hok Hl _ _]. revert k b. induction fuel as [|fuel IH]; intros k b Hk Hf;
    pose proof (num_step _ _ _ Hok Hk) as Hn; pose proof (below_step _ _ _ Hok Hk) as Hs; cbn [blocks_to_remove].
  - assert (below (fd_index db) (num_from_id (bs_previous b)) = ∅) as Hem by (apply map_size_empty_inv; lia).
    destruct (fd_index db !! bs_previous b) as [p|] eqn:Ep.
    + assert (below (fd_index db) (num_from_id (bs_previous b)) !! bs_previous b = Some p) as H
        by (apply map_lookup_filter_Some; simpl; split; [done|lia]). by rewrite Hem, lookup_empty in H.
    + destruct (Hl _ _ Hk) as [He|[p Hp]]; [|by rewrite Ep in Hp]. rewrite check_bind by (by apply bool_decide_eq_true_2).
      eexists. split; [done|]. rewrite He. split; [left|]. intros x ->%list_elem_of_singleton. rewrite <- He. split; [lia|].
      exists [b]. econstructor; [done|constructor].
  - destruct (fd_index db !! bs_previous b) as [p|] eqn:Ep.
    + destruct (IH (bs_previous b) p Ep) as (ids & -> & Hin & Hall); [lia|]. rewrite bind_ok. eexists. split; [done|].
      split; [by right|]. intros x [->|Hx]%elem_of_cons.
      * split; [lia|]. exists [b]. econstructor; [done|constructor].
      * destruct (Hall x Hx) as (Hlt & l & Hp). split; [lia|]. exists (b :: l). by econstructor.
    + destruct (Hl _ _ Hk) as [He|[p Hp]]; [|by rewrite Ep in Hp]. rewrite check_bind by (by apply bool_decide_eq_true_2).
      eexists. split; [done|]. rewrite He. split; [left|]. intros x ->%list_elem_of_singleton. rewrite <- He. split; [lia|].
      exists [b]. econstructor; [done|constructor].
Qed.

(** While the blocks below [id] are removed: what is left is part of the index,
    keeps the descendants of [id], and each other block stays linked to the old root. *)
Record advance_inv idx (rid id : sha256) cur : Prop := {
  ai_sub : cur ⊆ idx;
  ai_id : cur !! id = None;
  ai_desc : ∀ k b, idx !! k = Some b → k ≠ id → (∃ l, path idx k l id) → cur !! k = Some b;
  ai_link : ∀ k b, cur !! k = Some b → (∃ l, path idx k l id) ∨ bs_previous b = rid ∨ is_Some (cur !! bs_previous b) }.

Lemma advance_remove idx rid id cur cur' x : idx_ok idx → num_from_id x < num_from_id id → advance_inv idx rid id cur →
  (∀ k b, cur' !! k = Some b ↔ cur !! k = Some b ∧ ¬ ∃ l, path cur k l x) → advance_inv idx rid id cur'.
Proof.
  intros Hok Hx [Hsub Hid Hdesc Hlink] Hiff. split.
  - apply map_subseteq_spec. intros k b [Hk _]%Hiff. by eapply lookup_weaken.
  - destruct (cur' !! id) as [b|] eqn:E; [|done]. apply Hiff in E as [E _]. congruence.
  - intros k b Hk Hne [l Hp]. apply Hiff. split; [by eapply Hdesc; eauto|]. intros [l' Hp'].
    pose proof (path_sub _ _ _ _ _ Hp' Hsub) as Hp2. pose proof (path_num _ _ _ _ Hok Hp) as Hn.
    pose proof (path_num _ _ _ _ Hok Hp2) as Hn2.
    destruct (path_split _ _ _ _ _ _ Hp Hp2 ltac:(lia)) as (l0 & -> & H0).
    destruct l0 as [|b0 l0]; [inversion H0; subst; lia|].
    clear -Hid Hp' Hp. revert k Hp Hp'. induction l as [|b1 l IH]; intros k Hp Hp'; simpl in Hp'.
    + inversion Hp; subst. inversion Hp' as [|? ? ? ? Hx0]; subst. congruence.
    + inversion Hp as [|? ? ? ? Ha Hpa]; subst. inversion Hp' as [|? ? ? ? Hb Hpb]; subst. by eapply IH.
  - intros k b [Hk Hn]%Hiff. destruct (Hlink k b Hk) as [|[|[p Hp]]]; [by left|by right; left|right; right].
    exists p. apply Hiff. split; [done|]. intros [l Hl]. apply Hn. exists (b :: l). by econstructor.
Qed.

Lemma remove_all_ok idx rid id db ids : idx_ok idx → advance_inv idx rid id (fd_index db) →
  (∀ x, x ∈ ids → num_from_id x < num_from_id id) →
  ∃ cur, remove_all db ids = Ok (with_index db cur) ∧ advance_inv idx rid id cur ∧ cur ⊆ fd_index db ∧
    ∀ x k l, x ∈ ids → path cur k l x → l = [].
Proof.
  intros Hok. revert db. induction ids as [|x ids IH]; intros db Hinv Hlt; cbn [remove_all].
  { exists (fd_index db). split; [by destruct db|]. split; [done|]. split; [done|]. by intros ? ? ? ?%not_elem_of_nil. }
  assert (idx_ok (fd_index db)) as Hok' by (eapply filter_idx_ok; [done|]; intros; eapply lookup_weaken; [done|apply Hinv]).
  destruct (remove_ok db x Hok') as (cur & -> & Hiff). rewrite bind_ok.
  assert (cur ⊆ fd_index db) as Hcur by (apply map_subseteq_spec; intros k b [Hk _]%Hiff; done).
  destruct (IH (with_index db cur)) as (cur' & -> & Hinv' & Hsub & Hno).
  - eapply advance_remove; [done| |done|done]. apply Hlt. left.
  - intros y Hy. apply Hlt. by right.
  - exists cur'. cbn [with_index fd_index] in Hsub. split; [done|]. split; [done|]. split; [by etrans|].
    intros y k l [->|Hy]%elem_of_cons Hp; [|by eapply Hno]. destruct l as [|b l]; [done|]. exfalso.
    apply (path_sub _ cur) in Hp; [|done]. inversion Hp as [|? ? ? ? Hb]; subst. apply Hiff in Hb as [_ Hn]. apply Hn.
    eexists. by eapply path_sub.
Qed.

Lemma advance_start idx rid id : idx_ok idx → linked idx rid → advance_inv idx rid id (delete id idx).
Proof.
  intros Hok Hl. split.
  - apply delete_subseteq.
  - apply lookup_delete_eq.
  - intros k b' Hk Hne _. by rewrite lookup_delete_ne by done.
  - intros k b' [Hne Hk]%lookup_delete_Some. destruct (Hl k b' Hk) as [|[p Hp]]; [by right; left|].
    destruct (decide (bs_previous b' = id)) as [<-|Hne'].
    + left. exists [b']. econstructor; [done|constructor].
    + right; right. exists p. by rewrite lookup_delete_ne by done.
Qed.

(** When nothing is left on the old root, only the descendants of [id] are left. *)
Lemma advance_desc idx rid id cur k b : idx_ok idx → linked idx rid → advance_inv idx rid id cur →
  (∀ k l, path cur k l rid → l = []) → cur !! k = Some b → ∃ l, path idx k l id.
Proof.
  intros Hok Hl [Hsub Hid Hdesc Hlink] Hno.
  assert (idx_ok cur) as Hokc by (eapply filter_idx_ok; [done|]; intros; by eapply lookup_weaken).
  assert (∀ m k, m = Z.to_nat (num_from_id k) → ∀ b, cur !! k = Some b → (∃ l, path idx k l id) ∨ ∃ l, path cur k l rid) as H.
  { intros m'. induction m' as [m' IH] using lt_wf_ind. intros k' -> b' Hk. pose proof (num_step _ _ _ Hokc Hk) as Hn.
    pose proof (num_from_id_nonneg (bs_previous b')).
    destruct (Hlink k' b' Hk) as [|[He|[p Hp]]]; [by left|right; exists [b']; econstructor; [done|rewrite He; constructor]|].
    edestruct (IH (Z.to_nat (num_from_id (bs_previous b')))) as [[l Hp']|[l Hp']]; [lia|done|done|left|right]; exists (b' :: l).
    - econstructor; [by eapply lookup_weaken|done].
    - by econstructor. }
  intros Hk. destruct (H _ k eq_refl b Hk) as [|[l Hp]]; [done|]. rewrite (Hno _ _ Hp) in Hp. inversion Hp; subst.
  apply (lookup_weaken _ idx) in Hk; [|done]. by rewrite (root_not_in _ _ Hok Hl) in Hk.
Qed.

Lemma advance_end idx rid id cur : idx_ok idx → linked idx rid → advance_inv idx rid id cur →
  (∀ k l, path cur k l rid → l = []) →
  (∀ k b, cur !! k = Some b ↔ idx !! k = Some b ∧ k ≠ id ∧ ∃ l, path idx k l id) ∧ linked cur id.
Proof.
  intros Hok Hl Hinv Hno. pose proof Hinv as [Hsub Hid Hdesc _].
  assert (∀ k b, cur !! k = Some b ↔ idx !! k = Some b ∧ k ≠ id ∧ ∃ l, path idx k l id) as Hiff.
  { intros k b. split; [|intros (Hk & Hne & Hp); by apply Hdesc]. intros Hk. split; [by eapply lookup_weaken|].
    split; [by intros ->; rewrite Hid in Hk|by eapply advance_desc]. }
  split; [done|]. intros k b Hk. apply Hiff in Hk as (Hk & Hne & l & Hp).
  inversion Hp as [|? b' l' ? Hk' Hp']; subst; [done|]. assert (b' = b) as -> by congruence.
  destruct (decide (bs_previous b = id)) as [|Hne']; [by left|right].
  inversion Hp' as [|? p ? ? Hpp]; subst; [done|]. exists p. apply Hiff. split; [done|]. split; [done|]. by exists (p :: l).
Qed.

Lemma advance_root_ok db r id nr : fd_inv db r → fd_index db !! id = Some nr → bs_is_valid nr = true →
  ∃ db', advance_root db id = Ok db' ∧ fd_inv db' nr ∧ fd_pending_savanna_lib_id db' = fd_pending_savanna_lib_id db ∧
    ∀ k b, fd_index db' !! k = Some b ↔ fd_index db !! k = Some b ∧ k ≠ id ∧ ∃ l, path (fd_index db) k l id.
Proof.
  intros Hinv Hid Hvalid. pose proof Hinv as [Hroot Hrn Hok Hl Hset Hbest]. unfold advance_root. rewrite Hroot, Hid.
  rewrite check_bind by done. destruct (blocks_to_remove_ok db r (size db) id nr Hinv Hid) as (ids & -> & Hin & Hids).
  { pose proof (below_size (fd_index db) (num_from_id id)). unfold size. lia. }
  rewrite bind_ok. destruct (remove_all_ok (fd_index db) (bs_id r) id (with_index db (delete id (fd_index db))) ids Hok)
    as (cur & -> & Hai & _ & Hno); [by apply advance_start|by intros x Hx; apply Hids|].
  destruct (advance_end _ _ _ _ Hok Hl Hai) as [Hiff Hlink]; [intros k l; by apply Hno|].
  rewrite bind_ok. eexists. split; [done|]. destruct (Hok _ _ Hid) as (Hnid & Hn1 & _). split; [|done]. split; cbn.
  - done.
  - done.
  - eapply filter_idx_ok; [done|]. by intros k b (Hk & _)%Hiff.
  - by rewrite Hnid.
  - eapply settled_sub; [done|apply map_subseteq_spec; by intros k b (Hk & _)%Hiff].
  - eapply best_grows_sub; [done|apply map_subseteq_spec; by intros k b (Hk & _)%Hiff].
Qed.

(** ** Searching *)

Lemma path_le idx a l c b : idx_ok idx → path idx a l c → b ∈ l → num_from_id (bs_id b) <= num_from_id a.
Proof.
  intros Hok. induction 1 as [|a b' l c Ha Hp IH]; [by intros ?%not_elem_of_nil|]. pose proof (num_step _ _ _ Hok Ha) as Hn.
  intros [->|Hin]%elem_of_cons; [destruct (Hok _ _ Ha) as [-> _]; lia|]. specialize (IH Hin). lia.
Qed.

(** A branch has one block of each number. *)
Lemma path_unique idx l1 l2 c1 c2 h x y : idx_ok idx → path idx h l1 c1 → path idx h l2 c2 → x ∈ l1 → y ∈ l2 →
  num_from_id (bs_id x) = num_from_id (bs_id y) → x = y.
Proof.
  intros Hok H1. revert l2. induction H1 as [|h b l c Hb Hp IH]; intros l2 H2 Hx Hy Heq; [by apply not_elem_of_nil in Hx|].
  inversion H2 as [|? b' l' ? Hb' Hp']; subst; [by apply not_elem_of_nil in Hy|].
  assert (b' = b) as -> by congruence. destruct (Hok _ _ Hb) as [Hid _]. pose proof (num_step _ _ _ Hok Hb) as Hn.
  apply elem_of_cons in Hx as [->|Hx], Hy as [->|Hy]; [done|..|by eapply IH].
  - pose proof (path_le _ _ _ _ _ Hok Hp' Hy). rewrite <- Heq, Hid in *. lia.
  - pose proof (path_le _ _ _ _ _ Hok Hp Hx). rewrite Heq, Hid in *. lia.
Qed.

Lemma search_on_branch_ok db r h num : fd_inv db r → ∃ o, search_on_branch db h num false = Ok o ∧
  match o with
  | Some b => ∃ l c, path (fd_index db) h l c ∧ b ∈ l ∧ bs_block_num b = num
  | None => ∀ l c b, path (fd_index db) h l c → b ∈ l → bs_block_num b ≠ num
  end.
Proof.
  intros Hinv. pose proof Hinv as [Hr Hrn Hok Hl _ _]. unfold search_on_branch. rewrite Hr. cbn [andb].
  assert (∀ l c b, path (fd_index db) h l c → b ∈ l → bs_block_num r < bs_block_num b) as Habove.
  { intros l c b Hp Hb. destruct (path_blocks _ _ _ _ _ Hok Hp Hb) as [Hlk _]. destruct (Hok _ _ Hlk) as (_ & Hn & _).
    rewrite <- Hn, <- Hrn. by eapply above_root. }
  destruct (Z.leb_spec num (bs_block_num r)).
  { exists None. split; [done|]. intros l c b Hp Hb. specialize (Habove l c b Hp Hb). lia. }
  destruct (branch_ok db r h Hinv) as (l & -> & Hcase). rewrite bind_ok. eexists. split; [done|].
  destruct (list_find _ l) as [[i b]|] eqn:E; simpl.
  - apply list_find_Some in E as (Hi & Hnum & _). apply list_elem_of_lookup_2 in Hi.
    destruct Hcase as [[_ ->]|Hp]; [by apply not_elem_of_nil in Hi|]. eauto.
  - apply list_find_None in E. rewrite Forall_forall in E. intros l' c b Hp Hb.
    destruct Hcase as [[Hn ->]|Hp0]; [inversion Hp; subst; [by apply not_elem_of_nil in Hb|congruence]|].
    pose proof (path_num _ _ _ _ Hok Hp) as H1. pose proof (path_num _ _ _ _ Hok Hp0) as H2.
    destruct (le_lt_dec (length l') (length l)) as [Hle|Hlt].
    + destruct (path_split _ _ _ _ _ _ Hp Hp0 Hle) as (l0 & -> & _). apply E, elem_of_app. by left.
    + destruct (path_split _ _ _ _ _ _ Hp0 Hp ltac:(lia)) as (l0 & -> & H0).
      inversion H0 as [|? ? ? ? Hx]; subst; [rewrite app_nil_r in Hb; by apply E|].
      by rewrite (root_not_in _ _ Hok Hl) in Hx.
Qed.

Lemma descendant_loop_ok idx a l c anc : idx_ok idx → path idx a l c → num_from_id anc < num_from_id a →
  num_from_id a <= u32_max → num_from_id c <= num_from_id anc →
  descendant_loop anc l = true ↔ ∃ l', path idx a l' anc.
Proof.
  intros Hok Hp. induction Hp as [a|a b l c Ha Hp IH]; intros Hlt Hu Hc; [lia|]. cbn [descendant_loop].
  pose proof (num_step _ _ _ Hok Ha) as Hn. destruct (Hok _ _ Ha) as (Hid & Hbn & _). pose proof (num_from_id_nonneg anc).
  case_bool_decide as Hprev.
  - split; [|done]. intros _. exists [b]. econstructor; [done|]. rewrite Hprev. constructor.
  - rewrite u32_small by (unfold is_u32, u32_max in *; lia). rewrite Hid in Hbn.
    assert ((∃ l', path idx a l' anc) ↔ ∃ l', path idx (bs_previous b) l' anc) as Hiff.
    { split; intros [l' Hl'].
      - inversion Hl' as [|? b' ? ? Hx]; subst; [lia|]. assert (b' = b) as -> by congruence. eauto.
      - exists (b :: l'). by econstructor. }
    destruct (Z.leb_spec (bs_block_num b) (num_from_id anc + 1)).
    + split; [done|]. intros [l' Hl']%Hiff. pose proof (path_num _ _ _ _ Hok Hl').
      destruct l'; [by inversion Hl'|simpl in *; lia].
    + rewrite Hiff. apply IH; lia.
Qed.

Lemma is_descendant_of_ok db r anc d : fd_inv db r → num_from_id (bs_id r) <= num_from_id anc → d ≠ bs_id r →
  ∃ e, is_descendant_of db anc d = Ok e ∧ (e = true ↔ anc ≠ d ∧ ∃ l, path (fd_index db) d l anc).
Proof.
  intros Hinv Hanc Hd. pose proof Hinv as [Hr Hrn Hok Hl _ _]. unfold is_descendant_of.
  destruct (Z.leb_spec (num_from_id d) (num_from_id anc)) as [Hle|Hlt].
  { exists false. split; [done|]. split; [done|]. intros (Hne & l & Hp). pose proof (path_num _ _ _ _ Hok Hp).
    destruct l; [inversion Hp; congruence|simpl in *; lia]. }
  destruct (branch_ok db r d Hinv) as (l & -> & Hcase). rewrite bind_ok. eexists. split; [done|].
  pose proof (num_from_id_range d) as Hu. unfold is_u32 in Hu. destruct Hcase as [[Hn ->]|Hp].
  - split; [done|]. intros (Hne & l & Hp). inversion Hp; congruence.
  - rewrite (descendant_loop_ok _ _ _ _ _ Hok Hp) by (unfold u32_max; lia). split; [|by intros (_ & H)]. intros H.
    split; [intros ->; lia|done].
Qed.

(** ** Two branches down to a common ancestor *)

Definition known db r (id : sha256) b : Prop := id = bs_id r ∧ b = r ∨ fd_index db !! id = Some b.

Lemma block_or_root_ok db r id b : fd_inv db r → known db r id b → block_or_root db id = Ok b.
Proof.
  intros [Hr _ Hok Hl _ _] Hk. unfold block_or_root, get_block, is_root. rewrite Hr. cbn [andb].
  destruct Hk as [[-> ->]|Hk]; [by rewrite bool_decide_eq_true_2|]. rewrite bool_decide_eq_false_2; [by rewrite Hk|].
  intros <-. by rewrite (root_not_in _ _ Hok Hl) in Hk.
Qed.

Lemma known_num db r id b : fd_inv db r → known db r id b → bs_id b = id ∧ bs_block_num b = num_from_id id ∧
  num_from_id (bs_id r) <= num_from_id id.
Proof.
  intros [Hr Hrn Hok Hl _ _] [[-> ->]|Hk]; [split; [done|]; lia|]. destruct (Hok _ _ Hk) as (Hid & Hn & _).
  pose proof (above_root _ _ _ _ Hok Hl Hk). rewrite Hid in Hn. split; [done|]. lia.
Qed.

Lemma known_prev db r k b : fd_inv db r → fd_index db !! k = Some b → ∃ p, known db r (bs_previous b) p.
Proof.
  intros [_ _ _ Hl _ _] Hk. destruct (Hl _ _ Hk) as [He|[p Hp]]; [exists r; by left|exists p; by right].
Qed.

Lemma down_to_ok db r fuel k b num : fd_inv db r → known db r k b → num_from_id (bs_id r) <= num →
  (base.size (below (fd_index db) (num_from_id k)) ≤ fuel)%nat →
  ∃ l c e, down_to db fuel b num = Ok (l, e) ∧ path (fd_index db) k l c ∧ known db r c e ∧
    num_from_id c = Z.min (num_from_id k) num.
Proof.
  intros Hinv. revert k b. induction fuel as [|fuel IH]; intros k b Hk Hnum Hf; cbn [down_to];
    destruct (known_num _ _ _ _ Hinv Hk) as (_ & Hbn & _); destruct (Z.ltb_spec num (bs_block_num b)).
  2,4: exists [], k, b; split; [done|]; split; [constructor|]; split; [done|]; lia.
  all: destruct Hk as [[-> ->]|Hk]; [lia|]; pose proof (below_step _ _ _ (fi_idx _ _ Hinv) Hk) as Hs;
    pose proof (num_step _ _ _ (fi_idx _ _ Hinv) Hk) as Hn.
  1: lia.
  destruct (known_prev _ _ _ _ Hinv Hk) as [p Hp]. rewrite (block_or_root_ok _ _ _ _ Hinv Hp), bind_ok.
  destruct (IH _ _ Hp Hnum ltac:(lia)) as (l & c & e & -> & Hpath & He & Hmin). rewrite bind_ok.
  exists (b :: l), c, e. split; [done|]. split; [by econstructor|]. split; [done|]. lia.
Qed.

Lemma down_both_ok db r fuel ka a kb b : fd_inv db r → fd_index db !! ka = Some a → fd_index db !! kb = Some b → ka ≠ kb →
  num_from_id ka = num_from_id kb → (base.size (below (fd_index db) (num_from_id ka)) ≤ S fuel)%nat →
  ∃ l1 l2 c, down_both db fuel a b = Ok (l1, l2) ∧ path (fd_index db) ka l1 c ∧ path (fd_index db) kb l2 c ∧
    ∀ x y, x ∈ l1 → y ∈ l2 → bs_id x ≠ bs_id y.
Proof.
  intros Hinv. pose proof Hinv as [_ _ Hok Hl _ _]. revert ka a kb b.
  induction fuel as [|fuel IH]; intros ka a kb b Ha Hb Hne Hnum Hf; cbn [down_both];
    pose proof (num_step _ _ _ Hok Ha) as Hna; pose proof (num_step _ _ _ Hok Hb) as Hnb;
    destruct (Hok _ _ Ha) as [Hia _]; destruct (Hok _ _ Hb) as [Hib _]; case_bool_decide as Hprev.
  1,3: exists [a], [b], (bs_previous a); split; [done|]; split; [econstructor; [done|constructor]|]; split;
    [econstructor; [done|rewrite Hprev; constructor]|]; intros x y ->%list_elem_of_singleton ->%list_elem_of_singleton; congruence.
  all: assert (is_Some (fd_index db !! bs_previous a) ∧ is_Some (fd_index db !! bs_previous b)) as [[pa Hpa] [pb Hpb]].
  1,3: destruct (Hl _ _ Ha) as [Hra|[pa Hpa]], (Hl _ _ Hb) as [Hrb|[pb Hpb]]; [congruence|..|by split; eexists];
    [pose proof (above_root _ _ _ _ Hok Hl Hpb)|pose proof (above_root _ _ _ _ Hok Hl Hpa)];
    [rewrite <- Hra in *|rewrite <- Hrb in *]; lia.
  all: pose proof (below_step _ _ _ Hok Ha) as Hs.
  - pose proof (below_step _ _ _ Hok Hpa). lia.
  - rewrite Hpa, Hpb. destruct (IH _ _ _ _ Hpa Hpb Hprev ltac:(lia) ltac:(lia)) as (l1 & l2 & c & -> & H1 & H2 & Hd).
    rewrite bind_ok. exists (a :: l1), (b :: l2), c. split; [done|]. split; [by econstructor|]. split; [by econstructor|].
    intros x y [->|Hx]%elem_of_cons [->|Hy]%elem_of_cons; [congruence|..|by apply Hd].
    + pose proof (path_le _ _ _ _ _ Hok H2 Hy) as Hle. intros Heq. rewrite <- Heq, Hia in Hle. lia.
    + pose proof (path_le _ _ _ _ _ Hok H1 Hx) as Hle. intros Heq. rewrite Heq, Hib in Hle. lia.
Qed.

Lemma fetch_branch_from_ok db r k1 b1 k2 b2 : fd_inv db r → known db r k1 b1 → known db r k2 b2 →
  ∃ l1 l2 c, fetch_branch_from db k1 k2 = Ok (l1, l2) ∧ path (fd_index db) k1 l1 c ∧ path (fd_index db) k2 l2 c ∧
    ∀ x y, x ∈ l1 → y ∈ l2 → bs_id x ≠ bs_id y.
Proof.
  intros Hinv H1 H2. pose proof Hinv as [Hr Hrn Hok Hl _ _]. unfold fetch_branch_from. rewrite Hr.
  rewrite (block_or_root_ok _ _ _ _ Hinv H1), bind_ok, (block_or_root_ok _ _ _ _ Hinv H2), bind_ok.
  destruct (known_num _ _ _ _ Hinv H1) as (_ & Hn1 & Hr1). destruct (known_num _ _ _ _ Hinv H2) as (_ & Hn2 & Hr2).
  destruct (down_to_ok db r (size db) k1 b1 (bs_block_num b2) Hinv H1) as (l1 & c1 & e1 & -> & Hp1 & He1 & Hm1);
    [lia|apply below_size|]. rewrite bind_ok. cbv beta iota.
  destruct (known_num _ _ _ _ Hinv He1) as (Hi1 & Hc1 & Hrc1).
  destruct (down_to_ok db r (size db) k2 b2 (bs_block_num e1) Hinv H2) as (l2 & c2 & e2 & -> & Hp2 & He2 & Hm2);
    [lia|apply below_size|]. rewrite bind_ok. cbv beta iota.
  destruct (known_num _ _ _ _ Hinv He2) as (Hi2 & Hc2 & Hrc2). rewrite Hi1, Hi2.
  pose proof (path_num _ _ _ _ Hok Hp1) as Hl1. pose proof (path_num _ _ _ _ Hok Hp2) as Hl2.
  assert (l1 = [] ∨ l2 = []) as Hnil by (destruct l1, l2; simpl in *; (by left) || (by right) || lia).
  case_bool_decide as Heq.
  - exists l1, l2, c1. split; [done|]. split; [done|]. split; [by rewrite Heq|].
    intros x y Hx Hy. destruct Hnil as [->| ->]; by apply not_elem_of_nil in Hx || apply not_elem_of_nil in Hy.
  - assert (num_from_id c1 = num_from_id c2) as Hcc by lia.
    assert (fd_index db !! c1 = Some e1 ∧ fd_index db !! c2 = Some e2) as [Hx1 Hx2].
    { destruct He1 as [[-> ->]|Hx1], He2 as [[-> ->]|Hx2]; [done|..|done];
        [pose proof (above_root _ _ _ _ Hok Hl Hx2)|pose proof (above_root _ _ _ _ Hok Hl Hx1)]; lia. }
    destruct (down_both_ok db r (size db) c1 e1 c2 e2 Hinv Hx1 Hx2 Heq Hcc) as (r1 & r2 & c & -> & Hq1 & Hq2 & Hd).
    { pose proof (below_size (fd_index db) (num_from_id c1)). unfold size. lia. }
    rewrite bind_ok. exists (l1 ++ r1), (l2 ++ r2), c. split; [done|]. split; [by eapply path_app|]. split; [by eapply path_app|].
    intros x y [Hx|Hx]%elem_of_app [Hy|Hy]%elem_of_app.
    + destruct Hnil as [->| ->]; by apply not_elem_of_nil in Hx || apply not_elem_of_nil in Hy.
    + pose proof (proj2 (path_blocks _ _ _ _ _ Hok Hp1 Hx)). pose proof (path_le _ _ _ _ _ Hok Hq2 Hy). intros E. rewrite E in *. lia.
    + pose proof (proj2 (path_blocks _ _ _ _ _ Hok Hp2 Hy)). pose proof (path_le _ _ _ _ _ Hok Hq1 Hx). intros E. rewrite E in *. lia.
    + by apply Hd.
Qed.

(** ** Adding a block *)

(** What raises the pending final block. *)
Definition claims_final db b (lib : sha256) : Prop :=
  ∃ claim l c a, bs_qc_claim b = Ok (Some claim) ∧ is_strong_qc claim = true ∧ path (fd_index db) (bs_previous b) l c ∧
    a ∈ l ∧ bs_block_num a = claim_block_num claim ∧ bs_claimed_final a = Ok lib.

Lemma claim_to_lib_ok db r b : fd_inv db r → node_ok b → ∃ lib, claim_to_lib db b = Ok (with_lib db lib) ∧
  (lib = fd_pending_savanna_lib_id db ∨
   claims_final db b lib ∧ num_from_id (fd_pending_savanna_lib_id db) < num_from_id lib) ∧
  ∀ id, claims_final db b id → num_from_id id <= num_from_id lib.
Proof.
  intros Hinv (Hid & Hprev & [c Hc] & _). pose proof (fi_idx _ _ Hinv) as Hok. unfold claim_to_lib. rewrite Hc, bind_ok.
  assert (db = with_lib db (fd_pending_savanna_lib_id db)) as Hsame by (by destruct db).
  destruct c as [claim|]; [|eexists; split; [by f_equal|]; split; [by left|]; intros id (cl & ? & ? & ? & Hcl & _); congruence].
  destruct (is_strong_qc claim) eqn:Hs; cbn [andb];
    [|eexists; split; [by f_equal|]; split; [by left|]; intros id (cl & ? & ? & ? & Hcl & Hst & _); congruence].
  destruct (Z.ltb_spec (num_from_id (fd_pending_savanna_lib_id db)) (claim_block_num claim)) as [Hlt|Hge].
  2:{ eexists. split; [by f_equal|]. split; [by left|]. intros id (cl & l & c & a & Hcl & _ & Hp & Ha & Hn & Hf).
      assert (cl = claim) as -> by congruence. destruct (path_blocks _ _ _ _ _ Hok Hp Ha) as [Hlk _].
      destruct (Hok _ _ Hlk) as (_ & _ & _ & _ & id' & Hf' & Hle). assert (id' = id) as -> by congruence. lia. }
  destruct (search_on_branch_ok db r (bs_previous b) (claim_block_num claim) Hinv) as ([a|] & -> & Ha); rewrite bind_ok.
  2:{ eexists. split; [by f_equal|]. split; [by left|]. intros id (cl & l & c & a & Hcl & _ & Hp & Hin & Hn & _).
      assert (cl = claim) as -> by congruence. by destruct (Ha l c a Hp Hin). }
  destruct Ha as (l & c & Hp & Hin & Hn). destruct (path_blocks _ _ _ _ _ Hok Hp Hin) as [Hlk _].
  destruct (Hok _ _ Hlk) as (_ & Hna & _ & _ & id & Hf & Hle). rewrite Hf, bind_ok.
  assert (∀ id', claims_final db b id' → id' = id) as Huniq.
  { intros id' (cl & l' & c' & a' & Hcl & _ & Hp' & Hin' & Hn' & Hf'). assert (cl = claim) as -> by congruence.
    assert (a' = a) as ->; [|congruence]. destruct (path_blocks _ _ _ _ _ Hok Hp' Hin') as [Hlk' _].
    eapply path_unique; [exact Hok|exact Hp'|exact Hp|done|done|]. destruct (Hok _ _ Hlk') as (_ & Hna' & _). lia. }
  unfold set_pending_savanna_lib_id. destruct (Z.ltb_spec (num_from_id (fd_pending_savanna_lib_id db)) (num_from_id id)); cbn [fst].
  - exists id. split; [done|]. split; [right; split; [by exists claim, l, c, a|done]|]. by intros id' ->%Huniq.
  - eexists. split; [by f_equal|]. split; [by left|]. by intros id' ->%Huniq.
Qed.

Lemma insert_inv db r lib b : fd_inv db r → node_ok b → (bs_previous b = bs_id r ∨ is_Some (fd_index db !! bs_previous b)) →
  fd_index db !! bs_id b = None → (∀ p, fd_index db !! bs_previous b = Some p → better b p) →
  num_from_id (fd_pending_savanna_lib_id db) <= num_from_id lib → (∀ id, claims_final db b id → num_from_id id <= num_from_id lib) →
  fd_inv (ForkDatabase (fd_root db) lib (<[bs_id b := b]> (fd_index db))) r.
Proof.
  intros [Hr Hrn Hok Hl Hset Hbest] Hb Hprev Hnew Hbetter Hlib Hcl.
  assert (idx_ok (<[bs_id b := b]> (fd_index db))) as Hok'.
  { intros k x [[<- <-]|[_ Hk]]%lookup_insert_Some; [done|by apply Hok]. }
  assert (∀ h l c, num_from_id h < num_from_id (bs_id b) → path (<[bs_id b := b]> (fd_index db)) h l c → path (fd_index db) h l c) as Hold.
  { intros h l c Hlt Hp. induction Hp as [|h x l c Hx Hp IH]; [constructor|].
    rewrite lookup_insert_ne in Hx by (intros E; rewrite E in Hlt; lia).
    pose proof (num_step _ _ _ Hok Hx). econstructor; [done|]. apply IH. lia. }
  assert (∀ k x, fd_index db !! k = Some x → bs_previous x ≠ bs_id b) as Hnochild.
  { intros k x Hk E. destruct (Hl _ _ Hk) as [He|[p Hp]]; [|congruence]. destruct Hb as (Hb1 & Hb2 & _).
    assert (num_from_id (bs_id r) <= num_from_id (bs_previous b)).
    { destruct Hprev as [->|[p Hp]]; [lia|]. pose proof (above_root _ _ _ _ Hok Hl Hp). lia. }
    rewrite <- He, E in *. lia. }
  split; cbn; try done.
  - intros k x [[<- <-]|[Hne Hk]]%lookup_insert_Some.
    + destruct Hprev as [|[p Hp]]; [by left|right]. exists p. rewrite lookup_insert_ne; [done|]. intros E. congruence.
    + destruct (Hl _ _ Hk) as [|[p Hp]]; [by left|right]. exists p. rewrite lookup_insert_ne; [done|]. intros E. congruence.
  - intros k x claim l c a id [[<- <-]|[Hne Hk]]%lookup_insert_Some Hc Hs Hp Ha Hn Hf.
    + destruct Hb as (Hb1 & Hb2 & _). apply Hold in Hp; [|lia]. apply Hcl. by exists claim, l, c, a.
    + assert (path (fd_index db) (bs_previous x) l c) as Hp'.
      { clear -Hp Hnochild Hnew Hk Hl. remember (bs_previous x) as h eqn:Hh.
        assert (h ≠ bs_id b) as Hneh by (subst; by eapply Hnochild). clear x Hh Hk. induction Hp as [|h x l c Hx Hp IH]; [constructor|].
        rewrite lookup_insert_ne in Hx by done. econstructor; [done|]. apply IH. by eapply Hnochild. }
      pose proof (Hset _ _ _ _ _ _ _ Hk Hc Hs Hp' Ha Hn Hf). lia.
  - intros k x p [[<- <-]|[Hne Hk]]%lookup_insert_Some Hp.
    + apply Hbetter. rewrite lookup_insert_ne in Hp; [done|]. destruct Hb as (Hb1 & Hb2 & _). intros E. rewrite <- E in *. lia.
    + rewrite lookup_insert_ne in Hp by (intros E; by eapply Hnochild). by eapply Hbest.
Qed.

Lemma raise_lib_inv db r lib : fd_inv db r → num_from_id (fd_pending_savanna_lib_id db) <= num_from_id lib → fd_inv (with_lib db lib) r.
Proof.
  intros [Hr Hrn Hok Hl Hset Hbest] Hlib. split; cbn; try done.
  intros k b claim l c a id Hk Hc Hs Hp Ha Hn Hf. pose proof (Hset _ _ _ _ _ _ _ Hk Hc Hs Hp Ha Hn Hf). lia.
Qed.

Lemma reset_root_inv b : num_from_id (bs_id (bs_set_valid b)) = bs_block_num (bs_set_valid b) → fd_inv (reset_root b) (bs_set_valid b).
Proof.
  intros Hn. split; cbn; [done|done|by intros k x ?%lookup_empty_Some..| |by intros k x p ?%lookup_empty_Some].
  by intros k x ? ? ? ? ? ?%lookup_empty_Some.
Qed.

Lemma get_block_known db r id : fd_inv db r →
  match get_block db id true with Some b => known db r id b | None => id ≠ bs_id r ∧ fd_index db !! id = None end.
Proof.
  intros [Hr _ _ _ _ _]. unfold get_block, is_root. rewrite Hr. cbn [andb]. case_bool_decide as E; [by left|].
  destruct (fd_index db !! id) eqn:El; [by right|]. by split; [intros ->|].
Qed.

(** Adding a block, with or without the validation of its features. *)
Lemma add_impl_ok validate db r b ign : fd_inv db r → node_ok b →
  (∀ p, fd_index db !! bs_previous b = Some p → better b p) →
  (∀ v fs p, validate = Some v → bs_new_features b = Some fs → known db r (bs_previous b) p →
     v (bs_timestamp b) (bs_features p) fs = Ok tt) →
  let '(db', res) := add_impl validate db b ign in
  fd_inv db' r ∧
  (fd_pending_savanna_lib_id db' = fd_pending_savanna_lib_id db ∨
   claims_final db b (fd_pending_savanna_lib_id db') ∧
   num_from_id (fd_pending_savanna_lib_id db) < num_from_id (fd_pending_savanna_lib_id db')) ∧
  match get_block db (bs_previous b) true with
  | None => db' = db ∧ res = Err unlinkable_block_exception
  | Some _ =>
    if block_exists db (bs_id b)
    then fd_index db' = fd_index db ∧ res = (if ign then Ok duplicate_block else Err fork_database_exception)
    else fd_index db' = <[bs_id b := b]> (fd_index db) ∧
      ∃ h, head_impl db' false = Some h ∧ (∀ k x, fd_index db' !! k = Some x → best_before h x) ∧
        res = Ok (if bool_decide (bs_id h = bs_id b)
                  then if bool_decide (bs_id <$> head_impl db true = Some (bs_previous b)) then appended_to_head else fork_switch
                  else added)
  end.
Proof.
  intros Hinv Hb Hbetter Hval. unfold add_impl. rewrite (fi_root _ _ Hinv).
  destruct (claim_to_lib_ok db r b Hinv Hb) as (lib & -> & Hlib & Hmax).
  assert (num_from_id (fd_pending_savanna_lib_id db) <= num_from_id lib) as Hle by (destruct Hlib as [->|[_ ?]]; lia).
  pose proof (raise_lib_inv db r lib Hinv Hle) as Hinv'. change (get_block (with_lib db lib)) with (get_block db).
  pose proof (get_block_known db r (bs_previous b) Hinv) as Hprev. destruct (get_block db (bs_previous b) true) as [p|].
  2:{ assert (lib = fd_pending_savanna_lib_id db) as ->; [|by destruct db; split; [|split; [left|]]].
      destruct Hlib as [|[(cl & l & c & a & _ & _ & Hp & Ha & _) _]]; [done|].
      inversion Hp; subst; [by apply not_elem_of_nil in Ha|]. destruct Hprev. congruence. }
  match goal with |- context [match ?m with Ok _ => _ | Err _ => _ end] => assert (m = Ok tt) as -> end.
  { destruct validate as [v|]; [|done]. destruct (bs_new_features b) as [fs|] eqn:Ef; [|done]. by eapply Hval. }
  change (block_exists (with_lib db lib)) with (block_exists db). unfold block_exists.
  destruct (fd_index db !! bs_id b) as [x|] eqn:Eb; [by split|].
  assert (bs_previous b = bs_id r ∨ is_Some (fd_index db !! bs_previous b)) as Hlink
    by (destruct Hprev as [[-> _]|Hp]; [by left|by right; eexists]).
  pose proof (insert_inv db r lib b Hinv Hb Hlink Eb Hbetter Hle Hmax) as Hnew.
  change (with_index (with_lib db lib) (<[bs_id b:=b]> (fd_index (with_lib db lib))))
    with (ForkDatabase (fd_root db) lib (<[bs_id b:=b]> (fd_index db))).
  split; [done|]. split; [done|]. split; [done|].
  destruct (head_impl (ForkDatabase (fd_root db) lib (<[bs_id b:=b]> (fd_index db))) false) as [h|] eqn:Eh.
  2:{ apply head_none in Eh. cbn in Eh. by apply insert_non_empty in Eh. }
  exists h. split; [done|]. split; [by apply head_best|]. f_equal. change (head_impl (with_lib db lib) true) with (head_impl db true).
  case_bool_decide; cbn [andb]; [|done]. destruct (head_impl db true) as [h'|]; cbn.
  - rewrite (bool_decide_ext (bs_previous b = bs_id h') (Some (bs_id h') = Some (bs_previous b))); [done|]. split; [by intros ->|by intros [= ->]].
  - by rewrite bool_decide_eq_false_2.
Qed.

(** ** Saving and loading *)

Lemma by_best_branch_nodup idx : idx_ok idx → NoDup (by_best_branch idx).
Proof.
  intros Hok. rewrite by_best_branch_perm. apply (NoDup_fmap_1 bs_id). rewrite <- list_fmap_compose.
  rewrite (list_fmap_ext _ fst (map_to_list idx)); [apply NoDup_fst_map_to_list|].
  intros i [k b] Hi%list_elem_of_lookup_2%elem_of_map_to_list. by destruct (Hok _ _ Hi) as [<- _].
Qed.

(** In the order of the file a block comes after the one before it. *)
Lemma parent_first idx L1 b L2 p : idx_ok idx → best_grows idx → reverse (by_best_branch idx) = L1 ++ b :: L2 →
  idx !! bs_id b = Some b → idx !! bs_previous b = Some p → p ∈ L1.
Proof.
  intros Hok Hbest HL Hb Hp. pose proof (Hbest _ _ _ Hb Hp) as Hbetter.
  assert (p ∈ L1 ++ b :: L2) as Hin by (rewrite <- HL; apply elem_of_reverse, by_best_branch_elem; eauto).
  apply elem_of_app in Hin as [|[->|Hin]%elem_of_cons]; [done|unfold better in Hbetter; lia|exfalso].
  assert (by_best_branch idx = reverse L2 ++ b :: reverse L1) as HL'.
  { rewrite <- (reverse_involutive (by_best_branch idx)), HL, reverse_app, reverse_cons, <- app_assoc. done. }
  pose proof (by_best_branch_sorted idx) as Hs. rewrite HL' in Hs.
  assert (best_before p b) as Hle.
  { eapply (StronglySorted_app_1_elem_of _ (reverse L2) (b :: reverse L1)); [done|by apply elem_of_reverse|left]. }
  unfold best_before, best_key in Hle. cbn [lex_leb] in Hle. unfold better in Hbetter.
  rewrite !orb_true_iff, !andb_true_iff, !orb_true_iff, !andb_true_iff, !Z.ltb_lt, !Z.eqb_eq in Hle.
  destruct Hle as [?|[? [?|[? _]]]]; lia.
Qed.

Section OpenClose.
Context {laws : BlockStateLaws BS bsl} (validator : Z → gset sha256 → list sha256 → result unit) (db : fork_database (BS := BS)) (r : BS).
Context (Hinv : fd_inv db r).
Context (Hval : ∀ k b fs p, fd_index db !! k = Some b → bs_new_features b = Some fs → known db r (bs_previous b) p →
  validator (bs_timestamp b) (bs_features p) fs = Ok tt).

Definition loaded (L : list BS) (db1 : fork_database (BS := BS)) : Prop :=
  fd_inv db1 (bs_set_valid r) ∧ fd_pending_savanna_lib_id db1 = fd_pending_savanna_lib_id db ∧
  ∀ k b, fd_index db1 !! k = Some b ↔ fd_index db !! k = Some b ∧ b ∈ L.

Lemma add_loaded L1 b L2 db1 : reverse (by_best_branch (fd_index db)) = L1 ++ b :: L2 → loaded L1 db1 →
  ∃ db2 res, add_impl (Some validator) db1 b false = (db2, Ok res) ∧ loaded (L1 ++ [b]) db2.
Proof using Hinv Hval laws.
  intros HL (Hinv1 & Hlib1 & Hidx1). pose proof Hinv as [Hr Hrn Hok Hl Hset Hbest].
  assert (fd_index db1 ⊆ fd_index db) as Hsub by (apply map_subseteq_spec; intros k x Hk; by apply Hidx1).
  assert (fd_index db !! bs_id b = Some b) as Hb.
  { assert (b ∈ by_best_branch (fd_index db)) as Hin by (apply elem_of_reverse; rewrite HL; apply elem_of_app; right; left).
    apply by_best_branch_elem in Hin as [k Hk]. by destruct (Hok _ _ Hk) as [-> _]. }
  destruct (Hok _ _ Hb) as [_ Hnode]. assert (b ∉ L1) as Hnew.
  { pose proof (by_best_branch_nodup _ Hok) as Hnd. rewrite <- reverse_Permutation in Hnd. rewrite HL in Hnd.
    apply NoDup_app in Hnd as (_ & Hd & _). intros Hin. apply (Hd b Hin). left. }
  assert (∀ p, known db1 (bs_set_valid r) (bs_previous b) p → ∃ p', known db r (bs_previous b) p' ∧ bs_features p = bs_features p') as Hk.
  { intros p [[He ->]|Hp]; [exists r; split; [left; by rewrite He, set_valid_id|apply set_valid_features]|].
    exists p. split; [right; by eapply lookup_weaken|done]. }
  pose proof (add_impl_ok (Some validator) db1 (bs_set_valid r) b false Hinv1 Hnode) as Hadd.
  destruct (add_impl (Some validator) db1 b false) as [db2 res]. destruct Hadd as (Hinv2 & Hlib2 & Hres).
  { intros p Hp. eapply Hbest; [done|by eapply lookup_weaken]. }
  { intros v fs p [= <-] Hfs Hp. destruct (Hk p Hp) as (p' & Hp' & ->). by eapply Hval. }
  destruct (get_block db1 (bs_previous b) true) as [p|] eqn:Eg.
  2:{ pose proof (get_block_known db1 _ (bs_previous b) Hinv1) as Hg. rewrite Eg, set_valid_id in Hg. destruct Hg as [Hne Hnone].
      destruct (Hl _ _ Hb) as [|[p Hp]]; [done|]. assert (fd_index db1 !! bs_previous b = Some p); [|congruence].
      apply Hidx1. split; [done|]. by eapply parent_first. }
  unfold block_exists in Hres. destruct (fd_index db1 !! bs_id b) as [x|] eqn:Ex.
  { exfalso. apply Hidx1 in Ex as [Ex Hin]. apply Hnew. congruence. }
  destruct Hres as (Hidx2 & h & _ & _ & ->). eexists db2, _. split; [done|]. split; [done|]. split.
  - destruct Hlib2 as [->|[(cl & l & c & a & Hcl & Hs & Hp & Ha & Hn & Hf) Hlt]]; [done|].
    pose proof (Hset _ _ _ _ _ _ _ Hb Hcl Hs (path_sub _ _ _ _ _ Hp Hsub) Ha Hn Hf). rewrite Hlib1 in Hlt. lia.
  - intros k x. rewrite Hidx2, lookup_insert_Some, Hidx1. setoid_rewrite elem_of_app. rewrite list_elem_of_singleton. split.
    + intros [[<- <-]|[Hne [Hx Hin]]]; [by split; [|right]|by split; [|left]].
    + intros [Hx [Hin| ->]]; [right|left; by destruct (Hok _ _ Hx)]. split; [|done]. intros <-. apply Hnew. congruence.
Qed.

Lemma add_all_loaded L2 : ∀ L1 db1, reverse (by_best_branch (fd_index db)) = L1 ++ L2 → loaded L1 db1 →
  ∃ db2, add_all validator db1 L2 = Ok db2 ∧ loaded (L1 ++ L2) db2.
Proof using Hinv Hval laws.
  induction L2 as [|b L2 IH]; intros L1 db1 HL Hld; cbn [add_all]; [exists db1; by rewrite app_nil_r|].
  destruct (add_loaded L1 b L2 db1 HL Hld) as (db2 & res & -> & Hld2).
  rewrite cons_middle, app_assoc in HL |- *. by apply IH.
Qed.

Lemma open_loaded f : close db = Ok f → (num_from_id (fd_pending_savanna_lib_id db) = 0 → fd_pending_savanna_lib_id db = sha256_zero) →
  ∃ db', open validator f = Ok db' ∧ loaded (reverse (by_best_branch (fd_index db))) db'.
Proof using Hinv Hval laws.
  unfold close. rewrite (fi_root _ _ Hinv). intros [= <-] Hlib. unfold open. cbn [file_lib file_root file_blocks].
  apply (add_all_loaded _ []); [done|]. unfold reset_root, set_pending_savanna_lib_id. cbn [fd_pending_savanna_lib_id].
  assert (num_from_id sha256_zero = 0) as Hz by (by apply num_from_id_zero).
  assert (∀ lib, fd_inv (ForkDatabase (Some (bs_set_valid r)) lib ∅) (bs_set_valid r)) as Hempty.
  { intros lib. split; cbn; [done| |..]; [rewrite set_valid_id, set_valid_num; apply Hinv| | | |].
    - by intros ? ? ?%lookup_empty_Some.
    - by intros ? ? ?%lookup_empty_Some.
    - by intros ? ? ? ? ? ? ? ?%lookup_empty_Some.
    - by intros ? ? ? ?%lookup_empty_Some. }
  assert (fst (if num_from_id sha256_zero <? num_from_id (fd_pending_savanna_lib_id db)
    then (with_lib (ForkDatabase (Some (bs_set_valid r)) sha256_zero ∅) (fd_pending_savanna_lib_id db), true)
    else (ForkDatabase (Some (bs_set_valid r)) sha256_zero ∅, false))
    = ForkDatabase (Some (bs_set_valid r)) (fd_pending_savanna_lib_id db) ∅) as ->.
  { rewrite Hz. destruct (Z.ltb_spec 0 (num_from_id (fd_pending_savanna_lib_id db))); [done|].
    pose proof (num_from_id_nonneg (fd_pending_savanna_lib_id db)). cbn [fst]. by rewrite Hlib by lia. }
  split; [apply Hempty|]. split; [done|]. intros k b. cbn. rewrite lookup_empty. split; [done|]. by intros [_ ?%not_elem_of_nil].
Qed.

End OpenClose.

(** ** Theorems *)

(** Adding a block keeps the index a tree on the root in which every block is
    better than the one before it, and never lowers the pending final block,
    which moves only to a block that a strong claim of the new block makes
    final; the block is refused exactly when the one before it is unknown, a known
    one changes nothing, and the outcome tells whether the new block is the best
    head and whether it extends the former one. *)
Theorem fork_db_add_correct db r b ign :
  fd_inv db r → node_ok b → (∀ p, fd_index db !! bs_previous b = Some p → better b p) →
  let '(db', res) := add db b ign in
  fd_inv db' r ∧
  (fd_pending_savanna_lib_id db' = fd_pending_savanna_lib_id db ∨
   claims_final db b (fd_pending_savanna_lib_id db') ∧
   num_from_id (fd_pending_savanna_lib_id db) < num_from_id (fd_pending_savanna_lib_id db')) ∧
  match get_block db (bs_previous b) true with
  | None => db' = db ∧ res = Err unlinkable_block_exception
  | Some _ =>
    if block_exists db (bs_id b)
    then fd_index db' = fd_index db ∧ res = (if ign then Ok duplicate_block else Err fork_database_exception)
    else fd_index db' = <[bs_id b := b]> (fd_index db) ∧
      ∃ h, head_impl db' false = Some h ∧ (∀ k x, fd_index db' !! k = Some x → best_before h x) ∧
        res = Ok (if bool_decide (bs_id h = bs_id b)
                  then if bool_decide (bs_id <$> head_impl db true = Some (bs_previous b)) then appended_to_head else fork_switch
                  else added)
  end.
Proof. intros Hinv Hb Hbetter. by apply (add_impl_ok None db r b ign Hinv Hb Hbetter). Qed.

(** Removal and advancing the root always return and keep the tree: removing a
    block removes exactly the blocks whose branch contains it, removing from a
    number exactly the blocks at or above it, and advancing the root to a
    validated block of the index keeps exactly its descendants; it is refused
    for any other id. *)
Theorem fork_db_pruning_correct db r id num :
  fd_inv db r →
  (∃ db', remove db id = Ok db' ∧ fd_inv db' r ∧
     ∀ k b, fd_index db' !! k = Some b ↔ fd_index db !! k = Some b ∧ ¬ ∃ l, path (fd_index db) k l id) ∧
  (fd_inv (remove_from_num db num) r ∧
     ∀ k b, fd_index (remove_from_num db num) !! k = Some b ↔ fd_index db !! k = Some b ∧ bs_block_num b < num) ∧
  match fd_index db !! id with
  | Some nr =>
    if bs_is_valid nr
    then ∃ db', advance_root db id = Ok db' ∧ fd_inv db' nr ∧
      fd_pending_savanna_lib_id db' = fd_pending_savanna_lib_id db ∧
      ∀ k b, fd_index db' !! k = Some b ↔ fd_index db !! k = Some b ∧ k ≠ id ∧ ∃ l, path (fd_index db) k l id
    else advance_root db id = Err fork_database_exception
  | None => advance_root db id = Err fork_database_exception
  end.
Proof.
  intros Hinv. pose proof Hinv as [Hr Hrn Hok Hl Hset Hbest]. split; [|split].
  - by apply remove_inv.
  - unfold remove_from_num. assert (∀ k b, filter (λ p, bs_block_num p.2 < num) (fd_index db) !! k = Some b ↔
      fd_index db !! k = Some b ∧ bs_block_num b < num) as Hiff by (intros; by rewrite map_lookup_filter_Some).
    split; [|exact Hiff]. assert (filter (λ p, bs_block_num p.2 < num) (fd_index db) ⊆ fd_index db) as Hsub by apply map_filter_subseteq.
    split; cbn; [done|done|by eapply filter_idx_ok; [|intros k b [Hk _]%Hiff]| |by eapply settled_sub|by eapply best_grows_sub].
    intros k b [Hk Hlt]%Hiff. destruct (Hl _ _ Hk) as [|[p Hp]]; [by left|right]. exists p. apply Hiff. split; [done|].
    destruct (Hok _ _ Hk) as (_ & _ & Hn & _). destruct (Hok _ _ Hp) as (Hid & Hnp & _). rewrite Hid in Hnp. lia.
  - destruct (fd_index db !! id) as [nr|] eqn:E; [destruct (bs_is_valid nr) eqn:Ev|].
    + by eapply advance_root_ok.
    + unfold advance_root. by rewrite Hr, E, Ev.
    + unfold advance_root. by rewrite Hr, E.
Qed.

(** The queries terminate and answer what they are documented to: the
    search finds the block with a number on a branch if there is one,
    the test for a descendant is that of a path of blocks, and the branches of two
    blocks lead down to one common ancestor with no block in common. *)
Theorem fork_db_queries_correct db r h d :
  fd_inv db r →
  (∀ num, ∃ o, search_on_branch db h num false = Ok o ∧
     match o with
     | Some b => ∃ l c, path (fd_index db) h l c ∧ b ∈ l ∧ bs_block_num b = num
     | None => ∀ l c b, path (fd_index db) h l c → b ∈ l → bs_block_num b ≠ num
     end) ∧
  (num_from_id (bs_id r) <= num_from_id h → d ≠ bs_id r →
     ∃ e, is_descendant_of db h d = Ok e ∧ (e = true ↔ h ≠ d ∧ ∃ l, path (fd_index db) d l h)) ∧
  match get_block db h true, get_block db d true with
  | Some _, Some _ => ∃ l1 l2 c, fetch_branch_from db h d = Ok (l1, l2) ∧
      path (fd_index db) h l1 c ∧ path (fd_index db) d l2 c ∧ ∀ x y, x ∈ l1 → y ∈ l2 → bs_id x ≠ bs_id y
  | _, _ => fetch_branch_from db h d = Err fork_db_block_not_found
  end.
Proof.
  intros Hinv. split; [intros num; by eapply search_on_branch_ok|]. split; [by eapply is_descendant_of_ok|].
  pose proof (get_block_known db r h Hinv) as Hh. pose proof (get_block_known db r d Hinv) as Hd.
  destruct (get_block db h true) as [bh|] eqn:Eh, (get_block db d true) as [bd|] eqn:Ed.
  1: by eapply fetch_branch_from_ok.
  all: unfold fetch_branch_from, block_or_root; by rewrite (fi_root _ _ Hinv), Eh, ?bind_ok, ?Ed.
Qed.

(** A database written at shutdown is read back with the same blocks and
    pending final block, and the same root marked valid: the file lists every block after the
    one before it, so that none is refused. *)
Theorem fork_db_file_roundtrip `{!BlockStateLaws BS bsl} validator db r :
  fd_inv db r →
  (∀ k b fs p, fd_index db !! k = Some b → bs_new_features b = Some fs → known db r (bs_previous b) p →
     validator (bs_timestamp b) (bs_features p) fs = Ok tt) →
  (num_from_id (fd_pending_savanna_lib_id db) = 0 → fd_pending_savanna_lib_id db = sha256_zero) →
  ∃ f, close db = Ok f ∧
    open validator f = Ok (ForkDatabase (Some (bs_set_valid r)) (fd_pending_savanna_lib_id db) (fd_index db)).
Proof.
  intros Hinv Hval Hlib. assert (∃ f, close db = Ok f) as [f Hf] by (unfold close; rewrite (fi_root _ _ Hinv); by eexists).
  exists f. split; [done|]. destruct (open_loaded validator db r Hinv Hval f Hf Hlib) as ([root lib idx] & -> & Hinv' & Hl & Hidx).
  cbn in Hl, Hidx. pose proof (fi_root _ _ Hinv') as Hr. cbn in Hr. do 2 f_equal; [done|done|].
  apply map_eq. intros k. apply option_eq. intros b. rewrite Hidx. split; [by intros [? _]|]. intros Hk. split; [done|].
  apply elem_of_reverse, by_best_branch_elem. eauto.
Qed.

End Theory.

(** ** An example *)

(** Blocks [b1], [b2] and [b3] on a root of number 1 and a fork [c2] on [b1]: the
    claim of [b3] makes [b1] final. *)
Module ForkExample.

Record toy : Type := Toy {
  t_id : sha256; t_previous : sha256; t_best : Z; t_claim : qc_claim_t; t_final : sha256; t_valid : bool }.

#[local] Instance toy_like : BlockStateLike toy := {|
  bs_id := t_id; bs_previous := t_previous; bs_block_num b := num_from_id (t_id b); bs_timestamp := t_best;
  bs_best b := (t_best b, 0); bs_is_valid := t_valid;
  bs_set_valid b := Toy (t_id b) (t_previous b) (t_best b) (t_claim b) (t_final b) true;
  bs_features _ := ∅; bs_new_features _ := None; bs_qc_claim b := Ok (Some (t_claim b)); bs_claimed_final b := Ok (t_final b) |}.

#[local] Instance toy_laws : BlockStateLaws toy toy_like.
Proof. by split. Qed.

Definition id (n tag : Z) : sha256 := Sha256 (n * 2 ^ 24) tag 0 0.
Definition r : toy := Toy (id 1 0) (id 0 0) 1 (QcClaim 0 false) (id 0 0) true.
Definition b1 : toy := Toy (id 2 0) (id 1 0) 2 (QcClaim 1 true) (id 1 0) true.
Definition b2 : toy := Toy (id 3 0) (id 2 0) 3 (QcClaim 2 true) (id 2 0) true.
Definition c2 : toy := Toy (id 3 1) (id 2 0) 4 (QcClaim 1 true) (id 1 0) true.
Definition b3 : toy := Toy (id 4 0) (id 3 0) 5 (QcClaim 3 true) (id 3 0) false.

Definition d0 : fork_database := reset_root r.
Definition d1 : fork_database := (add d0 b1 false).1.
Definition d2 : fork_database := (add d1 b2 false).1.
Definition d3 : fork_database := (add d2 c2 false).1.
Definition d4 : fork_database := (add d3 b3 false).1.

Lemma add_inv (db : fork_database) b : fd_inv db r → node_ok b → (∀ p, fd_index db !! bs_previous b = Some p → better b p) →
  fd_inv (add db b false).1 r.
Proof.
  intros H1 H2 H3. pose proof (add_impl_ok None db r b false H1 H2 H3) as H. unfold add.
  by destruct (add_impl _ _ _ _) as [db' res]; destruct H.
Qed.

Ltac node := split_and!; [reflexivity|reflexivity|by eexists|eexists; split; [reflexivity|by apply Z.leb_le]].
Ltac parent := let p := fresh in let H := fresh in intros p H; vm_compute in H; first [done | injection H as <-; left; reflexivity].

Lemma d3_inv : fd_inv d3 r.
Proof.
  repeat (apply add_inv; [|node|parent]). exact (reset_root_inv r eq_refl).
Qed.

Lemma d4_inv : fd_inv d4 r.
Proof. apply add_inv; [exact d3_inv|node|parent]. Qed.

(** C0 at a block that makes the best head, on the branch that is not the best one. *)
Lemma fork_db_add_correct_witness : (add d3 b3 false).2 = Ok fork_switch ∧ fd_pending_savanna_lib_id d4 = id 2 0 ∧ fd_inv (add d3 b3 false).1 r.
Proof.
  split_and!; [vm_compute; reflexivity|vm_compute; reflexivity|].
  pose proof (fork_db_add_correct d3 r b3 false d3_inv ltac:(node) ltac:(parent)) as H.
  destruct (add d3 b3 false) as [db' res]. exact (proj1 H).
Defined.

(** The blocks of the index. *)
Definition blocks (db : fork_database) : list toy := (map_to_list (fd_index db)).*2.

Lemma pruned_blocks :
  match remove d4 (id 3 0), advance_root d4 (id 3 0) with
  | Ok db1, Ok db2 => blocks db1 = [b1; c2] ∧ blocks db2 = [b3]
  | _, _ => False
  end.
Proof. vm_compute. split; reflexivity. Qed.

(** C0 at the database with both branches: one of them is removed, or its second block becomes the root. *)
Lemma fork_db_pruning_correct_witness :
  (∃ db', remove d4 (id 3 0) = Ok db' ∧ fd_inv db' r ∧ blocks db' = [b1; c2]) ∧
  ∃ db', advance_root d4 (id 3 0) = Ok db' ∧ fd_inv db' b2 ∧ blocks db' = [b3].
Proof.
  destruct (fork_db_pruning_correct d4 r (id 3 0) 3 d4_inv) as ((db1 & Hr & Hinv & _) & _ & Hadv).
  assert (fd_index d4 !! id 3 0 = Some b2) as E by (vm_compute; reflexivity). rewrite E in Hadv.
  destruct Hadv as (db2 & Ha & Hinv2 & _). pose proof pruned_blocks as Hb. rewrite Hr, Ha in Hb. split.
  - exists db1. split; [exact Hr|]. split; [exact Hinv|exact (proj1 Hb)].
  - exists db2. split; [exact Ha|]. split; [exact Hinv2|exact (proj2 Hb)].
Defined.

(** C0 at the heads of the two branches. *)
Lemma fork_db_queries_correct_witness :
  (∃ o, search_on_branch d4 (id 4 0) 3 false = Ok o ∧ o = Some b2) ∧
  (∃ e, is_descendant_of d4 (id 2 0) (id 4 0) = Ok e ∧ e = true) ∧
  ∃ l1 l2 c, fetch_branch_from d4 (id 4 0) (id 3 1) = Ok (l1, l2) ∧ path (fd_index d4) (id 4 0) l1 c ∧
    path (fd_index d4) (id 3 1) l2 c ∧ l1 = [b3; b2] ∧ l2 = [c2].
Proof.
  split; [|split].
  - destruct (fork_db_queries_correct d4 r (id 4 0) (id 3 1) d4_inv) as (Hs & _). destruct (Hs 3) as (o & Ho & _).
    exists o. split; [exact Ho|]. vm_compute in Ho. injection Ho as <-. vm_compute. reflexivity.
  - destruct (fork_db_queries_correct d4 r (id 2 0) (id 4 0) d4_inv) as (_ & Hd & _).
    destruct Hd as (e & He & _); [by apply Z.leb_le|done|]. exists e. split; [exact He|]. vm_compute in He. injection He as <-. reflexivity.
  - destruct (fork_db_queries_correct d4 r (id 4 0) (id 3 1) d4_inv) as (_ & _ & H).
    assert (get_block d4 (id 4 0) true = Some b3) as E1 by (vm_compute; reflexivity).
    assert (get_block d4 (id 3 1) true = Some c2) as E2 by (vm_compute; reflexivity). rewrite E1, E2 in H.
    destruct H as (l1 & l2 & c & Hf & Hp1 & Hp2 & _). exists l1, l2, c. split; [exact Hf|]. split; [exact Hp1|].
    split; [exact Hp2|]. vm_compute in Hf. injection Hf as <- <-. vm_compute. split; reflexivity.
Defined.

(** C0 at the database with both branches. *)
Lemma fork_db_file_roundtrip_witness :
  ∃ f, close d4 = Ok f ∧ length (file_blocks f) = 4%nat ∧
    open (λ _ _ _, Err fork_database_exception) f = Ok (ForkDatabase (Some r) (id 2 0) (fd_index d4)).
Proof.
  destruct (fork_db_file_roundtrip (λ _ _ _, Err fork_database_exception) d4 r d4_inv) as (f & Hf & Ho).
  - intros k b fs p _ H. discriminate H.
  - intros H. vm_compute in H. discriminate H.
  - exists f. split; [exact Hf|]. split; [vm_compute in Hf; injection Hf as <-; reflexivity|]. rewrite Ho. vm_compute. reflexivity.
Defined.

End ForkExample.
