(* ===== verification/ForkSwitch.v ===== *)
(** * Choosing and following the best branch: [controller.cpp]

    [maybe_apply_blocks] moves the chain head to the best block of the fork
    database: it pops the blocks of the old branch, executes those of the new one,
    and goes back when one fails; [log_irreversible], called after every block,
    advances the root. Written for any type of block states, as the code is a
    template; [apply_block head s] executes and commits the block of [s] on
    [head] and gives the changed state. An interruption, or the lack of memory, ends the call
    without removing the block. The loop may also end early, to let other tasks run or because the node
    pauses or shuts down. The block log and the undo sessions of
    the database follow the same steps and are not modelled. *)

From stdpp Require Import gmap.
From S2P Require Import Prelude Sha256 FinalityCore BlockHeaderState ForkDatabase.
Open Scope Z_scope.

Section ForkSwitch.
Context {BS : Type} {bsl : BlockStateLike BS}.
Context (apply_block : BS → BS → result BS).

(** [chain_head] is given by the id of its block. *)
Record node : Type := Node {
  nd_db : fork_database (BS := BS);
  nd_head : sha256 }.

(** ** Irreversible blocks *)

Fixpoint take_while (P : BS → bool) (l : list BS) : list BS :=
  match l with
  | [] => []
  | x :: l => if P x then x :: take_while P l else []
  end.

(** In speculative mode, with the head of the block log at the root. *)
Definition log_irreversible (db : fork_database) (head_id : sha256) : result fork_database :=
  match fd_root db with
  | None => Err fork_database_exception
  | Some r =>
    let new_lib_id := fd_pending_savanna_lib_id db in
    if num_from_id new_lib_id <=? bs_block_num r then Ok db
    else
      branch ← (if num_from_id new_lib_id <=? num_from_id head_id
                then fetch_branch_to db head_id new_lib_id
                else fetch_branch_to db new_lib_id head_id);
      match last (take_while bs_is_valid (reverse branch)) with
      | None => Ok db
      | Some b => if bool_decide (bs_id b = bs_id r) then Ok db else advance_root db (bs_id b)
      end
  end.

(** ** Steps of the head *)

Definition head_state (nd : node) : result BS :=
  match get_block (nd_db nd) (nd_head nd) true with Some h => Ok h | None => Err undefined_behaviour end.

Definition pop_block (nd : node) : result node :=
  h ← head_state nd;
  match get_block (nd_db nd) (bs_previous h) false with
  | Some p => Ok (Node (nd_db nd) (bs_id p))
  | None =>
    match fd_root (nd_db nd) with
    | None => Err assert_failed
    | Some r =>
      check (bool_decide (bs_id r = bs_previous h)) block_validate_exception;;
      Ok (Node (nd_db nd) (bs_id r))
    end
  end.

(** Executes a block of the database on the head and commits it. *)
Definition apply_and_commit (nd : node) (id : sha256) : result node :=
  h ← head_state nd;
  match fd_index (nd_db nd) !! id with
  | None => Err assert_failed
  | Some s =>
    s' ← apply_block h s;
    db ← log_irreversible (update_block (nd_db nd) s') id;
    Ok (Node db id)
  end.

(** Pops [n] blocks; the first error stops. *)
Fixpoint pop_blocks (nd : node) (n : nat) : node * result unit :=
  match n with
  | O => (nd, Ok tt)
  | S n => match pop_block nd with Ok nd => pop_blocks nd n | Err e => (nd, Err e) end
  end.

(** The loops over the new branch and over the old one end after so many blocks: other tasks get to run, or the node pauses or
    shuts down, after which [apply_block] does nothing. *)
Record breaks : Type := Breaks {
  loop_break : option nat;
  reapply_break : option nat }.

Definition no_breaks : breaks := Breaks None None.

Definition stop_now (k : option nat) : bool := match k with Some O => true | _ => false end.

(** The exceptions after which the block that was executed stays where it is. *)
Definition is_rethrown (e : exn) : bool := bool_decide (e = interrupt_exception) || bool_decide (e = bad_alloc).

(** The loop over the new branch: the blocks applied, and the block that failed. *)
Fixpoint apply_branch (nd : node) (ids : list sha256) (k : option nat) : node * nat * option (sha256 * exn) :=
  match ids with
  | [] => (nd, 0%nat, None)
  | id :: ids =>
    if stop_now k then (nd, 0%nat, None)
    else
      match apply_and_commit nd id with
      | Err e => (nd, 0%nat, Some (id, e))
      | Ok nd => let '(nd, n, o) := apply_branch nd ids (pred <$> k) in (nd, S n, o)
      end
  end.

(** Applied again after a failed switch; an error ends the call. *)
Fixpoint reapply (nd : node) (ids : list sha256) (k : option nat) : node * result unit :=
  match ids with
  | [] => (nd, Ok tt)
  | id :: ids =>
    if stop_now k then (nd, Ok tt)
    else match apply_and_commit nd id with Ok nd => reapply nd ids (pred <$> k) | Err e => (nd, Err e) end
  end.

(** The head is at the parent of the last block of the old branch. *)
Definition in_sync (nd : node) (old_branch : list BS) : bool :=
  match last old_branch with Some b => bool_decide (nd_head nd = bs_previous b) | None => true end.

(** After block [id] failed with [applied] blocks of the new branch applied. *)
Definition switch_back (brk : breaks) (nd : node) (old_branch : list BS) (applied : nat) (id : sha256) (e : exn) : node * result unit :=
  match remove (nd_db nd) id with
  | Err e' => (nd, Err e')
  | Ok db =>
    let nd := Node db (nd_head nd) in
    if negb (is_empty old_branch) then
      match pop_blocks nd applied with
      | (nd, Err e') => (nd, Err e')
      | (nd, Ok _) =>
        if in_sync nd old_branch then
          match reapply nd (bs_id <$> reverse old_branch) (reapply_break brk) with
          | (nd, Err e') => (nd, Err e')
          | (nd, Ok _) => (nd, Err e)
          end
        else (nd, Err fork_database_exception)
      end
    else (nd, Err e)
  end.

Definition maybe_apply_blocks (brk : breaks) (nd : node) : node * result unit :=
  match head_impl (nd_db nd) false with
  | None => (nd, Ok tt)
  | Some new_head =>
    match fetch_branch_from (nd_db nd) (bs_id new_head) (nd_head nd) with
    | Err e => (nd, Err e)
    | Ok (new_branch, old_branch) =>
      match pop_blocks nd (length old_branch) with
      | (nd, Err e) => (nd, Err e)
      | (nd, Ok _) =>
        if in_sync nd old_branch then
          match apply_branch nd (bs_id <$> reverse new_branch) (loop_break brk) with
          | (nd, applied, Some (id, e)) => if is_rethrown e then (nd, Err e) else switch_back brk nd old_branch applied id e
          | (nd, _, None) =>
            match log_irreversible (nd_db nd) (nd_head nd) with
            | Ok db => (Node db (nd_head nd), Ok tt)
            | Err e => (nd, Err e)
            end
          end
        else (nd, Err fork_database_exception)
      end
    end
  end.

End ForkSwitch.
