(* ===== verification/ForkSwitchTheory.v ===== *)
(** * Theorems on the choice of the best branch

    Whatever fails on the way, the chain head is a block of the fork database whose
    branch down to the root was executed; when the blocks of the best branch execute,
    the head becomes the best block. *)

From stdpp Require Import gmap sorting relations.
From S2P Require Import Prelude Sha256 FinalityCore BlockHeaderState ForkDatabase ForkDatabaseTheory ForkSwitch.
Open Scope Z_scope.

Section Theory.
Context {BS : Type} {bsl : BlockStateLike BS}.
Implicit Types (db : fork_database (BS := BS)) (idx : gmap sha256 BS) (b r s : BS).

(** ** Replacing a state *)

(** States of one block: execution, votes and certificates change none of these. *)
Record same_state s s' : Prop := {
  ss_id : bs_id s' = bs_id s;
  ss_previous : bs_previous s' = bs_previous s;
  ss_num : bs_block_num s' = bs_block_num s;
  ss_best : bs_best s' = bs_best s;
  ss_claim : bs_qc_claim s' = bs_qc_claim s;
  ss_final : bs_claimed_final s' = bs_claimed_final s }.

Lemma same_state_sym s s' : same_state s s' → same_state s' s.
Proof. by intros []. Qed.

Definition replace_in s' b : BS := if bool_decide (bs_id b = bs_id s') then s' else b.

Lemma path_replace idx s s' a l c : idx_ok idx → idx !! bs_id s' = Some s → same_state s s' → path idx a l c →
  path (<[bs_id s' := s']> idx) a (replace_in s' <$> l) c.
Proof.
  intros Hok Hs Hss. induction 1 as [|a b l c Ha _ IH]; [constructor|]. destruct (Hok _ _ Ha) as [Hid _].
  rewrite fmap_cons. unfold replace_in at 1. case_bool_decide as E.
  - assert (b = s) as -> by congruence. apply path_cons; [rewrite <- Hid, E; apply lookup_insert_eq|].
    by rewrite (ss_previous _ _ Hss).
  - econstructor; [|done]. rewrite lookup_insert_ne; [done|]. by rewrite <- Hid.
Qed.

(** In a tree where one state was replaced, paths are those of the old one. *)
Lemma path_replaced idx s s' a l c : idx_ok (<[bs_id s' := s']> idx) → idx !! bs_id s' = Some s → same_state s s' →
  path (<[bs_id s' := s']> idx) a l c → path idx a (replace_in s <$> l) c.
Proof.
  intros Hok Hs Hss Hp. pose proof (ss_id _ _ Hss) as Hid.
  eapply (path_replace _ s' s) in Hp; [|done|rewrite <- Hid; apply lookup_insert_eq|by apply same_state_sym].
  by rewrite <- Hid, insert_insert_eq, insert_id in Hp.
Qed.

Lemma replace_same s s' b : same_state s s' → (bs_id b = bs_id s → b = s) → same_state b (replace_in s' b).
Proof. intros Hss Hb. unfold replace_in. case_bool_decide as E; [|by split]. rewrite Hb; [done|]. by rewrite E, (ss_id _ _ Hss). Qed.

Lemma replace_idx_ok idx s s' : idx_ok idx → idx !! bs_id s' = Some s → same_state s s' → idx_ok (<[bs_id s' := s']> idx).
Proof.
  intros Hok Hs [H1 H2 H3 H4 H5 H6] k b [[<- <-]|[_ Hk]]%lookup_insert_Some; [|by apply Hok]. split; [done|].
  destruct (Hok _ _ Hs) as [_ Hn]. unfold node_ok in *. by rewrite H1, H2, H3, H5, H6.
Qed.

Lemma replace_inv db r s s' : fd_inv db r → fd_index db !! bs_id s' = Some s → same_state s s' →
  fd_inv (with_index db (<[bs_id s' := s']> (fd_index db))) r.
Proof.
  intros [Hr Hrn Hok Hl Hset Hbest] Hs Hss. pose proof (replace_idx_ok _ _ _ Hok Hs Hss) as Hok'. split; cbn; [done|done|done|..].
  - intros k b Hb. assert (∃ b0, fd_index db !! k = Some b0 ∧ bs_previous b0 = bs_previous b) as (b0 & Hb0 & <-).
    { apply lookup_insert_Some in Hb as [[<- <-]|[_ Hb]]; [exists s; split; [done|]; symmetry; apply Hss|by exists b]. }
    destruct (Hl _ _ Hb0) as [|[p Hp]]; [by left|right]. destruct (decide (bs_id s' = bs_previous b0)) as [<-|Hne];
      [rewrite lookup_insert_eq|rewrite lookup_insert_ne by done]; eauto.
  - intros k b claim l c a id Hb Hc Hst Hp Ha Hn Hf.
    assert (∃ b0, fd_index db !! k = Some b0 ∧ same_state b0 b) as (b0 & Hb0 & Hsb).
    { apply lookup_insert_Some in Hb as [[<- <-]|[_ Hb]]; [by exists s|exists b; by split]. }
    destruct (path_blocks _ _ _ _ _ Hok' Hp Ha) as [Hka _].
    assert (same_state a (replace_in s a)) as Hsa.
    { apply (replace_same s' s); [by apply same_state_sym|]. intros E. rewrite E, lookup_insert_eq in Hka. by injection Hka. }
    apply (path_replaced _ s) in Hp; [|done|done|done].
    eapply (Hset k b0 claim _ c (replace_in s a) id); [done|by rewrite <- (ss_claim _ _ Hsb)|done| | | |].
    + rewrite <- (ss_previous _ _ Hsb). exact Hp.
    + by apply list_elem_of_fmap_2.
    + by rewrite (ss_num _ _ Hsa).
    + by rewrite (ss_final _ _ Hsa).
  - intros k b p Hb Hp. assert (∀ k x, <[bs_id s' := s']> (fd_index db) !! k = Some x → ∃ x0, fd_index db !! k = Some x0 ∧ same_state x0 x) as Hback.
    { intros k' x [[<- <-]|[_ Hx]]%lookup_insert_Some; [by exists s|exists x; by split]. }
    destruct (Hback _ _ Hb) as (b0 & Hb0 & Hsb). destruct (Hback _ _ Hp) as (p0 & Hp0 & Hsp).
    rewrite (ss_previous _ _ Hsb) in Hp0. pose proof (Hbest _ _ _ Hb0 Hp0) as H. unfold better in *.
    by rewrite (ss_best _ _ Hsb), (ss_best _ _ Hsp).
Qed.

(** ** Branches that were executed *)

Definition executed db (h : sha256) : Prop := ∀ l c b, path (fd_index db) h l c → b ∈ l → bs_is_valid b = true.

Lemma executed_prev db k b : executed db k → fd_index db !! k = Some b → executed db (bs_previous b).
Proof. intros H Hk l c x Hp Hx. eapply (H (b :: l)); [by econstructor|by right]. Qed.

Lemma executed_path db a l c : executed db a → path (fd_index db) a l c → executed db c.
Proof. intros H Hp l' c' x Hp' Hx. eapply H; [by eapply path_app|]. apply elem_of_app. by right. Qed.

Lemma executed_sub db db' h : fd_index db' ⊆ fd_index db → executed db h → executed db' h.
Proof. intros Hsub H l c b Hp. apply (H l c). by eapply path_sub. Qed.

Record node_inv (nd : node (BS := BS)) (r : BS) : Prop := {
  ni_db : fd_inv (nd_db nd) r;
  ni_root : bs_is_valid r = true;
  ni_below : num_from_id (bs_previous r) < num_from_id (bs_id r);
  ni_head : ∃ h, known (nd_db nd) r (nd_head nd) h;
  ni_executed : executed (nd_db nd) (nd_head nd) }.

(** ** Irreversible blocks *)

Lemma take_while_all (P : BS → bool) l : (∀ x, x ∈ l → P x = true) → take_while P l = l.
Proof.
  induction l as [|x l IH]; intros H; [done|]. cbn. rewrite (H x) by left. f_equal. apply IH. intros y Hy. apply H. by right.
Qed.

(** The rest of a branch from a block on. *)
Lemma from_block_ok idx a l c i : idx_ok idx → path idx a l c →
  from_block i l = [] ∨ ∃ x, idx !! i = Some x ∧ head (from_block i l) = Some x ∧ path idx i (from_block i l) c ∧
    ∃ l0, path idx a l0 i.
Proof.
  intros Hok. induction 1 as [|a x l c Ha Hp IH]; [by left|]. cbn. destruct (Hok _ _ Ha) as [Hid _]. case_bool_decide as E.
  - right. assert (i = a) as -> by congruence. exists x. split; [done|]. split; [done|]. split; [by econstructor|].
    exists []. constructor.
  - destruct IH as [|(y & Hy & Hh & Hpy & l0 & Hl0)]; [by left|right]. exists y. split; [done|]. split; [done|]. split; [done|].
    exists (x :: l0). by econstructor.
Qed.

(** [db'] is [db] with the root advanced to a block of the branch of [h], or [db] itself. *)
Record advanced db r db' r' (h : sha256) : Prop := {
  av_inv : fd_inv db' r';
  av_sub : fd_index db' ⊆ fd_index db;
  av_root : r' = r ∨ fd_index db !! bs_id r' = Some r' ∧ bs_is_valid r' = true ∧ ∃ l, path (fd_index db) h l (bs_id r');
  av_path : ∀ k l, path (fd_index db) k l h → path (fd_index db') k l h;
  av_keep : ∀ k l, path (fd_index db) k l (bs_id r') → path (fd_index db') k l (bs_id r');
  av_head : ∀ b, known db r h b → known db' r' h b;
  av_lib : fd_pending_savanna_lib_id db' = fd_pending_savanna_lib_id db }.

Lemma advanced_refl db r h : fd_inv db r → advanced db r db r h.
Proof. intros H. split; [done|done|by left|done..]. Qed.

(** Advancing the root to a block of the branch of [h]. *)
Lemma advance_on_branch db r h x id l0 : fd_inv db r → fd_index db !! id = Some x → bs_is_valid x = true →
  path (fd_index db) h l0 id → ∃ db', advance_root db id = Ok db' ∧ advanced db r db' x h.
Proof.
  intros Hinv Hx Hval Hp. pose proof (fi_idx _ _ Hinv) as Hok. destruct (Hok _ _ Hx) as [Hid _].
  destruct (advance_root_ok db r id x Hinv Hx Hval) as (db' & Hadv & Hinv' & Hlib & Hiff). exists db'. split; [done|].
  split; [done|apply map_subseteq_spec; by intros k b (Hk & _)%Hiff|right; rewrite Hid; eauto| | | |done].
  - intros k l. induction 1 as [|k b l c Hk Hpk IH]; [constructor|]. econstructor; [|by apply IH]. apply Hiff. split; [done|]. split.
    + intros ->. pose proof (path_num _ _ _ _ Hok Hp). pose proof (path_num _ _ _ _ Hok Hpk). pose proof (num_step _ _ _ Hok Hk). lia.
    + exists ((b :: l) ++ l0). eapply path_app; [by econstructor|done].
  - rewrite Hid. intros k l. induction 1 as [|k b l c Hk Hpk IH]; [constructor|]. econstructor; [|by apply IH]. apply Hiff. split; [done|]. split.
    + intros ->. pose proof (path_num _ _ _ _ Hok Hpk). pose proof (num_step _ _ _ Hok Hk). lia.
    + exists (b :: l). by econstructor.
  - intros b Hb. destruct (decide (h = id)) as [->|Hne].
    + left. destruct Hb as [[-> ->]|Hb]; [by rewrite (root_not_in _ _ Hok (fi_linked _ _ Hinv)) in Hx|]. split; congruence.
    + right. apply Hiff. destruct Hb as [[-> ->]|Hb]; [|eauto].
      inversion Hp as [|? ? ? ? Hr]; subst; [done|]. by rewrite (root_not_in _ _ Hok (fi_linked _ _ Hinv)) in Hr.
Qed.

Lemma last_reverse {A} (l : list A) : last (reverse l) = head l.
Proof. destruct l as [|x l]; [done|]. by rewrite reverse_cons, last_snoc. Qed.

(** Advancing to the first block of a rest of a branch that was executed. *)
Lemma advance_rest db r h a l i : fd_inv db r → path (fd_index db) a l (bs_id r) →
  (∀ l0, path (fd_index db) a l0 i → executed db i ∧ ∃ l1, path (fd_index db) h l1 i) →
  ∃ db' r', match last (take_while bs_is_valid (reverse (from_block i l))) with
    | None => Ok db
    | Some x => if bool_decide (bs_id x = bs_id r) then Ok db else advance_root db (bs_id x)
    end = Ok db' ∧ advanced db r db' r' h.
Proof.
  intros Hinv Hp Hon. pose proof (fi_idx _ _ Hinv) as Hok.
  destruct (from_block_ok _ _ _ _ i Hok Hp) as [->|(x & Hx & Hh & Hpb & l0 & Hl0)];
    [exists db, r; split; [done|by apply advanced_refl]|]. destruct (Hon _ Hl0) as [Hex [l1 Hl1]].
  rewrite take_while_all by (intros y Hy; rewrite elem_of_reverse in Hy; eapply Hex; [exact Hpb|exact Hy]).
  rewrite last_reverse, Hh. destruct (Hok _ _ Hx) as [Hid _]. rewrite Hid.
  rewrite bool_decide_eq_false_2 by (intros ->; by rewrite (root_not_in _ _ Hok (fi_linked _ _ Hinv)) in Hx).
  destruct (advance_on_branch db r h x i l1 Hinv Hx) as (db' & Hadv & Hav).
  - eapply (Hex (from_block i l)); [done|]. destruct (from_block i l); [done|]. injection Hh as ->. left.
  - done.
  - exists db', x. by split.
Qed.

(** Marking blocks irreversible never fails and keeps everything built on the head. *)
Lemma log_irreversible_ok db r h : fd_inv db r → executed db h →
  ∃ db' r', log_irreversible db h = Ok db' ∧ advanced db r db' r' h.
Proof.
  intros Hinv Hex. unfold log_irreversible. rewrite (fi_root _ _ Hinv). cbv zeta.
  destruct (_ <=? bs_block_num r); [exists db, r; split; [done|by apply advanced_refl]|].
  set (lib := fd_pending_savanna_lib_id db). destruct (num_from_id lib <=? num_from_id h); unfold fetch_branch_to.
  - destruct (branch_ok db r h Hinv) as (l & -> & [[_ ->]|Hp]); rewrite !bind_ok;
      [exists db, r; split; [done|by apply advanced_refl]|].
    apply (advance_rest db r h h); [done|done|]. intros l0 Hl0. split; [by eapply executed_path|by exists l0].
  - destruct (branch_ok db r lib Hinv) as (l & -> & [[_ ->]|Hp]); rewrite !bind_ok;
      [exists db, r; split; [done|by apply advanced_refl]|].
    apply (advance_rest db r h lib); [done|done|]. intros l0 Hl0. split; [done|]. exists []. constructor.
Qed.

(** The root only moves to blocks of the branch of the pending final block. *)
Lemma elem_of_from_block i l x : x ∈ from_block i l → x ∈ l.
Proof. induction l as [|y l IH]; cbn; [done|]. case_bool_decide as E; [done|]. intros Hx. right. by apply IH. Qed.

Lemma take_while_elem (P : BS → bool) l x : last (take_while P l) = Some x → x ∈ l ∧ P x = true.
Proof.
  intros H. apply last_Some_elem_of in H. induction l as [|y l IH]; cbn in H; [by apply not_elem_of_nil in H|].
  destruct (P y) eqn:E; [|by apply not_elem_of_nil in H]. apply elem_of_cons in H as [->|H]; [split; [left|done]|].
  destruct (IH H). split; [by right|done].
Qed.

Lemma path_through idx a l c x : idx_ok idx → path idx a l c → bs_id x ∈ bs_id <$> l → ∃ l', path idx a l' (bs_id x).
Proof.
  intros Hok. induction 1 as [|a y l c Hy Hp IH]; [by intros ?%not_elem_of_nil|]. rewrite fmap_cons. intros [Hx|Hin]%elem_of_cons.
  - destruct (Hok _ _ Hy) as [Hid _]. rewrite Hx, Hid. exists []. constructor.
  - destruct (IH Hin) as [l' Hl']. exists (y :: l'). by econstructor.
Qed.

Lemma log_irreversible_root db r h db' : fd_inv db r → log_irreversible db h = Ok db' → db' = db ∨
  ∃ x l, advance_root db (bs_id x) = Ok db' ∧ fd_index db !! bs_id x = Some x ∧ bs_is_valid x = true ∧
    path (fd_index db) (fd_pending_savanna_lib_id db) l (bs_id x).
Proof.
  intros Hinv H. pose proof (fi_idx _ _ Hinv) as Hok. unfold log_irreversible in H. rewrite (fi_root _ _ Hinv) in H. cbv zeta in H.
  destruct (_ <=? bs_block_num r); [injection H as <-; by left|].
  apply bind_inv in H as (l & Hl & H). destruct (last _) as [x|] eqn:Ex; [|injection H as <-; by left].
  destruct (bool_decide _); [injection H as <-; by left|]. right. apply take_while_elem in Ex as [Hx Hv]. rewrite elem_of_reverse in Hx.
  assert (∀ a i, fetch_branch_to db a i = Ok l → ∃ lb, path (fd_index db) a lb (bs_id r) ∧ l = from_block i lb) as Hbr.
  { intros a i Hf. unfold fetch_branch_to in Hf. destruct (branch_ok db r a Hinv) as (lb & Hb & Hp). rewrite Hb, bind_ok in Hf.
    injection Hf as <-. destruct Hp as [[_ ->]|Hp]; [by apply not_elem_of_nil in Hx|by exists lb]. }
  destruct (_ <=? num_from_id h); destruct (Hbr _ _ Hl) as (lb & Hp & ->).
  - destruct (from_block_ok _ _ _ _ (fd_pending_savanna_lib_id db) Hok Hp) as [E|(y & _ & _ & Hpb & _)];
      [rewrite E in Hx; by apply not_elem_of_nil in Hx|].
    destruct (path_blocks _ _ _ _ _ Hok Hpb Hx) as [Hlk _]. destruct (path_through _ _ _ _ x Hok Hpb) as [l' Hl']; [by apply list_elem_of_fmap_2|]. by exists x, l'.
  - apply elem_of_from_block in Hx. destruct (path_blocks _ _ _ _ _ Hok Hp Hx) as [Hlk _].
    destruct (path_through _ _ _ _ x Hok Hp) as [l' Hl']; [by apply list_elem_of_fmap_2|]. by exists x, l'.
Qed.

Lemma advanced_inv db r db' r' h : node_inv (Node db h) r → advanced db r db' r' h → node_inv (Node db' h) r'.
Proof.
  intros [Hinv Hval Hlow [b Hb] Hex] [Hinv' Hsub Hroot _ _ Hhead _]. cbn in *. split; cbn; [done|..].
  - by destruct Hroot as [->|(_ & ? & _)].
  - destruct Hroot as [->|(Hr & _)]; [done|]. pose proof (num_step _ _ _ (fi_idx _ _ Hinv) Hr). lia.
  - exists b. by apply Hhead.
  - by eapply executed_sub.
Qed.

(** ** States of a later database *)

(** Every block of [idx'] is one of [idx], perhaps with another state. *)
Definition derived idx idx' : Prop := ∀ k b', idx' !! k = Some b' → ∃ b, idx !! k = Some b ∧ same_state b b'.

Lemma same_state_trans a b c : same_state a b → same_state b c → same_state a c.
Proof. intros [] []. split; congruence. Qed.

Lemma derived_sub idx idx' : idx' ⊆ idx → derived idx idx'.
Proof. intros Hsub k b Hk. exists b. split; [by eapply lookup_weaken|by split]. Qed.

Lemma derived_trans idx1 idx2 idx3 : derived idx1 idx2 → derived idx2 idx3 → derived idx1 idx3.
Proof.
  intros H12 H23 k b Hk. destruct (H23 _ _ Hk) as (b2 & Hk2 & Hs2). destruct (H12 _ _ Hk2) as (b1 & Hk1 & Hs1).
  exists b1. split; [done|by eapply same_state_trans].
Qed.

Lemma derived_replace idx s s' : idx !! bs_id s' = Some s → same_state s s' → derived idx (<[bs_id s' := s']> idx).
Proof. intros Hs Hss k b [[<- <-]|[_ Hk]]%lookup_insert_Some; [by exists s|exists b; by split]. Qed.

Lemma path_snoc idx a l s c : idx_ok idx → path idx a (l ++ [s]) c → path idx a l (bs_id s) ∧ idx !! bs_id s = Some s ∧ bs_previous s = c.
Proof.
  intros Hok. revert a. induction l as [|x l IH]; intros a Hp; inversion Hp as [|? ? ? ? Ha Hp']; subst.
  - inversion Hp'; subst. destruct (Hok _ _ Ha) as [-> _]. split; [constructor|done].
  - destruct (IH _ Hp') as (H1 & H2 & H3). split; [by econstructor|done].
Qed.

(** A path of the later database is one of the earlier one. *)
Lemma path_back idx idx' a l c : idx_ok idx → idx_ok idx' → derived idx idx' → path idx' a l c → ∃ l0, path idx a l0 c ∧ bs_id <$> l0 = bs_id <$> l.
Proof.
  intros Hok Hok' Hd. induction 1 as [a|a b l c Ha _ (l0 & Hp & Hids)]; [exists []; split; [constructor|done]|].
  destruct (Hd _ _ Ha) as (b0 & Hb0 & Hss). exists (b0 :: l0). split; [|by rewrite !fmap_cons, Hids, (ss_id _ _ Hss)].
  econstructor; [done|]. by rewrite <- (ss_previous _ _ Hss).
Qed.

Lemma path_length idx a l1 c1 l2 c2 : path idx a l1 c1 → path idx a l2 c2 → length l1 = length l2 → l1 = l2 ∧ c1 = c2.
Proof.
  intros H1 H2 Hlen. destruct (path_split _ _ _ _ _ _ H1 H2 ltac:(lia)) as (l & -> & Hp). rewrite length_app in Hlen.
  destruct l; [|simpl in Hlen; lia]. inversion Hp; subst. by rewrite app_nil_r.
Qed.

Lemma path_app_inv idx a l1 l2 c : path idx a (l1 ++ l2) c → ∃ m, path idx a l1 m ∧ path idx m l2 c.
Proof.
  revert a. induction l1 as [|x l1 IH]; intros a Hp; [exists a; split; [constructor|done]|].
  cbn [app] in Hp. inversion Hp as [|? ? ? ? Ha Hp']; subst. destruct (IH _ Hp') as (m & H1 & H2). exists m. split; [by econstructor|done].
Qed.

(** The part of the tree above the new root stays. *)
Definition keeps idx idx' (root : sha256) : Prop := ∀ k l, path idx k l root → ∃ l', path idx' k l' root ∧ bs_id <$> l' = bs_id <$> l.

Lemma keeps_trans idx0 idx1 idx2 (r1 r2 : sha256) m : idx_ok idx0 → idx_ok idx1 → derived idx0 idx1 → keeps idx0 idx1 r1 → keeps idx1 idx2 r2 → path idx1 r2 m r1 →
  keeps idx0 idx2 r2.
Proof.
  intros Hok0 Hok1 Hd H01 H12 Hm k l Hp. destruct (path_back _ _ _ _ _ Hok0 Hok1 Hd Hm) as (m0 & Hm0 & Hmids).
  destruct (H01 k (l ++ m0)) as (q & Hq & Hqids); [by eapply path_app|].
  assert (∃ l1 m1, q = l1 ++ m1 ∧ bs_id <$> l1 = bs_id <$> l) as (l1 & m1 & -> & Hl1).
  { exists (take (length l) q), (drop (length l) q). split; [by rewrite take_drop|].
    rewrite fmap_take, Hqids, fmap_app. rewrite take_app_le by (by rewrite length_fmap). by rewrite take_ge by (by rewrite length_fmap). }
  apply path_app_inv in Hq as (x & Hx1 & Hx2).
  assert (x = r2) as ->.
  { destruct (path_back _ _ _ _ _ Hok0 Hok1 Hd Hx1) as (l0 & Hl0 & Hids0).
    destruct (path_length _ _ _ _ _ _ Hp Hl0) as [_ <-]; [|done].
    apply (f_equal length) in Hids0. apply (f_equal length) in Hl1. rewrite !length_fmap in Hids0, Hl1. lia. }
  destruct (H12 _ _ Hx1) as (l2 & Hp2 & Hids2). exists l2. split; [done|]. by rewrite Hids2.
Qed.

(** ** Steps of the head *)

Lemma head_state_ok (nd : node) r : node_inv nd r → ∃ h, head_state nd = Ok h ∧ known (nd_db nd) r (nd_head nd) h.
Proof.
  intros [Hinv _ _ [h Hh] _]. exists h. split; [|done]. unfold head_state. pose proof (block_or_root_ok _ _ _ _ Hinv Hh) as H.
  unfold block_or_root in H. destruct (get_block _ _ _); [congruence|done].
Qed.

Lemma pop_block_inv (nd nd' : node) r : node_inv nd r → pop_block nd = Ok nd' → node_inv nd' r ∧ nd_db nd' = nd_db nd.
Proof.
  intros Hn H. destruct (head_state_ok _ _ Hn) as (h & Hh & Hk). unfold pop_block in H. rewrite Hh, bind_ok in H.
  destruct Hn as [Hinv Hval Hlow _ Hex]. pose proof (fi_idx _ _ Hinv) as Hok. cbn [get_block andb] in H.
  destruct Hk as [[Hid ->]|Hk].
  - destruct (fd_index (nd_db nd) !! bs_previous r) as [p|] eqn:Ep.
    { pose proof (above_root _ _ _ _ Hok (fi_linked _ _ Hinv) Ep). lia. }
    rewrite (fi_root _ _ Hinv) in H. apply bind_inv in H as ([] & Hc & _). apply check_inv, bool_decide_eq_true in Hc.
    rewrite <- Hc in Hlow. lia.
  - pose proof (executed_prev _ _ _ Hex Hk) as Hex'. destruct (fd_index (nd_db nd) !! bs_previous h) as [p|] eqn:Ep.
    + injection H as <-. destruct (Hok _ _ Ep) as [Hid _]. split; [|done]. split; cbn; rewrite ?Hid; [done|done|done|exists p; by right|done].
    + rewrite (fi_root _ _ Hinv) in H. apply bind_inv in H as ([] & Hc & H). apply check_inv, bool_decide_eq_true in Hc.
      injection H as <-. split; [|done]. split; cbn; [done|done|done|exists r; by left|by rewrite Hc].
Qed.

Lemma pop_blocks_inv n : ∀ (nd : node) r, node_inv nd r → node_inv (pop_blocks nd n).1 r ∧ nd_db (pop_blocks nd n).1 = nd_db nd.
Proof.
  induction n as [|n IH]; intros nd r Hn; [done|]. cbn. destruct (pop_block nd) as [nd'|e] eqn:E; [|done].
  destruct (pop_block_inv _ _ _ Hn E) as [Hn' Hdb]. destruct (IH _ _ Hn') as [H1 H2]. split; [done|congruence].
Qed.

(** Popping a branch leads to its end. *)
Lemma pop_path (nd : node) r l c : node_inv nd r → path (fd_index (nd_db nd)) (nd_head nd) l c →
  pop_blocks nd (length l) = (Node (nd_db nd) c, Ok tt).
Proof.
  destruct nd as [db h]. cbn. intros Hn Hp. revert Hn. induction Hp as [h|h b l c Hb Hp IH]; intros Hn; [done|].
  cbn [length pop_blocks]. destruct (head_state_ok _ _ Hn) as (h' & Hh & Hk). cbn [nd_db nd_head] in Hk.
  pose proof (ni_db _ _ Hn) as Hinv. pose proof (fi_idx _ _ Hinv) as Hok. cbn in Hinv, Hok.
  assert (h' = b) as ->. { destruct Hk as [[-> ->]|Hk]; [by rewrite (root_not_in _ _ Hok (fi_linked _ _ Hinv)) in Hb|congruence]. }
  assert (pop_block (Node db h) = Ok (Node db (bs_previous b))) as Hpop.
  { unfold pop_block. rewrite Hh, bind_ok. cbn [get_block andb nd_db]. destruct (fd_index db !! bs_previous b) as [p|] eqn:Ep.
    - by destruct (Hok _ _ Ep) as [-> _].
    - rewrite (fi_root _ _ Hinv). destruct (fi_linked _ _ Hinv _ _ Hb) as [<-|[p Hp']]; [|congruence].
      by rewrite check_bind by (by apply bool_decide_eq_true_2). }
  rewrite Hpop. apply IH. by apply (pop_block_inv (Node db h)).
Qed.

(** ** Executing blocks *)

Context (apply_block : BS → BS → result BS).
Context (apply_keeps : ∀ h s s', apply_block h s = Ok s' → same_state s s' ∧ bs_is_valid s' = true).

(** Replacing the state of a child of the head by an executed one. *)
Lemma executed_child db r s s' : fd_inv db r → fd_index db !! bs_id s' = Some s → same_state s s' → bs_is_valid s' = true →
  executed db (bs_previous s) → executed (with_index db (<[bs_id s' := s']> (fd_index db))) (bs_id s').
Proof.
  intros Hinv Hs Hss Hval Hex l c b Hp Hb. pose proof (fi_idx _ _ Hinv) as Hok. pose proof (replace_idx_ok _ _ _ Hok Hs Hss) as Hok'.
  cbn in Hp. inversion Hp as [|? x l' ? Hx Hp']; subst; [by apply not_elem_of_nil in Hb|]. rewrite lookup_insert_eq in Hx. injection Hx as <-.
  apply elem_of_cons in Hb as [->|Hb]; [done|]. destruct (decide (bs_id b = bs_id s)) as [E|E].
  - destruct (path_blocks _ _ _ _ _ Hok' Hp' Hb) as [Hlk _]. rewrite E, <- (ss_id _ _ Hss), lookup_insert_eq in Hlk. by injection Hlk as <-.
  - apply (path_replaced _ s) in Hp'; [|done|done|done]. rewrite (ss_previous _ _ Hss) in Hp'. eapply Hex; [exact Hp'|].
    apply list_elem_of_fmap. exists b. split; [|done]. unfold replace_in. by rewrite bool_decide_eq_false_2.
Qed.

Lemma update_in_index db r s s' : fd_inv db r → fd_index db !! bs_id s' = Some s →
  update_block db s' = with_index db (<[bs_id s' := s']> (fd_index db)).
Proof.
  intros Hinv Hs. unfold update_block, is_root. rewrite (fi_root _ _ Hinv), Hs, bool_decide_eq_false_2; [done|].
  intros E. rewrite <- E, (root_not_in _ _ (fi_idx _ _ Hinv) (fi_linked _ _ Hinv)) in Hs. done.
Qed.

(** What a switch does to the database: it executes a block on its parent, advances the
    root towards the pending final block and removes blocks. *)
Inductive switch_step : fork_database (BS := BS) → fork_database (BS := BS) → Prop :=
| sw_execute db h s s' :
    fd_index db !! bs_id s = Some s → get_block db (bs_previous s) true = Some h → apply_block h s = Ok s' →
    switch_step db (update_block db s')
| sw_log db h db' : log_irreversible db h = Ok db' → switch_step db db'
| sw_remove db id db' : remove db id = Ok db' → switch_step db db'.

(** From one state of the node to a later one, with the root moved up. *)
Record moved (nd nd' : node (BS := BS)) r r' : Prop := {
  mv_inv : node_inv nd' r';
  mv_derived : derived (fd_index (nd_db nd)) (fd_index (nd_db nd'));
  mv_steps : rtc switch_step (nd_db nd) (nd_db nd');
  mv_keeps : keeps (fd_index (nd_db nd)) (fd_index (nd_db nd')) (bs_id r');
  mv_root : ∃ m, path (fd_index (nd_db nd)) (bs_id r') m (bs_id r) }.

Lemma moved_refl nd r : node_inv nd r → moved nd nd r r.
Proof. intros H. split; [done|by apply derived_sub|done|intros k l Hp; by exists l|exists []; constructor]. Qed.

Lemma moved_trans nd0 nd1 nd2 r0 r1 r2 : node_inv nd0 r0 → moved nd0 nd1 r0 r1 → moved nd1 nd2 r1 r2 → moved nd0 nd2 r0 r2.
Proof.
  intros H0 [H1 Hd1 Hs1 Hk1 [m1 Hm1]] [H2 Hd2 Hs2 Hk2 [m2 Hm2]].
  pose proof (fi_idx _ _ (ni_db _ _ H0)) as Hok0. pose proof (fi_idx _ _ (ni_db _ _ H1)) as Hok1.
  split; [done|by eapply derived_trans|by etransitivity|by eapply keeps_trans|].
  destruct (path_back _ _ _ _ _ Hok0 Hok1 Hd1 Hm2) as (m & Hm & _). exists (m ++ m1). by eapply path_app.
Qed.

Lemma advanced_root db r db' r' h : fd_inv db r → advanced db r db' r' h → ∃ m, path (fd_index db) (bs_id r') m (bs_id r).
Proof.
  intros Hinv Hav. destruct (av_root _ _ _ _ _ Hav) as [->|(Hr & _)]; [exists []; constructor|].
  eapply path_to_root; [apply Hinv|apply Hinv|done].
Qed.

(** Advancing the root moves a node. *)
Lemma advanced_moved db r db' r' h : node_inv (Node db h) r → log_irreversible db h = Ok db' → advanced db r db' r' h →
  moved (Node db h) (Node db' h) r r'.
Proof.
  intros Hn Hlog Hav. split; cbn; [by eapply advanced_inv|apply derived_sub, (av_sub _ _ _ _ _ Hav)|eapply rtc_once, sw_log; exact Hlog| |].
  - intros k l Hp. exists l. split; [by apply (av_keep _ _ _ _ _ Hav)|done].
  - eapply advanced_root; [apply Hn|done].
Qed.

(** Replacing the state of a child of the head by an executed one, which becomes the head. *)
Lemma executed_moved (nd : node) r h s s' : node_inv nd r → fd_index (nd_db nd) !! bs_id s = Some s → bs_previous s = nd_head nd →
  head_state nd = Ok h → apply_block h s = Ok s' → moved nd (Node (update_block (nd_db nd) s') (bs_id s)) r r ∧
  ∀ k l c, path (fd_index (nd_db nd)) k l c → ∃ l', path (fd_index (update_block (nd_db nd) s')) k l' c ∧ bs_id <$> l' = bs_id <$> l.
Proof.
  intros Hn Hs Hprev Hh Happ. pose proof Hn as [Hinv Hval Hlow Hhead Hex]. pose proof (fi_idx _ _ Hinv) as Hok.
  destruct (apply_keeps _ _ _ Happ) as [Hss Hv']. rewrite <- (ss_id _ _ Hss) in Hs |- *.
  assert (∀ k l c, path (fd_index (nd_db nd)) k l c →
    ∃ l', path (fd_index (update_block (nd_db nd) s')) k l' c ∧ bs_id <$> l' = bs_id <$> l) as Hpaths.
  { rewrite (update_in_index _ r _ _ Hinv Hs). intros k l c Hp. exists (replace_in s' <$> l). split; [by eapply path_replace|].
    rewrite <- list_fmap_compose. apply list_fmap_ext. intros i b _. cbn. unfold replace_in. by case_bool_decide. }
  split; [|done]. split; cbn [nd_db nd_head].
  - rewrite (update_in_index _ r _ _ Hinv Hs). split; cbn; [by eapply replace_inv|done|done|exists s'; right; apply lookup_insert_eq|].
    eapply executed_child; [done|done|done|done|by rewrite Hprev].
  - rewrite (update_in_index _ r _ _ Hinv Hs). by eapply derived_replace.
  - apply rtc_once. apply (sw_execute _ h s s'); [by rewrite <- (ss_id _ _ Hss)| |done].
    unfold head_state in Hh. rewrite Hprev. destruct (get_block _ _ _); congruence.
  - intros k l Hp. by apply Hpaths.
  - exists []. constructor.
Qed.

(** Executing a child of the head: it becomes the head, and what is built on it stays; only the execution of the block fails. *)
Lemma apply_and_commit_cases (nd : node) r id s : node_inv nd r → fd_index (nd_db nd) !! id = Some s → bs_previous s = nd_head nd →
  match apply_and_commit apply_block nd id with
  | Ok nd' => ∃ r', moved nd nd' r r' ∧ nd_head nd' = id ∧
      ∀ k l, path (fd_index (nd_db nd)) k l id → ∃ l', path (fd_index (nd_db nd')) k l' id ∧ bs_id <$> l' = bs_id <$> l
  | Err e => ∃ h, head_state nd = Ok h ∧ apply_block h s = Err e
  end.
Proof.
  intros Hn Hs Hprev. destruct (head_state_ok _ _ Hn) as (h & Hh & _). destruct (fi_idx _ _ (ni_db _ _ Hn) _ _ Hs) as [Hid _].
  unfold apply_and_commit. rewrite Hh, bind_ok, Hs. destruct (apply_block h s) as [s'|e] eqn:Happ; [|by exists h]. rewrite bind_ok.
  rewrite <- Hid in Hs |- *. destruct (executed_moved nd r h s s' Hn Hs Hprev Hh Happ) as [Hmv Hpaths].
  pose proof (mv_inv _ _ _ _ Hmv) as Hn1.
  destruct (log_irreversible_ok _ r (bs_id s) (ni_db _ _ Hn1) (ni_executed _ _ Hn1)) as (db' & r' & Hlog & Hav). cbn [nd_db nd_head] in Hlog, Hav.
  rewrite Hlog, bind_ok. exists r'. split; [eapply moved_trans; [done|done|by apply advanced_moved]|]. split; [done|].
  intros k l Hp. destruct (Hpaths _ _ _ Hp) as (l' & Hp' & Hids). exists l'. split; [|done]. by apply (av_path _ _ _ _ _ Hav).
Qed.

Definition thrown (e : exn) (id : sha256) : Prop := ∃ h s, bs_id s = id ∧ apply_block h s = Err e.

(** Executing a branch of the database, up to the end, to a break, or to the first block whose execution fails. *)
Lemma apply_branch_cases N ids : ∀ (nd : node) r l k, node_inv nd r → path (fd_index (nd_db nd)) N l (nd_head nd) → ids = bs_id <$> reverse l →
  let '(nd', n, o) := apply_branch apply_block nd ids k in
  ∃ r' rest done_, moved nd nd' r r' ∧ path (fd_index (nd_db nd')) N rest (nd_head nd') ∧ (∀ x, x ∈ rest → bs_id x ∈ bs_id <$> l) ∧
    path (fd_index (nd_db nd)) (nd_head nd') done_ (nd_head nd) ∧ length done_ = n ∧
    match o with
    | None => k ≠ None ∨ nd_head nd' = N
    | Some (id, e) => ∃ h s l0, rest = l0 ++ [s] ∧ bs_id s = id ∧ head_state nd' = Ok h ∧ apply_block h s = Err e
    end.
Proof.
  induction ids as [|id ids IH]; intros nd r l k Hn Hp Hids; cbn [apply_branch].
  { destruct l as [|s l _] using rev_ind; [|by rewrite reverse_snoc in Hids]. exists r, [], []. inversion Hp; subst.
    split_and!; [by apply moved_refl|exact Hp|by intros ? ?%not_elem_of_nil|exact Hp|done|by right]. }
  assert (∀ x, x ∈ l → bs_id x ∈ bs_id <$> l) as Hl by (intros x; apply list_elem_of_fmap_2).
  destruct (stop_now k) eqn:Ek.
  { exists r, l, []. split_and!; [by apply moved_refl|done|done|apply path_nil|done|left; by destruct k]. }
  destruct l as [|s l _] using rev_ind; [done|]. rewrite reverse_snoc, fmap_cons in Hids. injection Hids as -> ->.
  pose proof (fi_idx _ _ (ni_db _ _ Hn)) as Hok. pose proof Hp as Hp0. apply path_snoc in Hp as (Hp & Hs & Hprev); [|done].
  pose proof (apply_and_commit_cases nd r (bs_id s) s Hn Hs Hprev) as Hc.
  destruct (apply_and_commit apply_block nd (bs_id s)) as [nd1|e].
  2: { destruct Hc as (h & Hh & He). exists r, (l ++ [s]), []. split_and!; [by apply moved_refl|done|done|apply path_nil|done|]. by exists h, s, l. }
  destruct Hc as (r1 & Hmv1 & Hh1 & Hkeep). destruct (Hkeep _ _ Hp) as (l1 & Hp1 & Hids1). rewrite <- Hh1 in Hp1.
  specialize (IH nd1 r1 l1 (pred <$> k) (mv_inv _ _ _ _ Hmv1) Hp1). rewrite !fmap_reverse, Hids1 in IH. specialize (IH eq_refl).
  rewrite fmap_reverse. destruct (apply_branch apply_block nd1 _ _) as [[nd' n] o]. destruct IH as (r' & rest & done_ & Hmv & Hrest & Hsub & Hdone & Hlen & Ho).
  destruct (path_back _ _ _ _ _ Hok (fi_idx _ _ (ni_db _ _ (mv_inv _ _ _ _ Hmv1))) (mv_derived _ _ _ _ Hmv1) Hdone) as (d0 & Hd0 & Hdids).
  exists r', rest, (d0 ++ [s]). split_and!; [by eapply moved_trans|done| | | |].
  - intros x Hx. apply Hsub in Hx. rewrite fmap_app. apply elem_of_app. by left.
  - eapply path_app; [done|]. rewrite Hh1. econstructor; [done|]. rewrite Hprev. constructor.
  - apply (f_equal length) in Hdids. rewrite !length_fmap in Hdids. rewrite length_app. simpl. lia.
  - destruct o as [[i e]|]; [done|]. destruct Ho as [Hk|Hh]; [left; by destruct k|by right].
Qed.

Lemma reapply_branch ids : ∀ (nd : node) k, reapply apply_block nd ids k =
  let '(nd', _, o) := apply_branch apply_block nd ids k in (nd', match o with None => Ok tt | Some (_, e) => Err e end).
Proof.
  induction ids as [|id ids IH]; intros nd k; [done|]. cbn. destruct (stop_now k); [done|].
  destruct (apply_and_commit apply_block nd id) as [nd1|e]; [|done].
  rewrite IH. by destruct (apply_branch apply_block nd1 ids _) as [[nd' n] o].
Qed.

(** Popping more blocks than there are above the root. *)
Lemma pop_beyond (nd : node) r l n : node_inv nd r → path (fd_index (nd_db nd)) (nd_head nd) l (bs_id r) → (length l < n)%nat →
  pop_blocks nd n = (Node (nd_db nd) (bs_id r), Err block_validate_exception).
Proof.
  destruct nd as [db h]. cbn. intros Hn Hp. revert n Hn. remember (bs_id r) as c eqn:Hc. induction Hp as [h|h b l c Hb Hp IH]; intros n Hn Hlt.
  - subst h. destruct n as [|n]; [simpl in Hlt; lia|]. cbn [pop_blocks]. pose proof Hn as [Hinv Hval Hlow _ _]. cbn in Hinv, Hlow.
    pose proof (fi_idx _ _ Hinv) as Hok. destruct (head_state_ok _ _ Hn) as (x & Hx & [[_ ->]|Hk]); cbn [nd_db nd_head] in *;
      [|by rewrite (root_not_in _ _ Hok (fi_linked _ _ Hinv)) in Hk].
    unfold pop_block. rewrite Hx, bind_ok. cbn [get_block andb nd_db]. destruct (fd_index db !! bs_previous r) as [p|] eqn:Ep.
    { pose proof (above_root _ _ _ _ Hok (fi_linked _ _ Hinv) Ep). lia. }
    rewrite (fi_root _ _ Hinv), bool_decide_eq_false_2; [done|]. intros E. rewrite <- E in Hlow. lia.
  - destruct n as [|n]; [lia|]. cbn [length] in Hlt.
    pose proof (pop_path (Node db h) r [b] (bs_previous b) Hn ltac:(econstructor; [done|constructor])) as Hpop. cbn [length pop_blocks nd_db] in Hpop |- *.
    destruct (pop_block (Node db h)) as [nd1|e] eqn:E; [|done]. injection Hpop as ->.
    apply IH; [done| |lia]. by destruct (pop_block_inv _ _ _ Hn E).
Qed.

(** Removing a block that is not executed leaves the branches that do not have it. *)
Lemma removed_moved (nd : node) r id b : node_inv nd r → fd_index (nd_db nd) !! id = Some b → bs_previous b = nd_head nd →
  ∃ db, remove (nd_db nd) id = Ok db ∧ node_inv (Node db (nd_head nd)) r ∧ derived (fd_index (nd_db nd)) (fd_index db) ∧
    rtc switch_step (nd_db nd) db ∧ fd_index db !! id = None ∧
    ∀ k l c, path (fd_index (nd_db nd)) k l c → num_from_id c < num_from_id id → (∀ x, x ∈ l → bs_id x ≠ id) → path (fd_index db) k l c.
Proof.
  intros Hn Hb Hprev. destruct (remove_inv _ _ id (ni_db _ _ Hn)) as (db & Hrem & Hinv & Hiff). exists db.
  pose proof (fi_idx _ _ (ni_db _ _ Hn)) as Hok. destruct (Hok _ _ Hb) as [Hid _].
  assert (fd_index db ⊆ fd_index (nd_db nd)) as Hsub by (apply map_subseteq_spec; by intros k x [Hk _]%Hiff).
  split_and!; [done| |by apply derived_sub|apply rtc_once; by eapply sw_remove| |].
  - destruct Hn as [Hinv0 Hval Hlow [h Hh] Hex]. split; cbn; [done|done|done| |by eapply executed_sub].
    exists h. destruct Hh as [Hh|Hh]; [by left|right]. apply Hiff. split; [done|]. intros [l Hp].
    pose proof (path_num _ _ _ _ Hok Hp). pose proof (num_step _ _ _ Hok Hb). rewrite Hprev in *. lia.
  - destruct (fd_index db !! id) as [x|] eqn:E; [|done]. apply Hiff in E as [_ []]. exists []. constructor.
  - intros k l c Hp Hc. induction Hp as [|k x l c Hk Hp IH]; intros Hl; [constructor|]. econstructor; [|apply IH; [done|]; intros y Hy; apply Hl; by right].
    apply Hiff. split; [done|]. intros [l' Hp']. assert (path (fd_index (nd_db nd)) k (x :: l) c) as Hfull by (by econstructor).
    destruct (Nat.le_gt_cases (length (x :: l)) (length l')) as [Hle|Hlt].
    + destruct (path_split _ _ _ _ _ _ Hfull Hp' Hle) as (q & _ & Hq). pose proof (path_num _ _ _ _ Hok Hq). lia.
    + destruct (path_split _ _ _ _ _ _ Hp' Hfull ltac:(lia)) as (q & Heq & Hq). destruct q as [|y q].
      { rewrite app_nil_r in Heq. rewrite Heq in Hlt. lia. }
      inversion Hq as [|? ? ? ? Hy]; subst. assert (y = b) as -> by congruence. apply (Hl b); [|done]. rewrite Heq. apply elem_of_app. right. left.
Qed.

(** ** The switch *)

(** The blocks of the best branch are executed on the head. *)
Lemma switch_branches (nd : node) r best : node_inv nd r → head_impl (nd_db nd) false = Some best →
  ∃ new old c, fetch_branch_from (nd_db nd) (bs_id best) (nd_head nd) = Ok (new, old) ∧
    path (fd_index (nd_db nd)) (bs_id best) new c ∧ path (fd_index (nd_db nd)) (nd_head nd) old c ∧
    (∀ x y, x ∈ new → y ∈ old → bs_id x ≠ bs_id y) ∧
    pop_blocks nd (length old) = (Node (nd_db nd) c, Ok tt) ∧ node_inv (Node (nd_db nd) c) r ∧
    in_sync (Node (nd_db nd) c) old = true.
Proof.
  intros Hn Hbest. pose proof (ni_db _ _ Hn) as Hinv. pose proof (fi_idx _ _ Hinv) as Hok.
  destruct (head_best _ _ Hbest) as [[k Hk] _]. destruct (Hok _ _ Hk) as [Hid _]. destruct (ni_head _ _ Hn) as [h Hh].
  destruct (fetch_branch_from_ok (nd_db nd) r (bs_id best) best (nd_head nd) h Hinv) as (new & old & c & Hf & Hp1 & Hp2 & Hdis);
    [right; by rewrite Hid|done|]. pose proof (pop_path nd r old c Hn Hp2) as Hpop.
  exists new, old, c. split_and!; [done..| |].
  - pose proof (proj1 (pop_blocks_inv (length old) nd r Hn)) as H. by rewrite Hpop in H.
  - destruct old as [|x old _] using rev_ind; [done|]. unfold in_sync. rewrite last_snoc. apply path_snoc in Hp2 as (_ & _ & <-); [|done].
    by apply bool_decide_eq_true_2.
Qed.

(** How a switch ends after the execution of a block threw [e]: without a switch the head stays below the block; otherwise it is back where it was, or the way back ends
    before, because the node pauses, because a block of the old branch fails now, or because the root has moved past the fork. *)
Inductive back_outcome (brk : breaks) (nd nd' : node (BS := BS)) r' (e : exn) : result unit → Prop :=
| bo_stay l : path (fd_index (nd_db nd)) (nd_head nd') l (nd_head nd) → back_outcome brk nd nd' r' e (Err e)
| bo_back : nd_head nd' = nd_head nd → back_outcome brk nd nd' r' e (Err e)
| bo_break l : reapply_break brk ≠ None → path (fd_index (nd_db nd)) (nd_head nd) l (nd_head nd') → back_outcome brk nd nd' r' e (Err e)
| bo_again e' id l : thrown e' id → path (fd_index (nd_db nd)) (nd_head nd) l id → back_outcome brk nd nd' r' e (Err e')
| bo_cut : nd_head nd' = bs_id r' → ¬ (∃ l, path (fd_index (nd_db nd)) (nd_head nd) l (bs_id r')) →
    back_outcome brk nd nd' r' e (Err block_validate_exception).

(** How following the best branch ends: at the best block; at a break on the way to it; at a block whose execution was interrupted, which stays; at a block
    whose execution failed, which is removed with everything built on it. *)
Inductive switch_outcome (brk : breaks) (nd nd' : node (BS := BS)) r' best : result unit → Prop :=
| so_done : nd_head nd' = bs_id best → switch_outcome brk nd nd' r' best (Ok tt)
| so_break l : loop_break brk ≠ None → path (fd_index (nd_db nd)) (bs_id best) l (nd_head nd') → switch_outcome brk nd nd' r' best (Ok tt)
| so_stopped e s l : is_rethrown e = true → thrown e (bs_id s) → path (fd_index (nd_db nd)) (bs_id best) l (bs_id s) →
    fd_index (nd_db nd') !! bs_id s = Some s → bs_previous s = nd_head nd' → switch_outcome brk nd nd' r' best (Err e)
| so_failed e id l res : is_rethrown e = false → thrown e id → path (fd_index (nd_db nd)) (bs_id best) l id →
    fd_index (nd_db nd') !! id = None → back_outcome brk nd nd' r' e res → switch_outcome brk nd nd' r' best res.

(** A part of a path that was executed already. *)
Lemma executed_part idx N rest h done_ new c x m : idx_ok idx → path idx N rest h → path idx h done_ c → path idx N new c →
  path idx x m c → m ≠ [] → (∃ l, path idx h l x) → ∃ y, y ∈ new ∧ bs_id y = x.
Proof.
  intros Hok Hr Hd Hn Hm Hne [l Hl].
  assert (new = rest ++ done_) as ->.
  { eapply path_length; [exact Hn|by eapply path_app|]. pose proof (path_num _ _ _ _ Hok Hn). pose proof (path_num _ _ _ _ Hok (path_app _ _ _ _ _ _ Hr Hd)). lia. }
  assert (done_ = l ++ m) as ->.
  { eapply path_length; [exact Hd|by eapply path_app|]. pose proof (path_num _ _ _ _ Hok Hd). pose proof (path_num _ _ _ _ Hok (path_app _ _ _ _ _ _ Hl Hm)). lia. }
  destruct m as [|y m]; [done|]. inversion Hm as [|? ? ? ? Hy]; subst. exists y. split; [set_solver|]. by destruct (Hok _ _ Hy).
Qed.

Section Back.
Context (brk : breaks) (nd : node (BS := BS)) (r : BS) (Hn : node_inv nd r).
Context (new old : list BS) (c N : sha256).
Notation idx0 := (fd_index (nd_db nd)).
Context (Hnew : path idx0 N new c) (Hold : path idx0 (nd_head nd) old c) (Hdis : ∀ x y, x ∈ new → y ∈ old → bs_id x ≠ bs_id y).

(** A block between the fork and the best block is not on the old branch. *)
Lemma new_not_old x m lx : path idx0 x m c → m ≠ [] → path idx0 N lx x → ∃ y, y ∈ new ∧ bs_id y = x.
Proof using All.
  intros Hm Hne Hlx. pose proof (fi_idx _ _ (ni_db _ _ Hn)) as Hok.
  apply (executed_part idx0 N [] N new new c x m); [done|constructor|done|done|done|done|by exists lx].
Qed.

(** The old branch is still there if the root is not past the fork, and stays when the block that failed is removed. *)
Lemma old_branch_left (nd1 : node) r1 r0 q0 l0 s done_ db :
  moved (Node (nd_db nd) c) nd1 r0 r1 → path (fd_index (nd_db nd1)) N l0 (bs_id s) → fd_index (nd_db nd1) !! bs_id s = Some s → bs_previous s = nd_head nd1 →
  path idx0 (nd_head nd1) done_ c → path idx0 c q0 (bs_id r1) →
  (∀ k l z, path (fd_index (nd_db nd1)) k l z → num_from_id z < num_from_id (bs_id s) → (∀ x, x ∈ l → bs_id x ≠ bs_id s) → path (fd_index db) k l z) →
  ∃ old1, path (fd_index db) (nd_head nd) old1 c ∧ bs_id <$> old1 = bs_id <$> old.
Proof using All.
  intros [Hn1 Hd1 _ Hk1 _] Hrest Hs Hprev Hdone Hq0 Hleft. cbn [nd_db] in Hd1, Hk1.
  pose proof (fi_idx _ _ (ni_db _ _ Hn)) as Hok. pose proof (fi_idx _ _ (ni_db _ _ Hn1)) as Hok1.
  destruct (Hk1 (nd_head nd) (old ++ q0)) as (o1 & Ho1 & Hids); [by eapply path_app|].
  assert (∃ u t, o1 = u ++ t ∧ bs_id <$> u = bs_id <$> old) as (o & t & -> & Hoids).
  { exists (take (length old) o1), (drop (length old) o1). split; [by rewrite take_drop|].
    rewrite fmap_take, Hids, fmap_app, take_app_le by (by rewrite length_fmap). by rewrite take_ge by (by rewrite length_fmap). }
  apply path_app_inv in Ho1 as (z & Hz & _). destruct (path_back _ _ _ _ _ Hok Hok1 Hd1 Hz) as (z0 & Hz0 & Hzids).
  assert (z = c) as ->.
  { eapply (path_length idx0 (nd_head nd) z0 z old c); [done|done|]. apply (f_equal length) in Hzids, Hoids. rewrite !length_fmap in *. lia. }
  exists o. split; [|done]. apply Hleft; [done| |].
  - pose proof (path_num _ _ _ _ Hok Hdone). pose proof (num_step _ _ _ Hok1 Hs). rewrite Hprev in *. lia.
  - intros y Hy E. destruct (Hd1 _ _ Hs) as (s0 & Hs0 & Hss). destruct (path_back _ _ _ _ _ Hok Hok1 Hd1 Hrest) as (w & Hw & _).
    destruct (new_not_old (bs_id s) (s0 :: done_) w) as (x & Hx & Ex); [|done|done|].
    { econstructor; [done|]. by rewrite <- (ss_previous _ _ Hss), Hprev. }
    assert (bs_id y ∈ bs_id <$> old) as (y0 & Ey & Hy0)%list_elem_of_fmap by (rewrite <- Hoids; by apply list_elem_of_fmap_2).
    apply (Hdis x y0); [done|done|congruence].
Qed.

(** A root past the fork is not below the old head. *)
Lemma root_past_fork rest0 h done_ lr0 q rid : path idx0 N rest0 h → path idx0 h done_ c → path idx0 h lr0 rid → path idx0 rid q c → q ≠ [] →
  ¬ ∃ l, path idx0 (nd_head nd) l rid.
Proof using All.
  intros Hrest0 Hdone Hlr0 Hqp Hqne [l Hl]. pose proof (fi_idx _ _ (ni_db _ _ Hn)) as Hok.
  destruct (new_not_old rid q (rest0 ++ lr0)) as (x & Hx & Ex); [done|done|by eapply path_app|].
  assert (length l < length old)%nat as Hlo.
  { pose proof (path_num _ _ _ _ Hok Hl). pose proof (path_num _ _ _ _ Hok Hold). pose proof (path_num _ _ _ _ Hok Hqp).
    assert (0 < length q)%nat by (destruct q; [done|simpl; lia]). lia. }
  destruct (path_split _ _ _ _ _ _ Hl Hold ltac:(lia)) as (q2 & Heq & Hq2). rewrite Heq, length_app in Hlo. destruct q2 as [|y q2]; [simpl in Hlo; lia|].
  inversion Hq2 as [|? ? ? ? Hy]; subst. apply (Hdis x y Hx); [set_solver|]. symmetry. by destruct (Hok _ _ Hy).
Qed.

(** Going back after a failure: the block that failed is gone. *)
Lemma switch_back_cases (nd1 : node) r1 rest done_ e l0 s :
  moved (Node (nd_db nd) c) nd1 r r1 → path (fd_index (nd_db nd1)) N rest (nd_head nd1) → path idx0 (nd_head nd1) done_ c → rest = l0 ++ [s] →
  let '(nd', res) := switch_back apply_block brk nd1 old (length done_) (bs_id s) e in
  ∃ r', node_inv nd' r' ∧ derived idx0 (fd_index (nd_db nd')) ∧ rtc switch_step (nd_db nd) (nd_db nd') ∧
    fd_index (nd_db nd') !! bs_id s = None ∧ back_outcome brk nd nd' r' e res.
Proof using All.
  intros Hmv Hrest Hdone ->. pose proof Hmv as [Hn1 Hd1 Hst1 Hk1 [mr Hmr]]. cbn [nd_db] in Hd1, Hst1, Hk1, Hmr.
  pose proof (fi_idx _ _ (ni_db _ _ Hn)) as Hok. pose proof (fi_idx _ _ (ni_db _ _ Hn1)) as Hok1.
  destruct (path_back _ _ _ _ _ Hok Hok1 Hd1 Hrest) as (rest0 & Hrest0 & Hrids). apply path_snoc in Hrest as (Hrest & Hs & Hprev); [|done].
  destruct (removed_moved nd1 r1 (bs_id s) s Hn1 Hs Hprev) as (db & Hrem & Hn2 & Hd2 & Hst2 & Hgone & Hleft).
  unfold switch_back. rewrite Hrem.
  assert (derived idx0 (fd_index db)) as Hd02 by (by eapply derived_trans).
  assert (rtc switch_step (nd_db nd) db) as Hst02 by (by etransitivity).
  destruct (is_empty old) eqn:Eo; cbn [negb].
  { exists r1. split_and!; [done..|]. destruct old; [|done]. inversion Hold; subst. by eapply bo_stay. }
  (* the way down from the head *)
  destruct (ni_head _ _ Hn1) as [h1 Hh1]. assert (∃ lr, path (fd_index (nd_db nd1)) (nd_head nd1) lr (bs_id r1)) as [lr Hlr].
  { destruct Hh1 as [[-> _]|Hh1]; [exists []; constructor|]. eapply path_to_root; [done|apply (ni_db _ _ Hn1)|done]. }
  assert (num_from_id (nd_head nd1) < num_from_id (bs_id s)) as Hnum by (pose proof (num_step _ _ _ Hok1 Hs); rewrite Hprev in *; lia).
  assert (∀ k l z, path (fd_index (nd_db nd1)) k l z → (∀ y, y ∈ l → num_from_id (bs_id y) <= num_from_id (nd_head nd1)) →
    num_from_id z <= num_from_id (nd_head nd1) → path (fd_index db) k l z) as Hlow.
  { intros k l z Hp Hl Hz. apply Hleft; [done|lia|]. intros y Hy E. specialize (Hl y Hy). rewrite E in Hl. lia. }
  assert (path (fd_index db) (nd_head nd1) lr (bs_id r1)) as Hlr2.
  { apply Hlow; [done| |]. - intros y Hy. eapply path_le; [exact Hok1|exact Hlr|done]. - pose proof (path_num _ _ _ _ Hok1 Hlr). lia. }
  destruct (path_back _ _ _ _ _ Hok Hok1 Hd1 Hlr) as (lr0 & Hlr0 & Hlids). apply (f_equal length) in Hlids. rewrite !length_fmap in Hlids.
  destruct (Nat.le_gt_cases (length done_) (length lr)) as [Hle|Hgt].
  - (* back to the fork *)
    destruct (path_split _ _ _ _ _ _ Hdone Hlr0 ltac:(lia)) as (q0 & -> & Hq0).
    assert (∃ d1 q1, lr = d1 ++ q1 ∧ length d1 = length done_) as (d1 & q1 & -> & Hlen1).
    { exists (take (length done_) lr), (drop (length done_) lr). rewrite take_drop, length_take. split; [done|lia]. }
    apply path_app_inv in Hlr2 as (c2 & Hd1p & Hq1). destruct (path_back _ _ _ _ _ Hok (fi_idx _ _ (ni_db _ _ Hn2)) Hd02 Hd1p) as (d0 & Hd0 & Hd0ids).
    assert (c2 = c) as ->.
    { eapply (path_length idx0 (nd_head nd1) d0 c2 done_ c); [done|done|]. apply (f_equal length) in Hd0ids. rewrite !length_fmap in Hd0ids. lia. }
    rewrite <- Hlen1. rewrite (pop_path (Node db (nd_head nd1)) r1 d1 c Hn2 Hd1p). cbn [nd_db].
    assert (in_sync (Node db c) old = true) as ->.
    { clear -Hold Hok. destruct old as [|x o _] using rev_ind; [done|]. unfold in_sync. rewrite last_snoc. apply path_snoc in Hold as (_ & _ & <-); [|done].
      by apply bool_decide_eq_true_2. }
    assert (node_inv (Node db c) r1) as Hnc.
    { pose proof (proj1 (pop_blocks_inv (length d1) _ _ Hn2)) as H. by rewrite (pop_path _ r1 d1 c Hn2 Hd1p) in H. }
    destruct (old_branch_left nd1 r1 r q0 l0 s done_ db Hmv Hrest Hs Hprev Hdone Hq0 Hleft) as (old1 & Hold1 & Hoids).
    rewrite reapply_branch. pose proof (apply_branch_cases (nd_head nd) (bs_id <$> reverse old1) (Node db c) r1 old1 (reapply_break brk) Hnc Hold1 eq_refl) as Hre.
    rewrite fmap_reverse, Hoids, <- fmap_reverse in Hre.
    destruct (apply_branch apply_block (Node db c) _ _) as [[nd' k] o]. destruct Hre as (r' & rest' & done' & [Hn' Hd' Hst' _ _] & Hrest' & Hsub' & _ & _ & Ho).
    cbn [nd_db] in Hd', Hst'. assert (derived idx0 (fd_index (nd_db nd'))) as Hd0' by (by eapply derived_trans).
    destruct (path_back _ _ _ _ _ Hok (fi_idx _ _ (ni_db _ _ Hn')) Hd0' Hrest') as (w & Hw & _).
    assert (fd_index (nd_db nd') !! bs_id s = None) as Hg.
    { destruct (fd_index (nd_db nd') !! bs_id s) as [x|] eqn:E; [|done]. destruct (Hd' _ _ E) as (y & Hy & _). congruence. }
    destruct o as [[id' e']|]; exists r'; split_and!; [done|done|by etransitivity|done| |done|done|by etransitivity|done|].
    + destruct Ho as (h & x & lx & -> & <- & _ & He). apply path_snoc in Hrest' as (Hrest' & _); [|apply (ni_db _ _ Hn')].
      destruct (path_back _ _ _ _ _ Hok (fi_idx _ _ (ni_db _ _ Hn')) Hd0' Hrest') as (w' & Hw' & _).
      eapply bo_again; [|exact Hw']. by exists h, x.
    + destruct Ho as [Hbk|Hh]; [by eapply bo_break|by apply bo_back].
  - (* the root is past the fork *)
    rewrite (pop_beyond (Node db (nd_head nd1)) r1 lr (length done_) Hn2 Hlr2 Hgt). exists r1. split_and!; [|done|done|done|].
    + pose proof (proj1 (pop_blocks_inv (length done_) _ _ Hn2)) as H. by rewrite (pop_beyond _ r1 lr _ Hn2 Hlr2 Hgt) in H.
    + apply bo_cut; [done|]. destruct (path_split _ _ _ _ _ _ Hlr0 Hdone ltac:(lia)) as (q & Hq & Hqp).
      eapply root_past_fork; [exact Hrest0|exact Hdone|exact Hlr0|exact Hqp|]. intros ->. rewrite app_nil_r in Hq. rewrite Hq in Hgt. lia.
Qed.
End Back.

(** The block [s] of the branch of [N] executes on every executed state of the block before it. *)
Definition executes idx (N : sha256) : Prop :=
  ∀ h s b l, idx !! bs_id s = Some b → same_state b s → path idx N l (bs_id s) → bs_id h = bs_previous s → bs_is_valid h = true →
    ∃ s', apply_block h s = Ok s'.

Lemma head_valid (nd : node) r h : node_inv nd r → known (nd_db nd) r (nd_head nd) h → bs_is_valid h = true.
Proof.
  intros [Hinv Hval _ _ Hex] [[_ ->]|Hk]; [done|]. eapply (Hex [h]); [econstructor; [done|constructor]|left].
Qed.

(** The outcome of a switch, and its steps. *)
Lemma maybe_apply_blocks_ok brk (nd : node) r :
  node_inv nd r →
  let '(nd', res) := maybe_apply_blocks apply_block brk nd in
  ∃ r', node_inv nd' r' ∧ derived (fd_index (nd_db nd)) (fd_index (nd_db nd')) ∧ rtc switch_step (nd_db nd) (nd_db nd') ∧
    match head_impl (nd_db nd) false with
    | None => nd' = nd ∧ res = Ok tt
    | Some best => switch_outcome brk nd nd' r' best res
    end.
Proof.
  intros Hn. pose proof (fi_idx _ _ (ni_db _ _ Hn)) as Hok. unfold maybe_apply_blocks.
  destruct (head_impl (nd_db nd) false) as [best|] eqn:Hbest; [|exists r; split; [done|]; split; [by apply derived_sub|by split]].
  destruct (switch_branches nd r best Hn Hbest) as (new & old & c & -> & Hp1 & Hp2 & Hdis & -> & Hnc & ->).
  pose proof (apply_branch_cases (bs_id best) (bs_id <$> reverse new) (Node (nd_db nd) c) r new (loop_break brk) Hnc Hp1 eq_refl) as Hin.
  destruct (apply_branch apply_block _ _ _) as [[nd1 n] o]. destruct Hin as (r1 & rest & done_ & Hmv & Hrest & _ & Hdone & Hlen & Ho).
  pose proof Hmv as [Hn1 Hd1 Hst1 _ _]. cbn [nd_db nd_head] in *.
  destruct (path_back _ _ _ _ _ Hok (fi_idx _ _ (ni_db _ _ Hn1)) Hd1 Hrest) as (rest0 & Hrest0 & _).
  destruct o as [[id e]|].
  - destruct Ho as (h & s & l0 & -> & <- & _ & He). assert (thrown e (bs_id s)) as Hthrown by (by exists h, s).
    pose proof Hrest as Hr. apply path_snoc in Hr as (Hr & Hs & Hprev); [|apply (ni_db _ _ Hn1)].
    destruct (path_back _ _ _ _ _ Hok (fi_idx _ _ (ni_db _ _ Hn1)) Hd1 Hr) as (l & Hl & _).
    destruct (is_rethrown e) eqn:Ee; [exists r1; split_and!; [done..|]; by eapply so_stopped|].
    pose proof (switch_back_cases brk nd r Hn new old c (bs_id best) Hp1 Hp2 Hdis nd1 r1 (l0 ++ [s]) done_ e l0 s Hmv Hrest Hdone eq_refl) as Hback.
    rewrite Hlen in Hback. destruct (switch_back apply_block brk nd1 old n (bs_id s) e) as [nd' res].
    destruct Hback as (r' & Hn' & Hd' & Hst' & Hg & Hb). exists r'. split_and!; [done..|]. by eapply so_failed.
  - destruct nd1 as [db1 h1]. cbn [nd_db nd_head] in *.
    destruct (log_irreversible_ok db1 r1 h1 (ni_db _ _ Hn1) (ni_executed _ _ Hn1)) as (db' & r' & Hlog & Hav).
    rewrite Hlog. exists r'. split; [by eapply advanced_inv|]. cbn [nd_db nd_head].
    split; [eapply derived_trans; [done|]; apply derived_sub, (av_sub _ _ _ _ _ Hav)|].
    split; [etransitivity; [done|]; eapply rtc_once, sw_log; exact Hlog|].
    destruct Ho as [Hk|Hh]; [by eapply so_break|by apply so_done].
Qed.

(** C6: following the best branch is safe. Whatever the execution of blocks does, and wherever the loops end early, the chain head stays a block of the fork
    database with an executed branch down to the root, and every block of the database is one that was there. The call ends at the best
    block; or on the way to it, when it was told to; or with the exception of a block of the best branch whose execution was interrupted or lacked memory, which stays; or with that of
    one whose execution failed, which is removed. In the last case the head stays below that block if it had not switched branches, and otherwise returns to where it was, unless a
    block of the old branch fails now, the node pauses, or the root has moved past the fork. No walk through the tree, no check and no advance of the root fails
    otherwise. *)
Theorem fork_switch_correct brk (nd : node) r :
  node_inv nd r →
  let '(nd', res) := maybe_apply_blocks apply_block brk nd in
  ∃ r', node_inv nd' r' ∧ derived (fd_index (nd_db nd)) (fd_index (nd_db nd')) ∧
    match head_impl (nd_db nd) false with
    | None => nd' = nd ∧ res = Ok tt
    | Some best => switch_outcome brk nd nd' r' best res
    end.
Proof.
  intros Hn. pose proof (maybe_apply_blocks_ok brk nd r Hn) as H. destruct (maybe_apply_blocks apply_block brk nd) as [nd' res].
  destruct H as (r' & H1 & H2 & _ & H3). by exists r'.
Qed.

(** C17: when every block of the best branch executes and the loop is not ended early, the chain head becomes the best
    block of the fork database, from whatever branch it was on. *)
Theorem fork_switch_reaches_best_head (nd : node) r best :
  node_inv nd r → head_impl (nd_db nd) false = Some best → executes (fd_index (nd_db nd)) (bs_id best) →
  ∃ nd' r', maybe_apply_blocks apply_block no_breaks nd = (nd', Ok tt) ∧ nd_head nd' = bs_id best ∧ node_inv nd' r'.
Proof.
  intros Hn Hbest Hall. pose proof (fi_idx _ _ (ni_db _ _ Hn)) as Hok. unfold maybe_apply_blocks. rewrite Hbest.
  destruct (switch_branches nd r best Hn Hbest) as (new & old & c & -> & Hp1 & _ & _ & -> & Hnc & ->).
  pose proof (apply_branch_cases (bs_id best) (bs_id <$> reverse new) (Node (nd_db nd) c) r new None Hnc Hp1 eq_refl) as Hin. cbn [loop_break no_breaks].
  destruct (apply_branch apply_block _ _ None) as [[nd1 n] o]. destruct Hin as (r1 & rest & done_ & [Hn1 Hd1 _ _ _] & Hrest & _ & _ & _ & Ho).
  cbn [nd_db nd_head] in *. destruct o as [[id e]|].
  { destruct Ho as (h & s & l0 & -> & _ & Hh & He). apply path_snoc in Hrest as (Hr & Hs & Hprev); [|apply (ni_db _ _ Hn1)].
    destruct (path_back _ _ _ _ _ Hok (fi_idx _ _ (ni_db _ _ Hn1)) Hd1 Hr) as (l & Hl & _). destruct (Hd1 _ _ Hs) as (b & Hb & Hss).
    destruct (head_state_ok _ _ Hn1) as (h' & Hh' & Hk). assert (h' = h) as -> by congruence. destruct (known_num _ _ _ _ (ni_db _ _ Hn1) Hk) as (Hidh & _).
    destruct (Hall h s b l Hb Hss Hl) as [s' Hs']; [by rewrite Hidh|by eapply head_valid|congruence]. }
  destruct Ho as [Hk|Hh]; [done|]. destruct nd1 as [db1 h1]. cbn [nd_db nd_head] in *.
  destruct (log_irreversible_ok db1 r1 h1 (ni_db _ _ Hn1) (ni_executed _ _ Hn1)) as (db' & r' & -> & Hav).
  exists (Node db' h1), r'. split; [done|]. split; [done|by eapply advanced_inv].
Qed.

End Theory.

(** ** An example *)

(** The head is at the best block of the example database before [b3] was added. *)
Module SwitchExample.
Import ForkExample.
#[local] Existing Instances toy_like.

Definition mark (h s : toy) : result toy := Ok (bs_set_valid s).
Definition mark_but (bad : sha256) (h s : toy) : result toy :=
  if bool_decide (t_id s = bad) then Err block_validate_exception else mark h s.

Lemma mark_keeps h s s' : mark h s = Ok s' → same_state s s' ∧ bs_is_valid s' = true.
Proof. intros [= <-]. split; [by split|done]. Qed.

Lemma mark_but_keeps bad h s s' : mark_but bad h s = Ok s' → same_state s s' ∧ bs_is_valid s' = true.
Proof. unfold mark_but. case_bool_decide; [done|]. apply mark_keeps. Qed.

Definition start : node := Node d4 (id 3 1).

Ltac walk := let l := fresh in let c := fresh in let b := fresh in let Hp := fresh in let Hb := fresh in
  intros l c b Hp Hb;
  repeat (inversion Hp as [|? ? ? ? Hlk Hp']; subst; clear Hp;
    [by repeat (apply elem_of_cons in Hb as [->|Hb]; [reflexivity|]); apply not_elem_of_nil in Hb|];
    rename Hp' into Hp; vm_compute in Hlk; first [discriminate Hlk | injection Hlk as <-]; cbn [bs_previous] in Hp).

Lemma start_inv : node_inv start r.
Proof.
  split; [exact d4_inv|reflexivity|reflexivity|exists c2; right; vm_compute; reflexivity|].
  walk.
Qed.

(** [b2] and [b3] execute. *)
Lemma fork_switch_reaches_best_head_witness :
  ∃ nd' r', maybe_apply_blocks mark no_breaks start = (nd', Ok tt) ∧ nd_head nd' = id 4 0 ∧ node_inv nd' r'.
Proof.
  apply (fork_switch_reaches_best_head mark mark_keeps start r b3 start_inv); [vm_compute; reflexivity|].
  intros h s b l _ _ _ _ _. eexists. reflexivity.
Defined.

Lemma failed_switch : nd_head (maybe_apply_blocks (mark_but (id 4 0)) no_breaks start).1 = id 3 1 ∧
  (maybe_apply_blocks (mark_but (id 4 0)) no_breaks start).2 = Err block_validate_exception.
Proof. vm_compute. split; reflexivity. Qed.

(** [b3] does not execute: the head goes back. *)
Lemma fork_switch_correct_witness :
  ∃ nd' r', maybe_apply_blocks (mark_but (id 4 0)) no_breaks start = (nd', Err block_validate_exception) ∧ nd_head nd' = id 3 1 ∧ node_inv nd' r'.
Proof.
  pose proof (fork_switch_correct (mark_but (id 4 0)) (mark_but_keeps (id 4 0)) no_breaks start r start_inv) as H. pose proof failed_switch as [H1 H2].
  destruct (maybe_apply_blocks (mark_but (id 4 0)) no_breaks start) as [nd' res]. cbn [fst snd] in H1, H2. destruct H as (r' & Hn & _).
  exists nd', r'. split; [rewrite H2; reflexivity|]. split; [exact H1|exact Hn].
Defined.

End SwitchExample.
