(* ===== verification/BlockAcceptance.v ===== *)
(** * Accepting and executing blocks: the block checks of [controller.cpp]

    The invariants of received blocks, the creation of their states with the
    verification of the certificate they carry, the integration of that
    certificate into the state of the certified block, the choice of the
    certificate a producer puts into a block, and the validation root checked when
    a block is executed. The execution of transactions yields the action root,
    an argument here; votes are cast in [SafetyFile.v]. *)

From stdpp Require Import gmap.
From S2P Require Import Prelude Sha256 Merkle FinalityCore OrderedDiff ProducerSchedule FinalizerPolicy Qc BlockHeaderState BlockState ForkDatabase.
Open Scope Z_scope.

Section Acceptance.
Context {bls : Bls} {codec : ExtensionCodec} {digests : Digests codec} {bcodec : BlockExtensionCodec bls codec}.

(** ** Block states in the fork database *)

Definition set_valid (s : block_state) : block_state :=
  BlockState (b_bhs s) (b_block s) (b_strong_digest s) (b_weak_digest s) (b_aggregating_qc s) (b_valid s) true
    (b_action_mroot s) (b_base_digest s).

(** The timestamp of the block of the latest certificate is always defined on the
    states of a branch; the value in the other case is not used. *)
#[export] Instance block_state_like : BlockStateLike block_state := {|
  bs_id s := s_block_id (b_bhs s);
  bs_previous s := h_previous (s_header (b_bhs s));
  bs_block_num s := s_block_num (b_bhs s);
  bs_timestamp s := s_timestamp (b_bhs s);
  bs_best s := (match latest_qc_block_timestamp (s_core (b_bhs s)) with Ok t => t | Err _ => 0 end, s_timestamp (b_bhs s));
  bs_is_valid s := b_validated s;
  bs_set_valid := set_valid;
  bs_features s := s_activated_protocol_features (b_bhs s);
  bs_new_features s :=
    match find_extension 0 (s_header_exts (b_bhs s)) with Some (protocol_feature_activation fs) => Some fs | _ => None end;
  bs_qc_claim s := c ← extract_qc_claim s; Ok (Some c);
  bs_claimed_final s :=
    c ← latest_qc_claim (s_core (b_bhs s));
    r ← get_block_reference (s_core (b_bhs s)) (claim_block_num c);
    Ok (block_id r) |}.

Definition fork_db : Type := fork_database (BS := block_state).

(** ** The invariants of received blocks *)

Definition verify_basic_proper_block_invariants (b : signed_block) (prev : block_state) : result (option qc_t) :=
  assert_ (is_proper_svnn_block (sb_header b));;
  block_exts ← validate_and_extract_extensions b;
  finality_ext ← extract_header_extension (sb_header b) 2;
  match finality_ext with
  | None => Err block_validate_exception
  | Some (finality_extension_ext f_ext) =>
    let new_qc_claim := fe_qc_claim f_ext in
    check (negb (is_legacy_block (s_header (b_bhs prev)))) block_validate_exception;;
    match find_extension 2 (s_header_exts (b_bhs prev)) with
    | None => Err assert_failed
    | Some (finality_extension_ext prev_f_ext) =>
      let prev_qc_claim := fe_qc_claim prev_f_ext in
      check (claim_block_num prev_qc_claim <=? claim_block_num new_qc_claim) invalid_qc_claim;;
      check (claim_block_num new_qc_claim <=? s_block_num (b_bhs prev)) invalid_qc_claim;;
      let qc_ext := find_block_extension 3 block_exts in
      let present := match qc_ext with Some _ => true | None => false end in
      if (claim_block_num new_qc_claim =? claim_block_num prev_qc_claim)
         && Bool.eqb (is_strong_qc new_qc_claim) (is_strong_qc prev_qc_claim)
      then check (negb present) invalid_qc_claim;; Ok None
      else
        (if claim_block_num new_qc_claim =? claim_block_num prev_qc_claim
         then check (is_strong_qc new_qc_claim) invalid_qc_claim else Ok tt);;
        check present block_validate_exception;;
        match qc_ext with
        | Some (quorum_certificate_extension qc_proof) =>
          check (qc_block_num qc_proof =? claim_block_num new_qc_claim) block_validate_exception;;
          check (Bool.eqb (qc_is_strong qc_proof) (is_strong_qc new_qc_claim)) block_validate_exception;;
          (if b_validated prev then
             assert_ (match b_valid prev with Some _ => true | None => false end);;
             computed ← get_finality_mroot_claim prev new_qc_claim;
             check (bool_decide (computed = h_action_mroot (sb_header b))) block_validate_exception
           else Ok tt);;
          Ok (Some qc_proof)
        | _ => Err undefined_behaviour
        end
    | Some _ => Err undefined_behaviour
    end
  | Some _ => Err undefined_behaviour
  end.

Definition verify_legacy_block_invariants (b : signed_block) (prev_header : block_header) : result unit :=
  assert_ (is_legacy_block (sb_header b));;
  block_exts ← validate_and_extract_extensions b;
  check (match find_block_extension 3 block_exts with Some _ => false | None => true end) block_validate_exception;;
  check (negb (is_proper_svnn_block (sb_header b))) block_validate_exception;;
  check (is_legacy_block prev_header) block_validate_exception.

(** [prev] is given by the header and the header extensions of its legacy state. *)
Definition verify_transition_block_invariants (b : signed_block) (prev_header : block_header)
    (prev_header_exts : list (Z * block_header_extension)) : result unit :=
  assert_ (negb (is_legacy_block (sb_header b)) && negb (is_proper_svnn_block (sb_header b)));;
  block_exts ← validate_and_extract_extensions b;
  check (match find_block_extension 3 block_exts with Some _ => false | None => true end) block_validate_exception;;
  check (negb (is_proper_svnn_block prev_header)) block_validate_exception;;
  finality_ext ← extract_header_extension (sb_header b) 2;
  match finality_ext with
  | None => Err assert_failed
  | Some (finality_extension_ext f_ext) =>
    check (match new_proposer_policy_diff f_ext with Some _ => false | None => true end) block_validate_exception;;
    match find_extension 2 prev_header_exts with
    | Some (finality_extension_ext prev_f_ext) =>
      check ((claim_block_num (fe_qc_claim f_ext) =? claim_block_num (fe_qc_claim prev_f_ext))
             && Bool.eqb (is_strong_qc (fe_qc_claim f_ext)) (is_strong_qc (fe_qc_claim prev_f_ext))) invalid_qc_claim;;
      check (match new_finalizer_policy_diff f_ext with Some _ => false | None => true end) block_validate_exception
    | Some _ => Err undefined_behaviour
    | None =>
      check ((claim_block_num (fe_qc_claim f_ext) =? h_block_num (sb_header b))
             && negb (is_strong_qc (fe_qc_claim f_ext))) invalid_qc_claim;;
      match new_finalizer_policy_diff f_ext with
      | None => Err block_validate_exception
      | Some d =>
        match policy_apply_diff (FinalizerPolicy 0 0 []) d with
        | Ok genesis_policy => check (generation genesis_policy =? 1) block_validate_exception
        | Err _ => Err block_validate_exception
        end
      end
    end
  | Some _ => Err undefined_behaviour
  end.

(** ** The state of a received block *)

Context (recover : signature_type → sha256 → result public_key_type).
Context (validator : Z → gset sha256 → list sha256 → result unit).

Definition calculate_trx_merkle (trxs : list sha256) : result sha256 := calculate_merkle hash_bytes trxs.

(** The checks of [create_block_state_i]; the exceptions of the certificate, which is verified
    in another thread, are raised last. *)
Definition accept_block (id : sha256) (b : signed_block) (prev : block_state) : result block_state :=
  assert_ (is_proper_svnn_block (sb_header b));;
  qc ← verify_basic_proper_block_invariants b prev;
  trx_mroot ← calculate_trx_merkle (sb_transactions b);
  check (bool_decide (h_transaction_mroot (sb_header b) = trx_mroot)) block_validate_exception;;
  s ← block_state_from_block recover validator (b_bhs prev) b false;
  check (bool_decide (id = s_block_id (b_bhs s))) block_validate_exception;;
  match qc with Some qc => b_verify_qc prev qc | None => Ok tt end;;
  Ok s.

(** The certificate in a block is given to the state of the certified block, if it is better. *)
Definition integrate_received_qc_to_block (db : fork_db) (s : block_state) : result fork_db :=
  if contains_extension (b_block s) 3 then
    e ← extract_extension (b_block s) 3;
    match e with
    | Some (quorum_certificate_extension received_qc) =>
      claimed ← search_on_branch db (bs_previous s) (qc_block_num received_qc) true;
      match claimed with
      | None => Ok db
      | Some claimed_bsp =>
        '(claimed_bsp, _) ← b_set_received_qc claimed_bsp received_qc;
        Ok (update_block db claimed_bsp)
      end
    | _ => Err undefined_behaviour
    end
  else Ok db.

Definition create_block_state_i (db : fork_db) (id : sha256) (b : signed_block) (prev : block_state)
    : result (fork_db * fork_db_add_t * block_state) :=
  s ← accept_block id b prev;
  db ← integrate_received_qc_to_block db s;
  match add db s true with
  | (db, Ok r) => Ok (db, r, s)
  | (_, Err e) => Err e
  end.

(** For a proper Savanna block while the Savanna fork database is in use. *)
Definition create_block_handle (db : fork_db) (id : sha256) (b : signed_block)
    : result (fork_db * fork_db_add_t * option block_state) :=
  match get_block db id true with
  | Some s => Ok (db, duplicate_block, Some s)
  | None =>
    match get_block db (h_previous (sb_header b)) true with
    | None => Ok (db, failure, None)
    | Some prev => '(db, r, s) ← create_block_state_i db id b prev; Ok (db, r, Some s)
    end
  end.

(** ** Producing *)

(** The loop of [get_qc_data] over the branch of the parent. *)
Fixpoint get_qc_data_loop (parent : block_state) (branch : list block_state) : result (option qc_t * qc_claim_t) :=
  match branch with
  | [] => c ← latest_qc_claim (s_core (b_bhs parent)); Ok (None, c)
  | s :: branch =>
    qc ← b_get_best_qc s;
    match qc with
    | None => get_qc_data_loop parent branch
    | Some qc =>
      check (qc_block_num qc <=? num_from_id (s_block_id (b_bhs parent))) block_validate_exception;;
      needed ← is_needed (b_bhs parent) (to_qc_claim qc);
      if (needed : bool) then Ok (Some qc, to_qc_claim qc)
      else c ← latest_qc_claim (s_core (b_bhs parent)); Ok (None, c)
    end
  end.

Definition get_qc_data (db : fork_db) (parent : block_state) : result (option qc_t * qc_claim_t) :=
  branch ← fetch_branch db (s_block_id (b_bhs parent)) 4294967295;
  get_qc_data_loop parent branch.

(** ** Executing *)

(** The part of [assemble_block] for a block being validated that sets its validation tree. *)
Definition set_validation (parent s : block_state) (bhs : block_header_state) (action_mroot : sha256) : result block_state :=
  match b_valid s with
  | Some _ => Ok s
  | None =>
    v ← new_valid parent bhs action_mroot (b_strong_digest s);
    Ok (BlockState (b_bhs s) (b_block s) (b_strong_digest s) (b_weak_digest s) (b_aggregating_qc s) (Some v)
          (b_validated s) action_mroot (b_base_digest s))
  end.

(** The check of [apply_block] on the finality root of an executed block. *)
Definition check_finality_mroot (s : block_state) : result unit :=
  claim ← latest_qc_claim (s_core (b_bhs s));
  genesis ← is_genesis_block_num (s_core (b_bhs s)) (claim_block_num claim);
  actual ← (if (genesis : bool) then Ok sha256_zero else get_validation_mroot s (claim_block_num claim));
  check (bool_decide (finality_mroot (b_bhs s) = actual)) block_validate_exception.

(** Voting is considered only on a block whose certified ancestor was executed. *)
Definition consider_voting (db : fork_db) (s : block_state) : result bool :=
  claim ← latest_qc_claim (s_core (b_bhs s));
  if 0 <? claim_block_num claim then
    r ← get_block_reference (s_core (b_bhs s)) (claim_block_num claim);
    validated_block_exists db (bs_previous s) (block_id r)
  else Ok false.

End Acceptance.
