(* ===== verification/BlockAcceptanceTheory.v ===== *)
(** * Theorems on the acceptance of blocks

    Every claim on a branch of accepted blocks is backed by a certificate that was
    verified against the policies in force at the certified block, and the
    check of the finality root on execution is that of the root the parent gives. *)

From stdpp Require Import gmap.
From S2P Require Import Prelude Sha256 Merkle FinalityCore BlockTree OrderedDiff ProducerSchedule FinalizerPolicy Qc BlockHeaderState BlockHeaderTheory QcTheory BlockState BlockStateTheory ForkDatabase BlockAcceptance.
Open Scope Z_scope.

Section Theory.
Context {bls : Bls} {codec : ExtensionCodec} {digests : Digests codec} {bcodec : BlockExtensionCodec bls codec}.
Context (recover : signature_type → sha256 → result public_key_type).
Context (validator : Z → gset sha256 → list sha256 → result unit).

(** ** Extensions read one by one or all at once *)

Lemma find_entry_extract exts first lb res id d e : extract_extensions exts first lb = Ok res →
  find_entry id exts = Some d → extract id d = Ok (Some e) → find_extension id res = Some e.
Proof.
  revert first lb res. induction exts as [|[i d0] exts IH]; intros first lb res Hx Hf He; [done|]. cbn in Hx, Hf.
  apply bind_inv in Hx as ([] & _ & Hx). apply bind_inv in Hx as (o & Ho & Hx). destruct o as [e0|]; [|done].
  apply bind_inv in Hx as ([] & _ & Hx). apply bind_inv in Hx as (rest & Hrest & Hx). injection Hx as <-. cbn.
  destruct (id <? i); [done|]. destruct (Z.eqb_spec i id) as [->|]; [|by eapply IH].
  injection Hf as ->. rewrite He in Ho. by injection Ho as ->.
Qed.

Lemma extract_header_extension_agrees h exts id e : validate_and_extract_header_extensions h = Ok exts →
  extract_header_extension h id = Ok (Some e) → find_extension id exts = Some e.
Proof.
  intros Hx H. unfold extract_header_extension in H. apply bind_inv in H as ([] & _ & H).
  destruct (find_entry id (h_header_extensions h)) as [d|] eqn:Ef; [|done]. apply bind_inv in H as (o & Ho & H).
  destruct o as [e'|]; [|done]. injection H as <-. by eapply find_entry_extract.
Qed.

(** ** What the checks establish *)

Lemma qc_claim_ext (a b : qc_claim_t) : claim_block_num a = claim_block_num b → is_strong_qc a = is_strong_qc b → a = b.
Proof. destruct a, b; cbn. by intros -> ->. Qed.

Lemma next_from_header_inv p h s : next_from_header validator p h = Ok s →
  ∃ exts features f, validate_and_extract_header_extensions h = Ok exts ∧
    find_extension 2 exts = Some (finality_extension_ext f) ∧ h_previous h = s_block_id p ∧
    finish_next p h exts features f = Ok s ∧ s_header_exts s = exts ∧ s_header s = h.
Proof.
  intros H. unfold next_from_header in H. apply bind_inv in H as (producer & _ & H). apply bind_inv in H as ([] & Hp & H).
  apply check_inv, bool_decide_eq_true in Hp. apply bind_inv in H as ([] & _ & H). apply bind_inv in H as ([] & _ & H).
  apply bind_inv in H as (exts & Hx & H). apply bind_inv in H as (fs & _ & H). apply bind_inv in H as (f & Hf & H).
  apply bind_inv in H as ([] & _ & H). exists exts, fs, f. split; [done|].
  split; [destruct (find_extension 2 exts) as [[]|]; [done|done|by injection Hf as ->|done]|]. split; [done|]. split; [done|].
  by apply finish_next_exts in H.
Qed.

Definition claim_in (exts : list (Z * block_header_extension)) (claim : qc_claim_t) : Prop :=
  ∃ f, find_extension 2 exts = Some (finality_extension_ext f) ∧ fe_qc_claim f = claim.

Lemma verify_proper_inv b prev o exts claim prev_claim :
  verify_basic_proper_block_invariants b prev = Ok o → claim_in (s_header_exts (b_bhs prev)) prev_claim →
  validate_and_extract_header_extensions (sb_header b) = Ok exts → claim_in exts claim →
  (o = None ∧ claim = prev_claim) ∨
  ∃ qc, o = Some qc ∧ to_qc_claim qc = claim ∧ claim_block_num prev_claim <= claim_block_num claim <= s_block_num (b_bhs prev).
Proof.
  intros H (pf & Hpf & <-) Hx (f & Hf & <-). unfold verify_basic_proper_block_invariants in H.
  apply bind_inv in H as ([] & _ & H). apply bind_inv in H as (bexts & _ & H). apply bind_inv in H as (fe & Hfe & H).
  destruct fe as [fe|]; [|done]. pose proof (extract_header_extension_agrees _ _ _ _ Hx Hfe) as Heq. rewrite Hf in Heq.
  injection Heq as <-. cbv zeta in H. apply bind_inv in H as ([] & _ & H). rewrite Hpf in H.
  apply bind_inv in H as ([] & Hge & H). apply bind_inv in H as ([] & Hle & H). apply check_inv, Z.leb_le in Hge, Hle.
  destruct ((claim_block_num (fe_qc_claim f) =? claim_block_num (fe_qc_claim pf)) &&
    eqb (is_strong_qc (fe_qc_claim f)) (is_strong_qc (fe_qc_claim pf))) eqn:Esame.
  - apply bind_inv in H as ([] & _ & H). injection H as <-. left. split; [done|].
    apply andb_true_iff in Esame as [E1%Z.eqb_eq E2%eqb_prop]. by apply qc_claim_ext.
  - right. apply bind_inv in H as ([] & _ & H). apply bind_inv in H as ([] & _ & H).
    destruct (find_block_extension 3 bexts) as [[|qc]|]; [done| |done]. apply bind_inv in H as ([] & Hn & H).
    apply bind_inv in H as ([] & Hs & H). apply bind_inv in H as ([] & _ & H). injection H as <-. exists qc. split; [done|].
    apply check_inv, Z.eqb_eq in Hn. apply check_inv, eqb_prop in Hs. split; [|done].
    by apply qc_claim_ext.
Qed.

Lemma accept_block_inv id b p s : accept_block recover validator id b p = Ok s →
  ∃ o, verify_basic_proper_block_invariants b p = Ok o ∧ next_from_header validator (b_bhs p) (sb_header b) = Ok (b_bhs s) ∧
    compute_finality_digest (b_bhs s) = Ok (b_strong_digest s) ∧
    match o with Some qc => b_verify_qc p qc = Ok tt | None => True end.
Proof.
  intros H. unfold accept_block in H. apply bind_inv in H as ([] & _ & H). apply bind_inv in H as (o & Ho & H).
  apply bind_inv in H as (m & _ & H). apply bind_inv in H as ([] & _ & H). apply bind_inv in H as (s' & Hs & H).
  apply bind_inv in H as ([] & _ & H). apply bind_inv in H as ([] & Hq & H). injection H as ->. exists o. split; [done|].
  unfold block_state_from_block in Hs. apply bind_inv in Hs as ([] & _ & Hs). apply bind_inv in Hs as (bhs & Hn & Hs).
  unfold block_state_of in Hs. apply bind_inv in Hs as (strong & Hd & Hs). apply bind_inv in Hs as (agg & _ & Hs).
  injection Hs as <-. cbn. split; [done|]. split; [done|]. by destruct o.
Qed.

(** ** Branches of accepted blocks *)

(** Votes, received certificates and the execution of a block change its state
    outside the header state and the digest. *)
Definition same_block (s s' : block_state) : Prop := b_bhs s' = b_bhs s ∧ b_strong_digest s' = b_strong_digest s.

(** From a legacy block that passed the checks of a Savanna genesis block. *)
Inductive accepted_chain : list block_state → block → Prop :=
| ac_genesis b prev_header prev_exts features schedule exts am ok s :
    verify_transition_block_invariants b prev_header prev_exts = Ok tt → find_extension 2 prev_exts = None →
    validate_and_extract_header_extensions (sb_header b) = Ok exts →
    create_if_genesis_block (calculate_id (sb_header b)) (sb_header b) features schedule exts b (Some am) ok = Ok s →
    accepted_chain [s] (Genesis (b_make_block_ref s))
| ac_transition p l B b am s claim :
    accepted_chain (p :: l) B → s_block_num (b_bhs p) < u32_max →
    verify_transition_block_invariants b (s_header (b_bhs p)) (s_header_exts (b_bhs p)) = Ok tt →
    create_transition_block recover validator p b false am = Ok s → claim_in (s_header_exts (b_bhs s)) claim →
    accepted_chain (s :: p :: l) (Child B (b_make_block_ref s) claim)
| ac_proper p l B id b s claim :
    accepted_chain (p :: l) B → s_block_num (b_bhs p) < u32_max →
    accept_block recover validator id b p = Ok s → claim_in (s_header_exts (b_bhs s)) claim →
    accepted_chain (s :: p :: l) (Child B (b_make_block_ref s) claim)
| ac_update L L' B : accepted_chain L B → Forall2 same_block L L' → accepted_chain L' B.

(** A certificate for block [sC] with the claim of block [A], verified against the policies of [sC]. *)
Definition certifies (sC : block_state) (qc : qc_t) (A : block) : Prop :=
  s_block_num (b_bhs sC) = claim_num A ∧ to_qc_claim qc = QcClaim (claim_num A) (claim_strong A) ∧
  verify_basic qc (policies_at sC) = Ok tt ∧ qc_verify_signatures qc (policies_at sC) = Ok tt.

Definition claim_backed (L : list block_state) (B A : block) : Prop :=
  claim_num A = num (root B) ∧ claim_strong A = false ∨ ∃ sC qc, sC ∈ L ∧ certifies sC qc A.

Record accepted_ok (L : list block_state) (B : block) : Prop := {
  ak_headers : header_chain (entry <$> L) B;
  ak_exts : ∀ s l, L = s :: l → validate_and_extract_header_extensions (s_header (b_bhs s)) = Ok (s_header_exts (b_bhs s));
  ak_claim : ∀ s l, L = s :: l → claim_in (s_header_exts (b_bhs s)) (QcClaim (claim_num B) (claim_strong B));
  ak_backed : ∀ A, A = B ∨ ancestor A B → claim_backed L B A }.

Lemma same_block_entries L L' : Forall2 same_block L L' → entry <$> L' = entry <$> L ∧ policies_at <$> L' = policies_at <$> L.
Proof.
  induction 1 as [|s s' L L' [H1 H2] _ [IH1 IH2]]; [done|]. cbn. rewrite IH1, IH2.
  unfold entry, b_make_block_ref, policies_at. by rewrite H1, H2.
Qed.

Lemma same_block_update L L' B : Forall2 same_block L L' → accepted_ok L B → accepted_ok L' B.
Proof.
  intros HL [Hh Hx Hc Hb]. pose proof (same_block_entries _ _ HL) as [He Hp]. split.
  - by rewrite He.
  - intros s l ->. inversion HL as [|s0 ? l0 ? [H1 _] _]; subst. rewrite H1. by eapply Hx.
  - intros s l ->. inversion HL as [|s0 ? l0 ? [H1 _] _]; subst. rewrite H1. by eapply Hc.
  - intros A HA. destruct (Hb A HA) as [|(sC & qc & Hin & Hq)]; [by left|right].
    apply list_elem_of_lookup in Hin as [i Hi]. destruct (Forall2_lookup_l _ _ _ _ _ HL Hi) as (s' & Hi' & H1 & H2).
    exists s', qc. split; [by eapply list_elem_of_lookup_2|].
    unfold certifies, policies_at in *. by rewrite H1, H2.
Qed.

(** A block whose claim is that of its parent, or is certified. *)
Lemma extend_accepted p l B s claim features f :
  accepted_ok (p :: l) B → s_block_num (b_bhs p) < u32_max →
  validate_and_extract_header_extensions (s_header (b_bhs s)) = Ok (s_header_exts (b_bhs s)) →
  h_previous (s_header (b_bhs s)) = s_block_id (b_bhs p) →
  finish_next (b_bhs p) (s_header (b_bhs s)) (s_header_exts (b_bhs s)) features f = Ok (b_bhs s) → fe_qc_claim f = claim →
  compute_finality_digest (b_bhs s) = Ok (b_strong_digest s) → claim_in (s_header_exts (b_bhs s)) claim →
  (claim = QcClaim (claim_num B) (claim_strong B) ∨
   ∃ sC qc, sC ∈ p :: l ∧ certifies sC qc (Child B (b_make_block_ref s) claim)) →
  accepted_ok (s :: p :: l) (Child B (b_make_block_ref s) claim).
Proof.
  intros [Hh _ Hc Hb] Hmax Hx Hprev Hfin <- Hd Hcl Hcase. split.
  - cbn. eapply hc_next; [exact Hh|done|done|exact Hfin|by apply make_block_ref_cached].
  - by intros s' l' [= <- <-].
  - intros s' l' [= <- <-]. destruct Hcl as (f' & Hf' & He). exists f'. split; [done|]. rewrite He. by destruct (fe_qc_claim f).
  - assert (∀ A, claim_backed (p :: l) B A → claim_backed (s :: p :: l) (Child B (b_make_block_ref s) (fe_qc_claim f)) A) as Hlift.
    { intros A [|(sC & qc & Hin & Hq)]; [by left|right; exists sC, qc; split; [by right|done]]. }
    intros A [->|[->|Ha]]; [|apply Hlift, Hb; by left|apply Hlift, Hb; by right].
    destruct Hcase as [He|(sC & qc & Hin & Hq)]; [|right; exists sC, qc; split; [by right|done]].
    destruct (Hlift B (Hb B (or_introl eq_refl))) as [[H1 H2]|(sC & qc & Hin & Hq)]; [left|right; exists sC, qc].
    + cbn [claim_num claim_strong]. by rewrite He.
    + split; [done|]. unfold certifies in *. cbn [claim_num claim_strong]. by rewrite He.
Qed.

(** The policies of the claimed block are those the certificate was verified with. *)
Lemma verified_certifies p l B qc r claim : header_chain (entry <$> p :: l) B → claim_num B <= claim_block_num claim <= num B →
  to_qc_claim qc = claim → b_verify_qc p qc = Ok tt → ∃ sC, sC ∈ p :: l ∧ certifies sC qc (Child B r claim).
Proof.
  intros Hh Hn Hq Hv. destruct (header_chain_ok _ _ Hh) as (p' & rp & l' & Heq & Hco). injection Heq as <- <- <-.
  destruct (claim_entry _ _ _ _ _ Hco Hn) as (sB & A & Hin & HnA & _ & _).
  assert (∃ sC, sC ∈ p :: l ∧ entry sC = (sB, ref_of A)) as (sC & HinC & HeC).
  { change (_ :: _) with (entry <$> p :: l) in Hin. apply list_elem_of_fmap in Hin as (sC & He & HinC). by exists sC. }
  injection HeC as HbC HrC. pose proof (header_chain_nums _ _ _ _ Hh Hin) as Hnum. unfold num in HnA.
  assert (s_block_num (b_bhs sC) = claim_block_num claim) as HsC by (rewrite HbC; lia).
  exists sC. split; [done|]. assert (qc_block_num qc = claim_block_num claim) as Hqn by (by rewrite <- Hq).
  unfold b_verify_qc in Hv. rewrite Hqn, <- HsC in Hv.
  rewrite (ancestor_policies p l B sC Hh HinC), bind_ok in Hv by lia. apply bind_inv in Hv as ([] & Hb & Hs).
  unfold certifies. cbn [claim_num claim_strong]. split_and!; [done| |done|done]. rewrite Hq. by destruct claim.
Qed.

Lemma accepted_proper p l B id b s claim : accepted_ok (p :: l) B → s_block_num (b_bhs p) < u32_max →
  accept_block recover validator id b p = Ok s → claim_in (s_header_exts (b_bhs s)) claim →
  accepted_ok (s :: p :: l) (Child B (b_make_block_ref s) claim).
Proof.
  intros Hok Hmax Hacc Hcl. destruct (accept_block_inv _ _ _ _ Hacc) as (o & Hver & Hnext & Hd & Hqc).
  destruct (next_from_header_inv _ _ _ Hnext) as (exts & features & f & Hx & Hf & Hprev & Hfin & He & Hh).
  pose proof Hok as [Hhc _ Hpc _]. assert (fe_qc_claim f = claim) as Hfc.
  { destruct Hcl as (f' & Hf' & <-). rewrite He, Hf in Hf'. by injection Hf' as ->. }
  eapply (extend_accepted p l B s claim features f); [done|done|by rewrite Hh, He|by rewrite Hh|by rewrite Hh, He|done|done|done|].
  assert (claim_in exts claim) as Hce by (by rewrite <- He).
  destruct (verify_proper_inv _ _ _ _ _ _ Hver (Hpc p l eq_refl) Hx Hce) as [[-> ->]|(qc & -> & Hq & Hr)]; [by left|right].
  destruct (header_chain_ok _ _ Hhc) as (p' & rp & l' & Heq & Hco). injection Heq as <- <- <-.
  rewrite (co_num _ _ _ _ Hco) in Hr. cbn [claim_block_num] in Hr.
  destruct (verified_certifies p l B qc (b_make_block_ref s) claim Hhc Hr Hq Hqc) as (sC & Hin & Hcert). eauto.
Qed.

Lemma verify_transition_inv b prev_header prev_exts exts :
  verify_transition_block_invariants b prev_header prev_exts = Ok tt →
  validate_and_extract_header_extensions (sb_header b) = Ok exts →
  ∃ f, find_extension 2 exts = Some (finality_extension_ext f) ∧
    (∀ claim, claim_in prev_exts claim → fe_qc_claim f = claim) ∧
    (find_extension 2 prev_exts = None → fe_qc_claim f = QcClaim (h_block_num (sb_header b)) false ∧
       ∃ d policy, new_finalizer_policy_diff f = Some d ∧ policy_apply_diff (FinalizerPolicy 0 0 []) d = Ok policy ∧
         generation policy = 1).
Proof.
  intros H Hx. unfold verify_transition_block_invariants in H. apply bind_inv in H as ([] & _ & H).
  apply bind_inv in H as (bexts & _ & H). apply bind_inv in H as ([] & _ & H). apply bind_inv in H as ([] & _ & H).
  apply bind_inv in H as (fe & Hfe & H). destruct fe as [fe|]; [|done].
  pose proof (extract_header_extension_agrees _ _ _ _ Hx Hfe) as Hf. destruct fe as [| |f]; [done|done|].
  apply bind_inv in H as ([] & _ & H). exists f. split; [done|]. split.
  - intros claim (pf & Hpf & <-). rewrite Hpf in H. apply bind_inv in H as ([] & Hc & _). apply check_inv, andb_true_iff in Hc as [Hn Hs].
    apply Z.eqb_eq in Hn. apply eqb_prop in Hs. by apply qc_claim_ext.
  - intros Hnone. rewrite Hnone in H. apply bind_inv in H as ([] & Hc & H). apply check_inv, andb_true_iff in Hc as [Hn Hs].
    apply Z.eqb_eq in Hn. apply negb_true_iff in Hs. split; [by apply qc_claim_ext|].
    destruct (new_finalizer_policy_diff f) as [d|]; [|done]. destruct (policy_apply_diff _ d) as [policy|] eqn:Ep; [|done].
    exists d, policy. split; [done|]. split; [done|]. by apply check_inv, Z.eqb_eq in H.
Qed.

Lemma create_genesis_policy id header features schedule exts s f d policy :
  create_if_genesis_state id header features schedule exts = Ok s → find_extension 2 exts = Some (finality_extension_ext f) →
  new_finalizer_policy_diff f = Some d → policy_apply_diff (FinalizerPolicy 0 0 []) d = Ok policy →
  s_active_finalizer_policy s = policy ∧ s_header_exts s = exts.
Proof. intros H Hf Hd Hp. unfold create_if_genesis_state in H. rewrite Hf, bind_ok, Hd, Hp, bind_ok in H. by injection H as <-. Qed.

Lemma accepted_genesis b prev_header prev_exts features schedule exts am ok s :
  verify_transition_block_invariants b prev_header prev_exts = Ok tt → find_extension 2 prev_exts = None →
  validate_and_extract_header_extensions (sb_header b) = Ok exts →
  create_if_genesis_block (calculate_id (sb_header b)) (sb_header b) features schedule exts b (Some am) ok = Ok s →
  accepted_ok [s] (Genesis (b_make_block_ref s)).
Proof.
  intros Hver Hnone Hx Hs. destruct (verify_transition_inv _ _ _ _ Hver Hx) as (f & Hf & _ & Hg).
  destruct (Hg Hnone) as (Hcl & d & policy & Hd & Hp & Hgen). destruct (create_if_genesis_inv _ _ _ _ _ _ _ _ _ Hs) as (Hst & Hdig & _).
  destruct (create_genesis_policy _ _ _ _ _ _ _ _ _ Hst Hf Hd Hp) as [Hpol Hexts].
  assert (num_from_id (calculate_id (sb_header b)) = h_block_num (sb_header b)) as Hnum
    by (apply num_from_id_stored; unfold h_block_num; apply u32_range).
  assert (header_chain (entry <$> [s]) (Genesis (b_make_block_ref s))) as Hch.
  { constructor; [|by apply make_block_ref_cached]. eexists _, _, _, _, _. split; [exact Hst|]. split; [done|]. by rewrite Hpol. }
  split; [done| | |].
  - intros s' l [= <- <-]. by rewrite Hexts, (genesis_header _ _ _ _ _ _ Hst).
  - intros s' l [= <- <-]. exists f. rewrite Hexts. split; [done|]. rewrite Hcl. cbn [claim_num claim_strong].
    destruct (header_chain_ok _ _ Hch) as (s' & r' & l' & Heq & Hco). injection Heq as <- <- <-.
    pose proof (co_num _ _ _ _ Hco) as Hn. unfold s_block_num in Hn. rewrite (genesis_header _ _ _ _ _ _ Hst) in Hn. by rewrite Hn.
  - intros A [->|[]]. by left.
Qed.

Lemma accepted_transition p l B b am s claim : accepted_ok (p :: l) B → s_block_num (b_bhs p) < u32_max →
  verify_transition_block_invariants b (s_header (b_bhs p)) (s_header_exts (b_bhs p)) = Ok tt →
  create_transition_block recover validator p b false am = Ok s → claim_in (s_header_exts (b_bhs s)) claim →
  accepted_ok (s :: p :: l) (Child B (b_make_block_ref s) claim).
Proof.
  intros Hok Hmax Hver Hcr Hcl. unfold create_transition_block in Hcr. apply bind_inv in Hcr as (s0 & Hs0 & Hcr).
  apply bind_inv in Hcr as (v & _ & Hcr). unfold block_state_from_block in Hs0. apply bind_inv in Hs0 as ([] & _ & Hs0).
  apply bind_inv in Hs0 as (bhs & Hnext & Hs0). unfold block_state_of in Hs0. apply bind_inv in Hs0 as (strong & Hd & Hs0).
  apply bind_inv in Hs0 as (agg & _ & Hs0). injection Hs0 as <-. injection Hcr as <-. cbn [b_bhs b_strong_digest] in *.
  destruct (next_from_header_inv _ _ _ Hnext) as (exts & fs & f & Hx & Hf & Hprev & Hfin & He & Hh).
  destruct (verify_transition_inv _ _ _ _ Hver Hx) as (f' & Hf' & Hpc & _). rewrite Hf in Hf'. injection Hf' as <-.
  assert (fe_qc_claim f = claim) as Hfc. { destruct Hcl as (f' & Hf' & <-). rewrite He, Hf in Hf'. by injection Hf' as ->. }
  eapply (extend_accepted p l B _ claim fs f); [done|done|by cbn; rewrite Hh, He|by cbn; rewrite Hh|by cbn; rewrite Hh, He|done|done|done|].
  left. rewrite <- Hfc. apply Hpc. by eapply (ak_claim _ _ Hok).
Qed.

Lemma accepted_chain_ok L B : accepted_chain L B → accepted_ok L B.
Proof.
  induction 1; [by eapply accepted_genesis|by eapply accepted_transition|by eapply accepted_proper|by eapply same_block_update].
Qed.

(** ** Theorems *)

(** C3: on every branch of accepted blocks, from the Savanna genesis block over
    transition blocks to proper blocks, the blocks form a valid branch of the block
    tree, with the core of each state that of its block, and the claim of each
    block, unless it is still the claim on the genesis block, is backed by a certificate
    for the claimed ancestor that was verified, weights and signatures,
    against the policies in force at that ancestor. *)
Theorem accepted_claims_certified s l B :
  accepted_chain (s :: l) B →
  BlockTree.valid B ∧ core_of B = Ok (s_core (b_bhs s)) ∧ s_block_num (b_bhs s) = num B ∧
  ∀ A, A = B ∨ ancestor A B →
    claim_num A = num (root B) ∧ claim_strong A = false ∨
    ∃ sC qc, sC ∈ s :: l ∧ s_block_num (b_bhs sC) = claim_num A ∧ to_qc_claim qc = QcClaim (claim_num A) (claim_strong A) ∧
      verify_basic qc (policies_at sC) = Ok tt ∧ qc_verify_signatures qc (policies_at sC) = Ok tt.
Proof.
  intros Hch. destruct (accepted_chain_ok _ _ Hch) as [Hh _ _ Hb].
  destruct (header_chain_ok _ _ Hh) as (s' & r' & l' & Heq & Hco). injection Heq as <- <- <-.
  split; [apply Hco|]. split; [apply Hco|]. split; [apply Hco|exact Hb].
Qed.

(** An executed proper block passes the check of its finality root exactly when its
    header has the root its parent gives for the certificate claimed by the block. *)
Lemma finality_root_ok s p l B r claim :
  state_chain (p :: l) B → state_chain (s :: p :: l) (Child B r claim) → is_proper_svnn_block (s_header (b_bhs s)) = true →
  check_finality_mroot s = Ok tt ↔ get_finality_mroot_claim p claim = Ok (h_action_mroot (s_header (b_bhs s))).
Proof.
  intros Hp Hs Hproper. destruct (finality_tree_ok _ _ _ Hp) as (_ & _ & Hclaim).
  destruct (finality_tree_ok _ _ _ Hs) as (_ & Hmroot & _). pose proof (state_chain_ok _ _ _ Hs) as Hco.
  pose proof (co_valid _ _ _ _ Hco) as Hv. pose proof Hv as (HvB & Hn & _ & Hle & Hqle).
  destruct (core_of_sim _ Hv) as (c & f & Hc & Hsim). rewrite (co_core _ _ _ _ Hco) in Hc. injection Hc as <-.
  destruct (sim_claimed _ _ _ _ _ Hv Hsim) as (A & _ & _ & _ & Hlc & _).
  pose proof (final_num_le_claim _ Hv) as Hfc. cbn [claim_num] in Hfc. pose proof (num_range (Child B r claim)) as Hu.
  rewrite num_child in Hu. unfold is_u32 in Hu.
  rewrite Hclaim by (done || unfold u32_max; lia). unfold check_finality_mroot, finality_mroot. rewrite Hproper, Hlc, bind_ok.
  rewrite (is_genesis_from_claim _ _ _ Hv (co_core _ _ _ _ Hco)), bind_ok by (cbn [claim_num]; rewrite num_child; lia).
  cbn [root]. rewrite Hmroot, num_child, bool_decide_eq_true_2 by lia.
  destruct (state_chain_tree _ _ _ Hp) as (v & Ht). rewrite leaves_upto_snoc by (done || apply Ht).
  destruct (claim_block_num claim =? num (root B)).
  - rewrite bind_ok. unfold check. case_bool_decide as E; split; try done; congruence.
  - destruct (calculate_merkle _ _) as [m|]; [|done]. rewrite bind_ok. unfold check. case_bool_decide as E; split; try done; congruence.
Qed.

End Theory.
