(* ===== verification/SeenBlocks.v ===== *)
(** * The blocks of a network and the votes in their states

    The votes and the certificate in a block state were verified against the digests and the
    policies of the block: this holds of new states and is kept by votes and by received
    certificates, so that the certificate a producer takes from a state of its branch verifies.

    A state is seen as a block when it ends a branch of accepted blocks whose header
    states all exist in the network. When the ids of existing header states
    do not collide, a state is seen as one block only, and the blocks seen form a
    tree identified by ids. *)

From stdpp Require Import gmap.
From S2P Require Import Prelude Sha256 Merkle FinalityCore BlockTree Bitset OrderedDiff ProducerSchedule FinalizerPolicy Qc BlockHeaderState BlockHeaderTheory QcTheory QcSignatures BlockState BlockStateTheory ForkDatabase BlockAcceptance BlockAcceptanceTheory.
Open Scope Z_scope.

Section Seen.
Context {bls : Bls} {codec : ExtensionCodec} {digests : Digests codec} {bcodec : BlockExtensionCodec bls codec}.
Context (recover : signature_type → sha256 → result public_key_type).
Context (validator : Z → gset sha256 → list sha256 → result unit).

(** The header states that exist, and the genesis block. *)
Context (P : block_header_state → Prop) (G : block).

Definition seen (s : block_state) (B : block) : Prop :=
  ∃ l, accepted_chain recover validator (s :: l) B ∧ Forall (λ x, P (b_bhs x)) (s :: l) ∧ root B = G.

Definition exists_block (B : block) : Prop := ∃ s, seen s B.

Definition no_collision : Prop := ∀ x y, P x → P y → s_block_id x = s_block_id y → x = y.

(** ** Branches of accepted blocks *)

Lemma same_block_ref s s' : same_block s s' → b_make_block_ref s' = b_make_block_ref s.
Proof. intros [H1 H2]. unfold b_make_block_ref. by rewrite H1, H2. Qed.

Lemma accepted_inv s l B : accepted_chain recover validator (s :: l) B →
  match l with
  | [] => B = Genesis (b_make_block_ref s)
  | p :: l' => ∃ B' claim, B = Child B' (b_make_block_ref s) claim ∧ accepted_chain recover validator (p :: l') B' ∧
      claim_in (s_header_exts (b_bhs s)) claim
  end.
Proof.
  intros H. remember (s :: l) as L eqn:HL. revert s l HL.
  induction H as [b ph pe fs sch exts am ok s Hv Hn Hx Hs|p l B b am s claim Hch IH Hm Hv Hs Hc|p l B id b s claim Hch IH Hm Hs Hc
    |L L' B Hch IH HL']; intros s' l' HL.
  - by injection HL as <- <-.
  - injection HL as <- <-. eauto.
  - injection HL as <- <-. eauto.
  - subst. inversion HL' as [|s0 ? l0 ? Hsame Hrest]; subst. specialize (IH s0 l0 eq_refl). rewrite (same_block_ref _ _ Hsame).
    destruct Hsame as [-> _]. inversion Hrest as [|p ? l1 ? Hp Hr]; subst; [done|]. destruct IH as (B' & claim & -> & Hch' & Hc).
    exists B', claim. split; [done|]. split; [|done]. eapply ac_update; [exact Hch'|by constructor].
Qed.

Lemma accepted_head s l B : accepted_chain recover validator (s :: l) B →
  chain_ok (b_bhs s) (b_make_block_ref s) (entry <$> l) B ∧ compute_finality_digest (b_bhs s) = Ok (b_strong_digest s).
Proof.
  intros H. destruct (header_chain_ok _ _ (ak_headers _ _ (accepted_chain_ok _ _ _ _ H))) as (s' & r' & l' & Heq & Hco).
  injection Heq as <- <- <-. split; [done|]. pose proof (co_made _ _ _ _ Hco) as Hm. unfold s_make_block_ref in Hm.
  apply bind_inv in Hm as (d & Hd & Hm). unfold b_make_block_ref in Hm. injection Hm as ->. exact Hd.
Qed.

Lemma accepted_previous s p l B : accepted_chain recover validator (s :: p :: l) B → h_previous (s_header (b_bhs s)) = s_block_id (b_bhs p).
Proof.
  intros H. pose proof (ak_headers _ _ (accepted_chain_ok _ _ _ _ H)) as Hh. cbn [fmap list_fmap] in Hh.
  inversion Hh as [|p0 rp l0 B0 h exts fs f_ext s0 r0 _ Hprev _ Hfin _]; subst.
  by rewrite (proj2 (finish_next_exts _ _ _ _ _ _ Hfin)).
Qed.

(** Every state of a branch is seen as a block of it. *)
Lemma seen_member s l B x : accepted_chain recover validator (s :: l) B → Forall (λ x, P (b_bhs x)) (s :: l) → root B = G →
  x ∈ s :: l → ∃ C, seen x C ∧ (C = B ∨ ancestor C B).
Proof.
  revert s B. induction l as [|p l IH]; intros s B Hch HF Hr Hx.
  - apply list_elem_of_singleton in Hx as ->. exists B. split; [by exists []|by left].
  - apply elem_of_cons in Hx as [->|Hx]; [exists B; split; [by exists (p :: l)|by left]|].
    destruct (accepted_inv _ _ _ Hch) as (B' & claim & -> & Hch' & _). apply Forall_cons in HF as [_ HF].
    destruct (IH p B' Hch' HF Hr Hx) as (C & HC & Ha). exists C. split; [done|]. right. cbn. destruct Ha as [->|?]; auto.
Qed.

Lemma seen_ancestor s B A : seen s B → ancestor A B → exists_block A.
Proof.
  intros (l & Hch & HF & Hr). revert s B Hch HF Hr. induction l as [|p l IH]; intros s B Hch HF Hr Ha.
  - pose proof (accepted_inv _ _ _ Hch) as ->. done.
  - destruct (accepted_inv _ _ _ Hch) as (B' & claim & -> & Hch' & _). apply Forall_cons in HF as [_ HF].
    destruct Ha as [->|Ha]; [exists p; by exists l|by eapply IH].
Qed.

Lemma seen_ok s B : seen s B → BlockTree.valid B ∧ core_of B = Ok (s_core (b_bhs s)) ∧ ref_of B = b_make_block_ref s ∧
  s_block_num (b_bhs s) = num B ∧ root B = G.
Proof.
  intros (l & Hch & _ & Hr). destruct (accepted_head _ _ _ Hch) as [[Hv Hc Href _ Hn _ _ _ _] _]. done.
Qed.

Lemma root_above B : BlockTree.valid B → num (root B) <= num B ∧ (num B = num (root B) → B = root B).
Proof.
  induction B as [r|p IH r claim]; intros Hv; [done|]. destruct Hv as (Hv & Hn & _). destruct (IH Hv) as [H _]. cbn [root].
  rewrite num_child in *. split; [lia|]. intros E. lia.
Qed.

Context (Hid : no_collision).

(** A state is seen as one block only. *)
Lemma seen_unique s s' B B' : seen s B → seen s' B' → s_block_id (b_bhs s) = s_block_id (b_bhs s') → B = B'.
Proof using Hid.
  intros (l & Hch & HF & Hr) Hs'. revert s s' B B' Hch HF Hr Hs'. induction l as [|p l IH]; intros s s' B B' Hch HF Hr (l' & Hch' & HF' & Hr') Heq.
  all: pose proof (Hid _ _ (Forall_inv HF) (Forall_inv HF') Heq) as Hbhs; destruct (accepted_head _ _ _ Hch) as [Hco Hd];
    destruct (accepted_head _ _ _ Hch') as [Hco' Hd'].
  all: assert (b_make_block_ref s' = b_make_block_ref s) as Href
    by (rewrite Hbhs, Hd' in Hd; injection Hd as Hd; unfold b_make_block_ref; by rewrite Hbhs, Hd).
  all: pose proof (co_num _ _ _ _ Hco) as Hn; pose proof (co_num _ _ _ _ Hco') as Hn'; rewrite Hbhs in Hn.
  - pose proof (accepted_inv _ _ _ Hch) as HB. assert (B = G) as -> by (rewrite <- Hr, HB; done).
    destruct (root_above _ (co_valid _ _ _ _ Hco')) as [_ H]. rewrite Hr' in H. symmetry. apply H. lia.
  - destruct l' as [|p' l'].
    + pose proof (accepted_inv _ _ _ Hch') as HB'. assert (B' = G) as -> by (rewrite <- Hr', HB'; done).
      destruct (root_above _ (co_valid _ _ _ _ Hco)) as [_ H]. rewrite Hr in H. apply H. lia.
    + pose proof (accepted_previous _ _ _ _ Hch) as Hp. pose proof (accepted_previous _ _ _ _ Hch') as Hp'.
      destruct (accepted_inv _ _ _ Hch) as (B1 & c1 & -> & Hch1 & Hc1). destruct (accepted_inv _ _ _ Hch') as (B2 & c2 & -> & Hch2 & Hc2).
      apply Forall_cons in HF as [_ HF]. apply Forall_cons in HF' as [_ HF']. rewrite Href.
      assert (c1 = c2) as ->.
      { destruct Hc1 as (f1 & Hf1 & <-), Hc2 as (f2 & Hf2 & <-). rewrite Hbhs, Hf2 in Hf1. by injection Hf1 as ->. }
      f_equal. apply (IH p p'); [done..|by exists l'|]. rewrite <- Hp, <- Hp'. by rewrite Hbhs.
Qed.

Lemma exists_unique A B : exists_block A → exists_block B → id_of A = id_of B → A = B.
Proof using Hid.
  intros [s Hs] [s' Hs'] Heq. eapply seen_unique; [done|done|]. destruct (seen_ok _ _ Hs) as (_ & _ & H1 & _).
  destruct (seen_ok _ _ Hs') as (_ & _ & H2 & _). unfold id_of in Heq. rewrite H1, H2 in Heq. exact Heq.
Qed.

End Seen.

(** ** The votes held in block states *)

Section Votes.
Context {bls : Bls} {codec : ExtensionCodec} {digests : Digests codec} {bcodec : BlockExtensionCodec bls codec}.
Context {blslaws : BlsLaws bls}.

(** The policies in force are such as the intrinsics accept. *)
Definition policies_ok (x : block_header_state) : Prop :=
  policy_ok (s_active_finalizer_policy x) ∧ ∀ p, pending_policy x = Some p → policy_ok p.

Record votes_ok (s : block_state) : Prop := {
  vo_weak : b_weak_digest s = create_weak_digest (b_strong_digest s);
  vo_active : agg_active_policy (b_aggregating_qc s) = s_active_finalizer_policy (b_bhs s);
  vo_pending : agg_pending_policy (b_aggregating_qc s) = pending_policy (b_bhs s);
  vo_signed : qc_signed (b_strong_digest s) (b_aggregating_qc s) }.

(** Only the header state, the digests and the aggregation matter. *)
Lemma votes_ok_same s s' : b_bhs s' = b_bhs s → b_strong_digest s' = b_strong_digest s → b_weak_digest s' = b_weak_digest s →
  b_aggregating_qc s' = b_aggregating_qc s → votes_ok s → votes_ok s'.
Proof. intros H1 H2 H3 H4 []. split; by rewrite ?H1, ?H2, ?H3, ?H4. Qed.

Lemma block_state_of_votes bhs b v am s : policies_ok bhs → block_state_of bhs b v am = Ok s → votes_ok s.
Proof.
  intros [Ha Hp] H. unfold block_state_of in H. apply bind_inv in H as (d & _ & H). apply bind_inv in H as (agg & Hagg & H). injection H as <-.
  destruct (qc_signed_new d _ _ _ Ha Hp Hagg) as (Hq & H1 & H2). by split.
Qed.

Lemma aggregate_vote_votes s vote s' r : votes_ok s → b_aggregate_vote s vote = Ok (s', r) → votes_ok s'.
Proof.
  intros [Hw Ha Hp Hs] H. unfold b_aggregate_vote in H. rewrite Hw in H. apply bind_inv in H as ([agg res] & Hagg & H). injection H as <- _.
  destruct (aggregate_vote_signed _ _ _ _ _ Hs Hagg) as (Hs' & Ha' & Hp').
  split; [done|exact (eq_trans Ha' Ha)|exact (eq_trans Hp' Hp)|exact Hs'].
Qed.

Lemma set_received_votes s qc s' bet : votes_ok s → verify_basic qc (policies_at s) = Ok tt →
  qc_verify_signatures qc (policies_at s) = Ok tt → b_set_received_qc s qc = Ok (s', bet) → votes_ok s'.
Proof.
  intros [Hw Ha Hp Hs] Hb Hv H. unfold b_set_received_qc in H. apply bind_inv in H as ([agg bet'] & Hagg & H). injection H as <- _.
  pose proof (verified_checked _ _ Hb Hv) as Hc. unfold policies_at in Hc. cbn in Hc. rewrite <- Ha, <- Hp in Hc.
  destruct (set_received_signed _ _ _ _ _ Hs Hc Hagg) as (Hs' & Ha' & Hp').
  split; [exact Hw|exact (eq_trans Ha' Ha)|exact (eq_trans Hp' Hp)|exact Hs'].
Qed.

Lemma best_qc_num s qc : b_get_best_qc s = Ok (Some qc) → qc_block_num qc = s_block_num (b_bhs s).
Proof.
  intros H. unfold b_get_best_qc, agg_get_best_qc in H. apply bind_inv in H as (b & _ & H). destruct b as [b|]; [|done].
  destruct (agg_pending_sig _); [|by injection H as <-]. apply bind_inv in H as (pb & _ & H). destruct pb; [by injection H as <-|done].
Qed.

Lemma best_votes_verify s qc : votes_ok s → b_get_best_qc s = Ok (Some qc) → dual_rule (policies_at s) qc →
  qc_block_num qc = s_block_num (b_bhs s) ∧ verify_basic qc (policies_at s) = Ok tt ∧ qc_verify_signatures qc (policies_at s) = Ok tt.
Proof. intros [Hw Ha Hp Hs] H Hd. by apply (best_certificate_verifies _ _ _ _ _ _ Hs Ha Hp H). Qed.

(** ** The certificate in a received block *)

Lemma find_entry_block_extract exts first lb res id d e : block_extract_extensions exts first lb = Ok res →
  find_entry id exts = Some d → block_extract id d = Ok (Some e) → find_block_extension id res = Some e.
Proof.
  revert first lb res. induction exts as [|[i d0] exts IH]; intros first lb res Hx Hf He; [done|]. cbn in Hx, Hf.
  apply bind_inv in Hx as ([] & _ & Hx). apply bind_inv in Hx as (o & Ho & Hx). destruct o as [e0|]; [|done].
  apply bind_inv in Hx as ([] & _ & Hx). apply bind_inv in Hx as (rest & Hrest & Hx). injection Hx as <-. cbn.
  destruct (id <? i); [done|]. destruct (Z.eqb_spec i id) as [->|]; [|by eapply IH].
  injection Hf as ->. rewrite He in Ho. by injection Ho as ->.
Qed.

Lemma extract_extension_agrees b exts id e : validate_and_extract_extensions b = Ok exts →
  extract_extension b id = Ok (Some e) → find_block_extension id exts = Some e.
Proof.
  intros Hx H. unfold extract_extension in H. apply bind_inv in H as ([] & _ & H).
  destruct (find_entry id (sb_block_extensions b)) as [d|] eqn:Ef; [|done]. apply bind_inv in H as (o & Ho & H).
  destruct o as [e'|]; [|done]. injection H as <-. by eapply find_entry_block_extract.
Qed.

(** A block with a certificate in it was accepted with that certificate. *)
Lemma certificate_checked b prev o qc : verify_basic_proper_block_invariants b prev = Ok o →
  extract_extension b 3 = Ok (Some (quorum_certificate_extension qc)) → o = Some qc.
Proof.
  intros H Hqc. unfold verify_basic_proper_block_invariants in H.
  apply bind_inv in H as ([] & _ & H). apply bind_inv in H as (bexts & Hb & H). apply bind_inv in H as (fe & _ & H).
  destruct fe as [[| |f]|]; try done. cbv zeta in H. apply bind_inv in H as ([] & _ & H).
  destruct (find_extension 2 _) as [[| |pf]|]; try done. apply bind_inv in H as ([] & _ & H). apply bind_inv in H as ([] & _ & H).
  rewrite (extract_extension_agrees _ _ _ _ Hb Hqc) in H. destruct (_ && _).
  - apply bind_inv in H as ([] & Hc & _). done.
  - apply bind_inv in H as ([] & _ & H). apply bind_inv in H as ([] & _ & H). apply bind_inv in H as ([] & _ & H).
    apply bind_inv in H as ([] & _ & H). apply bind_inv in H as ([] & _ & H). by injection H as <-.
Qed.

Lemma accepted_certificate recover validator id b p l B s qc : accepted_ok (p :: l) B → accept_block recover validator id b p = Ok s →
  extract_extension b 3 = Ok (Some (quorum_certificate_extension qc)) →
  b_verify_qc p qc = Ok tt ∧ claim_num B <= qc_block_num qc.
Proof.
  intros Hok Ha Hqc. destruct (accept_block_inv _ _ _ _ _ _ Ha) as (o & Ho & Hnext & _ & Hv).
  pose proof (certificate_checked _ _ _ _ Ho Hqc) as ->. split; [done|].
  destruct (next_from_header_inv _ _ _ _ Hnext) as (exts & fs & f & Hx & Hf & _).
  destruct (verify_proper_inv _ _ _ exts (fe_qc_claim f) _ Ho (ak_claim _ _ Hok p l eq_refl) Hx) as [[? _]|(qc' & Heq & Hcl & Hr)];
    [by exists f|done|]. injection Heq as <-. rewrite <- Hcl in Hr. cbn in Hr. lia.
Qed.

End Votes.
