(* ===== verification/BlockProduction.v ===== *)
(** * Producing and executing blocks: the building stages of [controller.cpp]

    A block under construction goes through the stages of [block_stage_type]:
    building, assembled, completed. A node that received the block goes through
    the same stages with what the block contains and compares the outcome. The
    transactions run between the stages: what their execution leaves behind is
    the record [execution]. *)

From stdpp Require Import gmap.
From S2P Require Import Prelude Sha256 Merkle FinalityCore OrderedDiff ProducerSchedule FinalizerPolicy Qc BlockHeaderState BlockState ForkDatabase BlockAcceptance.
Open Scope Z_scope.

Section Production.
Context {bls : Bls} {codec : ExtensionCodec} {digests : Digests codec} {bcodec : BlockExtensionCodec bls codec}.

(** ** The stages *)

(** The policies that the transactions proposed and the digests of their actions. *)
Record execution : Type := Execution {
  ex_action_digests : list sha256;
  ex_proposed_fin_pol : option finalizer_policy;
  ex_proposed_schedule : option (list producer_authority) }.

Record building_block_if : Type := BuildingBlockIf {
  bb_parent : block_state;
  bb_timestamp : Z;
  bb_active_producer_authority : producer_authority;
  bb_new_protocol_feature_activations : list sha256;
  bb_active_proposer_policy : proposer_policy;
  bb_block_num : Z }.

Record assembled_block_if : Type := AssembledBlockIf {
  ab_active_producer_authority : producer_authority;
  ab_bhs : block_header_state;
  ab_trx_receipts : list sha256;
  ab_valid : option valid_t;
  ab_qc : option qc_t;
  ab_action_mroot : sha256 }.

(** The pending block that [start_block] creates on a Savanna head. *)
Definition start_block (head : block_state) (when : Z) (features : list sha256) : result building_block_if :=
  producer ← get_producer_for_block_at (b_bhs head) when;
  '(_, policy) ← get_active_proposer_policy_for_block_at (b_bhs head) when;
  match list_find (λ pa, producer_name pa = producer_name producer) (producers (proposer_schedule policy)) with
  | None => Err assert_failed
  | Some (_, pa) =>
    Ok (BuildingBlockIf head when (ProducerAuthority (producer_name producer) (authority pa)) features policy
          (u32 (s_block_num (b_bhs head) + 1)))
  end.

Definition get_next_proposer_schedule_version (bb : building_block_if) (ps : list producer_authority) : option Z :=
  let parent := b_bhs (bb_parent bb) in
  let lhs := proposer_schedule
    match s_latest_proposed_proposer_policy parent, s_latest_pending_proposer_policy parent with
    | Some p, _ => p
    | None, Some p => p
    | None, None => bb_active_proposer_policy bb
    end in
  if bool_decide (producers lhs = ps) then None else Some (u32 (version lhs + 1)).

(** The policies of the new block, with their generation and version. *)
Definition new_finalizer_policy (bb : building_block_if) (ex : execution) : option finalizer_policy :=
  match ex_proposed_fin_pol ex with
  | Some p => Some (FinalizerPolicy (u32 (s_finalizer_policy_generation (b_bhs (bb_parent bb)) + 1)) (threshold p) (finalizers p))
  | None => None
  end.
Definition new_proposer_policy (bb : building_block_if) (ex : execution) : option proposer_policy :=
  match ex_proposed_schedule ex with
  | Some ps =>
    match get_next_proposer_schedule_version bb ps with
    | Some v => Some (ProposerPolicy (bb_timestamp bb) (ProducerAuthoritySchedule v ps))
    | None => None
    end
  | None => None
  end.

(** The input for the next header state. *)
Definition next_input (bb : building_block_if) (transaction_mroot : sha256) (ex : execution) (claim : qc_claim_t)
    (finality_mroot_claim : sha256) : block_header_state_input :=
  BlockHeaderStateInput (s_block_id (b_bhs (bb_parent bb))) (bb_timestamp bb)
    (producer_name (bb_active_producer_authority bb)) (bb_new_protocol_feature_activations bb) transaction_mroot
    (new_proposer_policy bb ex) (new_finalizer_policy bb ex) claim finality_mroot_claim.

(** [assemble_block] when producing. *)
Definition assemble_produced (db : fork_db) (bb : building_block_if) (trx_receipts : list sha256) (ex : execution)
    : result assembled_block_if :=
  let parent := bb_parent bb in
  transaction_mroot ← calculate_trx_merkle trx_receipts;
  action_mroot ← calculate_merkle hash_bytes (ex_action_digests ex);
  '(qc, claim) ← get_qc_data db parent;
  finality_mroot_claim ← get_finality_mroot_claim parent claim;
  bhs ← next_from_input (b_bhs parent) (next_input bb transaction_mroot ex claim finality_mroot_claim);
  digest ← compute_finality_digest bhs;
  v ← new_valid parent bhs action_mroot digest;
  Ok (AssembledBlockIf (bb_active_producer_authority bb) bhs trx_receipts (Some v) qc action_mroot).

(** [assemble_block] when validating, which also sets the validation tree of the state. *)
Definition assemble_validating (bb : building_block_if) (transaction_mroot : sha256) (ex : execution)
    (qc_data : option qc_t * qc_claim_t) (validating_bsp : block_state) : result (assembled_block_if * block_state) :=
  let parent := bb_parent bb in
  action_mroot ← calculate_merkle hash_bytes (ex_action_digests ex);
  bhs ← next_from_input (b_bhs parent)
          (next_input bb transaction_mroot ex qc_data.2 (h_action_mroot (s_header (b_bhs validating_bsp))));
  s ← set_validation parent validating_bsp bhs action_mroot;
  Ok (AssembledBlockIf (bb_active_producer_authority bb) bhs [] None qc_data.1 action_mroot, s).

(** [complete_block] on the head's schedule, called by [assemble_and_complete_block]. *)
Definition complete_block (recover : signature_type → sha256 → result public_key_type)
    (signer : sha256 → list signature_type) (head : block_state) (ab : assembled_block_if) : result block_state :=
  pa ← get_producer_for_block_at (b_bhs head) (s_timestamp (ab_bhs ab));
  block_state_assemble recover (ab_bhs ab) (ab_trx_receipts ab) (ab_valid ab) (ab_qc ab) signer (authority pa)
    (ab_action_mroot ab).

(** The block a producer makes on its head: [controller::start_block] validates the features
    to activate, and starting the block refuses to activate one twice. *)
Definition produce_block (recover : signature_type → sha256 → result public_key_type)
    (validator : Z → gset sha256 → list sha256 → result unit)
    (signer : sha256 → list signature_type) (db : fork_db) (head : block_state) (when : Z) (features : list sha256)
    (trx_receipts : list sha256) (ex : execution) : result block_state :=
  (if negb (is_empty features)
   then validator (s_timestamp (b_bhs head)) (s_activated_protocol_features (b_bhs head)) features else Ok tt);;
  bb ← start_block head when features;
  check (bool_decide (NoDup features)) block_validate_exception;;
  ab ← assemble_produced db bb trx_receipts ex;
  complete_block recover signer head ab.

(** ** Executing a received block *)

Definition extract_qc_data (b : signed_block) : result (option (option qc_t * qc_claim_t)) :=
  hexts ← validate_and_extract_header_extensions (sb_header b);
  match find_extension 2 hexts with
  | Some (finality_extension_ext f) =>
    exts ← validate_and_extract_extensions b;
    match find_block_extension 3 exts with
    | Some (quorum_certificate_extension qc) => Ok (Some (Some qc, fe_qc_claim f))
    | Some _ => Err undefined_behaviour
    | None => Ok (Some (None, fe_qc_claim f))
    end
  | Some _ => Err undefined_behaviour
  | None => Ok None
  end.

Definition get_new_protocol_feature_activations (exts : list (Z * block_header_extension)) : result (list sha256) :=
  match find_extension 0 exts with
  | Some (protocol_feature_activation fs) => Ok fs
  | Some _ => Err undefined_behaviour
  | None => Ok []
  end.

(** [apply_block] on a Savanna head, after [allow_non_canonical_signatures]: [ex]
    is the outcome of the transactions of the block, whose receipts matched. *)
Definition apply_block (head s : block_state) (ex : execution) : result block_state :=
  let b := b_block s in
  features ← get_new_protocol_feature_activations (s_header_exts (b_bhs s));
  bb ← start_block head (h_timestamp (sb_header b)) features;
  qc_data ← extract_qc_data b;
  match qc_data with
  | None => Err assert_failed
  | Some qc_data =>
    '(ab, s) ← assemble_validating bb (h_transaction_mroot (sb_header b)) ex qc_data s;
    check_finality_mroot s;;
    check (bool_decide (s_block_id (b_bhs s) = s_block_id (ab_bhs ab))) block_validate_exception;;
    Ok (set_valid s)
  end.

(** [commit_block] of a block this node produced. *)
Definition commit_produced (db : fork_db) (s : block_state) : result (fork_db * fork_db_add_t) :=
  match add db (set_valid s) false with
  | (db, Ok r) => Ok (db, r)
  | (_, Err e) => Err e
  end.

(** [commit_block] of an executed block, which the database shares. *)
Definition commit_applied (db : fork_db) (s : block_state) : result fork_db :=
  match get_block db (bs_id s) false with
  | Some _ => Ok (update_block db s)
  | None => Err assert_failed
  end.

End Production.
