(* ===== verification/BlockProductionTheory.v ===== *)
(** * Theorems on the production of blocks

    A block that a producer makes on its head, with a certificate that verifies, passes the checks of every
    node that has the same state of the head, and executes there to the same state. The theorem on reachable
    nodes, whose certificates verify, is in [Node.v]. *)

From stdpp Require Import gmap.
From S2P Require Import Prelude Sha256 Merkle FinalityCore BlockTree OrderedDiff ProducerSchedule FinalizerPolicy Qc BlockHeaderState BlockHeaderTheory QcTheory BlockState BlockStateTheory ForkDatabase BlockAcceptance BlockAcceptanceTheory BlockProduction.
Open Scope Z_scope.

Section Theory.
Context {bls : Bls} {codec : ExtensionCodec} {digests : Digests codec} {bcodec : BlockExtensionCodec bls codec}.
Context {laws : ExtensionCodecLaws codec} {blaws : BlockExtensionCodecLaws bls codec bcodec}.

(** ** Extensions *)

Lemma extract_extensions_sorted exts : ∀ first lb res, extract_extensions exts first lb = Ok res →
  ext_is_sorted exts = true ∧ (∀ id d, head exts = Some (id, d) → lb <= id ∧ (first = false → lb < id)).
Proof.
  induction exts as [|[i d] exts IH]; intros first lb res H; [done|]. cbn in H.
  apply bind_inv in H as ([] & Hlb & H). apply bind_inv in H as (o & _ & H). destruct o as [e|]; [|done].
  apply bind_inv in H as ([] & Hu & H). apply bind_inv in H as (rest & Hrest & _). apply check_inv, Z.leb_le in Hlb.
  destruct (IH _ _ _ Hrest) as [Hs Hh]. split.
  - destruct exts as [|[j d'] exts]; [done|]. destruct (Hh j d' eq_refl) as [_ Hlt]. specialize (Hlt eq_refl).
    cbn [ext_is_sorted]. unfold ext_lt. cbn. rewrite (proj2 (Z.ltb_ge j i)), (proj2 (Z.eqb_neq j i)) by lia. exact Hs.
  - intros id d0 [= <- <-]. split; [done|]. intros ->. apply check_inv in Hu. cbn in Hu. by apply Z.ltb_lt in Hu.
Qed.

Lemma find_extension_entry exts id e : ∀ first lb res, extract_extensions exts first lb = Ok res →
  find_extension id res = Some e → lb <= id ∧ ∃ d, find_entry id exts = Some d ∧ extract id d = Ok (Some e).
Proof.
  induction exts as [|[i d] exts IH]; intros first lb res H Hf; cbn in H; [by injection H as <-|].
  apply bind_inv in H as ([] & Hlb & H). apply bind_inv in H as (o & Ho & H). destruct o as [e0|]; [|done].
  apply bind_inv in H as ([] & _ & H). apply bind_inv in H as (rest & Hrest & H). injection H as <-. cbn in Hf |- *.
  apply check_inv, Z.leb_le in Hlb. destruct (Z.eqb_spec i id) as [->|Hne].
  - rewrite Z.ltb_irrefl. injection Hf as ->. eauto.
  - destruct (IH _ _ _ Hrest Hf) as (Hle & Hd). rewrite (proj2 (Z.ltb_ge id i)) by lia. split; [lia|done].
Qed.

Lemma header_extension_found h exts e : validate_and_extract_header_extensions h = Ok exts → find_extension 2 exts = Some e →
  extract_header_extension h 2 = Ok (Some e) ∧ is_legacy_block h = false.
Proof.
  intros Hx Hf. destruct (extract_extensions_sorted _ _ _ _ Hx) as [Hs _].
  destruct (find_extension_entry _ _ _ _ _ _ Hx Hf) as (_ & d & Hd & He). split.
  - unfold extract_header_extension. by rewrite assert_bind, Hd, He.
  - unfold is_legacy_block, contains_header_extension. apply negb_false_iff, existsb_exists. clear -Hd.
    induction (h_header_extensions h) as [|[i d0] exts IH]; [done|]. cbn in Hd. destruct (2 <? i); [done|].
    destruct (Z.eqb_spec i 2) as [->|]; [exists (2, d0); split; [by left|done]|]. destruct IH as (x & Hx & H2); [done|].
    exists x. split; [by right|done].
Qed.

(** The extensions of a produced block are read back. *)
Lemma produced_extensions h sig trxs qc sigs : NoDup sigs →
  let b := inject_additional_signatures (SignedBlock h sig trxs
    (match qc with Some qc => emplace_extension [] 3 (pack_qc qc) | None => [] end)) sigs in
  sb_header b = h ∧ sb_producer_signature b = sig ∧ sb_transactions b = trxs ∧
  ∃ exts, validate_and_extract_extensions b = Ok exts ∧ extract_additional_signatures b = Ok sigs ∧
    find_block_extension 3 exts = (quorum_certificate_extension <$> qc).
Proof.
  intros Hnd b. unfold extract_additional_signatures, validate_and_extract_extensions, b, inject_additional_signatures.
  destruct sigs as [|s0 sigs]; [|assert (signatures_reflector_init (s0 :: sigs) = Ok tt) as Hr
    by (unfold signatures_reflector_init; cbn; by rewrite bool_decide_eq_true_2)]; destruct qc as [qc|]; cbn -[signatures_reflector_init].
  all: rewrite ?unpack_pack_qc, ?unpack_pack_signatures, ?Hr; cbn; split_and!; try done; by eexists.
Qed.

(** ** The certificate of a new block *)

Lemma get_qc_data_loop_inv p branch o claim : get_qc_data_loop p branch = Ok (o, claim) →
  ∃ latest, latest_qc_claim (s_core (b_bhs p)) = Ok latest ∧
  match o with
  | None => claim = latest
  | Some qc => claim = to_qc_claim qc ∧ qc_block_num qc <= num_from_id (s_block_id (b_bhs p)) ∧ qc_claim_le claim latest = false
  end ∧ ∀ qc, o = Some qc → ∃ s, s ∈ branch ∧ b_get_best_qc s = Ok (Some qc).
Proof.
  induction branch as [|s branch IH]; intros H; cbn in H.
  - apply bind_inv in H as (c & Hc & H). injection H as <- <-. exists c. done.
  - apply bind_inv in H as (q & Hq & H). destruct q as [qc|].
    2:{ destruct (IH H) as (latest & Hl & Hm & Hin). exists latest. split_and!; [done..|]. intros qc Ho. destruct (Hin qc Ho) as (x & Hx & Hb).
        exists x. split; [by right|done]. }
    apply bind_inv in H as ([] & Hle & H).
    apply check_inv, Z.leb_le in Hle. apply bind_inv in H as (n & Hn & H). unfold is_needed in Hn.
    apply bind_inv in Hn as (latest & Hl & Hn). injection Hn as <-. exists latest. split; [done|].
    destruct (negb (qc_claim_le (to_qc_claim qc) latest)) eqn:E.
    + injection H as <- <-. split; [split_and!; [done|done|by apply negb_true_iff in E]|]. intros ? [= <-]. exists s. split; [by left|done].
    + apply bind_inv in H as (c & Hc & H). injection H as <- <-. split; [congruence|done].
Qed.

(** ** Merkle roots *)

Context (hash_nonzero : ∀ m, sha256_empty (hash_bytes m) = false).

Lemma merkle_pow2_nonzero fuel : ∀ async l r, calculate_merkle_pow2 hash_bytes fuel async l = Ok r → sha256_empty r = false.
Proof.
  induction fuel as [|fuel IH]; intros async l r H; [done|]. cbn [calculate_merkle_pow2] in H.
  apply bind_inv in H as ([] & _ & H). apply bind_inv in H as ([] & _ & H). destruct (_ =? 2).
  - apply bind_inv in H as (a & _ & H). apply bind_inv in H as (b & _ & H). injection H as <-. apply hash_nonzero.
  - destruct (_ && _); [apply bind_inv in H as (rs & _ & H); by eapply IH|].
    apply bind_inv in H as (a & _ & H). apply bind_inv in H as (b & _ & H). injection H as <-. apply hash_nonzero.
Qed.

Lemma calculate_merkle_nonzero l r : calculate_merkle hash_bytes l = Ok r → l ≠ [] → Forall (λ d, sha256_empty d = false) l →
  sha256_empty r = false.
Proof.
  intros H Hne HF. unfold calculate_merkle in H. cbn [calculate_merkle_aux] in H.
  destruct (_ <=? 1); [destruct l; [done|]; injection H as <-; by apply Forall_cons in HF as [? _]|].
  destruct (_ =? bit_floor _); [by eapply merkle_pow2_nonzero|].
  apply bind_inv in H as (a & _ & H). apply bind_inv in H as (b & _ & H). injection H as <-. apply hash_nonzero.
Qed.

Lemma leaf_digests_nonzero l : Forall (λ d, sha256_empty d = false) (leaf_digests l).
Proof.
  induction l as [|s l IH]; [constructor|]. cbn [leaf_digests]. apply Forall_app. split; [done|].
  constructor; [apply hash_nonzero|constructor].
Qed.

(** The finality root of a claim is empty exactly when the claim is on the genesis block. *)
Lemma finality_root_empty s l B claim root : state_chain (s :: l) B → get_finality_mroot_claim s claim = Ok root →
  ∃ m genesis, next_metadata (s_core (b_bhs s)) claim = Ok m ∧
    is_genesis_block_num (s_core (b_bhs s)) (md_latest_qc_claim_block_num m) = Ok genesis ∧ sha256_empty root = genesis.
Proof.
  intros Hch H. unfold get_finality_mroot_claim in H. apply bind_inv in H as (m & Hm & H). apply bind_inv in H as (g & Hg & H).
  exists m, g. split; [done|]. split; [done|]. destruct g; [by injection H as <-|].
  destruct (finality_tree_ok _ _ _ Hch) as (_ & Hroot & _). rewrite Hroot in H. case_bool_decide as Hn; [|done].
  eapply calculate_merkle_nonzero; [exact H| |apply Forall_take, leaf_digests_nonzero].
  pose proof (co_valid _ _ _ _ (state_chain_ok _ _ _ Hch)) as Hv. pose proof (final_num_ge_root B Hv) as Hf. unfold leaves_upto.
  intros Hnil. apply (f_equal length) in Hnil. rewrite length_take, length_leaves_cons in Hnil. cbn [length] in Hnil. lia.
Qed.

(** ** Producing and receiving *)

Context (recover : signature_type → sha256 → result public_key_type) (signer : sha256 → list signature_type).
Context (validator : Z → gset sha256 → list sha256 → result unit).

Record produced (db : fork_db) (p : block_state) (when : Z) (fs trxs : list sha256) (ex : execution) (s : block_state)
    (bb : building_block_if) (tm : sha256) (qc : option qc_t) (claim : qc_claim_t) : Prop := {
  pr_features : fs ≠ [] → validator (s_timestamp (b_bhs p)) (s_activated_protocol_features (b_bhs p)) fs = Ok tt;
  pr_once : NoDup fs;
  pr_bb : start_block p when fs = Ok bb;
  pr_trx : calculate_trx_merkle trxs = Ok tm;
  pr_action : calculate_merkle hash_bytes (ex_action_digests ex) = Ok (b_action_mroot s);
  pr_qc : get_qc_data db p = Ok (qc, claim);
  pr_root : get_finality_mroot_claim p claim = Ok (h_action_mroot (s_header (b_bhs s)));
  pr_next : next_from_input (b_bhs p) (next_input bb tm ex claim (h_action_mroot (s_header (b_bhs s)))) = Ok (b_bhs s);
  pr_digest : compute_finality_digest (b_bhs s) = Ok (b_strong_digest s);
  pr_valid : ∃ v, new_valid p (b_bhs s) (b_action_mroot s) (b_strong_digest s) = Ok v ∧ b_valid s = Some v;
  pr_agg : aggregating_qc_new (s_active_finalizer_policy (b_bhs s)) (pending_policy (b_bhs s)) = Ok (b_aggregating_qc s) ∧
    b_weak_digest s = create_weak_digest (b_strong_digest s);
  pr_block : ∃ pa sig sigs, get_producer_for_block_at (b_bhs p) (s_timestamp (b_bhs s)) = Ok pa ∧
    verify_signee recover sig (s_block_id (b_bhs s)) sigs (authority pa) = Ok tt ∧
    b_block s = inject_additional_signatures (SignedBlock (s_header (b_bhs s)) sig trxs
      (match qc with Some qc => emplace_extension [] 3 (pack_qc qc) | None => [] end)) sigs }.

(** What [start_block] takes from its arguments. *)
Lemma start_block_inv p when fs bb : start_block p when fs = Ok bb →
  bb_parent bb = p ∧ bb_timestamp bb = when ∧ bb_new_protocol_feature_activations bb = fs ∧
  ∃ pa, get_producer_for_block_at (b_bhs p) when = Ok pa ∧ producer_name (bb_active_producer_authority bb) = producer_name pa.
Proof.
  intros H. unfold start_block in H. apply bind_inv in H as (pa & Hpa & H). apply bind_inv in H as ([sl pol] & _ & H).
  destruct (list_find _ _) as [[? ?]|]; [|done]. injection H as <-. eauto 10.
Qed.

(** It depends on the header state of the parent only. *)
Lemma start_block_same p p' when fs bb : b_bhs p' = b_bhs p → start_block p when fs = Ok bb →
  start_block p' when fs = Ok (BuildingBlockIf p' (bb_timestamp bb) (bb_active_producer_authority bb)
    (bb_new_protocol_feature_activations bb) (bb_active_proposer_policy bb) (bb_block_num bb)).
Proof.
  intros Heq H. unfold start_block in *. rewrite Heq. apply bind_inv in H as (pa & Hpa & H). rewrite Hpa, bind_ok.
  apply bind_inv in H as ([sl pol] & Hpol & H). rewrite Hpol, bind_ok. destruct (list_find _ _) as [[? ?]|]; [|done].
  by injection H as <-.
Qed.

Lemma next_from_input_header s input s' : next_from_input s input = Ok s' →
  h_action_mroot (s_header s') = in_finality_mroot_claim input ∧ h_transaction_mroot (s_header s') = in_transaction_mroot input ∧
  h_timestamp (s_header s') = in_timestamp input.
Proof.
  intros H. unfold next_from_input in H. apply bind_inv in H as (fd & _ & H). apply bind_inv in H as (pd & _ & H).
  cbv zeta in H. destruct (bool_decide _); by apply finish_next_exts in H as [_ ->].
Qed.

Lemma next_from_input_id s input s' : next_from_input s input = Ok s' → s_block_id s' = calculate_id (s_header s').
Proof.
  intros H. unfold next_from_input in H. apply bind_inv in H as (fd & _ & H). apply bind_inv in H as (pd & _ & H).
  cbv zeta in H. destruct (bool_decide _); by rewrite (proj2 (finish_next_exts _ _ _ _ _ _ H)), (finish_next_id _ _ _ _ _ _ H).
Qed.

Lemma produce_block_inv db p when fs trxs ex s : produce_block recover validator signer db p when fs trxs ex = Ok s →
  ∃ bb tm qc claim, produced db p when fs trxs ex s bb tm qc claim.
Proof.
  intros H. unfold produce_block in H. apply bind_inv in H as ([] & Hval & H). apply bind_inv in H as (bb & Hbb & H).
  apply bind_inv in H as ([] & Honce & H). apply check_inv, bool_decide_eq_true in Honce. apply bind_inv in H as (ab & Hab & H).
  destruct (start_block_inv _ _ _ _ Hbb) as (Hpar & _).
  unfold assemble_produced in Hab. rewrite Hpar in Hab. apply bind_inv in Hab as (tm & Htm & Hab).
  apply bind_inv in Hab as (am & Ham & Hab). apply bind_inv in Hab as ([qc claim] & Hqc & Hab).
  apply bind_inv in Hab as (root & Hroot & Hab). apply bind_inv in Hab as (bhs & Hbhs & Hab).
  apply bind_inv in Hab as (dg & Hdg & Hab). apply bind_inv in Hab as (v & Hv & Hab). injection Hab as <-.
  unfold complete_block, block_state_assemble in H. cbn [ab_bhs ab_trx_receipts ab_valid ab_qc ab_action_mroot] in H.
  apply bind_inv in H as (pa & Hpa & H). apply bind_inv in H as (s0 & Hs0 & H). apply bind_inv in H as (b & Hb & H).
  unfold block_state_of in Hs0. apply bind_inv in Hs0 as (strong & Hst & Hs0). apply bind_inv in Hs0 as (agg & Hagg & Hs0).
  assert (strong = dg) as -> by congruence. injection Hs0 as <-. injection H as <-.
  destruct (next_from_input_header _ _ _ Hbhs) as (Hmr & _). cbn in Hmr.
  exists bb, tm, qc, claim. split; cbn [b_bhs b_action_mroot b_strong_digest b_valid b_block]; rewrite ?Hmr; eauto.
  { destruct fs; [done|]. by intros _. }
  unfold sign in Hb. destruct (last (signer (s_block_id bhs))) as [sig|]; [|done]. apply bind_inv in Hb as ([] & Hver & Hb).
  injection Hb as <-. cbn. eauto 10.
Qed.

(** A node that has the same state of the block, and the same validation tree once it executed the block. *)
Definition knows (p p' : block_state) : Prop := same_block p p' ∧ (b_validated p' = true → b_valid p' = b_valid p).

Lemma verify_qc_same p p' qc : same_block p p' → b_verify_qc p' qc = b_verify_qc p qc.
Proof.
  intros [H1 H2]. unfold b_verify_qc, b_get_finalizer_policies, b_make_block_ref. by rewrite H1, H2.
Qed.

Lemma mroot_claim_same p p' claim : b_bhs p' = b_bhs p → b_valid p' = b_valid p →
  get_finality_mroot_claim p' claim = get_finality_mroot_claim p claim.
Proof. intros H1 H2. unfold get_finality_mroot_claim, get_validation_mroot. by rewrite H1, H2. Qed.

Lemma core_claim B c : BlockTree.valid B → core_of B = Ok c → latest_qc_claim c = Ok (QcClaim (claim_num B) (claim_strong B)).
Proof.
  intros Hv Hc. destruct (core_of_sim B Hv) as (c' & f & Hc' & Hs). assert (c' = c) as -> by congruence.
  by rewrite (latest_qc_claim_ok _ _ _ (sim_wf _ _ _ Hs)).
Qed.

(** The checks of the claim pass for the certificate chosen by [get_qc_data]. *)
Lemma claim_checks prev claim qc n : match qc with
    | None => claim = prev
    | Some q => claim = to_qc_claim q ∧ qc_block_num q <= n ∧ qc_claim_le claim prev = false
    end → claim_block_num prev <= n →
  claim_block_num prev <= claim_block_num claim <= n ∧
  (if (claim_block_num claim =? claim_block_num prev) && Bool.eqb (is_strong_qc claim) (is_strong_qc prev) then qc = None
   else (claim_block_num claim = claim_block_num prev → is_strong_qc claim = true) ∧
     ∃ q, qc = Some q ∧ qc_block_num q = claim_block_num claim ∧ qc_is_strong q = is_strong_qc claim).
Proof.
  intros H Hn. destruct qc as [q|].
  - destruct H as (-> & Hq & Hle). unfold qc_claim_le in Hle. apply orb_false_iff in Hle as [H1 H2]. cbn in *.
    apply Z.ltb_ge in H1. split; [lia|]. destruct (Z.eqb_spec (qc_block_num q) (claim_block_num prev)) as [E|E]; cbn in *.
    + destruct (qc_is_strong q) eqn:Es, (is_strong_qc prev); cbn in *; try done. eauto.
    + split; [done|]. eauto.
  - subst. split; [lia|]. by rewrite Z.eqb_refl, eqb_reflx.
Qed.

Lemma produced_invariants db p l B when fs trxs ex s bb tm qc claim p' :
  accepted_ok (p :: l) B → produced db p when fs trxs ex s bb tm qc claim → knows p p' →
  verify_basic_proper_block_invariants (b_block s) p' = Ok qc.
Proof.
  intros Hok [_ Hnd Hbb Htrx Ham Hqc Hroot Hnext Hdg (v & Hv & _) Hagg (pa & sig & sigs & Hpa & Hver & Hb)] [[Hbhs Hdig] Hval].
  destruct (produced_extensions (s_header (b_bhs s)) sig trxs qc sigs) as (Hh & _ & _ & bexts & Hbx & _ & Hq);
    [by eapply verify_signee_nodup|]. rewrite <- Hb in Hh, Hbx.
  destruct (start_block_inv _ _ _ _ Hbb) as (_ & _ & Hfs & _).
  destruct (next_from_input_inv _ _ _ Hnext) as (fd & pd & exts & Hf & Hexts & H2 & _ & _ & _ & _ & _ & _ & Hsv & _); [by cbn; rewrite Hfs|].
  destruct (header_extension_found _ _ _ Hexts H2) as [Hfe _]. unfold verify_basic_proper_block_invariants.
  rewrite Hh, Hsv. rewrite assert_bind by done. rewrite Hbx, bind_ok, Hfe, bind_ok, Hbhs.
  destruct (ak_claim _ _ Hok p l eq_refl) as (pf & Hpf & Hpc).
  destruct (header_extension_found _ _ _ (ak_exts _ _ Hok p l eq_refl) Hpf) as [_ Hleg]. cbn [fe_qc_claim in_most_recent_ancestor_with_qc next_input].
  rewrite Hleg, Hpf, Hpc. cbv zeta. rewrite check_bind by done.
  destruct (header_chain_ok _ _ (ak_headers _ _ Hok)) as (p0 & rp & l' & Heq & Hco). injection Heq as <- <- <-.
  unfold get_qc_data in Hqc. apply bind_inv in Hqc as (br & _ & Hqc).
  destruct (get_qc_data_loop_inv _ _ _ _ Hqc) as (latest & Hl & Hcase & _).
  rewrite (core_claim _ _ (co_valid _ _ _ _ Hco) (co_core _ _ _ _ Hco)) in Hl. injection Hl as <-.
  assert (num_from_id (s_block_id (b_bhs p)) = s_block_num (b_bhs p)) as Hid
    by (rewrite (co_num _ _ _ _ Hco); unfold num; by rewrite (co_ref _ _ _ _ Hco)).
  rewrite Hid in Hcase. destruct (claim_checks _ _ _ _ Hcase) as (Hr & Hchk);
    [cbn; rewrite (co_num _ _ _ _ Hco); apply (claim_num_le _ (co_valid _ _ _ _ Hco))|].
  rewrite check_bind by solve_test. rewrite check_bind by solve_test. rewrite Hq.
  destruct (_ && _) eqn:E in Hchk |- *.
  - subst qc. done.
  - destruct Hchk as (Hst & q & -> & Hqn & Hqs). cbn [fmap option_fmap option_map].
    assert ((if claim_block_num claim =? claim_block_num (QcClaim (claim_num B) (claim_strong B))
      then check (is_strong_qc claim) invalid_qc_claim else Ok tt) = Ok tt) as ->.
    { destruct (Z.eqb_spec (claim_block_num claim) (claim_block_num (QcClaim (claim_num B) (claim_strong B)))) as [E'|]; [|done].
      by rewrite Hst. }
    rewrite bind_ok, check_bind by done. rewrite check_bind by (by apply Z.eqb_eq). rewrite check_bind by (rewrite Hqs; apply eqb_reflx).
    destruct (b_validated p') eqn:Ev; [|done]. specialize (Hval eq_refl).
    unfold new_valid in Hv. rewrite Hval.
    destruct (b_valid p) as [vp|] eqn:Evp; [|done]. rewrite assert_bind by done. rewrite (mroot_claim_same p p') by congruence.
    rewrite Hroot, bind_ok. by rewrite check_true by (by apply bool_decide_eq_true_2).
Qed.

Lemma produced_accepted db p l l' B when fs trxs ex s bb tm qc claim p' :
  accepted_ok (p :: l) B → state_chain (p :: l') B → produced db p when fs trxs ex s bb tm qc claim →
  match qc with Some qc => b_verify_qc p qc = Ok tt | None => True end → knows p p' →
  ∃ s', accept_block recover validator (s_block_id (b_bhs s)) (b_block s) p' = Ok s' ∧
    same_block s s' ∧ b_block s' = b_block s ∧ b_valid s' = None.
Proof.
  intros Hok Hch Hpr Hcert Hk. pose proof (produced_invariants _ _ _ _ _ _ _ _ _ _ _ _ _ _ Hok Hpr Hk) as Hinv.
  destruct Hpr as [Hvalid Hnd Hbb Htrx Ham Hqc Hroot Hnext Hdg _ (Hagg & _) (pa & sig & sigs & Hpa & Hver & Hb)]. destruct Hk as [Hsame _].
  pose proof Hsame as [Hbhs _]. destruct (start_block_inv _ _ _ _ Hbb) as (Hpar & Hwhen & Hfs & pa' & Hpa' & Hname).
  destruct (next_from_input_header _ _ _ Hnext) as (_ & Htm & Hts). cbn in Htm, Hts.
  destruct (produced_extensions (s_header (b_bhs s)) sig trxs qc sigs) as (Hh & Hsig & Htrxs & bexts & _ & Hadd & _);
    [by eapply verify_signee_nodup|]. rewrite <- Hb in Hh, Hsig, Htrxs, Hadd.
  destruct (finality_root_empty _ _ _ _ _ Hch Hroot) as (m & g & Hm & Hg & Hempty).
  destruct (own_header_ok validator _ _ _ pa' m g Hnext) as (Hhdr & _);
    [by cbn; rewrite Hpar|by cbn; rewrite Hwhen|done|by cbn; rewrite Hfs|by cbn; rewrite Hfs|done|done|done|].
  unfold accept_block. rewrite Hinv, Htrxs, Htrx. unfold verify_basic_proper_block_invariants in Hinv.
  apply bind_inv in Hinv as ([] & Hproper & _). rewrite Hproper, !bind_ok. rewrite check_bind by (apply bool_decide_eq_true_2; by rewrite Hh).
  unfold block_state_from_block, verify_block_sig. rewrite Hadd, bind_ok, Hh, Hbhs. fold (s_timestamp (b_bhs s)).
  rewrite Hpa, bind_ok, Hsig, <- (next_from_input_id _ _ _ Hnext), Hver, bind_ok, Hhdr, bind_ok.
  unfold block_state_of. rewrite Hdg, bind_ok, Hagg, !bind_ok. cbn [b_bhs]. rewrite check_bind by (by apply bool_decide_eq_true_2).
  assert (match qc with Some qc => b_verify_qc p' qc | None => Ok tt end = Ok tt) as ->
    by (destruct qc; [by rewrite (verify_qc_same p p')|done]). rewrite bind_ok. eexists. split; [done|]. done.
Qed.

Lemma produced_applied db p l' B when fs trxs ex s bb tm qc claim p' s' :
  state_chain (p :: l') B → s_block_num (b_bhs p) < u32_max →
  produced db p when fs trxs ex s bb tm qc claim →
  b_bhs p' = b_bhs p → b_valid p' = b_valid p → same_block s s' → b_block s' = b_block s → b_valid s' = None →
  ∃ s'', apply_block p' s' ex = Ok s'' ∧ same_block s s'' ∧ b_block s'' = b_block s ∧ b_valid s'' = b_valid s ∧
    b_validated s'' = true.
Proof.
  intros Hch Hmax [_ Hnd Hbb Htrx Ham Hqc Hroot Hnext Hdg (v & Hv & Hsv) _ (pa & sig & sigs & _ & Hver & Hb)] Hbhs Hpv [Hs1 Hs2] Hsb Hnone.
  destruct (start_block_inv _ _ _ _ Hbb) as (Hpar & Hwhen & Hfs & _).
  destruct (next_from_input_inv _ _ _ Hnext) as (fd & pd & exts & Hf & Hexts & H2 & H0 & _ & Hprev & _ & _ & _ & Hproper & _); [by cbn; rewrite Hfs|].
  cbn [in_most_recent_ancestor_with_qc in_new_protocol_feature_activations next_input] in *. rewrite Hfs in *.
  destruct (next_from_input_header _ _ _ Hnext) as (_ & Htm & Hts). cbn in Htm, Hts.
  destruct (produced_extensions (s_header (b_bhs s)) sig trxs qc sigs) as (Hh & _ & _ & bexts & Hbx & _ & Hq3);
    [by eapply verify_signee_nodup|]. rewrite <- Hb in Hh, Hbx.
  pose proof (finish_next_exts _ _ _ _ _ _ Hf) as [He _].
  assert (get_new_protocol_feature_activations (s_header_exts (b_bhs s')) = Ok fs) as Hact.
  { unfold get_new_protocol_feature_activations. rewrite Hs1, He, H0. case_bool_decide as E; [by rewrite E|done]. }
  assert (extract_qc_data (b_block s') = Ok (Some (qc, claim))) as Hdata.
  { unfold extract_qc_data. rewrite Hsb, Hh, Hexts, bind_ok, H2, Hbx, bind_ok, Hq3. by destruct qc. }
  unfold apply_block. rewrite Hact, bind_ok, Hsb, Hh, Hts, Hwhen, (start_block_same _ p' _ _ _ Hbhs Hbb), bind_ok, <- Hsb, Hdata, bind_ok.
  set (bb' := BuildingBlockIf p' _ _ _ _ _). unfold assemble_validating. rewrite Ham, bind_ok. cbn [fst snd].
  assert (next_input bb' (h_transaction_mroot (s_header (b_bhs s))) ex claim (h_action_mroot (s_header (b_bhs s'))) =
    next_input bb tm ex claim (h_action_mroot (s_header (b_bhs s)))) as ->.
  { unfold next_input, new_proposer_policy, new_finalizer_policy, get_next_proposer_schedule_version, bb'. cbn. by rewrite Hbhs, Hpar, Htm, Hs1. }
  cbn [bb_parent bb']. rewrite Hbhs, Hnext, bind_ok. unfold set_validation. rewrite Hnone.
  assert (new_valid p' (b_bhs s) (b_action_mroot s) (b_strong_digest s') = Ok v) as ->
    by (unfold new_valid; rewrite Hpv, Hbhs, Hs2; exact Hv). rewrite !bind_ok. cbv beta iota.
  set (x := BlockState (b_bhs s') _ _ _ _ _ _ _ _).
  assert (state_chain (x :: p :: l') (Child B (b_make_block_ref x) claim)) as Hx.
  { apply (sc_next p l' B (s_header (b_bhs s)) exts fs (FinalityExtension claim fd pd) x v Hch); cbn;
      rewrite ?Hs1, ?Hs2; try done. by rewrite Hprev; cbn; rewrite Hpar. }
  assert (check_finality_mroot x = Ok tt) as ->.
  { apply (finality_root_ok _ _ _ _ _ _ Hch Hx); cbn [x b_bhs]; by rewrite Hs1. }
  rewrite bind_ok. rewrite check_bind by (apply bool_decide_eq_true_2; cbn; by rewrite Hs1).
  eexists. split; [done|]. unfold same_block. cbn. by rewrite Hs1, Hs2, Hsv.
Qed.

(** A block made on an executed head is accepted and executed by every node with the same
    state of the head, once the certificate in it verifies. *)
Lemma produced_block_ok db p l l' B when fs trxs ex s p' :
  accepted_chain recover validator (p :: l) B → state_chain (p :: l') B → s_block_num (b_bhs p) < u32_max →
  produce_block recover validator signer db p when fs trxs ex = Ok s →
  (∀ qc claim, get_qc_data db p = Ok (Some qc, claim) → b_verify_qc p qc = Ok tt) → knows p p' →
  ∃ s', accept_block recover validator (s_block_id (b_bhs s)) (b_block s) p' = Ok s' ∧ same_block s s' ∧
    (b_valid p' = b_valid p → ∃ s'', apply_block p' s' ex = Ok s'' ∧ same_block s s'' ∧ b_valid s'' = b_valid s ∧
       b_validated s'' = true).
Proof.
  intros Hacc Hch Hmax Hprod Hcert Hk. pose proof (accepted_chain_ok _ _ _ _ Hacc) as Hok.
  destruct (produce_block_inv _ _ _ _ _ _ _ Hprod) as (bb & tm & qc & claim & Hpr).
  destruct (produced_accepted _ _ _ _ _ _ _ _ _ _ _ _ _ _ p' Hok Hch Hpr) as (s' & Ha & Hs & Hb & Hn);
    [|done|exists s'; split; [done|]; split; [done|]].
  - destruct qc as [qc|]; [|done]. apply (Hcert qc claim), Hpr.
  - intros Hv. destruct Hk as [[Hbhs _] _].
    destruct (produced_applied _ _ _ _ _ _ _ _ _ _ _ _ _ p' s' Hch Hmax Hpr Hbhs Hv Hs Hb Hn) as (s'' & H1 & H2 & _ & H3).
    by exists s''.
Qed.

End Theory.
