(* ===== verification/Node.v ===== *)
(** * A node over time

    The operations of the controller composed: a node receives blocks, aggregates
    votes, produces blocks on its head and applies the best branch of its
    fork database, in any order. In every state it can reach, the chain head is an
    executed block of the fork database, every block of the database was accepted
    with certified claims, and the validation trees of the executed ones are right; a block it
    produces is accepted by every node with the same head. *)

From stdpp Require Import gmap relations.
From S2P Require Import Prelude Sha256 Merkle FinalityCore BlockTree OrderedDiff ProducerSchedule FinalizerPolicy Qc BlockHeaderState BlockHeaderTheory QcTheory QcSignatures BlockState BlockStateTheory ForkDatabase ForkDatabaseTheory ForkSwitch ForkSwitchTheory BlockAcceptance BlockAcceptanceTheory SeenBlocks BlockProduction BlockProductionTheory.
Open Scope Z_scope.

Section Node.
Context {bls : Bls} {codec : ExtensionCodec} {digests : Digests codec} {bcodec : BlockExtensionCodec bls codec}.
Context {laws : ExtensionCodecLaws codec} {blaws : BlockExtensionCodecLaws bls codec bcodec} {blslaws : BlsLaws bls}.
Context (hash_nonzero : ∀ m, sha256_empty (hash_bytes m) = false).
Context (recover : signature_type → sha256 → result public_key_type) (signer : sha256 → list signature_type).
Context (validator : Z → gset sha256 → list sha256 → result unit).

(** The header states that exist in the network and the genesis block; when [trusted], the
    ids of existing blocks do not collide. *)
Context (P : block_header_state → Prop) (G : block) (trusted : Prop) (trusted_ids : trusted → no_collision P).
Notation seen := (seen recover validator P G).
Notation exists_block := (exists_block recover validator P G).

(** ** Steps *)

(** The execution of a block: its transactions are run with some outcome, are refused, or
    are interrupted. *)
Definition run_block (run : block_state → block_state → result execution) (head s : block_state) : result block_state :=
  ex ← run head s; apply_block head s ex.

(** The certificate a producer takes for a new block gives no finalizer of both policies two
    different votes: nothing in the aggregation ensures it. *)
Definition keeps_dual_rule (db : fork_db) (p : block_state) : Prop :=
  ∀ qc claim policies, get_qc_data db p = Ok (Some qc, claim) → b_get_finalizer_policies p (qc_block_num qc) = Ok policies →
    dual_rule policies qc.

(** Blocks are below the largest number of a block, and their finalizer policies are such
    as the intrinsics accept. *)
Inductive controller_step : node (BS := block_state) → node (BS := block_state) → Prop :=
| step_receive nd id b db' res o :
    create_block_handle recover validator (nd_db nd) id b = Ok (db', res, o) → num_from_id (h_previous (sb_header b)) < u32_max →
    (∀ s, o = Some s → P (b_bhs s) ∧ policies_ok (b_bhs s)) → controller_step nd (Node db' (nd_head nd))
| step_vote nd s vote s' a :
    get_block (nd_db nd) (bs_id s) true = Some s → b_aggregate_vote s vote = Ok (s', a) →
    controller_step nd (Node (update_block (nd_db nd) s') (nd_head nd))
| step_apply nd run brk nd' res : maybe_apply_blocks (run_block run) brk nd = (nd', res) → controller_step nd nd'
| step_produce nd p when fs trxs ex s db1 a db2 :
    head_state nd = Ok p → s_block_num (b_bhs p) < u32_max →
    produce_block recover validator signer (nd_db nd) p when fs trxs ex = Ok s → keeps_dual_rule (nd_db nd) p →
    P (b_bhs s) → policies_ok (b_bhs s) → commit_produced (nd_db nd) s = Ok (db1, a) → log_irreversible db1 (bs_id s) = Ok db2 →
    controller_step nd (Node db2 (bs_id s)).

(** ** What holds of the blocks *)

(** The branch of the block tree that a state stands for is given by its id. *)
Record tracked_state (tree : sha256 → block) (s : block_state) : Prop := {
  ts_accepted : seen s (tree (bs_id s));
  ts_header : sb_header (b_block s) = s_header (b_bhs s);
  ts_executed : b_valid s ≠ None → ∃ l, state_chain (s :: l) (tree (bs_id s));
  ts_validated : b_validated s = true → b_valid s ≠ None;
  ts_votes : votes_ok s }.

Definition child_of (tree : sha256 → block) (p s : block_state) : Prop :=
  ∃ fs f, finish_next (b_bhs p) (s_header (b_bhs s)) (s_header_exts (b_bhs s)) fs f = Ok (b_bhs s) ∧
    find_extension 2 (s_header_exts (b_bhs s)) = Some (finality_extension_ext f) ∧
    tree (bs_id s) = Child (tree (bs_id p)) (b_make_block_ref s) (fe_qc_claim f).

(** A block that is final on some branch, or before one that is. *)
Definition is_final (C : block) : Prop := ∃ B, exists_block B ∧ at_num B (final_num B) = Some C.
Definition irreversible (A : block) : Prop := A = G ∨ ∃ C, is_final C ∧ (A = C ∨ ancestor A C).

Record tracked (tree : sha256 → block) (db : fork_db) (r : block_state) : Prop := {
  tk_inv : fd_inv db r;
  tk_state : ∀ id s, known db r id s → tracked_state tree s;
  tk_child : ∀ id s p, fd_index db !! id = Some s → known db r (bs_previous s) p → child_of tree p s;
  tk_lib : trusted → fd_pending_savanna_lib_id db = sha256_zero ∨ ∃ C, is_final C ∧ id_of C = fd_pending_savanna_lib_id db;
  tk_root : trusted → irreversible (tree (bs_id r)) }.

Lemma get_block_iff (db : fork_db) r id s : fd_inv db r → get_block db id true = Some s ↔ known db r id s.
Proof.
  intros Hinv. split.
  - intros H. unfold get_block, is_root in H. rewrite (fi_root _ _ Hinv) in H. cbn [andb] in H. case_bool_decide as E; [|by right].
    left. split; congruence.
  - intros H. pose proof (block_or_root_ok _ _ _ _ Hinv H) as Hb. unfold block_or_root in Hb. destruct (get_block db id true); congruence.
Qed.

(** A smaller database. *)
Lemma tracked_sub tree db r db' r' : tracked tree db r → fd_inv db' r' →
  (∀ id s, known db' r' id s → known db r id s) → fd_index db' ⊆ fd_index db →
  fd_pending_savanna_lib_id db' = fd_pending_savanna_lib_id db → (trusted → irreversible (tree (bs_id r'))) → tracked tree db' r'.
Proof.
  intros [_ Hs Hc Hlib _] Hinv Hk Hsub Hl Hr. split; [done|by eauto| |by rewrite Hl|done]. intros id s p Hid Hp. eapply (Hc id); [by eapply lookup_weaken|by apply Hk].
Qed.

(** ** Other states of a known block *)

Record updates (s s' : block_state) : Prop := {
  up_bhs : b_bhs s' = b_bhs s;
  up_digest : b_strong_digest s' = b_strong_digest s;
  up_block : b_block s' = b_block s;
  up_validated : b_validated s = true → b_validated s' = true }.

Lemma updates_same s s' : updates s s' → same_state s s'.
Proof. intros [H1 _ _ _]. split; cbn; unfold extract_qc_claim; by rewrite H1. Qed.

Lemma updates_block s s' : updates s s' → same_block s s' ∧ b_make_block_ref s' = b_make_block_ref s.
Proof. intros [H1 H2 _ _]. split; [by split|]. unfold b_make_block_ref. by rewrite H1, H2. Qed.

Lemma same_block_chain (l : list block_state) : Forall2 same_block l l.
Proof. induction l; constructor; [by split|done]. Qed.

Lemma child_of_updates tree p p' s s' : updates p p' → updates s s' → child_of tree p s → child_of tree p' s'.
Proof.
  intros Hp Hs (fs & f & Hf & He & Ht). pose proof (ss_id _ _ (updates_same _ _ Hs)) as Hi.
  pose proof (ss_id _ _ (updates_same _ _ Hp)) as Hip. exists fs, f.
  rewrite (up_bhs _ _ Hp), (up_bhs _ _ Hs), (proj2 (updates_block _ _ Hs)), Hi, Hip. done.
Qed.

(** Every block of the first database is in the second; or both have the same blocks. *)
Definition grown (db : fork_db) (r : block_state) (db' : fork_db) (r' : block_state) : Prop :=
  updates r r' ∧ ∀ id x, known db r id x → ∃ x', known db' r' id x' ∧ updates x x'.
Definition replaced (db : fork_db) (r : block_state) (db' : fork_db) (r' : block_state) : Prop :=
  grown db r db' r' ∧ ∀ id x', known db' r' id x' → ∃ x, known db r id x.

Lemma updates_refl x : updates x x.
Proof. by split. Qed.

Lemma replaced_refl db r : replaced db r db r.
Proof. split; [split; [apply updates_refl|]|]; intros id x Hx; exists x; [split; [done|apply updates_refl]|done]. Qed.

Lemma grown_trans db r db1 r1 db2 r2 : grown db r db1 r1 → grown db1 r1 db2 r2 → grown db r db2 r2.
Proof.
  assert (∀ x y z, updates x y → updates y z → updates x z) as Htr by (intros x y z [] []; split; [congruence..|auto]).
  intros [H1 H2] [H3 H4]. split; [by eapply Htr|]. intros id x Hx. destruct (H2 _ _ Hx) as (y & Hy & Hxy).
  destruct (H4 _ _ Hy) as (z & Hz & Hyz). exists z. split; [done|by eapply Htr].
Qed.

(** Another state of a known block stands for the same block. *)
Lemma updated_state tree s s' : tracked_state tree s → updates s s' →
  (b_valid s' ≠ None → ∃ l, state_chain (s' :: l) (tree (bs_id s'))) → (b_validated s' = true → b_valid s' ≠ None) →
  votes_ok s' → tracked_state tree s'.
Proof.
  intros [(l & Hl & HF & Hrt) Hh _ _ _] Hup Hval Hvd Hvo. split; [|by rewrite (up_block _ _ Hup), (up_bhs _ _ Hup)|done|done|done].
  exists l. rewrite (ss_id _ _ (updates_same _ _ Hup)). split; [|split; [|done]].
  - eapply ac_update; [done|]. constructor; [apply (updates_block _ _ Hup)|apply same_block_chain].
  - apply Forall_cons in HF as [HP HF]. constructor; [by rewrite (up_bhs _ _ Hup)|done].
Qed.

Lemma update_root tree db r s' : tracked tree db r → bs_id s' = bs_id r → updates r s' → tracked_state tree s' →
  tracked tree (update_block db s') s' ∧ replaced db r (update_block db s') s'.
Proof.
  intros [Hinv Hst Hch Hlib Hroot] Hr Hup Hs'. pose proof (updates_same _ _ Hup) as Hss.
  unfold update_block, is_root. rewrite (fi_root _ _ Hinv), Hr, bool_decide_eq_true_2 by done.
  assert (∀ id x, known (ForkDatabase (Some s') (fd_pending_savanna_lib_id db) (fd_index db)) s' id x →
    ∃ x0, known db r id x0 ∧ updates x0 x) as Hback.
  { intros id x [[-> ->]|Hx]; [exists r; split; [by left|done]|exists x; split; [by right|done]]. }
  split; [|split; [split; [done|]|]].
  2:{ intros id x [[-> ->]|Hx]; [exists s'; split; [by left|done]|exists x; split; [by right|apply updates_refl]]. }
  2:{ intros id x Hx. destruct (Hback _ _ Hx) as (x0 & ? & _). eauto. }
  split.
  + destruct Hinv as [H1 H2 H3 H4 H5 H6]. split; [done|by rewrite Hr, (ss_num _ _ Hss)|done|by rewrite Hr|done|done].
  + intros id x [[-> ->]|Hx]; [done|]. eapply Hst. by right.
  + intros id x p Hx Hp. destruct (Hback _ _ Hp) as (p0 & Hp0 & Hup0). eapply child_of_updates; [done|apply updates_refl|].
    by eapply (Hch id).
  + done.
  + rewrite Hr. done.
Qed.

Lemma update_indexed tree db r s s' : tracked tree db r → fd_index db !! bs_id s' = Some s → updates s s' → tracked_state tree s' →
  tracked tree (update_block db s') r ∧ replaced db r (update_block db s') r.
Proof.
  intros [Hinv Hst Hch Hlib Hroot] Hk Hup Hs'. pose proof (updates_same _ _ Hup) as Hss.
  pose proof (root_not_in _ _ (fi_idx _ _ Hinv) (fi_linked _ _ Hinv)) as Hnr.
  rewrite (update_in_index _ r _ _ Hinv Hk).
  assert (∀ id x, known (with_index db (<[bs_id s' := s']> (fd_index db))) r id x → ∃ x0, known db r id x0 ∧ updates x0 x) as Hback.
  { intros id x [[-> ->]|Hx]; [exists r; split; [by left|done]|]. cbn in Hx.
    apply lookup_insert_Some in Hx as [[<- <-]|[_ Hx]]; [exists s|exists x]; (split; [by right|done]). }
  split; [|split; [split; [apply updates_refl|]|]].
  2:{ intros id x [[-> ->]|Hx]; [exists r; split; [by left|apply updates_refl]|]. destruct (decide (bs_id s' = id)) as [<-|Hne].
      - exists s'. split; [right; apply lookup_insert_eq|]. assert (x = s) as -> by congruence. done.
      - exists x. split; [right; cbn; by rewrite lookup_insert_ne|apply updates_refl]. }
  2:{ intros id x Hx. destruct (Hback _ _ Hx) as (x0 & ? & _). eauto. }
  split.
  + by eapply replace_inv.
  + intros id x [[-> ->]|Hx]; [eapply Hst; by left|]. cbn in Hx.
    apply lookup_insert_Some in Hx as [[<- <-]|[_ Hx]]; [done|]. eapply Hst. by right.
  + intros id x p Hx Hp. destruct (Hback _ _ Hp) as (p0 & Hp0 & Hup0). destruct (Hback id x) as (x0 & Hx0 & Hupx); [by right|].
    eapply child_of_updates; [done|done|]. assert (fd_index db !! id = Some x0) as Hx1.
    { destruct Hx0 as [[-> ->]|Hx0]; [exfalso|done]. cbn [with_index fd_index] in Hx.
      apply lookup_insert_Some in Hx as [[E _]|[_ Hx]]; [rewrite E in Hk|]; congruence. }
    eapply (Hch id); [done|]. by rewrite <- (ss_previous _ _ (updates_same _ _ Hupx)).
  + done.
  + done.
Qed.

(** A known state is replaced by another one of the same block. *)
Lemma update_tracked tree db r s s' : tracked tree db r → known db r (bs_id s') s → updates s s' →
  (b_valid s' ≠ None → ∃ l, state_chain (s' :: l) (tree (bs_id s'))) → (b_validated s' = true → b_valid s' ≠ None) → votes_ok s' →
  ∃ r', tracked tree (update_block db s') r' ∧ replaced db r (update_block db s') r'.
Proof.
  intros Htk Hk Hup Hval Hvd Hvo. pose proof (updated_state _ _ _ (tk_state _ _ _ Htk _ _ Hk) Hup Hval Hvd Hvo) as Hs'.
  destruct Hk as [[Hr ->]|Hk]; [exists s'; by apply update_root|exists r; by eapply update_indexed].
Qed.

(** Votes and certificates leave the execution of a block alone. *)
Lemma keep_tracked tree db r s s' : tracked tree db r → known db r (bs_id s') s → updates s s' →
  b_valid s' = b_valid s → b_validated s' = b_validated s → b_action_mroot s' = b_action_mroot s → votes_ok s' →
  ∃ r', tracked tree (update_block db s') r' ∧ replaced db r (update_block db s') r'.
Proof.
  intros Htk Hk Hup Hv Hvd Ha Hvo.
  apply (update_tracked tree db r s); [done|done|done| |rewrite Hvd, Hv; apply (ts_validated _ _ (tk_state _ _ _ Htk _ _ Hk))|done].
  rewrite Hv. intros Hval.
  destruct (ts_executed _ _ (tk_state _ _ _ Htk _ _ Hk) Hval) as [l Hl]. exists l. rewrite (ss_id _ _ (updates_same _ _ Hup)).
  eapply sc_update; [done|]. split; [apply Hup|]. split; [apply Hup|done].
Qed.

(** ** New blocks *)

(** An accepted block is what the fork database expects of one built on its parent. *)
Lemma accepted_block_fits s p l B claim : accepted_ok (s :: p :: l) (Child B (b_make_block_ref s) claim) →
  node_ok s ∧ better s p ∧ bs_previous s = bs_id p ∧ num_from_id (bs_id s) = num_from_id (bs_id p) + 1.
Proof.
  intros Hok. pose proof (ak_headers _ _ Hok) as Hh. destruct (ak_claim _ _ Hok s (p :: l) eq_refl) as (f & Hf & _).
  destruct (header_chain_ok _ _ Hh) as (s' & r' & l' & Heq & Hco). injection Heq as <- <- <-.
  pose proof (co_valid _ _ _ _ Hco) as Hv. destruct (core_of_sim _ Hv) as (c & fl & Hc & Hs). rewrite (co_core _ _ _ _ Hco) in Hc. injection Hc as <-.
  assert (num_from_id (bs_id s) = bs_block_num s) as Hn by (cbn; rewrite (co_num _ _ _ _ Hco); reflexivity).
  cbn [fmap list_fmap] in Hh. inversion Hh as [|p0 rp l0 B0 h exts fs f_ext s0 r0 Hh' Hprev Hmax Hfin Href]; subst.
  destruct (header_chain_ok _ _ Hh') as (p' & r'' & l'' & Heq & Hcop). injection Heq as <- <- <-.
  pose proof (proj2 (finish_next_exts _ _ _ _ _ _ Hfin)) as Hhdr. rewrite <- Hhdr in Hprev.
  assert (num_from_id (bs_id p) = num B) as Hnp by (unfold num; by rewrite (co_ref _ _ _ _ Hcop)).
  pose proof Hv as (HvB & Hnum & Htime & _). assert (num_from_id (bs_id s) = num B + 1) as Hns by exact Hnum.
  destruct (sim_claimed _ _ _ _ _ Hv Hs) as (A & _ & HA & _ & Hlc & Hbr). destruct (valid_ancestor _ _ Hv HA) as (_ & Hlt & _).
  split; [|split; [|split; [exact Hprev|lia]]].
  - split; [done|]. split; [|split].
    + assert (bs_previous s = bs_id p) as -> by exact Hprev. lia.
    + cbn. unfold extract_qc_claim. rewrite Hf. by eexists.
    + cbn. rewrite Hlc, bind_ok. rewrite Hbr, bind_ok. exists (block_id (ref_of A)). split; [done|].
      rewrite num_child in Hlt. change (num A <= bs_block_num s). rewrite <- Hn.
      change (num A <= FinalityCore.block_num (b_make_block_ref s)). lia.
  - destruct (core_of_sim _ HvB) as (c' & fl' & Hc' & Hs'). rewrite (co_core _ _ _ _ Hcop) in Hc'. injection Hc' as <-.
    unfold better. cbn [bs_best block_state_like]. rewrite (sim_qc_time _ _ _ Hv Hs), (sim_qc_time _ _ _ HvB Hs'). cbn [fst snd].
    pose proof (qc_time_parent _ _ _ Hv). unfold time in Htime. rewrite (co_ref _ _ _ _ Hcop) in Htime. cbn [timestamp b_make_block_ref] in Htime. lia.
Qed.

(** A block accepted on [p]. *)
Definition built_on (B : block) (p s : block_state) : Prop :=
  ∃ l fs f, let C := Child B (b_make_block_ref s) (fe_qc_claim f) in
    accepted_chain recover validator (s :: p :: l) C ∧ Forall (λ x, P (b_bhs x)) (p :: l) ∧ root B = G ∧ sb_header (b_block s) = s_header (b_bhs s) ∧
    (b_valid s ≠ None → ∃ l', state_chain (s :: l') C) ∧ (b_validated s = true → b_valid s ≠ None) ∧ votes_ok s ∧
    finish_next (b_bhs p) (s_header (b_bhs s)) (s_header_exts (b_bhs s)) fs f = Ok (b_bhs s) ∧
    find_extension 2 (s_header_exts (b_bhs s)) = Some (finality_extension_ext f).

Definition set_tree (tree : sha256 → block) (id : sha256) (B : block) : sha256 → block := λ i, if bool_decide (i = id) then B else tree i.

Lemma set_tree_same tree id B : set_tree tree id B id = B.
Proof. unfold set_tree. by rewrite bool_decide_eq_true_2. Qed.

Lemma set_tree_other tree id B i : i ≠ id → set_tree tree id B i = tree i.
Proof. intros H. unfold set_tree. by rewrite bool_decide_eq_false_2. Qed.

(** Down a path of the database the blocks are ancestors. *)
Lemma path_tree tree db r k l c : tracked tree db r → path (fd_index db) k l c → tree c = tree k ∨ ancestor (tree c) (tree k).
Proof.
  intros Htk. pose proof (tk_inv _ _ _ Htk) as Hinv. induction 1 as [|k b l c Hk Hp IH]; [by left|]. right.
  destruct (known_prev _ _ _ _ Hinv Hk) as [q Hq]. destruct (tk_child _ _ _ Htk _ _ _ Hk Hq) as (fs & f & _ & _ & Ht).
  destruct (fi_idx _ _ Hinv _ _ Hk) as [Hid _]. rewrite (proj1 (known_num _ _ _ _ Hinv Hq)), Hid in Ht. rewrite Ht. cbn.
  destruct IH as [->|?]; auto.
Qed.

(** What moves the pending final block is final on the branch of the new block. *)
Lemma claims_final_is_final tree db r p s f lib : tracked tree db r → bs_previous s = bs_id p →
  find_extension 2 (s_header_exts (b_bhs s)) = Some (finality_extension_ext f) →
  exists_block (Child (tree (bs_id p)) (b_make_block_ref s) (fe_qc_claim f)) → claims_final db s lib →
  ∃ C, is_final C ∧ id_of C = lib.
Proof.
  intros Htk Hprev Hf HB (claim & l & c & a & Hcl & Hstrong & Hp & Ha & Hna & Hfin). set (B := Child _ _ _) in HB.
  pose proof (tk_inv _ _ _ Htk) as Hinv. pose proof (fi_idx _ _ Hinv) as Hok.
  assert (claim = fe_qc_claim f) as ->.
  { cbn in Hcl. unfold extract_qc_claim in Hcl. rewrite Hf, bind_ok in Hcl. by injection Hcl. }
  destruct (path_blocks _ _ _ _ _ Hok Hp Ha) as [Hka _]. destruct (known_prev _ _ _ _ Hinv Hka) as [q Hq].
  destruct (tk_child _ _ _ Htk _ _ _ Hka Hq) as (fs' & f' & _ & _ & HA).
  destruct (path_through _ _ _ _ a Hok Hp) as [l' Hl']; [by apply list_elem_of_fmap_2|].
  pose proof (path_tree _ _ _ _ _ _ Htk Hl') as Han. rewrite Hprev in Han.
  destruct HB as [sB HsB]. destruct (seen_ok _ _ _ _ _ _ HsB) as (HvB & _). pose proof HvB as (Hvp & _).
  assert (known db r (bs_id a) a) as Hknown by (by right).
  destruct (seen_ok _ _ _ _ _ _ (ts_accepted _ _ (tk_state _ _ _ Htk _ _ Hknown))) as (HvA & HcA & _ & HnA & _). rewrite HA in *.
  set (A := Child (tree (bs_id q)) _ _) in *. assert (at_num (tree (bs_id p)) (claim_block_num (fe_qc_claim f)) = Some A) as Hat.
  { rewrite <- Hna. change (bs_block_num a) with (s_block_num (b_bhs a)). rewrite HnA. destruct Han as [<-|Han]; [apply at_num_self|by apply ancestor_at_num]. }
  assert (ancestor A B) as HAB by exact Han.
  destruct (core_of_sim _ HvA) as (c' & fl & Hc' & Hs). rewrite HcA in Hc'. injection Hc' as <-.
  destruct (sim_claimed _ _ _ _ _ HvA Hs) as (C & HC & HCA & _ & Hlc & Href). exists C.
  cbn in Hfin. rewrite Hlc, bind_ok, Href, bind_ok in Hfin. injection Hfin as Hlib. split; [|exact Hlib].
  exists B. split; [by exists sB|]. assert (final_num B = num C) as ->.
  { unfold B. cbn [final_num]. rewrite Hstrong, Hat. cbn [claim_num A]. symmetry. cbn [claimed A] in HC. by eapply at_num_some. }
  apply ancestor_at_num; [done|by eapply ancestor_trans].
Qed.

Lemma add_tracked tree (db db' : fork_db) r p s ign a : tracked tree db r → known db r (bs_id p) p → built_on (tree (bs_id p)) p s →
  fd_index db !! bs_id s = None ∨ ign = false → P (b_bhs s) → add db s ign = (db', Ok a) →
  fd_index db' !! bs_id s = Some s ∧ grown db r db' r ∧ ∃ tree', tracked tree' db' r.
Proof.
  intros Htk Hp (l & fs & f & Hacc & HF & Hrt & Hhdr & Hval & Hvd & Hvo & Hfin & Hfe) Hnew HP Hadd. pose proof Htk as [Hinv Hst Hch Hlib Hroot].
  destruct (accepted_block_fits _ _ _ _ _ (accepted_chain_ok _ _ _ _ Hacc)) as (Hnode & Hbet & Hprev & Hnum).
  destruct (known_num _ _ _ _ Hinv Hp) as (_ & _ & Hlow).
  assert (bs_id s ≠ bs_id r) as Hsr by (intros E; rewrite E in *; lia). rewrite <- Hprev in Hp.
  pose proof (add_impl_ok None db r s ign Hinv Hnode) as Hok. unfold add in Hadd. rewrite Hadd in Hok.
  destruct Hok as (Hinv' & Hlib' & Hres).
  { intros p' Hp'. destruct Hp as [[E _]|Hp]; [|by assert (p' = p) as -> by congruence].
    rewrite E, (root_not_in _ _ (fi_idx _ _ Hinv) (fi_linked _ _ Hinv)) in Hp'. done. }
  { done. }
  rewrite (proj2 (get_block_iff _ _ _ _ Hinv) Hp) in Hres. unfold block_exists in Hres.
  assert (fd_index db !! bs_id s = None) as Hfresh by (destruct (fd_index db !! bs_id s); [destruct Hnew as [| ->]; naive_solver|done]).
  rewrite Hfresh in Hres. destruct Hres as [Hidx _].
  split; [rewrite Hidx; apply lookup_insert_eq|]. split.
  { split; [apply updates_refl|]. intros id x Hx. exists x. split; [|apply updates_refl]. destruct Hx as [Hx|Hx]; [by left|right].
    rewrite Hidx, lookup_insert_ne; [done|congruence]. }
  set (C := Child (tree (bs_id p)) (b_make_block_ref s) (fe_qc_claim f)). exists (set_tree tree (bs_id s) C).
  assert (∀ id x, known db' r id x → id = bs_id s ∧ x = s ∨ known db r id x ∧ id ≠ bs_id s) as Hknown.
  { intros id x [[-> ->]|Hx]; [right; split; [by left|done]|]. rewrite Hidx in Hx.
    apply lookup_insert_Some in Hx as [[<- <-]|[Hne Hx]]; [by left|right; split; [by right|done]]. }
  assert (∀ id x, known db r id x → bs_id x = id) as Hkid by (intros id x Hx; exact (proj1 (known_num _ _ _ _ Hinv Hx))).
  assert (seen s C) as Hseen by (exists (p :: l); split; [done|]; split; [by constructor|done]).
  split; [done| | |intros Ht|intros Ht; by rewrite set_tree_other; [apply Hroot|]].
  - intros id x Hx. destruct (Hknown _ _ Hx) as [[-> ->]|[Hk Hne]].
    + split; rewrite ?set_tree_same; done.
    + rewrite <- (Hkid _ _ Hk) in Hne. destruct (Hst _ _ Hk) as [H1 H2 H3 H4 H5]. split; rewrite ?set_tree_other; done.
  - intros id x p' Hx Hp'. rewrite Hidx in Hx. apply lookup_insert_Some in Hx as [[<- <-]|[Hne Hx]].
    + destruct (Hknown _ _ Hp') as [[E _]|[Hk' Hne']]; [rewrite Hprev in E; rewrite E in Hnum; lia|].
      assert (p' = p) as ->.
      { pose proof (proj2 (get_block_iff _ _ _ _ Hinv) Hk') as G1. pose proof (proj2 (get_block_iff _ _ _ _ Hinv) Hp) as G2. congruence. }
      exists fs, f. rewrite set_tree_same, set_tree_other by (rewrite <- Hprev; done). done.
    + destruct (Hknown _ _ Hp') as [[E ->]|[Hk' Hne']].
      * exfalso. destruct (known_prev _ _ _ _ Hinv Hx) as [q Hq]. rewrite E in Hq. destruct Hq as [[? _]|Hq]; congruence.
      * destruct (Hch _ _ _ Hx Hk') as (fs' & f' & H1 & H2 & H3). exists fs', f'.
        rewrite !set_tree_other; [done| |]; [by rewrite (Hkid _ _ Hk')|]. destruct (fi_idx _ _ Hinv _ _ Hx) as [-> _]. congruence.
  - destruct Hlib' as [->|[Hcl _]]; [by apply Hlib|]. right. eapply claims_final_is_final; [done|done|done|by exists s|done].
Qed.

(** ** Every step keeps the invariant *)

Lemma vote_tracked tree db r s vote s' a : tracked tree db r → get_block db (bs_id s) true = Some s →
  b_aggregate_vote s vote = Ok (s', a) →
  ∃ r', tracked tree (update_block db s') r' ∧ grown db r (update_block db s') r'.
Proof.
  intros Htk Hs Hv. pose proof (proj1 (get_block_iff _ _ _ _ (tk_inv _ _ _ Htk)) Hs) as Hk.
  pose proof (aggregate_vote_votes _ _ _ _ (ts_votes _ _ (tk_state _ _ _ Htk _ _ Hk)) Hv) as Hvo.
  unfold b_aggregate_vote in Hv. apply bind_inv in Hv as ([agg res] & _ & Hv). injection Hv as <- _.
  destruct (keep_tracked tree db r s (BlockState (b_bhs s) (b_block s) (b_strong_digest s) (b_weak_digest s) agg (b_valid s)
    (b_validated s) (b_action_mroot s) (b_base_digest s)) Htk Hk) as (r' & H & Hg & _); [by split|done..|]. by exists r'.
Qed.

Lemma remove_tracked tree (db db' : fork_db) r id : tracked tree db r → remove db id = Ok db' → tracked tree db' r.
Proof.
  intros Htk Hrem. destruct (remove_inv db r id (tk_inv _ _ _ Htk)) as (db1 & H1 & Hinv & Hiff). assert (db1 = db') as -> by congruence.
  eapply tracked_sub; [done|done| |apply map_subseteq_spec; by intros k b [Hk _]%Hiff| |apply (tk_root _ _ _ Htk)].
  - intros i s [[-> ->]|Hs]; [by left|right]. by apply Hiff in Hs as [? _].
  - unfold remove in Hrem. apply bind_inv in Hrem as (ids & _ & Hrem). by injection Hrem as <-.
Qed.

Lemma path_start {BS} {bsl : BlockStateLike BS} (idx : gmap sha256 BS) k l c z : path idx k l c → idx !! c = Some z → ∃ y, idx !! k = Some y.
Proof. destruct 1; eauto. Qed.

(** The root advances to blocks that are irreversible. *)
Lemma log_tracked tree (db db' : fork_db) r h : tracked tree db r → log_irreversible db h = Ok db' → ∃ r', tracked tree db' r'.
Proof.
  intros Htk Hlog. pose proof (tk_inv _ _ _ Htk) as Hinv. pose proof (fi_idx _ _ Hinv) as Hok.
  destruct (log_irreversible_root db r h db' Hinv Hlog) as [->|(x & l & Hadv & Hx & Hv & Hp)]; [by exists r|].
  destruct (advance_root_ok db r (bs_id x) x Hinv Hx Hv) as (db1 & H1 & Hinv' & Hlib & Hiff). assert (db1 = db') as -> by congruence.
  exists x. eapply tracked_sub; [done|done| |apply map_subseteq_spec; by intros k b (Hk & _)%Hiff|done|].
  - intros i s [[-> ->]|Hs]; right; [done|by apply Hiff in Hs as (? & _)].
  - intros Ht. assert (∃ y, fd_index db !! fd_pending_savanna_lib_id db = Some y) as [y Hy] by (eapply path_start; [exact Hp|exact Hx]).
    destruct (tk_lib _ _ _ Htk Ht) as [Hz|(C & HC & Hid)].
    { pose proof (above_root _ _ _ _ Hok (fi_linked _ _ Hinv) Hy) as Hlt. rewrite Hz in Hlt.
      pose proof (num_from_id_nonneg (bs_id r)). change (num_from_id sha256_zero) with 0 in Hlt. lia. }
    right. exists C. split; [done|]. assert (known db r (fd_pending_savanna_lib_id db) y) as Hk by (by right).
    pose proof (ts_accepted _ _ (tk_state _ _ _ Htk _ _ Hk)) as Hsy. destruct (Hok _ _ Hy) as [Hidy _]. rewrite Hidy in Hsy.
    assert (C = tree (fd_pending_savanna_lib_id db)) as ->; [|exact (path_tree _ _ _ _ _ _ Htk Hp)].
    destruct (seen_ok _ _ _ _ _ _ Hsy) as (_ & _ & Href & _). destruct HC as (B & [sB HsB] & Hat).
    eapply (exists_unique recover validator P G (trusted_ids Ht)); [|by exists y|].
    + destruct (at_num_ancestor _ _ _ Hat) as [->|Ha]; [by exists sB|exact (seen_ancestor _ _ _ _ _ _ _ HsB Ha)].
    + rewrite Hid. unfold id_of. rewrite Href. symmetry. exact Hidy.
Qed.

(** *** A received block *)

(** The states of the database down a path are a chain of header states. *)
Lemma path_headers tree db r k l c x : tracked tree db r → path (fd_index db) k l c → known db r c x →
  ∃ y l', known db r k y ∧ header_chain (entry <$> y :: l') (tree k) ∧ x ∈ y :: l' ∧ ∀ z, z ∈ l → z ∈ y :: l'.
Proof.
  intros Htk Hp Hx. pose proof (tk_inv _ _ _ Htk) as Hinv. induction Hp as [k|k b l c Hk Hp IH].
  - destruct (ts_accepted _ _ (tk_state _ _ _ Htk _ _ Hx)) as (l & Hl & _). destruct (known_num _ _ _ _ Hinv Hx) as (<- & _).
    exists x, l. split; [done|]. split; [apply (ak_headers _ _ (accepted_chain_ok _ _ _ _ Hl))|]. split; [by left|by intros ? ?%not_elem_of_nil].
  - destruct (IH Hx) as (q & l' & Hq & Hh & Hin & Hall). assert (known db r k b) as Hkb by (by right).
    destruct (tk_child _ _ _ Htk _ _ _ Hk Hq) as (fs & f & Hfin & _ & Ht). destruct (known_num _ _ _ _ Hinv Hkb) as (Hid & _).
    destruct (known_num _ _ _ _ Hinv Hq) as (Hqid & _). destruct (ts_accepted _ _ (tk_state _ _ _ Htk _ _ Hkb)) as (lb & Hlb & _).
    destruct (accepted_head _ _ _ _ _ Hlb) as [Hcob _]. destruct (header_chain_ok _ _ Hh) as (q' & rq & l'' & Heq & Hcoq). injection Heq as <- <- <-.
    rewrite Hid, Hqid in Ht. rewrite Hid, Ht in Hcob. exists b, (q :: l'). split; [done|]. split.
    + rewrite Ht. cbn [fmap list_fmap] in Hh |- *.
      eapply hc_next; [exact Hh|exact (eq_sym Hqid)| |exact Hfin|exact (co_made _ _ _ _ Hcob)].
      rewrite (co_num _ _ _ _ Hcoq). pose proof (co_valid _ _ _ _ Hcob) as (_ & Hn & _).
      pose proof (num_range (Child (tree (bs_previous b)) (b_make_block_ref b) (fe_qc_claim f))) as Hr. rewrite num_child in Hr.
      unfold is_u32, u32_max in *. lia.
    + split; [by right|]. intros z [->|Hz]%elem_of_cons; [by left|right; auto].
Qed.

(** The states of the branch of [p], with the root. *)
Definition on_branch (db : fork_db) (r p c : block_state) : Prop :=
  c = r ∨ ∃ l, path (fd_index db) (bs_id p) l (bs_id r) ∧ c ∈ l.

Lemma known_path (db : fork_db) r p : fd_inv db r → known db r (bs_id p) p → ∃ l, path (fd_index db) (bs_id p) l (bs_id r).
Proof. intros [_ _ Hok Hl _ _] [[-> _]|Hk]; [exists []; constructor|by eapply path_to_root]. Qed.

(** A state finds the policies of the blocks of its branch, from its claim on. *)
Lemma branch_policies tree db r p c : tracked tree db r → known db r (bs_id p) p → on_branch db r p c →
  claim_num (tree (bs_id p)) <= s_block_num (b_bhs c) → b_get_finalizer_policies p (s_block_num (b_bhs c)) = Ok (policies_at c).
Proof.
  intros Htk Hp Hc Hn. pose proof (tk_inv _ _ _ Htk) as Hinv. destruct (known_path _ _ _ Hinv Hp) as [l0 Hl0].
  assert (∃ l, path (fd_index db) (bs_id p) l (bs_id r) ∧ (c = r ∨ c ∈ l)) as (l & Hl & Hcl)
    by (destruct Hc as [->|(l & Hl & Hcl)]; eauto).
  destruct (path_headers _ _ _ _ _ _ r Htk Hl) as (y & l' & Hy & Hh & Hr & Hall); [by left|].
  assert (y = p) as ->.
  { apply (get_block_iff _ _ _ _ Hinv) in Hy, Hp. congruence. }
  eapply ancestor_policies; [exact Hh| |done]. destruct Hcl as [->|Hcl]; auto.
Qed.

Lemma search_on_its_branch (db : fork_db) r p n c : fd_inv db r → search_on_branch db (bs_id p) n true = Ok (Some c) →
  known db r (bs_id p) p → known db r (bs_id c) c ∧ on_branch db r p c ∧ bs_block_num c = n.
Proof.
  intros Hinv H Hp. unfold search_on_branch in H. rewrite (fi_root _ _ Hinv) in H. cbn [andb] in H.
  destruct (Z.eqb_spec (bs_block_num r) n) as [<-|_]; [injection H as <-; split; [by left|split; [by left|done]]|].
  destruct (n <=? bs_block_num r); [done|].
  destruct (branch_ok db r (bs_id p) Hinv) as (l & Hb & Hl). rewrite Hb, bind_ok in H.
  destruct (list_find _ l) as [[i x]|] eqn:E; [|done]. injection H as <-. apply list_find_Some in E as (Hi & Hx & _).
  apply list_elem_of_lookup_2 in Hi. destruct Hl as [[_ ->]|Hl]; [by apply elem_of_nil in Hi|].
  split; [right; by apply (path_blocks _ _ _ _ _ (fi_idx _ _ Hinv) Hl Hi)|]. split; [right; by exists l|done].
Qed.

Lemma integrate_tracked tree db r p id b s db' : tracked tree db r → known db r (bs_id p) p →
  accept_block recover validator id b p = Ok s → b_block s = b → bs_previous s = bs_id p →
  integrate_received_qc_to_block db s = Ok db' → ∃ r', tracked tree db' r' ∧ replaced db r db' r'.
Proof.
  intros Htk Hp Hacc Hb Hprev H. assert (db' = db → ∃ r', tracked tree db' r' ∧ replaced db r db' r') as Hsame
    by (intros ->; exists r; split; [done|apply replaced_refl]).
  unfold integrate_received_qc_to_block in H. destruct (contains_extension _ _); [|injection H as <-; auto].
  apply bind_inv in H as (e & He & H). destruct e as [[|qc]|]; [done| |done]. apply bind_inv in H as (o & Ho & H).
  destruct o as [c|]; [|injection H as <-; auto]. apply bind_inv in H as ([c' bet] & Hc & H). injection H as <-.
  rewrite Hprev in Ho. destruct (search_on_its_branch _ _ _ _ _ (tk_inv _ _ _ Htk) Ho Hp) as (Hk & Hbr & Hnum).
  rewrite Hb in He. destruct (ts_accepted _ _ (tk_state _ _ _ Htk _ _ Hp)) as (l & Hl & _).
  destruct (accepted_certificate _ _ _ _ _ _ _ _ _ (accepted_chain_ok _ _ _ _ Hl) Hacc He) as [Hver Hclaim].
  change (s_block_num (b_bhs c) = qc_block_num qc) in Hnum. unfold b_verify_qc in Hver. rewrite <- Hnum in Hver, Hclaim.
  rewrite (branch_policies _ _ _ _ _ Htk Hp Hbr Hclaim), bind_ok in Hver. apply bind_inv in Hver as ([] & Hbas & Hsig).
  pose proof (set_received_votes _ _ _ _ (ts_votes _ _ (tk_state _ _ _ Htk _ _ Hk)) Hbas Hsig Hc) as Hvo.
  unfold b_set_received_qc in Hc. apply bind_inv in Hc as ([agg b'] & _ & Hc). injection Hc as <- _.
  by apply (keep_tracked tree db r c).
Qed.

Lemma accept_block_fields id b p s : accept_block recover validator id b p = Ok s →
  bs_id s = id ∧ b_block s = b ∧ b_valid s = None ∧ b_validated s = false.
Proof.
  intros H. unfold accept_block in H. apply bind_inv in H as ([] & _ & H). apply bind_inv in H as (o & Ho & H).
  apply bind_inv in H as (m & _ & H). apply bind_inv in H as ([] & _ & H). apply bind_inv in H as (s' & Hs & H).
  apply bind_inv in H as ([] & Hid & H). apply bind_inv in H as ([] & _ & H). injection H as ->.
  apply check_inv, bool_decide_eq_true in Hid. split; [by symmetry|].
  unfold block_state_from_block in Hs. apply bind_inv in Hs as ([] & _ & Hs). apply bind_inv in Hs as (bhs & _ & Hs).
  unfold block_state_of in Hs. apply bind_inv in Hs as (strong & _ & Hs). apply bind_inv in Hs as (agg & _ & Hs). by injection Hs as <-.
Qed.

Lemma accept_block_votes id b p s : accept_block recover validator id b p = Ok s → policies_ok (b_bhs s) → votes_ok s.
Proof.
  intros H Hp. unfold accept_block in H. apply bind_inv in H as ([] & _ & H). apply bind_inv in H as (o & Ho & H).
  apply bind_inv in H as (m & _ & H). apply bind_inv in H as ([] & _ & H). apply bind_inv in H as (s' & Hs & H).
  apply bind_inv in H as ([] & _ & H). apply bind_inv in H as ([] & _ & H). injection H as ->.
  unfold block_state_from_block in Hs. apply bind_inv in Hs as ([] & _ & Hs). apply bind_inv in Hs as (bhs & _ & Hs).
  assert (b_bhs s = bhs) as Hbhs by (unfold block_state_of in Hs; apply bind_inv in Hs as (d & _ & Hs); apply bind_inv in Hs as (g & _ & Hs); by injection Hs as <-).
  rewrite Hbhs in Hp. by eapply block_state_of_votes.
Qed.

Lemma accepted_built_on tree p l B id b s : accepted_chain recover validator (p :: l) B → B = tree (bs_id p) →
  s_block_num (b_bhs p) < u32_max → Forall (λ x, P (b_bhs x)) (p :: l) → root B = G →
  accept_block recover validator id b p = Ok s → policies_ok (b_bhs s) → built_on (tree (bs_id p)) p s.
Proof.
  intros Hacc -> Hmax HF Hrt Ha Hpol. destruct (accept_block_fields _ _ _ _ Ha) as (_ & Hb & Hv & Hvd).
  destruct (accept_block_inv _ _ _ _ _ _ Ha) as (o & _ & Hnext & _ & _).
  destruct (next_from_header_inv _ _ _ _ Hnext) as (exts & fs & f & _ & Hf & _ & Hfin & He & Hh).
  exists l, fs, f. split; [eapply ac_proper; [done|done|exact Ha|exists f; by rewrite He]|]. split; [done|]. split; [done|].
  rewrite Hb, Hh, He. split; [done|]. rewrite Hv, Hvd. split_and!; [done|done|by eapply accept_block_votes|done|done].
Qed.

Lemma built_on_updates B p p' s : updates p p' → built_on B p s → built_on B p' s.
Proof.
  intros Hup (l & fs & f & Hacc & HF & Hrt & Hh & Hv & Hvd & Hvo & Hfin & Hf). exists l, fs, f.
  apply Forall_cons in HF as [HP HF]. split; [|split; [by constructor; [rewrite (up_bhs _ _ Hup)|]|by rewrite (up_bhs _ _ Hup)]].
  eapply ac_update; [exact Hacc|]. constructor; [by split|]. constructor; [apply (updates_block _ _ Hup)|apply same_block_chain].
Qed.

Lemma receive_tracked tree db r id b db' res o : tracked tree db r →
  create_block_handle recover validator db id b = Ok (db', res, o) → num_from_id (h_previous (sb_header b)) < u32_max →
  (∀ s, o = Some s → P (b_bhs s) ∧ policies_ok (b_bhs s)) → ∃ tree' r', tracked tree' db' r' ∧ grown db r db' r'.
Proof.
  intros Htk H Hmax HP. pose proof (tk_inv _ _ _ Htk) as Hinv. unfold create_block_handle in H.
  assert (db' = db → ∃ tree' r', tracked tree' db' r' ∧ grown db r db' r') as Hsame by (intros ->; exists tree, r; split; [done|apply replaced_refl]).
  destruct (get_block db id true) as [s|] eqn:Eid; [injection H as <- <- <-; auto|].
  destruct (get_block db (h_previous (sb_header b)) true) as [p|] eqn:Ep; [|injection H as <- <- <-; auto].
  apply bind_inv in H as ([[db2 a] s] & H & Heq). injection Heq as <- <- <-. unfold create_block_state_i in H.
  apply bind_inv in H as (s' & Hs & H). apply bind_inv in H as (db1 & Hint & H).
  destruct (add db1 s' true) as [db3 [a'|]] eqn:Eadd; [|done]. injection H as <- <- <-.
  apply (get_block_iff _ _ _ _ Hinv) in Ep. destruct (known_num _ _ _ _ Hinv Ep) as (Hpid & Hpn & _).
  destruct (ts_accepted _ _ (tk_state _ _ _ Htk _ _ Ep)) as (l & Hacc & HF & Hrt). rewrite <- Hpid in Ep.
  assert (built_on (tree (bs_id p)) p s') as Hbuilt.
  { eapply accepted_built_on; [exact Hacc|done| |done|done|exact Hs|by apply HP]. change (bs_block_num p < u32_max). by rewrite Hpn. }
  destruct (accept_block_fields _ _ _ _ Hs) as (Hsid & Hsb & _).
  assert (bs_previous s' = bs_id p) as Hprev.
  { destruct (accept_block_inv _ _ _ _ _ _ Hs) as (? & _ & Hnext & _). destruct (next_from_header_inv _ _ _ _ Hnext) as (? & ? & ? & _ & _ & Hpv & _ & _ & Hh).
    change (h_previous (s_header (b_bhs s')) = s_block_id (b_bhs p)). by rewrite Hh. }
  destruct (integrate_tracked _ _ _ _ _ _ _ _ Htk Ep Hs Hsb Hprev Hint) as (r' & Htk' & Hgr & Hfrom). destruct (proj2 Hgr _ _ Ep) as (p' & Hp' & Hup).
  pose proof (ss_id _ _ (updates_same _ _ Hup)) as Hpid'.
  rewrite <- Hpid' in Hp', Hbuilt.
  destruct (add_tracked tree db1 db3 r' p' s' true a' Htk' Hp') as (_ & Hgr' & tree' & Ht);
    [by eapply built_on_updates| |by apply HP|done|exists tree', r'; split; [done|by eapply grown_trans]].
  left. destruct (fd_index db1 !! bs_id s') as [x|] eqn:Ex; [|done]. exfalso. destruct (Hfrom (bs_id s') x) as (x0 & Hx0); [by right|].
  apply (get_block_iff _ _ _ _ Hinv) in Hx0. rewrite Hsid in Hx0. congruence.
Qed.

(** *** An executed block *)

Lemma next_from_input_core p input s : next_from_input p input = Ok s →
  h_timestamp (s_header s) = in_timestamp input ∧ h_previous (s_header s) = in_parent_id input ∧
  ∃ rp, s_make_block_ref p = Ok rp ∧ next (s_core p) rp (in_most_recent_ancestor_with_qc input) = Ok (s_core s).
Proof.
  intros H. unfold next_from_input in H. apply bind_inv in H as (fd & _ & H). apply bind_inv in H as (pd & _ & H).
  cbv zeta in H. destruct (bool_decide _); destruct (finish_next_inv _ _ _ _ _ _ H) as (core & fps & [_ Hn _ (Hh & _ & Hc) _ _ _]);
    rewrite Hh, Hc; done.
Qed.

(** The validation tree of an executed block is built from its parent's with the header state
    of the block, although the node computed that state again. *)
Lemma apply_block_inv p s ex s' exts f fs : apply_block p s ex = Ok s' →
  validate_and_extract_header_extensions (sb_header (b_block s)) = Ok exts → find_extension 2 exts = Some (finality_extension_ext f) →
  sb_header (b_block s) = s_header (b_bhs s) → h_previous (s_header (b_bhs s)) = s_block_id (b_bhs p) →
  finish_next (b_bhs p) (s_header (b_bhs s)) (s_header_exts (b_bhs s)) fs f = Ok (b_bhs s) →
  updates s s' ∧ b_valid s' ≠ None ∧
  (b_valid s ≠ None ∧ b_valid s' = b_valid s ∧ b_action_mroot s' = b_action_mroot s ∨
   ∃ v, new_valid p (b_bhs s') (b_action_mroot s') (b_strong_digest s') = Ok v ∧ b_valid s' = Some v).
Proof.
  intros H Hx Hf Hhdr Hprev Hfin. unfold apply_block in H. apply bind_inv in H as (feats & _ & H).
  apply bind_inv in H as (bb & Hbb & H). apply bind_inv in H as (o & Ho & H). destruct o as [[qc claim]|]; [|done].
  apply bind_inv in H as ([ab x] & Ha & H). apply bind_inv in H as ([] & _ & H). apply bind_inv in H as ([] & _ & H).
  injection H as <-. destruct (start_block_inv _ _ _ _ Hbb) as (Hpar & Hts & _).
  assert (claim = fe_qc_claim f) as ->.
  { unfold extract_qc_data in Ho. rewrite Hx, bind_ok, Hf in Ho. apply bind_inv in Ho as (bx & _ & Ho).
    destruct (find_block_extension 3 bx) as [[|]|]; [done|by injection Ho|by injection Ho]. }
  unfold assemble_validating in Ha. apply bind_inv in Ha as (am & _ & Ha). apply bind_inv in Ha as (bhs & Hbhs & Ha).
  apply bind_inv in Ha as (x' & Hs & Ha). injection Ha as _ ->. rewrite Hpar in Hbhs, Hs. cbn [snd] in Hbhs.
  destruct (next_from_input_core _ _ _ Hbhs) as (Ht & Hp & rp & Hrp & Hcore).
  cbn [in_timestamp in_parent_id in_most_recent_ancestor_with_qc next_input] in Ht, Hp, Hcore. rewrite Hpar in Hp. rewrite Hts, Hhdr in Ht.
  destruct (finish_next_inv _ _ _ _ _ _ Hfin) as (core & fps & [_ (rp' & Hrp' & Hcore') _ (_ & _ & Hc) _ _ _]).
  unfold set_validation in Hs. destruct (b_valid s) as [v|] eqn:Ev.
  - injection Hs as <-. split; [by split|]. cbn. rewrite Ev. split; [done|]. by left.
  - apply bind_inv in Hs as (v & Hv & Hs). injection Hs as <-. split; [by split|]. cbn. split; [done|]. right. exists v. split; [|done].
    rewrite <- Hv. unfold new_valid, s_block_num, s_timestamp, h_block_num. rewrite Hc, Ht, Hp, Hprev.
    replace core with (s_core bhs) by congruence. done.
Qed.

Lemma tracked_state_chain_ok tree s : tracked_state tree s → ∃ l, chain_ok (b_bhs s) (b_make_block_ref s) l (tree (bs_id s)).
Proof.
  intros [(l & Hl & _) _ _ _ _]. destruct (header_chain_ok _ _ (ak_headers _ _ (accepted_chain_ok _ _ _ _ Hl))) as (s' & r' & l' & Heq & Hco).
  injection Heq as <- <- <-. by eexists.
Qed.

Lemma new_valid_parent p bhs am d v : new_valid p bhs am d = Ok v → b_valid p ≠ None.
Proof. unfold new_valid. by destruct (b_valid p). Qed.

Lemma apply_block_votes p s ex s' : apply_block p s ex = Ok s' → votes_ok s → votes_ok s'.
Proof.
  intros H Hvo. unfold apply_block in H. apply bind_inv in H as (feats & _ & H). apply bind_inv in H as (bb & _ & H).
  apply bind_inv in H as (o & _ & H). destruct o as [[qc claim]|]; [|done]. apply bind_inv in H as ([ab x] & Ha & H).
  apply bind_inv in H as ([] & _ & H). apply bind_inv in H as ([] & _ & H). injection H as <-.
  unfold assemble_validating in Ha. apply bind_inv in Ha as (am & _ & Ha). apply bind_inv in Ha as (bhs & _ & Ha).
  apply bind_inv in Ha as (x' & Hs & Ha). injection Ha as _ ->. unfold set_validation in Hs.
  destruct (b_valid s); [injection Hs as <-|apply bind_inv in Hs as (v & _ & Hs); injection Hs as <-]; by apply (votes_ok_same s).
Qed.

Lemma execute_tracked tree db r p s ex s' db' : tracked tree db r → fd_index db !! bs_id s = Some s →
  get_block db (bs_previous s) true = Some p → apply_block p s ex = Ok s' → commit_applied db s' = Ok db' →
  ∃ r', tracked tree db' r'.
Proof.
  intros Htk Hs Hp Happ Hcom. pose proof (tk_inv _ _ _ Htk) as Hinv. apply (get_block_iff _ _ _ _ Hinv) in Hp.
  assert (known db r (bs_id s) s) as Hk by (by right). destruct (tk_child _ _ _ Htk _ _ _ Hs Hp) as (fs & f & Hfin & Hf & Htree).
  destruct (known_num _ _ _ _ Hinv Hp) as (Hpid & _). pose proof (tk_state _ _ _ Htk _ _ Hk) as Hts. pose proof Hts as [(l & Hl & _) Hh _ _ Hvo].
  pose proof (ak_exts _ _ (accepted_chain_ok _ _ _ _ Hl) _ _ eq_refl) as Hx. rewrite <- Hh in Hx.
  destruct (apply_block_inv p s ex s' _ f fs Happ Hx Hf Hh (eq_sym Hpid) Hfin) as (Hup & Hval & Hcase).
  pose proof (ss_id _ _ (updates_same _ _ Hup)) as Hid. pose proof (updates_block _ _ Hup) as [_ Href].
  assert (db' = update_block db s') as ->.
  { unfold commit_applied in Hcom. destruct (get_block db (bs_id s') false); [by injection Hcom as <-|done]. }
  destruct (update_tracked tree db r s s' Htk) as (r' & Ht & _); [by rewrite Hid|done| |done|by eapply apply_block_votes|by exists r']. intros _.
  destruct Hcase as [(Hn & Hv & Ha)|(v & Hnv & Hv)].
  - destruct (ts_executed _ _ Hts Hn) as [l' Hl']. exists l'. rewrite Hid. eapply sc_update; [done|]. by destruct Hup.
  - pose proof (tk_state _ _ _ Htk _ _ Hp) as Htp. destruct (ts_executed _ _ Htp (new_valid_parent _ _ _ _ _ Hnv)) as [l' Hl'].
    exists (p :: l'). rewrite Hid, Htree, <- Href. destruct (tracked_state_chain_ok _ _ Hts) as (ls & Hcos).
    destruct (tracked_state_chain_ok _ _ Htp) as (lp & Hcop). rewrite Htree in Hcos.
    assert (s_block_num (b_bhs p) < u32_max) as Hmax.
    { rewrite (co_num _ _ _ _ Hcop). pose proof (co_valid _ _ _ _ Hcos) as (_ & Hn & _).
      pose proof (num_range (Child (tree (bs_id p)) (b_make_block_ref s) (fe_qc_claim f))) as Hr. rewrite num_child in Hr.
      unfold is_u32, u32_max in *. lia. }
    eapply (sc_next p l' _ (s_header (b_bhs s)) (s_header_exts (b_bhs s)) fs f s' v); [done|exact (eq_sym Hpid)|done|
      by rewrite (up_bhs _ _ Hup)| |done|done].
    rewrite (up_bhs _ _ Hup), (up_digest _ _ Hup). pose proof (co_made _ _ _ _ Hcos) as Hm. unfold s_make_block_ref in Hm.
    apply bind_inv in Hm as (d & Hd & Hm). unfold b_make_block_ref in Hm. injection Hm as ->. exact Hd.
Qed.

(** *** A produced block *)

(** The certificate a producer takes from its branch verifies. *)
Lemma own_certificate tree db r p qc claim : tracked tree db r → known db r (bs_id p) p → keeps_dual_rule db p →
  get_qc_data db p = Ok (Some qc, claim) → b_verify_qc p qc = Ok tt.
Proof.
  intros Htk Hp Hdual H. pose proof (Hdual qc claim) as Hd. specialize (λ x, Hd x H). pose proof (tk_inv _ _ _ Htk) as Hinv.
  unfold get_qc_data in H. apply bind_inv in H as (br & Hbr & H). destruct (get_qc_data_loop_inv _ _ _ _ H) as (latest & Hl & (-> & _ & Hle) & Hin).
  destruct (Hin qc eq_refl) as (c & Hc & Hbest). unfold fetch_branch in Hbr.
  destruct (branch_ok db r (bs_id p) Hinv) as (l & Hb & Hpath). change (s_block_id (b_bhs p)) with (bs_id p) in Hbr.
  rewrite Hb, bind_ok in Hbr. injection Hbr as <-. apply list_elem_of_filter in Hc as [_ Hc].
  assert (known db r (bs_id c) c ∧ on_branch db r p c) as [Hk Hob].
  { destruct Hpath as [[_ ->]|Hpath]; [by apply elem_of_nil in Hc|].
    split; [right; by apply (path_blocks _ _ _ _ _ (fi_idx _ _ Hinv) Hpath Hc)|right; by exists l]. }
  pose proof (ts_votes _ _ (tk_state _ _ _ Htk _ _ Hk)) as Hvo.
  assert (qc_block_num qc = s_block_num (b_bhs c)) as Hnum by (by apply (best_qc_num _ _ Hbest)).
  destruct (ts_accepted _ _ (tk_state _ _ _ Htk _ _ Hp)) as (lp & Hlp & _). destruct (accepted_head _ _ _ _ _ Hlp) as [Hco _].
  rewrite (core_claim _ _ (co_valid _ _ _ _ Hco) (co_core _ _ _ _ Hco)) in Hl. injection Hl as <-.
  pose proof (branch_policies _ _ _ _ _ Htk Hp Hob) as Hpol. rewrite <- Hnum in Hpol.
  assert (claim_num (tree (bs_id p)) <= qc_block_num qc) as Hclaim.
  { unfold qc_claim_le in Hle. apply orb_false_iff in Hle as [H1 _]. cbn in H1. by apply Z.ltb_ge in H1. }
  specialize (Hpol Hclaim). destruct (best_votes_verify _ _ Hvo Hbest (Hd _ Hpol)) as (_ & Hbas & Hsig).
  unfold b_verify_qc. by rewrite Hpol, bind_ok, Hbas, bind_ok.
Qed.

Lemma produce_tracked tree db r p when fs trxs ex s db' a : tracked tree db r → get_block db (bs_id p) true = Some p →
  s_block_num (b_bhs p) < u32_max → produce_block recover validator signer db p when fs trxs ex = Ok s →
  keeps_dual_rule db p → P (b_bhs s) → policies_ok (b_bhs s) → commit_produced db s = Ok (db', a) →
  bs_previous s = bs_id p ∧ fd_index db' !! bs_id s = Some (set_valid s) ∧ grown db r db' r ∧ ∃ tree', tracked tree' db' r.
Proof.
  intros Htk Hp Hmax Hprod Hdual HP Hpol Hcom. pose proof (tk_inv _ _ _ Htk) as Hinv. apply (get_block_iff _ _ _ _ Hinv) in Hp.
  destruct (produce_block_inv _ _ _ _ _ _ _ _ _ _ Hprod) as (bb & tm & qc & claim & Hpr). destruct (pr_valid _ _ _ _ _ _ _ _ _ _ _ _ _ Hpr) as (v & Hnv & Hv).
  pose proof (tk_state _ _ _ Htk _ _ Hp) as [(l & Hl & HF & Hrt) _ Hex _ _]. destruct (Hex (new_valid_parent _ _ _ _ _ Hnv)) as [l' Hl'].
  assert (votes_ok s) as Hvo.
  { destruct (pr_agg _ _ _ _ _ _ _ _ _ _ _ _ _ Hpr) as [Hagg Hwk]. destruct Hpol as [Hpa Hpp].
    destruct (qc_signed_new (b_strong_digest s) _ _ _ Hpa Hpp Hagg) as (Hq & H1 & H2). by split. }
  destruct (produced_accepted hash_nonzero recover validator _ _ _ _ _ _ _ _ _ _ _ _ _ _ p (accepted_chain_ok _ _ _ _ Hl) Hl' Hpr)
    as (s' & Ha & Hsame & Hb & _); [|by split; [split|]|].
  { destruct qc as [qc|]; [|done]. eapply own_certificate; [done|done|done|apply Hpr]. }
  destruct (accepted_built_on tree p l _ _ _ s' Hl eq_refl Hmax HF Hrt Ha) as (l0 & fs' & f & Hacc & HF0 & Hrt0 & Hh & _ & _ & _ & Hfin & Hf);
    [by rewrite (proj1 Hsame)|].
  destruct Hsame as [Hbhs Hdig]. rewrite Hbhs, Hb in *. unfold commit_produced in Hcom.
  destruct (add db (set_valid s) false) as [db2 [a2|]] eqn:Eadd; [|done]. injection Hcom as <- <-.
  assert (b_make_block_ref s' = b_make_block_ref s) as Href by (unfold b_make_block_ref; by rewrite Hbhs, Hdig). rewrite Href in Hacc.
  assert (bs_previous s = bs_id p) as Hprev.
  { destruct (accept_block_inv _ _ _ _ _ _ Ha) as (o & _ & Hnext & _ & _).
    destruct (next_from_header_inv _ _ _ _ Hnext) as (_ & _ & _ & _ & _ & Hprev & _). rewrite Hh in Hprev. exact Hprev. }
  split; [done|]. change (bs_id s) with (bs_id (set_valid s)).
  eapply (add_tracked tree db db2 r p (set_valid s)); [done|done| |by right|exact HP|exact Eadd].
  exists l0, fs', f. cbv zeta. split; [|split; [exact HF0|split; [exact Hrt0|split; [exact Hh|split; [|split; [cbn; by rewrite Hv|split; [by apply (votes_ok_same s)|split; [exact Hfin|exact Hf]]]]]]]].
  - eapply ac_update; [exact Hacc|]. constructor; [by split|apply same_block_chain].
  - intros _. exists (p :: l'). apply (sc_update s); [|by repeat split].
    eapply (sc_next p l' _ (s_header (b_bhs s)) (s_header_exts (b_bhs s)) fs' f s v); [done|exact Hprev|done|done|apply Hpr|done|done].
Qed.

(** *** The switch to the best branch *)

Lemma commit_applied_ok (db : fork_db) s x : fd_index db !! bs_id s = Some x → commit_applied db s = Ok (update_block db s).
Proof. intros H. unfold commit_applied, get_block. cbn [andb]. by rewrite H. Qed.

Lemma apply_block_keeps p s ex s' : apply_block p s ex = Ok s' → updates s s' ∧ b_validated s' = true.
Proof.
  intros H. unfold apply_block in H. apply bind_inv in H as (feats & _ & H). apply bind_inv in H as (bb & _ & H).
  apply bind_inv in H as (o & _ & H). destruct o as [[qc claim]|]; [|done]. apply bind_inv in H as ([ab x] & Ha & H).
  apply bind_inv in H as ([] & _ & H). apply bind_inv in H as ([] & _ & H). injection H as <-.
  unfold assemble_validating in Ha. apply bind_inv in Ha as (am & _ & Ha). apply bind_inv in Ha as (bhs & _ & Ha).
  apply bind_inv in Ha as (x' & Hs & Ha). injection Ha as _ ->. unfold set_validation in Hs.
  destruct (b_valid s); [injection Hs as <-; done|]. apply bind_inv in Hs as (v & _ & Hs). by injection Hs as <-.
Qed.

Lemma run_block_keeps run h s s' : run_block run h s = Ok s' → same_state s s' ∧ bs_is_valid s' = true.
Proof.
  intros H. unfold run_block in H. apply bind_inv in H as (ex & _ & H). destruct (apply_block_keeps _ _ _ _ H) as [Hup Hv].
  split; [by apply updates_same|exact Hv].
Qed.

Lemma switch_tracked run tree (db db' : fork_db) : rtc (switch_step (run_block run)) db db' → ∀ r, tracked tree db r →
  ∃ r', tracked tree db' r'.
Proof.
  induction 1 as [db|db1 db2 db3 Hstep _ IH]; [by eauto|]. intros r Htk.
  assert (∃ r', tracked tree db2 r') as [r' Htk']; [|by eapply IH]. destruct Hstep as [db h s s' Hs Hh Happ|db h db' H|db id db' H].
  - pose proof Happ as Hrun. unfold run_block in Hrun. apply bind_inv in Hrun as (ex & _ & Hrun).
    eapply execute_tracked; [done|done|done|exact Hrun|]. eapply (commit_applied_ok db s' s).
    by rewrite (ss_id _ _ (proj1 (run_block_keeps _ _ _ _ Happ))).
  - by eapply log_tracked.
  - exists r. by eapply remove_tracked.
Qed.

(** ** The whole node *)

(** A database that grew keeps the executed branch of the head. *)
Lemma grown_executed db r db' r' h x : fd_inv db r → fd_inv db' r' → grown db r db' r' → known db r h x → executed db h →
  executed db' h.
Proof.
  intros Hinv Hinv' [Hr Hg] Hk Hex l c b Hp. revert x Hk Hex. induction Hp as [h|h y l c Hy Hp IH]; [by intros ? ? ? ?%not_elem_of_nil|].
  intros x Hk Hex. pose proof (ss_id _ _ (updates_same _ _ Hr)) as Hrid.
  assert (fd_index db !! h = Some x) as Hx.
  { destruct Hk as [[-> _]|]; [|done]. by rewrite <- Hrid, (root_not_in _ _ (fi_idx _ _ Hinv') (fi_linked _ _ Hinv')) in Hy. }
  destruct (Hg _ _ Hk) as (x' & Hx' & Hup).
  assert (x' = y) as ->.
  { assert (known db' r' h y) as Hy' by (by right). apply (get_block_iff _ _ _ _ Hinv') in Hx', Hy'. congruence. }
  intros [->|Hb]%elem_of_cons.
  - apply (up_validated _ _ Hup), (Hex [x] (bs_previous x)); [|left]. econstructor; [done|constructor].
  - destruct (known_prev _ _ _ _ Hinv Hx) as [q Hq]. rewrite <- (ss_previous _ _ (updates_same _ _ Hup)) in Hq.
    eapply IH; [exact Hq| |exact Hb]. rewrite (ss_previous _ _ (updates_same _ _ Hup)). by eapply executed_prev.
Qed.

Lemma grown_node db r db' r' h : node_inv (Node db h) r → fd_inv db' r' → grown db r db' r' → node_inv (Node db' h) r'.
Proof.
  intros [Hinv Hval Hlow [x Hx] Hex] Hinv' Hg. pose proof Hg as [Hr Hk]. pose proof (updates_same _ _ Hr) as Hss.
  cbn [nd_db nd_head] in Hinv, Hx, Hex.
  split; cbn [nd_db nd_head]; [done|by apply (up_validated _ _ Hr)|by rewrite (ss_id _ _ Hss), (ss_previous _ _ Hss)|
    |exact (grown_executed db r db' r' h x Hinv Hinv' Hg Hx Hex)].
  destruct (Hk _ _ Hx) as (x' & Hx' & _). by exists x'.
Qed.

Definition controller_inv (nd : node) : Prop := ∃ tree r, tracked tree (nd_db nd) r ∧ node_inv nd r.

(** The root is that of the database. *)
Lemma controller_inv_intro tree (nd : node) r r' : tracked tree (nd_db nd) r → node_inv nd r' → controller_inv nd.
Proof.
  intros Htk Hn. exists tree, r. split; [done|]. pose proof (fi_root _ _ (tk_inv _ _ _ Htk)) as H1.
  pose proof (fi_root _ _ (ni_db _ _ Hn)) as H2. assert (r = r') as -> by congruence. done.
Qed.

Lemma produced_head db r h s : node_inv (Node db h) r → fd_index db !! bs_id s = Some s → bs_previous s = h → bs_is_valid s = true →
  node_inv (Node db (bs_id s)) r.
Proof.
  intros [Hinv Hval Hlow _ Hex] Hs Hprev Hv. split; cbn [nd_db nd_head] in *; [done|done|done|exists s; by right|].
  intros l c b Hp. inversion Hp as [|? y l' ? Hy Hp']; subst; [by intros ?%not_elem_of_nil|]. assert (y = s) as -> by congruence.
  intros [->|Hb]%elem_of_cons; [done|by eapply Hex].
Qed.

Lemma step_inv nd nd' : controller_step nd nd' → controller_inv nd → controller_inv nd'.
Proof.
  intros Hstep (tree & r & Htk & Hn). destruct Hstep as [nd id b db' res o H Hmax HP|nd s vote s' a Hs Hv
    |nd run brk nd' res H|nd p when fs trxs ex s db1 a db2 Hh Hmax Hprod Hdual HP Hpol Hcom Hlog].
  - destruct (receive_tracked _ _ _ _ _ _ _ _ Htk H Hmax HP) as (tree' & r' & Htk' & Hg). exists tree', r'. split; [done|].
    destruct nd. eapply grown_node; [exact Hn|apply Htk'|exact Hg].
  - destruct (vote_tracked _ _ _ _ _ _ _ Htk Hs Hv) as (r' & Htk' & Hg). exists tree, r'. split; [done|].
    destruct nd. eapply grown_node; [exact Hn|apply Htk'|exact Hg].
  - pose proof (maybe_apply_blocks_ok (run_block run) (run_block_keeps run) brk nd r Hn) as Hok. rewrite H in Hok.
    destruct Hok as (r' & Hn' & _ & Hst & _). destruct (switch_tracked _ _ _ _ Hst _ Htk) as [r2 Htk']. by eapply controller_inv_intro.
  - assert (get_block (nd_db nd) (nd_head nd) true = Some p) as Hp by (unfold head_state in Hh; destruct (get_block _ _ _); congruence).
    pose proof (proj1 (get_block_iff _ _ _ _ (tk_inv _ _ _ Htk)) Hp) as Hk. destruct (known_num _ _ _ _ (tk_inv _ _ _ Htk) Hk) as (Hpid & _).
    destruct (produce_tracked tree (nd_db nd) r p when fs trxs ex s db1 a Htk) as (Hprev & Hs & Hg & tree' & Htk'); [by rewrite Hpid|done..|].
    assert (node_inv (Node db1 (nd_head nd)) r) as Hn1 by (destruct nd; eapply grown_node; [exact Hn|apply Htk'|exact Hg]).
    assert (node_inv (Node db1 (bs_id s)) r) as Hn2.
    { apply (produced_head db1 r (nd_head nd) (set_valid s)); [done|done| |done]. by rewrite <- Hpid. }
    destruct (log_irreversible_ok db1 r (bs_id s) (ni_db _ _ Hn2) (ni_executed _ _ Hn2)) as (db' & r' & Hlog' & Hav).
    assert (db' = db2) as -> by congruence. pose proof (advanced_inv _ _ _ _ _ Hn2 Hav) as Hn3.
    destruct (log_tracked tree' db1 db2 r (bs_id s) Htk' Hlog) as [r2 Htk2]. by eapply controller_inv_intro.
Qed.

(** A node starts on the root of its fork database. *)
Lemma start_tracked g B l' : seen g B → sb_header (b_block g) = s_header (b_bhs g) → state_chain (g :: l') B → (trusted → B = G) → votes_ok g →
  tracked (λ _, B) (reset_root g) (set_valid g).
Proof.
  intros (l & Hacc & HF & Hrt) Hh Hex HG Hvo. destruct (state_chain_tree _ _ _ Hex) as (v & Ht). pose proof (to_valid _ _ _ _ Ht) as Hv.
  destruct (accepted_head _ _ _ _ _ Hacc) as [Hco _]. split.
  - change (fd_inv (reset_root g) (bs_set_valid g)). apply reset_root_inv.
    change (num_from_id (s_block_id (b_bhs g)) = s_block_num (b_bhs g)).
    rewrite (co_num _ _ _ _ Hco). unfold num. by rewrite (co_ref _ _ _ _ Hco).
  - intros id s [[-> ->]|Hs]; [|done]. split; [|exact Hh| |cbn; by rewrite Hv|by apply (votes_ok_same g)].
    + exists l. split; [|split; [|exact Hrt]].
      * eapply ac_update; [done|]. constructor; [by split|apply same_block_chain].
      * apply Forall_cons in HF as [HP HF]. by constructor.
    + intros _. exists l'. apply (sc_update g); [done|by repeat split].
  - intros id s p Hs. done.
  - intros _. by left.
  - intros Htr. left. by apply HG.
Qed.

Lemma controller_start g B l' : seen g B → sb_header (b_block g) = s_header (b_bhs g) → state_chain (g :: l') B → (trusted → B = G) →
  votes_ok g → 0 < s_block_num (b_bhs g) → controller_inv (Node (reset_root g) (bs_id g)).
Proof.
  intros Hs Hh Hex HG Hvo Hpos. pose proof (start_tracked _ _ _ Hs Hh Hex HG Hvo) as Htk. exists (λ _, B), (set_valid g). split; [done|].
  split; [apply Htk|done| |exists (set_valid g); by left|].
  - destruct (known_num _ _ _ _ (tk_inv _ _ _ Htk) (or_introl (conj eq_refl eq_refl))) as (_ & Hn & _). rewrite <- Hn.
    change (num_from_id (h_previous (s_header (b_bhs g))) < s_block_num (b_bhs g)). unfold s_block_num, h_block_num in *.
    pose proof (num_from_id_range (h_previous (s_header (b_bhs g)))) as Hr. unfold is_u32, u32 in *.
    destruct (Z.eq_dec (num_from_id (h_previous (s_header (b_bhs g)))) 4294967295) as [E|E]; [rewrite E in Hpos; done|].
    rewrite Z.mod_small by lia. lia.
  - intros k c b Hp. inversion Hp as [|? y ? ? Hy]; subst; [by intros ?%not_elem_of_nil|done].
Qed.

Lemma reachable_inv nd nd' : rtc controller_step nd nd' → controller_inv nd → controller_inv nd'.
Proof. induction 1 as [|nd1 nd2 nd3 Hstep _ IH]; [done|]. intros H. by eapply IH, step_inv. Qed.

End Node.

Section Theorems.
Context {bls : Bls} {codec : ExtensionCodec} {digests : Digests codec} {bcodec : BlockExtensionCodec bls codec}.
Context {laws : ExtensionCodecLaws codec} {blaws : BlockExtensionCodecLaws bls codec bcodec} {blslaws : BlsLaws bls}.
Context (hash_nonzero : ∀ m, sha256_empty (hash_bytes m) = false).
Context (recover : signature_type → sha256 → result public_key_type) (signer : sha256 → list signature_type).
Context (validator : Z → gset sha256 → list sha256 → result unit).

(** A node starts on an executed block whose collected votes, if any, were verified. *)
Record start_ok (g : block_state) (l l' : list block_state) (B : block) : Prop := {
  so_accepted : accepted_chain recover validator (g :: l) B;
  so_header : sb_header (b_block g) = s_header (b_bhs g);
  so_executed : state_chain (g :: l') B;
  so_votes : votes_ok g;
  so_num : 0 < s_block_num (b_bhs g) }.

Notation any_header := (λ _ : block_header_state, True).
Notation steps := (rtc (controller_step recover signer validator any_header)).

Lemma reachable_tracked g l l' B nd : start_ok g l l' B → steps (Node (reset_root g) (bs_id g)) nd →
  ∃ tree r, tracked recover validator any_header (root B) False tree (nd_db nd) r ∧ node_inv nd r.
Proof using All.
  intros [Hacc Hh Hex Hvo Hpos] Hreach. assert (seen recover validator any_header (root B) g B) as Hseen.
  { exists l. split; [done|]. split; [|done]. apply Forall_forall. done. }
  pose proof (controller_start recover validator any_header (root B) False g B l' Hseen Hh Hex ltac:(done) Hvo Hpos) as Hstart.
  exact (reachable_inv hash_nonzero recover signer validator _ (root B) False (False_ind _) _ _ Hreach Hstart).
Qed.



End Theorems.
