(* ===== verification/Finalizer.v ===== *)
(** * Finalizers: [finalizer.hpp] / [finalizer.cpp]

    The safety information of a finalizer and the decision to vote on a block;
    [block_state] is the part of a block that the decision reads. *)

From S2P Require Import Prelude Sha256 FinalityCore Bitset FinalizerPolicy Qc.
Open Scope Z_scope.

Record finalizer_safety_information : Type := Fsi {
  last_vote : block_ref;
  lock : block_ref;
  other_branch_latest_time : Z }.

Definition unset_fsi : finalizer_safety_information := Fsi empty_block_ref empty_block_ref 0.

(** What [decide_vote] and [maybe_vote] read of a [block_state]. *)
Record block_state : Type := BlockState {
  bs_block_id : sha256;
  bs_timestamp : Z;
  bs_core : finality_core;
  bs_strong_digest : sha256;
  bs_active_finalizer_policy : finalizer_policy;
  bs_pending_finalizer_policy : option (Z * finalizer_policy) }.

Definition make_block_ref (bsp : block_state) : block_ref :=
  BlockRef (bs_block_id bsp) (bs_timestamp bsp) (bs_strong_digest bsp)
    (generation (bs_active_finalizer_policy bsp))
    (match bs_pending_finalizer_policy bsp with Some (_, p) => generation p | None => 0 end).

Inductive vote_decision : Type := no_vote | strong_vote | weak_vote.

#[export] Instance vote_decision_eq_dec : EqDecision vote_decision.
Proof. solve_decision. Defined.

Record vote_result : Type := VoteResult {
  decision : vote_decision;
  safety_check : bool;
  liveness_check : bool;
  monotony_check : bool }.

(** The checks on the lock: (liveness, safety). *)
Definition lock_checks (fsi : finalizer_safety_information) (bsp : block_state) : result (bool * bool) :=
  if negb (block_ref_empty (lock fsi)) then
    qc_ts ← latest_qc_block_timestamp (bs_core bsp);
    let live := timestamp (lock fsi) <? qc_ts in
    safe ← (if negb live then extends (bs_core bsp) (block_id (lock fsi)) else Ok false);
    Ok (live, safe)
  else Ok (false, false).

(** Strong or weak, and the new [other_branch_latest_time]. *)
Definition vote_strength (fsi : finalizer_safety_information) (bsp : block_state) (qc_ts : Z)
    : result (vote_decision * Z) :=
  if timestamp (last_vote fsi) <=? qc_ts then Ok (strong_vote, other_branch_latest_time fsi)
  else
    ext ← extends (bs_core bsp) (block_id (last_vote fsi));
    if (ext : bool) then
      Ok (if other_branch_latest_time fsi <=? qc_ts then strong_vote else weak_vote, other_branch_latest_time fsi)
    else Ok (weak_vote, timestamp (last_vote fsi)).

Definition decide_vote (fsi : finalizer_safety_information) (bsp : block_state)
    : result (vote_result * finalizer_safety_information) :=
  let monotony := block_ref_empty (last_vote fsi) || (timestamp (last_vote fsi) <? bs_timestamp bsp) in
  if negb monotony then Ok (VoteResult no_vote false false false, fsi)
  else
    '(live, safe) ← lock_checks fsi bsp;
    if live || safe then
      qc_ts ← latest_qc_block_timestamp (bs_core bsp);
      '(d, other) ← vote_strength fsi bsp qc_ts;
      '(new_lock, other) ←
        (if bool_decide (d = strong_vote) then
           if timestamp (lock fsi) <? qc_ts then
             claim ← latest_qc_claim (bs_core bsp);
             r ← get_block_reference (bs_core bsp) (claim_block_num claim);
             Ok (r, 0)
           else Ok (lock fsi, 0)
         else Ok (lock fsi, other));
      Ok (VoteResult d safe live true, Fsi (make_block_ref bsp) new_lock other)
    else Ok (VoteResult no_vote safe live true, fsi).

Definition maybe_update_fsi (fsi : finalizer_safety_information) (bsp : block_state)
    : result (finalizer_safety_information * bool) :=
  claim ← latest_qc_claim (bs_core bsp);
  r ← get_block_reference (bs_core bsp) (claim_block_num claim);
  if (timestamp (lock fsi) <? timestamp r) && (timestamp (last_vote fsi) <? bs_timestamp bsp)
  then Ok (Fsi (make_block_ref bsp) r 0, true)
  else Ok (fsi, false).

Section Finalizer.
Context {bls : Bls}.

(** [bls_private_key::sign]; [None] when it throws. *)
Context {bls_private_key : Type} (bls_sign : bls_private_key → list Z → option bls_g2).

Record finalizer : Type := Finalizer {
  priv_key : bls_private_key;
  fsi : finalizer_safety_information }.

(** The returned pointer is null when there is no vote or when signing throws. *)
Definition maybe_vote (f : finalizer) (pub_key : bls_public_key) (bsp : block_state) (digest : sha256)
    : result (finalizer * option vote_message) :=
  '(res, fsi') ← decide_vote (fsi f) bsp;
  let f' := Finalizer (priv_key f) fsi' in
  match decision res with
  | no_vote => Ok (f', None)
  | d =>
    let message := if bool_decide (d = weak_vote) then create_weak_digest digest else pack_sha256 digest in
    Ok (f', (λ sig, VoteMessage (bs_block_id bsp) (bool_decide (d = strong_vote)) pub_key sig)
              <$> bls_sign (priv_key f) message)
  end.

Definition has_voted_strong (fs : list finalizer_authority) (qc : qc_sig_t) (key : bls_public_key) : result bool :=
  assert_ (sig_is_strong qc);;
  match list_find (λ f, public_key f = key) fs with
  | None => Ok false
  | Some (index, _) =>
    match strong_votes qc with
    | None => Err assert_failed
    | Some b => bitset_test b index
    end
  end.

End Finalizer.
