(* ===== verification/ConsensusSafety.v ===== *)
(** * Consensus safety

    What [finalizer::decide_vote] decides on a valid block is stated on the
    block tree; from it follow the voting rules of a finalizer that always
    decides with this code, and from these that no two conflicting blocks become
    final as long as the other finalizers weigh less than the quorums overlap. *)

From S2P Require Import Prelude Sha256 Merkle FinalityCore BlockTree Bitset OrderedDiff FinalizerPolicy Qc QcTheory Finalizer.
Open Scope Z_scope.

(** ** One decision *)

(** [bsp] is the block state of the tree's block [B]. *)
Definition on_block (bsp : block_state) (B : block) : Prop :=
  make_block_ref bsp = ref_of B ∧ core_of B = Ok (bs_core bsp).

Definition is_child (B : block) : Prop := ∃ p r claim, B = Child p r claim.

(** The block named by [id] is an ancestor of [B] that is not below its last final block. *)
Definition extends_block (B : block) (id : sha256) : Prop :=
  ∃ A, ancestor A B ∧ id_of A = id ∧ final_num B <= num A.

(** A vote may be cast: it is later than the last one, and the block either
    carries a later QC than the lock or extends the lock. *)
Definition may_vote (f : finalizer_safety_information) (B : block) : Prop :=
  (block_ref_empty (last_vote f) = true ∨ timestamp (last_vote f) < time B) ∧
  block_ref_empty (lock f) = false ∧
  (timestamp (lock f) < qc_time B ∨ extends_block B (block_id (lock f))).

(** The vote does not conflict with earlier votes later than the QC of the block. *)
Definition is_strong_vote (f : finalizer_safety_information) (B : block) : Prop :=
  timestamp (last_vote f) <= qc_time B ∨
  extends_block B (block_id (last_vote f)) ∧ other_branch_latest_time f <= qc_time B.

Definition locked_on (f : finalizer_safety_information) (B A : block) : block_ref :=
  if timestamp (lock f) <? qc_time B then ref_of A else lock f.

Inductive vote_step (f : finalizer_safety_information) (B : block) : vote_decision → finalizer_safety_information → Prop :=
| step_no_vote : ¬ may_vote f B → vote_step f B no_vote f
| step_strong A : may_vote f B → is_strong_vote f B → claimed B = Some A →
    vote_step f B strong_vote (Fsi (ref_of B) (locked_on f B A) 0)
| step_weak : may_vote f B → ¬ is_strong_vote f B → extends_block B (block_id (last_vote f)) →
    vote_step f B weak_vote (Fsi (ref_of B) (lock f) (other_branch_latest_time f))
| step_weak_switch : may_vote f B → ¬ is_strong_vote f B → ¬ extends_block B (block_id (last_vote f)) →
    vote_step f B weak_vote (Fsi (ref_of B) (lock f) (timestamp (last_vote f))).

Section OneDecision.
Context (f : finalizer_safety_information) (bsp : block_state) (B : block).
Context (Hchild : is_child B) (Hv : valid B) (Hon : on_block bsp B).

Lemma core_sim : ∃ l, sim B (bs_core bsp) l.
Proof using Hv Hon.
  destruct (core_of_sim B Hv) as (c & l & Hc & Hs). destruct Hon as [_ Hcore].
  assert (c = bs_core bsp) as -> by congruence. by exists l.
Qed.

Lemma bsp_time : bs_timestamp bsp = time B.
Proof using Hon. destruct Hon as [Hr _]. unfold time. by rewrite <- Hr. Qed.

Lemma bsp_qc_time : latest_qc_block_timestamp (bs_core bsp) = Ok (qc_time B).
Proof using Hv Hon. destruct core_sim as [l Hs]. by eapply sim_qc_time. Qed.

Lemma bsp_extends id : ∃ e, extends (bs_core bsp) id = Ok e ∧ (e = true ↔ extends_block B id).
Proof using Hv Hon. destruct core_sim as [l Hs]. by eapply sim_extends. Qed.

Lemma lock_checks_ok : ∃ live safe, lock_checks f bsp = Ok (live, safe) ∧
  (live || safe = true ↔ block_ref_empty (lock f) = false ∧
     (timestamp (lock f) < qc_time B ∨ extends_block B (block_id (lock f)))).
Proof using Hv Hon.
  unfold lock_checks. destruct (block_ref_empty (lock f)); simpl.
  { exists false, false. split; [done|]. split; [done|by intros []]. }
  rewrite bsp_qc_time, bind_ok. destruct (Z.ltb_spec (timestamp (lock f)) (qc_time B)) as [Hlt|Hge]; simpl.
  - exists true, false. split; [done|]. split; [by auto|done].
  - destruct (bsp_extends (block_id (lock f))) as (e & He & Hiff). rewrite He. exists false, e.
    split; [done|]. simpl. rewrite Hiff. split; [by auto|]. intros [_ [H|H]]; [lia|done].
Qed.

Lemma vote_strength_ok : ∃ d other, vote_strength f bsp (qc_time B) = Ok (d, other) ∧
  (d = strong_vote ∧ is_strong_vote f B ∨
   d = weak_vote ∧ ¬ is_strong_vote f B ∧
     (extends_block B (block_id (last_vote f)) ∧ other = other_branch_latest_time f ∨
      ¬ extends_block B (block_id (last_vote f)) ∧ other = timestamp (last_vote f))).
Proof using Hv Hon.
  unfold vote_strength, is_strong_vote. destruct (Z.leb_spec (timestamp (last_vote f)) (qc_time B)) as [Hle|Hgt].
  { eexists _, _. split; [done|]. left. auto. }
  destruct (bsp_extends (block_id (last_vote f))) as (e & -> & Hiff). rewrite bind_ok.
  destruct e; [destruct (Z.leb_spec (other_branch_latest_time f) (qc_time B)) as [Hob|Hob]|];
    eexists _, _; (split; [done|]).
  - left. split; [done|]. right. split; [by apply Hiff|done].
  - right. split; [done|]. split; [intros [|[]]; lia|]. left. split; [by apply Hiff|done].
  - right. assert (¬ extends_block B (block_id (last_vote f))) as Hn by (by intros H; apply Hiff in H).
    split; [done|]. split; [intros [|[]]; [lia|done]|]. by right.
Qed.

Lemma bsp_claimed : ∃ A, claimed B = Some A ∧ ∃ cl, latest_qc_claim (bs_core bsp) = Ok cl ∧
  get_block_reference (bs_core bsp) (claim_block_num cl) = Ok (ref_of A).
Proof using Hchild Hv Hon.
  destruct core_sim as [l Hs]. destruct Hchild as (p & r & cl & ->).
  destruct (sim_claimed p r cl (bs_core bsp) l Hv Hs) as (A & HA & _ & _ & Hcl & Href). exists A. eauto.
Qed.

(** [decide_vote] does not fail on a valid block and follows the voting rules. *)
Lemma decide_vote_step : ∃ res f', decide_vote f bsp = Ok (res, f') ∧ vote_step f B (decision res) f'.
Proof using Hchild Hv Hon.
  unfold decide_vote. rewrite bsp_time.
  destruct (block_ref_empty (last_vote f) || (timestamp (last_vote f) <? time B)) eqn:Hmono; simpl negb; cbv iota.
  2: { eexists _, _. split; [done|]. simpl. constructor. intros [Hm _].
       apply orb_false_elim in Hmono as [H1 H2]. breflect. destruct Hm; [congruence|lia]. }
  assert (block_ref_empty (last_vote f) = true ∨ timestamp (last_vote f) < time B) as Hm.
  { apply orb_prop in Hmono as [?|?]; breflect; auto. }
  destruct lock_checks_ok as (live & safe & -> & Hls). rewrite bind_ok.
  destruct (live || safe) eqn:Hcan.
  2: { eexists _, _. split; [done|]. simpl. constructor. intros [_ H]. by apply Hls in H. }
  assert (may_vote f B) as Hmay by (split; [done|by apply Hls]).
  rewrite bsp_qc_time, bind_ok. destruct vote_strength_ok as (d & other & -> & Hd). rewrite bind_ok.
  destruct Hd as [[-> Hstr]|[-> [Hns Hext]]].
  - rewrite bool_decide_eq_true_2 by done. destruct bsp_claimed as (A & HA & cl & Hcl & Href).
    rewrite Hcl, bind_ok, Href, bind_ok. pose proof (step_strong f B A Hmay Hstr HA) as Hs. unfold locked_on in Hs.
    destruct (timestamp (lock f) <? qc_time B); rewrite bind_ok; eexists _, _; (split; [done|]); simpl;
      by rewrite (proj1 Hon).
  - rewrite bool_decide_eq_false_2 by done. rewrite bind_ok. eexists _, _. split; [done|]. simpl.
    rewrite (proj1 Hon). destruct Hext as [[He ->]|[He ->]]; by constructor.
Qed.
End OneDecision.

(** ** The votes of one finalizer *)

Section Safety.

(** The blocks seen by anyone: valid, closed under ancestors, with one genesis
    block, and identified by their ids (collision resistance of the hash). *)
Context (G : block) (U : block → Prop).
Context (U_valid : ∀ B, U B → valid B).
Context (U_anc : ∀ A B, U B → ancestor A B → U A).
Context (U_root : ∀ B, U B → root B = G).
Context (U_id : ∀ A B, U A → U B → id_of A = id_of B → A = B).

(** Latest vote first; the flag tells a strong vote. *)
Inductive history : finalizer_safety_information → list (block * bool) → Prop :=
| history_start lv : lv = ref_of G ∨ lv = empty_block_ref → history (Fsi lv (ref_of G) 0) []
| history_decide f h B bsp res f' :
    history f h → U B → is_child B → on_block bsp B → decide_vote f bsp = Ok (res, f') →
    history f' (match decision res with
                | no_vote => h | strong_vote => (B, true) :: h | weak_vote => (B, false) :: h
                end).

Lemma root_ancestor B : root B = B ∨ ancestor (root B) B.
Proof. induction B as [r|p IH r claim]; simpl; [by left|]. right. destruct IH as [->|?]; auto. Qed.

Lemma root_is_genesis B : ∃ r, root B = Genesis r.
Proof. induction B as [r|p IH r claim]; simpl; eauto. Qed.

(** Two blocks of one branch are ordered as their times are. *)
Lemma branch_order A A' B : valid B → ancestor A B → ancestor A' B → time A <= time A' → A' = A ∨ ancestor A A'.
Proof.
  induction B as [r|p IH r claim]; simpl; [done|]. intros (Hv & _) [->|HA] [->|HA'] Ht; [by left| | |].
  - destruct (valid_ancestor _ _ Hv HA') as (_ & _ & ?). lia.
  - by right.
  - by apply IH.
Qed.

Lemma claimed_ancestor A B : claimed B = Some A → ancestor A B.
Proof.
  destruct B as [r|p r claim]; simpl; [done|]. intros H. destruct (at_num_ancestor _ _ _ H) as [->|?]; auto.
Qed.

Lemma claimed_time A B : valid B → claimed B = Some A → qc_time B = time A.
Proof. destruct B as [r|p r claim]; simpl; [done|]. intros _ H. by rewrite H. Qed.

Lemma child_not_empty B : valid B → is_child B → block_ref_empty (ref_of B) = false.
Proof.
  intros Hv (p & r & cl & ->). destruct Hv as (_ & Hn & _). pose proof (num_range p) as Hrange. unfold is_u32 in *.
  unfold block_ref_empty, sha256_empty. simpl ref_of. apply Z.eqb_neq. intros H.
  apply Z.lor_eq_0_iff in H as [H _]. apply Z.lor_eq_0_iff in H as [H _]. apply Z.lor_eq_0_iff in H as [H _].
  unfold block_num in Hn. rewrite num_from_id_zero in Hn by done. lia.
Qed.

(** A certified block: the genesis block, or one some block of the tree claims. *)
Definition claimed_in_tree (K : block) : Prop := K = G ∨ ∃ B, U B ∧ claimed B = Some K.

(** The relation of an earlier vote [V] to the safety information of a
    finalizer whose last vote is [L]. *)
Definition accounted (f : finalizer_safety_information) (L V : block) : Prop :=
  time V <= time L ∧
  (V = L ∨ ancestor V L ∨ time V <= other_branch_latest_time f ∨ time V <= qc_time L).

Record hist_inv (f : finalizer_safety_information) (h : list (block * bool)) : Prop := {
  hi_U : ∀ V s, (V, s) ∈ h → U V ∧ is_child V;
  hi_last : ∀ L s h', h = (L, s) :: h' → last_vote f = ref_of L ∧ ∀ V sv, (V, sv) ∈ h → accounted f L V;
  hi_lock : ∃ K, U K ∧ claimed_in_tree K ∧ lock f = ref_of K ∧ ∀ S, (S, true) ∈ h → qc_time S <= time K }.

(** The rules every vote keeps with respect to the earlier ones. *)
Record vote_ok (B : block) (s : bool) (h : list (block * bool)) : Prop := {
  vo_later : ∀ V sv, (V, sv) ∈ h → time V < time B;
  vo_strong : s = true → ∀ V sv, (V, sv) ∈ h → ancestor V B ∨ time V <= qc_time B;
  vo_lock : ∀ S, (S, true) ∈ h → qc_time S < qc_time B ∨
              ∃ K, U K ∧ claimed_in_tree K ∧ ancestor K B ∧ qc_time S <= time K }.

Fixpoint history_ok (h : list (block * bool)) : Prop :=
  match h with [] => True | (B, s) :: h => vote_ok B s h ∧ history_ok h end.

Lemma extends_ancestor B A : U B → U A → extends_block B (block_id (ref_of A)) → ancestor A B.
Proof using U_anc U_id.
  intros HB HA (A' & Ha & Hid & _). assert (A' = A) as -> by (apply U_id; eauto). done.
Qed.

Section Step.
Context (f : finalizer_safety_information) (h : list (block * bool)) (Hinv : hist_inv f h).
Context (B : block) (HB : U B) (Hchild : is_child B) (Hmay : may_vote f B).

Lemma last_earlier V sv : (V, sv) ∈ h → time V < time B.
Proof using Hinv Hmay U_valid.
  intros Hin. destruct h as [|[L s] h'] eqn:Eh; [by apply not_elem_of_nil in Hin|].
  destruct (hi_last _ _ Hinv L s h' eq_refl) as [Hl Hacc].
  destruct (Hacc _ _ Hin) as [Hle _]. destruct Hmay as [Hm _].
  destruct (hi_U _ _ Hinv L s) as [HL HLc]; [by left|].
  rewrite Hl, (child_not_empty L (U_valid _ HL) HLc) in Hm. destruct Hm as [?|Hm]; [done|].
  unfold time in *. lia.
Qed.

Lemma lock_respected S : (S, true) ∈ h → qc_time S < qc_time B ∨
  ∃ K, U K ∧ claimed_in_tree K ∧ ancestor K B ∧ qc_time S <= time K.
Proof using Hinv Hmay HB U_anc U_id.
  intros Hin. destruct (hi_lock _ _ Hinv) as (K & HK & Hc & Hl & Hle). specialize (Hle _ Hin).
  destruct Hmay as (_ & _ & [Hlt|Hext]); rewrite Hl in *.
  - left. unfold time in *. lia.
  - right. exists K. split_and!; [done..|by apply extends_ancestor|done].
Qed.

Lemma strong_accounts : is_strong_vote f B → ∀ V sv, (V, sv) ∈ h → ancestor V B ∨ time V <= qc_time B.
Proof using Hinv HB U_valid U_anc U_id.
  intros Hs V sv Hin. destruct h as [|[L s] h'] eqn:Eh; [by apply not_elem_of_nil in Hin|].
  destruct (hi_last _ _ Hinv L s h' eq_refl) as [Hl Hacc].
  destruct (Hacc _ _ Hin) as [Hle Hcase]. unfold is_strong_vote in Hs. rewrite Hl in Hs.
  destruct (hi_U _ _ Hinv L s) as [HL _]; [by left|].
  destruct Hs as [Hs|[Hext Hob]]; [right; unfold time in *; lia|].
  apply extends_ancestor in Hext; [|done..].
  destruct Hcase as [->|[Ha|[Ho|Hq]]]; [by left|left; by eapply ancestor_trans|right; lia|right].
  pose proof (ancestor_mono qc_time qc_time_parent L B (U_valid _ HB) Hext). lia.
Qed.

Lemma cast_inv s lk ob :
  (∃ K, U K ∧ claimed_in_tree K ∧ lk = ref_of K ∧ (∀ S, (S, true) ∈ h → qc_time S <= time K) ∧ (s = true → qc_time B <= time K)) →
  (∀ V sv, (V, sv) ∈ h → ancestor V B ∨ time V <= ob ∨ time V <= qc_time B) →
  hist_inv (Fsi (ref_of B) lk ob) ((B, s) :: h).
Proof using Hinv HB Hchild Hmay U_valid.
  intros (K & HK & Hc & -> & HS & Hs) Hob. split.
  - intros V sv [[= -> ->]|Hin]%elem_of_cons; [done|]. by eapply hi_U.
  - intros L s' h' [= <- <- <-]. split; [done|]. intros V sv [[= -> ->]|Hin]%elem_of_cons.
    + split; [lia|by left].
    + split; [pose proof (last_earlier V sv Hin); lia|]. simpl. destruct (Hob V sv Hin); auto.
  - exists K. split_and!; [done..|]. intros S [[= -> <-]|Hin]%elem_of_cons; auto.
Qed.

Lemma cast_ok s : (s = true → is_strong_vote f B) → vote_ok B s h.
Proof using Hinv HB Hmay U_valid U_anc U_id.
  intros Hs. split; [apply last_earlier|intros ->; by apply strong_accounts, Hs|apply lock_respected].
Qed.

(** The invariant after a strong vote. *)
Lemma strong_inv A : is_strong_vote f B → claimed B = Some A →
  hist_inv (Fsi (ref_of B) (locked_on f B A) 0) ((B, true) :: h).
Proof using Hinv HB Hchild Hmay U_valid U_anc U_id.
  intros Hs HA. pose proof (claimed_time _ _ (U_valid _ HB) HA) as Hqt. apply cast_inv.
  - destruct (hi_lock _ _ Hinv) as (K & HK & Hc & Hl & Hle). unfold locked_on. rewrite Hl.
    destruct (Z.ltb_spec (timestamp (ref_of K)) (qc_time B)) as [Hlt|Hge].
    + exists A. split_and!; [exact (U_anc A B HB (claimed_ancestor A B HA))|right; by exists B|done| |lia].
      intros S HS. specialize (Hle S HS). unfold time in *. lia.
    + exists K. unfold time. split_and!; [done..|]. auto.
  - intros V sv Hin. destruct (strong_accounts Hs V sv Hin); auto.
Qed.

(** The invariant after a weak vote, with the new time of the other branch. *)
Lemma weak_inv ob :
  (extends_block B (block_id (last_vote f)) ∧ ob = other_branch_latest_time f ∨ ob = timestamp (last_vote f)) →
  hist_inv (Fsi (ref_of B) (lock f) ob) ((B, false) :: h).
Proof using Hinv HB Hchild Hmay U_valid U_anc U_id.
  intros Hob. apply cast_inv.
  - destruct (hi_lock _ _ Hinv) as (K & HK & Hc & Hl & Hle). exists K. by split_and!.
  - intros V sv Hin. destruct h as [|[L s] h'] eqn:Eh; [by apply not_elem_of_nil in Hin|].
    destruct (hi_last _ _ Hinv L s h' eq_refl) as [Hl Hacc]. destruct (Hacc _ _ Hin) as [Hle Hcase].
    rewrite Hl in Hob. destruct (hi_U _ _ Hinv L s) as [HL _]; [by left|].
    destruct Hob as [[Hext ->]| ->]; [|right; left; unfold time in *; lia].
    apply extends_ancestor in Hext; [|done..].
    pose proof (ancestor_mono qc_time qc_time_parent L B (U_valid _ HB) Hext).
    destruct Hcase as [->|[Ha|[Ho|Hq]]]; [by left|left; by eapply ancestor_trans|by auto|right; right; lia].
Qed.
End Step.

Lemma history_inv f h : U G → history f h → hist_inv f h ∧ history_ok h.
Proof using U_valid U_anc U_id.
  intros HG. induction 1 as [lv Hlv|f h B bsp res f' Hh [Hinv Hok] HB Hchild Hon Hd].
  - split; [|done]. split; [by intros ? ? ?%not_elem_of_nil|done|]. exists G. split_and!; [done|by left|done|].
    by intros ? ?%not_elem_of_nil.
  - destruct (decide_vote_step f bsp B Hchild (U_valid _ HB) Hon) as (res' & f'' & Hd' & Hstep).
    rewrite Hd in Hd'. injection Hd' as <- <-. destruct Hstep as [Hn|A Hmay Hs HA|Hmay Hns He|Hmay Hns He].
    + done.
    + split; [by apply strong_inv|]. split; [by eapply cast_ok|done].
    + split; [apply weak_inv; auto|]. split; [by eapply cast_ok|done].
    + split; [apply weak_inv; auto|]. split; [by eapply cast_ok|done].
Qed.

(** ** No conflicting final blocks *)

Section Agreement.
Context (HG : U G).

(** One policy; [honest i] tells that finalizer [i] only votes with this code,
    [hist i] are its votes. *)
Context (p : finalizer_policy) (Hpos : weights_nonneg (finalizers p)).
Context (honest : nat → bool) (hist : nat → list (block * bool)).
Context (Hhist : ∀ i, honest i = true → ∃ f, history f (hist i)).

(** The other finalizers weigh less than two quorums overlap. *)
Context (Hfault : total_weight (finalizers p) + weight_where (λ i, negb (honest i)) 0 (finalizers p) < 2 * threshold p).

(** A quorum voted for [B], the honest ones among it really did. *)
Definition certified (strongly : bool) (B : block) : Prop :=
  ∃ S, threshold p <= weight_where S 0 (finalizers p) ∧
    ∀ i, S i = true → honest i = true → ∃ s, (B, s) ∈ hist i ∧ (strongly = true → s = true).

(** Blocks are only accepted with a certificate for the block they claim. *)
Context (Hclaims : ∀ B A, U B → claimed B = Some A → A ≠ G → certified (claim_strong B) A).

Lemma certified_weaken b B : certified b B → certified false B.
Proof using. intros (S & HS & H). exists S. split; [done|]. intros i Hi Hh. destruct (H i Hi Hh) as (s & ? & _). by exists s. Qed.

Lemma claimed_certified K : claimed_in_tree K → K = G ∨ certified false K.
Proof using Hclaims.
  intros [->|(B & HB & Hc)]; [by left|]. destruct (decide (K = G)) as [->|Hne]; [by left|].
  right. eapply certified_weaken. by apply (Hclaims B).
Qed.

Lemma genesis_below B : U B → B = G ∨ ancestor G B.
Proof using U_root. intros HB. rewrite <- (U_root B HB). destruct (root_ancestor B) as [H|H]; auto. Qed.

(** Two certified blocks have a common honest voter. *)
Lemma common_voter b1 b2 B1 B2 : certified b1 B1 → certified b2 B2 →
  ∃ h s1 s2, history_ok h ∧ (B1, s1) ∈ h ∧ (B2, s2) ∈ h ∧ (b1 = true → s1 = true) ∧ (b2 = true → s2 = true).
Proof using Hpos Hhist Hfault HG U_valid U_anc U_id.
  intros (S1 & HS1 & H1) (S2 & HS2 & H2).
  destruct (quorum_intersection_outside _ _ _ _ _ Hpos Hfault HS1 HS2) as (i & Hi1 & Hi2 & Hh).
  apply negb_false_iff in Hh. destruct (Hhist i Hh) as [f Hf].
  destruct (H1 i Hi1 Hh) as (s1 & ? & ?), (H2 i Hi2 Hh) as (s2 & ? & ?).
  exists (hist i), s1, s2. split_and!; [by eapply history_inv|done..].
Qed.

(** The order of two votes of a history. *)
Lemma vote_order h B1 s1 B2 s2 : history_ok h → (B1, s1) ∈ h → (B2, s2) ∈ h →
  (B1, s1) = (B2, s2) ∨ (∃ h', vote_ok B1 s1 h' ∧ (B2, s2) ∈ h') ∨ (∃ h', vote_ok B2 s2 h' ∧ (B1, s1) ∈ h').
Proof using.
  induction h as [|[B s] h IH]; [by intros _ ?%not_elem_of_nil|].
  intros [Hv Hok] [E1|H1]%elem_of_cons [E2|H2]%elem_of_cons; simplify_eq; eauto.
Qed.

(** A block with a certificate at the time of another is that block. *)
Lemma same_time_certified B1 B2 : certified false B1 → certified false B2 → time B1 = time B2 → B1 = B2.
Proof using Hpos Hhist Hfault HG U_valid U_anc U_id.
  intros H1 H2 Ht. destruct (common_voter _ _ _ _ H1 H2) as (h & s1 & s2 & Hok & Hin1 & Hin2 & _).
  destruct (vote_order _ _ _ _ _ Hok Hin1 Hin2) as [[= ->]|[(h' & Hv & Hin)|(h' & Hv & Hin)]]; [done|..];
    pose proof (vo_later _ _ _ Hv _ _ Hin); lia.
Qed.

(** [A] has a strong certificate and claims [C]: every certified block that is
    not older than [C] descends from it. *)
Lemma descends_from_final C A : U A → certified true A → claimed A = Some C → C = G ∨ certified false C →
  ∀ n D, time D = time C + Z.of_nat n → U D → D = G ∨ certified false D → D = C ∨ ancestor C D.
Proof using Hpos Hhist Hfault HG Hclaims U_valid U_anc U_id U_root.
  intros HA HcA HC HcC. pose proof (claimed_ancestor _ _ HC) as HCA. pose proof (U_anc _ _ HA HCA) as HUC.
  pose proof (claimed_time _ _ (U_valid _ HA) HC) as Hqt.
  induction n as [n IH] using lt_wf_ind. intros D Ht HD HcD.
  assert (∀ K, U K → claimed_in_tree K → ancestor K D → time C <= time K → D = C ∨ ancestor C D) as Hvia.
  { intros K HK HcK HKD Hle. destruct (valid_ancestor _ _ (U_valid _ HD) HKD) as (_ & _ & Hlt).
    destruct (IH (Z.to_nat (time K - time C)) ltac:(lia) K ltac:(lia) HK (claimed_certified K HcK)) as [->|Ha]; [by right|].
    right. by eapply ancestor_trans. }
  destruct HcD as [->|HcD].
  { destruct (genesis_below C HUC) as [->|Ha]; [by left|].
    destruct (valid_ancestor _ _ (U_valid _ HUC) Ha) as (_ & _ & ?). lia. }
  destruct (common_voter _ _ _ _ HcA HcD) as (h & sA & sD & Hok & HinA & HinD & HsA & _). specialize (HsA eq_refl). subst sA.
  destruct (vote_order _ _ _ _ _ Hok HinA HinD) as [[= -> _]|[(h' & Hv & Hin)|(h' & Hv & Hin)]]; [by right|..].
  - destruct (vo_strong _ _ _ Hv eq_refl _ _ Hin) as [HDA|Hle].
    + apply (branch_order C D A); [by apply U_valid|done..|lia].
    + assert (time D = time C) as Heq by lia. destruct HcC as [->|HcC].
      * destruct (genesis_below D HD) as [->|Ha]; auto.
      * left. by apply same_time_certified.
  - destruct (vo_lock _ _ _ Hv A Hin) as [Hlt|(K & HK & HcK & HKD & Hle)]; [|apply (Hvia K HK HcK HKD); lia].
    destruct D as [r|pD r cl]; [simpl in Hlt; destruct (genesis_below _ HD) as [HDG|[]]|].
    { destruct (genesis_below C HUC) as [->|Ha]; [by left|].
      destruct (valid_ancestor _ _ (U_valid _ HUC) Ha) as (_ & _ & ?). rewrite HDG in Ht. lia. }
    destruct (qc_time_at _ (U_valid _ HD)) as (Q & HQ & Hqd).
    assert (claimed (Child pD r cl) = Some Q) as HQ'.
    { pose proof (U_valid _ HD) as (_ & Hn & _ & Hc & _). cbn [at_num claim_num] in HQ.
      rewrite num_child, (proj2 (Z.eqb_neq _ _)) in HQ by lia. done. }
    pose proof (claimed_ancestor _ _ HQ') as HQD.
    apply (Hvia Q); [by eapply U_anc|right; eauto|done|lia].
Qed.

(** Where the last final block of a branch comes from. *)
Lemma final_justified B : U B → ∃ C, at_num B (final_num B) = Some C ∧ U C ∧
  (C = G ∨ ∃ A, U A ∧ certified true A ∧ claimed A = Some C).
Proof using Hclaims HG U_valid U_anc U_root U_id.
  induction B as [r|q IH r cl]; intros HB.
  { exists (Genesis r). split; [apply at_num_self|]. split; [done|]. left. by apply (U_root (Genesis r)). }
  assert (U q) as Hq by (apply (U_anc q _ HB); by left).
  assert (∀ C, at_num q (num C) = Some C → at_num (Child q r cl) (num C) = Some C) as Hup.
  { intros C HC. apply ancestor_at_num; [by apply U_valid|]. cbn [ancestor].
    destruct (at_num_ancestor _ _ _ HC) as [->|?]; auto. }
  destruct (IH Hq) as (C & HC & HUC & Hj). pose proof (at_num_some _ _ _ HC) as HnC. rewrite <- HnC in HC.
  cbn [final_num]. destruct (is_strong_qc cl) eqn:Es; [|exists C; rewrite <- HnC; auto].
  destruct (at_num q (claim_block_num cl)) as [A|] eqn:EA; [|exists C; rewrite <- HnC; auto].
  assert (ancestor A (Child q r cl)) as HAB by (by apply claimed_ancestor). pose proof (U_anc _ _ HB HAB) as HUA.
  destruct A as [rA|qA rA clA].
  - exists (Genesis rA). split; [by apply (ancestor_at_num (Genesis rA)); [apply U_valid|]|]. split; [done|]. left. by apply (U_root (Genesis rA)).
  - assert (Child qA rA clA ≠ G) as Hne.
    { intros Heq. pose proof (U_root _ HUA) as Hr. rewrite <- Heq in Hr. clear -Hr.
      destruct (root_is_genesis (Child qA rA clA)) as [x Hx]. congruence. }
    pose proof (Hclaims _ _ HB EA Hne) as HcA. cbn [claim_strong] in HcA. rewrite Es in HcA.
    pose proof (U_valid _ HUA) as HvA. destruct (qc_time_at _ HvA) as (D & HD & _).
    pose proof (at_num_some _ _ _ HD) as HnD.
    assert (claimed (Child qA rA clA) = Some D) as HD'.
    { destruct HvA as (_ & Hn & _ & Hc & _). cbn [at_num claim_num] in HD.
      rewrite num_child, (proj2 (Z.eqb_neq _ _)) in HD by lia. done. }
    pose proof (claimed_ancestor _ _ HD') as HDA. exists D. split_and!.
    + rewrite <- HnD. apply ancestor_at_num; [by apply U_valid|]. by eapply ancestor_trans.
    + by eapply U_anc.
    + right. by eexists.
Qed.

Lemma final_blocks_agree B1 B2 C1 C2 : U B1 → U B2 →
  at_num B1 (final_num B1) = Some C1 → at_num B2 (final_num B2) = Some C2 → time C1 <= time C2 →
  C2 = C1 ∨ ancestor C1 C2.
Proof using Hpos Hhist Hfault HG Hclaims U_valid U_anc U_id U_root.
  intros HB1 HB2 HC1 HC2 Ht.
  destruct (final_justified B1 HB1) as (C1' & H1 & HU1 & Hj1). assert (C1' = C1) as -> by congruence.
  destruct (final_justified B2 HB2) as (C2' & H2 & HU2 & Hj2). assert (C2' = C2) as -> by congruence.
  destruct Hj1 as [->|(A & HA & HcA & HAC)]; [by apply genesis_below|].
  apply (descends_from_final C1 A HA HcA HAC (claimed_certified C1 ltac:(right; eauto)) (Z.to_nat (time C2 - time C1)) C2);
    [lia|done|].
  destruct Hj2 as [->|(A2 & HA2 & _ & HAC2)]; [by left|]. apply claimed_certified. right. eauto.
Qed.

End Agreement.
End Safety.

(** * Theorems *)

(** The blocks that exist: all valid, closed under ancestors, with one genesis
    block, and identified by their ids. *)
Record universe_ok (G : block) (U : block → Prop) : Prop := {
  uo_genesis : U G;
  uo_valid : ∀ B, U B → valid B;
  uo_anc : ∀ A B, U B → ancestor A B → U A;
  uo_root : ∀ B, U B → root B = G;
  uo_id : ∀ A B, U A → U B → id_of A = id_of B → A = B }.

(** Honest finalizers vote with [decide_vote] and have the votes [hist]; the
    others weigh less than quorums overlap; every claim is backed by a quorum. *)
Record run_ok (G : block) (U : block → Prop) (p : finalizer_policy) (honest : nat → bool)
    (hist : nat → list (block * bool)) : Prop := {
  ro_hist : ∀ i, honest i = true → ∃ f, history G U f (hist i);
  ro_fault : total_weight (finalizers p) + weight_where (λ i, negb (honest i)) 0 (finalizers p) < 2 * threshold p;
  ro_claims : ∀ B A, U B → claimed B = Some A → A ≠ G → certified p honest hist (claim_strong B) A }.

(** On every valid block [decide_vote] returns without tripping an assertion
    of the finality core, and its decision and new safety information are those
    of the voting rules: a vote is later than the last one and extends the lock or
    carries a later QC, it is strong exactly when it cannot conflict with an
    earlier vote later than the QC of the block, and only a strong vote moves the lock. *)
Theorem decide_vote_follows_rules f bsp B :
  is_child B → valid B → on_block bsp B →
  ∃ res f', decide_vote f bsp = Ok (res, f') ∧ vote_step f B (decision res) f'.
Proof. intros Hc Hv Ho. by apply decide_vote_step. Qed.

(** C8: in any sequence of decisions of a finalizer, every vote is later than
    the earlier ones, a strong vote has every earlier vote among its ancestors or
    not later than the block its QC is for, and every vote respects the lock set
    by the earlier strong votes. *)
Theorem votes_keep_rules G U f h :
  universe_ok G U → history G U f h → history_ok G U h.
Proof. intros [HG Hv Ha Hr Hi] Hh. by eapply history_inv. Qed.

(** C2: consensus safety. Whatever the other finalizers do, as long as they
    weigh less than two quorums overlap, the last final blocks of any two
    blocks lie on one branch. *)
Theorem no_conflicting_final_blocks G U p honest hist B1 B2 C1 C2 :
  universe_ok G U → policy_wf p → run_ok G U p honest hist → U B1 → U B2 →
  at_num B1 (final_num B1) = Some C1 → at_num B2 (final_num B2) = Some C2 →
  C1 = C2 ∨ ancestor C1 C2 ∨ ancestor C2 C1.
Proof.
  intros [HG Hv Ha Hr Hi] Hp [Hh Hf Hc] HB1 HB2 HC1 HC2. pose proof (pw_weights _ Hp) as Hpos.
  destruct (Z.le_ge_cases (time C1) (time C2)) as [Ht|Ht].
  - destruct (final_blocks_agree G U Hv Ha Hr Hi HG p Hpos honest hist Hh Hf Hc B1 B2 C1 C2) as [->|?]; auto.
  - destruct (final_blocks_agree G U Hv Ha Hr Hi HG p Hpos honest hist Hh Hf Hc B2 B1 C2 C1) as [->|?]; auto.
Qed.

(** ** A concrete run *)

Module Example.
Import ChainExample.

Definition ex_U (B : block) : Prop := B ∈ ex_blocks.

Definition state_of (B : block) : block_state :=
  BlockState (id_of B) (time B) (match core_of B with Ok c => c | Err _ => FinalityCore [] [] 0 end)
    (finality_digest (ref_of B)) (policy3 1 1 2 3) None.

Definition ex_hist (i : nat) : list (block * bool) := [(b2, true); (b1, true)].

Lemma ex_ancestors B : ex_U B → ∀ A, ancestor A B → ex_U A.
Proof.
  intros H. each_block H; simpl; intros A HA; repeat (destruct HA as [->|HA] || destruct HA);
    apply (bool_decide_unpack _); vm_compute; done.
Qed.

Lemma ex_universe : universe_ok g ex_U.
Proof.
  split.
  - by left.
  - exact chain_valid.
  - intros A B HB HA. by apply (ex_ancestors B).
  - intros B H. by each_block H.
  - intros A B HA HB Heq. each_block HA; each_block HB; first [done|by vm_compute in Heq].
Qed.

Lemma ex_on_block B : B ∈ [b1; b2; b3; c2] → on_block (state_of B) B.
Proof. intros H. each_block H; (split; [by vm_compute|by vm_compute]). Qed.

Definition f0 : finalizer_safety_information := Fsi (ref_of g) (ref_of g) 0.
Definition f1 : finalizer_safety_information := Fsi (ref_of b1) (ref_of g) 0.
Definition f2 : finalizer_safety_information := Fsi (ref_of b2) (ref_of b1) 0.

Lemma ex_history : ∃ f, history g ex_U f (ex_hist 0).
Proof.
  assert (history g ex_U f0 []) as H0 by (apply history_start; by left).
  assert (history g ex_U f1 [(b1, true)]) as H1.
  { apply (history_decide g ex_U f0 [] b1 (state_of b1) (VoteResult strong_vote true false true) f1 H0);
      [right; by left|by repeat eexists|apply ex_on_block; by left|by vm_compute]. }
  exists f2.
  apply (history_decide g ex_U f1 [(b1, true)] b2 (state_of b2) (VoteResult strong_vote false true true) f2 H1);
    [right; right; by left|by repeat eexists|apply ex_on_block; right; by left|by vm_compute].
Qed.

Lemma ex_run : run_ok g ex_U (policy3 1 1 2 3) (λ _, true) ex_hist.
Proof.
  split; [intros i _; exact ex_history|by vm_compute|].
  intros B A HB HA Hne. exists (λ _, true). split; [by vm_compute|]. intros i _ _. exists true. split; [|done].
  unfold ex_hist. each_block HB; vm_compute in HA; try done; injection HA as <-; try done;
    apply (bool_decide_unpack _); vm_compute; done.
Qed.

(** Finalizers voted strong on blocks 3 and 4, block 5 makes block 3 final;
    the fork [c2] only knows the genesis block to be final. *)
Lemma no_conflicting_final_blocks_witness :
  at_num b3 (final_num b3) = Some b1 ∧ at_num c2 (final_num c2) = Some g ∧ (b1 = g ∨ ancestor b1 g ∨ ancestor g b1).
Proof.
  split; [by vm_compute|]. split; [by vm_compute|].
  apply (no_conflicting_final_blocks g ex_U (policy3 1 1 2 3) (λ _, true) ex_hist b3 c2 b1 g ex_universe).
  - apply policy3_wf. apply (bool_decide_unpack _). vm_compute. done.
  - exact ex_run.
  - right; right; right; by left.
  - right; right; right; right; by left.
  - by vm_compute.
  - by vm_compute.
Defined.

Lemma votes_keep_rules_witness : history_ok g ex_U (ex_hist 0) ∧ ex_hist 0 ≠ [].
Proof.
  split; [|done]. destruct ex_history as [f Hf]. exact (votes_keep_rules g ex_U f (ex_hist 0) ex_universe Hf).
Defined.

(** After a strong vote on [b2], a vote on the later fork [c2] is refused. *)
Lemma decide_vote_follows_rules_witness :
  ∃ res f', decide_vote f2 (state_of c2) = Ok (res, f') ∧
    vote_step f2 c2 (decision res) f'.
Proof.
  apply (decide_vote_follows_rules f2 (state_of c2) c2).
  - by repeat eexists.
  - apply chain_valid. right; right; right; right; by left.
  - apply ex_on_block. right; right; right; by left.
Defined.
End Example.
