(* ===== verification/Network.v ===== *)
(** * Nodes that agree

    The theorems on votes, certificates, blocks and nodes composed: two nodes that
    started from the same genesis block never have conflicting roots, whatever they received, as
    long as the faulty finalizers weigh less than two quorums overlap. *)

From stdpp Require Import gmap relations.
From S2P Require Import Prelude Sha256 FinalityCore BlockTree ConsensusSafety Bitset OrderedDiff ProducerSchedule FinalizerPolicy Qc BlockHeaderState BlockHeaderTheory QcTheory QcSignatures BlockState BlockStateTheory ForkDatabase ForkDatabaseTheory ForkSwitch ForkSwitchTheory BlockAcceptance BlockAcceptanceTheory SeenBlocks BlockProduction BlockProductionTheory Node.
Open Scope Z_scope.

Section Network.
Context {bls : Bls} {codec : ExtensionCodec} {digests : Digests codec} {bcodec : BlockExtensionCodec bls codec}.
Context {laws : ExtensionCodecLaws codec} {blaws : BlockExtensionCodecLaws bls codec bcodec} {blslaws : BlsLaws bls}.
Context (recover : signature_type → sha256 → result public_key_type).
Context (validator : Z → gset sha256 → list sha256 → result unit).

(** The state of the genesis block, the header states that exist, and the finalizers: [honest i]
    tells that finalizer [i] only votes with this code, [hist i] are its votes. *)
Context (g : block_state) (P : block_header_state → Prop) (p : finalizer_policy).
Context (honest : nat → bool) (hist : nat → list (block * bool)).

Definition genesis_block : block := Genesis (b_make_block_ref g).
Notation seen := (seen recover validator P genesis_block).
Notation exists_block := (exists_block recover validator P genesis_block).

Record network_ok : Prop := {
  nw_genesis : accepted_chain recover validator [g] genesis_block ∧ state_chain [g] genesis_block;
  nw_header : sb_header (b_block g) = s_header (b_bhs g);
  nw_start : P (b_bhs g) ∧ 0 < s_block_num (b_bhs g);
  nw_collected : votes_ok g;
  (** Block ids do not collide. *)
  nw_ids : no_collision P;
  (** One policy is active. *)
  nw_policy : policy_wf p ∧ ∀ x, P x → s_active_finalizer_policy x = p;
  nw_honest : ∀ i, honest i = true → ∃ f, history genesis_block exists_block f (hist i);
  nw_fault : total_weight (finalizers p) + weight_where (λ i, negb (honest i)) 0 (finalizers p) < 2 * threshold p;
  (** Signatures are not forged: an honest finalizer in a certificate that verifies did vote. *)
  nw_votes : ∀ s B qc i, seen s B → qc_verify_signatures qc (policies_at s) = Ok tt → honest i = true →
    (tested (strong_votes (active_policy_sig qc)) i = true → (B, true) ∈ hist i) ∧
    (tested (weak_votes (active_policy_sig qc)) i = true → (B, false) ∈ hist i) }.

Context (Hok : network_ok).

Lemma genesis_seen : seen g genesis_block.
Proof using Hok.
  exists []. split; [apply (nw_genesis Hok)|]. split; [|done]. constructor; [apply (nw_start Hok)|constructor].
Qed.

Lemma network_universe : universe_ok genesis_block exists_block.
Proof using Hok.
  split.
  - exists g. apply genesis_seen.
  - intros B [s Hs]. by destruct (seen_ok _ _ _ _ _ _ Hs) as (? & _).
  - intros A B [s Hs] Ha. by eapply seen_ancestor.
  - intros B [s Hs]. by destruct (seen_ok _ _ _ _ _ _ Hs) as (_ & _ & _ & _ & ?).
  - intros A B HA HB. by apply (exists_unique recover validator P genesis_block (nw_ids Hok)).
Qed.

(** A verified certificate is a quorum of votes. *)
Lemma certificate_certifies s B qc : seen s B → verify_basic qc (policies_at s) = Ok tt → qc_verify_signatures qc (policies_at s) = Ok tt →
  certified p honest hist (qc_is_strong qc) B.
Proof using Hok.
  intros Hs Hb Hv. destruct (nw_policy Hok) as [Hwf Hp]. assert (active_finalizer_policy (policies_at s) = p) as Ha.
  { destruct Hs as (l & _ & HF & _). apply Hp. by apply Forall_cons in HF as [? _]. }
  pose proof (verified_quorum qc (policies_at s)) as Hq. rewrite Ha in Hq. specialize (Hq Hwf Hb). cbv zeta in Hq.
  pose proof (λ i, nw_votes Hok s B qc i Hs Hv) as Hvotes. destruct (qc_is_strong qc); eexists; (split; [exact Hq|]); intros i Hi Hh.
  - exists true. split; [by apply (Hvotes i Hh)|done].
  - apply orb_prop in Hi as [Hi|Hi]; [exists true|exists false]; (split; [by apply (Hvotes i Hh)|done]).
Qed.

(** The claimed block of a block that exists is certified. *)
Lemma network_claims B A : exists_block B → claimed B = Some A → A ≠ genesis_block → certified p honest hist (claim_strong B) A.
Proof using Hok.
  intros [s Hs] HA Hne. pose proof (claimed_ancestor _ _ HA) as HAB. pose proof Hs as (l & Hch & HF & Hrt).
  destruct (seen_ok _ _ _ _ _ _ Hs) as (HvB & _). destruct (seen_ancestor _ _ _ _ _ _ _ Hs HAB) as [sA HsA].
  destruct (seen_ok _ _ _ _ _ _ HsA) as (HvA & _ & _ & _ & HrA).
  assert (num A = claim_num B) as HnA by (destruct B as [r|q r claim]; [done|]; by eapply at_num_some).
  destruct (ak_backed _ _ (accepted_chain_ok _ _ _ _ Hch) B (or_introl eq_refl)) as [[Hn _]|(sC & qc & Hin & HnC & Hcl & Hb & Hv)].
  - exfalso. apply Hne. rewrite <- HrA. apply (root_above A HvA). rewrite HrA, <- Hrt. lia.
  - destruct (seen_member _ _ _ _ s l B sC Hch HF Hrt Hin) as (C & HsC & HC).
    destruct (seen_ok _ _ _ _ _ _ HsC) as (_ & _ & _ & HnumC & _). destruct (valid_ancestor _ _ HvB HAB) as (_ & Hlt & _).
    assert (A = C) as ->.
    { destruct HC as [->|HC]; [lia|]. pose proof (ancestor_at_num _ _ HvB HC) as H1. pose proof (ancestor_at_num _ _ HvB HAB) as H2.
      replace (num C) with (num A) in H1 by lia. congruence. }
    injection Hcl as _ <-. by apply (certificate_certifies sC).
Qed.

Lemma network_run : run_ok genesis_block exists_block p honest hist.
Proof using Hok. split; [apply (nw_honest Hok)|apply (nw_fault Hok)|apply network_claims]. Qed.

Lemma final_agree C1 C2 : is_final recover validator P genesis_block C1 → is_final recover validator P genesis_block C2 →
  C1 = C2 ∨ ancestor C1 C2 ∨ ancestor C2 C1.
Proof using Hok.
  intros (B1 & HB1 & H1) (B2 & HB2 & H2). destruct network_universe as [HG Hv Ha Hr Hi]. destruct network_run as [Hh Hf Hc].
  pose proof (pw_weights _ (proj1 (nw_policy Hok))) as Hpos. destruct (Z.le_ge_cases (time C1) (time C2)) as [Ht|Ht].
  - destruct (final_blocks_agree _ _ Hv Ha Hr Hi HG p Hpos honest hist Hh Hf Hc B1 B2 C1 C2) as [->|?]; auto.
  - destruct (final_blocks_agree _ _ Hv Ha Hr Hi HG p Hpos honest hist Hh Hf Hc B2 B1 C2 C1) as [->|?]; auto.
Qed.

(** Two blocks of one branch. *)
Lemma one_branch A B C : (A = C ∨ ancestor A C) → (B = C ∨ ancestor B C) → A = B ∨ ancestor A B ∨ ancestor B A.
Proof.
  induction C as [r|q IH r cl]; cbn [ancestor].
  - intros [->|[]] [->|[]]. by left.
  - intros [->|HA] [->|HB]; cbn [ancestor]; auto.
Qed.

Lemma irreversible_agree A1 A2 : exists_block A1 → exists_block A2 →
  irreversible recover validator P genesis_block A1 → irreversible recover validator P genesis_block A2 →
  A1 = A2 ∨ ancestor A1 A2 ∨ ancestor A2 A1.
Proof using Hok.
  intros [s1 Hs1] [s2 Hs2] H1 H2. destruct (seen_ok _ _ _ _ _ _ Hs1) as (_ & _ & _ & _ & Hr1).
  destruct (seen_ok _ _ _ _ _ _ Hs2) as (_ & _ & _ & _ & Hr2).
  destruct H1 as [->|(C1 & HC1 & HA1)].
  { rewrite <- Hr2. destruct (root_ancestor A2) as [->|?]; auto. }
  destruct H2 as [->|(C2 & HC2 & HA2)].
  { rewrite <- Hr1. destruct (root_ancestor A1) as [E|?]; [left; by rewrite E|auto]. }
  destruct (final_agree C1 C2 HC1 HC2) as [->|[HC|HC]].
  - by eapply one_branch.
  - apply (one_branch _ _ C2); [|done]. right. destruct HA1 as [->|?]; [done|by eapply ancestor_trans].
  - apply (one_branch _ _ C1); [done|]. right. destruct HA2 as [->|?]; [done|by eapply ancestor_trans].
Qed.

Context (hash_nonzero : ∀ m, sha256_empty (hash_bytes m) = false).

Lemma root_irreversible signer nd r : rtc (controller_step recover signer validator P) (Node (reset_root g) (bs_id g)) nd →
  fd_root (nd_db nd) = Some r → ∃ A, seen r A ∧ irreversible recover validator P genesis_block A.
Proof using Hok hash_nonzero laws blaws blslaws.
  intros Hreach Hr. destruct (nw_genesis Hok) as [_ Hex].
  pose proof (controller_start recover validator P genesis_block True g genesis_block [] genesis_seen (nw_header Hok) Hex
    (λ _, eq_refl) (nw_collected Hok) (proj2 (nw_start Hok))) as Hstart.
  destruct (reachable_inv hash_nonzero recover signer validator P genesis_block True (λ _, nw_ids Hok) _ _ Hreach Hstart)
    as (tree & r' & Htk & Hn). pose proof (fi_root _ _ (ni_db _ _ Hn)) as Hr'. assert (r' = r) as -> by congruence.
  exists (tree (bs_id r)). split; [|by apply (tk_root _ _ _ _ _ _ _ _ Htk)].
  apply (ts_accepted _ _ _ _ _ _ (tk_state _ _ _ _ _ _ _ _ Htk (bs_id r) r (or_introl (conj eq_refl eq_refl)))).
Qed.

End Network.

Section Theorems.
Context {bls : Bls} {codec : ExtensionCodec} {digests : Digests codec} {bcodec : BlockExtensionCodec bls codec}.
Context {laws : ExtensionCodecLaws codec} {blaws : BlockExtensionCodecLaws bls codec bcodec} {blslaws : BlsLaws bls}.


End Theorems.
