(* ===== verification/BranchExample.v ===== *)
(** * An example branch

    Four blocks with one finalizer: the Savanna genesis block, accepted as a
    transition block, and three blocks produced on it, each with the certificate
    of its parent. Another node receives and applies them. The theorems on states, acceptance,
    production and on the node are applied to the branch. *)

From stdpp Require Import gmap relations.
From S2P Require Import Prelude Sha256 Merkle FinalityCore BlockTree Finalizer ConsensusSafety Bitset OrderedDiff ProducerSchedule FinalizerPolicy Qc BlockHeaderState BlockHeaderTheory QcTheory QcSignatures BlockState BlockStateTheory ForkDatabase ForkDatabaseTheory ForkSwitch ForkSwitchTheory BlockAcceptance BlockAcceptanceTheory SeenBlocks BlockProduction BlockProductionTheory Node Network.
Open Scope Z_scope.

Module BranchExample.

(** Evaluates both sides in the virtual machine. *)
Ltac by_vm := match goal with |- _ = ?b => vm_cast_no_check (eq_refl b) | |- _ < _ => vm_cast_no_check (eq_refl Lt) end.

(** The signatures that exist are those of the finalizer with key 1 for the strong digests of
    the second and the third block. *)
Definition issued : list (list Z * list Z) := Eval vm_compute in
  [([1], pack_sha256 (Sha256 7939500443778807836 80 0 0)); ([1], pack_sha256 (Sha256 11596240688609747124 80 0 0))].
Definition signed (keys : list (list Z)) (m : list Z) : bool := forallb (λ k, bool_decide ((k, m) ∈ issued)) keys.

Definition issued_bls : Bls := {|
  bls_g1 := list (list Z); bls_g2 := Z; g1_from_affine_bytes_le k := Some [k];
  bls_g2_zero := 0; bls_g2_add := Z.add; aggregate_public_keys kss := concat kss;
  bls_verify ks m _ := signed ks m;
  aggregate_verify kss ms _ := forallb (λ x, signed x.1 x.2) (zip kss ms) |}.
#[local] Existing Instance issued_bls.

Lemma signed_app ks ks' m : signed (ks ++ ks') m = signed ks m && signed ks' m.
Proof. apply forallb_app. Qed.

(** Keys that signed one by one signed together. *)
#[local] Instance blslaws : BlsLaws issued_bls.
Proof.
  split; [intros x; apply Z.add_0_l|intros x y; apply Z.add_comm|intros x y z; apply Z.add_assoc|].
  intros groups _ _ HF. cbn [aggregate_verify issued_bls]. induction HF as [|[vs m] groups Hg _ IH]; [done|].
  cbn [fmap list_fmap zip zip_with forallb fst snd] in *. rewrite IH, andb_true_r. clear IH. cbn [aggregate_public_keys issued_bls].
  induction Hg as [|[k x] vs Hv _ IHg]; [done|]. cbn [fmap list_fmap concat fst snd] in *. rewrite signed_app, IHg, andb_true_r. exact Hv.
Qed.

Definition codec : ExtensionCodec := {|
  ext_data := block_header_extension + block_extension;
  pack_features fs := inl (protocol_feature_activation fs);
  unpack_features e := match e with inl (protocol_feature_activation fs) => Some fs | _ => None end;
  unpack_schedule e := match e with inl (producer_schedule_change_extension s) => Some s | _ => None end;
  pack_finality f := inl (finality_extension_ext f);
  unpack_finality e := match e with inl (finality_extension_ext f) => Some f | _ => None end |}.
#[local] Existing Instance codec.

#[local] Instance laws : ExtensionCodecLaws codec.
Proof. by split. Qed.

Definition bcodec : BlockExtensionCodec issued_bls codec := {|
  pack_signatures l := inr (additional_block_signatures_extension l);
  unpack_signatures (e : ext_data (ExtensionCodec := codec)) :=
    match e with inr (additional_block_signatures_extension l) => Some l | _ => None end;
  pack_qc qc := inr (quorum_certificate_extension qc);
  unpack_qc (e : ext_data (ExtensionCodec := codec)) :=
    match e with inr (quorum_certificate_extension qc) => Some qc | _ => None end;
  ext_data_lt _ _ := false |}.
#[local] Existing Instance bcodec.

#[local] Instance blaws : BlockExtensionCodecLaws issued_bls codec bcodec.
Proof. by split. Qed.

Definition digests : Digests codec := {|
  hash_bytes := toy_hash;
  pack_header h := pack_u32 (h_timestamp h) ++ pack_sha256 (h_previous h) ++ pack_sha256 (h_action_mroot h);
  pack_finalizer_policy p := pack_u32 (generation p);
  pack_proposer_policy p := pack_u32 (version (proposer_schedule p));
  pack_feature_set s := pack_u32 (Z.of_nat (base.size s)) |}.
#[local] Existing Instance digests.

Lemma toy_hash_nonzero m : sha256_empty (hash_bytes m) = false.
Proof.
  destruct m as [|x m]; [done|]. apply not_true_iff_false. intros H. unfold sha256_empty in H.
  change (hash_bytes (x :: m)) with (toy_hash (x :: m)) in H. unfold toy_hash in H. cbn [hash0 hash1 hash2 hash3] in H.
  breflect. rewrite !Z.lor_0_r in *. match goal with E : Z.lor _ _ = 0 |- _ => apply Z.lor_eq_0_iff in E as [_ E] end.
  cbn [length] in *. lia.
Qed.

(** A signature is the key that is recovered from it. *)
Definition recover (s : signature_type) (_ : sha256) : result public_key_type := Ok s.
Definition signer (_ : sha256) : list signature_type := [[1]].
Definition validator (_ : Z) (_ : gset sha256) (_ : list sha256) : result unit := Ok tt.

Definition schedule1 : producer_authority_schedule :=
  ProducerAuthoritySchedule 1 [ProducerAuthority 7 (BlockSigningAuthority 1 [KeyWeight [1] 1])].
Definition schedule2 : list producer_authority := [ProducerAuthority 8 (BlockSigningAuthority 1 [KeyWeight [2] 1])].
Definition policy2 : finalizer_policy := FinalizerPolicy 0 2 [fin 1 1; fin 2 1].
Definition feature : sha256 := Sha256 5 5 5 5.

(** The genesis block, on a legacy block of number 0. *)
Definition g_ext : finality_extension :=
  FinalityExtension (QcClaim 1 false) (Some (FinalizerPolicyDiff 1 1 (DiffResult [] [(0%nat, fin 1 1)]))) None.
Definition g_block : signed_block :=
  SignedBlock (BlockHeader 24 7 0 (store_block_num sha256_zero 0) sha256_zero sha256_zero 1 None [(2, pack_finality g_ext)])
    [1] [] [].
Definition legacy_header : block_header := BlockHeader 23 7 0 sha256_zero sha256_zero sha256_zero 1 None [].
Definition g_exts : list (Z * block_header_extension) := [(2, finality_extension_ext g_ext)].
Definition g_mroot : sha256 := Sha256 3 3 3 3.

Definition g_result : result block_state :=
  create_if_genesis_block (calculate_id (sb_header g_block)) (sb_header g_block) ∅ schedule1 g_exts g_block (Some g_mroot) true.

Definition a0 : block_state := Eval vm_compute in get_ok g_result.

(** The blocks are executed with one action each; the second block proposes both policies. *)
Definition ex1 : execution := Execution [Sha256 1 2 3 4] (Some policy2) (Some schedule2).
Definition ex2 : execution := Execution [Sha256 1 2 3 4] None None.
Definition trxs : list sha256 := [Sha256 8 8 8 8; Sha256 9 9 9 9].

Definition make (db : fork_db) (p : block_state) (when : Z) (fs : list sha256) (ex : execution) : result block_state :=
  produce_block recover validator signer db p when fs trxs ex.
Definition vote_for (s : block_state) : vote_message :=
  VoteMessage (s_block_id (b_bhs s)) true [1] 0.
Definition voted (s : block_state) : result block_state := '(s, _) ← b_aggregate_vote s (vote_for s); Ok s.
Definition on_top (db : fork_db) (s : block_state) : fork_db := (add db (set_valid s) false).1.

Definition db0 : fork_db := reset_root a0.
Definition a1 : block_state := Eval vm_compute in get_ok (make db0 a0 25 [feature] ex1).
Definition v1 : block_state := Eval vm_compute in get_ok (voted a1).
Definition db1 : fork_db := on_top db0 v1.
Definition a2 : block_state := Eval vm_compute in get_ok (make db1 v1 26 [] ex2).
Definition v2 : block_state := Eval vm_compute in get_ok (voted a2).
Definition db2 : fork_db := on_top db1 v2.
Definition a3 : block_state := Eval vm_compute in get_ok (make db2 v2 27 [] ex2).

Definition B0 : block := Genesis (b_make_block_ref a0).
Definition B1 : block := Child B0 (b_make_block_ref v1) (QcClaim 1 false).
Definition B2 : block := Child B1 (b_make_block_ref v2) (QcClaim 2 true).
Definition B3 : block := Child B2 (b_make_block_ref a3) (QcClaim 3 true).

(** The finality extension of a block. *)
Definition f_ext (s : block_state) : finality_extension :=
  match find_extension 2 (s_header_exts (b_bhs s)) with Some (finality_extension_ext f) => f | _ => g_ext end.

Lemma executed_next p l B fs s claim : state_chain (p :: l) B → h_previous (s_header (b_bhs s)) = s_block_id (b_bhs p) →
  s_block_num (b_bhs p) < u32_max →
  finish_next (b_bhs p) (s_header (b_bhs s)) (s_header_exts (b_bhs s)) fs (f_ext s) = Ok (b_bhs s) →
  compute_finality_digest (b_bhs s) = Ok (b_strong_digest s) →
  (v ← new_valid p (b_bhs s) (b_action_mroot s) (b_strong_digest s); Ok (Some v)) = Ok (b_valid s) →
  fe_qc_claim (f_ext s) = claim → state_chain (s :: p :: l) (Child B (b_make_block_ref s) claim).
Proof.
  intros Hch Hp Hm Hf Hd Hv <-. apply bind_inv in Hv as (v & Hv & Hsv). injection Hsv as Hsv. by eapply sc_next.
Qed.

Lemma executed0 : state_chain [a0] B0.
Proof.
  apply (sc_genesis (calculate_id (sb_header g_block)) (sb_header g_block) ∅ schedule1 g_exts g_block g_mroot true a0);
    by_vm.
Qed.

Lemma executed1 : state_chain [v1; a0] B1.
Proof. apply (executed_next a0 [] B0 [feature]); [exact executed0|by_vm..]. Qed.

Lemma executed2 : state_chain [v2; v1; a0] B2.
Proof. apply (executed_next v1 [a0] B1 []); [exact executed1|by_vm..]. Qed.

Lemma executed3 : state_chain [a3; v2; v1; a0] B3.
Proof. apply (executed_next v2 [v1; a0] B2 []); [exact executed2|by_vm..]. Qed.

(** The states other nodes have after accepting the blocks. *)
Lemma accepted0 : accepted_chain recover validator [a0] B0.
Proof.
  apply (ac_genesis recover validator g_block legacy_header [] ∅ schedule1 g_exts g_mroot true a0); by_vm.
Qed.

Lemma accepted_next p l B s s' claim : accepted_chain recover validator (p :: l) B → s_block_num (b_bhs p) < u32_max →
  accept_block recover validator (s_block_id (b_bhs s)) (b_block s) p = Ok s' →
  extract_qc_claim s = Ok claim → b_bhs s' = b_bhs s → b_strong_digest s' = b_strong_digest s →
  find_extension 2 (s_header_exts (b_bhs s)) = Some (finality_extension_ext (f_ext s)) →
  accepted_chain recover validator (s :: p :: l) (Child B (b_make_block_ref s) claim).
Proof.
  intros Hch Hm Hacc Hc Hb Hd Hf.
  assert (b_make_block_ref s = b_make_block_ref s') as -> by (unfold b_make_block_ref; by rewrite Hb, Hd).
  eapply ac_update; [eapply (ac_proper recover validator p l B _ _ s' claim Hch Hm Hacc)|].
  - exists (f_ext s). split; [by rewrite Hb|]. unfold extract_qc_claim in Hc. rewrite Hf in Hc. by injection Hc.
  - constructor; [by split|]. clear. induction (p :: l); constructor; [by split|done].
Qed.

Definition received (p s : block_state) : result block_state :=
  accept_block recover validator (s_block_id (b_bhs s)) (b_block s) p.
Definition n1 : block_state := Eval vm_compute in get_ok (received a0 v1).
Definition n2 : block_state := Eval vm_compute in get_ok (received v1 v2).
Definition n3 : block_state := Eval vm_compute in get_ok (received v2 a3).

Lemma accepted1 : accepted_chain recover validator [v1; a0] B1.
Proof. apply (accepted_next a0 [] B0 v1 n1); [exact accepted0|by_vm..]. Qed.

Lemma accepted2 : accepted_chain recover validator [v2; v1; a0] B2.
Proof. apply (accepted_next v1 [a0] B1 v2 n2); [exact accepted1|by_vm..]. Qed.

Lemma accepted3 : accepted_chain recover validator [a3; v2; v1; a0] B3.
Proof. apply (accepted_next v2 [v1; a0] B2 a3 n3); [exact accepted2|by_vm..]. Qed.

(** The fourth block has the validation roots from the second block on, which is final. *)
Lemma finality_tree_correct_witness :
  final_num B3 = 2 ∧ get_validation_mroot a3 3 = calculate_merkle hash_bytes (leaves_upto [a3; v2; v1; a0] B3 3) ∧
  get_validation_mroot a3 1 = Err block_validate_exception.
Proof.
  destruct (finality_tree_correct a3 [v2; v1; a0] B3 executed3) as (_ & H & _).
  split; [by_vm|]. split; [exact (H 3)|exact (H 1)].
Defined.

Definition q1 : qc_t := Eval vm_compute in get_ok (from_option Ok (Err assert_failed) (get_ok (b_get_best_qc v1))).

(** The third block verifies the certificate of the second. *)
Lemma ancestor_certificates_verified_witness :
  b_verify_qc v2 q1 = (verify_basic q1 (policies_at v1);; qc_verify_signatures q1 (policies_at v1)) ∧ b_verify_qc v2 q1 = Ok tt.
Proof.
  split; [|by_vm].
  destruct (ancestor_certificates_verified v2 [v1; a0] B2 v1 q1 executed2) as (_ & H & _);
    [right; left|vm_compute; discriminate|reflexivity|exact H].
Defined.

(** The claim of the fourth block, on the third. *)
Lemma accepted_claims_certified_witness :
  claim_num B3 = 3 ∧ ∃ sC qc, sC ∈ [a3; v2; v1; a0] ∧ s_block_num (b_bhs sC) = claim_num B3 ∧
    verify_basic qc (policies_at sC) = Ok tt ∧ qc_verify_signatures qc (policies_at sC) = Ok tt.
Proof.
  split; [reflexivity|].
  destruct (accepted_claims_certified recover validator a3 [v2; v1; a0] B3 accepted3) as (_ & _ & _ & H).
  destruct (H B3 (or_introl eq_refl)) as [[Hn _]|(sC & qc & Hin & Hn & _ & Hb & Hs)].
  - exfalso. vm_compute in Hn. discriminate Hn.
  - exists sC, qc. split; [exact Hin|]. split; [exact Hn|]. split; [exact Hb|exact Hs].
Defined.

(** ** Another node *)

Definition policy1 : finalizer_policy := s_active_finalizer_policy (b_bhs a0).

Lemma policy1_wf : policy_wf policy1.
Proof.
  split; [repeat constructor; cbn; lia|vm_compute; done|vm_compute; done| |unfold max_finalizers; cbn; lia].
  apply (bool_decide_unpack _). vm_compute. done.
Qed.

(** Up to the third block one policy is active and none is pending. *)
Lemma one_policy x : s_active_finalizer_policy x = policy1 → s_pending_finalizer_policy x = None → policies_ok x.
Proof. intros Ha Hp. unfold policies_ok, pending_policy. rewrite Ha, Hp. split; [split; [exact policy1_wf|by_vm]|done]. Qed.

(** From the fourth block on the policy of two finalizers is pending. *)
Lemma second_policy x n g : s_active_finalizer_policy x = policy1 →
  s_pending_finalizer_policy x = Some (n, FinalizerPolicy g 2 [fin 1 1; fin 2 1]) → policies_ok x.
Proof.
  intros Ha Hp. unfold policies_ok, pending_policy. rewrite Ha, Hp. split; [split; [exact policy1_wf|by_vm]|].
  intros p Heq. injection Heq as <-. split; [|by_vm].
  split; [repeat constructor; cbn; lia|vm_compute; done|vm_compute; done| |unfold max_finalizers; cbn; lia].
  apply (bool_decide_unpack _). vm_compute. done.
Qed.

Lemma votes_ok_genesis : votes_ok a0.
Proof.
  split; [by_vm..|]. apply (qc_signed_new _ policy1 None); [split; [exact policy1_wf|by_vm]|done|by_vm].
Qed.

Lemma starts : start_ok recover validator a0 [] [] B0.
Proof. split; [exact accepted0|reflexivity|exact executed0|exact votes_ok_genesis|reflexivity]. Qed.

(** It receives the three blocks and applies them. *)
Definition receive (nd : node) (s : block_state) : node :=
  match create_block_handle recover validator (nd_db nd) (s_block_id (b_bhs s)) (b_block s) with
  | Ok (db', _, _) => Node db' (nd_head nd)
  | Err _ => nd
  end.
Definition run (_ s : block_state) : result execution := Ok (if s_block_num (b_bhs s) =? 2 then ex1 else ex2).

(** The state it makes. *)
Definition made (nd : node) (s : block_state) : option block_state :=
  match create_block_handle recover validator (nd_db nd) (s_block_id (b_bhs s)) (b_block s) with
  | Ok (_, _, o) => o
  | Err _ => None
  end.

#[local] Notation steps P := (rtc (controller_step recover signer validator P)).

Lemma receive_steps (P : block_header_state → Prop) nd s bhs : num_from_id (h_previous (sb_header (b_block s))) < u32_max →
  (b_bhs <$> made nd s) = Some bhs → P bhs → policies_ok bhs → steps P nd (receive nd s).
Proof.
  intros H Hm HP Hpol. unfold receive, made in *. destruct (create_block_handle _ _ _ _ _) as [[[db' res] o]|] eqn:E; [|done].
  apply rtc_once. eapply (step_receive recover signer validator P); [exact E|exact H|]. intros s' ->. by injection Hm as ->.
Qed.

Definition m0 : node := Node (reset_root a0) (bs_id a0).
Definition m1 : node := receive (receive (receive m0 a1) a2) a3.
Definition m2 : node := (maybe_apply_blocks (run_block run) no_breaks m1).1.

Lemma reach2 (P : block_header_state → Prop) : P (b_bhs a1) → P (b_bhs a2) → P (b_bhs a3) → steps P m0 m2.
Proof.
  intros H1 H2 H3. transitivity m1.
  - transitivity (receive m0 a1); [apply (receive_steps P _ _ (b_bhs a1)); [by_vm|by_vm|exact H1|apply one_policy; by_vm]|].
    transitivity (receive (receive m0 a1) a2); [apply (receive_steps P _ _ (b_bhs a2)); [by_vm|by_vm|exact H2|apply one_policy; by_vm]|].
    apply (receive_steps P _ _ (b_bhs a3)); [by_vm|by_vm|exact H3|]. eapply second_policy; [by_vm|vm_compute; reflexivity].
  - apply rtc_once. eapply (step_apply recover signer validator P m1 run no_breaks). apply surjective_pairing.
Qed.


(** A third node receives and applies two blocks, counts the vote on the third block, and
    produces the fourth block with the certificate of it. *)
Definition k1 : node := receive (receive m0 a1) a2.
Definition k2 : node := (maybe_apply_blocks (run_block run) no_breaks k1).1.
Definition state_of (m : result block_state) : block_state := match m with Ok s => s | Err _ => a0 end.
Definition p2 : block_state := Eval vm_compute in state_of (head_state k2).
Definition p3 : block_state := Eval vm_compute in state_of (voted p2).
Definition k3 : node := Node (update_block (nd_db k2) p3) (nd_head k2).
Definition a4 : block_state := Eval vm_compute in state_of (make (nd_db k3) p3 27 [] ex2).

Lemma reach3 : steps (λ _, True) m0 k3.
Proof.
  transitivity k1.
  - transitivity (receive m0 a1); [apply (receive_steps _ _ _ (b_bhs a1))|apply (receive_steps _ _ _ (b_bhs a2))];
      [by_vm|by_vm|exact I|apply one_policy; by_vm..|by_vm|by_vm|exact I|apply one_policy; by_vm].
  - transitivity k2; apply rtc_once.
    + eapply (step_apply recover signer validator _ k1 run no_breaks). apply surjective_pairing.
    + apply (step_vote recover signer validator _ k2 p2 (vote_for p2) p3 (AggregateVoteResult success (Some (fin 1 1)) None)); by_vm.
Qed.


(** ** The network of both nodes *)

Definition headers : list block_header_state := [b_bhs a0; b_bhs a1; b_bhs a2; b_bhs a3].
Definition exists_header (x : block_header_state) : Prop := x ∈ headers.

Lemma headers_ids : NoDup (s_block_id <$> headers).
Proof. apply (bool_decide_unpack _). vm_cast_no_check I. Qed.

Lemma headers_no_collision : no_collision exists_header.
Proof.
  intros x y Hx Hy Heq. apply list_elem_of_lookup in Hx as [i Hi]. apply list_elem_of_lookup in Hy as [j Hj].
  assert (i = j) as ->; [|congruence]. eapply NoDup_lookup; [exact headers_ids| |].
  - rewrite list_lookup_fmap, Hi. reflexivity.
  - rewrite list_lookup_fmap, Hj, Heq. reflexivity.
Qed.

Lemma headers_policy x : exists_header x → s_active_finalizer_policy x = policy1.
Proof.
  intros H. assert (s_active_finalizer_policy <$> headers = replicate 4 policy1) as Hp by by_vm.
  apply (list_elem_of_fmap_2 s_active_finalizer_policy) in H. rewrite Hp in H. by apply elem_of_replicate in H as [-> _].
Qed.

(** What was signed with a certificate that verifies. *)
Lemma issued_votes sg d wd : sig_verify_signatures sg policy1 d wd = Ok tt →
  (tested (strong_votes sg) 0 = true → ([1], pack_sha256 d) ∈ issued) ∧ (tested (weak_votes sg) 0 = true → ([1], wd) ∈ issued).
Proof.
  intros H. unfold sig_verify_signatures in H. apply bind_inv in H as (spk & Hs & H). apply bind_inv in H as (wpk & Hw & H).
  apply check_inv in H. change (finalizers policy1) with [fin 1 1] in Hs, Hw.
  assert (∀ b pk, tested (Some b) 0 = true → aggregate_pubkeys [fin 1 1] (Some b) = Ok pk → pk = [[[1]]]) as Hone.
  { intros b pk Ht Hpk. cbn in Hpk. unfold tested, opt_test in Ht. destruct (bitset_test b 0) as [[]|] eqn:E; try done.
    unfold bitset_test in E. apply bind_inv in E as ([] & Ha & _). apply check_inv in Ha. unfold bitset_size in Hpk. rewrite Ha in Hpk.
    cbn in Hpk. by injection Hpk. }
  cbn [aggregate_verify issued_bls] in H. destruct (strong_votes sg) as [sb|], (weak_votes sg) as [wb|]; split; intros Ht; try done.
  - rewrite (Hone _ _ Ht Hs) in H. cbn in H. by breflect.
  - rewrite (Hone _ _ Ht Hw) in H. cbn in Hs. apply bind_inv in Hs as (gs & _ & Hs). injection Hs as <-. cbn in H. by breflect.
  - rewrite (Hone _ _ Ht Hs) in H. injection Hw as <-. cbn in H. by breflect.
  - rewrite (Hone _ _ Ht Hw) in H. injection Hs as <-. cbn in H. by breflect.
Qed.

#[local] Notation seen := (seen recover validator exists_header (genesis_block a0)).
#[local] Notation exists_block := (exists_block recover validator exists_header (genesis_block a0)).

Lemma seen1 : seen v1 B1.
Proof.
  exists [a0]. split; [exact accepted1|]. split; [|reflexivity].
  apply Forall_cons. split; [right; left|]. apply Forall_cons. split; [left|]. constructor.
Qed.

Lemma seen2 : seen v2 B2.
Proof.
  exists [v1; a0]. split; [exact accepted2|]. split; [|reflexivity].
  apply Forall_cons. split; [right; right; left|]. apply Forall_cons. split; [right; left|].
  apply Forall_cons. split; [left|]. constructor.
Qed.

(** The finalizer votes for the second and the third block. *)
Definition view (s : block_state) : Finalizer.block_state :=
  Finalizer.BlockState (s_block_id (b_bhs s)) (s_timestamp (b_bhs s)) (s_core (b_bhs s)) (b_strong_digest s)
    (s_active_finalizer_policy (b_bhs s)) (s_pending_finalizer_policy (b_bhs s)).
Definition f0 : finalizer_safety_information := Fsi (ref_of B0) (ref_of B0) 0.
Definition vote1 : vote_result * finalizer_safety_information := Eval vm_compute in get_ok (decide_vote f0 (view v1)).
Definition vote2 : vote_result * finalizer_safety_information := Eval vm_compute in get_ok (decide_vote vote1.2 (view v2)).
Definition votes (_ : nat) : list (block * bool) := [(B2, true); (B1, true)].

Lemma finalizer_history : ∃ f, history (genesis_block a0) exists_block f (votes 0).
Proof.
  exists vote2.2. assert (history (genesis_block a0) exists_block f0 []) as H0 by (apply history_start; by left).
  assert (history (genesis_block a0) exists_block vote1.2 [(B1, true)]) as H1.
  { apply (history_decide (genesis_block a0) exists_block f0 [] B1 (view v1) vote1.1 vote1.2 H0);
      [by exists v1; apply seen1|by repeat eexists|split; by_vm|by_vm]. }
  apply (history_decide (genesis_block a0) exists_block vote1.2 [(B1, true)] B2 (view v2) vote2.1 vote2.2 H1);
    [by exists v2; apply seen2|by repeat eexists|split; by_vm|by_vm].
Qed.

(** Signed digests are those of the two blocks. *)
Lemma digest_of s : exists_header (b_bhs s) → compute_finality_digest (b_bhs s) = Ok (b_strong_digest s) →
  b_bhs s = b_bhs a1 ∨ b_bhs s = b_bhs a2 ∨
  ¬ ([1], pack_sha256 (b_strong_digest s)) ∈ issued.
Proof.
  intros Hin Hd. unfold exists_header, headers in Hin. rewrite !elem_of_cons, elem_of_nil in Hin.
  destruct Hin as [E|[E|[E|[E|[]]]]]; [|by left|by right; left|]; right; right; rewrite E in Hd;
    (match type of Hd with ?l = _ => let v := eval vm_compute in l in assert (l = v) as Hv by by_vm end);
    rewrite Hv in Hd; injection Hd as <-; intros Hi; apply (bool_decide_eq_true_2 _) in Hi; vm_compute in Hi; discriminate Hi.
Qed.

Lemma weak_not_issued d : ¬ ([1], create_weak_digest d) ∈ issued.
Proof.
  intros H. assert (length (create_weak_digest d) = 36%nat) as Hl by (destruct d; reflexivity).
  unfold issued in H. rewrite !elem_of_cons, elem_of_nil in H. destruct H as [E|[E|[]]];
    apply (f_equal (λ x, length x.2)) in E; change (length (create_weak_digest d) = 32%nat) in E; congruence.
Qed.

Lemma votes_not_forged s B qc i : seen s B → qc_verify_signatures qc (policies_at s) = Ok tt → (i =? 0)%nat = true →
  (tested (strong_votes (active_policy_sig qc)) i = true → (B, true) ∈ votes i) ∧
  (tested (weak_votes (active_policy_sig qc)) i = true → (B, false) ∈ votes i).
Proof.
  intros Hs Hv ->%Nat.eqb_eq. unfold qc_verify_signatures in Hv. apply bind_inv in Hv as ([] & Hv & _).
  pose proof Hs as (l & Hch & HF & _). pose proof (Forall_inv HF) as HP. destruct (accepted_head _ _ _ _ _ Hch) as [_ Hd].
  change (active_finalizer_policy (policies_at s)) with (s_active_finalizer_policy (b_bhs s)) in Hv. rewrite (headers_policy _ HP) in Hv.
  destruct (issued_votes _ _ _ Hv) as [Hst Hwk]. split; intros Ht; [|by destruct (weak_not_issued _ (Hwk Ht))].
  destruct (digest_of s HP Hd) as [E|[E|Hn]]; [| |by destruct (Hn (Hst Ht))].
  - assert (B = B1) as ->; [|right; left]. eapply (seen_unique _ _ _ _ headers_no_collision); [exact Hs|exact seen1|by rewrite E].
  - assert (B = B2) as ->; [|left]. eapply (seen_unique _ _ _ _ headers_no_collision); [exact Hs|exact seen2|by rewrite E].
Qed.

Lemma network : network_ok recover validator a0 exists_header policy1 (λ i, (i =? 0)%nat) votes.
Proof.
  split.
  - split; [exact accepted0|exact executed0].
  - reflexivity.
  - split; [left|by_vm].
  - exact votes_ok_genesis.
  - exact headers_no_collision.
  - split; [exact policy1_wf|exact headers_policy].
  - intros i ->%Nat.eqb_eq. exact finalizer_history.
  - by_vm.
  - exact votes_not_forged.
Qed.


End BranchExample.
