(* ===== verification/SafetyFile.v ===== *)
(** * The finalizers of a node and their safety file: [my_finalizers_t]
    ([finalizer.hpp], [finalizer.cpp]), [datastream_crc.hpp]

    The file is a list of bytes; the checksum ([boost::crc_32_type]) and BLS
    signing are parameters. *)

From S2P Require Import Prelude Sha256 FinalityCore BlockTree Bitset FinalizerPolicy Qc QcTheory Finalizer ConsensusSafety.
Open Scope Z_scope.

(** ** [fc::raw] on the types stored in the file *)

(** The next [n] bytes; [cfile::read] throws when there are fewer. *)
Definition read_bytes (n : nat) (s : list Z) : result (list Z * list Z) :=
  check (bool_decide (n ≤ length s)%nat) file_exception;;
  Ok (take n s, drop n s).

Fixpoint le_value (bs : list Z) : Z :=
  match bs with [] => 0 | b :: bs => Z.lor b (Z.shiftl (le_value bs) 8) end.

Definition unpack_le (n : nat) (s : list Z) : result (Z * list Z) :=
  '(bs, s) ← read_bytes n s; Ok (le_value bs, s).

Definition unpack_u32 (s : list Z) : result (Z * list Z) := unpack_le 4 s.
Definition unpack_u64 (s : list Z) : result (Z * list Z) := unpack_le 8 s.

Definition unpack_sha256 (s : list Z) : result (sha256 * list Z) :=
  '(a, s) ← unpack_le 8 s; '(b, s) ← unpack_le 8 s; '(c, s) ← unpack_le 8 s; '(d, s) ← unpack_le 8 s;
  Ok (Sha256 a b c d, s).

(** A [bool] is a byte that has to be 0 or 1. *)
Definition unpack_bool (s : list Z) : result (bool * list Z) :=
  '(b, s) ← unpack_le 1 s;
  check (Z.land b (Z.lnot 1) =? 0) fc_assert_exception;;
  Ok (negb (b =? 0), s).

Definition pack_v0 (r : block_ref) : list Z :=
  pack_sha256 (block_id r) ++ pack_u32 (timestamp r) ++ pack_sha256 (finality_digest r).

(** Unpacks into a default constructed reference: the generations stay zero. *)
Definition unpack_v0 (s : list Z) : result (block_ref * list Z) :=
  '(id, s) ← unpack_sha256 s; '(ts, s) ← unpack_u32 s; '(fd, s) ← unpack_sha256 s;
  Ok (BlockRef id ts fd 0 0, s).

Definition pack_v1 (i : finalizer_safety_information) : list Z :=
  pack_v0 (last_vote i) ++ pack_v0 (lock i) ++ pack_u32 (other_branch_latest_time i).

Definition unpack_v1 (s : list Z) : result (finalizer_safety_information * list Z) :=
  '(lv, s) ← unpack_v0 s; '(lk, s) ← unpack_v0 s; '(ob, s) ← unpack_u32 s;
  Ok (Fsi lv lk ob, s).

(** [std::map] iterates in the order of the keys, compared as byte strings. *)
Fixpoint key_le (a b : bls_public_key) : Prop :=
  match a, b with
  | [], _ => True
  | _ :: _, [] => False
  | x :: a, y :: b => x < y ∨ x = y ∧ key_le a b
  end.

#[export] Instance key_le_dec a b : Decision (key_le a b).
Proof. revert b. induction a as [|x a IH]; intros [|y b]; simpl; apply _. Defined.

Definition entry_le {A} (x y : bls_public_key * A) : Prop := key_le x.1 y.1.
#[export] Instance entry_le_dec {A} (x y : bls_public_key * A) : Decision (entry_le x y) := key_le_dec x.1 y.1.

Definition entries {A} (m : gmap bls_public_key A) : list (bls_public_key * A) :=
  merge_sort entry_le (map_to_list m).

(** [boost::crc_32_type]: the state after [reset], [process_bytes] and [checksum]. *)
Class Crc32 : Type := {
  crc_t : Type;
  crc_init : crc_t;
  crc_process : crc_t → list Z → crc_t;
  crc_checksum : crc_t → Z }.

(** Bytes may be processed in pieces, and the checksum has 32 bits. *)
Class Crc32Laws (crc : Crc32) : Prop := {
  crc_process_app c a b : crc_process c (a ++ b) = crc_process (crc_process c a) b;
  crc_checksum_range c : is_u32 (crc_checksum c) }.

Section MyFinalizers.
Context {bls : Bls}.
Context {bls_private_key : Type} (bls_sign : bls_private_key → list Z → option bls_g2).
Context {crc : Crc32}.

(** The one-byte varint 96 and the bytes of the key. *)
Definition pack_public_key (k : bls_public_key) : list Z := 96 :: k.

(** [fc::raw::unpack] of an [unsigned_int]: seven bits per byte, at most five bytes. *)
Fixpoint unpack_varuint_from (fuel : nat) (v shift : Z) (s : list Z) : result (Z * list Z) :=
  match fuel with
  | O => Ok (u32 v, s)
  | S fuel =>
    '(b, s) ← unpack_le 1 s;
    let v := Z.lor v (u32 (Z.shiftl (Z.land b 127) shift)) in
    let shift := shift + 7 in
    if negb (Z.land b 128 =? 0) && (shift <? 32) then unpack_varuint_from fuel v shift s
    else Ok (u32 v, s)
  end.

Definition unpack_varuint (s : list Z) : result (Z * list Z) := unpack_varuint_from 5 0 0 s.

Definition unpack_public_key (s : list Z) : result (bls_public_key * list Z) :=
  '(size, s) ← unpack_varuint s;
  check (size =? 96) fc_assert_exception;;
  '(k, s) ← read_bytes 96 s;
  _ ← jacobian_montgomery_le k;
  Ok (k, s).

Abbreviation fsi_map := (gmap bls_public_key finalizer_safety_information).

(** The state of the file: its bytes when it exists, whether it is held open,
    and the cached position and checksum after the inactive entries. *)
Record persist_t : Type := Persist {
  file_content : option (list Z);
  file_is_open : bool;
  inactive_safety_info_written_pos : nat;
  inactive_crc32 : crc_t }.

Record my_finalizers_t : Type := MyFinalizers {
  persist_file_path_empty : bool;
  has_voted : bool;
  persist_file : persist_t;
  my_finalizers : gmap bls_public_key (finalizer (bls_private_key := bls_private_key));
  inactive_safety_info : fsi_map;
  default_fsi : finalizer_safety_information }.

Definition fsi_magic : Z := 6556696873736737041.
Definition current_safety_file_version : Z := 1.

Definition with_persist (m : my_finalizers_t) (p : persist_t) : my_finalizers_t :=
  MyFinalizers (persist_file_path_empty m) (has_voted m) p (my_finalizers m) (inactive_safety_info m) (default_fsi m).

Definition pack_entry (e : bls_public_key * finalizer_safety_information) : list Z :=
  pack_public_key e.1 ++ pack_v1 e.2.

(** Header and inactive entries. *)
Definition pack_inactive (m : my_finalizers_t) : list Z :=
  pack_u64 fsi_magic ++ pack_u64 current_safety_file_version ++
  pack_u64 (u64 (Z.of_nat (size (my_finalizers m)) + Z.of_nat (size (inactive_safety_info m)))) ++
  concat (pack_entry <$> entries (inactive_safety_info m)).

Definition pack_active (m : my_finalizers_t) : list Z :=
  concat (pack_entry <$> ((λ '(k, f), (k, fsi f)) <$> entries (my_finalizers m))).

(** Bytes [bs] written at position [pos]. *)
Definition write_at (pos : nat) (bs content : list Z) : list Z :=
  take pos content ++ bs ++ drop (pos + length bs) content.

(** Returns false when an exception was dropped; the only one modelled is the
    missing path. *)
Definition save_finalizer_safety_info (m : my_finalizers_t) : my_finalizers_t * bool :=
  let p := persist_file m in
  if negb (file_is_open p) && persist_file_path_empty m then (m, false)
  else
    let content := if file_is_open p then default [] (file_content p) else [] in
    let '(content, pos, crc) :=
      if bool_decide (inactive_safety_info_written_pos p = 0%nat) then
        let bs := pack_inactive m in
        (write_at 0 bs content, length bs, crc_process crc_init bs)
      else (content, inactive_safety_info_written_pos p, inactive_crc32 p) in
    let bs := pack_active m in
    let crc' := crc_process crc bs in
    let content := write_at pos bs content in
    let content := write_at (pos + length bs) (pack_u32 (crc_checksum crc')) content in
    (with_persist m (Persist (Some content) true pos crc), true).

Fixpoint load_v0_entries (n : nat) (res : fsi_map) (s : list Z) : result (fsi_map * list Z) :=
  match n with
  | O => Ok (res, s)
  | S n =>
    '(k, s) ← unpack_public_key s;
    '(lv, s) ← unpack_v0 s;
    '(lk, s) ← unpack_v0 s;
    '(forked, s) ← unpack_bool s;
    let i := Fsi lv lk (if (forked : bool) then timestamp lv else 0) in
    load_v0_entries n (match res !! k with Some _ => res | None => <[k := i]> res end) s
  end.

Fixpoint load_v1_entries (n : nat) (res : fsi_map) (s : list Z) : result (fsi_map * list Z) :=
  match n with
  | O => Ok (res, s)
  | S n =>
    '(k, s) ← unpack_public_key s;
    '(i, s) ← unpack_v1 s;
    load_v1_entries n (match res !! k with Some _ => res | None => <[k := i]> res end) s
  end.

(** The body of [load_finalizer_safety_info] on the bytes of the file. *)
Definition load_bytes (file : list Z) : result fsi_map :=
  '(magic, s) ← unpack_u64 file;
  check (magic =? fsi_magic) finalizer_safety_exception;;
  '(file_version, s) ← unpack_u64 s;
  check (file_version <=? current_safety_file_version) finalizer_safety_exception;;
  '(num_finalizers, s) ← unpack_u64 s;
  if file_version =? 0 then
    '(res, _) ← load_v0_entries (Z.to_nat num_finalizers) ∅ s; Ok res
  else
    '(res, s) ← load_v1_entries (Z.to_nat num_finalizers) ∅ s;
    let calculated := crc_checksum (crc_process crc_init (take (length file - length s) file)) in
    '(cs, _) ← unpack_u32 s;
    check (cs =? calculated) finalizer_safety_exception;;
    Ok res.

Definition load_finalizer_safety_info (m : my_finalizers_t) : result fsi_map :=
  check (negb (persist_file_path_empty m)) finalizer_safety_exception;;
  check (negb (file_is_open (persist_file m))) finalizer_safety_exception;;
  match file_content (persist_file m) with
  | None => Ok ∅
  | Some file => load_bytes file
  end.

(** The keys are given parsed, in the order of the configuration map. *)
Fixpoint emplace_finalizers (keys : list (bls_public_key * bls_private_key)) (safety_info : fsi_map)
    (dflt : finalizer_safety_information)
    (fs : gmap bls_public_key (finalizer (bls_private_key := bls_private_key)))
    : gmap bls_public_key finalizer :=
  match keys with
  | [] => fs
  | (k, priv) :: keys =>
    let i := default dflt (safety_info !! k) in
    emplace_finalizers keys safety_info dflt
      (match fs !! k with Some _ => fs | None => <[k := Finalizer priv i]> fs end)
  end.

Definition set_keys (m : my_finalizers_t) (keys : list (bls_public_key * bls_private_key)) : result my_finalizers_t :=
  match keys with
  | [] => Ok m
  | _ =>
    assert_ (bool_decide (my_finalizers m = ∅));;
    safety_info ← load_finalizer_safety_info m;
    let fs := emplace_finalizers keys safety_info (default_fsi m) (my_finalizers m) in
    let inactive := foldr (λ '(k, _) s, delete k s) safety_info keys in
    Ok (MyFinalizers (persist_file_path_empty m) (has_voted m) (persist_file m) fs inactive (default_fsi m))
  end.

(** Only finalizers that were never initialised are given the default. *)
Definition default_unset (i : finalizer_safety_information) (f : finalizer (bls_private_key := bls_private_key)) :=
  if negb (block_ref_empty (last_vote (fsi f))) || negb (block_ref_empty (lock (fsi f))) then f
  else Finalizer (priv_key f) i.

Definition set_default_safety_information (m : my_finalizers_t) (i : finalizer_safety_information) : my_finalizers_t :=
  MyFinalizers (persist_file_path_empty m) (has_voted m) (persist_file m)
    (default_unset i <$> my_finalizers m) (inactive_safety_info m) i.

Definition in_policy (p : finalizer_policy) (key : bls_public_key) : option finalizer_authority :=
  snd <$> list_find (λ f, public_key f = key) (finalizers p).

Definition in_pending_policy (bsp : block_state) (key : bls_public_key) : option finalizer_authority :=
  match bs_pending_finalizer_policy bsp with None => None | Some (_, p) => in_policy p key end.

Definition vote_t : Type := vote_message * option finalizer_authority * option finalizer_authority.

(** The loop of [my_finalizers_t::maybe_vote] over the entries. *)
Fixpoint collect_votes (bsp : block_state) (es : list (bls_public_key * finalizer (bls_private_key := bls_private_key)))
    (fs : gmap bls_public_key (finalizer (bls_private_key := bls_private_key))) (votes : list vote_t)
    : result (gmap bls_public_key finalizer * list vote_t) :=
  match es with
  | [] => Ok (fs, votes)
  | (k, f) :: es =>
    let active_auth := in_policy (bs_active_finalizer_policy bsp) k in
    let pending_auth := in_pending_policy bsp k in
    match active_auth, pending_auth with
    | None, None => collect_votes bsp es fs votes
    | _, _ =>
      '(f', msg) ← maybe_vote bls_sign f k bsp (bs_strong_digest bsp);
      collect_votes bsp es (<[k := f']> fs)
        (match msg with None => votes | Some v => votes ++ [(v, active_auth, pending_auth)] end)
    end
  end.

(** Returns the votes handed to [process_vote]. *)
Definition my_maybe_vote (m : my_finalizers_t) (bsp : block_state) : result (my_finalizers_t * list vote_t) :=
  if bool_decide (my_finalizers m = ∅) then Ok (m, [])
  else
    '(fs, votes) ← collect_votes bsp (entries (my_finalizers m)) (my_finalizers m) [];
    let upd hv := MyFinalizers (persist_file_path_empty m) hv (persist_file m) fs
                    (inactive_safety_info m) (default_fsi m) in
    match votes with
    | [] => Ok (upd (has_voted m), [])
    | _ =>
      let '(m', saved) := save_finalizer_safety_info (upd true) in
      Ok (m', if saved then votes else [])
    end.

(** The loop of [my_finalizers_t::maybe_update_fsi]. *)
Fixpoint update_finalizers (bsp : block_state) (qc : qc_t)
    (es : list (bls_public_key * finalizer (bls_private_key := bls_private_key)))
    (fs : gmap bls_public_key (finalizer (bls_private_key := bls_private_key))) (updated : bool)
    : result (gmap bls_public_key finalizer * bool) :=
  match es with
  | [] => Ok (fs, updated)
  | (k, f) :: es =>
    act ← has_voted_strong (finalizers (bs_active_finalizer_policy bsp)) (active_policy_sig qc) k;
    pend ← (if (act : bool) then Ok false
            else match bs_pending_finalizer_policy bsp, pending_policy_sig qc with
                 | None, _ => Ok false
                 | Some _, None => Err undefined_behaviour
                 | Some (_, p), Some s => has_voted_strong (finalizers p) s k
                 end);
    if act || pend then
      '(i, u) ← maybe_update_fsi (fsi f) bsp;
      update_finalizers bsp qc es (<[k := Finalizer (priv_key f) i]> fs) (updated || u)
    else update_finalizers bsp qc es fs updated
  end.

Definition my_maybe_update_fsi (m : my_finalizers_t) (bsp : block_state) (qc : qc_t) : result my_finalizers_t :=
  if bool_decide (my_finalizers m = ∅) then Ok m
  else if has_voted m then Ok m
  else
    check (match bs_pending_finalizer_policy bsp, pending_policy_sig qc with Some _, None => false | _, _ => true end)
      invalid_qc_claim;;
    '(fs, updated) ← update_finalizers bsp qc (entries (my_finalizers m)) (my_finalizers m) false;
    let m' := MyFinalizers (persist_file_path_empty m) (has_voted m) (persist_file m) fs
                (inactive_safety_info m) (default_fsi m) in
    Ok (if (updated : bool) then fst (save_finalizer_safety_info m') else m').

End MyFinalizers.

(** * Round trips *)

Lemma le_bytes_length n x : length (le_bytes n x) = n.
Proof. revert x. induction n as [|n IH]; intros x; simpl; [done|by rewrite IH]. Qed.

Lemma le_value_bytes n x : 0 <= x < 2 ^ (8 * Z.of_nat n) → le_value (le_bytes n x) = x.
Proof.
  revert x. induction n as [|n IH]; intros x Hx; simpl.
  { change (2 ^ (8 * Z.of_nat 0)) with 1 in Hx. lia. }
  replace (8 * Z.of_nat (S n)) with (8 * Z.of_nat n + 8) in Hx by lia. rewrite Z.pow_add_r in Hx by lia.
  rewrite IH.
  2: { rewrite Z.shiftr_div_pow2 by lia. split; [apply Z.div_pos; lia|apply Z.div_lt_upper_bound; lia]. }
  apply Z.bits_inj'. intros i Hi. rewrite Z.lor_spec.
  destruct (Z_lt_le_dec i 8).
  - rewrite Z.shiftl_spec_low, orb_false_r by lia. unfold u8. by rewrite Z.mod_pow2_bits_low by lia.
  - unfold u8. rewrite Z.mod_pow2_bits_high, Z.shiftl_spec, Z.shiftr_spec by lia. simpl. f_equal. lia.
Qed.

Lemma read_bytes_app bs s : read_bytes (length bs) (bs ++ s) = Ok (bs, s).
Proof.
  unfold read_bytes. rewrite check_bind by (apply bool_decide_eq_true; rewrite length_app; lia).
  by rewrite take_app_length, drop_app_length.
Qed.

Lemma unpack_le_ok n x s : 0 <= x < 2 ^ (8 * Z.of_nat n) → unpack_le n (le_bytes n x ++ s) = Ok (x, s).
Proof.
  intros Hx. unfold unpack_le. rewrite <- (le_bytes_length n x) at 1. rewrite read_bytes_app, bind_ok.
  by rewrite le_value_bytes.
Qed.

Lemma unpack_u32_ok x s : is_u32 x → unpack_u32 (pack_u32 x ++ s) = Ok (x, s).
Proof. intros H. by apply unpack_le_ok. Qed.

Lemma unpack_u64_ok x s : is_u64 x → unpack_u64 (pack_u64 x ++ s) = Ok (x, s).
Proof. intros H. by apply unpack_le_ok. Qed.

Lemma unpack_sha256_ok h s : sha256_wf h → unpack_sha256 (pack_sha256 h ++ s) = Ok (h, s).
Proof.
  intros (H0 & H1 & H2 & H3). unfold unpack_sha256, pack_sha256. rewrite <- !app_assoc.
  do 4 (rewrite unpack_le_ok by done; rewrite bind_ok). by destruct h.
Qed.

(** What the file keeps of a reference. *)
Definition strip_ref (r : block_ref) : block_ref := BlockRef (block_id r) (timestamp r) (finality_digest r) 0 0.
Definition strip_fsi (i : finalizer_safety_information) : finalizer_safety_information :=
  Fsi (strip_ref (last_vote i)) (strip_ref (lock i)) (other_branch_latest_time i).

Definition ref_ok (r : block_ref) : Prop := sha256_wf (block_id r) ∧ is_u32 (timestamp r) ∧ sha256_wf (finality_digest r).
Definition fsi_ok (i : finalizer_safety_information) : Prop :=
  ref_ok (last_vote i) ∧ ref_ok (lock i) ∧ is_u32 (other_branch_latest_time i).

Lemma unpack_v0_ok r s : ref_ok r → unpack_v0 (pack_v0 r ++ s) = Ok (strip_ref r, s).
Proof.
  intros (H1 & H2 & H3). unfold unpack_v0, pack_v0. rewrite <- !app_assoc.
  rewrite unpack_sha256_ok, bind_ok, unpack_u32_ok, bind_ok, unpack_sha256_ok, bind_ok by done. done.
Qed.

Lemma unpack_v1_ok i s : fsi_ok i → unpack_v1 (pack_v1 i ++ s) = Ok (strip_fsi i, s).
Proof.
  intros (H1 & H2 & H3). unfold unpack_v1, pack_v1. rewrite <- !app_assoc.
  rewrite unpack_v0_ok, bind_ok, unpack_v0_ok, bind_ok, unpack_u32_ok, bind_ok by done. done.
Qed.

Lemma length_pack_v1 i : length (pack_v1 i) = 140%nat.
Proof. reflexivity. Qed.

Lemma entries_perm {A} (m : gmap bls_public_key A) : entries m ≡ₚ map_to_list m.
Proof. apply merge_sort_Permutation. Qed.

Lemma entries_nodup {A} (m : gmap bls_public_key A) : NoDup (entries m).*1.
Proof. rewrite entries_perm. apply NoDup_fst_map_to_list. Qed.

Lemma entries_to_map {A} (m : gmap bls_public_key A) : list_to_map (entries m) = m.
Proof.
  rewrite <- (list_to_map_to_list m) at 2. apply list_to_map_proper; [apply entries_nodup|apply entries_perm].
Qed.

Lemma entries_length {A} (m : gmap bls_public_key A) : length (entries m) = size m.
Proof. by rewrite entries_perm, length_map_to_list. Qed.

Section RoundTrip.
Context {bls : Bls} {crc : Crc32} {crc_laws : Crc32Laws crc} {bls_private_key : Type}.
Context (bls_sign : bls_private_key → list Z → option bls_g2).
Implicit Types (m : my_finalizers_t (bls_private_key := bls_private_key)).

Abbreviation fsi_entry := (bls_public_key * finalizer_safety_information)%type.

(** A key the deserializer accepts. *)
Definition key_ok (k : bls_public_key) : Prop := length k = 96%nat ∧ ∃ g, jacobian_montgomery_le k = Ok g.

Definition entry_ok (e : fsi_entry) : Prop := key_ok e.1 ∧ fsi_ok e.2.

Lemma unpack_public_key_ok k s : key_ok k → unpack_public_key (pack_public_key k ++ s) = Ok (k, s).
Proof using.
  intros [Hl [g Hg]]. unfold unpack_public_key, pack_public_key.
  change ((96 :: k) ++ s) with (96 :: k ++ s).
  assert (unpack_varuint (96 :: k ++ s) = Ok (96, k ++ s)) as ->.
  { unfold unpack_varuint. cbn [unpack_varuint_from]. change (96 :: k ++ s) with ([96] ++ k ++ s).
    unfold unpack_le. rewrite (read_bytes_app [96]). reflexivity. }
  rewrite bind_ok, check_bind by done. rewrite <- Hl, read_bytes_app, bind_ok, Hg. done.
Qed.

Definition emplace_all (es : list fsi_entry) (res : gmap bls_public_key finalizer_safety_information) :=
  res ∪ (strip_fsi <$> (list_to_map es : gmap bls_public_key finalizer_safety_information)).

Lemma emplace_union (res m : gmap bls_public_key finalizer_safety_information) k i :
  (match res !! k with Some _ => res | None => <[k := i]> res end) ∪ m = res ∪ <[k := i]> m.
Proof using.
  apply map_eq. intros j. destruct (res !! k) as [x|] eqn:E; destruct (decide (j = k)) as [->|Hj].
  - by rewrite !(lookup_union_Some_l _ _ _ _ E).
  - rewrite !lookup_union, lookup_insert_ne by done. done.
  - by rewrite !lookup_union, E, !lookup_insert_eq, union_Some_l, (left_id_L None _).
  - by rewrite !lookup_union, !lookup_insert_ne by done.
Qed.

Lemma load_v1_entries_ok es s : Forall entry_ok es → ∀ res,
  load_v1_entries (length es) res (concat (pack_entry <$> es) ++ s) = Ok (emplace_all es res, s).
Proof using.
  unfold emplace_all. induction 1 as [|[k i] es [Hk Hi] _ IH]; intros res; cbn [length load_v1_entries fmap list_fmap concat].
  { simpl. by rewrite fmap_empty, (right_id_L ∅ (∪)). }
  unfold pack_entry at 1. cbn [fst snd]. rewrite <- !app_assoc, unpack_public_key_ok, bind_ok, unpack_v1_ok, bind_ok by done.
  rewrite IH. simpl list_to_map. by rewrite fmap_insert, emplace_union.
Qed.

Definition active_entries m : list fsi_entry := (λ '(k, f), (k, fsi f)) <$> entries (my_finalizers m).

(** What a complete file holds. *)
Definition pack_all m : list Z :=
  let body := pack_inactive m ++ pack_active m in
  body ++ pack_u32 (crc_checksum (crc_process crc_init body)).

Record finalizers_ok m : Prop := {
  fo_active : ∀ k f, my_finalizers m !! k = Some f → key_ok k ∧ fsi_ok (fsi f);
  fo_inactive : ∀ k i, inactive_safety_info m !! k = Some i → key_ok k ∧ fsi_ok i;
  fo_size : Z.of_nat (size (my_finalizers m)) + Z.of_nat (size (inactive_safety_info m)) <= u64_max }.

Lemma entries_ok m : finalizers_ok m → Forall entry_ok (entries (inactive_safety_info m) ++ active_entries m).
Proof using.
  intros Hok. apply Forall_app. split.
  - rewrite entries_perm. apply Forall_forall. intros [k i] Hin%elem_of_map_to_list. by eapply fo_inactive.
  - unfold active_entries. apply Forall_fmap. rewrite entries_perm. apply Forall_forall.
    intros [k f] Hin%elem_of_map_to_list. by eapply fo_active.
Qed.

(** The safety information of every finalizer the node knows of. *)
Definition known_fsi m : gmap bls_public_key finalizer_safety_information :=
  strip_fsi <$> (inactive_safety_info m ∪ (fsi <$> my_finalizers m)).

Lemma active_entries_map m : list_to_map (active_entries m) = fsi <$> my_finalizers m.
Proof using.
  unfold active_entries. rewrite <- (entries_to_map (my_finalizers m)) at 2. rewrite <- list_to_map_fmap. f_equal.
  apply list_fmap_ext. by intros _ [k f] _.
Qed.

Lemma load_pack_all m : finalizers_ok m → load_bytes (pack_all m) = Ok (known_fsi m).
Proof using crc_laws.
  intros Hok. set (es := entries (inactive_safety_info m) ++ active_entries m).
  set (n := Z.of_nat (size (my_finalizers m)) + Z.of_nat (size (inactive_safety_info m))).
  set (cs := crc_checksum (crc_process crc_init (pack_inactive m ++ pack_active m))).
  assert (is_u64 n) as Hn by (pose proof (fo_size _ Hok); unfold is_u64, n, u64_max in *; lia).
  assert (pack_all m = pack_u64 fsi_magic ++ pack_u64 current_safety_file_version ++ pack_u64 n ++
    concat (pack_entry <$> es) ++ pack_u32 cs) as ->.
  { unfold pack_all. fold cs. unfold pack_inactive, pack_active, es, active_entries. fold n. rewrite u64_small by done.
    rewrite fmap_app, concat_app. by rewrite <- !app_assoc. }
  unfold load_bytes. set (file := _ ++ _).
  assert (unpack_u64 file = Ok (fsi_magic, drop 8 file)) as -> by (by apply unpack_u64_ok).
  rewrite bind_ok, check_bind by done. change (drop 8 file) with (pack_u64 current_safety_file_version ++ pack_u64 n ++
    concat (pack_entry <$> es) ++ pack_u32 cs).
  rewrite unpack_u64_ok, bind_ok, check_bind by done. rewrite unpack_u64_ok, bind_ok by done.
  change (current_safety_file_version =? 0) with false. cbv iota.
  assert (Z.to_nat n = length es) as ->.
  { unfold es, active_entries, n. rewrite length_app, length_fmap, !entries_length. lia. }
  rewrite load_v1_entries_ok, bind_ok by (by apply entries_ok).
  assert (take (length file - length (pack_u32 cs)) file = pack_inactive m ++ pack_active m) as ->.
  { unfold file, pack_inactive, pack_active, es, active_entries. fold n. rewrite u64_small by done. rewrite fmap_app, concat_app.
    rewrite !app_assoc, length_app, Nat.add_sub. apply take_app_length. }
  fold cs. rewrite <- (app_nil_r (pack_u32 cs)), unpack_u32_ok, bind_ok by apply crc_laws.
  rewrite check_bind by apply Z.eqb_refl. f_equal. unfold emplace_all, known_fsi, es.
  by rewrite (left_id_L ∅ (∪)), list_to_map_app, active_entries_map, entries_to_map.
Qed.

(** ** Saving *)

(** While the file is open it starts with the inactive entries and leaves room
    for the active ones and the checksum. *)
Definition persist_ok m : Prop :=
  let p := persist_file m in
  if file_is_open p then
    inactive_safety_info_written_pos p = length (pack_inactive m) ∧
    inactive_crc32 p = crc_process crc_init (pack_inactive m) ∧
    ∃ rest, file_content p = Some (pack_inactive m ++ rest) ∧ length rest = (length (pack_active m) + 4)%nat
  else inactive_safety_info_written_pos p = 0%nat.

Lemma write_at_app a bs rest : write_at (length a) bs (a ++ rest) = a ++ bs ++ drop (length bs) rest.
Proof using. unfold write_at. by rewrite take_app_length, drop_app_add. Qed.

Lemma save_ok m : persist_ok m → file_is_open (persist_file m) || negb (persist_file_path_empty m) = true →
  save_finalizer_safety_info m =
    (with_persist m (Persist (Some (pack_all m)) true (length (pack_inactive m)) (crc_process crc_init (pack_inactive m))), true).
Proof using crc_laws.
  intros Hp Hpath. unfold save_finalizer_safety_info, persist_ok in *.
  assert (negb (file_is_open (persist_file m)) && persist_file_path_empty m = false) as ->.
  { destruct (file_is_open (persist_file m)), (persist_file_path_empty m); done. }
  set (cs := pack_u32 (crc_checksum (crc_process (crc_process crc_init (pack_inactive m)) (pack_active m)))).
  assert (∀ rest, length rest = (length (pack_active m) + 4)%nat ∨ rest = [] →
    write_at (length (pack_inactive m) + length (pack_active m)) cs
      (write_at (length (pack_inactive m)) (pack_active m) (pack_inactive m ++ rest)) = pack_all m) as Hwrite.
  { intros rest Hrest. rewrite write_at_app, app_assoc, <- length_app, write_at_app.
    unfold pack_all. rewrite crc_process_app, drop_drop, drop_ge; [by rewrite app_nil_r|].
    unfold cs, pack_u32. rewrite le_bytes_length. destruct Hrest as [->| ->]; simpl; lia. }
  destruct (file_is_open (persist_file m)).
  - destruct Hp as (-> & -> & rest & -> & Hlen). rewrite bool_decide_eq_false_2 by done.
    cbv beta iota zeta delta [default from_option id]. fold cs. by rewrite Hwrite by auto.
  - rewrite Hp, bool_decide_eq_true_2 by done.
    change (write_at 0 (pack_inactive m) []) with (pack_inactive m ++ []). cbv beta iota zeta. fold cs.
    by rewrite Hwrite by auto.
Qed.

Lemma persist_ok_saved m :
  persist_ok (with_persist m (Persist (Some (pack_all m)) true (length (pack_inactive m)) (crc_process crc_init (pack_inactive m)))).
Proof using.
  unfold persist_ok. simpl. split; [done|]. split; [done|].
  eexists. split; [unfold pack_all; by rewrite <- app_assoc|].
  rewrite length_app. unfold pack_u32. by rewrite le_bytes_length.
Qed.

Lemma length_pack_active m : (∀ k f, my_finalizers m !! k = Some f → length k = 96%nat) →
  length (pack_active m) = (237 * size (my_finalizers m))%nat.
Proof using.
  intros Hk. unfold pack_active. rewrite <- (entries_length (my_finalizers m)).
  assert (Forall (λ e : bls_public_key * finalizer, length e.1 = 96%nat) (entries (my_finalizers m))) as Hall.
  { rewrite entries_perm. apply Forall_forall. intros [k f] Hin%elem_of_map_to_list. by apply (Hk k f). }
  induction Hall as [|[k f] es Hl _ IH]; [done|]. cbn [fmap list_fmap concat length].
  rewrite length_app, IH. unfold pack_entry, pack_public_key. rewrite length_app, length_pack_v1. simpl in *. lia.
Qed.

(** ** Voting *)

Definition block_ok (bsp : block_state) : Prop := ref_ok (make_block_ref bsp) ∧ Forall ref_ok (refs (bs_core bsp)).

Lemma get_block_reference_elem c n r : get_block_reference c n = Ok r → r ∈ refs c.
Proof using.
  unfold get_block_reference. intros H. inv_ok H. inv_ok H. inv_ok H. inv_ok H. inv_ok H.
  unfold vec_at in H. destruct (_ <? 0); [done|]. destruct (refs c !! _) eqn:E; [|done]. simplify_eq.
  by eapply list_elem_of_lookup_2.
Qed.

(** The new safety information is that of the block or the old one. *)
Lemma decide_vote_fsi f bsp res f' : decide_vote f bsp = Ok (res, f') → fsi_ok f → block_ok bsp →
  fsi_ok f' ∧ (decision res ≠ no_vote → last_vote f' = make_block_ref bsp).
Proof using.
  intros H Hf [Hb Hrefs]. unfold decide_vote in H. destruct (negb _); [by simplify_eq|].
  inv_ok H. destruct a as [live safe]. destruct (live || safe); [|by simplify_eq].
  inv_ok H. inv_ok H. destruct a0 as [d other]. inv_ok H. destruct a0 as [lk ob]. simplify_eq. simpl.
  destruct Hf as (H1 & H2 & H3).
  assert (is_u32 other) as Ho.
  { unfold vote_strength in Ha1. destruct (_ <=? _); [by simplify_eq|]. inv_ok Ha1. destruct a0; simplify_eq; [done|apply H1]. }
  enough (ref_ok lk ∧ is_u32 ob) as [Hl Hob] by (by split).
  destruct (bool_decide _); [|by simplify_eq]. destruct (_ <? _); [|by simplify_eq].
  inv_ok Ha2. inv_ok Ha2. simplify_eq. split; [|done].
  apply get_block_reference_elem in Ha4. rewrite Forall_forall in Hrefs. by apply Hrefs.
Qed.

Abbreviation fin_map_t := (gmap bls_public_key (finalizer (bls_private_key := bls_private_key))).

(** A vote [v] for [bsp] is backed by the safety information in [fs]. *)
Definition vote_recorded (bsp : block_state) (fs : fin_map_t) (v : vote_t) : Prop :=
  vote_block_id v.1.1 = bs_block_id bsp ∧
  ∃ f, fs !! finalizer_key v.1.1 = Some f ∧ last_vote (fsi f) = make_block_ref bsp.

Section CollectVotes.
Context (bsp : block_state) (B : block) (Hchild : is_child B) (Hvalid : valid B) (Hon : on_block bsp B).
Context (Hblock : block_ok bsp).

Lemma maybe_vote_ok f k : fsi_ok (fsi f) → ∃ f' msg, maybe_vote bls_sign f k bsp (bs_strong_digest bsp) = Ok (f', msg) ∧
  fsi_ok (fsi f') ∧ ∀ v, msg = Some v → vote_block_id v = bs_block_id bsp ∧ finalizer_key v = k ∧ last_vote (fsi f') = make_block_ref bsp.
Proof using Hchild Hvalid Hon Hblock.
  intros Hf. destruct (decide_vote_step (fsi f) bsp B Hchild Hvalid Hon) as (res & i & Hd & _).
  destruct (decide_vote_fsi _ _ _ _ Hd Hf Hblock) as [Hi Hl]. unfold maybe_vote. rewrite Hd, bind_ok.
  destruct (decision res); eexists _, _; (split; [done|]); (split; [done|]); intros v Hv; [done|..];
    apply fmap_Some in Hv as (sig & _ & ->); simpl; (split_and!; [done..|]); by apply Hl.
Qed.

Lemma collect_votes_ok es : NoDup es.*1 → ∀ (fs : fin_map_t) votes,
  (∀ k f, (k, f) ∈ es → fs !! k = Some f) → (∀ k f, fs !! k = Some f → fsi_ok (fsi f)) →
  (∀ v, v ∈ votes → vote_recorded bsp fs v ∧ finalizer_key v.1.1 ∉ es.*1) →
  ∃ fs' votes', collect_votes bls_sign bsp es fs votes = Ok (fs', votes') ∧ dom fs' = dom fs ∧
    (∀ k f, fs' !! k = Some f → fsi_ok (fsi f)) ∧ ∀ v, v ∈ votes' → vote_recorded bsp fs' v.
Proof using Hchild Hvalid Hon Hblock.
  induction es as [|[k f] es IH]; intros Hnd fs votes Hes Hok Hvotes; cbn [collect_votes].
  { exists fs, votes. split_and!; [done..|]. intros v Hv. by apply Hvotes. }
  apply NoDup_cons in Hnd as [Hk Hnd]. simpl in Hk.
  assert (fs !! k = Some f) as Hkf by (apply Hes; by left).
  set (active_auth := in_policy _ k). set (pending_auth := in_pending_policy bsp k).
  destruct (maybe_vote_ok f k (Hok _ _ Hkf)) as (f' & msg & Hmv & Hf' & Hmsg).
  assert (∃ fs' votes', (
      '(f', msg) ← maybe_vote bls_sign f k bsp (bs_strong_digest bsp);
      collect_votes bls_sign bsp es (<[k := f']> fs)
        (match msg with None => votes | Some v => votes ++ [(v, active_auth, pending_auth)] end)) = Ok (fs', votes') ∧
      dom fs' = dom fs ∧ (∀ k f, fs' !! k = Some f → fsi_ok (fsi f)) ∧ ∀ v, v ∈ votes' → vote_recorded bsp fs' v) as Hcast.
  { rewrite Hmv, bind_ok.
    destruct (IH Hnd (<[k := f']> fs) (match msg with None => votes | Some v => votes ++ [(v, active_auth, pending_auth)] end))
      as (fs' & votes' & H1 & H2 & H3 & H4).
    - intros k0 f0 Hin. rewrite lookup_insert_ne; [apply Hes; by right|]. intros <-. apply Hk.
      by apply (list_elem_of_fmap_2 fst _ (k, f0)).
    - intros k0 f0 Hl. apply lookup_insert_Some in Hl as [[_ <-]|[_ Hl]]; [done|by eapply Hok].
    - assert (∀ v, v ∈ votes → vote_recorded bsp (<[k := f']> fs) v ∧ finalizer_key v.1.1 ∉ es.*1) as Hold.
      { intros v Hv. destruct (Hvotes v Hv) as [(Hid & f0 & Hf0 & Hl) Hn]. apply not_elem_of_cons in Hn as [Hne Hn].
        split; [|done]. split; [done|]. exists f0. by rewrite lookup_insert_ne. }
      destruct msg as [v0|]; [|done]. intros v [Hv|Hv]%elem_of_app; [by apply Hold|].
      apply list_elem_of_singleton in Hv as ->. destruct (Hmsg v0 eq_refl) as (Hid & Hkey & Hl). simpl. rewrite Hkey.
      split; [|done]. split; [done|]. exists f'. simpl. by rewrite Hkey, lookup_insert_eq.
    - exists fs', votes'. split; [done|]. split; [|done]. rewrite H2. apply dom_insert_lookup_L. eauto. }
  destruct active_auth, pending_auth; try exact Hcast. apply IH; [done| |done|].
  - intros k0 f0 Hin. apply Hes. by right.
  - intros v Hv. destruct (Hvotes v Hv) as [H1 H2]. split; [done|]. by apply not_elem_of_cons in H2 as [_ ?].
Qed.
End CollectVotes.

(** Replacing the finalizers by ones with the same keys keeps the layout of the file. *)
Definition set_finalizers_of m (fs : fin_map_t) (hv : bool) : my_finalizers_t :=
  MyFinalizers (persist_file_path_empty m) hv (persist_file m) fs (inactive_safety_info m) (default_fsi m).

Lemma persist_ok_set m fs hv : finalizers_ok m → dom fs = dom (my_finalizers m) →
  persist_ok m → persist_ok (set_finalizers_of m fs hv).
Proof using.
  intros Hok Hdom Hp. assert (size fs = size (my_finalizers m)) as Hsize by (by rewrite <- !size_dom, Hdom).
  assert (pack_inactive (set_finalizers_of m fs hv) = pack_inactive m) as Hin.
  { unfold pack_inactive. simpl. by rewrite Hsize. }
  assert (∀ k f, fs !! k = Some f → length k = 96%nat) as Hlen.
  { intros k f Hk. assert (k ∈ dom (my_finalizers m)) as [f0 Hf0]%elem_of_dom by (rewrite <- Hdom; apply elem_of_dom; eauto).
    by apply (fo_active _ Hok k f0 Hf0). }
  unfold persist_ok in *. simpl. destruct (file_is_open (persist_file m)); [|done].
  rewrite Hin, (length_pack_active (set_finalizers_of m fs hv)) by (simpl; apply Hlen).
  rewrite length_pack_active in Hp by (intros k f Hk; apply (fo_active _ Hok k f Hk)). simpl. by rewrite Hsize.
Qed.

Lemma finalizers_ok_set m fs hv : finalizers_ok m → dom fs = dom (my_finalizers m) →
  (∀ k f, fs !! k = Some f → fsi_ok (fsi f)) → finalizers_ok (set_finalizers_of m fs hv).
Proof using.
  intros [H1 H2 H3] Hdom Hok. split; simpl; [|done|].
  - intros k f Hk. split; [|by eapply Hok].
    assert (k ∈ dom (my_finalizers m)) as [f0 Hf0]%elem_of_dom by (rewrite <- Hdom; apply elem_of_dom; eauto).
    by apply (H1 k f0).
  - by rewrite <- size_dom, Hdom, size_dom.
Qed.

Lemma emplace_finalizers_lookup infos dflt (keys : list (bls_public_key * bls_private_key)) : ∀ (fs : fin_map_t),
  NoDup keys.*1 → (∀ k, k ∈ keys.*1 → fs !! k = None) →
  (∀ k priv, (k, priv) ∈ keys → emplace_finalizers keys infos dflt fs !! k = Some (Finalizer priv (default dflt (infos !! k)))) ∧
  (∀ k, k ∉ keys.*1 → emplace_finalizers keys infos dflt fs !! k = fs !! k).
Proof using.
  induction keys as [|[k priv] keys IH]; intros fs Hnd Hfs; cbn [emplace_finalizers].
  { split; [by intros ? ? ?%not_elem_of_nil|done]. }
  apply NoDup_cons in Hnd as [Hk Hnd]. rewrite (Hfs k) by (by left).
  destruct (IH (<[k := Finalizer priv (default dflt (infos !! k))]> fs) Hnd) as [H1 H2].
  { intros k' Hk'. rewrite lookup_insert_ne; [apply Hfs; by right|]. by intros <-. }
  split.
  - intros k' priv' [Heq|Hin]%elem_of_cons; [simplify_eq|by apply H1]. by rewrite H2, lookup_insert_eq.
  - intros k' [Hne Hin]%not_elem_of_cons. by rewrite H2, lookup_insert_ne by done.
Qed.

Lemma delete_keys_lookup (infos : gmap bls_public_key finalizer_safety_information)
    (keys : list (bls_public_key * bls_private_key)) k :
  foldr (λ '(k, _) s, delete k s) infos keys !! k = if decide (k ∈ keys.*1) then None else infos !! k.
Proof using.
  induction keys as [|[k' priv] keys IH]; simpl; [done|]. destruct (decide (k = k')) as [->|Hne'].
  - rewrite lookup_delete_eq. by rewrite decide_True by (by left).
  - rewrite lookup_delete_ne, IH by done. apply decide_ext. rewrite elem_of_cons. split; [by right|by intros [?|?]].
Qed.

(** No finalizer is both active and inactive on this node. *)
Definition active_disjoint m : Prop := ∀ k, is_Some (my_finalizers m !! k) → inactive_safety_info m !! k = None.

(** * Theorems *)

(** Whether the file is written for the first time or rewritten in place
    behind the cached inactive entries, saving succeeds when there is a path, and
    loading the resulting bytes returns the safety information of every
    finalizer, active or not (without the policy generations of references). *)
Theorem safety_file_roundtrip m :
  finalizers_ok m → persist_ok m → file_is_open (persist_file m) || negb (persist_file_path_empty m) = true →
  ∃ m' file, save_finalizer_safety_info m = (m', true) ∧ persist_ok m' ∧ my_finalizers m' = my_finalizers m ∧
    file_content (persist_file m') = Some file ∧ load_bytes file = Ok (known_fsi m).
Proof using crc_laws.
  intros Hok Hp Hpath. eexists _, _. split; [by apply save_ok|]. split_and!; [|done..|by apply load_pack_all].
  apply persist_ok_saved.
Qed.

(** C31: on a valid block, [maybe_vote] returns, and every vote it hands out has
    first been recorded: loading the safety file finds the voted block as the
    last vote of the finalizer. A restarted node never forgets a vote it sent. *)
Theorem votes_are_recorded_before_sending m bsp B :
  finalizers_ok m → active_disjoint m → persist_ok m → is_child B → valid B → on_block bsp B → block_ok bsp →
  ∃ m' votes, my_maybe_vote bls_sign m bsp = Ok (m', votes) ∧
    finalizers_ok m' ∧ persist_ok m' ∧ dom (my_finalizers m') = dom (my_finalizers m) ∧
    ∀ v, v ∈ votes → has_voted m' = true ∧ vote_block_id v.1.1 = bs_block_id bsp ∧
      ∃ file infos i, file_content (persist_file m') = Some file ∧ load_bytes file = Ok infos ∧
        infos !! finalizer_key v.1.1 = Some i ∧ last_vote i = strip_ref (make_block_ref bsp).
Proof using crc_laws.
  intros Hok Hdis Hp Hc Hv Hon Hb. unfold my_maybe_vote. case_bool_decide as Hemp.
  { eexists _, _. split; [done|]. split_and!; [done..|]. by intros v ?%not_elem_of_nil. }
  destruct (collect_votes_ok bsp B Hc Hv Hon Hb (entries (my_finalizers m)) (entries_nodup _) (my_finalizers m) [])
    as (fs & votes & -> & Hdom & Hfsi & Hrec).
  { intros k f Hin. rewrite entries_perm in Hin. by apply elem_of_map_to_list. }
  { intros k f Hk. by apply (fo_active _ Hok k f). }
  { by intros v ?%not_elem_of_nil. }
  rewrite bind_ok.
  destruct votes as [|v0 votes].
  { exists (set_finalizers_of m fs (has_voted m)), []. split; [done|]. split_and!;
      [by apply finalizers_ok_set|by apply persist_ok_set|done|]. by intros v ?%not_elem_of_nil. }
  change (MyFinalizers (persist_file_path_empty m) true (persist_file m) fs (inactive_safety_info m) (default_fsi m))
    with (set_finalizers_of m fs true).
  set (m1 := set_finalizers_of m fs true).
  pose proof (finalizers_ok_set m fs true Hok Hdom Hfsi) as Hok1. pose proof (persist_ok_set m fs true Hok Hdom Hp) as Hp1.
  destruct (file_is_open (persist_file m) || negb (persist_file_path_empty m)) eqn:Hpath.
  2: { unfold save_finalizer_safety_info. simpl.
       replace (negb (file_is_open (persist_file m)) && persist_file_path_empty m) with true
         by (by destruct (file_is_open (persist_file m)), (persist_file_path_empty m)).
       exists m1, []. split; [done|]. split_and!; [done..|]. by intros v ?%not_elem_of_nil. }
  pose proof (save_ok m1 Hp1 Hpath) as ->. eexists _, _. split; [done|]. split_and!; [by destruct Hok1|apply persist_ok_saved|done|].
  intros v Hv'. destruct (Hrec v Hv') as (Hid & f & Hf & Hl). split; [done|]. split; [done|].
  exists (pack_all m1), (known_fsi m1), (strip_fsi (fsi f)). split_and!; [done|by apply load_pack_all| |simpl; by rewrite Hl].
  unfold known_fsi. rewrite lookup_fmap, lookup_union_r, lookup_fmap; simpl; [by rewrite Hf|].
  apply Hdis. apply elem_of_dom. rewrite <- Hdom. by apply elem_of_dom.
Qed.

(** [set_keys] gives every configured finalizer the information the file has
    for it, or else the default, keeps the rest as inactive, and
    [set_default_safety_information] never overwrites existing information. *)
Theorem set_keys_restores_safety_info m keys file infos :
  keys ≠ [] → NoDup keys.*1 → my_finalizers m = ∅ → persist_file_path_empty m = false →
  file_is_open (persist_file m) = false → file_content (persist_file m) = Some file → load_bytes file = Ok infos →
  ∃ m', set_keys m keys = Ok m' ∧ active_disjoint m' ∧
    (∀ k priv, (k, priv) ∈ keys → my_finalizers m' !! k = Some (Finalizer priv (default (default_fsi m) (infos !! k)))) ∧
    (∀ k, k ∉ keys.*1 → my_finalizers m' !! k = None ∧ inactive_safety_info m' !! k = infos !! k) ∧
    ∀ i k f, my_finalizers m' !! k = Some f → ¬ (block_ref_empty (last_vote (fsi f)) = true ∧ block_ref_empty (lock (fsi f)) = true) →
      my_finalizers (set_default_safety_information m' i) !! k = Some f.
Proof using.
  intros Hne Hnd Hempty Hpath Hopen Hfile Hload. unfold set_keys. destruct keys as [|kp0 keys0] eqn:Ek; [done|].
  rewrite <- Ek in *. rewrite assert_bind by (by apply bool_decide_eq_true). unfold load_finalizer_safety_info.
  rewrite Hpath, Hopen, Hfile, Hload. rewrite !check_bind, bind_ok by done. rewrite Hempty.
  destruct (emplace_finalizers_lookup infos (default_fsi m) keys ∅ Hnd) as [H1 H2]; [intros; apply lookup_empty|].
  eexists. split; [done|]. split_and!; simpl.
  - intros k [f Hf]. simpl in *. rewrite delete_keys_lookup. destruct (decide (k ∈ keys.*1)) as [Hin|Hin]; [done|].
    by rewrite H2, lookup_empty in Hf.
  - done.
  - intros k Hk. rewrite delete_keys_lookup, H2, decide_False by done. split; [apply lookup_empty|done].
  - intros i k f Hf Hset. rewrite lookup_fmap, Hf. simpl. f_equal. unfold default_unset.
    destruct (block_ref_empty (last_vote (fsi f))), (block_ref_empty (lock (fsi f))); simpl; try done. by destruct Hset.
Qed.

End RoundTrip.

(** * A concrete node *)

Module FileExample.
Import BlockTree.ChainExample ConsensusSafety.Example.

Definition sum_crc : Crc32 := {|
  crc_t := Z; crc_init := 0; crc_process := λ c bs, foldl Z.add c bs; crc_checksum := u32 |}.

#[local] Existing Instance toy_bls.
#[local] Existing Instance sum_crc.

#[local] Instance sum_crc_laws : Crc32Laws sum_crc.
Proof. split; [intros c a b; apply foldl_app|intros c; apply u32_range]. Qed.

Definition key (k : Z) : bls_public_key := replicate 96 k.
Definition toy_sign (priv : Z) (m : list Z) : option (@bls_g2 toy_bls) := Some (priv + default 0 (head m)).
Definition node_policy : finalizer_policy :=
  FinalizerPolicy 1 2 [FinalizerAuthority [] 1 (key 1); FinalizerAuthority [] 1 (key 2); FinalizerAuthority [] 1 (key 3)].

(** Finalizer 1 is configured, the file also knew of finalizer 9. *)
Definition node : my_finalizers_t (bls_private_key := Z) :=
  MyFinalizers false false (Persist None false 0 0) {[key 1 := Finalizer 1 f0]} {[key 9 := f0]} unset_fsi.

Definition node_block : block_state :=
  BlockState (id_of b1) (time b1) (bs_core (state_of b1)) (finality_digest (ref_of b1)) node_policy None.

Lemma ref_g_ok : ref_ok (ref_of g).
Proof. vm_compute. repeat split; discriminate. Qed.

Lemma node_ok : finalizers_ok node.
Proof.
  assert (fsi_ok f0) as Hf by (split; [apply ref_g_ok|split; [apply ref_g_ok|vm_compute; split; done]]).
  split; [| |vm_compute; done].
  - intros k f Hk. simpl in Hk. apply lookup_singleton_Some in Hk as [<- <-]. split; [split; [done|by eexists]|done].
  - intros k i Hk. simpl in Hk. apply lookup_singleton_Some in Hk as [<- <-]. split; [split; [done|by eexists]|done].
Qed.

Lemma safety_file_roundtrip_witness : ∃ m' file, save_finalizer_safety_info node = (m', true) ∧ persist_ok m' ∧
  my_finalizers m' = my_finalizers node ∧ file_content (persist_file m') = Some file ∧ load_bytes file = Ok (known_fsi node).
Proof. apply (safety_file_roundtrip node node_ok); vm_compute; done. Defined.

Lemma votes_are_recorded_before_sending_witness :
  ∃ m' votes, my_maybe_vote toy_sign node node_block = Ok (m', votes) ∧
    finalizers_ok m' ∧ persist_ok m' ∧ dom (my_finalizers m') = dom (my_finalizers node) ∧
    ∀ v, v ∈ votes → has_voted m' = true ∧ vote_block_id v.1.1 = bs_block_id node_block ∧
      ∃ file infos i, file_content (persist_file m') = Some file ∧ load_bytes file = Ok infos ∧
        infos !! finalizer_key v.1.1 = Some i ∧ last_vote i = strip_ref (make_block_ref node_block).
Proof.
  apply (votes_are_recorded_before_sending toy_sign node node_block b1 node_ok).
  - intros k Hk. simpl in Hk. apply lookup_singleton_is_Some in Hk as <-. vm_compute. done.
  - vm_compute. done.
  - by repeat eexists.
  - apply chain_valid. right. by left.
  - split; by vm_compute.
  - split; [vm_compute; repeat split; discriminate|]. repeat constructor; vm_compute; discriminate.
Defined.

(** One vote is sent in this run. *)
Example one_vote_is_sent : returns (my_maybe_vote toy_sign node node_block) (λ '(_, votes), length votes = 1%nat).
Proof. vm_compute. done. Qed.

Definition node_file : list Z := pack_all node.
Definition fresh_node : my_finalizers_t (bls_private_key := Z) :=
  MyFinalizers false false (Persist (Some node_file) false 0 0) ∅ ∅ unset_fsi.

Lemma set_keys_restores_safety_info_witness :
  ∃ m', set_keys fresh_node [(key 1, 1); (key 2, 2)] = Ok m' ∧ active_disjoint m' ∧
    my_finalizers m' !! key 1 = Some (Finalizer 1 (strip_fsi f0)) ∧ my_finalizers m' !! key 2 = Some (Finalizer 2 unset_fsi) ∧
    inactive_safety_info m' !! key 9 = Some (strip_fsi f0).
Proof.
  destruct (set_keys_restores_safety_info fresh_node [(key 1, 1); (key 2, 2)] node_file (known_fsi node))
    as (m' & Hset & Hdis & Hact & Hin & _).
  - done.
  - apply (bool_decide_unpack _). vm_compute. done.
  - done.
  - done.
  - done.
  - done.
  - apply load_pack_all, node_ok.
  - exists m'. split; [done|]. split; [done|]. split_and!.
    + rewrite (Hact (key 1) 1) by (by left). vm_compute. done.
    + rewrite (Hact (key 2) 2) by (right; by left). vm_compute. done.
    + rewrite (proj2 (Hin (key 9) ltac:(apply (bool_decide_unpack _); vm_compute; done))). vm_compute. done.
Defined.
End FileExample.
