(* ===== verification/ResourceLimits.v ===== *)
(** * Resource limits: [resource_limits.hpp], [resource_limits_private.hpp],
    [resource_limits.cpp]

    The chainbase tables are maps from account names; an entry of
    [resource_limits_object] is in [rl_limits] or, when [pending], in
    [rl_pending]. A thrown exception rolls the database back, so an [Err] carries
    no state. *)

From S2P Require Import Prelude.
Open Scope Z_scope.

(** ** Arithmetic *)

Definition rate_limiting_precision : Z := 1000000.
Definition maximum_elastic_resource_multiplier : Z := 1000.
Definition u128_max : Z := 340282366920938463463374607431768211455.

Record ratio : Type := Ratio { numerator : Z; denominator : Z }.

#[export] Instance ratio_eq_dec : EqDecision ratio.
Proof. solve_decision. Defined.

(** [operator*] on [uint64_t]; division by zero is undefined. *)
Definition mul_ratio (value : Z) (r : ratio) : result Z :=
  check ((numerator r =? 0) || (value <=? u64_max / numerator r)) rate_limiting_state_inconsistent;;
  check (negb (denominator r =? 0)) undefined_behaviour;;
  Ok (u64 (value * numerator r) / denominator r).

(** The same on [uint128_t]. *)
Definition mul_ratio128 (value : Z) (r : ratio) : result Z :=
  check ((numerator r =? 0) || (value <=? u128_max / numerator r)) rate_limiting_state_inconsistent;;
  check (negb (denominator r =? 0)) undefined_behaviour;;
  Ok (u128 (value * numerator r) / denominator r).

Definition integer_divide_ceil (num den : Z) : Z := num / den + (if 0 <? num mod den then 1 else 0).

(** [downgrade_cast<uint64_t>(uint128_t)] and [downgrade_cast<int64_t>(uint128_t)]. *)
Definition downgrade_cast_u64 (val : Z) : result Z :=
  check ((0 <=? val) && (val <=? u64_max)) rate_limiting_state_inconsistent;; Ok val.
Definition downgrade_cast_i64 (val : Z) : result Z :=
  check ((0 <=? val) && (val <=? i64_max)) rate_limiting_state_inconsistent;; Ok val.

(** ** [exponential_moving_average_accumulator] *)

Record usage_accumulator : Type := UsageAccumulator {
  last_ordinal : Z;
  value_ex : Z;
  consumed : Z }.

Definition accumulator_default : usage_accumulator := UsageAccumulator 0 0 0.

Definition max_raw_value : Z := u64_max / rate_limiting_precision.

Definition average_of (v : Z) : Z := integer_divide_ceil v rate_limiting_precision.
Definition average (a : usage_accumulator) : Z := average_of (value_ex a).

(** The value after the periods up to [ordinal] went by. *)
Definition decayed_value (a : usage_accumulator) (ordinal window_size : Z) : result Z :=
  if u64 (last_ordinal a + window_size) >? ordinal then
    let delta := u32 (ordinal - last_ordinal a) in
    mul_ratio (value_ex a) (Ratio (u64 (window_size - delta)) window_size)
  else Ok 0.

Definition accumulator_add (a : usage_accumulator) (units ordinal window_size : Z) : result usage_accumulator :=
  check (units <=? max_raw_value) rate_limiting_state_inconsistent;;
  check (units <=? u64_max - consumed a) rate_limiting_state_inconsistent;;
  check (negb (window_size =? 0)) undefined_behaviour;;
  value_ex_contrib ← downgrade_cast_u64 (integer_divide_ceil (u128 (units * rate_limiting_precision)) window_size);
  check (value_ex_contrib <=? u64_max - value_ex a) rate_limiting_state_inconsistent;;
  a ← (if negb (last_ordinal a =? ordinal) then
         check (last_ordinal a <? ordinal) resource_limit_exception;;
         v ← decayed_value a ordinal window_size;
         Ok (UsageAccumulator ordinal v (average_of v))
       else Ok a);
  Ok (UsageAccumulator (last_ordinal a) (u64 (value_ex a + value_ex_contrib)) (u64 (consumed a + units))).

(** ** [exponential_decay_accumulator] *)

Record decay_accumulator : Type := DecayAccumulator { d_last_ordinal : Z; d_value_ex : Z }.

Definition value_ex_at (a : decay_accumulator) (ordinal window_size : Z) : result Z :=
  if d_last_ordinal a <? ordinal then
    if u64 (d_last_ordinal a + window_size) >? ordinal then
      let delta := u32 (ordinal - d_last_ordinal a) in
      v ← mul_ratio128 (d_value_ex a) (Ratio (u128 (window_size - delta)) window_size);
      downgrade_cast_u64 v
    else Ok 0
  else Ok (d_value_ex a).

Definition value_at (a : decay_accumulator) (ordinal window_size : Z) : result Z :=
  v ← value_ex_at a ordinal window_size; Ok (average_of v).

Definition decay_add (a : decay_accumulator) (units ordinal window_size : Z) : result decay_accumulator :=
  check (units <=? max_raw_value) rate_limiting_state_inconsistent;;
  let units_ex := u128 (units * rate_limiting_precision) in
  '(lo, v) ← (if d_last_ordinal a <? ordinal
              then v ← value_ex_at a ordinal window_size; Ok (ordinal, v)
              else Ok (d_last_ordinal a, d_value_ex a));
  v ← downgrade_cast_u64 (Z.min (u128 (units_ex + v)) u64_max);
  Ok (DecayAccumulator lo v).

(** ** The tables *)

Record elastic_limit_parameters : Type := ElasticLimitParameters {
  el_target : Z;
  el_max : Z;
  el_periods : Z;
  el_max_multiplier : Z;
  contract_rate : ratio;
  expand_rate : ratio }.

#[export] Instance elastic_limit_parameters_eq_dec : EqDecision elastic_limit_parameters.
Proof. solve_decision. Defined.

Record resource_limits_object : Type := ResourceLimitsObject {
  net_weight : Z;
  cpu_weight : Z;
  ram_bytes : Z }.

Definition unlimited : resource_limits_object := ResourceLimitsObject (-1) (-1) (-1).

Record resource_usage_object : Type := ResourceUsageObject {
  net_usage : usage_accumulator;
  cpu_usage : usage_accumulator;
  ram_usage : Z }.

Record resource_limits_config_object : Type := ResourceLimitsConfig {
  cpu_limit_parameters : elastic_limit_parameters;
  net_limit_parameters : elastic_limit_parameters;
  account_cpu_usage_average_window : Z;
  account_net_usage_average_window : Z }.

(** The default member initialisers. *)
Definition resource_limits_config_default : resource_limits_config_object := {|
  cpu_limit_parameters := ElasticLimitParameters 20000 200000 120 1000 (Ratio 99 100) (Ratio 1000 999);
  net_limit_parameters := ElasticLimitParameters 104857 1048576 120 1000 (Ratio 99 100) (Ratio 1000 999);
  account_cpu_usage_average_window := 172800;
  account_net_usage_average_window := 172800 |}.

Record resource_limits_state_object : Type := ResourceLimitsState {
  average_block_net_usage : usage_accumulator;
  average_block_cpu_usage : usage_accumulator;
  pending_net_usage : Z;
  pending_cpu_usage : Z;
  total_net_weight : Z;
  total_cpu_weight : Z;
  total_ram_bytes : Z;
  virtual_net_limit : Z;
  virtual_cpu_limit : Z }.

(** Account names are 64-bit values. *)
Abbreviation account_name := Z (only parsing).

Record resource_db : Type := ResourceDb {
  rl_limits : gmap account_name resource_limits_object;
  rl_pending : gmap account_name resource_limits_object;
  rl_usage : gmap account_name resource_usage_object;
  rl_config : resource_limits_config_object;
  rl_state : resource_limits_state_object }.

(** [_db.get] throws when there is no such row. *)
Definition db_get {A} (m : gmap account_name A) (k : account_name) : result A :=
  match m !! k with Some x => Ok x | None => Err out_of_range end.

Definition with_limits (d : resource_db) l := ResourceDb l (rl_pending d) (rl_usage d) (rl_config d) (rl_state d).
Definition with_pending (d : resource_db) p := ResourceDb (rl_limits d) p (rl_usage d) (rl_config d) (rl_state d).
Definition with_usage (d : resource_db) u := ResourceDb (rl_limits d) (rl_pending d) u (rl_config d) (rl_state d).
Definition with_config (d : resource_db) c := ResourceDb (rl_limits d) (rl_pending d) (rl_usage d) c (rl_state d).
Definition with_state (d : resource_db) s := ResourceDb (rl_limits d) (rl_pending d) (rl_usage d) (rl_config d) s.

(** ** Elastic limits *)

Definition update_elastic_limit (current_limit average_usage : Z) (params : elastic_limit_parameters) : result Z :=
  r ← (if average_usage >? el_target params
       then mul_ratio current_limit (contract_rate params)
       else mul_ratio current_limit (expand_rate params));
  Ok (Z.min (Z.max r (el_max params)) (u64 (el_max params * el_max_multiplier params))).

Definition elastic_validate (p : elastic_limit_parameters) : result unit :=
  check (0 <? el_periods p) resource_limit_exception;;
  check (0 <? denominator (contract_rate p)) resource_limit_exception;;
  check (0 <? denominator (expand_rate p)) resource_limit_exception.

Definition update_virtual_cpu_limit (s : resource_limits_state_object) (cfg : resource_limits_config_object) : result Z :=
  update_elastic_limit (virtual_cpu_limit s) (average (average_block_cpu_usage s)) (cpu_limit_parameters cfg).

Definition update_virtual_net_limit (s : resource_limits_state_object) (cfg : resource_limits_config_object) : result Z :=
  update_elastic_limit (virtual_net_limit s) (average (average_block_net_usage s)) (net_limit_parameters cfg).

Definition initialize_database : resource_db :=
  let c := resource_limits_config_default in
  ResourceDb ∅ ∅ ∅ c
    (ResourceLimitsState accumulator_default accumulator_default 0 0 0 0 0
       (el_max (net_limit_parameters c)) (el_max (cpu_limit_parameters c))).

(** ** Operations *)

(** [_db.create] throws when the unique index already has the key. *)
Definition initialize_account (d : resource_db) (account : account_name) : result resource_db :=
  match rl_limits d !! account, rl_usage d !! account with
  | None, None =>
    Ok (ResourceDb (<[account := unlimited]> (rl_limits d)) (rl_pending d)
          (<[account := ResourceUsageObject accumulator_default accumulator_default 0]> (rl_usage d))
          (rl_config d) (rl_state d))
  | _, _ => Err invalid_argument
  end.

Definition set_block_parameters (d : resource_db) (cpu net : elastic_limit_parameters) : result resource_db :=
  elastic_validate cpu;;
  elastic_validate net;;
  let c := rl_config d in
  if bool_decide (cpu_limit_parameters c = cpu) && bool_decide (net_limit_parameters c = net) then Ok d
  else Ok (with_config d (ResourceLimitsConfig cpu net (account_cpu_usage_average_window c)
                            (account_net_usage_average_window c))).

(** Adds usage to the accumulators of an account. *)
Definition bill_account (c : resource_limits_config_object) (u : resource_usage_object) (cpu net time_slot : Z)
    : result resource_usage_object :=
  n ← accumulator_add (net_usage u) net time_slot (account_net_usage_average_window c);
  p ← accumulator_add (cpu_usage u) cpu time_slot (account_cpu_usage_average_window c);
  Ok (ResourceUsageObject n p (ram_usage u)).

Fixpoint update_account_usage (d : resource_db) (accounts : list account_name) (time_slot : Z) : result resource_db :=
  match accounts with
  | [] => Ok d
  | a :: accounts =>
    u ← db_get (rl_usage d) a;
    u ← bill_account (rl_config d) u 0 0 time_slot;
    update_account_usage (with_usage d (<[a := u]> (rl_usage d))) accounts time_slot
  end.

(** (ram, net, cpu): a pending row takes precedence. *)
Definition get_account_limits (d : resource_db) (account : account_name) : result resource_limits_object :=
  match rl_pending d !! account with
  | Some l => Ok l
  | None => db_get (rl_limits d) account
  end.

Definition max_user_use_in_window (window_size virtual_limit weight total_weight : Z) : Z :=
  u128 (u128 (virtual_limit * window_size) * weight) / total_weight.

(** The check of one resource in [add_transaction_usage]. *)
Definition check_account_usage (v window_size virtual_limit weight total_weight : Z) (e : exn) : result unit :=
  if (0 <=? weight) && (0 <? total_weight) then
    let used_in_window := u128 (v * window_size) / rate_limiting_precision in
    check (used_in_window <=? max_user_use_in_window window_size virtual_limit weight total_weight) e
  else Ok tt.

Fixpoint bill_accounts (d : resource_db) (accounts : list account_name) (cpu net time_slot : Z) : result resource_db :=
  match accounts with
  | [] => Ok d
  | a :: accounts =>
    u ← db_get (rl_usage d) a;
    l ← get_account_limits d a;
    u ← bill_account (rl_config d) u cpu net time_slot;
    let s := rl_state d in
    check_account_usage (value_ex (cpu_usage u)) (account_cpu_usage_average_window (rl_config d))
      (virtual_cpu_limit s) (cpu_weight l) (total_cpu_weight s) tx_cpu_usage_exceeded;;
    check_account_usage (value_ex (net_usage u)) (account_net_usage_average_window (rl_config d))
      (virtual_net_limit s) (net_weight l) (total_net_weight s) tx_net_usage_exceeded;;
    bill_accounts (with_usage d (<[a := u]> (rl_usage d))) accounts cpu net time_slot
  end.

Definition add_transaction_usage (d : resource_db) (accounts : list account_name) (cpu net time_slot : Z)
    : result resource_db :=
  d ← bill_accounts d accounts cpu net time_slot;
  let s := rl_state d in
  let pcpu := u64 (pending_cpu_usage s + cpu) in
  let pnet := u64 (pending_net_usage s + net) in
  let d := with_state d (ResourceLimitsState (average_block_net_usage s) (average_block_cpu_usage s) pnet pcpu
              (total_net_weight s) (total_cpu_weight s) (total_ram_bytes s) (virtual_net_limit s) (virtual_cpu_limit s)) in
  check (pcpu <=? el_max (cpu_limit_parameters (rl_config d))) block_resource_exhausted;;
  check (pnet <=? el_max (net_limit_parameters (rl_config d))) block_resource_exhausted;;
  Ok d.

Definition add_pending_ram_usage (d : resource_db) (account : account_name) (ram_delta : Z) : result resource_db :=
  if ram_delta =? 0 then Ok d
  else
    u ← db_get (rl_usage d) account;
    check ((ram_delta <=? 0) || (u64 ram_delta <=? u64_max - ram_usage u)) transaction_exception;;
    check ((0 <=? ram_delta) || (u64 (- ram_delta) <=? ram_usage u)) transaction_exception;;
    Ok (with_usage d (<[account := ResourceUsageObject (net_usage u) (cpu_usage u) (u64 (ram_usage u + ram_delta))]>
                        (rl_usage d))).

Definition verify_account_ram_usage (d : resource_db) (account : account_name) : result unit :=
  l ← get_account_limits d account;
  u ← db_get (rl_usage d) account;
  if 0 <=? ram_bytes l then check (ram_usage u <=? ram_bytes l) ram_usage_exceeded else Ok tt.

Definition get_account_ram_usage (d : resource_db) (name : account_name) : result Z :=
  u ← db_get (rl_usage d) name; Ok (i64 (ram_usage u)).

(** Returns whether the RAM limit was decreased. *)
Definition set_account_limits (d : resource_db) (account : account_name) (ram net cpu : Z) : result (resource_db * bool) :=
  l ← get_account_limits d account;
  let decreased_limit := (0 <=? ram) && ((ram_bytes l <? 0) || (ram <? ram_bytes l)) in
  Ok (with_pending d (<[account := ResourceLimitsObject net cpu ram]> (rl_pending d)), decreased_limit).

Definition is_unlimited_cpu (d : resource_db) (account : account_name) : bool :=
  match rl_limits d !! account with Some l => cpu_weight l =? -1 | None => false end.

(** The lambda [update_state_and_value], on the total. *)
Definition update_total (total value pending_value : Z) : result Z :=
  total ← (if 0 <? value
           then check (value <=? total) rate_limiting_state_inconsistent;; Ok (u64 (total - value))
           else Ok total);
  if 0 <? pending_value
  then check (pending_value <=? u64_max - total) rate_limiting_state_inconsistent;; Ok (u64 (total + pending_value))
  else Ok total.

Fixpoint process_pending (d : resource_db) (owners : list account_name) : result resource_db :=
  match owners with
  | [] => Ok d
  | a :: owners =>
    p ← db_get (rl_pending d) a;
    l ← db_get (rl_limits d) a;
    let s := rl_state d in
    tr ← update_total (total_ram_bytes s) (ram_bytes l) (ram_bytes p);
    tc ← update_total (total_cpu_weight s) (cpu_weight l) (cpu_weight p);
    tn ← update_total (total_net_weight s) (net_weight l) (net_weight p);
    process_pending
      (ResourceDb (<[a := p]> (rl_limits d)) (delete a (rl_pending d)) (rl_usage d) (rl_config d)
         (ResourceLimitsState (average_block_net_usage s) (average_block_cpu_usage s) (pending_net_usage s)
            (pending_cpu_usage s) tn tc tr (virtual_net_limit s) (virtual_cpu_limit s))) owners
  end.

(** The pending rows in the order of the [by_owner] index. *)
Definition pending_owners (d : resource_db) : list account_name :=
  merge_sort Z.le (map_to_list (rl_pending d)).*1.

Definition process_account_limit_updates (d : resource_db) : result resource_db :=
  process_pending d (pending_owners d).

Definition with_average_cpu (s : resource_limits_state_object) a := ResourceLimitsState (average_block_net_usage s) a
  (pending_net_usage s) (pending_cpu_usage s) (total_net_weight s) (total_cpu_weight s) (total_ram_bytes s)
  (virtual_net_limit s) (virtual_cpu_limit s).
Definition with_average_net (s : resource_limits_state_object) a := ResourceLimitsState a (average_block_cpu_usage s)
  (pending_net_usage s) (pending_cpu_usage s) (total_net_weight s) (total_cpu_weight s) (total_ram_bytes s)
  (virtual_net_limit s) (virtual_cpu_limit s).

Definition process_block_usage (d : resource_db) (block_num : Z) : result resource_db :=
  let s := rl_state d in
  let c := rl_config d in
  ac ← accumulator_add (average_block_cpu_usage s) (pending_cpu_usage s) block_num (el_periods (cpu_limit_parameters c));
  vc ← update_virtual_cpu_limit (with_average_cpu s ac) c;
  an ← accumulator_add (average_block_net_usage s) (pending_net_usage s) block_num (el_periods (net_limit_parameters c));
  vn ← update_virtual_net_limit (with_average_net s an) c;
  Ok (with_state d (ResourceLimitsState an ac 0 0 (total_net_weight s) (total_cpu_weight s) (total_ram_bytes s) vn vc)).

Definition get_total_cpu_weight (d : resource_db) : Z := total_cpu_weight (rl_state d).
Definition get_total_net_weight (d : resource_db) : Z := total_net_weight (rl_state d).
Definition get_virtual_block_cpu_limit (d : resource_db) : Z := virtual_cpu_limit (rl_state d).
Definition get_virtual_block_net_limit (d : resource_db) : Z := virtual_net_limit (rl_state d).
Definition get_block_cpu_limit (d : resource_db) : Z :=
  u64 (el_max (cpu_limit_parameters (rl_config d)) - pending_cpu_usage (rl_state d)).
Definition get_block_net_limit (d : resource_db) : Z :=
  u64 (el_max (net_limit_parameters (rl_config d)) - pending_net_usage (rl_state d)).

Record account_resource_limit : Type := AccountResourceLimit {
  arl_used : Z;
  arl_available : Z;
  arl_max : Z;
  arl_last_usage_update_time : Z;
  arl_current_used : Z }.

(** [get_account_cpu_limit_ex] and [get_account_net_limit_ex] on the values of their resource. *)
Definition account_limit_ex (weight total_weight window_size virtual_limit el_max_usage : Z)
    (usage : usage_accumulator) (greylist_limit : Z) (current_time : option Z)
    : result (account_resource_limit * bool) :=
  if (weight <? 0) || (total_weight =? 0)
  then Ok (AccountResourceLimit (-1) (-1) (-1) (last_ordinal usage) (-1), false)
  else
    let greylisted_limit := u64 (el_max_usage * greylist_limit) in
    let greylisted := (greylist_limit <? maximum_elastic_resource_multiplier) && (greylisted_limit <? virtual_limit) in
    let limit := if greylisted then greylisted_limit else virtual_limit in
    let max_use := max_user_use_in_window window_size limit weight total_weight in
    let used := integer_divide_ceil (u128 (value_ex usage * window_size)) rate_limiting_precision in
    available ← (if max_use <=? used then Ok 0 else downgrade_cast_i64 (max_use - used));
    u ← downgrade_cast_i64 used;
    m ← downgrade_cast_i64 max_use;
    cur ← match current_time with
          | Some slot =>
            if last_ordinal usage <? slot then
              h ← accumulator_add usage 0 slot (u32 window_size);
              downgrade_cast_i64 (integer_divide_ceil (u128 (value_ex h * window_size)) rate_limiting_precision)
            else Ok u
          | None => Ok u
          end;
    Ok (AccountResourceLimit u available m (last_ordinal usage) cur, greylisted).

Definition get_account_cpu_limit_ex (d : resource_db) (name : account_name) (greylist_limit : Z) (current_time : option Z)
    : result (account_resource_limit * bool) :=
  u ← db_get (rl_usage d) name;
  l ← get_account_limits d name;
  account_limit_ex (cpu_weight l) (total_cpu_weight (rl_state d)) (account_cpu_usage_average_window (rl_config d))
    (virtual_cpu_limit (rl_state d)) (el_max (cpu_limit_parameters (rl_config d))) (cpu_usage u) greylist_limit current_time.

Definition get_account_net_limit_ex (d : resource_db) (name : account_name) (greylist_limit : Z) (current_time : option Z)
    : result (account_resource_limit * bool) :=
  u ← db_get (rl_usage d) name;
  l ← get_account_limits d name;
  account_limit_ex (net_weight l) (total_net_weight (rl_state d)) (account_net_usage_average_window (rl_config d))
    (virtual_net_limit (rl_state d)) (el_max (net_limit_parameters (rl_config d))) (net_usage u) greylist_limit current_time.

Definition get_account_cpu_limit (d : resource_db) (name : account_name) (greylist_limit : Z) : result (Z * bool) :=
  '(arl, g) ← get_account_cpu_limit_ex d name greylist_limit None; Ok (arl_available arl, g).
Definition get_account_net_limit (d : resource_db) (name : account_name) (greylist_limit : Z) : result (Z * bool) :=
  '(arl, g) ← get_account_net_limit_ex d name greylist_limit None; Ok (arl_available arl, g).

(** * Accumulators *)

Definition acc_ok (a : usage_accumulator) : Prop := is_u32 (last_ordinal a) ∧ is_u64 (value_ex a) ∧ is_u64 (consumed a).

Lemma ceil_bounds n d : 0 <= n → 0 < d → n <= integer_divide_ceil n d * d < n + d.
Proof.
  intros Hn Hd. unfold integer_divide_ceil. pose proof (Z.div_mod n d ltac:(lia)) as Hdm.
  pose proof (Z.mod_pos_bound n d Hd). destruct (Z.ltb_spec 0 (n mod d)); nia.
Qed.

Lemma ceil_nonneg n d : 0 <= n → 0 < d → 0 <= integer_divide_ceil n d.
Proof. intros Hn Hd. pose proof (ceil_bounds n d Hn Hd). nia. Qed.

Lemma ceil_le n d : 0 <= n → 0 < d → integer_divide_ceil n d <= n.
Proof.
  intros Hn Hd. unfold integer_divide_ceil. pose proof (Z.div_mod n d ltac:(lia)) as Hdm.
  pose proof (Z.mod_pos_bound n d Hd). pose proof (Z.div_pos n d Hn Hd).
  destruct (Z.ltb_spec 0 (n mod d)); nia.
Qed.

(** The value at [ordinal], in exact arithmetic. *)
Definition decayed (v last ordinal window : Z) : Z :=
  if last <? ordinal then if ordinal <? last + window then v * (window - (ordinal - last)) / window else 0 else v.

Definition contribution (units window : Z) : Z := integer_divide_ceil (units * rate_limiting_precision) window.

Definition add_spec (a : usage_accumulator) (units ordinal window : Z) : usage_accumulator :=
  let v := decayed (value_ex a) (last_ordinal a) ordinal window in
  UsageAccumulator ordinal (v + contribution units window)
    ((if last_ordinal a =? ordinal then consumed a else average_of v) + units).

(** The usage is representable, and the clock does not go backwards. *)
Definition add_pre (a : usage_accumulator) (units ordinal window : Z) : Prop :=
  units <= max_raw_value ∧ consumed a + units <= u64_max ∧ value_ex a + contribution units window <= u64_max ∧
  last_ordinal a <= ordinal ∧
  (last_ordinal a < ordinal < last_ordinal a + window → value_ex a * (window - (ordinal - last_ordinal a)) <= u64_max).

Lemma decayed_range v last ordinal window : 0 <= v → 0 < window → 0 <= decayed v last ordinal window <= v.
Proof.
  intros Hv Hw. unfold decayed. destruct (Z.ltb_spec last ordinal); [|lia].
  destruct (Z.ltb_spec ordinal (last + window)); [|lia]. split; [apply Z.div_pos; nia|].
  apply Z.div_le_upper_bound; nia.
Qed.

Lemma div_le_iff v n m : 0 < n → v <= m / n ↔ v * n <= m.
Proof. intros Hn. split; intros H. - pose proof (Z.mul_div_le m n Hn). nia. - apply Z.div_le_lower_bound; lia. Qed.

Section Add.
Context (a : usage_accumulator) (Ha : acc_ok a) (units ordinal window : Z).
Context (Hu : is_u64 units) (Ho : is_u32 ordinal) (Hw : is_u32 window) (Hw0 : 0 < window).

Lemma decayed_value_ok : last_ordinal a < ordinal →
  decayed_value a ordinal window =
  if bool_decide (ordinal < last_ordinal a + window → value_ex a * (window - (ordinal - last_ordinal a)) <= u64_max)
  then Ok (decayed (value_ex a) (last_ordinal a) ordinal window) else Err rate_limiting_state_inconsistent.
Proof using Ha Ho Hw Hw0.
  clear Hu units. intros Hlt. destruct Ha as (Hl & Hv & _). unfold is_u32, is_u64 in *. unfold decayed_value, decayed, mul_ratio.
  rewrite u64_small by (unfold is_u64; lia). rewrite (proj2 (Z.ltb_lt _ _) Hlt), Z.gtb_ltb.
  destruct (Z.ltb_spec ordinal (last_ordinal a + window)) as [Hin|Hout]; [|by rewrite bool_decide_eq_true_2 by lia].
  rewrite u32_small by (unfold is_u32; lia). rewrite (u64_small (window - _)) by (unfold is_u64; lia). cbn [numerator denominator].
  rewrite (proj2 (Z.eqb_neq (window - _) 0)), orb_false_l by lia. case_bool_decide as H.
  - specialize (H Hin). rewrite check_bind by (apply Z.leb_le, div_le_iff; lia).
    rewrite check_bind by (apply negb_true_iff, Z.eqb_neq; lia). rewrite u64_small; [done|]. unfold is_u64, u64_max in *. nia.
  - rewrite (proj2 (Z.leb_gt _ _)); [done|]. apply Z.lt_nge. rewrite div_le_iff by lia. intros H'. by apply H.
Qed.

Lemma contribution_range : units <= max_raw_value → 0 <= contribution units window <= u64_max.
Proof using Hu Hw0.
  intros Hm. unfold contribution. assert (0 <= units * rate_limiting_precision <= u64_max) as Hr.
  { unfold is_u64, max_raw_value, rate_limiting_precision, u64_max in *. pose proof (Z.mul_div_le 18446744073709551615 1000000 ltac:(lia)). lia. }
  pose proof (ceil_le (units * rate_limiting_precision) window). pose proof (ceil_nonneg (units * rate_limiting_precision) window). lia.
Qed.

(** The statements before the state is changed. *)
Lemma add_checks (k : Z → result usage_accumulator) :
  (check (units <=? max_raw_value) rate_limiting_state_inconsistent;;
   check (units <=? u64_max - consumed a) rate_limiting_state_inconsistent;;
   check (negb (window =? 0)) undefined_behaviour;;
   c ← downgrade_cast_u64 (integer_divide_ceil (u128 (units * rate_limiting_precision)) window);
   check (c <=? u64_max - value_ex a) rate_limiting_state_inconsistent;; k c) =
  if bool_decide (units <= max_raw_value ∧ consumed a + units <= u64_max ∧ value_ex a + contribution units window <= u64_max)
  then k (contribution units window) else Err rate_limiting_state_inconsistent.
Proof using Hu Hw0.
  destruct (Z.leb_spec units max_raw_value) as [H1|H1]; [|by rewrite bool_decide_eq_false_2 by lia].
  simpl check. rewrite bind_ok.
  destruct (Z.leb_spec units (u64_max - consumed a)) as [H2|H2]; [|by rewrite bool_decide_eq_false_2 by lia].
  simpl check. rewrite bind_ok, check_bind by (apply negb_true_iff, Z.eqb_neq; lia).
  assert (u128 (units * rate_limiting_precision) = units * rate_limiting_precision) as ->.
  { apply Z.mod_small. unfold is_u64, rate_limiting_precision in *. lia. }
  fold (contribution units window). pose proof (contribution_range H1). unfold downgrade_cast_u64.
  rewrite check_bind by solve_test. rewrite bind_ok.
  destruct (Z.leb_spec (contribution units window) (u64_max - value_ex a)) as [H3|H3];
    [by rewrite bool_decide_eq_true_2 by lia|by rewrite bool_decide_eq_false_2 by lia].
Qed.

Lemma add_ok : add_pre a units ordinal window → accumulator_add a units ordinal window = Ok (add_spec a units ordinal window) ∧
  acc_ok (add_spec a units ordinal window).
Proof using Ha Hu Ho Hw Hw0.
  intros (H1 & H2 & H3 & H4 & H5). unfold accumulator_add. rewrite add_checks, bool_decide_eq_true_2 by done.
  destruct Ha as (Hl & Hv & Hc). pose proof (contribution_range H1) as Hcr.
  pose proof (decayed_range (value_ex a) (last_ordinal a) ordinal window ltac:(unfold is_u64 in *; lia) Hw0) as Hd.
  unfold add_spec, acc_ok. cbn [last_ordinal value_ex consumed].
  assert (0 <= average_of (decayed (value_ex a) (last_ordinal a) ordinal window) <= u64_max - max_raw_value) as Hav.
  { unfold average_of. split; [apply ceil_nonneg; unfold rate_limiting_precision; lia|].
    pose proof (ceil_bounds (decayed (value_ex a) (last_ordinal a) ordinal window) rate_limiting_precision ltac:(lia) ltac:(done)) as Hb.
    unfold is_u64, rate_limiting_precision in *. change max_raw_value with 18446744073709. unfold u64_max in *. lia. }
  destruct (Z.eqb_spec (last_ordinal a) ordinal) as [He|He]; simpl negb; cbv iota.
  - rewrite bind_ok. assert (decayed (value_ex a) (last_ordinal a) ordinal window = value_ex a) as ->.
    { unfold decayed. by rewrite (proj2 (Z.ltb_ge _ _)) by lia. }
    rewrite He. unfold is_u64, is_u32, u64_max in *. rewrite !u64_small by (unfold is_u64; lia). split; [done|lia].
  - rewrite check_bind by (apply Z.ltb_lt; lia). rewrite decayed_value_ok, bool_decide_eq_true_2 by (done || lia || (intros; apply H5; lia)).
    rewrite !bind_ok. cbn [last_ordinal value_ex consumed].
    unfold is_u64, is_u32, u64_max in *. rewrite !u64_small by (unfold is_u64; lia). split; [done|lia].
Qed.

Lemma add_err : ¬ add_pre a units ordinal window → ∃ e, accumulator_add a units ordinal window = Err e.
Proof using Ha Hu Ho Hw Hw0.
  intros Hn. unfold accumulator_add. rewrite add_checks. case_bool_decide as Hc; [|by eexists].
  destruct (Z.eqb_spec (last_ordinal a) ordinal) as [He|He]; simpl negb; cbv iota.
  { destruct Hn. destruct Hc as (H1 & H2 & H3). unfold add_pre. split_and!; [done..|lia|lia]. }
  destruct (Z.ltb_spec (last_ordinal a) ordinal) as [Hlt|Hge]; [|by eexists]. simpl check. rewrite bind_ok, decayed_value_ok by done.
  case_bool_decide as Hd; [|by eexists]. destruct Hn. destruct Hc as (H1 & H2 & H3). unfold add_pre. split_and!; [done..|lia|].
  intros [_ Hin]. by apply Hd.
Qed.
End Add.

(** ** The decay accumulator *)

Lemma u128_small x : 0 <= x <= u128_max → u128 x = x.
Proof. intros H. unfold u128. apply Z.mod_small. unfold u128_max in H. change (2 ^ 128) with 340282366920938463463374607431768211456. lia. Qed.

Lemma value_ex_at_ok a ordinal window :
  is_u32 (d_last_ordinal a) → is_u64 (d_value_ex a) → is_u32 ordinal → is_u32 window → 0 < window →
  value_ex_at a ordinal window = Ok (decayed (d_value_ex a) (d_last_ordinal a) ordinal window).
Proof.
  intros Hl Hv Ho Hw Hw0. unfold value_ex_at, decayed, mul_ratio128, downgrade_cast_u64. unfold is_u32, is_u64 in *.
  destruct (Z.ltb_spec (d_last_ordinal a) ordinal) as [Hlt|]; [|done].
  rewrite u64_small by (unfold is_u64; lia). rewrite Z.gtb_ltb.
  destruct (Z.ltb_spec ordinal (d_last_ordinal a + window)) as [Hin|]; [|done].
  rewrite u32_small by (unfold is_u32; lia). rewrite (u128_small (window - _)) by (unfold u128_max; lia).
  cbn [numerator denominator].
  pose proof (decayed_range (d_value_ex a) (d_last_ordinal a) ordinal window ltac:(lia) Hw0) as Hd. unfold decayed in Hd.
  rewrite (proj2 (Z.ltb_lt _ _) Hlt), (proj2 (Z.ltb_lt _ _) Hin) in Hd.
  assert (0 <= d_value_ex a * (window - (ordinal - d_last_ordinal a)) <= u128_max) as Hmul by (unfold u128_max; nia).
  rewrite check_bind. 2: { apply orb_true_iff. right. apply Z.leb_le, div_le_iff; lia. }
  rewrite check_bind by (apply negb_true_iff, Z.eqb_neq; lia). rewrite bind_ok, u128_small by done.
  rewrite check_bind; [done|]. apply andb_true_intro. split; apply Z.leb_le; unfold u64_max; lia.
Qed.

Lemma decay_add_ok a units ordinal window :
  is_u32 (d_last_ordinal a) → is_u64 (d_value_ex a) → is_u64 units → is_u32 ordinal → is_u32 window → 0 < window →
  decay_add a units ordinal window =
  if units <=? max_raw_value
  then Ok (DecayAccumulator (Z.max (d_last_ordinal a) ordinal)
         (Z.min (decayed (d_value_ex a) (d_last_ordinal a) ordinal window + units * rate_limiting_precision) u64_max))
  else Err rate_limiting_state_inconsistent.
Proof.
  intros Hl Hv Hu Ho Hw Hw0. unfold decay_add. destruct (Z.leb_spec units max_raw_value); [|done]. simpl check. rewrite bind_ok.
  pose proof (decayed_range (d_value_ex a) (d_last_ordinal a) ordinal window ltac:(unfold is_u64 in *; lia) Hw0) as Hd.
  rewrite value_ex_at_ok by done. unfold is_u32, is_u64, rate_limiting_precision in *.
  rewrite (u128_small (units * 1000000)) by (unfold u128_max; lia).
  assert ((if d_last_ordinal a <? ordinal then
       v ← Ok (decayed (d_value_ex a) (d_last_ordinal a) ordinal window); Ok (ordinal, v)
     else Ok (d_last_ordinal a, d_value_ex a)) =
     Ok (Z.max (d_last_ordinal a) ordinal, decayed (d_value_ex a) (d_last_ordinal a) ordinal window)) as ->.
  { unfold decayed. destruct (Z.ltb_spec (d_last_ordinal a) ordinal); rewrite ?bind_ok; do 2 f_equal; lia. }
  rewrite bind_ok. rewrite (u128_small (units * 1000000 + _)) by (unfold u128_max; lia).
  unfold downgrade_cast_u64. rewrite check_bind by (apply andb_true_intro; split; apply Z.leb_le; unfold u64_max; lia).
  rewrite bind_ok. do 3 f_equal. lia.
Qed.

(** ** Elastic limits *)

Definition ratio_ok (r : ratio) : Prop := is_u64 (numerator r) ∧ is_u64 (denominator r) ∧ 0 < denominator r.

Record params_ok (p : elastic_limit_parameters) : Prop := {
  po_max : 0 <= el_max p;
  po_mult : 1 <= el_max_multiplier p;
  po_cap : el_max p * el_max_multiplier p <= u64_max;
  po_contract : ratio_ok (contract_rate p) ∧ numerator (contract_rate p) <= denominator (contract_rate p) ∧
                el_max p * el_max_multiplier p * numerator (contract_rate p) <= u64_max;
  po_expand : ratio_ok (expand_rate p) ∧ denominator (expand_rate p) <= numerator (expand_rate p) ∧
              el_max p * el_max_multiplier p * numerator (expand_rate p) <= u64_max }.

Definition within (p : elastic_limit_parameters) (limit : Z) : Prop := el_max p <= limit <= el_max p * el_max_multiplier p.

Lemma mul_ratio_ok v r : 0 <= v → ratio_ok r → v * numerator r <= u64_max →
  mul_ratio v r = Ok (v * numerator r / denominator r).
Proof.
  intros Hv (Hn & Hd & Hd0) Hle. unfold mul_ratio. unfold is_u64 in *.
  rewrite check_bind.
  2: { apply orb_true_iff. destruct (Z.eqb_spec (numerator r) 0) as [|Hne]; [by left|]. right. apply Z.leb_le, div_le_iff; lia. }
  rewrite check_bind by (apply negb_true_iff, Z.eqb_neq; lia). rewrite u64_small; [done|]. unfold is_u64, u64_max in *. nia.
Qed.

(** The limit stays within its bounds, shrinks under congestion and grows otherwise. *)
Lemma update_elastic_limit_ok p limit avg : params_ok p → within p limit →
  ∃ l, update_elastic_limit limit avg p = Ok l ∧ within p l ∧
    (el_target p < avg → l <= limit) ∧ (avg <= el_target p → limit <= l).
Proof.
  intros [Hm Hmu Hcap (Hcr & Hcle & Hcu) (Her & Hele & Heu)] [Hlo Hhi]. unfold update_elastic_limit.
  rewrite Z.gtb_ltb, (u64_small (el_max p * _)) by (unfold is_u64, u64_max in *; nia).
  destruct Hcr as (Hn & Hd & Hd0), Her as (Hn' & Hd' & Hd0'). unfold is_u64 in *.
  destruct (Z.ltb_spec (el_target p) avg) as [Hc|Hc].
  - rewrite mul_ratio_ok by (done || nia). rewrite bind_ok. eexists. split; [done|]. unfold within.
    pose proof (Z.div_le_upper_bound (limit * numerator (contract_rate p)) (denominator (contract_rate p)) limit Hd0 ltac:(nia)). nia.
  - rewrite mul_ratio_ok by (done || nia). rewrite bind_ok. eexists. split; [done|]. unfold within.
    pose proof (Z.div_le_lower_bound (limit * numerator (expand_rate p)) (denominator (expand_rate p)) limit Hd0' ltac:(nia)). nia.
Qed.

(** * Totals *)

(** The sum of the positive limits. *)
Definition sum_pos (f : resource_limits_object → Z) (m : gmap account_name resource_limits_object) : Z :=
  map_fold (λ _ l acc, Z.max 0 (f l) + acc) 0 m.

Lemma sum_pos_insert f (m : gmap account_name resource_limits_object) k l :
  m !! k = None → sum_pos f (<[k := l]> m) = Z.max 0 (f l) + sum_pos f m.
Proof. intros H. unfold sum_pos. rewrite map_fold_insert_L; [done|lia|done]. Qed.

Lemma sum_pos_delete f (m : gmap account_name resource_limits_object) k l :
  m !! k = Some l → sum_pos f m = Z.max 0 (f l) + sum_pos f (delete k m).
Proof. intros H. unfold sum_pos. rewrite (map_fold_delete_L _ _ k l m); [done|lia|done]. Qed.

Lemma sum_pos_replace f (m : gmap account_name resource_limits_object) k l l' :
  m !! k = Some l → sum_pos f (<[k := l']> m) = sum_pos f m - Z.max 0 (f l) + Z.max 0 (f l').
Proof.
  intros H. rewrite (sum_pos_delete f m k l H), <- insert_delete_eq, sum_pos_insert by apply lookup_delete_eq. lia.
Qed.

Lemma sum_pos_nonneg f (m : gmap account_name resource_limits_object) : 0 <= sum_pos f m.
Proof.
  induction m as [|k l m Hm IH] using map_ind; [by vm_compute|]. rewrite sum_pos_insert by done. lia.
Qed.

Lemma update_total_ok f (m : gmap account_name resource_limits_object) k l p rest :
  m !! k = Some l → sum_pos f m + Z.max 0 (f p) + rest <= u64_max → 0 <= rest →
  update_total (sum_pos f m) (f l) (f p) = Ok (sum_pos f (<[k := p]> m)).
Proof.
  intros Hm Hle H0. rewrite (sum_pos_replace f m k l p Hm). unfold update_total, u64_max in *.
  pose proof (sum_pos_delete f m k l Hm) as Hd. pose proof (sum_pos_nonneg f (delete k m)).
  destruct (Z.ltb_spec 0 (f l)); destruct (Z.ltb_spec 0 (f p));
    rewrite ?check_bind by (apply Z.leb_le; lia); rewrite ?u64_small by (unfold is_u64; lia); rewrite ?bind_ok;
    rewrite ?check_bind by (apply Z.leb_le; lia); rewrite ?u64_small by (unfold is_u64; lia); f_equal; lia.
Qed.

(** The totals are those of the current rows, and every pending row has a current one. *)
Record totals_inv (d : resource_db) : Prop := {
  ti_ram : total_ram_bytes (rl_state d) = sum_pos ram_bytes (rl_limits d);
  ti_cpu : total_cpu_weight (rl_state d) = sum_pos cpu_weight (rl_limits d);
  ti_net : total_net_weight (rl_state d) = sum_pos net_weight (rl_limits d);
  ti_pending : ∀ k, is_Some (rl_pending d !! k) → is_Some (rl_limits d !! k) }.

Definition room (d : resource_db) : Prop :=
  ∀ f, f = ram_bytes ∨ f = cpu_weight ∨ f = net_weight → sum_pos f (rl_limits d) + sum_pos f (rl_pending d) <= u64_max.

Lemma process_pending_ok owners : ∀ d, totals_inv d → room d → NoDup owners →
  (∀ k, k ∈ owners ↔ is_Some (rl_pending d !! k)) →
  ∃ d', process_pending d owners = Ok d' ∧ totals_inv d' ∧ rl_pending d' = ∅ ∧
    rl_limits d' = rl_pending d ∪ rl_limits d ∧ rl_usage d' = rl_usage d ∧ rl_config d' = rl_config d.
Proof.
  induction owners as [|a owners IH]; intros d Hi Hroom Hnd Hown; cbn [process_pending].
  { assert (rl_pending d = ∅) as He.
    { apply map_empty. intros k. apply eq_None_not_Some. intros H. apply Hown in H. by apply not_elem_of_nil in H. }
    exists d. rewrite He. split_and!; [done..|by rewrite (left_id_L ∅ (∪))|done|done]. }
  apply NoDup_cons in Hnd as [Ha Hnd]. destruct (proj1 (Hown a)) as [p Hp]; [by left|].
  destruct (ti_pending _ Hi a) as [l Hl]; [eauto|]. unfold db_get. rewrite Hp, Hl, !bind_ok.
  assert (∀ f, f = ram_bytes ∨ f = cpu_weight ∨ f = net_weight →
    update_total (sum_pos f (rl_limits d)) (f l) (f p) = Ok (sum_pos f (<[a := p]> (rl_limits d))) ∧
    sum_pos f (<[a := p]> (rl_limits d)) + sum_pos f (delete a (rl_pending d)) <= u64_max) as Hupd.
  { intros f Hf. pose proof (Hroom f Hf) as Hr. pose proof (sum_pos_delete f (rl_pending d) a p Hp) as Hd.
    pose proof (sum_pos_nonneg f (delete a (rl_pending d))). split.
    - apply (update_total_ok _ _ _ _ _ (sum_pos f (delete a (rl_pending d)))); [done|lia|done].
    - rewrite (sum_pos_replace f _ a l p Hl). lia. }
  rewrite (ti_ram _ Hi), (ti_cpu _ Hi), (ti_net _ Hi).
  rewrite (proj1 (Hupd ram_bytes ltac:(auto))), bind_ok, (proj1 (Hupd cpu_weight ltac:(auto))), bind_ok, (proj1 (Hupd net_weight ltac:(auto))), bind_ok.
  match goal with |- context [process_pending ?x owners] => destruct (IH x) as (d' & -> & Hi' & He' & Hl' & Hu' & Hc') end.
  - split; simpl; [done..|]. intros k Hk. destruct (decide (k = a)) as [->|Hne]; [rewrite lookup_insert_eq; eauto|].
    rewrite lookup_delete_ne in Hk by done. rewrite lookup_insert_ne by done. by apply (ti_pending _ Hi).
  - intros f Hf. apply Hupd. done.
  - done.
  - simpl. intros k. destruct (decide (k = a)) as [->|Hne].
    + rewrite lookup_delete_eq. split; [done|by intros []].
    + rewrite lookup_delete_ne by done. rewrite <- Hown, elem_of_cons. split; [by right|by intros [?|?]].
  - simpl in *. exists d'. split_and!; [done..| |done|done]. rewrite Hl'. apply map_eq. intros k.
    destruct (decide (k = a)) as [->|Hne].
    + rewrite (lookup_union_Some_l _ _ _ _ Hp), lookup_union_r, lookup_insert_eq by apply lookup_delete_eq. done.
    + by rewrite !lookup_union, lookup_delete_ne, lookup_insert_ne by done.
Qed.

Lemma pending_owners_spec d : NoDup (pending_owners d) ∧ ∀ k, k ∈ pending_owners d ↔ is_Some (rl_pending d !! k).
Proof.
  unfold pending_owners. split.
  - rewrite merge_sort_Permutation. apply NoDup_fst_map_to_list.
  - intros k. rewrite merge_sort_Permutation, list_elem_of_fmap. split.
    + intros ([k' l] & -> & H%elem_of_map_to_list). eauto.
    + intros [l H%elem_of_map_to_list]. by exists (k, l).
Qed.

(** * Billing *)

(** What the checks on one resource of an account say. *)
Definition usage_allowed (v window virtual_limit weight total : Z) : Prop :=
  0 <= weight → 0 < total →
  u128 (v * window) / rate_limiting_precision <= max_user_use_in_window window virtual_limit weight total.

Lemma check_account_usage_inv v window virtual_limit weight total e u :
  check_account_usage v window virtual_limit weight total e = Ok u → usage_allowed v window virtual_limit weight total.
Proof.
  unfold check_account_usage, usage_allowed. intros H Hw Ht.
  rewrite (proj2 (Z.leb_le 0 weight) Hw), (proj2 (Z.ltb_lt 0 total) Ht) in H. by apply check_inv, Z.leb_le in H.
Qed.

Definition account_within (d : resource_db) (l : resource_limits_object) (u : resource_usage_object) : Prop :=
  let s := rl_state d in
  usage_allowed (value_ex (cpu_usage u)) (account_cpu_usage_average_window (rl_config d)) (virtual_cpu_limit s) (cpu_weight l) (total_cpu_weight s) ∧
  usage_allowed (value_ex (net_usage u)) (account_net_usage_average_window (rl_config d)) (virtual_net_limit s) (net_weight l) (total_net_weight s).

Lemma bill_accounts_inv accounts cpu net slot : NoDup accounts → ∀ d d', bill_accounts d accounts cpu net slot = Ok d' →
  d' = with_usage d (rl_usage d') ∧ (∀ a, a ∉ accounts → rl_usage d' !! a = rl_usage d !! a) ∧
  ∀ a, a ∈ accounts → ∃ u0 u l, rl_usage d !! a = Some u0 ∧ bill_account (rl_config d) u0 cpu net slot = Ok u ∧
    rl_usage d' !! a = Some u ∧ get_account_limits d a = Ok l ∧ account_within d l u.
Proof.
  induction accounts as [|a accounts IH]; intros Hnd d d' H; cbn [bill_accounts] in H.
  { simplify_eq. split_and!; [by destruct d'|done|by intros ? ?%not_elem_of_nil]. }
  apply NoDup_cons in Hnd as [Ha Hnd]. inv_ok H. rename a0 into u0, Ha0 into Hu0. inv_ok H. rename a0 into l, Ha0 into Hl.
  inv_ok H. rename a0 into u, Ha0 into Hu. inv_ok H. rename Ha0 into Hc. inv_ok H. rename Ha0 into Hn.
  apply check_account_usage_inv in Hc, Hn. unfold db_get in Hu0. destruct (rl_usage d !! a) eqn:E; [|done]. simplify_eq.
  apply IH in H as (Hd & Hout & Hin); [|done]. split_and!.
  - rewrite Hd. done.
  - intros b Hb. apply not_elem_of_cons in Hb as [Hne Hb]. rewrite Hout by done. simpl. by rewrite lookup_insert_ne.
  - intros b [->|Hb]%elem_of_cons.
    + exists u0, u, l. rewrite Hout by done. simpl. rewrite lookup_insert_eq. done.
    + destruct (Hin b Hb) as (u1 & u2 & l2 & H1 & H2 & H3 & H4 & H5). exists u1, u2, l2.
      simpl in H1. rewrite lookup_insert_ne in H1 by (intros ->; done). done.
Qed.

(** * Theorems *)

(** Adding usage to a moving average is exact. It succeeds exactly when the
    usage is representable and time does not go backwards, the 64-bit sums then
    never wrap, and the result is the decayed value plus the new contribution. *)
Theorem accumulator_add_exact a units ordinal window :
  acc_ok a → is_u64 units → is_u32 ordinal → is_u32 window → 0 < window →
  (add_pre a units ordinal window →
     accumulator_add a units ordinal window = Ok (add_spec a units ordinal window) ∧ acc_ok (add_spec a units ordinal window)) ∧
  (¬ add_pre a units ordinal window → ∃ e, accumulator_add a units ordinal window = Err e).
Proof. intros Ha Hu Ho Hw Hw0. split; intros H; [by apply add_ok|by apply add_err]. Qed.

(** The decay accumulator never fails on representable usage: it decays
    linearly to the new ordinal, adds, and saturates at the largest value. *)
Theorem decay_add_saturates a units ordinal window :
  is_u32 (d_last_ordinal a) → is_u64 (d_value_ex a) → is_u64 units → is_u32 ordinal → is_u32 window → 0 < window →
  units <= max_raw_value →
  decay_add a units ordinal window =
    Ok (DecayAccumulator (Z.max (d_last_ordinal a) ordinal)
         (Z.min (decayed (d_value_ex a) (d_last_ordinal a) ordinal window + units * rate_limiting_precision) u64_max)) ∧
  value_ex_at a ordinal window = Ok (decayed (d_value_ex a) (d_last_ordinal a) ordinal window) ∧
  decayed (d_value_ex a) (d_last_ordinal a) ordinal window <= d_value_ex a.
Proof.
  intros Hl Hv Hu Ho Hw Hw0 Hm. rewrite decay_add_ok, value_ex_at_ok by done. rewrite (proj2 (Z.leb_le _ _) Hm).
  split; [done|]. split; [done|]. apply decayed_range; [unfold is_u64 in *; lia|done].
Qed.

(** At the end of a block the pending usage enters the averages, is reset,
    and the virtual limits stay between the block maximum and its multiple,
    shrinking when the average is above the target and growing otherwise. *)
Theorem process_block_usage_correct d n :
  let s := rl_state d in
  let pc := cpu_limit_parameters (rl_config d) in
  let pn := net_limit_parameters (rl_config d) in
  params_ok pc → params_ok pn → within pc (virtual_cpu_limit s) → within pn (virtual_net_limit s) →
  is_u32 n → is_u32 (el_periods pc) → 0 < el_periods pc → is_u32 (el_periods pn) → 0 < el_periods pn →
  acc_ok (average_block_cpu_usage s) → acc_ok (average_block_net_usage s) →
  is_u64 (pending_cpu_usage s) → is_u64 (pending_net_usage s) →
  add_pre (average_block_cpu_usage s) (pending_cpu_usage s) n (el_periods pc) →
  add_pre (average_block_net_usage s) (pending_net_usage s) n (el_periods pn) →
  ∃ d', process_block_usage d n = Ok d' ∧ pending_cpu_usage (rl_state d') = 0 ∧ pending_net_usage (rl_state d') = 0 ∧
    within pc (virtual_cpu_limit (rl_state d')) ∧ within pn (virtual_net_limit (rl_state d')) ∧
    (let avg := average (average_block_cpu_usage (rl_state d')) in
     (el_target pc < avg → virtual_cpu_limit (rl_state d') <= virtual_cpu_limit s) ∧
     (avg <= el_target pc → virtual_cpu_limit s <= virtual_cpu_limit (rl_state d'))) ∧
    (let avg := average (average_block_net_usage (rl_state d')) in
     (el_target pn < avg → virtual_net_limit (rl_state d') <= virtual_net_limit s) ∧
     (avg <= el_target pn → virtual_net_limit s <= virtual_net_limit (rl_state d'))).
Proof.
  intros s pc pn Hpc Hpn Hwc Hwn Hn Huc Hc0 Hun Hn0 Hac Han Hcu Hnu Hprec Hpren.
  unfold process_block_usage, update_virtual_cpu_limit, update_virtual_net_limit. fold s pc pn.
  rewrite (proj1 (add_ok _ Hac _ _ _ Hcu Hn Huc Hc0 Hprec)), bind_ok. cbn [with_average_cpu virtual_cpu_limit average_block_cpu_usage].
  destruct (update_elastic_limit_ok pc (virtual_cpu_limit s)
    (average (add_spec (average_block_cpu_usage s) (pending_cpu_usage s) n (el_periods pc))) Hpc Hwc) as (vc & -> & Hvc & Hc1 & Hc2).
  rewrite bind_ok, (proj1 (add_ok _ Han _ _ _ Hnu Hn Hun Hn0 Hpren)), bind_ok. cbn [with_average_net virtual_net_limit average_block_net_usage].
  destruct (update_elastic_limit_ok pn (virtual_net_limit s)
    (average (add_spec (average_block_net_usage s) (pending_net_usage s) n (el_periods pn))) Hpn Hwn) as (vn & -> & Hvn & Hn1 & Hn2).
  rewrite bind_ok. eexists. split; [done|]. simpl. split_and!; done.
Qed.

(** Applying the pending limits never underflows a total: when the sums fit,
    it succeeds, every pending row replaces the current one and is gone, and the
    totals are again the sums of the positive limits. *)
Theorem limit_updates_keep_totals d :
  totals_inv d → room d →
  ∃ d', process_account_limit_updates d = Ok d' ∧ totals_inv d' ∧ rl_pending d' = ∅ ∧
    rl_limits d' = rl_pending d ∪ rl_limits d ∧
    ∀ a, get_account_limits d' a = get_account_limits d a.
Proof.
  intros Hi Hr. destruct (pending_owners_spec d) as [Hnd Hown].
  destruct (process_pending_ok (pending_owners d) d Hi Hr Hnd Hown) as (d' & Hd & Hi' & He & Hl & _).
  exists d'. split_and!; [done..|]. intros a. unfold get_account_limits, db_get. rewrite He, lookup_empty, Hl.
  destruct (rl_pending d !! a) as [l|] eqn:E; [by rewrite (lookup_union_Some_l _ _ _ _ E)|].
  by rewrite lookup_union_r.
Qed.

(** A transaction that is billed successfully leaves every account it bills
    within its share of the virtual limits, changes no other account, and keeps
    the block within its limits, so that the room left in the block is exact. *)
Theorem billed_transaction_within_limits d accounts cpu net slot d' :
  NoDup accounts → 0 <= cpu <= max_raw_value → 0 <= net <= max_raw_value →
  0 <= pending_cpu_usage (rl_state d) → 0 <= pending_net_usage (rl_state d) →
  pending_cpu_usage (rl_state d) + max_raw_value <= u64_max → pending_net_usage (rl_state d) + max_raw_value <= u64_max →
  is_u64 (el_max (cpu_limit_parameters (rl_config d))) → is_u64 (el_max (net_limit_parameters (rl_config d))) →
  add_transaction_usage d accounts cpu net slot = Ok d' →
  (∀ a, a ∈ accounts → ∃ u l, rl_usage d' !! a = Some u ∧ get_account_limits d a = Ok l ∧ account_within d l u) ∧
  (∀ a, a ∉ accounts → rl_usage d' !! a = rl_usage d !! a) ∧
  get_block_cpu_limit d' = el_max (cpu_limit_parameters (rl_config d)) - pending_cpu_usage (rl_state d) - cpu ∧
  get_block_net_limit d' = el_max (net_limit_parameters (rl_config d)) - pending_net_usage (rl_state d) - net ∧
  0 <= get_block_cpu_limit d' ∧ 0 <= get_block_net_limit d'.
Proof.
  intros Hnd Hcpu Hnet Hpc Hpn Hmc Hmn Hec Hen H. unfold add_transaction_usage in H. inv_ok H.
  apply bill_accounts_inv in Ha as (Hd & Hout & Hin); [|done]. rewrite Hd in H. simpl in H.
  unfold is_u64, u64_max in *. rewrite !u64_small in H by (unfold is_u64; lia).
  inv_ok H. apply check_inv, Z.leb_le in Ha. inv_ok H. apply check_inv, Z.leb_le in Ha0. simplify_eq. simpl.
  split_and!; [|done|..].
  - intros b Hb. destruct (Hin b Hb) as (u0 & u & l & _ & _ & H3 & H4 & H5). exists u, l. done.
  - unfold get_block_cpu_limit. simpl. rewrite u64_small by (unfold is_u64; lia). lia.
  - unfold get_block_net_limit. simpl. rewrite u64_small by (unfold is_u64; lia). lia.
  - unfold get_block_cpu_limit. simpl. rewrite u64_small by (unfold is_u64; lia). lia.
  - unfold get_block_net_limit. simpl. rewrite u64_small by (unfold is_u64; lia). lia.
Qed.

(** RAM accounting is exact: a change is applied exactly when the usage stays
    within 64 bits, and is refused with [transaction_exception] otherwise. *)
Theorem ram_usage_exact d account u delta :
  rl_usage d !! account = Some u → is_u64 (ram_usage u) → is_i64 delta →
  let r := add_pending_ram_usage d account delta in
  (is_u64 (ram_usage u + delta) → ∃ d', r = Ok d' ∧
     ∃ u', rl_usage d' !! account = Some u' ∧ ram_usage u' = ram_usage u + delta ∧ net_usage u' = net_usage u ∧ cpu_usage u' = cpu_usage u) ∧
  (¬ is_u64 (ram_usage u + delta) → r = Err transaction_exception).
Proof.
  intros Hu Hr Hdelta. unfold add_pending_ram_usage, db_get. rewrite Hu. unfold is_u64, is_i64 in *.
  destruct (Z.eqb_spec delta 0) as [->|Hne].
  { split; [|lia]. intros _. exists d. split; [done|]. exists u. split_and!; [done|lia|done|done]. }
  cbv zeta. rewrite bind_ok. destruct (Z_lt_le_dec delta 0) as [Hneg|Hpos].
  - rewrite check_bind by (apply orb_true_iff; left; apply Z.leb_le; lia).
    rewrite (proj2 (Z.leb_gt 0 delta)), orb_false_l, (u64_small (- delta)) by (unfold is_u64; lia).
    split; intros Hs; destruct (Z.leb_spec (- delta) (ram_usage u)); try lia; simpl check; [|done].
    rewrite bind_ok. eexists. split; [done|]. simpl. rewrite lookup_insert_eq. eexists. split; [done|]. simpl.
    rewrite u64_small by done. done.
  - rewrite (proj2 (Z.leb_gt delta 0)), orb_false_l, (u64_small delta) by (unfold is_u64; lia). unfold u64_max in *.
    split; intros Hs; destruct (Z.leb_spec delta (18446744073709551615 - ram_usage u)); try lia; simpl check; [|done].
    rewrite bind_ok, check_bind by (apply orb_true_iff; left; apply Z.leb_le; lia).
    eexists. split; [done|]. simpl. rewrite lookup_insert_eq. eexists. split; [done|]. simpl.
    rewrite u64_small by done. done.
Qed.

(** * A concrete database *)

Module ResourceExample.
(** Two accounts; the first has limits, the second asks for limits. *)
Definition db1 : resource_db :=
  let c := resource_limits_config_default in
  ResourceDb {[ 1 := ResourceLimitsObject 100 5 5000; 2 := unlimited ]} {[ 2 := ResourceLimitsObject 7 (-1) 300 ]}
    {[ 1 := ResourceUsageObject accumulator_default accumulator_default 40;
       2 := ResourceUsageObject accumulator_default accumulator_default 0 ]}
    c (ResourceLimitsState (UsageAccumulator 9 5000000 3) (UsageAccumulator 9 7000000 4) 600 900 100 5 5000
       (el_max (net_limit_parameters c)) (el_max (cpu_limit_parameters c))).

Lemma accumulator_add_exact_witness :
  let a := UsageAccumulator 9 5000000 3 in accumulator_add a 20 12 10 = Ok (add_spec a 20 12 10).
Proof. apply (accumulator_add_exact (UsageAccumulator 9 5000000 3) 20 12 10); vm_compute; done. Defined.

Lemma decay_add_saturates_witness :
  decay_add (DecayAccumulator 9 5000000) 20 12 10 =
    Ok (DecayAccumulator 12 (Z.min (decayed 5000000 9 12 10 + 20 * rate_limiting_precision) u64_max)).
Proof. apply (decay_add_saturates (DecayAccumulator 9 5000000) 20 12 10); vm_compute; done. Defined.

Ltac closed := vm_compute; repeat split; intros; discriminate || reflexivity.

Lemma process_block_usage_correct_witness :
  ∃ d', process_block_usage db1 10 = Ok d' ∧ pending_cpu_usage (rl_state d') = 0.
Proof.
  destruct (process_block_usage_correct db1 10) as (d' & H & Hc & _); [closed..|].
  exists d'. exact (conj H Hc).
Defined.

Lemma limit_updates_keep_totals_witness :
  ∃ d', process_account_limit_updates db1 = Ok d' ∧ totals_inv d' ∧ rl_pending d' = ∅.
Proof.
  destruct (limit_updates_keep_totals db1) as (d' & H & Hi & He & _).
  - split; try (vm_compute; done). intros k [l Hl]. simpl in Hl. apply lookup_singleton_Some in Hl as [<- _].
    by eexists.
  - intros f [->|[->| ->]]; vm_compute; done.
  - exists d'. exact (conj H (conj Hi He)).
Defined.

Lemma ram_usage_exact_witness :
  (∃ d', add_pending_ram_usage db1 1 (-40) = Ok d') ∧ add_pending_ram_usage db1 1 (-41) = Err transaction_exception.
Proof.
  assert (rl_usage db1 !! 1 = Some (ResourceUsageObject accumulator_default accumulator_default 40)) as Hu by done.
  split.
  - destruct (proj1 (ram_usage_exact db1 1 _ (-40) Hu ltac:(vm_compute; done) ltac:(vm_compute; done))) as (d' & H & _);
      [vm_compute; done|by exists d'].
  - apply (proj2 (ram_usage_exact db1 1 _ (-41) Hu ltac:(vm_compute; done) ltac:(vm_compute; done))). vm_compute. intuition congruence.
Defined.

Lemma billed_ok : ∃ d', add_transaction_usage db1 [1; 2] 150 90 3600 = Ok d'.
Proof.
  apply (returns_ok _ (λ _, True)). vm_compute. done.
Qed.

Lemma billed_transaction_within_limits_witness :
  ∃ d', add_transaction_usage db1 [1; 2] 150 90 3600 = Ok d' ∧ 0 <= get_block_cpu_limit d'.
Proof.
  destruct billed_ok as [d' Hd]. exists d'. split; [exact Hd|].
  assert (NoDup [1; 2]) as Hnd by (apply (bool_decide_unpack _); vm_compute; done).
  destruct (billed_transaction_within_limits db1 [1; 2] 150 90 3600 d' Hnd) as (_ & _ & _ & _ & H & _);
    [closed..|exact Hd|exact H].
Defined.
End ResourceExample.
