(* ===== verification/Names.v ===== *)
(** * Names ([name.hpp], [name.cpp])

    An account, permission or action name is 64 bits: twelve characters of five bits
    from the top and a thirteenth of four. A name is modelled by its value, a
    [std::string] by the list of the codes of its characters. *)

From S2P Require Import Prelude.
Open Scope Z_scope.

Abbreviation std_string := (list Z) (only parsing).

(** The characters of a literal. *)
Definition chars (s : string) : std_string :=
  (λ c, Z.of_N (Ascii.N_of_ascii c)) <$> String.list_ascii_of_string s.

Definition dot : Z := 46.

Definition char_to_symbol (c : Z) : Z :=
  if (97 <=? c) && (c <=? 122) then (c - 97) + 6
  else if (49 <=? c) && (c <=? 53) then (c - 49) + 1
  else 0.

(** The loop of [string_to_uint64_t] from index [i], with the thirteenth
    character after it. *)
Fixpoint encode_chars (str : std_string) (i n : Z) : Z :=
  match str with
  | [] => n
  | c :: str =>
    if i <? 12 then
      encode_chars str (i + 1) (Z.lor n (u64 (Z.shiftl (Z.land (char_to_symbol c) 31) (64 - 5 * (i + 1)))))
    else if i =? 12 then Z.lor n (Z.land (char_to_symbol c) 15)
    else n
  end.

Definition string_to_uint64_t (str : std_string) : Z := encode_chars str 0 0.

(** [operator""_n]. *)
Definition name_of (s : string) : Z := string_to_uint64_t (chars s).

Definition charmap : std_string := chars ".12345abcdefghijklmnopqrstuvwxyz".

Definition char_of (d : Z) : Z := default 0 (charmap !! Z.to_nat d).

(** The [k] last iterations of the loop of [to_string], from iteration [i]:
    the string is filled from its end. *)
Fixpoint to_string_loop (k : nat) (i tmp : Z) (str : std_string) : std_string :=
  match k with
  | O => str
  | S k =>
    let c := char_of (Z.land tmp (if i =? 0 then 15 else 31)) in
    to_string_loop k (i + 1) (Z.shiftr tmp (if i =? 0 then 4 else 5)) (c :: str)
  end.

(** [boost::algorithm::trim_right_if]. *)
Fixpoint trim_right_if (p : Z → bool) (str : std_string) : std_string :=
  match str with
  | [] => []
  | c :: str =>
    match trim_right_if p str with
    | [] => if p c then [] else [c]
    | str' => c :: str'
    end
  end.

Definition to_string (value : Z) : std_string :=
  trim_right_if (λ c, c =? dot) (to_string_loop 13 0 value []).

(** [name::set], the constructor from a string. *)
Definition name_set (str : std_string) : result Z :=
  check (Z.of_nat (length str) <=? 13) name_type_exception;;
  let value := string_to_uint64_t str in
  check (bool_decide (to_string value = str)) name_type_exception;;
  Ok value.

Definition name_empty (n : Z) : bool := n =? 0.

(** [str.find( prefix ) == 0]. *)
Definition starts_with (prefix str : std_string) : bool := bool_decide (take (length prefix) str = prefix).

(** ** The strings that name something *)

(** What a well-formed name looks like: at most thirteen characters of the
    alphabet, no dot at the end, and only the first sixteen symbols in the last place. *)
Definition normal_name (str : std_string) : Prop :=
  (length str <= 13)%nat ∧ Forall (λ c, c ∈ charmap) str ∧ last str ≠ Some dot ∧
  (∀ c, str !! 12%nat = Some c → char_to_symbol c < 16).

(** ** The value of a string as a number in base 32 *)

Fixpoint base32 (k : nat) (q : Z) (str : std_string) : Z :=
  match k, str with
  | O, [] => q * 16
  | O, c :: _ => q * 16 + Z.land (char_to_symbol c) 15
  | S k, [] => base32 k (q * 32) []
  | S k, c :: str => base32 k (q * 32 + char_to_symbol c) str
  end.

Lemma char_to_symbol_range c : 0 <= char_to_symbol c < 32.
Proof.
  unfold char_to_symbol. repeat case_match; breflect; repeat match goal with H : _ ∧ _ |- _ => destruct H end; lia.
Qed.

Lemma charmap_symbols :
  Forall (λ d, char_to_symbol (char_of (Z.of_nat d)) = Z.of_nat d) (seq 0 32) ∧
  Forall (λ c, char_of (char_to_symbol c) = c) charmap.
Proof.
  split; repeat first [apply Forall_nil_2 | apply Forall_cons_2; [vm_compute; reflexivity|]].
Qed.

Lemma char_of_symbol c : c ∈ charmap → char_of (char_to_symbol c) = c.
Proof. intros Hc. destruct charmap_symbols as [_ Hall]. by apply (proj1 (Forall_forall _ _) Hall). Qed.

Lemma symbol_of_char d : 0 <= d < 32 → char_to_symbol (char_of d) = d.
Proof.
  intros Hd. destruct charmap_symbols as [Hall _].
  rewrite <- (Z2Nat.id d) by lia. apply (proj1 (Forall_forall _ _) Hall).
  apply elem_of_seq. lia.
Qed.

Lemma land_31 x : Z.land x 31 = x mod 32.
Proof. apply (Z.land_ones x 5). lia. Qed.

Lemma land_15 x : Z.land x 15 = x mod 16.
Proof. apply (Z.land_ones x 4). lia. Qed.

(** Bits appended below a multiple of a power of two. *)
Lemma lor_append q d k m : 0 <= m → 0 <= k → 0 <= d < 2 ^ k → 
  Z.lor (q * 2 ^ (m + k)) (d * 2 ^ m) = (q * 2 ^ k + d) * 2 ^ m.
Proof.
  intros Hm Hk Hd. rewrite <- !Z.shiftl_mul_pow2 by lia.
  apply Z.bits_inj'. intros i Hi. rewrite Z.lor_spec, !Z.shiftl_spec by lia.
  destruct (decide (i < m)) as [Hlt|Hge].
  { rewrite !Z.testbit_neg_r by lia. done. }
  assert (Hand : Z.land (Z.shiftl q k) d = 0).
  { apply Z.bits_inj'. intros j Hj. rewrite Z.land_spec, Z.shiftl_spec, Z.bits_0 by lia.
    destruct (decide (j < k)); [by rewrite Z.testbit_neg_r by lia|].
    destruct (decide (d = 0)) as [-> |]; [by rewrite Z.bits_0, andb_false_r|].
    assert (Z.log2 d < k) by (apply Z.log2_lt_pow2; lia).
    rewrite (Z.bits_above_log2 d) by lia.
    apply andb_false_r. }
  rewrite (Z.add_nocarry_lxor (Z.shiftl q k) d), Z.lxor_lor by done.
  rewrite Z.lor_spec, (Z.shiftl_spec q k) by lia.
  by replace (i - m - k) with (i - (m + k)) by lia.
Qed.

Lemma symbol_land c : Z.land (char_to_symbol c) 31 = char_to_symbol c.
Proof. rewrite land_31, Z.mod_small; [done|apply char_to_symbol_range]. Qed.

Lemma encode_nil k q i : encode_chars [] i (q * 2 ^ (4 + 5 * Z.of_nat k)) = base32 k q [].
Proof.
  revert q i. induction k as [|k IH]; intros q i; cbn [encode_chars base32] in *; [done|].
  rewrite <- (IH (q * 32) i). change 32 with (2 ^ 5).
  rewrite <- Z.mul_assoc, <- Z.pow_add_r by lia. do 2 f_equal. lia.
Qed.

Lemma encode_base32 str : ∀ k q, (k <= 12)%nat →
  encode_chars str (12 - Z.of_nat k) (q * 2 ^ (4 + 5 * Z.of_nat k)) = base32 k q str.
Proof.
  induction str as [|c str IH]; intros k q Hk; [apply encode_nil|].
  pose proof (char_to_symbol_range c). destruct k as [|k]; cbn [encode_chars].
  - change (12 - Z.of_nat 0) with 12. cbn [base32 Z.ltb Z.eqb Z.compare Pos.compare Pos.compare_cont Pos.eqb].
    change (4 + 5 * Z.of_nat 0) with (0 + 4).
    rewrite <- (Z.mul_1_r (Z.land _ 15)), <- (Z.pow_0_r 2) at 1.
    rewrite (lor_append q _ 4 0), Z.pow_0_r; [change (2 ^ 4) with 16; lia|lia|lia|].
    rewrite land_15. apply Z.mod_pos_bound. lia.
  - rewrite (proj2 (Z.ltb_lt _ _)) by lia. rewrite symbol_land, Z.shiftl_mul_pow2 by lia.
    replace (64 - 5 * (12 - Z.of_nat (S k) + 1)) with (4 + 5 * Z.of_nat k) by lia.
    rewrite u64_small.
    2: { split; [apply Z.mul_nonneg_nonneg; [lia|apply Z.pow_nonneg; lia]|].
      apply Z.lt_le_trans with (32 * 2 ^ (4 + 5 * Z.of_nat k)); [apply Z.mul_lt_mono_pos_r; [apply Z.pow_pos_nonneg|]; lia|].
      change 32 with (2 ^ 5). rewrite <- Z.pow_add_r by lia. apply (Z.pow_le_mono_r 2 _ 64); lia. }
    replace (4 + 5 * Z.of_nat (S k)) with (4 + 5 * Z.of_nat k + 5) by lia.
    rewrite lor_append by (simpl; lia). cbn [base32]. rewrite <- IH by lia. f_equal; lia.
Qed.

Lemma string_to_base32 str : string_to_uint64_t str = base32 12 0 str.
Proof. unfold string_to_uint64_t. rewrite <- encode_base32 by lia. done. Qed.

Lemma base32_range k : ∀ q str, 0 <= q → q * 2 ^ (4 + 5 * Z.of_nat k) <= base32 k q str < (q + 1) * 2 ^ (4 + 5 * Z.of_nat k).
Proof.
  induction k as [|k IH]; intros q str Hq.
  - change (2 ^ (4 + 5 * Z.of_nat 0)) with 16. destruct str as [|c str]; cbn [base32]; [lia|].
    rewrite land_15. pose proof (Z.mod_pos_bound (char_to_symbol c) 16). lia.
  - replace (2 ^ (4 + 5 * Z.of_nat (S k))) with (32 * 2 ^ (4 + 5 * Z.of_nat k))
      by (change 32 with (2 ^ 5); rewrite <- Z.pow_add_r by lia; f_equal; lia).
    assert (0 < 2 ^ (4 + 5 * Z.of_nat k)) by (apply Z.pow_pos_nonneg; lia).
    destruct str as [|c str]; cbn [base32];
      [specialize (IH (q * 32) [])|pose proof (char_to_symbol_range c); specialize (IH (q * 32 + char_to_symbol c) str)];
      nia.
Qed.

Lemma string_to_uint64_range str : is_u64 (string_to_uint64_t str).
Proof. rewrite string_to_base32. pose proof (base32_range 12 0 str). unfold is_u64. simpl in *. lia. Qed.

(** Dots at the end do not count. *)
Lemma base32_dots n k : ∀ q str, base32 k q (str ++ replicate n dot) = base32 k q str.
Proof.
  assert (Hnil : ∀ k n q, base32 k q (replicate n dot) = base32 k q []).
  { clear. intros k. induction k as [|k IH]; intros [|n] q; cbn [base32 replicate]; try done.
    - change (Z.land (char_to_symbol dot) 15) with 0. lia.
    - rewrite IH. f_equal. change (char_to_symbol dot) with 0. lia. }
  induction k as [|k IH]; intros q [|c str]; cbn [app base32]; try done; [apply (Hnil 0%nat)|apply (Hnil (S k))].
Qed.

Lemma trim_right_dots str : ∃ n, str = trim_right_if (λ c, c =? dot) str ++ replicate n dot.
Proof.
  induction str as [|c str [n IH]]; [by exists 0%nat|]. cbn [trim_right_if].
  destruct (trim_right_if _ str) as [|c' str'] eqn:E.
  - destruct (Z.eqb_spec c dot) as [-> |]; [exists (S n)|exists n]; simpl in *; by rewrite IH.
  - exists n. simpl in *. by rewrite IH.
Qed.

Lemma trim_right_app str n : last str ≠ Some dot →
  trim_right_if (λ c, c =? dot) (str ++ replicate n dot) = str.
Proof.
  induction str as [|c str IH]; intros Hl.
  - clear. induction n as [|n IH]; [done|]. cbn [replicate app trim_right_if] in *. by rewrite IH.
  - cbn [app trim_right_if]. destruct str as [|c' str].
    + assert (trim_right_if (λ c, c =? dot) ([] ++ replicate n dot) = []) as ->.
      { clear. induction n as [|n IH]; [done|]. cbn [replicate app trim_right_if] in *. by rewrite IH. }
      destruct (Z.eqb_spec c dot) as [-> |]; [by destruct Hl|done].
    + rewrite IH by done. done.
Qed.

(** ** The characters [to_string] writes *)

Fixpoint digits (k : nat) (v : Z) : std_string :=
  match k with O => [] | S k => digits k (v / 32) ++ [char_of (v mod 32)] end.

Lemma to_string_digits k : ∀ i tmp str, 0 < i → to_string_loop k i tmp str = digits k tmp ++ str.
Proof.
  induction k as [|k IH]; intros i tmp str Hi; [done|]. cbn [to_string_loop digits].
  rewrite (proj2 (Z.eqb_neq _ _)) by lia.
  rewrite IH, land_31, Z.shiftr_div_pow2, <- app_assoc by lia. done.
Qed.

Lemma to_string_eq v :
  to_string v = trim_right_if (λ c, c =? dot) (digits 12 (v / 16) ++ [char_of (v mod 16)]).
Proof.
  unfold to_string. f_equal. change 13%nat with (S 12). 
  assert (∀ k tmp str, to_string_loop (S k) 0 tmp str
    = to_string_loop k 1 (Z.shiftr tmp 4) (char_of (Z.land tmp 15) :: str)) as -> by done.
  rewrite to_string_digits, land_15, Z.shiftr_div_pow2 by lia. done.
Qed.

Lemma base32_digits k : ∀ j q v str, 0 <= v < 32 ^ Z.of_nat k →
  base32 (j + k) q (digits k v ++ str) = base32 j (q * 32 ^ Z.of_nat k + v) str.
Proof.
  induction k as [|k IH]; intros j q v str Hv.
  - change (32 ^ Z.of_nat 0) with 1 in *. rewrite Nat.add_0_r. f_equal. lia.
  - rewrite Nat2Z.inj_succ, Z.pow_succ_r in * by lia. cbn [digits]. rewrite <- app_assoc.
    replace (j + S k)%nat with (S j + k)%nat by lia. rewrite IH.
    2: { split; [apply Z.div_pos; lia|apply Z.div_lt_upper_bound; lia]. }
    cbn [base32 app]. rewrite symbol_of_char by (apply Z.mod_pos_bound; lia). f_equal.
    pose proof (Z.div_mod v 32). lia.
Qed.

Lemma string_to_uint64_to_string v : is_u64 v → string_to_uint64_t (to_string v) = v.
Proof.
  intros [Hv1 Hv2]. rewrite string_to_base32, to_string_eq.
  set (l := digits 12 (v / 16) ++ _). destruct (trim_right_dots l) as [n Hn].
  rewrite <- (base32_dots n), <- Hn. unfold l.
  rewrite (base32_digits 12 0).
  2: { split; [apply Z.div_pos; lia|apply Z.div_lt_upper_bound; [lia|]]. simpl. lia. }
  cbn [base32]. rewrite symbol_of_char, land_15, Zmod_mod.
  - pose proof (Z.div_mod v 16). lia.
  - pose proof (Z.mod_pos_bound v 16). lia.
Qed.

Lemma base32_app str : ∀ j q rest,
  base32 (length str + j) q (str ++ rest) = base32 j (foldl (λ q c, q * 32 + char_to_symbol c) q str) rest.
Proof. induction str as [|c str IH]; intros j q rest; cbn [length app base32 foldl plus]; [done|apply IH]. Qed.

Lemma digits_foldl str : Forall (λ c, c ∈ charmap) str →
  digits (length str) (foldl (λ q c, q * 32 + char_to_symbol c) 0 str) = str.
Proof.
  induction str as [|c str IH] using rev_ind; [done|]. rewrite Forall_app, Forall_singleton. intros [Hs Hc].
  rewrite length_app, Nat.add_comm, foldl_snoc. cbn [length plus digits].
  pose proof (char_to_symbol_range c).
  rewrite Z.div_add_l, Z.div_small, Z.add_0_r by lia.
  rewrite IH, Z.add_comm, Z_mod_plus_full, Z.mod_small, char_of_symbol by done. done.
Qed.

Lemma to_string_normal str : normal_name str → to_string (string_to_uint64_t str) = str.
Proof.
  intros (Hlen & Hchars & Hlast & H13). set (n := (13 - length str)%nat).
  rewrite string_to_base32, <- (base32_dots n).
  assert (Hc : ∃ l c, str ++ replicate n dot = l ++ [c] ∧ length l = 12%nat ∧
    Forall (λ c, c ∈ charmap) (l ++ [c]) ∧ char_to_symbol c < 16).
  { destruct (exists_last (l := str ++ replicate n dot)) as (l & c & E).
    { intros [-> E]%app_eq_nil. apply (f_equal length) in E. rewrite length_replicate in E. unfold n in E. simpl in E. lia. }
    exists l, c. pose proof (f_equal length E) as El. rewrite !length_app, length_replicate in El. simpl in El.
    split; [done|]. split; [lia|]. split.
    - rewrite <- E. apply Forall_app. split; [done|]. apply Forall_replicate. by vm_compute; left.
    - destruct (decide (length str = 13%nat)) as [E13|E13].
      + apply H13.
        assert (n = 0%nat) as En by lia. rewrite En in E. cbn [replicate] in E. rewrite app_nil_r in E.
        rewrite E, lookup_app_r by lia. by replace (12 - length l)%nat with 0%nat by lia.
      + assert (∃ m, n = S m) as [m Em] by (exists (n - 1)%nat; lia).
        rewrite Em, replicate_S_end, app_assoc in E. apply app_inj_tail in E as [_ <-]. done. }
  destruct Hc as (l & c & E & Hl & Hall & Hsym). rewrite E.
  pose proof (base32_app l 0 0 [c]) as Hb. rewrite Hl in Hb. change (12 + 0)%nat with 12%nat in Hb. rewrite Hb.
  cbn [base32]. rewrite Forall_app, Forall_singleton in Hall. destruct Hall as [Hall Hcc].
  pose proof (char_to_symbol_range c).
  rewrite to_string_eq, land_15, (Z.mod_small (char_to_symbol c) 16) by lia.
  rewrite Z.div_add_l, Z.div_small, Z.add_0_r by lia.
  rewrite Z.add_comm, Z_mod_plus_full, Z.mod_small, char_of_symbol by (done || lia).
  rewrite <- Hl, digits_foldl, <- E by done. by apply trim_right_app.
Qed.

Lemma trim_right_last str : last (trim_right_if (λ c, c =? dot) str) ≠ Some dot.
Proof.
  induction str as [|c str IH]; [done|]. cbn [trim_right_if].
  destruct (trim_right_if _ str) as [|c' str'] eqn:E; [|by rewrite last_cons_cons].
  destruct (Z.eqb_spec c dot); [done|]. simpl. congruence.
Qed.

Lemma digits_length k v : length (digits k v) = k.
Proof. revert v. induction k as [|k IH]; intros v; [done|]. cbn [digits]. rewrite length_app, IH. simpl. lia. Qed.

Lemma char_of_in d : 0 <= d < 32 → char_of d ∈ charmap.
Proof.
  intros Hd. unfold char_of. destruct (charmap !! Z.to_nat d) as [c|] eqn:E; [by eapply list_elem_of_lookup_2|].
  apply lookup_ge_None in E. change (length charmap) with 32%nat in E. lia.
Qed.

Lemma digits_chars k v : Forall (λ c, c ∈ charmap) (digits k v).
Proof.
  revert v. induction k as [|k IH]; intros v; cbn [digits]; [done|].
  apply Forall_app. split; [apply IH|]. apply Forall_singleton, char_of_in, Z.mod_pos_bound. lia.
Qed.

Lemma to_string_is_normal v : normal_name (to_string v).
Proof.
  rewrite to_string_eq. set (l := digits 12 (v / 16) ++ [char_of (v mod 16)]).
  destruct (trim_right_dots l) as [n Hn].
  pose proof (Z.mod_pos_bound v 16 ltac:(lia)).
  assert (Hl : length l = 13%nat) by (unfold l; by rewrite length_app, digits_length).
  pose proof (f_equal length Hn) as Hlen. rewrite length_app, length_replicate in Hlen.
  repeat split.
  - lia.
  - assert (Hall : Forall (λ c, c ∈ charmap) l).
    { apply Forall_app. split; [apply digits_chars|]. apply Forall_singleton, char_of_in. lia. }
    rewrite Hn in Hall. by apply Forall_app in Hall as [? _].
  - apply trim_right_last.
  - intros c Hc. assert (l !! 12%nat = Some c) as Hlc by (rewrite Hn; by apply lookup_app_l_Some).
    unfold l in Hlc. rewrite lookup_app_r in Hlc by (rewrite digits_length; lia).
    rewrite digits_length in Hlc. injection Hlc as <-. rewrite symbol_of_char; lia.
Qed.

Lemma name_set_normal str : normal_name str → name_set str = Ok (string_to_uint64_t str).
Proof.
  intros Hs. unfold name_set. destruct Hs as (Hlen & Hs).
  rewrite check_bind by (apply Z.leb_le; lia).
  rewrite check_bind; [done|]. apply bool_decide_eq_true, to_string_normal. by split.
Qed.

(** Names and strings correspond. Every 64-bit value prints as a string
    that the constructor reads back as the value; a string is accepted exactly when it has at
    most thirteen characters of the alphabet, does not end in a dot and ends,
    if it has thirteen, in one of the first sixteen symbols; an accepted string is the
    one its value prints as. *)
Theorem name_string_roundtrip :
  (∀ v, is_u64 v → name_set (to_string v) = Ok v) ∧
  (∀ str, (∃ v, name_set str = Ok v) ↔ normal_name str) ∧
  (∀ str v, name_set str = Ok v → is_u64 v ∧ to_string v = str).
Proof.
  split_and!.
  - intros v Hv. rewrite name_set_normal by apply to_string_is_normal. by rewrite string_to_uint64_to_string.
  - intros str. split; [|intros Hs; eexists; by apply name_set_normal].
    intros [v H]. apply bind_inv in H as (? & _ & H).
    apply bind_inv in H as (? & <-%check_inv%bool_decide_eq_true & _). apply to_string_is_normal.
  - intros str v H. apply bind_inv in H as (? & _ & H).
    apply bind_inv in H as (? & ?%check_inv%bool_decide_eq_true & [= <-]).
    split; [apply string_to_uint64_range|done].
Qed.
