(* ===== verification/Assets.v ===== *)
(** * Symbols and assets ([symbol.hpp], [symbol.cpp], [asset.hpp], [asset.cpp])

    A symbol is 64 bits: the number of decimals in the low byte, the characters of the name
    above it. [boost::lexical_cast] to a 64-bit integer is a parameter with the
    behaviour its documentation gives. *)

From S2P Require Import Prelude Names.
Open Scope Z_scope.

(** ** Decimal numbers *)

Definition is_digit (c : Z) : bool := (48 <=? c) && (c <=? 57).

Definition dec_value (s : std_string) : Z := foldl (λ v c, v * 10 + (c - 48)) 0 s.

(** [std::to_string] of a non-negative integer below 10^20. *)
Fixpoint dec_digits (fuel : nat) (n : Z) : std_string :=
  match fuel with
  | O => []
  | S fuel => if n <? 10 then [48 + n] else dec_digits fuel (n / 10) ++ [48 + n mod 10]
  end.

Definition dec_string (n : Z) : std_string := dec_digits 20 n.

(** [boost::lexical_cast<int64_t>] of a string, [None] for [bad_lexical_cast]: digits
    with an optional minus sign are read as the number they denote. *)
Class LexicalCast : Type := {
  lexical_cast : std_string → option Z;
  lexical_range : ∀ s n, lexical_cast s = Some n → is_i64 n;
  lexical_digits : ∀ s, s ≠ [] → forallb is_digit s = true → dec_value s <= i64_max →
    lexical_cast s = Some (dec_value s);
  lexical_minus : ∀ s, s ≠ [] → forallb is_digit s = true → dec_value s <= i64_max →
    lexical_cast (45 :: s) = Some (- dec_value s) }.

(** [fc::to_int64]. *)
Definition to_int64 {lc : LexicalCast} (s : std_string) : result Z :=
  match lexical_cast s with Some n => Ok n | None => Err parse_error_exception end.

(** ** Strings *)

Definition is_space (c : Z) : bool := (c =? 32) || ((9 <=? c) && (c <=? 13)).

Fixpoint trim_left_if (p : Z → bool) (s : std_string) : std_string :=
  match s with c :: s' => if p c then trim_left_if p s' else s | [] => [] end.

(** [boost::algorithm::trim_copy]. *)
Definition trim_copy (s : std_string) : std_string := trim_right_if is_space (trim_left_if is_space s).

(** [s.find( c )]: the part before the first [c] and the part after it. *)
Fixpoint split_at (c : Z) (s : std_string) : option (std_string * std_string) :=
  match s with
  | [] => None
  | x :: s => if x =? c then Some ([], s) else '(a, b) ← split_at c s; Some (x :: a, b)
  end.

(** [s.c_str()] read up to its terminator. *)
Fixpoint c_str (s : std_string) : std_string :=
  match s with c :: s => if c =? 0 then [] else c :: c_str s | [] => [] end.

(** ** Symbols *)

Definition max_precision : Z := 18.

(** The loop of [string_to_symbol] from index [i]; a shift by 64 or more is undefined. *)
Fixpoint string_to_symbol_loop (i : Z) (s : std_string) (res : Z) : result Z :=
  match s with
  | [] => Ok res
  | c :: s =>
    check ((65 <=? c) && (c <=? 90)) symbol_type_exception;;
    check (8 * (i + 1) <? 64) undefined_behaviour;;
    string_to_symbol_loop (i + 1) s (Z.lor res (Z.shiftl c (8 * (i + 1))))
  end.

Definition string_to_symbol (precision : Z) (s : std_string) : result Z :=
  res ← string_to_symbol_loop 0 (c_str s) 0;
  Ok (Z.lor res precision).

Fixpoint symbol_name_loop (fuel : nat) (v : Z) : std_string :=
  match fuel with
  | O => []
  | S fuel => if 0 <? v then Z.land v 255 :: symbol_name_loop fuel (Z.shiftr v 8) else []
  end.

Definition symbol_name (m_value : Z) : std_string := symbol_name_loop 8 (Z.shiftr m_value 8).
Definition decimals (m_value : Z) : Z := Z.land m_value 255.

Definition valid_name (s : std_string) : bool := forallb (λ c, (65 <=? c) && (c <=? 90)) s.

Definition symbol_valid (m_value : Z) : bool := (decimals m_value <=? max_precision) && valid_name (symbol_name m_value).

(** [explicit symbol(uint64_t v)]. *)
Definition symbol_make (v : Z) : result Z := check (symbol_valid v) symbol_type_exception;; Ok v.

Fixpoint precision_loop (p : nat) (p10 : Z) : Z :=
  match p with O => p10 | S p => precision_loop p (u64 (p10 * 10)) end.

Definition precision (m_value : Z) : result Z :=
  check (decimals m_value <=? max_precision) symbol_type_exception;;
  Ok (precision_loop (Z.to_nat (decimals m_value)) 1).

Definition symbol_to_string (m_value : Z) : std_string :=
  dec_string (decimals m_value) ++ [44] ++ symbol_name m_value.

Section Parse.
Context {lc : LexicalCast}.

Definition symbol_from_string (from : std_string) : result Z :=
  let s := trim_copy from in
  check (bool_decide (s ≠ [])) symbol_type_exception;;
  match split_at 44 s with
  | None => Err symbol_type_exception
  | Some (prec_part, name_part) =>
    n ← to_int64 prec_part;
    let p := u8 n in
    check (p <=? max_precision) symbol_type_exception;;
    v ← string_to_symbol p name_part;
    symbol_make v
  end.

End Parse.

(** ** Assets *)

Record asset : Type := Asset { amount : Z; sym : Z }.

Definition max_amount : Z := 2 ^ 62 - 1.

Definition is_amount_within_range (a : asset) : bool := (- max_amount <=? amount a) && (amount a <=? max_amount).
Definition is_valid (a : asset) : bool := is_amount_within_range a && symbol_valid (sym a).

Definition asset_make (a : Z) (id : Z) : result asset :=
  check (is_amount_within_range (Asset a id)) asset_type_exception;;
  check (symbol_valid id) asset_type_exception;;
  Ok (Asset a id).

(** Signed 64-bit arithmetic, which is undefined out of range. *)
Definition i64_min : Z := -9223372036854775808.

Definition share (v : Z) : result Z :=
  check ((i64_min <=? v) && (v <=? i64_max)) undefined_behaviour;; Ok v.

Definition asset_add_assign (a o : asset) : result asset :=
  check (sym a =? sym o) asset_type_exception;;
  v ← share (amount a + amount o);
  Ok (Asset v (sym a)).

Definition asset_sub_assign (a o : asset) : result asset :=
  check (sym a =? sym o) asset_type_exception;;
  v ← share (amount a - amount o);
  Ok (Asset v (sym a)).

Definition asset_neg (a : asset) : result asset :=
  v ← share (- amount a); asset_make v (sym a).

Definition asset_eqb (a b : asset) : bool := (sym a =? sym b) && (amount a =? amount b).

Definition asset_ltb (a b : asset) : result bool :=
  check (sym a =? sym b) asset_type_exception;;
  Ok (amount a <? amount b).

Definition asset_leb (a b : asset) : result bool :=
  if asset_eqb a b then Ok true else asset_ltb a b.

Definition asset_add (a b : asset) : result asset :=
  check (sym a =? sym b) asset_type_exception;;
  v ← share (amount a + amount b);
  asset_make v (sym a).

Definition asset_sub (a b : asset) : result asset :=
  check (sym a =? sym b) asset_type_exception;;
  v ← share (amount a - amount b);
  asset_make v (sym a).

Definition asset_to_string (a : asset) : result std_string :=
  let sign := if amount a <? 0 then [45] else [] in
  let abs_amount := Z.abs (amount a) in
  p ← precision (sym a);
  let res := dec_string (Z.quot abs_amount p) in
  let res := if decimals (sym a) =? 0 then res
             else res ++ [46] ++ drop 1 (dec_string (p + Z.rem abs_amount p)) in
  Ok (sign ++ res ++ [32] ++ symbol_name (sym a)).

(** [fc::safe<int64_t>]: addition and multiplication that throw instead of overflowing. *)
Definition safe_add (a b : Z) : result Z :=
  check (negb ((0 <? b) && (i64_max - b <? a))) overflow_exception;;
  check (negb ((b <? 0) && (a <? i64_min - b))) underflow_exception;;
  Ok (a + b).

Definition safe_mul (a b : Z) : result Z :=
  (if 0 <? a then
     if 0 <? b then check (a <=? Z.quot i64_max b) overflow_exception
     else check (Z.quot i64_min a <=? b) underflow_exception
   else
     if 0 <? b then check (Z.quot i64_min b <=? a) underflow_exception
     else check (negb (negb (a =? 0) && (b <? Z.quot i64_max a))) overflow_exception);;
  Ok (a * b).

Section ParseAsset.
Context {lc : LexicalCast}.

Definition asset_from_string (from : std_string) : result asset :=
  let s := trim_copy from in
  match split_at 32 s with
  | None => Err asset_type_exception
  | Some (amount_str, rest) =>
    let symbol_str := trim_copy rest in
    let dot_pos := split_at 46 amount_str in
    check (match dot_pos with Some (_, f) => bool_decide (f ≠ []) | None => true end) asset_type_exception;;
    let precision_digit_str :=
      match dot_pos with Some (_, f) => dec_string (Z.of_nat (length f)) | None => [48] end in
    sm ← symbol_from_string (precision_digit_str ++ [44] ++ symbol_str);
    parts ← match dot_pos with
            | Some (i, f) =>
              int_part ← to_int64 i;
              fract_part ← to_int64 f;
              fract_part ← (if bool_decide (head amount_str = Some 45) then safe_mul fract_part (-1) else Ok fract_part);
              Ok (int_part, fract_part)
            | None => int_part ← to_int64 amount_str; Ok (int_part, 0)
            end;
    p ← precision sm;
    m ← safe_mul parts.1 p;
    amt ← safe_add m parts.2;
    asset_make amt sm
  end.

End ParseAsset.
