(* ===== verification/AssetsTheory.v ===== *)
(** * Symbols and assets print to strings that read back

    The decimal strings, the packing of symbol names into 64 bits and the checked
    arithmetic of [fc::safe], and from them the round trip of [asset::to_string] and
    [asset::from_string]. *)

From S2P Require Import Prelude Names Assets.
Open Scope Z_scope.

(** ** Decimal strings *)

Lemma dec_value_snoc s c : dec_value (s ++ [c]) = dec_value s * 10 + (c - 48).
Proof. unfold dec_value. by rewrite foldl_snoc. Qed.

Lemma dec_value_app s t : dec_value (s ++ t) = dec_value s * 10 ^ Z.of_nat (length t) + dec_value t.
Proof.
  induction t as [|c t IH] using rev_ind; [rewrite app_nil_r; change (dec_value []) with 0; simpl; lia|].
  rewrite app_assoc, !dec_value_snoc, IH, length_app, Nat2Z.inj_add. simpl length.
  rewrite Z.pow_add_r by lia. change (10 ^ Z.of_nat 1) with 10. lia.
Qed.

Lemma dec_value_range s : forallb is_digit s = true → 0 <= dec_value s < 10 ^ Z.of_nat (length s).
Proof.
  induction s as [|c s IH] using rev_ind; [done|].
  rewrite forallb_app, andb_true_iff. intros [Hs Hc]. simpl in Hc. unfold is_digit in Hc.
  rewrite andb_true_r, andb_true_iff, !Z.leb_le in Hc. specialize (IH Hs).
  rewrite dec_value_snoc, length_app, Nat2Z.inj_add, Z.pow_add_r by lia. change (10 ^ Z.of_nat (length [c])) with 10. lia.
Qed.

Lemma dec_digits_correct fuel n : 0 <= n < 10 ^ Z.of_nat fuel → fuel ≠ O →
  dec_digits fuel n ≠ [] ∧ forallb is_digit (dec_digits fuel n) = true ∧ dec_value (dec_digits fuel n) = n.
Proof.
  revert n. induction fuel as [|fuel IH]; intros n Hn Hf; [done|]. cbn [dec_digits].
  destruct (Z.ltb_spec n 10).
  - repeat split; [done| |change (0 * 10 + (48 + n - 48) = n); lia].
    simpl. unfold is_digit. by rewrite andb_true_r, andb_true_iff, !Z.leb_le; lia.
  - rewrite Nat2Z.inj_succ, Z.pow_succ_r in Hn by lia.
    assert (Hd : 0 <= n / 10 < 10 ^ Z.of_nat fuel)
      by (split; [apply Z.div_pos; lia|apply Z.div_lt_upper_bound; lia]).
    pose proof (Z.mod_pos_bound n 10 ltac:(lia)) as Hm.
    destruct fuel as [|fuel]; [change (10 ^ Z.of_nat 0) with 1 in Hn; lia|].
    destruct (IH (n / 10) Hd ltac:(done)) as (_ & H2 & H3). repeat split.
    + by destruct (dec_digits _ _).
    + rewrite forallb_app, H2. simpl. unfold is_digit. by rewrite andb_true_r, andb_true_iff, !Z.leb_le; lia.
    + rewrite dec_value_snoc, H3. pose proof (Z.div_mod n 10 ltac:(lia)). lia.
Qed.

Lemma dec_digits_length fuel k n : 10 ^ Z.of_nat k <= n < 10 ^ Z.of_nat (S k) → (k < fuel)%nat →
  length (dec_digits fuel n) = S k.
Proof.
  revert fuel n. induction k as [|k IH]; intros [|fuel] n Hn Hf; try lia; cbn [dec_digits].
  - rewrite (proj2 (Z.ltb_lt n 10)); [done|]. change (10 ^ Z.of_nat 1) with 10 in Hn. lia.
  - rewrite !Nat2Z.inj_succ, !Z.pow_succ_r in Hn by lia.
    pose proof (Z.pow_pos_nonneg 10 (Z.of_nat k) ltac:(lia) ltac:(lia)).
    rewrite (proj2 (Z.ltb_ge n 10)) by lia. rewrite length_app, IH; [simpl; lia| |lia].
    rewrite Nat2Z.inj_succ, Z.pow_succ_r by lia.
    split; [apply Z.div_le_lower_bound; lia|apply Z.div_lt_upper_bound; lia].
Qed.

(** Numbers of 64 bits. *)
Lemma dec_string_correct n : 0 <= n < 10 ^ 20 →
  dec_string n ≠ [] ∧ forallb is_digit (dec_string n) = true ∧ dec_value (dec_string n) = n.
Proof. intros Hn. by apply dec_digits_correct. Qed.

(** [std::to_string( 10^k + r ).erase( 0, 1 )] is [r] in exactly [k] digits. *)
Lemma padded_digits k r : 0 <= r < 10 ^ Z.of_nat k → (k <= 18)%nat →
  let f := drop 1 (dec_string (10 ^ Z.of_nat k + r)) in
  length f = k ∧ forallb is_digit f = true ∧ dec_value f = r.
Proof.
  intros Hr Hk f. pose proof (Z.pow_le_mono_r 10 (Z.of_nat k) 18 ltac:(lia) ltac:(lia)) as Hp.
  assert (Hn : 10 ^ Z.of_nat k <= 10 ^ Z.of_nat k + r < 10 ^ Z.of_nat (S k))
    by (rewrite Nat2Z.inj_succ, Z.pow_succ_r by lia; lia).
  pose proof (dec_digits_length 20 k _ Hn ltac:(lia)) as Hl.
  destruct (dec_string_correct (10 ^ Z.of_nat k + r)) as (_ & Hd & Hv); [lia|].
  unfold dec_string in *. subst f. destruct (dec_digits 20 _) as [|c f]; [done|].
  injection Hl as Hl. simpl in Hd. cbn [drop]. apply andb_true_iff in Hd as [Hc Hd].
  pose proof (dec_value_range f Hd) as Hf. rewrite Hl in Hf.
  change (c :: f) with ([c] ++ f) in Hv. rewrite dec_value_app, Hl in Hv.
  change (dec_value [c]) with (0 * 10 + (c - 48)) in Hv. repeat split; [done..|].
  generalize dependent (10 ^ Z.of_nat k). intros P **. assert ((c - 49) * P = r - dec_value f) by lia.
  assert (c = 49) by nia. rewrite drop_0. lia.
Qed.

(** ** Trimming and splitting *)

Lemma trim_left_id p c s : p c = false → trim_left_if p (c :: s) = c :: s.
Proof. intros Hc. simpl. by rewrite Hc. Qed.

Lemma trim_right_id p s c : p c = false → trim_right_if p (s ++ [c]) = s ++ [c].
Proof.
  intros Hc. induction s as [|x s IH]; simpl; [by rewrite Hc|]. rewrite IH. by destruct s.
Qed.

(** A string that neither starts nor ends with white space is left alone. *)
Lemma trim_copy_id s : (∃ c t, s = c :: t ∧ is_space c = false) → (∃ t c, s = t ++ [c] ∧ is_space c = false) →
  trim_copy s = s.
Proof.
  intros (c & t & Hs & Hc) (t' & c' & Hs' & Hc'). unfold trim_copy.
  rewrite Hs, trim_left_id, <- Hs by done. rewrite Hs'. by apply trim_right_id.
Qed.

Lemma split_at_app c a b : Forall (λ x, x ≠ c) a → split_at c (a ++ c :: b) = Some (a, b).
Proof.
  induction 1 as [|x a Hx Ha IH]; simpl; [by rewrite Z.eqb_refl|].
  rewrite (proj2 (Z.eqb_neq x c) Hx). by rewrite IH.
Qed.

Lemma split_at_none c a : Forall (λ x, x ≠ c) a → split_at c a = None.
Proof.
  induction 1 as [|x a Hx Ha IH]; simpl; [done|]. rewrite (proj2 (Z.eqb_neq x c) Hx). by rewrite IH.
Qed.

Lemma c_str_id s : Forall (λ x, x ≠ 0) s → c_str s = s.
Proof. induction 1 as [|x s Hx Hs IH]; simpl; [done|]. rewrite (proj2 (Z.eqb_neq x 0) Hx). by rewrite IH. Qed.

Lemma digits_avoid s c : forallb is_digit s = true → is_digit c = false → Forall (λ x, x ≠ c) s.
Proof.
  intros Hs Hc. apply Forall_forall. intros x Hx ->.
  rewrite (proj1 (forallb_forall _ _) Hs c) in Hc; [done|by apply list_elem_of_In].
Qed.

Lemma valid_name_avoid s c : valid_name s = true → (c < 65 ∨ 90 < c) → Forall (λ x, x ≠ c) s.
Proof.
  intros Hs Hc. apply Forall_forall. intros x Hx ->.
  pose proof (proj1 (forallb_forall _ _) Hs c ltac:(by apply list_elem_of_In)) as H.
  cbv beta in H. rewrite andb_true_iff, !Z.leb_le in H. lia.
Qed.

Lemma valid_name_last s : valid_name s = true → s ≠ [] → ∃ t c, s = t ++ [c] ∧ is_space c = false.
Proof.
  intros Hs Hn. destruct (exists_last Hn) as (t & c & ->). exists t, c. split; [done|].
  unfold valid_name in Hs. rewrite forallb_app, andb_true_iff in Hs. destruct Hs as [_ Hs]. simpl in Hs.
  rewrite andb_true_r, andb_true_iff, !Z.leb_le in Hs. unfold is_space.
  rewrite orb_false_iff, andb_false_iff, Z.eqb_neq, !Z.leb_gt. lia.
Qed.

Lemma valid_name_first s : valid_name s = true → s ≠ [] → ∃ c t, s = c :: t ∧ is_space c = false.
Proof.
  intros Hs Hn. destruct s as [|c t]; [done|]. exists c, t. split; [done|]. simpl in Hs.
  rewrite andb_true_iff, andb_true_iff, !Z.leb_le in Hs. unfold is_space.
  rewrite orb_false_iff, andb_false_iff, Z.eqb_neq, !Z.leb_gt. lia.
Qed.

Lemma digit_not_space c : is_digit c = true → is_space c = false.
Proof.
  unfold is_digit, is_space. rewrite andb_true_iff, orb_false_iff, andb_false_iff, Z.eqb_neq, !Z.leb_le, !Z.leb_gt. lia.
Qed.

Lemma trim_name s : valid_name s = true → s ≠ [] → trim_copy s = s.
Proof. intros. apply trim_copy_id; [by apply valid_name_first|by apply valid_name_last]. Qed.

(** ** Symbol names as base-256 numbers *)

Fixpoint name_value (s : std_string) : Z :=
  match s with [] => 0 | c :: s => c + 256 * name_value s end.

Lemma lor_disjoint a b k : 0 <= k → 0 <= a < 2 ^ k → Z.lor a (Z.shiftl b k) = a + b * 2 ^ k.
Proof.
  intros Hk Ha. rewrite Z.shiftl_mul_pow2, Z.lor_comm by done.
  pose proof (lor_append b a k 0 ltac:(lia) Hk Ha) as H. rewrite Z.add_0_l, !Z.mul_1_r in H. rewrite H. lia.
Qed.

Lemma land_255 x : Z.land x 255 = x mod 256.
Proof. apply (Z.land_ones x 8). lia. Qed.

Lemma name_value_range s : valid_name s = true → 0 <= name_value s < 256 ^ Z.of_nat (length s).
Proof.
  induction s as [|c s IH]; cbn [valid_name name_value length]; [done|]. simpl.
  rewrite !andb_true_iff, !Z.leb_le. intros [Hc Hs]. specialize (IH Hs).
  rewrite Nat2Z.inj_succ, Z.pow_succ_r by lia. lia.
Qed.

Lemma pow256 i : 0 <= i → 2 ^ (8 * i) = 256 ^ i.
Proof. intros. by rewrite Z.pow_mul_r by lia. Qed.

(** The shifted characters of a name of at most seven letters. *)
Lemma string_to_symbol_loop_value i s res : 0 <= i → valid_name s = true → 0 <= res < 256 ^ (i + 1) →
  i + Z.of_nat (length s) <= 7 →
  string_to_symbol_loop i s res = Ok (res + 256 ^ (i + 1) * name_value s).
Proof.
  revert i res. induction s as [|c s IH]; intros i res Hi Hs Hres Hlen; cbn [string_to_symbol_loop name_value].
  { f_equal. lia. }
  simpl in Hs. apply andb_true_iff in Hs as [Hc Hs]. rewrite Hc. cbn [length] in Hlen.
  rewrite check_bind by done. rewrite check_bind by (apply Z.ltb_lt; lia).
  apply andb_true_iff in Hc as [Hc1%Z.leb_le Hc2%Z.leb_le].
  rewrite lor_disjoint, pow256 by (rewrite ?pow256; lia).
  rewrite IH; [f_equal|lia|done| |lia].
  - rewrite (Z.pow_add_r 256 (i + 1) 1) by lia. lia.
  - rewrite (Z.pow_add_r 256 (i + 1) 1) by lia. nia.
Qed.

Lemma string_to_symbol_value p s : valid_name s = true → (length s <= 7)%nat → is_u8 p →
  string_to_symbol p s = Ok (p + 256 * name_value s).
Proof.
  intros Hs Hl Hp. unfold string_to_symbol.
  rewrite c_str_id by (apply valid_name_avoid; [done|lia]).
  rewrite string_to_symbol_loop_value by (done || lia). rewrite bind_ok. f_equal.
  change (256 ^ (0 + 1)) with 256. rewrite Z.lor_comm, Z.add_0_l, Z.mul_comm.
  change 256 with (2 ^ 8). rewrite <- Z.shiftl_mul_pow2, lor_disjoint by (unfold is_u8 in Hp; lia).
  rewrite Z.shiftl_mul_pow2 by lia. lia.
Qed.

Lemma symbol_name_loop_value fuel v : 0 <= v < 256 ^ Z.of_nat fuel →
  name_value (symbol_name_loop fuel v) = v ∧ (length (symbol_name_loop fuel v) <= fuel)%nat.
Proof.
  revert v. induction fuel as [|fuel IH]; intros v Hv; cbn [symbol_name_loop].
  { change (256 ^ Z.of_nat 0) with 1 in Hv. simpl. lia. }
  rewrite Nat2Z.inj_succ, Z.pow_succ_r in Hv by lia.
  destruct (Z.ltb_spec 0 v); [|simpl; lia]. cbn [name_value length].
  rewrite Z.shiftr_div_pow2, land_255 by lia. change (2 ^ 8) with 256.
  destruct (IH (v / 256)) as [-> Hl].
  { split; [apply Z.div_pos; lia|apply Z.div_lt_upper_bound; lia]. }
  pose proof (Z.div_mod v 256 ltac:(lia)). split; lia.
Qed.

(** The fuel of [symbol_name] is one more than the characters a 64-bit value can hold. *)
Lemma symbol_name_loop_fuel fuel k v : 0 <= v < 256 ^ Z.of_nat fuel →
  symbol_name_loop (fuel + k) v = symbol_name_loop fuel v.
Proof.
  revert v. induction fuel as [|fuel IH]; intros v Hv.
  { change (256 ^ Z.of_nat 0) with 1 in Hv. destruct k; simpl; [done|]. by rewrite (proj2 (Z.ltb_ge 0 v)) by lia. }
  rewrite Nat2Z.inj_succ, Z.pow_succ_r in Hv by lia. simpl.
  rewrite IH; [done|]. rewrite Z.shiftr_div_pow2 by lia. change (2 ^ 8) with 256.
  split; [apply Z.div_pos; lia|apply Z.div_lt_upper_bound; lia].
Qed.

Lemma symbol_split m : is_u64 m → is_u8 (decimals m) ∧ m = decimals m + 256 * name_value (symbol_name m) ∧
  (length (symbol_name m) <= 7)%nat.
Proof.
  intros Hm. unfold decimals, symbol_name, is_u8. rewrite land_255, Z.shiftr_div_pow2 by lia.
  change (2 ^ 8) with 256. pose proof (Z.mod_pos_bound m 256 ltac:(lia)). unfold is_u64 in Hm.
  assert (Hv : 0 <= m / 256 < 256 ^ Z.of_nat 7).
  { change (256 ^ Z.of_nat 7) with 72057594037927936.
    split; [apply Z.div_pos; lia|apply Z.div_lt_upper_bound; lia]. }
  change 8%nat with (7 + 1)%nat. rewrite symbol_name_loop_fuel by done.
  destruct (symbol_name_loop_value 7 _ Hv) as [-> Hl]. pose proof (Z.div_mod m 256 ltac:(lia)). split; [done|]. lia.
Qed.

(** A valid symbol is its precision and its name. *)
Lemma symbol_repack m : is_u64 m → symbol_valid m = true →
  string_to_symbol (decimals m) (symbol_name m) = Ok m.
Proof.
  intros Hm [_ Hn]%andb_true_iff. destruct (symbol_split m Hm) as (Hd & He & Hl).
  rewrite string_to_symbol_value by done. by rewrite <- He.
Qed.

(** ** Precision *)

Lemma precision_loop_value k p : 0 <= p → p * 10 ^ Z.of_nat k < 2 ^ 64 →
  precision_loop k p = p * 10 ^ Z.of_nat k.
Proof.
  revert p. induction k as [|k IH]; intros p Hp Hlt; cbn [precision_loop]; [lia|].
  rewrite Nat2Z.inj_succ, Z.pow_succ_r in * by lia.
  pose proof (Z.pow_pos_nonneg 10 (Z.of_nat k) ltac:(lia) ltac:(lia)).
  rewrite u64_small by (unfold is_u64; change (2 ^ 64) with 18446744073709551616 in Hlt; nia).
  rewrite IH; lia.
Qed.

Lemma precision_value m : is_u64 m → symbol_valid m = true → precision m = Ok (10 ^ decimals m).
Proof.
  intros Hm [Hd _]%andb_true_iff. unfold precision. rewrite check_bind by done. f_equal.
  apply Z.leb_le in Hd. unfold max_precision in Hd. destruct (symbol_split m Hm) as ([? _] & _).
  rewrite precision_loop_value, Z2Nat.id by (rewrite ?Z2Nat.id; try lia;
    pose proof (Z.pow_le_mono_r 10 (decimals m) 18 ltac:(lia) ltac:(lia)); lia). lia.
Qed.

(** ** Checked arithmetic *)

Lemma safe_add_spec a b : is_i64 a → is_i64 b →
  match safe_add a b with Ok c => c = a + b ∧ is_i64 c | Err _ => ~ is_i64 (a + b) end.
Proof.
  unfold safe_add, is_i64, i64_max, i64_min, check. intros Ha Hb.
  destruct (Z.ltb_spec 0 b), (Z.ltb_spec (9223372036854775807 - b) a); simpl; try lia;
  destruct (Z.ltb_spec b 0), (Z.ltb_spec a (-9223372036854775808 - b)); simpl; lia.
Qed.

(** Truncated quotients as bounds on a factor. *)
Lemma quot_pos n b : 0 <= n → 0 < b → n - b < b * Z.quot n b <= n.
Proof. intros. pose proof (Z.quot_rem' n b). pose proof (Z.rem_bound_pos n b ltac:(done) ltac:(done)). lia. Qed.

Lemma quot_neg n b : n <= 0 → 0 < b → n <= b * Z.quot n b < n + b.
Proof.
  intros. pose proof (quot_pos (- n) b ltac:(lia) ltac:(done)). rewrite Z.quot_opp_l in * by lia. lia.
Qed.

Lemma safe_mul_spec a b : is_i64 a → is_i64 b →
  match safe_mul a b with Ok c => c = a * b ∧ is_i64 c | Err _ => ~ is_i64 (a * b) end.
Proof.
  unfold safe_mul, is_i64, i64_max, i64_min, check. intros Ha Hb.
  destruct (Z.ltb_spec 0 a), (Z.ltb_spec 0 b).
  - pose proof (quot_pos 9223372036854775807 b ltac:(lia) ltac:(done)).
    destruct (Z.leb_spec a (Z.quot 9223372036854775807 b)); simpl; nia.
  - pose proof (quot_neg (-9223372036854775808) a ltac:(lia) ltac:(done)).
    destruct (Z.leb_spec (Z.quot (-9223372036854775808) a) b); simpl; nia.
  - pose proof (quot_neg (-9223372036854775808) b ltac:(lia) ltac:(done)).
    destruct (Z.leb_spec (Z.quot (-9223372036854775808) b) a); simpl; nia.
  - destruct (Z.eqb_spec a 0) as [-> |]; [simpl; lia|].
    pose proof (quot_pos 9223372036854775807 (- a) ltac:(lia) ltac:(lia)) as Hq.
    rewrite Z.quot_opp_r in Hq by lia.
    destruct (Z.ltb_spec b (Z.quot 9223372036854775807 a)); simpl; nia.
Qed.

Lemma safe_add_ok a b : is_i64 a → is_i64 b → is_i64 (a + b) → safe_add a b = Ok (a + b).
Proof. intros Ha Hb Hc. pose proof (safe_add_spec a b Ha Hb) as H. destruct (safe_add a b); [|done]. by destruct H as [-> _]. Qed.

Lemma safe_mul_ok a b : is_i64 a → is_i64 b → is_i64 (a * b) → safe_mul a b = Ok (a * b).
Proof. intros Ha Hb Hc. pose proof (safe_mul_spec a b Ha Hb) as H. destruct (safe_mul a b); [|done]. by destruct H as [-> _]. Qed.

(** ** Reading back *)

Section Parsing.
Context {lc : LexicalCast}.

(** A number with an optional sign. *)
Definition signed (neg : bool) (s : std_string) : std_string := (if neg then [45] else []) ++ s.

Lemma to_int64_signed neg s : s ≠ [] → forallb is_digit s = true → dec_value s <= i64_max →
  to_int64 (signed neg s) = Ok (if neg then - dec_value s else dec_value s).
Proof.
  intros. unfold to_int64, signed. destruct neg; simpl app; [by rewrite lexical_minus|by rewrite lexical_digits].
Qed.

(** A precision in digits and a name: only the low byte of the precision counts. *)
Lemma symbol_from_digits s name : s ≠ [] → forallb is_digit s = true → dec_value s <= i64_max →
  trim_copy (s ++ 44 :: name) = s ++ 44 :: name →
  symbol_from_string (s ++ 44 :: name) =
    (check (u8 (dec_value s) <=? max_precision) symbol_type_exception;;
     v ← string_to_symbol (u8 (dec_value s)) name; symbol_make v).
Proof.
  intros Hs Hd Hv Ht. unfold symbol_from_string. rewrite Ht.
  rewrite check_bind by (apply bool_decide_eq_true; by destruct s).
  rewrite split_at_app by (by apply digits_avoid).
  pose proof (to_int64_signed false s Hs Hd Hv) as Hi. unfold signed in Hi. simpl app in Hi. by rewrite Hi.
Qed.

Lemma symbol_from_to_string m : is_u64 m → symbol_valid m = true → symbol_name m ≠ [] →
  symbol_from_string (symbol_to_string m) = Ok m.
Proof.
  intros Hm Hv Hne. pose proof Hv as [Hd%Z.leb_le Hn]%andb_true_iff. unfold max_precision in Hd.
  destruct (symbol_split m Hm) as ([Hd0 _] & _).
  destruct (dec_string_correct (decimals m)) as (Hs1 & Hs2 & Hs3); [lia|].
  unfold symbol_to_string. change ([44] ++ symbol_name m) with (44 :: symbol_name m).
  rewrite symbol_from_digits; rewrite ?Hs3; [|done|done|unfold i64_max; lia|].
  - rewrite u8_small by (unfold is_u8; lia). rewrite check_bind by (by apply Z.leb_le).
    rewrite symbol_repack, bind_ok by done. unfold symbol_make. by rewrite check_bind.
  - apply trim_copy_id.
    + destruct (dec_string (decimals m)) as [|c t]; [done|]. eexists c, _. split; [done|].
      apply digit_not_space. simpl in Hs2. by apply andb_true_iff in Hs2 as [? _].
    + destruct (valid_name_last _ Hn Hne) as (t & c & -> & Hc).
      exists (dec_string (decimals m) ++ 44 :: t), c. by rewrite <- app_assoc.
Qed.

(** The amount and the symbol around the space. *)
Lemma asset_string_split neg s rest m : s ≠ [] → forallb is_digit s = true →
  symbol_valid m = true → symbol_name m ≠ [] → Forall (λ c, c ≠ 32) rest →
  let str := signed neg s ++ rest in
  trim_copy (str ++ [32] ++ symbol_name m) = str ++ 32 :: symbol_name m ∧
  split_at 32 (str ++ 32 :: symbol_name m) = Some (str, symbol_name m) ∧
  head str = Some (if neg then 45 else hd 0 s) ∧ (neg = false → is_digit (hd 0 s) = true).
Proof.
  intros Hs Hd [_ Hn]%andb_true_iff Hne Hr str. assert (Hfirst : is_digit (hd 0 s) = true).
  { destruct s; [done|]. simpl in Hd. by apply andb_true_iff in Hd as [? _]. }
  assert (Hh : head str = Some (if neg then 45 else hd 0 s)) by (subst str; by destruct neg, s).
  repeat split; [| |done|done].
  - apply trim_copy_id.
    + destruct str as [|c t]; [done|]. eexists c, _. split; [done|]. injection Hh as ->.
      destruct neg; [done|by apply digit_not_space].
    + destruct (valid_name_last _ Hn Hne) as (t & c & -> & Hc).
      exists (str ++ [32] ++ t), c. by rewrite <- !app_assoc.
  - apply split_at_app. subst str. unfold signed. rewrite !Forall_app. repeat split; [|by apply digits_avoid|done].
    destruct neg; by repeat constructor.
Qed.

Lemma asset_make_ok v m : - max_amount <= v <= max_amount → symbol_valid m = true → asset_make v m = Ok (Asset v m).
Proof.
  intros Hv Hm. unfold asset_make, is_amount_within_range. rewrite !check_bind; [done|done|].
  simpl. apply andb_true_iff. rewrite !Z.leb_le. lia.
Qed.

Lemma share_ok v : is_i64 v → share v = Ok v.
Proof.
  unfold is_i64, share, i64_min, i64_max. intros Hv. rewrite check_bind; [done|].
  apply andb_true_iff. rewrite !Z.leb_le. lia.
Qed.

(** A whole number of units. *)
Lemma asset_from_whole neg s m : s ≠ [] → forallb is_digit s = true → dec_value s <= max_amount →
  is_u64 m → symbol_valid m = true → symbol_name m ≠ [] → decimals m = 0 →
  asset_from_string (signed neg s ++ [32] ++ symbol_name m) =
    Ok (Asset (if neg then - dec_value s else dec_value s) m).
Proof.
  intros Hs Hd Hv Hm Hsv Hne H0. unfold max_amount in Hv.
  destruct (asset_string_split neg s [] m Hs Hd Hsv Hne ltac:(done)) as (Ht & Hsp & _). rewrite app_nil_r in *.
  unfold asset_from_string. rewrite Ht, Hsp. pose proof Hsv as [_ Hn]%andb_true_iff.
  rewrite (trim_name _ Hn Hne). rewrite split_at_none.
  2: { unfold signed. apply Forall_app. split; [destruct neg; by repeat constructor|by apply digits_avoid]. }
  rewrite check_bind by done. pose proof (symbol_from_to_string m Hm Hsv Hne) as Hsym.
  unfold symbol_to_string in Hsym. rewrite H0 in Hsym. change (dec_string 0) with [48] in Hsym.
  rewrite Hsym, bind_ok. pose proof (dec_value_range s Hd) as Hr.
  rewrite to_int64_signed, !bind_ok by (done || (unfold i64_max; lia)). rewrite precision_value, bind_ok, H0 by done.
  change (10 ^ 0) with 1. cbn [fst snd].
  rewrite safe_mul_ok, bind_ok, safe_add_ok, bind_ok by (unfold is_i64; destruct neg; lia).
  rewrite asset_make_ok by (done || (unfold max_amount; destruct neg; lia)). do 2 f_equal. lia.
Qed.

(** Units and a fraction: the digits after the point are the precision of the symbol. *)
Lemma asset_from_fraction neg s f m : s ≠ [] → forallb is_digit s = true → f ≠ [] → forallb is_digit f = true →
  is_u64 m → symbol_valid m = true → symbol_name m ≠ [] → decimals m = Z.of_nat (length f) →
  let v := dec_value s * 10 ^ decimals m + dec_value f in v <= max_amount →
  asset_from_string (signed neg s ++ ([46] ++ f) ++ [32] ++ symbol_name m) = Ok (Asset (if neg then - v else v) m).
Proof.
  intros Hs Hd Hf Hfd Hm Hsv Hne Hl v Hv. pose proof Hsv as [Hdec%Z.leb_le Hn]%andb_true_iff.
  unfold max_amount, max_precision in *. rewrite app_assoc.
  destruct (asset_string_split neg s ([46] ++ f) m Hs Hd Hsv Hne) as (Ht & Hsp & Hh & Hneg).
  { constructor; [done|by apply digits_avoid]. }
  unfold asset_from_string. rewrite Ht, Hsp, (trim_name _ Hn Hne), Hh.
  change ([46] ++ f) with (46 :: f). rewrite split_at_app.
  2: { unfold signed. apply Forall_app. split; [destruct neg; by repeat constructor|by apply digits_avoid]. }
  rewrite check_bind by (by apply bool_decide_eq_true). rewrite <- Hl.
  pose proof (symbol_from_to_string m Hm Hsv Hne) as Hsym. unfold symbol_to_string in Hsym. rewrite Hsym, bind_ok. clear Hsym.
  pose proof (dec_value_range s Hd) as Hr. pose proof (dec_value_range f Hfd) as Hrf.
  pose proof (Z.pow_le_mono_r 10 (decimals m) 18 ltac:(lia) ltac:(lia)) as Hp18. change (10 ^ 18) with 1000000000000000000 in Hp18.
  pose proof (Z.pow_pos_nonneg 10 (decimals m) ltac:(lia) ltac:(lia)) as Hp0. rewrite <- Hl in Hrf.
  rewrite to_int64_signed, bind_ok by (done || (unfold i64_max; nia)).
  pose proof (to_int64_signed false f Hf Hfd ltac:(unfold i64_max; lia)) as Hi. unfold signed in Hi. simpl app in Hi.
  rewrite Hi, bind_ok, (precision_value m) by done. generalize dependent (10 ^ decimals m). intros p v Hv Hp Hp0 Hrf.
  assert (Hfrac : (if bool_decide (Some (if neg then 45 else hd 0 s) = Some 45) then safe_mul (dec_value f) (-1)
                   else Ok (dec_value f)) = Ok (if neg then - dec_value f else dec_value f)).
  { destruct neg; [rewrite bool_decide_eq_true_2 by done; rewrite safe_mul_ok by (unfold is_i64; lia); f_equal; lia|].
    rewrite bool_decide_eq_false_2; [done|]. intros [= Hc]. specialize (Hneg eq_refl). by rewrite Hc in Hneg. }
  rewrite Hfrac, !bind_ok. cbn [fst snd].
  rewrite safe_mul_ok, bind_ok, safe_add_ok, bind_ok by (unfold is_i64; destruct neg; nia).
  rewrite asset_make_ok by (done || (unfold max_amount; destruct neg; lia)). do 2 f_equal. destruct neg; lia.
Qed.

Lemma string_to_symbol_loop_range i s res v : 0 <= i → is_u64 res → string_to_symbol_loop i s res = Ok v → is_u64 v.
Proof.
  revert i res. induction s as [|c s IH]; intros i res Hi Hres; cbn [string_to_symbol_loop]; [by intros [= <-]|].
  intros (? & [Hc1%Z.leb_le Hc2%Z.leb_le]%check_inv%andb_true_iff & H)%bind_inv.
  apply bind_inv in H as (? & Hsh%check_inv%Z.ltb_lt & H). refine (IH (i + 1) _ _ _ H); [lia|].
  apply (lor_range 64); [lia|done|]. rewrite Z.shiftl_mul_pow2 by lia.
  assert (2 ^ (8 * (i + 1)) <= 2 ^ 56).
  { apply Z.pow_le_mono_r; lia. }
  pose proof (Z.pow_pos_nonneg 2 (8 * (i + 1)) ltac:(lia) ltac:(lia)). change (2 ^ 64) with (256 * 2 ^ 56). nia.
Qed.

(** What the code accepts as a symbol is a valid 64-bit symbol. *)
Lemma symbol_from_string_valid s m : symbol_from_string s = Ok m → is_u64 m ∧ symbol_valid m = true.
Proof.
  unfold symbol_from_string. intros (? & _ & H)%bind_inv. destruct (split_at 44 _) as [[pp np]|]; [|done].
  apply bind_inv in H as (n & _ & H). apply bind_inv in H as (? & _ & H). apply bind_inv in H as (v & Hv & H).
  unfold symbol_make in H. apply bind_inv in H as (? & Hs%check_inv & [= <-]). split; [|done].
  unfold string_to_symbol in Hv. apply bind_inv in Hv as (r & Hr & [= <-]).
  apply (lor_range 64); [lia| |pose proof (u8_range n) as Hp; unfold is_u8 in Hp; lia].
  by refine (string_to_symbol_loop_range 0 _ 0 r _ _ Hr).
Qed.

End Parsing.

(** ** The properties *)

Section Properties.
Context {lc : LexicalCast}.

(** C36: every valid asset whose symbol has a name is printed by [asset::to_string] to a
    string from which [asset::from_string] reads the same amount and symbol, for negative
    amounts, every precision and amounts below one unit too. *)
Theorem asset_string_roundtrip a : is_u64 (sym a) → is_valid a = true → symbol_name (sym a) ≠ [] →
  returns (asset_to_string a) (λ s, asset_from_string s = Ok a).
Proof.
  intros Hm [Ha Hv]%andb_true_iff Hne. pose proof Hv as [Hdec%Z.leb_le _]%andb_true_iff.
  unfold is_amount_within_range, max_amount, max_precision in *. rewrite andb_true_iff, !Z.leb_le in Ha.
  destruct (symbol_split _ Hm) as ([Hd0 _] & _). set (d := decimals (sym a)) in *.
  pose proof (Z.pow_pos_nonneg 10 d ltac:(lia) ltac:(lia)) as Hp.
  assert (Hq : 0 <= Z.abs (amount a) ÷ 10 ^ d <= 2 ^ 62 - 1).
  { rewrite Z.quot_div_nonneg by lia. split; [apply Z.div_pos; lia|apply Z.div_le_upper_bound; nia]. }
  destruct (dec_string_correct (Z.abs (amount a) ÷ 10 ^ d)) as (Hs1 & Hs2 & Hs3); [lia|].
  pose proof (Z.quot_rem' (Z.abs (amount a)) (10 ^ d)) as Hqr.
  pose proof (Z.rem_bound_pos (Z.abs (amount a)) (10 ^ d) ltac:(lia) ltac:(lia)) as Hr.
  unfold asset_to_string. rewrite precision_value by done. fold d. cbn [mbind result_bind returns].
  destruct (Z.eqb_spec d 0) as [H0|H0].
  - rewrite H0 in *. change (10 ^ 0) with 1 in *.
    pose proof (asset_from_whole (amount a <? 0) _ (sym a) Hs1 Hs2 ltac:(unfold max_amount; lia) Hm Hv Hne H0) as H.
    rewrite Hs3 in H. unfold signed in H. rewrite <- app_assoc in H. rewrite H. destruct a as [v m]. simpl in *.
    do 2 f_equal. destruct (Z.ltb_spec v 0); lia.
  - destruct (padded_digits (Z.to_nat d) (Z.rem (Z.abs (amount a)) (10 ^ d))) as (Hf1 & Hf2 & Hf3);
      rewrite ?Z2Nat.id in * by lia; [lia|lia|].
    pose proof (asset_from_fraction (amount a <? 0) _ _ (sym a) Hs1 Hs2
      ltac:(intros E; rewrite E in Hf1; simpl in Hf1; lia) Hf2 Hm Hv Hne ltac:(lia)) as H. fold d in H.
    rewrite Hs3, Hf3 in H. cbv zeta in H. unfold signed in H. rewrite <- !app_assoc in H. rewrite <- !app_assoc, H.
    + destruct a as [v m]. simpl in *. do 2 f_equal. destruct (Z.ltb_spec v 0); lia.
    + unfold max_amount. lia.
Qed.

(** Whatever [asset::from_string] accepts is a valid asset: its amount is within
    [max_amount] on both sides, its symbol has at most 18 decimals and a name of upper case letters. *)
Theorem asset_from_string_valid s a : asset_from_string s = Ok a → is_valid a = true ∧ is_u64 (sym a).
Proof.
  unfold asset_from_string. destruct (split_at 32 _) as [[am rest]|]; [|done]. cbv zeta.
  intros (? & _ & H)%bind_inv. apply bind_inv in H as (m & Hm & H). do 4 apply bind_inv in H as (? & _ & H).
  unfold asset_make in H. do 2 (apply bind_inv in H as (? & ?%check_inv & H)). injection H as <-.
  destruct (symbol_from_string_valid _ _ Hm) as [Hu _]. split; [|done]. by apply andb_true_iff.
Qed.

(** Three inputs on which the parsers are laxer than the format they document. A minus
    sign inside the fraction is accepted and subtracts: [1.-5 EOS] reads as the asset that
    prints as [0.95 EOS]. The precision is truncated to 8 bits before it is compared with 18, so
    [256,A] is the symbol of precision 0. A name of eight letters shifts a 64-bit value by 64. *)
Theorem symbol_asset_parsing_gaps :
  let a := Asset 95 (2 + 256 * (69 + 256 * (79 + 256 * 83))) in
  (asset_from_string [49; 46; 45; 53; 32; 69; 79; 83] = Ok a ∧
   asset_to_string a = Ok [48; 46; 57; 53; 32; 69; 79; 83]) ∧
  symbol_from_string [50; 53; 54; 44; 65] = Ok (256 * 65) ∧
  symbol_from_string [52; 44; 65; 66; 67; 68; 69; 70; 71; 72] = Err undefined_behaviour.
Proof.
  repeat split.
  - unfold asset_from_string.
    change (trim_copy [49; 46; 45; 53; 32; 69; 79; 83]) with [49; 46; 45; 53; 32; 69; 79; 83].
    cbn [split_at Z.eqb Pos.eqb mbind option_bind]. change (trim_copy [69; 79; 83]) with [69; 79; 83].
    rewrite check_bind by done. change (dec_string (Z.of_nat (length [45; 53])) ++ [44] ++ [69; 79; 83])
      with (symbol_to_string (2 + 256 * (69 + 256 * (79 + 256 * 83)))).
    rewrite symbol_from_to_string, bind_ok by (done || (unfold is_u64; lia)).
    pose proof (to_int64_signed false [49] ltac:(done) ltac:(done) ltac:(done)) as H1.
    pose proof (to_int64_signed true [53] ltac:(done) ltac:(done) ltac:(done)) as H5.
    unfold signed in H1, H5. simpl app in H1, H5. rewrite H1, bind_ok, H5, bind_ok. done.
  - by rewrite (symbol_from_digits [50; 53; 54] [65]).
  - by rewrite (symbol_from_digits [52] [65; 66; 67; 68; 69; 70; 71; 72]).
Qed.

(** The sum and the difference of two valid assets of one symbol are exact when they
    are within [max_amount] and are refused otherwise, without leaving 64 bits on the way;
    assets of two symbols never mix. *)
Theorem asset_arithmetic_exact a b : is_valid a = true → is_valid b = true →
  let in_range v := (- max_amount <=? v) && (v <=? max_amount) in
  let exact v := if in_range v then Ok (Asset v (sym a)) else Err asset_type_exception in
  asset_add a b = (if sym a =? sym b then exact (amount a + amount b) else Err asset_type_exception) ∧
  asset_sub a b = (if sym a =? sym b then exact (amount a - amount b) else Err asset_type_exception) ∧
  asset_neg a = Ok (Asset (- amount a) (sym a)) ∧
  (sym a = sym b → asset_add_assign a b = Ok (Asset (amount a + amount b) (sym a)) ∧
    (0 <= amount b <= amount a → returns (asset_sub_assign a b) (λ c, asset_add_assign c b = Ok a))).
Proof.
  intros [Ha Hsa]%andb_true_iff [Hb Hsb]%andb_true_iff in_range exact. unfold is_amount_within_range in Ha, Hb.
  rewrite andb_true_iff, !Z.leb_le in Ha, Hb. unfold max_amount in Ha, Hb.
  assert (Hmake : ∀ v, asset_make v (sym a) = exact v).
  { intros v. unfold asset_make, exact, in_range, is_amount_within_range. rewrite Hsa. simpl.
    by destruct (_ && _). }
  unfold asset_add, asset_sub, asset_neg, asset_add_assign, asset_sub_assign.
  rewrite !share_ok, !bind_ok, !Hmake by (unfold is_i64; lia). repeat split.
  1,2: by destruct (sym a =? sym b).
  - unfold exact, in_range, max_amount. by rewrite (proj2 (andb_true_iff _ _)) by (rewrite !Z.leb_le; lia).
  - rewrite H, Z.eqb_refl. by rewrite check_bind.
  - intros Hle. rewrite H, Z.eqb_refl, check_bind by done. cbn [returns amount sym].
    rewrite Z.eqb_refl, check_bind, share_ok, bind_ok by (done || (unfold is_i64; lia)).
    destruct a as [v m]. simpl in *. do 2 f_equal; [lia|done].
Qed.

End Properties.

(** A reading of [boost::lexical_cast] to a 64-bit integer, and the round trip of
    [-0.05 EOS] under it. *)
Module LexicalExample.

Definition cast (s : std_string) : option Z :=
  let read neg s :=
    if bool_decide (s ≠ []) && forallb is_digit s && (dec_value s <=? i64_max)
    then Some (if neg : bool then - dec_value s else dec_value s) else None in
  match s with c :: t => if c =? 45 then read true t else read false s | [] => None end.

Lemma cast_digits s : s ≠ [] → forallb is_digit s = true → dec_value s <= i64_max → cast s = Some (dec_value s).
Proof.
  intros Hs Hd Hv. unfold cast.
  assert (E : bool_decide (s ≠ []) && forallb is_digit s && (dec_value s <=? i64_max) = true)
    by (by rewrite bool_decide_eq_true_2, Hd, (proj2 (Z.leb_le _ _))).
  destruct s as [|c s]; [done|]. destruct (Z.eqb_spec c 45) as [-> |]; [done|]. by rewrite E.
Qed.

Lemma cast_minus s : s ≠ [] → forallb is_digit s = true → dec_value s <= i64_max → cast (45 :: s) = Some (- dec_value s).
Proof.
  intros Hs Hd Hv. unfold cast. by rewrite bool_decide_eq_true_2, Hd, (proj2 (Z.leb_le _ _)).
Qed.

Lemma cast_range s n : cast s = Some n → is_i64 n.
Proof.
  assert (R : ∀ (neg : bool) s, (if bool_decide (s ≠ []) && forallb is_digit s && (dec_value s <=? i64_max)
    then Some (if neg then - dec_value s else dec_value s) else None) = Some n → is_i64 n).
  { intros neg t. destruct (bool_decide (t ≠ [])); [|done]. destruct (forallb is_digit t) eqn:Hd; [|done].
    destruct (Z.leb_spec (dec_value t) i64_max); [|done]. intros [= <-].
    pose proof (dec_value_range t Hd). unfold is_i64, i64_max in *. destruct neg; lia. }
  unfold cast. destruct s as [|c s]; [done|]. destruct (c =? 45); [apply (R true)|apply (R false)].
Qed.

#[export] Instance lexical : LexicalCast :=
  {| lexical_cast := cast; lexical_range := cast_range; lexical_digits := cast_digits; lexical_minus := cast_minus |}.

(** Minus five hundredths of a token of precision 2. *)
Definition coin : asset := Asset (-5) (2 + 256 * (69 + 256 * (79 + 256 * 83))).

(** The theorem at [coin]. *)
Lemma asset_string_roundtrip_witness :
  asset_to_string coin = Ok [45; 48; 46; 48; 53; 32; 69; 79; 83] ∧
  returns (asset_to_string coin) (λ s, asset_from_string s = Ok coin).
Proof.
  split; [reflexivity|]. apply (asset_string_roundtrip coin); [unfold is_u64; simpl; lia|reflexivity|discriminate].
Defined.

Lemma asset_from_string_valid_witness : is_valid coin = true ∧ is_u64 (sym coin).
Proof. apply (asset_from_string_valid [45; 48; 46; 48; 53; 32; 69; 79; 83] coin). vm_compute. reflexivity. Defined.

Lemma asset_arithmetic_exact_witness : asset_add coin coin = Ok (Asset (-10) (sym coin)).
Proof. exact (proj1 (asset_arithmetic_exact coin coin eq_refl eq_refl)). Defined.

End LexicalExample.
