(* ===== verification/Authority.v ===== *)
(** * Authorities ([authority.hpp]) and their evaluation ([authority_checker.hpp])

    An authority is satisfied by keys, by other permissions and by a delay, each with
    a weight. A public key has the index of its kind and the bytes that are compared.
    The checker's calls return the used keys and the cache of permissions next to
    their result. *)

From S2P Require Import Prelude.
Open Scope Z_scope.

(** ** Data *)

Record permission_level : Type := PermissionLevel { actor : Z; permission : Z }.

Record public_key : Type := PublicKey { which : Z; key_data : list Z }.

Record key_weight : Type := KeyWeight { key : public_key; key_weight_ : Z }.

Record permission_level_weight : Type := PermissionLevelWeight {
  level : permission_level;
  level_weight : Z }.

Record wait_weight : Type := WaitWeight { wait_sec : Z; wait_weight_ : Z }.

Record authority : Type := Authority {
  threshold : Z;
  keys : list key_weight;
  accounts : list permission_level_weight;
  waits : list wait_weight }.

#[export] Instance permission_level_eq_dec : EqDecision permission_level.
Proof. solve_decision. Defined.
#[export] Instance permission_level_countable : Countable permission_level.
Proof.
  refine (inj_countable' (λ p, (actor p, permission p)) (λ '(a, p), PermissionLevel a p) _).
  by intros [a p].
Defined.
#[export] Instance public_key_eq_dec : EqDecision public_key.
Proof. solve_decision. Defined.
#[export] Instance key_weight_eq_dec : EqDecision key_weight.
Proof. solve_decision. Defined.
#[export] Instance permission_level_weight_eq_dec : EqDecision permission_level_weight.
Proof. solve_decision. Defined.
#[export] Instance wait_weight_eq_dec : EqDecision wait_weight.
Proof. solve_decision. Defined.
#[export] Instance authority_eq_dec : EqDecision authority.
Proof. solve_decision. Defined.

(** [operator<] of permission levels and keys: lexicographic. *)
Definition level_ltb (a b : permission_level) : bool :=
  (actor a <? actor b) || ((actor a =? actor b) && (permission a <? permission b)).

Fixpoint bytes_ltb (a b : list Z) : bool :=
  match a, b with
  | [], [] => false
  | [], _ :: _ => true
  | _ :: _, [] => false
  | x :: a, y :: b => (x <? y) || ((x =? y) && bytes_ltb a b)
  end.

Definition key_ltb (a b : public_key) : bool :=
  (which a <? which b) || ((which a =? which b) && bytes_ltb (key_data a) (key_data b)).

(** The constructors of [authority] from a key and from a permission, with a delay. *)
Definition delay_waits (delay_sec : Z) : list wait_weight :=
  if 0 <? delay_sec then [WaitWeight delay_sec 1] else [].

Definition authority_of_key (k : public_key) (delay_sec : Z) : authority :=
  Authority (if 0 <? delay_sec then 2 else 1) [KeyWeight k 1] [] (delay_waits delay_sec).

Definition authority_of_level (p : permission_level) (delay_sec : Z) : authority :=
  Authority (if 0 <? delay_sec then 2 else 1) [] [PermissionLevelWeight p 1] (delay_waits delay_sec).

(** ** Validation *)

(** A loop of [validate]: the elements in strict order, their weight added to
    the 32-bit total. *)
Fixpoint validate_sorted {A} (lt : A → A → bool) (weight : A → Z) (prev : option A) (l : list A)
    (total_weight : Z) : option Z :=
  match l with
  | [] => Some total_weight
  | x :: l =>
    if match prev with Some p => negb (lt p x) | None => false end then None
    else validate_sorted lt weight (Some x) l (u32 (total_weight + weight x))
  end.

Definition validate (auth : authority) : bool :=
  if 65536 <? Z.of_nat (length (keys auth)) + Z.of_nat (length (accounts auth)) + Z.of_nat (length (waits auth))
  then false
  else if threshold auth =? 0 then false
  else
    match validate_sorted (λ a b, key_ltb (key a) (key b)) key_weight_ None (keys auth) 0 with
    | None => false
    | Some total_weight =>
      match validate_sorted (λ a b, level_ltb (level a) (level b)) level_weight None (accounts auth) total_weight with
      | None => false
      | Some total_weight =>
        if match waits auth with w :: _ => wait_sec w =? 0 | [] => false end then false
        else
          match validate_sorted (λ a b, wait_sec a <? wait_sec b) wait_weight_ None (waits auth) total_weight with
          | None => false
          | Some total_weight => threshold auth <=? total_weight
          end
      end
    end.

(** [config::billable_size_v]: sizes are rounded up to 16 bytes. *)
Definition billable_size_v (value : Z) : Z := (value + 16 - 1) / 16 * 16.

(** [shared_authority::get_billable_size], with the packed size of a key as an argument. *)
Definition get_billable_size (pack_size : public_key → Z) (auth : authority) : Z :=
  Z.of_nat (length (accounts auth)) * billable_size_v 24 + Z.of_nat (length (waits auth)) * billable_size_v 16
  + foldl (λ s k, s + billable_size_v 8 + pack_size (key k)) 0 (keys auth).

(** ** The checker *)

Inductive permission_cache_status : Type :=
| being_evaluated
| permission_unsatisfied
| permission_satisfied.

#[export] Instance permission_cache_status_eq_dec : EqDecision permission_cache_status.
Proof. solve_decision. Defined.

Abbreviation permission_cache_type := (gmap permission_level permission_cache_status).

Definition permission_status_in_cache (permissions : permission_cache_type) (l : permission_level)
    : option permission_cache_status :=
  match permissions !! l with
  | Some s => Some s
  | None => permissions !! PermissionLevel (actor l) 0
  end.

Definition initialize_permission_cache (provided_permissions : list permission_level) : permission_cache_type :=
  list_to_map ((λ p, (p, permission_satisfied)) <$> provided_permissions).

(** The entries of the map of meta permissions, with their keys [(weight, priority)]. *)
Inductive meta_permission : Type :=
| MetaAccount (a : permission_level_weight)
| MetaKey (k : key_weight)
| MetaWait (w : wait_weight).

Definition meta_weight (mp : meta_permission) : Z :=
  match mp with MetaAccount a => level_weight a | MetaKey k => key_weight_ k | MetaWait w => wait_weight_ w end.

Definition meta_priority (mp : meta_permission) : Z :=
  match mp with MetaAccount _ => 1 | MetaKey _ => 2 | MetaWait _ => 3 end.

Definition meta_greater (a b : meta_permission) : bool :=
  (meta_weight b <? meta_weight a) || ((meta_weight a =? meta_weight b) && (meta_priority b <? meta_priority a)).

(** [flat_multimap::emplace] under [std::greater]: after the entries that are not smaller. *)
Fixpoint emplace_permission (mp : meta_permission) (permissions : list meta_permission) : list meta_permission :=
  match permissions with
  | [] => [mp]
  | x :: permissions' =>
    if meta_greater mp x then mp :: permissions else x :: emplace_permission mp permissions'
  end.

Definition meta_permissions (auth : authority) : list meta_permission :=
  foldl (λ l mp, emplace_permission mp l) []
    ((MetaAccount <$> accounts auth) ++ (MetaKey <$> keys auth) ++ (MetaWait <$> waits auth)).

(** The state a [weight_tally_visitor] changes. *)
Record tally : Type := Tally {
  cached_permissions : permission_cache_type;
  used : list bool;
  total_weight : Z }.

Definition add_weight (t : tally) (weight : Z) : tally :=
  Tally (cached_permissions t) (used t) (u32 (total_weight t + weight)).

Section Checker.
Context (permission_to_authority : permission_level → option authority)
  (provided_keys : list public_key) (provided_delay : Z).

Definition visit_wait (w : wait_weight) (t : tally) : tally :=
  if wait_sec w * 1000000 <=? provided_delay then add_weight t (wait_weight_ w) else t.

Definition visit_key (k : key_weight) (t : tally) : tally :=
  match list_find (λ pk, pk = key k) provided_keys with
  | Some (i, _) => add_weight (Tally (cached_permissions t) (<[i := true]> (used t)) (total_weight t)) (key_weight_ k)
  | None => t
  end.

(** [satisfied] is the check of an authority one level deeper, where the depth
    limit allows it. A [permission_query_exception] of [permission_to_authority] is [None]. *)
Definition visit_account
    (satisfied : option (authority → permission_cache_type → list bool → bool * permission_cache_type * list bool))
    (a : permission_level_weight) (t : tally) : tally :=
  match permission_status_in_cache (cached_permissions t) (level a) with
  | None =>
    match satisfied with
    | None => t
    | Some satisfied =>
      match permission_to_authority (level a) with
      | None => t
      | Some auth =>
        let '(r, cache, used') := satisfied auth (<[level a := being_evaluated]> (cached_permissions t)) (used t) in
        if r then add_weight (Tally (<[level a := permission_satisfied]> cache) used' (total_weight t)) (level_weight a)
        else Tally (<[level a := permission_unsatisfied]> cache) used' (total_weight t)
      end
    end
  | Some permission_satisfied => add_weight t (level_weight a)
  | Some _ => t
  end.

(** The loop over the meta permissions, which stops at the threshold. *)
Fixpoint tally_loop (visit : meta_permission → tally → tally) (threshold : Z)
    (permissions : list meta_permission) (t : tally) : bool * tally :=
  match permissions with
  | [] => (false, t)
  | mp :: permissions =>
    let t := visit mp t in
    if threshold <=? total_weight t then (true, t) else tally_loop visit threshold permissions t
  end.

(** [satisfied( authority, cached_permissions, depth )], [depth_left] levels above the
    recursion depth limit: [depth_left = recursion_depth_limit - depth]. The used
    keys are put back when the authority is not satisfied. *)
Fixpoint satisfied_at (depth_left : nat) (auth : authority) (cache : permission_cache_type) (used_keys : list bool)
    : bool * permission_cache_type * list bool :=
  let visit mp t :=
    match mp with
    | MetaAccount a => visit_account (match depth_left with O => None | S depth_left => Some (satisfied_at depth_left) end) a t
    | MetaKey k => visit_key k t
    | MetaWait w => visit_wait w t
    end in
  let '(r, t) := tally_loop visit (threshold auth) (meta_permissions auth) (Tally cache used_keys 0) in
  (r, cached_permissions t, if r then used t else used_keys).

(** [satisfied( permission, cached_perms )] and [satisfied( authority, cached_perms )]
    with the caller's cache. *)
Definition satisfied_level (recursion_depth_limit : nat) (p : permission_level)
    (cache : permission_cache_type) (used_keys : list bool) : bool * permission_cache_type * list bool :=
  let t := visit_account (match recursion_depth_limit with O => None | S depth_left => Some (satisfied_at depth_left) end)
             (PermissionLevelWeight p 1) (Tally cache used_keys 0) in
  (0 <? total_weight t, cached_permissions t, used t).

Definition satisfied_authority (recursion_depth_limit : nat) (auth : authority)
    (cache : permission_cache_type) (used_keys : list bool) : bool * permission_cache_type * list bool :=
  satisfied_at recursion_depth_limit auth cache used_keys.

End Checker.

(** ** The object: [authority_checker] *)

Record authority_checker : Type := AuthorityChecker {
  checker_permission_to_authority : permission_level → option authority;
  checker_provided_keys : list public_key;
  checker_provided_permissions : list permission_level;
  checker_used_keys : list bool;
  checker_provided_delay : Z;
  checker_recursion_depth_limit : nat }.

Definition make_auth_checker (pta : permission_level → option authority) (recursion_depth_limit : nat)
    (provided_keys : list public_key) (provided_permissions : list permission_level) (provided_delay : Z)
    : authority_checker :=
  AuthorityChecker pta provided_keys provided_permissions (replicate (length provided_keys) false)
    provided_delay recursion_depth_limit.

Definition set_used_keys (c : authority_checker) (used_keys : list bool) : authority_checker :=
  AuthorityChecker (checker_permission_to_authority c) (checker_provided_keys c) (checker_provided_permissions c)
    used_keys (checker_provided_delay c) (checker_recursion_depth_limit c).

(** [satisfied( permission )] with a fresh cache, under the checker's delay or an
    overriding one. *)
Definition satisfied_under (c : authority_checker) (delay : Z) (p : permission_level) : bool * authority_checker :=
  let '(r, _, used_keys) :=
    satisfied_level (checker_permission_to_authority c) (checker_provided_keys c) delay
      (checker_recursion_depth_limit c) p (initialize_permission_cache (checker_provided_permissions c))
      (checker_used_keys c) in
  (r, set_used_keys c used_keys).

Definition satisfied (c : authority_checker) (p : permission_level) : bool * authority_checker :=
  satisfied_under c (checker_provided_delay c) p.

Definition all_keys_used (c : authority_checker) : bool := forallb (λ b, b) (checker_used_keys c).

(** [filter_data_by_marker]. *)
Definition filter_data_by_marker {A} (data : list A) (markers : list bool) (value : bool) : list A :=
  (filter (λ p, p.2 = value) (zip data markers)).*1.

Definition used_keys (c : authority_checker) : list public_key :=
  filter_data_by_marker (checker_provided_keys c) (checker_used_keys c) true.

Definition unused_keys (c : authority_checker) : list public_key :=
  filter_data_by_marker (checker_provided_keys c) (checker_used_keys c) false.
