(* ===== verification/AuthorityTheory.v ===== *)
(** * Authorities: what validation establishes and what the checker decides

    [grants] specifies satisfaction without cache, order or depth: a permission is
    granted if it is provided, or if keys, elapsed waits and granted permissions
    reach the threshold of its authority. *)

From S2P Require Import Prelude Names Authority.
Open Scope Z_scope.

(** ** Types *)

Definition is_u16 (x : Z) : Prop := 0 <= x < 65536.

(** The ranges of the fields' types. *)
Definition authority_typed (auth : authority) : Prop :=
  is_u32 (threshold auth) ∧
  Forall (λ k, is_u16 (key_weight_ k)) (keys auth) ∧
  Forall (λ a, is_u16 (level_weight a)) (accounts auth) ∧
  Forall (λ w, is_u16 (wait_weight_ w) ∧ is_u32 (wait_sec w)) (waits auth).

Definition entries (auth : authority) : list meta_permission :=
  (MetaAccount <$> accounts auth) ++ (MetaKey <$> keys auth) ++ (MetaWait <$> waits auth).

Lemma emplace_permission_perm mp l : emplace_permission mp l ≡ₚ mp :: l.
Proof.
  induction l as [|x l IH]; simpl; [done|]. case_match; [done|]. rewrite IH. apply Permutation_swap.
Qed.

Lemma meta_permissions_perm auth : meta_permissions auth ≡ₚ entries auth.
Proof.
  unfold meta_permissions. fold (entries auth).
  enough (∀ l acc, foldl (λ l mp, emplace_permission mp l) acc l ≡ₚ acc ++ l) as H by apply (H (entries auth) []).
  clear. intros l. induction l as [|mp l IH]; intros acc; simpl; [by rewrite app_nil_r|].
  rewrite IH, emplace_permission_perm. simpl. apply Permutation_middle.
Qed.

Lemma entries_weights auth mp : authority_typed auth → mp ∈ entries auth → is_u16 (meta_weight mp).
Proof.
  intros (_ & Hk & Ha & Hw). unfold entries. rewrite !elem_of_app, !list_elem_of_fmap.
  intros [(x & -> & Hx)|[(x & -> & Hx)|(x & -> & Hx)]]; simpl;
    [by apply (proj1 (Forall_forall _ _) Ha)|by apply (proj1 (Forall_forall _ _) Hk)
    |by apply (proj1 (Forall_forall _ _) Hw)].
Qed.

(** ** Satisfaction *)

Section Grants.
Context (pta : permission_level → option authority) (provided_keys : list public_key)
  (provided_permissions : list permission_level) (delay : Z).

(** The weight an entry contributes when the permissions in [G] are granted. *)
Definition entry_weight (G : permission_level → bool) (mp : meta_permission) : Z :=
  match mp with
  | MetaAccount a => if G (level a) then level_weight a else 0
  | MetaKey k => if bool_decide (key k ∈ provided_keys) then key_weight_ k else 0
  | MetaWait w => if wait_sec w * 1000000 <=? delay then wait_weight_ w else 0
  end.

Definition granted_weight (G : permission_level → bool) (auth : authority) : Z :=
  zsum (entry_weight G) (entries auth).

Inductive grants : permission_level → Prop :=
| grants_provided p :
    p ∈ provided_permissions ∨ PermissionLevel (actor p) 0 ∈ provided_permissions → grants p
| grants_authority p auth G :
    pta p = Some auth → (∀ q, G q = true → grants q) → threshold auth <= granted_weight G auth → grants p.

(** ** Soundness *)

(** Facts on the source of authorities: its authorities have the types of the code,
    and no permission with an empty name has one. *)
Context (pta_typed : ∀ p auth, pta p = Some auth → authority_typed auth)
  (pta_nonempty : ∀ p, permission p = 0 → pta p = None).

Abbreviation status := permission_status_in_cache.

Definition satisfied_in (c : permission_cache_type) (q : permission_level) : bool :=
  bool_decide (status c q = Some permission_satisfied).

Definition cache_sound (c : permission_cache_type) : Prop :=
  ∀ q, status c q = Some permission_satisfied → grants q.

(** The cache only learns: what it says of a permission stays. *)
Definition cache_extends (c c' : permission_cache_type) : Prop :=
  ∀ q s, status c q = Some s → status c' q = Some s.

Lemma status_insert_eq c p s : status (<[p := s]> c) p = Some s.
Proof. unfold status. by rewrite lookup_insert_eq. Qed.

Lemma status_insert_ne c p s q : permission p ≠ 0 → q ≠ p → status (<[p := s]> c) q = status c q.
Proof.
  intros Hp Hq. unfold status. rewrite lookup_insert_ne by done. case_match; [done|].
  apply lookup_insert_ne. intros ->. by simpl in Hp.
Qed.

Lemma cache_extends_trans c1 c2 c3 : cache_extends c1 c2 → cache_extends c2 c3 → cache_extends c1 c3.
Proof. intros H1 H2 q s Hs. by apply H2, H1. Qed.

Lemma extends_insert c p s : permission p ≠ 0 → status c p = None → cache_extends c (<[p := s]> c).
Proof.
  intros Hp Hn q s' Hs. destruct (decide (q = p)) as [-> |]; [congruence|]. by rewrite status_insert_ne.
Qed.

(** Updating the entry of a permission that was unknown. *)
Lemma extends_update c c' p s s' : permission p ≠ 0 → status c p = None →
  cache_extends (<[p := s]> c) c' → cache_extends c (<[p := s']> c').
Proof.
  intros Hp Hn Hext q s0 Hs. destruct (decide (q = p)) as [-> |]; [congruence|].
  rewrite status_insert_ne by done. apply Hext. by rewrite status_insert_ne.
Qed.

Lemma pta_permission p auth : pta p = Some auth → permission p ≠ 0.
Proof. intros Hp E. by rewrite pta_nonempty in Hp. Qed.

Lemma entry_weight_mono G G' mp : is_u16 (meta_weight mp) → (∀ q, G q = true → G' q = true) →
  0 <= entry_weight G mp <= entry_weight G' mp.
Proof.
  intros Hw HG. destruct mp as [a|k|w]; unfold is_u16 in Hw; simpl in *; try (case_match; lia).
  destruct (G (level a)) eqn:E; [rewrite (HG _ E); lia|]. case_match; lia.
Qed.

Lemma extends_satisfied c c' q : cache_extends c c' → satisfied_in c q = true → satisfied_in c' q = true.
Proof. unfold satisfied_in. rewrite !bool_decide_eq_true. intros H. apply H. Qed.

(** The loop under an invariant of the entries visited so far. *)
Lemma tally_loop_inv visit thr (I : list meta_permission → tally → Prop) l : ∀ l0 t r t',
  (∀ l1 mp t, I l1 t → mp ∈ l → I (l1 ++ [mp]) (visit mp t)) →
  I l0 t → tally_loop visit thr l t = (r, t') →
  ∃ l1 l2, l = l1 ++ l2 ∧ I (l0 ++ l1) t' ∧
    (if r then thr <= total_weight t' else l2 = [] ∧ (total_weight t < thr → total_weight t' < thr)).
Proof.
  induction l as [|mp l IH]; intros l0 t r t' Hstep Ht E; simpl in E.
  { injection E as <- <-. exists [], []. rewrite (app_nil_r l0). split_and!; auto. }
  pose proof (Hstep _ _ _ Ht (list_elem_of_here _ _)) as Hmp.
  destruct (Z.leb_spec thr (total_weight (visit mp t))) as [Hle|Hgt].
  { injection E as <- <-. by exists [mp], l. }
  apply (IH (l0 ++ [mp])) in E as (l1 & l2 & -> & HI & Hr); [|intros; apply Hstep; [done|by constructor]|done].
  exists (mp :: l1), l2. rewrite <- app_assoc in HI. split; [done|]. split; [done|].
  destruct r; [done|]. destruct Hr as [-> Hr]. auto.
Qed.

(** What a check of an authority guarantees. *)
Definition check_sound (f : authority → permission_cache_type → list bool → bool * permission_cache_type * list bool) : Prop :=
  ∀ auth c u r c' u', authority_typed auth → cache_sound c → f auth c u = (r, c', u') →
    cache_extends c c' ∧ cache_sound c' ∧ (r = true → threshold auth <= granted_weight (satisfied_in c') auth).

(** The invariant of the loop: the total is covered by the entries visited. *)
Definition tally_sound (c : permission_cache_type) (l : list meta_permission) (t : tally) : Prop :=
  cache_extends c (cached_permissions t) ∧ cache_sound (cached_permissions t) ∧
  0 <= total_weight t <= zsum (entry_weight (satisfied_in (cached_permissions t))) l.

Lemma cache_sound_insert c p s : permission p ≠ 0 → (s = permission_satisfied → grants p) →
  cache_sound c → cache_sound (<[p := s]> c).
Proof.
  intros Hp Hs Hc q Hq. destruct (decide (q = p)) as [-> |].
  - rewrite status_insert_eq in Hq. injection Hq as ->. auto.
  - rewrite status_insert_ne in Hq by done. by apply Hc.
Qed.

(** Adding the weight of an entry that counts. *)
Lemma tally_sound_add c l t u mp : tally_sound c l t → is_u16 (meta_weight mp) →
  entry_weight (satisfied_in (cached_permissions t)) mp = meta_weight mp →
  tally_sound c (l ++ [mp]) (add_weight (Tally (cached_permissions t) u (total_weight t)) (meta_weight mp)).
Proof.
  intros (He & Hs & Ht) [Hw _] E. split_and!; [done|done|..]; cbn [add_weight total_weight cached_permissions].
  - apply u32_range.
  - rewrite zsum_app. cbn [zsum foldr]. rewrite E. unfold u32.
    pose proof (Z.mod_le (total_weight t + meta_weight mp) (2 ^ 32)). lia.
Qed.

Lemma tally_sound_skip c l t mp : is_u16 (meta_weight mp) → tally_sound c l t → tally_sound c (l ++ [mp]) t.
Proof.
  intros Hw (He & Hs & Ht). split; [done|]. split; [done|]. rewrite zsum_app. cbn [zsum foldr].
  pose proof (entry_weight_mono (satisfied_in (cached_permissions t)) (satisfied_in (cached_permissions t)) mp Hw (λ _ H, H)).
  lia.
Qed.

Lemma tally_sound_grow c l t c' u : (∀ x, x ∈ l → is_u16 (meta_weight x)) →
  cache_extends (cached_permissions t) c' → cache_sound c' →
  tally_sound c l t → tally_sound c l (Tally c' u (total_weight t)).
Proof.
  intros Hl Hext Hs' (He & Hs & Ht). split; [by eapply cache_extends_trans|]. split; [done|].
  cbn [total_weight cached_permissions]. split; [lia|]. etrans; [apply Ht|]. apply zsum_le. intros x Hx.
  apply entry_weight_mono; [by apply Hl|]. intros q. by apply extends_satisfied.
Qed.

Lemma visit_account_sound f c l a t :
  match f with Some f => check_sound f | None => True end →
  is_u16 (level_weight a) → (∀ x, x ∈ l → is_u16 (meta_weight x)) →
  tally_sound c l t → tally_sound c (l ++ [MetaAccount a]) (visit_account pta f a t).
Proof.
  intros Hf Hw Hl Ht. pose proof Ht as (_ & Hs & _).
  pose proof (tally_sound_skip c l t (MetaAccount a) Hw Ht) as Hskip.
  unfold visit_account. destruct (status (cached_permissions t) (level a)) as [s|] eqn:Est.
  { destruct s; [done|done|]. destruct t as [c' u w].
    apply (tally_sound_add c l (Tally c' u w) u (MetaAccount a)); [done|done|].
    simpl in *. unfold satisfied_in. by rewrite bool_decide_eq_true_2. }
  destruct f as [f|]; [|done]. destruct (pta (level a)) as [auth|] eqn:Ep; [|done].
  pose proof (pta_permission _ _ Ep) as Hp.
  destruct (f auth _ (used t)) as [[r c'] u'] eqn:Ef.
  apply Hf in Ef as (Hext & Hs' & Hr); [|by eapply pta_typed|by apply cache_sound_insert].
  assert (Hx : ∀ s, (s = permission_satisfied → grants (level a)) →
    tally_sound c l (Tally (<[level a := s]> c') u' (total_weight t))).
  { intros s Hg. apply tally_sound_grow; [done|by eapply extends_update|by apply cache_sound_insert|done]. }
  destruct r; [|by apply tally_sound_skip, Hx].
  apply (tally_sound_add c l (Tally (<[level a := permission_satisfied]> c') u' (total_weight t)) u' (MetaAccount a)); [|done|].
  - apply Hx. intros _. apply (grants_authority _ auth (satisfied_in c')); [done| |by apply Hr].
    intros q Hq. apply Hs'. by apply bool_decide_eq_true in Hq.
  - simpl. unfold satisfied_in. rewrite bool_decide_eq_true_2; [done|apply status_insert_eq].
Qed.

Lemma visit_key_sound c l k t : is_u16 (key_weight_ k) →
  tally_sound c l t → tally_sound c (l ++ [MetaKey k]) (visit_key provided_keys k t).
Proof.
  intros Hw Ht. destruct t as [c' u w].
  unfold visit_key. destruct (list_find _ provided_keys) as [[i k']|] eqn:E.
  - apply (tally_sound_add c l (Tally c' u w) _ (MetaKey k)); [done|done|]. simpl.
    apply list_find_Some in E as (Hi & <- & _). rewrite bool_decide_eq_true_2; [done|by eapply list_elem_of_lookup_2].
  - by apply tally_sound_skip.
Qed.

Lemma visit_wait_sound c l w t : is_u16 (wait_weight_ w) →
  tally_sound c l t → tally_sound c (l ++ [MetaWait w]) (visit_wait delay w t).
Proof.
  intros Hw Ht. destruct t as [c' u x].
  unfold visit_wait. destruct (wait_sec w * 1000000 <=? delay) eqn:E.
  - apply (tally_sound_add c l (Tally c' u x) u (MetaWait w)); [done|done|]. simpl. by rewrite E.
  - by apply tally_sound_skip.
Qed.

(** The visitor of [satisfied_at]. *)
Definition visit (depth_left : nat) (mp : meta_permission) (t : tally) : tally :=
  match mp with
  | MetaAccount a =>
    visit_account pta (match depth_left with O => None | S d => Some (satisfied_at pta provided_keys delay d) end) a t
  | MetaKey k => visit_key provided_keys k t
  | MetaWait w => visit_wait delay w t
  end.

Lemma satisfied_at_eq d auth c u :
  satisfied_at pta provided_keys delay d auth c u =
  let '(r, t) := tally_loop (visit d) (threshold auth) (meta_permissions auth) (Tally c u 0) in
  (r, cached_permissions t, if r then used t else u).
Proof. by destruct d. Qed.

Lemma satisfied_at_sound d : check_sound (satisfied_at pta provided_keys delay d).
Proof.
  induction d as [d IH] using lt_wf_ind. intros auth c u r c' u' Htyped Hc.
  rewrite satisfied_at_eq. destruct (tally_loop _ _ _ _) as [r' t'] eqn:E. intros [= <- <- <-].
  assert (Hin : ∀ mp, mp ∈ meta_permissions auth → is_u16 (meta_weight mp)).
  { intros mp. rewrite meta_permissions_perm. by apply entries_weights. }
  apply (tally_loop_inv _ _ (λ l t, (∀ x, x ∈ l → is_u16 (meta_weight x)) ∧ tally_sound c l t) _ []) in E
    as (l1 & l2 & El & (Hl1 & He & Hs & Ht) & Hr).
  - cbn [app] in *. split; [done|]. split; [done|]. intros ->. etrans; [apply Hr|]. etrans; [apply Ht|].
    unfold granted_weight. rewrite <- meta_permissions_perm, El, zsum_app.
    assert (0 <= zsum (entry_weight (satisfied_in (cached_permissions t'))) l2); [|lia].
    apply (zsum_bounds _ _ 65535). intros x Hx.
    assert (is_u16 (meta_weight x)) as Hw by (apply Hin; rewrite El; apply elem_of_app; by right).
    split; [by apply (entry_weight_mono (satisfied_in (cached_permissions t')) _ x Hw (λ _ H, H))|].
    unfold is_u16 in Hw. destruct x; simpl in *; case_match; lia.
  - intros l mp t [Hl Ht] Hmp. apply Hin in Hmp. split.
    + intros x [Hx|Hx%list_elem_of_singleton]%elem_of_app; [by apply Hl|by subst].
    + destruct mp as [a|k|w]; simpl.
      * apply visit_account_sound; [|done|done|done]. destruct d; [done|]. apply IH. lia.
      * by apply visit_key_sound.
      * by apply visit_wait_sound.
  - split; [by intros x ?%not_elem_of_nil|]. split_and!; simpl; [by intros ??|done|lia..].
Qed.

Lemma initialize_status q : status (initialize_permission_cache provided_permissions) q =
  if bool_decide (q ∈ provided_permissions ∨ PermissionLevel (actor q) 0 ∈ provided_permissions)
  then Some permission_satisfied else None.
Proof.
  assert (Hl : ∀ p, initialize_permission_cache provided_permissions !! p
    = if bool_decide (p ∈ provided_permissions) then Some permission_satisfied else None).
  { intros p. unfold initialize_permission_cache. case_bool_decide as Hp.
    - apply elem_of_list_to_map_1'; [|by apply list_elem_of_fmap; eauto].
      by intros ? (? & [= -> ->] & _)%list_elem_of_fmap.
    - apply not_elem_of_list_to_map_1. intros (x & -> & (y & -> & Hy)%list_elem_of_fmap)%list_elem_of_fmap. done. }
  unfold status. rewrite !Hl. repeat case_bool_decide; tauto.
Qed.

Lemma initialize_sound : cache_sound (initialize_permission_cache provided_permissions).
Proof. intros q. rewrite initialize_status. case_bool_decide; [|done]. intros _. by apply grants_provided. Qed.

Lemma satisfied_level_sound limit p u r c' u' :
  satisfied_level pta provided_keys delay limit p (initialize_permission_cache provided_permissions) u = (r, c', u') →
  r = true → grants p.
Proof.
  unfold satisfied_level. intros [= <- <- <-] Hr%Z.ltb_lt.
  set (c := initialize_permission_cache _) in *.
  destruct (visit_account_sound (match limit with O => None | S d => Some (satisfied_at pta provided_keys delay d) end)
    c [] (PermissionLevelWeight p 1) (Tally c u 0)) as (_ & Hs & Ht).
  - destruct limit; [done|apply satisfied_at_sound].
  - unfold is_u16. simpl. lia.
  - by intros x ?%not_elem_of_nil.
  - split_and!; simpl; [by intros ??|apply initialize_sound|lia..].
  - cbn [app zsum foldr entry_weight level level_weight] in Ht. apply Hs.
    destruct (satisfied_in _ p) eqn:E in Ht; [by apply bool_decide_eq_true in E|lia].
Qed.

(** ** Completeness on permissions without cycles, within the depth limit

    [rank] decreases from a permission to those of its authority. *)
Section Complete.
Context (rank : permission_level → nat)
  (rank_decreases : ∀ p auth a, pta p = Some auth → a ∈ accounts auth → (rank (level a) < rank p)%nat).

(** What the cache says below rank [n] is final. *)
Definition cache_complete (n : nat) (c : permission_cache_type) : Prop :=
  ∀ q, (status c q = Some permission_unsatisfied → ¬ grants q) ∧
       (status c q = Some being_evaluated → (n <= rank q)%nat) ∧
       (q ∈ provided_permissions ∨ PermissionLevel (actor q) 0 ∈ provided_permissions → status c q ≠ None).

(** No evaluation stays open. *)
Definition closes (c c' : permission_cache_type) : Prop :=
  ∀ q, status c' q = Some being_evaluated → status c q = Some being_evaluated.

Definition positive (auth : authority) : Prop :=
  0 < threshold auth ∧ Z.of_nat (length (entries auth)) <= 65536.

Context (pta_positive : ∀ p auth, pta p = Some auth → positive auth).

Definition check_complete (n : nat)
    (f : authority → permission_cache_type → list bool → bool * permission_cache_type * list bool) : Prop :=
  ∀ auth c u r c' u' m, authority_typed auth → positive auth → cache_sound c → cache_complete m c →
    (∀ a, a ∈ accounts auth → (rank (level a) < m)%nat ∧ (rank (level a) < n)%nat) →
    f auth c u = (r, c', u') →
    cache_complete m c' ∧ closes c c' ∧
    (r = false → ∀ G, (∀ q, G q = true → grants q) → granted_weight G auth < threshold auth).

(** The invariant of the loop: the total is exactly that of the granted entries. *)
Definition tally_complete (m : nat) (c : permission_cache_type) (l : list meta_permission) (t : tally) : Prop :=
  closes c (cached_permissions t) ∧ cache_complete m (cached_permissions t) ∧
  total_weight t = u32 (zsum (entry_weight (satisfied_in (cached_permissions t))) l) ∧
  ∀ a, MetaAccount a ∈ l → grants (level a) → satisfied_in (cached_permissions t) (level a) = true.

Lemma tally_complete_add m c l t u mp : tally_complete m c l t →
  entry_weight (satisfied_in (cached_permissions t)) mp = meta_weight mp →
  (∀ a, mp = MetaAccount a → satisfied_in (cached_permissions t) (level a) = true) →
  tally_complete m c (l ++ [mp]) (add_weight (Tally (cached_permissions t) u (total_weight t)) (meta_weight mp)).
Proof.
  intros (Hc & Hk & Ht & Ha) E Hmp. unfold tally_complete. cbn [add_weight cached_permissions total_weight].
  split; [done|]. split; [done|]. split.
  - rewrite Ht, zsum_app. cbn [zsum foldr]. rewrite E. rewrite u32_add_l. f_equal. lia.
  - intros a [Hin|Hin%list_elem_of_singleton]%elem_of_app Hg; [by apply Ha|by apply Hmp].
Qed.

Lemma tally_complete_skip m c l t mp : tally_complete m c l t →
  entry_weight (satisfied_in (cached_permissions t)) mp = 0 →
  (∀ a, mp = MetaAccount a → ¬ grants (level a)) →
  tally_complete m c (l ++ [mp]) t.
Proof.
  intros (Hc & Hk & Ht & Ha) E Hmp. split; [done|]. split; [done|]. split.
  - rewrite Ht, zsum_app. cbn [zsum foldr]. rewrite E. f_equal. lia.
  - intros a [Hin|Hin%list_elem_of_singleton]%elem_of_app Hg; [by apply Ha|]. by destruct (Hmp a).
Qed.

Lemma tally_complete_grow m c l t c' u : tally_complete m c l t →
  cache_extends (cached_permissions t) c' → cache_sound c' → closes (cached_permissions t) c' → cache_complete m c' →
  tally_complete m c l (Tally c' u (total_weight t)).
Proof.
  intros (Hc & Hk & Ht & Ha) Hext Hs Hcl Hk'. unfold tally_complete. cbn [cached_permissions total_weight].
  split; [intros q Hq; by apply Hc, Hcl|]. split; [done|]. split.
  - rewrite Ht. f_equal. apply zsum_ext. intros [a| |] Hin; simpl; [|done..].
    destruct (satisfied_in (cached_permissions t) (level a)) eqn:E1.
    + by rewrite (extends_satisfied _ _ _ Hext E1).
    + destruct (satisfied_in c' (level a)) eqn:E2; [|done].
      apply bool_decide_eq_true, Hs, Ha in E2; [congruence|done].
  - intros a Hin Hg. eapply extends_satisfied, Ha; done.
Qed.

(** Closing the evaluation of a permission that was unknown. *)
Lemma cache_complete_update m m' c c' p s : permission p ≠ 0 → status c p = None → s ≠ being_evaluated →
  (s = permission_unsatisfied → ¬ grants p) → cache_complete m c → cache_complete m' c' →
  closes (<[p := being_evaluated]> c) c' → cache_extends (<[p := being_evaluated]> c) c' →
  closes c (<[p := s]> c') ∧ cache_complete m (<[p := s]> c').
Proof.
  intros Hp Hn Hs Hg Hc Hc' Hcl Hext.
  assert (closes c (<[p := s]> c')) as Hcl'.
  { intros q. destruct (decide (q = p)) as [-> |]; [rewrite status_insert_eq; congruence|].
    rewrite status_insert_ne by done. intros Hq%Hcl. by rewrite status_insert_ne in Hq. }
  split; [done|]. intros q. split; [|split].
  - destruct (decide (q = p)) as [-> |]; [rewrite status_insert_eq; intros [= ->]; auto|].
    rewrite status_insert_ne by done. apply Hc'.
  - intros Hq%Hcl'. by apply Hc.
  - intros Hq%Hc. destruct (status c q) as [s'|] eqn:E; [|done].
    by rewrite (extends_update _ _ _ _ s Hp Hn Hext q s' E).
Qed.

Lemma cache_complete_open m c p : permission p ≠ 0 → (rank p < m)%nat → cache_complete m c →
  cache_complete (rank p) (<[p := being_evaluated]> c).
Proof.
  intros Hp Hr Hc q. destruct (decide (q = p)) as [-> |].
  - by rewrite status_insert_eq.
  - rewrite status_insert_ne by done. destruct (Hc q) as (H1 & H2 & H3). split_and!; [done| |done].
    intros Hq%H2. lia.
Qed.

Lemma grants_inv p auth : pta p = Some auth → grants p →
  (p ∈ provided_permissions ∨ PermissionLevel (actor p) 0 ∈ provided_permissions) ∨
  ∃ G, (∀ q, G q = true → grants q) ∧ threshold auth <= granted_weight G auth.
Proof. intros Hp Hg. destruct Hg as [p Hg|p auth' G Hp' HG Hth]; [by left|]. right. exists G. naive_solver. Qed.

(** A permission of unknown status, evaluated and entered in the cache. *)
Lemma evaluated_account_complete d' m c l a c0 u w auth r c' u' :
  check_complete d' (satisfied_at pta provided_keys delay d') →
  (rank (level a) < m)%nat → (rank (level a) < S d')%nat →
  cache_sound c0 → cache_complete m c0 → tally_complete m c l (Tally c0 u w) →
  permission_status_in_cache c0 (level a) = None → pta (level a) = Some auth →
  satisfied_at pta provided_keys delay d' auth (<[level a := being_evaluated]> c0) u = (r, c', u') →
  tally_complete m c (l ++ [MetaAccount a])
    (if r then add_weight (Tally (<[level a := permission_satisfied]> c') u' w) (level_weight a)
     else Tally (<[level a := permission_unsatisfied]> c') u' w).
Proof.
  intros Hf Hm Hd Hs Hk Ht Est Ep Ef.
  pose proof (pta_permission _ _ Ep) as Hp.
  assert (cache_sound (<[level a := being_evaluated]> c0)) as Hs1 by (by apply cache_sound_insert).
  destruct (satisfied_at_sound d' _ _ _ _ _ _ (pta_typed _ _ Ep) Hs1 Ef) as (Hext & Hs' & Hr).
  destruct (Hf auth _ u r c' u' (rank (level a)) (pta_typed _ _ Ep) (pta_positive _ _ Ep) Hs1
    (cache_complete_open m _ _ Hp Hm Hk)) as (Hk' & Hcl & Hr'); [|done|].
  { intros b Hb. pose proof (rank_decreases _ _ _ Ep Hb). lia. }
  assert (Hg : r = true → grants (level a)).
  { intros ->. apply (grants_authority _ auth (satisfied_in c')); [done| |by apply Hr].
    intros q Hq. apply Hs'. by apply bool_decide_eq_true in Hq. }
  assert (Hng : r = false → ¬ grants (level a)).
  { intros -> Hg'. destruct (grants_inv _ _ Ep Hg') as [Hprov|(G & HG & Hth)]; [by apply Hk in Hprov|].
    specialize (Hr' eq_refl G HG). lia. }
  assert (Hgrow : ∀ s, s ≠ being_evaluated → (s = permission_satisfied → grants (level a)) →
    (s = permission_unsatisfied → ¬ grants (level a)) →
    tally_complete m c l (Tally (<[level a := s]> c') u' w)).
  { intros s H1 H2 H3. destruct (cache_complete_update m _ c0 c' (level a) s Hp Est H1 H3 Hk Hk' Hcl Hext).
    apply (tally_complete_grow m c l (Tally c0 u w)); [done|by eapply extends_update|by apply cache_sound_insert|done|done]. }
  destruct r.
  - apply (tally_complete_add m c l (Tally (<[level a := permission_satisfied]> c') u' w) u' (MetaAccount a));
      [by apply Hgrow; auto| |];
      [simpl|intros ? [= <-]]; unfold satisfied_in; rewrite bool_decide_eq_true_2; done || apply status_insert_eq.
  - apply tally_complete_skip; [by apply Hgrow; auto| |intros ? [= <-]; by apply Hng].
    simpl. unfold satisfied_in. rewrite bool_decide_eq_false_2; [done|by rewrite status_insert_eq].
Qed.

Lemma visit_account_complete d m c l a t :
  (∀ d', d = S d' → check_complete d' (satisfied_at pta provided_keys delay d')) →
  is_u16 (level_weight a) → (∀ x, x ∈ l → is_u16 (meta_weight x)) →
  (rank (level a) < m)%nat → (rank (level a) < d)%nat →
  cache_sound (cached_permissions t) → tally_complete m c l t →
  tally_complete m c (l ++ [MetaAccount a]) (visit d (MetaAccount a) t).
Proof.
  intros Hf Hw Hl Hm Hd Hs Ht. pose proof Ht as (_ & Hk & _). destruct t as [c0 u w]. cbn [cached_permissions] in *.
  assert (Hunsat : status c0 (level a) ≠ Some permission_satisfied → ¬ grants (level a) →
    tally_complete m c (l ++ [MetaAccount a]) (Tally c0 u w)).
  { intros Hn Hg. apply tally_complete_skip; [done| |by intros ? [= <-]]. simpl. unfold satisfied_in.
    by rewrite bool_decide_eq_false_2. }
  cbn [visit]. unfold visit_account. cbn [cached_permissions used total_weight].
  destruct (status c0 (level a)) as [s|] eqn:Est.
  { destruct s.
    - apply Hk in Est. lia.
    - apply Hunsat; [done|]. by apply Hk.
    - assert (satisfied_in c0 (level a) = true) as E by (unfold satisfied_in; by rewrite bool_decide_eq_true_2).
      apply (tally_complete_add m c l (Tally c0 u w) u (MetaAccount a)); [done|simpl; by rewrite E|].
      by intros ? [= <-]. }
  destruct d as [|d']; [lia|].
  destruct (pta (level a)) as [auth|] eqn:Ep.
  2: { apply Hunsat; [done|]. intros Hg. destruct Hg as [p Hg|p auth G Hp]; [|congruence]. by apply Hk in Hg. }
  destruct (satisfied_at pta provided_keys delay d' auth _ u) as [[r c'] u'] eqn:Ef.
  by eapply evaluated_account_complete; [apply Hf|..].
Qed.

Lemma visit_complete d m c l auth mp t :
  (∀ d', d = S d' → check_complete d' (satisfied_at pta provided_keys delay d')) →
  authority_typed auth → (∀ x, x ∈ l → is_u16 (meta_weight x)) → mp ∈ entries auth →
  (∀ a, a ∈ accounts auth → (rank (level a) < m)%nat ∧ (rank (level a) < d)%nat) →
  cache_sound (cached_permissions t) → tally_complete m c l t → tally_complete m c (l ++ [mp]) (visit d mp t).
Proof.
  intros Hf Htyped Hl Hin Hrank Hs Ht. pose proof (entries_weights _ _ Htyped Hin) as Hw.
  destruct mp as [a|k|w]; [|destruct t as [c0 u x]; cbn [visit]..].
  - assert (a ∈ accounts auth) as Ha.
    { unfold entries in Hin. rewrite !elem_of_app, !list_elem_of_fmap in Hin. naive_solver. }
    destruct (Hrank _ Ha). by apply visit_account_complete.
  - unfold visit_key. destruct (list_find _ provided_keys) as [[i k']|] eqn:E.
    + apply (tally_complete_add m c l (Tally c0 u x) _ (MetaKey k)); [done| |done]. simpl.
      apply list_find_Some in E as (Hi & <- & _). rewrite bool_decide_eq_true_2; [done|by eapply list_elem_of_lookup_2].
    + apply tally_complete_skip; [done| |done]. simpl. rewrite bool_decide_eq_false_2; [done|].
      intros Hk. apply list_find_None in E. by apply (proj1 (Forall_forall _ _) E (key k) Hk).
  - unfold visit_wait. destruct (wait_sec w * 1000000 <=? delay) eqn:E.
    + apply (tally_complete_add m c l (Tally c0 u x) u (MetaWait w)); [done|simpl; by rewrite E|done].
    + apply tally_complete_skip; [done|simpl; by rewrite E|done].
Qed.

Lemma granted_weight_small G auth : authority_typed auth → positive auth → is_u32 (granted_weight G auth).
Proof.
  intros Htyped [_ Hlen].
  pose proof (zsum_bounds (entry_weight G) (entries auth) 65535) as Hb. unfold is_u32, granted_weight.
  assert (0 <= zsum (entry_weight G) (entries auth) <= 65535 * Z.of_nat (length (entries auth))); [|lia].
  apply Hb. intros mp Hmp. pose proof (entries_weights _ _ Htyped Hmp) as Hw.
  pose proof (entry_weight_mono G G mp Hw (λ _ H, H)). split; [lia|].
  unfold is_u16 in Hw. destruct mp; simpl in *; case_match; lia.
Qed.

Lemma satisfied_at_complete d : check_complete d (satisfied_at pta provided_keys delay d).
Proof.
  induction d as [d IH] using lt_wf_ind. intros auth c u r c' u' m Htyped Hpos Hs Hk Hrank.
  rewrite satisfied_at_eq. destruct (tally_loop _ _ _ _) as [r' t'] eqn:E. intros [= <- <- <-].
  assert (Hin : ∀ mp, mp ∈ meta_permissions auth → mp ∈ entries auth) by (intros mp; by rewrite meta_permissions_perm).
  apply (tally_loop_inv _ _ (λ l t, (∀ x, x ∈ l → is_u16 (meta_weight x)) ∧ tally_sound c l t ∧ tally_complete m c l t)
    _ []) in E as (l1 & l2 & El & (Hl1 & (He & Hs' & _) & (Hcl & Hk' & Ht & Ha)) & Hr).
  - cbn [app] in *. split; [done|]. split; [done|]. intros -> G HG. destruct Hr as [-> Hr].
    rewrite app_nil_r in El. subst l1. specialize (Hr (proj1 Hpos)).
    rewrite meta_permissions_perm in Ht. fold (granted_weight (satisfied_in (cached_permissions t')) auth) in Ht.
    rewrite u32_small in Ht by (by apply granted_weight_small). rewrite Ht in Hr.
    eapply Z.le_lt_trans; [|apply Hr]. apply zsum_le. intros mp Hmp.
    pose proof (entries_weights _ _ Htyped Hmp) as Hw. unfold is_u16 in Hw.
    destruct mp as [a| |]; simpl; [|lia..]. destruct (G (level a)) eqn:EG; [|simpl in *; case_match; lia].
    rewrite (Ha a); [lia|by rewrite meta_permissions_perm|by apply HG].
  - intros l mp t (Hl & Hts & Htc) Hmp. apply Hin in Hmp. pose proof (entries_weights _ _ Htyped Hmp) as Hw.
    split; [|split].
    + intros x [Hx|Hx%list_elem_of_singleton]%elem_of_app; [by apply Hl|by subst].
    + destruct mp as [a|k|w]; simpl.
      * apply visit_account_sound; [|done|done|done]. destruct d; [done|]. apply satisfied_at_sound.
      * by apply visit_key_sound.
      * by apply visit_wait_sound.
    + apply (visit_complete d m c l auth mp t); try done; [|by apply Hts].
      intros d' ->. apply IH. lia.
  - split; [by intros x ?%not_elem_of_nil|]. split; [split_and!; simpl; [by intros ??|done|lia..]|].
    split_and!; simpl; [by intros q|done|done|]. by intros a ?%not_elem_of_nil.
Qed.

Lemma satisfied_level_complete limit p u r c' u' : (rank p < limit)%nat →
  satisfied_level pta provided_keys delay limit p (initialize_permission_cache provided_permissions) u = (r, c', u') →
  grants p → r = true.
Proof.
  unfold satisfied_level. intros Hlim [= <- <- <-] Hg. set (c := initialize_permission_cache _).
  destruct (visit_account_complete limit (S (rank p)) c [] (PermissionLevelWeight p 1) (Tally c u 0)) as (_ & _ & Ht & Ha).
  - intros d' _. apply satisfied_at_complete.
  - unfold is_u16. simpl. lia.
  - by intros x ?%not_elem_of_nil.
  - simpl. lia.
  - simpl. lia.
  - apply initialize_sound.
  - split; [by intros q|]. cbn [cached_permissions total_weight]. split; [|split; [done|by intros a ?%not_elem_of_nil]].
    intros q. unfold c. rewrite initialize_status. case_bool_decide; [by split_and!|]. split_and!; [done..|by intros ?].
  - specialize (Ha (PermissionLevelWeight p 1) (proj2 (list_elem_of_singleton _ _) eq_refl) Hg).
    cbn [visit level] in *. rewrite Ht. cbn [app zsum foldr entry_weight level level_weight]. by rewrite Ha.
Qed.

End Complete.

End Grants.

(** ** Validation *)

Lemma bytes_ltb_trans a : ∀ b c, bytes_ltb a b = true → bytes_ltb b c = true → bytes_ltb a c = true.
Proof.
  induction a as [|x a IH]; intros [|y b] [|z c]; simpl; try done.
  intros [H1|[H1 H1']%andb_prop]%orb_prop [H2|[H2 H2']%andb_prop]%orb_prop; breflect; apply orb_true_iff;
    first [left; apply Z.ltb_lt; lia | right; apply andb_true_iff; split; [apply Z.eqb_eq; lia|by eapply IH]].
Qed.

#[export] Instance key_ltb_trans : Transitive (λ a b, key_ltb a b = true).
Proof.
  intros a b c. unfold key_ltb.
  intros [H1|[H1 H1']%andb_prop]%orb_prop [H2|[H2 H2']%andb_prop]%orb_prop; breflect; apply orb_true_iff;
    first [left; apply Z.ltb_lt; lia
          | right; apply andb_true_iff; split; [apply Z.eqb_eq; lia|by eapply bytes_ltb_trans]].
Qed.

#[export] Instance level_ltb_trans : Transitive (λ a b, level_ltb a b = true).
Proof. intros a b c. unfold level_ltb. rewrite !orb_true_iff, !andb_true_iff. intros H1 H2. 
  rewrite !Z.ltb_lt, !Z.eqb_eq in *. lia. Qed.

Lemma validate_sorted_prev {A} (lt : A → A → bool) w l : ∀ p tot t,
  validate_sorted lt w (Some p) l tot = Some t ↔
  Sorted (λ a b, lt a b = true) (p :: l) ∧ t = foldl (λ s x, u32 (s + w x)) tot l.
Proof.
  induction l as [|x l IH]; intros p tot t; cbn [validate_sorted foldl].
  - split; [intros [= <-]; by repeat constructor|by intros [_ ->]].
  - destruct (lt p x) eqn:E; simpl.
    + rewrite IH. split; intros [Hs ->]; (split; [|done]).
      * constructor; [done|by constructor].
      * by apply Sorted_inv in Hs as [? _].
    + split; [done|]. intros [Hs _]. apply Sorted_inv in Hs as [_ Hs]. inversion Hs. congruence.
Qed.

Lemma validate_sorted_spec {A} (lt : A → A → bool) w l tot t :
  validate_sorted lt w None l tot = Some t ↔
  Sorted (λ a b, lt a b = true) l ∧ t = foldl (λ s x, u32 (s + w x)) tot l.
Proof.
  destruct l as [|x l]; cbn [validate_sorted foldl].
  - split; [intros [= <-]; by repeat constructor|by intros [_ ->]].
  - apply validate_sorted_prev.
Qed.

Lemma foldl_u32 {A} (w : A → Z) l : ∀ s, is_u32 s → foldl (λ s x, u32 (s + w x)) s l = u32 (s + zsum w l).
Proof.
  induction l as [|x l IH]; intros s Hs; simpl.
  - by rewrite Z.add_0_r, u32_small.
  - rewrite IH, u32_add_l by apply u32_range. f_equal. lia.
Qed.

Lemma entries_total auth : zsum meta_weight (entries auth)
  = zsum level_weight (accounts auth) + (zsum key_weight_ (keys auth) + zsum wait_weight_ (waits auth)).
Proof. unfold entries. by rewrite !zsum_app, !zsum_fmap. Qed.

(** The total the loops of [validate] compute does not wrap. *)
Lemma validate_total auth : authority_typed auth → Z.of_nat (length (entries auth)) <= 65536 →
  foldl (λ s x, u32 (s + wait_weight_ x))
    (foldl (λ s x, u32 (s + level_weight x)) (foldl (λ s x, u32 (s + key_weight_ x)) 0 (keys auth)) (accounts auth))
    (waits auth)
  = zsum meta_weight (entries auth).
Proof.
  intros Ht Hlen. rewrite (foldl_u32 key_weight_) by (unfold is_u32; lia).
  rewrite (foldl_u32 level_weight) by apply u32_range. rewrite (foldl_u32 wait_weight_) by apply u32_range.
  rewrite u32_add_l, <- Z.add_assoc, u32_add_l.
  rewrite u32_small; [rewrite entries_total; lia|].
  pose proof (zsum_bounds meta_weight (entries auth) 65535) as Hb.
  rewrite entries_total in Hb. unfold is_u32.
  assert (∀ x, x ∈ entries auth → 0 <= meta_weight x <= 65535) as Hx.
  { intros x Hx. pose proof (entries_weights _ _ Ht Hx). unfold is_u16 in *. lia. }
  specialize (Hb Hx). lia.
Qed.

(** What the comment on [validate] promises: keys, permissions and waits unique and
    sorted, and some keys, permissions and delay that reach the threshold. *)
Definition validated (auth : authority) : Prop :=
  Z.of_nat (length (entries auth)) <= 65536 ∧ 0 < threshold auth ∧
  StronglySorted (λ a b, key_ltb a b = true) (key <$> keys auth) ∧
  StronglySorted (λ a b, level_ltb a b = true) (level <$> accounts auth) ∧
  StronglySorted Z.lt (wait_sec <$> waits auth) ∧ Forall (λ w, 0 < wait_sec w) (waits auth) ∧
  ∃ provided_keys delay G, threshold auth <= granted_weight provided_keys delay G auth.

Lemma Sorted_fmap_iff {A B} (R : B → B → Prop) (f : A → B) l : Sorted (λ a b, R (f a) (f b)) l ↔ Sorted R (f <$> l).
Proof.
  induction l as [|x l IH]; [by split; constructor|]. rewrite fmap_cons.
  split; intros [Hs Hh]%Sorted_inv; (constructor; [by apply IH|]).
  - destruct l; [constructor|]. inversion Hh. by constructor.
  - destruct l; [constructor|]. inversion Hh. by constructor.
Qed.

Lemma StronglySorted_fmap_iff {A B} (R : B → B → Prop) `{!Transitive R} (f : A → B) l :
  Sorted (λ a b, R (f a) (f b)) l ↔ StronglySorted R (f <$> l).
Proof.
  rewrite Sorted_fmap_iff. split; [by apply Sorted_StronglySorted|by apply StronglySorted_Sorted].
Qed.

(** The total weight is what everything together grants. *)
Lemma total_is_reachable auth : authority_typed auth →
  threshold auth <= zsum meta_weight (entries auth) ↔
  ∃ provided_keys delay G, threshold auth <= granted_weight provided_keys delay G auth.
Proof.
  intros Ht. split.
  - intros Hle. exists (key <$> keys auth), (4294967296 * 1000000), (λ _, true). etrans; [apply Hle|].
    apply zsum_le. intros mp Hmp. destruct mp as [a|k|w]; simpl; [lia|..].
    + rewrite bool_decide_eq_true_2; [lia|]. apply list_elem_of_fmap. exists k. split; [done|].
      unfold entries in Hmp. rewrite !elem_of_app, !list_elem_of_fmap in Hmp. naive_solver.
    + assert (w ∈ waits auth) as Hw.
      { unfold entries in Hmp. rewrite !elem_of_app, !list_elem_of_fmap in Hmp. naive_solver. }
      destruct Ht as (_ & _ & _ & Hws). destruct (proj1 (Forall_forall _ _) Hws w Hw) as [_ Hsec].
      unfold is_u32 in Hsec. rewrite (proj2 (Z.leb_le _ _)); lia.
  - intros (pk & delay & G & Hle). etrans; [apply Hle|]. apply zsum_le. intros mp Hmp.
    pose proof (entries_weights _ _ Ht Hmp) as Hw. unfold is_u16 in Hw. destruct mp; simpl in *; case_match; lia.
Qed.

Lemma meta_entries_length auth :
  Z.of_nat (length (entries auth)) =
  Z.of_nat (length (keys auth)) + Z.of_nat (length (accounts auth)) + Z.of_nat (length (waits auth)).
Proof. unfold entries. rewrite !length_app, !length_fmap. lia. Qed.

Lemma waits_positive ws : Forall (λ w, is_u16 (wait_weight_ w) ∧ is_u32 (wait_sec w)) ws →
  StronglySorted Z.lt (wait_sec <$> ws) →
  (match ws with w :: _ => wait_sec w =? 0 | [] => false end = false ↔ Forall (λ w, 0 < wait_sec w) ws).
Proof.
  intros Ht Hs. destruct ws as [|w ws]; [done|]. apply Forall_cons in Ht as [[_ Hw] _]. unfold is_u32 in Hw.
  rewrite fmap_cons in Hs. apply StronglySorted_inv in Hs as [_ Hs]. rewrite Z.eqb_neq, Forall_cons. split.
  - intros Hne. split; [lia|]. apply Forall_forall. intros x Hx.
    assert (wait_sec w < wait_sec x); [|lia]. apply (proj1 (Forall_forall _ _) Hs). by apply list_elem_of_fmap_2.
  - intros [? _]. lia.
Qed.

Lemma validate_conditions auth : validate auth = true ↔
  Z.of_nat (length (entries auth)) <= 65536 ∧ threshold auth ≠ 0 ∧
  Sorted (λ a b, key_ltb (key a) (key b) = true) (keys auth) ∧
  Sorted (λ a b, level_ltb (level a) (level b) = true) (accounts auth) ∧
  Sorted (λ a b, (wait_sec a <? wait_sec b) = true) (waits auth) ∧
  match waits auth with w :: _ => wait_sec w =? 0 | [] => false end = false ∧
  threshold auth <= foldl (λ s x, u32 (s + wait_weight_ x))
    (foldl (λ s x, u32 (s + level_weight x)) (foldl (λ s x, u32 (s + key_weight_ x)) 0 (keys auth)) (accounts auth))
    (waits auth).
Proof.
  unfold validate. rewrite <- meta_entries_length. split.
  - repeat case_match; try done; intros Hle%Z.leb_le; breflect;
      repeat match goal with H : validate_sorted _ _ _ _ _ = Some _ |- _ => apply validate_sorted_spec in H as [??] end;
      by subst.
  - intros (Hlen & Hthr & Hk & Ha & Hw & Hz & Hle).
    rewrite (proj2 (Z.ltb_ge _ _)), (proj2 (Z.eqb_neq _ _)) by lia.
    rewrite (proj2 (validate_sorted_spec _ _ _ _ _) (conj Hk eq_refl)).
    rewrite (proj2 (validate_sorted_spec _ _ _ _ _) (conj Ha eq_refl)), Hz.
    rewrite (proj2 (validate_sorted_spec _ _ _ _ _) (conj Hw eq_refl)). by apply Z.leb_le.
Qed.

Lemma Sorted_impl_iff {A} (R R' : A → A → Prop) l : (∀ x y, R x y ↔ R' x y) → Sorted R l ↔ Sorted R' l.
Proof.
  intros HR. induction l as [|x l IH]; [by split; constructor|].
  split; intros [Hs Hh]%Sorted_inv; (constructor; [by apply IH|]); inversion Hh; constructor; by apply HR.
Qed.

(** C35: [validate] accepts an authority exactly when it is what its comment
    promises: at most 2^16 entries and a positive threshold; keys, permissions
    and waits sorted and unique, the waits positive; and weights that can reach the threshold. The 32-bit sum
    of the 16-bit weights does not wrap around. *)
Theorem validate_correct auth : authority_typed auth → validate auth = true ↔ validated auth.
Proof.
  intros Ht. pose proof Ht as (Hthr & _ & _ & Hws). unfold is_u32 in Hthr.
  rewrite validate_conditions. unfold validated. rewrite <- total_is_reachable by done.
  rewrite <- (StronglySorted_fmap_iff (λ a b, key_ltb a b = true)), <- (StronglySorted_fmap_iff (λ a b, level_ltb a b = true)).
  rewrite (Sorted_impl_iff _ (λ a b, wait_sec a < wait_sec b) (waits auth)) by (intros; apply Z.ltb_lt).
  rewrite (StronglySorted_fmap_iff Z.lt wait_sec).
  split; intros (Hlen & Hpos & Hk & Ha & Hw & Hz & Hle); rewrite validate_total in * by done;
    (split_and!; [done|lia|done|done|done|by apply waits_positive|done]).
Qed.

(** ** Used keys *)

Section Used.
Context (pta : permission_level → option authority) (provided_keys : list public_key) (delay : Z).

(** Marks are only added, and only to keys that an authority lists. *)
Definition marks (u u' : list bool) : Prop :=
  length u' = length u ∧
  (∀ i : nat, u !! i = Some true → u' !! i = Some true) ∧
  (∀ i : nat, u' !! i = Some true → u !! i = Some true ∨
     ∃ p auth k, pta p = Some auth ∧ k ∈ keys auth ∧ provided_keys !! i = Some (key k)).

Lemma marks_refl u : marks u u.
Proof. split_and!; auto. Qed.

Lemma marks_trans u1 u2 u3 : marks u1 u2 → marks u2 u3 → marks u1 u3.
Proof.
  intros (L1 & M1 & N1) (L2 & M2 & N2). split_and!; [congruence|by auto|].
  intros i [H|H]%N2; [by apply N1|by right].
Qed.

Lemma marks_loop p auth visit thr l : ∀ t r t', pta p = Some auth →
  (∀ mp t, mp ∈ l → marks (used t) (used (visit mp t))) →
  tally_loop visit thr l t = (r, t') → marks (used t) (used t').
Proof.
  induction l as [|mp l IH]; intros t r t' Hp Hv; simpl.
  { intros [= _ <-]. apply marks_refl. }
  case_match; [intros [= _ <-]; apply Hv; by left|]. intros E.
  eapply marks_trans; [apply Hv; by left|]. eapply IH; [done| |done]. intros. apply Hv. by right.
Qed.

Lemma visit_account_marks f a t :
  match f with
  | Some f => ∀ p auth c u r c' u', pta p = Some auth → f auth c u = (r, c', u') → marks u u' ∧ (r = false → u' = u)
  | None => True
  end →
  marks (used t) (used (visit_account pta f a t)) ∧
  (total_weight (visit_account pta f a t) = total_weight t → level_weight a = 1 → total_weight t = 0 →
   used (visit_account pta f a t) = used t).
Proof.
  intros Hf. unfold visit_account.
  destruct (permission_status_in_cache _ _) as [[]|]; [split; [apply marks_refl|done]..|].
  destruct f as [f|]; [|split; [apply marks_refl|done]].
  destruct (pta (level a)) as [auth|] eqn:Ep; [|split; [apply marks_refl|done]].
  destruct (f auth _ _) as [[r c'] u'] eqn:E. destruct (Hf _ _ _ _ _ _ _ Ep E) as [Hm Hr].
  destruct r; (split; [done|]); cbn [used add_weight total_weight]; [|auto].
  intros Ht Hw H0. by rewrite Hw, H0 in Ht.
Qed.

Lemma visit_key_marks p auth k t : pta p = Some auth → k ∈ keys auth →
  marks (used t) (used (visit_key provided_keys k t)).
Proof.
  intros Hp Hk. unfold visit_key. destruct (list_find _ provided_keys) as [[i k']|] eqn:E; [|apply marks_refl].
  apply list_find_Some in E as (Hi & -> & _). cbn [used add_weight]. split_and!; [by rewrite length_insert|..].
  - intros j Hj. destruct (decide (i = j)) as [-> |]; [|by rewrite list_lookup_insert_ne].
    apply list_lookup_insert_eq. by eapply lookup_lt_Some.
  - intros j Hj. destruct (decide (i = j)) as [-> |]; [|left; by rewrite list_lookup_insert_ne in Hj].
    right. by exists p, auth, k.
Qed.

Lemma satisfied_at_marks d : ∀ p auth c u r c' u', pta p = Some auth →
  satisfied_at pta provided_keys delay d auth c u = (r, c', u') → marks u u' ∧ (r = false → u' = u).
Proof.
  induction d as [d IH] using lt_wf_ind. intros p auth c u r c' u' Hp.
  rewrite satisfied_at_eq. destruct (tally_loop _ _ _ _) as [r' t'] eqn:E. intros [= <- <- <-].
  destruct r'; [|split; [apply marks_refl|done]]. split; [|done].
  eapply (marks_loop p) in E; [done|done|]. intros mp t. rewrite meta_permissions_perm. unfold entries.
  rewrite !elem_of_app, !list_elem_of_fmap. intros [(a & -> & Ha)|[(k & -> & Hk)|(w & -> & Hw)]]; cbn [visit].
  - apply visit_account_marks. destruct d as [|d]; [done|]. intros. eapply (IH d); [lia|done..].
  - by eapply visit_key_marks.
  - unfold visit_wait. case_match; apply marks_refl.
Qed.

Lemma satisfied_level_marks limit p c u r c' u' :
  satisfied_level pta provided_keys delay limit p c u = (r, c', u') → marks u u' ∧ (r = false → u' = u).
Proof.
  unfold satisfied_level. intros [= <- <- <-].
  edestruct (visit_account_marks (match limit with O => None | S d => Some (satisfied_at pta provided_keys delay d) end)
    (PermissionLevelWeight p 1) (Tally c u 0)) as [Hm Hr].
  { destruct limit as [|d]; [done|]. intros. by eapply satisfied_at_marks. }
  split; [done|]. intros H%Z.ltb_ge. apply Hr; [|done|done].
  unfold visit_account in *. cbn [level level_weight total_weight used cached_permissions add_weight] in *.
  repeat case_match; cbn [total_weight add_weight] in *; try done; change (u32 (0 + 1)) with 1 in *; lia.
Qed.

End Used.

(** ** The checker *)

(** What the checker may assume of the source of authorities. *)
Class AuthoritySource (pta : permission_level → option authority) : Prop := {
  pta_typed : ∀ p auth, pta p = Some auth → authority_typed auth;
  pta_nonempty : ∀ p, permission p = 0 → pta p = None }.

Definition checker_grants (c : authority_checker) (delay : Z) : permission_level → Prop :=
  grants (checker_permission_to_authority c) (checker_provided_keys c) (checker_provided_permissions c) delay.

Lemma satisfied_under_sound c delay p c' : AuthoritySource (checker_permission_to_authority c) →
  satisfied_under c delay p = (true, c') → checker_grants c delay p.
Proof.
  intros [Ht Hn]. unfold satisfied_under. destruct (satisfied_level _ _ _ _ _ _ _) as [[r c0] u] eqn:E.
  intros [= -> <-]. by eapply satisfied_level_sound.
Qed.

Lemma satisfied_under_fields c delay p r c' : satisfied_under c delay p = (r, c') →
  c' = set_used_keys c (checker_used_keys c') ∧
  marks (checker_permission_to_authority c) (checker_provided_keys c) (checker_used_keys c) (checker_used_keys c') ∧
  (r = false → c' = c).
Proof.
  unfold satisfied_under. destruct (satisfied_level _ _ _ _ _ _ _) as [[r0 c0] u] eqn:E. intros [= -> <-].
  apply satisfied_level_marks in E as [Hm Hr]. split_and!; [done|done|]. intros ->. rewrite Hr by done. by destruct c.
Qed.

(** C19: the authority checker is sound. When it says that a permission is satisfied, the
    permission is granted: it is provided, or provided keys, elapsed waits and
    permissions that are granted in turn reach the threshold of its authority. A check
    marks as used only keys that some authority lists, never unmarks one, and
    changes nothing when it fails. This holds whatever the cycles between authorities and whatever the
    depth limit. *)
Theorem authority_checker_sound c delay p r c' : AuthoritySource (checker_permission_to_authority c) →
  satisfied_under c delay p = (r, c') →
  (r = true → checker_grants c delay p) ∧
  marks (checker_permission_to_authority c) (checker_provided_keys c) (checker_used_keys c) (checker_used_keys c') ∧
  (r = false → c' = c).
Proof.
  intros Hs E. destruct (satisfied_under_fields _ _ _ _ _ E) as (_ & Hm & Hr).
  split_and!; [|done|done]. intros ->. by eapply satisfied_under_sound.
Qed.

(** C20: on permissions without cycles whose nesting is within the depth limit the
    checker decides satisfaction: it answers yes exactly when the permission is granted, whatever
    the order of weights and whatever its cache holds when it meets a permission again. *)
Theorem authority_checker_decides c delay p (rank : permission_level → nat) :
  AuthoritySource (checker_permission_to_authority c) →
  (∀ q auth, checker_permission_to_authority c q = Some auth →
     positive auth ∧ ∀ a, a ∈ accounts auth → (rank (level a) < rank q)%nat) →
  (rank p < checker_recursion_depth_limit c)%nat →
  (satisfied_under c delay p).1 = true ↔ checker_grants c delay p.
Proof.
  intros Hs Hrank Hlim. destruct (satisfied_under c delay p) as [r c'] eqn:E. cbn [fst]. split.
  - intros ->. by eapply satisfied_under_sound.
  - unfold satisfied_under in E. destruct (satisfied_level _ _ _ _ _ _ _) as [[r0 c0] u] eqn:E'.
    injection E as -> <-. destruct Hs as [Ht Hn].
    eapply (satisfied_level_complete _ _ _ _ Ht Hn rank); [|by intros; eapply Hrank|done|done].
    intros q auth a Hq Ha. by apply (Hrank q auth).
Qed.

(** ** Examples *)

Definition ex_key : public_key := PublicKey 0 [2; 1].
Definition ex_level (a : string) : permission_level := PermissionLevel (name_of a) (name_of "active").
Definition ex_weight (a : string) (w : Z) : permission_level_weight := PermissionLevelWeight (ex_level a) w.

(** A store of authorities from a list. *)
Definition ex_store (l : list (permission_level * authority)) (p : permission_level) : option authority :=
  snd <$> (snd <$> list_find (λ x, x.1 = p) l).

Definition store_ok (l : list (permission_level * authority)) : Prop :=
  Forall (λ x, authority_typed x.2 ∧ permission x.1 ≠ 0) l.

Lemma ex_store_in l p auth : ex_store l p = Some auth → (p, auth) ∈ l.
Proof.
  unfold ex_store. destruct (list_find _ l) as [[i [q a]]|] eqn:E; [|done]. intros [= <-].
  apply list_find_Some in E as (Hi & <- & _). by eapply list_elem_of_lookup_2.
Qed.

Lemma ex_store_source l : store_ok l → AuthoritySource (ex_store l).
Proof.
  intros Hl. split.
  - intros p auth Hp%ex_store_in. by apply (proj1 (Forall_forall _ _) Hl _ Hp).
  - intros p Hp. destruct (ex_store l p) as [auth|] eqn:E; [|done]. apply ex_store_in in E.
    by destruct (proj1 (Forall_forall _ _) Hl _ E).
Qed.

(** [r] needs [a] or [p]; [a] needs [p] and [x], which does not exist; [p] has a key. *)
Definition reverted_store : list (permission_level * authority) :=
  [(ex_level "r", Authority 1 [] [ex_weight "a" 1; ex_weight "p" 1] []);
   (ex_level "a", Authority 2 [] [ex_weight "p" 1; ex_weight "x" 1] []);
   (ex_level "p", authority_of_key ex_key 0)].

Definition reverted_checker (provided : list public_key) : authority_checker :=
  make_auth_checker (ex_store reverted_store) 6 provided [] 0.

Definition reverted_rank (p : permission_level) : nat :=
  if bool_decide (p = ex_level "r") then 2%nat else if bool_decide (p = ex_level "a") then 1%nat else 0%nat.

Ltac solve_store :=
  repeat first [apply Forall_nil_2 | apply Forall_cons_2]; repeat split;
  repeat first [apply Forall_nil_2 | apply Forall_cons_2]; vm_compute; try (intuition congruence).

Lemma reverted_store_ok : store_ok reverted_store.
Proof. solve_store. Qed.

Lemma reverted_acyclic q auth : ex_store reverted_store q = Some auth →
  (positive auth ∧ ∀ a, a ∈ accounts auth → (reverted_rank (level a) < reverted_rank q)%nat) ∧ validate auth = true.
Proof.
  intros Hin%ex_store_in.
  assert (Forall (λ x, (bool_decide (0 < threshold x.2) && bool_decide (Z.of_nat (length (entries x.2)) <= 65536)
    && forallb (λ a, Nat.ltb (reverted_rank (level a)) (reverted_rank x.1)) (accounts x.2)) && validate x.2 = true) reverted_store)
    as Hall by (repeat first [apply Forall_nil_2 | apply Forall_cons_2; [vm_compute; reflexivity|]]).
  apply (proj1 (Forall_forall _ _) Hall) in Hin. cbn [fst snd] in Hin.
  apply andb_prop in Hin as [[Hpos Hrank]%andb_prop Hval]. breflect. split; [split|done].
  - by split.
  - intros a Ha. apply Nat.ltb_lt. apply (proj1 (forallb_forall _ _) Hrank). by apply list_elem_of_In.
Qed.

(** A key that is needed can be reported as unused. While [a] is evaluated, [p] is found satisfied
    by the key and cached; when [a] fails, the mark of the key is taken back but the cache entry stays, so
    [p] then satisfies [r] without marking the key. All authorities are valid
    and without cycles, [r] is satisfied with the key and not granted without it, and the checker
    returns no used key: [check_authorization] rejects the signature as irrelevant and
    [get_required_keys] does not ask for it. *)
Theorem needed_key_reported_unused :
  let s := satisfied (reverted_checker [ex_key]) (ex_level "r") in
  (∀ q auth, ex_store reverted_store q = Some auth → validate auth = true) ∧
  s.1 = true ∧ ¬ checker_grants (reverted_checker []) 0 (ex_level "r") ∧ used_keys s.2 = [] ∧ unused_keys s.2 = [ex_key].
Proof.
  split_and!; [by intros q auth [_ ?]%reverted_acyclic|vm_compute; reflexivity| |vm_compute; reflexivity..].
  intros Hg. destruct (ex_store_source _ reverted_store_ok) as [Ht Hn].
  set (run := satisfied_level (ex_store reverted_store) [] 0 6 (ex_level "r") (initialize_permission_cache []) []).
  assert (run.1.1 = false) as E' by (vm_compute; reflexivity).
  destruct run as [[r c] u] eqn:E. cbn [fst] in E'. unfold run in E.
  eapply (satisfied_level_complete _ _ _ _ Ht Hn reverted_rank) in E; [congruence| | | |done].
  - intros q auth a Hq Ha. by apply (reverted_acyclic q auth).
  - intros q auth Hq. by apply (reverted_acyclic q auth).
  - by apply Nat.ltb_lt.
Qed.

Lemma validate_correct_witness :
  authority_typed (authority_of_key ex_key 0) ∧ (validate (authority_of_key ex_key 0) = true ↔ validated (authority_of_key ex_key 0)).
Proof.
  assert (authority_typed (authority_of_key ex_key 0)) as H.
  { unfold authority_typed, is_u32, is_u16. simpl. repeat split; try lia; repeat constructor; simpl; lia. }
  split; [exact H|]. exact (validate_correct _ H).
Defined.

Lemma authority_checker_sound_witness :
  let r := satisfied_under (reverted_checker [ex_key]) 0 (ex_level "r") in
  r.1 = true ∧ checker_grants (reverted_checker [ex_key]) 0 (ex_level "r").
Proof.
  split; [vm_compute; reflexivity|].
  apply (authority_checker_sound (reverted_checker [ex_key]) 0 (ex_level "r") true
    (satisfied_under (reverted_checker [ex_key]) 0 (ex_level "r")).2 (ex_store_source _ reverted_store_ok)); vm_compute; reflexivity.
Defined.

Lemma authority_checker_decides_witness :
  (satisfied_under (reverted_checker [ex_key]) 0 (ex_level "r")).1 = true ↔
  checker_grants (reverted_checker [ex_key]) 0 (ex_level "r").
Proof.
  apply (authority_checker_decides (reverted_checker [ex_key]) 0 (ex_level "r") reverted_rank
    (ex_store_source _ reverted_store_ok)).
  - intros q auth Hq. exact (proj1 (reverted_acyclic q auth Hq)).
  - apply Nat.ltb_lt. reflexivity.
Defined.

(** [p] needs [q] or the key, [q] needs [p], [r] needs both. *)
Definition cyclic_store : list (permission_level * authority) :=
  [(ex_level "r", Authority 2 [] [ex_weight "p" 1; ex_weight "q" 1] []);
   (ex_level "p", Authority 2 [KeyWeight ex_key 2] [ex_weight "q" 3] []);
   (ex_level "q", Authority 1 [] [ex_weight "p" 1] [])].

(** With cycles the checker can say no to what is granted: [q] is found unsatisfied while
    [p] is being evaluated, and this stays in the cache after [p] turns out to be satisfied. *)
Theorem cycle_may_hide_a_grant :
  let c := make_auth_checker (ex_store cyclic_store) 6 [ex_key] [] 0 in
  (satisfied c (ex_level "p")).1 = true ∧ (satisfied c (ex_level "q")).1 = true ∧
  checker_grants c 0 (ex_level "r") ∧ (satisfied c (ex_level "r")).1 = false.
Proof.
  assert (store_ok cyclic_store) as Hok by solve_store.
  split_and!; [by vm_compute|by vm_compute| |by vm_compute].
  apply (grants_authority _ _ _ _ _ (Authority 2 [] [ex_weight "p" 1; ex_weight "q" 1] [])
    (λ l, bool_decide (l = ex_level "p") || bool_decide (l = ex_level "q")));
    [vm_compute; reflexivity| |vm_compute; congruence].
  set (c := make_auth_checker (ex_store cyclic_store) 6 [ex_key] [] 0).
  assert (Hs : ∀ l, (satisfied c l).1 = true → checker_grants c 0 l).
  { intros l Hl. apply (satisfied_under_sound c 0 l (satisfied c l).2 (ex_store_source _ Hok)).
    rewrite <- Hl. apply surjective_pairing. }
  intros l [H|H]%orb_prop; apply bool_decide_eq_true in H as ->; apply Hs; vm_compute; reflexivity.
Qed.
