(* ===== verification/Permissions.v ===== *)
(** * Permissions ([permission_object.hpp], [permission_link_object.hpp],
    [authorization_manager.cpp]) and the native actions that change them ([eosio_contract.cpp])

    The database is the part of the chain state these functions read and write:
    permission objects in the order of their ids, their usage objects, links by
    (account, code, action), accounts, and the resource limits that RAM is charged to.
    A function that throws leaves no state behind, as the session is undone. Packed
    action data is unpacked by a parameter. The deadline timer, which can only abort, is left out. *)

From S2P Require Import Prelude Names Authority ResourceLimits.
Open Scope Z_scope.

(** ** Names of the configuration *)

Definition system_account_name : Z := name_of "ra".
Definition null_account_name : Z := name_of "ra.null".
Definition producers_account_name : Z := name_of "ra.prods".
Definition majority_producers_permission_name : Z := name_of "prod.major".
Definition minority_producers_permission_name : Z := name_of "prod.minor".
Definition active_name : Z := name_of "active".
Definition owner_name : Z := name_of "owner".
Definition eosio_any_name : Z := name_of "ra.any".
Definition eosio_code_name : Z := name_of "ra.code".
Definition updateauth_name : Z := name_of "updateauth".
Definition deleteauth_name : Z := name_of "deleteauth".
Definition linkauth_name : Z := name_of "linkauth".
Definition unlinkauth_name : Z := name_of "unlinkauth".
Definition canceldelay_name : Z := name_of "canceldelay".

(** ** The database *)

Record permission_object : Type := PermissionObject {
  po_id : Z;
  usage_id : Z;
  parent : Z;
  owner : Z;
  po_name : Z;
  last_updated : Z;
  auth : authority }.

Record account_record : Type := AccountRecord { creation_date : Z; is_privileged : bool }.

Record deferred_transaction : Type := DeferredTransaction {
  trx_id : Z;
  sender : Z;
  trx_authorizations : list (list permission_level);  (** of each action *)
  delay_until : Z;
  published : Z }.

Record auth_db : Type := AuthDb {
  permissions : list permission_object;
  next_permission_id : Z;
  usages : gmap Z Z;             (** [last_used] by usage id *)
  next_usage_id : Z;
  links : gmap (Z * Z * Z) Z;    (** the required permission *)
  account_objects : gmap Z account_record;
  deferred : list deferred_transaction;
  limits : resource_db }.

(** The parts of the controller the functions consult. *)
Record chain_env : Type := ChainEnv {
  pending_block_time : Z;
  num_supported_key_types : Z;
  max_authority_depth : nat;
  max_transaction_delay : Z;
  only_link_to_existing_permission : bool;
  fix_linkauth_restriction : bool;
  check_key_lists : bool;        (** the lists are enforced and the block is speculative *)
  key_blacklist : list public_key;
  pack_size : public_key → Z }.

Definition set_permissions (db : auth_db) (ps : list permission_object) : auth_db :=
  AuthDb ps (next_permission_id db) (usages db) (next_usage_id db) (links db) (account_objects db) (deferred db) (limits db).
Definition set_usages (db : auth_db) (us : gmap Z Z) : auth_db :=
  AuthDb (permissions db) (next_permission_id db) us (next_usage_id db) (links db) (account_objects db) (deferred db) (limits db).
Definition set_links (db : auth_db) (ls : gmap (Z * Z * Z) Z) : auth_db :=
  AuthDb (permissions db) (next_permission_id db) (usages db) (next_usage_id db) ls (account_objects db) (deferred db) (limits db).
Definition set_accounts (db : auth_db) (acs : gmap Z account_record) : auth_db :=
  AuthDb (permissions db) (next_permission_id db) (usages db) (next_usage_id db) (links db) acs (deferred db) (limits db).
Definition set_limits (db : auth_db) (l : resource_db) : auth_db :=
  AuthDb (permissions db) (next_permission_id db) (usages db) (next_usage_id db) (links db) (account_objects db) (deferred db) l.

(** Lookups in the indices [by_id], [by_owner] and [by_name]. *)
Definition find_by_id (db : auth_db) (id : Z) : option permission_object :=
  snd <$> list_find (λ po, po_id po = id) (permissions db).

Definition find_by_owner (db : auth_db) (account name : Z) : option permission_object :=
  snd <$> list_find (λ po, owner po = account ∧ po_name po = name) (permissions db).

Definition find_by_name (db : auth_db) (name : Z) : option permission_object :=
  snd <$> list_find (λ po, po_name po = name) (permissions db).

(** [initialize_database]: permission 0 is reserved. *)
Definition reserved_permission (id : Z) : permission_object :=
  PermissionObject id 0 0 0 0 0 (Authority 0 [] [] []).

Definition initialize_database (db : auth_db) : auth_db :=
  AuthDb (permissions db ++ [reserved_permission (next_permission_id db)]) (next_permission_id db + 1)
    (usages db) (next_usage_id db) (links db) (account_objects db) (deferred db) (limits db).

(** ** The authorization manager *)

Definition check_key_types (env : chain_env) (a : authority) : result unit :=
  check (forallb (λ k, which (key k) <? num_supported_key_types env) (keys a)) unactivated_key_type.

(** [create_permission]; creating a second object for an owner and name
    violates the uniqueness of [by_owner]. *)
Definition create_permission (env : chain_env) (db : auth_db) (account name parent_id : Z) (a : authority)
    (initial_creation_time : Z) : result (auth_db * permission_object) :=
  check_key_types env a;;
  let creation_time := if initial_creation_time =? 0 then pending_block_time env else initial_creation_time in
  check (bool_decide (find_by_owner db account name = None)) logic_error;;
  let po := PermissionObject (next_permission_id db) (next_usage_id db) parent_id account name creation_time a in
  Ok (AuthDb (permissions db ++ [po]) (next_permission_id db + 1)
        (<[next_usage_id db := creation_time]> (usages db)) (next_usage_id db + 1)
        (links db) (account_objects db) (deferred db) (limits db), po).

Definition modify_permission (env : chain_env) (db : auth_db) (p : permission_object) (a : authority) : result auth_db :=
  check_key_types env a;;
  Ok (set_permissions db ((λ po, if po_id po =? po_id p
    then PermissionObject (po_id po) (usage_id po) (parent po) (owner po) (po_name po) (pending_block_time env) a
    else po) <$> permissions db)).

Definition remove_permission (db : auth_db) (p : permission_object) : result auth_db :=
  check (forallb (λ po, negb (parent po =? po_id p)) (permissions db)) action_validate_exception;;
  Ok (set_permissions (set_usages db (delete (usage_id p) (usages db)))
        (filter (λ po, po_id po ≠ po_id p) (permissions db))).

Definition update_permission_usage (env : chain_env) (db : auth_db) (p : permission_object) : result auth_db :=
  match usages db !! usage_id p with
  | None => Err out_of_range
  | Some _ => Ok (set_usages db (<[usage_id p := pending_block_time env]> (usages db)))
  end.

Definition get_permission_last_used (db : auth_db) (p : permission_object) : result Z :=
  match usages db !! usage_id p with Some t => Ok t | None => Err out_of_range end.

(** Every exception in these becomes a [permission_query_exception]. *)
Definition find_permission (db : auth_db) (l : permission_level) : result (option permission_object) :=
  check (negb (name_empty (actor l)) && negb (name_empty (permission l))) permission_query_exception;;
  Ok (find_by_owner db (actor l) (permission l)).

Definition get_permission (db : auth_db) (l : permission_level) : result permission_object :=
  check (negb (name_empty (actor l)) && negb (name_empty (permission l))) permission_query_exception;;
  match find_by_owner db (actor l) (permission l) with
  | Some po => Ok po
  | None => Err permission_query_exception
  end.

(** [permission_object::satisfies]: the walk up from [other] to its ancestors.
    A missing parent would dereference the end of the index. *)
Fixpoint satisfies_loop (fuel : nat) (db : auth_db) (id : Z) (p : permission_object) : result bool :=
  match fuel with
  | O => Err out_of_fuel
  | S fuel =>
    if id =? parent p then Ok true
    else if parent p =? 0 then Ok false
    else match find_by_id db (parent p) with
         | Some p => satisfies_loop fuel db id p
         | None => Err undefined_behaviour
         end
  end.

Definition satisfies (db : auth_db) (self other : permission_object) : result bool :=
  if negb (owner self =? owner other) then Ok false
  else if (po_id self =? po_id other) || (po_id self =? parent other) then Ok true
  else match find_by_id db (parent other) with
       | Some p => satisfies_loop (length (permissions db)) db (po_id self) p
       | None => Err undefined_behaviour
       end.

Definition lookup_linked_permission (db : auth_db) (authorizer scope act_name : Z) : option Z :=
  match links db !! (authorizer, scope, act_name) with
  | Some required => Some required
  | None => links db !! (authorizer, scope, 0)
  end.

Definition unlinkable (act_name : Z) : bool :=
  (act_name =? updateauth_name) || (act_name =? deleteauth_name) || (act_name =? linkauth_name)
  || (act_name =? unlinkauth_name) || (act_name =? canceldelay_name).

Definition lookup_minimum_permission (db : auth_db) (authorizer scope act_name : Z) : result (option Z) :=
  check (negb ((scope =? system_account_name) && unlinkable act_name)) unlinkable_min_permission_action;;
  match lookup_linked_permission db authorizer scope act_name with
  | None => Ok (Some active_name)
  | Some linked => if linked =? eosio_any_name then Ok None else Ok (Some linked)
  end.

(** ** Native actions ([contract_types.hpp]) *)

Record newaccount : Type := NewAccount { na_creator : Z; na_name : Z; na_owner : authority; na_active : authority }.
Record updateauth : Type := UpdateAuth { ua_account : Z; ua_permission : Z; ua_parent : Z; ua_auth : authority }.
Record deleteauth : Type := DeleteAuth { da_account : Z; da_permission : Z }.
Record linkauth : Type := LinkAuth { la_account : Z; la_code : Z; la_type : Z; la_requirement : Z }.
Record unlinkauth : Type := UnlinkAuth { ul_account : Z; ul_code : Z; ul_type : Z }.
Record canceldelay : Type := CancelDelay { cd_canceling_auth : permission_level; cd_trx_id : Z }.

Record action : Type := Action {
  act_account : Z;
  act_name : Z;
  authorization : list permission_level;
  data : list Z }.

(** [action::data_as]: the unpacking of action data. *)
Class ActionCodec : Type := {
  data_as_newaccount : list Z → result newaccount;
  data_as_updateauth : list Z → result updateauth;
  data_as_deleteauth : list Z → result deleteauth;
  data_as_linkauth : list Z → result linkauth;
  data_as_unlinkauth : list Z → result unlinkauth;
  data_as_canceldelay : list Z → result canceldelay }.

(** ** The authorization a native action declares *)

(** The only declared authorization. *)
Definition single_auth (auths : list permission_level) : result permission_level :=
  match auths with [a] => Ok a | _ => Err irrelevant_auth_exception end.

Definition check_satisfies (db : auth_db) (a : permission_level) (min_permission : permission_object) : result unit :=
  po ← get_permission db a;
  b ← satisfies db po min_permission;
  check b irrelevant_auth_exception.

Definition check_updateauth_authorization (db : auth_db) (update : updateauth) (auths : list permission_level) : result unit :=
  a ← single_auth auths;
  check (actor a =? ua_account update) irrelevant_auth_exception;;
  found ← find_permission db (PermissionLevel (ua_account update) (ua_permission update));
  min_permission ← match found with
                   | Some po => Ok po
                   | None => get_permission db (PermissionLevel (ua_account update) (ua_parent update))
                   end;
  check_satisfies db a min_permission.

Definition check_deleteauth_authorization (db : auth_db) (del : deleteauth) (auths : list permission_level) : result unit :=
  a ← single_auth auths;
  check (actor a =? da_account del) irrelevant_auth_exception;;
  min_permission ← get_permission db (PermissionLevel (da_account del) (da_permission del));
  check_satisfies db a min_permission.

Definition check_linkauth_authorization (env : chain_env) (db : auth_db) (link : linkauth) (auths : list permission_level)
    : result unit :=
  a ← single_auth auths;
  check (actor a =? la_account link) irrelevant_auth_exception;;
  check (negb (((la_code link =? system_account_name) || negb (fix_linkauth_restriction env)) && unlinkable (la_type link)))
    action_validate_exception;;
  linked ← lookup_minimum_permission db (la_account link) (la_code link) (la_type link);
  match linked with
  | None => Ok tt
  | Some linked =>
    (* the declared permission is looked up before the linked one *)
    po ← get_permission db a;
    min_permission ← get_permission db (PermissionLevel (la_account link) linked);
    b ← satisfies db po min_permission;
    check b irrelevant_auth_exception
  end.

Definition check_unlinkauth_authorization (db : auth_db) (unlink : unlinkauth) (auths : list permission_level) : result unit :=
  a ← single_auth auths;
  check (actor a =? ul_account unlink) irrelevant_auth_exception;;
  match lookup_linked_permission db (ul_account unlink) (ul_code unlink) (ul_type unlink) with
  | None => Err transaction_exception
  | Some unlinked =>
    if unlinked =? eosio_any_name then Ok tt
    else
      po ← get_permission db a;
      min_permission ← get_permission db (PermissionLevel (ul_account unlink) unlinked);
      b ← satisfies db po min_permission;
      check b irrelevant_auth_exception
  end.

(** Returns the delay of the transaction to cancel. *)
Definition check_canceldelay_authorization (db : auth_db) (cancel : canceldelay) (auths : list permission_level) : result Z :=
  a ← single_auth auths;
  po ← get_permission db a;
  canceling ← get_permission db (cd_canceling_auth cancel);
  b ← satisfies db po canceling;
  check b irrelevant_auth_exception;;
  match snd <$> list_find (λ d, trx_id d = cd_trx_id cancel) (deferred db) with
  | None => Err tx_not_found
  | Some itr =>
    check (sender itr =? 0) tx_not_found;;
    check (existsb (existsb (λ l, bool_decide (l = cd_canceling_auth cancel))) (trx_authorizations itr))
      action_validate_exception;;
    Ok (delay_until itr - published itr)
  end.

(** ** [check_authorization] *)

(** The functor the checker is made with. *)
Definition permission_to_authority (db : auth_db) (p : permission_level) : option authority :=
  match find_permission db p with
  | Ok (Some po) => Some (auth po)
  | _ => None
  end.

Definition effective_delay (env : chain_env) (provided_delay : Z) : Z :=
  if max_transaction_delay env * 1000000 <=? provided_delay then i64_max else provided_delay.

(** [permissions_to_satisfy]: a map in ascending order that keeps the smaller delay. *)
Fixpoint emplace_to_satisfy (p : permission_level) (delay : Z) (m : list (permission_level * Z))
    : list (permission_level * Z) :=
  match m with
  | [] => [(p, delay)]
  | (q, d) :: m' =>
    if bool_decide (p = q) then (q, if delay <? d then delay else d) :: m'
    else if level_ltb p q then (p, delay) :: m
    else (q, d) :: emplace_to_satisfy p delay m'
  end.

Section CheckAuthorization.
Context {codec : ActionCodec} (env : chain_env) (db : auth_db).

(** The checks on a system action: whether it is a special case, and its delay. *)
Definition check_special (act : action) (delay : Z) : result (bool * Z) :=
  if act_account act =? system_account_name then
    if act_name act =? updateauth_name then
      d ← data_as_updateauth (data act); check_updateauth_authorization db d (authorization act);; Ok (true, delay)
    else if act_name act =? deleteauth_name then
      d ← data_as_deleteauth (data act); check_deleteauth_authorization db d (authorization act);; Ok (true, delay)
    else if act_name act =? linkauth_name then
      d ← data_as_linkauth (data act); check_linkauth_authorization env db d (authorization act);; Ok (true, delay)
    else if act_name act =? unlinkauth_name then
      d ← data_as_unlinkauth (data act); check_unlinkauth_authorization db d (authorization act);; Ok (true, delay)
    else if act_name act =? canceldelay_name then
      d ← data_as_canceldelay (data act);
      c ← check_canceldelay_authorization db d (authorization act);
      Ok (true, Z.max delay c)
    else Ok (false, delay)
  else Ok (false, delay).

(** The minimum permission of a declared authorization. *)
Definition check_minimum (act : action) (declared : permission_level) : result unit :=
  min_name ← lookup_minimum_permission db (actor declared) (act_account act) (act_name act);
  match min_name with
  | None => Ok tt
  | Some min_name =>
    min_permission ← get_permission db (PermissionLevel (actor declared) min_name);
    check_satisfies db declared min_permission
  end.

Fixpoint declared_loop (act : action) (special_case : bool) (delay : Z) (satisfied_authorizations declared : list permission_level)
    (m : list (permission_level * Z)) : result (list (permission_level * Z)) :=
  match declared with
  | [] => Ok m
  | a :: declared =>
    (if special_case then Ok tt else check_minimum act a);;
    declared_loop act special_case delay satisfied_authorizations declared
      (if bool_decide (a ∈ satisfied_authorizations) then m else emplace_to_satisfy a delay m)
  end.

Fixpoint actions_loop (effective_provided_delay : Z) (satisfied_authorizations : list permission_level) (actions : list action)
    (m : list (permission_level * Z)) : result (list (permission_level * Z)) :=
  match actions with
  | [] => Ok m
  | act :: actions =>
    s ← check_special act effective_provided_delay;
    m ← declared_loop act s.1 s.2 satisfied_authorizations (authorization act) m;
    actions_loop effective_provided_delay satisfied_authorizations actions m
  end.

Fixpoint satisfy_loop (check_but_dont_fail : bool) (m : list (permission_level * Z)) (c : authority_checker)
    : result authority_checker :=
  match m with
  | [] => Ok c
  | (p, delay) :: m =>
    let '(r, c) := satisfied_under c delay p in
    check (r || check_but_dont_fail) unsatisfied_authorization;;
    satisfy_loop check_but_dont_fail m c
  end.

Definition check_authorization (actions : list action) (provided_keys : list public_key)
    (provided_permissions : list permission_level) (provided_delay : Z) (allow_unused_keys check_but_dont_fail : bool)
    (satisfied_authorizations : list permission_level) : result unit :=
  let delay := effective_delay env provided_delay in
  let checker := make_auth_checker (permission_to_authority db) (max_authority_depth env)
                   provided_keys provided_permissions delay in
  m ← actions_loop delay satisfied_authorizations actions [];
  checker ← satisfy_loop check_but_dont_fail m checker;
  if allow_unused_keys then Ok tt
  else check (all_keys_used checker || check_but_dont_fail) tx_irrelevant_sig.

(** [check_authorization] of a single permission. *)
Definition check_permission_authorization (account perm : Z) (provided_keys : list public_key)
    (provided_permissions : list permission_level) (provided_delay : Z) (allow_unused_keys : bool) : result unit :=
  let checker := make_auth_checker (permission_to_authority db) (max_authority_depth env)
                   provided_keys provided_permissions (effective_delay env provided_delay) in
  let '(r, checker) := satisfied checker (PermissionLevel account perm) in
  check r unsatisfied_authorization;;
  if allow_unused_keys then Ok tt else check (all_keys_used checker) tx_irrelevant_sig.

Fixpoint required_loop (ps : list permission_level) (c : authority_checker) : result authority_checker :=
  match ps with
  | [] => Ok c
  | p :: ps =>
    let '(r, c) := satisfied c p in
    check r unsatisfied_authorization;;
    required_loop ps c
  end.

Definition get_required_keys (actions : list action) (candidate_keys : list public_key) (provided_delay : Z)
    : result (list public_key) :=
  let checker := make_auth_checker (permission_to_authority db) (max_authority_depth env) candidate_keys [] provided_delay in
  checker ← required_loop (mjoin (authorization <$> actions)) checker;
  Ok (used_keys checker).

End CheckAuthorization.

(** ** The native actions *)

Definition require_authorization (act : action) (account : Z) : result unit :=
  check (existsb (λ l, actor l =? account) (authorization act)) missing_auth_exception.

Definition add_ram_usage (db : auth_db) (account delta : Z) : result auth_db :=
  l ← add_pending_ram_usage (limits db) account delta; Ok (set_limits db l).

Definition permission_object_size : Z := billable_size_v (billable_size_v (3 * 16 + 4) + 64 + 5 * 32).
Definition permission_link_size : Z := billable_size_v (40 + 32 * 3).
Definition overhead_per_account_ram_bytes : Z := 2 * 1024.

Definition permission_size (env : chain_env) (a : authority) : Z :=
  permission_object_size + get_billable_size (pack_size env) a.

Fixpoint precondition_accounts (db : auth_db) (l : list permission_level_weight) : result unit :=
  match l with
  | [] => Ok tt
  | a :: l =>
    let p := level a in
    check (bool_decide (is_Some (account_objects db !! actor p))) action_validate_exception;;
    (if (permission p =? owner_name) || (permission p =? active_name) || (permission p =? eosio_code_name) then Ok tt
     else match get_permission db p with
          | Ok _ => Ok tt
          | Err _ => Err action_validate_exception
          end);;
    precondition_accounts db l
  end.

Definition validate_authority_precondition (env : chain_env) (db : auth_db) (a : authority) : result unit :=
  precondition_accounts db (accounts a);;
  if check_key_lists env
  then check (forallb (λ k, bool_decide (key k ∉ key_blacklist env)) (keys a)) key_blacklist_exception
  else Ok tt.

Section NativeActions.
Context {codec : ActionCodec} (env : chain_env).

(** The permissions, resource limits and RAM charge of a new account. *)
Definition create_account_permissions (db : auth_db) (name : Z) (owner_auth active_auth : authority) (creation_time : Z)
    : result auth_db :=
  '(db, owner_permission) ← create_permission env db name owner_name 0 owner_auth creation_time;
  '(db, active_permission) ← create_permission env db name active_name (po_id owner_permission) active_auth creation_time;
  l ← initialize_account (limits db) name;
  let ram_delta := overhead_per_account_ram_bytes + 2 * permission_object_size
    + get_billable_size (pack_size env) (auth owner_permission) + get_billable_size (pack_size env) (auth active_permission) in
  add_ram_usage (set_limits db l) name ram_delta.

Definition apply_eosio_newaccount (read_only : bool) (db : auth_db) (act : action) : result auth_db :=
  check (negb read_only) action_validate_exception;;
  create ← data_as_newaccount (data act);
  require_authorization act (na_creator create);;
  check (validate (na_owner create)) action_validate_exception;;
  check (validate (na_active create)) action_validate_exception;;
  let name_str := to_string (na_name create) in
  check (negb (name_empty (na_name create))) action_validate_exception;;
  check (Z.of_nat (length name_str) <=? 12) action_validate_exception;;
  creator ← match account_objects db !! na_creator create with Some a => Ok a | None => Err out_of_range end;
  check (is_privileged creator || negb (starts_with (chars "ra.") name_str)) action_validate_exception;;
  check (bool_decide (account_objects db !! na_name create = None)) account_name_exists_exception;;
  let db := set_accounts db (<[na_name create := AccountRecord (pending_block_time env) false]> (account_objects db)) in
  validate_authority_precondition env db (na_owner create);;
  validate_authority_precondition env db (na_active create);;
  create_account_permissions db (na_name create) (na_owner create) (na_active create) 0.

Definition apply_eosio_updateauth (read_only : bool) (db : auth_db) (act : action) : result auth_db :=
  check (negb read_only) action_validate_exception;;
  update ← data_as_updateauth (data act);
  require_authorization act (ua_account update);;
  check (negb (name_empty (ua_permission update))) action_validate_exception;;
  check (negb (starts_with (chars "ra.") (to_string (ua_permission update)))) action_validate_exception;;
  check (negb (ua_permission update =? ua_parent update)) action_validate_exception;;
  check (bool_decide (is_Some (account_objects db !! ua_account update))) out_of_range;;
  check (validate (ua_auth update)) action_validate_exception;;
  check (negb (ua_permission update =? active_name) || (ua_parent update =? owner_name)) action_validate_exception;;
  check (if ua_permission update =? owner_name then name_empty (ua_parent update) else negb (name_empty (ua_parent update)))
    action_validate_exception;;
  check (match last (waits (ua_auth update)) with Some w => wait_sec w <=? max_transaction_delay env | None => true end)
    action_validate_exception;;
  validate_authority_precondition env db (ua_auth update);;
  found ← find_permission db (PermissionLevel (ua_account update) (ua_permission update));
  parent_id ← (if ua_permission update =? owner_name then Ok 0
               else p ← get_permission db (PermissionLevel (ua_account update) (ua_parent update)); Ok (po_id p));
  match found with
  | Some p =>
    check (parent_id =? parent p) action_validate_exception;;
    let old_size := permission_size env (auth p) in
    db ← modify_permission env db p (ua_auth update);
    add_ram_usage db (owner p) (permission_size env (ua_auth update) - old_size)
  | None =>
    '(db, p) ← create_permission env db (ua_account update) (ua_permission update) parent_id (ua_auth update) 0;
    add_ram_usage db (ua_account update) (permission_size env (auth p))
  end.

Definition apply_eosio_deleteauth (read_only : bool) (db : auth_db) (act : action) : result auth_db :=
  check (negb read_only) action_validate_exception;;
  remove ← data_as_deleteauth (data act);
  require_authorization act (da_account remove);;
  check (negb (da_permission remove =? active_name)) action_validate_exception;;
  check (negb (da_permission remove =? owner_name)) action_validate_exception;;
  check (forallb (λ l, negb ((l.1.1.1 =? da_account remove) && (l.2 =? da_permission remove))) (map_to_list (links db)))
    action_validate_exception;;
  p ← get_permission db (PermissionLevel (da_account remove) (da_permission remove));
  let old_size := permission_size env (auth p) in
  db ← remove_permission db p;
  add_ram_usage db (da_account remove) (- old_size).

Definition apply_eosio_linkauth (read_only : bool) (db : auth_db) (act : action) : result auth_db :=
  check (negb read_only) action_validate_exception;;
  req ← data_as_linkauth (data act);
  check (negb (name_empty (la_requirement req))) action_validate_exception;;
  require_authorization act (la_account req);;
  check (bool_decide (is_Some (account_objects db !! la_account req))) account_query_exception;;
  check (bool_decide (is_Some (account_objects db !! la_code req))) account_query_exception;;
  check ((la_requirement req =? eosio_any_name)
         || bool_decide (is_Some (if only_link_to_existing_permission env
                                  then find_by_owner db (la_account req) (la_requirement req)
                                  else find_by_name db (la_requirement req)))) permission_query_exception;;
  let link_key := (la_account req, la_code req, la_type req) in
  match links db !! link_key with
  | Some required =>
    check (negb (required =? la_requirement req)) action_validate_exception;;
    Ok (set_links db (<[link_key := la_requirement req]> (links db)))
  | None =>
    add_ram_usage (set_links db (<[link_key := la_requirement req]> (links db))) (la_account req) permission_link_size
  end.

Definition apply_eosio_unlinkauth (read_only : bool) (db : auth_db) (act : action) : result auth_db :=
  check (negb read_only) action_validate_exception;;
  unlink ← data_as_unlinkauth (data act);
  require_authorization act (ul_account unlink);;
  let link_key := (ul_account unlink, ul_code unlink, ul_type unlink) in
  match links db !! link_key with
  | None => Err action_validate_exception
  | Some _ =>
    db ← add_ram_usage db (ul_account unlink) (- permission_link_size);
    Ok (set_links db (delete link_key (links db)))
  end.

(** ** Genesis ([controller.cpp]) *)

Definition create_native_account (db : auth_db) (initial_timestamp name : Z) (owner_auth active_auth : authority)
    (privileged : bool) : result auth_db :=
  check (bool_decide (account_objects db !! name = None)) logic_error;;
  let db := set_accounts db (<[name := AccountRecord initial_timestamp privileged]> (account_objects db)) in
  db ← create_account_permissions db name owner_auth active_auth initial_timestamp;
  verify_account_ram_usage (limits db) name;;
  Ok db.

(** The accounts and permissions of the controller's [initialize_database]. *)
Definition initialize_accounts (initial_timestamp : Z) (initial_key : public_key) : result auth_db :=
  let db := initialize_database (AuthDb [] 0 ∅ 0 ∅ ∅ [] ResourceLimits.initialize_database) in
  let system_auth := authority_of_key initial_key 0 in
  db ← create_native_account db initial_timestamp system_account_name system_auth system_auth true;
  let empty_authority := Authority 1 [] [] [] in
  let active_producers_authority :=
    Authority 1 [] [PermissionLevelWeight (PermissionLevel system_account_name active_name) 1] [] in
  db ← create_native_account db initial_timestamp null_account_name empty_authority empty_authority false;
  db ← create_native_account db initial_timestamp producers_account_name empty_authority active_producers_authority false;
  active_permission ← get_permission db (PermissionLevel producers_account_name active_name);
  '(db, majority_permission) ← create_permission env db producers_account_name majority_producers_permission_name
    (po_id active_permission) active_producers_authority initial_timestamp;
  '(db, _) ← create_permission env db producers_account_name minority_producers_permission_name
    (po_id majority_permission) active_producers_authority initial_timestamp;
  Ok db.

End NativeActions.
