(* ===== verification/PermissionsTheory.v ===== *)
(** * Permissions: the tree of permissions, who may act, and what is charged

    [perm_wf] is the invariant of the database; it holds at genesis and every
    native action keeps it. On such a database [satisfies] is the ancestor relation,
    and [check_authorization] lets an action pass only if its declared permissions are
    relevant to it and granted. *)

From S2P Require Import Prelude Names Authority AuthorityTheory ResourceLimits Permissions.
Open Scope Z_scope.

(** ** The tree of permissions *)

(** A permission hangs off an older one of the same account; only owner permissions are roots. *)
Definition parent_ok (ps : list permission_object) (p : permission_object) : Prop :=
  if decide (po_name p = owner_name) then parent p = 0
  else ∃ q, q ∈ ps ∧ po_id q = parent p ∧ 0 < po_id q < po_id p ∧ owner q = owner p.

Record tree_wf (ps : list permission_object) (next : Z) : Prop := {
  tree_reserved : head ps = Some (reserved_permission 0);
  tree_sorted : StronglySorted Z.lt (po_id <$> ps);
  tree_next : ∀ p, p ∈ ps → 0 <= po_id p < next;
  tree_names : ∀ p, p ∈ ps → po_id p ≠ 0 → owner p ≠ 0 ∧ po_name p ≠ 0;
  tree_unique : ∀ p q, p ∈ ps → q ∈ ps → owner p = owner q → po_name p = po_name q → p = q;
  tree_parents : ∀ p, p ∈ ps → po_id p ≠ 0 → parent_ok ps p;
  tree_typed : ∀ p, p ∈ ps → authority_typed (auth p) }.

(** [ancestor_or_self ps p q]: [p] is [q] or above it. *)
Inductive ancestor_or_self (ps : list permission_object) (p : permission_object) : permission_object → Prop :=
| ancestor_self : ancestor_or_self ps p p
| ancestor_up q r : q ∈ ps → po_id q = parent r → parent r ≠ 0 → ancestor_or_self ps p q → ancestor_or_self ps p r.

Lemma list_find_unique {A} (P : A → Prop) `{!∀ x, Decision (P x)} (l : list A) x :
  (∀ y, y ∈ l → P y → y = x) → x ∈ l → P x → snd <$> list_find P l = Some x.
Proof.
  intros Hu Hx HP. destruct (list_find P l) as [[i y]|] eqn:E.
  - apply list_find_Some in E as (Hi & HPy & _). simpl. f_equal. apply Hu; [by eapply list_elem_of_lookup_2|done].
  - apply list_find_None in E. by destruct (proj1 (Forall_forall _ _) E x Hx).
Qed.

Lemma list_find_in {A} (P : A → Prop) `{!∀ x, Decision (P x)} (l : list A) x :
  snd <$> list_find P l = Some x → x ∈ l ∧ P x.
Proof.
  destruct (list_find P l) as [[i y]|] eqn:E; [|done]. intros [= <-].
  apply list_find_Some in E as (Hi & HPy & _). split; [by eapply list_elem_of_lookup_2|done].
Qed.

Lemma sorted_lookup_lt (l : list Z) i j x y : StronglySorted Z.lt l →
  l !! i = Some x → l !! j = Some y → (i < j)%nat → x < y.
Proof.
  intros Hs. revert i j. induction Hs as [|z l Hs IH Hall]; intros i j Hi Hj Hij; [done|].
  destruct j as [|j]; [lia|]. destruct i as [|i]; simpl in *.
  - injection Hi as ->. by apply (proj1 (Forall_forall _ _) Hall), (list_elem_of_lookup_2 _ j).
  - eapply IH; [done..|lia].
Qed.

Section Tree.
Context {ps : list permission_object} {next : Z} (Hwf : tree_wf ps next).

Lemma tree_lookup_lt i j p q : ps !! i = Some p → ps !! j = Some q → po_id p < po_id q → (i < j)%nat.
Proof.
  intros Hi Hj Hlt. destruct (decide (i < j)%nat) as [|Hge]; [done|]. exfalso.
  destruct (decide (i = j)) as [-> |Hne]; [rewrite Hi in Hj; injection Hj as ->; lia|].
  assert (po_id q < po_id p); [|lia].
  eapply (sorted_lookup_lt (po_id <$> ps) j i); [apply Hwf|..|lia]; rewrite list_lookup_fmap; [by rewrite Hj|by rewrite Hi].
Qed.

Lemma tree_id_unique p q : p ∈ ps → q ∈ ps → po_id p = po_id q → p = q.
Proof.
  intros [i Hi]%list_elem_of_lookup_1 [j Hj]%list_elem_of_lookup_1 Hid.
  destruct (decide (i = j)) as [-> |Hne]; [congruence|]. exfalso.
  assert (Hl : ∀ i j p q, ps !! i = Some p → ps !! j = Some q → (i < j)%nat → po_id p < po_id q).
  { intros i' j' p' q' Hi' Hj' Hlt.
    eapply (sorted_lookup_lt (po_id <$> ps) i' j'); [apply Hwf|..|done]; rewrite list_lookup_fmap; [by rewrite Hi'|by rewrite Hj']. }
  destruct (decide (i < j)%nat).
  - pose proof (Hl i j p q Hi Hj). lia.
  - pose proof (Hl j i q p Hj Hi). lia.
Qed.

Lemma tree_reserved_in : reserved_permission 0 ∈ ps.
Proof. apply head_Some_elem_of, Hwf. Qed.

Lemma tree_root p : p ∈ ps → po_id p = 0 → p = reserved_permission 0.
Proof. intros Hp Hid. apply tree_id_unique; [done|apply tree_reserved_in|done]. Qed.

Lemma tree_parent p : p ∈ ps → po_id p ≠ 0 →
  (parent p = 0 ∧ po_name p = owner_name) ∨
  ∃ q, q ∈ ps ∧ po_id q = parent p ∧ 0 < po_id q < po_id p ∧ owner q = owner p.
Proof. intros Hp Hid. pose proof (tree_parents _ _ Hwf p Hp Hid) as H. unfold parent_ok in H. case_decide; auto. Qed.

Lemma ancestor_in p q : q ∈ ps → ancestor_or_self ps p q → p ∈ ps.
Proof. intros Hq H. induction H as [|q r Hq' Hid Hne H IH]; auto. Qed.

Lemma ancestor_owner p q : q ∈ ps → ancestor_or_self ps p q → owner p = owner q.
Proof.
  intros Hq H. induction H as [|q r Hq' Hid Hne H IH]; [done|]. rewrite IH by done.
  assert (po_id r ≠ 0) as Hr.
  { intros E. apply tree_root in E; [|done]. by subst r. }
  destruct (tree_parent r Hq Hr) as [[? _]|(q' & Hin & Hid' & _ & Ho)]; [done|].
  by rewrite (tree_id_unique q q') by congruence.
Qed.

(** Above [r] are its parent and what is above it. *)
Lemma ancestor_inv p r q : q ∈ ps → po_id q = parent r → parent r ≠ 0 →
  ancestor_or_self ps p r ↔ p = r ∨ ancestor_or_self ps p q.
Proof.
  intros Hq Hid Hne. split.
  - intros H. inversion H as [|q' ? Hq' Hid' _ H']; subst; [by left|]. right.
    by rewrite (tree_id_unique q q') by congruence.
  - intros [-> |H]; [constructor|by eapply ancestor_up].
Qed.

Lemma perm_ancestor_root p r : parent r = 0 → ancestor_or_self ps p r ↔ p = r.
Proof. intros Hr. split; [|intros ->; constructor]. intros H. inversion H; subst; [done|congruence]. Qed.

Lemma find_by_id_in (db : auth_db) p : permissions db = ps → p ∈ ps → find_by_id db (po_id p) = Some p.
Proof.
  intros E Hp. unfold find_by_id. rewrite E. apply list_find_unique; [|done|done].
  intros y Hy Hid. by apply tree_id_unique.
Qed.

(** The walk finds out whether [self] is above [p], and ends within the length of the index. *)
Lemma satisfies_loop_correct (db : auth_db) self : permissions db = ps → self ∈ ps → po_id self ≠ 0 →
  ∀ fuel i p, ps !! i = Some p → (i < fuel)%nat →
  ∃ b, satisfies_loop fuel db (po_id self) p = Ok b ∧
    (b = true ↔ ∃ q, q ∈ ps ∧ po_id q = parent p ∧ parent p ≠ 0 ∧ ancestor_or_self ps self q).
Proof.
  intros E Hself Hid0. induction fuel as [|fuel IH]; intros i p Hi Hlt; [lia|]. cbn [satisfies_loop].
  pose proof (list_elem_of_lookup_2 _ _ _ Hi) as Hp.
  destruct (Z.eqb_spec (po_id self) (parent p)) as [Hpar|Hpar].
  { exists true. split; [done|]. split; [intros _|done]. exists self. split_and!; [done|done|congruence|constructor]. }
  destruct (Z.eqb_spec (parent p) 0) as [H0|H0].
  { exists false. split; [done|]. split; [done|]. intros (? & _ & _ & ? & _). done. }
  assert (po_id p ≠ 0) as Hpid by (intros ?%tree_root; [by subst|done]).
  destruct (tree_parent p Hp Hpid) as [[? _]|(q & Hq & Hqid & Hql & _)]; [done|].
  rewrite <- Hqid, (find_by_id_in _ _ E Hq). apply list_elem_of_lookup_1 in Hq as [j Hj].
  assert (j < i)%nat by (by eapply tree_lookup_lt; [..|apply Hql]).
  destruct (IH j q Hj) as (b & Hb & Hiff); [lia|]. exists b. split; [done|]. rewrite Hiff. clear Hiff Hb IH.
  pose proof (list_elem_of_lookup_2 _ _ _ Hj) as Hq. split.
  - intros (q' & Hq' & Hid' & Hne & Ha). exists q. split_and!; [done|done|congruence|by eapply ancestor_up].
  - intros (q' & Hq' & Hid' & Hne & Ha). assert (q' = q) as -> by (apply tree_id_unique; congruence).
    inversion Ha as [|q'' ? Hq'' Hid'' Hne'' H']; subst; [congruence|]. by exists q''.
Qed.

End Tree.

Lemma satisfies_ancestor db next self other : tree_wf (permissions db) next →
  self ∈ permissions db → other ∈ permissions db →
  ∃ b, satisfies db self other = Ok b ∧ (b = true ↔ ancestor_or_self (permissions db) self other).
Proof.
  intros Hwf Hs Ho. unfold satisfies.
  destruct (Z.eqb_spec (owner self) (owner other)) as [Hown|Hown]; cbn [negb].
  2: { exists false. split; [done|]. split; [done|]. intros Ha. by apply (ancestor_owner Hwf) in Ha. }
  destruct (Z.eqb_spec (po_id self) (po_id other)) as [Hid|Hid]; cbn [orb].
  { exists true. split; [done|]. rewrite (tree_id_unique Hwf self other) by done. split; [constructor|done]. }
  assert (po_id self ≠ 0 ∧ po_id other ≠ 0) as [Hs0 Ho0].
  { split; intros E.
    - pose proof (tree_root Hwf _ Hs E). subst self. simpl in *.
      by destruct (tree_names _ _ Hwf other Ho) as [? _].
    - pose proof (tree_root Hwf _ Ho E). subst other. simpl in *.
      by destruct (tree_names _ _ Hwf self Hs) as [? _]. }
  destruct (Z.eqb_spec (po_id self) (parent other)) as [Hpar|Hpar].
  { exists true. split; [done|]. split; [intros _|done]. eapply (ancestor_up _ _ self); [done|done|congruence|constructor]. }
  destruct (tree_parent Hwf other Ho Ho0) as [[H0 _]|(q & Hq & Hqid & Hql & _)].
  - rewrite H0. change 0 with (po_id (reserved_permission 0)) at 1.
    rewrite (find_by_id_in Hwf _ _ eq_refl) by apply (tree_reserved_in Hwf).
    exists false. split.
    + destruct (permissions db) as [|x l]; [by apply not_elem_of_nil in Hs|]. cbn [length satisfies_loop parent reserved_permission].
      rewrite (proj2 (Z.eqb_neq _ _)) by done. done.
    + rewrite perm_ancestor_root by done. split; [done|]. by intros <-.
  - rewrite <- Hqid, (find_by_id_in Hwf _ _ eq_refl Hq). pose proof Hq as [j Hj]%list_elem_of_lookup_1.
    destruct (satisfies_loop_correct Hwf db self eq_refl Hs Hs0 (length (permissions db)) j q Hj) as (b & Hb & Hiff);
      [by eapply lookup_lt_Some|].
    exists b. split; [done|]. rewrite Hiff, (ancestor_inv Hwf self other q) by (done || lia). split.
    + intros (q' & Hq' & Hid' & Hne & Ha). right. by eapply ancestor_up.
    + intros [-> |Ha]; [done|]. inversion Ha as [|q' ? Hq' Hid' Hne H']; subst; [congruence|]. by exists q'.
Qed.

(** ** The invariant of the database *)

(** When [L] holds, links name permissions that exist. *)
Record perm_core (L : Prop) (db : auth_db) : Prop := {
  wf_tree : tree_wf (permissions db) (next_permission_id db);
  wf_usage : ∀ p, p ∈ permissions db → po_id p ≠ 0 → is_Some (usages db !! usage_id p);
  wf_usage_distinct : ∀ p q, p ∈ permissions db → q ∈ permissions db → po_id p ≠ 0 → po_id q ≠ 0 →
    usage_id p = usage_id q → p = q;
  wf_usage_next : ∀ i, is_Some (usages db !! i) → i < next_usage_id db;
  wf_owners : ∀ p, p ∈ permissions db → po_id p ≠ 0 → is_Some (account_objects db !! owner p);
  wf_links : L → ∀ a c t r, links db !! (a, c, t) = Some r → r = eosio_any_name ∨
    ∃ p, p ∈ permissions db ∧ owner p = a ∧ po_name p = r }.

(** The two permissions every account has. *)
Definition account_ok (ps : list permission_object) (a : Z) : Prop :=
  ∃ o ac, o ∈ ps ∧ ac ∈ ps ∧ owner o = a ∧ po_name o = owner_name ∧
    owner ac = a ∧ po_name ac = active_name ∧ parent ac = po_id o.

Record perm_wf (L : Prop) (db : auth_db) : Prop := {
  wf_core : perm_core L db;
  wf_accounts : ∀ a, is_Some (account_objects db !! a) → account_ok (permissions db) a }.

Arguments wf_tree {L} _ _.
Arguments wf_usage {L} _ _.
Arguments wf_usage_distinct {L} _ _.
Arguments wf_usage_next {L} _ _.
Arguments wf_owners {L} _ _.
Arguments wf_links {L} _ _.
Arguments wf_core {L} _ _.
Arguments wf_accounts {L} _ _.

Section Invariant.
Context {L : Prop}.

Lemma find_by_owner_Some db a n p : find_by_owner db a n = Some p → p ∈ permissions db ∧ owner p = a ∧ po_name p = n.
Proof. intros H%list_find_in. tauto. Qed.

Lemma find_by_owner_None db a n p : find_by_owner db a n = None → p ∈ permissions db → owner p = a → po_name p ≠ n.
Proof.
  unfold find_by_owner. destruct (list_find _ _) as [[i y]|] eqn:E; [done|]. intros _ Hp Ho Hn.
  apply list_find_None in E. by apply (proj1 (Forall_forall _ _) E p Hp).
Qed.

Lemma find_by_owner_in db p : perm_core L db → p ∈ permissions db → find_by_owner db (owner p) (po_name p) = Some p.
Proof.
  intros Hwf Hp. apply list_find_unique; [|done|done]. intros y Hy [Ho Hn].
  by eapply (tree_unique _ _ (wf_tree _ Hwf)).
Qed.

Lemma get_permission_ok db l p : get_permission db l = Ok p ↔
  actor l ≠ 0 ∧ permission l ≠ 0 ∧ find_by_owner db (actor l) (permission l) = Some p.
Proof.
  unfold get_permission, name_empty. destruct (Z.eqb_spec (actor l) 0); destruct (Z.eqb_spec (permission l) 0); simpl;
    [naive_solver..|].
  destruct (find_by_owner _ _ _); naive_solver.
Qed.

(** Lists that differ in a suffix, in one place, or by one element. *)
Lemma parent_ok_mono ps ps' p : (∀ q, q ∈ ps → q ∈ ps') → parent_ok ps p → parent_ok ps' p.
Proof. intros Hsub. unfold parent_ok. case_decide; [done|]. naive_solver. Qed.

Lemma StronglySorted_snoc (l : list Z) x : StronglySorted Z.lt l → (∀ y, y ∈ l → y < x) → StronglySorted Z.lt (l ++ [x]).
Proof.
  induction 1 as [|y l Hs IH Hall]; intros Hx; simpl; [by repeat constructor|]. constructor.
  - apply IH. intros z Hz. apply Hx. by right.
  - apply Forall_app. split; [done|]. apply Forall_singleton, Hx. by left.
Qed.

Lemma tree_snoc ps next p : tree_wf ps next → po_id p = next → owner p ≠ 0 → po_name p ≠ 0 →
  (∀ q, q ∈ ps → owner q = owner p → po_name q ≠ po_name p) → parent_ok ps p → authority_typed (auth p) →
  tree_wf (ps ++ [p]) (next + 1).
Proof.
  intros Hwf Hid Ho Hn Hu Hpar Ht.
  assert (0 <= next) as Hn0 by (pose proof (tree_next _ _ Hwf _ (tree_reserved_in Hwf)); simpl in *; lia).
  assert (Hin : ∀ q, q ∈ ps ++ [p] → q ∈ ps ∨ q = p) by (intros q; by rewrite elem_of_app, list_elem_of_singleton).
  split.
  - pose proof (tree_reserved _ _ Hwf). by destruct ps.
  - rewrite fmap_app. apply StronglySorted_snoc; [apply Hwf|]. intros y (q & -> & Hq)%list_elem_of_fmap.
    pose proof (tree_next _ _ Hwf q Hq). lia.
  - intros q [Hq|Hq]%Hin; [pose proof (tree_next _ _ Hwf q Hq); lia|subst q; lia].
  - intros q [Hq|Hq]%Hin; [by apply Hwf|by subst q].
  - intros q q' [Hq|Hq]%Hin [Hq'|Hq']%Hin E1 E2; subst; [by apply (tree_unique _ _ Hwf)| | |done].
    + by destruct (Hu q Hq E1).
    + by destruct (Hu q' Hq').
  - intros q [Hq|Hq]%Hin Hne; [|subst q]; eapply (parent_ok_mono ps); [| | |done].
    + intros. apply elem_of_app. by left.
    + by apply Hwf.
    + intros. apply elem_of_app. by left.
  - intros q [Hq|Hq]%Hin; [by apply Hwf|by subst q].
Qed.

(** *** Creating a permission *)

Lemma create_permission_inv env db account name par a time db' p :
  create_permission env db account name par a time = Ok (db', p) →
  find_by_owner db account name = None ∧
  po_id p = next_permission_id db ∧ usage_id p = next_usage_id db ∧ parent p = par ∧ owner p = account ∧
  po_name p = name ∧ auth p = a ∧
  ∃ t, db' = AuthDb (permissions db ++ [p]) (next_permission_id db + 1) (<[next_usage_id db := t]> (usages db))
    (next_usage_id db + 1) (links db) (account_objects db) (deferred db) (limits db).
Proof.
  unfold create_permission. intros H. apply bind_inv in H as (? & _ & H).
  apply bind_inv in H as (? & Hf%check_inv%bool_decide_eq_true & [= <- <-]). split_and!; try done. by eexists.
Qed.

Lemma create_core env db account name par a time db' p :
  create_permission env db account name par a time = Ok (db', p) → perm_core L db →
  account ≠ 0 → name ≠ 0 → is_Some (account_objects db !! account) → authority_typed a →
  (if decide (name = owner_name) then par = 0
   else ∃ q, q ∈ permissions db ∧ po_id q = par ∧ par ≠ 0 ∧ owner q = account) →
  perm_core L db'.
Proof.
  intros H Hc Hacc Hname Hex Ht Hpar.
  apply create_permission_inv in H as (Hnew & Hid & Hus & Hp & Ho & Hn & Ha & t & ->).
  pose proof (wf_tree _ Hc) as Htree.
  assert (Hin : ∀ q, q ∈ permissions db ++ [p] → q ∈ permissions db ∨ q = p)
    by (intros q; by rewrite elem_of_app, list_elem_of_singleton).
  assert (Hfresh : ∀ q, q ∈ permissions db → po_id q ≠ 0 → usage_id q < next_usage_id db)
    by (intros q Hq Hq0; by apply (wf_usage_next _ Hc), (wf_usage _ Hc)).
  split; cbn [permissions next_permission_id usages next_usage_id account_objects links].
  - apply tree_snoc; [done|done|congruence|congruence| | |congruence].
    + intros q Hq Hq'. rewrite Hn. eapply find_by_owner_None; [done|done|congruence].
    + unfold parent_ok. rewrite Hn, Hid, Hp, Ho. case_decide; [done|].
      destruct Hpar as (q & Hq & Hqid & Hq0 & Hqo). exists q. pose proof (tree_next _ _ Htree q Hq). split_and!; try done; lia.
  - intros q [Hq| ->]%Hin Hne; [|rewrite Hus, lookup_insert_eq; by eexists].
    rewrite lookup_insert_ne by (pose proof (Hfresh q Hq Hne); lia). by apply Hc.
  - intros q q' [Hq| ->]%Hin [Hq'| ->]%Hin Hne Hne' E; [by apply (wf_usage_distinct _ Hc)|..|done].
    + pose proof (Hfresh q Hq Hne). lia.
    + pose proof (Hfresh q' Hq' Hne'). lia.
  - intros i. rewrite lookup_insert_is_Some. intros [<-|[_ Hi]]; [lia|]. pose proof (wf_usage_next _ Hc i Hi). lia.
  - intros q [Hq| ->]%Hin Hne; [by apply Hc|congruence].
  - intros HL a' c ty r Hl. destruct (wf_links _ Hc HL a' c ty r Hl) as [?|(q & Hq & ?)]; [by left|]. right. exists q.
    rewrite elem_of_app. auto.
Qed.

(** *** Changing and removing a permission *)

Definition updated (env : chain_env) (p : permission_object) (a : authority) (po : permission_object) : permission_object :=
  if po_id po =? po_id p
  then PermissionObject (po_id po) (usage_id po) (parent po) (owner po) (po_name po) (pending_block_time env) a
  else po.

Lemma updated_fields env p a po :
  po_id (updated env p a po) = po_id po ∧ usage_id (updated env p a po) = usage_id po ∧
  parent (updated env p a po) = parent po ∧ owner (updated env p a po) = owner po ∧
  po_name (updated env p a po) = po_name po.
Proof. unfold updated. by case_match. Qed.

Lemma modify_permission_inv env db p a db' : modify_permission env db p a = Ok db' →
  db' = set_permissions db (updated env p a <$> permissions db).
Proof. intros H. apply bind_inv in H as (? & _ & [= <-]). done. Qed.

Lemma parent_ok_updated env p a ps po : parent_ok ps po → parent_ok (updated env p a <$> ps) (updated env p a po).
Proof.
  unfold parent_ok. destruct (updated_fields env p a po) as (-> & _ & -> & -> & ->). case_decide; [done|].
  intros (q & Hq & Hid & Hlt & Ho). exists (updated env p a q).
  destruct (updated_fields env p a q) as (-> & _ & _ & -> & _).
  split; [by apply list_elem_of_fmap_2|]. done.
Qed.

Lemma updated_tree env p a ps next : tree_wf ps next → p ∈ ps → po_id p ≠ 0 → authority_typed a →
  tree_wf (updated env p a <$> ps) next.
Proof.
  intros Hwf Hp Hp0 Ht.
  split.
  - pose proof (tree_reserved _ _ Hwf) as Hr. destruct ps as [|x ps]; [done|]. injection Hr as ->.
    rewrite fmap_cons. cbn [head]. unfold updated. cbn [po_id reserved_permission].
    rewrite (proj2 (Z.eqb_neq _ _)) by congruence. done.
  - rewrite <- list_fmap_compose. erewrite list_fmap_ext; [apply Hwf|]. intros i x _. simpl. apply updated_fields.
  - intros q (x & -> & Hx)%list_elem_of_fmap. destruct (updated_fields env p a x) as (-> & _). by apply Hwf.
  - intros q (x & -> & Hx)%list_elem_of_fmap. destruct (updated_fields env p a x) as (-> & _ & _ & -> & ->). by apply Hwf.
  - intros q q' (x & -> & Hx)%list_elem_of_fmap (x' & -> & Hx')%list_elem_of_fmap.
    destruct (updated_fields env p a x) as (_ & _ & _ & -> & ->), (updated_fields env p a x') as (_ & _ & _ & -> & ->).
    intros E1 E2. by rewrite (tree_unique _ _ Hwf x x').
  - intros q (x & -> & Hx)%list_elem_of_fmap. rewrite (proj1 (updated_fields env p a x)). intros Hne.
    apply parent_ok_updated. by apply Hwf.
  - intros q (x & -> & Hx)%list_elem_of_fmap. unfold updated. case_match; [done|]. by apply Hwf.
Qed.

Lemma modify_core env db p a db' : modify_permission env db p a = Ok db' → perm_wf L db →
  p ∈ permissions db → po_id p ≠ 0 → authority_typed a → perm_wf L db'.
Proof.
  intros ->%modify_permission_inv [Hc Hacc] Hp Hp0 Ht. split; [split|]; cbn [permissions next_permission_id usages next_usage_id account_objects links set_permissions].
  - apply updated_tree; [apply Hc|done..].
  - intros q (x & -> & Hx)%list_elem_of_fmap. destruct (updated_fields env p a x) as (-> & -> & _). by apply Hc.
  - intros q q' (x & -> & Hx)%list_elem_of_fmap (x' & -> & Hx')%list_elem_of_fmap.
    destruct (updated_fields env p a x) as (-> & -> & _), (updated_fields env p a x') as (-> & -> & _).
    intros. by rewrite (wf_usage_distinct _ Hc x x').
  - apply Hc.
  - intros q (x & -> & Hx)%list_elem_of_fmap. destruct (updated_fields env p a x) as (-> & _ & _ & -> & _). by apply Hc.
  - intros HL a' c t r Hl. destruct (wf_links _ Hc HL a' c t r Hl) as [?|(q & Hq & ? & ?)]; [by left|]. right.
    exists (updated env p a q). destruct (updated_fields env p a q) as (_ & _ & _ & -> & ->).
    split; [by apply list_elem_of_fmap_2|done].
  - intros x Hx. destruct (Hacc x Hx) as (o & ac & Ho & Hac & ?). exists (updated env p a o), (updated env p a ac).
    destruct (updated_fields env p a o) as (-> & _ & _ & -> & ->), (updated_fields env p a ac) as (_ & _ & -> & -> & ->).
    split; [by apply list_elem_of_fmap_2|]. split; [by apply list_elem_of_fmap_2|done].
Qed.

Lemma remove_permission_inv db p db' : remove_permission db p = Ok db' →
  (∀ q, q ∈ permissions db → parent q ≠ po_id p) ∧
  db' = set_permissions (set_usages db (delete (usage_id p) (usages db)))
          (filter (λ po, po_id po ≠ po_id p) (permissions db)).
Proof.
  intros H. apply bind_inv in H as (? & Hc%check_inv & [= <-]). split; [|done]. intros q Hq.
  apply (proj1 (forallb_forall _ _)) with (x := q) in Hc; [by breflect|by apply list_elem_of_In].
Qed.

Lemma sorted_filter (P : permission_object → Prop) `{!∀ x, Decision (P x)} ps :
  StronglySorted Z.lt (po_id <$> ps) → StronglySorted Z.lt (po_id <$> filter P ps).
Proof.
  induction ps as [|x ps IH]; [done|]. rewrite fmap_cons. intros [Hs Hall]%StronglySorted_inv.
  rewrite filter_cons. case_decide; [|by apply IH]. rewrite fmap_cons. constructor; [by apply IH|].
  apply Forall_forall. intros y (z & -> & Hz)%list_elem_of_fmap. apply (proj1 (Forall_forall _ _) Hall).
  apply list_elem_of_filter in Hz as [_ Hz]. by apply list_elem_of_fmap_2.
Qed.

Lemma tree_remove ps next p : tree_wf ps next → po_id p ≠ 0 → (∀ q, q ∈ ps → parent q ≠ po_id p) →
  tree_wf (filter (λ po, po_id po ≠ po_id p) ps) next.
Proof.
  intros Hwf Hp0 Hch.
  assert (Hin : ∀ q, q ∈ filter (λ po, po_id po ≠ po_id p) ps → q ∈ ps) by (intros q [_ ?]%list_elem_of_filter; done).
  split.
  - pose proof (tree_reserved _ _ Hwf) as Hr. destruct ps as [|x ps]; [done|]. injection Hr as ->.
    rewrite filter_cons. rewrite decide_True; [done|]. simpl. congruence.
  - apply sorted_filter, Hwf.
  - intros q Hq%Hin. by apply Hwf.
  - intros q Hq%Hin. by apply Hwf.
  - intros q q' Hq%Hin Hq'%Hin. by apply Hwf.
  - intros q Hq Hne. pose proof (tree_parents _ _ Hwf q (Hin q Hq) Hne) as Hpar. unfold parent_ok in *.
    case_decide; [done|]. destruct Hpar as (x & Hx & Hid & Hrest). exists x. split; [|done].
    apply list_elem_of_filter. split; [|done]. rewrite Hid. by apply Hch, Hin.
  - intros q Hq%Hin. by apply Hwf.
Qed.

Lemma remove_core db p db' : remove_permission db p = Ok db' → perm_wf L db → p ∈ permissions db → po_id p ≠ 0 →
  po_name p ≠ owner_name → po_name p ≠ active_name →
  (∀ a c t r, links db !! (a, c, t) = Some r → owner p = a → po_name p ≠ r) → perm_wf L db'.
Proof.
  intros [Hch ->]%remove_permission_inv [Hc Hacc] Hp Hp0 Hno Hna Hl.
  assert (Hin : ∀ q, q ∈ filter (λ po, po_id po ≠ po_id p) (permissions db) → q ∈ permissions db ∧ q ≠ p).
  { intros q [Hne Hq]%list_elem_of_filter. split; [done|]. by intros ->. }
  assert (Hkeep : ∀ q, q ∈ permissions db → po_name q ≠ po_name p ∨ owner q ≠ owner p →
    q ∈ filter (λ po, po_id po ≠ po_id p) (permissions db)).
  { intros q Hq Hne. apply list_elem_of_filter. split; [|done]. intros E.
    assert (q = p) as -> by (by apply (tree_id_unique (wf_tree _ Hc))). naive_solver. }
  split; [split|]; cbn [permissions next_permission_id usages next_usage_id account_objects links set_permissions set_usages].
  - apply tree_remove; [apply Hc|done..].
  - intros q [Hq Hne]%Hin Hq0. rewrite lookup_delete_ne; [by apply Hc|]. intros E.
    by apply Hne, (wf_usage_distinct _ Hc).
  - intros q q' [Hq _]%Hin [Hq' _]%Hin. by apply Hc.
  - intros i [t [_ Ht]%lookup_delete_Some]. apply (wf_usage_next _ Hc). by exists t.
  - intros q [Hq _]%Hin. by apply Hc.
  - intros HL a c t r Hlink. destruct (wf_links _ Hc HL a c t r Hlink) as [?|(q & Hq & Ho & Hn)]; [by left|]. right.
    exists q. split; [|done]. apply Hkeep; [done|]. destruct (decide (owner q = owner p)) as [E|E]; [left|by right].
    rewrite Hn. intros E'. by apply (Hl a c t r Hlink); [congruence|].
  - intros a Ha. destruct (Hacc a Ha) as (o & ac & Ho & Hac & Ho1 & Ho2 & Hac1 & Hac2 & Hpar). exists o, ac.
    split_and!; try done; (apply Hkeep; [done|left; congruence]).
Qed.

(** *** The native actions *)

Lemma add_ram_usage_inv db a d db' : add_ram_usage db a d = Ok db' →
  ∃ l, db' = set_limits db l ∧ add_pending_ram_usage (limits db) a d = Ok l.
Proof. intros H. apply bind_inv in H as (l & Hl & [= <-]). by exists l. Qed.

Lemma perm_core_limits db l : perm_core L db → perm_core L (set_limits db l).
Proof. intros [H1 H2 H3 H4 H5 H6]. by split. Qed.

Lemma perm_wf_limits db l : perm_wf L db → perm_wf L (set_limits db l).
Proof. intros [Hc Ha]. split; [by apply perm_core_limits|done]. Qed.

Lemma perm_core_account db a r : perm_core L db → perm_core L (set_accounts db (<[a := r]> (account_objects db))).
Proof.
  intros [H1 H2 H3 H4 H5 H6]. split; try done. intros p Hp Hne. cbn [account_objects set_accounts].
  apply lookup_insert_is_Some'. right. by apply H5.
Qed.

Lemma account_ok_mono ps ps' a : (∀ q, q ∈ ps → q ∈ ps') → account_ok ps a → account_ok ps' a.
Proof. intros Hs (o & ac & Ho & Hac & ?). exists o, ac. auto. Qed.

Lemma names_distinct : owner_name ≠ 0 ∧ active_name ≠ 0 ∧ active_name ≠ owner_name.
Proof. vm_compute. by split_and!. Qed.

(** An account and its two permissions, created together. *)
Lemma create_account_wf env db name r oa aa time db' :
  create_account_permissions env (set_accounts db (<[name := r]> (account_objects db))) name oa aa time = Ok db' →
  perm_wf L db → name ≠ 0 → authority_typed oa → authority_typed aa → perm_wf L db'.
Proof.
  intros H [Hc Hacc] Hn Hoa Haa. destruct names_distinct as (Hno & Hna & Hne).
  set (db0 := set_accounts _ _) in *.
  apply bind_inv in H as ([db1 po] & H1 & H). apply bind_inv in H as ([db2 pa] & H2 & H).
  apply bind_inv in H as (l & _ & H). apply add_ram_usage_inv in H as (l' & -> & _).
  assert (perm_core L db0) as Hc0 by (by apply perm_core_account).
  assert (is_Some (account_objects db0 !! name)) as Hex by (cbn; rewrite lookup_insert_eq; by eexists).
  pose proof (create_core _ _ _ _ _ _ _ _ _ H1 Hc0 Hn Hno Hex Hoa) as Hc1. rewrite decide_True in Hc1 by done.
  specialize (Hc1 eq_refl).
  apply create_permission_inv in H1 as (_ & Hid1 & _ & _ & Ho1 & Hn1 & _ & t1 & E1).
  assert (po ∈ permissions db1) as Hpo by (rewrite E1; cbn; apply elem_of_app; right; by apply list_elem_of_singleton).
  pose proof (create_core _ _ _ _ _ _ _ _ _ H2 Hc1 Hn Hna) as Hc2. rewrite decide_False in Hc2 by done.
  assert (po_id po ≠ 0) as Hpo0.
  { intros E. apply (tree_root (wf_tree _ Hc1)) in E; [|done]. subst po. simpl in *. congruence. }
  assert (perm_core L db2) as Hc2'.
  { apply Hc2; [rewrite E1; by cbn|done|]. by exists po. }
  apply create_permission_inv in H2 as (_ & _ & _ & Hp2 & Ho2 & Hn2 & _ & t2 & E2).
  split; [by do 2 apply perm_core_limits|]. intros a Ha. cbn [set_limits permissions account_objects] in *.
  assert (Hsub : ∀ q, q ∈ permissions db1 → q ∈ permissions db2) by (intros q Hq; rewrite E2; cbn; apply elem_of_app; by left).
  destruct (decide (a = name)) as [-> |Hna'].
  - exists po, pa. split_and!; [by apply Hsub| |done|done|done|done|done]. rewrite E2. cbn.
    apply elem_of_app. right. by apply list_elem_of_singleton.
  - apply (account_ok_mono (permissions db)).
    + intros q Hq. apply Hsub. rewrite E1. cbn. apply elem_of_app. by left.
    + apply Hacc. rewrite E2, E1 in Ha. cbn in Ha. by rewrite lookup_insert_ne in Ha.
Qed.

Section Actions.
Context {codec : ActionCodec} (env : chain_env).

(** The authorities that action data unpacks to have the types of the code. *)
Context (newaccount_typed : ∀ d n, data_as_newaccount d = Ok n → authority_typed (na_owner n) ∧ authority_typed (na_active n))
  (updateauth_typed : ∀ d u, data_as_updateauth d = Ok u → authority_typed (ua_auth u)).

Lemma newaccount_wf ro db act db' : apply_eosio_newaccount env ro db act = Ok db' → perm_wf L db → perm_wf L db'.
Proof.
  intros H Hwf. unfold apply_eosio_newaccount in H.
  apply bind_inv in H as (? & _ & H). apply bind_inv in H as (n & Hn & H). do 3 apply bind_inv in H as (? & _ & H).
  apply bind_inv in H as (? & Hne%check_inv & H). do 2 apply bind_inv in H as (? & _ & H).
  do 4 apply bind_inv in H as (? & _ & H). destruct (newaccount_typed _ _ Hn).
  eapply create_account_wf; [apply H|done| |done|done]. unfold name_empty in Hne. by breflect.
Qed.

Lemma find_permission_ok db l o : find_permission db l = Ok o →
  actor l ≠ 0 ∧ permission l ≠ 0 ∧ o = find_by_owner db (actor l) (permission l).
Proof.
  intros H. apply bind_inv in H as (? & Hc%check_inv & [= <-]). unfold name_empty in Hc. breflect. done.
Qed.

Lemma perm_id_nonzero db p : perm_core L db → p ∈ permissions db → owner p ≠ 0 → po_id p ≠ 0.
Proof. intros Hc Hp Ho E. apply (tree_root (wf_tree _ Hc)) in E; [|done]. by subst p. Qed.

Lemma updateauth_wf ro db act db' : apply_eosio_updateauth env ro db act = Ok db' → perm_wf L db → perm_wf L db'.
Proof.
  intros H Hwf. pose proof (wf_core _ Hwf) as Hc. unfold apply_eosio_updateauth in H.
  apply bind_inv in H as (? & _ & H). apply bind_inv in H as (u & Hu & H). apply updateauth_typed in Hu as Ht.
  do 4 apply bind_inv in H as (? & _ & H). apply bind_inv in H as (? & Hacc%check_inv%bool_decide_eq_true & H).
  do 5 apply bind_inv in H as (? & _ & H).
  apply bind_inv in H as (found & Hf & H). apply find_permission_ok in Hf as (Ha & Hp & Hf). cbn [actor permission] in *.
  apply bind_inv in H as (pid & Hpid & H).
  destruct found as [p|].
  - apply bind_inv in H as (? & _ & H). apply bind_inv in H as (db1 & Hm & H).
    apply add_ram_usage_inv in H as (l & -> & _). apply perm_wf_limits.
    symmetry in Hf. apply find_by_owner_Some in Hf as (Hin & Ho & Hname).
    eapply modify_core; [done|done|done| |done]. apply (perm_id_nonzero db); [done|done|congruence].
  - apply bind_inv in H as ([db1 p] & Hcr & H). apply add_ram_usage_inv in H as (l & -> & _). apply perm_wf_limits.
    split.
    + eapply create_core; [done|done|done|done|done|done|].
      case_decide as En.
      * rewrite En, Z.eqb_refl in Hpid. by injection Hpid as <-.
      * rewrite (proj2 (Z.eqb_neq _ _)) in Hpid by done. apply bind_inv in Hpid as (q & Hq & [= <-]).
        apply get_permission_ok in Hq as (_ & _ & (Hin & Ho & Hname)%find_by_owner_Some). exists q.
        split_and!; [done|done| |done]. apply (perm_id_nonzero db); [done|done|]. cbn [actor] in Ho. congruence.
    + apply create_permission_inv in Hcr as (_ & _ & _ & _ & _ & _ & _ & t & ->). cbn [account_objects permissions].
      intros a Hex. apply (account_ok_mono (permissions db)); [|by apply Hwf]. intros q Hq. apply elem_of_app. by left.
Qed.

Lemma deleteauth_wf ro db act db' : apply_eosio_deleteauth env ro db act = Ok db' → perm_wf L db → perm_wf L db'.
Proof.
  intros H Hwf. pose proof (wf_core _ Hwf) as Hc. unfold apply_eosio_deleteauth in H.
  apply bind_inv in H as (? & _ & H). apply bind_inv in H as (d & _ & H). apply bind_inv in H as (? & _ & H).
  apply bind_inv in H as (? & Hna%check_inv & H). apply bind_inv in H as (? & Hno%check_inv & H).
  apply bind_inv in H as (? & Hl%check_inv & H). apply bind_inv in H as (p & Hp & H).
  apply bind_inv in H as (db1 & Hr & H). apply add_ram_usage_inv in H as (l & -> & _). apply perm_wf_limits.
  apply get_permission_ok in Hp as (Ha & _ & (Hin & Ho & Hn)%find_by_owner_Some). cbn [actor permission] in *. breflect.
  eapply remove_core; [done|done|done| |congruence|congruence|].
  - apply (perm_id_nonzero db); [done|done|congruence].
  - intros a c t r Hlink Eo. apply elem_of_map_to_list, list_elem_of_In in Hlink.
    apply (proj1 (forallb_forall _ _) Hl) in Hlink. cbn [fst snd] in Hlink. intros En.
    rewrite <- Ho, <- Hn, Eo, En, !Z.eqb_refl in Hlink. done.
Qed.

Lemma linkauth_wf ro db act db' : (L → only_link_to_existing_permission env = true) →
  apply_eosio_linkauth env ro db act = Ok db' → perm_wf L db → perm_wf L db'.
Proof.
  intros Hflag H [Hc Hacc]. unfold apply_eosio_linkauth in H.
  apply bind_inv in H as (? & _ & H). apply bind_inv in H as (q & _ & H). do 4 apply bind_inv in H as (? & _ & H).
  apply bind_inv in H as (? & Hreq%check_inv & H).
  assert (Hnew : perm_wf L (set_links db (<[(la_account q, la_code q, la_type q) := la_requirement q]> (links db)))).
  { split; [|done]. destruct Hc as [H1 H2 H3 H4 H5 H6]. split; try done. cbn [links set_links permissions].
    intros HL a c t r. rewrite (Hflag HL) in Hreq. rewrite lookup_insert_Some. intros [[[= <- <- <-] <-]|[_ Hl]]; [|by apply (H6 HL a c t r)].
    apply orb_true_iff in Hreq as [Hany|Hex]; breflect; [by left|right].
    destruct Hex as [p (Hin & Ho & Hn)%find_by_owner_Some]. by exists p. }
  destruct (links db !! _); [by apply bind_inv in H as (? & _ & [= <-])|].
  apply add_ram_usage_inv in H as (l & -> & _). by apply perm_wf_limits.
Qed.

Lemma unlinkauth_wf ro db act db' : apply_eosio_unlinkauth ro db act = Ok db' → perm_wf L db → perm_wf L db'.
Proof.
  intros H Hwf. unfold apply_eosio_unlinkauth in H.
  apply bind_inv in H as (? & _ & H). apply bind_inv in H as (u & _ & H). apply bind_inv in H as (? & _ & H).
  destruct (links db !! _); [|done]. apply bind_inv in H as (db1 & Hr & [= <-]).
  apply add_ram_usage_inv in Hr as (l & -> & _). destruct Hwf as [[H1 H2 H3 H4 H5 H6] Hacc].
  split; [|done]. split; try done. intros HL a c t r. cbn [links set_links set_limits permissions].
  intros [_ Hl]%lookup_delete_Some. by apply (H6 HL a c t r).
Qed.

End Actions.

End Invariant.
