(* ===== verification/NativeState.v ===== *)
(** * Permissions over time: genesis, native actions and RAM

    The states that native actions reach from genesis, the invariant
    that holds in them, and the RAM they are charged. *)

From S2P Require Import Prelude Names Authority AuthorityTheory ResourceLimits Permissions PermissionsTheory.
Open Scope Z_scope.

Lemma genesis_core_wf {L} : perm_wf L (initialize_database (AuthDb [] 0 ∅ 0 ∅ ∅ [] ResourceLimits.initialize_database)).
Proof.
  assert (Hin : ∀ p, p ∈ [reserved_permission 0] → p = reserved_permission 0) by (intros p; apply list_elem_of_singleton).
  split; [split; [split|..]|]; cbn [permissions next_permission_id usages next_usage_id account_objects links initialize_database app].
  - done.
  - by repeat constructor.
  - intros p ->%Hin. simpl. lia.
  - by intros p ->%Hin.
  - by intros p q ->%Hin ->%Hin.
  - by intros p ->%Hin.
  - intros p ->%Hin. simpl. repeat split; simpl; lia || constructor.
  - by intros p ->%Hin.
  - by intros p q ->%Hin ->%Hin.
  - intros i [x Hx]. by rewrite lookup_empty in Hx.
  - by intros p ->%Hin.
  - intros _ a c t r Hx. by rewrite lookup_empty in Hx.
  - intros a [x Hx]. by rewrite lookup_empty in Hx.
Qed.

Lemma native_account_wf {L} env db time name oa aa priv db' : create_native_account env db time name oa aa priv = Ok db' →
  perm_wf L db → name ≠ 0 → authority_typed oa → authority_typed aa → perm_wf L db'.
Proof.
  intros H Hwf Hn Hoa Haa. apply bind_inv in H as (? & _ & H). apply bind_inv in H as (db1 & H1 & H).
  apply bind_inv in H as (? & _ & [= <-]). by eapply create_account_wf.
Qed.

(** A permission created below an existing one of an account. *)
Lemma create_child_wf {L} env db q name a time db' p : create_permission env db (owner q) name (po_id q) a time = Ok (db', p) →
  perm_wf L db → q ∈ permissions db → po_id q ≠ 0 → name ≠ 0 → name ≠ owner_name → authority_typed a →
  perm_wf L db' ∧ p ∈ permissions db' ∧ owner p = owner q.
Proof.
  intros H [Hc Hacc] Hq Hq0 Hn0 Hn Ht.
  assert (perm_core L db') as Hc'.
  { eapply create_core; [done|done| |done|by apply Hc|done|].
    - by apply (tree_names _ _ (wf_tree _ Hc)).
    - rewrite decide_False by done. by exists q. }
  apply create_permission_inv in H as (_ & _ & _ & _ & Ho & _ & _ & t & ->).
  split; [split; [done|]|].
  - intros b Hb. apply (account_ok_mono (permissions db)); [|by apply Hacc]. intros x Hx. cbn. apply elem_of_app. by left.
  - split; [|done]. cbn. apply elem_of_app. right. by apply list_elem_of_singleton.
Qed.

Lemma genesis_permissions_wf {L} env time k db : initialize_accounts env time k = Ok db → perm_wf L db.
Proof.
  assert (Hk : authority_typed (authority_of_key k 0)) by (repeat split; simpl; try lia; repeat constructor; simpl; lia).
  assert (He : authority_typed (Authority 1 [] [] [])) by (repeat split; simpl; try lia; constructor).
  assert (Hp : ∀ l, authority_typed (Authority 1 [] [PermissionLevelWeight l 1] []))
    by (intros l; repeat split; simpl; try lia; repeat constructor; simpl; lia).
  intros H. apply bind_inv in H as (db1 & H1 & H). apply bind_inv in H as (db2 & H2 & H).
  apply bind_inv in H as (db3 & H3 & H). apply bind_inv in H as (q & Hq & H).
  apply bind_inv in H as ([db4 m] & H4 & H). apply bind_inv in H as ([db5 n] & H5 & [= <-]).
  eapply (native_account_wf (L := L)) in H1; [|apply genesis_core_wf|by vm_compute|done|done].
  eapply (native_account_wf (L := L)) in H2; [|done|by vm_compute|done|done].
  eapply (native_account_wf (L := L)) in H3; [|done|by vm_compute|done|apply Hp].
  apply get_permission_ok in Hq as (_ & _ & (Hin & Ho & _)%find_by_owner_Some). cbn [actor] in Ho.
  rewrite <- Ho in H4, H5.
  destruct (create_child_wf _ _ _ _ _ _ _ _ H4 H3 Hin) as (Hwf4 & Hm & Hmo); [|by vm_compute|by vm_compute|apply Hp|].
  { apply (perm_id_nonzero (L := L) db3); [apply H3|done|]. rewrite Ho. by vm_compute. }
  rewrite <- Hmo in H5.
  eapply (create_child_wf _ _ m); [done|done|done| |by vm_compute|by vm_compute|apply Hp].
  apply (perm_id_nonzero (L := L) db4); [apply Hwf4|done|]. rewrite Hmo, Ho. by vm_compute.
Qed.

(** ** Reachable states *)

Section Reach.
Context {codec : ActionCodec} (env : chain_env).

(** A native action that is applied, or a permission that is used. *)
Inductive native_step (db : auth_db) : auth_db → Prop :=
| step_newaccount ro act db' : apply_eosio_newaccount env ro db act = Ok db' → native_step db db'
| step_updateauth ro act db' : apply_eosio_updateauth env ro db act = Ok db' → native_step db db'
| step_deleteauth ro act db' : apply_eosio_deleteauth env ro db act = Ok db' → native_step db db'
| step_linkauth ro act db' : apply_eosio_linkauth env ro db act = Ok db' → native_step db db'
| step_unlinkauth ro act db' : apply_eosio_unlinkauth ro db act = Ok db' → native_step db db'
| step_use p db' : update_permission_usage env db p = Ok db' → native_step db db'.

(** Action data is unpacked to authorities of the types of the code. *)
Class CodecTyped : Prop := {
  newaccount_typed : ∀ d n, data_as_newaccount d = Ok n → authority_typed (na_owner n) ∧ authority_typed (na_active n);
  updateauth_typed : ∀ d u, data_as_updateauth d = Ok u → authority_typed (ua_auth u) }.

Lemma update_usage_wf {L} db p db' : update_permission_usage env db p = Ok db' → perm_wf L db → perm_wf L db'.
Proof.
  unfold update_permission_usage. destruct (usages db !! usage_id p) as [t|] eqn:E; [|done]. intros [= <-].
  intros [[H1 H2 H3 H4 H5 H6] Hacc]. split; [|done]. split; try done; cbn [usages next_usage_id set_usages permissions].
  - intros q Hq Hne. apply lookup_insert_is_Some'. right. by apply H2.
  - intros i. rewrite lookup_insert_is_Some. intros [<-|[_ Hi]]; apply H4; [by exists t|done].
Qed.

Lemma native_step_wf {L : Prop} `{!CodecTyped} db db' : (L → only_link_to_existing_permission env = true) →
  native_step db db' → perm_wf L db → perm_wf L db'.
Proof.
  intros Hflag [] Hwf;
    [eapply newaccount_wf|eapply updateauth_wf|eapply deleteauth_wf|eapply linkauth_wf|eapply unlinkauth_wf|eapply update_usage_wf];
    try done; [apply newaccount_typed|apply updateauth_typed].
Qed.

End Reach.

(** Steps under block times, configurations and protocol features that may change from one to the
    next and satisfy [Q]. *)
Definition native_steps {codec : ActionCodec} (Q : chain_env → Prop) : auth_db → auth_db → Prop :=
  rtc (λ db db', ∃ env, Q env ∧ native_step env db db').

Lemma reachable_wf {L : Prop} {codec : ActionCodec} {typed : CodecTyped} env0 time k db0 db (Q : chain_env → Prop) :
  (L → ∀ env, Q env → only_link_to_existing_permission env = true) →
  initialize_accounts env0 time k = Ok db0 → native_steps Q db0 db → perm_wf L db.
Proof.
  intros Hflag H0 Hrtc. apply (genesis_permissions_wf (L := L)) in H0. induction Hrtc as [|db1 db2 db3 (env & HQ & Hs) _ IH]; [done|].
  apply IH. exact (native_step_wf env db1 db2 (λ HL, Hflag HL env HQ) Hs H0).
Qed.

Lemma permission_to_authority_source {L} db : perm_wf L db → AuthoritySource (permission_to_authority db).
Proof.
  intros Hwf. unfold permission_to_authority, find_permission, name_empty. split.
  - intros p a. destruct (check _ _); [|done]. cbn [mbind result_bind]. destruct (find_by_owner db _ _) as [po|] eqn:E; [|done].
    intros [= <-]. apply find_by_owner_Some in E as (Hin & _). by apply (tree_typed _ _ (wf_tree _ (wf_core _ Hwf))).
  - intros p ->. simpl. by rewrite andb_false_r.
Qed.

(** C21: in every state that native actions reach from genesis, while block times, the
    configuration and the active protocol features change, the permissions form a tree:
    ids increase, owners and names identify a permission, each hangs off an older permission of the same
    account, and the only roots are owner permissions; every account
    has an owner permission and an active one below it, and every
    permission belongs to an account and has a usage record of its own. So looking up a usage never
    fails, every authority has the types the checker relies on, and [satisfies] always ends and
    says whether a permission is another one or above it. If [only_link_to_existing_permission] was
    active in every step, every link names a permission that exists, or any permission.
    Condition: action data is unpacked to authorities of the types of the code. *)
Theorem permissions_form_trees {codec : ActionCodec} {typed : CodecTyped} env0 time k db0 db (Q : chain_env → Prop) :
  initialize_accounts env0 time k = Ok db0 → native_steps Q db0 db →
  perm_wf False db ∧ AuthoritySource (permission_to_authority db) ∧
  (∀ p, p ∈ permissions db → po_id p ≠ 0 → ∃ t, get_permission_last_used db p = Ok t) ∧
  (∀ p q, p ∈ permissions db → q ∈ permissions db →
     ∃ b, satisfies db p q = Ok b ∧ (b = true ↔ ancestor_or_self (permissions db) p q)) ∧
  ((∀ env, Q env → only_link_to_existing_permission env = true) → ∀ a c t r, links db !! (a, c, t) = Some r →
     r = eosio_any_name ∨ ∃ p, p ∈ permissions db ∧ owner p = a ∧ po_name p = r).
Proof.
  intros Hg Hr. pose proof (reachable_wf (L := False) env0 time k db0 db Q (False_ind _) Hg Hr) as Hwf. split_and!; [done|..].
  - by apply (permission_to_authority_source (L := False)).
  - intros p Hp Hne. unfold get_permission_last_used. destruct (wf_usage _ (wf_core _ Hwf) p Hp Hne) as [t ->]. by exists t.
  - intros p q. eapply satisfies_ancestor, (wf_tree _ (wf_core _ Hwf)).
  - intros Hflag. pose proof (reachable_wf (L := True) env0 time k db0 db Q (λ _, Hflag) Hg Hr) as HwfL. exact (wf_links _ (wf_core _ HwfL) I).
Qed.

(** ** RAM *)

Definition ram (db : auth_db) (a : Z) : Z :=
  match rl_usage (limits db) !! a with Some u => ram_usage u | None => 0 end.

(** What an account has to pay for: the account, its permissions and its links. *)
Definition charged (env : chain_env) (db : auth_db) (a : Z) : Z :=
  (if bool_decide (is_Some (account_objects db !! a)) then overhead_per_account_ram_bytes else 0)
  + zsum (λ p, if owner p =? a then permission_size env (auth p) else 0) (permissions db)
  + zsum (λ l, if l.1.1.1 =? a then permission_link_size else 0) (map_to_list (links db)).

(** Sizes and usages fit their types. *)
Definition ram_typed (env : chain_env) (db : auth_db) : Prop :=
  (∀ a u, rl_usage (limits db) !! a = Some u → is_u64 (ram_usage u)) ∧
  (∀ p, p ∈ permissions db → 0 <= permission_size env (auth p) < 2 ^ 61).

Lemma add_ram_usage_exact db a d db' : add_ram_usage db a d = Ok db' →
  (∀ b u, rl_usage (limits db) !! b = Some u → is_u64 (ram_usage u)) → is_i64 d →
  ∃ l, db' = set_limits db l ∧ ∀ b, ram db' b = ram db b + (if a =? b then d else 0).
Proof.
  intros H%add_ram_usage_inv Hu Hd. destruct H as (l & -> & H). exists l. split; [done|]. intros b.
  unfold ram. cbn [limits set_limits]. unfold add_pending_ram_usage in H.
  destruct (Z.eqb_spec d 0) as [-> |Hne]; [injection H as <-; repeat case_match; lia|].
  apply bind_inv in H as (u & Hget & H). unfold db_get in Hget.
  destruct (rl_usage (limits db) !! a) as [u'|] eqn:E; [|done]. injection Hget as ->.
  apply bind_inv in H as (? & Hc1%check_inv & H). apply bind_inv in H as (? & Hc2%check_inv & [= <-]).
  cbn [rl_usage with_usage]. pose proof (Hu _ _ E) as Hru. unfold is_u64, is_i64, u64_max in *.
  destruct (Z.eqb_spec a b) as [<-|Hab]; [|rewrite lookup_insert_ne by done; lia].
  rewrite lookup_insert_eq, E. cbn [ram_usage]. rewrite u64_small; [done|]. unfold is_u64.
  apply orb_true_iff in Hc1, Hc2. rewrite !Z.leb_le in Hc1, Hc2. unfold u64 in *.
  destruct (Z_lt_le_dec d 0).
  - rewrite (Z.mod_small (- d)) in Hc2 by lia. lia.
  - rewrite (Z.mod_small d) in Hc1 by lia. lia.
Qed.

(** The difference between what an account uses and what it has to pay for. *)
Definition balanced (env : chain_env) (db db' : auth_db) : Prop :=
  ∀ a, ram db' a - charged env db' a = ram db a - charged env db a.

Lemma permission_size_i64 x y : 0 <= x < 2 ^ 61 → 0 <= y < 2 ^ 61 → is_i64 (x - y).
Proof. unfold is_i64. simpl. lia. Qed.

Lemma filter_all {A} (P : A → Prop) `{!∀ x, Decision (P x)} (l : list A) : (∀ x, x ∈ l → P x) → filter P l = l.
Proof.
  induction l as [|x l IH]; intros Hall; [done|]. rewrite filter_cons, decide_True by (apply Hall; by left).
  f_equal. apply IH. intros. apply Hall. by right.
Qed.

(** Replacing or removing the one element with an id. *)
Lemma zsum_split_id (f : permission_object → Z) ps next p : tree_wf ps next → p ∈ ps →
  zsum f ps = f p + zsum f (filter (λ q, po_id q ≠ po_id p) ps).
Proof.
  intros Hwf Hp. apply list_elem_of_split in Hp as (l1 & l2 & ->).
  assert (Hne : ∀ q, q ∈ l1 ++ l2 → po_id q ≠ po_id p).
  { intros q Hq E. pose proof (tree_sorted _ _ Hwf) as Hs.
    assert (NoDup (po_id <$> l1 ++ p :: l2)) as Hnd.
    { clear -Hs. induction Hs as [|x l Hs IH Hall]; constructor; [|done].
      intros Hx. pose proof (proj1 (Forall_forall _ _) Hall x Hx). lia. }
    rewrite fmap_app, fmap_cons in Hnd. apply NoDup_app in Hnd as (_ & Hd & [Hn _]%NoDup_cons).
    apply elem_of_app in Hq as [Hq|Hq].
    - apply (Hd (po_id q)); [by apply list_elem_of_fmap_2|]. rewrite E. by left.
    - apply Hn. rewrite <- E. by apply list_elem_of_fmap_2. }
  rewrite filter_app, filter_cons, decide_False, <- filter_app by tauto.
  rewrite (filter_all _ (l1 ++ l2)) by done.
  rewrite !zsum_app. simpl. unfold zsum. lia.
Qed.

Definition perm_charge (env : chain_env) (a : Z) (p : permission_object) : Z :=
  if owner p =? a then permission_size env (auth p) else 0.

Definition link_charge (a : Z) (l : Z * Z * Z * Z) : Z := if l.1.1.1 =? a then permission_link_size else 0.

Lemma charged_eq env db a : charged env db a =
  (if bool_decide (is_Some (account_objects db !! a)) then overhead_per_account_ram_bytes else 0)
  + zsum (perm_charge env a) (permissions db) + zsum (link_charge a) (map_to_list (links db)).
Proof. done. Qed.

Lemma updated_auth env p a : auth (updated env p a p) = a.
Proof. unfold updated. by rewrite Z.eqb_refl. Qed.

Lemma updated_charge env p a ps next b : tree_wf ps next → p ∈ ps →
  zsum (perm_charge env b) (updated env p a <$> ps)
  = zsum (perm_charge env b) ps + (if owner p =? b then permission_size env a - permission_size env (auth p) else 0).
Proof.
  intros Hwf Hp. rewrite zsum_fmap. rewrite (zsum_split_id _ ps next p Hwf Hp), (zsum_split_id (perm_charge env b) ps next p Hwf Hp).
  assert (perm_charge env b (updated env p a p) = if owner p =? b then permission_size env a else 0) as ->.
  { unfold updated. rewrite Z.eqb_refl. done. }
  rewrite (zsum_ext (λ x, perm_charge env b (updated env p a x)) (perm_charge env b)).
  - unfold perm_charge at 2. case_match; lia.
  - intros x [Hx _]%list_elem_of_filter. unfold updated. by rewrite (proj2 (Z.eqb_neq _ _)).
Qed.

Lemma links_insert_charge (m : gmap (Z * Z * Z) Z) k r b : 
  zsum (link_charge b) (map_to_list (<[k := r]> m))
  = zsum (link_charge b) (map_to_list m) + (if bool_decide (m !! k = None) && (k.1.1 =? b) then permission_link_size else 0).
Proof.
  case_bool_decide as E.
  - rewrite map_to_list_insert by done. cbn [zsum foldr]. unfold link_charge at 1. cbn [fst andb]. unfold zsum. lia.
  - apply not_eq_None_Some in E as [r' E]. rewrite <- (insert_delete_id m k r' E) at 2. rewrite <- insert_delete_eq.
    rewrite !map_to_list_insert by apply lookup_delete_eq. cbn [zsum foldr andb]. unfold link_charge at 1 3. cbn [fst]. lia.
Qed.

Lemma links_delete_charge (m : gmap (Z * Z * Z) Z) k r b : m !! k = Some r →
  zsum (link_charge b) (map_to_list (delete k m))
  = zsum (link_charge b) (map_to_list m) - (if k.1.1 =? b then permission_link_size else 0).
Proof.
  intros E. rewrite <- (map_to_list_delete m k r E). cbn [zsum foldr]. unfold link_charge at 2. cbn [fst]. unfold zsum. lia.
Qed.

Section Ram.
Context {codec : ActionCodec} (env : chain_env).

Lemma create_account_balanced db name r oa aa time db' : account_objects db !! name = None →
  create_account_permissions env (set_accounts db (<[name := r]> (account_objects db))) name oa aa time = Ok db' →
  ram_typed env db → ram_typed env db' → balanced env db db'.
Proof.
  intros Hnew H [Hu _] [_ Hs]. apply bind_inv in H as ([db1 po] & H1 & H). apply bind_inv in H as ([db2 pa] & H2 & H).
  apply create_permission_inv in H1 as (_ & _ & _ & _ & Ho1 & _ & Ha1 & t1 & ->).
  apply create_permission_inv in H2 as (_ & _ & _ & _ & Ho2 & _ & Ha2 & t2 & ->).
  apply bind_inv in H as (l & Hl & H). cbn [limits set_accounts] in Hl. unfold initialize_account in Hl.
  destruct (rl_limits (limits db) !! name); [done|]. destruct (rl_usage (limits db) !! name) as [|] eqn:Eu; [done|].
  injection Hl as <-. pose proof H as H'. apply add_ram_usage_inv in H' as (l' & -> & _).
  assert (0 <= permission_size env oa < 2 ^ 61 ∧ 0 <= permission_size env aa < 2 ^ 61) as [Hso Hsa].
  { split; [rewrite <- Ha1|rewrite <- Ha2]; apply Hs; cbn; rewrite !elem_of_app, !list_elem_of_singleton; auto. }
  apply add_ram_usage_exact in H as (l'' & _ & H).
  - intros b. rewrite H. clear H. unfold ram. rewrite !charged_eq.
    cbn [limits set_limits rl_usage permissions account_objects links set_accounts].
    rewrite !zsum_app. cbn [zsum foldr]. unfold perm_charge at 2 3. rewrite Ho1, Ho2, Ha1, Ha2.
    unfold permission_size in *. destruct (Z.eqb_spec name b) as [<-|Hne].
    + rewrite !lookup_insert_eq, Eu, Hnew. rewrite bool_decide_eq_true_2, bool_decide_eq_false_2 by (by eexists || by intros [? ?]).
      cbn [ram_usage]. lia.
    + rewrite !lookup_insert_ne by done. lia.
  - intros b u. cbn [limits set_limits rl_usage]. rewrite lookup_insert_Some. intros [[_ <-]|[_ Hb]]; [cbn; unfold is_u64; lia|by eapply Hu].
  - rewrite Ha1, Ha2. unfold permission_size, overhead_per_account_ram_bytes, is_i64 in *. simpl in Hso, Hsa. lia.
Qed.

Lemma newaccount_balanced ro db act db' : apply_eosio_newaccount env ro db act = Ok db' →
  ram_typed env db → ram_typed env db' → balanced env db db'.
Proof.
  intros H Ht Ht'. unfold apply_eosio_newaccount in H.
  apply bind_inv in H as (? & _ & H). apply bind_inv in H as (n & Hn & H). do 7 apply bind_inv in H as (? & _ & H).
  apply bind_inv in H as (? & Hnew%check_inv%bool_decide_eq_true & H). do 2 apply bind_inv in H as (? & _ & H).
  by eapply create_account_balanced.
Qed.

Lemma updateauth_balanced {L} ro db act db' : apply_eosio_updateauth env ro db act = Ok db' → perm_wf L db →
  ram_typed env db → ram_typed env db' → balanced env db db'.
Proof.
  intros H Hwf [Hu Hs] [_ Hs']. unfold apply_eosio_updateauth in H.
  apply bind_inv in H as (? & _ & H). apply bind_inv in H as (u & _ & H).
  do 10 apply bind_inv in H as (? & _ & H).
  apply bind_inv in H as (found & Hf & H). apply find_permission_ok in Hf as (_ & _ & Hf). cbn [actor permission] in *.
  apply bind_inv in H as (pid & _ & H). destruct found as [p|].
  - symmetry in Hf. apply find_by_owner_Some in Hf as (Hin & Ho & _).
    apply bind_inv in H as (? & _ & H). apply bind_inv in H as (db1 & Hm & H). apply modify_permission_inv in Hm as ->.
    assert (0 <= permission_size env (ua_auth u) < 2 ^ 61) as Hsz.
    { apply add_ram_usage_inv in H as (l & -> & _). specialize (Hs' (updated env p (ua_auth u) p)).
      rewrite updated_auth in Hs'. apply Hs'. cbn. by apply list_elem_of_fmap_2. }
    apply add_ram_usage_exact in H as (l & -> & H); [|done|apply permission_size_i64; [done|by apply Hs]].
    intros b. rewrite H, !charged_eq. cbn [permissions account_objects links set_limits set_permissions].
    rewrite (updated_charge env p (ua_auth u) _ _ b (wf_tree _ (wf_core _ Hwf)) Hin).
    change (ram (set_permissions _ _) b) with (ram db b). case_match; lia.
  - apply bind_inv in H as ([db1 p] & Hcr & H). apply create_permission_inv in Hcr as (_ & _ & _ & _ & Ho & _ & Ha & t & ->).
    assert (0 <= permission_size env (auth p) < 2 ^ 61) as Hsz.
    { apply add_ram_usage_inv in H as (l & -> & _). apply Hs'. cbn. apply elem_of_app. right. by apply list_elem_of_singleton. }
    apply add_ram_usage_exact in H as (l & -> & H); [|done|unfold is_i64; simpl in Hsz; lia].
    intros b. rewrite H, !charged_eq. cbn [permissions account_objects links set_limits].
    rewrite zsum_app. cbn [zsum foldr]. unfold perm_charge at 2. rewrite Ho.
    change (ram (AuthDb _ _ _ _ _ _ _ _) b) with (ram db b). case_match; lia.
Qed.

Lemma deleteauth_balanced {L} ro db act db' : apply_eosio_deleteauth env ro db act = Ok db' → perm_wf L db →
  ram_typed env db → ram_typed env db' → balanced env db db'.
Proof.
  intros H Hwf [Hu Hs] _. unfold apply_eosio_deleteauth in H.
  apply bind_inv in H as (? & _ & H). apply bind_inv in H as (d & _ & H). do 4 apply bind_inv in H as (? & _ & H).
  apply bind_inv in H as (p & Hp & H). apply bind_inv in H as (db1 & [_ ->]%remove_permission_inv & H).
  apply get_permission_ok in Hp as (_ & _ & (Hin & Ho & _)%find_by_owner_Some). cbn [actor] in Ho.
  pose proof (Hs p Hin). apply add_ram_usage_exact in H as (l & -> & H); [|done|unfold is_i64; simpl in *; lia].
  intros b. rewrite H, !charged_eq. cbn [permissions account_objects links set_limits set_permissions set_usages].
  rewrite (zsum_split_id (perm_charge env b) (permissions db) _ p (wf_tree _ (wf_core _ Hwf)) Hin).
  unfold perm_charge at 2. rewrite Ho.
  change (ram (set_permissions _ _) b) with (ram db b). case_match; lia.
Qed.

Lemma linkauth_balanced ro db act db' : apply_eosio_linkauth env ro db act = Ok db' →
  ram_typed env db → balanced env db db'.
Proof.
  intros H [Hu _]. unfold apply_eosio_linkauth in H.
  apply bind_inv in H as (? & _ & H). apply bind_inv in H as (q & _ & H). do 5 apply bind_inv in H as (? & _ & H).
  destruct (links db !! _) as [r|] eqn:E.
  - apply bind_inv in H as (? & _ & [= <-]). intros b. rewrite !charged_eq. cbn [permissions account_objects links set_links].
    rewrite links_insert_charge, E. simpl. change (ram (set_links _ _) b) with (ram db b). lia.
  - apply add_ram_usage_exact in H as (l & -> & H); [|done|by vm_compute].
    intros b. rewrite H, !charged_eq. cbn [permissions account_objects links set_links set_limits].
    rewrite links_insert_charge, E. cbn [fst]. change (ram (set_links _ _) b) with (ram db b).
    rewrite (bool_decide_eq_true_2 (@None Z = None) eq_refl). cbn [andb]. destruct (la_account q =? b); lia.
Qed.

Lemma unlinkauth_balanced ro db act db' : apply_eosio_unlinkauth ro db act = Ok db' →
  ram_typed env db → balanced env db db'.
Proof.
  intros H [Hu _]. unfold apply_eosio_unlinkauth in H.
  apply bind_inv in H as (? & _ & H). apply bind_inv in H as (u & _ & H). apply bind_inv in H as (? & _ & H).
  destruct (links db !! _) as [r|] eqn:E; [|done]. apply bind_inv in H as (db1 & H & [= <-]).
  apply add_ram_usage_exact in H as (l & -> & H); [|done|by vm_compute].
  intros b. change (ram (set_links (set_limits db l) _) b) with (ram (set_limits db l) b).
  rewrite H, !charged_eq. cbn [permissions account_objects links set_links set_limits].
  rewrite (links_delete_charge _ _ _ b E). cbn [fst]. case_match; lia.
Qed.

End Ram.

(** Native actions charge RAM exactly. Whatever the action, the RAM
    usage of every account changes by the change of what it has to pay for: the account
    itself, the billable size of each of its permissions and of each of its links. *)
Theorem native_actions_charge_ram {codec : ActionCodec} env db db' : perm_wf False db → ram_typed env db → ram_typed env db' →
  native_step env db db' → ∀ a, ram db' a - ram db a = charged env db' a - charged env db a.
Proof.
  intros Hwf Ht Ht' Hstep a. enough (balanced env db db') as Hb by (specialize (Hb a); lia).
  destruct Hstep as [ro act db' Hs|ro act db' Hs|ro act db' Hs|ro act db' Hs|ro act db' Hs|p db' Hs].
  - by eapply newaccount_balanced.
  - by eapply updateauth_balanced.
  - by eapply deleteauth_balanced.
  - by eapply linkauth_balanced.
  - by eapply unlinkauth_balanced.
  - unfold update_permission_usage in Hs. case_match; [|done]. by injection Hs as <-.
Qed.
