(* ===== verification/Authorization.v ===== *)
(** * What [check_authorization] lets pass

    An action passes only if every permission it declares is relevant to the action
    and is granted by the keys, permissions and delay of the transaction. *)

From S2P Require Import Prelude Names Authority AuthorityTheory ResourceLimits Permissions PermissionsTheory NativeState.
Open Scope Z_scope.

Definition named (db : auth_db) (account name : Z) (p : permission_object) : Prop :=
  p ∈ permissions db ∧ owner p = account ∧ po_name p = name.

(** The permission of the level [a] is [p] or above it. *)
Definition covers (db : auth_db) (a : permission_level) (p : permission_object) : Prop :=
  ∃ po, named db (actor a) (permission a) po ∧ ancestor_or_self (permissions db) po p.

(** [a] reaches the minimum permission for an action of a contract. *)
Definition covers_minimum (db : auth_db) (a : permission_level) (account code type : Z) : Prop :=
  ∃ m, lookup_minimum_permission db account code type = Ok m ∧
    match m with None => True | Some n => ∃ p, named db account n p ∧ covers db a p end.

Section Relevant.
Context {codec : ActionCodec}.

Definition relevant (db : auth_db) (act : action) (a : permission_level) : Prop :=
  if act_account act =? system_account_name then
    if act_name act =? updateauth_name then
      ∃ u p, data_as_updateauth (data act) = Ok u ∧ authorization act = [a] ∧ actor a = ua_account u ∧ covers db a p ∧
        (named db (ua_account u) (ua_permission u) p ∨
         (find_by_owner db (ua_account u) (ua_permission u) = None ∧ named db (ua_account u) (ua_parent u) p))
    else if act_name act =? deleteauth_name then
      ∃ d p, data_as_deleteauth (data act) = Ok d ∧ authorization act = [a] ∧ actor a = da_account d ∧
        named db (da_account d) (da_permission d) p ∧ covers db a p
    else if act_name act =? linkauth_name then
      ∃ l, data_as_linkauth (data act) = Ok l ∧ authorization act = [a] ∧ actor a = la_account l ∧
        covers_minimum db a (la_account l) (la_code l) (la_type l)
    else if act_name act =? unlinkauth_name then
      ∃ u r, data_as_unlinkauth (data act) = Ok u ∧ authorization act = [a] ∧ actor a = ul_account u ∧
        lookup_linked_permission db (ul_account u) (ul_code u) (ul_type u) = Some r ∧
        (r = eosio_any_name ∨ ∃ p, named db (ul_account u) r p ∧ covers db a p)
    else if act_name act =? canceldelay_name then
      ∃ c p, data_as_canceldelay (data act) = Ok c ∧ authorization act = [a] ∧
        named db (actor (cd_canceling_auth c)) (permission (cd_canceling_auth c)) p ∧ covers db a p
    else covers_minimum db a (actor a) (act_account act) (act_name act)
  else covers_minimum db a (actor a) (act_account act) (act_name act).

Context {L : Prop} (env : chain_env) (db : auth_db) (Hwf : perm_wf L db).

Lemma get_permission_named l p : get_permission db l = Ok p → named db (actor l) (permission l) p.
Proof. intros (_ & _ & H)%get_permission_ok. by apply find_by_owner_Some. Qed.

Lemma satisfies_covers a po p : get_permission db a = Ok po → p ∈ permissions db →
  satisfies db po p = Ok true → covers db a p.
Proof.
  intros Hpo%get_permission_named Hp Hs. exists po. split; [done|].
  destruct (satisfies_ancestor db _ po p (wf_tree _ (wf_core _ Hwf)) (proj1 Hpo) Hp) as (b & Hb & Hiff).
  apply Hiff. congruence.
Qed.

Lemma check_satisfies_covers a p u : check_satisfies db a p = Ok u → p ∈ permissions db → covers db a p.
Proof.
  intros H Hp. apply bind_inv in H as (po & Hpo & H). apply bind_inv in H as (b & Hb & ->%check_inv).
  by eapply satisfies_covers.
Qed.

Lemma single_auth_inv auths a : single_auth auths = Ok a → auths = [a].
Proof. destruct auths as [|x [|]]; try done. by intros [= ->]. Qed.

Lemma check_updateauth_covers d auths u a : check_updateauth_authorization db d auths = Ok u → a ∈ auths →
  ∃ p, auths = [a] ∧ actor a = ua_account d ∧ covers db a p ∧
    (named db (ua_account d) (ua_permission d) p ∨
     (find_by_owner db (ua_account d) (ua_permission d) = None ∧ named db (ua_account d) (ua_parent d) p)).
Proof.
  intros H Ha. apply bind_inv in H as (x & ->%single_auth_inv & H). apply list_elem_of_singleton in Ha as ->.
  apply bind_inv in H as (? & Hact%check_inv%Z.eqb_eq & H). apply bind_inv in H as (found & Hf & H).
  apply find_permission_ok in Hf as (_ & _ & Hf). apply bind_inv in H as (p & Hp & H). cbn [actor permission] in *.
  assert (named db (ua_account d) (ua_permission d) p ∨
     (find_by_owner db (ua_account d) (ua_permission d) = None ∧ named db (ua_account d) (ua_parent d) p)) as Hn.
  { destruct found as [po|].
    - injection Hp as <-. left. symmetry in Hf. by apply find_by_owner_Some.
    - right. split; [done|]. by apply get_permission_named in Hp. }
  exists p. split_and!; [done|done| |done]. eapply check_satisfies_covers; [done|].
  destruct Hn as [[? _]|[_ [? _]]]; done.
Qed.

Lemma check_deleteauth_covers d auths u a : check_deleteauth_authorization db d auths = Ok u → a ∈ auths →
  ∃ p, auths = [a] ∧ actor a = da_account d ∧ named db (da_account d) (da_permission d) p ∧ covers db a p.
Proof.
  intros H Ha. apply bind_inv in H as (x & ->%single_auth_inv & H). apply list_elem_of_singleton in Ha as ->.
  apply bind_inv in H as (? & Hact%check_inv%Z.eqb_eq & H). apply bind_inv in H as (p & Hp%get_permission_named & H).
  exists p. split_and!; [done|done|done|]. eapply check_satisfies_covers; [done|apply Hp].
Qed.

Lemma check_linkauth_covers d auths u a : check_linkauth_authorization env db d auths = Ok u → a ∈ auths →
  auths = [a] ∧ actor a = la_account d ∧ covers_minimum db a (la_account d) (la_code d) (la_type d).
Proof.
  intros H Ha. apply bind_inv in H as (x & ->%single_auth_inv & H). apply list_elem_of_singleton in Ha as ->.
  apply bind_inv in H as (? & Hact%check_inv%Z.eqb_eq & H). apply bind_inv in H as (? & _ & H).
  apply bind_inv in H as (m & Hm & H). split_and!; [done|done|]. exists m. split; [done|]. destruct m as [n|]; [|done].
  apply bind_inv in H as (po & Hpo & H). apply bind_inv in H as (p & Hp%get_permission_named & H).
  apply bind_inv in H as (b & Hb & ->%check_inv). exists p. split; [done|]. eapply satisfies_covers; [done|apply Hp|done].
Qed.

Lemma check_unlinkauth_covers d auths u a : check_unlinkauth_authorization db d auths = Ok u → a ∈ auths →
  ∃ r, auths = [a] ∧ actor a = ul_account d ∧ lookup_linked_permission db (ul_account d) (ul_code d) (ul_type d) = Some r ∧
    (r = eosio_any_name ∨ ∃ p, named db (ul_account d) r p ∧ covers db a p).
Proof.
  intros H Ha. apply bind_inv in H as (x & ->%single_auth_inv & H). apply list_elem_of_singleton in Ha as ->.
  apply bind_inv in H as (? & Hact%check_inv%Z.eqb_eq & H).
  destruct (lookup_linked_permission _ _ _ _) as [r|]; [|done]. exists r. split_and!; [done|done|done|].
  destruct (Z.eqb_spec r eosio_any_name); [by left|right].
  apply bind_inv in H as (po & Hpo & H). apply bind_inv in H as (p & Hp%get_permission_named & H).
  apply bind_inv in H as (b & Hb & ->%check_inv). exists p. split; [done|]. eapply satisfies_covers; [done|apply Hp|done].
Qed.

Lemma check_canceldelay_covers d auths delay a : check_canceldelay_authorization db d auths = Ok delay → a ∈ auths →
  ∃ p, auths = [a] ∧ named db (actor (cd_canceling_auth d)) (permission (cd_canceling_auth d)) p ∧ covers db a p.
Proof.
  intros H Ha. apply bind_inv in H as (x & ->%single_auth_inv & H). apply list_elem_of_singleton in Ha as ->.
  apply bind_inv in H as (po & Hpo & H). apply bind_inv in H as (p & Hp%get_permission_named & H).
  apply bind_inv in H as (b & Hb & H). apply bind_inv in H as (? & ->%check_inv & _).
  exists p. split_and!; [done|done|]. eapply satisfies_covers; [done|apply Hp|done].
Qed.

Lemma check_minimum_covers act a u : check_minimum db act a = Ok u →
  covers_minimum db a (actor a) (act_account act) (act_name act).
Proof.
  intros H. apply bind_inv in H as (m & Hm & H). exists m. split; [done|]. destruct m as [n|]; [|done].
  apply bind_inv in H as (p & Hp%get_permission_named & H). exists p. split; [done|].
  eapply check_satisfies_covers; [done|apply Hp].
Qed.

(** The special checks and the minimum permission together make a declared permission relevant. *)
Lemma special_relevant act delay s d a : check_special env db act delay = Ok (s, d) → a ∈ authorization act →
  (s = false → ∃ u, check_minimum db act a = Ok u) → relevant db act a.
Proof.
  unfold check_special, relevant. intros H Ha Hmin.
  assert (Hdef : s = false → covers_minimum db a (actor a) (act_account act) (act_name act)).
  { intros Hs. destruct (Hmin Hs) as [u Hu]. by eapply check_minimum_covers. }
  destruct (act_account act =? system_account_name); [|injection H as <- _; by apply Hdef].
  repeat case_match; try (injection H as <- _; by apply Hdef); apply bind_inv in H as (x & Hx & H).
  - apply bind_inv in H as (? & Hc & _). apply (check_updateauth_covers _ _ _ a) in Hc as (p & ?); [|done]. by exists x, p.
  - apply bind_inv in H as (? & Hc & _). apply (check_deleteauth_covers _ _ _ a) in Hc as (p & ?); [|done]. by exists x, p.
  - apply bind_inv in H as (? & Hc & _). apply (check_linkauth_covers _ _ _ a) in Hc; [|done]. by exists x.
  - apply bind_inv in H as (? & Hc & _). apply (check_unlinkauth_covers _ _ _ a) in Hc as (r & ?); [|done]. by exists x, r.
  - apply bind_inv in H as (? & Hc & _). apply (check_canceldelay_covers _ _ _ a) in Hc as (p & ?); [|done]. by exists x, p.
Qed.

(** ** The permissions to satisfy *)

Definition demanded (m : list (permission_level * Z)) (p : permission_level) (delay : Z) : Prop :=
  ∃ d, d <= delay ∧ (p, d) ∈ m.

Lemma emplace_demands p delay m : demanded (emplace_to_satisfy p delay m) p delay ∧
  ∀ q d, demanded m q d → demanded (emplace_to_satisfy p delay m) q d.
Proof.
  induction m as [|[q0 d0] m [IH1 IH2]]; simpl.
  { split; [exists delay; split; [lia|by left]|]. by intros q d (? & _ & ?%not_elem_of_nil). }
  case_bool_decide as E; [subst q0|destruct (level_ltb p q0)].
  - split.
    + exists (if delay <? d0 then delay else d0). split; [destruct (Z.ltb_spec delay d0); lia|by left].
    + intros q d (d' & Hle & [[= -> ->]|Hin]%elem_of_cons).
      * exists (if delay <? d0 then delay else d0). split; [destruct (Z.ltb_spec delay d0); lia|by left].
      * exists d'. split; [done|by right].
  - split; [exists delay; split; [lia|by left]|]. intros q d (d' & Hle & Hin). exists d'. split; [done|by right].
  - split; [destruct IH1 as (d' & ? & ?); exists d'; split; [done|by right]|].
    intros q d (d' & Hle & [[= -> ->]|Hin]%elem_of_cons); [exists d0; split; [done|by left]|].
    destruct (IH2 q d) as (d'' & ? & ?); [by exists d'|]. exists d''. split; [done|by right].
Qed.

Lemma declared_loop_inv act s delay sat declared : ∀ m m', declared_loop db act s delay sat declared m = Ok m' →
  (∀ q d, demanded m q d → demanded m' q d) ∧
  ∀ a, a ∈ declared → (s = false → ∃ u, check_minimum db act a = Ok u) ∧ (a ∈ sat ∨ demanded m' a delay).
Proof.
  induction declared as [|x declared IH]; intros m m' H; simpl in H.
  { injection H as <-. split; [done|]. by intros a ?%not_elem_of_nil. }
  apply bind_inv in H as (u & Hu & H). apply IH in H as [Hmono Hall].
  assert (Hstep : ∀ q d, demanded m q d → demanded m' q d).
  { intros q d Hq. apply Hmono. case_bool_decide; [done|]. exact (proj2 (emplace_demands x delay m) q d Hq). }
  split; [done|]. intros a [-> |Ha]%elem_of_cons; [|by apply Hall]. split.
  - intros ->. by exists u.
  - destruct (decide (x ∈ sat)) as [Hsat|Hsat]; [by left|right]. apply Hmono.
    rewrite bool_decide_eq_false_2 by done. exact (proj1 (emplace_demands x delay m)).
Qed.

Lemma actions_loop_inv delay sat actions : ∀ m m', actions_loop env db delay sat actions m = Ok m' →
  (∀ q d, demanded m q d → demanded m' q d) ∧
  ∀ act a, act ∈ actions → a ∈ authorization act →
    ∃ s d, check_special env db act delay = Ok (s, d) ∧
      (s = false → ∃ u, check_minimum db act a = Ok u) ∧ (a ∈ sat ∨ demanded m' a d).
Proof.
  induction actions as [|x actions IH]; intros m m' H; simpl in H.
  { injection H as <-. split; [done|]. by intros act a ?%not_elem_of_nil. }
  apply bind_inv in H as ([s d] & Hs & H). apply bind_inv in H as (m1 & Hm1 & H). cbn [fst snd] in *.
  apply declared_loop_inv in Hm1 as [Hmono1 Hall1]. apply IH in H as [Hmono Hall].
  split; [by auto|]. intros act a [-> |Hact]%elem_of_cons Ha; [|by apply Hall].
  exists s, d. split; [done|]. destruct (Hall1 a Ha) as [Hmin Hd]. split; [done|].
  destruct Hd as [?|?]; [by left|right]. by apply Hmono.
Qed.

Lemma satisfy_loop_inv m : ∀ c c', AuthoritySource (checker_permission_to_authority c) →
  satisfy_loop false m c = Ok c' →
  c' = set_used_keys c (checker_used_keys c') ∧
  marks (checker_permission_to_authority c) (checker_provided_keys c) (checker_used_keys c) (checker_used_keys c') ∧
  ∀ p d, (p, d) ∈ m → checker_grants c d p.
Proof.
  induction m as [|[p0 d0] m IH]; intros c c' Hs H; cbn [satisfy_loop] in H.
  { injection H as <-. split_and!; [by destruct c|apply marks_refl|by intros p d ?%not_elem_of_nil]. }
  destruct (satisfied_under c d0 p0) as [r c1] eqn:E. apply bind_inv in H as (? & Hr%check_inv & H).
  destruct r; [clear Hr|done]. pose proof (satisfied_under_sound _ _ _ _ Hs E) as Hg.
  apply satisfied_under_fields in E as (E1 & Hm1 & _). rewrite E1 in H, Hm1.
  apply IH in H as (E2 & Hm2 & Hall); [|done]. cbn [checker_used_keys set_used_keys checker_permission_to_authority checker_provided_keys] in *.
  split_and!; [by rewrite E2|by eapply marks_trans|].
  intros p d [[= -> ->]|Hin]%elem_of_cons; [done|]. by apply Hall in Hin.
Qed.

End Relevant.

(** A longer delay grants no less. *)
Lemma grants_delay pta pk pp d d' p : AuthoritySource pta → d <= d' → grants pta pk pp d p → grants pta pk pp d' p.
Proof.
  intros [Ht _] Hle H. induction H as [p H|p auth G Hp HG IH Hth]; [by apply grants_provided|].
  eapply grants_authority; [done|apply IH|]. etrans; [apply Hth|]. apply zsum_le. intros mp Hmp.
  pose proof (entries_weights _ _ (Ht _ _ Hp) Hmp) as Hw. unfold is_u16 in Hw.
  destruct mp as [| |w]; simpl in *; [lia..|]. destruct (Z.leb_spec (wait_sec w * 1000000) d).
  - rewrite (proj2 (Z.leb_le _ _)); lia.
  - case_match; lia.
Qed.

(** C18: [check_authorization] is sound. If it lets a transaction pass, and was not told to check without failing, as for a dry run, every
    permission that every action declares is relevant to the action, that is, it is or is above the
    permission that the action requires: the one linked to the action or the active one for an ordinary
    action, the affected permission for a native one; and it is in the set that was satisfied before or is granted by the
    provided keys and permissions under the delay of the action. Unless
    unused keys are allowed, every provided key is listed in some authority. *)
Theorem check_authorization_sound {codec : ActionCodec} env db actions keys_ perms delay allow_unused sat :
  perm_wf False db →
  check_authorization env db actions keys_ perms delay allow_unused false sat = Ok tt →
  (∀ act a, act ∈ actions → a ∈ authorization act →
     relevant db act a ∧
     ∃ s d, check_special env db act (effective_delay env delay) = Ok (s, d) ∧
       (a ∈ sat ∨ grants (permission_to_authority db) keys_ perms d a)) ∧
  (allow_unused = false → ∀ k, k ∈ keys_ →
     ∃ p auth kw, permission_to_authority db p = Some auth ∧ kw ∈ keys auth ∧ key kw = k).
Proof.
  intros Hwf H. pose proof (permission_to_authority_source db Hwf) as Hsrc.
  apply bind_inv in H as (m & Hm & H). apply actions_loop_inv in Hm as [_ Hall].
  apply bind_inv in H as (c & Hc & H). apply satisfy_loop_inv in Hc as (_ & (Hlen & _ & Hmarks) & Hg); [|done].
  split.
  - intros act a Hact Ha. destruct (Hall act a Hact Ha) as (s & d & Hs & Hmin & Hd).
    split; [by eapply special_relevant|]. exists s, d. split; [done|].
    destruct Hd as [?|(d' & Hle & Hin)]; [by left|right]. eapply grants_delay; [done|done|by apply Hg].
  - intros -> k Hk. apply check_inv in H. rewrite orb_false_r in H.
    cbn [checker_provided_keys checker_permission_to_authority checker_used_keys make_auth_checker] in *.
    apply list_elem_of_lookup_1 in Hk as [i Hi].
    destruct (lookup_lt_is_Some_2 (checker_used_keys c) i) as [b Hb].
    { rewrite Hlen, length_replicate. by eapply lookup_lt_Some. }
    assert (b = true) as -> by (eapply (proj1 (forallb_forall _ _) H), list_elem_of_In, list_elem_of_lookup_2; exact Hb).
    destruct (Hmarks i Hb) as [Hr|(p & au & kw & Hp & Hkw & Hki)].
    + by apply lookup_replicate in Hr as [? _].
    + exists p, au, kw. split_and!; [done|done|congruence].
Qed.

(** ** An example: a new account, a permission of its own, and a link to it *)

Module AuthorizationExample.

Definition alice_key : public_key := PublicKey 0 [3; 7].
Definition alice : Z := name_of "alice".
Definition pay : Z := name_of "pay".
Definition transfer : Z := name_of "transfer".

Definition env : chain_env := {|
  pending_block_time := 1000;
  num_supported_key_types := 5;
  max_authority_depth := 6;
  max_transaction_delay := 3888000;
  only_link_to_existing_permission := true;
  fix_linkauth_restriction := true;
  check_key_lists := true;
  key_blacklist := [];
  pack_size := λ k, 1 + Z.of_nat (length (key_data k)) |}.

(** Action data is the number of a message. *)
#[export] Instance codec : ActionCodec := {|
  data_as_newaccount d :=
    if bool_decide (d = [1])
    then Ok (NewAccount system_account_name alice (authority_of_key ex_key 0) (authority_of_key ex_key 0))
    else Err parse_error_exception;
  data_as_updateauth d :=
    if bool_decide (d = [2]) then Ok (UpdateAuth alice pay active_name (authority_of_key alice_key 0))
    else Err parse_error_exception;
  data_as_deleteauth d := if bool_decide (d = [3]) then Ok (DeleteAuth alice pay) else Err parse_error_exception;
  data_as_linkauth d :=
    if bool_decide (d = [4]) then Ok (LinkAuth alice null_account_name transfer pay) else Err parse_error_exception;
  data_as_unlinkauth d :=
    if bool_decide (d = [5]) then Ok (UnlinkAuth alice null_account_name transfer) else Err parse_error_exception;
  data_as_canceldelay d := Err parse_error_exception |}.

Lemma key_authority_typed k : authority_typed (authority_of_key k 0).
Proof. repeat split; simpl; try lia; repeat constructor; simpl; lia. Qed.

#[export] Instance codec_typed : CodecTyped.
Proof.
  split; intros d x; cbn; case_bool_decide; intros [= <-]; [split|]; apply key_authority_typed.
Qed.

Definition system_action (name : Z) (account perm : Z) (d : list Z) : action :=
  Action system_account_name name [PermissionLevel account perm] d.

Definition act_newaccount : action := system_action (name_of "newaccount") system_account_name active_name [1].
Definition act_updateauth : action := system_action updateauth_name alice active_name [2].
Definition act_deleteauth : action := system_action deleteauth_name alice active_name [3].
Definition act_linkauth : action := system_action linkauth_name alice active_name [4].
Definition act_transfer : action := Action null_account_name transfer [PermissionLevel alice pay] [].

Definition db0 : auth_db := Eval vm_compute in get_ok (initialize_accounts env 500 ex_key).
Definition db1 : auth_db := Eval vm_compute in get_ok (apply_eosio_newaccount env false db0 act_newaccount).
Definition db2 : auth_db := Eval vm_compute in get_ok (apply_eosio_updateauth env false db1 act_updateauth).
Definition db3 : auth_db := Eval vm_compute in get_ok (apply_eosio_linkauth env false db2 act_linkauth).

Lemma genesis_db0 : initialize_accounts env 500 ex_key = Ok db0.
Proof. vm_compute. reflexivity. Qed.

(** Between the actions a day passes. *)
Definition later : chain_env :=
  ChainEnv (pending_block_time env + 86400000000) (num_supported_key_types env) (max_authority_depth env) (max_transaction_delay env)
    (only_link_to_existing_permission env) (fix_linkauth_restriction env) (check_key_lists env) (key_blacklist env) (pack_size env).
Definition linking (e : chain_env) : Prop := only_link_to_existing_permission e = true.

Lemma step01 : native_step env db0 db1.
Proof. apply (step_newaccount env db0 false act_newaccount). vm_compute. reflexivity. Qed.

Lemma step12 : native_step env db1 db2.
Proof. apply (step_updateauth env db1 false act_updateauth). vm_compute. reflexivity. Qed.

Lemma step23 : native_step later db2 db3.
Proof. apply (step_linkauth later db2 false act_linkauth). vm_compute. reflexivity. Qed.

Lemma reached1 : native_steps linking db0 db1.
Proof. eapply rtc_l; [exists env; split; [reflexivity|apply step01]|constructor]. Qed.

Lemma reached3 : native_steps linking db0 db3.
Proof.
  eapply rtc_l; [exists env; split; [reflexivity|apply step01]|]. eapply rtc_l; [exists env; split; [reflexivity|apply step12]|].
  eapply rtc_l; [exists later; split; [reflexivity|apply step23]|]. constructor.
Qed.

Lemma wf1 : perm_wf False db1.
Proof. eapply (reachable_wf env 500 ex_key db0); [done|apply genesis_db0|apply reached1]. Qed.

Lemma wf3 : perm_wf False db3.
Proof. eapply (reachable_wf env 500 ex_key db0); [done|apply genesis_db0|apply reached3]. Qed.

Lemma permissions_form_trees_witness :
  perm_wf False db3 ∧ (∀ p, p ∈ permissions db3 → po_id p ≠ 0 → ∃ t, get_permission_last_used db3 p = Ok t) ∧
  ∀ a c t r, links db3 !! (a, c, t) = Some r → r = eosio_any_name ∨ ∃ p, p ∈ permissions db3 ∧ owner p = a ∧ po_name p = r.
Proof.
  destruct (permissions_form_trees env 500 ex_key db0 db3 linking genesis_db0 reached3) as (H & _ & Hu & _ & Hl).
  split; [exact H|]. split; [exact Hu|]. apply Hl. intros e He. exact He.
Defined.

(** A linked permission cannot be deleted. *)
Example linked_permission_stays : apply_eosio_deleteauth env false db3 act_deleteauth = Err action_validate_exception.
Proof. vm_compute. reflexivity. Qed.

Lemma ram_typed_check db :
  bool_decide (map_Forall (λ _ u, is_u64 (ram_usage u)) (rl_usage (limits db))) = true →
  forallb (λ p, (0 <=? permission_size env (auth p)) && (permission_size env (auth p) <? 2 ^ 61)) (permissions db) = true →
  ram_typed env db.
Proof.
  intros H1%bool_decide_eq_true H2. split.
  - intros a u Hu. apply (H1 a u Hu).
  - intros p Hp%list_elem_of_In. apply (proj1 (forallb_forall _ _) H2) in Hp. breflect. done.
Qed.

Lemma native_actions_charge_ram_witness :
  ram db2 alice - ram db1 alice = charged env db2 alice - charged env db1 alice ∧ ram db2 alice - ram db1 alice = 307.
Proof.
  split; [|vm_compute; reflexivity].
  apply (native_actions_charge_ram env db1 db2 wf1); [apply ram_typed_check; vm_compute; reflexivity..|apply step12].
Defined.

Lemma check_authorization_sound_witness :
  check_authorization env db3 [act_transfer] [alice_key] [] 0 false false [] = Ok tt ∧
  relevant db3 act_transfer (PermissionLevel alice pay).
Proof.
  assert (check_authorization env db3 [act_transfer] [alice_key] [] 0 false false [] = Ok tt) as H by (vm_compute; reflexivity).
  split; [exact H|].
  apply (proj1 (check_authorization_sound env db3 [act_transfer] [alice_key] [] 0 false [] wf3 H) act_transfer); by left.
Defined.

(** The owner's key does not satisfy [pay], and without the link the active permission is required. *)
Example other_key_refused :
  check_authorization env db3 [act_transfer] [ex_key] [] 0 false false [] = Err unsatisfied_authorization ∧
  check_authorization env db2 [act_transfer] [alice_key] [] 0 false false [] = Err irrelevant_auth_exception.
Proof. split; vm_compute; reflexivity. Qed.

End AuthorizationExample.
