(* ===== verification/Contract.v ===== *)
(** * The environment of the contracts

    What the contracts under [contracts/] use of the chain and of the contract development
    kit, which is not part of the repository: the authorizations of the running action, the
    accounts that exist, the time, tables, and the kit's assets. The operations of
    assets are a parameter, the class [CdtAsset], whose laws are their documented
    behaviour; the repository's own assets ([Assets.v]) satisfy them. *)

From S2P Require Import Prelude Names Assets AssetsTheory Authority.
From stdpp Require Import gmap sorting.
Open Scope Z_scope.

(** ** The running action *)

Record action_ctx : Type := ActionCtx {
  auth : list permission_level;   (* authorizations of the action *)
  existing : gset Z;              (* the accounts of the chain *)
  now : Z }.                      (* [current_time_point()], in microseconds *)

Definition has_auth (ctx : action_ctx) (n : Z) : bool := existsb (λ l, actor l =? n) (auth ctx).

Definition require_auth (ctx : action_ctx) (n : Z) : result unit := check (has_auth ctx n) missing_auth_exception.

Definition level_eqb (a b : permission_level) : bool := (actor a =? actor b) && (permission a =? permission b).

(** [require_auth( permission_level )]. *)
Definition require_level (ctx : action_ctx) (l : permission_level) : result unit :=
  check (existsb (level_eqb l) (auth ctx)) missing_auth_exception.

Definition is_account (ctx : action_ctx) (n : Z) : bool := bool_decide (n ∈ existing ctx).

(** The kit's [check], which aborts the action with a message. *)
Abbreviation require b := (check b eosio_assert_message_exception) (only parsing).

(** [current_time_point().sec_since_epoch()]. *)
Definition sec_since_epoch (t : Z) : Z := u32 (Z.quot t 1000000).

(** ** Tables

    A [multi_index] table of one scope: rows by primary key. *)

Section Table.
Context {K : Type} `{Countable K} {R : Type}.

(** [get] and [require_find]. *)
Definition tbl_get (t : gmap K R) (k : K) : result R :=
  match t !! k with Some r => Ok r | None => Err eosio_assert_message_exception end.

(** [emplace]: the key must be free. *)
Definition tbl_emplace (t : gmap K R) (k : K) (r : R) : result (gmap K R) :=
  check (bool_decide (t !! k = None)) logic_error;; Ok (<[k := r]> t).

(** The sum of a quantity over the rows. *)
Definition tsum (f : K → R → Z) (t : gmap K R) : Z := zsum (λ kr, f kr.1 kr.2) (map_to_list t).

Lemma tsum_empty f : tsum f ∅ = 0.
Proof. unfold tsum. by rewrite map_to_list_empty. Qed.

Lemma tsum_insert f t k r : tsum f (<[k := r]> t) = tsum f t + f k r - from_option (f k) 0 (t !! k).
Proof.
  unfold tsum. destruct (t !! k) as [r'|] eqn:E; simpl.
  - rewrite <- (insert_id t k r') at 2 by done. rewrite <- !(insert_delete_eq t).
    rewrite !map_to_list_insert by apply lookup_delete_eq. simpl. lia.
  - rewrite map_to_list_insert by done. simpl. lia.
Qed.

Lemma tsum_delete f t k : tsum f (delete k t) = tsum f t - from_option (f k) 0 (t !! k).
Proof.
  unfold tsum. destruct (t !! k) as [r|] eqn:E; simpl.
  - rewrite <- (insert_delete_id t k r) at 2 by done.
    rewrite map_to_list_insert by apply lookup_delete_eq. simpl. lia.
  - rewrite delete_id by done. lia.
Qed.

Lemma tsum_ext f g t : (∀ k r, t !! k = Some r → f k r = g k r) → tsum f t = tsum g t.
Proof. intros Hfg. apply zsum_ext. intros [k r] Hk%elem_of_map_to_list. by apply Hfg. Qed.

Lemma tsum_le f g t : (∀ k r, t !! k = Some r → f k r <= g k r) → tsum f t <= tsum g t.
Proof. intros Hfg. apply zsum_le. intros [k r] Hk%elem_of_map_to_list. by apply Hfg. Qed.

Lemma tsum_zero (f : K → R → Z) t : (∀ k r, t !! k = Some r → f k r = 0) → tsum f t = 0.
Proof.
  intros Hf. unfold tsum. rewrite (zsum_ext _ (λ _, 0)); [|intros [k r] Hk%elem_of_map_to_list; by apply Hf].
  clear. induction (map_to_list t); simpl; lia.
Qed.

Lemma tsum_nonneg f t : (∀ k r, t !! k = Some r → 0 <= f k r) → 0 <= tsum f t.
Proof.
  intros Hf. rewrite <- (tsum_zero (λ _ _, 0) t) by done. by apply tsum_le.
Qed.

(** One row, or two, of a sum of non-negative quantities. *)
Lemma tsum_row f t k r : (∀ k r, t !! k = Some r → 0 <= f k r) → t !! k = Some r → f k r <= tsum f t.
Proof.
  intros Hf Hk. pose proof (tsum_delete f t k) as Hd. rewrite Hk in Hd. simpl in Hd.
  assert (0 <= tsum f (delete k t)); [|lia]. apply tsum_nonneg. intros k' r' Hk'.
  apply lookup_delete_Some in Hk' as [_ Hk']. by apply Hf.
Qed.

Lemma tbl_get_inv t k r : tbl_get t k = Ok r → t !! k = Some r.
Proof. unfold tbl_get. destruct (t !! k); [by intros [= ->]|done]. Qed.

Lemma tbl_emplace_inv t k r t' : tbl_emplace t k r = Ok t' → t !! k = None ∧ t' = <[k := r]> t.
Proof. unfold tbl_emplace. by intros (? & ?%check_inv%bool_decide_eq_true & [= <-])%bind_inv. Qed.

End Table.

(** The rows of a table with integer keys in the order of iteration. *)
Definition key_le {R} (a b : Z * R) : Prop := a.1 <= b.1.

#[export] Instance key_le_dec {R} (a b : Z * R) : Decision (key_le a b).
Proof. unfold key_le. apply _. Defined.

Definition tbl_rows {R} (t : gmap Z R) : list (Z * R) := merge_sort key_le (map_to_list t).

Lemma tbl_rows_perm {R} (t : gmap Z R) : tbl_rows t ≡ₚ map_to_list t.
Proof. apply merge_sort_Permutation. Qed.

Lemma elem_of_tbl_rows {R} (t : gmap Z R) k r : (k, r) ∈ tbl_rows t ↔ t !! k = Some r.
Proof. rewrite tbl_rows_perm. apply elem_of_map_to_list. Qed.

Lemma tbl_rows_keys {R} (t : gmap Z R) : NoDup (tbl_rows t).*1.
Proof. rewrite tbl_rows_perm. apply NoDup_fst_map_to_list. Qed.

Lemma tsum_rows {R} (f : Z → R → Z) (t : gmap Z R) : tsum f t = zsum (λ kr, f kr.1 kr.2) (tbl_rows t).
Proof. unfold tsum. by rewrite tbl_rows_perm. Qed.

(** ** Assets of the contract development kit *)

Definition amount_in_range (v : Z) : Prop := - max_amount <= v <= max_amount.

(** An asset is an amount and a symbol. The laws: a valid asset has a valid symbol and an
    amount within [max_amount]; addition, subtraction and the constructor compute the exact amount, or
    abort when the symbols differ or the amount leaves the range. *)
Class CdtAsset : Type := {
  sym_is_valid : Z → bool;
  sym_code : Z → Z;
  cdt_is_valid : asset → bool;
  cdt_make : Z → Z → result asset;
  cdt_add : asset → asset → result asset;
  cdt_sub : asset → asset → result asset;
  cdt_is_valid_spec : ∀ a, cdt_is_valid a = true ↔ amount_in_range (amount a) ∧ sym_is_valid (sym a) = true;
  cdt_make_spec : ∀ v s, sym_is_valid s = true → amount_in_range v → cdt_make v s = Ok (Asset v s);
  cdt_make_inv : ∀ v s a, cdt_make v s = Ok a → a = Asset v s ∧ amount_in_range v ∧ sym_is_valid s = true;
  cdt_add_spec : ∀ a b, sym a = sym b → amount_in_range (amount a) → amount_in_range (amount b) →
    amount_in_range (amount a + amount b) → cdt_add a b = Ok (Asset (amount a + amount b) (sym a));
  cdt_sub_spec : ∀ a b, sym a = sym b → amount_in_range (amount a) → amount_in_range (amount b) →
    amount_in_range (amount a - amount b) → cdt_sub a b = Ok (Asset (amount a - amount b) (sym a));
  cdt_add_inv : ∀ a b c, amount_in_range (amount a) → amount_in_range (amount b) → cdt_add a b = Ok c →
    sym a = sym b ∧ c = Asset (amount a + amount b) (sym a) ∧ amount_in_range (amount c);
  cdt_sub_inv : ∀ a b c, amount_in_range (amount a) → amount_in_range (amount b) → cdt_sub a b = Ok c →
    sym a = sym b ∧ c = Asset (amount a - amount b) (sym a) ∧ amount_in_range (amount c) }.

(** The repository's own assets have the laws, with the kit's demand that a symbol has a name. *)
Module ChainAssets.

Definition named (v : Z) : bool := symbol_valid v && (0 <? Z.shiftr v 8).
Definition valid (a : asset) : bool := is_amount_within_range a && named (sym a).
Definition make (v s : Z) : result asset := check (named s) eosio_assert_message_exception;; asset_make v s.

Lemma is_valid_spec a : valid a = true ↔ amount_in_range (amount a) ∧ named (sym a) = true.
Proof. unfold valid, is_amount_within_range, amount_in_range. by rewrite !andb_true_iff, !Z.leb_le. Qed.

Lemma make_spec v s : named s = true → amount_in_range v → make v s = Ok (Asset v s).
Proof. intros Hs Hv. unfold make. rewrite check_bind by done. apply andb_true_iff in Hs as [Hs _]. by apply asset_make_ok. Qed.

Lemma make_inv v s a : make v s = Ok a → a = Asset v s ∧ amount_in_range v ∧ named s = true.
Proof.
  unfold make, asset_make. intros (? & Hn%check_inv & H)%bind_inv. apply bind_inv in H as (? & Hv%check_inv & H).
  apply bind_inv in H as (? & _ & [= <-]).
  unfold is_amount_within_range in Hv. rewrite andb_true_iff, !Z.leb_le in Hv. done.
Qed.

(** A sum that is range checked, as the kit's operators do after the unchecked ones of the chain. *)
Definition ranged (m : result asset) : result asset :=
  a ← m; check (is_amount_within_range a) asset_type_exception;; Ok a.

Lemma ranged_spec a v s m : m = Ok a → a = Asset v s → amount_in_range v → ranged m = Ok (Asset v s).
Proof.
  intros -> -> Hv. unfold ranged. rewrite bind_ok, check_bind; [done|].
  unfold is_amount_within_range. rewrite andb_true_iff, !Z.leb_le. exact Hv.
Qed.

Lemma ranged_inv m c : ranged m = Ok c → m = Ok c ∧ amount_in_range (amount c).
Proof.
  unfold ranged. intros (a & Ha & H)%bind_inv. apply bind_inv in H as (? & Hv%check_inv & [= <-]).
  unfold is_amount_within_range in Hv. by rewrite andb_true_iff, !Z.leb_le in Hv.
Qed.

Lemma i64_sums a b : amount_in_range (amount a) → amount_in_range (amount b) →
  share (amount a + amount b) = Ok (amount a + amount b) ∧ share (amount a - amount b) = Ok (amount a - amount b).
Proof. unfold amount_in_range, max_amount. intros. split; apply share_ok; unfold is_i64; lia. Qed.

Lemma add_value a b : amount_in_range (amount a) → amount_in_range (amount b) →
  asset_add_assign a b = if sym a =? sym b then Ok (Asset (amount a + amount b) (sym a)) else Err asset_type_exception.
Proof. intros Ha Hb. unfold asset_add_assign. rewrite (proj1 (i64_sums a b Ha Hb)). by destruct (_ =? _). Qed.

Lemma sub_value a b : amount_in_range (amount a) → amount_in_range (amount b) →
  asset_sub_assign a b = if sym a =? sym b then Ok (Asset (amount a - amount b) (sym a)) else Err asset_type_exception.
Proof. intros Ha Hb. unfold asset_sub_assign. rewrite (proj2 (i64_sums a b Ha Hb)). by destruct (_ =? _). Qed.

#[export] Program Instance chain_assets : CdtAsset := {|
  sym_is_valid := named; sym_code v := Z.shiftr v 8; cdt_is_valid := valid; cdt_make := make;
  cdt_add a b := ranged (asset_add_assign a b); cdt_sub a b := ranged (asset_sub_assign a b);
  cdt_is_valid_spec := is_valid_spec; cdt_make_spec := make_spec; cdt_make_inv := make_inv |}.
Next Obligation. intros a b E Ha Hb Hv. apply (ranged_spec (Asset (amount a + amount b) (sym a))); [|done..]. by rewrite add_value, E, Z.eqb_refl. Qed.
Next Obligation. intros a b E Ha Hb Hv. apply (ranged_spec (Asset (amount a - amount b) (sym a))); [|done..]. by rewrite sub_value, E, Z.eqb_refl. Qed.
Next Obligation.
  intros a b c Ha Hb [H Hc]%ranged_inv. rewrite add_value in H by done.
  destruct (Z.eqb_spec (sym a) (sym b)); [injection H as <-|]; done.
Qed.
Next Obligation.
  intros a b c Ha Hb [H Hc]%ranged_inv. rewrite sub_value in H by done.
  destruct (Z.eqb_spec (sym a) (sym b)); [injection H as <-|]; done.
Qed.

End ChainAssets.
