(* ===== verification/Token.v ===== *)
(** * The token contract ([contracts/ra.token])

    The two tables of [ra.token] and its actions. A [stat] row is found under the code of
    its symbol, which is both its scope and its key; a balance under its owner and the code.
    A row keeps the account that pays for its memory. *)

From S2P Require Import Prelude Names Assets Authority Contract.
From stdpp Require Import gmap.
Open Scope Z_scope.

Record account_row : Type := AccountRow { balance : asset; row_payer : Z }.

Record currency_stats : Type := CurrencyStats { supply : asset; max_supply : asset; issuer : Z }.

Record token_state : Type := TokenState {
  stats : gmap Z currency_stats;
  accounts : gmap (Z * Z) account_row }.

Definition token_init : token_state := TokenState ∅ ∅.

Section Token.
Context {cdt : CdtAsset}.
Context (self : Z).   (* [get_self()] *)
Implicit Types (ctx : action_ctx) (ts : token_state).

Definition set_stats ts code st : token_state := TokenState (<[code := st]> (stats ts)) (accounts ts).

Definition get_supply ts code : result asset := st ← tbl_get (stats ts) code; Ok (supply st).
Definition get_max_supply ts code : result asset := st ← tbl_get (stats ts) code; Ok (max_supply st).
Definition get_issuer ts code : result Z := st ← tbl_get (stats ts) code; Ok (issuer st).
Definition get_balance ts (owner code : Z) : result asset := r ← tbl_get (accounts ts) (owner, code); Ok (balance r).

Definition sub_balance ts (owner : Z) (value : asset) : result token_state :=
  from ← tbl_get (accounts ts) (owner, sym_code (sym value));
  require (amount value <=? amount (balance from));;
  b ← cdt_sub (balance from) value;
  Ok (TokenState (stats ts) (<[(owner, sym_code (sym value)) := AccountRow b owner]> (accounts ts))).

Definition add_balance ts (owner : Z) (value : asset) (ram_payer : Z) : result token_state :=
  match accounts ts !! (owner, sym_code (sym value)) with
  | None =>
    t ← tbl_emplace (accounts ts) (owner, sym_code (sym value)) (AccountRow value ram_payer);
    Ok (TokenState (stats ts) t)
  | Some to =>
    b ← cdt_add (balance to) value;
    Ok (TokenState (stats ts) (<[(owner, sym_code (sym value)) := AccountRow b (row_payer to)]> (accounts ts)))
  end.

Definition create ctx ts (issuer_ : Z) (maximum_supply : asset) : result token_state :=
  require_auth ctx self;;
  let s := sym maximum_supply in
  require (cdt_is_valid maximum_supply);;
  require (0 <? amount maximum_supply);;
  require (bool_decide (stats ts !! sym_code s = None));;
  t ← tbl_emplace (stats ts) (sym_code s) (CurrencyStats (Asset 0 s) maximum_supply issuer_);
  Ok (TokenState t (accounts ts)).

Definition issue ctx ts (to : Z) (quantity : asset) (memo : std_string) : result token_state :=
  let s := sym quantity in
  require (sym_is_valid s);;
  require (Z.of_nat (length memo) <=? 256);;
  st ← tbl_get (stats ts) (sym_code s);
  require (to =? issuer st);;
  require_auth ctx (issuer st);;
  require (cdt_is_valid quantity);;
  require (0 <? amount quantity);;
  require (sym quantity =? sym (supply st));;
  require (amount quantity <=? i64 (amount (max_supply st) - amount (supply st)));;
  sup ← cdt_add (supply st) quantity;
  add_balance (set_stats ts (sym_code s) (CurrencyStats sup (max_supply st) (issuer st)))
    (issuer st) quantity (issuer st).

Definition issuefixed ctx ts (to : Z) (supply_ : asset) (memo : std_string) : result token_state :=
  circulating_supply ← get_supply ts (sym_code (sym supply_));
  require (sym circulating_supply =? sym supply_);;
  quantity ← cdt_sub supply_ circulating_supply;
  issue ctx ts to quantity memo.

Definition setmaxsupply ctx ts (issuer_ : Z) (maximum_supply : asset) : result token_state :=
  let s := sym maximum_supply in
  require (cdt_is_valid maximum_supply);;
  require (0 <? amount maximum_supply);;
  st ← tbl_get (stats ts) (sym_code s);
  require (issuer_ =? issuer st);;
  require_auth ctx (issuer st);;
  require (sym maximum_supply =? sym (supply st));;
  require (amount (supply st) <=? amount maximum_supply);;
  Ok (set_stats ts (sym_code s) (CurrencyStats (supply st) maximum_supply (issuer st))).

Definition retire ctx ts (quantity : asset) (memo : std_string) : result token_state :=
  let s := sym quantity in
  require (sym_is_valid s);;
  require (Z.of_nat (length memo) <=? 256);;
  st ← tbl_get (stats ts) (sym_code s);
  require_auth ctx (issuer st);;
  require (cdt_is_valid quantity);;
  require (0 <? amount quantity);;
  require (sym quantity =? sym (supply st));;
  sup ← cdt_sub (supply st) quantity;
  sub_balance (set_stats ts (sym_code s) (CurrencyStats sup (max_supply st) (issuer st))) (issuer st) quantity.

Definition transfer ctx ts (from to : Z) (quantity : asset) (memo : std_string) : result token_state :=
  require (negb (from =? to));;
  require_auth ctx from;;
  require (is_account ctx to);;
  let code := sym_code (sym quantity) in
  st ← tbl_get (stats ts) code;
  require (cdt_is_valid quantity);;
  require (0 <? amount quantity);;
  require (sym quantity =? sym (supply st));;
  require (Z.of_nat (length memo) <=? 256);;
  let payer := if has_auth ctx to then to else from in
  ts ← sub_balance ts from quantity;
  add_balance ts to quantity payer.

Definition open ctx ts (owner symbol ram_payer : Z) : result token_state :=
  require_auth ctx ram_payer;;
  require (is_account ctx owner);;
  let sym_code_raw := sym_code symbol in
  st ← tbl_get (stats ts) sym_code_raw;
  require (sym (supply st) =? symbol);;
  match accounts ts !! (owner, sym_code_raw) with
  | None =>
    b ← cdt_make 0 symbol;
    t ← tbl_emplace (accounts ts) (owner, sym_code_raw) (AccountRow b ram_payer);
    Ok (TokenState (stats ts) t)
  | Some _ => Ok ts
  end.

Definition close ctx ts (owner symbol : Z) : result token_state :=
  require_auth ctx owner;;
  it ← tbl_get (accounts ts) (owner, sym_code symbol);
  require (amount (balance it) =? 0);;
  Ok (TokenState (stats ts) (delete (owner, sym_code symbol) (accounts ts))).

End Token.
