(* ===== verification/TokenTheory.v ===== *)
(** * Tokens are conserved

    The invariant of the tables of [ra.token]: under every symbol code the balances add up to the supply,
    which is at most the maximum; that every action keeps it; what a transfer does and when it succeeds;
    that only its owner takes from a balance. *)

From S2P Require Import Prelude Names Assets Authority Contract Token.
From stdpp Require Import gmap.
Open Scope Z_scope.

Section TokenTheory.
Context {cdt : CdtAsset}.
Context (self : Z).
Implicit Types (ctx : action_ctx) (ts : token_state).

(** ** The books *)

Definition held (code : Z) (k : Z * Z) (r : account_row) : Z := if k.2 =? code then amount (balance r) else 0.

(** The sum of the balances of a token. *)
Definition circulating ts (code : Z) : Z := tsum (held code) (accounts ts).

Record stats_wf (code : Z) (st : currency_stats) : Prop := {
  st_code : sym_code (sym (supply st)) = code;
  st_sym : sym (max_supply st) = sym (supply st);
  st_valid : sym_is_valid (sym (supply st)) = true;
  st_range : 0 <= amount (supply st) <= amount (max_supply st);
  st_max : amount (max_supply st) <= max_amount }.

(** The tables with a gap: the amount of each token that an action has taken from a balance or added
    to the supply and has not yet put into a balance. *)
Record books (gap : Z → Z) ts : Prop := {
  bk_stats : ∀ code st, stats ts !! code = Some st →
    stats_wf code st ∧ circulating ts code + gap code = amount (supply st);
  bk_rows : ∀ owner code r, accounts ts !! (owner, code) = Some r →
    0 <= amount (balance r) ∧ ∃ st, stats ts !! code = Some st ∧ sym (balance r) = sym (supply st);
  bk_gap : ∀ code, 0 <= gap code }.

(** Between actions there is no gap. *)
Definition token_wf ts : Prop := books (λ _, 0) ts.

Lemma books_ext g g' ts : (∀ c, g c = g' c) → books g ts → books g' ts.
Proof.
  intros E [H1 H2 H3]. split; [intros c st Hst|done|intros c].
  - rewrite <- E. by apply H1.
  - rewrite <- E. apply H3.
Qed.

Lemma held_nonneg g ts code k r : books g ts → accounts ts !! k = Some r → 0 <= held code k r.
Proof. intros [_ H _] Hr. destruct k as [o c]. unfold held. destruct (_ =? code); [|done]. by apply (H o c). Qed.

(** A balance is at most what circulates. *)
Lemma balance_bound g ts owner code r : books g ts → accounts ts !! (owner, code) = Some r →
  0 <= amount (balance r) <= circulating ts code.
Proof.
  intros Hb Hr. pose proof (tsum_row (held code) (accounts ts) (owner, code) r) as H.
  unfold held at 2 in H. simpl in H. rewrite Z.eqb_refl in H. split; [by destruct (bk_rows _ _ Hb _ _ _ Hr)|].
  apply H; [|done]. intros k r' Hr'. by apply (held_nonneg g ts).
Qed.

Lemma circulating_nonneg g ts code : books g ts → 0 <= circulating ts code.
Proof. intros Hb. apply tsum_nonneg. intros k r. by apply (held_nonneg g ts). Qed.

Lemma balance_range g ts owner code r : books g ts → accounts ts !! (owner, code) = Some r →
  amount_in_range (amount (balance r)).
Proof.
  intros Hb Hr. pose proof (balance_bound _ _ _ _ _ Hb Hr). destruct (bk_rows _ _ Hb _ _ _ Hr) as (_ & st & Hst & _).
  destruct (bk_stats _ _ Hb _ _ Hst) as [[_ _ _ ? ?] ?]. pose proof (bk_gap _ _ Hb code). unfold amount_in_range. lia.
Qed.

Definition old_balance ts owner code : Z := from_option (λ r, amount (balance r)) 0 (accounts ts !! (owner, code)).

Lemma old_balance_nonneg g ts o c : books g ts → 0 <= old_balance ts o c.
Proof.
  intros Hb. unfold old_balance. destruct (accounts ts !! _) as [r|] eqn:E; simpl; [|lia].
  by destruct (bk_rows _ _ Hb _ _ _ E).
Qed.

Lemma circulating_insert st ts owner code r c :
  circulating (TokenState st (<[(owner, code) := r]> (accounts ts))) c =
  circulating ts c + (if code =? c then amount (balance r) - old_balance ts owner code else 0).
Proof.
  unfold circulating, old_balance. simpl. rewrite tsum_insert. unfold held at 2 3. simpl.
  destruct (code =? c), (accounts ts !! (owner, code)); simpl; lia.
Qed.

(** A balance is written: the gap of its token takes the difference. *)
Lemma books_write g g' ts owner code r st : books g ts → stats ts !! code = Some st →
  sym (balance r) = sym (supply st) → 0 <= amount (balance r) → (∀ c, 0 <= g' c) →
  (∀ c, g' c = if c =? code then g c - (amount (balance r) - old_balance ts owner code) else g c) →
  books g' (TokenState (stats ts) (<[(owner, code) := r]> (accounts ts))).
Proof.
  intros Hb Hst Hs Hr Hg Hg'. split; [| |done]; cbn [stats accounts].
  - intros c st' Hst'. destruct (bk_stats _ _ Hb _ _ Hst') as [Hw He]. split; [done|].
    rewrite circulating_insert, Hg', (Z.eqb_sym c). destruct (Z.eqb_spec code c); [subst|]; lia.
  - intros o c r'. destruct (decide ((owner, code) = (o, c))) as [[= <- <-]|Hne].
    + rewrite lookup_insert_eq. intros [= <-]. split; [done|]. by exists st.
    + rewrite lookup_insert_ne by done. apply (bk_rows _ _ Hb).
Qed.

(** The row of a token is written: the supply moves into the gap. *)
Lemma books_set_stats g g' ts code st st' : books g ts → stats ts !! code = Some st → stats_wf code st' →
  sym (supply st') = sym (supply st) → (∀ c, 0 <= g' c) →
  (∀ c, g' c = if c =? code then g c + (amount (supply st') - amount (supply st)) else g c) →
  books g' (set_stats ts code st').
Proof.
  intros Hb Hst Hw Hs Hg Hg'. split; [| |done]; cbn [stats accounts set_stats].
  - intros c s. unfold set_stats, circulating. cbn [stats accounts].
    destruct (decide (code = c)) as [<- |Hne].
    + rewrite lookup_insert_eq. intros [= <-]. split; [done|]. rewrite Hg', Z.eqb_refl.
      destruct (bk_stats _ _ Hb _ _ Hst) as [_ He]. unfold circulating in He. lia.
    + rewrite lookup_insert_ne by done. intros Hc. rewrite Hg'.
      rewrite (proj2 (Z.eqb_neq c code)) by done. by apply (bk_stats _ _ Hb).
  - intros o c r Hr. destruct (bk_rows _ _ Hb _ _ _ Hr) as (H0 & s & Hsc & He). split; [done|].
    destruct (decide (code = c)) as [<- |Hne].
    + exists st'. rewrite lookup_insert_eq. rewrite Hst in Hsc. injection Hsc as <-. split; [done|congruence].
    + exists s. by rewrite lookup_insert_ne.
Qed.

(** ** The helpers of the actions *)

(** [sub_balance] takes exactly the value, from a row that has it. *)
Lemma sub_balance_inv g ts owner v ts' : books g ts → amount_in_range (amount v) → sub_balance ts owner v = Ok ts' →
  ∃ r, accounts ts !! (owner, sym_code (sym v)) = Some r ∧ amount v <= amount (balance r) ∧ sym (balance r) = sym v ∧
    ts' = TokenState (stats ts) (<[(owner, sym_code (sym v)) :=
            AccountRow (Asset (amount (balance r) - amount v) (sym v)) owner]> (accounts ts)).
Proof.
  intros Hb Hv. unfold sub_balance. intros (r & Hr%tbl_get_inv & H)%bind_inv.
  apply bind_inv in H as (? & Hle%check_inv%Z.leb_le & H). apply bind_inv in H as (b & Hs & [= <-]).
  apply cdt_sub_inv in Hs as (Hsym & -> & _); [|by apply (balance_range g ts owner (sym_code (sym v)))|done].
  exists r. by rewrite Hsym.
Qed.

Lemma sub_balance_ok g ts owner v r : books g ts → amount_in_range (amount v) → 0 <= amount v →
  accounts ts !! (owner, sym_code (sym v)) = Some r → amount v <= amount (balance r) → sym (balance r) = sym v →
  sub_balance ts owner v = Ok (TokenState (stats ts) (<[(owner, sym_code (sym v)) :=
            AccountRow (Asset (amount (balance r) - amount v) (sym v)) owner]> (accounts ts))).
Proof.
  intros Hb Hv H0 Hr Hle Hs. pose proof (balance_range _ _ _ _ _ Hb Hr) as Hrng.
  unfold sub_balance, tbl_get. rewrite Hr, bind_ok, check_bind by (by apply Z.leb_le).
  rewrite cdt_sub_spec; [by rewrite Hs|done|done|done|]. unfold amount_in_range in *. lia.
Qed.

(** [add_balance] adds exactly the value, and cannot overflow what the gap covers. *)
Lemma add_balance_ok g ts owner v payer st : books g ts → stats ts !! sym_code (sym v) = Some st →
  sym v = sym (supply st) → 0 <= amount v <= g (sym_code (sym v)) →
  ∃ p, add_balance ts owner v payer = Ok (TokenState (stats ts) (<[(owner, sym_code (sym v)) :=
         AccountRow (Asset (old_balance ts owner (sym_code (sym v)) + amount v) (sym v)) p]> (accounts ts))).
Proof.
  intros Hb Hst Hs Hv. unfold add_balance, old_balance, tbl_emplace.
  destruct (accounts ts !! _) as [r|] eqn:Hr; simpl from_option.
  - exists (row_payer r). destruct (bk_rows _ _ Hb _ _ _ Hr) as (_ & s & Hs' & Hsym). rewrite Hst in Hs'. injection Hs' as <-.
    pose proof (balance_range _ _ _ _ _ Hb Hr) as Hrng. pose proof (balance_bound _ _ _ _ _ Hb Hr).
    destruct (bk_stats _ _ Hb _ _ Hst) as [[_ _ _ ? ?] ?]. pose proof (bk_gap _ _ Hb (sym_code (sym v))).
    unfold amount_in_range in Hrng.
    rewrite cdt_add_spec; [by rewrite bind_ok, Hsym, <- Hs|congruence|done|unfold amount_in_range; lia..].
  - exists payer. rewrite check_bind by (by apply bool_decide_eq_true). rewrite bind_ok, Z.add_0_l. by destruct v.
Qed.

Lemma add_balance_inv g ts owner v payer st ts' : books g ts → stats ts !! sym_code (sym v) = Some st →
  sym v = sym (supply st) → 0 <= amount v <= g (sym_code (sym v)) → add_balance ts owner v payer = Ok ts' →
  ∃ p, ts' = TokenState (stats ts) (<[(owner, sym_code (sym v)) :=
         AccountRow (Asset (old_balance ts owner (sym_code (sym v)) + amount v) (sym v)) p]> (accounts ts)).
Proof.
  intros Hb Hst Hs Hv H. destruct (add_balance_ok g ts owner v payer st Hb Hst Hs Hv) as [p E].
  exists p. rewrite E in H. by injection H as <-.
Qed.

(** ** The actions *)

Inductive token_action : Type :=
| ACreate (issuer : Z) (maximum_supply : asset)
| AIssue (to : Z) (quantity : asset) (memo : std_string)
| AIssueFixed (to : Z) (supply : asset) (memo : std_string)
| ASetMaxSupply (issuer : Z) (maximum_supply : asset)
| ARetire (quantity : asset) (memo : std_string)
| ATransfer (from to : Z) (quantity : asset) (memo : std_string)
| AOpen (owner symbol ram_payer : Z)
| AClose (owner symbol : Z).

Definition token_run ctx ts (a : token_action) : result token_state :=
  match a with
  | ACreate i m => create self ctx ts i m
  | AIssue t q m => issue ctx ts t q m
  | AIssueFixed t q m => issuefixed ctx ts t q m
  | ASetMaxSupply i m => setmaxsupply ctx ts i m
  | ARetire q m => retire ctx ts q m
  | ATransfer f t q m => transfer ctx ts f t q m
  | AOpen o s p => open ctx ts o s p
  | AClose o s => close ctx ts o s
  end.

(** The states that actions of any senders reach. *)
Inductive token_reachable : token_state → Prop :=
| tr_init : token_reachable token_init
| tr_step ctx ts a ts' : token_reachable ts → token_run ctx ts a = Ok ts' → token_reachable ts'.

(** What a valid positive quantity of an existing token is. *)
Lemma valid_quantity q : cdt_is_valid q = true → amount_in_range (amount q).
Proof. by intros [H _]%cdt_is_valid_spec. Qed.

Lemma create_wf ctx ts i m ts' : token_wf ts → create self ctx ts i m = Ok ts' → token_wf ts'.
Proof.
  intros Hb H. unfold create in H. do 1 apply bind_inv in H as (? & _ & H).
  apply bind_inv in H as (? & [Hv Hsv]%check_inv%cdt_is_valid_spec & H).
  apply bind_inv in H as (? & Hpos%check_inv%Z.ltb_lt & H). apply bind_inv in H as (? & _ & H).
  apply bind_inv in H as (t & [Hn ->]%tbl_emplace_inv & [= <-]). unfold amount_in_range in Hv.
  assert (Hnew : circulating ts (sym_code (sym m)) = 0).
  { apply tsum_zero. intros [o c] r Hr. unfold held. simpl. destruct (Z.eqb_spec c (sym_code (sym m))) as [-> |]; [|done].
    destruct (bk_rows _ _ Hb _ _ _ Hr) as (_ & st & Hst & _). congruence. }
  split; [| |done]; cbn [stats accounts].
  - intros c st Hst. unfold circulating in *. cbn [accounts].
    destruct (decide (sym_code (sym m) = c)) as [<- |Hne].
    + rewrite lookup_insert_eq in Hst. injection Hst as <-. split; [|simpl; lia]. by split; simpl; try lia.
    + rewrite lookup_insert_ne in Hst by done. by apply (bk_stats _ _ Hb).
  - intros o c r Hr. destruct (bk_rows _ _ Hb _ _ _ Hr) as (? & st & Hst & ?). split; [done|]. exists st.
    rewrite lookup_insert_ne by congruence. done.
Qed.

Definition at_code (code v : Z) (c : Z) : Z := if c =? code then v else 0.

(** An issue that succeeds: the supply and the balance of the issuer grow by the quantity. *)
Lemma issue_inv ctx ts to q memo ts' : token_wf ts → issue ctx ts to q memo = Ok ts' →
  ∃ st p, let code := sym_code (sym q) in
    let st' := CurrencyStats (Asset (amount (supply st) + amount q) (sym (supply st))) (max_supply st) (issuer st) in
    stats ts !! code = Some st ∧ has_auth ctx (issuer st) = true ∧ 0 < amount q ∧ sym q = sym (supply st) ∧
    amount (supply st) + amount q <= amount (max_supply st) ∧
    books (at_code code (amount q)) (set_stats ts code st') ∧
    ts' = TokenState (<[code := st']> (stats ts))
      (<[(issuer st, code) := AccountRow (Asset (old_balance ts (issuer st) code + amount q) (sym q)) p]> (accounts ts)).
Proof.
  intros Hb H. unfold issue in H. do 2 apply bind_inv in H as (? & _ & H).
  apply bind_inv in H as (st & Hst%tbl_get_inv & H). apply bind_inv in H as (? & _ & H).
  apply bind_inv in H as (? & Hauth%check_inv & H).
  apply bind_inv in H as (? & Hv%check_inv%valid_quantity & H). apply bind_inv in H as (? & Hpos%check_inv%Z.ltb_lt & H).
  apply bind_inv in H as (? & Hs%check_inv%Z.eqb_eq & H). apply bind_inv in H as (? & Hle%check_inv%Z.leb_le & H).
  destruct (bk_stats _ _ Hb _ _ Hst) as [[Hc Hms Hsv Hr Hm] He].
  rewrite i64_small in Hle by (unfold is_i64, max_amount in *; lia).
  apply bind_inv in H as (sup & Hsup & H). apply cdt_add_inv in Hsup as (_ & -> & _); [|unfold amount_in_range; lia|done].
  set (st' := CurrencyStats (Asset (amount (supply st) + amount q) (sym (supply st))) (max_supply st) (issuer st)) in H.
  assert (Hb' : books (at_code (sym_code (sym q)) (amount q)) (set_stats ts (sym_code (sym q)) st')).
  { apply (books_set_stats (λ _, 0) _ _ _ st); [done|done|split; simpl; try done; lia|done|..]; intros c;
      unfold at_code; destruct (_ =? _); simpl; lia. }
  apply (add_balance_inv _ _ _ _ _ st' _ Hb') in H as [p ->];
    [|by simpl; rewrite lookup_insert_eq|done|unfold at_code; rewrite Z.eqb_refl; lia].
  exists st, p. cbv zeta. fold st'. split_and!; try done; lia.
Qed.

Lemma issue_wf ctx ts to q memo ts' : token_wf ts → issue ctx ts to q memo = Ok ts' → token_wf ts'.
Proof.
  intros Hb H. apply issue_inv in H as (st & p & Hst & _ & Hpos & Hs & _ & Hb' & ->); [|done].
  set (st' := CurrencyStats _ _ _) in *.
  apply (books_write (at_code (sym_code (sym q)) (amount q)) (λ _, 0)
    (set_stats ts (sym_code (sym q)) st') _ _ _ st');
    [done|by simpl; rewrite lookup_insert_eq|done| |done|].
  - cbn [balance amount]. pose proof (old_balance_nonneg _ ts (issuer st) (sym_code (sym q)) Hb). lia.
  - intros c. unfold at_code. cbn [balance amount]. change (old_balance (set_stats ts (sym_code (sym q)) st') (issuer st) (sym_code (sym q)))
      with (old_balance ts (issuer st) (sym_code (sym q))). destruct (Z.eqb_spec c (sym_code (sym q))); lia.
Qed.

Lemma setmaxsupply_wf ctx ts i m ts' : token_wf ts → setmaxsupply ctx ts i m = Ok ts' → token_wf ts'.
Proof.
  intros Hb H. unfold setmaxsupply in H. apply bind_inv in H as (? & Hv%check_inv%valid_quantity & H).
  apply bind_inv in H as (? & _ & H). apply bind_inv in H as (st & Hst%tbl_get_inv & H).
  do 2 apply bind_inv in H as (? & _ & H). apply bind_inv in H as (? & Hs%check_inv%Z.eqb_eq & H).
  apply bind_inv in H as (? & Hle%check_inv%Z.leb_le & [= <-]).
  destruct (bk_stats _ _ Hb _ _ Hst) as [[Hc Hms Hsv Hr Hm] He]. unfold amount_in_range in Hv.
  apply (books_set_stats (λ _, 0) _ _ _ st); [done|done|split; simpl; try done; lia|done|done|].
  intros c. simpl. destruct (_ =? _); lia.
Qed.

(** A retirement that succeeds takes the quantity from the issuer and from the supply. *)
Lemma retire_inv ctx ts q memo ts' : token_wf ts → retire ctx ts q memo = Ok ts' →
  ∃ st r, let code := sym_code (sym q) in
    stats ts !! code = Some st ∧ has_auth ctx (issuer st) = true ∧ 0 < amount q ∧ sym q = sym (supply st) ∧
    accounts ts !! (issuer st, code) = Some r ∧ amount q <= amount (balance r) ∧
    ts' = TokenState
      (<[code := CurrencyStats (Asset (amount (supply st) - amount q) (sym (supply st))) (max_supply st) (issuer st)]> (stats ts))
      (<[(issuer st, code) := AccountRow (Asset (amount (balance r) - amount q) (sym q)) (issuer st)]> (accounts ts)).
Proof.
  intros Hb H. unfold retire in H. do 2 apply bind_inv in H as (? & _ & H).
  apply bind_inv in H as (st & Hst%tbl_get_inv & H). apply bind_inv in H as (? & Hauth%check_inv & H).
  apply bind_inv in H as (? & Hv%check_inv%valid_quantity & H). apply bind_inv in H as (? & Hpos%check_inv%Z.ltb_lt & H).
  apply bind_inv in H as (? & Hs%check_inv%Z.eqb_eq & H). apply bind_inv in H as (sup & Hsup & H).
  destruct (bk_stats _ _ Hb _ _ Hst) as [[Hc Hms Hsv Hr Hm] He].
  apply cdt_sub_inv in Hsup as (_ & -> & _); [|unfold amount_in_range; lia|done].
  set (st' := CurrencyStats (Asset (amount (supply st) - amount q) (sym (supply st))) (max_supply st) (issuer st)) in H.
  assert (Hx : ∃ ts1, sub_balance ts (issuer st) q = Ok ts1 ∧ ts' = set_stats ts1 (sym_code (sym q)) st').
  { unfold sub_balance in *. simpl accounts in H. destruct (tbl_get (accounts ts) _) as [r|]; [|done]. simpl in *.
    destruct (_ <=? _); [|done]. simpl in *. destruct (cdt_sub (balance r) q) as [b|]; [|done]. simpl in *.
    eexists. split; [done|]. by injection H as <-. }
  destruct Hx as (ts1 & Hs1 & ->).
  destruct (sub_balance_inv _ _ _ _ _ Hb Hv Hs1) as (r & Hr' & Hle & Hsr & ->).
  exists st, r. cbv zeta. by split_and!.
Qed.

Lemma retire_wf ctx ts q memo ts' : token_wf ts → retire ctx ts q memo = Ok ts' → token_wf ts'.
Proof.
  intros Hb H. apply retire_inv in H as (st & r & Hst & _ & Hpos & Hs & Hr' & Hle & ->); [|done].
  destruct (bk_stats _ _ Hb _ _ Hst) as [[Hc Hms Hsv Hr Hm] He]. pose proof (balance_bound _ _ _ _ _ Hb Hr') as Hbb.
  set (st' := CurrencyStats _ _ _). set (r' := AccountRow _ _).
  change (books (λ _, 0) (set_stats (TokenState (stats ts) (<[(issuer st, sym_code (sym q)) := r']> (accounts ts))) (sym_code (sym q)) st')).
  apply (books_set_stats (at_code (sym_code (sym q)) (amount q)) (λ _, 0)
    (TokenState (stats ts) (<[(issuer st, sym_code (sym q)) := r']> (accounts ts))) (sym_code (sym q)) st st');
    [|done|split; simpl; try done; lia|done|done|].
  - apply (books_write (λ _, 0) _ _ _ _ _ st); [done|done|done|simpl; lia|..]; intros c; unfold at_code;
      [|unfold old_balance; rewrite Hr'; simpl]; destruct (_ =? _); lia.
  - intros c. unfold at_code. simpl. destruct (_ =? _); lia.
Qed.

(** A transfer that succeeds. *)
Lemma transfer_inv ctx ts from to q memo ts' : token_wf ts → transfer ctx ts from to q memo = Ok ts' →
  let code := sym_code (sym q) in
  has_auth ctx from = true ∧ from ≠ to ∧ is_account ctx to = true ∧ (length memo <= 256)%nat ∧
  cdt_is_valid q = true ∧ 0 < amount q ∧ (∃ st, stats ts !! code = Some st ∧ sym q = sym (supply st)) ∧
  amount q <= old_balance ts from code ∧ ∃ p, ts' = TokenState (stats ts)
    (<[(to, code) := AccountRow (Asset (old_balance ts to code + amount q) (sym q)) p]>
      (<[(from, code) := AccountRow (Asset (old_balance ts from code - amount q) (sym q)) from]> (accounts ts))).
Proof.
  intros Hb H code. unfold transfer in H. apply bind_inv in H as (? & Hne%check_inv%negb_true_iff%Z.eqb_neq & H).
  apply bind_inv in H as (? & Hauth%check_inv & H). apply bind_inv in H as (? & Hacc%check_inv & H).
  apply bind_inv in H as (st & Hst%tbl_get_inv & H). apply bind_inv in H as (? & Hval%check_inv & H).
  apply bind_inv in H as (? & Hpos%check_inv%Z.ltb_lt & H). apply bind_inv in H as (? & Hs%check_inv%Z.eqb_eq & H).
  apply bind_inv in H as (? & Hmemo%check_inv%Z.leb_le & H). apply bind_inv in H as (ts1 & H1 & H).
  pose proof (valid_quantity _ Hval) as Hv.
  destruct (sub_balance_inv _ _ _ _ _ Hb Hv H1) as (r & Hr & Hle & Hsr & ->). fold code in Hr, Hst, H, H1 |- *.
  assert (Hob : old_balance ts from code = amount (balance r)) by (unfold old_balance; by rewrite Hr).
  pose proof (balance_bound _ _ _ _ _ Hb Hr) as Hbb.
  eapply (add_balance_inv (at_code code (amount q))) in H as [p ->]; cycle 1.
  - apply (books_write (λ _, 0) _ _ _ _ _ st); [done|done|done|simpl; lia|..]; intros c; unfold at_code;
      [|rewrite Hob; simpl]; destruct (_ =? _); lia.
  - done.
  - done.
  - fold code. unfold at_code. rewrite Z.eqb_refl. lia.
  - repeat split; try done; [lia|by exists st|lia|]. exists p. fold code. rewrite Hob. f_equal. f_equal.
    unfold old_balance. cbn [accounts]. rewrite lookup_insert_ne by congruence. done.
Qed.

Lemma transfer_wf ctx ts from to q memo ts' : token_wf ts → transfer ctx ts from to q memo = Ok ts' → token_wf ts'.
Proof.
  intros Hb H. pose proof (transfer_inv _ _ _ _ _ _ _ Hb H) as Hi. cbv zeta in Hi. destruct Hi as (_ & Hne & _ & _ & _ & Hpos & (st & Hst & Hs) & Hle & p & ->).
  set (code := sym_code (sym q)) in *. set (ts1 := TokenState (stats ts) (<[(from, code) :=
    AccountRow (Asset (old_balance ts from code - amount q) (sym q)) from]> (accounts ts))).
  assert (Hold : old_balance ts1 to code = old_balance ts to code)
    by (unfold old_balance, ts1; cbn [accounts]; by rewrite lookup_insert_ne by congruence).
  pose proof (old_balance_nonneg _ ts to code Hb) as Hnn.
  apply (books_write (at_code code (amount q)) _ ts1 _ _ _ st); [|done|done|simpl; lia|done|].
  - apply (books_write (λ _, 0) _ _ _ _ _ st); [done|done|done|simpl; lia|..]; intros c; unfold at_code; simpl;
      destruct (_ =? _); lia.
  - intros c. rewrite Hold. unfold at_code. simpl. destruct (_ =? _); lia.
Qed.

Lemma open_wf ctx ts o s p ts' : token_wf ts → open ctx ts o s p = Ok ts' → token_wf ts'.
Proof.
  intros Hb H. unfold open in H. do 2 apply bind_inv in H as (? & _ & H).
  apply bind_inv in H as (st & Hst%tbl_get_inv & H). apply bind_inv in H as (? & Hs%check_inv%Z.eqb_eq & H).
  destruct (accounts ts !! _) eqn:Hr; [by injection H as <-|].
  apply bind_inv in H as (b & (-> & _)%cdt_make_inv & H). apply bind_inv in H as (t & [_ ->]%tbl_emplace_inv & [= <-]).
  apply (books_write (λ _, 0) _ _ _ _ _ st); [done|done|done|simpl; lia|done|].
  intros c. unfold old_balance. rewrite Hr. simpl. destruct (_ =? _); lia.
Qed.

Lemma close_wf ctx ts o s ts' : token_wf ts → close ctx ts o s = Ok ts' → token_wf ts'.
Proof.
  intros Hb H. unfold close in H. apply bind_inv in H as (? & _ & H). apply bind_inv in H as (r & Hr%tbl_get_inv & H).
  apply bind_inv in H as (? & Hz%check_inv%Z.eqb_eq & [= <-]). split; [| |done]; cbn [stats accounts].
  - intros c st Hst. destruct (bk_stats _ _ Hb _ _ Hst) as [Hw He]. split; [done|].
    unfold circulating in *. cbn [accounts]. rewrite tsum_delete, Hr. unfold held at 2. simpl. destruct (_ =? _); lia.
  - intros o' c r' Hr'. apply lookup_delete_Some in Hr' as [_ Hr']. by apply (bk_rows _ _ Hb o').
Qed.

Lemma token_run_wf ctx ts a ts' : token_wf ts → token_run ctx ts a = Ok ts' → token_wf ts'.
Proof.
  intros Hb. destruct a; cbn [token_run].
  - by apply create_wf.
  - by apply issue_wf.
  - unfold issuefixed. intros (c & _ & H)%bind_inv. do 2 apply bind_inv in H as (? & _ & H). revert H. by apply issue_wf.
  - by apply setmaxsupply_wf.
  - by apply retire_wf.
  - by apply transfer_wf.
  - by apply open_wf.
  - by apply close_wf.
Qed.

Lemma token_init_wf : token_wf token_init.
Proof. by split. Qed.

Lemma token_reachable_wf ts : token_reachable ts → token_wf ts.
Proof. induction 1; [apply token_init_wf|by eapply token_run_wf]. Qed.

(** The change of balances that a transfer makes. *)
Definition moved (from to : Z) (q : asset) (owner code : Z) : Z :=
  if negb (code =? sym_code (sym q)) then 0
  else if owner =? to then amount q else if owner =? from then - amount q else 0.

Lemma transfer_moves ctx ts from to q memo ts' : token_wf ts → transfer ctx ts from to q memo = Ok ts' →
  stats ts' = stats ts ∧ ∀ o c, old_balance ts' o c = old_balance ts o c + moved from to q o c.
Proof.
  intros Hb H. destruct (transfer_inv _ _ _ _ _ _ _ Hb H) as (_ & Hne & _ & _ & _ & _ & _ & _ & p & ->).
  split; [done|]. intros o c. unfold moved. unfold old_balance at 1. cbn [accounts].
  destruct (Z.eqb_spec c (sym_code (sym q))) as [-> |Hc]; simpl negb; cbn match.
  2: { rewrite !lookup_insert_ne by congruence. unfold old_balance. lia. }
  destruct (Z.eqb_spec o to) as [-> |Ho]; [rewrite lookup_insert_eq; simpl; lia|].
  rewrite lookup_insert_ne by congruence.
  destruct (Z.eqb_spec o from) as [-> |Ho']; [rewrite lookup_insert_eq; simpl; lia|].
  rewrite lookup_insert_ne by congruence. unfold old_balance. lia.
Qed.

(** ** What an action may change *)

(** The balances that fall have the authority of their owner, the supplies that change that of the issuer. *)
Definition authorized ctx ts ts' : Prop :=
  (∀ o c, old_balance ts' o c < old_balance ts o c → has_auth ctx o = true) ∧
  (∀ c st, stats ts !! c = Some st → ∃ st', stats ts' !! c = Some st' ∧ issuer st' = issuer st ∧
     sym (supply st') = sym (supply st) ∧ (amount (supply st') ≠ amount (supply st) → has_auth ctx (issuer st) = true)).

Lemma old_balance_insert st ts o c r o' c' :
  old_balance (TokenState st (<[(o, c) := r]> (accounts ts))) o' c' =
  if bool_decide ((o, c) = (o', c')) then amount (balance r) else old_balance ts o' c'.
Proof.
  unfold old_balance. cbn [accounts]. case_bool_decide as E; [by rewrite <- E, lookup_insert_eq|by rewrite lookup_insert_ne].
Qed.

(** One row of either table is written. *)
Lemma authorized_row ctx ts code st st' o c r : stats ts !! code = Some st → issuer st' = issuer st →
  sym (supply st') = sym (supply st) → (amount (supply st') ≠ amount (supply st) → has_auth ctx (issuer st) = true) →
  (amount (balance r) < old_balance ts o c → has_auth ctx o = true) →
  authorized ctx ts (TokenState (<[code := st']> (stats ts)) (<[(o, c) := r]> (accounts ts))).
Proof.
  intros Hst Hi Hs Hsup Hr. split.
  - intros o' c'. rewrite old_balance_insert. case_bool_decide as E; [injection E as <- <-; done|lia].
  - intros c' s Hc. cbn [stats]. destruct (decide (code = c')) as [<- |Hne].
    + exists st'. rewrite lookup_insert_eq. rewrite Hst in Hc. by injection Hc as <-.
    + exists s. by rewrite lookup_insert_ne.
Qed.

Lemma authorized_same ctx ts : authorized ctx ts ts.
Proof. split; [lia|]. intros c st Hc. by exists st. Qed.

Lemma issue_authorized ctx ts to q memo ts' : token_wf ts → issue ctx ts to q memo = Ok ts' → authorized ctx ts ts'.
Proof.
  intros Hb H. apply issue_inv in H as (st & p & Hst & Ha & Hpos & Hs & _ & _ & ->); [|done].
  apply (authorized_row _ _ _ st); try done.
Qed.

Lemma token_run_authorized ctx ts a ts' : token_wf ts → token_run ctx ts a = Ok ts' → authorized ctx ts ts'.
Proof.
  intros Hb. destruct a; cbn [token_run]; intros H.
  - unfold create in H. do 4 apply bind_inv in H as (? & _ & H). apply bind_inv in H as (t & [Hn ->]%tbl_emplace_inv & [= <-]).
    split; [unfold old_balance; simpl; lia|]. intros c st Hc. exists st. cbn [stats]. rewrite lookup_insert_ne; [done|congruence].
  - by apply issue_authorized in H.
  - unfold issuefixed in H. do 3 apply bind_inv in H as (? & _ & H). by apply issue_authorized in H.
  - unfold setmaxsupply in H. do 2 apply bind_inv in H as (? & _ & H). apply bind_inv in H as (st & Hst%tbl_get_inv & H).
    do 4 apply bind_inv in H as (? & _ & H). injection H as <-.
    split; [unfold old_balance; simpl; lia|]. intros c s Hc. unfold set_stats. cbn [stats].
    destruct (decide (sym_code (sym maximum_supply) = c)) as [<- |Hne].
    + rewrite Hst in Hc. injection Hc as <-. rewrite lookup_insert_eq. by eexists.
    + rewrite lookup_insert_ne by done. by eexists.
  - apply retire_inv in H as (st & r & Hst & Ha & _ & _ & _ & _ & ->); [|done]. by apply (authorized_row _ _ _ st).
  - pose proof (transfer_inv _ _ _ _ _ _ _ Hb H) as (Ha & _ & _ & _ & _ & Hpos & _). apply transfer_moves in H as [Hs Hm]; [|done]. split.
    + intros o c. rewrite Hm. unfold moved. destruct (negb _); [lia|]. destruct (o =? to); [lia|].
      destruct (Z.eqb_spec o from) as [-> |]; [done|lia].
    + intros c st Hc. exists st. by rewrite Hs.
  - unfold open in H. do 2 apply bind_inv in H as (? & _ & H). apply bind_inv in H as (st & Hst%tbl_get_inv & H).
    apply bind_inv in H as (? & _ & H). destruct (accounts ts !! _) eqn:Hr; [injection H as <-; apply authorized_same|].
    apply bind_inv in H as (b & (-> & _)%cdt_make_inv & H). apply bind_inv in H as (t & [_ ->]%tbl_emplace_inv & [= <-]).
    rewrite <- (insert_id (stats ts) _ st Hst). apply (authorized_row _ _ _ st); try done.
    unfold old_balance. rewrite Hr. simpl. lia.
  - unfold close in H. apply bind_inv in H as (? & Ha%check_inv & H). do 2 apply bind_inv in H as (? & _ & H).
    injection H as <-. split; [|intros c st Hc; by exists st]. intros o c. unfold old_balance. cbn [accounts].
    destruct (decide ((owner, sym_code symbol) = (o, c))) as [[= <- <-]|]; [done|]. rewrite lookup_delete_ne by done. lia.
Qed.

(** ** The properties *)

(** C22: in every state that actions of any senders reach, the balances under a symbol code
    add up exactly to the supply of its token, the supply is between zero and the maximum, the
    maximum is at most 2^62 - 1, and every balance is non-negative and of a created token with its symbol. *)
Theorem tokens_are_conserved ts : token_reachable ts →
  (∀ code st, stats ts !! code = Some st → circulating ts code = amount (supply st) ∧
     0 <= amount (supply st) <= amount (max_supply st) ∧ amount (max_supply st) <= max_amount ∧
     sym (max_supply st) = sym (supply st) ∧ sym_code (sym (supply st)) = code) ∧
  (∀ owner code r, accounts ts !! (owner, code) = Some r → 0 <= amount (balance r) ∧
     ∃ st, stats ts !! code = Some st ∧ sym (balance r) = sym (supply st) ∧ amount (balance r) <= amount (supply st)).
Proof.
  intros Hb%token_reachable_wf. split.
  - intros code st Hst. destruct (bk_stats _ _ Hb _ _ Hst) as [[] He]. repeat split; try done; lia.
  - intros owner code r Hr. destruct (bk_rows _ _ Hb _ _ _ Hr) as (H0 & st & Hst & Hs).
    split; [done|]. exists st. pose proof (balance_bound _ _ _ _ _ Hb Hr).
    destruct (bk_stats _ _ Hb _ _ Hst) as [_ He]. repeat split; try done; lia.
Qed.

(** When a transfer must succeed. *)
Definition may_transfer ctx ts (from to : Z) (q : asset) (memo : std_string) : Prop :=
  has_auth ctx from = true ∧ from ≠ to ∧ is_account ctx to = true ∧ (length memo <= 256)%nat ∧
  cdt_is_valid q = true ∧ 0 < amount q ∧ (∃ st, stats ts !! sym_code (sym q) = Some st ∧ sym q = sym (supply st)) ∧
  amount q <= old_balance ts from (sym_code (sym q)).

Lemma transfer_succeeds ctx ts from to q memo : token_wf ts → may_transfer ctx ts from to q memo →
  ∃ ts', transfer ctx ts from to q memo = Ok ts'.
Proof.
  intros Hb (Hauth & Hne & Hacc & Hmemo & Hval & Hpos & (st & Hst & Hs) & Hle). pose proof (valid_quantity _ Hval) as Hv.
  unfold old_balance in Hle. destruct (accounts ts !! _) as [r|] eqn:Hr; simpl in Hle; [|lia].
  destruct (bk_rows _ _ Hb _ _ _ Hr) as (_ & st0 & Hst0 & Hsr). rewrite Hst in Hst0. injection Hst0 as <-.
  unfold transfer, require_auth. rewrite (check_bind (negb _)) by (by apply negb_true_iff, Z.eqb_neq).
  rewrite (check_bind (has_auth _ _)), (check_bind (is_account _ _)) by done. unfold tbl_get. rewrite Hst, bind_ok.
  rewrite (check_bind (cdt_is_valid _)), (check_bind (0 <? _)) by (done || by apply Z.ltb_lt).
  rewrite (check_bind (_ =? _)) by (by apply Z.eqb_eq). rewrite (check_bind (_ <=? 256)) by (apply Z.leb_le; lia).
  rewrite (sub_balance_ok (λ _, 0) ts from q r), bind_ok by (done || lia || congruence).
  edestruct (add_balance_ok (at_code (sym_code (sym q)) (amount q))) as [p ->]; [| | | |by eexists].
  - apply (books_write (λ _, 0) _ _ _ _ _ st); [done|done|done|simpl; lia|..]; intros c; unfold at_code;
      [|unfold old_balance; rewrite Hr; simpl]; destruct (_ =? _); lia.
  - done.
  - done.
  - unfold at_code. rewrite Z.eqb_refl. lia.
Qed.

(** C23: in a well-formed state a transfer succeeds exactly when the sender authorized it, the receiver
    exists and is another account, the memo is short, the quantity is valid, positive and of a
    created token, and the sender has it; it then moves exactly the quantity, changing no other balance
    and no supply, and the state stays well formed. *)
Theorem transfer_correct ctx ts from to q memo : token_wf ts →
  match transfer ctx ts from to q memo with
  | Ok ts' => may_transfer ctx ts from to q memo ∧ token_wf ts' ∧ stats ts' = stats ts ∧
      ∀ o c, old_balance ts' o c = old_balance ts o c + moved from to q o c
  | Err _ => ~ may_transfer ctx ts from to q memo
  end.
Proof.
  intros Hb. destruct (transfer ctx ts from to q memo) as [ts'|e] eqn:H.
  - destruct (transfer_moves _ _ _ _ _ _ _ Hb H). split; [|split; [by eapply transfer_wf|done]].
    destruct (transfer_inv _ _ _ _ _ _ _ Hb H) as (? & ? & ? & ? & ? & ? & ? & ? & _). by repeat split.
  - intros Hm. destruct (transfer_succeeds _ _ _ _ _ _ Hb Hm) as [ts' H']. congruence.
Qed.

(** C24: whatever the action, a balance decreases only with the authority of its owner, the supply of a token
    changes only with the authority of its issuer, and the issuer of a token never changes. *)
Theorem balances_need_authority ctx ts a ts' : token_wf ts → token_run ctx ts a = Ok ts' →
  (∀ o c, old_balance ts' o c < old_balance ts o c → has_auth ctx o = true) ∧
  (∀ c st, stats ts !! c = Some st → ∃ st', stats ts' !! c = Some st' ∧ issuer st' = issuer st ∧
     sym (supply st') = sym (supply st) ∧ (amount (supply st') ≠ amount (supply st) → has_auth ctx (issuer st) = true)).
Proof. apply token_run_authorized. Qed.

End TokenTheory.
