(* ===== verification/Org.v ===== *)
(** * The backpay contract ([contracts/ra.org])

    The tables of [ra.org] and its actions: roles and seats, the monthly reviews, the closing
    of a month, which adds to what each worker is owed, and the payment of an incoming
    transfer to the workers in proportion. The transfers that the contract sends are a list
    that the chain executes after the action. *)

From S2P Require Import Prelude Names Assets Authority Contract.
From stdpp Require Import gmap.
Open Scope Z_scope.

Definition GUARANTEED_BPS : Z := 100.
Definition REVIEW_BPS : Z := 3300.
Definition RATING_MAX : Z := 10.
Definition k_day : Z := 86400.

Record config_row : Type := ConfigRow {
  buck_contract : Z;
  buck : Z;
  open_days : Z;
  grace_days : Z;
  next_role_id : Z;
  next_seat_id : Z }.

Record stat_row : Type := StatRow { owed : asset; paid : asset }.

Record role : Type := Role {
  role_id : Z;
  kpi_name : std_string;
  kpi_type : Z;
  base_salary : asset;
  bucket_salary : asset;
  boost : Z;
  review_role : Z }.

Record seat : Type := Seat { seat_id : Z; seat_role : Z; worker : Z; granted : Z }.

Record review_row : Type := ReviewRow {
  review_id : Z;
  target_role : Z;
  target : Z;
  reviewer : Z;
  kind : Z;
  rating : Z;
  proof : std_string }.

Record org_state : Type := OrgState {
  config : option config_row;
  stat : option stat_row;
  admins : gset Z;
  roles : gmap Z role;
  seats : gmap Z seat;
  reviews : gmap Z (gmap Z review_row);   (* by period, then by id *)
  org_accounts : gmap Z asset;            (* what each owner is owed *)
  periods : gset Z }.                     (* the closed months *)

Definition org_init : org_state := OrgState None None ∅ ∅ ∅ ∅ ∅ ∅.

Definition set_cfg (os : org_state) (c : config_row) : org_state :=
  OrgState (Some c) (stat os) (admins os) (roles os) (seats os) (reviews os) (org_accounts os) (periods os).
Definition set_st (os : org_state) (s : stat_row) : org_state :=
  OrgState (config os) (Some s) (admins os) (roles os) (seats os) (reviews os) (org_accounts os) (periods os).
Definition with_admins (os : org_state) (x : gset Z) : org_state :=
  OrgState (config os) (stat os) x (roles os) (seats os) (reviews os) (org_accounts os) (periods os).
Definition with_roles (os : org_state) (x : gmap Z role) : org_state :=
  OrgState (config os) (stat os) (admins os) x (seats os) (reviews os) (org_accounts os) (periods os).
Definition with_seats (os : org_state) (x : gmap Z seat) : org_state :=
  OrgState (config os) (stat os) (admins os) (roles os) x (reviews os) (org_accounts os) (periods os).
Definition with_reviews (os : org_state) (x : gmap Z (gmap Z review_row)) : org_state :=
  OrgState (config os) (stat os) (admins os) (roles os) (seats os) x (org_accounts os) (periods os).
Definition with_accounts (os : org_state) (x : gmap Z asset) : org_state :=
  OrgState (config os) (stat os) (admins os) (roles os) (seats os) (reviews os) x (periods os).
Definition with_periods (os : org_state) (x : gset Z) : org_state :=
  OrgState (config os) (stat os) (admins os) (roles os) (seats os) (reviews os) (org_accounts os) x.

(** ** Dates *)

(** Days from 1970-01-01 of a civil date; [unsigned] subtraction wraps as in the source. *)
Definition days_from_civil (y m d : Z) : Z :=
  let y := y - (if m <=? 2 then 1 else 0) in
  let era := Z.quot (if 0 <=? y then y else y - 399) 400 in
  let yoe := u32 (y - era * 400) in
  let doy := (153 * u32 (m + (if 2 <? m then 4294967293 else 9)) + 2) / 5 + d - 1 in
  let doe := yoe * 365 + yoe / 4 - yoe / 100 + doy in
  era * 146097 + doe - 719468.

Definition unix_from_ymd (y m d : Z) : Z := u32 (days_from_civil y m d * k_day).

Definition period_end_unix (period : Z) : Z :=
  let y := period / 100 in
  let m := period mod 100 in
  if m =? 12 then unix_from_ymd (y + 1) 1 1 else unix_from_ymd y (m + 1) 1.

Definition check_period (period : Z) : result unit :=
  let year := period / 100 in
  let month := period mod 100 in
  require ((1970 <=? year) && (year <=? 3000));;
  require ((1 <=? month) && (month <=? 12)).

(** [available_primary_key] of a table: some key that is free. *)
Class AvailableKey : Type := {
  available_primary_key : gmap Z review_row → Z;
  available_fresh : ∀ t, t !! available_primary_key t = None }.

Section Org.
Context {cdt : CdtAsset} {avail : AvailableKey}.
Context (self : Z).   (* [get_self()] *)
Implicit Types (ctx : action_ctx) (os : org_state).

Definition now_unix ctx : Z := sec_since_epoch (now ctx).

Definition get_config os : result config_row :=
  match config os with Some c => Ok c | None => Err eosio_assert_message_exception end.

Definition get_stat os : result stat_row :=
  match stat os with Some s => Ok s | None => Err eosio_assert_message_exception end.

Definition is_admin os (account : Z) : bool := (account =? self) || bool_decide (account ∈ admins os).

Definition require_admin ctx os : result unit :=
  if has_auth ctx self then Ok tt
  else require (existsb (has_auth ctx) (elements (admins os))).

Definition has_seat os (rid w : Z) : bool :=
  existsb (λ s, (worker s.2 =? w) && (seat_role s.2 =? rid)) (tbl_rows (seats os)).

Definition count_seats os (rid : Z) : Z :=
  u32 (Z.of_nat (length (filter (λ s, seat_role s.2 = rid) (tbl_rows (seats os))))).

Definition count_peers os (peer_role w : Z) : Z :=
  u32 (Z.of_nat (length (filter (λ s, seat_role s.2 = peer_role ∧ worker s.2 ≠ w ∧ is_admin os (worker s.2) = false)
    (tbl_rows (seats os))))).

Definition check_salary (quantity : asset) (buck_ : Z) : result unit :=
  require (cdt_is_valid quantity);;
  require (sym quantity =? buck_);;
  require (0 <=? amount quantity).

Definition write_role os (id : Z) (kname : std_string) (ktype : Z) (base bucket : asset)
    (boost_ rrole buck_ : Z) : result role :=
  require ((0 <? Z.of_nat (length kname)) && (Z.of_nat (length kname) <=? 64));;
  require (negb (ktype =? 0));;
  check_salary base buck_;;
  check_salary bucket buck_;;
  require (boost_ <=? 10000);;
  (if negb (rrole =? 0) then require (bool_decide (is_Some (roles os !! rrole))) else Ok tt);;
  Ok (Role id kname ktype base bucket boost_ rrole).

Definition add_owed os (owner : Z) (quantity : asset) : result org_state :=
  if amount quantity <=? 0 then Ok os
  else
    t ← match org_accounts os !! owner with
        | None => tbl_emplace (org_accounts os) owner quantity
        | Some o => o' ← cdt_add o quantity; Ok (<[owner := o']> (org_accounts os))
        end;
    let os := with_accounts os t in
    st ← get_stat os;
    o ← cdt_add (owed st) quantity;
    Ok (set_st os (StatRow o (paid st))).

Definition infer_kind os (reviewer_ w rid rrole : Z) : result Z :=
  if reviewer_ =? w then require (has_seat os rid w);; Ok (name_of "self")
  else if is_admin os reviewer_ then Ok (name_of "manager")
  else
    let peer_role := if rrole =? 0 then rid else rrole in
    require (has_seat os peer_role reviewer_);; Ok (name_of "peer").

(** ** The actions *)

Definition default_config : config_row := ConfigRow 0 0 3 3 1 1.
Definition default_stat : stat_row := StatRow (Asset 0 0) (Asset 0 0).

Definition setconfig ctx os (buck_contract_ buck_ : Z) : result org_state :=
  require_auth ctx self;;
  require (is_account ctx buck_contract_);;
  require (sym_is_valid buck_);;
  let c := default default_config (config os) in
  (if sym_is_valid (buck c) && (negb (buck c =? buck_) || negb (buck_contract c =? buck_contract_)) then
     st ← get_stat os;
     require (amount (owed st) =? 0)
   else Ok tt);;
  let or_default v d := if v =? 0 then d else v in
  let c := ConfigRow buck_contract_ buck_ (or_default (open_days c) 3) (or_default (grace_days c) 3)
             (or_default (next_role_id c) 1) (or_default (next_seat_id c) 1) in
  let os := set_cfg os c in
  let s := default default_stat (stat os) in
  o ← cdt_make (if sym (owed s) =? buck_ then amount (owed s) else 0) buck_;
  p ← cdt_make (if sym (paid s) =? buck_ then amount (paid s) else 0) buck_;
  Ok (set_st os (StatRow o p)).

Definition addadmin ctx os (account : Z) : result org_state :=
  require_admin ctx os;;
  require (is_account ctx account);;
  require (negb (account =? self));;
  require (bool_decide (account ∉ admins os));;
  Ok (with_admins os ({[account]} ∪ admins os)).

Definition rmadmin ctx os (account : Z) : result org_state :=
  require_admin ctx os;;
  require (bool_decide (account ∈ admins os));;
  Ok (with_admins os (admins os ∖ {[account]})).

Definition addrole ctx os (kname : std_string) (ktype : Z) (base bucket : asset) (boost_ rrole : Z) : result org_state :=
  require_admin ctx os;;
  c ← get_config os;
  row ← write_role os (next_role_id c) kname ktype base bucket boost_ rrole (buck c);
  t ← tbl_emplace (roles os) (role_id row) row;
  Ok (set_cfg (with_roles os t) (ConfigRow (buck_contract c) (buck c) (open_days c) (grace_days c)
    (u64 (next_role_id c + 1)) (next_seat_id c))).

Definition editrole ctx os (rid : Z) (kname : std_string) (ktype : Z) (base bucket : asset) (boost_ rrole : Z) : result org_state :=
  require_admin ctx os;;
  c ← get_config os;
  old ← tbl_get (roles os) rid;
  row ← write_role os (role_id old) kname ktype base bucket boost_ rrole (buck c);
  Ok (with_roles os (<[rid := row]> (roles os))).

Definition grantrole ctx os (rid w : Z) : result org_state :=
  require_admin ctx os;;
  require (is_account ctx w);;
  c ← get_config os;
  tbl_get (roles os) rid;;
  require (negb (has_seat os rid w));;
  t ← tbl_emplace (seats os) (next_seat_id c) (Seat (next_seat_id c) rid w (now ctx));
  Ok (set_cfg (with_seats os t) (ConfigRow (buck_contract c) (buck c) (open_days c) (grace_days c)
    (next_role_id c) (u64 (next_seat_id c + 1)))).

Definition revokerole ctx os (rid w : Z) : result org_state :=
  require_admin ctx os;;
  match find (λ s, (worker s.2 =? w) && (seat_role s.2 =? rid)) (tbl_rows (seats os)) with
  | Some (id, _) => Ok (with_seats os (delete id (seats os)))
  | None => Err eosio_assert_message_exception
  end.

Definition review ctx os (reviewer_ period rid w rating_ : Z) (proof_ : std_string) : result org_state :=
  require_auth ctx reviewer_;;
  check_period period;;
  require (rating_ <=? RATING_MAX);;
  require (Z.of_nat (length proof_) <=? 256);;
  require (is_account ctx w);;
  c ← get_config os;
  let end_ := period_end_unix period in
  require (end_ - open_days c * k_day <=? now_unix ctx);;
  require (now_unix ctx <? end_ + grace_days c * k_day);;
  require (bool_decide (period ∉ periods os));;
  role_row ← tbl_get (roles os) rid;
  require (has_seat os rid w);;
  kind_ ← infer_kind os reviewer_ w rid (review_role role_row);
  let table := default ∅ (reviews os !! period) in
  match find (λ r, (target_role r.2 =? rid) && (target r.2 =? w) && (reviewer r.2 =? reviewer_)) (tbl_rows table) with
  | Some (id, r) =>
    Ok (with_reviews os (<[period := <[id := ReviewRow (review_id r) rid w reviewer_ kind_ rating_ proof_]> table]> (reviews os)))
  | None =>
    let id := available_primary_key table in
    t ← tbl_emplace table id (ReviewRow id rid w reviewer_ kind_ rating_ proof_);
    Ok (with_reviews os (<[period := t]> (reviews os)))
  end.

(** The ratings of one seat: the last self rating, and the sums and numbers of the ratings of
    managers and peers. The numbers count rows of one table; their 32 bits are not modelled. *)
Record ratings : Type := Ratings { self_rating : Z; mgr_sum : Z; mgr_n : Z; peer_sum : Z; peer_n : Z }.

Definition count_rating (acc : ratings) (r : review_row) : ratings :=
  if kind r =? name_of "self" then Ratings (rating r) (mgr_sum acc) (mgr_n acc) (peer_sum acc) (peer_n acc)
  else if kind r =? name_of "manager" then
    Ratings (self_rating acc) (mgr_sum acc + rating r) (mgr_n acc + 1) (peer_sum acc) (peer_n acc)
  else if kind r =? name_of "peer" then
    Ratings (self_rating acc) (mgr_sum acc) (mgr_n acc) (peer_sum acc + rating r) (peer_n acc + 1)
  else acc.

Definition seat_ratings os (period : Z) (s : seat) : ratings :=
  foldl count_rating (Ratings (-1) 0 0 0 0)
    (filter (λ r, target_role r = seat_role s ∧ target r = worker s) (tbl_rows (default ∅ (reviews os !! period))).*2).

(** The share of the salary in hundredths of a percent; [None] when reviews are missing. *)
Definition review_weight os (role_row : role) (s : seat) (t : ratings) : option Z :=
  if (self_rating t <? 0) || (mgr_n t =? 0) then None
  else
    let peer_role := if review_role role_row =? 0 then role_id role_row else review_role role_row in
    if (peer_n t =? 0) && (0 <? count_peers os peer_role (worker s)) then None
    else
      let self_term := Z.quot (REVIEW_BPS * self_rating t) RATING_MAX in
      let mgr_term := Z.quot (REVIEW_BPS * mgr_sum t) (mgr_n t * RATING_MAX) in
      let peer_term := if peer_n t =? 0 then REVIEW_BPS else Z.quot (REVIEW_BPS * peer_sum t) (peer_n t * RATING_MAX) in
      Some (GUARANTEED_BPS + self_term + mgr_term + peer_term).

(** The salary before the reviews; the products are 64-bit. *)
Definition start_salary os (role_row : role) : result Z :=
  let n := count_seats os (role_id role_row) in
  boosted_part ← share (amount (base_salary role_row) * boost role_row);
  boosted ← share (amount (base_salary role_row) + Z.quot boosted_part 100);
  let bucket := if 0 <? n then Z.quot (amount (bucket_salary role_row)) n else 0 in
  share (boosted + bucket).

(** The body of the loop of [closeperiod]. *)
Definition close_seat (c : config_row) (period end_ : Z) os (s : seat) : result org_state :=
  if end_ <=? sec_since_epoch (granted s) then Ok os
  else
    role_row ← tbl_get (roles os) (seat_role s);
    match review_weight os role_row s (seat_ratings os period s) with
    | None => Ok os
    | Some weight =>
      start ← start_salary os role_row;
      if start <=? 0 then Ok os
      else
        q ← cdt_make (i64 (Z.quot (start * weight) 10000)) (buck c);
        add_owed os (worker s) q
    end.

Fixpoint close_seats (c : config_row) (period end_ : Z) os (l : list seat) : result org_state :=
  match l with
  | [] => Ok os
  | s :: l => os ← close_seat c period end_ os s; close_seats c period end_ os l
  end.

Definition closeperiod ctx os (period : Z) : result org_state :=
  check_period period;;
  c ← get_config os;
  let end_ := period_end_unix period in
  require (end_ + grace_days c * k_day <=? now_unix ctx);;
  require (bool_decide (period ∉ periods os));;
  os ← close_seats c period end_ os (tbl_rows (seats os)).*2;
  Ok (with_periods os ({[period]} ∪ periods os)).

(** The loop of [on_transfer] over the accounts: the payments, the accounts, the sum paid. *)
Fixpoint pay_loop ctx (pool total : Z) (rows : list (Z * asset)) (t : gmap Z asset) (paid_sum : Z)
    : result (list (Z * Z) * gmap Z asset * Z) :=
  match rows with
  | [] => Ok ([], t, paid_sum)
  | (owner, o) :: rows =>
    if amount o <=? 0 then pay_loop ctx pool total rows t paid_sum
    else
      let sh := i64 (Z.quot (pool * amount o) total) in
      let sh := if amount o <? sh then amount o else sh in
      if (sh <=? 0) || negb (is_account ctx owner) then pay_loop ctx pool total rows t paid_sum
      else
        left ← share (amount o - sh);
        sum ← share (paid_sum + sh);
        '(pays, t, sum) ← pay_loop ctx pool total rows (<[owner := Asset left (sym o)]> t) sum;
        Ok ((owner, sh) :: pays, t, sum)
  end.

(** [on_transfer], with the account whose transfer it is notified of; the payments are sent
    as transfers of [buck_contract] to each owner. *)
Definition on_transfer ctx os (first_receiver from to : Z) (quantity : asset) : result (org_state * list (Z * asset)) :=
  if negb (to =? self) || (from =? self) then Ok (os, [])
  else match config os with
  | None => Ok (os, [])
  | Some c =>
    if negb (first_receiver =? buck_contract c) || negb (sym quantity =? buck c) then Ok (os, [])
    else
      require (0 <? amount quantity);;
      st ← get_stat os;
      if amount (owed st) <=? 0 then Ok (os, [])
      else
        '(pays, t, paid_sum) ← pay_loop ctx (amount quantity) (amount (owed st)) (tbl_rows (org_accounts os)) (org_accounts os) 0;
        o ← share (amount (owed st) - paid_sum);
        p ← share (amount (paid st) + paid_sum);
        let os := set_st (with_accounts os t) (StatRow (Asset o (sym (owed st))) (Asset p (sym (paid st)))) in
        sent ← mapM (λ x : Z * Z, q ← cdt_make x.2 (buck c); Ok (x.1, q)) pays;
        Ok (os, sent)
  end.

(** [get_balance]. *)
Definition org_get_balance os (owner code : Z) : result asset :=
  match config os with
  | None => Err eosio_assert_message_exception
  | Some c =>
    require (sym_code (buck c) =? code);;
    match org_accounts os !! owner with
    | None => cdt_make 0 (buck c)
    | Some o => Ok o
    end
  end.

End Org.
