(* ===== verification/OrgTheory.v ===== *)
(** * The books of the backpay contract

    The invariant of [ra.org]: what the workers are owed adds up to the total, which every
    action keeps; how an incoming transfer is divided; what a closed month adds. *)

From S2P Require Import Prelude Names Assets AssetsTheory Authority Contract Org.
From stdpp Require Import gmap.
Open Scope Z_scope.

Lemma zsum_scale {A} (f : A → Z) k l : zsum (λ x, k * f x) l = k * zsum f l.
Proof. unfold zsum. induction l as [|x l IH]; simpl; lia. Qed.

Lemma zsum_nonneg {A} (f : A → Z) l : (∀ x, x ∈ l → 0 <= f x) → 0 <= zsum f l.
Proof. intros Hf. pose proof (zsum_le (λ x, 0 * f x) f l) as H. rewrite zsum_scale in H. apply H. intros. by apply Hf. Qed.

Section OrgTheory.
Context {cdt : CdtAsset} {avail : AvailableKey}.
Context (self : Z).
Implicit Types (ctx : action_ctx) (os : org_state).

(** ** The invariant *)

Definition total_owed os : Z := tsum (λ _ o, amount o) (org_accounts os).

Record role_wf (id : Z) (r : role) : Prop := {
  rw_id : role_id r = id;
  rw_base : 0 <= amount (base_salary r) <= max_amount;
  rw_bucket : 0 <= amount (bucket_salary r) <= max_amount;
  rw_boost : 0 <= boost r <= 10000 }.

(** The singletons [config] and [stat] are set together. *)
Definition stat_wf os : Prop :=
  match config os, stat os with
  | Some c, Some s => sym (owed s) = buck c ∧ sym (paid s) = buck c ∧ sym_is_valid (buck c) = true ∧
      amount (owed s) = total_owed os ∧ amount (owed s) <= max_amount ∧ 0 <= amount (paid s)
  | None, None => org_accounts os = ∅
  | _, _ => False
  end.

Record org_wf os : Prop := {
  ow_stat : stat_wf os;
  ow_rows : ∀ owner o, org_accounts os !! owner = Some o → 0 <= amount o ∧
    (0 < amount o → ∀ c, config os = Some c → sym o = buck c);
  ow_roles : ∀ id r, roles os !! id = Some r → role_wf id r;
  ow_seats : ∀ id s, seats os !! id = Some s → is_Some (roles os !! seat_role s);
  ow_ratings : ∀ period t id r, reviews os !! period = Some t → t !! id = Some r → 0 <= rating r <= RATING_MAX }.

Lemma total_owed_nonneg os : org_wf os → 0 <= total_owed os.
Proof. intros Hw. apply tsum_nonneg. intros k o Ho. by destruct (ow_rows _ Hw _ _ Ho). Qed.

Lemma owed_bound os owner o : org_wf os → org_accounts os !! owner = Some o → 0 <= amount o <= total_owed os.
Proof.
  intros Hw Ho. split; [by destruct (ow_rows _ Hw _ _ Ho)|].
  apply (tsum_row (λ _ o, amount o) (org_accounts os) owner o); [|done].
  intros k o' Ho'. by destruct (ow_rows _ Hw _ _ Ho').
Qed.

(** ** What is owed grows *)

Definition owed_to os (owner : Z) : Z := from_option amount 0 (org_accounts os !! owner).

Lemma total_insert os owner o : tsum (λ _ o, amount o) (<[owner := o]> (org_accounts os)) = total_owed os + amount o - owed_to os owner.
Proof. unfold total_owed, owed_to. rewrite tsum_insert. done. Qed.

(** Only what is owed has changed between the states. *)
Definition same_org os os' : Prop :=
  config os' = config os ∧ admins os' = admins os ∧ roles os' = roles os ∧ seats os' = seats os ∧
  reviews os' = reviews os ∧ periods os' = periods os.

Lemma same_org_refl os : same_org os os.
Proof. by repeat split. Qed.

Lemma same_org_trans os1 os2 os3 : same_org os1 os2 → same_org os2 os3 → same_org os1 os3.
Proof. unfold same_org. intros (-> & -> & -> & -> & -> & ->). done. Qed.

Lemma add_owed_inv os owner q os' c : org_wf os → config os = Some c → sym q = buck c → amount_in_range (amount q) →
  add_owed os owner q = Ok os' →
  org_wf os' ∧ same_org os os' ∧ ∀ o, owed_to os' o = owed_to os o + (if o =? owner then Z.max 0 (amount q) else 0).
Proof.
  intros Hw Hc Hs Hq. unfold add_owed. destruct (Z.leb_spec (amount q) 0) as [Hle|Hpos].
  { intros [= <-]. split; [done|]. split; [apply same_org_refl|]. intros o. destruct (_ =? _); lia. }
  intros (t & Ht & H)%bind_inv. unfold get_stat in H. cbn [stat with_accounts] in H.
  pose proof (ow_stat _ Hw) as Hst. unfold stat_wf in Hst. rewrite Hc in Hst.
  destruct (stat os) as [st|] eqn:Es; [|done]. destruct Hst as (Hso & Hsp & Hbv & Ht0 & Hm & Hp0). rewrite bind_ok in H.
  pose proof (total_owed_nonneg _ Hw) as Htn. unfold amount_in_range in Hq.
  apply bind_inv in H as (o & Ho & [= <-]). apply cdt_add_inv in Ho as (_ & -> & Hr); [|unfold amount_in_range; lia|done].
  unfold amount_in_range in Hr. cbn [amount] in Hr.
  assert (Hx : t = <[owner := Asset (owed_to os owner + amount q) (buck c)]> (org_accounts os)).
  { unfold owed_to. destruct (org_accounts os !! owner) as [o|] eqn:E.
    - apply bind_inv in Ht as (o' & Ho' & [= <-]). pose proof (owed_bound _ _ _ Hw E).
      apply cdt_add_inv in Ho' as (Hsy & -> & _); [|unfold amount_in_range; lia|done]. simpl. by rewrite Hsy, Hs.
    - apply tbl_emplace_inv in Ht as [_ ->]. simpl. rewrite Z.add_0_l, <- Hs. by destruct q. }
  subst t. split; [|split; [by repeat split|]].
  - assert (Hn : 0 <= owed_to os owner).
    { unfold owed_to. destruct (org_accounts os !! owner) as [o|] eqn:E; simpl; [|done]. by destruct (owed_bound os owner o Hw E). }
    split; cbn [config stat org_accounts roles seats reviews set_st with_accounts].
    + unfold stat_wf, total_owed. cbn [config stat org_accounts set_st with_accounts]. rewrite Hc. cbn [owed paid amount sym].
      rewrite total_insert. cbn [amount]. repeat split; try done; lia.
    + intros o a. destruct (decide (owner = o)) as [<- |Hne].
      * rewrite lookup_insert_eq. intros [= <-]. cbn [amount sym]. split; [lia|]. intros _ c' Hc'. congruence.
      * rewrite lookup_insert_ne by done. apply (ow_rows _ Hw).
    + apply (ow_roles _ Hw).
    + apply (ow_seats _ Hw).
    + apply (ow_ratings _ Hw).
  - intros o. unfold owed_to at 1. cbn [org_accounts set_st with_accounts]. destruct (Z.eqb_spec o owner) as [-> |Hne].
    + rewrite lookup_insert_eq. simpl. lia.
    + rewrite lookup_insert_ne by done. unfold owed_to. lia.
Qed.

(** ** Closing a month *)

Definition ratings_ok (t : ratings) : Prop :=
  -1 <= self_rating t <= RATING_MAX ∧ 0 <= mgr_n t ∧ 0 <= peer_n t ∧
  0 <= mgr_sum t <= RATING_MAX * mgr_n t ∧ 0 <= peer_sum t <= RATING_MAX * peer_n t.

Lemma count_rating_ok t r : ratings_ok t → 0 <= rating r <= RATING_MAX → ratings_ok (count_rating t r).
Proof.
  unfold ratings_ok, count_rating. intros Ht Hr.
  destruct (kind r =? name_of "self"), (kind r =? name_of "manager"), (kind r =? name_of "peer");
    cbn [self_rating mgr_n peer_n mgr_sum peer_sum]; unfold RATING_MAX in *; lia.
Qed.

Lemma fold_ratings_ok l t : ratings_ok t → (∀ r, r ∈ l → 0 <= rating r <= RATING_MAX) → ratings_ok (foldl count_rating t l).
Proof.
  revert t. induction l as [|r l IH]; intros t Ht Hl; [done|]. simpl. apply IH.
  - apply count_rating_ok; [done|]. apply Hl. by left.
  - intros r' Hr'. apply Hl. by right.
Qed.

Lemma seat_ratings_ok os period s : org_wf os → ratings_ok (seat_ratings os period s).
Proof.
  intros Hw. apply fold_ratings_ok; [done|]. intros r [_ Hr]%list_elem_of_filter.
  apply list_elem_of_fmap in Hr as ([id r'] & -> & Hr). apply elem_of_tbl_rows in Hr.
  destruct (reviews os !! period) as [t|] eqn:E; simpl in Hr; [|by rewrite lookup_empty in Hr].
  by apply (ow_ratings _ Hw period t id).
Qed.

Lemma quot_term n sum : 0 < n → 0 <= sum <= RATING_MAX * n → 0 <= Z.quot (REVIEW_BPS * sum) (n * RATING_MAX) <= REVIEW_BPS.
Proof.
  unfold RATING_MAX, REVIEW_BPS. intros Hn Hs. rewrite Z.quot_div_nonneg by lia.
  split; [apply Z.div_pos; lia|apply Z.div_le_upper_bound; lia].
Qed.

(** The reviews decide between one and a hundred percent of the salary. *)
Lemma review_weight_bounds os r s t w : ratings_ok t → review_weight self os r s t = Some w →
  GUARANTEED_BPS <= w <= 10000 ∧ 0 <= self_rating t ∧ 0 < mgr_n t.
Proof.
  intros (Hs & Hm & Hp & Hms & Hps). unfold review_weight.
  destruct (Z.ltb_spec (self_rating t) 0), (Z.eqb_spec (mgr_n t) 0); simpl; try done. destruct (_ && _); [done|].
  pose proof (quot_term 1 (self_rating t) ltac:(lia) ltac:(unfold RATING_MAX in *; lia)) as H1. rewrite Z.mul_1_l in H1.
  pose proof (quot_term (mgr_n t) (mgr_sum t) ltac:(lia) Hms) as H2. intros [= <-]. split; [|lia].
  unfold REVIEW_BPS, GUARANTEED_BPS in *. destruct (Z.eqb_spec (peer_n t) 0); [lia|].
  pose proof (quot_term (peer_n t) (peer_sum t) ltac:(lia) Hps) as H3. unfold REVIEW_BPS in *. lia.
Qed.

Lemma share_inv v x : share v = Ok x → x = v ∧ is_i64 v.
Proof.
  unfold share. intros (? & Hv%check_inv & [= <-])%bind_inv.
  rewrite andb_true_iff, !Z.leb_le in Hv. unfold i64_min, i64_max, is_i64 in *. lia.
Qed.

(** The salary of a role: the base with its boost, and an equal part of the bucket. *)
Definition salary os (r : role) : Z :=
  amount (base_salary r) + amount (base_salary r) * boost r / 100 +
  (if 0 <? count_seats os (role_id r) then amount (bucket_salary r) / count_seats os (role_id r) else 0).

Lemma start_salary_inv os r v id : role_wf id r → start_salary os r = Ok v → v = salary os r ∧ 0 <= v ∧ is_i64 v.
Proof.
  intros [_ Hb Hk Hx]. unfold start_salary, salary. intros (b & [-> _]%share_inv & H)%bind_inv.
  apply bind_inv in H as (b' & [-> _]%share_inv & [-> Hi]%share_inv).
  rewrite (Z.quot_div_nonneg (_ * _)) in * by nia.
  assert (0 <= amount (base_salary r) * boost r / 100) by (apply Z.div_pos; nia).
  destruct (Z.ltb_spec 0 (count_seats os (role_id r))) as [Hn|Hn]; [|split_and!; [done|lia|done]].
  rewrite (Z.quot_div_nonneg (amount (bucket_salary r))) in * by lia.
  assert (0 <= amount (bucket_salary r) / count_seats os (role_id r)) by (apply Z.div_pos; lia). split_and!; [done|lia|done].
Qed.

(** What a month adds to what the worker of a seat is owed. *)
Definition seat_pay os (period end_ : Z) (s : seat) : Z :=
  if end_ <=? sec_since_epoch (granted s) then 0
  else match roles os !! seat_role s with
  | None => 0
  | Some r =>
    match review_weight self os r s (seat_ratings os period s) with
    | None => 0
    | Some w => salary os r * w / 10000
    end
  end.

(** A seat is paid only after a review of the worker and of a manager, at most its salary and at least
    one percent of it. *)
Lemma seat_pay_bounds os period end_ s r : org_wf os → roles os !! seat_role s = Some r → 0 <= salary os r →
  let t := seat_ratings os period s in
  0 <= seat_pay os period end_ s <= salary os r ∧
  (0 < seat_pay os period end_ s → 0 <= self_rating t ∧ 0 < mgr_n t ∧ salary os r / 100 <= seat_pay os period end_ s).
Proof.
  intros Hw Hr Hs t. unfold seat_pay. rewrite Hr. destruct (_ <=? _); [lia|]. fold t.
  destruct (review_weight self os r s t) as [w|] eqn:E; [|lia].
  destruct (review_weight_bounds os r s t w (seat_ratings_ok os period s Hw) E) as ((Hw1 & Hw2) & H1 & H2).
  unfold GUARANTEED_BPS in Hw1. split; [split; [apply Z.div_pos; nia|apply Z.div_le_upper_bound; nia]|].
  intros _. split; [done|]. split; [done|]. apply Z.div_le_lower_bound; [lia|].
  pose proof (Z.mul_div_le (salary os r) 100 ltac:(lia)). nia.
Qed.

Lemma seat_pay_same os os' period end_ s : same_org os os' → seat_pay os' period end_ s = seat_pay os period end_ s.
Proof.
  intros (_ & Ha & Hr & Hs & Hv & _). unfold seat_pay, seat_ratings, review_weight, salary, count_peers, count_seats, is_admin.
  by rewrite Hr, Hs, Hv, Ha.
Qed.

Lemma close_seat_inv c period end_ os s os' : org_wf os → config os = Some c →
  close_seat self c period end_ os s = Ok os' →
  org_wf os' ∧ same_org os os' ∧ 0 <= seat_pay os period end_ s ∧
  ∀ o, owed_to os' o = owed_to os o + (if o =? worker s then seat_pay os period end_ s else 0).
Proof.
  intros Hw Hc. unfold close_seat, seat_pay.
  assert (Hnone : Ok os = Ok os' → org_wf os' ∧ same_org os os' ∧ 0 <= 0 ∧
    ∀ o, owed_to os' o = owed_to os o + (if o =? worker s then 0 else 0)).
  { intros [= <-]. split; [done|]. split; [apply same_org_refl|]. split; [done|]. intros o. destruct (_ =? _); lia. }
  destruct (_ <=? _); [done|]. unfold tbl_get. destruct (roles os !! seat_role s) as [r|] eqn:Er; [|done].
  rewrite bind_ok. destruct (review_weight self _ _ _ _) as [w|] eqn:Ew; [|done].
  destruct (review_weight_bounds _ _ _ _ _ (seat_ratings_ok os period s Hw) Ew) as ((Hw1 & Hw2) & _). unfold GUARANTEED_BPS in Hw1.
  intros (st & [-> [Hs0 Hsi]]%(start_salary_inv _ _ _ _ (ow_roles _ Hw _ _ Er)) & H)%bind_inv.
  assert (Hd : 0 <= salary os r * w / 10000 <= salary os r)
    by (split; [apply Z.div_pos; nia|apply Z.div_le_upper_bound; nia]).
  destruct (Z.leb_spec (salary os r) 0) as [Hz|Hp].
  { assert (salary os r * w / 10000 = 0) as -> by lia. by apply Hnone. }
  rewrite Z.quot_div_nonneg, i64_small in H by (nia || (unfold is_i64 in *; lia)).
  apply bind_inv in H as (q & (-> & Hr & _)%cdt_make_inv & H).
  apply (add_owed_inv _ _ _ _ c) in H as (Hw' & Hsame & Ho); [|done..]. cbn [amount] in Ho.
  split; [done|]. split; [done|]. split; [lia|]. intros o. rewrite Ho. destruct (_ =? _); lia.
Qed.

Lemma close_seats_inv c period end_ l : ∀ os os', org_wf os → config os = Some c →
  close_seats self c period end_ os l = Ok os' →
  org_wf os' ∧ same_org os os' ∧ (∀ s, s ∈ l → 0 <= seat_pay os period end_ s) ∧
  ∀ o, owed_to os' o = owed_to os o + zsum (λ s, if o =? worker s then seat_pay os period end_ s else 0) l.
Proof.
  induction l as [|s l IH]; intros os os' Hw Hc; cbn [close_seats].
  { intros [= <-]. split; [done|]. split; [apply same_org_refl|]. split; [by intros s ?%not_elem_of_nil|]. simpl. lia. }
  intros (os1 & H1 & H)%bind_inv. apply close_seat_inv in H1 as (Hw1 & Hsame1 & Hp1 & Ho1); [|done..].
  assert (Hc1 : config os1 = Some c) by (by rewrite (proj1 Hsame1)).
  apply IH in H as (Hw' & Hsame & Hp & Ho); [|done..]. split; [done|]. split; [by eapply same_org_trans|].
  split.
  - intros s' [-> |Hs']%elem_of_cons; [done|]. rewrite <- (seat_pay_same _ _ _ _ _ Hsame1). by apply Hp.
  - intros o. rewrite Ho, Ho1. simpl. rewrite (zsum_ext _ (λ s, if o =? worker s then seat_pay os period end_ s else 0) l); [lia|].
    intros s' _. by rewrite (seat_pay_same _ _ _ _ _ Hsame1).
Qed.

Lemma org_wf_periods os x : org_wf os → org_wf (with_periods os x).
Proof. intros [H1 H2 H3 H4 H5]. by split. Qed.

Lemma closeperiod_inv ctx os period os' : org_wf os → closeperiod self ctx os period = Ok os' →
  org_wf os' ∧ period ∉ periods os ∧ periods os' = {[period]} ∪ periods os ∧ seats os' = seats os ∧
  ∀ o, owed_to os' o = owed_to os o +
    tsum (λ _ s, if o =? worker s then seat_pay os period (period_end_unix period) s else 0) (seats os).
Proof.
  intros Hw. unfold closeperiod, get_config. intros (? & _ & H)%bind_inv.
  destruct (config os) as [c|] eqn:Hc; [|done]. rewrite bind_ok in H. apply bind_inv in H as (? & _ & H).
  apply bind_inv in H as (? & Hn%check_inv%bool_decide_eq_true & H). apply bind_inv in H as (os1 & H1 & [= <-]).
  apply close_seats_inv in H1 as (Hw1 & Hsame & Hp & Ho); [|done..].
  destruct Hsame as (_ & _ & _ & Hseats & _ & Hper). split; [by apply org_wf_periods|]. split; [done|].
  cbn [periods with_periods seats]. rewrite Hper. split; [done|]. split; [done|].
  intros o. change (owed_to (with_periods os1 _) o) with (owed_to os1 o). by rewrite Ho, tsum_rows, zsum_fmap.
Qed.

(** ** Dividing an incoming transfer *)

(** The part of [pool] for an account that is owed [o] of [total]. *)
Definition part ctx (pool total : Z) (kr : Z * asset) : Z :=
  if is_account ctx kr.1 then Z.min (amount kr.2) (pool * amount kr.2 / total) else 0.

Definition pay_row ctx pool total (t : gmap Z asset) (kr : Z * asset) : gmap Z asset :=
  if 0 <? part ctx pool total kr then <[kr.1 := Asset (amount kr.2 - part ctx pool total kr) (sym kr.2)]> t else t.

Lemma part_bounds ctx pool total kr : 0 < pool → 0 < total → 0 <= amount kr.2 <= total →
  0 <= part ctx pool total kr <= amount kr.2 ∧ part ctx pool total kr <= pool * amount kr.2 / total ∧
  0 <= pool * amount kr.2 / total <= pool.
Proof.
  intros Hp Ht Ho. unfold part.
  assert (0 <= pool * amount kr.2 / total) by (apply Z.div_pos; nia).
  assert (pool * amount kr.2 / total <= pool) by (apply Z.div_le_upper_bound; nia).
  destruct (is_account ctx kr.1); lia.
Qed.

(** The loop pays every account its part. *)
Lemma pay_loop_spec ctx pool total rows : 0 < pool <= i64_max → 0 < total <= max_amount →
  (∀ kr, kr ∈ rows → 0 <= amount kr.2 <= total) → ∀ t s, 0 <= s →
  s + zsum (part ctx pool total) rows <= i64_max →
  pay_loop ctx pool total rows t s =
    Ok ((λ kr, (kr.1, part ctx pool total kr)) <$> filter (λ kr, 0 < part ctx pool total kr) rows,
        foldl (pay_row ctx pool total) t rows, s + zsum (part ctx pool total) rows).
Proof.
  intros Hp Ht. unfold max_amount, i64_max in *. induction rows as [|[k o] rows IH]; intros Hrows t s Hs Hsum; cbn [pay_loop].
  { simpl. by rewrite Z.add_0_r. }
  assert (Ho : 0 <= amount o <= total) by (apply (Hrows (k, o)); by left).
  assert (Hrows' : ∀ kr, kr ∈ rows → 0 <= amount kr.2 <= total) by (intros; apply Hrows; by right).
  destruct (part_bounds ctx pool total (k, o) ltac:(lia) ltac:(lia) Ho) as (Hb1 & Hb2 & Hb3). cbn [snd] in *.
  assert (Hrest : 0 <= zsum (part ctx pool total) rows).
  { apply zsum_nonneg. intros kr Hkr.
    destruct (part_bounds ctx pool total kr ltac:(lia) ltac:(lia) (Hrows' _ Hkr)). lia. }
  simpl in Hsum. assert (Hskip : part ctx pool total (k, o) = 0 → pay_loop ctx pool total rows t s =
    Ok ((λ kr, (kr.1, part ctx pool total kr)) <$> filter (λ kr, 0 < part ctx pool total kr) ((k, o) :: rows),
        foldl (pay_row ctx pool total) t ((k, o) :: rows), s + zsum (part ctx pool total) ((k, o) :: rows))).
  { intros Hz. rewrite filter_cons_False by lia. cbn [foldl zsum foldr]. unfold pay_row at 2. rewrite Hz. simpl.
    rewrite IH by (done || lia). done. }
  destruct (Z.leb_spec (amount o) 0) as [Hz|Hpos]; [apply Hskip; lia|].
  rewrite Z.quot_div_nonneg, i64_small by (nia || (unfold is_i64; lia)).
  assert (Hmin : (if amount o <? pool * amount o / total then amount o else pool * amount o / total) =
    Z.min (amount o) (pool * amount o / total)) by (destruct (Z.ltb_spec (amount o) (pool * amount o / total)); lia).
  rewrite Hmin. unfold part at 1 in Hskip. cbn [fst snd] in Hskip.
  destruct (is_account ctx k) eqn:Ea; [|rewrite orb_true_r; by apply Hskip].
  destruct (Z.leb_spec (Z.min (amount o) (pool * amount o / total)) 0); [apply Hskip; lia|]. cbn [orb negb].
  assert (Hpart : part ctx pool total (k, o) = Z.min (amount o) (pool * amount o / total)) by (unfold part; cbn [fst snd]; by rewrite Ea).
  rewrite <- Hpart in *. rewrite !share_ok, !bind_ok by (unfold is_i64; lia).
  rewrite IH by (done || lia). rewrite bind_ok, filter_cons_True by done.
  cbn [fmap list_fmap fst foldl zsum foldr].
  assert (pay_row ctx pool total t (k, o) = <[k := Asset (amount o - part ctx pool total (k, o)) (sym o)]> t) as ->
    by (unfold pay_row; cbn [fst snd]; by rewrite (proj2 (Z.ltb_lt _ _))).
  by rewrite <- Z.add_assoc.
Qed.

(** The rows that the loop leaves. *)
Lemma pay_rows_lookup ctx pool total rows : NoDup rows.*1 → (∀ kr, kr ∈ rows → 0 <= part ctx pool total kr) →
  ∀ t, (∀ kr, kr ∈ rows → t !! kr.1 = Some kr.2) →
  (∀ k, k ∉ rows.*1 → foldl (pay_row ctx pool total) t rows !! k = t !! k) ∧
  (∀ kr, kr ∈ rows → foldl (pay_row ctx pool total) t rows !! kr.1 =
     Some (Asset (amount kr.2 - part ctx pool total kr) (sym kr.2))) ∧
  tsum (λ _ o, amount o) (foldl (pay_row ctx pool total) t rows) =
    tsum (λ _ o, amount o) t - zsum (part ctx pool total) rows.
Proof.
  induction rows as [|[k o] rows IH]; intros Hnd Hp t Ht; cbn [foldl].
  { split; [done|]. split; [by intros kr ?%not_elem_of_nil|]. simpl. lia. }
  cbn [fmap list_fmap fst] in *. apply NoDup_cons in Hnd as [Hk Hnd].
  assert (Hko : t !! k = Some o) by (apply (Ht (k, o)); by left).
  assert (Hp0 : 0 <= part ctx pool total (k, o)) by (apply Hp; by left).
  assert (Ht1k : pay_row ctx pool total t (k, o) !! k = Some (Asset (amount o - part ctx pool total (k, o)) (sym o))).
  { unfold pay_row. cbn [fst snd]. destruct (Z.ltb_spec 0 (part ctx pool total (k, o))); [by rewrite lookup_insert_eq|].
    rewrite Hko. assert (part ctx pool total (k, o) = 0) as -> by lia. rewrite Z.sub_0_r. by destruct o. }
  assert (Ht1 : ∀ k', k' ≠ k → pay_row ctx pool total t (k, o) !! k' = t !! k').
  { intros k' Hne. unfold pay_row. destruct (_ <? _); [|done]. cbn [fst]. by rewrite lookup_insert_ne. }
  destruct (IH Hnd) with (t := pay_row ctx pool total t (k, o)) as (H1 & H2 & H3).
  { intros kr Hkr. apply Hp. by right. }
  { intros kr Hkr. rewrite Ht1; [apply Ht; by right|]. intros E. apply Hk. rewrite <- E. apply list_elem_of_fmap_2, Hkr. }
  split; [|split].
  - intros k' [Hne Hk']%not_elem_of_cons. rewrite H1 by done. by apply Ht1.
  - intros kr [-> |Hkr]%elem_of_cons; [|by apply H2]. cbn [fst snd]. by rewrite H1.
  - rewrite H3. simpl. unfold pay_row. cbn [fst snd].
    destruct (Z.ltb_spec 0 (part ctx pool total (k, o))); [rewrite tsum_insert, Hko; simpl; lia|lia].
Qed.

(** Each part is less than one unit below the exact share. *)
Lemma parts_lower ctx pool total rows : 0 < total → rows ≠ [] → zsum (λ kr, amount kr.2) rows = total →
  (∀ kr, kr ∈ rows → part ctx pool total kr = pool * amount kr.2 / total) →
  pool * total < zsum (λ kr, total * (part ctx pool total kr + 1)) rows.
Proof.
  intros Ht Hne Hsum Hpart. rewrite <- Hsum at 1. rewrite <- zsum_scale. clear Hsum.
  assert (Hrow : ∀ kr, kr ∈ rows → pool * amount kr.2 < total * (part ctx pool total kr + 1)).
  { intros kr Hkr. rewrite Hpart by done. pose proof (Z.mul_succ_div_gt (pool * amount kr.2) total Ht). lia. }
  clear Hpart. induction rows as [|kr rows IH]; [done|]. simpl.
  pose proof (Hrow kr (list_elem_of_here _ _)) as H1. destruct rows as [|kr' rows]; [simpl; lia|].
  assert (H2 : zsum (λ kr, pool * amount kr.2) (kr' :: rows) < zsum (λ kr, total * (part ctx pool total kr + 1)) (kr' :: rows)).
  { apply IH; [done|]. intros x Hx. apply Hrow. by right. }
  lia.
Qed.

(** No more is paid than came in or is owed. *)
Lemma parts_sum ctx pool total rows : 0 < pool → 0 < total → zsum (λ kr, amount kr.2) rows = total →
  (∀ kr, kr ∈ rows → 0 <= amount kr.2 <= total) →
  0 <= zsum (part ctx pool total) rows <= Z.min pool total ∧
  ((∀ kr, kr ∈ rows → 0 < amount kr.2 → is_account ctx kr.1 = true) →
   Z.min pool total - Z.of_nat (length rows) < zsum (part ctx pool total) rows ∧
   (total <= pool → zsum (part ctx pool total) rows = total)).
Proof.
  intros Hp Ht Hsum Hrows.
  assert (Hb := λ kr H, part_bounds ctx pool total kr Hp Ht (Hrows kr H)).
  assert (Hq : total * zsum (λ kr, pool * amount kr.2 / total) rows <= pool * total).
  { rewrite <- Hsum at 2. rewrite <- !zsum_scale. apply zsum_le. intros kr Hkr. apply Z.mul_div_le. lia. }
  assert (Hle1 : zsum (part ctx pool total) rows <= zsum (λ kr, pool * amount kr.2 / total) rows)
    by (apply zsum_le; intros kr Hkr; apply (Hb kr Hkr)).
  assert (Hle2 : zsum (part ctx pool total) rows <= total)
    by (rewrite <- Hsum at 2; apply zsum_le; intros kr Hkr; destruct (Hb kr Hkr); lia).
  assert (Hge : 0 <= zsum (part ctx pool total) rows)
    by (apply zsum_nonneg; intros kr Hkr; destruct (Hb kr Hkr); lia).
  split; [nia|]. intros Hex.
  assert (Hpart : ∀ kr, kr ∈ rows → part ctx pool total kr = Z.min (amount kr.2) (pool * amount kr.2 / total)).
  { intros kr Hkr. unfold part. destruct (Hb kr Hkr) as (? & ? & ?).
    destruct (decide (0 < amount kr.2)); [by rewrite Hex|]. destruct (is_account ctx kr.1); lia. }
  assert (Hfull : total <= pool → zsum (part ctx pool total) rows = total).
  { intros Hle. rewrite <- Hsum at 2. apply zsum_ext. intros kr Hkr. rewrite Hpart by done.
    apply Z.min_l. apply Z.div_le_lower_bound; [lia|]. specialize (Hrows kr Hkr). nia. }
  split; [|done]. destruct (decide (total <= pool)) as [Hle|Hgt].
  { rewrite Hfull by done. destruct rows; [simpl in Hsum; lia|]. simpl length. lia. }
  assert (Hlow : pool * total < zsum (λ kr, total * (part ctx pool total kr + 1)) rows).
  { apply parts_lower; [done|intros ->; simpl in Hsum; lia|done|]. intros kr Hkr. rewrite Hpart by done. apply Z.min_r. apply Z.div_le_upper_bound; [lia|].
    specialize (Hrows kr Hkr). nia. }
  rewrite zsum_scale in Hlow. assert (Hone : zsum (λ kr, part ctx pool total kr + 1) rows = zsum (part ctx pool total) rows + Z.of_nat (length rows)).
  { clear. induction rows; simpl length; simpl zsum; [lia|]. rewrite Nat2Z.inj_succ. simpl in *. lia. }
  nia.
Qed.

(** What an account receives of an incoming amount. *)
Definition share_of ctx os (pool owner : Z) : Z :=
  if is_account ctx owner then Z.min (owed_to os owner) (pool * owed_to os owner / total_owed os) else 0.

Definition sent_total (sent : list (Z * asset)) : Z := zsum (λ p, amount p.2) sent.

Lemma send_all (c : config_row) (l : list (Z * Z)) : sym_is_valid (buck c) = true → (∀ x, x ∈ l → amount_in_range x.2) →
  mapM (λ x : Z * Z, q ← cdt_make x.2 (buck c); Ok (x.1, q)) l = Ok ((λ x, (x.1, Asset x.2 (buck c))) <$> l).
Proof.
  intros Hb Hl. induction l as [|x l IH]; [done|]. cbn [mapM].
  rewrite cdt_make_spec by (done || (apply Hl; by left)). rewrite !bind_ok, IH; [done|]. intros y Hy. apply Hl. by right.
Qed.

Lemma zsum_filter_part ctx pool total rows : (∀ kr, kr ∈ rows → 0 <= part ctx pool total kr) →
  zsum (part ctx pool total) (filter (λ kr, 0 < part ctx pool total kr) rows) = zsum (part ctx pool total) rows.
Proof.
  induction rows as [|kr rows IH]; intros Hp; [done|]. assert (H0 : 0 <= part ctx pool total kr) by (apply Hp; by left).
  assert (IH' := IH (λ x H, Hp x (list_elem_of_further _ _ _ H))).
  destruct (decide (0 < part ctx pool total kr)); [rewrite filter_cons_True by done|rewrite filter_cons_False by done]; simpl; lia.
Qed.

(** What [on_transfer] does with an incoming payment of the currency it owes. *)
Record divided ctx os (q : asset) os' (sent : list (Z * asset)) : Prop := {
  dv_wf : org_wf os';
  dv_owed : ∀ o, owed_to os' o = owed_to os o - share_of ctx os (amount q) o;
  dv_sent : ∀ o a, (o, a) ∈ sent ↔ a = Asset (share_of ctx os (amount q) o) (sym q) ∧ 0 < share_of ctx os (amount q) o;
  dv_once : NoDup sent.*1;
  dv_total : total_owed os' = total_owed os - sent_total sent;
  dv_share : ∀ o, 0 <= share_of ctx os (amount q) o <= owed_to os o;
  dv_sum : 0 <= sent_total sent <= Z.min (amount q) (total_owed os);
  dv_all : (∀ o, 0 < owed_to os o → is_account ctx o = true) →
    Z.min (amount q) (total_owed os) - Z.of_nat (size (org_accounts os)) < sent_total sent ∧
    (total_owed os <= amount q → sent_total sent = total_owed os) }.

Lemma share_of_part ctx os pool o a : org_accounts os !! o = Some a →
  share_of ctx os pool o = part ctx pool (total_owed os) (o, a).
Proof. intros Ho. unfold share_of, part, owed_to. by rewrite Ho. Qed.

Lemma share_of_none ctx os pool o : org_accounts os !! o = None → share_of ctx os pool o = 0.
Proof. intros Ho. unfold share_of, owed_to. rewrite Ho. simpl. rewrite Z.mul_0_r. by destruct (is_account ctx o). Qed.

Lemma sent_parts ctx os q c : org_wf os → 0 < amount q → 0 < total_owed os → sym q = buck c →
  let rows := tbl_rows (org_accounts os) in
  let sent := (λ x, (x.1, Asset x.2 (buck c))) <$> ((λ kr, (kr.1, part ctx (amount q) (total_owed os) kr)) <$>
    filter (λ kr, 0 < part ctx (amount q) (total_owed os) kr) rows) in
  (∀ o a, (o, a) ∈ sent ↔ a = Asset (share_of ctx os (amount q) o) (sym q) ∧ 0 < share_of ctx os (amount q) o) ∧
  NoDup sent.*1 ∧ sent_total sent = zsum (part ctx (amount q) (total_owed os)) rows.
Proof.
  intros Hw Hq Ht Hs rows sent. split; [|split].
  - intros o a. subst sent. rewrite <- list_fmap_compose, list_elem_of_fmap. split.
    + intros ([k x] & [= -> ->] & [Hp Hk]%list_elem_of_filter). apply elem_of_tbl_rows in Hk.
      by rewrite (share_of_part _ _ _ _ _ Hk), Hs.
    + intros [-> Hp]. destruct (org_accounts os !! o) as [x|] eqn:Ho; [|by rewrite share_of_none in Hp].
      exists (o, x). rewrite (share_of_part _ _ _ _ _ Ho) in *. cbn [compose fst snd]. rewrite Hs. split; [done|].
      apply list_elem_of_filter. split; [done|]. by apply elem_of_tbl_rows.
  - subst sent. rewrite <- !list_fmap_compose. apply (sublist_NoDup _ rows.*1); [apply tbl_rows_keys|].
    apply fmap_sublist, sublist_filter.
  - subst sent. unfold sent_total. rewrite !zsum_fmap. cbn [snd amount]. apply zsum_filter_part.
    intros [k x] Hk%elem_of_tbl_rows. destruct (part_bounds ctx (amount q) (total_owed os) (k, x) Hq Ht); [|lia].
    by apply (owed_bound os k).
Qed.

Lemma length_tbl_rows {R} (t : gmap Z R) : length (tbl_rows t) = size t.
Proof. rewrite (Permutation_length (tbl_rows_perm t)). apply length_map_to_list. Qed.

(** The books after the payments. *)
Lemma paid_wf ctx os c st pool t sum : org_wf os → config os = Some c → stat os = Some st →
  (∀ o, 0 <= share_of ctx os pool o <= owed_to os o) →
  (∀ k, t !! k = (λ o, Asset (amount o - share_of ctx os pool k) (sym o)) <$> org_accounts os !! k) →
  tsum (λ _ o, amount o) t = total_owed os - sum → 0 <= sum →
  org_wf (set_st (with_accounts os t)
    (StatRow (Asset (total_owed os - sum) (sym (owed st))) (Asset (amount (paid st) + sum) (sym (paid st))))).
Proof.
  intros Hw Hc Hst Hsh Ht Hsum H0. pose proof (ow_stat _ Hw) as Hsw. unfold stat_wf in Hsw. rewrite Hc, Hst in Hsw.
  destruct Hsw as (Hso & Hsp & Hbv & Htot & Hmax & Hp0).
  split; cbn [config stat org_accounts roles seats reviews set_st with_accounts];
    [|intros o a|apply (ow_roles _ Hw)|apply (ow_seats _ Hw)|apply (ow_ratings _ Hw)].
  - unfold stat_wf, total_owed. cbn [config stat org_accounts set_st with_accounts]. rewrite Hc. cbn [owed paid amount sym].
    unfold total_owed in *. repeat split; try done; lia.
  - rewrite Ht. intros (x & Hx & ->)%fmap_Some_1. destruct (ow_rows _ Hw _ _ Hx) as [Hx0 Hxs].
    specialize (Hsh o). unfold owed_to in Hsh. rewrite Hx in Hsh. cbn [amount sym from_option] in *. split; [lia|].
    intros Hpos c' Hc'. apply Hxs; [lia|done].
Qed.

(** The payments, the accounts and the sum of a divided transfer. *)
Definition paid_sum ctx os (pool : Z) : Z := zsum (part ctx pool (total_owed os)) (tbl_rows (org_accounts os)).
Definition paid_accounts ctx os (pool : Z) : gmap Z asset :=
  foldl (pay_row ctx pool (total_owed os)) (org_accounts os) (tbl_rows (org_accounts os)).
Definition paid_list ctx os (pool symbol : Z) : list (Z * asset) :=
  (λ x, (x.1, Asset x.2 symbol)) <$> ((λ kr, (kr.1, part ctx pool (total_owed os) kr)) <$>
    filter (λ kr, 0 < part ctx pool (total_owed os) kr) (tbl_rows (org_accounts os))).

Lemma row_bounds os kr : org_wf os → kr ∈ tbl_rows (org_accounts os) → 0 <= amount kr.2 <= total_owed os.
Proof. destruct kr as [k o]. intros Hw Ho%elem_of_tbl_rows. by apply (owed_bound os k). Qed.

Lemma rows_total os : zsum (λ kr, amount kr.2) (tbl_rows (org_accounts os)) = total_owed os.
Proof. unfold total_owed. by rewrite tsum_rows. Qed.

(** A payment in the currency of the contract is divided; only the lifetime total can overflow. *)
Lemma on_transfer_value ctx os c st from q : org_wf os → config os = Some c → stat os = Some st → from ≠ self →
  sym q = buck c → 0 < amount q <= i64_max → 0 < amount (owed st) →
  on_transfer self ctx os (buck_contract c) from self q =
    (p ← share (amount (paid st) + paid_sum ctx os (amount q));
     Ok (set_st (with_accounts os (paid_accounts ctx os (amount q)))
           (StatRow (Asset (total_owed os - paid_sum ctx os (amount q)) (sym (owed st))) (Asset p (sym (paid st)))),
         paid_list ctx os (amount q) (buck c))).
Proof.
  intros Hw Hc Hst Hne Hs Hq Howed. pose proof (ow_stat _ Hw) as Hsw. unfold stat_wf in Hsw. rewrite Hc, Hst in Hsw.
  destruct Hsw as (Hso & Hsp & Hbv & Htot & Hmax & Hp0). rewrite Htot in *.
  assert (Hrows := λ kr, row_bounds os kr Hw).
  destruct (parts_sum ctx (amount q) (total_owed os) (tbl_rows (org_accounts os)) ltac:(lia) ltac:(lia) (rows_total os) Hrows) as [Hps _].
  unfold on_transfer. rewrite Z.eqb_refl, (proj2 (Z.eqb_neq from self) Hne), Hc. cbn [negb orb].
  rewrite Hs, !Z.eqb_refl. cbn [negb orb]. rewrite check_bind by (apply Z.ltb_lt; lia).
  unfold get_stat. rewrite Hst, bind_ok, Htot, (proj2 (Z.leb_gt _ _)) by lia.
  unfold i64_max, max_amount in *. rewrite pay_loop_spec by (unfold i64_max, max_amount; done || lia).
  rewrite bind_ok, Z.add_0_l. fold (paid_sum ctx os (amount q)) in *. fold (paid_accounts ctx os (amount q)).
  rewrite (share_ok (total_owed os - _)), bind_ok by (unfold is_i64; lia). destruct (share (amount (paid st) + _)); [|done].
  rewrite !bind_ok, send_all; [done|done|].
  intros x ([k o] & -> & [_ Hk]%list_elem_of_filter)%list_elem_of_fmap. cbn [snd].
  destruct (part_bounds ctx (amount q) (total_owed os) (k, o) ltac:(lia) ltac:(lia) (Hrows _ Hk)) as [Hb _].
  specialize (Hrows _ Hk). unfold amount_in_range, max_amount. cbn [snd] in *. lia.
Qed.

(** The rows after the payments. *)
Lemma paid_accounts_lookup ctx os pool : org_wf os → 0 < pool → 0 < total_owed os →
  (∀ o, 0 <= share_of ctx os pool o <= owed_to os o) ∧
  (∀ k, paid_accounts ctx os pool !! k =
     (λ o, Asset (amount o - share_of ctx os pool k) (sym o)) <$> org_accounts os !! k) ∧
  tsum (λ _ o, amount o) (paid_accounts ctx os pool) = total_owed os - paid_sum ctx os pool.
Proof.
  intros Hw Hp Ht.
  assert (Hb : ∀ kr, kr ∈ tbl_rows (org_accounts os) → 0 <= part ctx pool (total_owed os) kr <= amount kr.2).
  { intros kr Hkr. by destruct (part_bounds ctx pool (total_owed os) kr Hp Ht (row_bounds os kr Hw Hkr)). }
  destruct (pay_rows_lookup ctx pool (total_owed os) (tbl_rows (org_accounts os)) (tbl_rows_keys _)
    (λ kr H, proj1 (Hb kr H)) (org_accounts os)) as (Hout & Hrow & Htsum).
  { intros [k o] Ho. by apply elem_of_tbl_rows. }
  split; [|split; [|done]].
  - intros o. destruct (org_accounts os !! o) as [x|] eqn:Ex; [|rewrite share_of_none by done; unfold owed_to; rewrite Ex; simpl; lia].
    rewrite (share_of_part _ _ _ _ _ Ex). unfold owed_to. rewrite Ex. apply (Hb (o, x)). by apply elem_of_tbl_rows.
  - intros k. destruct (org_accounts os !! k) as [o|] eqn:Ek.
    + rewrite (share_of_part _ _ _ _ _ Ek). apply (Hrow (k, o)). by apply elem_of_tbl_rows.
    + unfold paid_accounts. rewrite Hout, Ek; [done|]. intros ([k' o] & -> & Hk)%list_elem_of_fmap.
      apply elem_of_tbl_rows in Hk. simpl in Ek. congruence.
Qed.

Lemma paid_divided ctx os c st q : org_wf os → config os = Some c → stat os = Some st →
  sym q = buck c → 0 < amount q → 0 < amount (owed st) →
  divided ctx os q (set_st (with_accounts os (paid_accounts ctx os (amount q)))
      (StatRow (Asset (total_owed os - paid_sum ctx os (amount q)) (sym (owed st)))
               (Asset (amount (paid st) + paid_sum ctx os (amount q)) (sym (paid st)))))
    (paid_list ctx os (amount q) (buck c)).
Proof.
  intros Hw Hc Hst Hs Hq Howed. pose proof (ow_stat _ Hw) as Hsw. unfold stat_wf in Hsw. rewrite Hc, Hst in Hsw.
  destruct Hsw as (_ & _ & _ & Htot & _). rewrite Htot in Howed.
  destruct (parts_sum ctx (amount q) (total_owed os) (tbl_rows (org_accounts os)) Hq Howed (rows_total os)
    (λ kr, row_bounds os kr Hw)) as [Hps Hall].
  destruct (sent_parts ctx os q c Hw Hq Howed Hs) as (Hsent & Hnd & Hst'). cbv zeta in Hsent, Hnd, Hst'.
  destruct (paid_accounts_lookup ctx os (amount q) Hw Hq Howed) as (Hsh & Hlook & Htsum).
  fold (paid_list ctx os (amount q) (buck c)) in *. fold (paid_sum ctx os (amount q)) in *.
  split; [| |done|done|by rewrite Hst'|done|by rewrite Hst'|].
  - apply (paid_wf ctx os c st (amount q)); [done..|lia].
  - intros o. unfold owed_to at 1. cbn [org_accounts set_st with_accounts]. rewrite Hlook. unfold owed_to.
    destruct (org_accounts os !! o) as [x|] eqn:Ex; [done|]. simpl. rewrite share_of_none by done. done.
  - intros Hex. rewrite Hst'. destruct Hall as [Hlow Hfull].
    + intros [k o] Hk%elem_of_tbl_rows Hpos. apply Hex. unfold owed_to. cbn [fst snd] in *. by rewrite Hk.
    + rewrite (length_tbl_rows (org_accounts os)) in Hlow. done.
Qed.

End OrgTheory.
