(* ===== verification/OrgActions.v ===== *)
(** * The backpay contract: every action keeps its books

    The actions of [ra.org] as one step relation, the invariant of every reachable state, and
    the composition with the token contract: an incoming transfer, its division, and the
    transfers that pay the workers. *)

From S2P Require Import Prelude Names Assets AssetsTheory Authority Contract Token TokenTheory Org OrgTheory.
From stdpp Require Import gmap.
Open Scope Z_scope.

Section OrgActions.
Context {cdt : CdtAsset} {avail : AvailableKey}.
Context (self : Z).
Implicit Types (ctx : action_ctx) (os : org_state).

(** ** The actions, and the notification of a transfer *)

Inductive org_action : Type :=
| OSetConfig (buck_contract buck : Z)
| OAddAdmin (account : Z)
| ORmAdmin (account : Z)
| OAddRole (kpi_name : std_string) (kpi_type : Z) (base bucket : asset) (boost review_role : Z)
| OEditRole (role_id : Z) (kpi_name : std_string) (kpi_type : Z) (base bucket : asset) (boost review_role : Z)
| OGrantRole (role_id worker : Z)
| ORevokeRole (role_id worker : Z)
| OReview (reviewer period role_id worker rating : Z) (proof : std_string)
| OClosePeriod (period : Z)
| OTransfer (first_receiver from to : Z) (quantity : asset).

(** The arguments have the types of the action. *)
Definition typed (a : org_action) : Prop :=
  match a with
  | OAddRole _ _ _ _ b _ | OEditRole _ _ _ _ _ b _ => 0 <= b
  | OReview _ _ _ _ r _ => 0 <= r
  | OTransfer _ _ _ q => is_i64 (amount q)
  | _ => True
  end.

Definition org_run ctx os (a : org_action) : result (org_state * list (Z * asset)) :=
  let quiet m := os ← m; Ok (os, []) in
  match a with
  | OSetConfig bc b => quiet (setconfig self ctx os bc b)
  | OAddAdmin a => quiet (addadmin self ctx os a)
  | ORmAdmin a => quiet (rmadmin self ctx os a)
  | OAddRole n t b k x r => quiet (addrole self ctx os n t b k x r)
  | OEditRole i n t b k x r => quiet (editrole self ctx os i n t b k x r)
  | OGrantRole r w => quiet (grantrole self ctx os r w)
  | ORevokeRole r w => quiet (revokerole self ctx os r w)
  | OReview v p r w x f => quiet (review self ctx os v p r w x f)
  | OClosePeriod p => quiet (closeperiod self ctx os p)
  | OTransfer fr f t q => on_transfer self ctx os fr f t q
  end.

Inductive org_reachable : org_state → Prop :=
| or_init : org_reachable org_init
| or_step ctx os a os' sent : org_reachable os → typed a → org_run ctx os a = Ok (os', sent) → org_reachable os'.

(** ** Each action keeps the books *)

Lemma org_init_wf : org_wf org_init.
Proof. by split. Qed.

Lemma total_zero os : org_wf os → total_owed os = 0 → ∀ o a, org_accounts os !! o = Some a → amount a = 0.
Proof. intros Hw Hz o a Ha. pose proof (owed_bound os o a Hw Ha). lia. Qed.

Lemma setconfig_wf ctx os bc b os' : org_wf os → setconfig self ctx os bc b = Ok os' → org_wf os'.
Proof.
  intros Hw H. unfold setconfig in H. do 2 apply bind_inv in H as (? & _ & H).
  apply bind_inv in H as (? & Hv%check_inv & H). apply bind_inv in H as (? & Hz & H).
  apply bind_inv in H as (o & (-> & Hro & _)%cdt_make_inv & H). apply bind_inv in H as (p & (-> & Hrp & _)%cdt_make_inv & [= <-]).
  pose proof (ow_stat _ Hw) as Hs. unfold stat_wf in Hs. cbn [stat set_cfg] in *.
  assert (Hkeep : buck (default default_config (config os)) = b ∨ total_owed os = 0).
  { destruct (config os) as [c|], (stat os) as [st|] eqn:Est; try done; [|right; unfold total_owed; by rewrite Hs].
    destruct Hs as (_ & _ & Hbv & Ht & _). cbn [default from_option] in *. unfold id in *. rewrite Hbv in Hz.
    destruct (Z.eqb_spec (buck c) b); [by left|right]. simpl in Hz. unfold get_stat in Hz. rewrite Est, bind_ok in Hz.
    apply check_inv, Z.eqb_eq in Hz. congruence. }
  pose proof (total_owed_nonneg _ Hw) as Hnn.
  split; cbn [config stat org_accounts roles seats reviews set_st set_cfg];
    [|intros o a Ho|apply (ow_roles _ Hw)|apply (ow_seats _ Hw)|apply (ow_ratings _ Hw)].
  - unfold stat_wf. cbn [config stat set_st set_cfg owed paid buck amount sym]. change (total_owed (set_st _ _)) with (total_owed os).
    split; [done|]. split; [done|]. split; [done|]. unfold amount_in_range in Hro. split; [|split; [lia|]].
    + destruct (config os) as [c|], (stat os) as [st|]; try done; cbn [default from_option] in *; unfold id in *.
      * destruct Hs as (Hso & _ & _ & Ht & _). rewrite Hso. destruct (Z.eqb_spec (buck c) b); [done|]. destruct Hkeep; [done|lia].
      * cbn [default_stat owed amount sym]. unfold total_owed. rewrite Hs, tsum_empty. by rewrite if_same.
    + destruct (config os) as [c|], (stat os) as [st|]; try done; cbn [default from_option]; unfold id.
      * destruct Hs as (_ & _ & _ & _ & _ & Hp). by destruct (sym (paid st) =? b).
      * cbn [default_stat paid amount sym]. by rewrite if_same.
  - destruct (ow_rows _ Hw _ _ Ho) as [H0 Hb]. split; [done|]. intros Hpos c' [= <-]. cbn [buck].
    destruct Hkeep as [Hk|Hz']; [|by rewrite (total_zero _ Hw Hz' _ _ Ho) in Hpos].
    destruct (config os) as [c|] eqn:Ec; [rewrite <- Hk; by apply Hb|].
    destruct (stat os); [done|]. rewrite Hs in Ho. by rewrite lookup_empty in Ho.
Qed.

Lemma write_role_inv os id n t b k x r bk row : write_role os id n t b k x r bk = Ok row → 0 <= x → role_wf id row.
Proof.
  intros H Hx. unfold write_role, check_salary in H. do 2 apply bind_inv in H as (? & _ & H).
  apply bind_inv in H as (? & Hb & H). apply bind_inv in Hb as (? & [Hb1 _]%check_inv%cdt_is_valid_spec & Hb).
  apply bind_inv in Hb as (? & _ & Hb2%check_inv%Z.leb_le).
  apply bind_inv in H as (? & Hk & H). apply bind_inv in Hk as (? & [Hk1 _]%check_inv%cdt_is_valid_spec & Hk).
  apply bind_inv in Hk as (? & _ & Hk2%check_inv%Z.leb_le).
  apply bind_inv in H as (? & Hm%check_inv%Z.leb_le & H). apply bind_inv in H as (? & _ & [= <-]).
  unfold amount_in_range in *. split; cbn [role_id base_salary bucket_salary boost]; lia.
Qed.

(** The books do not depend on the counters, the admins and the seats beyond the roles they name. *)
Lemma org_wf_roles os c c' t : org_wf os → config os = Some c → buck c' = buck c →
  (∀ id r, t !! id = Some r → role_wf id r) → (∀ id, is_Some (roles os !! id) → is_Some (t !! id)) →
  org_wf (set_cfg (with_roles os t) c').
Proof.
  intros [H1 H2 H3 H4 H5] Hc Hb Ht Hs. split; cbn [config stat org_accounts roles seats reviews with_roles set_cfg].
  - unfold stat_wf, total_owed in *. cbn [config stat org_accounts with_roles set_cfg]. rewrite Hc in H1. rewrite Hb. done.
  - intros o a Ha. destruct (H2 o a Ha) as [? Hp]. split; [done|]. intros Hpos c'' [= <-]. rewrite Hb. by apply Hp.
  - done.
  - intros id s Hse. apply Hs. by apply (H4 id).
  - done.
Qed.

Lemma set_cfg_id os c : config os = Some c → set_cfg os c = os.
Proof. destruct os. simpl. by intros ->. Qed.

Lemma addrole_wf ctx os n t b k x r os' : org_wf os → 0 <= x → addrole self ctx os n t b k x r = Ok os' → org_wf os'.
Proof.
  intros Hw Hx H. unfold addrole, get_config in H. apply bind_inv in H as (? & _ & H).
  destruct (config os) as [c|] eqn:Ec; [|done]. rewrite bind_ok in H. apply bind_inv in H as (row & Hrow%write_role_inv & H); [|done].
  apply bind_inv in H as (tb & [Hn ->]%tbl_emplace_inv & [= <-]). apply (org_wf_roles os c); [done|done|done|..].
  - intros id r'. destruct (decide (role_id row = id)) as [<- |Hne].
    + rewrite lookup_insert_eq. intros [= <-]. by rewrite (rw_id _ _ Hrow).
    + rewrite lookup_insert_ne by done. apply (ow_roles _ Hw).
  - intros id Hid. destruct (decide (role_id row = id)) as [<- |Hne]; [by rewrite lookup_insert_eq|by rewrite lookup_insert_ne].
Qed.

Lemma editrole_wf ctx os i n t b k x r os' : org_wf os → 0 <= x → editrole self ctx os i n t b k x r = Ok os' → org_wf os'.
Proof.
  intros Hw Hx H. unfold editrole, get_config in H. apply bind_inv in H as (? & _ & H).
  destruct (config os) as [c|] eqn:Ec; [|done]. rewrite bind_ok in H. apply bind_inv in H as (old & Ho%tbl_get_inv & H).
  apply bind_inv in H as (row & Hrow%write_role_inv & [= <-]); [|done]. rewrite (rw_id _ _ (ow_roles _ Hw _ _ Ho)) in Hrow.
  rewrite <- (set_cfg_id (with_roles os _) c) by done. apply (org_wf_roles os c); [done|done|done|..].
  - intros id r'. destruct (decide (i = id)) as [<- |Hne].
    + rewrite lookup_insert_eq. by intros [= <-].
    + rewrite lookup_insert_ne by done. apply (ow_roles _ Hw).
  - intros id Hid. destruct (decide (i = id)) as [<- |Hne]; [by rewrite lookup_insert_eq|by rewrite lookup_insert_ne].
Qed.

Lemma org_wf_seats os c c' t : org_wf os → config os = Some c → buck c' = buck c →
  (∀ id s, t !! id = Some s → is_Some (roles os !! seat_role s)) → org_wf (set_cfg (with_seats os t) c').
Proof.
  intros [H1 H2 H3 H4 H5] Hc Hb Ht. split; cbn [config stat org_accounts roles seats reviews with_seats set_cfg]; try done.
  - unfold stat_wf, total_owed in *. cbn [config stat org_accounts with_seats set_cfg]. rewrite Hc in H1. rewrite Hb. done.
  - intros o a Ha. destruct (H2 o a Ha) as [? Hp]. split; [done|]. intros Hpos c'' [= <-]. rewrite Hb. by apply Hp.
Qed.

Lemma grantrole_wf ctx os r w os' : org_wf os → grantrole self ctx os r w = Ok os' → org_wf os'.
Proof.
  intros Hw H. unfold grantrole, get_config in H. do 2 apply bind_inv in H as (? & _ & H).
  destruct (config os) as [c|] eqn:Ec; [|done]. rewrite bind_ok in H. apply bind_inv in H as (row & Hr%tbl_get_inv & H).
  apply bind_inv in H as (? & _ & H). apply bind_inv in H as (t & [_ ->]%tbl_emplace_inv & [= <-]).
  apply (org_wf_seats os c); [done|done|done|]. intros id s. destruct (decide (next_seat_id c = id)) as [<- |Hne].
  - rewrite lookup_insert_eq. intros [= <-]. by exists row.
  - rewrite lookup_insert_ne by done. apply (ow_seats _ Hw).
Qed.

Lemma revokerole_wf ctx os r w os' : org_wf os → revokerole self ctx os r w = Ok os' → org_wf os'.
Proof.
  intros Hw H. unfold revokerole in H. apply bind_inv in H as (? & _ & H). destruct (find _ _) as [[id s]|]; [|done].
  injection H as <-. destruct Hw as [H1 H2 H3 H4 H5]. split; try done. cbn [seats with_seats roles].
  intros id' s' Hs. apply lookup_delete_Some in Hs as [_ Hs]. by apply (H4 id').
Qed.

Lemma review_wf ctx os v p r w x f os' : org_wf os → 0 <= x → review self ctx os v p r w x f = Ok os' → org_wf os'.
Proof.
  intros Hw Hx H. unfold review in H. do 2 apply bind_inv in H as (? & _ & H). apply bind_inv in H as (? & Hr%check_inv%Z.leb_le & H).
  do 9 apply bind_inv in H as (? & _ & H). set (tb := default ∅ (reviews os !! p)) in H.
  assert (Hold : ∀ id r, tb !! id = Some r → 0 <= rating r <= RATING_MAX).
  { intros id r0. unfold tb. destruct (reviews os !! p) as [t|] eqn:E; simpl; [|by rewrite lookup_empty].
    by apply (ow_ratings _ Hw p). }
  assert (Hnew : ∀ id row, rating row = x → org_wf (with_reviews os (<[p := <[id := row]> tb]> (reviews os)))).
  { intros id row Hrow. destruct Hw as [H1 H2 H3 H4 H5]. split; try done. cbn [reviews with_reviews].
    intros p' t' id' r' Ht Hr'. destruct (decide (p = p')) as [<- |Hne]; [|rewrite lookup_insert_ne in Ht by done; by apply (H5 p' t' id')].
    rewrite lookup_insert_eq in Ht. injection Ht as <-. destruct (decide (id = id')) as [<- |Hne].
    - rewrite lookup_insert_eq in Hr'. injection Hr' as <-. lia.
    - rewrite lookup_insert_ne in Hr' by done. by apply (Hold id'). }
  destruct (find _ _) as [[id row]|]; [injection H as <-; by apply Hnew|].
  apply bind_inv in H as (t & [_ ->]%tbl_emplace_inv & [= <-]). by apply Hnew.
Qed.

Lemma on_transfer_wf ctx os fr f t q os' sent : org_wf os → is_i64 (amount q) →
  on_transfer self ctx os fr f t q = Ok (os', sent) → org_wf os'.
Proof.
  intros Hw Hq H. destruct (Z.eqb_spec t self) as [-> |]; [|unfold on_transfer in H; rewrite (proj2 (Z.eqb_neq _ _)) in H by done; by injection H as <- _].
  destruct (Z.eqb_spec f self) as [-> |Hf]; [unfold on_transfer in H; rewrite Z.eqb_refl in H; by injection H as <- _|].
  pose proof H as H'. unfold on_transfer in H. rewrite Z.eqb_refl, (proj2 (Z.eqb_neq f self) Hf) in H. cbn [negb orb] in H.
  destruct (config os) as [c|] eqn:Ec; [|by injection H as <- _].
  destruct (Z.eqb_spec fr (buck_contract c)) as [-> |]; [|by injection H as <- _].
  destruct (Z.eqb_spec (sym q) (buck c)) as [Hs|]; [|by injection H as <- _]. cbn [negb orb] in H.
  apply bind_inv in H as (? & Hpos%check_inv%Z.ltb_lt & H). unfold get_stat in H.
  destruct (stat os) as [st|] eqn:Est; [|done]. rewrite bind_ok in H.
  destruct (Z.leb_spec (amount (owed st)) 0); [by injection H as <- _|]. clear H.
  rewrite (on_transfer_value self ctx os c st f q) in H' by (done || (unfold is_i64, i64_max in *; lia)).
  apply bind_inv in H' as (p & [-> _]%share_inv & [= <- <-]). exact (dv_wf _ _ _ _ _ (paid_divided ctx os c st q Hw Ec Est Hs Hpos ltac:(done))).
Qed.

Lemma org_run_wf ctx os a os' sent : org_wf os → typed a → org_run ctx os a = Ok (os', sent) → org_wf os'.
Proof.
  intros Hw Ht. destruct a; cbn [org_run typed] in *; [..|by apply on_transfer_wf];
    intros (x & Hx & [= <- _])%bind_inv; revert Hx.
  - by apply setconfig_wf.
  - unfold addadmin. intros H. do 4 apply bind_inv in H as (? & _ & H). injection H as <-. by destruct Hw; split.
  - unfold rmadmin. intros H. do 2 apply bind_inv in H as (? & _ & H). injection H as <-. by destruct Hw; split.
  - by apply addrole_wf.
  - by apply editrole_wf.
  - by apply grantrole_wf.
  - by apply revokerole_wf.
  - by apply review_wf.
  - intros H. by apply closeperiod_inv in H as [? _].
Qed.

Lemma org_reachable_wf os : org_reachable os → org_wf os.
Proof. induction 1; [apply org_init_wf|by eapply org_run_wf]. Qed.

(** ** The properties of the books *)

(** C28: in every reachable state of [ra.org] the backpay of all workers adds up to the total that the contract
    records, no worker is owed a negative amount, and whatever is owed is owed in the
    configured currency. *)
Theorem backpay_books_balance os : org_reachable os →
  (∀ c, config os = Some c → ∃ st, stat os = Some st ∧ amount (owed st) = total_owed os ∧
     sym (owed st) = buck c ∧ 0 <= total_owed os <= max_amount ∧ 0 <= amount (paid st)) ∧
  (∀ owner o, org_accounts os !! owner = Some o → 0 <= amount o ∧
     (0 < amount o → ∃ c, config os = Some c ∧ sym o = buck c)).
Proof.
  intros Hw%org_reachable_wf. pose proof (ow_stat _ Hw) as Hs. unfold stat_wf in Hs. split.
  - intros c Hc. rewrite Hc in Hs. destruct (stat os) as [st|]; [|done]. destruct Hs as (? & ? & ? & Ht & ? & ?).
    exists st. pose proof (total_owed_nonneg _ Hw). split_and!; try done; lia.
  - intros owner o Ho. destruct (ow_rows _ Hw _ _ Ho) as [H0 Hb]. split; [done|]. intros Hpos.
    destruct (config os) as [c|]; [exists c; split; [done|by apply Hb]|].
    destruct (stat os); [done|]. rewrite Hs, lookup_empty in Ho. done.
Qed.

(** Closing a month adds to the backpay of every worker the pay of each of the worker's seats, and nothing else:
    the pay is between one and a hundred percent of the salary, is zero without a rating by the worker
    and by a manager, and a closed month can not be closed again. *)
Theorem closeperiod_correct ctx os period os' : org_wf os → closeperiod self ctx os period = Ok os' →
  let pay := seat_pay self os period (period_end_unix period) in
  org_wf os' ∧ (∀ o, owed_to os' o = owed_to os o + tsum (λ _ s, if o =? worker s then pay s else 0) (seats os)) ∧
  (∀ id s r, seats os !! id = Some s → roles os !! seat_role s = Some r → 0 <= salary os r →
     0 <= pay s <= salary os r ∧
     (0 < pay s → 0 <= self_rating (seat_ratings os period s) ∧ 0 < mgr_n (seat_ratings os period s) ∧ salary os r / 100 <= pay s)) ∧
  (∀ ctx', ∃ e, closeperiod self ctx' os' period = Err e).
Proof.
  intros Hw H pay. destruct (closeperiod_inv self ctx os period os' Hw H) as (Hw' & Hn & Hp & _ & Ho).
  split; [done|]. split; [exact Ho|]. split.
  - intros id s r Hs Hr Hsal. by apply seat_pay_bounds.
  - intros ctx'. unfold closeperiod. destruct (check_period period); [|by eexists]. rewrite bind_ok.
    destruct (get_config os'); [|by eexists]. rewrite bind_ok. destruct (check (_ <=? _) _); [|by eexists].
    rewrite bind_ok, bool_decide_eq_false_2; [by eexists|]. rewrite Hp. set_solver.
Qed.

(** ** Rows of a currency that is no longer configured *)

Lemma add_owed_other os owner q os' w : add_owed os owner q = Ok os' → w ≠ owner → org_accounts os' !! w = org_accounts os !! w.
Proof.
  unfold add_owed. destruct (_ <=? _); [by intros [= <-]|]. intros (t & Ht & H)%bind_inv Hne.
  apply bind_inv in H as (st & _ & H). apply bind_inv in H as (o & _ & [= <-]). cbn [org_accounts set_st with_accounts].
  destruct (org_accounts os !! owner); [apply bind_inv in Ht as (? & _ & [= <-])|apply tbl_emplace_inv in Ht as [_ ->]];
    by rewrite lookup_insert_ne.
Qed.

(** A worker's row in another currency refuses any amount. *)
Lemma add_owed_stale os owner q o : org_wf os → org_accounts os !! owner = Some o → sym o ≠ sym q → 0 < amount q →
  amount_in_range (amount q) → total_owed os <= max_amount → ∃ e, add_owed os owner q = Err e.
Proof.
  intros Hw Ho Hs Hq Hr Hm. unfold add_owed. rewrite (proj2 (Z.leb_gt _ _)) by lia. rewrite Ho.
  destruct (cdt_add o q) as [o'|e] eqn:E; [|by exists e]. pose proof (owed_bound os owner o Hw Ho).
  apply cdt_add_inv in E as [? _]; [done|unfold amount_in_range; lia|done].
Qed.

Lemma close_seat_stale c period end_ os s w o os' : org_wf os → config os = Some c → org_accounts os !! w = Some o →
  sym o ≠ buck c → total_owed os <= max_amount → close_seat self c period end_ os s = Ok os' →
  org_accounts os' !! w = Some o ∧ (worker s = w → seat_pay self os period end_ s <= 0).
Proof.
  intros Hw Hc Ho Hs Hm. unfold close_seat, seat_pay. destruct (_ <=? _); [by intros [= <-]|].
  unfold tbl_get. destruct (roles os !! seat_role s) as [r|] eqn:Er; [|done]. rewrite bind_ok.
  destruct (review_weight _ _ _ _ _) as [wt|] eqn:Ew; [|by intros [= <-]].
  destruct (review_weight_bounds self _ _ _ _ _ (seat_ratings_ok os period s Hw) Ew) as ((Hw1 & Hw2) & _). unfold GUARANTEED_BPS in Hw1.
  intros (st & (-> & Hs0 & Hsi)%(start_salary_inv _ _ _ _ (ow_roles _ Hw _ _ Er)) & H)%bind_inv.
  assert (Hd : 0 <= salary os r * wt / 10000 <= salary os r)
    by (split; [apply Z.div_pos; nia|apply Z.div_le_upper_bound; nia]).
  destruct (Z.leb_spec (salary os r) 0); [injection H as <-; split; [done|lia]|].
  rewrite Z.quot_div_nonneg, i64_small in H by (nia || (unfold is_i64 in *; lia)).
  apply bind_inv in H as (q & (-> & Hr & _)%cdt_make_inv & H).
  destruct (decide (worker s = w)) as [<- |Hne]; [|by rewrite (add_owed_other _ _ _ _ _ H)].
  destruct (decide (0 < salary os r * wt / 10000)) as [Hp|Hp].
  - by destruct (add_owed_stale os (worker s) (Asset (salary os r * wt / 10000) (buck c)) o) as [e He]; [..|congruence].
  - unfold add_owed in H. cbn [amount] in H. rewrite (proj2 (Z.leb_le _ _)) in H by lia. injection H as <-. split; [done|lia].
Qed.

(** After the currency was changed, a worker who was paid in the old one keeps a row of zero in it. As long as
    the worker has a seat that earns something, no month can be closed. *)
Lemma stale_row_blocks_closing ctx os c period id s o : org_wf os → config os = Some c → seats os !! id = Some s →
  org_accounts os !! worker s = Some o → sym o ≠ buck c → 0 < seat_pay self os period (period_end_unix period) s →
  ∃ e, closeperiod self ctx os period = Err e.
Proof.
  intros Hw Hc Hseat Ho Hs Hp. assert (Hin : s ∈ (tbl_rows (seats os)).*2).
  { apply (list_elem_of_fmap_2 snd (tbl_rows (seats os)) (id, s)). by apply elem_of_tbl_rows. }
  assert (Hloop : ∃ e, close_seats self c period (period_end_unix period) os (tbl_rows (seats os)).*2 = Err e).
  { revert Hin. generalize (tbl_rows (seats os)).*2. intros l. revert Hw Hc Ho Hp. clear Hseat. revert os.
    induction l as [|s' l IH]; intros os Hw Hc Ho Hp Hin; [by apply not_elem_of_nil in Hin|]. cbn [close_seats].
    destruct (close_seat self c period _ os s') as [os1|e] eqn:E; [|by exists e]. rewrite bind_ok.
    assert (Hm : total_owed os <= max_amount).
    { pose proof (ow_stat _ Hw) as Hsw. unfold stat_wf in Hsw. rewrite Hc in Hsw. destruct (stat os); [lia|done]. }
    destruct (close_seat_stale _ _ _ _ _ _ _ _ Hw Hc Ho Hs Hm E) as [Ho1 Hz].
    apply close_seat_inv in E as (Hw1 & Hsame & _); [|done..].
    apply elem_of_cons in Hin as [<- |Hin]; [lia|]. apply IH; [done|by rewrite (proj1 Hsame)|done| |done].
    by rewrite (seat_pay_same self _ _ _ _ _ Hsame). }
  destruct Hloop as [e He]. unfold closeperiod. destruct (check_period period); [|by eexists]. rewrite bind_ok.
  unfold get_config. rewrite Hc, bind_ok. destruct (check (_ <=? _) _); [|by eexists]. rewrite bind_ok.
  destruct (check (bool_decide _) _); [|by eexists]. rewrite bind_ok, He. by exists e.
Qed.

(** ** With the token contract *)

Section WithToken.
Context (tok : Z).   (* the account of the token contract *)

(** The transfers that [ra.org] sends, each with its own authority, executed by the token contract,
    which notifies the sender. *)
Fixpoint send_backpay ctx os (ts : token_state) (sent : list (Z * asset)) : result (token_state * org_state) :=
  match sent with
  | [] => Ok (ts, os)
  | (o, a) :: sent =>
    ts ← transfer ctx ts self o a (chars "backpay");
    '(os, _) ← on_transfer self ctx os tok self o a;
    send_backpay ctx os ts sent
  end.

Definition self_ctx ctx : action_ctx := ActionCtx [PermissionLevel self (name_of "active")] (existing ctx) (now ctx).

(** A transfer to [ra.org]: the token contract moves the tokens and notifies the receiver; what
    the receiver sends is executed after it. *)
Definition transfer_to_org ctx os (ts : token_state) (from : Z) (q : asset) (memo : std_string) : result (token_state * org_state) :=
  ts ← transfer ctx ts from self q memo;
  '(os, sent) ← on_transfer self ctx os tok from self q;
  send_backpay (self_ctx ctx) os ts sent.

Lemma on_transfer_own ctx os fr o q : on_transfer self ctx os fr self o q = Ok (os, []).
Proof. unfold on_transfer. rewrite Z.eqb_refl. by rewrite orb_true_r. Qed.

(** Payments that the balance covers all go through. *)
Lemma send_backpay_ok ctx os sent : ∀ ts s code st, token_wf ts → has_auth ctx self = true → s = sym_code code →
  stats ts !! s = Some st → code = sym (supply st) → NoDup sent.*1 →
  (∀ o a, (o, a) ∈ sent → o ≠ self ∧ is_account ctx o = true ∧ cdt_is_valid a = true ∧ 0 < amount a ∧ sym a = code) →
  sent_total sent <= old_balance ts self s →
  returns (send_backpay ctx os ts sent) (λ r, r.2 = os ∧ token_wf r.1 ∧ stats r.1 = stats ts ∧
    old_balance r.1 self s = old_balance ts self s - sent_total sent ∧
    (∀ o a, (o, a) ∈ sent → old_balance r.1 o s = old_balance ts o s + amount a) ∧
    (∀ o, o ≠ self → o ∉ sent.*1 → old_balance r.1 o s = old_balance ts o s)).
Proof.
  induction sent as [|[o a] sent IH]; intros ts s code st Hw Ha Hs Hst Hcode Hnd Hsent Hbal; cbn [send_backpay].
  { cbn [returns fst snd]. split_and!; try done; [unfold sent_total; simpl; lia|by intros o a ?%not_elem_of_nil]. }
  destruct (Hsent o a) as (Ho & Hacc & Hval & Hpos & Hsym); [by left|].
  apply NoDup_cons in Hnd as [Hno Hnd]. unfold sent_total in Hbal. simpl in Hbal.
  assert (Hrest : 0 <= zsum (λ p : Z * asset, amount p.2) sent).
  { apply zsum_nonneg. intros [o' a'] Hin. destruct (Hsent o' a') as (_ & _ & _ & ? & _); [by right|]. simpl. lia. }
  assert (Hcode' : sym_code (sym a) = s) by (by rewrite Hsym).
  destruct (transfer_succeeds ctx ts self o a (chars "backpay") Hw) as [ts' Ht].
  { split_and!; try done; [vm_compute; lia|exists st; rewrite Hcode'; by rewrite Hsym|rewrite Hcode'; lia]. }
  rewrite Ht, bind_ok, on_transfer_own, bind_ok.
  destruct (transfer_moves ctx ts self o a (chars "backpay") ts' Hw Ht) as [Hstats Hm].
  assert (Hself : old_balance ts' self s = old_balance ts self s - amount a).
  { rewrite Hm. unfold moved. rewrite Hcode', Z.eqb_refl, Z.eqb_refl, (proj2 (Z.eqb_neq self o)) by done. simpl. lia. }
  assert (Hother : ∀ o', o' ≠ self → old_balance ts' o' s = old_balance ts o' s + if o' =? o then amount a else 0).
  { intros o' Hne. rewrite Hm. unfold moved. rewrite Hcode', Z.eqb_refl, (proj2 (Z.eqb_neq o' self)) by done. simpl.
    by destruct (_ =? _). }
  specialize (IH ts' s code st). destruct (send_backpay ctx os ts' sent) as [[ts2 os2]|]; cbn [returns fst snd] in *.
  2: { apply IH; try done; [by eapply transfer_wf|by rewrite Hstats|intros; apply Hsent; by right|unfold sent_total; lia]. }
  destruct IH as (H1 & H2 & H3 & H4 & H5 & H6); try done;
    [by eapply transfer_wf|by rewrite Hstats|intros; apply Hsent; by right|unfold sent_total; lia|].
  unfold sent_total in *. simpl. split_and!; [done|done|congruence|lia|..].
  - intros o' a' [[= -> ->]|Hin]%elem_of_cons.
    + rewrite H6 by done. rewrite Hother, Z.eqb_refl by done. lia.
    + rewrite (H5 o' a' Hin). destruct (Hsent o' a') as (Hne & _); [by right|]. rewrite Hother by done.
      rewrite (proj2 (Z.eqb_neq o' o)); [lia|]. intros ->. apply Hno. apply (list_elem_of_fmap_2 fst _ _ Hin).
  - intros o' Hne [Hne' Hin]%not_elem_of_cons. rewrite H6 by done. rewrite Hother by done.
    by rewrite (proj2 (Z.eqb_neq o' o)), Z.add_0_r.
Qed.

(** The payments of a division are valid transfers to existing accounts. *)
Lemma sent_valid ctx os os' q sent : org_wf os → divided ctx os q os' sent → cdt_is_valid q = true → owed_to os self = 0 →
  total_owed os <= max_amount → ∀ o a, (o, a) ∈ sent →
  o ≠ self ∧ is_account (self_ctx ctx) o = true ∧ cdt_is_valid a = true ∧ 0 < amount a ∧ sym a = sym q.
Proof.
  intros Hw Hd [_ Hv]%cdt_is_valid_spec H0 Hmax o a [-> Hp]%(dv_sent _ _ _ _ _ Hd). pose proof (dv_share _ _ _ _ _ Hd o) as Hsh.
  split_and!; [|by unfold share_of in Hp; change (is_account (self_ctx ctx) o) with (is_account ctx o); destruct (is_account ctx o)| |done|done].
  - intros ->. lia.
  - apply cdt_is_valid_spec. split; [|done]. cbn [amount]. unfold amount_in_range.
    assert (owed_to os o <= total_owed os); [|lia].
    unfold owed_to. destruct (org_accounts os !! o) as [x|] eqn:E; simpl; [by destruct (owed_bound os o x Hw E)|by apply total_owed_nonneg].
Qed.

(** C27: when backpay is owed, and none of it to the contract itself, a transfer of the configured currency from another account to
    [ra.org] that the token contract accepts goes through with all the payments it triggers: every worker whose account exists
    receives the proportional part, rounded down, what the worker is owed falls by exactly that, and the contract never pays
    more than it received. If the transfer covers the whole debt and the accounts of all who are owed exist, everything is
    paid. Conditions: the debt is positive, the paid total stays within 64 bits, and no notified contract of a worker refuses. *)
Theorem backpay_is_affordable ctx os ts c st from q memo : org_wf os → token_wf ts →
  config os = Some c → buck_contract c = tok → stat os = Some st → 0 < amount (owed st) →
  from ≠ self → sym q = buck c → may_transfer ctx ts from self q memo → owed_to os self = 0 →
  amount (paid st) + amount q <= i64_max →
  returns (transfer_to_org ctx os ts from q memo) (λ r, let '(ts', os') := r in
    let code := sym_code (sym q) in
    token_wf ts' ∧ org_wf os' ∧ stats ts' = stats ts ∧
    (∀ o, owed_to os' o = owed_to os o - share_of ctx os (amount q) o) ∧
    (∀ o, o ≠ self → o ≠ from → old_balance ts' o code = old_balance ts o code + share_of ctx os (amount q) o) ∧
    old_balance ts self code <= old_balance ts' self code ∧
    ((∀ o, 0 < owed_to os o → is_account ctx o = true) → total_owed os <= amount q → total_owed os' = 0)).
Proof.
  intros Hw Hts Hc Htok Hst Howed Hne Hs Hmay Hself Hpaid. pose proof Hmay as (_ & _ & _ & _ & Hval & Hpos & (sta & Hsta & Hssup) & _).
  pose proof (valid_quantity _ Hval) as Hrng. unfold amount_in_range, max_amount in Hrng.
  destruct (transfer_succeeds ctx ts from self q memo Hts Hmay) as [ts1 Ht].
  destruct (transfer_moves _ _ _ _ _ _ _ Hts Ht) as [Hstats Hm].
  unfold transfer_to_org. rewrite Ht, bind_ok, <- Htok.
  pose proof (paid_divided ctx os c st q Hw Hc Hst Hs Hpos Howed) as Hdiv. pose proof Hdiv as [Hw' Ho' Hsent Hnd Htot Hsh Hsum Hall].
  assert (Hmax : 0 < total_owed os <= max_amount ∧ 0 <= amount (paid st)) by (pose proof (ow_stat _ Hw) as Hsw; unfold stat_wf in Hsw; rewrite Hc, Hst in Hsw; lia).
  destruct (sent_parts ctx os q c Hw Hpos ltac:(lia) Hs) as (_ & _ & Hpsum). cbv zeta in Hpsum.
  fold (paid_list ctx os (amount q) (buck c)) in Hpsum. fold (paid_sum ctx os (amount q)) in Hpsum.
  rewrite (on_transfer_value self ctx os c st from q) by (done || (unfold i64_max in *; lia)).
  rewrite share_ok, bind_ok, bind_ok by (unfold is_i64, i64_max in *; lia). set (os1 := set_st _ _) in *.
  set (code := sym_code (sym q)) in *. set (sent := paid_list _ _ _ _) in *.
  assert (Hb1 : old_balance ts1 self code = old_balance ts self code + amount q)
    by (rewrite Hm; unfold moved; fold code; rewrite !Z.eqb_refl; done).
  pose proof (old_balance_nonneg _ ts self code Hts) as Hnn.
  pose proof (send_backpay_ok (self_ctx ctx) os1 sent ts1 code (sym q) sta) as Hsend.
  destruct (send_backpay (self_ctx ctx) os1 ts1 sent) as [[ts2 os2]|]; cbn [returns fst snd] in *.
  2: { apply Hsend; try done; [by eapply transfer_wf|cbn; by rewrite Z.eqb_refl|by rewrite Hstats|apply (sent_valid ctx os os1 q sent); try done; lia|lia]. }
  destruct Hsend as (-> & H2 & H3 & H4 & H5 & H6); try done;
    [by eapply transfer_wf|cbn; by rewrite Z.eqb_refl|by rewrite Hstats|apply (sent_valid ctx os os1 q sent); try done; lia|lia|].
  split_and!; [done|done|congruence|done| |lia|intros Hex Hle; rewrite Htot; destruct (Hall Hex) as [_ Hf]; rewrite Hf by done; lia].
  intros o Hos Hof. assert (Ho1 : old_balance ts1 o code = old_balance ts o code).
  { rewrite Hm. unfold moved. fold code. rewrite Z.eqb_refl, !(proj2 (Z.eqb_neq o _)) by done. simpl. lia. }
  destruct (decide (0 < share_of ctx os (amount q) o)) as [Hp|Hp].
  - rewrite (H5 o (Asset (share_of ctx os (amount q) o) (sym q))) by (by apply Hsent). simpl. lia.
  - rewrite H6; [specialize (Hsh o); lia|done|]. intros ([o' a] & -> & Hin)%list_elem_of_fmap. by apply Hsent in Hin as [_ Hin].
Qed.

(** If the contract owes itself, the transfer to itself fails and with it the incoming transfer. *)
Lemma own_debt_blocks_payment ctx os (ts : token_state) sent a : (self, a) ∈ sent → ∃ e, send_backpay ctx os ts sent = Err e.
Proof.
  revert os ts. induction sent as [|[o b] sent IH]; intros os ts Hin; [by apply not_elem_of_nil in Hin|]. cbn [send_backpay].
  destruct (transfer ctx ts self o b _) as [ts'|e] eqn:Ht; [|by exists e]. rewrite bind_ok, on_transfer_own, bind_ok.
  apply elem_of_cons in Hin as [[= <- <-]|Hin]; [|by apply IH].
  unfold transfer in Ht. rewrite Z.eqb_refl in Ht. done.
Qed.

End WithToken.

End OrgActions.
