(* ===== verification/OrgExample.v ===== *)
(** * Tokens and backpay on concrete states

    A token, an organization with a manager and two workers, and a month that is reviewed, closed
    and paid: the hypotheses of the theorems on [ra.token] and [ra.org] hold there. The
    assets are those of the chain. *)

From S2P Require Import Prelude Names Assets AssetsTheory Authority Contract Token TokenTheory Org OrgTheory OrgActions.
From stdpp Require Import gmap.
Import ChainAssets.
Open Scope Z_scope.

Module OrgExample.

(** One more than the largest key. *)
Definition next_key (t : gmap Z review_row) : Z := 1 + foldr (λ kr m, Z.max kr.1 m) 0 (map_to_list t).

Lemma next_key_fresh t : t !! next_key t = None.
Proof.
  destruct (t !! next_key t) as [r|] eqn:E; [|done]. apply elem_of_map_to_list in E. exfalso.
  assert (H : ∀ l : list (Z * review_row), ∀ k r, (k, r) ∈ l → k <= foldr (λ kr m, Z.max kr.1 m) 0 l).
  { induction l as [|[k' r'] l IH]; intros k0 r0; [by intros ?%not_elem_of_nil|].
    intros [[= -> ->]|Hin]%elem_of_cons; simpl; [lia|]. specialize (IH _ _ Hin). lia. }
  apply H in E. unfold next_key in E. lia.
Qed.

#[export] Instance next_available : AvailableKey := {| available_primary_key := next_key; available_fresh := next_key_fresh |}.

(** The value of a computation that succeeds. *)
Definition ok_or {A} (d : A) (m : result A) : A := match m with Ok x => x | Err _ => d end.

(** Names and the currency [2,BUCK]. *)
Definition org : Z := name_of "ra.org".
Definition tok : Z := name_of "ra.token".
Definition meg : Z := name_of "meg".
Definition bob : Z := name_of "bob".
Definition carol : Z := name_of "carol".
Definition donor : Z := name_of "donor".
Definition symbol : Z := ok_or 0 (string_to_symbol 2 (chars "BUCK")).
Definition everybody : gset Z := {[org; tok; meg; bob; carol; donor]}.

(** An action by [who] at a time in seconds. *)
Definition by_at (who time : Z) : action_ctx :=
  ActionCtx [PermissionLevel who (name_of "active")] everybody (time * 1000000).

(** ** A token *)

Definition token_log : list (Z * token_action) :=
  [(tok, ACreate donor (Asset 100000000 symbol));
   (donor, AIssue donor (Asset 1000000 symbol) []);
   (donor, ATransfer donor bob (Asset 250 symbol) [])].

Fixpoint token_exec (ts : token_state) (l : list (Z * token_action)) : result token_state :=
  match l with
  | [] => Ok ts
  | (who, a) :: l => ts ← token_run tok (by_at who 0) ts a; token_exec ts l
  end.

Lemma token_exec_reachable l : ∀ ts ts', token_reachable tok ts → token_exec ts l = Ok ts' → token_reachable tok ts'.
Proof.
  induction l as [|[who a] l IH]; intros ts ts' Hr; cbn [token_exec]; [by intros [= <-]|].
  intros (ts1 & H1 & H)%bind_inv. refine (IH _ _ _ H). by eapply tr_step.
Qed.

Definition bank : token_state := ok_or token_init (token_exec token_init token_log).

Lemma bank_reached : token_exec token_init token_log = Ok bank.
Proof. vm_compute. reflexivity. Qed.

Lemma bank_reachable : token_reachable tok bank.
Proof. apply (token_exec_reachable token_log token_init); [apply tr_init|apply bank_reached]. Qed.

Lemma tokens_are_conserved_witness : circulating bank (sym_code symbol) = 1000000.
Proof.
  destruct (tokens_are_conserved tok bank bank_reachable) as [H _].
  destruct (stats bank !! sym_code symbol) as [st|] eqn:E; [|exfalso; vm_compute in E; discriminate E].
  destruct (H _ _ E) as [-> _]. vm_compute in E. injection E as <-. reflexivity.
Defined.

(** Bob sends Carol a hundred units. *)
Lemma transfer_correct_witness :
  may_transfer (by_at bob 0) bank bob carol (Asset 100 symbol) [] ∧
  match transfer (by_at bob 0) bank bob carol (Asset 100 symbol) [] with
  | Ok ts' => old_balance ts' bob (sym_code symbol) = 150 ∧ old_balance ts' carol (sym_code symbol) = 100
  | Err _ => False
  end.
Proof.
  pose proof (transfer_correct (by_at bob 0) bank bob carol (Asset 100 symbol) [] (token_reachable_wf tok bank bank_reachable)) as H.
  destruct (transfer (by_at bob 0) bank bob carol (Asset 100 symbol) []) as [ts'|e] eqn:E.
  - destruct H as (Hm & _ & _ & Hb). split; [exact Hm|]. rewrite !Hb. split; vm_compute; reflexivity.
  - exfalso. vm_compute in E. discriminate E.
Defined.

Definition bank_after : token_state := ok_or token_init (token_run tok (by_at bob 0) bank (ATransfer bob carol (Asset 100 symbol) [])).

Lemma balances_need_authority_witness :
  old_balance bank_after bob (sym_code symbol) < old_balance bank bob (sym_code symbol) ∧ has_auth (by_at bob 0) bob = true.
Proof.
  assert (Hlt : old_balance bank_after bob (sym_code symbol) < old_balance bank bob (sym_code symbol)) by (vm_compute; reflexivity).
  split; [exact Hlt|].
  refine (proj1 (balances_need_authority tok (by_at bob 0) bank (ATransfer bob carol (Asset 100 symbol) []) bank_after
    (token_reachable_wf tok bank bank_reachable) _) bob (sym_code symbol) Hlt).
  vm_compute. reflexivity.
Defined.

(** ** A month of an organization *)

(** The first of July 2026; the reviews of July are open from the 29th to the end of August 3rd. *)
Definition july : Z := 1782864000.
Definition day : Z := 86400.

Definition setup : list (Z * Z * org_action) :=
  [(org, july, OSetConfig tok symbol);
   (org, july, OAddAdmin meg);
   (meg, july, OAddRole (chars "kpi") (name_of "number") (Asset 10000 symbol) (Asset 600 symbol) 50 0);
   (meg, july, OGrantRole 1 bob);
   (meg, july, OGrantRole 1 carol)].

Definition reviewed (at_ period : Z) : list (Z * Z * org_action) :=
  [(bob, at_, OReview bob period 1 bob 10 []);
   (meg, at_, OReview meg period 1 bob 8 []);
   (carol, at_, OReview carol period 1 bob 9 [])].

Fixpoint org_exec (os : org_state) (l : list (Z * Z * org_action)) : result org_state :=
  match l with
  | [] => Ok os
  | (who, time, a) :: l => '(os, _) ← org_run org (by_at who time) os a; org_exec os l
  end.

Lemma org_exec_reachable l : ∀ os os', Forall (λ x, typed x.2) l → org_reachable org os → org_exec os l = Ok os' → org_reachable org os'.
Proof.
  induction l as [|[[who time] a] l IH]; intros os os' Ht Hr; cbn [org_exec]; [by intros [= <-]|].
  apply Forall_cons in Ht as [Ha Ht]. intros ([os1 sent] & H1 & H)%bind_inv. refine (IH _ _ Ht _ H). by eapply or_step.
Qed.

(** July, reviewed in its window and closed on August 5th. *)
Definition july_log : list (Z * Z * org_action) := setup ++ reviewed (july + 30 * day) 202607.

Definition before : org_state := ok_or org_init (org_exec org_init july_log).
Definition closing : action_ctx := by_at donor (july + 35 * day).
Definition after : org_state := ok_or org_init (closeperiod org closing before 202607).

Lemma before_reached : org_exec org_init july_log = Ok before.
Proof. vm_compute. reflexivity. Qed.

Lemma july_typed : Forall (λ x : Z * Z * org_action, typed x.2) july_log.
Proof. repeat constructor; cbn; lia. Qed.

Lemma before_reachable : org_reachable org before.
Proof. apply (org_exec_reachable july_log org_init); [apply july_typed|apply or_init|apply before_reached]. Qed.

Lemma after_reached : closeperiod org closing before 202607 = Ok after.
Proof. vm_compute. reflexivity. Qed.

Lemma after_reachable : org_reachable org after.
Proof.
  apply (or_step org closing before (OClosePeriod 202607) after []); [apply before_reachable|exact I|].
  cbn [org_run]. by rewrite after_reached.
Qed.

(** Bob earns 150.00 plus 3.00 of the bucket, times one percent plus thirty-three, twenty-six point four and
    twenty-nine point seven percent. *)
Lemma closeperiod_correct_witness : owed_to after bob = 13785 ∧ ∃ e, closeperiod org closing after 202607 = Err e.
Proof.
  destruct (closeperiod_correct org closing before 202607 after (org_reachable_wf org before before_reachable) after_reached)
    as (_ & Ho & _ & Hagain).
  split; [|exact (Hagain closing)]. rewrite Ho. vm_compute. reflexivity.
Defined.

Lemma backpay_books_balance_witness : ∃ st, stat after = Some st ∧ amount (owed st) = total_owed after.
Proof.
  destruct (backpay_books_balance org after after_reachable) as [H _].
  destruct (config after) as [c|] eqn:E; [|exfalso; vm_compute in E; discriminate E].
  destruct (H c eq_refl) as (st & Hs & He & _). exists st. split; [exact Hs|exact He].
Defined.

(** A donation of 50.00: the books of the tokens and of the backpay after it. *)
Lemma backpay_is_affordable_witness :
  returns (transfer_to_org org tok (by_at donor (july + 40 * day)) after bank donor (Asset 5000 symbol) [])
    (λ r, token_wf r.1 ∧ org_wf r.2 ∧ owed_to r.2 bob = 8785).
Proof.
  destruct (config after) as [c|] eqn:Ec; [|exfalso; vm_compute in Ec; discriminate Ec].
  destruct (stat after) as [st|] eqn:Es; [|exfalso; vm_compute in Es; discriminate Es].
  pose proof (backpay_is_affordable org tok (by_at donor (july + 40 * day)) after bank c st donor (Asset 5000 symbol) []
    (org_reachable_wf org after after_reachable) (token_reachable_wf tok bank bank_reachable) Ec) as H.
  assert (Hbc : buck_contract c = tok ∧ buck c = symbol) by (vm_compute in Ec; injection Ec as <-; split; reflexivity).
  assert (Hst : amount (owed st) = 13785 ∧ amount (paid st) = 0) by (vm_compute in Es; injection Es as <-; split; reflexivity).
  destruct Hbc as [Hbc Hb], Hst as [Ho Hp].
  specialize (H Hbc Es ltac:(rewrite Ho; lia) ltac:(vm_compute; discriminate) ltac:(rewrite Hb; reflexivity)).
  assert (Hmay : may_transfer (by_at donor (july + 40 * day)) bank donor org (Asset 5000 symbol) []).
  { destruct (stats bank !! sym_code symbol) as [s|] eqn:E; [|exfalso; vm_compute in E; discriminate E].
    assert (Hss : symbol = sym (supply s)) by (vm_compute in E; injection E as <-; reflexivity).
    split_and!; [reflexivity|vm_compute; discriminate|reflexivity|vm_compute; lia|reflexivity|simpl; lia|exists s; split; [exact E|exact Hss]|vm_compute; discriminate]. }
  specialize (H Hmay ltac:(vm_compute; reflexivity) ltac:(rewrite Hp; unfold i64_max; simpl; lia)).
  destruct (transfer_to_org org tok _ after bank donor _ _) as [[ts' os']|e]; [|exact H]. cbn [returns fst snd].
  destruct H as (H1 & H2 & _ & H3 & _). split_and!; [exact H1|exact H2|]. rewrite H3. vm_compute. reflexivity.
Defined.

(** ** A month that is paid twice *)

(** The end of August 2162 in 32 bits is July 25th 2026: the month is reviewed from July 22nd to 28th and closed on the
    29th; July is reviewed on the 30th and closed on August 5th. *)
Definition twice_log : list (Z * Z * org_action) :=
  setup ++ reviewed (july + 23 * day) 216208 ++ [(donor, july + 28 * day, OClosePeriod 216208)] ++
  reviewed (july + 29 * day) 202607 ++ [(donor, july + 35 * day, OClosePeriod 202607)].

(** A month far in the future is accepted as a period, and because the end of a month is computed in 32 bits its
    reviews are open now. A worker with one seat is owed twice the pay of a month by August 5th 2026. *)
Theorem future_month_is_paid_now :
  period_end_unix 216208 < period_end_unix 202607 ∧
  owed_to after bob = 13785 ∧ returns (org_exec org_init twice_log) (λ os, owed_to os bob = 2 * 13785).
Proof. vm_compute. repeat split. Qed.

End OrgExample.
