(* ===== verification/Authex.v ===== *)
(** * The registry of external keys ([contracts/ra.authex])

    Accounts attest keys of other chains. A link that was signed carries the packed public
    key that the signature recovers to. Hashing, the recovery of keys and the printing of names and assets are
    those of the host and the contract development kit: parameters, in the class [ContractHost]. *)

From S2P Require Import Prelude Names Assets Authority Contract.
From stdpp Require Import gmap.
Open Scope Z_scope.

Class ContractHost : Type := {
  host_sha256 : list Z → list Z;                     (* the digest of a message *)
  recover_key : list Z → list Z → result (list Z);   (* the packed key of a digest and a packed signature *)
  name_string : Z → std_string;
  name_length : Z → Z;
  asset_string : asset → std_string }.

Definition bar : Z := 124.

Section Recover.
Context {host : ContractHost}.

Definition sha256_msg (msg : std_string) : list Z := host_sha256 msg.

Definition recover_packed_key (digest sig : list Z) : result (list Z) :=
  require ((8 <=? Z.of_nat (length sig)) && (Z.of_nat (length sig) <=? 256));;
  pub ← recover_key digest sig;
  require ((0 <? Z.of_nat (length pub)) && (Z.of_nat (length pub) <=? 128));;
  Ok pub.

End Recover.

Record link : Type := Link {
  link_id : Z;
  link_account : Z;
  link_chain : Z;
  address : std_string;
  link_created : Z;
  link_key : list Z }.   (* empty for unsigned links *)

Record authex_state : Type := AuthexState {
  links : gmap Z link;
  nonces : gmap Z Z;
  link_next_id : option Z }.   (* the singleton [state] *)

Definition authex_init : authex_state := AuthexState ∅ ∅ None.

Section Authex.
Context {host : ContractHost}.
Context (self : Z).
Implicit Types (ctx : action_ctx) (xs : authex_state).

Definition expected_nonce xs (account : Z) : Z := default 0 (nonces xs !! account).

Definition bump_nonce xs (account : Z) : authex_state :=
  AuthexState (links xs)
    (<[account := match nonces xs !! account with None => 1 | Some n => u64 (n + 1) end]> (nonces xs)) (link_next_id xs).

Definition add_link ctx xs (account chain : Z) (addr : std_string) (packedkey : list Z) : result authex_state :=
  require (is_account ctx account);;
  require (negb (chain =? 0));;
  require ((0 <? Z.of_nat (length addr)) && (Z.of_nat (length addr) <=? 256));;
  require (forallb (λ l, negb (link_account l.2 =? account) || negb (link_chain l.2 =? chain) || negb (bool_decide (address l.2 = addr)))
    (tbl_rows (links xs)));;
  let next_id := default 1 (link_next_id xs) in
  let next_id := if next_id =? 0 then 1 else next_id in
  t ← tbl_emplace (links xs) next_id (Link next_id account chain addr (now ctx) packedkey);
  Ok (AuthexState t (nonces xs) (Some (u64 (next_id + 1)))).

Definition createlink ctx xs (account chain : Z) (addr : std_string) : result authex_state :=
  require_auth ctx account;;
  add_link ctx xs account chain addr [].

Definition adminlink ctx xs (account chain : Z) (addr : std_string) : result authex_state :=
  require_auth ctx self;;
  add_link ctx xs account chain addr [].

Definition link_message (pubkey : std_string) (account chain nonce : Z) : std_string :=
  pubkey ++ [bar] ++ name_string account ++ [bar] ++ name_string chain ++ [bar] ++ dec_string nonce ++ chars "|createlink auth".

Definition linksig ctx xs (account chain : Z) (addr pubkey : std_string) (nonce : Z) (sig : list Z) : result authex_state :=
  require_auth ctx account;;
  require ((0 <? Z.of_nat (length pubkey)) && (Z.of_nat (length pubkey) <=? 256));;
  require (nonce =? expected_nonce xs account);;
  packed ← recover_packed_key (sha256_msg (link_message pubkey account chain nonce)) sig;
  require (0 <? Z.of_nat (length packed));;
  xs ← add_link ctx xs account chain addr packed;
  Ok (bump_nonce xs account).

Definition bridgelink ctx xs (account chain : Z) (addr : std_string) (packedkey : list Z) : result authex_state :=
  require_auth ctx (name_of "ra.claim");;
  require (0 <? Z.of_nat (length packedkey));;
  add_link ctx xs account chain addr packedkey.

Definition unlink ctx xs (id : Z) : result authex_state :=
  l ← tbl_get (links xs) id;
  require (has_auth ctx (link_account l) || has_auth ctx self);;
  Ok (AuthexState (delete id (links xs)) (nonces xs) (link_next_id xs)).

End Authex.
