(* ===== verification/Claim.v ===== *)
(** * The claim contract ([contracts/ra.claim])

    Relayers credit deposits made on other chains; the recipients are paid once, by their own
    authority, by the signature of a linked key, or, for an account that does not exist yet,
    by the signature of the credited key. An action gives the state and the inline actions it sends, in order. *)

From S2P Require Import Prelude Names Assets Authority Contract Authex.
From stdpp Require Import gmap.
Open Scope Z_scope.

Record deposit : Type := Deposit {
  deposit_id : Z;
  ext_txid : list Z;      (* the 32 bytes of the transaction id *)
  chain : Z;
  recipient : Z;
  quantity : asset;
  claimed : bool;
  created : Z;
  pubkey : std_string;
  packedkey : list Z }.

Record claim_cfg : Type := ClaimCfg { ram_bytes : Z; ram_fee : asset }.

Record claim_state : Type := ClaimState {
  relayers : gset Z;
  deposits : gmap Z deposit;
  deposit_next_id : option Z;   (* the singleton [state] *)
  cfg : option claim_cfg }.

Definition claim_init : claim_state := ClaimState ∅ ∅ None None.

Inductive inline_action : Type :=
| INewAccount (data : list Z)
| IBuyRamBytes (payer receiver bytes : Z)
| IBridgeLink (account chain : Z) (addr : std_string) (packedkey : list Z)
| ITransfer (from to : Z) (quantity : asset) (memo : std_string).

(** ** Bytes *)

(** The first eight bytes of the transaction id, the most significant first. *)
Definition txid_prefix (txid : list Z) : Z :=
  foldl (λ v b, Z.lor (u64 (Z.shiftl v 8)) b) 0 (take 8 txid).

Definition hex_digit (d : Z) : Z := if d <? 10 then 48 + d else 87 + d.

Definition checksum256_hex (h : list Z) : std_string :=
  flat_map (λ b, [hex_digit (Z.land (Z.shiftr b 4) 15); hex_digit (Z.land b 15)]) h.

Fixpoint append_le (n : nat) (out : list Z) (v : Z) : list Z :=
  match n with O => out | S n => append_le n (out ++ [Z.land v 255]) (Z.shiftr v 8) end.

Definition append_u16 (out : list Z) (v : Z) : list Z := append_le 2 out v.
Definition append_u32 (out : list Z) (v : Z) : list Z := append_le 4 out v.
Definition append_u64 (out : list Z) (v : Z) : list Z := append_le 8 out v.

Fixpoint append_varuint_loop (fuel : nat) (out : list Z) (v : Z) : list Z :=
  match fuel with
  | O => out
  | S fuel =>
    let b := Z.land v 127 in
    let v := Z.shiftr v 7 in
    let b := if v =? 0 then b else Z.lor b 128 in
    if v =? 0 then out ++ [b] else append_varuint_loop fuel (out ++ [b]) v
  end.

(** A 32-bit value takes at most five bytes. *)
Definition append_varuint (out : list Z) (v : Z) : list Z := append_varuint_loop 5 out v.

Definition append_authority (out packed_key : list Z) : list Z :=
  let out := append_u32 out 1 in
  let out := append_varuint out 1 in
  let out := out ++ packed_key in
  let out := append_u16 out 1 in
  let out := append_varuint out 0 in
  append_varuint out 0.

(** ** The contract *)

Section Claim.
Context {cdt : CdtAsset} {host : ContractHost}.
Context (self : Z).
Implicit Types (ctx : action_ctx) (cs : claim_state) (xs : authex_state).

Definition set_deposits cs (t : gmap Z deposit) : claim_state := ClaimState (relayers cs) t (deposit_next_id cs) (cfg cs).

Definition require_relayer ctx cs : result unit :=
  if has_auth ctx self then Ok tt
  else require (existsb (has_auth ctx) (elements (relayers cs))).

(** The signed links of [ra.authex]. *)
Definition linked_key_matches xs (account chain_ : Z) (packed : list Z) : bool :=
  existsb (λ l, (link_account l.2 =? account) && (link_chain l.2 =? chain_) && negb (bool_decide (link_key l.2 = [])) &&
                bool_decide (link_key l.2 = packed)) (tbl_rows (links xs)).

Definition pay_claim cs (id : Z) (payout : asset) : result (claim_state * list inline_action) :=
  d ← tbl_get (deposits cs) id;
  require (negb (claimed d));;
  require (sym payout =? sym (quantity d));;
  require ((0 <? amount payout) && (amount payout <=? amount (quantity d)));;
  Ok (set_deposits cs (<[id := Deposit (deposit_id d) (ext_txid d) (chain d) (recipient d) (quantity d) true (created d)
                                (pubkey d) (packedkey d)]> (deposits cs)),
      [ITransfer self (recipient d) payout (chars "cross-chain claim")]).

Definition emplace_deposit ctx cs (chain_ : Z) (txid : list Z) (recipient_ : Z) (quantity_ : asset)
    (pubkey_ : std_string) (packedkey_ : list Z) : result claim_state :=
  require (negb (chain_ =? 0));;
  require (negb (recipient_ =? 0));;
  require (0 <? amount quantity_);;
  require (cdt_is_valid quantity_);;
  let prefix := txid_prefix txid in
  require (forallb (λ d, negb (txid_prefix (ext_txid d.2) =? prefix) || negb (bool_decide (ext_txid d.2 = txid))) (tbl_rows (deposits cs)));;
  let next_id := default 1 (deposit_next_id cs) in
  let next_id := if next_id =? 0 then 1 else next_id in
  t ← tbl_emplace (deposits cs) next_id (Deposit next_id txid chain_ recipient_ quantity_ false (now ctx) pubkey_ packedkey_);
  Ok (ClaimState (relayers cs) t (Some (u64 (next_id + 1))) (cfg cs)).

Definition addrelayer ctx cs (account : Z) : result claim_state :=
  require_auth ctx self;;
  require (is_account ctx account);;
  require (bool_decide (account ∉ relayers cs));;
  Ok (ClaimState ({[account]} ∪ relayers cs) (deposits cs) (deposit_next_id cs) (cfg cs)).

Definition rmrelayer ctx cs (account : Z) : result claim_state :=
  require_auth ctx self;;
  require (bool_decide (account ∈ relayers cs));;
  Ok (ClaimState (relayers cs ∖ {[account]}) (deposits cs) (deposit_next_id cs) (cfg cs)).

Definition credit ctx cs (chain_ : Z) (txid : list Z) (recipient_ : Z) (quantity_ : asset) : result claim_state :=
  require_relayer ctx cs;;
  require (is_account ctx recipient_);;
  emplace_deposit ctx cs chain_ txid recipient_ quantity_ [] [].

Definition claim ctx cs (id : Z) : result (claim_state * list inline_action) :=
  d ← tbl_get (deposits cs) id;
  require_auth ctx (recipient d);;
  pay_claim cs id (quantity d).

Definition claim_message (d : deposit) : std_string :=
  checksum256_hex (ext_txid d) ++ [bar] ++ name_string (recipient d) ++ [bar] ++ asset_string (quantity d) ++ [bar] ++
  name_string (chain d) ++ [bar] ++ dec_string (deposit_id d) ++ chars "|claim auth".

Definition claimsig cs xs (id : Z) (sig : list Z) : result (claim_state * list inline_action) :=
  d ← tbl_get (deposits cs) id;
  require (negb (claimed d));;
  packed ← recover_packed_key (sha256_msg (claim_message d)) sig;
  require (linked_key_matches xs (recipient d) (chain d) packed);;
  pay_claim cs id (quantity d).

Definition creditopen ctx cs (chain_ : Z) (txid : list Z) (recipient_ : Z) (quantity_ : asset)
    (pubkey_ : std_string) (packedkey_ : list Z) : result claim_state :=
  require_relayer ctx cs;;
  require (negb (is_account ctx recipient_));;
  require (name_length recipient_ =? 12);;
  require (forallb (λ c, negb (c =? dot)) (name_string recipient_));;
  require ((0 <? Z.of_nat (length pubkey_)) && (Z.of_nat (length pubkey_) <=? 256));;
  require ((8 <=? Z.of_nat (length packedkey_)) && (Z.of_nat (length packedkey_) <=? 128));;
  emplace_deposit ctx cs chain_ txid recipient_ quantity_ pubkey_ packedkey_.

Definition cfgclaim ctx cs (ram_bytes_ : Z) (ram_fee_ : asset) : result claim_state :=
  require_auth ctx self;;
  require (ram_bytes_ <=? 1024 * 1024);;
  require (0 <=? amount ram_fee_);;
  (if 0 <? amount ram_fee_ then require (cdt_is_valid ram_fee_) else Ok tt);;
  Ok (ClaimState (relayers cs) (deposits cs) (deposit_next_id cs) (Some (ClaimCfg ram_bytes_ ram_fee_))).

Definition claimopen_message (d : deposit) : std_string :=
  pubkey d ++ [bar] ++ checksum256_hex (ext_txid d) ++ [bar] ++ name_string (recipient d) ++ [bar] ++
  asset_string (quantity d) ++ [bar] ++ name_string (chain d) ++ [bar] ++ dec_string (deposit_id d) ++ chars "|claimopen auth".

(** The packed arguments of [newaccount]: the creator, the name, and twice an authority of the key alone. *)
Definition newaccount_data (d : deposit) : list Z :=
  let data := append_u64 [] self in
  let data := append_u64 data (recipient d) in
  let data := append_authority data (packedkey d) in
  append_authority data (packedkey d).

Definition claimopen ctx cs (id : Z) (sig : list Z) : result (claim_state * list inline_action) :=
  d ← tbl_get (deposits cs) id;
  require (negb (claimed d));;
  require (negb (bool_decide (packedkey d = [])) && negb (bool_decide (pubkey d = [])));;
  require (negb (is_account ctx (recipient d)));;
  packed ← recover_packed_key (sha256_msg (claimopen_message d)) sig;
  require (bool_decide (packed = packedkey d));;
  let c := default (ClaimCfg 0 (Asset 0 0)) (cfg cs) in
  let buy := if 0 <? ram_bytes c then [IBuyRamBytes self (recipient d) (ram_bytes c)] else [] in
  payout ← (if 0 <? amount (ram_fee c) then
              require (sym (ram_fee c) =? sym (quantity d));;
              require (amount (ram_fee c) <? amount (quantity d));;
              cdt_sub (quantity d) (ram_fee c)
            else Ok (quantity d));
  let addr := if Z.of_nat (length (pubkey d)) <=? 256 then pubkey d else take 256 (pubkey d) in
  '(cs, pay) ← pay_claim cs id payout;
  Ok (cs, [INewAccount (newaccount_data d)] ++ buy ++ [IBridgeLink (recipient d) (chain d) addr (packedkey d)] ++ pay).

End Claim.
