(* ===== verification/ClaimTheory.v ===== *)
(** * Deposits are paid once, to whom they are credited

    The invariant of [ra.claim] along the history of what it sends, what a payment needs, that a signed
    message names one deposit, and that a treasury that covers the open deposits keeps covering them. *)

From S2P Require Import Prelude Names Assets AssetsTheory Authority Contract Token TokenTheory Authex Claim.
From stdpp Require Import gmap.
Open Scope Z_scope.

Section ClaimTheory.
Context {cdt : CdtAsset} {host : ContractHost}.
Context (self : Z).
Implicit Types (ctx : action_ctx) (cs : claim_state) (xs : authex_state).

(** ** The actions *)

Inductive claim_action : Type :=
| CAddRelayer (account : Z)
| CRmRelayer (account : Z)
| CCredit (chain : Z) (txid : list Z) (recipient : Z) (quantity : asset)
| CClaim (id : Z)
| CClaimSig (id : Z) (sig : list Z)
| CCreditOpen (chain : Z) (txid : list Z) (recipient : Z) (quantity : asset) (pubkey : std_string) (packedkey : list Z)
| CClaimOpen (id : Z) (sig : list Z)
| CCfg (ram_bytes : Z) (ram_fee : asset).

Definition claim_run ctx xs cs (a : claim_action) : result (claim_state * list inline_action) :=
  let quiet m := cs ← m; Ok (cs, []) in
  match a with
  | CAddRelayer a => quiet (addrelayer self ctx cs a)
  | CRmRelayer a => quiet (rmrelayer self ctx cs a)
  | CCredit c t r q => quiet (credit self ctx cs c t r q)
  | CClaim i => claim self ctx cs i
  | CClaimSig i s => claimsig self cs xs i s
  | CCreditOpen c t r q p k => quiet (creditopen self ctx cs c t r q p k)
  | CClaimOpen i s => claimopen self ctx cs i s
  | CCfg b f => quiet (cfgclaim self ctx cs b f)
  end.

(** The states that are reached, with everything that was sent on the way; the links of [ra.authex] may be any. *)
Inductive claim_history : claim_state → list inline_action → Prop :=
| ch_init : claim_history claim_init []
| ch_step ctx xs cs out a cs' sent : claim_history cs out → claim_run ctx xs cs a = Ok (cs', sent) →
    claim_history cs' (out ++ sent).

(** ** The invariant *)

Record claim_wf cs : Prop := {
  cw_row : ∀ id d, deposits cs !! id = Some d →
    deposit_id d = id ∧ 0 < amount (quantity d) ∧ cdt_is_valid (quantity d) = true;
  cw_txid : ∀ i j d e, deposits cs !! i = Some d → deposits cs !! j = Some e → ext_txid d = ext_txid e → i = j;
  cw_fee : ∀ c, cfg cs = Some c → 0 <= amount (ram_fee c) ∧ (0 < amount (ram_fee c) → cdt_is_valid (ram_fee c) = true) }.

Lemma claim_init_wf : claim_wf claim_init.
Proof. by split. Qed.

Definition mark_claimed (d : deposit) : deposit :=
  Deposit (deposit_id d) (ext_txid d) (chain d) (recipient d) (quantity d) true (created d) (pubkey d) (packedkey d).

(** What a payment does: one open deposit is marked, one transfer to its recipient is sent. *)
Record pays cs (id : Z) (d : deposit) (payout : asset) cs' (sent : list inline_action) : Prop := {
  py_row : deposits cs !! id = Some d;
  py_open : claimed d = false;
  py_sym : sym payout = sym (quantity d);
  py_amount : 0 < amount payout <= amount (quantity d);
  py_state : cs' = set_deposits cs (<[id := mark_claimed d]> (deposits cs));
  py_sent : sent = [ITransfer self (recipient d) payout (chars "cross-chain claim")] }.

Lemma pay_claim_inv cs id payout cs' sent : pay_claim self cs id payout = Ok (cs', sent) → ∃ d, pays cs id d payout cs' sent.
Proof.
  unfold pay_claim. intros (d & Hd%tbl_get_inv & H)%bind_inv. apply bind_inv in H as (? & Hc%check_inv%negb_true_iff & H).
  apply bind_inv in H as (? & Hs%check_inv%Z.eqb_eq & H).
  apply bind_inv in H as (? & [Ha%Z.ltb_lt Hb%Z.leb_le]%check_inv%andb_true_iff & [= <- <-]). exists d. by split.
Qed.

Lemma pay_claim_ok cs id d payout : deposits cs !! id = Some d → claimed d = false → sym payout = sym (quantity d) →
  0 < amount payout <= amount (quantity d) →
  pay_claim self cs id payout = Ok (set_deposits cs (<[id := mark_claimed d]> (deposits cs)),
    [ITransfer self (recipient d) payout (chars "cross-chain claim")]).
Proof.
  intros Hd Hc Hs Ha. unfold pay_claim, tbl_get. rewrite Hd, bind_ok.
  rewrite (check_bind (negb _)) by (by rewrite Hc). rewrite (check_bind (_ =? _)) by (by apply Z.eqb_eq).
  rewrite check_bind; [done|]. apply andb_true_iff. rewrite Z.ltb_lt, Z.leb_le. lia.
Qed.

Lemma pays_wf cs id d payout cs' sent : claim_wf cs → pays cs id d payout cs' sent → claim_wf cs'.
Proof.
  intros [H1 H2 H3] [Hd _ _ _ -> _]. split; cbn [deposits set_deposits cfg]; [| |done].
  - intros i e. destruct (decide (id = i)) as [<- |Hne]; [rewrite lookup_insert_eq; intros [= <-]; exact (H1 id d Hd)|].
    rewrite lookup_insert_ne by done. apply H1.
  - assert (Hold : ∀ i e, <[id := mark_claimed d]> (deposits cs) !! i = Some e →
      ∃ e', deposits cs !! i = Some e' ∧ ext_txid e' = ext_txid e).
    { intros i e. destruct (decide (id = i)) as [<- |Hne]; [rewrite lookup_insert_eq; intros [= <-]; by exists d|].
      rewrite lookup_insert_ne by done. intros He. by exists e. }
    intros i j e f (e' & He & Ee)%Hold (f' & Hf & Ef)%Hold E. apply (H2 i j e' f'); [done|done|congruence].
Qed.

(** A credit adds one open deposit of a new transaction. *)
Record credits cs (d : deposit) cs' : Prop := {
  cr_fresh : deposits cs !! deposit_id d = None;
  cr_open : claimed d = false;
  cr_amount : 0 < amount (quantity d);
  cr_valid : cdt_is_valid (quantity d) = true;
  cr_txid : ∀ j e, deposits cs !! j = Some e → ext_txid e ≠ ext_txid d;
  cr_state : deposits cs' = <[deposit_id d := d]> (deposits cs);
  cr_cfg : cfg cs' = cfg cs }.

Lemma emplace_deposit_inv ctx cs c t r q p k cs' : emplace_deposit ctx cs c t r q p k = Ok cs' →
  ∃ d, credits cs d cs' ∧ ext_txid d = t ∧ chain d = c ∧ recipient d = r ∧ quantity d = q ∧ pubkey d = p ∧ packedkey d = k.
Proof.
  unfold emplace_deposit. intros (? & _ & H)%bind_inv. apply bind_inv in H as (? & _ & H).
  apply bind_inv in H as (? & Hq%check_inv%Z.ltb_lt & H). apply bind_inv in H as (? & Hv%check_inv & H).
  apply bind_inv in H as (? & Hall%check_inv & H). apply bind_inv in H as (tb & [Hn ->]%tbl_emplace_inv & [= <-]).
  set (i := if default 1 (deposit_next_id cs) =? 0 then 1 else default 1 (deposit_next_id cs)) in *.
  exists (Deposit i t c r q false (now ctx) p k). split; [|done]. split; try done. cbn [ext_txid].
  intros j e He E. pose proof (proj1 (forallb_forall _ _) Hall (j, e)) as H. cbn [snd] in H.
  rewrite E, Z.eqb_refl, bool_decide_eq_true_2 in H by done. discriminate H. apply list_elem_of_In, elem_of_tbl_rows, He.
Qed.

Lemma credits_wf cs d cs' : claim_wf cs → credits cs d cs' → claim_wf cs'.
Proof.
  intros [H1 H2 H3] [Hn _ Hq Hv Ht Hd Hc]. split; rewrite ?Hd, ?Hc; [| |done].
  - intros i e. destruct (decide (deposit_id d = i)) as [<- |Hne]; [rewrite lookup_insert_eq; by intros [= <-]|].
    rewrite lookup_insert_ne by done. apply H1.
  - intros i j e f. destruct (decide (deposit_id d = i)) as [<- |Hi], (decide (deposit_id d = j)) as [<- |Hj]; [done|..].
    + rewrite lookup_insert_eq, lookup_insert_ne by done. intros [= <-] Hf E. symmetry in E. by apply Ht in Hf.
    + rewrite lookup_insert_eq, lookup_insert_ne by done. intros He [= <-] E. by apply Ht in He.
    + rewrite !lookup_insert_ne by done. apply H2.
Qed.

(** ** What an action does *)

(** How a payment was authorized. *)
Inductive payment_right ctx xs cs (d : deposit) (payout : asset) : Prop :=
| by_recipient : has_auth ctx (recipient d) = true → payout = quantity d → payment_right ctx xs cs d payout
| by_linked_key sig packed : recover_packed_key (sha256_msg (claim_message d)) sig = Ok packed →
    linked_key_matches xs (recipient d) (chain d) packed = true → payout = quantity d → payment_right ctx xs cs d payout
| by_credited_key sig : recover_packed_key (sha256_msg (claimopen_message d)) sig = Ok (packedkey d) → packedkey d ≠ [] →
    is_account ctx (recipient d) = false →
    amount payout = amount (quantity d) - amount (from_option ram_fee (Asset 0 0) (cfg cs)) → payment_right ctx xs cs d payout.

Lemma claimopen_inv ctx xs cs id sig cs' sent : claim_wf cs → claimopen self ctx cs id sig = Ok (cs', sent) →
  ∃ id d payout pre pay, sent = pre ++ pay ∧ pays cs id d payout cs' pay ∧ payment_right ctx xs cs d payout ∧
    ∀ f t q m, ITransfer f t q m ∉ pre.
Proof.
  intros Hw H. unfold claimopen in H. apply bind_inv in H as (d & Hd%tbl_get_inv & H). apply bind_inv in H as (? & _ & H).
  apply bind_inv in H as (? & [Hk%negb_true_iff%bool_decide_eq_false _]%check_inv%andb_true_iff & H).
  apply bind_inv in H as (? & Hacc%check_inv%negb_true_iff & H). apply bind_inv in H as (packed & Hr & H).
  apply bind_inv in H as (? & ->%check_inv%bool_decide_eq_true & H). apply bind_inv in H as (payout & Hpay & H).
  apply bind_inv in H as ([cs1 pay] & Hp & [= <- <-]). apply pay_claim_inv in Hp as (d' & Hp).
  pose proof (py_row _ _ _ _ _ _ Hp) as Hd'. rewrite Hd in Hd'. injection Hd' as <-.
  destruct (cw_row _ Hw _ _ Hd) as (_ & Hq & [Hqr _]%cdt_is_valid_spec).
  set (buy := if 0 <? _ then _ else _). set (addr := if _ <=? 256 then _ else _).
  exists id, d, payout, (INewAccount (newaccount_data self d) :: buy ++ [IBridgeLink (recipient d) (chain d) addr (packedkey d)]), pay.
  split; [cbn [app]; by rewrite <- app_assoc|]. split; [done|]. split.
  - apply (by_credited_key _ _ _ _ _ sig); [done|done|done|].
    destruct (cfg cs) as [c|] eqn:Ec; cbn [default from_option] in *; unfold Datatypes.id in *; [|injection Hpay as <-; simpl; lia].
    destruct (cw_fee _ Hw c Ec) as [Hf Hfv]. destruct (Z.ltb_spec 0 (amount (ram_fee c))) as [Hpos|Hz]; [|injection Hpay as <-; lia].
    do 2 apply bind_inv in Hpay as (? & _ & Hpay). apply cdt_sub_inv in Hpay as (_ & -> & _); [done|done|].
    by apply cdt_is_valid_spec, Hfv.
  - intros f t q m [Hx|[Hx|Hx]%elem_of_app]%elem_of_cons; [done| |by apply list_elem_of_singleton in Hx].
    revert Hx. unfold buy. destruct (0 <? ram_bytes _); intros Hx; [by apply list_elem_of_singleton in Hx|by apply not_elem_of_nil in Hx].
Qed.

(** Every action credits a deposit, pays one, or leaves the deposits alone and sends nothing. *)
Lemma claim_run_cases ctx xs cs a cs' sent : claim_wf cs → claim_run ctx xs cs a = Ok (cs', sent) →
  (sent = [] ∧ deposits cs' = deposits cs ∧ claim_wf cs') ∨
  (sent = [] ∧ ∃ d, credits cs d cs') ∨
  (∃ id d payout pre pay, sent = pre ++ pay ∧ pays cs id d payout cs' pay ∧ payment_right ctx xs cs d payout ∧
     ∀ f t q m, ITransfer f t q m ∉ pre).
Proof.
  intros Hw. destruct a; cbn [claim_run]; intros H.
  - apply bind_inv in H as (x & Hx & [= <- <-]). unfold addrelayer in Hx. do 3 apply bind_inv in Hx as (? & _ & Hx).
    injection Hx as <-. left. split; [done|]. split; [done|]. by destruct Hw; split.
  - apply bind_inv in H as (x & Hx & [= <- <-]). unfold rmrelayer in Hx. do 2 apply bind_inv in Hx as (? & _ & Hx).
    injection Hx as <-. left. split; [done|]. split; [done|]. by destruct Hw; split.
  - apply bind_inv in H as (x & Hx & [= <- <-]). unfold credit in Hx. do 2 apply bind_inv in Hx as (? & _ & Hx).
    apply emplace_deposit_inv in Hx as (d & Hd & _). right. left. split; [done|by exists d].
  - unfold claim in H. apply bind_inv in H as (d & Hd%tbl_get_inv & H). apply bind_inv in H as (? & Ha%check_inv & H).
    apply pay_claim_inv in H as (d' & Hp). pose proof (py_row _ _ _ _ _ _ Hp) as Hd'. rewrite Hd in Hd'. injection Hd' as <-.
    right. right. exists id, d, (quantity d), [], sent. split_and!; [done|done|by apply by_recipient|intros; apply not_elem_of_nil].
  - unfold claimsig in H. apply bind_inv in H as (d & Hd%tbl_get_inv & H). apply bind_inv in H as (? & _ & H).
    apply bind_inv in H as (packed & Hk & H). apply bind_inv in H as (? & Hl%check_inv & H).
    apply pay_claim_inv in H as (d' & Hp). pose proof (py_row _ _ _ _ _ _ Hp) as Hd'. rewrite Hd in Hd'. injection Hd' as <-.
    right. right. exists id, d, (quantity d), [], sent. split_and!; [done|done|by eapply by_linked_key|intros; apply not_elem_of_nil].
  - apply bind_inv in H as (x & Hx & [= <- <-]). unfold creditopen in Hx. do 6 apply bind_inv in Hx as (? & _ & Hx).
    apply emplace_deposit_inv in Hx as (d & Hd & _). right. left. split; [done|by exists d].
  - apply (claimopen_inv ctx xs) in H; [|done]. right. right. exact H.
  - apply bind_inv in H as (x & Hx & [= <- <-]). unfold cfgclaim in Hx. do 2 apply bind_inv in Hx as (? & _ & Hx).
    apply bind_inv in Hx as (? & Hf%check_inv%Z.leb_le & Hx). apply bind_inv in Hx as (? & Hv & [= <-]).
    left. split; [done|]. split; [done|]. destruct Hw as [H1 H2 H3]. split; [done|done|]. intros c [= <-]. cbn [Claim.ram_fee].
    split; [done|]. intros Hp. rewrite (proj2 (Z.ltb_lt _ _) Hp) in Hv. by apply check_inv in Hv.
Qed.

Lemma claim_run_wf ctx xs cs a cs' sent : claim_wf cs → claim_run ctx xs cs a = Ok (cs', sent) → claim_wf cs'.
Proof.
  intros Hw H. apply claim_run_cases in H as [(_ & _ & ?)|[(_ & d & Hd)|(id & d & p & pre & pay & _ & Hp & _)]]; [done|..|done].
  - by eapply credits_wf.
  - by eapply pays_wf.
Qed.

Lemma claim_history_wf cs out : claim_history cs out → claim_wf cs.
Proof. induction 1; [apply claim_init_wf|by eapply claim_run_wf]. Qed.

(** ** Once *)

(** What was sent to an account in a currency, and how many transfers. *)
Definition sent_to (r s : Z) (x : inline_action) : Z :=
  match x with ITransfer _ to q _ => if (to =? r) && (sym q =? s) then amount q else 0 | _ => 0 end.
Definition is_transfer (x : inline_action) : Z := match x with ITransfer _ _ _ _ => 1 | _ => 0 end.

(** What the claimed deposits of an account in a currency come to, and how many there are. *)
Definition credited_to (r s : Z) (_ : Z) (d : deposit) : Z :=
  if claimed d && (recipient d =? r) && (sym (quantity d) =? s) then amount (quantity d) else 0.
Definition is_claimed (_ : Z) (d : deposit) : Z := if claimed d then 1 else 0.

Lemma no_transfers pre : (∀ f t q m, ITransfer f t q m ∉ pre) → zsum is_transfer pre = 0 ∧ ∀ r s, zsum (sent_to r s) pre = 0.
Proof.
  intros H. assert (E : ∀ x, x ∈ pre → is_transfer x = 0 ∧ ∀ r s, sent_to r s x = 0).
  { intros x Hx. destruct x; try done. by apply H in Hx. }
  clear H. induction pre as [|x pre IH]; [done|]. simpl. destruct (E x) as [Hx1 Hx2]; [by left|].
  destruct IH as [I1 I2]; [intros y Hy; apply E; by right|]. split; [lia|]. intros r s. rewrite Hx2, I2. done.
Qed.

(** One payment: one more transfer and one more claimed deposit, which covers the transfer. *)
Lemma pays_counts cs id d payout cs' pay : pays cs id d payout cs' pay →
  tsum is_claimed (deposits cs') = tsum is_claimed (deposits cs) + zsum is_transfer pay ∧
  ∀ r s, zsum (sent_to r s) pay <= tsum (credited_to r s) (deposits cs') - tsum (credited_to r s) (deposits cs).
Proof.
  intros [Hd Ho Hs Ha -> ->]. cbn [deposits set_deposits]. split.
  - rewrite tsum_insert, Hd. simpl. unfold is_claimed. rewrite Ho. simpl. lia.
  - intros r s. rewrite tsum_insert, Hd. simpl. unfold credited_to. rewrite Ho, Hs. simpl.
    destruct (recipient d =? r), (sym (quantity d) =? s); simpl; lia.
Qed.

(** ** The properties *)

(** C25: Over any history of the contract, the number of transfers it has sent is the number of deposits that are marked
    as claimed, what it has sent to an account in a currency is at most what the claimed
    deposits of that account come to, and no two deposits are of the same external transaction. *)
Theorem deposits_are_paid_once cs out : claim_history cs out →
  zsum is_transfer out = tsum is_claimed (deposits cs) ∧
  (∀ r s, zsum (sent_to r s) out <= tsum (credited_to r s) (deposits cs)) ∧
  (∀ i j d e, deposits cs !! i = Some d → deposits cs !! j = Some e → ext_txid d = ext_txid e → i = j).
Proof.
  intros Hh. split; [|split; [|apply (cw_txid _ (claim_history_wf _ _ Hh))]].
  - induction Hh as [|ctx xs cs out a cs' sent Hh IH H]; [done|]. rewrite zsum_app, IH. clear IH.
    apply claim_run_cases in H as [(-> & -> & _)|[(-> & d & Hd)|(id & d & p & pre & pay & -> & Hp & _ & Hpre)]];
      [simpl; lia|..|by eapply claim_history_wf].
    + rewrite (cr_state _ _ _ Hd), tsum_insert, (cr_fresh _ _ _ Hd). unfold is_claimed at 3. rewrite (cr_open _ _ _ Hd). simpl. lia.
    + destruct (pays_counts _ _ _ _ _ _ Hp) as [-> _]. rewrite zsum_app, (proj1 (no_transfers pre Hpre)). lia.
  - intros r s. induction Hh as [|ctx xs cs out a cs' sent Hh IH H]; [done|]. rewrite zsum_app.
    apply claim_run_cases in H as [(-> & -> & _)|[(-> & d & Hd)|(id & d & p & pre & pay & -> & Hp & _ & Hpre)]];
      [simpl; lia|..|by eapply claim_history_wf].
    + rewrite (cr_state _ _ _ Hd), tsum_insert, (cr_fresh _ _ _ Hd). unfold credited_to at 2. rewrite (cr_open _ _ _ Hd). simpl. lia.
    + destruct (pays_counts _ _ _ _ _ _ Hp) as [_ Hs]. rewrite zsum_app, (proj2 (no_transfers pre Hpre)). specialize (Hs r s). lia.
Qed.

(** A transfer is sent only for an open deposit, which the action marks as claimed, to its recipient, in its currency and
    for at most its amount; and only with the authority of the recipient, or with a signature of the claim message of
    this deposit by a key that is linked to the recipient for its chain, or, while the account does not exist, with a signature
    of the message of this deposit by the credited key, then for the amount less the fee. *)
Theorem claims_are_authorized ctx xs cs a cs' sent f r q m : claim_wf cs → claim_run ctx xs cs a = Ok (cs', sent) →
  ITransfer f r q m ∈ sent →
  ∃ id d, deposits cs !! id = Some d ∧ claimed d = false ∧ deposits cs' !! id = Some (mark_claimed d) ∧
    f = self ∧ recipient d = r ∧ sym q = sym (quantity d) ∧ 0 < amount q <= amount (quantity d) ∧ payment_right ctx xs cs d q.
Proof.
  intros Hw H Hin. apply claim_run_cases in H as [(-> & _)|[(-> & _)|(id & d & p & pre & pay & -> & [Hd Ho Hs Ha -> ->] & Hr & Hpre)]];
    [by apply not_elem_of_nil in Hin..| |done].
  apply elem_of_app in Hin as [Hin|Hin]; [by apply Hpre in Hin|]. apply list_elem_of_singleton in Hin. injection Hin as -> -> -> ->.
  exists id, d. cbn [deposits set_deposits]. rewrite lookup_insert_eq. split_and!; try done; apply Ha.
Qed.

(** ** Messages *)

Lemma no_bar n : 0 <= n < 10 ^ 20 → Forall (λ c, c ≠ bar) (dec_string n).
Proof. intros Hn. destruct (dec_string_correct n Hn) as (_ & Hd & _). by apply digits_avoid. Qed.

(** The last field of a message that ends with a number. *)
Lemma last_field a b x y : Forall (λ c, c ≠ bar) x → Forall (λ c, c ≠ bar) y → a ++ [bar] ++ x = b ++ [bar] ++ y → x = y.
Proof.
  intros Hx Hy E. apply (f_equal (λ l, split_at bar (rev l))) in E. rewrite !rev_app_distr in E. cbn [rev app] in E.
  rewrite <- !app_assoc in E. cbn [app] in E. rewrite !split_at_app in E by (by apply Forall_rev). injection E as E _.
  by rewrite <- (rev_involutive x), E, rev_involutive.
Qed.

Lemma dec_string_inj n k : 0 <= n < 10 ^ 20 → 0 <= k < 10 ^ 20 → dec_string n = dec_string k → n = k.
Proof.
  intros Hn Hk E. destruct (dec_string_correct n Hn) as (_ & _ & <-). rewrite E. by destruct (dec_string_correct k Hk) as (_ & _ & ->).
Qed.

(** A signed message names one deposit: claim messages of two deposits are equal only if the deposits have the same id, the same
    holds for the messages that open an account, and no message of one kind is one of the other. *)
Theorem claim_messages_name_deposits d e : is_u64 (deposit_id d) → is_u64 (deposit_id e) →
  (claim_message d = claim_message e → deposit_id d = deposit_id e) ∧
  (claimopen_message d = claimopen_message e → deposit_id d = deposit_id e) ∧
  claim_message d ≠ claimopen_message e.
Proof.
  unfold is_u64. intros Hd He. assert (Hb : 18446744073709551616 < 10 ^ 20) by lia. split_and!.
  - unfold claim_message. rewrite !app_assoc. intros E%app_inv_tail. rewrite <- !(app_assoc _ [bar]) in E.
    apply last_field in E; [|apply no_bar; lia..]. apply dec_string_inj in E; lia.
  - unfold claimopen_message. rewrite !app_assoc. intros E%app_inv_tail. rewrite <- !(app_assoc _ [bar]) in E. 
    apply last_field in E; [|apply no_bar; lia..]. apply dec_string_inj in E; lia.
  - unfold claim_message, claimopen_message. rewrite !app_assoc. intros E.
    apply (f_equal (λ l, nth 5 (rev l) 0)) in E. rewrite !rev_app_distr in E. vm_compute in E. discriminate E.
Qed.

(** ** With the token contract *)

Definition inline_ctx ctx : action_ctx := ActionCtx [PermissionLevel self (name_of "active")] (existing ctx) (now ctx).

(** The transfers that a claim sends, executed by the token contract with the authority of [ra.claim]. *)
Fixpoint execute_transfers ctx (ts : token_state) (sent : list inline_action) : result token_state :=
  match sent with
  | [] => Ok ts
  | ITransfer f t q m :: sent => ts ← transfer ctx ts f t q m; execute_transfers ctx ts sent
  | _ :: sent => execute_transfers ctx ts sent
  end.

Definition open_amount (s : Z) (_ : Z) (d : deposit) : Z :=
  if negb (claimed d) && (sym (quantity d) =? s) then amount (quantity d) else 0.

(** What is credited and not yet claimed in a currency. *)
Definition unclaimed cs (s : Z) : Z := tsum (open_amount s) (deposits cs).

(** The recipient, or the holder of a linked key, asks for a deposit. *)
Inductive asks ctx xs (id : Z) (d : deposit) : claim_action → Prop :=
| asks_claim : has_auth ctx (recipient d) = true → asks ctx xs id d (CClaim id)
| asks_claimsig sig packed : recover_packed_key (sha256_msg (claim_message d)) sig = Ok packed →
    linked_key_matches xs (recipient d) (chain d) packed = true → asks ctx xs id d (CClaimSig id sig).

Lemma asks_pays ctx xs cs id d a : claim_wf cs → deposits cs !! id = Some d → claimed d = false → asks ctx xs id d a →
  claim_run ctx xs cs a = Ok (set_deposits cs (<[id := mark_claimed d]> (deposits cs)),
    [ITransfer self (recipient d) (quantity d) (chars "cross-chain claim")]).
Proof.
  intros Hw Hd Ho Ha. destruct (cw_row _ Hw _ _ Hd) as (_ & Hq & _).
  destruct Ha as [Hauth|sig packed Hr Hl]; cbn [claim_run]; unfold claim, claimsig, tbl_get; rewrite Hd, bind_ok.
  - unfold require_auth. rewrite check_bind by done. by rewrite (pay_claim_ok cs id d).
  - rewrite check_bind by (by rewrite Ho). rewrite Hr, bind_ok, check_bind by done. by rewrite (pay_claim_ok cs id d).
Qed.

Lemma unclaimed_pays cs id d s : deposits cs !! id = Some d → claimed d = false →
  unclaimed (set_deposits cs (<[id := mark_claimed d]> (deposits cs))) s =
  unclaimed cs s - (if sym (quantity d) =? s then amount (quantity d) else 0).
Proof.
  intros Hd Ho. unfold unclaimed. cbn [deposits set_deposits]. rewrite tsum_insert, Hd. simpl. unfold open_amount. rewrite Ho. simpl. lia.
Qed.

Lemma unclaimed_row cs id d : claim_wf cs → deposits cs !! id = Some d → claimed d = false →
  amount (quantity d) <= unclaimed cs (sym (quantity d)).
Proof.
  intros Hw Hd Ho. pose proof (tsum_row (open_amount (sym (quantity d))) (deposits cs) id d) as H.
  unfold open_amount at 2 in H. rewrite Ho, Z.eqb_refl in H. simpl in H. apply H; [|done].
  intros k e He. unfold open_amount. destruct (cw_row _ Hw _ _ He) as (_ & ? & _). destruct (_ && _); lia.
Qed.

(** C26: As long as the treasury covers the open deposits of a currency, a recipient who claims, by authority or by a linked key, is paid in full, and
    the treasury still covers the deposits that remain open. Conditions: the recipient is an existing account other than the claim contract itself; the
    token of exactly the symbol of the deposit, precision included, was created; the recipient's contract, which is notified, does not refuse. *)
Theorem treasury_covers_claims ctx xs cs ts id d a st : claim_wf cs → token_wf ts →
  deposits cs !! id = Some d → claimed d = false → asks ctx xs id d a →
  recipient d ≠ self → is_account ctx (recipient d) = true →
  let s := sym (quantity d) in stats ts !! sym_code s = Some st → sym (supply st) = s →
  unclaimed cs s <= old_balance ts self (sym_code s) →
  returns ('(cs', sent) ← claim_run ctx xs cs a; ts' ← execute_transfers (inline_ctx ctx) ts sent; Ok (cs', ts'))
    (λ r, claim_wf r.1 ∧ token_wf r.2 ∧
      old_balance r.2 (recipient d) (sym_code s) = old_balance ts (recipient d) (sym_code s) + amount (quantity d) ∧
      unclaimed r.1 s <= old_balance r.2 self (sym_code s)).
Proof.
  intros Hw Hts Hd Ho Ha Hne Hacc s Hst Hs Htr. pose proof (asks_pays ctx xs cs id d a Hw Hd Ho Ha) as Hrun.
  pose proof (claim_run_wf ctx xs cs a _ _ Hw Hrun) as Hw'. rewrite Hrun, bind_ok. cbn [execute_transfers].
  destruct (cw_row _ Hw _ _ Hd) as (_ & Hq & Hv). pose proof (unclaimed_row cs id d Hw Hd Ho) as Hrow. fold s in Hrow.
  destruct (transfer_succeeds (inline_ctx ctx) ts self (recipient d) (quantity d) (chars "cross-chain claim") Hts) as [ts' Ht].
  { split_and!; [cbn; by rewrite Z.eqb_refl|done|done|vm_compute; lia|done|done|by exists st|fold s; lia]. }
  rewrite Ht, !bind_ok. cbn [returns fst snd].
  destruct (transfer_moves _ _ _ _ _ _ _ Hts Ht) as [_ Hm]. split_and!; [done|by eapply transfer_wf|..].
  - rewrite Hm. unfold moved. fold s. by rewrite !Z.eqb_refl.
  - rewrite Hm, (unclaimed_pays cs id d s Hd Ho). unfold moved. fold s.
    rewrite !Z.eqb_refl, (proj2 (Z.eqb_neq self (recipient d))) by done. simpl. lia.
Qed.

(** A deposit that was credited for a key is paid to whoever holds the account of that name: [claim] does not look at the key. *)
Lemma lazy_credit_needs_no_key ctx ctx' cs c t r q p k cs' : creditopen self ctx cs c t r q p k = Ok cs' → has_auth ctx' r = true →
  ∃ id cs'', claim self ctx' cs' id = Ok (cs'', [ITransfer self r q (chars "cross-chain claim")]).
Proof.
  unfold creditopen. intros H Ha. do 6 apply bind_inv in H as (? & _ & H).
  apply emplace_deposit_inv in H as (d & [Hn Ho Hq Hv _ Hst _] & _ & _ & Hr & Hqd & _).
  assert (Hd : deposits cs' !! deposit_id d = Some d) by (by rewrite Hst, lookup_insert_eq).
  eexists (deposit_id d), _. unfold claim, tbl_get, require_auth. rewrite Hd, bind_ok, check_bind by (by rewrite Hr).
  rewrite (pay_claim_ok cs' (deposit_id d) d) by (done || lia). by rewrite Hr, Hqd.
Qed.

End ClaimTheory.
