(* ===== verification/AuthexTheory.v ===== *)
(** * Links of external keys are attested

    What every action of [ra.authex] does to the links and the nonces. *)

From S2P Require Import Prelude Names Assets AssetsTheory Authority Contract Authex.
From stdpp Require Import gmap.
Open Scope Z_scope.

Section AuthexTheory.
Context {host : ContractHost}.
Context (self : Z).
Implicit Types (ctx : action_ctx) (xs : authex_state).

Inductive authex_action : Type :=
| XCreateLink (account chain : Z) (addr : std_string)
| XAdminLink (account chain : Z) (addr : std_string)
| XLinkSig (account chain : Z) (addr pubkey : std_string) (nonce : Z) (sig : list Z)
| XBridgeLink (account chain : Z) (addr : std_string) (packedkey : list Z)
| XUnlink (id : Z).

Definition authex_run ctx xs (a : authex_action) : result authex_state :=
  match a with
  | XCreateLink a c d => createlink ctx xs a c d
  | XAdminLink a c d => adminlink self ctx xs a c d
  | XLinkSig a c d p n s => linksig ctx xs a c d p n s
  | XBridgeLink a c d k => bridgelink ctx xs a c d k
  | XUnlink i => unlink self ctx xs i
  end.

(** No account links an address of a chain twice. *)
Record authex_wf xs : Prop := {
  xw_id : ∀ id l, links xs !! id = Some l → link_id l = id ∧ link_chain l ≠ 0 ∧ address l ≠ [];
  xw_once : ∀ i j l k, links xs !! i = Some l → links xs !! j = Some k →
    link_account l = link_account k → link_chain l = link_chain k → address l = address k → i = j }.

(** Who stands for a new link, and for its key. *)
Inductive attested ctx xs (l : link) : Prop :=
| att_account : has_auth ctx (link_account l) = true → link_key l = [] → attested ctx xs l
| att_admin : has_auth ctx self = true → link_key l = [] → attested ctx xs l
| att_signed pubkey sig : has_auth ctx (link_account l) = true → link_key l ≠ [] →
    recover_packed_key (sha256_msg (link_message pubkey (link_account l) (link_chain l) (expected_nonce xs (link_account l)))) sig
      = Ok (link_key l) → attested ctx xs l
| att_bridge : has_auth ctx (name_of "ra.claim") = true → link_key l ≠ [] → attested ctx xs l.

(** A new link of an account that exists. *)
Record adds ctx xs (l : link) xs' : Prop := {
  ad_fresh : links xs !! link_id l = None;
  ad_links : links xs' = <[link_id l := l]> (links xs);
  ad_nonces : nonces xs' = nonces xs;
  ad_account : is_account ctx (link_account l) = true;
  ad_chain : link_chain l ≠ 0;
  ad_address : address l ≠ [];
  ad_once : ∀ j k, links xs !! j = Some k → link_account k = link_account l → link_chain k = link_chain l → address k ≠ address l }.

Lemma add_link_inv ctx xs a c d k xs' : add_link ctx xs a c d k = Ok xs' →
  ∃ l, adds ctx xs l xs' ∧ link_account l = a ∧ link_chain l = c ∧ address l = d ∧ link_key l = k.
Proof.
  unfold add_link. intros (? & Ha%check_inv & H)%bind_inv. apply bind_inv in H as (? & Hc%check_inv%negb_true_iff%Z.eqb_neq & H).
  apply bind_inv in H as (? & [Hd%Z.ltb_lt _]%check_inv%andb_true_iff & H). apply bind_inv in H as (? & Hall%check_inv & H).
  apply bind_inv in H as (t & [Hn ->]%tbl_emplace_inv & [= <-]).
  set (i := if default 1 (link_next_id xs) =? 0 then 1 else default 1 (link_next_id xs)) in *.
  exists (Link i a c d (now ctx) k). split; [|done]. split; try done; cbn [link_account link_chain address].
  - intros ->. simpl in Hd. lia.
  - intros j l Hj E1 E2 E3. pose proof (proj1 (forallb_forall _ _) Hall (j, l)) as H. cbn [snd] in H.
    rewrite E1, E2, E3, !Z.eqb_refl, bool_decide_eq_true_2 in H by done.
    discriminate H. apply list_elem_of_In, elem_of_tbl_rows, Hj.
Qed.

Lemma adds_wf ctx xs l xs' : authex_wf xs → adds ctx xs l xs' → authex_wf xs'.
Proof.
  intros [H1 H2] [Hn Hl _ _ Hc Hd Ho]. split; rewrite Hl.
  - intros i k. destruct (decide (link_id l = i)) as [<- |Hne]; [rewrite lookup_insert_eq; by intros [= <-]|].
    rewrite lookup_insert_ne by done. apply H1.
  - intros i j k m. destruct (decide (link_id l = i)) as [<- |Hi], (decide (link_id l = j)) as [<- |Hj]; [done|..].
    + rewrite lookup_insert_eq, lookup_insert_ne by done. intros [= <-] Hm E1 E2 E3. by destruct (Ho j m Hm).
    + rewrite lookup_insert_eq, lookup_insert_ne by done. intros Hk [= <-] E1 E2 E3. by destruct (Ho i k Hk).
    + rewrite !lookup_insert_ne by done. apply H2.
Qed.

(** The effect of an action. *)
Record steps ctx xs (a : authex_action) xs' : Prop := {
  sp_wf : authex_wf xs → authex_wf xs';
  sp_new : ∀ id l, links xs' !! id = Some l → links xs !! id = Some l ∨ attested ctx xs l;
  sp_gone : ∀ id l, links xs !! id = Some l → links xs' !! id = None → has_auth ctx (link_account l) = true ∨ has_auth ctx self = true;
  sp_nonce : ∀ account, is_u64 (expected_nonce xs account + 1) → expected_nonce xs' account = expected_nonce xs account +
    match a with XLinkSig who _ _ _ _ _ => if who =? account then 1 else 0 | _ => 0 end }.

Lemma adds_steps ctx xs l xs1 xs' a : adds ctx xs l xs1 → attested ctx xs l → links xs' = links xs1 →
  (∀ account, is_u64 (expected_nonce xs account + 1) → expected_nonce xs' account = expected_nonce xs account +
    match a with XLinkSig who _ _ _ _ _ => if who =? account then 1 else 0 | _ => 0 end) → steps ctx xs a xs'.
Proof.
  intros Had Hatt El Hn. split; [| | |done].
  - intros Hw. destruct (adds_wf ctx xs l xs1 Hw Had) as [H1 H2]. by split; rewrite El.
  - intros id k. rewrite El, (ad_links _ _ _ _ Had). destruct (decide (link_id l = id)) as [<- |Hne].
    + rewrite lookup_insert_eq. intros [= <-]. by right.
    + rewrite lookup_insert_ne by done. by left.
  - intros id k Hk. rewrite El, (ad_links _ _ _ _ Had). destruct (decide (link_id l = id)) as [<- |Hne].
    + by rewrite lookup_insert_eq.
    + rewrite lookup_insert_ne by done. congruence.
Qed.

Lemma same_nonce xs xs' account : nonces xs' = nonces xs → expected_nonce xs' account = expected_nonce xs account + 0.
Proof. intros E. unfold expected_nonce. rewrite E. lia. Qed.

Lemma nonempty_key (k : list Z) : 0 < Z.of_nat (length k) → k ≠ [].
Proof. intros H ->. simpl in H. lia. Qed.

Lemma bump_nonce_spec xs account who : is_u64 (expected_nonce xs account + 1) →
  expected_nonce (bump_nonce xs who) account = expected_nonce xs account + if who =? account then 1 else 0.
Proof.
  intros Hu. unfold bump_nonce, expected_nonce in *. cbn [nonces]. destruct (Z.eqb_spec who account) as [-> |Hne].
  - rewrite lookup_insert_eq. cbn [default from_option]. unfold id.
    destruct (nonces xs !! account) as [n|]; cbn in *; [by rewrite u64_small|done].
  - rewrite lookup_insert_ne by done. lia.
Qed.

(** Every link of [ra.authex] is attested: without a key by its account or the registry itself, with a key by the account and
    a signature, over its name, chain and current nonce, that recovers to exactly this key, or by [ra.claim]. A link disappears only with the
    authority of its account or of the registry, no account links an address of a chain twice, and
    every signed link uses up one nonce of its account. *)
Theorem links_are_attested ctx xs a xs' : authex_run ctx xs a = Ok xs' → steps ctx xs a xs'.
Proof.
  destruct a as [a c d|a c d|a c d p n s|a c d k|i]; cbn [authex_run]; intros H.
  - unfold createlink in H. apply bind_inv in H as (? & Ha%check_inv & H). apply add_link_inv in H as (l & Hl & <- & <- & <- & Hk).
    apply (adds_steps _ _ l xs'); [done|by apply att_account|done|]. intros account _. by apply same_nonce, (ad_nonces _ _ _ _ Hl).
  - unfold adminlink in H. apply bind_inv in H as (? & Ha%check_inv & H). apply add_link_inv in H as (l & Hl & <- & <- & <- & Hk).
    apply (adds_steps _ _ l xs'); [done|by apply att_admin|done|]. intros account _. by apply same_nonce, (ad_nonces _ _ _ _ Hl).
  - unfold linksig in H. apply bind_inv in H as (? & Ha%check_inv & H). apply bind_inv in H as (? & _ & H).
    apply bind_inv in H as (? & ->%check_inv%Z.eqb_eq & H). apply bind_inv in H as (packed & Hr & H).
    apply bind_inv in H as (? & Hp%check_inv%Z.ltb_lt & H). apply bind_inv in H as (xs1 & H1 & [= <-]).
    apply add_link_inv in H1 as (l & Hl & <- & <- & <- & <-).
    apply (adds_steps _ _ l xs1); [done|by apply (att_signed _ _ _ p s); [|apply nonempty_key|]|done|].
    intros account Hu. assert (E : expected_nonce xs1 account = expected_nonce xs account)
      by (unfold expected_nonce; by rewrite (ad_nonces _ _ _ _ Hl)).
    rewrite <- E in *. by apply bump_nonce_spec.
  - unfold bridgelink in H. apply bind_inv in H as (? & Ha%check_inv & H). apply bind_inv in H as (? & Hp%check_inv%Z.ltb_lt & H).
    apply add_link_inv in H as (l & Hl & <- & <- & <- & <-).
    apply (adds_steps _ _ l xs'); [done|by apply att_bridge; [|apply nonempty_key]|done|]. intros account _. by apply same_nonce, (ad_nonces _ _ _ _ Hl).
  - unfold unlink in H. apply bind_inv in H as (l & Hl%tbl_get_inv & H). apply bind_inv in H as (? & Ha%check_inv%orb_true_iff & [= <-]).
    split; cbn [links].
    + intros [H1 H2]. split; cbn [links].
      * intros j k Hk. apply lookup_delete_Some in Hk as [_ Hk]. by apply H1.
      * intros j k m o Hm Ho. apply lookup_delete_Some in Hm as [_ Hm], Ho as [_ Ho]. by apply H2.
    + intros j k Hk. apply lookup_delete_Some in Hk as [_ Hk]. by left.
    + intros j k Hk Hd. destruct (decide (i = j)) as [<- |Hne]; [|rewrite lookup_delete_ne in Hd by done; congruence].
      rewrite Hl in Hk. injection Hk as <-. done.
    + intros account _. by apply same_nonce.
Qed.

End AuthexTheory.
