(* ===== verification/ClaimExample.v ===== *)
(** * Claims on concrete states

    A relayer credits a deposit, the recipient links a key and claims: the hypotheses of the theorems
    on [ra.claim] and [ra.authex] hold there. The host is a stand-in whose signatures are the key followed
    by the start of the message. *)

From S2P Require Import Prelude Names Assets AssetsTheory Authority Contract Token TokenTheory Authex AuthexTheory Claim ClaimTheory.
From S2P Require Import OrgTheory OrgActions OrgExample.
From stdpp Require Import gmap.
Import ChainAssets OrgExample.
Open Scope Z_scope.

Module ClaimExample.

#[export] Instance toy_host : ContractHost := {|
  host_sha256 m := m;
  recover_key d s := if bool_decide (drop 8 s = take 8 d) then Ok (take 8 s) else Err eosio_assert_message_exception;
  name_string := to_string;
  name_length n := Z.of_nat (length (to_string n));
  asset_string a := ok_or [] (asset_to_string a) |}.

Definition clm : Z := name_of "ra.claim".
Definition reg : Z := name_of "ra.authex".
Definition rel : Z := name_of "relayer".
Definition evm : Z := name_of "evm".
Definition people : gset Z := {[clm; reg; rel; bob; carol; donor; tok]}.
Definition acting (who : Z) : action_ctx := ActionCtx [PermissionLevel who (name_of "active")] people 0.

Definition bob_key : list Z := [4; 1; 2; 3; 4; 5; 6; 7].
Definition sign_with (key msg : list Z) : list Z := key ++ take 8 msg.

(** Bob links the key. *)
Definition link_action : authex_action :=
  XLinkSig bob evm (chars "0xb0b") (chars "PUB") 0 (sign_with bob_key (link_message (chars "PUB") bob evm 0)).
Definition registry : authex_state := ok_or authex_init (authex_run reg (acting bob) authex_init link_action).

Lemma registry_reached : authex_run reg (acting bob) authex_init link_action = Ok registry.
Proof. vm_compute. reflexivity. Qed.

Lemma links_are_attested_witness :
  (∀ id l, links registry !! id = Some l → links authex_init !! id = Some l ∨ attested reg (acting bob) authex_init l) ∧
  expected_nonce registry bob = 1.
Proof.
  pose proof (links_are_attested reg (acting bob) authex_init link_action registry registry_reached) as H.
  split; [exact (sp_new _ _ _ _ _ H)|]. rewrite (sp_nonce _ _ _ _ _ H bob); [reflexivity|]. vm_compute. split; [discriminate|reflexivity].
Defined.

(** Two deposits are credited, and the first is claimed with the linked key. *)
Definition txid (n : Z) : list Z := replicate 31 0 ++ [n].

Definition claim_log : list (Z * claim_action) :=
  [(clm, CAddRelayer rel);
   (rel, CCredit evm (txid 1) bob (Asset 700 symbol));
   (rel, CCredit evm (txid 2) carol (Asset 300 symbol))].

Fixpoint claim_exec (cs : claim_state) (out : list inline_action) (l : list (Z * claim_action)) : result (claim_state * list inline_action) :=
  match l with
  | [] => Ok (cs, out)
  | (who, a) :: l => '(cs, sent) ← claim_run clm (acting who) registry cs a; claim_exec cs (out ++ sent) l
  end.

Lemma claim_exec_history l : ∀ cs out cs' out', claim_history clm cs out → claim_exec cs out l = Ok (cs', out') →
  claim_history clm cs' out'.
Proof.
  induction l as [|[who a] l IH]; intros cs out cs' out' Hh; cbn [claim_exec]; [by intros [= <- <-]|].
  intros ([cs1 sent] & H1 & H)%bind_inv. refine (IH _ _ _ _ _ H). by eapply ch_step.
Qed.

Definition credited : claim_state := (ok_or (claim_init, []) (claim_exec claim_init [] claim_log)).1.

Lemma credited_reached : claim_exec claim_init [] claim_log = Ok (credited, []).
Proof. vm_compute. reflexivity. Qed.

Lemma credited_history : claim_history clm credited [].
Proof. apply (claim_exec_history claim_log claim_init []); [apply ch_init|apply credited_reached]. Qed.

Definition deposit_at (cs : claim_state) (id : Z) : deposit :=
  default (Deposit 0 [] 0 0 (Asset 0 0) false 0 [] []) (deposits cs !! id).

Definition first : deposit := deposit_at credited 1.
Definition bob_claims : claim_action := CClaimSig 1 (sign_with bob_key (claim_message first)).
Definition settled : claim_state * list inline_action :=
  ok_or (claim_init, []) (claim_run clm (acting rel) registry credited bob_claims).

Lemma settled_reached : claim_run clm (acting rel) registry credited bob_claims = Ok (settled.1, settled.2).
Proof. vm_compute. reflexivity. Qed.

Lemma settled_history : claim_history clm settled.1 settled.2.
Proof. exact (ch_step clm (acting rel) registry credited [] bob_claims settled.1 settled.2 credited_history settled_reached). Qed.

Lemma deposits_are_paid_once_witness :
  zsum is_transfer settled.2 = 1 ∧ tsum is_claimed (deposits settled.1) = 1 ∧
  zsum (sent_to bob symbol) settled.2 <= tsum (credited_to bob symbol) (deposits settled.1).
Proof.
  destruct (deposits_are_paid_once clm settled.1 settled.2 settled_history) as (H1 & H2 & _).
  assert (E : zsum is_transfer settled.2 = 1) by (vm_compute; reflexivity).
  split_and!; [exact E|rewrite <- H1; exact E|exact (H2 bob symbol)].
Defined.

Lemma claims_are_authorized_witness :
  ∃ id d, deposits credited !! id = Some d ∧ claimed d = false ∧ payment_right (acting rel) registry credited d (Asset 700 symbol).
Proof.
  destruct (claims_are_authorized clm (acting rel) registry credited bob_claims settled.1 settled.2 clm bob (Asset 700 symbol)
    (chars "cross-chain claim") (claim_history_wf clm credited [] credited_history) settled_reached) as (id & d & H1 & H2 & _ & _ & _ & _ & _ & H3).
  - assert (E : settled.2 = [ITransfer clm bob (Asset 700 symbol) (chars "cross-chain claim")]) by (vm_compute; reflexivity).
    rewrite E. by left.
  - exists id, d. split_and!; [exact H1|exact H2|exact H3].
Defined.

Lemma claim_messages_name_deposits_witness : claim_message first ≠ claim_message (deposit_at credited 2).
Proof.
  intros E. destruct (claim_messages_name_deposits first (deposit_at credited 2)) as [H _].
  - vm_compute. split; [discriminate|reflexivity].
  - vm_compute. split; [discriminate|reflexivity].
  - apply H in E. vm_compute in E. discriminate E.
Defined.

(** The treasury holds 10.00. *)
Definition treasury : token_state := ok_or token_init (token_run tok (acting donor) bank (ATransfer donor clm (Asset 1000 symbol) [])).

Lemma treasury_reachable : token_reachable tok treasury.
Proof.
  apply (tr_step tok (acting donor) bank (ATransfer donor clm (Asset 1000 symbol) []) treasury); [apply bank_reachable|].
  vm_compute. reflexivity.
Qed.

Lemma treasury_covers_claims_witness :
  returns ('(cs', sent) ← claim_run clm (acting bob) registry credited (CClaim 1);
           ts' ← execute_transfers (inline_ctx clm (acting bob)) treasury sent; Ok (cs', ts'))
    (λ r, old_balance r.2 bob (sym_code symbol) = 950 ∧ unclaimed r.1 symbol <= old_balance r.2 clm (sym_code symbol)).
Proof.
  destruct (stats treasury !! sym_code symbol) as [st|] eqn:Est; [|exfalso; vm_compute in Est; discriminate Est].
  assert (Hs : sym (supply st) = symbol) by (vm_compute in Est; injection Est as <-; reflexivity).
  assert (Hd : deposits credited !! 1 = Some first) by (vm_compute; reflexivity).
  assert (Hq : quantity first = Asset 700 symbol) by (vm_compute; reflexivity).
  assert (Hr : recipient first = bob) by (vm_compute; reflexivity).
  pose proof (treasury_covers_claims clm (acting bob) registry credited treasury 1 first (CClaim 1) st
    (claim_history_wf clm credited [] credited_history) (token_reachable_wf tok treasury treasury_reachable) Hd) as H.
  rewrite Hq, Hr in H. cbn [sym amount] in H.
  specialize (H ltac:(vm_compute; reflexivity) ltac:(apply asks_claim; rewrite Hr; reflexivity) ltac:(vm_compute; discriminate)
    ltac:(vm_compute; reflexivity) Est Hs ltac:(vm_compute; discriminate)).
  destruct (mbind _ (claim_run _ _ _ _ _)) as [[cs' ts']|e]; [|exact H]. cbn [returns fst snd] in *.
  destruct H as (_ & _ & Hb & Hu). split; [|exact Hu]. rewrite Hb. vm_compute. reflexivity.
Defined.

End ClaimExample.
