(* ===== verification/Msig.v ===== *)
(** * The multisig contract ([contracts/ra.msig])

    Proposals, their approvals in the current and in the old format, and the times at which accounts
    invalidated what they had approved. Unpacking transactions and the host's check of
    their authorization are parameters (class [MsigHost]). *)

From S2P Require Import Prelude Names Authority Contract.
From stdpp Require Import gmap.
Open Scope Z_scope.

Class MsigHost : Type := {
  act : Type;                                                   (* an action of a transaction *)
  unpack_expiration : list Z → result Z;                        (* the header of a packed transaction *)
  unpack_delay_sec : list Z → result Z;
  unpack_context_free : list Z → result (list act);
  unpack_actions : list Z → result (list act);
  check_transaction_authorization : list Z → list permission_level → bool;
  msig_sha256 : list Z → list Z }.

(** [earliest_exec_time] is absent in old proposals and empty until a proposal is authorized. *)
Record proposal : Type := Proposal {
  packed_transaction : list Z;
  earliest_exec_time : option (option Z) }.

Record approval : Type := Approval { approval_level : permission_level; approval_time : Z }.

Record approvals_info : Type := ApprovalsInfo {
  requested_approvals : list approval;
  provided_approvals : list approval }.

Record old_approvals_info : Type := OldApprovalsInfo {
  old_requested : list permission_level;
  old_provided : list permission_level }.

(** Tables scoped by the proposer, rows by the name of the proposal; [invals] by account. *)
Record msig_state : Type := MsigState {
  proptable : gmap (Z * Z) proposal;
  apptable : gmap (Z * Z) approvals_info;
  old_apptable : gmap (Z * Z) old_approvals_info;
  inv_table : gmap Z Z }.

Definition msig_init : msig_state := MsigState ∅ ∅ ∅ ∅.

Section Msig.
Context {host : MsigHost}.
Implicit Types (ctx : action_ctx) (ms : msig_state).

Definition set_props ms t : msig_state := MsigState t (apptable ms) (old_apptable ms) (inv_table ms).
Definition set_apps ms t : msig_state := MsigState (proptable ms) t (old_apptable ms) (inv_table ms).
Definition set_old_apps ms t : msig_state := MsigState (proptable ms) (apptable ms) t (inv_table ms).

(** [current_time_point()] as [time_point_sec]. *)
Definition now_sec ctx : Z := u32 (Z.quot (now ctx) 1000000).

(** An approval counts if its account has not invalidated it since; old approvals have no time. *)
Definition valid_approval ms (a : approval) : bool :=
  match inv_table ms !! actor (approval_level a) with None => true | Some t => t <? approval_time a end.

(** The approvals that count; the operation on the table is the caller's. *)
Definition get_approvals ms (k : Z * Z) : result (list permission_level) :=
  match apptable ms !! k with
  | Some info => Ok (approval_level <$> filter (λ a, valid_approval ms a = true) (provided_approvals info))
  | None =>
    old ← tbl_get (old_apptable ms) k;
    Ok (filter (λ l, inv_table ms !! actor l = None) (old_provided old))
  end.

(** [table.erase] of whichever table has the approvals. *)
Definition erase_approvals ms (k : Z * Z) : msig_state :=
  match apptable ms !! k with
  | Some _ => set_apps ms (delete k (apptable ms))
  | None => set_old_apps ms (delete k (old_apptable ms))
  end.

Definition trx_is_authorized (approvals : list permission_level) (packed_trx : list Z) : bool :=
  check_transaction_authorization packed_trx approvals.

(** The first entry that satisfies a test, and the list without it. *)
Fixpoint find_erase {A} (p : A → bool) (l : list A) : option (list A) :=
  match l with
  | [] => None
  | x :: l => if p x then Some l else cons x <$> find_erase p l
  end.

Definition propose ctx ms (proposer proposal_name : Z) (requested : list permission_level) (trx : list Z) : result msig_state :=
  require_auth ctx proposer;;
  expiration ← unpack_expiration trx;
  require (now_sec ctx <=? expiration);;
  context_free_actions ← unpack_context_free trx;
  require (match context_free_actions with [] => true | _ => false end);;
  let k := (proposer, proposal_name) in
  require (bool_decide (proptable ms !! k = None));;
  require (check_transaction_authorization trx requested);;
  props ← tbl_emplace (proptable ms) k (Proposal trx (Some None));
  apps ← tbl_emplace (apptable ms) k (ApprovalsInfo ((λ l, Approval l 0) <$> requested) []);
  Ok (MsigState props apps (old_apptable ms) (inv_table ms)).

(** The table part of [approve]. *)
Definition provide ctx ms (k : Z * Z) (level : permission_level) : result msig_state :=
  match apptable ms !! k with
  | Some info =>
    match find_erase (λ a, level_eqb (approval_level a) level) (requested_approvals info) with
    | None => Err eosio_assert_message_exception
    | Some requested =>
      Ok (set_apps ms (<[k := ApprovalsInfo requested (provided_approvals info ++ [Approval level (now ctx)])]> (apptable ms)))
    end
  | None =>
    old ← tbl_get (old_apptable ms) k;
    match find_erase (λ l, level_eqb l level) (old_requested old) with
    | None => Err eosio_assert_message_exception
    | Some requested => Ok (set_old_apps ms (<[k := OldApprovalsInfo requested (old_provided old ++ [level])]> (old_apptable ms)))
    end
  end.

Definition approve ctx ms (proposer proposal_name : Z) (level : permission_level) (proposal_hash : option (list Z)) : result msig_state :=
  require_level ctx level;;
  let k := (proposer, proposal_name) in
  prop ← tbl_get (proptable ms) k;
  (match proposal_hash with
   | Some h => require (bool_decide (msig_sha256 (packed_transaction prop) = h))
   | None => Ok tt
   end);;
  ms ← provide ctx ms k level;
  delay_sec ← unpack_delay_sec (packed_transaction prop);
  match earliest_exec_time prop with
  | Some None =>
    approvals ← get_approvals ms k;
    if trx_is_authorized approvals (packed_transaction prop)
    then Ok (set_props ms (<[k := Proposal (packed_transaction prop) (Some (Some (now ctx + delay_sec * 1000000)))]> (proptable ms)))
    else Ok ms
  | Some (Some _) => Ok ms
  | None => require (delay_sec =? 0);; Ok ms
  end.

(** The table part of [unapprove]. *)
Definition withdraw ctx ms (k : Z * Z) (level : permission_level) : result msig_state :=
  match apptable ms !! k with
  | Some info =>
    match find_erase (λ a, level_eqb (approval_level a) level) (provided_approvals info) with
    | None => Err eosio_assert_message_exception
    | Some provided =>
      Ok (set_apps ms (<[k := ApprovalsInfo (requested_approvals info ++ [Approval level (now ctx)]) provided]> (apptable ms)))
    end
  | None =>
    old ← tbl_get (old_apptable ms) k;
    match find_erase (λ l, level_eqb l level) (old_provided old) with
    | None => Err eosio_assert_message_exception
    | Some provided => Ok (set_old_apps ms (<[k := OldApprovalsInfo (old_requested old ++ [level]) provided]> (old_apptable ms)))
    end
  end.

Definition unapprove ctx ms (proposer proposal_name : Z) (level : permission_level) : result msig_state :=
  require_level ctx level;;
  let k := (proposer, proposal_name) in
  ms ← withdraw ctx ms k level;
  prop ← tbl_get (proptable ms) k;
  match earliest_exec_time prop with
  | Some (Some _) =>
    approvals ← get_approvals ms k;
    if negb (trx_is_authorized approvals (packed_transaction prop))
    then Ok (set_props ms (<[k := Proposal (packed_transaction prop) (Some None)]> (proptable ms)))
    else Ok ms
  | Some None => Ok ms
  | None => delay_sec ← unpack_delay_sec (packed_transaction prop); require (delay_sec =? 0);; Ok ms
  end.

Definition cancel ctx ms (proposer proposal_name canceler : Z) : result msig_state :=
  require_auth ctx canceler;;
  let k := (proposer, proposal_name) in
  prop ← tbl_get (proptable ms) k;
  (if negb (canceler =? proposer) then
     expiration ← unpack_expiration (packed_transaction prop);
     require (expiration <? now_sec ctx)
   else Ok tt);;
  let ms := set_props ms (delete k (proptable ms)) in
  match apptable ms !! k with
  | Some _ => Ok (set_apps ms (delete k (apptable ms)))
  | None => tbl_get (old_apptable ms) k;; Ok (set_old_apps ms (delete k (old_apptable ms)))
  end.

Definition exec ctx ms (proposer proposal_name executer : Z) : result (msig_state * list act) :=
  require_auth ctx executer;;
  let k := (proposer, proposal_name) in
  prop ← tbl_get (proptable ms) k;
  expiration ← unpack_expiration (packed_transaction prop);
  require (now_sec ctx <=? expiration);;
  context_free_actions ← unpack_context_free (packed_transaction prop);
  require (match context_free_actions with [] => true | _ => false end);;
  actions ← unpack_actions (packed_transaction prop);
  approvals ← get_approvals ms k;
  let ms := erase_approvals ms k in
  require (trx_is_authorized approvals (packed_transaction prop));;
  (match earliest_exec_time prop with
   | Some (Some t) => require (t <=? now ctx)
   | _ => delay_sec ← unpack_delay_sec (packed_transaction prop); require (delay_sec =? 0)
   end);;
  Ok (set_props ms (delete k (proptable ms)), actions).

Definition invalidate ctx ms (account : Z) : result msig_state :=
  require_auth ctx account;;
  Ok (MsigState (proptable ms) (apptable ms) (old_apptable ms) (<[account := now ctx]> (inv_table ms))).

End Msig.
