(* ===== verification/MsigTheory.v ===== *)
(** * What is executed was approved

    Histories of [ra.msig], and that a proposal is executed only with approvals that were given for this
    transaction, after its last proposal, and not invalidated since. *)

From S2P Require Import Prelude Names Authority Contract Msig.
From stdpp Require Import gmap.
Open Scope Z_scope.

Section MsigTheory.
Context {host : MsigHost}.
Implicit Types (ctx : action_ctx) (ms : msig_state).

Inductive msig_action : Type :=
| MPropose (proposer proposal_name : Z) (requested : list permission_level) (trx : list Z)
| MApprove (proposer proposal_name : Z) (level : permission_level) (proposal_hash : option (list Z))
| MUnapprove (proposer proposal_name : Z) (level : permission_level)
| MCancel (proposer proposal_name canceler : Z)
| MExec (proposer proposal_name executer : Z)
| MInvalidate (account : Z).

Definition msig_run ctx ms (a : msig_action) : result (msig_state * list act) :=
  let quiet m := ms ← m; Ok (ms, []) in
  match a with
  | MPropose p n r t => quiet (propose ctx ms p n r t)
  | MApprove p n l h => quiet (approve ctx ms p n l h)
  | MUnapprove p n l => quiet (unapprove ctx ms p n l)
  | MCancel p n c => quiet (Msig.cancel ctx ms p n c)
  | MExec p n e => exec ctx ms p n e
  | MInvalidate a => quiet (invalidate ctx ms a)
  end.

Abbreviation history := (list (action_ctx * msig_action)) (only parsing).

(** The states that are reached without proposals of the old format, with the successful actions, the
    last one first, at times that do not go back. *)
Inductive msig_history : msig_state → history → Prop :=
| mh_init : msig_history msig_init []
| mh_step ctx ms h a ms' acts : msig_history ms h → (∀ e, e ∈ h → now e.1 <= now ctx) →
    msig_run ctx ms a = Ok (ms', acts) → msig_history ms' ((ctx, a) :: h).

(** ** The invariant *)

(** The level approved the proposal at a time. *)
Definition approved_at (h : history) (k : Z * Z) (l : permission_level) (t : Z) : Prop :=
  ∃ ctx hash, (ctx, MApprove k.1 k.2 l hash) ∈ h ∧ existsb (level_eqb l) (auth ctx) = true ∧ now ctx = t.

(** The actions that make a proposal under a name or end it. *)
Definition makes_or_ends (k : Z * Z) (a : msig_action) : bool :=
  match a with
  | MPropose p n _ _ | MCancel p n _ | MExec p n _ => bool_decide ((p, n) = k)
  | _ => false
  end.

(** The events since a transaction was proposed account for the rows of the proposal. *)
Record accounted (h : history) (k : Z * Z) (p : proposal) (info : approvals_info) : Prop := {
  ac_time : earliest_exec_time p ≠ None;
  ac_since : ∃ h1 h2 ctx0 req, h = h1 ++ (ctx0, MPropose k.1 k.2 req (packed_transaction p)) :: h2 ∧
    (∀ e, e ∈ h1 → makes_or_ends k e.2 = false) ∧
    (∀ a, a ∈ provided_approvals info → approved_at h1 k (approval_level a) (approval_time a)) ∧
    (∀ t, earliest_exec_time p = Some (Some t) → ∃ l ta delay, approved_at h1 k l ta ∧
       unpack_delay_sec (packed_transaction p) = Ok delay ∧ t = ta + delay * 1000000) }.

Record msig_inv ms (h : history) : Prop := {
  mi_old : old_apptable ms = ∅;
  mi_apps : ∀ k, is_Some (apptable ms !! k) → is_Some (proptable ms !! k);
  mi_rows : ∀ k p, proptable ms !! k = Some p → ∃ info, apptable ms !! k = Some info ∧ accounted h k p info;
  mi_inval : ∀ ctx account, (ctx, MInvalidate account) ∈ h → ∃ t, inv_table ms !! account = Some t ∧ now ctx <= t }.

Lemma approved_later h e k l t : approved_at h k l t → approved_at (e :: h) k l t.
Proof. intros (ctx & hash & Hin & H). exists ctx, hash. split; [by right|done]. Qed.

Lemma none_later (h : history) (e : action_ctx * msig_action) k : makes_or_ends k e.2 = false → (∀ x, x ∈ h → makes_or_ends k x.2 = false) →
  ∀ x, x ∈ e :: h → makes_or_ends k x.2 = false.
Proof. intros He Hh x [->|Hx]%elem_of_cons; [done|by apply Hh]. Qed.

Lemma accounted_later h (e : action_ctx * msig_action) k p info : makes_or_ends k e.2 = false → accounted h k p info → accounted (e :: h) k p info.
Proof.
  intros He [H1 (h1 & h2 & ctx0 & req & -> & Hn & Ha & Ht)]. split; [done|]. exists (e :: h1), h2, ctx0, req. split; [done|].
  split; [by apply none_later|]. split.
  - intros a Hin. by apply approved_later, Ha.
  - intros t E. destruct (Ht t E) as (l & ta & delay & Hap & H). exists l, ta, delay. split; [by apply approved_later|done].
Qed.

(** The rows of one proposal change, all others are as they were. *)
Lemma inv_update ms h ctx a k p info : msig_inv ms h → (∀ account, a ≠ MInvalidate account) →
  (∀ k', k ≠ k' → makes_or_ends k' a = false) →
  accounted ((ctx, a) :: h) k p info →
  msig_inv (MsigState (<[k := p]> (proptable ms)) (<[k := info]> (apptable ms)) (old_apptable ms) (inv_table ms)) ((ctx, a) :: h).
Proof.
  intros [H1 H2 H3 H4] Hne Hother Hac. split; cbn [proptable apptable old_apptable inv_table]; [done|..].
  - intros k'. destruct (decide (k = k')) as [<- |Hk]; [by rewrite !lookup_insert_eq|]. rewrite !lookup_insert_ne by done. apply H2.
  - intros k' p'. destruct (decide (k = k')) as [<- |Hk].
    + rewrite !lookup_insert_eq. intros [= <-]. by exists info.
    + rewrite !lookup_insert_ne by done. intros Hp. destruct (H3 _ _ Hp) as (i & Hi & Ha). exists i. split; [done|]. by apply accounted_later; [apply Hother|].
  - intros ctx' account [[= -> <-]|Hin]%elem_of_cons; [by destruct (Hne account)|]. by apply H4.
Qed.

(** The rows of one proposal disappear. *)
Lemma inv_delete ms h ctx a k : msig_inv ms h → (∀ account, a ≠ MInvalidate account) →
  (∀ k', k ≠ k' → makes_or_ends k' a = false) →
  msig_inv (MsigState (delete k (proptable ms)) (delete k (apptable ms)) (old_apptable ms) (inv_table ms)) ((ctx, a) :: h).
Proof.
  intros [H1 H2 H3 H4] Hne Hother. split; cbn [proptable apptable old_apptable inv_table]; [done|..].
  - intros k' [i Hi]. apply lookup_delete_Some in Hi as [Hk Hi]. rewrite lookup_delete_ne by done. apply H2. by exists i.
  - intros k' p' Hp. apply lookup_delete_Some in Hp as [Hk Hp]. destruct (H3 _ _ Hp) as (i & Hi & Ha). exists i.
    rewrite lookup_delete_ne by done. split; [done|]. by apply accounted_later; [apply Hother|].
  - intros ctx' account [[= -> <-]|Hin]%elem_of_cons; [by destruct (Hne account)|]. by apply H4.
Qed.

Lemma find_erase_subset {A} (p : A → bool) l l' x : find_erase p l = Some l' → x ∈ l' → x ∈ l.
Proof.
  revert l'. induction l as [|y l IH]; intros l'; cbn [find_erase]; [done|]. destruct (p y); [intros [= ->] Hx; by right|].
  intros (l0 & Hl & ->)%fmap_Some_1 [-> |Hx]%elem_of_cons; [by left|right; by apply (IH l0)].
Qed.

Lemma insert_same (m : gmap (Z * Z) proposal) k p : m !! k = Some p → <[k := p]> m = m.
Proof. apply insert_id. Qed.

(** ** Each action *)

Lemma propose_inv ctx ms h p n r t ms' : msig_inv ms h → propose ctx ms p n r t = Ok ms' →
  msig_inv ms' ((ctx, MPropose p n r t) :: h).
Proof.
  intros Hi H. unfold propose in H. do 7 apply bind_inv in H as (? & _ & H).
  apply bind_inv in H as (props & [_ ->]%tbl_emplace_inv & H). apply bind_inv in H as (apps & [_ ->]%tbl_emplace_inv & [= <-]).
  apply (inv_update ms h); [done|done|by intros k' Hk; apply bool_decide_eq_false_2|]. split; [done|]. exists [], h, ctx, r.
  split; [done|]. split; [by intros a Ha%not_elem_of_nil|]. split; [|done]. intros a Ha. by apply not_elem_of_nil in Ha.
Qed.

Lemma approve_inv ctx ms h p n l hs ms' : msig_inv ms h → approve ctx ms p n l hs = Ok ms' →
  msig_inv ms' ((ctx, MApprove p n l hs) :: h).
Proof.
  intros Hi H. unfold approve in H. apply bind_inv in H as (? & Hl%check_inv & H). apply bind_inv in H as (prop & Hp%tbl_get_inv & H).
  apply bind_inv in H as (? & _ & H). apply bind_inv in H as (ms1 & H1 & H). apply bind_inv in H as (delay & Hd & H).
  destruct (mi_rows _ _ Hi _ _ Hp) as (info & Hinfo & [Hte (h1 & h2 & ctx0 & req & -> & Hnone & Hap & Ht)]).
  unfold provide in H1. rewrite Hinfo in H1. destruct (find_erase _ _) as [reqs|]; [|done]. injection H1 as <-.
  set (info' := ApprovalsInfo reqs _) in *. set (ev := (ctx, MApprove p n l hs)).
  assert (Hnew : approved_at (ev :: h1) (p, n) l (now ctx)) by (exists ctx, hs; split_and!; [by left|done|done]).
  assert (Hprov : ∀ a, a ∈ provided_approvals info' → approved_at (ev :: h1) (p, n) (approval_level a) (approval_time a)).
  { intros a [Ha| ->%list_elem_of_singleton]%elem_of_app; [by apply approved_later, Hap|done]. }
  assert (Hac : ∀ q, packed_transaction q = packed_transaction prop → earliest_exec_time q ≠ None →
    (∀ t, earliest_exec_time q = Some (Some t) → earliest_exec_time prop = Some (Some t) ∨ t = now ctx + delay * 1000000) →
    accounted (ev :: h1 ++ (ctx0, MPropose p n req (packed_transaction prop)) :: h2) (p, n) q info').
  { intros q Eq Hq Htq. split; [done|]. exists (ev :: h1), h2, ctx0, req. rewrite Eq. split; [done|]. split; [by apply none_later|]. split; [done|].
    intros t [Ho| ->]%Htq; [|by exists l, (now ctx), delay].
    destruct (Ht t Ho) as (l' & ta & dl & Ha & Hx). exists l', ta, dl. split; [by apply approved_later|done]. }
  assert (Hkeep : msig_inv (set_apps ms (<[(p, n) := info']> (apptable ms)))
    (ev :: h1 ++ (ctx0, MPropose p n req (packed_transaction prop)) :: h2)).
  { unfold set_apps. rewrite <- (insert_same (proptable ms) (p, n) prop Hp).
    apply (inv_update ms); [done|done|done|]. apply Hac; [done|done|by left]. }
  destruct (earliest_exec_time prop) as [[t0|]|] eqn:Et; [injection H as <-; done| |done].
  apply bind_inv in H as (aps & _ & H). destruct (trx_is_authorized _ _); injection H as <-; [|done].
  apply (inv_update ms); [done|done|done|]. apply Hac; [done|done|]. intros t [= <-]. by right.
Qed.

Lemma unapprove_inv ctx ms h p n l ms' : msig_inv ms h → unapprove ctx ms p n l = Ok ms' →
  msig_inv ms' ((ctx, MUnapprove p n l) :: h).
Proof.
  intros Hi H. unfold unapprove in H. apply bind_inv in H as (? & _ & H). apply bind_inv in H as (ms1 & H1 & H).
  unfold withdraw in H1. destruct (apptable ms !! (p, n)) as [info|] eqn:Hinfo.
  2: { rewrite (mi_old _ _ Hi) in H1. unfold tbl_get in H1. by rewrite lookup_empty in H1. }
  destruct (find_erase _ _) as [prov|] eqn:Ef; [|done]. injection H1 as <-.
  apply bind_inv in H as (prop & Hp%tbl_get_inv & H). cbn [proptable set_apps] in Hp.
  destruct (mi_rows _ _ Hi _ _ Hp) as (info0 & Hinfo' & [Hte (h1 & h2 & ctx0 & req & Eh & Hnone & Hap & Ht)]).
  rewrite Hinfo in Hinfo'. injection Hinfo' as <-. set (info' := ApprovalsInfo _ prov) in *. set (ev := (ctx, MUnapprove p n l)).
  assert (Hac : ∀ q, packed_transaction q = packed_transaction prop → earliest_exec_time q ≠ None →
    (∀ t, earliest_exec_time q = Some (Some t) → earliest_exec_time prop = Some (Some t)) → accounted (ev :: h) (p, n) q info').
  { intros q Eq Hq Htq. split; [done|]. exists (ev :: h1), h2, ctx0, req. rewrite Eq, Eh. split; [done|]. split; [by apply none_later|]. split.
    - intros a Ha. apply approved_later, Hap. by apply (find_erase_subset _ _ _ _ Ef).
    - intros t Ho%Htq. destruct (Ht t Ho) as (l' & ta & dl & Ha & Hx). exists l', ta, dl. split; [by apply approved_later|done]. }
  assert (Hkeep : msig_inv (set_apps ms (<[(p, n) := info']> (apptable ms))) (ev :: h)).
  { unfold set_apps. rewrite <- (insert_same (proptable ms) (p, n) prop Hp). apply (inv_update ms); [done|done|done|]. by apply Hac. }
  destruct (earliest_exec_time prop) as [[t0|]|] eqn:Et; [|injection H as <-; done|done].
  apply bind_inv in H as (aps & _ & H). destruct (negb _); injection H as <-; [|done].
  apply (inv_update ms); [done|done|done|]. by apply Hac.
Qed.

Lemma cancel_inv ctx ms h p n c ms' : msig_inv ms h → Msig.cancel ctx ms p n c = Ok ms' → msig_inv ms' ((ctx, MCancel p n c) :: h).
Proof.
  intros Hi H. unfold Msig.cancel in H. apply bind_inv in H as (? & _ & H). apply bind_inv in H as (prop & Hp%tbl_get_inv & H).
  apply bind_inv in H as (? & _ & H). destruct (mi_rows _ _ Hi _ _ Hp) as (info & Hinfo & _).
  cbn [apptable set_props] in H. rewrite Hinfo in H. injection H as <-. apply (inv_delete ms); [done|done|]. intros k' Hk. by apply bool_decide_eq_false_2.
Qed.

Lemma exec_inv ctx ms h p n e ms' acts : msig_inv ms h → exec ctx ms p n e = Ok (ms', acts) → msig_inv ms' ((ctx, MExec p n e) :: h).
Proof.
  intros Hi H. unfold exec in H. apply bind_inv in H as (? & _ & H). apply bind_inv in H as (prop & Hp%tbl_get_inv & H).
  do 8 apply bind_inv in H as (? & _ & H). injection H as <- <-.
  destruct (mi_rows _ _ Hi _ _ Hp) as (info & Hinfo & _). unfold erase_approvals. rewrite Hinfo. apply (inv_delete ms); [done|done|].
  intros k' Hk. by apply bool_decide_eq_false_2.
Qed.

Lemma msig_history_inv ms h : msig_history ms h → msig_inv ms h.
Proof.
  induction 1 as [|ctx ms h a ms' acts Hh IH Hclock H].
  { split; [done|by intros k [? ?]|done|]. intros ctx account Hin. by apply not_elem_of_nil in Hin. }
  destruct a; cbn [msig_run] in H; [..|]; try (apply bind_inv in H as (ms1 & H & [= <- <-])).
  - by eapply propose_inv.
  - by eapply approve_inv.
  - by eapply unapprove_inv.
  - by eapply cancel_inv.
  - by eapply exec_inv.
  - unfold invalidate in H. apply bind_inv in H as (? & _ & [= <-]). destruct IH as [H1 H2 H3 H4].
    split; cbn [proptable apptable old_apptable inv_table]; [done|done|..].
    + intros k p Hp. destruct (H3 k p Hp) as (i & Hi & Ha). exists i. split; [done|by apply accounted_later].
    + intros ctx' who [[= -> ->]|Hin]%elem_of_cons; [exists (now ctx); by rewrite lookup_insert_eq|].
      destruct (H4 _ _ Hin) as (t & Ht & Hle). destruct (decide (account = who)) as [<- |Hne]; [|exists t; by rewrite lookup_insert_ne].
      exists (now ctx). rewrite lookup_insert_eq. split; [done|]. by apply (Hclock _ Hin).
Qed.

(** ** The property *)

(** C29: When a proposal is executed, its actions are those of the transaction of the last proposal of this proposer under this name, which was not
    cancelled or executed meanwhile and has not expired; the approvals that authorize it were each given by the level itself, after that proposal and after every invalidation of its
    account; a delay of the transaction has passed since one of the approvals. The proposal is gone afterwards. *)
Theorem executed_proposals_were_approved ctx ms h p n e ms' acts : msig_history ms h → exec ctx ms p n e = Ok (ms', acts) →
  ∃ h1 h2 ctx0 requested trx levels,
    h = h1 ++ (ctx0, MPropose p n requested trx) :: h2 ∧ (∀ e', e' ∈ h1 → makes_or_ends (p, n) e'.2 = false) ∧
    unpack_actions trx = Ok acts ∧ (∃ expiration, unpack_expiration trx = Ok expiration ∧ now_sec ctx <= expiration) ∧
    check_transaction_authorization trx levels = true ∧
    (∀ l, l ∈ levels → ∃ t, approved_at h1 (p, n) l t ∧
       ∀ ctx', (ctx', MInvalidate (actor l)) ∈ h → now ctx' < t) ∧
    (∀ delay, unpack_delay_sec trx = Ok delay → delay ≠ 0 → ∃ l t, approved_at h1 (p, n) l t ∧ t + delay * 1000000 <= now ctx) ∧
    proptable ms' !! (p, n) = None.
Proof.
  intros Hh%msig_history_inv H. unfold exec in H. apply bind_inv in H as (? & _ & H). apply bind_inv in H as (prop & Hp%tbl_get_inv & H).
  apply bind_inv in H as (expi & Hx & H). apply bind_inv in H as (? & Hle%check_inv%Z.leb_le & H).
  do 2 apply bind_inv in H as (? & _ & H). apply bind_inv in H as (acts' & Hacts & H). apply bind_inv in H as (levels & Hlv & H).
  apply bind_inv in H as (? & Hauth%check_inv & H). apply bind_inv in H as (? & Htime & [= <- <-]).
  destruct (mi_rows _ _ Hh _ _ Hp) as (info & Hinfo & [Hte (h1 & h2 & ctx0 & req & Eh & Hnone & Hap & Ht)]). cbn [fst snd] in Eh.
  exists h1, h2, ctx0, req, (packed_transaction prop), levels. split_and!; [done|done|done|by exists expi|done|..|by cbn; rewrite lookup_delete_eq].
  - intros l Hl. unfold get_approvals in Hlv. rewrite Hinfo in Hlv. injection Hlv as <-.
    apply list_elem_of_fmap in Hl as (a & -> & [Hva Ha]%list_elem_of_filter). exists (approval_time a). split; [by apply Hap|].
    intros ctx' Hin. destruct (mi_inval _ _ Hh _ _ Hin) as (t & Hti & Hlt). unfold valid_approval in Hva. rewrite Hti in Hva.
    apply Z.ltb_lt in Hva. lia.
  - intros delay Hd Hnz. destruct (earliest_exec_time prop) as [[t|]|]; [| |done].
    + apply check_inv, Z.leb_le in Htime. destruct (Ht t eq_refl) as (l & ta & dl & Ha & Hdl & ->).
      rewrite Hd in Hdl. injection Hdl as <-. by exists l, ta.
    + rewrite Hd, bind_ok in Htime. by apply check_inv, Z.eqb_eq in Htime.
Qed.

End MsigTheory.
