(* ===== verification/Bpay.v ===== *)
(** * The block pay contract ([contracts/ra.bpay])

    Incoming transfers of the core token are divided between the top producers, who claim their
    rewards. The producers in the order of their votes and the size of the schedule are the
    system contract's and are arguments; the division of an asset is the contract development kit's. *)

From S2P Require Import Prelude Names Assets AssetsTheory Authority Contract Token TokenTheory.
From stdpp Require Import gmap.
Open Scope Z_scope.

(** [asset / int64_t]: the amount is divided with truncation; division by zero aborts. *)
Class CdtDivision : Type := {
  cdt_div : asset → Z → result asset;
  cdt_div_spec : ∀ a n, 0 < n → 0 <= amount a → cdt_div a n = Ok (Asset (amount a / n) (sym a));
  cdt_div_zero : ∀ a, ∃ e, cdt_div a 0 = Err e }.

(** A producer in the index by votes: its owner and whether it is active. *)
Record producer_info : Type := ProducerInfo { owner : Z; is_active : bool }.

(** The [while (true)] loop: an inactive producer is skipped with [continue], without moving on. *)
Fixpoint top_producers (fuel : nat) (count : Z) (prod : list producer_info) (top : list Z) : result (list Z) :=
  match fuel with
  | O => Err out_of_fuel
  | S fuel =>
    match prod with
    | [] => Ok top
    | p :: rest =>
      if negb (is_active p) then top_producers fuel count prod top
      else
        let top := top ++ [owner p] in
        if Z.of_nat (length top) =? count then Ok top else top_producers fuel count rest top
    end
  end.

Section Bpay.
Context {cdt : CdtAsset} {div : CdtDivision}.
Context (self core : Z).   (* [get_self()] and the core symbol *)
Implicit Types (ctx : action_ctx) (rewards : gmap Z asset).

Fixpoint distribute rewards (reward : asset) (top : list Z) : result (gmap Z asset) :=
  match top with
  | [] => Ok rewards
  | producer :: top =>
    r ← match rewards !! producer with
        | None => tbl_emplace rewards producer reward
        | Some q => q ← cdt_add q reward; Ok (<[producer := q]> rewards)
        end;
    distribute r reward top
  end.

(** [on_transfer], with the loop run for [fuel] rounds. *)
Definition bpay_on_transfer (fuel : nat) (producer_count : option Z) (by_votes : list producer_info)
    rewards (from to : Z) (quantity : asset) : result (gmap Z asset) :=
  if (from =? self) || negb (to =? self) then Ok rewards
  else if from =? name_of "ra" then Ok rewards
  else
    require (sym quantity =? core);;
    match producer_count with
    | None => Err eosio_assert_message_exception
    | Some count =>
      top ← top_producers fuel count by_votes [];
      reward ← cdt_div quantity (Z.of_nat (length top));
      distribute rewards reward top
    end.

Definition claimrewards ctx rewards (owner : Z) : result (gmap Z asset * (Z * asset)) :=
  require_auth ctx owner;;
  row ← tbl_get rewards owner;
  Ok (delete owner rewards, (owner, row)).

(** ** The rewards *)

Definition rewards_total rewards : Z := tsum (λ _ q, amount q) rewards.

Definition rewards_wf rewards : Prop :=
  (∀ o q, rewards !! o = Some q → 0 <= amount q ∧ sym q = core) ∧ rewards_total rewards <= max_amount.

Lemma reward_bound rewards o q : rewards_wf rewards → rewards !! o = Some q → 0 <= amount q <= rewards_total rewards.
Proof.
  intros [Hr _] Hq. split; [by apply (Hr o)|]. apply (tsum_row (λ _ q, amount q) rewards o q); [|done]. intros k r Hk. by apply (Hr k).
Qed.

(** Every producer of the list is given the reward once. *)
Lemma distribute_spec reward top : ∀ rewards, rewards_wf rewards → sym reward = core → 0 <= amount reward →
  rewards_total rewards + Z.of_nat (length top) * amount reward <= max_amount → NoDup top →
  returns (distribute rewards reward top) (λ r, rewards_wf r ∧
    rewards_total r = rewards_total rewards + Z.of_nat (length top) * amount reward ∧
    ∀ o, from_option amount 0 (r !! o) = from_option amount 0 (rewards !! o) + (if bool_decide (o ∈ top) then amount reward else 0)).
Proof.
  induction top as [|p top IH]; intros rewards Hw Hs H0 Hm Hnd; cbn [distribute].
  { cbn [returns]. split; [done|]. split; [simpl; lia|]. intros o. rewrite bool_decide_eq_false_2 by apply not_elem_of_nil. lia. }
  apply NoDup_cons in Hnd as [Hp Hnd]. cbn [length] in Hm. rewrite Nat2Z.inj_succ in Hm.
  set (r1 := <[p := Asset (from_option amount 0 (rewards !! p) + amount reward) core]> rewards).
  assert (Htot : rewards_total r1 = rewards_total rewards + amount reward).
  { unfold rewards_total, r1. rewrite tsum_insert. simpl. destruct (rewards !! p); simpl; lia. }
  assert (Hnn : 0 <= from_option amount 0 (rewards !! p)).
  { destruct (rewards !! p) as [q|] eqn:E; simpl; [by destruct (reward_bound _ _ _ Hw E)|lia]. }
  assert (Hw1 : rewards_wf r1).
  { split; [|nia]. intros o q. unfold r1. destruct (decide (p = o)) as [<- |Hne]; [rewrite lookup_insert_eq; intros [= <-]; simpl; lia|].
    rewrite lookup_insert_ne by done. apply Hw. }
  assert (Hrow : (match rewards !! p with
    | None => tbl_emplace rewards p reward
    | Some q => q ← cdt_add q reward; Ok (<[p := q]> rewards) end) = Ok r1).
  { unfold r1, tbl_emplace. destruct (rewards !! p) as [q|] eqn:E; simpl from_option.
    - pose proof (reward_bound _ _ _ Hw E). destruct (proj1 Hw _ _ E) as [_ Hq]. unfold rewards_wf in Hw.
      rewrite cdt_add_spec by (congruence || (unfold amount_in_range; nia)). by rewrite bind_ok, Hq.
    - rewrite check_bind by (by apply bool_decide_eq_true). rewrite Z.add_0_l, <- Hs. by destruct reward. }
  rewrite Hrow, bind_ok. specialize (IH r1 Hw1 Hs H0 ltac:(lia) Hnd). destruct (distribute r1 reward top) as [r|]; [|done].
  cbn [returns] in *. destruct IH as (H1 & H2 & H3). split; [done|]. split; [rewrite H2; cbn [length]; lia|].
  intros o. rewrite H3. unfold r1. destruct (decide (p = o)) as [<- |Hne].
  - rewrite lookup_insert_eq. simpl. rewrite bool_decide_eq_false_2, bool_decide_eq_true_2 by (done || by left). lia.
  - rewrite lookup_insert_ne by done. rewrite (bool_decide_ext (o ∈ top) (o ∈ p :: top)); [done|]. rewrite elem_of_cons. naive_solver.
Qed.

(** ** The loop over the producers *)

(** With enough active producers in front the loop ends. *)
Lemma top_producers_ends fuel count prod top : Forall (λ p, is_active p = true) prod →
  (length prod < fuel)%nat → Z.of_nat (length top) < count →
  top_producers fuel count prod top = Ok (top ++ (owner <$> take (Z.to_nat count - length top) prod)).
Proof.
  revert prod top. induction fuel as [|fuel IH]; intros prod top Ha Hf Hc; [lia|]. cbn [top_producers].
  destruct prod as [|p prod]; [by rewrite take_nil, app_nil_r|]. apply Forall_cons in Ha as [Hp Ha]. rewrite Hp. cbn [negb].
  rewrite length_app. simpl length. destruct (Z.eqb_spec (Z.of_nat (length top + 1)) count) as [E|E].
  - replace (Z.to_nat count - length top)%nat with 1%nat by lia. done.
  - rewrite IH; [|done|simpl in Hf; lia|rewrite length_app; simpl; lia].
    rewrite length_app. simpl length. replace (Z.to_nat count - length top)%nat with (S (Z.to_nat count - (length top + 1)))%nat by lia.
    by rewrite <- app_assoc.
Qed.

(** An inactive producer that the loop meets before it has enough is met for ever. *)
Lemma top_producers_hangs fuel count prod p rest top : Forall (λ p, is_active p = true) prod → is_active p = false →
  Z.of_nat (length top + length prod) < count →
  top_producers fuel count (prod ++ p :: rest) top = Err out_of_fuel.
Proof.
  intros Ha Hp. revert prod top Ha. induction fuel as [|fuel IH]; intros prod top Ha Hc; [done|]. cbn [top_producers].
  destruct prod as [|q prod]; cbn [app].
  - rewrite Hp. cbn [negb]. apply (IH [] top); [done|simpl; lia].
  - apply Forall_cons in Ha as [Hq Ha]. rewrite Hq. cbn [negb]. rewrite length_app. simpl length in *.
    rewrite (proj2 (Z.eqb_neq _ _)) by lia. apply IH; [done|]. rewrite length_app. simpl. lia.
Qed.

(** An incoming reward is divided evenly, rounded down, between the first [count] active producers, so that the rewards never exceed what came in;
    this needs that no inactive producer comes before them. If one does, the loop over the producers never
    ends, whatever the number of rounds. *)
Theorem block_pay_divides_or_hangs rewards count active rest quantity from : rewards_wf rewards →
  from ≠ self → from ≠ name_of "ra" → sym quantity = core → 0 <= amount quantity →
  rewards_total rewards + amount quantity <= max_amount → 0 < count →
  Forall (λ p, is_active p = true) active → NoDup (owner <$> active) →
  (rest = [] ∧ active ≠ [] → ∀ fuel, (length active < fuel)%nat →
     let top := owner <$> take (Z.to_nat count) active in
     let reward := amount quantity / Z.of_nat (length top) in
     returns (bpay_on_transfer fuel (Some count) (active ++ rest) rewards from self quantity) (λ r, rewards_wf r ∧
       rewards_total rewards <= rewards_total r <= rewards_total rewards + amount quantity ∧
       ∀ o, from_option amount 0 (r !! o) = from_option amount 0 (rewards !! o) + (if bool_decide (o ∈ top) then reward else 0))) ∧
  (∀ p rest', rest = p :: rest' → is_active p = false → Z.of_nat (length active) < count →
     ∀ fuel, bpay_on_transfer fuel (Some count) (active ++ rest) rewards from self quantity = Err out_of_fuel).
Proof.
  intros Hw Hf1 Hf2 Hs H0 Hm Hc Ha Hnd.
  assert (Hstart : ∀ fuel l, bpay_on_transfer fuel (Some count) l rewards from self quantity =
    (top ← top_producers fuel count l []; reward ← cdt_div quantity (Z.of_nat (length top)); distribute rewards reward top)).
  { intros fuel l. unfold bpay_on_transfer.
    rewrite (proj2 (Z.eqb_neq from self) Hf1), Z.eqb_refl, (proj2 (Z.eqb_neq from _) Hf2), Hs, Z.eqb_refl. cbn [orb negb].
    by rewrite check_bind. }
  split.
  - intros [-> Hne] fuel Hfuel top reward. rewrite Hstart, app_nil_r, top_producers_ends, bind_ok by (done || (simpl; lia)). cbn [app].
    simpl length. rewrite Nat.sub_0_r. fold top.
    assert (Hpos : 0 < Z.of_nat (length top)).
    { unfold top. rewrite length_fmap, length_take. destruct active; [done|]. simpl length. lia. }
    rewrite cdt_div_spec, bind_ok by (done || lia). fold reward.
    pose proof (Z.mul_div_le (amount quantity) (Z.of_nat (length top)) Hpos) as Hle. fold reward in Hle.
    assert (0 <= reward) by (apply Z.div_pos; lia).
    pose proof (distribute_spec (Asset reward (sym quantity)) top rewards Hw Hs ltac:(done) ltac:(cbn [amount]; lia)) as H'.
    destruct (distribute rewards _ top) as [r|]; cbn [returns amount] in *.
    + destruct H' as (H1 & H2 & H3); [|split; [done|]; split; [nia|done]]. unfold top. rewrite fmap_take. apply (sublist_NoDup _ (owner <$> active)); [done|apply sublist_take].
    + apply H'. unfold top. rewrite fmap_take. apply (sublist_NoDup _ (owner <$> active)); [done|apply sublist_take].
  - intros p rest' -> Hp Hlt fuel. rewrite Hstart, (top_producers_hangs fuel count active p rest' []); [done|done|done|]. simpl. lia.
Qed.

End Bpay.
