(* ===== verification/Resources.v ===== *)
(** * The resource subscription contract ([contracts/ra.resources])

    A pool of core tokens from which CPU and NET are delegated for a time. An action gives the state and the inline
    actions it sends. The core symbol is the system contract's and an argument. *)

From S2P Require Import Prelude Names Assets AssetsTheory Authority Contract.
From stdpp Require Import gmap sorting.
Open Scope Z_scope.

Record plan : Type := Plan {
  plan_cpu : asset;
  plan_net : asset;
  duration_sec : Z;
  price : asset;
  label : std_string }.

Record subscription : Type := Subscription {
  plan_id : Z;
  expires : Z;              (* [time_point_sec] *)
  cpu_weight : asset;
  net_weight : asset }.

Record state_row : Type := StateRow { available : asset; delegated : asset; next_plan_id : Z }.

Record resources_state : Type := ResourcesState {
  plans : gmap Z plan;
  subs : gmap Z subscription;      (* by account *)
  pool : option state_row }.       (* the singleton [state] *)

Definition resources_init : resources_state := ResourcesState ∅ ∅ None.

Inductive resource_action : Type :=
| RTransfer (from to : Z) (quantity : asset)
| RDelegate (from to : Z) (net cpu : asset)
| RUndelegate (from to : Z) (net cpu : asset)
| RRefund (owner : Z).

Definition system_account : Z := name_of "ra".
Definition fees_account : Z := name_of "ra.fees".
Definition stake_account : Z := name_of "ra.stake".

(** The order of the index by expiry: ties by account. *)
Definition expiry_le (a b : Z * subscription) : Prop :=
  expires a.2 < expires b.2 ∨ (expires a.2 = expires b.2 ∧ a.1 <= b.1).

#[export] Instance expiry_le_dec a b : Decision (expiry_le a b).
Proof. unfold expiry_le. apply _. Defined.

Section Resources.
Context {cdt : CdtAsset}.
Context (self core : Z).
Implicit Types (ctx : action_ctx) (rs : resources_state).

Definition require_resource_admin ctx : result unit := require (has_auth ctx self || has_auth ctx system_account).

Definition get_state rs : result state_row :=
  let st := default (StateRow (Asset 0 0) (Asset 0 0) 1) (pool rs) in
  a ← (if sym (available st) =? core then Ok (available st) else cdt_make 0 core);
  d ← (if sym (delegated st) =? core then Ok (delegated st) else cdt_make 0 core);
  Ok (StateRow a d (if next_plan_id st =? 0 then 1 else next_plan_id st)).

Definition set_state rs (st : state_row) : resources_state := ResourcesState (plans rs) (subs rs) (Some st).

Definition addplan ctx rs (cpu net : asset) (duration : Z) (price_ : asset) (label_ : std_string) : result resources_state :=
  require_resource_admin ctx;;
  require ((sym cpu =? core) && (sym net =? core) && (sym price_ =? core));;
  require ((0 <=? amount cpu) && (0 <=? amount net));;
  s ← share (amount cpu + amount net);
  require (0 <? s);;
  require (0 <? amount price_);;
  require (0 <? duration);;
  require (Z.of_nat (length label_) <=? 64);;
  st ← get_state rs;
  t ← tbl_emplace (plans rs) (next_plan_id st) (Plan cpu net duration price_ label_);
  Ok (set_state (ResourcesState t (subs rs) (pool rs)) (StateRow (available st) (delegated st) (u64 (next_plan_id st + 1)))).

Definition rmplan ctx rs (id : Z) : result resources_state :=
  require_resource_admin ctx;;
  tbl_get (plans rs) id;;
  Ok (ResourcesState (delete id (plans rs)) (subs rs) (pool rs)).

Definition buyplan ctx rs (account id : Z) : result (resources_state * list resource_action) :=
  require_auth ctx account;;
  require (is_account ctx account);;
  p ← tbl_get (plans rs) id;
  require (bool_decide (subs rs !! account = None));;
  stake ← cdt_add (plan_cpu p) (plan_net p);
  st ← get_state rs;
  require ((sym (available st) =? sym stake) && (amount stake <=? amount (available st)));;
  a ← cdt_sub (available st) stake;
  d ← cdt_add (delegated st) stake;
  let rs := set_state rs (StateRow a d (next_plan_id st)) in
  let until := u32 (Z.quot (now ctx) 1000000 + duration_sec p) in
  t ← tbl_emplace (subs rs) account (Subscription id until (plan_cpu p) (plan_net p));
  Ok (ResourcesState (plans rs) t (pool rs),
      [RTransfer account fees_account (price p); RDelegate self account (plan_net p) (plan_cpu p)]).

(** The loop of [process] over the index by expiry. *)
Fixpoint process_loop (max time : Z) (rows : list (Z * subscription)) (n : Z) (t : gmap Z subscription) (d : asset)
    : result (gmap Z subscription * asset * Z * list resource_action) :=
  match rows with
  | [] => Ok (t, d, n, [])
  | (account, s) :: rows =>
    if (n <? max) && (expires s <=? time) then
      w ← cdt_add (cpu_weight s) (net_weight s);
      d ← cdt_sub d w;
      '(t, d, n, sent) ← process_loop max time rows (n + 1) (delete account t) d;
      Ok (t, d, n, RUndelegate self account (net_weight s) (cpu_weight s) :: sent)
    else Ok (t, d, n, [])
  end.

Definition process ctx rs (max : Z) : result (resources_state * list resource_action) :=
  require ((0 <? max) && (max <=? 100));;
  let time := u32 (Z.quot (now ctx) 1000000) in
  st ← get_state rs;
  '(t, d, n, sent) ← process_loop max time (merge_sort expiry_le (map_to_list (subs rs))) 0 (subs rs) (delegated st);
  let rs' := ResourcesState (plans rs) t (pool rs) in
  Ok (if 0 <? n then set_state rs' (StateRow (available st) d (next_plan_id st)) else rs', sent).

Definition claimrefund : list resource_action := [RRefund self].

Definition resources_on_transfer rs (from to : Z) (quantity : asset) (memo : std_string) : result resources_state :=
  if negb (to =? self) || (from =? self) then Ok rs
  else if negb (sym quantity =? core) then Ok rs
  else
    require (0 <? amount quantity);;
    if bool_decide (memo = chars "fund") then
      st ← get_state rs;
      a ← cdt_add (available st) quantity;
      Ok (set_state rs (StateRow a (delegated st) (next_plan_id st)))
    else if bool_decide (memo = chars "unstake") then
      require (from =? stake_account);;
      st ← get_state rs;
      a ← cdt_add (available st) quantity;
      Ok (set_state rs (StateRow a (delegated st) (next_plan_id st)))
    else Err eosio_assert_message_exception.

(** ** The pool balances *)

Definition weight (_ : Z) (s : subscription) : Z := amount (cpu_weight s) + amount (net_weight s).

Definition weights_ok (cpu net : asset) : Prop :=
  sym cpu = core ∧ sym net = core ∧ 0 <= amount cpu ∧ 0 <= amount net ∧ amount cpu + amount net <= max_amount.

(** What is delegated is the sum of the subscriptions; what is available is not negative. *)
Record resources_wf rs : Prop := {
  rs_pool : match pool rs with
            | None => subs rs = ∅
            | Some st => sym (available st) = core ∧ sym (delegated st) = core ∧
                0 <= amount (available st) <= max_amount ∧ amount (delegated st) = tsum weight (subs rs) ∧ amount (delegated st) <= max_amount
            end;
  rs_plans : ∀ id p, plans rs !! id = Some p → sym (plan_cpu p) = core ∧ sym (plan_net p) = core ∧
    0 <= amount (plan_cpu p) <= max_amount ∧ 0 <= amount (plan_net p) <= max_amount;
  rs_subs : ∀ a s, subs rs !! a = Some s → weights_ok (cpu_weight s) (net_weight s) }.

Lemma get_state_inv rs st : resources_wf rs → get_state rs = Ok st →
  sym (available st) = core ∧ sym (delegated st) = core ∧ 0 <= amount (available st) <= max_amount ∧
  amount (delegated st) = tsum weight (subs rs) ∧ amount (delegated st) <= max_amount.
Proof.
  intros [Hp _ _] H. unfold get_state in H. apply bind_inv in H as (a & Ha & H). apply bind_inv in H as (d & Hd & [= <-]).
  cbn [available delegated]. destruct (pool rs) as [s|]; cbn [default from_option] in *; unfold Datatypes.id in *.
  - destruct Hp as (H1 & H2 & H3). rewrite H1, Z.eqb_refl in Ha. rewrite H2, Z.eqb_refl in Hd. injection Ha as <-. injection Hd as <-. done.
  - rewrite Hp, tsum_empty. cbn [available delegated sym] in *.
    assert (Hz : ∀ x, (if 0 =? core then Ok (Asset 0 0) else cdt_make 0 core) = Ok x → sym x = core ∧ amount x = 0).
    { intros x. destruct (Z.eqb_spec 0 core) as [<- |]; [by intros [= <-]|]. by intros (-> & _)%cdt_make_inv. }
    destruct (Hz _ Ha) as [? ->], (Hz _ Hd) as [? ->]. unfold max_amount. repeat split; try done; lia.
Qed.

(** The pool is written. *)
Lemma set_pool_wf rs st t : resources_wf rs → sym (available st) = core → sym (delegated st) = core →
  0 <= amount (available st) <= max_amount → amount (delegated st) = tsum weight t → amount (delegated st) <= max_amount →
  (∀ a s, t !! a = Some s → weights_ok (cpu_weight s) (net_weight s)) →
  resources_wf (ResourcesState (plans rs) t (Some st)).
Proof. intros [H1 H2 H3] ? ? ? ? ? ?. by split. Qed.

Lemma process_loop_inv max time rows : ∀ n t d t' d' n' sent, NoDup rows.*1 → (∀ kr, kr ∈ rows → t !! kr.1 = Some kr.2) →
  (∀ a s, t !! a = Some s → weights_ok (cpu_weight s) (net_weight s)) → sym d = core → amount d = tsum weight t → amount d <= max_amount →
  process_loop max time rows n t d = Ok (t', d', n', sent) →
  t' ⊆ t ∧ sym d' = core ∧ amount d' = tsum weight t' ∧ amount d' <= amount d ∧ n <= n' ∧ (n' = n → t' = t ∧ d' = d).
Proof.
  induction rows as [|[k s] rows IH]; intros n t d t' d' n' sent Hnd Hrows Hok Hs Hd Hm; cbn [process_loop].
  { intros [= <- <- <- <-]. repeat split; try done; lia. }
  destruct (_ && _); [|intros [= <- <- <- <-]; repeat split; try done; lia]. intros (w & Hw & H)%bind_inv.
  apply bind_inv in H as (d1 & Hd1 & H). apply bind_inv in H as ([[[t2 d2] n2] sent2] & H2 & [= <- <- <- <-]).
  cbn [fmap list_fmap fst] in Hnd. apply NoDup_cons in Hnd as [Hk Hnd].
  assert (Hks : t !! k = Some s) by (apply (Hrows (k, s)); by left). destruct (Hok _ _ Hks) as (Hc1 & Hc2 & Hc3 & Hc4 & Hc5).
  apply cdt_add_inv in Hw as (_ & -> & _); [|unfold amount_in_range; lia..].
  assert (Hd0 : 0 <= amount d). { rewrite Hd. apply tsum_nonneg. intros a x Hx. destruct (Hok _ _ Hx) as (_ & _ & ? & ? & _). unfold weight. lia. }
  apply cdt_sub_inv in Hd1 as (_ & -> & _); [|unfold amount_in_range; simpl; lia..]. cbn [amount sym] in *.
  assert (Hdel : tsum weight (delete k t) = tsum weight t - (amount (cpu_weight s) + amount (net_weight s)))
    by (rewrite tsum_delete, Hks; done).
  apply IH in H2 as (H3 & H4 & H5 & H6 & H7 & _); [|done|..].
  - split; [transitivity (delete k t); [done|apply delete_subseteq]|]. cbn [amount] in *. repeat split; try done; lia.
  - intros kr Hkr. rewrite lookup_delete_ne; [apply Hrows; by right|]. intros ->. apply Hk, list_elem_of_fmap_2, Hkr.
  - intros a x Hx. apply lookup_delete_Some in Hx as [_ Hx]. by apply (Hok a).
  - done.
  - cbn [amount]. lia.
  - cbn [amount]. lia.
Qed.

(** The actions and the notification. *)
Inductive resources_step : resources_state → resources_state → Prop :=
| rs_addplan ctx rs cpu net dur pr lb rs' : amount_in_range (amount cpu) → amount_in_range (amount net) →
    addplan ctx rs cpu net dur pr lb = Ok rs' → resources_step rs rs'
| rs_rmplan ctx rs id rs' : rmplan ctx rs id = Ok rs' → resources_step rs rs'
| rs_buyplan ctx rs account id rs' sent : buyplan ctx rs account id = Ok (rs', sent) → resources_step rs rs'
| rs_process ctx rs max rs' sent : process ctx rs max = Ok (rs', sent) → resources_step rs rs'
| rs_transfer rs from to q memo rs' : amount_in_range (amount q) →
    resources_on_transfer rs from to q memo = Ok rs' → resources_step rs rs'.

Lemma process_wf ctx rs max rs' sent : resources_wf rs → process ctx rs max = Ok (rs', sent) → resources_wf rs'.
Proof.
  intros Hw H. unfold process in H. apply bind_inv in H as (? & _ & H). apply bind_inv in H as (st & Hst & H).
  apply bind_inv in H as ([[[t d] n] snt] & Hl & [= <- <-]). destruct (get_state_inv _ _ Hw Hst) as (Ha & Hd & Har & Hdt & Hdm).
  assert (Hperm : merge_sort expiry_le (map_to_list (subs rs)) ≡ₚ map_to_list (subs rs)) by apply merge_sort_Permutation.
  apply process_loop_inv in Hl as (Hsub & Hds & Hdt' & Hle & Hn & Hsame); [..|done|done|done].
  2: { rewrite Hperm. apply NoDup_fst_map_to_list. }
  2: { intros [k s]. rewrite Hperm. apply elem_of_map_to_list. }
  2: { apply (rs_subs _ Hw). }
  destruct (Z.ltb_spec 0 n) as [Hpos|Hz].
  - apply (set_pool_wf rs); try done; [cbn [delegated]; lia|]. intros a s Hs. apply (rs_subs _ Hw a). by apply (lookup_weaken t).
  - destruct Hsame as [-> _]; [lia|]. by destruct rs, Hw; split.
Qed.

Lemma addplan_wf ctx rs cpu net dur pr lb rs' : resources_wf rs → amount_in_range (amount cpu) → amount_in_range (amount net) →
  addplan ctx rs cpu net dur pr lb = Ok rs' → resources_wf rs'.
Proof.
  intros Hw Hcr Hnr H.
  unfold addplan in H. apply bind_inv in H as (? & _ & H). apply bind_inv in H as (? & Hsy%check_inv & H).
  apply bind_inv in H as (? & Hnn%check_inv & H). do 5 apply bind_inv in H as (? & _ & H).
  rewrite !andb_true_iff, !Z.eqb_eq in Hsy. rewrite andb_true_iff, !Z.leb_le in Hnn. unfold amount_in_range in *.
  apply bind_inv in H as (st & Hst & H). apply bind_inv in H as (t & [_ ->]%tbl_emplace_inv & [= <-]).
  destruct (get_state_inv _ _ Hw Hst) as (Ha & Hd & Har & Hdt & Hdm). destruct Hw as [H1 H2 H3]. split; [done| |done].
  cbn [plans set_state]. intros i p. destruct (decide (next_plan_id st = i)) as [<- |Hne]; [|rewrite lookup_insert_ne by done; apply H2].
  rewrite lookup_insert_eq. intros [= <-]. cbn [plan_cpu plan_net]. split_and!; try tauto; lia.
Qed.

Lemma buyplan_wf ctx rs account id rs' sent : resources_wf rs → buyplan ctx rs account id = Ok (rs', sent) → resources_wf rs'.
Proof.
  intros Hw H. unfold buyplan in H. do 2 apply bind_inv in H as (? & _ & H). apply bind_inv in H as (p & Hp%tbl_get_inv & H).
  apply bind_inv in H as (? & _ & H). apply bind_inv in H as (stake & Hstake & H). apply bind_inv in H as (st & Hst & H).
  apply bind_inv in H as (? & [_ Hle%Z.leb_le]%check_inv%andb_true_iff & H). apply bind_inv in H as (a & Hsa & H).
  apply bind_inv in H as (d & Hsd & H). apply bind_inv in H as (t & [Hn ->]%tbl_emplace_inv & [= <- <-]).
  destruct (get_state_inv _ _ Hw Hst) as (Ha & Hd & Har & Hdt & Hdm). destruct (rs_plans _ Hw _ _ Hp) as (Hc & Hnt & Hc0 & Hn0).
  apply cdt_add_inv in Hstake as (_ & -> & Hsr); [|unfold amount_in_range; lia..]. unfold amount_in_range in Hsr. cbn [amount sym] in *.
  assert (Hd0 : 0 <= amount (delegated st)). { rewrite Hdt. apply tsum_nonneg. intros k s Hs. destruct (rs_subs _ Hw _ _ Hs) as (_ & _ & ? & ? & _). unfold weight. lia. }
  apply cdt_sub_inv in Hsa as (_ & -> & _); [|unfold amount_in_range; simpl; lia..].
  apply cdt_add_inv in Hsd as (_ & -> & Hdr); [|unfold amount_in_range; simpl; lia..]. unfold amount_in_range in Hdr. cbn [amount sym] in *.
  cbn [plans subs pool set_state] in *. apply (set_pool_wf rs); cbn [available delegated amount sym]; try done; try lia.
  + rewrite tsum_insert, Hn. unfold weight at 2. cbn [cpu_weight net_weight from_option]. lia.
  + intros k s. destruct (decide (account = k)) as [<- |Hne]; [|rewrite lookup_insert_ne by done; apply (rs_subs _ Hw)].
    rewrite lookup_insert_eq. intros [= <-]. cbn [cpu_weight net_weight]. unfold weights_ok. split_and!; try done; lia.
Qed.

Lemma transfer_pool_wf rs from to q memo rs' : resources_wf rs → amount_in_range (amount q) →
  resources_on_transfer rs from to q memo = Ok rs' → resources_wf rs'.
Proof.
  intros Hw Hq H.
  unfold resources_on_transfer in H. destruct (_ || _); [by injection H as <-|]. destruct (negb _); [by injection H as <-|].
  apply bind_inv in H as (? & Hpos%check_inv%Z.ltb_lt & H).
  assert (Hadd : ∀ st a, get_state rs = Ok st → cdt_add (available st) q = Ok a →
    resources_wf (set_state rs (StateRow a (delegated st) (next_plan_id st)))).
  { intros st a Hst Hadd. destruct (get_state_inv _ _ Hw Hst) as (Ha & Hd & Har & Hdt & Hdm).
    apply cdt_add_inv in Hadd as (_ & -> & Hr); [|unfold amount_in_range; lia|done]. unfold amount_in_range in Hr. cbn [amount] in Hr.
    apply (set_pool_wf rs); cbn [available delegated amount sym]; try done; try lia. apply (rs_subs _ Hw). }
  destruct (bool_decide _).
  + apply bind_inv in H as (st & Hst & H). apply bind_inv in H as (a & Ha & [= <-]). by apply Hadd.
  + destruct (bool_decide _); [|done]. apply bind_inv in H as (? & _ & H).
    apply bind_inv in H as (st & Hst & H). apply bind_inv in H as (a & Ha & [= <-]). by apply Hadd.
Qed.

Lemma resources_step_wf rs rs' : resources_wf rs → resources_step rs rs' → resources_wf rs'.
Proof.
  intros Hw Hstep. destruct Hstep as [ctx rs cpu net dur pr lb rs' Hcr Hnr H|ctx rs id rs' H|ctx rs account id rs' sent H|ctx rs max rs' sent H|rs from to q memo rs' Hq H].
  - exact (addplan_wf _ _ _ _ _ _ _ _ Hw Hcr Hnr H).
  - unfold rmplan in H. do 2 apply bind_inv in H as (? & _ & H). injection H as <-. destruct Hw as [H1 H2 H3]. split; [done| |done].
    cbn [plans]. intros i p Hp. apply lookup_delete_Some in Hp as [_ Hp]. by apply (H2 i).
  - by eapply buyplan_wf.
  - by eapply process_wf.
  - exact (transfer_pool_wf _ _ _ _ _ _ Hw Hq H).
Qed.

(** In every state of [ra.resources] that actions and transfers reach, what is recorded as delegated is exactly the sum of
    the weights of the open subscriptions, and the available pool is never negative: no plan delegates
    more than the pool has. *)
Theorem resource_pool_balances rs : rtc resources_step resources_init rs →
  match pool rs with
  | None => subs rs = ∅
  | Some st => amount (delegated st) = tsum weight (subs rs) ∧ 0 <= amount (available st) <= max_amount
  end.
Proof.
  intros H. assert (Hw : resources_wf rs).
  { revert H. apply (rtc_ind_r (λ x, resources_wf x)); [by split|]. intros y z _ Hyz IH. by eapply resources_step_wf. }
  pose proof (rs_pool _ Hw) as Hp. destruct (pool rs); [|done]. tauto.
Qed.

End Resources.
