(* ===== verification/ContractExamples.v ===== *)
(** * Multisig, block pay and subscriptions on concrete states

    The hypotheses of the theorems on [ra.msig], [ra.bpay] and [ra.resources] hold there. *)

From S2P Require Import Prelude Names Assets AssetsTheory Authority Contract Msig MsigTheory Bpay Resources.
From stdpp Require Import gmap.
Import ChainAssets.
Open Scope Z_scope.

Module ContractExamples.

(** ** A proposal of two accounts *)

(** A packed transaction is its expiration, its delay and its actions; two levels authorize it. *)
#[export] Instance toy_msig : MsigHost := {|
  act := Z;
  unpack_expiration t := Ok (nth 0 t 0);
  unpack_delay_sec t := Ok (nth 1 t 0);
  unpack_context_free _ := Ok [];
  unpack_actions t := Ok (drop 2 t);
  check_transaction_authorization _ l := 2 <=? Z.of_nat (length l);
  msig_sha256 t := t |}.

Definition ann : Z := name_of "ann".
Definition ben : Z := name_of "ben".
Definition active (who : Z) : permission_level := PermissionLevel who (name_of "active").
Definition at_time (who seconds : Z) : action_ctx := ActionCtx [active who] {[ann; ben]} (seconds * 1000000).
Definition buy : Z := name_of "buy".
Definition packed : list Z := [1000; 60; 7].

Definition msig_log : list (action_ctx * msig_action) :=
  [(at_time ben 30, MApprove ann buy (active ben) None);
   (at_time ann 20, MApprove ann buy (active ann) None);
   (at_time ben 15, MInvalidate ben);
   (at_time ann 10, MPropose ann buy [active ann; active ben] packed)].

Fixpoint msig_replay (h : list (action_ctx * msig_action)) : result msig_state :=
  match h with
  | [] => Ok msig_init
  | (ctx, a) :: h => ms ← msig_replay h; '(ms, _) ← msig_run ctx ms a; Ok ms
  end.

Lemma msig_replay_history h : ∀ ms, Sorted.StronglySorted (λ a b, now b.1 <= now a.1) h → msig_replay h = Ok ms → msig_history ms h.
Proof.
  induction h as [|[ctx a] h IH]; intros ms Hs; cbn [msig_replay]; [intros [= <-]; apply mh_init|].
  inversion_clear Hs as [|x l Hsl Hf]. intros (ms1 & H1 & H)%bind_inv. apply bind_inv in H as ([ms2 acts] & H2 & [= <-]).
  apply (mh_step ctx ms1 h a ms2 acts); [by apply IH| |done]. intros e He. by apply (proj1 (Forall_forall _ _) Hf).
Qed.

Definition approved : msig_state := match msig_replay msig_log with Ok ms => ms | Err _ => msig_init end.

Lemma approved_history : msig_history approved msig_log.
Proof.
  apply msig_replay_history; [repeat constructor; vm_compute; discriminate|]. vm_compute. reflexivity.
Qed.

Definition executed : msig_state * list act := match exec (at_time ben 90) approved ann buy ben with Ok r => r | Err _ => (msig_init, []) end.

Lemma executed_reached : exec (at_time ben 90) approved ann buy ben = Ok (executed.1, executed.2).
Proof. vm_compute. reflexivity. Qed.

Lemma executed_proposals_were_approved_witness :
  executed.2 = [7] ∧ ∃ levels, check_transaction_authorization packed levels = true.
Proof.
  destruct (executed_proposals_were_approved (at_time ben 90) approved msig_log ann buy ben executed.1 executed.2 approved_history executed_reached)
    as (h1 & h2 & ctx0 & req & trx & levels & _ & _ & _ & _ & Hl & _).
  split; [vm_compute; reflexivity|]. exists levels. exact Hl.
Defined.

(** ** Producers *)

Lemma quotient_spec a n : 0 < n → 0 <= amount a →
  (check (negb (n =? 0)) eosio_assert_message_exception;; Ok (Asset (Z.quot (amount a) n) (sym a))) = Ok (Asset (amount a / n) (sym a)).
Proof. intros Hn Ha. rewrite check_bind by (apply negb_true_iff, Z.eqb_neq; lia). by rewrite Z.quot_div_nonneg. Qed.

#[export] Instance chain_division : CdtDivision := {|
  cdt_div a n := check (negb (n =? 0)) eosio_assert_message_exception;; Ok (Asset (Z.quot (amount a) n) (sym a));
  cdt_div_spec := quotient_spec;
  cdt_div_zero a := ex_intro _ eosio_assert_message_exception eq_refl |}.

Definition bpay : Z := name_of "ra.bpay".
Definition core : Z := match string_to_symbol 4 (chars "RA") with Ok s => s | Err _ => 0 end.
Definition pair_of_producers : list producer_info := [ProducerInfo ann true; ProducerInfo ben true].

Lemma no_rewards : rewards_wf core ∅.
Proof. split; [done|]. vm_compute. discriminate. Qed.

Lemma block_pay_divides_or_hangs_witness :
  (∀ fuel, (2 < fuel)%nat → returns (bpay_on_transfer bpay core fuel (Some 21) pair_of_producers ∅ ann bpay (Asset 7 core))
     (λ r, rewards_total r <= 7)) ∧
  (∀ fuel, bpay_on_transfer bpay core fuel (Some 21) (pair_of_producers ++ [ProducerInfo bpay false]) ∅ ann bpay (Asset 7 core) = Err out_of_fuel).
Proof.
  assert (Ha : Forall (λ p, is_active p = true) pair_of_producers) by (repeat constructor).
  assert (Hn : NoDup (owner <$> pair_of_producers)) by (vm_compute; apply NoDup_cons; split; [intros [= H]%list_elem_of_singleton|apply NoDup_singleton]).
  pose proof (λ rest, (block_pay_divides_or_hangs bpay core ∅ 21 pair_of_producers rest (Asset 7 core) ann no_rewards
    ltac:(vm_compute; discriminate) ltac:(vm_compute; discriminate) eq_refl ltac:(simpl; lia) ltac:(vm_compute; discriminate) ltac:(lia) Ha Hn)) as H.
  split.
  - intros fuel Hf. destruct (H []) as [H1 _].
    assert (Hne : pair_of_producers ≠ []) by (unfold pair_of_producers; discriminate).
    assert (Hl : (length pair_of_producers < fuel)%nat) by exact Hf.
    specialize (H1 (conj eq_refl Hne) fuel Hl). cbv zeta in H1.
    rewrite app_nil_r in H1. destruct (bpay_on_transfer _ _ fuel _ _ _ _ _ _) as [r|]; [|exact H1].
    cbn [returns] in *. destruct H1 as (_ & [_ Hle] & _). exact Hle.
  - intros fuel. destruct (H [ProducerInfo bpay false]) as [_ H2]. exact (H2 _ [] eq_refl eq_refl ltac:(simpl; lia) fuel).
Defined.

(** ** A subscription *)

Definition res : Z := name_of "ra.resources".
Definition funded : resources_state :=
  match resources_on_transfer res core resources_init ann res (Asset 500 core) (chars "fund") with Ok rs => rs | Err _ => resources_init end.
Definition planned : resources_state :=
  match addplan res core (at_time res 0) funded (Asset 30 core) (Asset 20 core) 3600 (Asset 5 core) [] with Ok rs => rs | Err _ => resources_init end.
Definition bought : resources_state := (match buyplan res core (at_time ann 0) planned ann 1 with Ok r => r | Err _ => (resources_init, []) end).1.

Lemma bought_reachable : rtc (resources_step res core) resources_init bought.
Proof.
  apply (rtc_l _ _ funded); [apply (rs_transfer res core _ ann res (Asset 500 core) (chars "fund")); [vm_compute; split; discriminate|vm_compute; reflexivity]|].
  apply (rtc_l _ _ planned); [apply (rs_addplan res core (at_time res 0) _ (Asset 30 core) (Asset 20 core) 3600 (Asset 5 core) []);
    [vm_compute; split; discriminate..|vm_compute; reflexivity]|].
  apply rtc_once. eapply (rs_buyplan res core (at_time ann 0) planned ann 1 bought). vm_compute. reflexivity.
Qed.

Lemma resource_pool_balances_witness : tsum weight (subs bought) = 50.
Proof.
  pose proof (resource_pool_balances res core bought bought_reachable) as H.
  destruct (pool bought) as [st|] eqn:E; [|exfalso; vm_compute in E; discriminate E].
  destruct H as [H _]. rewrite <- H. vm_compute in E. injection E as <-. reflexivity.
Defined.

End ContractExamples.
