(* ===== verification/HostContext.v ===== *)
(** * Contract tables ([host_context.hpp], [host_context.cpp], [contract_table_objects.hpp],
    [sync_call_context.cpp])

    The tables a running contract reads and writes through iterators: the rows of all tables with their primary
    and secondary indices, the iterator caches of the context that runs and of those that called it
    synchronously, and the RAM that is charged. A C++ reference to a database object is the
    address of the object; the database (a submodule) places a new object at an address that is free, which
    may be one that was freed before (class [Allocator]). Reading a freed object is undefined behaviour.
    Iterators are numbers below [2^31], one per entry of a cache. *)

From S2P Require Import Prelude Names Authority ResourceLimits.
From stdpp Require Import gmap functions list.
Open Scope Z_scope.

(** ** Objects *)

Inductive index_kind : Type := key_value | idx64 | idx128 | idx256 | idx_double | idx_long_double.

#[export] Instance index_kind_eq_dec : EqDecision index_kind.
Proof. solve_decision. Defined.

Record table_id_object : Type := TableIdObject {
  tab_id : Z;
  tab_code : Z;
  tab_scope : Z;
  tab_table : Z;
  tab_payer : Z;
  tab_count : Z }.

(** A [key_value_object] or an [index_object]; [data] has the bytes of the value, or the words of the secondary key. *)
Record row_object : Type := RowObject {
  kind : index_kind;
  t_id : Z;
  primary_key : Z;
  payer : Z;
  data : list Z }.

Record contract_db : Type := ContractDb {
  tables : gmap Z table_id_object;
  next_table_id : Z;
  objects : gmap Z row_object;
  created_rows : Z }.   (* the number of rows made so far *)

(** Where a new object is placed may depend on the objects that are there and on how many were made before, and so on the whole history. *)
Class Allocator : Type := {
  alloc_table : Z → gmap Z table_id_object → Z;
  alloc_row : Z → gmap Z row_object → Z;
  alloc_table_free : ∀ n m, m !! alloc_table n m = None;
  alloc_row_free : ∀ n m, m !! alloc_row n m = None }.

(** A strict weak order on the elements that satisfy [ok], what an ordered index needs of its comparison. *)
Record weak_order {A} (ok : A → Prop) (lt : A → A → bool) : Prop := {
  wo_asym : ∀ a b, ok a → ok b → lt a b = true → lt b a = false;
  wo_cotrans : ∀ a b c, ok a → ok b → ok c → lt a c = true → lt a b = true ∨ lt b c = true }.

(** The comparisons of the software floating point library, on the bits of numbers. *)
Class SoftFloat : Type := {
  f64_lt : Z → Z → bool;
  f128_lt : Z → Z → bool;
  f64_nan : Z → bool;
  f128_nan : Z → bool;
  f64_order : weak_order (λ a, f64_nan a = false) f64_lt;
  f128_order : weak_order (λ a, f128_nan a = false) f128_lt }.

(** ** Sizes that are billed *)

Definition overhead_per_row_per_index_ram_bytes : Z := 32.
Definition billable_alignment : Z := 16.

Definition billable_size_v (value : Z) : Z := (value + billable_alignment - 1) / billable_alignment * billable_alignment.

Definition table_billable_size : Z := billable_size_v (44 + overhead_per_row_per_index_ram_bytes * 2).

Definition billable_size (k : index_kind) : Z :=
  billable_size_v match k with
  | key_value => 32 + 8 + 4 + overhead_per_row_per_index_ram_bytes * 2
  | idx64 => 24 + 8 + overhead_per_row_per_index_ram_bytes * 3
  | idx128 => 24 + 16 + overhead_per_row_per_index_ram_bytes * 3
  | idx256 => 24 + 32 + overhead_per_row_per_index_ram_bytes * 3
  | idx_double => 24 + 8 + overhead_per_row_per_index_ram_bytes * 3
  | idx_long_double => 24 + 16 + overhead_per_row_per_index_ram_bytes * 3
  end.

(** What a row is billed: the bytes of a value on top of the size of the object. *)
Definition row_size (r : row_object) : Z :=
  match kind r with key_value => Z.of_nat (length (data r)) | _ => 0 end + billable_size (kind r).

(** ** Ordered indices

    [least lt l] is the first element in the order [lt], [greatest] the last; an iterator of an index is an
    element or the end. *)

Fixpoint least (lt : row_object → row_object → bool) (l : list (Z * row_object)) : option (Z * row_object) :=
  match l with
  | [] => None
  | x :: l => match least lt l with Some y => if lt y.2 x.2 then Some y else Some x | None => Some x end
  end.

Definition greatest (lt : row_object → row_object → bool) (l : list (Z * row_object)) : option (Z * row_object) :=
  least (λ a b, lt b a) l.

(** [by_scope_primary] and [by_primary]. *)
Definition primary_lt (a b : row_object) : bool :=
  (t_id a <? t_id b) || ((t_id a =? t_id b) && (primary_key a <? primary_key b)).

Fixpoint words_lt (a b : list Z) : bool :=
  match a, b with
  | x :: a, y :: b => (x <? y) || ((x =? y) && words_lt a b)
  | [], _ :: _ => true
  | _, [] => false
  end.

Section SecondaryKeys.
Context {sf : SoftFloat}.

(** [std::less] of the integers and arrays, [soft_double_less], [soft_long_double_less]. *)
Definition key_lt (k : index_kind) (a b : list Z) : bool :=
  match k, a, b with
  | idx_double, [a], [b] => f64_lt a b
  | idx_long_double, [a], [b] => f128_lt a b
  | (idx_double | idx_long_double), _, _ => false
  | _, _, _ => words_lt a b
  end.

(** The keys that the host functions let through: of the right number of words, and not NaN. *)
Definition valid_key (k : index_kind) (key : list Z) : bool :=
  match k, key with
  | key_value, _ => true
  | (idx64 | idx128), [_] => true
  | idx256, [_; _] => true
  | idx_double, [a] => negb (f64_nan a)
  | idx_long_double, [a] => negb (f128_nan a)
  | _, _ => false
  end.

(** [by_secondary]. *)
Definition secondary_lt (a b : row_object) : bool :=
  (t_id a <? t_id b) ||
  ((t_id a =? t_id b) &&
   (key_lt (kind a) (data a) (data b) ||
    (negb (key_lt (kind a) (data b) (data a)) && (primary_key a <? primary_key b)))).

End SecondaryKeys.

(** The elements of an index. *)
Definition index_of (k : index_kind) (db : contract_db) : list (Z * row_object) :=
  filter (λ x, kind x.2 = k) (map_to_list (objects db)).

(** The first element of the index that satisfies [P], the last one; [P] holds from some position on, or up to one. *)
Definition first_with (k : index_kind) (lt : row_object → row_object → bool) (P : row_object → bool) (db : contract_db)
    : option (Z * row_object) :=
  least lt (filter (λ x, P x.2 = true) (index_of k db)).

Definition last_with (k : index_kind) (lt : row_object → row_object → bool) (P : row_object → bool) (db : contract_db)
    : option (Z * row_object) :=
  greatest lt (filter (λ x, P x.2 = true) (index_of k db)).

(** ** The iterator cache *)

Record iterator_cache : Type := IteratorCache {
  table_cache : gmap Z (Z * Z);
  end_iterator_to_table : list Z;
  iterator_to_object : list (option Z);
  object_to_iterator : gmap Z Z }.

Definition empty_cache : iterator_cache := IteratorCache ∅ [] [] ∅.

Definition index_to_end_iterator (indx : nat) : Z := - (Z.of_nat indx + 2).

(** [-ei] overflows for the least [int]. *)
Definition end_iterator_to_index (ei : Z) : result nat :=
  check (- 2147483648 <? ei) undefined_behaviour;; Ok (Z.to_nat (- ei - 2)).

Definition cache_table (c : iterator_cache) (tobj : Z) (id : Z) : iterator_cache * Z :=
  match table_cache c !! id with
  | Some (_, ei) => (c, ei)
  | None =>
    let ei := index_to_end_iterator (length (end_iterator_to_table c)) in
    (IteratorCache (<[id := (tobj, ei)]> (table_cache c)) (end_iterator_to_table c ++ [tobj])
       (iterator_to_object c) (object_to_iterator c), ei)
  end.

(** A reference to a table is read. *)
Definition deref_table (db : contract_db) (a : Z) : result table_id_object :=
  match tables db !! a with Some t => Ok t | None => Err undefined_behaviour end.

Definition get_table (c : iterator_cache) (i : Z) : result Z :=
  match table_cache c !! i with Some (a, _) => Ok a | None => Err table_not_in_cache end.

Definition get_end_iterator_by_table_id (c : iterator_cache) (i : Z) : result Z :=
  match table_cache c !! i with Some (_, ei) => Ok ei | None => Err table_not_in_cache end.

Definition find_table_by_end_iterator (c : iterator_cache) (ei : Z) : result (option Z) :=
  check (ei <? -1) invalid_table_iterator;;
  indx ← end_iterator_to_index ei;
  Ok (end_iterator_to_table c !! indx).

(** The entry of an iterator. *)
Definition cache_get (c : iterator_cache) (iterator : Z) : result Z :=
  check (negb (iterator =? -1)) invalid_table_iterator;;
  check (0 <=? iterator) table_operation_not_permitted;;
  match iterator_to_object c !! Z.to_nat iterator with
  | None => Err invalid_table_iterator
  | Some None => Err table_operation_not_permitted
  | Some (Some a) => Ok a
  end.

(** [add]. *)
Definition cache_add (c : iterator_cache) (obj : Z) : iterator_cache * Z :=
  match object_to_iterator c !! obj with
  | Some i => (c, i)
  | None =>
    let i := Z.of_nat (length (iterator_to_object c)) in
    (IteratorCache (table_cache c) (end_iterator_to_table c) (iterator_to_object c ++ [Some obj])
       (<[obj := i]> (object_to_iterator c)), i)
  end.

(** Clears an entry. *)
Definition clear_entry (c : iterator_cache) (i : nat) (obj : Z) : iterator_cache :=
  IteratorCache (table_cache c) (end_iterator_to_table c) (<[i := None]> (iterator_to_object c))
    (delete obj (object_to_iterator c)).

(** [remove] without the notification of the callers; also gives the object that was removed. *)
Definition cache_remove (c : iterator_cache) (iterator : Z) : result (iterator_cache * option Z) :=
  check (negb (iterator =? -1)) invalid_table_iterator;;
  check (0 <=? iterator) table_operation_not_permitted;;
  match iterator_to_object c !! Z.to_nat iterator with
  | None => Err invalid_table_iterator
  | Some None => Ok (c, None)
  | Some (Some a) => Ok (clear_entry c (Z.to_nat iterator) a, Some a)
  end.

Definition invalidate (c : iterator_cache) (obj : Z) : result iterator_cache :=
  match object_to_iterator c !! obj with
  | None => Ok c
  | Some i =>
    check ((0 <=? i) && (i <? Z.of_nat (length (iterator_to_object c)))) invalid_table_iterator;;
    Ok (clear_entry c (Z.to_nat i) obj)
  end.

(** ** Contexts *)

Record host_context : Type := HostContext {
  receiver : Z;
  privileged : bool;
  is_sync_call : bool;
  read_only : bool;
  caches : index_kind → iterator_cache }.

(** The action that runs, for an [apply_context]. *)
Record action_info : Type := ActionInfo {
  act_account : Z;
  act_authorization : list permission_level }.

(** The context that runs, and its callers up to that of the action. *)
Record host_state : Type := HostState {
  db : contract_db;
  ctx : host_context;
  callers : list host_context;
  act : action_info;
  resources : resource_db;
  account_ram_deltas : gmap Z Z;
  validate_ram_usage : gset Z }.

(** An account with its code, as far as a synchronous call reads it. *)
Record callee_info : Type := CalleeInfo {
  has_code : bool;
  callee_privileged : bool;
  sync_call_supported : bool }.

Record host_env : Type := HostEnv {
  ram_restrictions : bool;
  ram_billing_in_notify_allowed : bool;
  max_sync_call_depth : Z;
  max_sync_call_data_size : Z;
  callees : gmap Z callee_info }.

Definition with_db (st : host_state) (d : contract_db) : host_state :=
  HostState d (ctx st) (callers st) (act st) (resources st) (account_ram_deltas st) (validate_ram_usage st).
Definition with_ctx (st : host_state) (c : host_context) : host_state :=
  HostState (db st) c (callers st) (act st) (resources st) (account_ram_deltas st) (validate_ram_usage st).
Definition with_callers (st : host_state) (l : list host_context) : host_state :=
  HostState (db st) (ctx st) l (act st) (resources st) (account_ram_deltas st) (validate_ram_usage st).

Definition set_caches (h : host_context) (f : index_kind → iterator_cache) : host_context :=
  HostContext (receiver h) (privileged h) (is_sync_call h) (read_only h) f.

Definition cache_of (st : host_state) (k : index_kind) : iterator_cache := caches (ctx st) k.
Definition with_cache (st : host_state) (k : index_kind) (c : iterator_cache) : host_state :=
  with_ctx st (set_caches (ctx st) (<[k := c]> (caches (ctx st)))).

Definition with_tables (d : contract_db) (t : gmap Z table_id_object) : contract_db := ContractDb t (next_table_id d) (objects d) (created_rows d).
Definition with_objects (d : contract_db) (o : gmap Z row_object) : contract_db := ContractDb (tables d) (next_table_id d) o (created_rows d).

Section Host.
Context {sf : SoftFloat} {al : Allocator} (env : host_env).

(** ** RAM *)

(** [transaction_context::add_ram_usage], which [apply_context::add_ram_usage] calls and keeps the change of. *)
Definition add_ram_usage (st : host_state) (account ram_delta : Z) : result host_state :=
  r ← add_pending_ram_usage (resources st) account ram_delta;
  let v := if 0 <? ram_delta then {[account]} ∪ validate_ram_usage st else validate_ram_usage st in
  let d := match account_ram_deltas st !! account with Some x => x + ram_delta | None => ram_delta end in
  Ok (HostState (db st) (ctx st) (callers st) (act st) r (<[account := d]> (account_ram_deltas st)) v).

Definition require_authorization (st : host_state) (account : Z) : result unit :=
  check (existsb (λ a, actor a =? account) (act_authorization (act st))) missing_auth_exception.

(** [apply_context::update_db_usage]; that of a [sync_call_context] does nothing. *)
Definition update_db_usage (st : host_state) (payer delta : Z) : result host_state :=
  if is_sync_call (ctx st) then Ok st
  else
    (if (0 <? delta) && negb (privileged (ctx st) || (payer =? receiver (ctx st)) || ram_restrictions env) then
       check (ram_billing_in_notify_allowed env || (receiver (ctx st) =? act_account (act st))) subjective_block_production_exception;;
       require_authorization st payer
     else Ok tt);;
    add_ram_usage st payer delta.

(** ** Tables *)

Definition table_is (code scope table : Z) (t : table_id_object) : bool :=
  (tab_code t =? code) && (tab_scope t =? scope) && (tab_table t =? table).

Definition find_table (d : contract_db) (code scope table : Z) : option (Z * table_id_object) :=
  find (λ x, table_is code scope table x.2) (map_to_list (tables d)).

Definition find_or_create_table (st : host_state) (code scope table payer : Z) : result (host_state * Z * table_id_object) :=
  match find_table (db st) code scope table with
  | Some (a, t) => Ok (st, a, t)
  | None =>
    st ← update_db_usage st payer table_billable_size;
    let d := db st in
    let a := alloc_table (next_table_id d) (tables d) in
    let t := TableIdObject (next_table_id d) code scope table payer 0 in
    Ok (with_db st (ContractDb (<[a := t]> (tables d)) (next_table_id d + 1) (objects d) (created_rows d)), a, t)
  end.

Definition remove_table (st : host_state) (a : Z) : result host_state :=
  t ← deref_table (db st) a;
  st ← update_db_usage st (tab_payer t) (- table_billable_size);
  Ok (with_db st (with_tables (db st) (delete a (tables (db st))))).

(** [db.modify( tab, ... )] of the number of rows. *)
Definition modify_count (d : contract_db) (a : Z) (f : Z → Z) : result contract_db :=
  t ← deref_table d a;
  Ok (with_tables d (<[a := TableIdObject (tab_id t) (tab_code t) (tab_scope t) (tab_table t) (tab_payer t) (u32 (f (tab_count t)))]> (tables d))).

(** ** Rows *)

Definition same_primary (k : index_kind) (tid id : Z) (r : row_object) : bool :=
  bool_decide (kind r = k) && (t_id r =? tid) && (primary_key r =? id).

(** [db.create]: the keys of the new object must be free. *)
Definition create_row (d : contract_db) (r : row_object) : result (contract_db * Z) :=
  check (forallb (λ x, negb (same_primary (kind r) (t_id r) (primary_key r) x.2)) (map_to_list (objects d))) logic_error;;
  let a := alloc_row (created_rows d) (objects d) in
  Ok (ContractDb (tables d) (next_table_id d) (<[a := r]> (objects d)) (created_rows d + 1), a).

(** [keyval_cache.get]: the entry of an iterator, as an object of the kind of the cache. *)
Definition get_object (st : host_state) (k : index_kind) (iterator : Z) : result (Z * row_object) :=
  a ← cache_get (cache_of st k) iterator;
  match objects (db st) !! a with
  | Some r => check (bool_decide (kind r = k)) undefined_behaviour;; Ok (a, r)
  | None => Err undefined_behaviour
  end.

(** The end of every operation that returns an object of a table in the cache. *)
Definition add_to_cache (st : host_state) (k : index_kind) (a : Z) : host_state * Z :=
  let '(c, i) := cache_add (cache_of st k) a in (with_cache st k c, i).

Definition cache_table_of (st : host_state) (k : index_kind) (a : Z) (t : table_id_object) : host_state * Z :=
  let '(c, ei) := cache_table (cache_of st k) a (tab_id t) in (with_cache st k c, ei).

(** What [db_store_i64] and [generic_index::store] have in common: the new row, the count, the bill and the iterator. *)
Definition store_row (st : host_state) (k : index_kind) (tab : Z) (t : table_id_object) (payer id : Z) (v : list Z) : result (host_state * Z) :=
  let r := RowObject k (tab_id t) id payer v in
  '(d, a) ← create_row (db st) r;
  d ← modify_count d tab (λ n, n + 1);
  st ← update_db_usage (with_db st d) payer (row_size r);
  let '(st, _) := cache_table_of st k tab t in
  Ok (add_to_cache st k a).

Definition db_store_i64 (st : host_state) (scope table payer id : Z) (buffer : list Z) : result (host_state * Z) :=
  '(st, tab, t) ← find_or_create_table st (receiver (ctx st)) scope table payer;
  check (negb (payer =? 0)) invalid_table_payer;;
  store_row st key_value tab t payer id buffer.

Definition idx_store (k : index_kind) (st : host_state) (scope table payer id : Z) (value : list Z) : result (host_state * Z) :=
  check (negb (payer =? 0)) invalid_table_payer;;
  '(st, tab, t) ← find_or_create_table st (receiver (ctx st)) scope table payer;
  store_row st k tab t payer id value.

(** The object of an iterator in a table of the receiver. *)
Definition writable_object (st : host_state) (k : index_kind) (iterator : Z) : result (Z * row_object * Z) :=
  '(a, obj) ← get_object st k iterator;
  tab ← get_table (cache_of st k) (t_id obj);
  t ← deref_table (db st) tab;
  check (tab_code t =? receiver (ctx st)) table_access_violation;;
  Ok (a, obj, tab).

Definition modify_row (st : host_state) (a : Z) (obj : row_object) (payer : Z) (v : list Z) : host_state :=
  with_db st (with_objects (db st) (<[a := RowObject (kind obj) (t_id obj) (primary_key obj) payer v]> (objects (db st)))).

Definition db_update_i64 (st : host_state) (iterator payer_ : Z) (buffer : list Z) : result host_state :=
  '(a, obj, _) ← writable_object st key_value iterator;
  let old_size := row_size obj in
  let new_size := Z.of_nat (length buffer) + billable_size key_value in
  let payer_ := if payer_ =? 0 then payer obj else payer_ in
  st ← (if negb (payer obj =? payer_) then
          st ← update_db_usage st (payer obj) (- old_size);
          update_db_usage st payer_ new_size
        else if negb (old_size =? new_size) then update_db_usage st (payer obj) (new_size - old_size)
        else Ok st);
  Ok (modify_row st a obj payer_ buffer).

Definition idx_update (k : index_kind) (st : host_state) (iterator payer_ : Z) (secondary : list Z) : result host_state :=
  '(a, obj, _) ← writable_object st k iterator;
  let payer_ := if payer_ =? 0 then payer obj else payer_ in
  let billing_size := billable_size k in
  st ← (if negb (payer obj =? payer_) then
          st ← update_db_usage st (payer obj) (- billing_size);
          update_db_usage st payer_ billing_size
        else Ok st);
  Ok (modify_row st a obj payer_ secondary).

(** [invalidate_iterator_caches]. *)
Definition invalidate_iterator_caches (h : host_context) (obj : Z) : result host_context :=
  c0 ← invalidate (caches h key_value) obj;
  c1 ← invalidate (caches h idx64) obj;
  c2 ← invalidate (caches h idx128) obj;
  c3 ← invalidate (caches h idx256) obj;
  c4 ← invalidate (caches h idx_double) obj;
  c5 ← invalidate (caches h idx_long_double) obj;
  Ok (set_caches h (λ k, match k with key_value => c0 | idx64 => c1 | idx128 => c2 | idx256 => c3 | idx_double => c4 | idx_long_double => c5 end)).

(** [broadcast_erasure] of a synchronous call: its caller, and the caller's callers while those are synchronous calls. *)
Fixpoint broadcast_erasure (l : list host_context) (obj : Z) : result (list host_context) :=
  match l with
  | [] => Ok []
  | parent :: rest =>
    h ← invalidate_iterator_caches parent obj;
    if is_sync_call parent then rest ← broadcast_erasure rest obj; Ok (h :: rest) else Ok (h :: rest)
  end.

Definition remove_iterator (st : host_state) (k : index_kind) (iterator : Z) : result host_state :=
  '(c, removed) ← cache_remove (cache_of st k) iterator;
  let st := with_cache st k c in
  match removed with
  | Some obj => if is_sync_call (ctx st) then l ← broadcast_erasure (callers st) obj; Ok (with_callers st l) else Ok st
  | None => Ok st
  end.

(** [db_remove_i64] and [generic_index::remove]. *)
Definition db_remove (k : index_kind) (st : host_state) (iterator : Z) : result host_state :=
  '(a, obj, tab) ← writable_object st k iterator;
  st ← update_db_usage st (payer obj) (- row_size obj);
  d ← modify_count (db st) tab (λ n, n - 1);
  let st := with_db st (with_objects d (delete a (objects d))) in
  t ← deref_table (db st) tab;
  st ← (if tab_count t =? 0 then remove_table st tab else Ok st);
  remove_iterator st k iterator.

Definition db_remove_i64 : host_state → Z → result host_state := db_remove key_value.

(** [db_get_i64]: the returned size and the bytes that are copied. *)
Definition db_get_i64 (st : host_state) (iterator buffer_size : Z) : result (Z * list Z) :=
  '(_, obj) ← get_object st key_value iterator;
  let s := Z.of_nat (length (data obj)) in
  if buffer_size =? 0 then Ok (s, [])
  else let copy_size := Z.min buffer_size s in Ok (copy_size, take (Z.to_nat copy_size) (data obj)).

(** [generic_index::get]. *)
Definition idx_get (k : index_kind) (st : host_state) (iterator : Z) : result (Z * list Z) :=
  '(_, obj) ← get_object st k iterator; Ok (primary_key obj, data obj).

(** ** Moving iterators

    The iterator that is returned, and the object whose keys are written to the arguments [primary] and [secondary]. *)

Definition found (st : host_state) (k : index_kind) (x : Z * row_object) : host_state * Z * option row_object :=
  let '(st, i) := add_to_cache st k x.1 in (st, i, Some x.2).

(** [++itr] from the object of an iterator, in the index ordered by [lt]. *)
Definition next_in (k : index_kind) (lt : row_object → row_object → bool) (st : host_state) (iterator : Z)
    : result (host_state * Z * option row_object) :=
  if iterator <? -1 then Ok (st, -1, None)
  else
    '(_, obj) ← get_object st k iterator;
    match first_with k lt (lt obj) (db st) with
    | Some x =>
      if t_id x.2 =? t_id obj then Ok (found st k x)
      else ei ← get_end_iterator_by_table_id (cache_of st k) (t_id obj); Ok (st, ei, None)
    | None => ei ← get_end_iterator_by_table_id (cache_of st k) (t_id obj); Ok (st, ei, None)
    end.

(** [--itr], from the end of a table or from the object of an iterator. *)
Definition previous_in (k : index_kind) (lt : row_object → row_object → bool) (st : host_state) (iterator : Z)
    : result (host_state * Z * option row_object) :=
  if iterator <? -1 then
    tab ← find_table_by_end_iterator (cache_of st k) iterator;
    match tab with
    | None => Err invalid_table_iterator
    | Some a =>
      t ← deref_table (db st) a;
      match last_with k lt (λ r, t_id r <=? tab_id t) (db st) with
      | Some x => if t_id x.2 =? tab_id t then Ok (found st k x) else Ok (st, -1, None)
      | None => Ok (st, -1, None)
      end
    end
  else
    '(_, obj) ← get_object st k iterator;
    match last_with k lt (λ r, lt r obj) (db st) with
    | Some x => if t_id x.2 =? t_id obj then Ok (found st k x) else Ok (st, -1, None)
    | None => Ok (st, -1, None)
    end.

Definition db_next_i64 : host_state → Z → result (host_state * Z * option row_object) := next_in key_value primary_lt.
Definition db_previous_i64 : host_state → Z → result (host_state * Z * option row_object) := previous_in key_value primary_lt.
Definition next_primary (k : index_kind) : host_state → Z → result (host_state * Z * option row_object) := next_in k primary_lt.
Definition previous_primary (k : index_kind) : host_state → Z → result (host_state * Z * option row_object) := previous_in k primary_lt.
Definition next_secondary (k : index_kind) : host_state → Z → result (host_state * Z * option row_object) := next_in k secondary_lt.
Definition previous_secondary (k : index_kind) : host_state → Z → result (host_state * Z * option row_object) := previous_in k secondary_lt.

(** The searches: the table is cached first; a search in a table that does not exist gives [-1]. *)
Definition search (k : index_kind) (st : host_state) (code scope table : Z) (f : Z → option (Z * row_object))
    : host_state * Z * option row_object :=
  match find_table (db st) code scope table with
  | None => (st, -1, None)
  | Some (a, t) =>
    let '(st, table_end_itr) := cache_table_of st k a t in
    match f (tab_id t) with
    | Some x => if t_id x.2 =? tab_id t then found st k x else (st, table_end_itr, None)
    | None => (st, table_end_itr, None)
    end
  end.

(** [find_i64] and [find_primary]. *)
Definition find_primary (k : index_kind) (st : host_state) (code scope table id : Z) : host_state * Z * option row_object :=
  search k st code scope table (λ tid, find (λ x, same_primary k tid id x.2) (map_to_list (objects (db st)))).

(** [idx.lower_bound( boost::make_tuple( tab->id, id ) )]. *)
Definition lowerbound_primary (k : index_kind) (st : host_state) (code scope table id : Z) : host_state * Z * option row_object :=
  search k st code scope table (λ tid,
    first_with k primary_lt (λ r, negb (primary_lt r (RowObject k tid id 0 []))) (db st)).

Definition upperbound_primary (k : index_kind) (st : host_state) (code scope table id : Z) : host_state * Z * option row_object :=
  search k st code scope table (λ tid,
    first_with k primary_lt (primary_lt (RowObject k tid id 0 [])) (db st)).

Definition db_find_i64 : host_state → Z → Z → Z → Z → host_state * Z * option row_object := find_primary key_value.
Definition db_lowerbound_i64 : host_state → Z → Z → Z → Z → host_state * Z * option row_object := lowerbound_primary key_value.
Definition db_upperbound_i64 : host_state → Z → Z → Z → Z → host_state * Z * option row_object := upperbound_primary key_value.

(** [db_end_i64] and [end_secondary]. *)
Definition db_end (k : index_kind) (st : host_state) (code scope table : Z) : host_state * Z :=
  match find_table (db st) code scope table with
  | None => (st, -1)
  | Some (a, t) => cache_table_of st k a t
  end.

(** The order of the prefix [(t_id, secondary_key)], by which the secondary searches compare. *)
Definition prefix_lt (a b : row_object) : bool :=
  (t_id a <? t_id b) || ((t_id a =? t_id b) && key_lt (kind a) (data a) (data b)).

Definition probe (k : index_kind) (tid : Z) (key : list Z) : row_object := RowObject k tid 0 0 key.

(** The first element with this key, if there is one. *)
Definition find_secondary (k : index_kind) (st : host_state) (code scope table : Z) (key : list Z) : host_state * Z * option row_object :=
  search k st code scope table (λ tid,
    match first_with k secondary_lt (λ r, negb (prefix_lt r (probe k tid key))) (db st) with
    | Some x => if prefix_lt (probe k tid key) x.2 then None else Some x
    | None => None
    end).

Definition lowerbound_secondary (k : index_kind) (st : host_state) (code scope table : Z) (key : list Z) : host_state * Z * option row_object :=
  search k st code scope table (λ tid, first_with k secondary_lt (λ r, negb (prefix_lt r (probe k tid key))) (db st)).

Definition upperbound_secondary (k : index_kind) (st : host_state) (code scope table : Z) (key : list Z) : host_state * Z * option row_object :=
  search k st code scope table (λ tid, first_with k secondary_lt (prefix_lt (probe k tid key)) (db st)).

(** ** Synchronous calls *)

Definition no_account_or_no_contract : Z := -1.
Definition call_not_supported : Z := -2.
Definition invalid_return_value : Z := -3.
Definition sync_call_executed : Z := 0.
Definition valid_sync_call_error_return_code_start : Z := -10000.
Definition all_allowed_bits : Z := 1.

(** The checks up to the creation of the [sync_call_context], which becomes the running one. *)
Definition enter_sync_call (st : host_state) (call_receiver flags data_size : Z) : result (Z + host_state) :=
  let is_next_call_read_only := read_only (ctx st) || Z.testbit flags 0 in
  let depth := Z.of_nat (length (callers st)) + 1 in
  check (depth <=? max_sync_call_depth env) sync_call_depth_exception;;
  check (data_size <=? max_sync_call_data_size env) sync_call_call_data_exception;;
  match callees env !! call_receiver with
  | None => Ok (inl no_account_or_no_contract)
  | Some callee =>
    check (flags <=? all_allowed_bits) sync_call_validate_exception;;
    if negb (has_code callee) then Ok (inl no_account_or_no_contract)
    else if negb (sync_call_supported callee) then Ok (inl call_not_supported)
    else
      Ok (inr (with_callers
        (with_ctx st (HostContext call_receiver (callee_privileged callee) true is_next_call_read_only (λ _, empty_cache)))
        (ctx st :: callers st)))
  end.

(** The call returns to its caller. *)
Definition leave_sync_call (st : host_state) : result host_state :=
  match callers st with
  | [] => Err assert_failed
  | h :: l => Ok (with_callers (with_ctx st h) l)
  end.

(** The code's own status: 0, or an error code of the contract from [-10000] down; anything else is an invalid one. *)
Definition call_status (status : Z) : Z :=
  if negb (status =? sync_call_executed) && (valid_sync_call_error_return_code_start <? status) then invalid_return_value else status.

(** [run] executes the code of the callee: it gives a status (none if the code exits), the value it sets, and
    the state with its context still the running one. The result is the value that [call] returns and the return value kept. *)
Definition execute_sync_call (run : host_state → result (option Z * list Z * host_state))
    (st : host_state) (call_receiver flags data_size : Z) : result (Z * list Z * host_state) :=
  e ← enter_sync_call st call_receiver flags data_size;
  match e with
  | inl code => Ok (code, [], st)
  | inr inner =>
    '(status, value, inner) ← run inner;
    st ← leave_sync_call inner;
    match status with
    | Some status =>
      if call_status status <? sync_call_executed then Ok (call_status status, [], st)
      else Ok (Z.of_nat (length value), value, st)
    | None => Ok (Z.of_nat (length value), value, st)
    end
  end.

(** [get_call_return_value] and [get_call_data]: the bytes that are copied to a memory of this size, and the size of the data. *)
Definition copy_data (d : list Z) (memory_size : Z) : list Z * Z :=
  let copy_size := Z.min memory_size (Z.of_nat (length d)) in
  if copy_size =? 0 then ([], Z.of_nat (length d)) else (take (Z.to_nat copy_size) d, Z.of_nat (length d)).

(** [set_call_return_value]. *)
Definition set_call_return_value (rv : list Z) : result (list Z) :=
  check (Z.of_nat (length rv) <=? max_sync_call_data_size env) sync_call_return_value_exception;; Ok rv.

(** ** Actions *)

(** The context of a new action; [exec] runs further receivers of the action in the same context. *)
Definition new_action (st : host_state) (a : action_info) (receiver_ : Z) (priv ro : bool) : host_state :=
  HostState (db st) (HostContext receiver_ priv false ro (λ _, empty_cache)) [] a (resources st) ∅ (validate_ram_usage st).

Definition notify (st : host_state) (receiver_ : Z) (priv : bool) : host_state :=
  with_ctx st (HostContext receiver_ priv (is_sync_call (ctx st)) (read_only (ctx st)) (caches (ctx st))).

(** The check of [exec_one] after the code has run, with the deltas cleared by [finalize_trace]. *)
Definition check_ram_deltas (st : host_state) : result host_state :=
  (if negb (privileged (ctx st)) && ram_restrictions env then
     check (forallb (λ x : Z * Z, negb ((0 <? x.2) && negb (x.1 =? receiver (ctx st))) ||
              ((receiver (ctx st) =? act_account (act st)) &&
               existsb (λ a, actor a =? x.1) (act_authorization (act st)))) (map_to_list (account_ram_deltas st)))
       unauthorized_ram_usage_increase
   else Ok tt);;
  Ok (HostState (db st) (ctx st) (callers st) (act st) (resources st) ∅ (validate_ram_usage st)).

End Host.
