(* ===== verification/HostContextTheory.v ===== *)
(** * Contract tables: iterators stay sound and the operations are those of ordered maps

    [host_wf] says that the database is consistent and that every entry of every iterator cache, of the running context
    and of its callers, is an object that exists. All operations keep it, although addresses of removed
    objects are reused; on it the searches and moves are those of a map ordered by key. *)

From S2P Require Import Prelude Names Authority ResourceLimits Contract HostContext.
From stdpp Require Import gmap functions list.
Open Scope Z_scope.

(** ** Orders *)

Definition lex {A} (lt1 lt2 : A → A → bool) (a b : A) : bool := lt1 a b || (negb (lt1 b a) && lt2 a b).

Lemma lex_weak_order {A} (ok : A → Prop) lt1 lt2 : weak_order ok lt1 → weak_order ok lt2 → weak_order ok (lex lt1 lt2).
Proof.
  intros [H1 H2] [H3 H4]. unfold lex. split.
  - intros a b Ha Hb. specialize (H1 a b Ha Hb) as Hab. specialize (H1 b a Hb Ha) as Hba. specialize (H3 a b Ha Hb).
    destruct (lt1 a b), (lt1 b a); simpl in *; try naive_solver.
  - intros a b c Ha Hb Hc.
    pose proof (H2 a b c Ha Hb Hc). pose proof (H2 c b a Hc Hb Ha). pose proof (H4 a b c Ha Hb Hc).
    pose proof (H2 a c b Ha Hc Hb). pose proof (H2 b a c Hb Ha Hc). pose proof (H2 b c a Hb Hc Ha). pose proof (H2 c a b Hc Ha Hb).
    pose proof (H1 a b Ha Hb). pose proof (H1 b c Hb Hc). pose proof (H1 a c Ha Hc).
    destruct (lt1 a b), (lt1 b a), (lt1 b c), (lt1 c b), (lt1 a c), (lt1 c a); simpl in *; naive_solver.
Qed.

Lemma weak_order_ext {A} (ok : A → Prop) lt lt' : (∀ a b, ok a → ok b → lt a b = lt' a b) → weak_order ok lt' → weak_order ok lt.
Proof. intros He [H1 H2]. split; intros *; [intros ??|intros ???]; rewrite !He by done; [by apply H1|by apply H2]. Qed.

Lemma weak_order_on {A B} (f : A → B) (ok : A → Prop) (ok' : B → Prop) lt :
  (∀ a, ok a → ok' (f a)) → weak_order ok' lt → weak_order ok (λ a b, lt (f a) (f b)).
Proof. intros Hf [H1 H2]. split; intros *; [intros ??|intros ???]; [apply H1|apply H2]; auto. Qed.

Lemma ltb_weak_order : weak_order (λ _ : Z, True) Z.ltb.
Proof. split; intros *; rewrite ?Z.ltb_lt, ?Z.ltb_ge; lia. Qed.

Lemma flip_weak_order {A} (ok : A → Prop) lt : weak_order ok lt → weak_order ok (λ a b, lt b a).
Proof. intros [H1 H2]. split; [by eauto|]. intros a b c Ha Hb Hc H. destruct (H2 c b a Hc Hb Ha H); auto. Qed.

(** An order of [t_id]s first, as the indices have. *)
Definition tid_lt (a b : row_object) : bool := t_id a <? t_id b.

Lemma by_tid_weak_order ok lt : weak_order ok lt →
  weak_order ok (λ a b, (t_id a <? t_id b) || ((t_id a =? t_id b) && lt a b)).
Proof.
  intros H. apply (weak_order_ext _ _ (lex tid_lt lt)).
  - intros a b _ _. unfold lex, tid_lt. destruct (Z.ltb_spec (t_id a) (t_id b)), (Z.ltb_spec (t_id b) (t_id a)), (Z.eqb_spec (t_id a) (t_id b)); simpl; try done; lia.
  - apply lex_weak_order; [|done]. apply (weak_order_on t_id ok (λ _, True)); [done|apply ltb_weak_order].
Qed.

Lemma primary_weak_order (ok : row_object → Prop) : weak_order ok primary_lt.
Proof.
  apply (by_tid_weak_order ok (λ a b, primary_key a <? primary_key b)).
  apply (weak_order_on primary_key ok (λ _, True)); [done|apply ltb_weak_order].
Qed.

Lemma words_weak_order : weak_order (λ _ : list Z, True) words_lt.
Proof.
  split.
  - intros a b _ _. revert b. induction a as [|x a IH]; intros [|y b]; simpl; try done.
    specialize (IH b). destruct (Z.ltb_spec x y), (Z.ltb_spec y x), (Z.eqb_spec x y), (Z.eqb_spec y x); simpl; try done; lia.
  - intros a b c _ _ _. revert b c. induction a as [|x a IH]; intros [|y b] [|z c]; simpl; try (by auto).
    specialize (IH b c).
    destruct (Z.ltb_spec x y), (Z.ltb_spec y z), (Z.ltb_spec x z), (Z.eqb_spec x y), (Z.eqb_spec y z), (Z.eqb_spec x z);
      simpl; auto; try done; lia.
Qed.

Section Orders.
Context {sf : SoftFloat}.

Definition key_ok (k : index_kind) (r : row_object) : Prop := kind r = k ∧ valid_key k (data r) = true.

Lemma single_weak_order {A} (ok : A → Prop) lt :
  weak_order ok lt → weak_order (λ l : list A, ∃ a, l = [a] ∧ ok a) (λ a b, match a, b with [a], [b] => lt a b | _, _ => false end).
Proof.
  intros [H1 H2]. split.
  - intros ?? (a & -> & ?) (b & -> & ?). by apply H1.
  - intros ??? (a & -> & ?) (b & -> & ?) (c & -> & ?). by apply H2.
Qed.

Lemma key_weak_order k : weak_order (λ key, valid_key k key = true) (key_lt k).
Proof.
  destruct k; try (apply (weak_order_ext _ _ words_lt); [done|]; destruct words_weak_order; by split; eauto).
  - apply (weak_order_ext _ _ (λ a b, match a, b with [a], [b] => f64_lt a b | _, _ => false end)); [done|].
    destruct (single_weak_order _ _ f64_order) as [H1 H2].
    assert (Hk : ∀ key, valid_key idx_double key = true → ∃ a, key = [a] ∧ f64_nan a = false)
      by (intros [|a [|]]; simpl; try done; rewrite negb_true_iff; eauto).
    split; [intros ?? ?%Hk ?%Hk|intros ??? ?%Hk ?%Hk ?%Hk]; auto.
  - apply (weak_order_ext _ _ (λ a b, match a, b with [a], [b] => f128_lt a b | _, _ => false end)); [done|].
    destruct (single_weak_order _ _ f128_order) as [H1 H2].
    assert (Hk : ∀ key, valid_key idx_long_double key = true → ∃ a, key = [a] ∧ f128_nan a = false)
      by (intros [|a [|]]; simpl; try done; rewrite negb_true_iff; eauto).
    split; [intros ?? ?%Hk ?%Hk|intros ??? ?%Hk ?%Hk ?%Hk]; auto.
Qed.

Lemma prefix_weak_order k : weak_order (key_ok k) prefix_lt.
Proof.
  apply (by_tid_weak_order (key_ok k) (λ a b, key_lt (kind a) (data a) (data b))).
  apply (weak_order_ext _ _ (λ a b, key_lt k (data a) (data b))); [by intros a b [-> _] _|].
  apply (weak_order_on data (key_ok k) (λ key, valid_key k key = true)); [by intros a [_ ?]|apply key_weak_order].
Qed.

Lemma secondary_weak_order k : weak_order (key_ok k) secondary_lt.
Proof.
  apply (by_tid_weak_order (key_ok k) (λ a b, key_lt (kind a) (data a) (data b) || (negb (key_lt (kind a) (data b) (data a)) && (primary_key a <? primary_key b)))).
  apply (weak_order_ext _ _ (lex (λ a b, key_lt k (data a) (data b)) (λ a b, primary_key a <? primary_key b))).
  { by intros a b [-> _] _. }
  apply lex_weak_order; [|apply (weak_order_on primary_key (key_ok k) (λ _, True)); [done|apply ltb_weak_order]].
  apply (weak_order_on data (key_ok k) (λ key, valid_key k key = true)); [by intros a [_ ?]|apply key_weak_order].
Qed.

End Orders.

(** ** First and last elements *)

Lemma least_none lt l : least lt l = None ↔ l = [].
Proof. destruct l as [|x l]; simpl; [done|]. destruct (least lt l) as [y|]; [destruct (lt y.2 x.2)|]; done. Qed.

Lemma least_spec ok lt l x : weak_order ok lt → Forall (λ y, ok y.2) l → least lt l = Some x →
  x ∈ l ∧ ∀ y, y ∈ l → lt y.2 x.2 = false.
Proof.
  intros [H1 H2]. revert x. induction l as [|z l IH]; intros x; simpl; [done|]. intros [Hz Hl]%Forall_cons_1.
  assert (Hok : ∀ y, y ∈ l → ok y.2) by (by apply Forall_forall).
  assert (Hirr : ∀ a, ok a → lt a a = false) by (intros a Ha; destruct (lt a a) eqn:E; [|done]; pose proof (H1 a a Ha Ha E); congruence).
  destruct (least lt l) as [y|] eqn:E.
  - destruct (IH y Hl eq_refl) as [Hin Hmin]. destruct (lt y.2 z.2) eqn:Hyz; intros [= <-].
    + split; [by right|]. intros w [->|Hw]%elem_of_cons; auto.
    + split; [by left|]. intros w [->|Hw]%elem_of_cons; [auto|]. destruct (lt w.2 z.2) eqn:Hwz; [|done].
      pose proof (Hmin w Hw). destruct (H2 w.2 y.2 z.2); auto; congruence.
  - apply least_none in E as ->. intros [= <-]. split; [by left|]. intros w [->|Hw]%elem_of_cons; [auto|by apply elem_of_nil in Hw].
Qed.

Lemma elem_of_index k d x : x ∈ index_of k d ↔ objects d !! x.1 = Some x.2 ∧ kind x.2 = k.
Proof. unfold index_of. rewrite list_elem_of_filter. destruct x as [a r]. rewrite elem_of_map_to_list. simpl. tauto. Qed.

Lemma first_with_spec ok k lt P d : weak_order ok lt → (∀ a r, objects d !! a = Some r → kind r = k → ok r) →
  match first_with k lt P d with
  | Some (a, r) => objects d !! a = Some r ∧ kind r = k ∧ P r = true ∧
      ∀ b s, objects d !! b = Some s → kind s = k → P s = true → lt s r = false
  | None => ∀ b s, objects d !! b = Some s → kind s = k → P s = false
  end.
Proof.
  intros Hlt Hok. unfold first_with.
  assert (Hin : ∀ x, x ∈ filter (λ x, P x.2 = true) (index_of k d) ↔ P x.2 = true ∧ objects d !! x.1 = Some x.2 ∧ kind x.2 = k)
    by (intros x; by rewrite list_elem_of_filter, elem_of_index).
  destruct (least _ _) as [[a r]|] eqn:E.
  - apply (least_spec ok) in E as [Hx Hmin]; [|done|apply Forall_forall; intros x Hx; apply Hin in Hx as (_ & ? & ?); eauto].
    apply Hin in Hx as (? & ? & ?). split_and!; [done..|]. intros b s Hb Hs HP. apply (Hmin (b, s)). by apply Hin.
  - apply least_none in E. intros b s Hb Hs. destruct (P s) eqn:HP; [|done].
    exfalso. apply (not_elem_of_nil (b, s)). rewrite <- E. by apply Hin.
Qed.

Lemma last_with_spec ok k lt P d : weak_order ok lt → (∀ a r, objects d !! a = Some r → kind r = k → ok r) →
  match last_with k lt P d with
  | Some (a, r) => objects d !! a = Some r ∧ kind r = k ∧ P r = true ∧
      ∀ b s, objects d !! b = Some s → kind s = k → P s = true → lt r s = false
  | None => ∀ b s, objects d !! b = Some s → kind s = k → P s = false
  end.
Proof. intros Hlt. exact (first_with_spec ok k (λ a b, lt b a) P d (flip_weak_order _ _ Hlt)). Qed.

(** ** The database *)

Section Invariant.
Context {sf : SoftFloat} {al : Allocator}.

(** The number of rows, of all indices, of a table. *)
Definition rows_of (d : contract_db) (id : Z) : Z := tsum (λ _ r, if t_id r =? id then 1 else 0) (objects d).

Record db_core (d : contract_db) : Prop := {
  dc_id : ∀ a b t u, tables d !! a = Some t → tables d !! b = Some u → tab_id t = tab_id u → a = b;
  dc_name : ∀ a b t u, tables d !! a = Some t → tables d !! b = Some u →
    table_is (tab_code t) (tab_scope t) (tab_table t) u = true → a = b;
  dc_next : ∀ a t, tables d !! a = Some t → tab_id t < next_table_id d;
  dc_count : ∀ a t, tables d !! a = Some t → tab_count t = rows_of d (tab_id t);
  dc_table : ∀ p r, objects d !! p = Some r → ∃ a t, tables d !! a = Some t ∧ tab_id t = t_id r;
  dc_row : ∀ p q r s, objects d !! p = Some r → objects d !! q = Some s →
    same_primary (kind r) (t_id r) (primary_key r) s = true → p = q;
  dc_key : ∀ p r, objects d !! p = Some r → valid_key (kind r) (data r) = true }.

(** No table is empty. *)
Definition db_wf (d : contract_db) : Prop := db_core d ∧ ∀ a t, tables d !! a = Some t → 0 < tab_count t.

Definition room (d : contract_db) : Prop := Z.of_nat (size (objects d)) < u32_max.

Lemma tsum_size {R} (m : gmap Z R) : tsum (λ _ _, 1) m = Z.of_nat (size m).
Proof.
  unfold tsum. rewrite <- length_map_to_list. induction (map_to_list m) as [|x l IH]; [done|].
  change (zsum _ (x :: l)) with (1 + zsum (λ kr : Z * R, 1) l). simpl length. lia.
Qed.

Lemma rows_of_bounds d id : 0 <= rows_of d id <= Z.of_nat (size (objects d)).
Proof.
  split; [apply tsum_nonneg; intros; by case_match|].
  rewrite <- tsum_size. apply tsum_le. intros. case_match; lia.
Qed.

Lemma rows_of_insert {m} d p r t n id : rows_of (ContractDb t n (<[p := r]> (objects d)) m) id =
  rows_of d id + (if t_id r =? id then 1 else 0) - from_option (λ s, if t_id s =? id then 1 else 0) 0 (objects d !! p).
Proof. unfold rows_of. cbn [objects]. by rewrite tsum_insert. Qed.

Lemma rows_of_delete {m} d p t n id : rows_of (ContractDb t n (delete p (objects d)) m) id =
  rows_of d id - from_option (λ s, if t_id s =? id then 1 else 0) 0 (objects d !! p).
Proof. unfold rows_of. cbn [objects]. by rewrite tsum_delete. Qed.

Lemma rows_of_tables {m} d t n id : rows_of (ContractDb t n (objects d) m) id = rows_of d id.
Proof. done. Qed.

Lemma rows_of_zero d id : rows_of d id = 0 ↔ ∀ p r, objects d !! p = Some r → t_id r ≠ id.
Proof.
  split.
  - intros H p r Hp Hid. pose proof (tsum_row (λ _ s, if t_id s =? id then 1 else 0) (objects d) p r) as Hs.
    unfold rows_of in H. rewrite H, Hid, Z.eqb_refl in Hs. specialize (Hs ltac:(intros; by case_match) Hp). lia.
  - intros H. apply tsum_zero. intros p r Hp. by rewrite (proj2 (Z.eqb_neq _ _) (H p r Hp)).
Qed.

Lemma table_is_spec c s t x : table_is c s t x = true ↔ tab_code x = c ∧ tab_scope x = s ∧ tab_table x = t.
Proof. unfold table_is. rewrite !andb_true_iff, !Z.eqb_eq. tauto. Qed.

Lemma same_primary_spec k tid id r : same_primary k tid id r = true ↔ kind r = k ∧ t_id r = tid ∧ primary_key r = id.
Proof. unfold same_primary. rewrite !andb_true_iff, !Z.eqb_eq, bool_decide_eq_true. tauto. Qed.

Lemma find_table_some d c s t a x : find_table d c s t = Some (a, x) → tables d !! a = Some x ∧ table_is c s t x = true.
Proof. unfold find_table. intros [Hx Ht]%find_some. apply list_elem_of_In, elem_of_map_to_list in Hx. done. Qed.

Lemma find_table_none d c s t : find_table d c s t = None → ∀ a x, tables d !! a = Some x → table_is c s t x = false.
Proof.
  unfold find_table. intros H a x Hx. apply (find_none _ _ H (a, x)). by apply list_elem_of_In, elem_of_map_to_list.
Qed.

Lemma find_table_live d c s t a x : db_core d → tables d !! a = Some x → table_is c s t x = true → find_table d c s t = Some (a, x).
Proof.
  intros Hd Hx Hk. destruct (find_table d c s t) as [[b y]|] eqn:E.
  - apply find_table_some in E as [Hy Hk']. apply table_is_spec in Hk as (<- & <- & <-).
    pose proof (dc_name _ Hd a b x y Hx Hy Hk') as ->. congruence.
  - by rewrite (find_table_none _ _ _ _ E _ _ Hx) in Hk.
Qed.

(** The changes the operations make keep the database consistent. *)
Lemma core_create_table d c s t py : db_core d → find_table d c s t = None →
  db_core (ContractDb (<[alloc_table (next_table_id d) (tables d) := TableIdObject (next_table_id d) c s t py 0]> (tables d)) (next_table_id d + 1) (objects d) (created_rows d)).
Proof.
  intros Hd Hnone. pose proof (find_table_none _ _ _ _ Hnone) as Hfree. destruct Hd as [H1 H2 H3 H4 H5 H6 H7].
  pose proof (alloc_table_free (next_table_id d) (tables d)) as Hal. set (a0 := alloc_table _ _) in *.
  split; cbn [tables objects next_table_id]; try done.
  - intros a b x y [[<- <-]|[Hne Hx]]%lookup_insert_Some [[<- <-]|[Hne' Hy]]%lookup_insert_Some; cbn [tab_id]; try done.
    + intros E. specialize (H3 _ _ Hy). lia.
    + intros E. specialize (H3 _ _ Hx). lia.
    + by apply H1.
  - intros a b x y [[<- <-]|[Hne Hx]]%lookup_insert_Some [[<- <-]|[Hne' Hy]]%lookup_insert_Some; cbn [tab_code tab_scope tab_table]; try done.
    + by rewrite (Hfree _ _ Hy).
    + intros E%table_is_spec. cbn in E. destruct E as (E1 & E2 & E3). specialize (Hfree _ _ Hx). rewrite (proj2 (table_is_spec c s t x)) in Hfree; [done|auto].
    + by apply H2.
  - intros a x [[<- <-]|[Hne Hx]]%lookup_insert_Some; cbn [tab_id]; [lia|]. specialize (H3 _ _ Hx). lia.
  - intros a x [[<- <-]|[Hne Hx]]%lookup_insert_Some; cbn [tab_id tab_count]; [|exact (H4 _ _ Hx)].
    symmetry. apply rows_of_zero. intros p r Hp E. cbn [objects] in Hp. destruct (H5 _ _ Hp) as (b & u & Hu & Hid). specialize (H3 _ _ Hu). lia.
  - intros p r Hp. destruct (H5 _ _ Hp) as (b & u & Hu & Hid). exists b, u. split; [|done].
    rewrite lookup_insert_ne; [done|]. intros ->. congruence.
Qed.

Definition set_count (t : table_id_object) (n : Z) : table_id_object :=
  TableIdObject (tab_id t) (tab_code t) (tab_scope t) (tab_table t) (tab_payer t) n.

(** A change of the rows of one table, with its count. *)
Lemma core_rows {m} d tab t n o : db_core d → tables d !! tab = Some t →
  let d' := ContractDb (<[tab := set_count t n]> (tables d)) (next_table_id d) o m in
  n = rows_of d' (tab_id t) → (∀ id, id ≠ tab_id t → rows_of d' id = rows_of d id) →
  (∀ p r, o !! p = Some r → t_id r = tab_id t ∨ ∃ s, objects d !! p = Some s ∧ t_id r = t_id s) →
  (∀ p q r s, o !! p = Some r → o !! q = Some s → same_primary (kind r) (t_id r) (primary_key r) s = true → p = q) →
  (∀ p r, o !! p = Some r → valid_key (kind r) (data r) = true) → db_core d'.
Proof.
  intros [H1 H2 H3 H4 H5 H6 H7] Ht d' Hn Hother Hrow Hkey Hval.
  assert (Hinv : ∀ a x, tables d' !! a = Some x → ∃ y, tables d !! a = Some y ∧ tab_id x = tab_id y ∧ tab_code x = tab_code y ∧
      tab_scope x = tab_scope y ∧ tab_table x = tab_table y).
  { intros a x Hx. cbn [tables d'] in Hx. apply lookup_insert_Some in Hx as [[<- <-]|[Hne Hx]]; [by exists t|by exists x]. }
  split; try done.
  - intros a b x y (x' & Hx & E & _)%Hinv (y' & Hy & F & _)%Hinv ?. apply (H1 a b x' y' Hx Hy). congruence.
  - intros a b x y (x' & Hx & _ & E1 & E2 & E3)%Hinv (y' & Hy & _ & F1 & F2 & F3)%Hinv ?%table_is_spec.
    apply (H2 a b x' y' Hx Hy), table_is_spec. naive_solver congruence.
  - intros a x (x' & Hx & -> & _)%Hinv. exact (H3 _ _ Hx).
  - intros a x Hx. cbn [tables d'] in Hx. apply lookup_insert_Some in Hx as [[<- <-]|[Hne Hx]]; cbn [set_count tab_count tab_id]; [done|].
    rewrite Hother; [by apply (H4 a)|]. intros E. apply Hne. symmetry. by apply (H1 a tab x t).
  - intros p r Hp. assert (∃ a u, tables d !! a = Some u ∧ tab_id u = t_id r) as (a & u & Hu & Hid).
    { destruct (Hrow _ _ Hp) as [E|(s & Hs & E)]; [by exists tab, t|]. rewrite E. by eapply H5. }
    destruct (decide (a = tab)) as [->|Hne]; [|exists a, u; cbn [tables d']; by rewrite lookup_insert_ne].
    exists tab, (set_count t n). cbn [tables d']. rewrite lookup_insert_eq. split; [done|]. cbn. congruence.
Qed.

Lemma create_row_inv d r d' a : create_row d r = Ok (d', a) → 
  d' = ContractDb (tables d) (next_table_id d) (<[a := r]> (objects d)) (created_rows d + 1) ∧ a = alloc_row (created_rows d) (objects d) ∧
  objects d !! a = None ∧ ∀ q s, objects d !! q = Some s → same_primary (kind r) (t_id r) (primary_key r) s = false.
Proof.
  unfold create_row. intros H. apply bind_inv in H as (? & Hc%check_inv & [= <- <-]).
  split; [done|]. split; [done|]. split; [apply alloc_row_free|]. intros q s Hs. rewrite forallb_forall in Hc.
  specialize (Hc (q, s)). rewrite negb_true_iff in Hc. apply Hc. by apply list_elem_of_In, elem_of_map_to_list.
Qed.

Lemma same_primary_sym r s : same_primary (kind r) (t_id r) (primary_key r) s = same_primary (kind s) (t_id s) (primary_key s) r.
Proof. apply eq_true_iff_eq. rewrite !same_primary_spec. naive_solver. Qed.

Lemma core_store d tab t r a : db_core d → tables d !! tab = Some t → t_id r = tab_id t → valid_key (kind r) (data r) = true → room d →
  objects d !! a = None → (∀ q s, objects d !! q = Some s → same_primary (kind r) (t_id r) (primary_key r) s = false) →
  u32 (tab_count t + 1) = tab_count t + 1 ∧
  db_core (ContractDb (<[tab := set_count t (u32 (tab_count t + 1))]> (tables d)) (next_table_id d) (<[a := r]> (objects d)) (created_rows d + 1)).
Proof.
  intros Hd Ht Hid Hval Hroom Hfree Huniq.
  assert (Hu : u32 (tab_count t + 1) = tab_count t + 1).
  { apply u32_small. rewrite (dc_count _ Hd _ _ Ht). pose proof (rows_of_bounds d (tab_id t)). unfold room, u32_max, is_u32 in *. lia. }
  split; [done|]. apply core_rows; try done.
  - rewrite Hu, rows_of_insert, Hfree, Hid, Z.eqb_refl, (dc_count _ Hd _ _ Ht). simpl. lia.
  - intros id Hne. rewrite rows_of_insert, Hfree, Hid, (proj2 (Z.eqb_neq _ _)) by done. simpl. lia.
  - intros p s [[<- <-]|[Hne Hs]]%lookup_insert_Some; [by left|right; eauto].
  - intros p q s s' [[<- <-]|[Hne Hs]]%lookup_insert_Some [[<- <-]|[Hne' Hs']]%lookup_insert_Some; try done.
    + by rewrite (Huniq _ _ Hs').
    + by rewrite same_primary_sym, (Huniq _ _ Hs).
    + by apply (dc_row _ Hd).
  - intros p s [[<- <-]|[Hne Hs]]%lookup_insert_Some; [done|by eapply dc_key].
Qed.

Lemma set_count_same t : set_count t (tab_count t) = t.
Proof. by destruct t. Qed.

Lemma core_update d a r py v : db_core d → objects d !! a = Some r → valid_key (kind r) v = true →
  db_core (with_objects d (<[a := RowObject (kind r) (t_id r) (primary_key r) py v]> (objects d))).
Proof.
  intros Hd Hr Hval. destruct (dc_table _ Hd _ _ Hr) as (tab & t & Ht & Hid).
  assert (Hrows : ∀ id, rows_of (with_objects d (<[a := RowObject (kind r) (t_id r) (primary_key r) py v]> (objects d))) id = rows_of d id).
  { intros id. unfold with_objects. rewrite rows_of_insert, Hr. simpl. case_match; lia. }
  pose proof (core_rows (m := created_rows d) d tab t (tab_count t) (<[a := RowObject (kind r) (t_id r) (primary_key r) py v]> (objects d)) Hd Ht) as H.
  rewrite set_count_same, insert_id in H by done. apply H; clear H.
  - change (tab_count t = rows_of (with_objects d (<[a := RowObject (kind r) (t_id r) (primary_key r) py v]> (objects d))) (tab_id t)).
    rewrite Hrows. by eapply dc_count.
  - intros id _. apply Hrows.
  - intros p s [[<- <-]|[Hne Hs]]%lookup_insert_Some; right; eauto.
  - assert (Hback : ∀ p s, <[a := RowObject (kind r) (t_id r) (primary_key r) py v]> (objects d) !! p = Some s →
      ∃ s', objects d !! p = Some s' ∧ kind s = kind s' ∧ t_id s = t_id s' ∧ primary_key s = primary_key s').
    { intros p s [[<- <-]|[Hne Hs]]%lookup_insert_Some; [by exists r|by exists s]. }
    intros p q s s' (x & Hx & E1 & E2 & E3)%Hback (y & Hy & F1 & F2 & F3)%Hback ?%same_primary_spec.
    apply (dc_row _ Hd p q x y Hx Hy), same_primary_spec. naive_solver congruence.
  - intros p s [[<- <-]|[Hne Hs]]%lookup_insert_Some; [done|by eapply dc_key].
Qed.

Lemma core_remove d tab t a r : db_core d → room d → tables d !! tab = Some t → objects d !! a = Some r → t_id r = tab_id t →
  u32 (tab_count t - 1) = tab_count t - 1 ∧
  db_core (ContractDb (<[tab := set_count t (u32 (tab_count t - 1))]> (tables d)) (next_table_id d) (delete a (objects d)) (created_rows d)).
Proof.
  intros Hd Hroom Ht Hr Hid.
  assert (Hu : u32 (tab_count t - 1) = tab_count t - 1).
  { apply u32_small. rewrite (dc_count _ Hd _ _ Ht). pose proof (rows_of_bounds d (tab_id t)). unfold room, u32_max, is_u32 in *.
    assert (rows_of d (tab_id t) ≠ 0); [|lia]. intros E. by apply (proj1 (rows_of_zero d (tab_id t)) E a r Hr). }
  split; [done|]. apply core_rows; try done.
  - rewrite Hu, rows_of_delete, Hr, (dc_count _ Hd _ _ Ht). simpl. rewrite Hid, Z.eqb_refl. lia.
  - intros id Hne. rewrite rows_of_delete, Hr. simpl. rewrite Hid, (proj2 (Z.eqb_neq _ _)) by done. lia.
  - intros p s [_ Hs]%lookup_delete_Some. right; eauto.
  - intros p q s s' [_ Hs]%lookup_delete_Some [_ Hs']%lookup_delete_Some. by apply (dc_row _ Hd).
  - intros p s [_ Hs]%lookup_delete_Some. by eapply dc_key.
Qed.

Lemma core_remove_table d a t : db_core d → tables d !! a = Some t → tab_count t = 0 → db_core (with_tables d (delete a (tables d))).
Proof.
  intros Hd Ht H0. pose proof Hd as [H1 H2 H3 H4 H5 H6 H7]. rewrite (H4 _ _ Ht) in H0.
  split; cbn [with_tables tables objects next_table_id]; try done.
  - intros x y u v [_ Hu]%lookup_delete_Some [_ Hv]%lookup_delete_Some. by apply H1.
  - intros x y u v [_ Hu]%lookup_delete_Some [_ Hv]%lookup_delete_Some. by apply H2.
  - intros x u [_ Hu]%lookup_delete_Some. by eapply H3.
  - intros x u [_ Hu]%lookup_delete_Some. exact (H4 _ _ Hu).
  - intros p r Hp. destruct (H5 _ _ Hp) as (b & u & Hu & Hid). exists b, u. split; [|done].
    rewrite lookup_delete_ne; [done|]. intros <-. rewrite Hu in Ht. injection Ht as ->.
    by apply (proj1 (rows_of_zero d (tab_id t)) H0 p r Hp).
Qed.

(** ** The caches *)

Record cache_wf (d : contract_db) (k : index_kind) (c : iterator_cache) : Prop := {
  cw_entry : ∀ i p, iterator_to_object c !! i = Some (Some p) ↔ object_to_iterator c !! p = Some (Z.of_nat i);
  cw_index : ∀ p z, object_to_iterator c !! p = Some z → ∃ i, z = Z.of_nat i;
  cw_live : ∀ p z, object_to_iterator c !! p = Some z →
    ∃ r, objects d !! p = Some r ∧ kind r = k ∧ is_Some (table_cache c !! t_id r);
  cw_known : ∀ id a ei, table_cache c !! id = Some (a, ei) → id < next_table_id d ∧
    ∃ i, ei = index_to_end_iterator i ∧ end_iterator_to_table c !! i = Some a;
  cw_place : ∀ id a ei b t, table_cache c !! id = Some (a, ei) → tables d !! b = Some t → tab_id t = id → b = a;
  cw_end : ∀ i a, end_iterator_to_table c !! i = Some a → ∃ id, table_cache c !! id = Some (a, index_to_end_iterator i) }.

Lemma cache_wf_empty d k : cache_wf d k empty_cache.
Proof. by split. Qed.

(** The database changes, but no object of the cache is lost and no known table moves. *)
Lemma cache_wf_ext d d' k c : cache_wf d k c → next_table_id d <= next_table_id d' →
  (∀ p z r, object_to_iterator c !! p = Some z → objects d !! p = Some r →
     ∃ r', objects d' !! p = Some r' ∧ kind r' = kind r ∧ t_id r' = t_id r) →
  (∀ b t', tables d' !! b = Some t' → tab_id t' < next_table_id d → ∃ t, tables d !! b = Some t ∧ tab_id t = tab_id t') →
  cache_wf d' k c.
Proof.
  intros [H1 H2 H3 H4 H5 H6] Hn Ho Ht. split; try done.
  - intros p z Hp. destruct (H3 _ _ Hp) as (r & Hr & Hk & Htab). destruct (Ho _ _ _ Hp Hr) as (r' & ? & E & F).
    exists r'. by rewrite F, E.
  - intros id a ei He. destruct (H4 _ _ _ He) as [? ?]. split; [lia|done].
  - intros id a ei b t' He Hb Hid. destruct (H4 _ _ _ He) as [? _]. destruct (Ht b t' Hb ltac:(lia)) as (t & Hb' & E).
    apply (H5 id a ei b t He Hb'). congruence.
Qed.

Lemma cache_table_wf d k c a t c' ei : db_core d → cache_wf d k c → tables d !! a = Some t → cache_table c a (tab_id t) = (c', ei) →
  cache_wf d k c' ∧ table_cache c' !! tab_id t = Some (a, ei) ∧ iterator_to_object c' = iterator_to_object c ∧
  object_to_iterator c' = object_to_iterator c ∧ table_cache c ⊆ table_cache c'.
Proof.
  intros Hd Hc Ht. unfold cache_table. destruct (table_cache c !! tab_id t) as [[b e]|] eqn:E; intros [= <- <-].
  { pose proof (cw_place _ _ _ Hc _ _ _ _ _ E Ht eq_refl) as <-. done. }
  split; [|cbn [table_cache]; rewrite lookup_insert_eq; split_and!; try done; by apply insert_subseteq].
  destruct Hc as [H1 H2 H3 H4 H5 H6]. split; cbn [table_cache end_iterator_to_table iterator_to_object object_to_iterator]; try done.
  - intros p z Hp. destruct (H3 _ _ Hp) as (r & ? & ? & Hs). exists r. split_and!; [done..|]. by apply lookup_insert_is_Some'; right.
  - intros id x e [[<- [= <- <-]]|[Hne Hx]]%lookup_insert_Some.
    + split; [by eapply dc_next|]. eexists. split; [done|]. by rewrite list_lookup_middle.
    + destruct (H4 _ _ _ Hx) as (? & i & -> & Hi). split; [done|]. exists i. split; [done|]. by apply lookup_app_l_Some.
  - intros id x e b u [[<- [= <- <-]]|[Hne Hx]]%lookup_insert_Some Hb Hid; [by apply (dc_id _ Hd b a u t)|by eapply H5].
  - intros i x [Hi|[Hle Hi]]%lookup_app_Some.
    + destruct (H6 _ _ Hi) as [id Hid]. exists id. rewrite lookup_insert_ne; [done|]. intros <-. congruence.
    + apply list_lookup_singleton_Some in Hi as [Hi <-]. exists (tab_id t). rewrite lookup_insert_eq. do 3 f_equal. lia.
Qed.

Lemma cache_add_wf d k c p r c' i : cache_wf d k c → objects d !! p = Some r → kind r = k → is_Some (table_cache c !! t_id r) →
  cache_add c p = (c', i) →
  cache_wf d k c' ∧ object_to_iterator c' !! p = Some i ∧ table_cache c' = table_cache c ∧ end_iterator_to_table c' = end_iterator_to_table c ∧
  (∀ q z, object_to_iterator c !! q = Some z → object_to_iterator c' !! q = Some z).
Proof.
  intros Hc Hr Hk Ht. unfold cache_add. destruct (object_to_iterator c !! p) as [z|] eqn:E; intros [= <- <-]; [done|].
  cbn [object_to_iterator table_cache]. rewrite lookup_insert_eq.
  split; [|split_and!; try done; intros q z Hq; rewrite lookup_insert_ne; [done|congruence]].
  destruct Hc as [H1 H2 H3 H4 H5 H6]. split; cbn [table_cache end_iterator_to_table iterator_to_object object_to_iterator]; try done.
  - intros i q. rewrite lookup_insert_Some, lookup_app_Some, H1, list_lookup_singleton_Some. split.
    + intros [Hq|(Hle & Hi & [= ->])]; [right; split; [congruence|done]|left; split; [done|lia]].
    + intros [[<- Hi]|[Hne Hq]]; [right; split_and!; [lia|lia|done]|by left].
  - intros q z [[<- <-]|[Hne Hq]]%lookup_insert_Some; [eauto|by eapply H2].
  - intros q z [[<- <-]|[Hne Hq]]%lookup_insert_Some; [by exists r|by eapply H3].
Qed.

Lemma clear_entry_wf d k c i p : cache_wf d k c → object_to_iterator c !! p = Some (Z.of_nat i) → cache_wf d k (clear_entry c i p).
Proof.
  intros [H1 H2 H3 H4 H5 H6] Hp. split; cbn [clear_entry table_cache end_iterator_to_table iterator_to_object object_to_iterator]; try done.
  - intros j q. rewrite lookup_delete_Some, <- H1, list_lookup_insert_Some. split.
    + intros [(? & ? & ?)|[Hne Hq]]; [done|]. split; [|done]. intros <-. apply H1 in Hq. rewrite Hp in Hq. apply Hne. injection Hq. lia.
    + intros [Hne Hq]. right. split; [|done]. intros <-. apply Hne. apply H1 in Hp. congruence.
  - intros q z [_ Hq]%lookup_delete_Some. by eapply H2.
  - intros q z [_ Hq]%lookup_delete_Some. by eapply H3.
Qed.

(** The entries without the object [p]. *)
Definition forget (p : Z) (o : option Z) : option Z := if decide (o = Some p) then None else o.

Lemma forget_entries d k c p : cache_wf d k c →
  (∀ i, object_to_iterator c !! p = Some (Z.of_nat i) → <[i := None]> (iterator_to_object c) = forget p <$> iterator_to_object c) ∧
  (object_to_iterator c !! p = None → iterator_to_object c = forget p <$> iterator_to_object c).
Proof.
  intros Hc. split.
  - intros i Hi. apply list_eq. intros j. rewrite list_lookup_fmap. destruct (decide (i = j)) as [<-|Hne].
    + apply (cw_entry _ _ _ Hc) in Hi. rewrite list_lookup_insert_eq by (by apply lookup_lt_Some in Hi). rewrite Hi. simpl.
      unfold forget. by rewrite decide_True.
    + rewrite list_lookup_insert_ne by done. destruct (iterator_to_object c !! j) as [o|] eqn:E; [|done]. simpl. unfold forget.
      destruct (decide (o = Some p)) as [->|]; [|done]. apply (cw_entry _ _ _ Hc) in E. rewrite Hi in E. injection E. lia.
  - intros Hn. apply list_eq. intros j. rewrite list_lookup_fmap. destruct (iterator_to_object c !! j) as [o|] eqn:E; [|done]. simpl. unfold forget.
    destruct (decide (o = Some p)) as [->|]; [|done]. apply (cw_entry _ _ _ Hc) in E. congruence.
Qed.

(** The cache [c'] is [c] without the object [p]. *)
Record erased (d : contract_db) (k : index_kind) (p : Z) (c c' : iterator_cache) : Prop := {
  er_wf : cache_wf d k c';
  er_objects : object_to_iterator c' = delete p (object_to_iterator c);
  er_tables : table_cache c' = table_cache c;
  er_entries : iterator_to_object c' = forget p <$> iterator_to_object c }.

Lemma erased_none d k p c : cache_wf d k c → object_to_iterator c !! p = None → erased d k p c c.
Proof. intros Hc Hn. split; [done|by rewrite delete_id|done|by apply (forget_entries d k)]. Qed.

Lemma erased_entry d k p c i : cache_wf d k c → object_to_iterator c !! p = Some (Z.of_nat i) → erased d k p c (clear_entry c i p).
Proof. intros Hc Hi. split; [by apply clear_entry_wf|done|done|by apply (forget_entries d k)]. Qed.

Lemma invalidate_wf d k c p : cache_wf d k c → ∃ c', invalidate c p = Ok c' ∧ erased d k p c c'.
Proof.
  intros Hc. unfold invalidate. destruct (object_to_iterator c !! p) as [z|] eqn:E; [|exists c; split; [done|by apply erased_none]].
  destruct (cw_index _ _ _ Hc _ _ E) as [i ->]. pose proof (proj2 (cw_entry _ _ _ Hc i p) E) as Hi%lookup_lt_Some.
  rewrite check_bind by (apply andb_true_iff; rewrite Z.leb_le, Z.ltb_lt; lia). rewrite Nat2Z.id.
  eexists. split; [done|by apply erased_entry].
Qed.

(** ** States *)

Fixpoint stack_ok (h : host_context) (l : list host_context) : Prop :=
  match l with [] => is_sync_call h = false | p :: l => is_sync_call h = true ∧ stack_ok p l end.

Definition context_wf (d : contract_db) (h : host_context) : Prop := ∀ k, cache_wf d k (caches h k).

Record host_wf (st : host_state) : Prop := {
  hw_db : db_wf (db st);
  hw_ctx : context_wf (db st) (ctx st);
  hw_callers : Forall (context_wf (db st)) (callers st);
  hw_stack : stack_ok (ctx st) (callers st) }.

(** What [update_db_usage] leaves alone. *)
Definition same_tables (st st' : host_state) : Prop :=
  db st' = db st ∧ ctx st' = ctx st ∧ callers st' = callers st ∧ act st' = act st.

Lemma update_db_usage_inv env st py delta st' : update_db_usage env st py delta = Ok st' → same_tables st st'.
Proof.
  unfold update_db_usage. destruct (is_sync_call _); [by intros [= <-]|].
  intros H. apply bind_inv in H as (? & _ & H). unfold add_ram_usage in H. by apply bind_inv in H as (? & _ & [= <-]).
Qed.

Lemma with_cache_ctx st k c : caches (ctx (with_cache st k c)) = <[k := c]> (caches (ctx st)).
Proof. done. Qed.

Lemma context_wf_set d h k c : context_wf d h → cache_wf d k c → context_wf d (set_caches h (<[k := c]> (caches h))).
Proof.
  intros Hh Hc j. cbn [set_caches caches]. destruct (decide (j = k)) as [->|Hne]; [by rewrite fn_lookup_insert|].
  rewrite fn_lookup_insert_ne by done. apply Hh.
Qed.

(** The state with another cache of the running context. *)
Lemma with_cache_wf st k c : host_wf st → cache_wf (db st) k c → host_wf (with_cache st k c).
Proof. intros [H1 H2 H3 H4] Hc. split; cbn; [done|by apply context_wf_set|done|by destruct (callers st)]. Qed.

(** A change of the database that removes at most the objects in [gone]. *)
Record db_step (gone : Z → Prop) (d d' : contract_db) : Prop := {
  ds_next : next_table_id d <= next_table_id d';
  ds_objects : ∀ p r, ¬ gone p → objects d !! p = Some r → ∃ r', objects d' !! p = Some r' ∧ kind r' = kind r ∧ t_id r' = t_id r;
  ds_tables : ∀ b t', tables d' !! b = Some t' → tab_id t' < next_table_id d → ∃ t, tables d !! b = Some t ∧ tab_id t = tab_id t' }.

Lemma db_step_refl gone d : db_step gone d d.
Proof. split; [lia|eauto|eauto]. Qed.

Lemma db_step_trans gone d1 d2 d3 : db_step gone d1 d2 → db_step gone d2 d3 → db_step gone d1 d3.
Proof.
  intros [H1 H2 H3] [G1 G2 G3]. split; [lia|..].
  - intros p r Hg (r' & Hr' & E1 & E2)%H2; [|done]. destruct (G2 p r' Hg Hr') as (r'' & ? & ? & ?). exists r''. split_and!; [done|congruence..].
  - intros b t3 Hb Hlt. destruct (G3 _ _ Hb ltac:(lia)) as (t2 & Hb2 & E). destruct (H3 _ _ Hb2 ltac:(lia)) as (t1 & ? & ?).
    exists t1. split; [done|congruence].
Qed.

Lemma db_step_context gone d d' h : db_step gone d d' → context_wf d h →
  (∀ k p z, object_to_iterator (caches h k) !! p = Some z → ¬ gone p) → context_wf d' h.
Proof.
  intros [H1 H2 H3] Hh Hg k. apply (cache_wf_ext d); [apply Hh|done| |done].
  intros p z r Hp Hr. apply H2; [by eapply Hg|done].
Qed.

Lemma db_step_contexts d d' l : db_step (λ _, False) d d' → Forall (context_wf d) l → Forall (context_wf d') l.
Proof. intros Hd Hl. eapply Forall_impl; [exact Hl|]. intros h Hh. eapply db_step_context; [done|done|]. auto. Qed.

Context (env : host_env).

Definition live_count (a : Z) (d : contract_db) : Prop := ∀ b u, b ≠ a → tables d !! b = Some u → 0 < tab_count u.

Lemma find_or_create_spec st c s t py st' a x : db_wf (db st) → find_or_create_table env st c s t py = Ok (st', a, x) →
  db_core (db st') ∧ live_count a (db st') ∧ tables (db st') !! a = Some x ∧ table_is c s t x = true ∧
  objects (db st') = objects (db st) ∧ db_step (λ _, False) (db st) (db st') ∧
  (∀ b u, tables (db st) !! b = Some u → tables (db st') !! b = Some u) ∧ ctx st' = ctx st ∧ callers st' = callers st ∧ act st' = act st.
Proof.
  intros [Hd Hpos]. unfold find_or_create_table. destruct (find_table _ _ _ _) as [[b u]|] eqn:E.
  - intros [= <- <- <-]. apply find_table_some in E as [Hu Hk]. split_and!; try done; [|apply db_step_refl].
    intros b' u' _ Hu'. by eapply Hpos.
  - intros H. apply bind_inv in H as (st1 & H1 & H). apply update_db_usage_inv in H1 as (E1 & E2 & E3 & E4). injection H as <- <- <-.
    rewrite !E1. cbn [with_db db ctx callers act tables objects]. rewrite lookup_insert_eq, (proj2 (table_is_spec _ _ _ _)) by done.
    pose proof (alloc_table_free (next_table_id (db st)) (tables (db st))) as Hal.
    split_and!; try done; [by apply core_create_table|..].
    + intros b u Hne Hu. cbn [tables] in Hu. rewrite lookup_insert_ne in Hu by congruence. by eapply Hpos.
    + split; cbn [next_table_id tables objects]; [lia|eauto|]. intros b u [[<- <-]|[Hne Hu]]%lookup_insert_Some Hlt; [cbn in Hlt; lia|eauto].
    + intros b u Hu. rewrite lookup_insert_ne; [done|]. congruence.
Qed.

(** The rows that a step adds, changes or removes leave the caches alone. *)
Lemma db_step_rows {m} gone d tab t n o : tables d !! tab = Some t →
  (∀ p r, ¬ gone p → objects d !! p = Some r → ∃ r', o !! p = Some r' ∧ kind r' = kind r ∧ t_id r' = t_id r) →
  db_step gone d (ContractDb (<[tab := set_count t n]> (tables d)) (next_table_id d) o m).
Proof.
  intros Ht Ho. split; cbn [next_table_id tables objects]; [lia|done|].
  intros b u [[<- <-]|[Hne Hu]]%lookup_insert_Some _; eauto.
Qed.

(** A step that only adds to the caches of the running context: iterators keep their objects. *)
Record moves (st st' : host_state) : Prop := {
  mv_db : db st' = db st;
  mv_callers : callers st' = callers st;
  mv_act : act st' = act st;
  mv_resources : resources st' = resources st;
  mv_receiver : receiver (ctx st') = receiver (ctx st) ∧ is_sync_call (ctx st') = is_sync_call (ctx st);
  mv_keep : ∀ j q z, object_to_iterator (cache_of st j) !! q = Some z → object_to_iterator (cache_of st' j) !! q = Some z;
  mv_tables : ∀ j, table_cache (cache_of st j) ⊆ table_cache (cache_of st' j) }.

Lemma moves_refl st : moves st st.
Proof. by split. Qed.

Lemma moves_trans st1 st2 st3 : moves st1 st2 → moves st2 st3 → moves st1 st3.
Proof.
  intros [H1 H2 H3 H4 [H5 H5'] H6 H7] [G1 G2 G3 G4 [G5 G5'] G6 G7]. split; try congruence; [split; congruence|..].
  - intros j q z Hq. auto.
  - intros j. by transitivity (table_cache (cache_of st2 j)).
Qed.

Lemma with_cache_moves st k c : (∀ q z, object_to_iterator (cache_of st k) !! q = Some z → object_to_iterator c !! q = Some z) →
  table_cache (cache_of st k) ⊆ table_cache c → moves st (with_cache st k c).
Proof.
  intros H1 H2. split; try done; intros j; unfold cache_of in *; rewrite !with_cache_ctx;
    (destruct (decide (j = k)) as [->|Hne]; [rewrite fn_lookup_insert|rewrite fn_lookup_insert_ne by done]); auto.
Qed.

Lemma cache_of_with st k c : cache_of (with_cache st k c) k = c.
Proof. unfold cache_of. by rewrite with_cache_ctx, fn_lookup_insert. Qed.

(** Adding an object of a table in the cache, and adding a table. *)
Lemma add_to_cache_spec st k p r st' i : host_wf st → objects (db st) !! p = Some r → kind r = k →
  is_Some (table_cache (cache_of st k) !! t_id r) → add_to_cache st k p = (st', i) →
  host_wf st' ∧ object_to_iterator (cache_of st' k) !! p = Some i ∧ moves st st'.
Proof.
  intros Hw Hr Hk Ht. unfold add_to_cache. destruct (cache_add _ _) as [c j] eqn:E. intros [= <- <-].
  destruct (cache_add_wf _ _ _ _ _ _ _ (hw_ctx _ Hw k) Hr Hk Ht E) as (Hc & Hp & Htc & _ & Hold).
  split; [by apply with_cache_wf|]. rewrite cache_of_with. split; [done|]. apply with_cache_moves; [done|]. unfold cache_of. by rewrite Htc.
Qed.

Lemma cache_table_of_spec st k a t st' ei : host_wf st → tables (db st) !! a = Some t → cache_table_of st k a t = (st', ei) →
  host_wf st' ∧ table_cache (cache_of st' k) !! tab_id t = Some (a, ei) ∧ moves st st'.
Proof.
  intros Hw Ht. unfold cache_table_of. destruct (cache_table _ _ _) as [c e] eqn:E. intros [= <- <-].
  destruct (cache_table_wf _ _ _ _ _ _ _ (proj1 (hw_db _ Hw)) (hw_ctx _ Hw k) Ht E) as (Hc & Htab & Hi & Ho & Hsub).
  split; [by apply with_cache_wf|]. rewrite cache_of_with. split; [done|]. apply with_cache_moves; [|done]. unfold cache_of. by rewrite Ho.
Qed.

(** ** The abstract view: rows by index, table and primary key *)

Record row_key : Type := RowKey { rk_kind : index_kind; rk_code : Z; rk_scope : Z; rk_table : Z; rk_id : Z }.

#[export] Instance row_key_eq_dec : EqDecision row_key.
Proof. solve_decision. Defined.

(** The payer and the data of a row. *)
Definition view (d : contract_db) (x : row_key) : option (Z * list Z) :=
  match find_table d (rk_code x) (rk_scope x) (rk_table x) with
  | Some (_, t) =>
    (λ y : Z * row_object, (payer y.2, data y.2)) <$> find (λ y, same_primary (rk_kind x) (tab_id t) (rk_id x) y.2) (map_to_list (objects d))
  | None => None
  end.

(** The object at address [p] is the row with key [x]. *)
Definition row_is (d : contract_db) (x : row_key) (p : Z) (r : row_object) : Prop :=
  objects d !! p = Some r ∧ ∃ a t, tables d !! a = Some t ∧ table_is (rk_code x) (rk_scope x) (rk_table x) t = true ∧
    same_primary (rk_kind x) (tab_id t) (rk_id x) r = true.

Lemma view_spec d x pv : db_core d → view d x = Some pv ↔ ∃ p r, row_is d x p r ∧ pv = (payer r, data r).
Proof.
  intros Hd. unfold view, row_is. split.
  - destruct (find_table _ _ _ _) as [[a t]|] eqn:E; [|done]. apply find_table_some in E as [Ht Hk].
    destruct (find _ _) as [[p r]|] eqn:F; [|done]. intros [= <-]. apply find_some in F as [Hr Hs].
    apply list_elem_of_In, elem_of_map_to_list in Hr. exists p, r. split; [|done]. split; [done|]. by exists a, t.
  - intros (p & r & (Hr & a & t & Ht & Hk & Hs) & ->). rewrite (find_table_live _ _ _ _ _ _ Hd Ht Hk).
    destruct (find _ _) as [[q u]|] eqn:F.
    + apply find_some in F as [Hu Hs']. apply list_elem_of_In, elem_of_map_to_list in Hu. simpl in *.
      assert (p = q) as <-; [|congruence].
      apply (dc_row _ Hd p q r u Hr Hu). apply same_primary_spec in Hs, Hs'. apply same_primary_spec. naive_solver congruence.
    + apply (find_none _ _) with (x := (p, r)) in F; [simpl in F; congruence|]. by apply list_elem_of_In, elem_of_map_to_list.
Qed.

(** The key of an object. *)
Lemma row_is_key d x y p r s : db_core d → row_is d x p r → row_is d y p s → x = y ∧ r = s.
Proof.
  intros Hd (Hr & a & t & Ht & Hk & Hs) (Hr' & b & u & Hu & Hk' & Hs'). rewrite Hr in Hr'. injection Hr' as <-.
  apply same_primary_spec in Hs as (? & ? & ?), Hs' as (? & ? & ?). assert (a = b) as <- by (apply (dc_id _ Hd a b t u Ht Hu); congruence).
  apply table_is_spec in Hk as (? & ? & ?), Hk' as (? & ? & ?). split; [|done]. destruct x, y. simpl in *. f_equal; congruence.
Qed.

Lemma row_is_unique d x p q r s : db_core d → row_is d x p r → row_is d x q s → p = q ∧ r = s.
Proof.
  intros Hd (Hr & a & t & Ht & Hk & Hs) (Hr' & b & u & Hu & Hk' & Hs').
  apply same_primary_spec in Hs as (? & ? & ?), Hs' as (? & ? & ?).
  assert (a = b) as <-. { apply (dc_name _ Hd a b t u Ht Hu). apply table_is_spec in Hk as (-> & -> & ->). done. }
  assert (p = q) as <-; [|split; congruence]. apply (dc_row _ Hd p q r s Hr Hr'), same_primary_spec. split_and!; congruence.
Qed.

Lemma row_exists d p r : db_core d → objects d !! p = Some r → ∃ x, row_is d x p r ∧ rk_kind x = kind r ∧ rk_id x = primary_key r.
Proof.
  intros Hd Hr. destruct (dc_table _ Hd _ _ Hr) as (a & t & Ht & Hid).
  exists (RowKey (kind r) (tab_code t) (tab_scope t) (tab_table t) (primary_key r)). split; [|done]. split; [done|]. exists a, t.
  rewrite table_is_spec, same_primary_spec. simpl. auto.
Qed.

(** A new table has no rows. *)
Lemma view_tables d d' x : db_core d → db_core d' → objects d' = objects d →
  (∀ b u, tables d !! b = Some u → tables d' !! b = Some u) → view d' x = view d x.
Proof.
  intros Hd Hd' Ho Ht. apply option_eq. intros pv. rewrite !view_spec by done. unfold row_is. rewrite Ho.
  split; intros (p & r & (Hr & a & t & Ha & Hk & Hs) & ->); exists p, r; (split; [|done]); (split; [done|]).
  - destruct (dc_table _ Hd _ _ Hr) as (b & u & Hu & Hid). exists b, u. split; [done|]. apply same_primary_spec in Hs as (? & ? & ?).
    assert (b = a) as <- by (apply (dc_id _ Hd' b a u t); [by apply Ht|done|congruence]). apply Ht in Hu.
    rewrite Ha in Hu. injection Hu as <-. split; [done|]. by apply same_primary_spec.
  - exists a, t. auto.
Qed.

(** The rows of one table change. *)
Lemma row_is_rows {m} d tab t n o x p r : tables d !! tab = Some t →
  row_is (ContractDb (<[tab := set_count t n]> (tables d)) (next_table_id d) o m) x p r ↔ row_is (with_objects d o) x p r.
Proof.
  intros Ht. unfold row_is. cbn [objects tables with_objects]. split; intros (Hr & a & u & Hu & Hk & Hs); (split; [done|]).
  - apply lookup_insert_Some in Hu as [[<- <-]|[Hne Hu]]; [by exists tab, t|by exists a, u].
  - destruct (decide (tab = a)) as [<-|Hne]; [|exists a, u; by rewrite lookup_insert_ne].
    exists tab, (set_count t n). rewrite lookup_insert_eq. rewrite Ht in Hu. injection Hu as <-. done.
Qed.

Lemma view_insert {m} d tab t n r a x : db_core d → tables d !! tab = Some t → t_id r = tab_id t →
  table_is (rk_code x) (rk_scope x) (rk_table x) t = true → rk_kind x = kind r → rk_id x = primary_key r →
  db_core (ContractDb (<[tab := set_count t n]> (tables d)) (next_table_id d) (<[a := r]> (objects d)) m) →
  (objects d !! a = None ∨ ∃ s, row_is d x a s) →
  ∀ y, view (ContractDb (<[tab := set_count t n]> (tables d)) (next_table_id d) (<[a := r]> (objects d)) m) y =
       if decide (y = x) then Some (payer r, data r) else view d y.
Proof.
  intros Hd Ht Hid Hk Hkind Hp Hd' Hold y. set (d' := ContractDb _ _ _ _) in *.
  assert (Hx : row_is d' x a r).
  { apply row_is_rows; [done|]. split; [cbn; by rewrite lookup_insert_eq|]. exists tab, t. rewrite same_primary_spec. auto. }
  apply option_eq. intros pv. rewrite view_spec by done. destruct (decide (y = x)) as [->|Hne].
  - split; [|intros [= <-]; eauto]. intros (p & s & Hs & ->). by destruct (row_is_unique _ _ _ _ _ _ Hd' Hx Hs) as [<- <-].
  - rewrite view_spec by done. split; intros (p & s & Hs & ->); exists p, s; (split; [|done]).
    + apply row_is_rows in Hs as [Hs Hrest]; [|done]. cbn in Hs. apply lookup_insert_Some in Hs as [[<- <-]|[Hne' Hs]]; [|by split].
      exfalso. apply Hne. assert (row_is d' y a r) as Hy.
      { apply row_is_rows; [done|]. split; [cbn; by rewrite lookup_insert_eq|done]. }
      by destruct (row_is_key _ _ _ _ _ _ Hd' Hy Hx).
    + apply row_is_rows; [done|]. destruct Hs as [Hs Hrest]. split; [|done]. cbn. rewrite lookup_insert_ne; [done|]. intros <-.
      destruct Hold as [Hn|[s' Hs']]; [congruence|]. apply Hne. by destruct (row_is_key d y x a s s' Hd).
Qed.

Lemma view_delete {m} d tab t n a x s : db_core d → tables d !! tab = Some t → row_is d x a s →
  db_core (ContractDb (<[tab := set_count t n]> (tables d)) (next_table_id d) (delete a (objects d)) m) →
  ∀ y, view (ContractDb (<[tab := set_count t n]> (tables d)) (next_table_id d) (delete a (objects d)) m) y =
       if decide (y = x) then None else view d y.
Proof.
  intros Hd Ht Hx Hd' y. apply option_eq. intros pv. rewrite view_spec by done. destruct (decide (y = x)) as [->|Hne].
  - split; [|done]. intros (p & r & Hr & _). apply row_is_rows in Hr as [Hr Hrest]; [|done]. cbn in Hr.
    apply lookup_delete_Some in Hr as [Hne Hr]. destruct (row_is_unique d x p a r s) as [-> _]; [done|by split|done|done].
  - rewrite view_spec by done. split; intros (p & r & Hr & ->); exists p, r; (split; [|done]).
    + apply row_is_rows in Hr as [Hr Hrest]; [|done]. cbn in Hr. apply lookup_delete_Some in Hr as [_ Hr]. by split.
    + apply row_is_rows; [done|]. destruct Hr as [Hr Hrest]. split; [|done]. cbn. apply lookup_delete_Some. split; [|done]. intros <-.
      apply Hne. by destruct (row_is_key d y x a r s Hd).
Qed.

End Invariant.
