(* ===== verification/HostOperations.v ===== *)
(** * Contract tables: what the operations do

    Storing, changing and removing rows on the abstract view, the searches and moves by the order of the keys, and
    which errors are possible. *)

From S2P Require Import Prelude Names Authority ResourceLimits Contract HostContext HostContextTheory.
From stdpp Require Import gmap functions list.
Open Scope Z_scope.

Section Operations.
Context {sf : SoftFloat} {al : Allocator} (env : host_env).
Implicit Types (st : host_state) (d : contract_db).

(** ** Iterators *)

(** The iterator [it] of a context is at the row with key [x]. *)
Definition points_in d (h : host_context) (k : index_kind) (it : Z) (x : row_key) : Prop :=
  ∃ p r, object_to_iterator (caches h k) !! p = Some it ∧ row_is d x p r.

Definition points st : index_kind → Z → row_key → Prop := points_in (db st) (ctx st).

(** The iterators of all contexts at rows that satisfy [P] stay at these rows. *)
Definition keeps_in (P : row_key → Prop) d h d' h' : Prop :=
  ∀ k it x, P x → points_in d h k it x → points_in d' h' k it x.

Definition keeps (P : row_key → Prop) st st' : Prop :=
  keeps_in P (db st) (ctx st) (db st') (ctx st') ∧ Forall2 (λ h h', keeps_in P (db st) h (db st') h') (callers st) (callers st').

(** The iterator is the end of an existing table. *)
Definition at_end st (k : index_kind) (it code scope table : Z) : Prop :=
  ∃ a t, tables (db st) !! a = Some t ∧ table_is code scope table t = true ∧ table_cache (cache_of st k) !! tab_id t = Some (a, it).

Lemma wf_cache st k : host_wf st → cache_wf (db st) k (cache_of st k).
Proof. intros Hw. apply (hw_ctx _ Hw). Qed.

Lemma cache_get_iff d k c it p : cache_wf d k c → cache_get c it = Ok p ↔ object_to_iterator c !! p = Some it.
Proof.
  intros Hc. unfold cache_get. split.
  - intros H. do 2 apply bind_inv in H as (? & ?%check_inv & H). breflect.
    destruct (iterator_to_object c !! Z.to_nat it) as [[q|]|] eqn:E; try done. injection H as ->.
    apply (cw_entry _ _ _ Hc) in E. rewrite E. f_equal. lia.
  - intros H. destruct (cw_index _ _ _ Hc _ _ H) as [i ->]. apply (cw_entry _ _ _ Hc) in H.
    rewrite !check_bind by solve_test. by rewrite Nat2Z.id, H.
Qed.

Lemma cache_get_err c it e : cache_get c it = Err e → e = invalid_table_iterator ∨ e = table_operation_not_permitted.
Proof.
  unfold cache_get. destruct (it =? -1); [intros [= <-]; auto|]. destruct (0 <=? it); [|intros [= <-]; auto]. simpl.
  destruct (_ !! _) as [[p|]|]; intros [= <-]; auto.
Qed.

Lemma get_object_ok st k it p : host_wf st → object_to_iterator (cache_of st k) !! p = Some it →
  ∃ r, objects (db st) !! p = Some r ∧ kind r = k ∧ get_object st k it = Ok (p, r).
Proof.
  intros Hw Hp. destruct (cw_live _ _ _ (wf_cache _ k Hw) _ _ Hp) as (r & Hr & Hk & _). exists r. split; [done|]. split; [done|].
  unfold get_object. rewrite (proj2 (cache_get_iff _ _ _ _ p (wf_cache _ k Hw)) Hp). simpl. rewrite Hr. by rewrite bool_decide_eq_true_2.
Qed.

Lemma get_object_inv st k it p r : host_wf st → get_object st k it = Ok (p, r) →
  object_to_iterator (cache_of st k) !! p = Some it ∧ objects (db st) !! p = Some r ∧ kind r = k.
Proof.
  intros Hw. unfold get_object. intros H. apply bind_inv in H as (q & Hq & H). apply (cache_get_iff _ _ _ _ _ (wf_cache _ k Hw)) in Hq.
  destruct (objects (db st) !! q) as [s|] eqn:E; [|done]. apply bind_inv in H as (? & Hk%check_inv & [= -> ->]). breflect. done.
Qed.

(** The only errors of using an iterator. *)
Definition iterator_error (e : exn) : Prop := e = invalid_table_iterator ∨ e = table_operation_not_permitted.

Lemma get_object_err st k it e : host_wf st → get_object st k it = Err e → iterator_error e.
Proof.
  intros Hw. unfold get_object. destruct (cache_get _ _) as [p|e'] eqn:E; [|intros [= <-]; by apply cache_get_err in E].
  apply (cache_get_iff _ _ _ _ _ (wf_cache _ k Hw)) in E. destruct (cw_live _ _ _ (wf_cache _ k Hw) _ _ E) as (r & Hr & Hk & _).
  simpl. rewrite Hr. by rewrite bool_decide_eq_true_2.
Qed.

(** The object, its table and the key of an iterator. *)
Lemma points_iff st k it x : host_wf st → points st k it x ↔ ∃ p r a t ei, get_object st k it = Ok (p, r) ∧ row_is (db st) x p r ∧
  tables (db st) !! a = Some t ∧ table_is (rk_code x) (rk_scope x) (rk_table x) t = true ∧ tab_id t = t_id r ∧
  table_cache (cache_of st k) !! t_id r = Some (a, ei).
Proof.
  intros Hw. split.
  - intros (p & r & Hp & Hx). destruct (get_object_ok _ _ _ _ Hw Hp) as (r' & Hr & Hk & Hg).
    pose proof Hx as (Hr' & a & t & Ht & Hkey & Hs). rewrite Hr in Hr'. injection Hr' as ->. apply same_primary_spec in Hs as (? & Hid & ?).
    destruct (cw_live _ _ _ (wf_cache _ k Hw) _ _ Hp) as (s & Hs & _ & [[b ei] Htc]). rewrite Hr in Hs. injection Hs as <-.
    pose proof (cw_place _ _ _ (wf_cache _ k Hw) _ _ _ _ _ Htc Ht (eq_sym Hid)) as ->. by exists p, r, b, t, ei.
  - intros (p & r & a & t & ei & Hg & Hx & _). apply get_object_inv in Hg as (? & ? & ?); [|done]. by exists p, r.
Qed.

Lemma points_moves st st' k it x : moves st st' → points st k it x → points st' k it x.
Proof. intros Hm (p & r & Hp & Hx). exists p, r. rewrite (mv_db _ _ Hm). split; [by apply (mv_keep _ _ Hm)|done]. Qed.

(** ** Storing *)

(** [st'] is [st] with the row [x]; the iterator [i] is at it, and the iterators of [st] stay where they were. *)
Record stored (st st' : host_state) (x : row_key) (py : Z) (v : list Z) (i : Z) : Prop := {
  so_wf : host_wf st';
  so_new : view (db st) x = None;
  so_view : ∀ y, view (db st') y = if decide (y = x) then Some (py, v) else view (db st) y;
  so_points : points st' (rk_kind x) i x;
  so_keep : keeps (λ _, True) st st' }.

Lemma wf_with_db gone st st' : db_step gone (db st) (db st') → db_wf (db st') → ctx st' = ctx st → callers st' = callers st → host_wf st →
  (∀ h k p z, h = ctx st ∨ h ∈ callers st → object_to_iterator (caches h k) !! p = Some z → ¬ gone p) → host_wf st'.
Proof.
  intros Hstep Hdb Hc Hl [H1 H2 H3 H4] Hg. split; rewrite ?Hc, ?Hl; [done| | |done].
  - eapply db_step_context; [done..|]. intros k p z. apply Hg. by left.
  - apply Forall_forall. intros h Hh. eapply db_step_context; [done|by eapply Forall_forall in H3|]. intros k p z. apply Hg. by right.
Qed.

Lemma store_row_spec st0 st k tab t py id v st' i : host_wf st0 →
  db_core (db st) → live_count tab (db st) → tables (db st) !! tab = Some t → objects (db st) = objects (db st0) →
  db_step (λ _, False) (db st0) (db st) → (∀ b u, tables (db st0) !! b = Some u → tables (db st) !! b = Some u) →
  ctx st = ctx st0 → callers st = callers st0 → valid_key k v = true → room (db st0) →
  store_row env st k tab t py id v = Ok (st', i) →
  stored st0 st' (RowKey k (tab_code t) (tab_scope t) (tab_table t) id) py v i.
Proof.
  intros Hw Hd Hlive Ht Hobj Hstep Htabs Hctx Hcallers Hval Hroom H.
  unfold store_row in H. set (r := RowObject k (tab_id t) id py v) in *.
  apply bind_inv in H as ([d1 a] & Hcr & H). apply create_row_inv in Hcr as (-> & Ha & Hfree & Huniq).
  apply bind_inv in H as (d2 & Hmod & H). unfold modify_count, deref_table in Hmod. cbn [with_objects tables] in Hmod. rewrite Ht in Hmod.
  injection Hmod as <-. apply bind_inv in H as (st1 & Hup & H). apply update_db_usage_inv in Hup as (E1 & E2 & E3 & E4).
  assert (Hroom' : room (db st)) by (unfold room; by rewrite Hobj).
  destruct (core_store (db st) tab t r a Hd Ht eq_refl Hval Hroom' Hfree Huniq) as [Hu Hd2].
  set (d2 := ContractDb (<[tab := set_count t (u32 (tab_count t + 1))]> (tables (db st))) (next_table_id (db st)) (<[a := r]> (objects (db st))) (created_rows (db st) + 1)) in *.
  change (db st1 = d2) in E1. cbn [with_db ctx callers] in E2, E3.
  assert (Hwf2 : db_wf d2).
  { split; [done|]. intros b u Hb. cbn [tables d2] in Hb. apply lookup_insert_Some in Hb as [[<- <-]|[Hne Hb]]; [|by apply (Hlive b)].
    cbn. rewrite Hu, (dc_count _ Hd _ _ Ht). pose proof (rows_of_bounds (db st) (tab_id t)). lia. }
  assert (Hw1 : host_wf st1).
  { apply (wf_with_db (λ _, False) st0); rewrite ?E1, ?E2, ?E3; [|done..|auto].
    apply (db_step_trans _ _ (db st)); [done|]. apply db_step_rows; [done|]. intros p s _ Hs. exists s. rewrite lookup_insert_ne; [done|]. congruence. }
  destruct (cache_table_of st1 k tab t) as [st2 ei] eqn:Hct.
  assert (Ht1 : tables (db st1) !! tab = Some (set_count t (u32 (tab_count t + 1)))) by (rewrite E1; cbn; by rewrite lookup_insert_eq).
  destruct (cache_table_of_spec st1 k tab (set_count t (u32 (tab_count t + 1))) st2 ei Hw1 Ht1 Hct) as (Hw2 & Htc & Hm2).
  injection H as H.
  assert (Hr2 : objects (db st2) !! a = Some r) by (rewrite (mv_db _ _ Hm2), E1; cbn; by rewrite lookup_insert_eq).
  destruct (add_to_cache_spec st2 k a r st' i Hw2 Hr2 eq_refl (ex_intro _ _ Htc) H) as (Hw3 & Hi & Hm3).
  pose proof (moves_trans _ _ _ Hm2 Hm3) as Hm. assert (Hdb : db st' = d2) by (rewrite (mv_db _ _ Hm); done).
  set (x := RowKey k (tab_code t) (tab_scope t) (tab_table t) id).
  assert (Hview : ∀ y, view d2 y = if decide (y = x) then Some (py, v) else view (db st0) y).
  { intros y. rewrite <- (view_tables (db st0) (db st)); [|apply Hw|done..].
    apply (view_insert (db st) tab t _ r a x); try done; [by apply table_is_spec|by left]. }
  split; [done| |by rewrite Hdb|..].
  - rewrite <- (view_tables (db st0) (db st)) by (try apply Hw; done). apply eq_None_not_Some. intros [pv (p & s & Hs & _)%view_spec]; [|done].
    destruct Hs as (Hs & b & u & Hb & Hk & Hsame). specialize (Huniq p s Hs). apply table_is_spec in Hk. cbn [x rk_code rk_scope rk_table] in Hk.
    assert (b = tab) as -> by (symmetry; apply (dc_name _ Hd tab b t u Ht Hb); by apply table_is_spec).
    rewrite Ht in Hb. injection Hb as <-. cbn in Huniq, Hsame. congruence.
  - exists a, r. split; [done|]. rewrite Hdb. apply row_is_rows; [done|]. split; [cbn; by rewrite lookup_insert_eq|].
    exists tab, t. rewrite same_primary_spec. split; [done|]. split; [by apply table_is_spec|done].
  - assert (Hrows : ∀ y p s, row_is (db st0) y p s → row_is d2 y p s).
    { intros y p s (Hs & b & u & Hb & Hrest). apply row_is_rows; [done|]. rewrite <- Hobj in Hs.
      split; [cbn; rewrite lookup_insert_ne; [done|congruence]|]. exists b, u. split; [by apply Htabs|done]. }
    split; [|rewrite (mv_callers _ _ Hm), E3, Hcallers; apply Forall2_same_length_lookup_2; [done|]; intros n h h' Hh Hh'; assert (h = h') as <- by congruence];
      rewrite Hdb; intros j it y _ (p & s & Hp & Hs); exists p, s; (split; [|by apply Hrows]); [|done].
    apply (mv_keep _ _ Hm). unfold cache_of. by rewrite E2, Hctx.
Qed.

(** [db_store_i64] and [generic_index::store]. *)
Definition store (k : index_kind) : host_state → Z → Z → Z → Z → list Z → result (host_state * Z) :=
  match k with key_value => db_store_i64 env | _ => idx_store env k end.

Lemma store_inv k st scope table py id v st' i : store k st scope table py id v = Ok (st', i) → py ≠ 0 ∧
  ∃ st1 tab t, find_or_create_table env st (receiver (ctx st)) scope table py = Ok (st1, tab, t) ∧ store_row env st1 k tab t py id v = Ok (st', i).
Proof.
  assert (Hidx : idx_store env k st scope table py id v = Ok (st', i) → py ≠ 0 ∧
    ∃ st1 tab t, find_or_create_table env st (receiver (ctx st)) scope table py = Ok (st1, tab, t) ∧ store_row env st1 k tab t py id v = Ok (st', i)).
  { unfold idx_store. intros H. apply bind_inv in H as (? & Hp%check_inv & H). apply bind_inv in H as ([[st1 tab] t] & Hf & H).
    breflect. split; [done|]. by exists st1, tab, t. }
  destruct k; try exact Hidx. unfold store, db_store_i64. intros H. apply bind_inv in H as ([[st1 tab] t] & Hf & H).
  apply bind_inv in H as (? & Hp%check_inv & H). breflect. split; [done|]. by exists st1, tab, t.
Qed.

Lemma store_spec k st scope table py id v st' i : host_wf st → room (db st) → valid_key k v = true →
  store k st scope table py id v = Ok (st', i) → stored st st' (RowKey k (receiver (ctx st)) scope table id) py v i.
Proof.
  intros Hw Hroom Hval (Hpy & st1 & tab & t & Hf & H)%store_inv.
  destruct (find_or_create_spec env _ _ _ _ _ _ _ _ (hw_db _ Hw) Hf) as (Hd & Hl & Ht & Hk & Ho & Hs & Htabs & Hc & Hcl & _).
  apply table_is_spec in Hk as (<- & <- & <-). exact (store_row_spec st st1 k tab t py id v st' i Hw Hd Hl Ht Ho Hs Htabs Hc Hcl Hval Hroom H).
Qed.

(** ** Changing *)

Lemma writable_object_spec st k it a obj tab : host_wf st → writable_object st k it = Ok (a, obj, tab) →
  ∃ x t, row_is (db st) x a obj ∧ rk_kind x = k ∧ rk_code x = receiver (ctx st) ∧ kind obj = k ∧
    tables (db st) !! tab = Some t ∧ tab_id t = t_id obj ∧ object_to_iterator (cache_of st k) !! a = Some it.
Proof.
  intros Hw H. unfold writable_object in H. apply bind_inv in H as ([a' obj'] & Hg & H). apply bind_inv in H as (tab' & Htab & H).
  apply bind_inv in H as (t & Ht & H). apply bind_inv in H as (u0 & Hcode%check_inv & H). injection H as -> -> ->. breflect.
  apply get_object_inv in Hg as (Hi & Hr & Hk); [|done]. unfold deref_table in Ht. destruct (tables (db st) !! tab) as [t'|] eqn:Et; [|done]. injection Ht as ->.
  unfold get_table in Htab. destruct (table_cache (cache_of st k) !! t_id obj) as [[b ei]|] eqn:Etc; [|done]. injection Htab as ->.
  destruct (row_exists _ _ _ (proj1 (hw_db _ Hw)) Hr) as (x & Hx & Hxk & _). pose proof Hx as (_ & c & u & Hu & Hkey & Hs).
  apply same_primary_spec in Hs as (? & Hid & ?). pose proof (cw_place _ _ _ (wf_cache _ k Hw) _ _ _ _ _ Etc Hu (eq_sym Hid)) as ->.
  rewrite Et in Hu. injection Hu as <-. exists x, t. apply table_is_spec in Hkey as (? & _). split_and!; try done; congruence.
Qed.

Lemma writable_object_err st k it e : host_wf st → writable_object st k it = Err e → iterator_error e ∨ e = table_access_violation.
Proof.
  intros Hw. unfold writable_object. destruct (get_object st k it) as [[a obj]|e'] eqn:Hg; [|intros [= <-]; left; by apply get_object_err in Hg].
  apply get_object_inv in Hg as (Hi & Hr & Hk); [|done]. destruct (row_exists _ _ _ (proj1 (hw_db _ Hw)) Hr) as (x & Hx & _ & _).
  assert (Hp : points st k it x) by (by exists a, obj). apply points_iff in Hp as (p & r & b & t & ei & Hg & Hx' & Ht & _ & Hid & Htc); [|done].
  apply get_object_inv in Hg as (Hi' & Hr' & _); [|done]. destruct (row_is_unique _ _ _ _ _ _ (proj1 (hw_db _ Hw)) Hx Hx') as [-> ->].
  simpl. unfold get_table. rewrite Htc. simpl. unfold deref_table. rewrite Ht. simpl.
  destruct (tab_code t =? _); [done|]. intros [= <-]. by right.
Qed.

(** [st'] is [st] with the data and payer of the row [x] changed. *)
Record updated (st st' : host_state) (x : row_key) (py : Z) (v : list Z) : Prop := {
  up_wf : host_wf st';
  up_own : rk_code x = receiver (ctx st);
  up_view : ∀ y, view (db st') y = if decide (y = x) then Some (py, v) else view (db st) y;
  up_keep : keeps (λ _, True) st st' }.

Lemma modify_row_spec st st1 k it a obj tab py v : host_wf st → writable_object st k it = Ok (a, obj, tab) → same_tables st st1 →
  valid_key k v = true → ∃ x, points st k it x ∧ rk_kind x = k ∧ view (db st) x = Some (payer obj, data obj) ∧ updated st (modify_row st1 a obj py v) x py v.
Proof.
  intros Hw (x & t & Hx & Hxk & Hcode & Hk & Ht & Hid & Hi)%writable_object_spec (E1 & E2 & E3 & E4) Hval; [|done].
  pose proof (proj1 (hw_db _ Hw)) as Hd. exists x. split; [by exists a, obj|]. split; [done|].
  split; [apply view_spec; [done|]; by exists a, obj|]. set (r := RowObject (kind obj) (t_id obj) (primary_key obj) py v).
  pose proof Hx as (Hobj & b & u & Hu & Hkey & Hs).
  assert (Hd' : db_core (with_objects (db st) (<[a := r]> (objects (db st))))) by (apply core_update; [done|done|by rewrite Hk]).
  assert (Hdb : db (modify_row st1 a obj py v) = with_objects (db st) (<[a := r]> (objects (db st)))) by (unfold modify_row; cbn; by rewrite E1).
  assert (Hsame : with_objects (db st) (<[a := r]> (objects (db st))) =
    ContractDb (<[tab := set_count t (tab_count t)]> (tables (db st))) (next_table_id (db st)) (<[a := r]> (objects (db st))) (created_rows (db st))).
  { unfold with_objects. rewrite set_count_same, (insert_id (tables (db st)) tab t) by done. done. }
  assert (Hstep : db_step (λ _, False) (db st) (with_objects (db st) (<[a := r]> (objects (db st))))).
  { rewrite Hsame. apply db_step_rows; [done|]. intros p s _ Hs'. destruct (decide (p = a)) as [->|Hne]; [|exists s; by rewrite lookup_insert_ne].
    exists r. rewrite lookup_insert_eq. rewrite Hobj in Hs'. injection Hs' as <-. done. }
  assert (Hrows : ∀ y p s, row_is (db st) y p s → ∃ s', row_is (with_objects (db st) (<[a := r]> (objects (db st)))) y p s').
  { intros y p s (Hs' & c & w & Hc & Hck & Hcs). destruct (decide (p = a)) as [->|Hne].
    - exists r. split; [cbn; by rewrite lookup_insert_eq|]. exists c, w. rewrite Hobj in Hs'. injection Hs' as <-.
      apply same_primary_spec in Hcs. rewrite same_primary_spec. done.
    - exists s. split; [cbn; by rewrite lookup_insert_ne|]. by exists c, w. }
  split; [|done|..].
  - apply (wf_with_db (λ _, False) st); [by rewrite Hdb|rewrite Hdb; split; [done|apply Hw]|done..|auto].
  - intros y. rewrite Hdb, Hsame. assert (b = tab) as ->.
    { apply (dc_id _ Hd b tab u t Hu Ht). apply same_primary_spec in Hs as (_ & ? & _). congruence. }
    rewrite Ht in Hu. injection Hu as <-. apply same_primary_spec in Hs as (? & ? & ?).
    apply (view_insert (db st) tab t _ r a x); try done; [by rewrite <- Hsame|right; eauto].
  - unfold keeps. rewrite Hdb. cbn [modify_row with_db ctx callers]. rewrite E2, E3.
    split; [|apply Forall2_same_length_lookup_2; [done|]; intros n h h' Hh Hh'; assert (h = h') as <- by congruence];
      intros j it' y _ (p & s & Hp & [s' ?]%Hrows); by exists p, s'.
Qed.

(** [db_update_i64] and [generic_index::update]. *)
Definition update (k : index_kind) : host_state → Z → Z → list Z → result host_state :=
  match k with key_value => db_update_i64 env | _ => idx_update env k end.

Lemma update_inv k st it py v st' : update k st it py v = Ok st' → ∃ a obj tab st1, writable_object st k it = Ok (a, obj, tab) ∧
  same_tables st st1 ∧ st' = modify_row st1 a obj (if py =? 0 then payer obj else py) v.
Proof.
  assert (Hrefl : same_tables st st) by done.
  assert (Htwo : ∀ p1 n1 p2 n2 st1, (st2 ← update_db_usage env st p1 n1; update_db_usage env st2 p2 n2) = Ok st1 → same_tables st st1).
  { intros p1 n1 p2 n2 st1 H. apply bind_inv in H as (st2 & (A1 & A2 & A3 & A4)%update_db_usage_inv & (B1 & B2 & B3 & B4)%update_db_usage_inv).
    split_and!; congruence. }
  assert (Hidx : idx_update env k st it py v = Ok st' → ∃ a obj tab st1, writable_object st k it = Ok (a, obj, tab) ∧
    same_tables st st1 ∧ st' = modify_row st1 a obj (if py =? 0 then payer obj else py) v).
  { unfold idx_update. intros H. apply bind_inv in H as ([[a obj] tab] & Hw & H). apply bind_inv in H as (st1 & Hup & [= <-]).
    exists a, obj, tab, st1. split; [done|]. split; [|done]. destruct (negb _); [by eapply Htwo|by injection Hup as <-]. }
  destruct k; try exact Hidx. unfold update, db_update_i64. intros H.
  apply bind_inv in H as ([[a obj] tab] & Hw & H). apply bind_inv in H as (st1 & Hup & [= <-]).
  exists a, obj, tab, st1. split; [done|]. split; [|done].
  destruct (negb _); [by eapply Htwo|]. destruct (negb _); [by eapply update_db_usage_inv|by injection Hup as <-].
Qed.

Lemma update_spec k st it py v st' : host_wf st → valid_key k v = true → update k st it py v = Ok st' →
  ∃ x old, points st k it x ∧ rk_kind x = k ∧ view (db st) x = Some old ∧ updated st st' x (if py =? 0 then old.1 else py) v.
Proof.
  intros Hw Hval (a & obj & tab & st1 & Hwo & Hs & ->)%update_inv.
  destruct (modify_row_spec st st1 k it a obj tab (if py =? 0 then payer obj else py) v Hw Hwo Hs Hval) as (x & ? & ? & ? & ?).
  by exists x, (payer obj, data obj).
Qed.

(** ** Removing *)

Record erased_context d (p : Z) (h h' : host_context) : Prop := {
  ec_caches : ∀ k, erased d k p (caches h k) (caches h' k);
  ec_rest : receiver h' = receiver h ∧ privileged h' = privileged h ∧ is_sync_call h' = is_sync_call h ∧ read_only h' = read_only h }.

Lemma invalidate_caches_spec d h p : context_wf d h → ∃ h', invalidate_iterator_caches h p = Ok h' ∧ erased_context d p h h'.
Proof.
  intros Hh. unfold invalidate_iterator_caches.
  destruct (invalidate_wf d key_value _ p (Hh key_value)) as (c0 & -> & H0), (invalidate_wf d idx64 _ p (Hh idx64)) as (c1 & -> & H1),
    (invalidate_wf d idx128 _ p (Hh idx128)) as (c2 & -> & H2), (invalidate_wf d idx256 _ p (Hh idx256)) as (c3 & -> & H3),
    (invalidate_wf d idx_double _ p (Hh idx_double)) as (c4 & -> & H4), (invalidate_wf d idx_long_double _ p (Hh idx_long_double)) as (c5 & -> & H5).
  eexists. split; [done|]. split; [|done]. by intros [].
Qed.

Lemma broadcast_spec d p h l : Forall (context_wf d) (h :: l) → stack_ok h l →
  ∃ l', broadcast_erasure (h :: l) p = Ok l' ∧ Forall2 (erased_context d p) (h :: l) l'.
Proof.
  revert h. induction l as [|h' l IH]; intros h Hwf Hs; apply Forall_cons in Hwf as [Hh Hl]; cbn [broadcast_erasure];
    destruct (invalidate_caches_spec d h p Hh) as (h1 & -> & He); cbn [mbind result_bind]; simpl in Hs.
  - rewrite Hs. eexists. split; [done|]. apply Forall2_cons_2; [done|apply Forall2_nil_2].
  - destruct Hs as [-> Hs]. destruct (IH h' Hl Hs) as (l' & Hb & Hf). cbn [broadcast_erasure mbind result_bind] in Hb |- *.
    rewrite Hb. eexists. split; [done|]. by constructor.
Qed.

(** The database of [st'] is that of [st] without the row [x] at [a], and without its table if the row was the last one. *)
Record row_removed d d' (x : row_key) (a : Z) : Prop := {
  rr_wf : db_wf d';
  rr_step : db_step (λ p, p = a) d d';
  rr_view : ∀ y, view d' y = if decide (y = x) then None else view d y;
  rr_rows : ∀ y p s, y ≠ x → row_is d y p s → row_is d' y p s }.

Lemma remove_last_table d a t x p : db_core d → live_count a d → tables d !! a = Some t → tab_count t = 0 → row_removed d (with_tables d (delete a (tables d))) x p ∨
  view d x ≠ None.
Proof.
  intros Hd Hl Ht H0. destruct (view d x) eqn:E; [by right|left]. pose proof (core_remove_table d a t Hd Ht H0) as Hd'.
  assert (Hrows : ∀ y q s, row_is d y q s ↔ row_is (with_tables d (delete a (tables d))) y q s).
  { intros y q s. unfold row_is. cbn. split; intros (Hs & b & u & Hu & Hk & Hp); (split; [done|]); exists b, u; (split; [|done]).
    - rewrite lookup_delete_ne; [done|]. intros <-. rewrite Ht in Hu. injection Hu as ->. rewrite (dc_count _ Hd _ _ Ht) in H0.
      apply same_primary_spec in Hp as (_ & ? & _). by apply (proj1 (rows_of_zero d (tab_id u)) H0 q s Hs).
    - by apply lookup_delete_Some in Hu as [_ ?]. }
  split; [split; [done|]|..|].
  - intros b u Hu. cbn in Hu. apply lookup_delete_Some in Hu as [Hne Hu]. by apply (Hl b u).
  - split; cbn; [lia|eauto|]. intros b u [_ Hu]%lookup_delete_Some _. eauto.
  - intros y. transitivity (view d y); [|case_decide; congruence]. apply option_eq. intros pv. rewrite !view_spec by done.
    split; intros (q & s & Hs & ->); exists q, s; (split; [by apply Hrows|done]).
  - intros y q s _. apply Hrows.
Qed.

Lemma row_removed_delete d tab t x a r : db_wf d → room d → row_is d x a r → tables d !! tab = Some t → tab_id t = t_id r →
  let t' := set_count t (u32 (tab_count t - 1)) in
  let d' := ContractDb (<[tab := t']> (tables d)) (next_table_id d) (delete a (objects d)) (created_rows d) in
  db_core d' ∧ live_count tab d' ∧ tables d' !! tab = Some t' ∧ (tab_count t' ≠ 0 → 0 < tab_count t') ∧ db_step (λ p, p = a) d d' ∧
  (∀ y, view d' y = if decide (y = x) then None else view d y) ∧ ∀ y p s, y ≠ x → row_is d y p s → row_is d' y p s.
Proof.
  intros [Hd Hpos] Hroom Hx Ht Hid t' d'. destruct (core_remove d tab t a r Hd Hroom Ht (proj1 Hx) (eq_sym Hid)) as [Hu Hd'].
  split_and!; [done|..].
  - intros b u Hne Hb. cbn [tables d'] in Hb. rewrite lookup_insert_ne in Hb by done. by apply (Hpos b).
  - cbn. by rewrite lookup_insert_eq.
  - cbn. rewrite Hu. specialize (Hpos _ _ Ht). lia.
  - apply db_step_rows; [done|]. intros p s Hne Hs. exists s. by rewrite lookup_delete_ne.
  - exact (view_delete d tab t _ a x r Hd Ht Hx Hd').
  - intros y p s Hne Hs. apply row_is_rows; [done|]. destruct Hs as [Hs Hrest]. split; [|done]. cbn. rewrite lookup_delete_ne; [done|].
    intros <-. apply Hne. by destruct (row_is_key d y x a s r Hd).
Qed.

Lemma deref_ok d a t : tables d !! a = Some t → deref_table d a = Ok t.
Proof. unfold deref_table. by intros ->. Qed.

Lemma modify_count_ok d a t f : tables d !! a = Some t →
  modify_count d a f = Ok (with_tables d (<[a := set_count t (u32 (f (tab_count t)))]> (tables d))).
Proof. intros Ht. unfold modify_count. by rewrite (deref_ok _ _ _ Ht). Qed.

(** The statements of [db_remove_i64] on the database. *)
Lemma remove_db_spec st st1 st3 tab t x a r : db_wf (db st) → room (db st) → row_is (db st) x a r → tables (db st) !! tab = Some t → tab_id t = t_id r →
  same_tables st st1 →
  (d ← modify_count (db st1) tab (λ n, n - 1);
   let st2 := with_db st1 (with_objects d (delete a (objects d))) in
   t ← deref_table (db st2) tab;
   if tab_count t =? 0 then remove_table env st2 tab else Ok st2) = Ok st3 →
  row_removed (db st) (db st3) x a ∧ ctx st3 = ctx st ∧ callers st3 = callers st ∧ act st3 = act st.
Proof.
  intros Hd Hroom Hx Ht Hid (E1 & E2 & E3 & E4) H. rewrite E1, (modify_count_ok _ _ _ _ Ht) in H.
  destruct (row_removed_delete (db st) tab t x a r Hd Hroom Hx Ht Hid) as (Hd' & Hl & Ht' & Hpos & Hstep & Hview & Hrows).
  cbn [mbind result_bind with_tables with_objects objects tables next_table_id with_db db] in H. set (t' := set_count t (u32 (tab_count t - 1))) in *.
  set (d' := ContractDb (<[tab := t']> (tables (db st))) (next_table_id (db st)) (delete a (objects (db st))) (created_rows (db st))) in *.
  change (with_objects (with_tables (db st) (<[tab := t']> (tables (db st)))) (delete a (objects (db st)))) with d' in H.
  rewrite (deref_ok _ _ _ Ht') in H. cbn [mbind result_bind] in H. destruct (Z.eqb_spec (tab_count t') 0) as [H0|H0].
  - unfold remove_table in H. cbn [with_db db] in H. rewrite (deref_ok _ _ _ Ht') in H. cbn [mbind result_bind] in H.
    apply bind_inv in H as (st4 & (F1 & F2 & F3 & F4)%update_db_usage_inv & [= <-]). cbn in F1, F2, F3, F4. cbn [with_db db ctx callers act]. rewrite F1.
    split; [|split_and!; congruence]. destruct (remove_last_table d' tab t' x a Hd' Hl Ht' H0) as [[G1 G2 G3 G4]|Hv]; [|by rewrite Hview, decide_True in Hv].
    split; [done|by apply (db_step_trans _ _ d')|..].
    + intros y. rewrite G3, Hview. by case_decide.
    + intros y p s Hne Hs. by apply G4, Hrows.
  - injection H as <-. split; [|split_and!; done]. split; [|done..]. split; [done|]. intros b u Hb. destruct (decide (b = tab)) as [->|Hne].
    + cbn in Hb. rewrite lookup_insert_eq in Hb. injection Hb as <-. by apply Hpos.
    + by apply (Hl b).
Qed.

Record removed (st st' : host_state) (x : row_key) : Prop := {
  re_wf : host_wf st';
  re_own : rk_code x = receiver (ctx st);
  re_view : ∀ y, view (db st') y = if decide (y = x) then None else view (db st) y;
  re_keep : keeps (λ y, y ≠ x) st st';
  re_dead : Forall2 (λ h h', ∀ it, points_in (db st) h (rk_kind x) it x →
    cache_get (caches h' (rk_kind x)) it = Err table_operation_not_permitted) (ctx st :: callers st) (ctx st' :: callers st') }.

Lemma stack_erased d p h l h' l' : Forall2 (erased_context d p) (h :: l) (h' :: l') → stack_ok h l → stack_ok h' l'.
Proof.
  revert h h' l'. induction l as [|g l IH]; intros h h' l' [[_ (_ & _ & E & _)] Hl]%Forall2_cons_1; simpl.
  - apply Forall2_nil_inv_l in Hl as ->. simpl. congruence.
  - apply Forall2_cons_inv_l in Hl as (g' & m & Hg & Hm & ->). simpl. intros [? ?]. split; [congruence|]. apply (IH g); [|done]. by apply Forall2_cons_2.
Qed.

Lemma erased_points d d' p x h h' r : db_core d → row_is d x p r → context_wf d h → erased_context d p h h' →
  (∀ y q s, y ≠ x → row_is d y q s → row_is d' y q s) →
  keeps_in (λ y, y ≠ x) d h d' h' ∧
  ∀ it, points_in d h (rk_kind x) it x → cache_get (caches h' (rk_kind x)) it = Err table_operation_not_permitted.
Proof.
  intros Hd Hx Hh [He _] Hrows. split.
  - intros k it y Hne (q & s & Hq & Hs). exists q, s. rewrite (er_objects _ _ _ _ _ (He k)). split; [|by apply Hrows].
    rewrite lookup_delete_ne; [done|]. intros <-. apply Hne. by destruct (row_is_key d y x p s r Hd).
  - intros it (q & s & Hq & Hs). destruct (row_is_unique _ _ _ _ _ _ Hd Hx Hs) as [<- <-].
    destruct (cw_index _ _ _ (Hh _) _ _ Hq) as [i ->]. apply (cw_entry _ _ _ (Hh _)) in Hq. unfold cache_get.
    rewrite !check_bind by solve_test. rewrite Nat2Z.id, (er_entries _ _ _ _ _ (He _)), list_lookup_fmap, Hq. simpl. unfold forget. by rewrite decide_True.
Qed.

(** The contexts forget the object, and the database loses it. *)
Lemma removed_spec st st' x a r : host_wf st → row_is (db st) x a r → rk_code x = receiver (ctx st) → row_removed (db st) (db st') x a →
  Forall2 (erased_context (db st) a) (ctx st :: callers st) (ctx st' :: callers st') → removed st st' x.
Proof.
  intros Hw Hx Hcode [R1 R2 R3 R4] He. pose proof (proj1 (hw_db _ Hw)) as Hd.
  assert (Hctx : Forall (context_wf (db st)) (ctx st :: callers st)) by (apply Forall_cons; split; apply Hw).
  assert (Hnew : Forall (context_wf (db st')) (ctx st' :: callers st')).
  { apply Forall_lookup. intros i h' Hh'. destruct (Forall2_lookup_r _ _ _ _ _ He Hh') as (h & Hh & Hec).
    apply (db_step_context (λ p, p = a) (db st)); [done|intros k; apply Hec|]. intros k p z Hp ->.
    rewrite (er_objects _ _ _ _ _ (ec_caches _ _ _ _ Hec k)), lookup_delete_eq in Hp. done. }
  assert (Hpts : Forall2 (λ h h', keeps_in (λ y, y ≠ x) (db st) h (db st') h' ∧
    ∀ it, points_in (db st) h (rk_kind x) it x → cache_get (caches h' (rk_kind x)) it = Err table_operation_not_permitted)
    (ctx st :: callers st) (ctx st' :: callers st')).
  { apply Forall2_same_length_lookup_2; [by eapply Forall2_length|]. intros i h h' Hh Hh'.
    eapply (erased_points (db st) (db st') a x h h' r); [done|done|by eapply Forall_lookup in Hctx| |done].
    destruct (Forall2_lookup_lr _ _ _ _ _ _ He Hh Hh'). by split. }
  apply Forall_cons in Hnew as [Hn1 Hn2]. split; [|done|done|..].
  - split; [done..|]. eapply stack_erased; [done|apply Hw].
  - apply Forall2_cons_1 in Hpts as [[? _] Hl]. split; [done|]. eapply Forall2_impl; [done|]. by intros ?? [? _].
  - eapply Forall2_impl; [done|]. by intros ?? [_ ?].
Qed.

Lemma remove_iterator_spec st st' k it a r : host_wf st → object_to_iterator (cache_of st k) !! a = Some it → objects (db st) !! a = Some r → kind r = k →
  ∀ st3, ctx st3 = ctx st → callers st3 = callers st → remove_iterator st3 k it = Ok st' →
  db st' = db st3 ∧ Forall2 (erased_context (db st) a) (ctx st :: callers st) (ctx st' :: callers st').
Proof.
  intros Hw Ha Hr Hk st3 Hc Hl H. pose proof (wf_cache _ k Hw) as Hwf. destruct (cw_index _ _ _ Hwf _ _ Ha) as [i ->].
  unfold remove_iterator, cache_of in H. rewrite Hc in H. fold (cache_of st k) in H.
  assert (Hcr : cache_remove (cache_of st k) (Z.of_nat i) = Ok (clear_entry (cache_of st k) i a, Some a)).
  { unfold cache_remove. rewrite !check_bind by solve_test. rewrite Nat2Z.id. by rewrite (proj2 (cw_entry _ _ _ Hwf i a) Ha). }
  rewrite Hcr in H. cbn [mbind result_bind] in H. cbn [with_cache with_ctx ctx set_caches is_sync_call callers] in H. rewrite Hc, Hl in H.
  set (h' := set_caches (ctx st) (<[k := clear_entry (cache_of st k) i a]> (caches (ctx st)))).
  assert (He : erased_context (db st) a (ctx st) h').
  { split; [|done]. intros j. cbn [h' set_caches caches]. destruct (decide (j = k)) as [->|Hne]; [rewrite fn_lookup_insert; by apply erased_entry|].
    rewrite fn_lookup_insert_ne by done. apply erased_none; [apply Hw|]. apply eq_None_not_Some. intros [z Hz].
    destruct (cw_live _ _ _ (hw_ctx _ Hw j) _ _ Hz) as (s & Hs & Hks & _). congruence. }
  assert (Hcl : stack_ok (ctx st) (callers st)) by apply Hw.
  destruct (is_sync_call (ctx st)) eqn:Es.
  - destruct (callers st) as [|g l] eqn:El; [simpl in Hcl; congruence|]. destruct Hcl as [_ Hcl].
    destruct (broadcast_spec (db st) a g l) as (l' & Hb & Hf); [rewrite <- El; apply Hw|done|]. rewrite Hb in H. injection H as <-.
    split; [done|]. cbn [with_callers with_cache with_ctx ctx callers]. rewrite Hc. by apply Forall2_cons_2.
  - destruct (callers st) as [|g l] eqn:El; [|destruct Hcl; congruence]. injection H as <-. split; [done|]. cbn [with_cache with_ctx ctx callers]. rewrite Hc, Hl.
    apply Forall2_cons_2; [done|apply Forall2_nil_2].
Qed.

Lemma remove_spec k st it st' : host_wf st → room (db st) → db_remove env k st it = Ok st' →
  ∃ x, points st k it x ∧ rk_kind x = k ∧ removed st st' x.
Proof.
  intros Hw Hroom H. unfold db_remove in H. apply bind_inv in H as ([[a obj] tab] & Hwo & H).
  destruct (writable_object_spec _ _ _ _ _ _ Hw Hwo) as (x & t & Hx & Hxk & Hcode & Hk & Ht & Hid & Hi).
  apply bind_inv in H as (st1 & Hs%update_db_usage_inv & H).
  assert (Hd : ∃ st3, (d ← modify_count (db st1) tab (λ n, n - 1);
    let st2 := with_db st1 (with_objects d (delete a (objects d))) in
    t ← deref_table (db st2) tab; if tab_count t =? 0 then remove_table env st2 tab else Ok st2) = Ok st3 ∧ remove_iterator st3 k it = Ok st').
  { apply bind_inv in H as (d & -> & H). apply bind_inv in H as (t' & Ht' & H). apply bind_inv in H as (st3 & Hst3 & H).
    exists st3. split; [|done]. cbn [mbind result_bind]. by rewrite Ht'. }
  destruct Hd as (st3 & Hdb & Hri).
  destruct (remove_db_spec st st1 st3 tab t x a obj (hw_db _ Hw) Hroom Hx Ht Hid Hs Hdb) as (Hrr & Hc & Hl & _).
  destruct (remove_iterator_spec st st' k it a obj Hw Hi (proj1 Hx) Hk st3 Hc Hl Hri) as (E & He).
  exists x. split; [by exists a, obj|]. split; [done|]. apply (removed_spec st st' x a obj); try done. by rewrite E.
Qed.

End Operations.
