(* ===== verification/HostIterators.v ===== *)
(** * Contract tables: iterators follow the order of the keys

    Searches and moves, by primary and by secondary key, stated on the keys that are present. *)

From S2P Require Import Prelude Names Authority ResourceLimits Contract HostContext HostContextTheory HostOperations.
From stdpp Require Import gmap functions list.
Open Scope Z_scope.

Lemma length_filter_lt {A} (P Q : A → Prop) `{!∀ x, Decision (P x), !∀ x, Decision (Q x)} l y :
  (∀ x, P x → Q x) → y ∈ l → Q y → ¬ P y → (length (filter P l) < length (filter Q l))%nat.
Proof.
  intros HPQ Hy HQ HP.
  assert (Hle : ∀ l, (length (filter P l) <= length (filter Q l))%nat).
  { clear -HPQ. induction l as [|x l IH]; [done|]. rewrite !filter_cons. destruct (decide (P x)), (decide (Q x)); simpl; try lia. exfalso; eauto. }
  induction l as [|x l IH]; [by apply not_elem_of_nil in Hy|]. rewrite !filter_cons. apply elem_of_cons in Hy as [<-|Hy].
  - rewrite decide_False, decide_True by done. simpl. specialize (Hle l). lia.
  - specialize (IH Hy). destruct (decide (P x)), (decide (Q x)); simpl; try lia. exfalso; eauto.
Qed.

(** The two orders of an index. *)
Inductive index_order : Type := by_primary | by_secondary.

Section Iterators.
Context {sf : SoftFloat} {al : Allocator}.
Implicit Types (st : host_state) (d : contract_db) (x y z : row_key).

Definition lt_of (o : index_order) : row_object → row_object → bool :=
  match o with by_primary => primary_lt | by_secondary => secondary_lt end.

Definition same_table x y : Prop :=
  rk_kind x = rk_kind y ∧ rk_code x = rk_code y ∧ rk_scope x = rk_scope y ∧ rk_table x = rk_table y.

Definition present d x : Prop := is_Some (view d x).

(** The secondary key of a row. *)
Definition key_data d x : list Z := from_option snd [] (view d x).

Definition key_before (o : index_order) d x y : bool :=
  match o with
  | by_primary => rk_id x <? rk_id y
  | by_secondary => let k := rk_kind x in key_lt k (key_data d x) (key_data d y) ||
      (negb (key_lt k (key_data d y) (key_data d x)) && (rk_id x <? rk_id y))
  end.

(** The first key of the table of [x] that satisfies [Q], the last one. *)
Definition first_key (o : index_order) d x (Q : row_key → Prop) y : Prop :=
  present d y ∧ same_table x y ∧ Q y ∧ ∀ z, present d z → same_table x z → Q z → key_before o d z y = false.

Definition last_key (o : index_order) d x (Q : row_key → Prop) y : Prop :=
  present d y ∧ same_table x y ∧ Q y ∧ ∀ z, present d z → same_table x z → Q z → key_before o d y z = false.

Definition no_key d x (Q : row_key → Prop) : Prop := ∀ z, present d z → same_table x z → ¬ Q z.

(** ** Rows of a table and their keys *)

Lemma row_present d x p r : db_core d → row_is d x p r → view d x = Some (payer r, data r).
Proof. intros Hd Hx. apply view_spec; [done|]. by exists p, r. Qed.

Lemma present_row d x : db_core d → present d x → ∃ p r, row_is d x p r.
Proof. intros Hd [pv (p & r & Hx & _)%view_spec]; [by exists p, r|done]. Qed.

Lemma row_order o d x y p r q s : db_core d → row_is d x p r → row_is d y q s → same_table x y → lt_of o r s = key_before o d x y.
Proof.
  intros Hd Hx Hy (Hk & Hc & Hs & Ht). pose proof (row_present _ _ _ _ Hd Hx) as Vx. pose proof (row_present _ _ _ _ Hd Hy) as Vy.
  destruct Hx as (_ & a & t & Ha & Hka & Hsa), Hy as (_ & b & u & Hb & Hkb & Hsb).
  assert (a = b) as <-. { apply (dc_name _ Hd a b t u Ha Hb). apply table_is_spec in Hka as (-> & -> & ->). rewrite Hc, Hs, Ht in *. done. }
  rewrite Ha in Hb. injection Hb as <-. apply same_primary_spec in Hsa as (E1 & E2 & E3), Hsb as (F1 & F2 & F3).
  unfold key_before, key_data. rewrite Vx, Vy. cbn [from_option snd]. rewrite <- E1, <- E3, <- F3.
  destruct o; cbn [lt_of]; [unfold primary_lt|unfold secondary_lt]; by rewrite E2, F2, Z.ltb_irrefl, Z.eqb_refl.
Qed.

Lemma index_weak_order o k : weak_order (key_ok k) (lt_of o).
Proof. destruct o; [apply primary_weak_order|apply secondary_weak_order]. Qed.

Lemma index_tid_order o r s : (t_id r < t_id s → lt_of o r s = true) ∧ (lt_of o r s = true → t_id r <= t_id s).
Proof.
  destruct o; cbn [lt_of]; unfold primary_lt, secondary_lt;
    (destruct (Z.ltb_spec (t_id r) (t_id s)), (Z.eqb_spec (t_id r) (t_id s)); simpl; split; intros; try done; try lia).
Qed.

Lemma rows_ok d k : db_core d → ∀ a r, objects d !! a = Some r → kind r = k → key_ok k r.
Proof. intros Hd a r Hr <-. split; [done|]. by eapply dc_key. Qed.

(** The first element of an index that satisfies [P], compared with a table: it is of the table, or the table has none. *)
Lemma first_in_table o k P d tid : db_core d → (∀ r, P r = true → tid <= t_id r) →
  match first_with k (lt_of o) P d with
  | Some (a, r) => objects d !! a = Some r ∧ kind r = k ∧
      if t_id r =? tid then P r = true ∧ ∀ b s, objects d !! b = Some s → kind s = k → t_id s = tid → P s = true → lt_of o s r = false
      else ∀ b s, objects d !! b = Some s → kind s = k → t_id s = tid → P s = false
  | None => ∀ b s, objects d !! b = Some s → kind s = k → t_id s = tid → P s = false
  end.
Proof.
  intros Hd HP. pose proof (first_with_spec (key_ok k) k (lt_of o) P d (index_weak_order o k) (rows_ok d k Hd)) as H.
  destruct (first_with _ _ _ _) as [[a r]|]; [|by eauto]. destruct H as (Hr & Hk & HPr & Hmin). split; [done|]. split; [done|].
  destruct (Z.eqb_spec (t_id r) tid) as [E|E]; [split; [done|by eauto]|]. intros b s Hs Hks Ht. destruct (P s) eqn:HPs; [|done].
  specialize (Hmin b s Hs Hks HPs). specialize (HP r HPr). rewrite (proj1 (index_tid_order o s r)) in Hmin; [done|lia].
Qed.

Lemma last_in_table o k P d tid : db_core d → (∀ r, P r = true → t_id r <= tid) →
  match last_with k (lt_of o) P d with
  | Some (a, r) => objects d !! a = Some r ∧ kind r = k ∧
      if t_id r =? tid then P r = true ∧ ∀ b s, objects d !! b = Some s → kind s = k → t_id s = tid → P s = true → lt_of o r s = false
      else ∀ b s, objects d !! b = Some s → kind s = k → t_id s = tid → P s = false
  | None => ∀ b s, objects d !! b = Some s → kind s = k → t_id s = tid → P s = false
  end.
Proof.
  intros Hd HP. pose proof (last_with_spec (key_ok k) k (lt_of o) P d (index_weak_order o k) (rows_ok d k Hd)) as H.
  destruct (last_with _ _ _ _) as [[a r]|]; [|by eauto]. destruct H as (Hr & Hk & HPr & Hmin). split; [done|]. split; [done|].
  destruct (Z.eqb_spec (t_id r) tid) as [E|E]; [split; [done|by eauto]|]. intros b s Hs Hks Ht. destruct (P s) eqn:HPs; [|done].
  specialize (Hmin b s Hs Hks HPs). specialize (HP r HPr). rewrite (proj1 (index_tid_order o r s)) in Hmin; [done|lia].
Qed.

(** The keys of a table are its rows. *)
Definition key_of (k : index_kind) (t : table_id_object) (r : row_object) : row_key :=
  RowKey k (tab_code t) (tab_scope t) (tab_table t) (primary_key r).

Lemma key_of_row d a t k p r : tables d !! a = Some t → objects d !! p = Some r → kind r = k → t_id r = tab_id t → row_is d (key_of k t r) p r.
Proof. intros Ht Hr Hk Hid. split; [done|]. exists a, t. rewrite table_is_spec, same_primary_spec. done. Qed.

Lemma row_of_key d a t x z p r : db_core d → tables d !! a = Some t → table_is (rk_code x) (rk_scope x) (rk_table x) t = true → same_table x z →
  row_is d z p r → kind r = rk_kind x ∧ t_id r = tab_id t.
Proof.
  intros Hd Ht Hk (E1 & E2 & E3 & E4) (Hr & b & u & Hu & Hku & Hs). apply same_primary_spec in Hs as (F1 & F2 & F3).
  assert (a = b) as <-. { apply (dc_name _ Hd a b t u Ht Hu). apply table_is_spec in Hk as (-> & -> & ->). by rewrite E2, E3, E4. }
  rewrite Ht in Hu. injection Hu as <-. split; congruence.
Qed.

(** From rows to keys: [Q] on keys is [P] on rows. *)
Definition matches d x (P : row_object → bool) (Q : row_key → Prop) : Prop :=
  ∀ z p r, same_table x z → row_is d z p r → P r = true ↔ Q z.

Lemma no_key_rows d a t x P Q : db_core d → tables d !! a = Some t → table_is (rk_code x) (rk_scope x) (rk_table x) t = true → matches d x P Q →
  (∀ b s, objects d !! b = Some s → kind s = rk_kind x → t_id s = tab_id t → P s = false) → no_key d x Q.
Proof.
  intros Hd Ht Hk Hm Hno z Hz Hsame HQ. destruct (present_row _ _ Hd Hz) as (p & r & Hr).
  destruct (row_of_key d a t x z p r Hd Ht Hk Hsame Hr) as [? ?]. apply (Hm z p r Hsame Hr) in HQ. by rewrite (Hno p r (proj1 Hr)) in HQ.
Qed.

Lemma first_key_row o d a t x P Q p r : db_core d → tables d !! a = Some t → table_is (rk_code x) (rk_scope x) (rk_table x) t = true → matches d x P Q →
  objects d !! p = Some r → kind r = rk_kind x → t_id r = tab_id t → P r = true →
  (∀ b s, objects d !! b = Some s → kind s = rk_kind x → t_id s = tab_id t → P s = true → lt_of o s r = false) →
  row_is d (key_of (rk_kind x) t r) p r ∧ first_key o d x Q (key_of (rk_kind x) t r).
Proof.
  intros Hd Ht Hk Hm Hr Hkind Hid HP Hmin. pose proof (key_of_row d a t _ p r Ht Hr Hkind Hid) as Hy. split; [done|].
  assert (Hsame : same_table x (key_of (rk_kind x) t r)) by (apply table_is_spec in Hk as (? & ? & ?); by repeat split).
  split; [unfold present; by rewrite (row_present _ _ _ _ Hd Hy)|]. split; [done|]. split; [by apply (Hm _ p r)|].
  intros z Hz Hsz HQ. destruct (present_row _ _ Hd Hz) as (q & s & Hs). destruct (row_of_key d a t x z q s Hd Ht Hk Hsz Hs) as [? ?].
  rewrite <- (row_order o d z _ q s p r Hd Hs Hy); [|destruct Hsz as (? & ? & ? & ?), Hsame as (? & ? & ? & ?); repeat split; congruence].
  apply (Hmin q s); [apply Hs|done|done|by apply (Hm z q s)].
Qed.

Lemma last_key_row o d a t x P Q p r : db_core d → tables d !! a = Some t → table_is (rk_code x) (rk_scope x) (rk_table x) t = true → matches d x P Q →
  objects d !! p = Some r → kind r = rk_kind x → t_id r = tab_id t → P r = true →
  (∀ b s, objects d !! b = Some s → kind s = rk_kind x → t_id s = tab_id t → P s = true → lt_of o r s = false) →
  row_is d (key_of (rk_kind x) t r) p r ∧ last_key o d x Q (key_of (rk_kind x) t r).
Proof.
  intros Hd Ht Hk Hm Hr Hkind Hid HP Hmin. pose proof (key_of_row d a t _ p r Ht Hr Hkind Hid) as Hy. split; [done|].
  assert (Hsame : same_table x (key_of (rk_kind x) t r)) by (apply table_is_spec in Hk as (? & ? & ?); by repeat split).
  split; [unfold present; by rewrite (row_present _ _ _ _ Hd Hy)|]. split; [done|]. split; [by apply (Hm _ p r)|].
  intros z Hz Hsz HQ. destruct (present_row _ _ Hd Hz) as (q & s & Hs). destruct (row_of_key d a t x z q s Hd Ht Hk Hsz Hs) as [? ?].
  rewrite <- (row_order o d _ z p r q s Hd Hy Hs); [|destruct Hsz as (? & ? & ? & ?), Hsame as (? & ? & ? & ?); repeat split; congruence].
  apply (Hmin q s); [apply Hs|done|done|by apply (Hm z q s)].
Qed.

(** ** Moves *)

(** What a move or search returns: an iterator at a key, with the object whose keys are written to the arguments. *)
Definition returns_key st st' (k : index_kind) (it : Z) (r : row_object) y : Prop :=
  host_wf st' ∧ moves st st' ∧ points st' k it y ∧ primary_key r = rk_id y ∧ view (db st) y = Some (payer r, data r).

Definition returns_end st st' (k : index_kind) (it : Z) x : Prop :=
  host_wf st' ∧ moves st st' ∧ at_end st' k it (rk_code x) (rk_scope x) (rk_table x).

Lemma found_spec st k p r y : host_wf st → row_is (db st) y p r → kind r = k → is_Some (table_cache (cache_of st k) !! t_id r) →
  ∃ st' i, found st k (p, r) = (st', i, Some r) ∧ returns_key st st' k i r y.
Proof.
  intros Hw Hy Hk Ht. unfold found. cbn [fst snd]. destruct (add_to_cache st k p) as [st' i] eqn:E.
  destruct (add_to_cache_spec st k p r st' i Hw (proj1 Hy) Hk Ht E) as (Hw' & Hi & Hm).
  exists st', i. split; [done|]. split; [done|]. split; [done|]. split; [exists p, r; split; [done|by rewrite (mv_db _ _ Hm)]|].
  split; [destruct Hy as (_ & a & t & _ & _ & Hs); by apply same_primary_spec in Hs as (_ & _ & ?)|]. apply row_present with p; [apply Hw|done].
Qed.

Lemma points_kind st k it x : host_wf st → points st k it x → rk_kind x = k ∧ 0 <= it.
Proof.
  intros Hw (p & r & Hp & Hr & a & t & _ & _ & Hs). destruct (cw_live _ _ _ (hw_ctx _ Hw k) _ _ Hp) as (r' & Hr' & Hk & _).
  rewrite Hr in Hr'. injection Hr' as <-. apply same_primary_spec in Hs as (? & _). destruct (cw_index _ _ _ (hw_ctx _ Hw k) _ _ Hp) as [i ->].
  split; [congruence|lia].
Qed.

Lemma next_spec o st k it x : host_wf st → points st k it x → ∃ st' it' out, next_in k (lt_of o) st it = Ok (st', it', out) ∧
  let Q z := key_before o (db st) x z = true in
  match out with
  | Some r => ∃ y, first_key o (db st) x Q y ∧ returns_key st st' k it' r y
  | None => no_key (db st) x Q ∧ returns_end st st' k it' x
  end.
Proof.
  intros Hw Hp. destruct (points_kind _ _ _ _ Hw Hp) as [Hk Hit]. pose proof (proj1 (hw_db _ Hw)) as Hd.
  apply points_iff in Hp as (p & r & a & t & ei & Hg & Hx & Ht & Hkey & Hid & Htc); [|done].
  unfold next_in. rewrite (proj2 (Z.ltb_ge it (-1))) by lia. rewrite Hg. cbn [mbind result_bind].
  assert (Hm : matches (db st) x (lt_of o r) (λ z, key_before o (db st) x z = true)).
  { intros z q s Hsame Hs. by rewrite (row_order o (db st) x z p r q s). }
  pose proof (first_in_table o k (lt_of o r) (db st) (t_id r) Hd (λ s, proj2 (index_tid_order o r s))) as Hf.
  assert (Hend : at_end st k ei (rk_code x) (rk_scope x) (rk_table x)) by (exists a, t; by rewrite Hid).
  assert (Hnone : (∀ b s, objects (db st) !! b = Some s → kind s = k → t_id s = t_id r → lt_of o r s = false) →
    ∃ st' it' out, (ei ← get_end_iterator_by_table_id (cache_of st k) (t_id r); Ok (st, ei, None)) = Ok (st', it', out) ∧
    let Q z := key_before o (db st) x z = true in
    match out with Some r => ∃ y, first_key o (db st) x Q y ∧ returns_key st st' k it' r y | None => no_key (db st) x Q ∧ returns_end st st' k it' x end).
  { intros Hno. unfold get_end_iterator_by_table_id. rewrite Htc. exists st, ei, None. split; [done|]. split; [|split; [done|split; [apply moves_refl|done]]].
    apply (no_key_rows (db st) a t x (lt_of o r)); try done. intros b s. rewrite Hk, Hid. apply Hno. }
  destruct (first_with _ _ _ _) as [[q s]|]; [|by apply Hnone]. destruct Hf as (Hs & Hks & Hf). cbn [snd].
  destruct (Z.eqb_spec (t_id s) (t_id r)) as [E|E]; [|by apply Hnone]. destruct Hf as [HP Hmin].
  assert (row_is (db st) (key_of (rk_kind x) t s) q s ∧ first_key o (db st) x (λ z, key_before o (db st) x z = true) (key_of (rk_kind x) t s)) as [Hy Hfk].
  { apply (first_key_row o (db st) a t x (lt_of o r)); try done; try congruence. by rewrite Hk, Hid. }
  destruct (found_spec st k q s _ Hw Hy Hks ltac:(rewrite E, Htc; by eexists)) as (st' & i & -> & Hret). exists st', i, (Some s). split; [done|].
  eexists. by split.
Qed.

(** [last_in_table], as the moves backwards use it. *)
Lemma previous_from o st k a t x P Q ei : host_wf st → tables (db st) !! a = Some t → table_is (rk_code x) (rk_scope x) (rk_table x) t = true →
  rk_kind x = k → table_cache (cache_of st k) !! tab_id t = Some (a, ei) → matches (db st) x P Q → (∀ r, P r = true → t_id r <= tab_id t) →
  ∃ st' it' out, match last_with k (lt_of o) P (db st) with
    | Some y => if t_id y.2 =? tab_id t then Ok (found st k y) else Ok (st, -1, None)
    | None => Ok (st, -1, None)
    end = Ok (st', it', out) ∧
  match out with
  | Some r => ∃ y, last_key o (db st) x Q y ∧ returns_key st st' k it' r y
  | None => no_key (db st) x Q ∧ st' = st ∧ it' = -1
  end.
Proof.
  intros Hw Ht Hkey Hk Htc Hm HP. pose proof (proj1 (hw_db _ Hw)) as Hd.
  pose proof (last_in_table o k P (db st) (tab_id t) Hd HP) as Hf.
  assert (Hnone : (∀ b s, objects (db st) !! b = Some s → kind s = k → t_id s = tab_id t → P s = false) →
    ∃ st' it' out, Ok (st, -1, None) = Ok (st', it', out) ∧
    match out with Some r => ∃ y, last_key o (db st) x Q y ∧ returns_key st st' k it' r y | None => no_key (db st) x Q ∧ st' = st ∧ it' = -1 end).
  { intros Hno. exists st, (-1), None. split; [done|]. split; [|done]. apply (no_key_rows (db st) a t x P); try done. by rewrite Hk. }
  destruct (last_with _ _ _ _) as [[q s]|]; [|by apply Hnone]. destruct Hf as (Hs & Hks & Hf). cbn [snd].
  destruct (Z.eqb_spec (t_id s) (tab_id t)) as [E|E]; [|by apply Hnone]. destruct Hf as [HPs Hmin].
  assert (row_is (db st) (key_of (rk_kind x) t s) q s ∧ last_key o (db st) x Q (key_of (rk_kind x) t s)) as [Hy Hfk].
  { apply (last_key_row o (db st) a t x P); try done; try congruence. by rewrite Hk. }
  destruct (found_spec st k q s _ Hw Hy Hks ltac:(rewrite E, Htc; by eexists)) as (st' & i & -> & Hret). exists st', i, (Some s). split; [done|].
  eexists. by split.
Qed.

Lemma previous_spec o st k it x : host_wf st → points st k it x → ∃ st' it' out, previous_in k (lt_of o) st it = Ok (st', it', out) ∧
  let Q z := key_before o (db st) z x = true in
  match out with
  | Some r => ∃ y, last_key o (db st) x Q y ∧ returns_key st st' k it' r y
  | None => no_key (db st) x Q ∧ st' = st ∧ it' = -1
  end.
Proof.
  intros Hw Hp. destruct (points_kind _ _ _ _ Hw Hp) as [Hk Hit]. pose proof (proj1 (hw_db _ Hw)) as Hd.
  apply points_iff in Hp as (p & r & a & t & ei & Hg & Hx & Ht & Hkey & Hid & Htc); [|done].
  unfold previous_in. rewrite (proj2 (Z.ltb_ge it (-1))) by lia. rewrite Hg. cbn [mbind result_bind]. rewrite <- Hid in *.
  apply (previous_from o st k a t x _ _ ei); try done.
  - intros z q s Hsame Hs. rewrite (row_order o (db st) z x q s p r); try done. destruct Hsame as (? & ? & ? & ?). by repeat split.
  - intros s Hs. rewrite Hid. by apply (index_tid_order o).
Qed.

(** From the end of a table; a table is never empty, but may have no row in this index. *)
Lemma previous_end_spec o st k it x : host_wf st → rk_kind x = k → at_end st k it (rk_code x) (rk_scope x) (rk_table x) → -2147483648 < it →
  ∃ st' it' out, previous_in k (lt_of o) st it = Ok (st', it', out) ∧
  match out with
  | Some r => ∃ y, last_key o (db st) x (λ _, True) y ∧ returns_key st st' k it' r y
  | None => no_key (db st) x (λ _, True) ∧ st' = st ∧ it' = -1
  end.
Proof.
  intros Hw Hk (a & t & Ht & Hkey & Htc) Hlo. destruct (cw_known _ _ _ (hw_ctx _ Hw k) _ _ _ Htc) as (_ & i & -> & Hi).
  unfold previous_in, index_to_end_iterator in *. rewrite (proj2 (Z.ltb_lt _ (-1))) by lia.
  unfold find_table_by_end_iterator, end_iterator_to_index. rewrite !check_bind by solve_test. rewrite bind_ok.
  replace (Z.to_nat (- - (Z.of_nat i + 2) - 2)) with i by lia. unfold cache_of at 1. rewrite Hi, bind_ok.
  rewrite (deref_ok _ _ _ Ht), bind_ok. apply (previous_from o st k a t x _ _ (- (Z.of_nat i + 2))); try done.
  - intros z q s Hsame Hs. split; [done|]. intros _. apply Z.leb_le. destruct (row_of_key (db st) a t x z q s (proj1 (hw_db _ Hw)) Ht Hkey Hsame Hs) as [_ ->]. lia.
  - intros s. apply Z.leb_le.
Qed.

(** ** Searches *)

(** The key of a table, with any id. *)
Definition table_key (k : index_kind) (code scope table : Z) : row_key := RowKey k code scope table 0.

(** What [f] has to find in a table with the id [tid]: the first row that satisfies [P], or one of another table if there is none. *)
Definition finds (o : index_order) (k : index_kind) d (P : row_object → bool) (tid : Z) (found : option (Z * row_object)) : Prop :=
  match found with
  | Some (a, r) => objects d !! a = Some r ∧ kind r = k ∧
      if t_id r =? tid then P r = true ∧ ∀ b s, objects d !! b = Some s → kind s = k → t_id s = tid → P s = true → lt_of o s r = false
      else ∀ b s, objects d !! b = Some s → kind s = k → t_id s = tid → P s = false
  | None => ∀ b s, objects d !! b = Some s → kind s = k → t_id s = tid → P s = false
  end.

(** The result of a search for the first key with [Q]: an iterator at it; else the end of the table, or [-1] if there is no table. *)
Definition search_result (o : index_order) st (k : index_kind) x (Q : row_key → Prop) (res : host_state * Z * option row_object) : Prop :=
  match res with
  | (st', it, Some r) => ∃ y, first_key o (db st) x Q y ∧ returns_key st st' k it r y
  | (st', it, None) => no_key (db st) x Q ∧
      (returns_end st st' k it x ∨ (st' = st ∧ it = -1 ∧ no_key (db st) x (λ _, True)))
  end.

Lemma search_spec o st k code scope table f P Q : host_wf st → let x := table_key k code scope table in
  (∀ a t, tables (db st) !! a = Some t → table_is code scope table t = true →
     matches (db st) x (P (tab_id t)) Q ∧ finds o k (db st) (P (tab_id t)) (tab_id t) (f (tab_id t))) →
  search_result o st k x Q (search k st code scope table f).
Proof.
  intros Hw x Hf. pose proof (proj1 (hw_db _ Hw)) as Hd. unfold search. destruct (find_table _ _ _ _) as [[a t]|] eqn:E.
  - apply find_table_some in E as [Ht Hk]. destruct (Hf a t Ht Hk) as [Hm Hfinds]. destruct (cache_table_of st k a t) as [st1 ei] eqn:Ec.
    destruct (cache_table_of_spec st k a t st1 ei Hw Ht Ec) as (Hw1 & Htc & Hmv).
    assert (Hend : (∀ b s, objects (db st) !! b = Some s → kind s = k → t_id s = tab_id t → P (tab_id t) s = false) →
      no_key (db st) x Q ∧ (returns_end st st1 k ei x ∨ (st1 = st ∧ ei = -1 ∧ no_key (db st) x (λ _, True)))).
    { intros Hno. split; [by apply (no_key_rows (db st) a t x (P (tab_id t)))|]. left. split; [done|]. split; [done|].
      exists a, t. rewrite (mv_db _ _ Hmv). done. }
    unfold finds in Hfinds. destruct (f (tab_id t)) as [[p r]|]; [|by apply Hend]. cbn [snd]. destruct Hfinds as (Hr & Hkr & Hfinds).
    destruct (Z.eqb_spec (t_id r) (tab_id t)) as [Eid|Eid]; [|by apply Hend]. destruct Hfinds as [HP Hmin].
    assert (row_is (db st) (key_of k t r) p r ∧ first_key o (db st) x Q (key_of k t r)) as [Hy Hfk]
      by (by apply (first_key_row o (db st) a t x (P (tab_id t)))).
    assert (Hy1 : row_is (db st1) (key_of k t r) p r) by (by rewrite (mv_db _ _ Hmv)).
    destruct (found_spec st1 k p r _ Hw1 Hy1 Hkr ltac:(rewrite Eid, Htc; by eexists)) as (st' & i & -> & Hw2 & Hmv2 & Hpt & Hid & Hv).
    exists (key_of k t r). split; [done|]. split; [done|]. split; [by apply (moves_trans _ st1)|]. rewrite <- (mv_db _ _ Hmv). done.
  - assert (Hnone : no_key (db st) x (λ _, True)).
    { intros z Hz (Ek & Ec & Es & Et) _. destruct (present_row _ _ Hd Hz) as (p & r & _ & a & t & Ht & Hk & _).
      cbn in Ec, Es, Et. rewrite <- Ec, <- Es, <- Et in Hk. by rewrite (find_table_none _ _ _ _ E _ _ Ht) in Hk. }
    split; [intros z Hz Hs _; by apply (Hnone z)|right; done].
Qed.

Lemma matches_row d x z p r a t : db_core d → tables d !! a = Some t → table_is (rk_code x) (rk_scope x) (rk_table x) t = true → same_table x z →
  row_is d z p r → kind r = rk_kind x ∧ t_id r = tab_id t ∧ primary_key r = rk_id z ∧ data r = key_data d z.
Proof.
  intros Hd Ht Hk Hsame Hz. destruct (row_of_key d a t x z p r Hd Ht Hk Hsame Hz) as [? ?]. split; [done|]. split; [done|].
  unfold key_data. rewrite (row_present _ _ _ _ Hd Hz). destruct Hz as (_ & b & u & _ & _ & Hs). by apply same_primary_spec in Hs as (_ & _ & ?).
Qed.

(** The searches by primary key. *)
Lemma bounds_primary_spec k st code scope table id : host_wf st → let x := table_key k code scope table in
  search_result by_primary st k x (λ y, rk_id y = id) (find_primary k st code scope table id) ∧
  search_result by_primary st k x (λ y, id <= rk_id y) (lowerbound_primary k st code scope table id) ∧
  search_result by_primary st k x (λ y, id < rk_id y) (upperbound_primary k st code scope table id).
Proof.
  intros Hw x. pose proof (proj1 (hw_db _ Hw)) as Hd. split_and!.
  - apply (search_spec _ _ _ _ _ _ _ (λ tid, same_primary k tid id)); [done|]. intros a t Ht Hk. split.
    + intros z p r Hs Hz. destruct (matches_row _ x z p r a t Hd Ht Hk Hs Hz) as (E1 & E2 & E3 & _).
      rewrite same_primary_spec, E1, E2, E3. naive_solver.
    + unfold finds. destruct (find _ _) as [[p r]|] eqn:E.
      * apply find_some in E as [Hr Hs]. apply list_elem_of_In, elem_of_map_to_list in Hr. cbn [snd] in Hs. pose proof Hs as (Hkr & Htr & Hid)%same_primary_spec.
        rewrite Hkr, Htr, Z.eqb_refl. split_and!; try done. intros b s _ _ _ (_ & E1 & E2)%same_primary_spec. cbn. unfold primary_lt.
        by rewrite E1, E2, Htr, Hid, !Z.ltb_irrefl, andb_false_r.
      * intros b s Hs _ _. apply (find_none _ _ E (b, s)). by apply list_elem_of_In, elem_of_map_to_list.
  - apply (search_spec _ _ _ _ _ _ _ (λ tid r, negb (primary_lt r (RowObject k tid id 0 [])))); [done|]. intros a t Ht Hk. split.
    + intros z p r Hs Hz. destruct (matches_row _ x z p r a t Hd Ht Hk Hs Hz) as (_ & E1 & E2 & _).
      unfold primary_lt. cbn. rewrite E1, E2, Z.ltb_irrefl, Z.eqb_refl. simpl. rewrite negb_true_iff, Z.ltb_ge. done.
    + apply (first_in_table by_primary); [done|]. intros r. unfold primary_lt. cbn. rewrite negb_true_iff, orb_false_iff, Z.ltb_ge. lia.
  - apply (search_spec _ _ _ _ _ _ _ (λ tid, primary_lt (RowObject k tid id 0 []))); [done|]. intros a t Ht Hk. split.
    + intros z p r Hs Hz. destruct (matches_row _ x z p r a t Hd Ht Hk Hs Hz) as (_ & E1 & E2 & _).
      unfold primary_lt. cbn. rewrite E1, E2, Z.ltb_irrefl, Z.eqb_refl. simpl. by rewrite Z.ltb_lt.
    + apply (first_in_table by_primary); [done|]. intros r. unfold primary_lt. cbn. destruct (Z.ltb_spec (tab_id t) (t_id r)), (Z.eqb_spec (tab_id t) (t_id r)); simpl; try done; lia.
Qed.

(** The searches by secondary key. *)
Lemma prefix_secondary r s : prefix_lt r s = true → kind r = kind s → secondary_lt r s = true.
Proof.
  unfold prefix_lt, secondary_lt. intros H _. destruct (t_id r <? t_id s); [done|]. simpl in *.
  apply andb_true_iff in H as [-> ->]. done.
Qed.

Lemma prefix_probe k tid key r : t_id r = tid → kind r = k →
  prefix_lt r (probe k tid key) = key_lt k (data r) key ∧ prefix_lt (probe k tid key) r = key_lt k key (data r).
Proof. intros Ht Hk. unfold prefix_lt. cbn. by rewrite Ht, Hk, Z.ltb_irrefl, Z.eqb_refl. Qed.

Lemma prefix_tid r s : prefix_lt r s = false → t_id s <= t_id r.
Proof. unfold prefix_lt. rewrite orb_false_iff, Z.ltb_ge. tauto. Qed.

(** The first row whose key is not below [key], if its key is [key], is the first row with this key. *)
Lemma finds_secondary k d tid key : db_core d → valid_key k key = true →
  finds by_secondary k d (λ r, negb (prefix_lt r (probe k tid key)) && negb (prefix_lt (probe k tid key) r)) tid
    match first_with k secondary_lt (λ r, negb (prefix_lt r (probe k tid key))) d with
    | Some x => if prefix_lt (probe k tid key) x.2 then None else Some x
    | None => None
    end.
Proof.
  intros Hd Hval. pose proof (first_in_table by_secondary k (λ r, negb (prefix_lt r (probe k tid key))) d tid Hd) as H. cbn [lt_of] in H.
  specialize (H ltac:(intros r; rewrite negb_true_iff; apply prefix_tid)).
  destruct (first_with _ _ _ _) as [[a r]|] eqn:Ef; [|intros b s Hs Hk Ht; by rewrite (H b s Hs Hk Ht)].
  destruct H as (Hr & Hk & H). cbn [snd]. destruct (prefix_lt (probe k tid key) r) eqn:Ep.
  - intros b s Hs Hks Ht. destruct (negb (prefix_lt s (probe k tid key))) eqn:E1; [|done]. apply negb_true_iff in E1.
    destruct (prefix_lt (probe k tid key) s) eqn:E2; [done|]. exfalso.
    assert (Hok : key_ok k (probe k tid key)) by done.
    destruct (wo_cotrans _ _ (prefix_weak_order k) (probe k tid key) s r Hok (rows_ok d k Hd _ _ Hs Hks) (rows_ok d k Hd _ _ Hr Hk) Ep) as [?|Hlt]; [congruence|].
    apply prefix_secondary in Hlt; [|congruence]. destruct (t_id r =? tid).
    + destruct H as [_ H]. rewrite (H b s Hs Hks Ht) in Hlt; [done|]. by rewrite E1.
    + specialize (H b s Hs Hks Ht). by rewrite E1 in H.
  - split; [done|]. split; [done|]. destruct (t_id r =? tid) eqn:Et.
    + destruct H as [HP H]. rewrite HP, Ep. split; [done|]. intros b s Hs Hks Ht [HPs _]%andb_true_iff. by apply (H b s).
    + intros b s Hs Hks Ht. by rewrite (H b s Hs Hks Ht).
Qed.

Lemma bounds_secondary_spec k st code scope table key : host_wf st → valid_key k key = true → let x := table_key k code scope table in
  let kd y := key_data (db st) y in
  search_result by_secondary st k x (λ y, key_lt k (kd y) key = false ∧ key_lt k key (kd y) = false) (find_secondary k st code scope table key) ∧
  search_result by_secondary st k x (λ y, key_lt k (kd y) key = false) (lowerbound_secondary k st code scope table key) ∧
  search_result by_secondary st k x (λ y, key_lt k key (kd y) = true) (upperbound_secondary k st code scope table key).
Proof.
  intros Hw Hval x kd. pose proof (proj1 (hw_db _ Hw)) as Hd.
  assert (Hpr : ∀ a t z p r, tables (db st) !! a = Some t → table_is code scope table t = true → same_table x z → row_is (db st) z p r →
    prefix_lt r (probe k (tab_id t) key) = key_lt k (kd z) key ∧ prefix_lt (probe k (tab_id t) key) r = key_lt k key (kd z)).
  { intros a t z p r Ht Hk Hs Hz. destruct (matches_row _ x z p r a t Hd Ht Hk Hs Hz) as (E1 & E2 & _ & E3). unfold kd. rewrite <- E3. by apply prefix_probe. }
  split_and!.
  - apply (search_spec _ _ _ _ _ _ _ (λ tid r, negb (prefix_lt r (probe k tid key)) && negb (prefix_lt (probe k tid key) r))); [done|].
    intros a t Ht Hk. split; [|by apply finds_secondary]. intros z p r Hs Hz. destruct (Hpr a t z p r Ht Hk Hs Hz) as [-> ->].
    by rewrite andb_true_iff, !negb_true_iff.
  - apply (search_spec _ _ _ _ _ _ _ (λ tid r, negb (prefix_lt r (probe k tid key)))); [done|]. intros a t Ht Hk. split.
    + intros z p r Hs Hz. destruct (Hpr a t z p r Ht Hk Hs Hz) as [-> _]. by rewrite negb_true_iff.
    + apply (first_in_table by_secondary); [done|]. intros r. rewrite negb_true_iff. apply prefix_tid.
  - apply (search_spec _ _ _ _ _ _ _ (λ tid, prefix_lt (probe k tid key))); [done|]. intros a t Ht Hk. split.
    + intros z p r Hs Hz. by destruct (Hpr a t z p r Ht Hk Hs Hz) as [_ ->].
    + apply (first_in_table by_secondary); [done|]. intros r. unfold prefix_lt. cbn.
      destruct (Z.ltb_spec (tab_id t) (t_id r)), (Z.eqb_spec (tab_id t) (t_id r)); simpl; try done; lia.
Qed.

(** ** Walking through a table *)

(** The loop of a contract from an iterator to the end: the primary keys that [next] writes, in order. *)
Fixpoint walk (o : index_order) (k : index_kind) (fuel : nat) st (it : Z) : result (list Z) :=
  match fuel with
  | O => Err out_of_fuel
  | S fuel =>
    '(st, it, out) ← next_in k (lt_of o) st it;
    match out with
    | None => Ok []
    | Some r => ids ← walk o k fuel st it; Ok (primary_key r :: ids)
    end
  end.

(** All rows from a primary key on, with [lowerbound] and [next]. *)
Definition scan (k : index_kind) st (code scope table id : Z) : result (list Z) :=
  match lowerbound_primary k st code scope table id with
  | (st', it, Some r) => ids ← walk by_primary k (S (size (objects (db st)))) st' it; Ok (primary_key r :: ids)
  | (_, _, None) => Ok []
  end.

Lemma weak_order_trans {A} (ok : A → Prop) lt a b c : weak_order ok lt → ok a → ok b → ok c → lt a b = true → lt b c = true → lt a c = true.
Proof.
  intros [H1 H2] Ha Hb Hc Hab Hbc. destruct (H2 b a c Hb Ha Hc Hbc) as [H|]; [|done]. by rewrite (H1 a b Ha Hb Hab) in H.
Qed.

(** The rows after a row, a bound on the length of a walk. *)
Definition after (o : index_order) (k : index_kind) d (r : row_object) : nat :=
  length (filter (λ e : Z * row_object, lt_of o r e.2 = true ∧ key_ok k e.2 ∧ key_ok k r) (map_to_list (objects d))).

Lemma after_lt o k d q r s : objects d !! q = Some s → key_ok k r → key_ok k s → lt_of o r s = true → (after o k d s < after o k d r)%nat.
Proof.
  intros Hs Hr Hks Hlt. apply (length_filter_lt _ _ _ (q, s)).
  - intros e (Hx & Hkx & _). split; [|by split]. by apply (weak_order_trans (key_ok k) _ r s e.2 (index_weak_order o k)).
  - by apply elem_of_map_to_list.
  - done.
  - intros (H & _). cbn in H. destruct (index_weak_order o k) as [Has _]. by rewrite (Has s s Hks Hks H) in H.
Qed.

Lemma after_le o k d r : (after o k d r <= size (objects d))%nat.
Proof. unfold after. etransitivity; [apply length_filter|]. by rewrite length_map_to_list. Qed.

(** Two keys of a table are ordered. *)
Lemma key_before_total o d y z : same_table y z → z ≠ y → key_before o d z y = false → key_before o d y z = true.
Proof.
  intros (E1 & E2 & E3 & E4) Hne. assert (rk_id y ≠ rk_id z) by (intros E; apply Hne; destruct y, z; simpl in *; by subst).
  unfold key_before. rewrite <- E1. destruct o.
  - rewrite Z.ltb_ge, Z.ltb_lt. lia.
  - destruct (key_lt _ (key_data d z) _), (key_lt _ (key_data d y) _); simpl; rewrite ?Z.ltb_ge, ?Z.ltb_lt; try done; lia.
Qed.

(** A walk lists the keys after its start, in order. *)
Lemma walk_spec o k : ∀ fuel st it x p r, host_wf st → points st k it x → row_is (db st) x p r → (after o k (db st) r < fuel)%nat →
  ∃ ys, walk o k fuel st it = Ok (rk_id <$> ys) ∧ StronglySorted (λ y z, key_before o (db st) y z = true) (x :: ys) ∧
    ∀ y, y ∈ ys ↔ present (db st) y ∧ same_table x y ∧ key_before o (db st) x y = true.
Proof.
  induction fuel as [|fuel IH]; intros st it x p r Hw Hp Hr Hfuel; [lia|]. cbn [walk]. pose proof (proj1 (hw_db _ Hw)) as Hd.
  destruct (next_spec o st k it x Hw Hp) as (st' & it' & out & -> & Hout). cbn [mbind result_bind]. destruct (points_kind _ _ _ _ Hw Hp) as [Hk _].
  destruct out as [s|].
  - destruct Hout as (y & (Hpy & Hsame & HQ & Hmin) & Hw' & Hm & Hpt & Hid & Hv). destruct (present_row _ _ Hd Hpy) as (q & s' & Hs').
    assert (Hok : ∀ z b u, same_table x z → row_is (db st) z b u → key_ok k u).
    { intros z b u Hz Hu. apply (rows_ok (db st)) with b; [done|apply Hu|]. destruct Hu as (_ & ? & ? & _ & _ & (-> & _)%same_primary_spec).
      destruct Hz as (<- & _). done. }
    assert (Hlt : lt_of o r s' = true) by (by rewrite (row_order o (db st) x y p r q s')).
    destruct (IH st' it' y q s') as (ys & -> & Hsort & Hys); [done|done|by rewrite (mv_db _ _ Hm)| |].
    { rewrite (mv_db _ _ Hm). pose proof (after_lt o k (db st) q r s' (proj1 Hs') (Hok x p r ltac:(done) Hr) (Hok y q s' Hsame Hs') Hlt). lia. }
    rewrite (mv_db _ _ Hm) in *. exists (y :: ys). cbn [mbind result_bind]. split; [by rewrite fmap_cons, Hid|].
    assert (Htrans : ∀ z, present (db st) z → same_table y z → key_before o (db st) y z = true → key_before o (db st) x z = true).
    { intros z Hz Hyz Hb. destruct (present_row _ _ Hd Hz) as (b & u & Hu). assert (Hxz : same_table x z) by (destruct Hsame as (? & ? & ? & ?), Hyz as (? & ? & ? & ?); repeat split; congruence).
      rewrite <- (row_order o (db st) x z p r b u) by done. rewrite <- (row_order o (db st) y z q s' b u) in Hb by done.
      eapply weak_order_trans; [apply (index_weak_order o k)|..|exact Hlt|exact Hb]; eauto. by apply (Hok x p r). }
    split.
    + constructor; [done|]. apply Forall_cons. split; [done|]. apply Forall_forall. intros z (? & ? & ?)%Hys. by apply Htrans.
    + intros z. rewrite elem_of_cons, Hys. split.
      * intros [->|(Hz & Hyz & Hb)]; [done|]. split; [done|]. split; [|by apply Htrans]. destruct Hsame as (? & ? & ? & ?), Hyz as (? & ? & ? & ?); repeat split; congruence.
      * intros (Hz & Hxz & Hb). destruct (decide (z = y)) as [->|Hne]; [by left|right]. assert (Hyz : same_table y z) by (destruct Hsame as (? & ? & ? & ?), Hxz as (? & ? & ? & ?); repeat split; congruence).
        split; [done|]. split; [done|]. specialize (Hmin z Hz Hxz Hb). by eapply key_before_total.
  - destruct Hout as [Hno _]. exists []. split; [done|]. split; [by repeat constructor|]. intros y. split; [by intros ?%elem_of_nil|].
    intros (? & ? & ?). by destruct (Hno y).
Qed.

End Iterators.
