(* ===== verification/HostSafety.v ===== *)
(** * Contract tables: the states that contracts reach, and the RAM they are charged

    Everything a contract can do with tables as the steps of [host_step], with synchronous calls, further receivers and new
    actions in between; the invariant of all states it reaches, and the balance of RAM. *)

From S2P Require Import Prelude Names Authority ResourceLimits Contract HostContext HostContextTheory HostOperations HostIterators.
From stdpp Require Import gmap functions list.
Open Scope Z_scope.

Section Steps.
Context {sf : SoftFloat} {al : Allocator} (env : host_env).
Implicit Types (st : host_state) (d : contract_db).

(** ** Steps

    Secondary keys are those that the host functions let through, sizes those of a 32-bit memory, and there are less than [2^32] rows.
    A move back from an end iterator is a step only while the table of the iterator exists. *)

Inductive host_step : host_state → host_state → Prop :=
| step_store k st scope table py id v st' i : room (db st) → valid_key k v = true → Z.of_nat (length v) <= u32_max →
    store env k st scope table py id v = Ok (st', i) → host_step st st'
| step_update k st it py v st' : valid_key k v = true → Z.of_nat (length v) <= u32_max → update env k st it py v = Ok st' → host_step st st'
| step_remove k st it st' : room (db st) → db_remove env k st it = Ok st' → host_step st st'
| step_next o k st it st' it' out : next_in k (lt_of o) st it = Ok (st', it', out) → host_step st st'
| step_previous o k st it st' it' out : (it < -1 → ∃ c s t, at_end st k it c s t) →
    previous_in k (lt_of o) st it = Ok (st', it', out) → host_step st st'
| step_find k st c s t id : host_step st (find_primary k st c s t id).1.1
| step_lower k st c s t id : host_step st (lowerbound_primary k st c s t id).1.1
| step_upper k st c s t id : host_step st (upperbound_primary k st c s t id).1.1
| step_find2 k st c s t key : valid_key k key = true → host_step st (find_secondary k st c s t key).1.1
| step_lower2 k st c s t key : valid_key k key = true → host_step st (lowerbound_secondary k st c s t key).1.1
| step_upper2 k st c s t key : valid_key k key = true → host_step st (upperbound_secondary k st c s t key).1.1
| step_end k st c s t : host_step st (db_end k st c s t).1
| step_enter st r flags n st' : enter_sync_call env st r flags n = Ok (inr st') → host_step st st'
| step_leave st st' : leave_sync_call st = Ok st' → host_step st st'
| step_action st a r priv ro : callers st = [] → host_step st (new_action st a r priv ro)
| step_notify st r priv : callers st = [] → host_step st (notify st r priv)
| step_deltas st st' : check_ram_deltas env st = Ok st' → host_step st st'.

Definition host_init (a : action_info) (r : Z) (priv ro : bool) (rl : resource_db) : host_state :=
  HostState (ContractDb ∅ 0 ∅ 0) (HostContext r priv false ro (λ _, empty_cache)) [] a rl ∅ ∅.

Lemma host_init_wf a r priv ro rl : host_wf (host_init a r priv ro rl).
Proof. split; [|intros k; apply cache_wf_empty|by apply Forall_nil|done]. split; [by split|by intros ? ?]. Qed.

Lemma search_wf o st k x Q res : host_wf st → search_result o st k x Q res → host_wf res.1.1.
Proof.
  intros Hw. destruct res as [[st' it] [r|]]; cbn.
  - by intros (y & _ & ? & _).
  - by intros [_ [(? & _)|(-> & _)]].
Qed.

Lemma next_wf o k st it st' it' out : host_wf st → next_in k (lt_of o) st it = Ok (st', it', out) → host_wf st'.
Proof.
  intros Hw H. pose proof H as H'. unfold next_in in H'. destruct (it <? -1) eqn:E; [by injection H' as <-|]. apply bind_inv in H' as ([p r] & Hg & _).
  apply get_object_inv in Hg as (Hi & Hr & _); [|done]. destruct (row_exists _ _ _ (proj1 (hw_db _ Hw)) Hr) as (x & Hx & _).
  destruct (next_spec o st k it x Hw) as (st1 & it1 & out1 & E1 & Hout); [by exists p, r|]. rewrite E1 in H. injection H as <- <- <-.
  destruct out1; [by destruct Hout as (y & _ & ? & _)|by destruct Hout as (_ & ? & _)].
Qed.

Lemma previous_wf o k st it st' it' out : host_wf st → (it < -1 → ∃ c s t, at_end st k it c s t) →
  previous_in k (lt_of o) st it = Ok (st', it', out) → host_wf st'.
Proof.
  intros Hw Hend H. pose proof (proj1 (hw_db _ Hw)) as Hd. destruct (it <? -1) eqn:E.
  - destruct (Hend ltac:(lia)) as (c & s & t & He).
    assert (Hlo : -2147483648 < it).
    { unfold previous_in in H. rewrite E in H. apply bind_inv in H as (tab & H & _). unfold find_table_by_end_iterator, end_iterator_to_index in H.
      apply bind_inv in H as (? & _ & H). apply bind_inv in H as (? & H & _). apply bind_inv in H as (? & ?%check_inv & _). by breflect. }
    destruct (previous_end_spec o st k it (table_key k c s t) Hw eq_refl He Hlo) as (st1 & it1 & out1 & E1 & Hout). rewrite E1 in H. injection H as <- <- <-.
    destruct out1; [by destruct Hout as (y & _ & ? & _)|by destruct Hout as (_ & -> & _)].
  - pose proof H as H'. unfold previous_in in H'. rewrite E in H'. apply bind_inv in H' as ([p r] & Hg & _).
    apply get_object_inv in Hg as (Hi & Hr & _); [|done]. destruct (row_exists _ _ _ Hd Hr) as (x & Hx & _).
    destruct (previous_spec o st k it x Hw) as (st1 & it1 & out1 & E1 & Hout); [by exists p, r|]. rewrite E1 in H. injection H as <- <- <-.
    destruct out1; [by destruct Hout as (y & _ & ? & _)|by destruct Hout as (_ & -> & _)].
Qed.

Lemma enter_wf st r flags n st' : host_wf st → enter_sync_call env st r flags n = Ok (inr st') → host_wf st'.
Proof.
  intros [H1 H2 H3 H4] H. unfold enter_sync_call in H. do 2 apply bind_inv in H as (? & _ & H). destruct (callees env !! r) as [c|]; [|done].
  apply bind_inv in H as (? & _ & H). destruct (negb (has_code c)); [done|]. destruct (negb (sync_call_supported c)); [done|]. injection H as <-.
  split; cbn [with_callers with_ctx db ctx callers]; [done|intros k; apply cache_wf_empty|by apply Forall_cons|done].
Qed.

Lemma host_step_wf st st' : host_wf st → host_step st st' → host_wf st'.
Proof.
  intros Hw Hs. revert Hw. destruct Hs; intros Hw; rename st into st0.
  - by eapply so_wf, store_spec.
  - by edestruct update_spec as (x & old & _ & _ & _ & Hu); [..|apply Hu].
  - by edestruct remove_spec as (x & _ & _ & Hr); [..|apply Hr].
  - by eapply next_wf.
  - by eapply previous_wf.
  - destruct (bounds_primary_spec k st0 c s t id Hw) as (? & _ & _). by eapply search_wf.
  - destruct (bounds_primary_spec k st0 c s t id Hw) as (_ & ? & _). by eapply search_wf.
  - destruct (bounds_primary_spec k st0 c s t id Hw) as (_ & _ & ?). by eapply search_wf.
  - destruct (bounds_secondary_spec k st0 c s t key Hw) as (? & _ & _); [done|]. by eapply search_wf.
  - destruct (bounds_secondary_spec k st0 c s t key Hw) as (_ & ? & _); [done|]. by eapply search_wf.
  - destruct (bounds_secondary_spec k st0 c s t key Hw) as (_ & _ & ?); [done|]. by eapply search_wf.
  - unfold db_end. destruct (find_table _ _ _ _) as [[a u]|] eqn:E; [|done]. apply find_table_some in E as [Hu _].
    destruct (cache_table_of st0 k a u) as [st1 ei] eqn:Ec. by destruct (cache_table_of_spec st0 k a u st1 ei Hw Hu Ec).
  - by eapply enter_wf.
  - unfold leave_sync_call in H. destruct Hw as [H1 H2 H3 H4]. destruct (callers st0) as [|h l] eqn:E; [done|]. injection H as <-.
    apply Forall_cons in H3 as [? ?]. destruct H4. by split.
  - destruct Hw as [H1 H2 H3 H4]. split; cbn; [done|intros k; apply cache_wf_empty|by apply Forall_nil|done].
  - destruct Hw as [H1 H2 H3 H4]. split; cbn; [done..|]. by rewrite H in *.
  - unfold check_ram_deltas in H. apply bind_inv in H as (? & _ & [= <-]). destruct Hw. by split.
Qed.

(** ** No freed object is read *)

(** Neither undefined behaviour nor a broken cache. *)
Definition safe {A} (m : result A) : Prop := m ≠ Err undefined_behaviour ∧ m ≠ Err table_not_in_cache.

Lemma safe_ok {A} (a : A) : safe (Ok a).
Proof. done. Qed.

Lemma safe_bind {A B} (m : result A) (f : A → result B) : safe m → (∀ a, m = Ok a → safe (f a)) → safe (m ≫= f).
Proof. intros [H1 H2] Hf. destruct m as [a|e]; simpl; [by apply Hf|]. split; congruence. Qed.

Lemma safe_check b e : e ≠ undefined_behaviour → e ≠ table_not_in_cache → safe (check b e).
Proof. intros. destruct b; simpl; split; congruence. Qed.

Lemma safe_usage st py n : safe (update_db_usage env st py n).
Proof.
  unfold update_db_usage. destruct (is_sync_call _); [done|]. apply safe_bind.
  - destruct (_ && _); [|done]. apply safe_bind; [by apply safe_check|]. intros. by apply safe_check.
  - intros _ _. unfold add_ram_usage. apply safe_bind; [|done]. unfold add_pending_ram_usage, db_get. destruct (n =? 0); [done|].
    apply safe_bind; [by destruct (_ !! _)|]. intros u _. apply safe_bind; [by apply safe_check|]. intros _ _. apply safe_bind; [by apply safe_check|done].
Qed.

Lemma safe_iterator_error {A} (m : result A) : (∀ e, m = Err e → iterator_error e ∨ e = table_access_violation) → safe m.
Proof. intros H. split; intros E; destruct (H _ E) as [[]|]; done. Qed.

Lemma safe_store k st scope table py id v : host_wf st → safe (store env k st scope table py id v).
Proof.
  intros Hw.
  assert (Hcreate : safe (find_or_create_table env st (receiver (ctx st)) scope table py)).
  { unfold find_or_create_table. destruct (find_table _ _ _ _) as [[a t]|]; [done|]. apply safe_bind; [apply safe_usage|done]. }
  assert (Hrow : ∀ st1 a t, find_or_create_table env st (receiver (ctx st)) scope table py = Ok (st1, a, t) → safe (store_row env st1 k a t py id v)).
  { intros st1 a t (_ & _ & Ht & _)%find_or_create_spec; [|apply Hw]. unfold store_row. apply safe_bind.
    - unfold create_row. apply safe_bind; [by apply safe_check|done].
    - intros [d a'] (-> & _ & _ & _)%create_row_inv. rewrite (modify_count_ok _ a t) by done. rewrite bind_ok. apply safe_bind; [apply safe_usage|].
      intros st2 _. by destruct (cache_table_of _ _ _ _). }
  destruct k; unfold store, db_store_i64, idx_store; (apply safe_bind; [done||by apply safe_check|]).
  - intros [[st1 a] t] H. apply safe_bind; [by apply safe_check|]. intros _ _. by apply Hrow.
  - intros _ _. apply safe_bind; [done|]. intros [[st1 a] t] H. by apply Hrow.
  - intros _ _. apply safe_bind; [done|]. intros [[st1 a] t] H. by apply Hrow.
  - intros _ _. apply safe_bind; [done|]. intros [[st1 a] t] H. by apply Hrow.
  - intros _ _. apply safe_bind; [done|]. intros [[st1 a] t] H. by apply Hrow.
  - intros _ _. apply safe_bind; [done|]. intros [[st1 a] t] H. by apply Hrow.
Qed.

Lemma safe_update k st it py v : host_wf st → safe (update env k st it py v).
Proof.
  intros Hw. assert (Hobj : safe (writable_object st k it)) by (apply safe_iterator_error; intros e He; by eapply writable_object_err).
  assert (Htwo : ∀ p1 n1 p2 n2, safe (st2 ← update_db_usage env st p1 n1; update_db_usage env st2 p2 n2)).
  { intros. apply safe_bind; [apply safe_usage|]. intros. apply safe_usage. }
  destruct k; unfold update, db_update_i64, idx_update; (apply safe_bind; [done|]); intros [[a obj] tab] _; (apply safe_bind; [|done]);
    (destruct (negb _); [apply Htwo|]); try done. destruct (negb _); [apply safe_usage|done].
Qed.

Lemma safe_remove k st it : host_wf st → room (db st) → safe (db_remove env k st it).
Proof.
  intros Hw Hroom. unfold db_remove. apply safe_bind; [apply safe_iterator_error; intros e He; by eapply writable_object_err|].
  intros [[a obj] tab] Hwo. destruct (writable_object_spec _ _ _ _ _ _ Hw Hwo) as (x & t & Hx & Hxk & Hcode & Hk & Ht & Hid & Hi).
  apply safe_bind; [apply safe_usage|]. intros st1 Hup. pose proof (update_db_usage_inv _ _ _ _ _ Hup) as (E1 & E2 & E3 & E4).
  rewrite E1, (modify_count_ok _ _ _ _ Ht), bind_ok.
  assert (Htab : ∀ o, tables (with_objects (with_tables (db st) (<[tab := set_count t (u32 (tab_count t - 1))]> (tables (db st)))) o) !! tab = Some (set_count t (u32 (tab_count t - 1))))
    by (intros o; cbn; by rewrite lookup_insert_eq).
  cbn [with_db db]. rewrite (deref_ok _ _ _ (Htab _)), bind_ok. apply safe_bind.
  - destruct (tab_count _ =? 0); [|done]. unfold remove_table. cbn [with_db db]. rewrite (deref_ok _ _ _ (Htab _)), bind_ok. apply safe_bind; [apply safe_usage|done].
  - intros st3 H3. assert (Hc : ctx st3 = ctx st ∧ callers st3 = callers st).
    { destruct (tab_count _ =? 0); [|by injection H3 as <-]. unfold remove_table in H3. apply bind_inv in H3 as (u & _ & H3).
      apply bind_inv in H3 as (st4 & (F1 & F2 & F3 & F4)%update_db_usage_inv & [= <-]). cbn in F2, F3. cbn. split; congruence. }
    destruct Hc as [Hc Hl]. unfold remove_iterator, cache_of. rewrite Hc. fold (cache_of st k). destruct (cw_index _ _ _ (wf_cache _ k Hw) _ _ Hi) as [i ->].
    unfold cache_remove. rewrite !check_bind by solve_test. rewrite Nat2Z.id, (proj2 (cw_entry _ _ _ (wf_cache _ k Hw) i a) Hi), bind_ok.
    cbn [with_cache with_ctx ctx set_caches is_sync_call callers]. rewrite Hc, Hl. destruct (is_sync_call (ctx st)) eqn:Es; [|done].
    pose proof (hw_stack _ Hw) as Hst. destruct (callers st) as [|g l] eqn:El; [simpl in Hst; congruence|]. destruct Hst as [_ Hst].
    destruct (broadcast_spec (db st) a g l) as (l' & -> & _); [rewrite <- El; apply Hw|done|done].
Qed.

Lemma safe_next o k st it : host_wf st → safe (next_in k (lt_of o) st it).
Proof.
  intros Hw. destruct (get_object st k it) as [[p r]|e] eqn:Hg.
  - apply get_object_inv in Hg as (Hi & Hr & _); [|done]. destruct (row_exists _ _ _ (proj1 (hw_db _ Hw)) Hr) as (x & Hx & _).
    destruct (next_spec o st k it x Hw) as (st1 & it1 & out1 & -> & _); [by exists p, r|done].
  - unfold next_in. destruct (it <? -1); [done|]. rewrite Hg. apply safe_iterator_error. simpl. intros e' [= <-]. left. by eapply get_object_err.
Qed.

(** ** RAM *)

(** What an account pays for: tables, and rows of all indices. *)
Definition charged d (a : Z) : Z :=
  tsum (λ _ t, if tab_payer t =? a then table_billable_size else 0) (tables d) +
  tsum (λ _ r, if payer r =? a then row_size r else 0) (objects d).

Definition usage st (a : Z) : Z := from_option ram_usage 0 (rl_usage (resources st) !! a).

Record ram_wf st : Prop := {
  rw_usage : ∀ a u, rl_usage (resources st) !! a = Some u → is_u64 (ram_usage u);
  rw_rows : ∀ p r, objects (db st) !! p = Some r → Z.of_nat (length (data r)) <= u32_max }.

(** The usage of every account changes with what it is charged. *)
Definition balanced st st' : Prop := ∀ a, usage st' a - charged (db st') a = usage st a - charged (db st) a.

Lemma balanced_trans st1 st2 st3 : balanced st1 st2 → balanced st2 st3 → balanced st1 st3.
Proof. intros H1 H2 a. specialize (H1 a). specialize (H2 a). lia. Qed.

Lemma billable_bounds k : 0 < billable_size k < 1000.
Proof. destruct k; vm_compute; split; reflexivity. Qed.

Lemma row_size_bounds r : Z.of_nat (length (data r)) <= u32_max → 0 < row_size r < 2 ^ 33.
Proof. intros H. unfold row_size, u32_max in *. pose proof (billable_bounds (kind r)). destruct (kind r); lia. Qed.

Lemma update_usage st py n st' : ram_wf st → is_sync_call (ctx st) = false → is_i64 n → update_db_usage env st py n = Ok st' →
  ram_wf st' ∧ ∀ a, usage st' a = usage st a + (if py =? a then n else 0).
Proof.
  intros [Hu Hr] Hs Hn H. pose proof (update_db_usage_inv _ _ _ _ _ H) as (E1 & _). unfold update_db_usage in H. rewrite Hs in H.
  apply bind_inv in H as (? & _ & H). unfold add_ram_usage in H. apply bind_inv in H as (rl & Hrl & [= <-]).
  unfold usage. cbn [resources]. unfold add_pending_ram_usage, db_get in Hrl. destruct (Z.eqb_spec n 0) as [->|Hne].
  { injection Hrl as <-. split; [by split|]. intros a. by destruct (_ =? _); rewrite Z.add_0_r. }
  destruct (rl_usage (resources st) !! py) as [u|] eqn:Ep; [|done]. cbn [mbind result_bind] in Hrl. specialize (Hu _ _ Ep) as Hup.
  do 2 apply bind_inv in Hrl as (? & ?%check_inv & Hrl). injection Hrl as <-.
  assert (Hnew : is_u64 (ram_usage u + n)).
  { unfold is_u64, is_i64, u64_max in *. rewrite !orb_true_iff, !Z.leb_le in *.
    destruct (Z_lt_le_dec n 0); [rewrite (u64_small (- n)) in * by (unfold is_u64; lia)|rewrite (u64_small n) in * by (unfold is_u64; lia)]; lia. }
  split; [split; [|done]|]; cbn [resources with_usage rl_usage].
  - intros a w [[<- <-]|[Hne' Hw]]%lookup_insert_Some; [cbn; by rewrite u64_small|by eapply Hu].
  - intros a. destruct (Z.eqb_spec py a) as [<-|Hne']; [rewrite lookup_insert_eq, Ep|rewrite lookup_insert_ne by done; lia]. cbn. by rewrite u64_small.
Qed.

Lemma charged_set_count {m} d tab t n o a : tables d !! tab = Some t →
  charged (ContractDb (<[tab := set_count t n]> (tables d)) (next_table_id d) o m) a = charged (with_objects d o) a.
Proof. intros Ht. unfold charged. cbn [tables objects with_objects]. rewrite tsum_insert, Ht. simpl. lia. Qed.

Lemma charged_insert d p r a : charged (with_objects d (<[p := r]> (objects d))) a =
  charged d a + (if payer r =? a then row_size r else 0) - from_option (λ s, if payer s =? a then row_size s else 0) 0 (objects d !! p).
Proof. unfold charged. cbn [tables objects with_objects]. rewrite tsum_insert. lia. Qed.

Lemma charged_delete d p a : charged (with_objects d (delete p (objects d))) a =
  charged d a - from_option (λ s, if payer s =? a then row_size s else 0) 0 (objects d !! p).
Proof. unfold charged. cbn [tables objects with_objects]. rewrite tsum_delete. lia. Qed.

Lemma table_size_i64 : is_i64 table_billable_size ∧ is_i64 (- table_billable_size).
Proof. vm_compute. repeat split; discriminate. Qed.

Lemma size_i64 r : Z.of_nat (length (data r)) <= u32_max → is_i64 (row_size r) ∧ is_i64 (- row_size r).
Proof. intros H%row_size_bounds. unfold is_i64. lia. Qed.

Lemma ram_wf_db st st' : rl_usage (resources st') = rl_usage (resources st) → ram_wf st →
  (∀ p r, objects (db st') !! p = Some r → objects (db st) !! p = Some r ∨ Z.of_nat (length (data r)) <= u32_max) → ram_wf st'.
Proof. intros E [H1 H2] Hr. split; [rewrite E; done|]. intros p r Hp. destruct (Hr p r Hp); [by eapply H2|done]. Qed.

Lemma store_ram k st scope table py id v st' i : host_wf st → ram_wf st → is_sync_call (ctx st) = false → Z.of_nat (length v) <= u32_max →
  store env k st scope table py id v = Ok (st', i) → ram_wf st' ∧ balanced st st'.
Proof.
  intros Hw Hram Hs Hlen (_ & st1 & tab & t & Hf & H)%store_inv.
  destruct (find_or_create_spec env _ _ _ _ _ _ _ _ (hw_db _ Hw) Hf) as (Hd & Hl & Ht & Hk & Ho & _ & Htabs & Hc & Hcl & _).
  assert (ram_wf st1 ∧ balanced st st1) as [Hram1 Hb1].
  { unfold find_or_create_table in Hf. destruct (find_table _ _ _ _) as [[b u]|] eqn:E; [injection Hf as <- <- <-; by split|].
    apply bind_inv in Hf as (st2 & Hup & [= <- <- <-]). pose proof (update_db_usage_inv _ _ _ _ _ Hup) as (E1 & _).
    destruct (update_usage _ _ _ _ Hram Hs (proj1 table_size_i64) Hup) as [Hram2 Hus]. split.
    - apply (ram_wf_db st2); [done|done|]. intros p r Hp. by left.
    - intros a. specialize (Hus a). rewrite E1. unfold usage in *. cbn [with_db resources db] in *. unfold charged. cbn [tables objects].
      rewrite tsum_insert, alloc_table_free. cbn [from_option tab_payer]. lia. }
  set (r := RowObject k (tab_id t) id py v). assert (Hlr : Z.of_nat (length (data r)) <= u32_max) by done.
  unfold store_row in H. fold r in H. apply bind_inv in H as ([d1 a] & (-> & _ & Hfree & _)%create_row_inv & H).
  rewrite (modify_count_ok _ tab t) in H by done. rewrite bind_ok in H. apply bind_inv in H as (st3 & Hup & H).
  pose proof (update_db_usage_inv _ _ _ _ _ Hup) as (E1 & _).
  set (st2 := with_db st1 _) in Hup. assert (Hram2 : ram_wf st2).
  { apply (ram_wf_db st1); [done|done|]. intros p s Hp. cbn in Hp. apply lookup_insert_Some in Hp as [[<- <-]|[_ Hp]]; [by right|by left]. }
  destruct (update_usage st2 py (row_size r) st3 Hram2 ltac:(cbn; by rewrite Hc) (proj1 (size_i64 r Hlr)) Hup) as [Hram3 Hus].
  assert (Hfin : resources st' = resources st3 ∧ db st' = db st3).
  { destruct (cache_table_of st3 k tab t) as [st4 ei] eqn:E4. unfold cache_table_of in E4. destruct (cache_table _ _ _). injection E4 as <- _.
    injection H as H. unfold add_to_cache in H. destruct (cache_add _ _). injection H as <- _. done. }
  destruct Hfin as [F1 F2]. split; [apply (ram_wf_db st3); [by rewrite F1|done|rewrite F2; auto]|].
  apply (balanced_trans _ st1); [done|]. intros x. specialize (Hus x). unfold usage in *. rewrite F1, F2, E1.
  change (resources st2) with (resources st1) in Hus. cbn [st2 with_db db].
  unfold with_tables. cbn [tables next_table_id objects created_rows].
  rewrite (charged_set_count (db st1) tab t _ _ x Ht), charged_insert, Hfree. cbn [from_option payer r] in *. lia.
Qed.

(** Two changes of usage in a row, as when the payer of a row changes. *)
Lemma update_usage_two st p1 n1 p2 n2 st' : ram_wf st → is_sync_call (ctx st) = false → is_i64 n1 → is_i64 n2 →
  (st2 ← update_db_usage env st p1 n1; update_db_usage env st2 p2 n2) = Ok st' →
  ram_wf st' ∧ ∀ a, usage st' a = usage st a + (if p1 =? a then n1 else 0) + (if p2 =? a then n2 else 0).
Proof.
  intros Hram Hs H1 H2 H. apply bind_inv in H as (st2 & Hup1 & Hup2). pose proof (update_db_usage_inv _ _ _ _ _ Hup1) as (_ & Ec & _).
  destruct (update_usage _ _ _ _ Hram Hs H1 Hup1) as [Hr1 Hu1]. destruct (update_usage st2 _ _ _ Hr1 ltac:(by rewrite Ec) H2 Hup2) as [Hr2 Hu2].
  split; [done|]. intros a. rewrite Hu2, Hu1. lia.
Qed.

(** A row is changed, and the usages by what this costs. *)
Lemma modify_row_ram st st1 a obj py v : ram_wf st → objects (db st) !! a = Some obj → Z.of_nat (length v) <= u32_max → ram_wf st1 → db st1 = db st →
  (∀ x, usage st1 x = usage st x + (if py =? x then row_size (RowObject (kind obj) (t_id obj) (primary_key obj) py v) else 0) -
                      (if payer obj =? x then row_size obj else 0)) →
  ram_wf (modify_row st1 a obj py v) ∧ balanced st (modify_row st1 a obj py v).
Proof.
  intros Hram Hobj Hlen Hram1 Edb Hu. split.
  - apply (ram_wf_db st1); [done|done|]. intros p s Hp. cbn in Hp. apply lookup_insert_Some in Hp as [[<- <-]|[_ Hp]]; [by right|by left].
  - intros x. specialize (Hu x). unfold modify_row. change (usage (with_db st1 ?d) x) with (usage st1 x). cbn [with_db db]. rewrite Edb, charged_insert, Hobj.
    cbn [from_option payer]. lia.
Qed.

(** How an update is billed: in full when the payer changes, else by the difference of the sizes. *)
Definition bill_change st (old new : row_object) : result host_state :=
  if negb (payer old =? payer new) then st2 ← update_db_usage env st (payer old) (- row_size old); update_db_usage env st2 (payer new) (row_size new)
  else if negb (row_size old =? row_size new) then update_db_usage env st (payer old) (row_size new - row_size old) else Ok st.

Definition new_row (obj : row_object) (py : Z) (v : list Z) : row_object :=
  RowObject (kind obj) (t_id obj) (primary_key obj) (if py =? 0 then payer obj else py) v.

Lemma update_billed k st it py v st' : host_wf st → update env k st it py v = Ok st' → ∃ a obj tab st1,
  writable_object st k it = Ok (a, obj, tab) ∧ bill_change st obj (new_row obj py v) = Ok st1 ∧
  st' = modify_row st1 a obj (payer (new_row obj py v)) v.
Proof.
  intros Hw H. destruct (decide (k = key_value)) as [->|Hne].
  - unfold update, db_update_i64 in H. apply bind_inv in H as ([[a obj] tab] & Hwo & H). apply bind_inv in H as (st1 & Hup & [= <-]).
    pose proof (writable_object_spec _ _ _ _ _ _ Hw Hwo) as (_ & _ & _ & _ & _ & Hk & _).
    exists a, obj, tab, st1. split; [done|]. split; [|done]. unfold bill_change.
    assert (row_size (new_row obj py v) = Z.of_nat (length v) + billable_size key_value) as -> by (unfold row_size, new_row; cbn [kind data]; by rewrite Hk). done.
  - assert (H' : idx_update env k st it py v = Ok st') by (by destruct k). clear H. unfold idx_update in H'.
    apply bind_inv in H' as ([[a obj] tab] & Hwo & H). apply bind_inv in H as (st1 & Hup & [= <-]).
    pose proof (writable_object_spec _ _ _ _ _ _ Hw Hwo) as (_ & _ & _ & _ & _ & Hk & _).
    assert (Hsz : row_size (new_row obj py v) = billable_size k ∧ row_size obj = billable_size k).
    { unfold row_size, new_row. cbn [kind data]. rewrite Hk. by destruct k. }
    exists a, obj, tab, st1. split; [done|]. split; [|done]. unfold bill_change. destruct Hsz as [-> ->]. by rewrite Z.eqb_refl.
Qed.

Lemma bill_change_usage st old new st1 : ram_wf st → is_sync_call (ctx st) = false → Z.of_nat (length (data old)) <= u32_max → Z.of_nat (length (data new)) <= u32_max →
  bill_change st old new = Ok st1 → db st1 = db st ∧ ram_wf st1 ∧
  ∀ z, usage st1 z = usage st z + (if payer new =? z then row_size new else 0) - (if payer old =? z then row_size old else 0).
Proof.
  intros Hram Hs Hb1%row_size_bounds Hb2%row_size_bounds Hup. unfold bill_change in Hup.
  assert (Hi : is_i64 (- row_size old) ∧ is_i64 (row_size new - row_size old) ∧ is_i64 (row_size new)) by (unfold is_i64; lia).
  destruct (Z.eqb_spec (payer old) (payer new)) as [E|E]; cbn [negb] in Hup; [|split].
  - rewrite <- E. destruct (Z.eqb_spec (row_size old) (row_size new)) as [E2|E2]; cbn [negb] in Hup.
    + injection Hup as <-. split; [done|]. split; [done|]. intros z. destruct (payer old =? z); lia.
    + pose proof (update_db_usage_inv _ _ _ _ _ Hup) as (? & _). split; [done|].
      destruct (update_usage _ _ _ _ Hram Hs (proj1 (proj2 Hi)) Hup) as [? Hz]. split; [done|]. intros z. rewrite Hz. destruct (payer old =? z); lia.
  - apply bind_inv in Hup as (st2 & (F1 & _)%update_db_usage_inv & (F2 & _)%update_db_usage_inv). congruence.
  - destruct (update_usage_two _ _ _ _ _ _ Hram Hs (proj1 Hi) (proj2 (proj2 Hi)) Hup) as [? Hz]. split; [done|]. intros z. rewrite Hz.
    destruct (payer old =? z), (payer new =? z); lia.
Qed.

Lemma update_ram k st it py v st' : host_wf st → ram_wf st → is_sync_call (ctx st) = false → Z.of_nat (length v) <= u32_max →
  update env k st it py v = Ok st' → ram_wf st' ∧ balanced st st'.
Proof.
  intros Hw Hram Hs Hlen (a & obj & tab & st1 & Hwo & Hup & ->)%update_billed; [|done].
  pose proof (writable_object_spec _ _ _ _ _ _ Hw Hwo) as (x & t & (Hobj & _) & _).
  destruct (bill_change_usage st obj (new_row obj py v) st1 Hram Hs (rw_rows _ Hram _ _ Hobj) Hlen Hup) as (Hdb & Hr & Hu).
  by apply modify_row_ram.
Qed.

Lemma remove_ram k st it st' : host_wf st → room (db st) → ram_wf st → is_sync_call (ctx st) = false →
  db_remove env k st it = Ok st' → ram_wf st' ∧ balanced st st'.
Proof.
  intros Hw Hroom Hram Hs H. unfold db_remove in H. apply bind_inv in H as ([[a obj] tab] & Hwo & H).
  destruct (writable_object_spec _ _ _ _ _ _ Hw Hwo) as (x & t & Hx & Hxk & Hcode & Hk & Ht & Hid & Hi).
  pose proof (size_i64 obj (rw_rows _ Hram _ _ (proj1 Hx))) as [_ Hsz].
  apply bind_inv in H as (st1 & Hup & H). pose proof (update_db_usage_inv _ _ _ _ _ Hup) as (E1 & E2 & _).
  destruct (update_usage _ _ _ _ Hram Hs Hsz Hup) as [Hram1 Hu1].
  rewrite E1, (modify_count_ok _ _ _ _ Ht), bind_ok in H. set (t' := set_count t (u32 (tab_count t - 1))) in *.
  set (d2 := ContractDb (<[tab := t']> (tables (db st))) (next_table_id (db st)) (delete a (objects (db st))) (created_rows (db st))) in *.
  change (with_objects (with_tables (db st) (<[tab := t']> (tables (db st)))) ?o) with (ContractDb (<[tab := t']> (tables (db st))) (next_table_id (db st)) o (created_rows (db st))) in H.
  change (objects (with_tables (db st) _)) with (objects (db st)) in H. fold d2 in H. cbn [with_db db] in H.
  assert (Ht2 : tables d2 !! tab = Some t') by (cbn; by rewrite lookup_insert_eq). rewrite (deref_ok _ _ _ Ht2), bind_ok in H.
  apply bind_inv in H as (st3 & H3 & H).
  assert (Hram2 : ram_wf (with_db st1 d2)).
  { apply (ram_wf_db st1); [done|done|]. intros p s Hp. cbn in Hp. apply lookup_delete_Some in Hp as [_ Hp]. left. by rewrite E1. }
  assert (Hbal2 : balanced st (with_db st1 d2)).
  { intros z. change (usage (with_db st1 d2) z) with (usage st1 z). cbn [with_db db]. rewrite Hu1. unfold d2, t'.
    rewrite (charged_set_count (db st) tab t _ _ z Ht), charged_delete, (proj1 Hx). cbn [from_option]. destruct (payer obj =? z); lia. }
  assert (Hfin : resources st' = resources st3 ∧ db st' = db st3).
  { unfold remove_iterator in H. apply bind_inv in H as ([c o] & _ & H). destruct o as [p|]; cbn beta iota zeta in H; [|by injection H as <-].
    destruct (is_sync_call (ctx (with_cache st3 k c))); [by apply bind_inv in H as (l & _ & [= <-])|by injection H as <-]. }
  destruct Hfin as [F1 F2]. assert (ram_wf st3 ∧ balanced st st3) as [Hr3 Hb3].
  { destruct (tab_count t' =? 0); [|injection H3 as <-; done]. unfold remove_table in H3. cbn [with_db db] in H3. rewrite (deref_ok _ _ _ Ht2), bind_ok in H3.
    apply bind_inv in H3 as (st4 & Hup4 & [= <-]). pose proof (update_db_usage_inv _ _ _ _ _ Hup4) as (G1 & _). cbn [with_db db] in G1.
    destruct (update_usage _ _ _ _ Hram2 ltac:(cbn; by rewrite E2) (proj2 table_size_i64) Hup4) as [Hram4 Hu4]. split.
    - apply (ram_wf_db st4); [done|done|]. intros p s Hp. by left.
    - apply (balanced_trans _ (with_db st1 d2)); [done|]. intros z. change (usage (with_db st4 ?d) z) with (usage st4 z). rewrite Hu4. cbn [with_db db]. rewrite G1.
      unfold charged at 1. cbn [with_tables tables objects]. rewrite tsum_delete, Ht2. cbn [from_option]. unfold charged. destruct (tab_payer t' =? z); lia. }
  split; [apply (ram_wf_db st3); [by rewrite F1|done|rewrite F2; auto]|]. intros z. specialize (Hb3 z). unfold usage in *. by rewrite F1, F2.
Qed.

(** The other steps change neither rows nor usages. *)
Definition quiet st st' : Prop := db st' = db st ∧ resources st' = resources st.

Lemma moves_quiet st st' : moves st st' → quiet st st'.
Proof. by intros []. Qed.

Lemma search_quiet o st k x Q res : search_result o st k x Q res → quiet st res.1.1.
Proof.
  destruct res as [[st' it] [r|]]; cbn.
  - intros (y & _ & _ & Hm & _). by apply moves_quiet.
  - intros [_ [(_ & Hm & _)|(-> & _)]]; [by apply moves_quiet|done].
Qed.

Lemma found_quiet st k x : quiet st (found st k x).1.1.
Proof. unfold found, add_to_cache. by destruct (cache_add _ _). Qed.

Lemma next_quiet o k st it st' it' out : next_in k (lt_of o) st it = Ok (st', it', out) → quiet st st'.
Proof.
  unfold next_in. destruct (it <? -1); [by intros [= <-]|]. intros H. apply bind_inv in H as ([p r] & _ & H).
  destruct (first_with _ _ _ _) as [x|]; [destruct (_ =? _)|].
  - injection H as H. pose proof (found_quiet st k x) as Hq. by rewrite H in Hq.
  - by apply bind_inv in H as (? & _ & [= <-]).
  - by apply bind_inv in H as (? & _ & [= <-]).
Qed.

Lemma previous_quiet o k st it st' it' out : previous_in k (lt_of o) st it = Ok (st', it', out) → quiet st st'.
Proof.
  assert (Hm : ∀ z tid, match z with Some x => if t_id x.2 =? tid then Ok (found st k x) else Ok (st, -1, None) | None => Ok (st, -1, None) end = Ok (st', it', out) → quiet st st').
  { intros [x|] tid; [destruct (_ =? _)|]; intros H; injection H as H; [|by subst..]. pose proof (found_quiet st k x) as Hq. by rewrite H in Hq. }
  unfold previous_in. destruct (it <? -1); intros H.
  - apply bind_inv in H as ([a|] & _ & H); [|done]. apply bind_inv in H as (t & _ & H). by eapply Hm.
  - apply bind_inv in H as ([p r] & _ & H). by eapply Hm.
Qed.

(** Steps of an action outside of synchronous calls. *)
Definition action_step st st' : Prop := host_step st st' ∧ is_sync_call (ctx st) = false ∧ is_sync_call (ctx st') = false.

Lemma quiet_balanced st st' : quiet st st' → ram_wf st → ram_wf st' ∧ balanced st st'.
Proof.
  intros [E1 E2] Hr. split; [apply (ram_wf_db st); [by rewrite E2|done|rewrite E1; auto]|]. intros a. unfold usage. by rewrite E1, E2.
Qed.

Lemma action_step_ram st st' : host_wf st → ram_wf st → action_step st st' → ram_wf st' ∧ balanced st st'.
Proof.
  intros Hw Hr (Hs & E1 & E2). revert Hw Hr E1 E2. destruct Hs; intros Hw Hr E1 E2; rename st into st0.
  - by eapply store_ram.
  - by eapply update_ram.
  - by eapply remove_ram.
  - apply quiet_balanced; [|done]. by eapply next_quiet.
  - apply quiet_balanced; [|done]. by eapply previous_quiet.
  - apply quiet_balanced; [|done]. destruct (bounds_primary_spec k st0 c s t id Hw) as (? & _ & _). by eapply search_quiet.
  - apply quiet_balanced; [|done]. destruct (bounds_primary_spec k st0 c s t id Hw) as (_ & ? & _). by eapply search_quiet.
  - apply quiet_balanced; [|done]. destruct (bounds_primary_spec k st0 c s t id Hw) as (_ & _ & ?). by eapply search_quiet.
  - apply quiet_balanced; [|done]. destruct (bounds_secondary_spec k st0 c s t key Hw) as (? & _ & _); [done|]. by eapply search_quiet.
  - apply quiet_balanced; [|done]. destruct (bounds_secondary_spec k st0 c s t key Hw) as (_ & ? & _); [done|]. by eapply search_quiet.
  - apply quiet_balanced; [|done]. destruct (bounds_secondary_spec k st0 c s t key Hw) as (_ & _ & ?); [done|]. by eapply search_quiet.
  - apply quiet_balanced; [|done]. unfold db_end. destruct (find_table _ _ _ _) as [[a u]|]; [|done]. unfold cache_table_of. by destruct (cache_table _ _ _).
  - unfold enter_sync_call in H. do 2 apply bind_inv in H as (? & _ & H). destruct (callees env !! r) as [c|]; [|done].
    apply bind_inv in H as (? & _ & H). destruct (negb (has_code c)); [done|]. destruct (negb (sync_call_supported c)); [done|]. by injection H as <-.
  - apply quiet_balanced; [|done]. unfold leave_sync_call in H. destruct (callers st0); [done|]. by injection H as <-.
  - by apply quiet_balanced.
  - by apply quiet_balanced.
  - apply quiet_balanced; [|done]. unfold check_ram_deltas in H. by apply bind_inv in H as (? & _ & [= <-]).
Qed.

(** The errors of billing. *)
Definition billing_error (e : exn) : Prop :=
  e = subjective_block_production_exception ∨ e = missing_auth_exception ∨ e = out_of_range ∨ e = transaction_exception.

Definition fails_with {A} (P : exn → Prop) (m : result A) : Prop := ∀ e, m = Err e → P e.

Lemma fails_bind {A B} P (m : result A) (f : A → result B) : fails_with P m → (∀ a, m = Ok a → fails_with P (f a)) → fails_with P (m ≫= f).
Proof. intros H1 Hf e. destruct m as [a|e']; simpl; [by apply Hf|]. intros [= <-]. by apply H1. Qed.

Lemma fails_check P b e : P e → fails_with P (check b e).
Proof. intros HP e'. destruct b; simpl; [done|]. by intros [= <-]. Qed.

Lemma fails_usage st py n : fails_with billing_error (update_db_usage env st py n).
Proof.
  unfold update_db_usage. destruct (is_sync_call _); [done|]. apply fails_bind.
  - destruct (_ && _); [|done]. apply fails_bind; [apply fails_check; by left|]. intros. apply fails_check. unfold billing_error. auto.
  - intros _ _. unfold add_ram_usage. apply fails_bind; [|done]. unfold add_pending_ram_usage, db_get. destruct (n =? 0); [done|].
    apply fails_bind; [destruct (_ !! _); [done|]; intros ? [= <-]; unfold billing_error; auto|]. intros u _.
    apply fails_bind; [apply fails_check; unfold billing_error; auto|]. intros _ _. apply fails_bind; [apply fails_check; unfold billing_error; auto|done].
Qed.

Lemma safe_previous o k st it : host_wf st → (it < -1 → -2147483648 < it ∧ ∃ c s t, at_end st k it c s t) → safe (previous_in k (lt_of o) st it).
Proof.
  intros Hw Hend. destruct (it <? -1) eqn:E.
  - destruct (Hend ltac:(lia)) as (Hlo & c & s & t & He). by destruct (previous_end_spec o st k it (table_key k c s t) Hw eq_refl He Hlo) as (st1 & it1 & out1 & -> & _).
  - destruct (get_object st k it) as [[p r]|e] eqn:Hg.
    + apply get_object_inv in Hg as (Hi & Hr & _); [|done]. destruct (row_exists _ _ _ (proj1 (hw_db _ Hw)) Hr) as (x & Hx & _).
      destruct (previous_spec o st k it x Hw) as (st1 & it1 & out1 & -> & _); [by exists p, r|done].
    + unfold previous_in. rewrite E, Hg. apply safe_iterator_error. simpl. intros e' [= <-]. left. by eapply get_object_err.
Qed.

Lemma host_reachable_wf st0 st : host_wf st0 → rtc host_step st0 st → host_wf st.
Proof. intros H0 H. induction H as [|st1 st2 st3 Hs _ IH]; [done|]. apply IH. by eapply host_step_wf. Qed.

(** ** The properties *)

(** C10: in every state that contracts reach, through any sequence of table operations, synchronous calls, notified receivers and new actions,
    with any reuse of freed addresses: every table has at least one row and counts its rows, the caches of all contexts on the call path have only objects that
    exist, an iterator is at a row or is refused with an iterator error, and no operation reads a freed object or misses a
    table in its cache. (Moves back from the end of a table need that the table still exists.) *)
Theorem iterators_stay_sound a r priv ro rl st : rtc host_step (host_init a r priv ro rl) st →
  host_wf st ∧
  (∀ k it, (∃ x, points st k it x) ∨ ∃ e, get_object st k it = Err e ∧ iterator_error e) ∧
  (∀ k scope table py id v, safe (store env k st scope table py id v)) ∧
  (∀ k it py v, safe (update env k st it py v)) ∧
  (∀ k it, room (db st) → safe (db_remove env k st it)) ∧
  (∀ o k it, safe (next_in k (lt_of o) st it)) ∧
  (∀ o k it, (it < -1 → -2147483648 < it ∧ ∃ c s t, at_end st k it c s t) → safe (previous_in k (lt_of o) st it)).
Proof.
  intros H. assert (Hw : host_wf st) by (eapply host_reachable_wf; [apply host_init_wf|done]). split; [done|]. split_and!.
  - intros k it. destruct (get_object st k it) as [[p s]|e] eqn:E; [left|right; exists e; split; [done|by eapply get_object_err]].
    apply get_object_inv in E as (Hi & Hr & _); [|done]. destruct (row_exists _ _ _ (proj1 (hw_db _ Hw)) Hr) as (x & Hx & _). exists x. by exists p, s.
  - intros. by apply safe_store.
  - intros. by apply safe_update.
  - intros. by apply safe_remove.
  - intros. by apply safe_next.
  - intros. by apply safe_previous.
Qed.

(** C11: on the rows by index, table and primary key, the operations are those of a map: [store] adds a row that was not there to a table of the receiver and
    returns an iterator at it; [update] and [remove] change and delete the row of their iterator, which is one of the receiver's; nothing else
    changes. The iterators of the running context and of its callers stay at their rows, except those at a removed row, which are refused from then on. *)
Theorem tables_refine_maps k st : host_wf st → room (db st) →
  (∀ scope table py id v st' i, valid_key k v = true → store env k st scope table py id v = Ok (st', i) →
     py ≠ 0 ∧ stored st st' (RowKey k (receiver (ctx st)) scope table id) py v i) ∧
  (∀ it py v st', valid_key k v = true → update env k st it py v = Ok st' →
     ∃ x old, points st k it x ∧ view (db st) x = Some old ∧ updated st st' x (if py =? 0 then old.1 else py) v) ∧
  (∀ it st', db_remove env k st it = Ok st' → ∃ x, points st k it x ∧ removed st st' x).
Proof.
  intros Hw Hroom. split_and!.
  - intros scope table py id v st' i Hval H. split; [by apply (store_inv env) in H as [? _]|by apply (store_spec env)].
  - intros it py v st' Hval H. destruct (update_spec env k st it py v st' Hw Hval H) as (x & old & ? & _ & ? & ?). by exists x, old.
  - intros it st' H. destruct (remove_spec env k st it st' Hw Hroom H) as (x & ? & _ & ?). by exists x.
Qed.

(** C37: in every state with the invariant that the table operations keep, moves and searches follow the order of the keys, by primary key and by secondary key with the primary key second: [next] and [previous] from a
    row succeed and give the next and the previous row of its table in this index, or its end and [-1]; [find], [lowerbound] and [upperbound]
    give the first row with the key, not below it, above it, or the end of the table, or [-1] if there is no table. A secondary key
    that is searched for is valid, that is, has the length of the index and is not NaN. *)
Theorem iterators_follow_key_order o k st : host_wf st →
  (∀ it x, points st k it x →
    (∃ st' it' out, next_in k (lt_of o) st it = Ok (st', it', out) ∧
       let Q z := key_before o (db st) x z = true in
       match out with
       | Some r => ∃ y, first_key o (db st) x Q y ∧ returns_key st st' k it' r y
       | None => no_key (db st) x Q ∧ returns_end st st' k it' x
       end) ∧
    (∃ st' it' out, previous_in k (lt_of o) st it = Ok (st', it', out) ∧
       let Q z := key_before o (db st) z x = true in
       match out with
       | Some r => ∃ y, last_key o (db st) x Q y ∧ returns_key st st' k it' r y
       | None => no_key (db st) x Q ∧ st' = st ∧ it' = -1
       end)) ∧
  (∀ code scope table id, let x := table_key k code scope table in
    search_result by_primary st k x (λ y, rk_id y = id) (find_primary k st code scope table id) ∧
    search_result by_primary st k x (λ y, id <= rk_id y) (lowerbound_primary k st code scope table id) ∧
    search_result by_primary st k x (λ y, id < rk_id y) (upperbound_primary k st code scope table id)) ∧
  (∀ code scope table key, valid_key k key = true → let x := table_key k code scope table in let kd y := key_data (db st) y in
    search_result by_secondary st k x (λ y, key_lt k (kd y) key = false ∧ key_lt k key (kd y) = false) (find_secondary k st code scope table key) ∧
    search_result by_secondary st k x (λ y, key_lt k (kd y) key = false) (lowerbound_secondary k st code scope table key) ∧
    search_result by_secondary st k x (λ y, key_lt k key (kd y) = true) (upperbound_secondary k st code scope table key)).
Proof.
  intros Hw. split_and!.
  - intros it x Hp. split; [by apply next_spec|by apply previous_spec].
  - intros. by apply bounds_primary_spec.
  - intros. by apply bounds_secondary_spec.
Qed.

(** A loop over a table with [lowerbound] and [next] ends and lists the primary keys of the rows from a key on, all of them and in ascending order. *)
Theorem scan_lists_table k st code scope table id : host_wf st →
  returns (scan k st code scope table id) (λ ids, StronglySorted Z.lt ids ∧
    ∀ i, i ∈ ids ↔ id <= i ∧ present (db st) (RowKey k code scope table i)).
Proof.
  intros Hw. destruct (bounds_primary_spec k st code scope table id Hw) as (_ & Hlow & _). unfold scan.
  destruct (lowerbound_primary _ _ _ _ _ _) as [[st' it] [r|]]; cbn in Hlow.
  - destruct Hlow as (y & (Hpy & Hsame & Hle & Hmin) & Hw' & Hm & Hpt & Hid & Hv). pose proof (proj1 (hw_db _ Hw)) as Hd.
    destruct (present_row _ _ Hd Hpy) as (p & s & Hs).
    destruct (walk_spec by_primary k (S (size (objects (db st)))) st' it y p s Hw' Hpt) as (ys & -> & Hsort & Hys).
    { by rewrite (mv_db _ _ Hm). }
    { pose proof (after_le by_primary k (db st') s) as Hle'. rewrite (mv_db _ _ Hm) in *. lia. }
    rewrite (mv_db _ _ Hm) in *. cbn [mbind result_bind returns]. rewrite Hid.
    assert (Hkey : ∀ z, same_table (table_key k code scope table) z → z = RowKey k code scope table (rk_id z)).
    { intros [] (E1 & E2 & E3 & E4). cbn in *. by subst. }
    assert (Htab : ∀ z, same_table y z ↔ same_table (table_key k code scope table) z).
    { intros z. destruct Hsame as (? & ? & ? & ?). unfold same_table. split; intros (? & ? & ? & ?); repeat split; congruence. }
    split.
    + change (rk_id y :: (rk_id <$> ys)) with (rk_id <$> (y :: ys)). clear -Hsort. induction Hsort as [|z zs _ IH Hz]; [constructor|].
      cbn. constructor; [done|]. apply Forall_fmap. eapply Forall_impl; [exact Hz|]. intros w. cbn. by rewrite Z.ltb_lt.
    + intros i. rewrite elem_of_cons, list_elem_of_fmap. split.
      * intros [->|(z & -> & (Hz & Hyz & Hlt)%Hys)]; [rewrite <- (Hkey y Hsame); done|]. cbn in Hlt. apply Z.ltb_lt in Hlt. split; [lia|].
        apply Htab, Hkey in Hyz. by rewrite <- Hyz.
      * intros [Hi Hz]. destruct (decide (i = rk_id y)) as [->|Hne]; [by left|right]. exists (RowKey k code scope table i). split; [done|]. apply Hys.
        assert (same_table (table_key k code scope table) (RowKey k code scope table i)) as Hst by done. split; [done|]. split; [by apply Htab|].
        specialize (Hmin _ Hz Hst Hi). cbn in Hmin |- *. rewrite Z.ltb_ge in Hmin. apply Z.ltb_lt. lia.
  - destruct Hlow as [Hno _]. split; [constructor|]. intros i. split; [by intros ?%elem_of_nil|]. intros [Hi Hz]. by destruct (Hno _ Hz ltac:(done)).
Qed.

(** C32: outside of synchronous calls, the RAM usage of every account is what it had plus the billed sizes of exactly the tables and rows it pays for, after any sequence of actions. *)
Theorem ram_pays_for_rows a r priv ro rl st x : (∀ y u, rl_usage rl !! y = Some u → is_u64 (ram_usage u)) →
  rtc action_step (host_init a r priv ro rl) st → usage st x = from_option ram_usage 0 (rl_usage rl !! x) + charged (db st) x.
Proof.
  intros Hrl H.
  assert (Hgen : ∀ st0 st, rtc action_step st0 st → host_wf st0 → ram_wf st0 → balanced st0 st).
  { clear. intros st0 st H. induction H as [st|st1 st2 st3 Hs _ IH]; intros Hw Hr; [by intros ?|].
    destruct (action_step_ram _ _ Hw Hr Hs) as [Hr2 Hb]. apply (balanced_trans _ st2); [done|]. apply IH; [|done]. destruct Hs as [Hs _]. by eapply host_step_wf. }
  assert (Hr0 : ram_wf (host_init a r priv ro rl)) by (split; [done|by intros ? ?]).
  specialize (Hgen _ _ H (host_init_wf _ _ _ _ _) Hr0 x). cbn in Hgen. change (charged (ContractDb ∅ 0 ∅ 0) x) with 0 in Hgen. unfold usage in *. cbn in Hgen. lia.
Qed.

End Steps.
