(* ===== verification/HostExample.v ===== *)
(** * Contract tables on concrete states

    A contract stores rows, calls another contract that stores and removes some, and walks through its table: the hypotheses of the theorems on tables
    hold there. New objects are placed after the last one, so that the address of the last object is reused once it is removed.
    Two behaviours of the code are shown on such states. *)

From S2P Require Import Prelude Names Authority ResourceLimits Contract HostContext HostContextTheory HostOperations HostIterators HostSafety.
From stdpp Require Import gmap functions list.
Open Scope Z_scope.

Module HostExample.

(** The address after the last one. *)
Definition after_last {A} (m : gmap Z A) : Z := map_fold (λ k _ acc, Z.max acc (k + 1)) 0 m.

Lemma after_last_bound {A} (m : gmap Z A) k x : m !! k = Some x → k < after_last m.
Proof.
  unfold after_last. revert k x. apply (map_fold_weak_ind (λ b m, ∀ k x, m !! k = Some x → k < b)); [by intros ? ? ?%lookup_empty_Some|].
  intros i y m' b _ IH k x [[<- _]|[_ Hk]]%lookup_insert_Some; [lia|]. specialize (IH _ _ Hk). lia.
Qed.

Lemma after_last_free {A} (m : gmap Z A) : m !! after_last m = None.
Proof. apply eq_None_not_Some. intros [x Hx%after_last_bound]. lia. Qed.

#[local] Instance stack_allocator : Allocator := {
  alloc_table _ := after_last;
  alloc_row _ := after_last;
  alloc_table_free _ := after_last_free;
  alloc_row_free _ := after_last_free }.

(** Floating point numbers that are compared as integers. *)
Lemma integer_order : weak_order (λ _ : Z, false = false) Z.ltb.
Proof. destruct ltb_weak_order as [H1 H2]. by split; eauto. Qed.

#[local] Instance integer_floats : SoftFloat := {
  f64_lt := Z.ltb; f128_lt := Z.ltb; f64_nan := λ _, false; f128_nan := λ _, false;
  f64_order := integer_order; f128_order := integer_order }.

Definition shop : Z := 5.
Definition vault : Z := 6.

Definition env : host_env := HostEnv true false 16 4096 {[ vault := CalleeInfo true false true ]}.

Definition used (n : Z) : resource_usage_object := ResourceUsageObject accumulator_default accumulator_default n.

Definition accounts_rl : resource_db :=
  with_usage ResourceLimits.initialize_database {[ shop := used 1000; vault := used 5000 ]}.

Definition ok {A} (d : A) (m : result A) : A := match m with Ok x => x | Err _ => d end.

Definition is_ok {A} (m : result A) : bool := match m with Ok _ => true | Err _ => false end.

Lemma ok_pair {A B} (d : A * B) m : is_ok m = true → m = Ok ((ok d m).1, (ok d m).2).
Proof. by destruct m as [[]|]. Qed.

(** The action of the shop, and three rows in its table. *)
Definition s0 : host_state := host_init (ActionInfo shop [PermissionLevel shop 1]) shop false false accounts_rl.
Definition s1 : host_state := (ok (s0, 0) (store env key_value s0 10 20 shop 7 [1; 2])).1.
Definition s2 : host_state := (ok (s1, 0) (store env key_value s1 10 20 shop 3 [9])).1.
Definition s3 : host_state := (ok (s2, 0) (store env idx64 s2 10 20 shop 7 [42])).1.

(** A step that stores a row. *)
Lemma do_store k st scope table py id v : bool_decide (room (db st)) && valid_key k v && (Z.of_nat (length v) <=? u32_max) = true →
  is_ok (store env k st scope table py id v) = true → host_step env st (ok (st, 0) (store env k st scope table py id v)).1.
Proof.
  intros [[H1%bool_decide_eq_true H2]%andb_prop H3%Z.leb_le]%andb_prop H. by eapply step_store, ok_pair.
Qed.

Lemma s3_action : rtc (action_step env) s0 s3.
Proof.
  apply (rtc_l _ _ s1); [split; [apply do_store; vm_compute; reflexivity|split; vm_compute; reflexivity]|].
  apply (rtc_l _ _ s2); [split; [apply do_store; vm_compute; reflexivity|split; vm_compute; reflexivity]|].
  apply rtc_once. split; [apply do_store; vm_compute; reflexivity|split; vm_compute; reflexivity].
Qed.

Lemma s3_reached : rtc (host_step env) s0 s3.
Proof. eapply rtc_subrel; [|exact s3_action]. by intros ? ? [? _]. Qed.

Lemma s3_wf : host_wf s3.
Proof. eapply (host_reachable_wf env); [apply host_init_wf|exact s3_reached]. Qed.

Lemma iterators_stay_sound_witness : host_wf s3 ∧ ∃ x, points s3 key_value 1 x.
Proof.
  destruct (iterators_stay_sound env _ _ _ _ _ s3 s3_reached) as (Hw & Hit & _). split; [exact Hw|].
  destruct (Hit key_value 1) as [H|(e & H & _)]; [exact H|]. vm_compute in H. discriminate H.
Defined.

Lemma tables_refine_maps_witness : room (db s3) ∧
  ∃ st' i, store env key_value s3 10 21 shop 8 [5] = Ok (st', i) ∧ stored s3 st' (RowKey key_value shop 10 21 8) shop [5] i.
Proof.
  assert (Hroom : room (db s3)) by (vm_compute; reflexivity). split; [exact Hroom|].
  destruct (store env key_value s3 10 21 shop 8 [5]) as [[st' i]|e] eqn:E; [|vm_compute in E; discriminate E]. exists st', i. split; [reflexivity|].
  exact (proj2 (proj1 (tables_refine_maps env key_value s3 s3_wf Hroom) 10 21 shop 8 [5] st' i eq_refl E)).
Defined.

Lemma iterators_follow_key_order_witness : ∃ x, points s3 key_value 1 x ∧
  ∃ st' it' out, next_in key_value (lt_of by_primary) s3 1 = Ok (st', it', out) ∧ it' = 0 ∧ primary_key <$> out = Some 7.
Proof.
  destruct iterators_stay_sound_witness as [_ [x Hx]]. exists x. split; [exact Hx|].
  destruct (proj1 (proj1 (iterators_follow_key_order by_primary key_value s3 s3_wf) 1 x Hx)) as (st' & it' & out & E & _).
  exists st', it', out. split; [exact E|]. vm_compute in E. injection E as <- <- <-. split; reflexivity.
Defined.

Lemma scan_lists_table_witness : host_wf s3 ∧ scan key_value s3 shop 10 20 0 = Ok [3; 7] ∧
  returns (scan key_value s3 shop 10 20 0) (λ ids, StronglySorted Z.lt ids ∧ ∀ i, i ∈ ids ↔ 0 <= i ∧ present (db s3) (RowKey key_value shop 10 20 i)).
Proof. split; [exact s3_wf|]. split; [vm_compute; reflexivity|]. exact (scan_lists_table key_value s3 shop 10 20 0 s3_wf). Defined.

Lemma ram_pays_for_rows_witness : usage s3 shop = 1000 + charged (db s3) shop ∧ charged (db s3) shop = 467.
Proof.
  split; [|vm_compute; reflexivity]. apply (ram_pays_for_rows env (ActionInfo shop [PermissionLevel shop 1]) shop false false accounts_rl s3 shop); [|exact s3_action].
  intros y u H. change (({[ shop := used 1000; vault := used 5000 ]} : gmap Z resource_usage_object) !! y = Some u) in H. apply lookup_insert_Some in H as [[_ <-]|[_ [_ <-]%lookup_singleton_Some]]; unfold is_u64; simpl; lia.
Defined.

(** The end iterator [-2] is that of the table of the shop; its two tables are removed and another one is made. *)
Definition one_row : host_state := (ok (s0, 0) (store env key_value s0 10 20 shop 7 [1; 2])).1.
Definition emptied : host_state := ok one_row (db_remove env key_value one_row 0).
Definition other_table : host_state := (ok (emptied, 0) (store env key_value emptied 11 21 shop 4 [8])).1.

(** An iterator cache keeps the end iterator of a table that was removed, with the address of the table object. Moving back from it reads the object that is gone; and
    when another table has been made at this address, the move gives a row of the other table. *)
Theorem stale_end_iterator_reads_freed_table :
  (db_end key_value one_row shop 10 20).2 = -2 ∧ find_table (db emptied) shop 10 20 = None ∧
  db_previous_i64 emptied (-2) = Err undefined_behaviour ∧
  find_table (db other_table) shop 10 20 = None ∧
  returns (db_previous_i64 other_table (-2)) (λ r, r.1.2 = 1 ∧ r.2 = Some (RowObject key_value 1 4 shop [8])).
Proof. split_and!; try (vm_compute; reflexivity). vm_compute. split; reflexivity. Qed.

(** The shop calls the vault, which stores a row of 1000 bytes; later the vault removes it in an action of its own. *)
Definition value : list Z := replicate 1000 0.
Definition in_call : host_state := match enter_sync_call env s0 vault 0 0 with Ok (inr st) => st | _ => s0 end.
Definition stored_in_call : host_state := (ok (in_call, 0) (store env key_value in_call 10 20 vault 1 value)).1.
Definition back : host_state := ok in_call (leave_sync_call stored_in_call).
Definition vault_action : host_state := (find_primary key_value (new_action back (ActionInfo vault []) vault false false) vault 10 20 1).1.1.
Definition refunded : host_state := ok vault_action (db_remove env key_value vault_action 0).

(** A row that is stored in a synchronous call is not charged to its payer, but removing it in an action is refunded: the account is left with less usage than
    it had. *)
Theorem sync_call_rows_are_refunded_without_charge :
  usage s0 vault = 5000 ∧ callers stored_in_call ≠ [] ∧ charged (db stored_in_call) vault = 1224 ∧
  usage stored_in_call vault = 5000 ∧ usage back vault = 5000 ∧
  db_remove env key_value vault_action 0 = Ok refunded ∧ charged (db refunded) vault = 0 ∧ usage refunded vault = 3776.
Proof. split_and!; try (vm_compute; reflexivity). vm_compute. discriminate. Qed.

End HostExample.
