(* ===== verification/TransactionQueue.v ===== *)
(** * The queue of unapplied transactions ([unapplied_transaction_queue.hpp])

    Transactions that wait for a block: those of forked blocks, those of an aborted block, and incoming ones. The queue is the list of its entries in the order of
    their insertion, which is the order of equal keys in the indices by type and by expiration. A callback is a number; an operation gives the answers it
    sends to callbacks. An operation that throws leaves its changes in place. *)

From S2P Require Import Prelude.
From stdpp Require Import list.
Open Scope Z_scope.

Inductive trx_enum_type : Type := unknown | forked | aborted | incoming_api | incoming_p2p.

#[export] Instance trx_enum_type_eq_dec : EqDecision trx_enum_type.
Proof. solve_decision. Defined.

Inductive meta_type : Type := input | implicit | scheduled | dry_run | read_only.

#[export] Instance meta_type_eq_dec : EqDecision meta_type.
Proof. solve_decision. Defined.

(** A transaction with the address of its metadata; the expiration is in seconds. *)
Record transaction_metadata : Type := TransactionMetadata {
  meta_ptr : Z;
  meta_id : Z;
  meta_kind : meta_type;
  first_authorizer : Z;
  expiration : Z;
  unprunable_size : Z;
  prunable_size : Z }.

Definition is_read_only (m : transaction_metadata) : bool := bool_decide (meta_kind m = read_only).
Definition is_transient (m : transaction_metadata) : bool := bool_decide (meta_kind m = read_only) || bool_decide (meta_kind m = dry_run).

Record unapplied_transaction : Type := UnappliedTransaction {
  trx_meta : transaction_metadata;
  trx_type : trx_enum_type;
  return_failure_trace : bool;
  next_func : option Z }.

Record trx_queue : Type := TrxQueue {
  queue_entries : list unapplied_transaction;
  max_transaction_queue_size : Z;
  size_in_bytes : Z;
  incoming_count : Z }.

(** What a callback gets: a trace, or an exception. *)
Record answer : Type := Answer { answer_to : Z; answer_exn : option exn }.

Definition entry_id (e : unapplied_transaction) : Z := meta_id (trx_meta e).

Definition is_incoming (t : trx_enum_type) : bool := bool_decide (t = incoming_p2p) || bool_decide (t = incoming_api).

Definition answer_next (next : option Z) (x : option exn) : list answer :=
  match next with Some c => [Answer c x] | None => [] end.

Section Queue.
Context (sizeof_metadata : Z).   (* [sizeof( *trx )] *)
Implicit Types (q : trx_queue) (e : unapplied_transaction).

Definition queue_init (max : Z) : trx_queue := TrxQueue [] max 0 0.

Definition with_entries q (l : list unapplied_transaction) : trx_queue :=
  TrxQueue l (max_transaction_queue_size q) (size_in_bytes q) (incoming_count q).

Definition set_max_transaction_queue_size q (v : Z) : trx_queue :=
  TrxQueue (queue_entries q) v (size_in_bytes q) (incoming_count q).

Definition queue_size q : Z := Z.of_nat (length (queue_entries q)).

(** The counters are not reset. *)
Definition queue_clear q : trx_queue := with_entries q [].

Definition find_trx q (id : Z) : option unapplied_transaction := find (λ e, entry_id e =? id) (queue_entries q).

Definition get_trx q (id : Z) : option transaction_metadata := trx_meta <$> find_trx q id.

(** The sum and the double are of 32 bits. *)
Definition calc_size (m : transaction_metadata) : Z := u64 (u32 (u32 (unprunable_size m + prunable_size m) * 2) + sizeof_metadata).

(** The count is changed before the assertion, the size after it. *)
Definition queue_added q e : trx_queue * option exn :=
  let size := calc_size (trx_meta e) in
  let sum := u64 (size_in_bytes q + size) in
  if is_incoming (trx_type e) then
    let count := u64 (incoming_count q + 1) in
    if sum <? max_transaction_queue_size q then (TrxQueue (queue_entries q) (max_transaction_queue_size q) sum count, None)
    else (TrxQueue (queue_entries q) (max_transaction_queue_size q) (size_in_bytes q) count, Some tx_resource_exhaustion)
  else (TrxQueue (queue_entries q) (max_transaction_queue_size q) sum (incoming_count q), None).

Definition queue_removed q e : trx_queue :=
  TrxQueue (queue_entries q) (max_transaction_queue_size q) (u64 (size_in_bytes q - calc_size (trx_meta e)))
    (if is_incoming (trx_type e) then u64 (incoming_count q - 1) else incoming_count q).

(** [queue.insert], which refuses an id that is there, and [added]. *)
Definition insert_entry q e : trx_queue * option exn :=
  match find_trx q (entry_id e) with
  | Some _ => (q, None)
  | None => queue_added (with_entries q (queue_entries q ++ [e])) e
  end.

(** [removed], and the erasure of the entry with this id. *)
Definition erase_entry q e : trx_queue :=
  let q := queue_removed q e in with_entries q (filter (λ x, entry_id x ≠ entry_id e) (queue_entries q)).

Definition add_forked q (trx : transaction_metadata) : trx_queue :=
  (insert_entry q (UnappliedTransaction trx forked false None)).1.

Fixpoint add_aborted q (aborted_trxs : list transaction_metadata) : trx_queue :=
  match aborted_trxs with
  | [] => q
  | trx :: l => add_aborted (insert_entry q (UnappliedTransaction trx aborted false None)).1 l
  end.

(** A transaction that is queued already is answered, unless it is the same object; what is thrown is thrown after the insertion. *)
Definition add_incoming q (trx : transaction_metadata) (api_trx rft : bool) (next : option Z) : trx_queue * option exn * list answer :=
  match find_trx q (meta_id trx) with
  | None =>
    let '(q, x) := insert_entry q (UnappliedTransaction trx (if api_trx then incoming_api else incoming_p2p) rft next) in (q, x, [])
  | Some e =>
    if meta_ptr (trx_meta e) =? meta_ptr trx then (q, None, [])
    else (q, None, answer_next next (Some tx_duplicate))
  end.

(** [begin()] of the index by expiration. *)
Fixpoint first_expiring (l : list unapplied_transaction) : option unapplied_transaction :=
  match l with
  | [] => None
  | e :: l => match first_expiring l with
              | Some e' => if expiration (trx_meta e') <? expiration (trx_meta e) then Some e' else Some e
              | None => Some e
              end
  end.

(** The time is in microseconds; [yield i] is the answer of the [i]-th call of [yield]. The fuel is the number of entries. The last component lists
    the transactions that the callback was called with. *)
Fixpoint clear_expired_loop (fuel : nat) q (pending_block_time : Z) (yield : nat → bool) (i : nat) :
    result (trx_queue * bool * list answer * list transaction_metadata) :=
  match fuel with
  | O => Err out_of_fuel
  | S fuel =>
    match first_expiring (queue_entries q) with
    | None => Ok (q, true, [], [])
    | Some e =>
      if pending_block_time <? expiration (trx_meta e) * 1000000 then Ok (q, true, [], [])
      else if yield i then Ok (q, false, [], [])
      else
        '(q, b, l, ms) ← clear_expired_loop fuel (erase_entry q e) pending_block_time yield (S i);
        Ok (q, b, answer_next (next_func e) (Some expired_tx_exception) ++ l, trx_meta e :: ms)
    end
  end.

Definition clear_expired q (pending_block_time : Z) (yield : nat → bool) : result (trx_queue * bool * list answer * list transaction_metadata) :=
  clear_expired_loop (S (length (queue_entries q))) q pending_block_time yield 0.

(** The argument has the ids of the transactions of a block. *)
Fixpoint clear_applied_loop q (ids : list Z) : trx_queue * list answer :=
  match ids with
  | [] => (q, [])
  | id :: ids =>
    match find_trx q id with
    | None => clear_applied_loop q ids
    | Some e =>
      let '(q, l) := clear_applied_loop (erase_entry q e) ids in (q, answer_next (next_func e) (Some tx_duplicate) ++ l)
    end
  end.

Definition clear_applied q (ids : list Z) : trx_queue * list answer :=
  match queue_entries q with [] => (q, []) | _ => clear_applied_loop q ids end.

(** ** The index by type *)

Definition of_type (t : trx_enum_type) (l : list unapplied_transaction) : list unapplied_transaction := filter (λ e, trx_type e = t) l.

(** From [unapplied_begin] to [unapplied_end], and from [incoming_begin] to [incoming_end]. *)
Definition unapplied_range q : list unapplied_transaction :=
  of_type unknown (queue_entries q) ++ of_type forked (queue_entries q) ++ of_type aborted (queue_entries q).

Definition incoming_range q : list unapplied_transaction :=
  of_type incoming_api (queue_entries q) ++ of_type incoming_p2p (queue_entries q).

End Queue.
