(* ===== verification/SubjectiveBilling.v ===== *)
(** * Subjective billing ([subjective_billing.hpp])

    The CPU time that accounts used in transactions that are not in a block (yet): the pending bills of transactions that may still get into a block, and a decaying
    accumulator for expired and failed ones. The cache of transactions is the list of its entries in the order of their insertion, which is the order of equal
    expiries. Times are in microseconds. An operation that throws leaves its changes in place. *)

From S2P Require Import Prelude ResourceLimits.
From stdpp Require Import gmap list.
Open Scope Z_scope.

Record trx_cache_entry : Type := TrxCacheEntry {
  cache_id : Z;
  cache_account : Z;
  subjective_cpu_bill : Z;
  expiry : Z }.

Record subjective_billing_info : Type := SubjectiveBillingInfo {
  pending_cpu_us : Z;
  expired_accumulator : decay_accumulator }.

Record subjective_billing : Type := SubjectiveBilling {
  sb_disabled : bool;
  trx_cache : list trx_cache_entry;
  bill_cache : gmap Z subjective_billing_info;
  disabled_accounts : gset Z;
  expired_accumulator_average_window : Z }.

Implicit Types (sb : subjective_billing).

Definition info_init : subjective_billing_info := SubjectiveBillingInfo 0 (DecayAccumulator 0 0).

Definition subjective_time_interval_ms : Z := 5000.

Definition with_caches sb (t : list trx_cache_entry) (b : gmap Z subjective_billing_info) : subjective_billing :=
  SubjectiveBilling (sb_disabled sb) t b (disabled_accounts sb) (expired_accumulator_average_window sb).

Definition disable sb : subjective_billing :=
  SubjectiveBilling true (trx_cache sb) (bill_cache sb) (disabled_accounts sb) (expired_accumulator_average_window sb).

Definition disable_account sb (a : Z) : subjective_billing :=
  SubjectiveBilling (sb_disabled sb) (trx_cache sb) (bill_cache sb) ({[a]} ∪ disabled_accounts sb) (expired_accumulator_average_window sb).

(** The divisions are signed. *)
Definition set_expired_accumulator_average_window sb (decay_time_us : Z) : subjective_billing :=
  SubjectiveBilling (sb_disabled sb) (trx_cache sb) (bill_cache sb) (disabled_accounts sb)
    (u32 (Z.quot (Z.quot decay_time_us 1000) subjective_time_interval_ms)).

Definition is_account_disabled sb (a : Z) : bool := sb_disabled sb || bool_decide (a ∈ disabled_accounts sb).

(** The division is unsigned. *)
Definition time_ordinal_for (t : Z) : result Z :=
  let ordinal := u64 t / (1000 * subjective_time_interval_ms) in
  check (ordinal <=? u32_max) tx_resource_exhaustion;; Ok ordinal.

Definition info_empty (i : subjective_billing_info) (time_ordinal window : Z) : result bool :=
  if pending_cpu_us i =? 0 then v ← value_at (expired_accumulator i) time_ordinal window; Ok (v =? 0) else Ok false.

Definition add_pending (i : subjective_billing_info) (x : Z) : subjective_billing_info :=
  SubjectiveBillingInfo (u64 (pending_cpu_us i + x)) (expired_accumulator i).

(** The bill cache after it; [pending_cpu_us >= 0] holds of every unsigned number. *)
Definition remove_entry_bill (b : gmap Z subjective_billing_info) (entry : trx_cache_entry) (time_ordinal window : Z) :
    gmap Z subjective_billing_info * option exn :=
  match b !! cache_account entry with
  | None => (b, None)
  | Some i =>
    let i := add_pending i (- subjective_cpu_bill entry) in
    match info_empty i time_ordinal window with
    | Ok true => (delete (cache_account entry) b, None)
    | Ok false => (<[cache_account entry := i]> b, None)
    | Err x => (<[cache_account entry := i]> b, Some x)
    end
  end.

Definition transition_to_expired (b : gmap Z subjective_billing_info) (entry : trx_cache_entry) (time_ordinal window : Z) :
    gmap Z subjective_billing_info * option exn :=
  match b !! cache_account entry with
  | None => (b, None)
  | Some i =>
    let i := add_pending i (- subjective_cpu_bill entry) in
    match decay_add (expired_accumulator i) (subjective_cpu_bill entry) time_ordinal window with
    | Ok acc => (<[cache_account entry := SubjectiveBillingInfo (pending_cpu_us i) acc]> b, None)
    | Err x => (<[cache_account entry := i]> b, Some x)
    end
  end.

Definition find_cached sb (id : Z) : option trx_cache_entry := find (λ e, cache_id e =? id) (trx_cache sb).

Definition erase_cached sb (e : trx_cache_entry) : list trx_cache_entry := filter (λ x, cache_id x ≠ cache_id e) (trx_cache sb).

Definition remove_subjective_billing sb (id time_ordinal : Z) : subjective_billing * option exn :=
  match find_cached sb id with
  | None => (sb, None)
  | Some e =>
    match remove_entry_bill (bill_cache sb) e time_ordinal (expired_accumulator_average_window sb) with
    | (b, None) => (with_caches sb (erase_cached sb e) b, None)
    | (b, Some x) => (with_caches sb (trx_cache sb) b, Some x)
    end
  end.

Fixpoint remove_block_loop sb (ids : list Z) (time_ordinal : Z) : subjective_billing * option exn :=
  match ids with
  | [] => (sb, None)
  | id :: ids =>
    match remove_subjective_billing sb id time_ordinal with
    | (sb, None) => remove_block_loop sb ids time_ordinal
    | r => r
    end
  end.

(** The ids of the transactions of the block. *)
Definition remove_block sb (ids : list Z) (time_ordinal : Z) : subjective_billing * option exn :=
  match trx_cache sb with [] => (sb, None) | _ => remove_block_loop sb ids time_ordinal end.

Definition bill_of (elapsed : Z) : Z := Z.max 0 elapsed.

(** The expiration is in seconds. *)
Definition subjective_bill sb (id expire first_auth elapsed : Z) : subjective_billing :=
  if negb (sb_disabled sb) && negb (bool_decide (first_auth ∈ disabled_accounts sb)) then
    match find_cached sb id with
    | Some _ => sb
    | None =>
      with_caches sb (trx_cache sb ++ [TrxCacheEntry id first_auth (bill_of elapsed) (expire * 1000000)])
        (<[first_auth := add_pending (default info_init (bill_cache sb !! first_auth)) (bill_of elapsed)]> (bill_cache sb))
    end
  else sb.

(** The entry of the account is made before the accumulator can throw. *)
Definition subjective_bill_failure sb (first_auth elapsed now : Z) : subjective_billing * option exn :=
  if negb (sb_disabled sb) && negb (bool_decide (first_auth ∈ disabled_accounts sb)) then
    match time_ordinal_for now with
    | Err x => (sb, Some x)
    | Ok time_ordinal =>
      let i := default info_init (bill_cache sb !! first_auth) in
      match decay_add (expired_accumulator i) (bill_of elapsed) time_ordinal (expired_accumulator_average_window sb) with
      | Ok acc => (with_caches sb (trx_cache sb) (<[first_auth := SubjectiveBillingInfo (pending_cpu_us i) acc]> (bill_cache sb)), None)
      | Err x => (with_caches sb (trx_cache sb) (<[first_auth := i]> (bill_cache sb)), Some x)
      end
    end
  else (sb, None).

Definition get_subjective_bill sb (first_auth now : Z) : result Z :=
  if sb_disabled sb || bool_decide (first_auth ∈ disabled_accounts sb) then Ok 0
  else
    time_ordinal ← time_ordinal_for now;
    match bill_cache sb !! first_auth with
    | None => Ok 0
    | Some i =>
      v ← value_at (expired_accumulator i) time_ordinal (expired_accumulator_average_window sb);
      Ok (i64 (u64 (pending_cpu_us i + v)))
    end.

(** The block is null, or is given by the ids of its transactions. *)
Definition sb_on_block sb (block : option (list Z)) (now : Z) : subjective_billing * option exn :=
  match block with
  | None => (sb, None)
  | Some ids =>
    if sb_disabled sb then (sb, None)
    else match time_ordinal_for now with
         | Err x => (sb, Some x)
         | Ok time_ordinal => remove_block sb ids time_ordinal
         end
  end.

(** [begin()] of the index by expiry. *)
Fixpoint first_cached (l : list trx_cache_entry) : option trx_cache_entry :=
  match l with
  | [] => None
  | e :: l => match first_cached l with
              | Some e' => if expiry e' <? expiry e then Some e' else Some e
              | None => Some e
              end
  end.

(** [yield i] is the answer of the [i]-th call of [yield]; the fuel is the number of entries. *)
Fixpoint remove_expired_loop (fuel : nat) sb (pending_block_time time_ordinal : Z) (yield : nat → bool) (i : nat) : subjective_billing * result bool :=
  match fuel with
  | O => (sb, Err out_of_fuel)
  | S fuel =>
    match first_cached (trx_cache sb) with
    | None => (sb, Ok true)
    | Some e =>
      if yield i then (sb, Ok false)
      else if pending_block_time <? expiry e then (sb, Ok true)
      else match transition_to_expired (bill_cache sb) e time_ordinal (expired_accumulator_average_window sb) with
           | (b, Some x) => (with_caches sb (trx_cache sb) b, Err x)
           | (b, None) => remove_expired_loop fuel (with_caches sb (erase_cached sb e) b) pending_block_time time_ordinal yield (S i)
           end
    end
  end.

Definition remove_expired sb (pending_block_time now : Z) (yield : nat → bool) : subjective_billing * result bool :=
  match trx_cache sb with
  | [] => (sb, Ok true)
  | _ =>
    match time_ordinal_for now with
    | Err x => (sb, Err x)
    | Ok time_ordinal => remove_expired_loop (S (length (trx_cache sb))) sb pending_block_time time_ordinal yield 0
    end
  end.
