(* ===== verification/TransactionQueueTheory.v ===== *)
(** * The queue keeps its books ([unapplied_transaction_queue.hpp])

    The ids of the entries are distinct and the counters are those of the entries, as long as no addition throws; what leaves the queue, and which callbacks are
    answered for it. *)

From S2P Require Import Prelude TransactionQueue.
From stdpp Require Import list sorting.
Open Scope Z_scope.

Definition callbacks (l : list unapplied_transaction) : list Z := omap next_func l.

Definition answered (l : list answer) : list Z := answer_to <$> l.

(** The entries whose expiration is not after the time. *)
Definition is_expired (t : Z) (e : unapplied_transaction) : Prop := expiration (trx_meta e) * 1000000 <= t.

#[export] Instance is_expired_dec t e : Decision (is_expired t e).
Proof. unfold is_expired. apply _. Defined.

Section Books.
Context (sizeof_metadata : Z).
Implicit Types (q : trx_queue) (e : unapplied_transaction) (l : list unapplied_transaction).

Notation calc_size := (calc_size sizeof_metadata).
Notation insert_entry := (insert_entry sizeof_metadata).
Notation erase_entry := (erase_entry sizeof_metadata).

Definition total_size l : Z := zsum (λ e, calc_size (trx_meta e)) l.

Definition incoming_number l : Z := Z.of_nat (length (filter (λ e, is_incoming (trx_type e)) l)).

Record queue_ok q : Prop := {
  ok_ids : NoDup (entry_id <$> queue_entries q);
  ok_count : incoming_count q = u64 (incoming_number (queue_entries q));
  ok_size : size_in_bytes q = u64 (total_size (queue_entries q)) }.

Lemma incoming_number_app l k : incoming_number (l ++ k) = incoming_number l + incoming_number k.
Proof. unfold incoming_number. rewrite filter_app, length_app. lia. Qed.

Lemma incoming_number_one e : incoming_number [e] = if is_incoming (trx_type e) then 1 else 0.
Proof. unfold incoming_number. cbn. destruct (is_incoming _); done. Qed.

Lemma incoming_number_cons e l : incoming_number (e :: l) = (if is_incoming (trx_type e) then 1 else 0) + incoming_number l.
Proof. rewrite <- incoming_number_one. apply (incoming_number_app [e]). Qed.

Lemma incoming_number_perm l k : l ≡ₚ k → incoming_number l = incoming_number k.
Proof. intros H. unfold incoming_number. by rewrite H. Qed.

(** ** Lookup *)

Lemma find_trx_Some q id e : find_trx q id = Some e → e ∈ queue_entries q ∧ entry_id e = id.
Proof. intros [Hin Hid]%find_some. apply list_elem_of_In in Hin. split; [done|lia]. Qed.

Lemma find_trx_None q id : find_trx q id = None ↔ id ∉ entry_id <$> queue_entries q.
Proof.
  split.
  - intros H (e & -> & Hin)%list_elem_of_fmap. apply list_elem_of_In in Hin. pose proof (find_none _ _ H e Hin) as He. cbn in He. lia.
  - intros H. destruct (find_trx q id) as [e|] eqn:He; [|done]. apply find_trx_Some in He as [? <-].
    destruct H. by apply list_elem_of_fmap_2.
Qed.

(** ** Insertion and erasure *)

Lemma insert_entry_old q e x : find_trx q (entry_id e) = Some x → insert_entry q e = (q, None).
Proof. unfold insert_entry. by intros ->. Qed.

(** A rejected entry is in the queue nevertheless. *)
Lemma insert_entry_new q e q' x : find_trx q (entry_id e) = None → insert_entry q e = (q', x) →
  queue_entries q' = queue_entries q ++ [e] ∧ (x = None ∨ x = Some tx_resource_exhaustion ∧ is_incoming (trx_type e)).
Proof.
  unfold TransactionQueue.insert_entry, queue_added. intros -> H.
  destruct (is_incoming (trx_type e)) eqn:?; [case_match|]; simplify_eq/=; naive_solver.
Qed.

Lemma insert_entry_ok q e q' : queue_ok q → insert_entry q e = (q', None) → queue_ok q'.
Proof.
  intros [Hids Hc Hs]. destruct (find_trx q (entry_id e)) as [x|] eqn:Hf; [by rewrite (insert_entry_old _ _ _ Hf); intros [= <-]|].
  unfold TransactionQueue.insert_entry, queue_added. rewrite Hf. cbn.
  assert (NoDup (entry_id <$> queue_entries q ++ [e])).
  { rewrite fmap_app. apply NoDup_app. split; [done|]. split; [|apply NoDup_singleton].
    intros x Hx ->%list_elem_of_singleton. by apply find_trx_None in Hf. }
  assert (u64 (size_in_bytes q + calc_size (trx_meta e)) = u64 (total_size (queue_entries q ++ [e]))).
  { rewrite Hs. unfold total_size. rewrite zsum_app. cbn. rewrite Z.add_0_r. unfold u64. by rewrite Zplus_mod_idemp_l. }
  destruct (is_incoming (trx_type e)) eqn:Hi; [case_match; [|done]|]; intros [= <-]; constructor; cbn; try done;
    rewrite Hc, incoming_number_app, incoming_number_one, Hi.
  - unfold u64. by rewrite Zplus_mod_idemp_l.
  - by rewrite Z.add_0_r.
Qed.

Lemma erase_entry_perm q e : queue_ok q → e ∈ queue_entries q → queue_entries q ≡ₚ e :: queue_entries (erase_entry q e).
Proof. intros [Hids _ _] He. by apply erase_key_perm. Qed.

Lemma erase_entry_ok q e : queue_ok q → e ∈ queue_entries q → queue_ok (erase_entry q e).
Proof.
  intros Hok He. pose proof (erase_entry_perm q e Hok He) as Hp. destruct Hok as [Hids Hc Hs]. constructor.
  - rewrite Hp, fmap_cons in Hids. by apply NoDup_cons in Hids as [_ ?].
  - assert (incoming_count (erase_entry q e) = if is_incoming (trx_type e) then u64 (incoming_count q - 1) else incoming_count q) as -> by done.
    rewrite Hc, (incoming_number_perm _ _ Hp), incoming_number_cons.
    destruct (is_incoming _); [|done]. unfold u64. rewrite Zminus_mod_idemp_l. f_equal. lia.
  - assert (size_in_bytes (erase_entry q e) = u64 (size_in_bytes q - calc_size (trx_meta e))) as -> by done.
    rewrite Hs. unfold total_size. rewrite Hp. change (zsum ?f (?x :: ?l)) with (f x + zsum f l). unfold u64. rewrite Zminus_mod_idemp_l. f_equal. lia.
Qed.

Lemma callbacks_cons e l : callbacks (e :: l) = option_list (next_func e) ++ callbacks l.
Proof. unfold callbacks. cbn. by destruct (next_func e). Qed.

Lemma callbacks_app l k : callbacks (l ++ k) = callbacks l ++ callbacks k.
Proof. apply omap_app. Qed.

Lemma callbacks_perm l k : l ≡ₚ k → callbacks l ≡ₚ callbacks k.
Proof. intros H. unfold callbacks. by rewrite H. Qed.

Lemma answered_next n x : answered (answer_next n x) = option_list n.
Proof. by destruct n. Qed.

Lemma answered_app a b : answered (a ++ b) = answered a ++ answered b.
Proof. apply fmap_app. Qed.

(** ** Expiration *)

Lemma first_expiring_Some l e : first_expiring l = Some e → e ∈ l ∧ ∀ x, x ∈ l → expiration (trx_meta e) <= expiration (trx_meta x).
Proof.
  revert e. induction l as [|y l IH]; intros e; cbn; [done|]. destruct (first_expiring l) as [e'|] eqn:He'.
  - destruct (IH e' eq_refl) as [Hin Hmin]. destruct (Z.ltb_spec (expiration (trx_meta e')) (expiration (trx_meta y))); intros [= <-].
    + split; [by right|]. intros x [->|Hx]%elem_of_cons; [lia|auto].
    + split; [by left|]. intros x [->|Hx]%elem_of_cons; [lia|]. specialize (Hmin _ Hx). lia.
  - intros [= <-]. split; [by left|]. destruct l as [|z l]; [|cbn in He'; by repeat case_match].
    by intros x ->%list_elem_of_singleton.
Qed.

Lemma first_expiring_None l : first_expiring l = None → l = [].
Proof. destruct l as [|e l]; [done|]. cbn. by repeat case_match. Qed.

(** What [clear_expired] took out of the queue, in this order. *)
Record expired_spec (t : Z) (yield : nat → bool) (i : nat) q q' (b : bool) (answers : list answer) (metas : list transaction_metadata) : Prop := {
  ex_ok : queue_ok q';
  ex_rest : ∃ gone, queue_entries q ≡ₚ gone ++ queue_entries q' ∧ Forall (is_expired t) gone ∧
    StronglySorted (λ x y, expiration (trx_meta x) <= expiration (trx_meta y)) gone ∧
    (∀ x y, x ∈ gone → y ∈ queue_entries q' → expiration (trx_meta x) <= expiration (trx_meta y)) ∧
    metas = trx_meta <$> gone ∧ answers = gone ≫= (λ e, answer_next (next_func e) (Some expired_tx_exception)) ∧
    (b = false → yield (i + length gone)%nat = true);
  ex_order : sublist (queue_entries q') (queue_entries q);
  ex_max : max_transaction_queue_size q' = max_transaction_queue_size q;
  ex_done : b = true → Forall (λ e, ¬ is_expired t e) (queue_entries q') }.

Lemma clear_expired_loop_ok fuel q t yield i : queue_ok q → (length (queue_entries q) < fuel)%nat →
  ∃ q' b (l : list answer) ms, clear_expired_loop sizeof_metadata fuel q t yield i = Ok (q', b, l, ms) ∧ expired_spec t yield i q q' b l ms.
Proof.
  revert q i. induction fuel as [|fuel IH]; intros q i Hok Hf; [lia|]. cbn.
  assert (∀ b, (b = true → Forall (λ e, ¬ is_expired t e) (queue_entries q)) → (b = false → yield i = true) →
    expired_spec t yield i q q b [] []) as Hstop.
  { intros b Hb Hy. split; try done. exists []. split_and!; try done; [constructor|by intros ?? ?%elem_of_nil|].
    intros ->. rewrite Nat.add_0_r. auto. }
  destruct (first_expiring (queue_entries q)) as [e|] eqn:He.
  2: { exists q, true, [], []. split; [done|]. apply Hstop; [|done]. by rewrite (first_expiring_None _ He). }
  apply first_expiring_Some in He as [Hin Hmin].
  destruct (Z.ltb_spec t (expiration (trx_meta e) * 1000000)).
  { exists q, true, [], []. split; [done|]. apply Hstop; [|done]. intros _. apply Forall_forall. intros x Hx.
    specialize (Hmin x Hx). unfold is_expired. lia. }
  destruct (yield i) eqn:Hy; [exists q, false, [], []; split; [done|]; by apply Hstop|].
  pose proof (erase_entry_perm q e Hok Hin) as Hp.
  destruct (IH (erase_entry q e) (S i) (erase_entry_ok q e Hok Hin)) as (q' & b & l & ms & Hl & Hspec).
  { apply Permutation_length in Hp. cbn in *. lia. }
  rewrite Hl. cbn. eexists q', b, _, _. split; [done|]. destruct Hspec as [? (gone & Hg & Hex & Hs & Hle & -> & -> & Hb) Ho Hm Hd].
  split; try done; [|etrans; [done|]; cbn; apply sublist_filter].
  assert (∀ x, x ∈ gone ++ queue_entries q' → x ∈ queue_entries q) as Hsub.
  { intros x Hx. rewrite Hp. right. by rewrite Hg. }
  exists (e :: gone). split_and!.
  - by rewrite Hp, Hg.
  - by constructor.
  - constructor; [done|]. apply Forall_forall. intros x Hx. apply Hmin, Hsub. set_solver.
  - intros x y [->|Hx]%elem_of_cons Hy'; [apply Hmin, Hsub; set_solver|auto].
  - done.
  - done.
  - intros ->. cbn. rewrite <- (Hb eq_refl). f_equal. lia.
Qed.

Lemma clear_expired_ok q t yield : queue_ok q →
  ∃ q' b (l : list answer) ms, clear_expired sizeof_metadata q t yield = Ok (q', b, l, ms) ∧ expired_spec t yield 0 q q' b l ms.
Proof. intros Hok. apply clear_expired_loop_ok; [done|lia]. Qed.

Lemma answered_bind gone x : answered (gone ≫= (λ e, answer_next (next_func e) x)) = callbacks gone.
Proof.
  induction gone as [|e gone IH]; [done|]. rewrite bind_cons, answered_app, answered_next, callbacks_cons. by f_equal.
Qed.

Lemma expired_callbacks t yield i q q' b (l : list answer) ms : expired_spec t yield i q q' b l ms →
  callbacks (queue_entries q) ≡ₚ answered l ++ callbacks (queue_entries q').
Proof. intros [_ (gone & Hg & _ & _ & _ & _ & -> & _) _ _ _]. by rewrite (callbacks_perm _ _ Hg), callbacks_app, answered_bind. Qed.

(** ** The transactions of a block *)

Record applied_spec (ids : list Z) q q' (answers : list answer) : Prop := {
  ap_ok : queue_ok q';
  ap_rest : queue_entries q' = filter (λ e, entry_id e ∉ ids) (queue_entries q);
  ap_max : max_transaction_queue_size q' = max_transaction_queue_size q;
  ap_answers : answers ≡ₚ filter (λ e, entry_id e ∈ ids) (queue_entries q) ≫= (λ e, answer_next (next_func e) (Some tx_duplicate)) }.

Lemma filter_absent (ids : list Z) l id : id ∉ entry_id <$> l → filter (λ e, entry_id e ∈ id :: ids) l = filter (λ e, entry_id e ∈ ids) l.
Proof.
  intros H. apply filter_iff_in. intros e He. rewrite elem_of_cons. split; [|auto].
  intros [<-|?]; [|done]. destruct H. by apply list_elem_of_fmap_2.
Qed.

Lemma filter_not_absent (ids : list Z) l id : id ∉ entry_id <$> l → filter (λ e, entry_id e ∉ id :: ids) l = filter (λ e, entry_id e ∉ ids) l.
Proof.
  intros H. apply filter_iff_in. intros e He. rewrite not_elem_of_cons. split; [naive_solver|].
  split; [|done]. intros <-. destruct H. by apply list_elem_of_fmap_2.
Qed.

Lemma clear_applied_loop_ok ids q q' (l : list answer) : queue_ok q → clear_applied_loop sizeof_metadata q ids = (q', l) → applied_spec ids q q' l.
Proof.
  revert q q' l. induction ids as [|id ids IH]; intros q q' l Hok; cbn.
  { intros [= <- <-]. split; [done| |done|].
    - by rewrite filter_all_in by (intros; apply not_elem_of_nil).
    - rewrite (filter_iff_in _ (λ _, False)) by (intros e _; rewrite elem_of_nil; done). clear. by induction (queue_entries q). }
  destruct (find_trx q id) as [e|] eqn:Hf.
  2: { apply find_trx_None in Hf. intros [H1 H2 H3 H4]%IH; [|done]. split; [done| |done|].
       - by rewrite filter_not_absent.
       - by rewrite filter_absent. }
  apply find_trx_Some in Hf as [Hin <-]. pose proof (erase_entry_perm q e Hok Hin) as Hp.
  destruct (clear_applied_loop sizeof_metadata (erase_entry q e) ids) as [q1 l1] eqn:Hl. intros [= <- <-].
  apply IH in Hl as [H1 H2 H3 H4]; [|by apply erase_entry_ok]. split; [done| |done|].
  - rewrite H2. cbn. rewrite list_filter_filter. apply list_filter_iff. intros x. rewrite not_elem_of_cons. tauto.
  - rewrite Hp, filter_cons_True by (by left). rewrite filter_absent, bind_cons, H4; [done|].
    pose proof (ok_ids _ Hok) as Hids. rewrite Hp, fmap_cons in Hids. by apply NoDup_cons in Hids as [? _].
Qed.

Lemma clear_applied_ok ids q q' (l : list answer) : queue_ok q → clear_applied sizeof_metadata q ids = (q', l) → applied_spec ids q q' l.
Proof.
  intros Hok. unfold clear_applied. destruct (queue_entries q) eqn:He; [|by apply clear_applied_loop_ok].
  intros [= <- <-]. by split; rewrite ?He.
Qed.

Lemma applied_callbacks ids q q' (l : list answer) : applied_spec ids q q' l → callbacks (queue_entries q) ≡ₚ answered l ++ callbacks (queue_entries q').
Proof.
  intros [_ -> _ Ha]. assert (answered l ≡ₚ callbacks (filter (λ e, entry_id e ∈ ids) (queue_entries q))) as ->.
  { rewrite <- (answered_bind _ (Some tx_duplicate)). unfold answered. by rewrite Ha. }
  rewrite <- callbacks_app. apply callbacks_perm. clear. induction (queue_entries q) as [|e l IH]; [done|].
  destruct (decide (entry_id e ∈ ids)).
  - rewrite filter_cons_True, filter_cons_False by naive_solver. cbn. by f_equiv.
  - rewrite filter_cons_False, filter_cons_True by done. rewrite <- Permutation_middle. by f_equiv.
Qed.

End Books.
