(* ===== verification/SubjectiveBillingTheory.v ===== *)
(** * Subjective billing keeps its books ([subjective_billing.hpp])

    The pending time of every account is the sum of the bills of its cached transactions, in every state that the operations reach; expired transactions move their
    bills to the accumulator, and nothing throws. *)

From S2P Require Import Prelude ResourceLimits SubjectiveBilling.
From stdpp Require Import gmap list.
Open Scope Z_scope.

Implicit Types (sb : subjective_billing) (b : gmap Z subjective_billing_info) (l : list trx_cache_entry) (e : trx_cache_entry).

Definition pending_of b (a : Z) : Z := pending_cpu_us (default info_init (b !! a)).

Definition accumulator_of b (a : Z) : decay_accumulator := expired_accumulator (default info_init (b !! a)).

(** The bills of the transactions of an account. *)
Definition bills l (a : Z) : Z := zsum (λ e, if cache_account e =? a then subjective_cpu_bill e else 0) l.

(** The value of the accumulator at a time, with the precision of the accumulator. *)
Definition expired_ex b (a ordinal window : Z) : Z :=
  decayed (d_value_ex (accumulator_of b a)) (d_last_ordinal (accumulator_of b a)) ordinal window.

Definition window_ok (window : Z) : Prop := 0 < window < 4294967296.

Definition infos_ok b : Prop := ∀ a i, b !! a = Some i →
  is_u32 (d_last_ordinal (expired_accumulator i)) ∧ is_u64 (d_value_ex (expired_accumulator i)).

Definition entries_ok l : Prop := NoDup (cache_id <$> l) ∧ ∀ e, e ∈ l → 0 <= subjective_cpu_bill e <= max_raw_value.

Record caches_ok l b : Prop := {
  cok_infos : infos_ok b;
  cok_entries : entries_ok l;
  cok_pending : ∀ a, pending_of b a = bills l a;
  cok_bound : ∀ a, bills l a <= u64_max }.

Definition sb_ok sb : Prop := caches_ok (trx_cache sb) (bill_cache sb) ∧ window_ok (expired_accumulator_average_window sb).

Lemma bills_nonneg l a : entries_ok l → 0 <= bills l a.
Proof.
  intros [_ H]. apply (zsum_bounds _ _ max_raw_value). intros e He. specialize (H e He). destruct (_ =? _); lia.
Qed.

Lemma bills_cons e l a : bills (e :: l) a = (if cache_account e =? a then subjective_cpu_bill e else 0) + bills l a.
Proof. done. Qed.

Lemma accumulator_of_ok b a : infos_ok b → is_u32 (d_last_ordinal (accumulator_of b a)) ∧ is_u64 (d_value_ex (accumulator_of b a)).
Proof. intros H. unfold accumulator_of. destruct (b !! a) as [i|] eqn:Hb; [by apply (H a)|done]. Qed.

Lemma infos_ok_insert b a i : infos_ok b → is_u32 (d_last_ordinal (expired_accumulator i)) → is_u64 (d_value_ex (expired_accumulator i)) →
  infos_ok (<[a := i]> b).
Proof. intros H Hl Hv a' i' [[<- <-]|[_ ?]]%lookup_insert_Some; [done|by apply (H a')]. Qed.

Lemma infos_ok_delete b a : infos_ok b → infos_ok (delete a b).
Proof. intros H a' i [_ ?]%lookup_delete_Some. by apply (H a'). Qed.

Lemma pending_of_insert b a i a' : pending_of (<[a := i]> b) a' = if a =? a' then pending_cpu_us i else pending_of b a'.
Proof.
  unfold pending_of. destruct (Z.eqb_spec a a') as [<-|?]; [by rewrite lookup_insert_eq|by rewrite lookup_insert_ne].
Qed.

Lemma accumulator_of_insert b a i a' : accumulator_of (<[a := i]> b) a' = if a =? a' then expired_accumulator i else accumulator_of b a'.
Proof.
  unfold accumulator_of. destruct (Z.eqb_spec a a') as [<-|?]; [by rewrite lookup_insert_eq|by rewrite lookup_insert_ne].
Qed.

Lemma pending_of_delete b a a' : pending_of (delete a b) a' = if a =? a' then 0 else pending_of b a'.
Proof.
  unfold pending_of. destruct (Z.eqb_spec a a') as [<-|?]; [by rewrite lookup_delete_eq|by rewrite lookup_delete_ne].
Qed.

(** ** The cache of transactions *)

Lemma find_cached_Some sb id e : find_cached sb id = Some e → e ∈ trx_cache sb ∧ cache_id e = id.
Proof. intros [Hin Hid]%find_some. apply list_elem_of_In in Hin. split; [done|lia]. Qed.

Lemma find_cached_None sb id : find_cached sb id = None → id ∉ cache_id <$> trx_cache sb.
Proof.
  intros H (e & -> & Hin)%list_elem_of_fmap. apply list_elem_of_In in Hin. pose proof (find_none _ _ H e Hin) as He. cbn in He. lia.
Qed.

Lemma entries_ok_cons e l l' : entries_ok l → l ≡ₚ e :: l' → entries_ok l' ∧ 0 <= subjective_cpu_bill e <= max_raw_value.
Proof.
  intros [Hn Hb] Hp. rewrite Hp, fmap_cons in Hn. apply NoDup_cons in Hn as [_ Hn].
  split; [split; [done|]|]; [intros x Hx|]; apply Hb; rewrite Hp; [by right|by left].
Qed.

Lemma first_cached_Some l e : first_cached l = Some e → e ∈ l ∧ ∀ x, x ∈ l → expiry e <= expiry x.
Proof.
  revert e. induction l as [|y l IH]; intros e; cbn; [done|]. destruct (first_cached l) as [e'|] eqn:He'.
  - destruct (IH e' eq_refl) as [Hin Hmin]. destruct (Z.ltb_spec (expiry e') (expiry y)); intros [= <-].
    + split; [by right|]. intros x [->|Hx]%elem_of_cons; [lia|auto].
    + split; [by left|]. intros x [->|Hx]%elem_of_cons; [lia|]. specialize (Hmin _ Hx). lia.
  - intros [= <-]. split; [by left|]. destruct l as [|z l]; [|cbn in He'; by repeat case_match].
    by intros x ->%list_elem_of_singleton.
Qed.

Lemma first_cached_None l : first_cached l = None → l = [].
Proof. destruct l as [|e l]; [done|]. cbn. by repeat case_match. Qed.

(** ** One entry *)

Section Entry.
Context (l l' : list trx_cache_entry) (b : gmap Z subjective_billing_info) (e : trx_cache_entry) (ordinal window : Z).
Hypothesis Hok : caches_ok l b.
Hypothesis Hp : l ≡ₚ e :: l'.
Hypothesis Ho : is_u32 ordinal.
Hypothesis Hw : window_ok window.

Lemma bills_erased a : bills l a = (if cache_account e =? a then subjective_cpu_bill e else 0) + bills l' a.
Proof using Hp. unfold bills at 1. rewrite Hp. done. Qed.

Lemma pending_after i : b !! cache_account e = Some i → pending_cpu_us (add_pending i (- subjective_cpu_bill e)) = bills l' (cache_account e).
Proof using Hok Hp.
  intros Hi. cbn. pose proof (cok_pending _ _ Hok (cache_account e)) as H. unfold pending_of in H. rewrite Hi in H. cbn in H.
  pose proof (bills_erased (cache_account e)) as Hb. rewrite Z.eqb_refl in Hb.
  destruct (entries_ok_cons _ _ _ (cok_entries _ _ Hok) Hp) as [He _]. pose proof (bills_nonneg l' (cache_account e) He).
  pose proof (cok_bound _ _ Hok (cache_account e)). rewrite H, Hb, u64_small; [lia|]. unfold is_u64, u64_max in *.
  destruct (entries_ok_cons _ _ _ (cok_entries _ _ Hok) Hp) as [_ ?]. lia.
Qed.

Lemma caches_ok_after b' : infos_ok b' → (∀ a, pending_of b' a = if cache_account e =? a then bills l' a else pending_of b a) → caches_ok l' b'.
Proof using Hok Hp.
  intros Hi Hpend. destruct (entries_ok_cons _ _ _ (cok_entries _ _ Hok) Hp) as [He Hr]. split; [done|done| |].
  - intros a. rewrite Hpend. pose proof (bills_erased a) as Hb. destruct (_ =? _); [done|]. rewrite (cok_pending _ _ Hok). lia.
  - intros a. pose proof (bills_erased a) as Hb. pose proof (cok_bound _ _ Hok a). destruct (_ =? _); lia.
Qed.

(** The account of an entry without a bill may be gone. *)
Lemma no_account : b !! cache_account e = None → subjective_cpu_bill e = 0 ∧ caches_ok l' b.
Proof using Hok Hp.
  intros Hn. pose proof (cok_pending _ _ Hok (cache_account e)) as H. unfold pending_of in H. rewrite Hn in H. cbn in H.
  pose proof (bills_erased (cache_account e)) as Hb. rewrite Z.eqb_refl in Hb.
  destruct (entries_ok_cons _ _ _ (cok_entries _ _ Hok) Hp) as [He ?]. pose proof (bills_nonneg l' (cache_account e) He).
  split; [lia|]. apply caches_ok_after; [apply Hok|]. intros a. destruct (Z.eqb_spec (cache_account e) a) as [<-|?]; [|done].
  unfold pending_of. rewrite Hn. cbn. lia.
Qed.

Lemma info_empty_ok i : is_u32 (d_last_ordinal (expired_accumulator i)) → is_u64 (d_value_ex (expired_accumulator i)) →
  ∃ r, info_empty i ordinal window = Ok r ∧ (r = true → pending_cpu_us i = 0).
Proof using Ho Hw.
  intros Hl Hv. unfold info_empty, value_at. destruct (Z.eqb_spec (pending_cpu_us i) 0); [|by exists false].
  rewrite value_ex_at_ok by (done || (unfold window_ok, is_u32, is_u64 in *; lia)). cbn. by eexists.
Qed.

Lemma remove_entry_bill_ok : ∃ b', remove_entry_bill b e ordinal window = (b', None) ∧ caches_ok l' b'.
Proof using Hok Hp Ho Hw.
  unfold remove_entry_bill. destruct (b !! cache_account e) as [i|] eqn:Hi; [|exists b; split; [done|by apply no_account]].
  destruct (cok_infos _ _ Hok _ _ Hi) as [Hl Hv]. pose proof (pending_after i Hi) as Hpend.
  set (i' := add_pending i _) in *.
  destruct (info_empty_ok i' Hl Hv) as (r & -> & Hr). destruct r; eexists; (split; [done|]); apply caches_ok_after.
  - apply infos_ok_delete, Hok.
  - intros a. rewrite pending_of_delete. destruct (Z.eqb_spec (cache_account e) a) as [<-|?]; [|done]. rewrite <- Hpend. symmetry. by apply Hr.
  - apply infos_ok_insert; [apply Hok|done|done].
  - intros a. rewrite pending_of_insert. by destruct (Z.eqb_spec (cache_account e) a) as [<-|?].
Qed.

(** The bill of the entry moves to the accumulator, which is at most at its largest value. *)
Lemma transition_to_expired_ok : ∃ b', transition_to_expired b e ordinal window = (b', None) ∧ caches_ok l' b' ∧
  ∀ a, expired_ex b' a ordinal window =
    Z.min (expired_ex b a ordinal window + (if cache_account e =? a then subjective_cpu_bill e else 0) * rate_limiting_precision) u64_max.
Proof using Hok Hp Ho Hw.
  assert (∀ a, 0 <= expired_ex b a ordinal window <= u64_max) as Hr.
  { intros a. destruct (accumulator_of_ok b a (cok_infos _ _ Hok)) as [_ Hv]. unfold expired_ex.
    pose proof (decayed_range (d_value_ex (accumulator_of b a)) (d_last_ordinal (accumulator_of b a)) ordinal window) as Hd.
    unfold is_u64, window_ok, u64_max in *. lia. }
  unfold transition_to_expired. destruct (b !! cache_account e) as [i|] eqn:Hi.
  2: { exists b. split; [done|]. destruct (no_account Hi) as [Hz ?]. split; [done|]. intros a. rewrite Hz. specialize (Hr a).
       destruct (_ =? _); lia. }
  destruct (cok_infos _ _ Hok _ _ Hi) as [Hl Hv]. pose proof (pending_after i Hi) as Hpend.
  destruct (entries_ok_cons _ _ _ (cok_entries _ _ Hok) Hp) as [_ Hbill].
  assert (is_u64 (subjective_cpu_bill e)) by (assert (max_raw_value < 18446744073709551616) by done; unfold is_u64; lia).
  set (i' := add_pending i _) in *. change (expired_accumulator i') with (expired_accumulator i).
  assert (accumulator_of b (cache_account e) = expired_accumulator i) as Hacc by (unfold accumulator_of; by rewrite Hi).
  rewrite decay_add_ok by (done || (unfold window_ok, is_u32, is_u64 in *; lia)). rewrite (proj2 (Z.leb_le _ _)) by lia.
  eexists. split; [done|]. specialize (Hr (cache_account e)) as Hra. unfold expired_ex in Hra. rewrite Hacc in Hra. split.
  - apply caches_ok_after.
    + apply infos_ok_insert; [apply Hok| |]; cbn; unfold is_u32, is_u64, u64_max, rate_limiting_precision in *; lia.
    + intros a. rewrite pending_of_insert. by destruct (Z.eqb_spec (cache_account e) a) as [<-|?].
  - intros a. unfold expired_ex at 1. rewrite accumulator_of_insert. destruct (Z.eqb_spec (cache_account e) a) as [<-|?].
    + cbn. unfold decayed at 1. rewrite (proj2 (Z.ltb_ge _ _)) by lia. unfold expired_ex. by rewrite Hacc.
    + fold (expired_ex b a ordinal window). specialize (Hr a). lia.
Qed.
End Entry.

(** ** The operations *)

Definition time_ok (t : Z) : Prop := 0 <= t < 4294967296 * 5000000.

Lemma time_ordinal_ok t : time_ok t → time_ordinal_for t = Ok (t / 5000000) ∧ is_u32 (t / 5000000).
Proof.
  intros [? ?]. assert (is_u32 (t / 5000000)) as Hu. { split; [apply Z.div_pos; lia|apply Z.div_lt_upper_bound; lia]. }
  split; [|done]. unfold time_ordinal_for, subjective_time_interval_ms. rewrite u64_small by (unfold is_u64; lia).
  change (1000 * 5000) with 5000000. rewrite check_bind; [done|]. apply Z.leb_le. unfold is_u32, u32_max in *. lia.
Qed.

(** What no operation on the caches changes. *)
Definition same_settings sb sb' : Prop :=
  sb_disabled sb' = sb_disabled sb ∧ disabled_accounts sb' = disabled_accounts sb ∧
  expired_accumulator_average_window sb' = expired_accumulator_average_window sb.

Lemma erase_cached_perm sb e : sb_ok sb → e ∈ trx_cache sb → trx_cache sb ≡ₚ e :: erase_cached sb e.
Proof. intros [Hok _] He. apply erase_key_perm; [|done]. apply Hok. Qed.

Lemma remove_subjective_billing_ok sb id ordinal : sb_ok sb → is_u32 ordinal → ∃ sb', remove_subjective_billing sb id ordinal = (sb', None) ∧
  sb_ok sb' ∧ same_settings sb sb' ∧ trx_cache sb' = filter (λ e, cache_id e ≠ id) (trx_cache sb).
Proof.
  intros Hsb Ho. unfold remove_subjective_billing. destruct (find_cached sb id) as [e|] eqn:Hf.
  - apply find_cached_Some in Hf as [Hin <-]. destruct (remove_entry_bill_ok _ _ _ _ _ _ (proj1 Hsb) (erase_cached_perm _ _ Hsb Hin) Ho (proj2 Hsb))
      as (b' & -> & Hb). eexists. split; [done|]. by split; [split; [done|apply Hsb]|].
  - exists sb. split; [done|]. split; [done|]. split; [done|]. symmetry. apply filter_all_in. intros e He <-. apply find_cached_None in Hf.
    destruct Hf. by apply list_elem_of_fmap_2.
Qed.

Lemma remove_block_ok sb ids ordinal : sb_ok sb → is_u32 ordinal → ∃ sb', remove_block sb ids ordinal = (sb', None) ∧
  sb_ok sb' ∧ same_settings sb sb' ∧ trx_cache sb' = filter (λ e, cache_id e ∉ ids) (trx_cache sb).
Proof.
  intros Hsb Ho. unfold remove_block. destruct (trx_cache sb) eqn:Hc; [by exists sb; rewrite Hc|]. rewrite <- Hc. clear Hc.
  revert sb Hsb. induction ids as [|id ids IH]; intros sb Hsb; cbn.
  { exists sb. split_and!; try done. symmetry. apply filter_all_in. intros. apply not_elem_of_nil. }
  destruct (remove_subjective_billing_ok sb id ordinal Hsb Ho) as (sb1 & -> & H1 & Hs1 & Hc1).
  destruct (IH sb1 H1) as (sb2 & -> & H2 & Hs2 & Hc2). exists sb2. split; [done|]. split; [done|]. split.
  - unfold same_settings in *. naive_solver congruence.
  - rewrite Hc2, Hc1, list_filter_filter. apply list_filter_iff. intros e. rewrite not_elem_of_cons. tauto.
Qed.

Lemma sb_on_block_ok sb block now : sb_ok sb → time_ok now → ∃ sb', sb_on_block sb block now = (sb', None) ∧ sb_ok sb' ∧ same_settings sb sb' ∧
  trx_cache sb' = if sb_disabled sb then trx_cache sb else filter (λ e, cache_id e ∉ default [] block) (trx_cache sb).
Proof.
  intros Hsb [Ht Ho]%time_ordinal_ok. unfold sb_on_block. rewrite Ht. destruct block as [ids|].
  - destruct (sb_disabled sb); [by exists sb|]. by apply remove_block_ok.
  - exists sb. split_and!; try done. destruct (sb_disabled sb); [done|]. symmetry. apply filter_all_in. intros. apply not_elem_of_nil.
Qed.

Lemma subjective_bill_ok sb id expire a elapsed : sb_ok sb → elapsed <= max_raw_value → bills (trx_cache sb) a + bill_of elapsed <= u64_max →
  sb_ok (subjective_bill sb id expire a elapsed).
Proof.
  intros Hsb Hel Hsum. unfold subjective_bill. destruct (_ && _); [|done]. destruct (find_cached sb id) eqn:Hf; [done|].
  destruct Hsb as [[Hi [Hn He] Hp Hb] Hw]. split; [|done]. cbn [trx_cache bill_cache with_caches]. set (e := TrxCacheEntry _ _ _ _).
  assert (0 <= bill_of elapsed <= max_raw_value) by (assert (0 <= max_raw_value) by done; unfold bill_of; lia).
  assert (∀ x, bills (trx_cache sb ++ [e]) x = bills (trx_cache sb) x + if a =? x then bill_of elapsed else 0) as Hbs.
  { intros x. unfold bills. rewrite zsum_app. cbn. lia. }
  pose proof (bills_nonneg (trx_cache sb) a (conj Hn He)) as Hnn. specialize (Hp a) as Hpa. unfold pending_of in Hpa. split.
  - apply infos_ok_insert; [done| |]; apply (accumulator_of_ok (bill_cache sb) a Hi).
  - split.
    + rewrite fmap_app. apply NoDup_app. split; [done|]. split; [|apply NoDup_singleton]. intros x Hx ->%list_elem_of_singleton.
      by apply find_cached_None in Hf.
    + intros x [Hx| ->%list_elem_of_singleton]%elem_of_app; [auto|done].
  - intros x. rewrite pending_of_insert, Hbs. destruct (Z.eqb_spec a x) as [<-|?]; [|rewrite Hp; lia]. cbn. rewrite Hpa.
    rewrite u64_small; [done|]. unfold is_u64, u64_max in *. lia.
  - intros x. rewrite Hbs. specialize (Hb x). destruct (Z.eqb_spec a x) as [<-|?]; lia.
Qed.

Lemma bill_failure_ok sb a elapsed now : sb_ok sb → elapsed <= max_raw_value → time_ok now →
  ∃ sb', subjective_bill_failure sb a elapsed now = (sb', None) ∧ sb_ok sb' ∧ same_settings sb sb' ∧ trx_cache sb' = trx_cache sb.
Proof.
  intros Hsb Hel [Ht Ho]%time_ordinal_ok. unfold subjective_bill_failure. rewrite Ht. destruct (_ && _); [|by exists sb].
  destruct Hsb as [[Hi He Hp Hb] Hw]. destruct (accumulator_of_ok (bill_cache sb) a Hi) as [Hl Hv].
  assert (0 <= bill_of elapsed <= max_raw_value) as Hbill by (assert (0 <= max_raw_value) by done; unfold bill_of; lia).
  assert (max_raw_value < 18446744073709551616) by done. fold (accumulator_of (bill_cache sb) a).
  pose proof (decayed_range (d_value_ex (accumulator_of (bill_cache sb) a)) (d_last_ordinal (accumulator_of (bill_cache sb) a)) (now / 5000000)
    (expired_accumulator_average_window sb)) as Hd.
  rewrite decay_add_ok by (done || (unfold window_ok, is_u32, is_u64 in *; lia)). rewrite (proj2 (Z.leb_le _ _)) by lia.
  eexists. split; [done|]. split; [|done]. split; [|done]. split; [|done| |done].
  - apply infos_ok_insert; [done| |]; cbn; unfold is_u32, is_u64, u64_max, rate_limiting_precision, window_ok in *; lia.
  - intros x. cbn. rewrite pending_of_insert. destruct (Z.eqb_spec a x) as [<-|?]; [|done]. apply Hp.
Qed.

(** What [remove_expired] moved. *)
Record expired_moved (t ordinal : Z) sb sb' (done_ : bool) : Prop := {
  mv_ok : sb_ok sb';
  mv_settings : same_settings sb sb';
  mv_gone : ∃ gone, trx_cache sb ≡ₚ gone ++ trx_cache sb' ∧ Forall (λ e, expiry e <= t) gone ∧
    ∀ a, expired_ex (bill_cache sb') a ordinal (expired_accumulator_average_window sb) =
      Z.min (expired_ex (bill_cache sb) a ordinal (expired_accumulator_average_window sb) + bills gone a * rate_limiting_precision) u64_max;
  mv_done : done_ = true → Forall (λ e, t < expiry e) (trx_cache sb') }.

Lemma expired_ex_range sb a ordinal : sb_ok sb → 0 <= expired_ex (bill_cache sb) a ordinal (expired_accumulator_average_window sb) <= u64_max.
Proof.
  intros [[Hi _ _ _] Hw]. destruct (accumulator_of_ok (bill_cache sb) a Hi) as [_ Hv]. unfold expired_ex.
  pose proof (decayed_range (d_value_ex (accumulator_of (bill_cache sb) a)) (d_last_ordinal (accumulator_of (bill_cache sb) a)) ordinal
    (expired_accumulator_average_window sb)). unfold is_u64, window_ok, u64_max in *. lia.
Qed.

Lemma remove_expired_loop_ok fuel sb t ordinal yield i : sb_ok sb → is_u32 ordinal → (length (trx_cache sb) < fuel)%nat →
  ∃ sb' r, remove_expired_loop fuel sb t ordinal yield i = (sb', Ok r) ∧ expired_moved t ordinal sb sb' r ∧ ((∀ j, yield j = false) → r = true).
Proof.
  revert sb i. induction fuel as [|fuel IH]; intros sb i Hsb Ho Hf; [lia|]. cbn.
  assert (∀ r, (r = true → Forall (λ e, t < expiry e) (trx_cache sb)) → expired_moved t ordinal sb sb r) as Hstop.
  { intros r Hr. split; try done. exists []. split_and!; [done|done|]. intros a. pose proof (expired_ex_range sb a ordinal Hsb). cbn. lia. }
  destruct (first_cached (trx_cache sb)) as [e|] eqn:He.
  2: { exists sb, true. split; [done|]. split; [|done]. apply Hstop. intros _. by rewrite (first_cached_None _ He). }
  apply first_cached_Some in He as [Hin Hmin].
  destruct (yield i) eqn:Hy; [exists sb, false; split; [done|]; split; [by apply Hstop|]; intros H; by rewrite H in Hy|].
  destruct (Z.ltb_spec t (expiry e)).
  { exists sb, true. split; [done|]. split; [|done]. apply Hstop. intros _. apply Forall_forall. intros x Hx. specialize (Hmin x Hx). lia. }
  pose proof (erase_cached_perm sb e Hsb Hin) as Hp.
  destruct (transition_to_expired_ok _ _ _ _ _ _ (proj1 Hsb) Hp Ho (proj2 Hsb)) as (b' & -> & Hb' & Hex).
  destruct (IH (with_caches sb (erase_cached sb e) b') (S i)) as (sb' & r & -> & [Hok' Hs (gone & Hg & Hgt & Hgex) Hd] & Hr).
  { split; [done|apply Hsb]. } { done. } { apply Permutation_length in Hp. cbn in *. lia. }
  exists sb', r. split; [done|]. split; [|done]. split; [done|done| |done].
  exists (e :: gone). split_and!; [by rewrite Hp, Hg|by constructor|].
  intros a. cbn in Hgex. rewrite Hgex, Hex, bills_cons. pose proof (expired_ex_range sb a ordinal Hsb).
  assert (0 <= bills gone a). { apply bills_nonneg. destruct (cok_entries _ _ (proj1 Hsb)) as [Hn Hbl]. rewrite Hp in Hn. cbn in Hg. rewrite Hg in Hn.
    split; [|intros x Hx; apply Hbl; rewrite Hp; cbn; rewrite Hg; set_solver].
    cbn in Hn. apply NoDup_cons in Hn as [_ Hn]. rewrite fmap_app in Hn. by apply NoDup_app in Hn as [? _]. }
  unfold rate_limiting_precision. lia.
Qed.

Lemma remove_expired_ok sb t now yield : sb_ok sb → time_ok now →
  ∃ sb' r, remove_expired sb t now yield = (sb', Ok r) ∧ expired_moved t (now / 5000000) sb sb' r ∧ ((∀ j, yield j = false) → r = true).
Proof.
  intros Hsb [Ht Ho]%time_ordinal_ok. unfold remove_expired. destruct (trx_cache sb) eqn:Hc.
  - exists sb, true. split; [done|]. split; [|done]. split; try done; [|by rewrite Hc]. exists []. rewrite Hc. split_and!; [done|done|].
    intros a. pose proof (expired_ex_range sb a (now / 5000000) Hsb). cbn. lia.
  - rewrite Ht, <- Hc. apply remove_expired_loop_ok; [done|done|lia].
Qed.

(** ** Every state *)

Definition sb_init (window : Z) : subjective_billing := SubjectiveBilling false [] ∅ ∅ window.

(** A transaction runs for at most [max_raw_value] (213 days), and the pending bills of an account stay below [2^64] (584 thousand years). *)
Inductive sb_step : subjective_billing → subjective_billing → Prop :=
| sb_step_bill sb id expire a elapsed :
    elapsed <= max_raw_value → bills (trx_cache sb) a + bill_of elapsed <= u64_max → sb_step sb (subjective_bill sb id expire a elapsed)
| sb_step_failure sb a elapsed now : elapsed <= max_raw_value → time_ok now → sb_step sb (subjective_bill_failure sb a elapsed now).1
| sb_step_block sb block now : time_ok now → sb_step sb (sb_on_block sb block now).1
| sb_step_expired sb t now yield : time_ok now → sb_step sb (remove_expired sb t now yield).1
| sb_step_disable sb : sb_step sb (disable sb)
| sb_step_disable_account sb a : sb_step sb (disable_account sb a)
| sb_step_window sb us : 0 < u32 (Z.quot (Z.quot us 1000) 5000) → sb_step sb (set_expired_accumulator_average_window sb us).

Lemma sb_step_ok sb sb' : sb_ok sb → sb_step sb sb' → sb_ok sb'.
Proof.
  intros Hsb Hst. destruct Hst as [? ? ? ? ? Hel Hsum|? ? ? ? Hel Hnow|? ? ? Hnow|? ? ? ? Hnow|?|? ?|? us Hpos].
  - by apply subjective_bill_ok.
  - by destruct (bill_failure_ok _ a _ _ Hsb Hel Hnow) as (? & -> & ? & _).
  - by destruct (sb_on_block_ok _ block _ Hsb Hnow) as (? & -> & ? & _).
  - by destruct (remove_expired_ok _ t _ yield Hsb Hnow) as (? & ? & -> & [? _ _ _] & _).
  - done.
  - done.
  - split; [apply Hsb|]. split; [done|]. apply u32_range.
Qed.

Lemma sb_reachable_ok window sb : window_ok window → rtc sb_step (sb_init window) sb → sb_ok sb.
Proof.
  intros Hw Hr. assert (sb_ok (sb_init window)) as H0.
  { split; [|done]. unfold sb_init. cbn [trx_cache bill_cache]. split; [by intros a i ?%lookup_empty_Some|split; [constructor|by intros e ?%elem_of_nil]| |done].
    intros a. unfold pending_of. by rewrite lookup_empty. }
  revert H0. induction Hr as [|x y z Hst Hr IH]; [done|]. intros Hx. apply IH. by apply (sb_step_ok x).
Qed.

(** C33: In every state that the operations reach, subjective billing asks an account for exactly what it owes: the bills of its cached transactions, each once,
    and the decayed value of its accumulator; the account cache and the transaction cache never disagree. An account that is switched off owes nothing. *)
Theorem subjective_bill_is_what_is_owed window sb a now :
  window_ok window → rtc sb_step (sb_init window) sb → time_ok now →
  let owed := bills (trx_cache sb) a + average_of (expired_ex (bill_cache sb) a (now / 5000000) (expired_accumulator_average_window sb)) in
  owed <= i64_max →
  NoDup (cache_id <$> trx_cache sb) ∧ pending_of (bill_cache sb) a = bills (trx_cache sb) a ∧
  get_subjective_bill sb a now = Ok (if is_account_disabled sb a then 0 else owed).
Proof.
  intros Hw Hr [Ht Ho]%time_ordinal_ok owed Hmax. apply sb_reachable_ok in Hr as Hsb; [|done].
  pose proof (expired_ex_range sb a (now / 5000000) Hsb) as Hex.
  destruct Hsb as [[Hi He Hp Hb] Hwin]. split; [apply He|]. split; [apply Hp|].
  unfold get_subjective_bill, is_account_disabled. destruct (sb_disabled sb || _); [done|]. rewrite Ht, bind_ok.
  destruct (accumulator_of_ok (bill_cache sb) a Hi) as [Hl Hv]. specialize (Hp a). pose proof (bills_nonneg _ a He). subst owed.
  unfold pending_of, accumulator_of, expired_ex, accumulator_of in *. destruct (bill_cache sb !! a) as [i|]; cbn in *.
  - unfold value_at. rewrite value_ex_at_ok by (done || (unfold window_ok, is_u32, is_u64 in *; lia)). rewrite bind_ok, bind_ok, Hp.
    assert (0 <= average_of (decayed (d_value_ex (expired_accumulator i)) (d_last_ordinal (expired_accumulator i)) (now / 5000000)
      (expired_accumulator_average_window sb))).
    { unfold average_of, integer_divide_ceil. pose proof (Z.div_pos _ rate_limiting_precision (proj1 Hex)). case_match; unfold rate_limiting_precision in *; lia. }
    unfold i64_max in *. rewrite u64_small, i64_small by (unfold is_u64, is_i64; lia). done.
  - rewrite <- Hp. unfold decayed. by repeat case_match.
Qed.

(** C34: Removing expired transactions ends without an exception in every state, when it is interrupted too: what it takes out has expired, nothing that has
    expired is left unless it was interrupted, and what each account owes for it moves from its pending bills to its accumulator, up to the largest value of it. *)
Theorem expired_bills_move window sb t now yield :
  window_ok window → rtc sb_step (sb_init window) sb → time_ok now →
  ∃ sb' r gone, remove_expired sb t now yield = (sb', Ok r) ∧
    trx_cache sb ≡ₚ gone ++ trx_cache sb' ∧ Forall (λ e, expiry e <= t) gone ∧
    (r = true → Forall (λ e, t < expiry e) (trx_cache sb')) ∧ ((∀ j, yield j = false) → r = true) ∧
    ∀ a, pending_of (bill_cache sb) a = pending_of (bill_cache sb') a + bills gone a ∧
      expired_ex (bill_cache sb') a (now / 5000000) (expired_accumulator_average_window sb) =
      Z.min (expired_ex (bill_cache sb) a (now / 5000000) (expired_accumulator_average_window sb) + bills gone a * rate_limiting_precision) u64_max.
Proof.
  intros Hw Hr Hnow. apply sb_reachable_ok in Hr as Hsb; [|done].
  destruct (remove_expired_ok sb t now yield Hsb Hnow) as (sb' & r & Hrun & [Hok' _ (gone & Hp & Hg & Hex) Hd] & Hy).
  exists sb', r, gone. split_and!; try done. intros a. split; [|apply Hex].
  rewrite (cok_pending _ _ (proj1 Hsb)), (cok_pending _ _ (proj1 Hok')). unfold bills at 1. rewrite Hp, zsum_app. fold (bills gone a).
  fold (bills (trx_cache sb') a). lia.
Qed.
