(* ===== verification/ProducerTransactions.v ===== *)
(** * Transactions of a producing node ([producer_plugin.cpp])

    How the producer plugin runs incoming and waiting transactions: limits on the failures of accounts, subjective billing, the queue of unapplied transactions and the
    answers to clients. What the controller does with a transaction, the clock and the limits of the pending block are arguments ([push_env], one for each
    transaction that is run); logging, metrics and time tracking are left out, and so are exceptions that stop the node. *)

From S2P Require Import Prelude ResourceLimits TransactionQueue SubjectiveBilling.
From stdpp Require Import gmap list.
Open Scope Z_scope.

(** ** Failures of accounts *)

Record account_failure : Type := AccountFailure { num_failures : Z; ex_flags : Z }.

Record account_failures : Type := AccountFailures {
  failed_accounts : gmap Z account_failure;
  max_failures_per_account : Z;
  last_reset_block_num : Z;
  reset_window_size_in_num_blocks : Z }.

Definition set_max_failures_per_account (f : account_failures) (max_failures size : Z) : account_failures :=
  AccountFailures (failed_accounts f) max_failures (last_reset_block_num f) size.

Definition ex_field (e : exn) : Z :=
  if decide (e = tx_cpu_usage_exceeded) then 2
  else if decide (e = deadline_exception) then 1
  else if decide (e = eosio_assert_message_exception ∨ e = eosio_assert_code_exception) then 4
  else 8.

Definition with_failed (f : account_failures) (m : gmap Z account_failure) : account_failures :=
  AccountFailures m (max_failures_per_account f) (last_reset_block_num f) (reset_window_size_in_num_blocks f).

Definition failures_add (f : account_failures) (n : Z) (e : exn) : account_failures :=
  let fa := default (AccountFailure 0 0) (failed_accounts f !! n) in
  with_failed f (<[n := AccountFailure (u32 (num_failures fa + 1)) (Z.lor (ex_flags fa) (ex_field e))]> (failed_accounts f)).

Definition failure_limit (f : account_failures) (n : Z) : account_failures * bool :=
  match failed_accounts f !! n with
  | Some fa =>
    if max_failures_per_account f <=? num_failures fa
    then (with_failed f (<[n := AccountFailure (u32 (num_failures fa + 1)) (ex_flags fa)]> (failed_accounts f)), true)
    else (f, false)
  | None => (f, false)
  end.

Definition report_and_clear (f : account_failures) (block_num : Z) : account_failures :=
  if negb (last_reset_block_num f =? block_num) && (block_num mod reset_window_size_in_num_blocks f =? 0)
  then AccountFailures ∅ (max_failures_per_account f) block_num (reset_window_size_in_num_blocks f)
  else f.

(** ** Running a transaction *)

Definition exception_is_exhausted (e : exn) : bool :=
  bool_decide (e = block_cpu_usage_exceeded) || bool_decide (e = block_net_usage_exceeded) || bool_decide (e = deadline_exception) ||
  bool_decide (e = interrupt_exception) || bool_decide (e = ro_trx_vm_oc_compile_temporary_failure).

Record push_result : Type := PushResult { block_exhausted : bool; trx_exhausted : bool; failed : bool }.

Record producer_config : Type := ProducerConfig {
  disable_subjective_api_billing : bool;
  disable_subjective_p2p_billing : bool;
  max_transaction_time_ms : Z;
  max_block_cpu_usage_threshold_us : Z;
  max_block_net_usage_threshold_bytes : Z;
  sizeof_transaction_metadata : Z }.

(** What [chain.push_transaction] gives: the trace, and the limits of the block after it. *)
Record push_trace : Type := PushTrace {
  trace_except : option exn;
  trace_elapsed : Z;
  cpu_limit_after : Z;
  net_limit_after : Z }.

(** The clock at the start, before the transaction runs and after it; the limits of the block and of the chain before it runs; the times the
    transaction took before; what the controller does, given the time limit and the subjective bill, or the exception it throws. *)
Record push_env : Type := PushEnv {
  env_start : Z;
  env_now : Z;
  env_end : Z;
  env_cpu_limit : Z;
  env_net_limit : Z;
  env_max_transaction_cpu_usage : Z;
  env_unlimited_cpu : bool;
  elapsed_time_us : Z;
  billed_cpu_time_us : Z;
  env_push : Z → Z → result push_trace }.

Record producer : Type := Producer {
  unapplied_transactions : trx_queue;
  billing : subjective_billing;
  account_fails : account_failures }.

Section Producer.
Context (cfg : producer_config).
Implicit Types (p : producer) (trx : transaction_metadata) (env : push_env).

Definition with_queue p (q : trx_queue) : producer := Producer q (billing p) (account_fails p).
Definition with_billing p (b : subjective_billing) : producer := Producer (unapplied_transactions p) b (account_fails p).
Definition with_fails p (f : account_failures) : producer := Producer (unapplied_transactions p) (billing p) f.

Definition block_is_exhausted (cpu_limit net_limit : Z) : bool :=
  (cpu_limit <? max_block_cpu_usage_threshold_us cfg) || (net_limit <? max_block_net_usage_threshold_bytes cfg).

(** Out of resources: to be tried again, with no answer. Failed: billed and counted, unless it is a duplicate or billing is off, and answered. Done: billed
    unless the node is producing, and answered. *)
Definition handle_push_result p (producing : bool) trx (next : option Z) env (trace : push_trace) (disable_subjective_enforcement : bool) :
    producer * list answer * result push_result :=
  let first_auth := first_authorizer trx in
  match trace_except trace with
  | Some e =>
    if exception_is_exhausted e then
      (p, [], Ok (PushResult (negb (is_read_only trx) && block_is_exhausted (cpu_limit_after trace) (net_limit_after trace)) true false))
    else
      let answers := answer_next next (Some e) in
      if decide (e = tx_duplicate) then (p, answers, Ok (PushResult false false true))
      else if disable_subjective_enforcement then (p, answers, Ok (PushResult false false true))
      else
        match subjective_bill_failure (billing p) first_auth (trace_elapsed trace) (env_end env) with
        | (b, Some x) => (with_billing p b, [], Err x)
        | (b, None) => (Producer (unapplied_transactions p) b (failures_add (account_fails p) first_auth e), answers, Ok (PushResult false false true))
        end
  | None =>
    let p := if negb disable_subjective_enforcement && negb producing
             then with_billing p (subjective_bill (billing p) (meta_id trx) (expiration trx) first_auth (trace_elapsed trace)) else p in
    (p, answer_next next None, Ok (PushResult false false false))
  end.

Definition disable_enforcement p trx (api_trx : bool) : bool :=
  (api_trx && disable_subjective_api_billing cfg) || (negb api_trx && disable_subjective_p2p_billing cfg) ||
  is_account_disabled (billing p) (first_authorizer trx) || is_transient trx.

(** [max_trx_time] in microseconds; a negative number is no limit. *)
Definition configured_trx_time : Z :=
  let t := max_transaction_time_ms cfg * 1000 in if t <? 0 then i64_max else t.

(** Twice the time of the last run: [EOS_PERCENT(prev, 100 * percent_1)] is unsigned. *)
Definition prev_time_plus100_us (prev : Z) : Z := i64 (u64 (prev + u64 (prev * 10000) / 10000)).

Definition push_transaction p (producing : bool) (block_deadline : Z) trx (api_trx : bool) (next : option Z) env :
    producer * list answer * result push_result :=
  if is_read_only trx then (p, [], Err producer_exception)
  else
    let first_auth := first_authorizer trx in
    let disable_subjective_enforcement := disable_enforcement p trx api_trx in
    let '(f, limited) := if negb disable_subjective_enforcement then failure_limit (account_fails p) first_auth else (account_fails p, false) in
    let p := with_fails p f in
    if limited then (p, answer_next next (Some tx_cpu_usage_exceeded), Ok (PushResult false false true))
    else
      match (if negb disable_subjective_enforcement then get_subjective_bill (billing p) first_auth (env_now env) else Ok 0) with
      | Err x => (p, [], Err x)
      | Ok sub_bill =>
        let prev_billed := billed_cpu_time_us env in
        let run (max_trx_time : Z) :=
          match env_push env max_trx_time sub_bill with
          | Err x => (p, [], Err x)
          | Ok trace => handle_push_result p producing trx next env trace disable_subjective_enforcement
          end in
        if producing && (0 <? elapsed_time_us env) then
          let prev := Z.min (elapsed_time_us env) (env_max_transaction_cpu_usage env) in
          if (block_deadline - env_start env <? prev) || (env_cpu_limit env <? prev_billed) then
            (p, [], Ok (PushResult (negb (is_read_only trx) && block_is_exhausted (env_cpu_limit env) (env_net_limit env)) true false))
          else if (0 <? prev_billed) && negb (is_account_disabled (billing p) first_auth) && negb (env_unlimited_cpu env)
          then run (Z.min (prev_time_plus100_us prev) configured_trx_time)
          else run configured_trx_time
        else run configured_trx_time
      end.

(** ** The queue in a block *)

Definition erase_from_queue p (e : unapplied_transaction) : producer :=
  with_queue p (erase_entry (sizeof_transaction_metadata cfg) (unapplied_transactions p) e).

(** The loops go through the part of the index by type that they start with: they erase only where they are, and running a transaction does not change the
    queue. [interrupt i] answers the [i]-th [should_interrupt_start_block]. An exception leaves the transaction in the queue. *)
Fixpoint process_unapplied_loop p (producing : bool) (deadline : Z) (interrupt : nat → bool) (envs : nat → push_env) (i : nat)
    (range : list unapplied_transaction) : producer * list answer * bool :=
  match range with
  | [] => (p, [], true)
  | e :: range =>
    if interrupt i then (p, [], false)
    else
      match push_transaction p producing deadline (trx_meta e) false (next_func e) (envs i) with
      | (p, l, Err _) =>
        let '(p, l', b) := process_unapplied_loop p producing deadline interrupt envs (S i) range in (p, l ++ l', b)
      | (p, l, Ok pr) =>
        if block_exhausted pr then (p, l, false)
        else
          let p := if trx_exhausted pr then p else erase_from_queue p e in
          let '(p, l', b) := process_unapplied_loop p producing deadline interrupt envs (S i) range in (p, l ++ l', b)
      end
  end.

Definition process_unapplied_trxs p (producing : bool) (deadline : Z) (interrupt : nat → bool) (envs : nat → push_env) : producer * list answer * bool :=
  process_unapplied_loop p producing deadline interrupt envs 0 (unapplied_range (unapplied_transactions p)).

(** An exception ends the loop. *)
Fixpoint process_incoming_loop p (producing : bool) (deadline : Z) (interrupt : nat → bool) (envs : nat → push_env) (i : nat)
    (range : list unapplied_transaction) : producer * list answer * result bool :=
  match range with
  | [] => (p, [], Ok true)
  | e :: range =>
    if interrupt i then (p, [], Ok false)
    else
      match push_transaction p producing deadline (trx_meta e) (bool_decide (trx_type e = incoming_api)) (next_func e) (envs i) with
      | (p, l, Err x) => (p, l, Err x)
      | (p, l, Ok pr) =>
        let p := if trx_exhausted pr then p else erase_from_queue p e in
        if block_exhausted pr then (p, l, Ok false)
        else let '(p, l', b) := process_incoming_loop p producing deadline interrupt envs (S i) range in (p, l ++ l', b)
      end
  end.

Definition process_incoming_trxs p (producing : bool) (deadline : Z) (interrupt : nat → bool) (envs : nat → push_env)
    (itr : list unapplied_transaction) : producer * list answer * result bool :=
  process_incoming_loop p producing deadline interrupt envs 0 itr.

Definition remove_expired_trxs p (pending_block_time : Z) (interrupt : nat → bool) : result (producer * list answer * bool) :=
  '(q, b, l, _) ← clear_expired (sizeof_transaction_metadata cfg) (unapplied_transactions p) pending_block_time interrupt;
  Ok (with_queue p q, l, b).

Inductive start_block_result : Type := succeeded | start_failed | exhausted.

(** What the rest of [start_block] asks for while transactions run. *)
Record block_env : Type := BlockEnv {
  be_block_num : Z;
  be_block_time : Z;
  be_deadline : Z;
  be_now : Z;
  be_interrupt_expired : nat → bool;
  be_interrupt_billing : nat → bool;
  be_interrupt_unapplied : nat → bool;
  be_interrupt_incoming : nat → bool;
  be_unapplied : nat → push_env;
  be_incoming : nat → push_env;
  be_quitting : bool;
  be_interrupt_end : bool;
  be_cpu_limit : Z;
  be_net_limit : Z }.

(** The waiting transactions, in a block that the node produces, and the incoming ones, which are those of the queue before the waiting ones run. *)
Definition start_block_process p (producing : bool) (be : block_env) : producer * list answer * result start_block_result :=
  let incoming_itr := incoming_range (unapplied_transactions p) in
  let '(p, l1, more) :=
    if producing then process_unapplied_trxs p producing (be_deadline be) (be_interrupt_unapplied be) (be_unapplied be) else (p, [], true) in
  if negb more then (p, l1, Ok exhausted)
  else if be_quitting be then (p, l1, Ok start_failed)
  else if be_interrupt_end be || block_is_exhausted (be_cpu_limit be) (be_net_limit be) then (p, l1, Ok exhausted)
  else
    let '(p, l2, r) := process_incoming_trxs p producing (be_deadline be) (be_interrupt_incoming be) (be_incoming be) incoming_itr in
    (p, l1 ++ l2, match r with Ok true => Ok succeeded | Ok false => Ok exhausted | Err x => Err x end).

(** The transactions of a new block, from [report_and_clear] on. *)
Definition start_block_transactions p (producing : bool) (be : block_env) : producer * list answer * result start_block_result :=
  let p := with_fails p (report_and_clear (account_fails p) (be_block_num be)) in
  match remove_expired_trxs p (be_block_time be) (be_interrupt_expired be) with
  | Err x => (p, [], Err x)
  | Ok (p, l, false) => (p, l, Ok exhausted)
  | Ok (p, l, true) =>
    match remove_expired (billing p) (be_block_time be) (be_now be) (be_interrupt_billing be) with
    | (b, Err x) => (with_billing p b, l, Err x)
    | (b, Ok false) => (with_billing p b, l, Ok exhausted)
    | (b, Ok true) => let '(p, l', r) := start_block_process (with_billing p b) producing be in (p, l ++ l', r)
    end
  end.

(** ** Incoming transactions and blocks *)

(** [add_incoming]; an exception of it goes to the callback. *)
Definition queue_incoming p trx (api_trx rft : bool) (next : Z) : producer * list answer * option exn :=
  let '(q, x, l) := add_incoming (sizeof_transaction_metadata cfg) (unapplied_transactions p) trx api_trx rft (Some next) in
  (with_queue p q, l ++ match x with Some x => [Answer next (Some x)] | None => [] end, x).

(** The block time is that of the pending block, or of the head; a transaction is known if a block on this branch has it. The result tells that the block is not
    exhausted. *)
Definition process_incoming_transaction_async p (producing building known : bool) (block_time block_deadline : Z) trx (api_trx rft : bool) (next : Z) env :
    producer * list answer * bool :=
  if expiration trx * 1000000 <? block_time then (p, [Answer next (Some expired_tx_exception)], true)
  else if known then (p, [Answer next (Some tx_duplicate)], true)
  else if negb building then let '(p, l, _) := queue_incoming p trx api_trx rft next in (p, l, true)
  else
    match push_transaction p producing block_deadline trx api_trx (Some next) env with
    | (p, l, Err x) => (p, l ++ [Answer next (Some x)], true)
    | (p, l, Ok pr) =>
      if trx_exhausted pr then
        match queue_incoming p trx api_trx rft next with
        | (p, l', Some _) => (p, l ++ l', true)
        | (p, l', None) => (p, l ++ l', negb (block_exhausted pr || negb producing))
        end
      else (p, l, negb (block_exhausted pr))
    end.

(** The ids of the transactions of the block. *)
Definition on_accepted_block p (ids : list Z) (now : Z) : producer * list answer * option exn :=
  let '(q, l) := clear_applied (sizeof_transaction_metadata cfg) (unapplied_transactions p) ids in
  let '(b, x) := sb_on_block (billing p) (Some ids) now in
  (Producer q b (account_fails p), l, x).

(** What the plugin does with the transactions of an aborted block, and with those of a block of another branch. *)
Definition abort_block p (aborted_trxs : list transaction_metadata) : producer :=
  with_queue p (add_aborted (sizeof_transaction_metadata cfg) (unapplied_transactions p) aborted_trxs).

Definition on_forked_trx p trx : producer :=
  with_queue p (add_forked (sizeof_transaction_metadata cfg) (unapplied_transactions p) trx).

End Producer.

(** The size of the queue from the configured number of MiB, a 16 bit number: the product is an [int], whose overflow is undefined. *)
Definition max_incoming_transaction_queue_size (mb : Z) : result Z :=
  let size := mb * 1024 * 1024 in
  check (size <=? 2147483647) undefined_behaviour;;
  check (0 <? size) plugin_config_exception;; Ok size.
