(* ===== verification/ProducerTheory.v ===== *)
(** * Clients get one answer ([producer_plugin.cpp])

    Every callback that a transaction came with is answered exactly once or waits in the queue, over all runs in which the queue has room, and is answered when
    its transaction expires at the latest. *)

From S2P Require Import Prelude ResourceLimits TransactionQueue TransactionQueueTheory SubjectiveBilling ProducerTransactions.
From stdpp Require Import gmap list.
Open Scope Z_scope.

Section Theory.
Context (cfg : producer_config).
Implicit Types (p : producer) (trx : transaction_metadata) (env : push_env) (l : list answer) (es : list unapplied_transaction).

Notation ok q := (queue_ok (sizeof_transaction_metadata cfg) q).
Notation entries p := (queue_entries (unapplied_transactions p)).

(** ** One transaction *)

(** A transaction that is to be tried again gets no answer, the others get one; the queue is as it was. *)
Definition pushed p (next : option Z) p' l (r : result push_result) : Prop :=
  unapplied_transactions p' = unapplied_transactions p ∧
  match r with
  | Ok pr => answered l = (if trx_exhausted pr then [] else option_list next) ∧ (block_exhausted pr = true → trx_exhausted pr = true)
  | Err _ => l = []
  end.

Lemma handle_push_result_pushed p producing trx next env trace d p' l r :
  handle_push_result cfg p producing trx next env trace d = (p', l, r) → pushed p next p' l r.
Proof.
  unfold handle_push_result. intros H. destruct (trace_except trace) as [e|].
  - destruct (exception_is_exhausted e); [by simplify_eq|]. destruct (decide (e = tx_duplicate)).
    { simplify_eq. split; [done|]. by rewrite answered_next. }
    destruct d; [simplify_eq; split; [done|]; by rewrite answered_next|].
    destruct (subjective_bill_failure _ _ _ _) as [b [x|]]; simplify_eq; [done|]. split; [done|]. by rewrite answered_next.
  - simplify_eq. split; [by destruct (_ && _)|]. by rewrite answered_next.
Qed.

Lemma push_transaction_pushed p producing deadline trx api next env p' l r :
  push_transaction cfg p producing deadline trx api next env = (p', l, r) → pushed p next p' l r.
Proof.
  unfold push_transaction. intros H. destruct (is_read_only trx); [by simplify_eq|].
  destruct (if negb (disable_enforcement cfg p trx api) then _ else _) as [f limited]. destruct limited.
  { simplify_eq. split; [done|]. by rewrite answered_next. }
  destruct (if negb _ then _ else _) as [bill|x]; [|by simplify_eq].
  assert (∀ t, match env_push env t bill with
    | Ok trace => handle_push_result cfg (with_fails p f) producing trx next env trace (disable_enforcement cfg p trx api)
    | Err x => (with_fails p f, [], Err x) end = (p', l, r) → pushed p next p' l r) as Hrun.
  { intros t. destruct (env_push env t bill) as [trace|x]; [|by intros [= <- <- <-]]. intros [? ?]%handle_push_result_pushed. done. }
  destruct (producing && _); [|by eapply Hrun]. destruct (_ || _); [by simplify_eq|]. destruct (_ && _); by eapply Hrun.
Qed.

(** ** The loops over the queue *)

Lemma of_type_cons t e es : of_type t (e :: es) = if decide (trx_type e = t) then e :: of_type t es else of_type t es.
Proof. unfold of_type. case_decide; [by rewrite filter_cons_True|by rewrite filter_cons_False]. Qed.

Lemma type_ranges es :
  es ≡ₚ (of_type unknown es ++ of_type forked es ++ of_type aborted es) ++ (of_type incoming_api es ++ of_type incoming_p2p es).
Proof.
  induction es as [|e es IH]; [done|]. rewrite IH at 1. rewrite !of_type_cons. destruct (trx_type e) eqn:Ht;
    repeat (case_decide; try done); rewrite <- ?app_assoc; cbn [app]; rewrite <- ?Permutation_middle; done.
Qed.

Definition in_range es p : Prop := NoDup (entry_id <$> es) ∧ ∀ e, e ∈ es → e ∈ entries p.

Lemma ranges_in p : ok (unapplied_transactions p) →
  in_range (unapplied_range (unapplied_transactions p)) p ∧ in_range (incoming_range (unapplied_transactions p)) p ∧
  ∀ e, e ∈ incoming_range (unapplied_transactions p) → entry_id e ∉ entry_id <$> unapplied_range (unapplied_transactions p).
Proof.
  intros [Hids _ _]. pose proof (type_ranges (entries p)) as Hp. fold (unapplied_range (unapplied_transactions p)) in Hp.
  fold (incoming_range (unapplied_transactions p)) in Hp. rewrite Hp, fmap_app in Hids. apply NoDup_app in Hids as (H1 & H2 & H3).
  split_and!.
  - split; [done|]. intros e He. rewrite Hp. set_solver.
  - split; [done|]. intros e He. rewrite Hp. set_solver.
  - intros e He Hin. apply (H2 _ Hin). by apply list_elem_of_fmap_2.
Qed.

(** What a loop does to the queue: the callbacks that it answers are those of the entries it takes out. *)
Record processed p es p' l : Prop := {
  pr_ok : ok (unapplied_transactions p');
  pr_callbacks : callbacks (entries p) ≡ₚ answered l ++ callbacks (entries p');
  pr_sub : ∀ e, e ∈ entries p' → e ∈ entries p;
  pr_others : ∀ e, e ∈ entries p → entry_id e ∉ entry_id <$> es → e ∈ entries p' }.

Lemma processed_stay p p1 es : ok (unapplied_transactions p) → unapplied_transactions p1 = unapplied_transactions p → processed p es p1 [].
Proof. intros Hok He. by split; rewrite ?He. Qed.

Lemma processed_erase p p1 e es : ok (unapplied_transactions p) → unapplied_transactions p1 = unapplied_transactions p → in_range (e :: es) p →
  ok (unapplied_transactions (erase_from_queue cfg p1 e)) ∧ in_range es (erase_from_queue cfg p1 e) ∧
  entries p ≡ₚ e :: entries (erase_from_queue cfg p1 e).
Proof.
  intros Hok He [Hn Hin]. unfold erase_from_queue. cbn [unapplied_transactions with_queue]. rewrite He.
  assert (e ∈ entries p) as Hep by (apply Hin; by left). rewrite fmap_cons in Hn. apply NoDup_cons in Hn as [Hne Hn].
  pose proof (erase_entry_perm _ _ e Hok Hep) as Hp. split; [by apply erase_entry_ok|]. split; [|done]. split; [done|].
  intros x Hx. cbn. rewrite ?He. apply list_elem_of_filter. split; [|apply Hin; by right]. intros Heq. destruct Hne. rewrite <- Heq.
  by apply list_elem_of_fmap_2.
Qed.

(** The rest of a loop after one entry. *)
Lemma processed_next p p1 e es l l' p' pr : ok (unapplied_transactions p) → in_range (e :: es) p → pushed p (next_func e) p1 l (Ok pr) →
  (∀ p2, ok (unapplied_transactions p2) → in_range es p2 → p2 = (if trx_exhausted pr then p1 else erase_from_queue cfg p1 e) → processed p2 es p' l') →
  processed p (e :: es) p' (l ++ l').
Proof.
  intros Hok Hr [Hq [Hl _]] Hrest. destruct (trx_exhausted pr).
  - destruct (Hrest p1) as [H1 H2 H3 H4]; [by rewrite Hq| |done|].
    { destruct Hr as [Hn Hin]. rewrite fmap_cons in Hn. apply NoDup_cons in Hn as [_ Hn]. split; [done|]. rewrite Hq. intros x Hx. apply Hin. by right. }
    rewrite Hq in *. split; [done| |done|].
    + by rewrite answered_app, Hl.
    + intros x Hx Hni. apply H4; [done|]. rewrite fmap_cons in Hni. set_solver.
  - destruct (processed_erase p p1 e es Hok Hq Hr) as (Hok2 & Hr2 & Hp). destruct (Hrest _ Hok2 Hr2 eq_refl) as [H1 H2 H3 H4]. split; [done| | |].
    + rewrite (callbacks_perm _ _ Hp), callbacks_cons, answered_app, Hl, H2. by rewrite app_assoc.
    + intros x Hx. rewrite Hp. right. auto.
    + intros x Hx Hni. rewrite fmap_cons in Hni. apply H4; [|set_solver]. rewrite Hp in Hx. apply elem_of_cons in Hx as [->|?]; [set_solver|done].
Qed.

Lemma process_unapplied_loop_processed es p producing deadline interrupt envs i p' l b :
  ok (unapplied_transactions p) → in_range es p →
  process_unapplied_loop cfg p producing deadline interrupt envs i es = (p', l, b) → processed p es p' l.
Proof.
  revert p i p' l b. induction es as [|e es IH]; intros p i p' l b Hok Hr; cbn; [intros [= <- <- <-]; by apply processed_stay|].
  destruct (interrupt i); [intros [= <- <- <-]; by apply processed_stay|].
  destruct (push_transaction _ _ _ _ _ _ _ _) as [[p1 l1] r] eqn:Hpush. apply push_transaction_pushed in Hpush as Hps. destruct r as [pr|x].
  - destruct (block_exhausted pr) eqn:Hbe.
    + intros [= <- <- <-]. destruct Hps as [Hq [Hl Hex]]. rewrite (Hex Hbe) in Hl. destruct l1; [|done]. by apply processed_stay.
    + destruct (process_unapplied_loop _ _ _ _ _ _ _ _) as [[p2 l2] b2] eqn:Hl. intros [= <- <- <-].
      apply (processed_next _ _ _ _ _ _ _ _ Hok Hr Hps). intros p3 Hok3 Hr3 ->. by eapply IH.
  - destruct (process_unapplied_loop _ _ _ _ _ _ _ _) as [[p2 l2] b2] eqn:Hl. intros [= <- <- <-].
    destruct Hps as [Hq ->]. apply (processed_next p p1 e es [] l2 p2 (PushResult false true false) Hok Hr); [done|].
    intros p3 Hok3 Hr3 ->. by eapply IH.
Qed.

Lemma process_incoming_loop_processed es p producing deadline interrupt envs i p' l b :
  ok (unapplied_transactions p) → in_range es p →
  process_incoming_loop cfg p producing deadline interrupt envs i es = (p', l, b) → processed p es p' l.
Proof.
  revert p i p' l b. induction es as [|e es IH]; intros p i p' l b Hok Hr; cbn; [intros [= <- <- <-]; by apply processed_stay|].
  destruct (interrupt i); [intros [= <- <- <-]; by apply processed_stay|].
  destruct (push_transaction _ _ _ _ _ _ _ _) as [[p1 l1] r] eqn:Hpush. apply push_transaction_pushed in Hpush as Hps. destruct r as [pr|x].
  - destruct (block_exhausted pr) eqn:Hbe.
    + destruct Hps as [Hq [Hl Hex]]. rewrite (Hex Hbe) in *. intros [= <- <- <-]. destruct l1; [|done]. by apply processed_stay.
    + destruct (process_incoming_loop _ _ _ _ _ _ _ _) as [[p2 l2] b2] eqn:Hl. intros [= <- <- <-].
      apply (processed_next _ _ _ _ _ _ _ _ Hok Hr Hps). intros p3 Hok3 Hr3 ->. by eapply IH.
  - destruct Hps as [Hq ->]. intros [= <- <- <-]. by apply processed_stay.
Qed.

(** ** Blocks *)

(** The callbacks that were waiting are answered or still wait, each as often as before. *)
Definition answers_balance p l p' : Prop :=
  ok (unapplied_transactions p') ∧ callbacks (entries p) ≡ₚ answered l ++ callbacks (entries p').

Lemma balance_stay p p' : ok (unapplied_transactions p) → unapplied_transactions p' = unapplied_transactions p → answers_balance p [] p'.
Proof. intros Hok He. split; by rewrite He. Qed.

Lemma balance_app p l p1 l1 p2 : answers_balance p l p1 → answers_balance p1 l1 p2 → answers_balance p (l ++ l1) p2.
Proof. intros [_ H1] [H2 H3]. split; [done|]. by rewrite H1, H3, answered_app, app_assoc. Qed.

Lemma processed_balance p es p' l : processed p es p' l → answers_balance p l p'.
Proof. intros [H1 H2 _ _]. done. Qed.

Lemma start_block_process_balance p producing be p' l r : ok (unapplied_transactions p) → start_block_process cfg p producing be = (p', l, r) →
  answers_balance p l p' ∧ ∀ e, e ∈ entries p' → e ∈ entries p.
Proof.
  intros Hok. unfold start_block_process. destruct (ranges_in p Hok) as (Hu & Hi & Hd).
  destruct (if producing then _ else _) as [[p1 l1] more] eqn:H1.
  assert (processed p (unapplied_range (unapplied_transactions p)) p1 l1) as Hp1.
  { destruct producing; [by eapply process_unapplied_loop_processed|]. simplify_eq. by apply processed_stay. }
  assert (∀ e, e ∈ entries p1 → e ∈ entries p) as Hsub by apply Hp1.
  destruct more; cbn [negb]; [|intros [= <- <- <-]; split; [by eapply processed_balance|done]].
  destruct (be_quitting be); [intros [= <- <- <-]; split; [by eapply processed_balance|done]|].
  destruct (_ || _); [intros [= <- <- <-]; split; [by eapply processed_balance|done]|].
  destruct (process_incoming_trxs _ _ _ _ _ _ _) as [[p2 l2] r2] eqn:H2. intros [= <- <- <-].
  assert (processed p1 (incoming_range (unapplied_transactions p)) p2 l2) as Hp2.
  { eapply process_incoming_loop_processed; [apply Hp1| |done]. destruct Hi as [Hn Hin]. split; [done|]. intros e He.
    apply (pr_others _ _ _ _ Hp1); auto. }
  split; [eapply balance_app; eapply processed_balance; done|]. intros e He. apply Hsub, Hp2, He.
Qed.

Lemma start_block_balance p producing be p' l r : ok (unapplied_transactions p) →
  start_block_transactions cfg p producing be = (p', l, r) → answers_balance p l p' ∧ (∀ e, e ∈ entries p' → e ∈ entries p) ∧
  ((∀ i, be_interrupt_expired be i = false) → Forall (λ e, ¬ is_expired (be_block_time be) e) (entries p')).
Proof.
  intros Hok. unfold start_block_transactions, remove_expired_trxs.
  set (p0 := with_fails p _). change (unapplied_transactions p0) with (unapplied_transactions p).
  destruct (clear_expired_ok _ (unapplied_transactions p) (be_block_time be) (be_interrupt_expired be) Hok) as (q1 & b & l1 & ms & -> & Hex).
  rewrite bind_ok. set (p1 := with_queue p0 q1).
  assert (answers_balance p l1 p1) as Hb1 by (split; [apply Hex|by eapply expired_callbacks]).
  assert (∀ e, e ∈ entries p1 → e ∈ entries p) as Hs1.
  { intros e. apply sublist_subseteq, (ex_order _ _ _ _ _ _ _ _ _ Hex). }
  destruct b.
  2: { intros [= <- <- <-]. split; [done|]. split; [done|]. intros Hno.
       destruct (ex_rest _ _ _ _ _ _ _ _ _ Hex) as (gone & _ & _ & _ & _ & _ & _ & Hy). by rewrite Hno in Hy; specialize (Hy eq_refl). }
  assert (Forall (λ e, ¬ is_expired (be_block_time be) e) (entries p1)) as Hne by (by apply Hex).
  destruct (remove_expired _ _ _ _) as [b [[|]|x]]; [|by intros [= <- <- <-]..].
  destruct (start_block_process _ _ _ _) as [[p2 l2] r2] eqn:H2. intros [= <- <- <-].
  apply start_block_process_balance in H2 as [Hb2 Hs2]; [|apply Hex]. split; [by eapply balance_app|]. split; [by auto|].
  intros _. rewrite Forall_forall in *. auto.
Qed.

(** ** Incoming transactions *)

(** The size of the transaction is within the limit, or it is queued already. *)
Definition room (q : trx_queue) trx : Prop :=
  find_trx q (meta_id trx) ≠ None ∨
  u64 (size_in_bytes q + calc_size (sizeof_transaction_metadata cfg) trx) < max_transaction_queue_size q.

(** The metadata of an incoming transaction is a new object. *)
Definition new_object (q : trx_queue) trx : Prop := ∀ e, e ∈ queue_entries q → meta_ptr (trx_meta e) ≠ meta_ptr trx.

Definition received p (c : Z) l p' : Prop :=
  ok (unapplied_transactions p') ∧ c :: callbacks (entries p) ≡ₚ answered l ++ callbacks (entries p').

Lemma received_answered p c p' x : ok (unapplied_transactions p) → unapplied_transactions p' = unapplied_transactions p → received p c [Answer c x] p'.
Proof. intros Hok He. split; by rewrite He. Qed.

Lemma queue_incoming_received p trx api rft c p' l x : ok (unapplied_transactions p) → room (unapplied_transactions p) trx →
  new_object (unapplied_transactions p) trx → queue_incoming cfg p trx api rft c = (p', l, x) → received p c l p' ∧ x = None.
Proof.
  intros Hok Hroom Hfresh. unfold queue_incoming, add_incoming. destruct (find_trx _ _) as [e|] eqn:Hf.
  - apply find_trx_Some in Hf as [Hin _]. rewrite (proj2 (Z.eqb_neq _ _)) by (by apply Hfresh). intros [= <- <- <-]. by split.
  - destruct Hroom as [?|Hroom]; [done|]. set (e := UnappliedTransaction _ _ _ _).
    destruct (insert_entry _ _ _) as [q1 x1] eqn:Hins. intros [= <- <- <-].
    destruct (insert_entry_new _ _ e _ _ Hf Hins) as [He _].
    assert (x1 = None) as ->.
    { unfold insert_entry, queue_added in Hins. change (entry_id e) with (meta_id trx) in Hins. rewrite Hf in Hins. cbn [trx_meta e] in Hins.
      cbn [size_in_bytes max_transaction_queue_size with_entries] in Hins. rewrite (proj2 (Z.ltb_lt _ _) Hroom) in Hins.
      by destruct (is_incoming _); simplify_eq. }
    split; [|done]. split; [by eapply insert_entry_ok|]. cbn [unapplied_transactions with_queue]. rewrite He, callbacks_app. cbn.
    apply Permutation_cons_append.
Qed.

Lemma process_incoming_received p producing building known bt deadline trx api rft c env p' l b :
  ok (unapplied_transactions p) → room (unapplied_transactions p) trx → new_object (unapplied_transactions p) trx →
  process_incoming_transaction_async cfg p producing building known bt deadline trx api rft c env = (p', l, b) → received p c l p'.
Proof.
  intros Hok Hroom Hfresh. unfold process_incoming_transaction_async.
  destruct (_ <? _); [intros [= <- <- <-]; by apply received_answered|]. destruct known; [intros [= <- <- <-]; by apply received_answered|].
  destruct building; cbn [negb].
  2: { destruct (queue_incoming _ _ _ _ _ _) as [[p1 l1] x] eqn:Hq. intros [= <- <- <-]. by eapply queue_incoming_received. }
  destruct (push_transaction _ _ _ _ _ _ _ _) as [[p1 l1] r] eqn:Hpush. apply push_transaction_pushed in Hpush as [Hq Hl]. destruct r as [pr|x].
  - destruct Hl as [Hl _]. destruct (trx_exhausted pr).
    + destruct l1; [|done]. rewrite <- Hq in Hok, Hroom, Hfresh. destruct (queue_incoming _ _ _ _ _ _) as [[p2 l2] x] eqn:Hqi.
      destruct (queue_incoming_received _ _ _ _ _ _ _ _ Hok Hroom Hfresh Hqi) as [Hr ->]. intros [= <- <- <-].
      unfold received in *. by rewrite <- Hq.
    + intros [= <- <- <-]. split; [by rewrite Hq|]. by rewrite Hl, Hq.
  - subst l1. intros [= <- <- <-]. by apply received_answered.
Qed.

(** ** Transactions of blocks *)

Lemma insert_silent q e : ok q → is_incoming (trx_type e) = false → next_func e = None →
  ok (insert_entry (sizeof_transaction_metadata cfg) q e).1 ∧
  callbacks (queue_entries (insert_entry (sizeof_transaction_metadata cfg) q e).1) = callbacks (queue_entries q).
Proof.
  intros Hok Hi Hn. destruct (insert_entry _ q e) as [q1 x] eqn:Hins.
  assert (x = None) as -> by (unfold insert_entry, queue_added in Hins; rewrite Hi in Hins; by repeat case_match; simplify_eq).
  split; [by eapply insert_entry_ok|]. cbn [fst]. destruct (find_trx q (entry_id e)) eqn:Hf.
  - rewrite (insert_entry_old _ _ _ _ Hf) in Hins. by simplify_eq.
  - destruct (insert_entry_new _ _ _ _ _ Hf Hins) as [-> _]. rewrite callbacks_app. cbn. rewrite Hn. apply app_nil_r.
Qed.

Lemma add_aborted_silent q trxs : ok q →
  ok (add_aborted (sizeof_transaction_metadata cfg) q trxs) ∧
  callbacks (queue_entries (add_aborted (sizeof_transaction_metadata cfg) q trxs)) = callbacks (queue_entries q).
Proof.
  revert q. induction trxs as [|trx trxs IH]; intros q Hok; [done|]. cbn.
  destruct (insert_silent q (UnappliedTransaction trx aborted false None) Hok) as [H1 H2]; [done|done|]. rewrite <- H2. by apply IH.
Qed.

Lemma on_accepted_block_balance p ids now p' l x : ok (unapplied_transactions p) → on_accepted_block cfg p ids now = (p', l, x) → answers_balance p l p'.
Proof.
  intros Hok. unfold on_accepted_block. destruct (clear_applied _ _ _) as [q l1] eqn:Hc. destruct (sb_on_block _ _ _) as [b x1].
  intros [= <- <- <-]. apply clear_applied_ok in Hc; [|done]. split; [apply Hc|by eapply applied_callbacks].
Qed.

(** ** Runs *)

(** What happens to the producer plugin: incoming transactions with a new callback, the start of blocks, blocks that are accepted or aborted, and transactions of
    blocks of another branch. The lists are the callbacks that came and the answers that were sent. *)
Inductive run p0 : list Z → list answer → producer → Prop :=
| run_start : run p0 [] [] p0
| run_incoming cs l p producing building known bt deadline trx api rft c env p' l' b :
    run p0 cs l p → room (unapplied_transactions p) trx → new_object (unapplied_transactions p) trx →
    process_incoming_transaction_async cfg p producing building known bt deadline trx api rft c env = (p', l', b) →
    run p0 (cs ++ [c]) (l ++ l') p'
| run_block cs l p producing be p' l' r :
    run p0 cs l p → start_block_transactions cfg p producing be = (p', l', r) → run p0 cs (l ++ l') p'
| run_accepted cs l p ids now p' l' x :
    run p0 cs l p → on_accepted_block cfg p ids now = (p', l', x) → run p0 cs (l ++ l') p'
| run_aborted cs l p trxs : run p0 cs l p → run p0 cs l (abort_block cfg p trxs)
| run_forked cs l p trx : run p0 cs l p → run p0 cs l (on_forked_trx cfg p trx).

Lemma run_balance p0 cs l p max : unapplied_transactions p0 = queue_init max → run p0 cs l p →
  ok (unapplied_transactions p) ∧ cs ≡ₚ answered l ++ callbacks (entries p).
Proof.
  intros H0. induction 1 as [|cs l p producing building known bt deadline trx api rft c env p' l' b _ [Hok IH] Hroom Hfresh Hrun
    |cs l p producing be p' l' r _ [Hok IH] Hrun|cs l p ids now p' l' x _ [Hok IH] Hrun|cs l p trxs _ [Hok IH]|cs l p trx _ [Hok IH]].
  - rewrite H0. split; [|done]. split; [constructor|done|done].
  - apply process_incoming_received in Hrun as [Hok' Hc]; [|done..]. split; [done|].
    rewrite answered_app, <- app_assoc, <- Hc, IH, <- app_assoc. f_equiv. symmetry. apply Permutation_cons_append.
  - apply start_block_balance in Hrun as [[Hok' Hc] _]; [|done]. split; [done|]. by rewrite answered_app, <- app_assoc, <- Hc, IH.
  - apply on_accepted_block_balance in Hrun as [Hok' Hc]; [|done]. split; [done|]. by rewrite answered_app, <- app_assoc, <- Hc, IH.
  - destruct (add_aborted_silent (unapplied_transactions p) trxs Hok) as [H1 H2]. split; [done|]. by rewrite IH, <- H2.
  - destruct (insert_silent (unapplied_transactions p) (UnappliedTransaction trx forked false None) Hok) as [H1 H2]; [done|done|].
    split; [done|]. by rewrite IH, <- H2.
Qed.

Lemma callbacks_twice es e e' c : e ∈ es → e' ∈ es → e ≠ e' → next_func e = Some c → next_func e' = Some c → ¬ NoDup (callbacks es).
Proof.
  intros He He' Hne Hc Hc' Hn. apply elem_of_Permutation in He as [es1 Hp]. rewrite Hp in He'. apply elem_of_cons in He' as [->|He']; [done|].
  rewrite (callbacks_perm _ _ Hp), callbacks_cons, Hc in Hn. apply NoDup_cons in Hn as [Hni _]. destruct Hni. apply list_elem_of_omap. by exists e'.
Qed.

End Theory.

(** C14: In every run of the producer plugin, over incoming transactions, new blocks in which waiting and incoming transactions run or are interrupted, accepted,
    aborted and forked blocks, and whatever the controller does with a transaction: as long as the queue has room for the incoming transactions, every callback that came
    with a transaction was answered exactly once or waits in the queue, once; the ids in the queue are distinct and its counters are those of its entries. *)
Theorem clients_are_answered_once cfg p0 max cs l p :
  unapplied_transactions p0 = queue_init max → run cfg p0 cs l p →
  answered l ++ callbacks (queue_entries (unapplied_transactions p)) ≡ₚ cs ∧
  NoDup (entry_id <$> queue_entries (unapplied_transactions p)) ∧
  incoming_count (unapplied_transactions p) = u64 (incoming_number (queue_entries (unapplied_transactions p))) ∧
  size_in_bytes (unapplied_transactions p) = u64 (total_size (sizeof_transaction_metadata cfg) (queue_entries (unapplied_transactions p))).
Proof. intros H0 Hrun. destruct (run_balance cfg p0 cs l p max H0 Hrun) as [[H1 H2 H3] Hc]. by split. Qed.

(** At the start of a block, clients of transactions that have expired get their answer: if the removal of expired transactions is not interrupted, the queue
    has afterwards only transactions that expire after the time of the block, and every callback of an expired one has been answered, provided that
    no two transactions came with the same callback. *)
Theorem expired_clients_are_answered cfg p0 max cs l p producing be p' l' r :
  unapplied_transactions p0 = queue_init max → run cfg p0 cs l p → NoDup cs →
  start_block_transactions cfg p producing be = (p', l', r) → (∀ i, be_interrupt_expired be i = false) →
  (∀ e, e ∈ queue_entries (unapplied_transactions p') → be_block_time be < expiration (trx_meta e) * 1000000) ∧
  ∀ e c, e ∈ queue_entries (unapplied_transactions p) → next_func e = Some c → expiration (trx_meta e) * 1000000 <= be_block_time be → c ∈ answered l'.
Proof.
  intros H0 Hrun Hnd Hsb Hno. destruct (run_balance cfg p0 cs l p max H0 Hrun) as [Hok Hc].
  destruct (start_block_balance cfg p producing be p' l' r Hok Hsb) as ([_ Hb] & Hsub & Hne). specialize (Hne Hno).
  rewrite Forall_forall in Hne. unfold is_expired in Hne. split; [intros e He; specialize (Hne e He); lia|]. intros e c He Hn Hex.
  assert (c ∈ callbacks (queue_entries (unapplied_transactions p))) as Hin by (apply list_elem_of_omap; by exists e).
  rewrite Hb, elem_of_app in Hin. destruct Hin as [?|(e' & He' & Hn')%list_elem_of_omap]; [done|exfalso].
  rewrite Hc in Hnd. apply NoDup_app in Hnd as (_ & _ & Hnd). eapply (callbacks_twice _ e e' c); eauto. intros <-. by apply (Hne e).
Qed.

Lemma add_incoming_refused sizeof q trx api rft c : find_trx q (meta_id trx) = None →
  max_transaction_queue_size q <= u64 (size_in_bytes q + calc_size sizeof trx) →
  ∃ count, add_incoming sizeof q trx api rft (Some c) =
    (TrxQueue (queue_entries q ++ [UnappliedTransaction trx (if api then incoming_api else incoming_p2p) rft (Some c)])
       (max_transaction_queue_size q) (size_in_bytes q) count, Some tx_resource_exhaustion, []).
Proof.
  intros Hf Hfull. unfold add_incoming, insert_entry. rewrite Hf. unfold entry_id. cbn [trx_meta]. rewrite Hf. unfold queue_added.
  cbn [with_entries size_in_bytes max_transaction_queue_size queue_entries incoming_count trx_meta trx_type].
  rewrite (proj2 (Z.ltb_ge _ _) Hfull). destruct api; by eexists.
Qed.

Lemma clear_applied_last sizeof q es e : queue_entries q = es ++ [e] → entry_id e ∉ entry_id <$> es →
  clear_applied sizeof q [entry_id e] = (erase_entry sizeof q e, answer_next (next_func e) (Some tx_duplicate)) ∧ queue_entries (erase_entry sizeof q e) = es.
Proof.
  intros Hq Hn. assert (find_trx q (entry_id e) = Some e) as Hf.
  { unfold find_trx. rewrite Hq. clear Hq. induction es as [|x es IH]; cbn; [by rewrite Z.eqb_refl|].
    rewrite fmap_cons, not_elem_of_cons in Hn. destruct Hn as [Hx Hn]. rewrite (proj2 (Z.eqb_neq _ _) (not_eq_sym Hx)). by apply IH. }
  split.
  - unfold clear_applied. destruct (queue_entries q) eqn:Heq; [by destruct es|]. cbn [clear_applied_loop]. rewrite Hf. by rewrite app_nil_r.
  - unfold erase_entry. cbn [queue_entries with_entries queue_removed]. rewrite Hq, filter_app. rewrite (filter_cons_False _ e) by (intros H; by apply H).
    rewrite filter_nil, app_nil_r. clear Hq Hf. induction es as [|x es IH]; [done|]. rewrite fmap_cons, not_elem_of_cons in Hn.
    rewrite filter_cons_True by (apply not_eq_sym, Hn). f_equal. apply IH. tauto.
Qed.

(** C40: an incoming transaction for which the queue has no room is refused, but only after its entry was inserted. In every state that a run reaches in which the queue
    had room so far, for a transaction that is not expired, not known and not queued and that arrives while no block is built: the client is told that the queue is
    full, and the entry stays in the queue with the client's callback. When a block with the transaction is accepted the client gets a second answer; the entries are
    then again those of before, but the size that was never added has been subtracted, modulo 2^64: the size is no longer that of the entries. *)
Theorem refused_client_is_answered_twice cfg p0 max cs l p producing bt deadline trx api rft c env now p1 l1 b p2 l2 x :
  unapplied_transactions p0 = queue_init max → run cfg p0 cs l p →
  let q := unapplied_transactions p in let size := calc_size (sizeof_transaction_metadata cfg) trx in
  bt <= expiration trx * 1000000 → find_trx q (meta_id trx) = None → max_transaction_queue_size q <= u64 (size_in_bytes q + size) →
  process_incoming_transaction_async cfg p producing false false bt deadline trx api rft c env = (p1, l1, b) →
  on_accepted_block cfg p1 [meta_id trx] now = (p2, l2, x) →
  l1 = [Answer c (Some tx_resource_exhaustion)] ∧
  queue_entries (unapplied_transactions p1) = queue_entries q ++ [UnappliedTransaction trx (if api then incoming_api else incoming_p2p) rft (Some c)] ∧
  l2 = [Answer c (Some tx_duplicate)] ∧ queue_entries (unapplied_transactions p2) = queue_entries q ∧
  size_in_bytes (unapplied_transactions p2) = u64 (total_size (sizeof_transaction_metadata cfg) (queue_entries q) - size).
Proof.
  intros H0 Hrun q size Hexp Hf Hfull. destruct (run_balance cfg p0 cs l p max H0 Hrun) as [[_ _ Hsize] _]. fold q in Hsize.
  destruct (add_incoming_refused (sizeof_transaction_metadata cfg) q trx api rft c Hf Hfull) as (count & Hadd).
  unfold process_incoming_transaction_async. rewrite (proj2 (Z.ltb_ge _ _) Hexp). cbn [negb]. unfold queue_incoming. fold q. rewrite Hadd. intros [= <- <- <-].
  unfold on_accepted_block. cbn [unapplied_transactions with_queue]. apply find_trx_None in Hf. set (e := UnappliedTransaction _ _ _ _).
  destruct (clear_applied_last (sizeof_transaction_metadata cfg)
    (TrxQueue (queue_entries q ++ [e]) (max_transaction_queue_size q) (size_in_bytes q) count) (queue_entries q) e eq_refl Hf) as [Hc He].
  change (entry_id e) with (meta_id trx) in Hc. rewrite Hc. destruct (sb_on_block _ _ _) as [b2 x2]. intros [= <- <- <-].
  cbn [unapplied_transactions queue_entries]. repeat split; [done|].
  cbn [erase_entry with_entries queue_removed size_in_bytes trx_meta e]. fold size. rewrite Hsize. unfold u64. by rewrite Zminus_mod_idemp_l.
Qed.
