(* ===== verification/ProducerExample.v ===== *)
(** * Waiting transactions on concrete states

    Two clients send transactions to a node with a small queue, one is run in the next block and one expires: the hypotheses of the theorems on the producer plugin and
    on subjective billing hold there. A queue that is too small for a transaction shows what a rejection does. *)

From S2P Require Import Prelude ResourceLimits TransactionQueue TransactionQueueTheory SubjectiveBilling SubjectiveBillingTheory ProducerTransactions ProducerTheory.
From stdpp Require Import gmap list.
Open Scope Z_scope.

Module ProducerExample.

Definition cfg : producer_config := ProducerConfig false false 30 5000 1024 200.

Definition alice : Z := 1.

(** Transactions of 200 + 2 * size bytes in the queue. *)
Definition trx (ptr id expires size : Z) : transaction_metadata := TransactionMetadata ptr id input alice expires size 0.

Definition p0 : producer := Producer (queue_init 1000) (sb_init 17280) (AccountFailures ∅ 3 0 1).

(** The controller accepts a transaction in 150 us, or runs out of time; or the transaction fails. *)
Definition env_with (r : result push_trace) : push_env := PushEnv 10000000 10000000 10000100 200000 1000000 150000 false 0 0 (λ _ _, r).
Definition accepts : push_env := env_with (Ok (PushTrace None 150 200000 1000000)).
Definition times_out : push_env := env_with (Ok (PushTrace (Some deadline_exception) 30000 200000 1000000)).
Definition fails : push_env := env_with (Ok (PushTrace (Some eosio_assert_message_exception) 90 200000 1000000)).

Definition never (_ : nat) : bool := false.

Definition block (time : Z) (e : push_env) : block_env := BlockEnv 7 time 10400000 10000000 never never never never (λ _, e) (λ _, e) false false 200000 1000000.

Definition step_in p t c env := process_incoming_transaction_async cfg p false true false 10000000 10400000 t false false c env.
Definition step_idle p t c := process_incoming_transaction_async cfg p false false false 10000000 10400000 t false false c accepts.

(** Client 1 is answered at once, clients 2 and 3 wait. *)
Definition r1 := step_in p0 (trx 101 1 100 10) 1 accepts.
Definition r2 := step_in r1.1.1 (trx 102 2 15 10) 2 times_out.
Definition r3 := step_idle r2.1.1 (trx 103 3 100 20) 3.
(** A block at 20 s: client 2 has expired, the transaction of client 3 runs. *)
Definition r4 := start_block_transactions cfg r3.1.1 true (block 20000000 accepts).

Lemma triple {A B C} (x : A * B * C) : x = (x.1.1, x.1.2, x.2).
Proof. by destruct x as [[??]?]. Qed.

Lemma new_object_dec (q : trx_queue) t : forallb (λ e, negb (meta_ptr (trx_meta e) =? meta_ptr t)) (queue_entries q) = true → new_object q t.
Proof. rewrite forallb_forall. intros H e He%list_elem_of_In. specialize (H e He). apply negb_true_iff, Z.eqb_neq in H. done. Qed.

Lemma nodup_clients : NoDup [1; 2; 3].
Proof. apply (bool_decide_unpack _). reflexivity. Qed.

Lemma three_clients : run cfg p0 [1; 2; 3] (r1.1.2 ++ r2.1.2 ++ r3.1.2) r3.1.1.
Proof.
  change [1; 2; 3] with ((([] ++ [1]) ++ [2]) ++ [3]). rewrite app_assoc. change (r1.1.2 ++ r2.1.2) with (([] ++ r1.1.2) ++ r2.1.2).
  eapply run_incoming; [eapply run_incoming; [eapply run_incoming; [apply run_start| | |apply triple]| | |apply triple]| | |apply triple];
    (apply new_object_dec; vm_compute; reflexivity) || (right; vm_compute; reflexivity).
Qed.

Lemma clients_are_answered_once_witness :
  answered (r1.1.2 ++ r2.1.2 ++ r3.1.2) = [1] ∧ callbacks (queue_entries (unapplied_transactions r3.1.1)) = [2; 3] ∧
  answered (r1.1.2 ++ r2.1.2 ++ r3.1.2) ++ callbacks (queue_entries (unapplied_transactions r3.1.1)) ≡ₚ [1; 2; 3].
Proof.
  split; [vm_compute; reflexivity|]. split; [vm_compute; reflexivity|].
  apply (clients_are_answered_once cfg p0 1000 [1; 2; 3] _ r3.1.1 eq_refl three_clients).
Defined.

Lemma expired_clients_are_answered_witness :
  answered r4.1.2 = [2; 3] ∧ r4.2 = Ok succeeded ∧ queue_entries (unapplied_transactions r4.1.1) = [] ∧ 2 ∈ answered r4.1.2.
Proof.
  split; [vm_compute; reflexivity|]. split; [vm_compute; reflexivity|]. split; [vm_compute; reflexivity|].
  eapply (proj2 (expired_clients_are_answered cfg p0 1000 [1; 2; 3] _ r3.1.1 true (block 20000000 accepts) _ _ _ eq_refl three_clients
    nodup_clients (triple _) (λ _, eq_refl)) (UnappliedTransaction (trx 102 2 15 10) incoming_p2p false (Some 2)) 2).
  - vm_compute. left.
  - reflexivity.
  - vm_compute. discriminate.
Defined.

(** A transaction for which the queue has no room is refused and answered, and stays in the queue all the same: the next block runs it and its client gets a second
    answer. Its size was not added but is subtracted when it leaves, so that the size of the empty queue wraps around and a small transaction is refused, although the
    queue is empty. *)
Theorem refused_transaction_runs_anyway :
  let big := trx 101 1 100 450 in
  let s1 := step_idle p0 big 1 in
  let s2 := start_block_transactions cfg s1.1.1 true (block 20000000 accepts) in
  let s3 := step_idle s2.1.1 (trx 102 2 100 10) 2 in
  s1.1.2 = [Answer 1 (Some tx_resource_exhaustion)] ∧
  entry_id <$> queue_entries (unapplied_transactions s1.1.1) = [1] ∧ size_in_bytes (unapplied_transactions s1.1.1) = 0 ∧
  s2.1.2 = [Answer 1 None] ∧
  queue_entries (unapplied_transactions s2.1.1) = [] ∧ size_in_bytes (unapplied_transactions s2.1.1) = 2 ^ 64 - 1100 ∧
  s3.1.2 = [Answer 2 (Some tx_resource_exhaustion)].
Proof. vm_compute. repeat split. Qed.

Lemma refused_client_is_answered_twice_witness :
  let big := trx 101 1 100 450 in
  let s1 := step_idle p0 big 1 in
  let s2 := on_accepted_block cfg s1.1.1 [1] 20000000 in
  s1.1.2 = [Answer 1 (Some tx_resource_exhaustion)] ∧ s2.1.2 = [Answer 1 (Some tx_duplicate)] ∧
  queue_entries (unapplied_transactions s2.1.1) = [] ∧ size_in_bytes (unapplied_transactions s2.1.1) = 2 ^ 64 - 1100.
Proof.
  destruct (refused_client_is_answered_twice cfg p0 1000 [] [] p0 false 10000000 10400000 (trx 101 1 100 450) false false 1 accepts 20000000 _ _ _ _ _ _
    eq_refl (run_start _ _) ltac:(vm_compute; discriminate) eq_refl ltac:(vm_compute; discriminate) (triple _) (triple _)) as (H1 & _ & H3 & H4 & H5).
  split; [exact H1|]. split; [exact H3|]. split; [exact H4|]. etransitivity; [exact H5|]. vm_compute. reflexivity.
Defined.

(** The bill of the first transaction, and a failure that decays. *)
Definition b1 : subjective_billing := subjective_bill (sb_init 17280) 1 100 alice 150.
Definition b2 : subjective_billing := subjective_bill b1 2 15 alice 50.
Definition b3 : subjective_billing := (subjective_bill_failure b2 alice 90 10000000).1.

Lemma billed : rtc sb_step (sb_init 17280) b3.
Proof.
  apply (rtc_l _ _ b1); [|apply (rtc_l _ _ b2); [|apply rtc_once]].
  - apply sb_step_bill; vm_compute; discriminate.
  - apply sb_step_bill; vm_compute; discriminate.
  - apply sb_step_failure; [vm_compute; discriminate|]. split; vm_compute; done.
Qed.

Lemma subjective_bill_is_what_is_owed_witness :
  get_subjective_bill b3 alice 20000000 = Ok 290 ∧ pending_of (bill_cache b3) alice = bills (trx_cache b3) alice.
Proof.
  destruct (subjective_bill_is_what_is_owed 17280 b3 alice 20000000) as (_ & H1 & H2).
  - split; lia.
  - apply billed.
  - split; lia.
  - vm_compute. discriminate.
  - split; [|exact H1]. rewrite H2. vm_compute. reflexivity.
Defined.

Lemma expired_bills_move_witness : ∃ sb', (remove_expired b3 20000000 20000000 never).1 = sb' ∧ cache_id <$> trx_cache sb' = [1] ∧
  ∃ gone, trx_cache b3 ≡ₚ gone ++ trx_cache sb'.
Proof.
  destruct (expired_bills_move 17280 b3 20000000 20000000 never) as (sb' & r & gone & Hrun & Hp & _).
  - split; lia.
  - apply billed.
  - split; lia.
  - exists sb'. rewrite Hrun. split; [reflexivity|]. split; [|exists gone; exact Hp].
    assert (sb' = (remove_expired b3 20000000 20000000 never).1) as -> by (rewrite Hrun; reflexivity). vm_compute. reflexivity.
Defined.

End ProducerExample.
