(* ===== verification/UndoIndex.v ===== *)
(** * Tables with an undo stack ([chaindb], [undo_index.hpp])

    A table of objects under sequential ids, with unique secondary indices and a stack of undo sessions. A session does not copy the table: the objects that it changes or
    removes are kept in two lists that all sessions share, and a time stamp on each object tells whether the session has its old value already.

    An element of a list is given by the number of elements from it to the end of the list, which is what stays the same when elements are added in front: a null
    pointer, the end of the list, is 0. An object in the table or among the removed ones is given by its id, for the pointer to it. A secondary index is
    the key that it sorts by: an object is in it if it is in the table, and what the code finds out from its neighbours is whether another object has the same key.
    Memory is not modelled: nothing fails for want of it. *)

From S2P Require Import Prelude.
From stdpp Require Import gmap list.
Open Scope Z_scope.

Section UndoIndex.
Context {V K : Type} `{EqDecision K} (keys : list (V → K)).

Record node : Type := Node { item : V; mtime : Z }.

(** A copy of a value, with the time stamp and the id of its object. *)
Record old_node : Type := OldNode { old_current : Z; old_item : V; old_mtime : Z }.

Record undo_state : Type := UndoState {
  old_values_end : nat;
  removed_values_end : nat;
  old_next_id : Z;
  ctime : Z }.

(** The last session is the first of the stack. *)
Record undo_index : Type := UndoIndex {
  table : gmap Z node;
  undo_stack : list undo_state;
  old_values : list old_node;
  removed_values : list (Z * node);
  next_id : Z;
  revision : Z;
  monotonic_revision : Z }.

Implicit Types (s : undo_index) (t : gmap Z node) (u : undo_state) (id : Z) (v : V) (n : node) (e : old_node).

Definition undo_index_init : undo_index := UndoIndex ∅ [] [] [] 0 0 0.

Definition with_table s t : undo_index :=
  UndoIndex t (undo_stack s) (old_values s) (removed_values s) (next_id s) (revision s) (monotonic_revision s).

(** ** Uniqueness *)

Definition same_key v v' : bool := existsb (λ k, bool_decide (k v = k v')) keys.

(** Another object has one of the keys. *)
Definition conflict t id v : bool := existsb (λ p, negb (p.1 =? id) && same_key v (item p.2)) (map_to_list t).

(** ** Changes *)

Definition emplace s v : result (undo_index * Z) :=
  let id := next_id s in
  if conflict (table s) id v then Err logic_error
  else
    let n := Node v (match undo_stack s with [] => 0 | _ => monotonic_revision s end) in
    Ok (UndoIndex (<[id := n]> (table s)) (undo_stack s) (old_values s) (removed_values s) (id + 1) (revision s) (monotonic_revision s), id).

(** [erase_impl] and [on_remove]. *)
Definition remove s id n : undo_index :=
  let t := delete id (table s) in
  match undo_stack s with
  | [] => with_table s t
  | u :: _ =>
    if old_next_id u <=? id then with_table s t
    else UndoIndex t (undo_stack s) (old_values s) ((id, n) :: removed_values s) (next_id s) (revision s) (monotonic_revision s)
  end.

(** A copy of the object, unless the session has one; whether it was made. *)
Definition on_modify s id n : undo_index * node * bool :=
  match undo_stack s with
  | [] => (s, n, false)
  | u :: _ =>
    if ctime u <=? mtime n then (s, n, false)
    else
      let n' := Node (item n) (monotonic_revision s) in
      (UndoIndex (<[id := n']> (table s)) (undo_stack s) (OldNode id (item n) (mtime n) :: old_values s) (removed_values s) (next_id s) (revision s)
         (monotonic_revision s), n', true)
  end.

(** The modifier gives the new value, and what it throws. After a conflict the copy is put back, or the object is removed; the time stamp stays. *)
Definition modify s id (m : V → V * option exn) : undo_index * option exn :=
  match table s !! id with
  | None => (s, Some undefined_behaviour)
  | Some n =>
    let '(s, n', backup) := on_modify s id n in
    let '(v, thrown) := m (item n') in
    if conflict (table s) id v then
      let error := match thrown with Some x => Some x | None => Some logic_error end in
      if backup
      then (UndoIndex (<[id := Node (item n) (mtime n')]> (table s)) (undo_stack s) (tail (old_values s)) (removed_values s) (next_id s) (revision s)
              (monotonic_revision s), error)
      else (remove s id (Node v (mtime n')), error)
    else (with_table s (<[id := Node v (mtime n')]> (table s)), thrown)
  end.

(** [find] and [remove_object]. *)
Definition remove_object s id : result undo_index :=
  match table s !! id with
  | None => Err out_of_range
  | Some n => Ok (remove s id n)
  end.

(** ** Sessions *)

Definition add_session s : undo_index :=
  UndoIndex (table s)
    (UndoState (length (old_values s)) (length (removed_values s)) (next_id s) (monotonic_revision s + 1) :: undo_stack s)
    (old_values s) (removed_values s) (next_id s) (revision s + 1) (monotonic_revision s + 1).

(** The elements before an end, and those from it on. *)
Definition before {A} (l : list A) (e : nat) : list A := take (length l - e) l.
Definition from {A} (l : list A) (e : nat) : list A := drop (length l - e) l.

Definition alter_removed (f : node → node) id (r : list (Z * node)) : list (Z * node) :=
  (λ p, if p.1 =? id then (p.1, f p.2) else p) <$> r.

(** Puts back one old value, in the table or in the removed object. *)
Definition restore_old u e (tr : gmap Z node * list (Z * node)) : gmap Z node * list (Z * node) :=
  let n := Node (old_item e) (old_mtime e) in
  if old_mtime e <? ctime u then
    match tr.1 !! old_current e with
    | Some _ => (<[old_current e := n]> tr.1, tr.2)
    | None => (tr.1, alter_removed (λ _, n) (old_current e) tr.2)
    end
  else tr.

(** Puts back one removed object; one that does not fit into the indices is lost. *)
Definition restore_removed u (p : Z * node) t : gmap Z node :=
  if p.1 <? old_next_id u then
    match t !! p.1 with
    | Some _ => t
    | None => if conflict t p.1 (item p.2) then t else <[p.1 := p.2]> t
    end
  else t.

Definition undo s : undo_index :=
  match undo_stack s with
  | [] => s
  | u :: us =>
    let t := filter (λ p, p.1 < old_next_id u) (table s) in
    let '(t, r) := foldl (λ tr e, restore_old u e tr) (t, removed_values s) (before (old_values s) (old_values_end u)) in
    let t := foldl (λ t p, restore_removed u p t) t (before r (removed_values_end u)) in
    UndoIndex t us (from (old_values s) (old_values_end u)) (from r (removed_values_end u)) (old_next_id u) (revision s - 1) (monotonic_revision s)
  end.

(** Drops what the last session keeps and [session] does not need. *)
Fixpoint compress_old u (t : gmap Z node) (l : list old_node) (r : list (Z * node)) : list old_node * list (Z * node) :=
  match l with
  | [] => ([], r)
  | e :: l =>
    if ctime u <=? old_mtime e then compress_old u t l r
    else
      match t !! old_current e with
      | None => compress_old u t l (alter_removed (λ _, Node (old_item e) (old_mtime e)) (old_current e) r)
      | Some _ => let '(l, r) := compress_old u t l r in (e :: l, r)
      end
  end.

Definition compress_impl s u : undo_index :=
  match undo_stack s with
  | [] => s
  | top :: _ =>
    let '(l, r) := compress_old u (table s) (before (old_values s) (old_values_end top)) (removed_values s) in
    let kept := filter (λ p, p.1 < old_next_id u) (before r (removed_values_end top)) in
    UndoIndex (table s) (undo_stack s) (l ++ from (old_values s) (old_values_end top)) (kept ++ from r (removed_values_end top)) (next_id s) (revision s)
      (monotonic_revision s)
  end.

Definition compress_last_undo_session s : undo_index :=
  match undo_stack s with [] => s | u :: _ => compress_impl s u end.

Definition dispose_undo s : undo_index :=
  UndoIndex (table s) (undo_stack s) [] [] (next_id s) (revision s) (monotonic_revision s).

Definition squash_fast s : undo_index :=
  match undo_stack s with
  | [] => s
  | _ :: us =>
    let s := match us with [] => dispose_undo s | _ => s end in
    UndoIndex (table s) us (old_values s) (removed_values s) (next_id s) (revision s - 1) (monotonic_revision s)
  end.

Definition squash s : undo_index :=
  match undo_stack s with
  | _ :: u :: _ => squash_fast (compress_impl s u)
  | _ => squash_fast s
  end.

(** [dispose] keeps the element that it starts at; the ends move by what is dropped. *)
Definition dropped (e : nat) : nat := (e - 1)%nat.

Definition shift_state (o r : nat) u : undo_state :=
  UndoState (old_values_end u - o) (removed_values_end u - r) (old_next_id u) (ctime u).

Definition drop_last {A} (k : nat) (l : list A) : list A := take (length l - k) l.

Definition commit s (rev : Z) : undo_index :=
  let rev := Z.min rev (revision s) in
  if rev =? revision s then UndoIndex (table s) [] [] [] (next_id s) (revision s) (monotonic_revision s)
  else if revision s - rev <? Z.of_nat (length (undo_stack s)) then
    let kept := take (Z.to_nat (revision s - rev)) (undo_stack s) in
    match last kept with
    | None => s
    | Some u =>
      let o := dropped (old_values_end u) in
      let r := dropped (removed_values_end u) in
      UndoIndex (table s) (shift_state o r <$> kept) (drop_last o (old_values s)) (drop_last r (removed_values s)) (next_id s) (revision s)
        (monotonic_revision s)
    end
  else s.

Definition set_revision s (rev : Z) : result undo_index :=
  match undo_stack s with
  | _ :: _ => Err logic_error
  | [] =>
    if rev <? revision s then Err logic_error
    else Ok (UndoIndex (table s) [] (old_values s) (removed_values s) (next_id s) rev (monotonic_revision s))
  end.

Fixpoint undo_times (k : nat) s : undo_index :=
  match k with O => s | S k => undo_times k (undo s) end.

(** The loop ends with the stack. *)
Definition undo_all s : undo_index := undo_times (length (undo_stack s)) s.

(** The new, old and removed objects of the last session. *)
Definition last_undo_session s : undo_index * (list (Z * node) * list old_node * list (Z * node)) :=
  match undo_stack s with
  | [] => (s, ([], [], []))
  | u :: _ =>
    let s := compress_last_undo_session s in
    (s, (map_to_list (filter (λ p, old_next_id u <= p.1) (table s)), before (old_values s) (old_values_end u),
         before (removed_values s) (removed_values_end u)))
  end.

End UndoIndex.

Arguments node : clear implicits.
Arguments old_node : clear implicits.
Arguments undo_index : clear implicits.
