(* ===== verification/UndoIndexTheory.v ===== *)
(** * Undo restores snapshots ([chaindb], [undo_index.hpp])

    The shared lists and time stamps of the undo stack implement a stack of snapshots of the whole table. The lists are seen as frames, one for each session, with the
    part of the lists that is its own; a frame and the table after it give the table before it. *)

From S2P Require Import Prelude UndoIndex.
From stdpp Require Import gmap list.
Open Scope Z_scope.

(** ** Parts of a list *)

Section Parts.
Context {A : Type}.
Implicit Types (l : list A) (e : nat).

Lemma before_from l e : before l e ++ from l e = l.
Proof. apply take_drop. Qed.

Lemma length_from l e : (e <= length l)%nat → length (from l e) = e.
Proof. intros H. unfold from. rewrite length_drop. lia. Qed.

Lemma before_cons x l e : (e <= length l)%nat → before (x :: l) e = x :: before l e.
Proof. intros H. unfold before. cbn. by replace (S (length l) - e)%nat with (S (length l - e)) by lia. Qed.

Lemma from_cons x l e : (e <= length l)%nat → from (x :: l) e = from l e.
Proof. intros H. unfold from. cbn. by replace (S (length l) - e)%nat with (S (length l - e)) by lia. Qed.

Lemma before_app k l e : (e <= length l)%nat → before (k ++ l) e = k ++ before l e.
Proof. intros H. induction k as [|x k IH]; [done|]. change ((x :: k) ++ l) with (x :: (k ++ l)). rewrite before_cons, IH; [done|]. rewrite length_app. lia. Qed.

Lemma from_app k l e : (e <= length l)%nat → from (k ++ l) e = from l e.
Proof. intros H. induction k as [|x k IH]; [done|]. change ((x :: k) ++ l) with (x :: (k ++ l)). rewrite from_cons, IH; [done|]. rewrite length_app. lia. Qed.

Lemma before_all l : before l (length l) = [].
Proof. unfold before. by rewrite Nat.sub_diag. Qed.

Lemma from_all l : from l (length l) = l.
Proof. unfold from. by rewrite Nat.sub_diag. Qed.

Lemma before_drop_last l e o : (o <= e)%nat → (e <= length l)%nat → before (drop_last o l) (e - o) = before l e.
Proof.
  intros Ho He. unfold before, drop_last. rewrite length_take, take_take. f_equal. lia.
Qed.

Lemma from_drop_last l e o : (o <= e)%nat → (e <= length l)%nat → from (drop_last o l) (e - o) = drop_last o (from l e).
Proof.
  intros Ho He. unfold from, drop_last. rewrite length_take, length_drop, skipn_firstn_comm.
  replace (length l - o - _)%nat with (e - o)%nat by lia. f_equal; [lia|f_equal; lia].
Qed.
End Parts.

Section Theory.
Context {V K : Type} `{EqDecision K} (keys : list (V → K)).

Notation node := (node V).
Notation old_node := (old_node V).
Notation undo_index := (undo_index V).
Implicit Types (s : undo_index) (t : gmap Z node) (u : undo_state) (id : Z) (v : V) (n : node) (e : old_node) (r : list (Z * node)) (ol : list old_node).

(** ** Uniqueness *)

Definition unique t : Prop := ∀ id id' n n', t !! id = Some n → t !! id' = Some n' → same_key keys (item n) (item n') = true → id = id'.

Lemma conflict_true t id v : conflict keys t id v = true ↔ ∃ id' n, id' ≠ id ∧ t !! id' = Some n ∧ same_key keys v (item n) = true.
Proof.
  unfold conflict. rewrite existsb_exists. split.
  - intros ([id' n] & Hin%list_elem_of_In & Hb). apply elem_of_map_to_list in Hin. apply andb_true_iff in Hb as [Hne Hk]. cbn in *.
    exists id', n. split; [|done]. apply negb_true_iff, Z.eqb_neq in Hne. done.
  - intros (id' & n & Hne & Hl & Hk). exists (id', n). split; [by apply list_elem_of_In, elem_of_map_to_list|]. cbn. rewrite Hk, andb_true_r.
    by apply negb_true_iff, Z.eqb_neq.
Qed.

Lemma same_key_sym v v' : same_key keys v v' = same_key keys v' v.
Proof. unfold same_key. induction keys as [|k ks IH]; [done|]. cbn. rewrite IH. f_equal. apply bool_decide_ext. naive_solver. Qed.

Lemma unique_insert t id v m : unique t → conflict keys t id v = false → unique (<[id := Node v m]> t).
Proof.
  intros Hu Hc. assert (∀ id' n, id' ≠ id → t !! id' = Some n → same_key keys v (item n) = true → False) as Hno.
  { intros id' n Hne Hl Hk. assert (conflict keys t id v = true) as ?; [|congruence]. apply conflict_true. eauto. }
  intros i j n n' [[<- <-]|[Hi Hli]]%lookup_insert_Some [[<- <-]|[Hj Hlj]]%lookup_insert_Some Hk; [done| | |by eapply Hu].
  - exfalso. eapply (Hno j); eauto.
  - exfalso. rewrite same_key_sym in Hk. eapply (Hno i); eauto.
Qed.

Lemma unique_delete t id : unique t → unique (delete id t).
Proof. intros Hu i j n n' [_ Hi]%lookup_delete_Some [_ Hj]%lookup_delete_Some. by eapply Hu. Qed.

(** ** Frames *)

Record frame : Type := Frame { f_old : list old_node; f_removed : list (Z * node); f_next : Z; f_ctime : Z }.

Definition frame_of u ol r : frame := Frame (before ol (old_values_end u)) (before r (removed_values_end u)) (old_next_id u) (ctime u).

Definition find_removed r id : option node := snd <$> find (λ p, p.1 =? id) r.

Definition old_node_of e : node := Node (old_item e) (old_mtime e).

(** The old value of an object that a session goes back to. *)
Definition find_in (c : Z) ol id : option old_node := find (λ e, (old_current e =? id) && (old_mtime e <? c)) ol.

Definition restore_in (c : Z) ol id n : node := match find_in c ol id with Some e => old_node_of e | None => n end.

Lemma find_in_Some c ol id e : find_in c ol id = Some e → e ∈ ol ∧ old_current e = id ∧ old_mtime e < c.
Proof. intros [Hin Hb]%find_some. apply list_elem_of_In in Hin. apply andb_true_iff in Hb as [??]. split; [done|lia]. Qed.

Lemma find_in_None c ol id : find_in c ol id = None → ∀ e, e ∈ ol → old_current e = id → c <= old_mtime e.
Proof.
  intros H e Hin%list_elem_of_In Hid. pose proof (find_none _ _ H e Hin) as Hb. cbn in Hb. apply andb_false_iff in Hb as [?|?]; lia.
Qed.

Lemma find_in_elem c ol e : NoDup (old_current <$> filter (λ e, old_mtime e < c) ol) → e ∈ ol → old_mtime e < c → find_in c ol (old_current e) = Some e.
Proof.
  unfold find_in. induction ol as [|x ol IH]; [by intros _ ?%elem_of_nil|]. intros Hn Hin Hlt. cbn.
  apply elem_of_cons in Hin as [<-|Hin]; [by rewrite Z.eqb_refl, (proj2 (Z.ltb_lt _ _) Hlt)|].
  destruct (decide (old_mtime x < c)) as [Hx|Hx].
  - rewrite filter_cons_True, fmap_cons in Hn by done. apply NoDup_cons in Hn as [Hx' Hn].
    rewrite (proj2 (Z.eqb_neq (old_current x) _)); [by apply IH|]. intros Heq. destruct Hx'. rewrite Heq. apply list_elem_of_fmap_2.
    by apply list_elem_of_filter.
  - rewrite filter_cons_False in Hn by done. rewrite (proj2 (Z.ltb_ge _ _)), andb_false_r by lia. by apply IH.
Qed.

(** The object in the table or among the objects that the session removed. *)
Definition current t (f : frame) id : option node :=
  match t !! id with Some n => Some n | None => find_removed (f_removed f) id end.

Definition restored (f : frame) id n : node := restore_in (f_ctime f) (f_old f) id n.

(** The table before the session. *)
Definition snapshot t (f : frame) : gmap Z node :=
  map_imap (λ id n, if id <? f_next f then Some (restored f id n) else None) (t ∪ list_to_map (f_removed f)).

Lemma find_removed_list r id : find_removed r id = list_to_map (M := gmap Z node) r !! id.
Proof.
  induction r as [|[i n] r IH]; [done|]. rewrite list_to_map_cons. unfold find_removed in *. cbn. destruct (Z.eqb_spec i id) as [->|?].
  - by rewrite lookup_insert_eq.
  - by rewrite lookup_insert_ne.
Qed.

Lemma lookup_snapshot t f id : snapshot t f !! id = if id <? f_next f then restored f id <$> current t f id else None.
Proof.
  unfold snapshot, current. rewrite map_lookup_imap, lookup_union, find_removed_list.
  destruct (t !! id), (_ !! id), (id <? f_next f); done.
Qed.

(** What holds of the last session and the table after it. *)
Record frame_ok t (f : frame) : Prop := {
  fo_removed : ∀ id n, (id, n) ∈ f_removed f → id < f_next f;
  fo_old_nodup : NoDup (old_current <$> filter (λ e, old_mtime e < f_ctime f) (f_old f));
  fo_old : ∀ e, e ∈ f_old f → old_mtime e < f_ctime f →
    old_current e < f_next f ∧ ∃ n, current t f (old_current e) = Some n ∧ f_ctime f <= mtime n;
  fo_before : ∀ id n, snapshot t f !! id = Some n → mtime n < f_ctime f;
  fo_new : ∀ id n, t !! id = Some n → f_next f <= id → f_ctime f <= mtime n }.

(** What holds of the table. *)
Record table_ok t (next mono : Z) r : Prop := {
  to_mono : 0 <= mono;
  to_unique : unique t;
  to_bounds : ∀ id n, t !! id = Some n → id < next ∧ mtime n <= mono;
  to_nodup : NoDup r.*1;
  to_out : ∀ id n, (id, n) ∈ r → t !! id = None ∧ id < next }.

(** The table and the sessions, from the last one on. *)
Fixpoint stack_ok t (next mono : Z) (us : list undo_state) ol r : Prop :=
  table_ok t next mono r ∧
  match us with
  | [] => True
  | u :: us =>
    (old_values_end u <= length ol)%nat ∧ (removed_values_end u <= length r)%nat ∧ frame_ok t (frame_of u ol r) ∧
    old_next_id u <= next ∧ ctime u <= mono ∧
    stack_ok (snapshot t (frame_of u ol r)) (old_next_id u) (ctime u - 1) us (from ol (old_values_end u)) (from r (removed_values_end u))
  end.

Definition index_ok s : Prop := stack_ok (table s) (next_id s) (monotonic_revision s) (undo_stack s) (old_values s) (removed_values s).

(** The tables before the sessions. *)
Fixpoint snapshots t (us : list undo_state) ol r : list (gmap Z node * Z) :=
  match us with
  | [] => []
  | u :: us =>
    let t := snapshot t (frame_of u ol r) in
    (t, old_next_id u) :: snapshots t us (from ol (old_values_end u)) (from r (removed_values_end u))
  end.

(** ** Undo *)

Lemma find_removed_app r r' id : find_removed (r ++ r') id = match find_removed r id with Some n => Some n | None => find_removed r' id end.
Proof.
  unfold find_removed. induction r as [|[i n] r IH]; [done|]. cbn. by destruct (i =? id).
Qed.

Lemma find_removed_Some r id n : NoDup r.*1 → find_removed r id = Some n ↔ (id, n) ∈ r.
Proof. intros Hn. rewrite find_removed_list. symmetry. by apply elem_of_list_to_map. Qed.

Lemma find_removed_None r id : find_removed r id = None ↔ ∀ n, (id, n) ∉ r.
Proof.
  rewrite find_removed_list, <- not_elem_of_list_to_map. split.
  - intros H n Hin. apply H. apply list_elem_of_fmap. by exists (id, n).
  - intros H ([? n] & -> & Hin)%list_elem_of_fmap. by apply (H n).
Qed.

Lemma find_alter_removed (g : node → node) i r id : find_removed (alter_removed g i r) id = if i =? id then g <$> find_removed r id else find_removed r id.
Proof.
  unfold find_removed, alter_removed. induction r as [|[j n] r IH]; [by destruct (i =? id)|]. cbn.
  destruct (Z.eqb_spec j i) as [->|Hne]; cbn.
  - destruct (Z.eqb_spec i id) as [->|?]; [done|]. by rewrite IH.
  - destruct (Z.eqb_spec j id) as [->|?]; [|done]. by rewrite (proj2 (Z.eqb_neq i id)) by congruence.
Qed.

Lemma alter_removed_keys g i r : (alter_removed g i r).*1 = r.*1.
Proof. unfold alter_removed. rewrite <- list_fmap_compose. apply list_fmap_ext. intros k [j n] _. cbn. by destruct (j =? i). Qed.

Lemma alter_removed_app g i r r' : alter_removed g i (r ++ r') = alter_removed g i r ++ alter_removed g i r'.
Proof. apply fmap_app. Qed.

Lemma alter_removed_out g i r : i ∉ r.*1 → alter_removed g i r = r.
Proof.
  unfold alter_removed. induction r as [|[j n] r IH]; [done|]. rewrite fmap_cons, not_elem_of_cons. cbn. intros [Hne Hi]. f_equal; [|by apply IH].
  by rewrite (proj2 (Z.eqb_neq j i)) by congruence.
Qed.

(** The first loop of [undo]. *)
Lemma restore_old_loop u ol : ∀ t r, NoDup (old_current <$> filter (λ e, old_mtime e < ctime u) ol) →
  let tr := foldl (λ tr e, restore_old u e tr) (t, r) ol in
  (∀ id, tr.1 !! id = restore_in (ctime u) ol id <$> t !! id) ∧
  (∀ id, find_removed tr.2 id = match t !! id with Some _ => find_removed r id | None => restore_in (ctime u) ol id <$> find_removed r id end) ∧
  tr.2.*1 = r.*1.
Proof.
  induction ol as [|e ol IH]; intros t r Hn.
  { cbn [foldl fst snd]. split; [|split; [|done]]; intros id; [by destruct (t !! id)|]. destruct (t !! id); [done|]. by destruct (find_removed r id). }
  change (foldl (λ tr e, restore_old u e tr) (t, r) (e :: ol)) with (foldl (λ tr e, restore_old u e tr) (restore_old u e (t, r)) ol). cbv zeta.
  assert (restore_old u e (t, r) = if old_mtime e <? ctime u then match t !! old_current e with
    | Some _ => (<[old_current e := old_node_of e]> t, r)
    | None => (t, alter_removed (λ _, old_node_of e) (old_current e) r) end else (t, r)) as -> by done.
  destruct (Z.ltb_spec (old_mtime e) (ctime u)) as [Hlt|Hge].
  - rewrite filter_cons_True, fmap_cons in Hn by done. apply NoDup_cons in Hn as [Hx Hn].
    assert (∀ id n, restore_in (ctime u) (e :: ol) id n = if old_current e =? id then old_node_of e else restore_in (ctime u) ol id n) as Hri.
    { intros id n. unfold restore_in, find_in. cbn. rewrite (proj2 (Z.ltb_lt _ _) Hlt), andb_true_r. by destruct (old_current e =? id). }
    assert (∀ n, restore_in (ctime u) ol (old_current e) n = n) as Hno.
    { intros n. unfold restore_in. destruct (find_in _ _ _) as [e'|] eqn:Hf; [|done]. apply find_in_Some in Hf as (Hin & Heq & ?). destruct Hx. rewrite <- Heq.
      apply list_elem_of_fmap_2. by apply list_elem_of_filter. }
    destruct (t !! old_current e) as [n0|] eqn:Ht.
    + destruct (IH (<[old_current e := old_node_of e]> t) r Hn) as (H1 & H2 & H3). split; [|split; [|done]]; intros id.
      * rewrite H1. destruct (Z.eqb_spec (old_current e) id) as [<-|Hne].
        -- rewrite lookup_insert_eq, Ht. cbn. by rewrite Hno, Hri, Z.eqb_refl.
        -- rewrite lookup_insert_ne by done. destruct (t !! id); [|done]. cbn. by rewrite Hri, (proj2 (Z.eqb_neq _ _)).
      * rewrite H2. destruct (Z.eqb_spec (old_current e) id) as [<-|Hne]; [by rewrite lookup_insert_eq, Ht|].
        rewrite lookup_insert_ne by done. destruct (t !! id); [done|]. destruct (find_removed r id); [|done]. cbn. by rewrite Hri, (proj2 (Z.eqb_neq _ _)).
    + destruct (IH t (alter_removed (λ _, old_node_of e) (old_current e) r) Hn) as (H1 & H2 & H3).
      split; [|split; [|by rewrite H3, alter_removed_keys]]; intros id.
      * rewrite H1. destruct (t !! id) eqn:Hid; [|done]. cbn. rewrite Hri. destruct (Z.eqb_spec (old_current e) id); [by simplify_eq|done].
      * rewrite H2, find_alter_removed. destruct (t !! id) eqn:Hid.
        -- destruct (Z.eqb_spec (old_current e) id); [by simplify_eq|done].
        -- destruct (Z.eqb_spec (old_current e) id) as [<-|Hne]; destruct (find_removed r _); cbn; [|done| |done].
           ++ by rewrite Hno, Hri, Z.eqb_refl.
           ++ by rewrite Hri, (proj2 (Z.eqb_neq _ _)).
  - rewrite filter_cons_False in Hn by lia.
    assert (∀ id n, restore_in (ctime u) (e :: ol) id n = restore_in (ctime u) ol id n) as Hri.
    { intros id n. unfold restore_in, find_in. cbn. by rewrite (proj2 (Z.ltb_ge _ _)), andb_false_r by lia. }
    destruct (IH t r Hn) as (H1 & H2 & H3). split; [|split; [|done]]; intros id.
    + rewrite H1. destruct (t !! id); [|done]. cbn. by rewrite Hri.
    + rewrite H2. destruct (t !! id); [done|]. destruct (find_removed r id); [|done]. cbn. by rewrite Hri.
Qed.

(** The second loop: nothing is lost if everything fits. *)
Lemma restore_removed_loop u l (T : gmap Z node) : unique T → ∀ t, NoDup l.*1 →
  (∀ id n, t !! id = Some n → T !! id = Some n ∧ id ∉ l.*1) → (∀ id n, (id, n) ∈ l → T !! id = Some n ∧ id < old_next_id u) →
  ∀ id, foldl (λ t p, restore_removed keys u p t) t l !! id = match t !! id with Some n => Some n | None => find_removed l id end.
Proof.
  intros HT. induction l as [|[i n] l IH]; intros t Hn Ht Hl id; [cbn; by destruct (t !! id)|].
  rewrite fmap_cons in Hn. apply NoDup_cons in Hn as [Hi Hn]. cbn [foldl]. unfold restore_removed at 2. cbn [fst snd].
  destruct (Hl i n) as [HTi Hlt]; [by left|]. rewrite (proj2 (Z.ltb_lt _ _) Hlt).
  assert (t !! i = None) as Hti.
  { destruct (t !! i) eqn:Hti; [|done]. apply Ht in Hti as [_ Hti]. rewrite fmap_cons in Hti. set_solver. }
  rewrite Hti. assert (conflict keys t i (item n) = false) as ->.
  { apply not_true_iff_false. intros (j & n' & Hne & Hj & Hk)%conflict_true. apply Ht in Hj as [Hj _]. by specialize (HT _ _ _ _ HTi Hj Hk). }
  rewrite IH; [| done | | ].
  - destruct (Z.eqb_spec i id) as [<-|Hne].
    + rewrite lookup_insert_eq, Hti. unfold find_removed. cbn. by rewrite Z.eqb_refl.
    + rewrite lookup_insert_ne by done. unfold find_removed. cbn. by rewrite (proj2 (Z.eqb_neq _ _)).
  - intros j n' [[<- <-]|[Hne Hj]]%lookup_insert_Some; [done|]. apply Ht in Hj as [? Hj]. split; [done|]. rewrite fmap_cons in Hj. set_solver.
  - intros j n' Hin. apply Hl. by right.
Qed.

Lemma assoc_eq r r' : r.*1 = r'.*1 → NoDup r.*1 → (∀ id, find_removed r id = find_removed r' id) → r = r'.
Proof.
  revert r'. induction r as [|[i n] r IH]; intros [|[j n'] r'] Hk Hn Hf; [done..|]. rewrite !fmap_cons in Hk. cbn in Hk. simplify_eq.
  rewrite fmap_cons in Hn. apply NoDup_cons in Hn as [Hi Hn]. cbn in Hi. f_equal.
  - specialize (Hf j). unfold find_removed in Hf. cbn in Hf. rewrite Z.eqb_refl in Hf. cbn in Hf. by simplify_eq.
  - assert (∀ l : list (Z * node), j ∉ l.*1 → find_removed l j = None) as Hnone.
    { intros l Hl. apply find_removed_None. intros n0 Hin. destruct Hl. apply list_elem_of_fmap. by exists (j, n0). }
    apply IH; [done|done|]. intros id. specialize (Hf id). unfold find_removed in Hf. cbn in Hf. destruct (decide (j = id)) as [<-|Hne].
    + rewrite !Hnone; congruence.
    + by rewrite (proj2 (Z.eqb_neq j id)) in Hf.
Qed.

Definition map_removed (h : Z → node → node) r : list (Z * node) := (λ p, (p.1, h p.1 p.2)) <$> r.

Lemma find_map_removed h r id : find_removed (map_removed h r) id = h id <$> find_removed r id.
Proof.
  unfold find_removed, map_removed. induction r as [|[i n] r IH]; [done|]. cbn. destruct (Z.eqb_spec i id) as [->|?]; [done|apply IH].
Qed.

Lemma map_removed_keys h r : (map_removed h r).*1 = r.*1.
Proof. unfold map_removed. rewrite <- list_fmap_compose. by apply list_fmap_ext. Qed.

Lemma map_removed_before h r k : before (map_removed h r) k = map_removed h (before r k).
Proof. unfold before, map_removed. by rewrite length_fmap, fmap_take. Qed.

Lemma map_removed_from h r k : from (map_removed h r) k = map_removed h (from r k).
Proof. unfold from, map_removed. by rewrite length_fmap, fmap_drop. Qed.

Lemma map_removed_id h r : (∀ id n, (id, n) ∈ r → h id n = n) → map_removed h r = r.
Proof.
  unfold map_removed. induction r as [|[i n] r IH]; intros H; [done|]. rewrite fmap_cons. cbn. rewrite (H i n) by (by left). f_equal.
  apply IH. intros id n' Hin. apply H. by right.
Qed.

Section Undo.
Context (s : undo_index) (u : undo_state) (us : list undo_state).
Hypothesis Hs : undo_stack s = u :: us.
Hypothesis Hok : index_ok s.

Let f := frame_of u (old_values s) (removed_values s).

Lemma top_ok : table_ok (table s) (next_id s) (monotonic_revision s) (removed_values s) ∧ frame_ok (table s) f ∧
  (old_values_end u <= length (old_values s))%nat ∧ (removed_values_end u <= length (removed_values s))%nat ∧ old_next_id u <= next_id s ∧
  ctime u <= monotonic_revision s ∧
  stack_ok (snapshot (table s) f) (old_next_id u) (ctime u - 1) us (from (old_values s) (old_values_end u)) (from (removed_values s) (removed_values_end u)).
Proof using Hs Hok. unfold index_ok in Hok. rewrite Hs in Hok. cbn in Hok. fold f in Hok. tauto. Qed.

(** What is removed by earlier sessions has no old value in the last one. *)
Lemma restore_earlier id n n' : (id, n) ∈ from (removed_values s) (removed_values_end u) → restore_in (ctime u) (before (old_values s) (old_values_end u)) id n' = n'.
Proof using Hs Hok.
  intros Hin. destruct top_ok as ([_ _ _ Hnd Hout] & [_ _ Hold _ _] & _). unfold restore_in. destruct (find_in _ _ _) as [e|] eqn:Hf; [|done].
  apply find_in_Some in Hf as (He & <- & Hlt). destruct (Hold e He Hlt) as [_ (n0 & Hc & _)]. unfold current in Hc. cbn in Hc.
  assert ((old_current e, n) ∈ removed_values s) as Hr by (rewrite <- (before_from (removed_values s) (removed_values_end u)); set_solver).
  destruct (Hout _ _ Hr) as [Ht _]. rewrite Ht in Hc. rewrite <- (before_from (removed_values s) (removed_values_end u)), fmap_app in Hnd.
  apply NoDup_app in Hnd as (Hn1 & Hn2 & _). apply find_removed_Some in Hc; [|done]. exfalso. apply (Hn2 (old_current e)); apply list_elem_of_fmap;
    [by exists (old_current e, n0)|by exists (old_current e, n)].
Qed.

Lemma undo_top : undo keys s = UndoIndex (snapshot (table s) f) us (from (old_values s) (old_values_end u)) (from (removed_values s) (removed_values_end u))
  (old_next_id u) (revision s - 1) (monotonic_revision s).
Proof using Hs Hok.
  destruct top_ok as ([_ Hu Hb Hnd Hout] & [Hfr Hfn Hfo Hfb Hfw] & _ & _ & _ & _ & Hrest). unfold undo. rewrite Hs.
  pose proof (restore_old_loop u (before (old_values s) (old_values_end u)) (filter (λ p, p.1 < old_next_id u) (table s)) (removed_values s) Hfn) as (H1 & H2 & H3).
  destruct (foldl _ _ _) as [t1 r1]. cbn [fst snd] in *. set (ri := restore_in (ctime u) (before (old_values s) (old_values_end u))) in *.
  assert (∀ id, filter (λ p, p.1 < old_next_id u) (table s) !! id = if id <? old_next_id u then table s !! id else None) as Hflt.
  { intros id. rewrite map_lookup_filter. destruct (table s !! id), (Z.ltb_spec id (old_next_id u)); cbn; try done; rewrite ?option_guard_True, ?option_guard_False by (cbn; lia); done. }
  assert (r1 = map_removed ri (removed_values s)) as ->.
  { apply assoc_eq; [by rewrite map_removed_keys|by rewrite H3|]. intros id. rewrite H2, Hflt, find_map_removed.
    destruct (find_removed (removed_values s) id) as [n|] eqn:Hr; [|by repeat case_match]. apply find_removed_Some in Hr as Hin; [|done].
    destruct (Hout _ _ Hin) as [-> _]. by destruct (_ <? _). }
  rewrite map_removed_before, map_removed_from. rewrite (map_removed_id ri (from _ _)) by (intros id n Hin; by apply restore_earlier with n).
  f_equal. apply map_eq. intros id.
  assert (NoDup (before (removed_values s) (removed_values_end u)).*1) as Hndb.
  { rewrite <- (before_from (removed_values s) (removed_values_end u)), fmap_app in Hnd. by apply NoDup_app in Hnd as (? & _). }
  assert (∀ i n, (i, n) ∈ before (removed_values s) (removed_values_end u) → table s !! i = None) as Hbo.
  { intros i n Hin. apply (Hout i n). rewrite <- (before_from (removed_values s) (removed_values_end u)). set_solver. }
  rewrite (restore_removed_loop u _ (snapshot (table s) f)); [| |by rewrite map_removed_keys| |].
  - rewrite H1, Hflt, lookup_snapshot. unfold current, restored. cbn [f_next f frame_of]. fold ri. rewrite find_map_removed.
    destruct (Z.ltb_spec id (old_next_id u)); [by destruct (table s !! id)|]. cbn.
    destruct (find_removed _ id) as [n|] eqn:Hr; [|done]. apply find_removed_Some in Hr; [|done]. specialize (Hfr _ _ Hr). cbn in Hfr. lia.
  - destruct us; cbn in Hrest; apply Hrest.
  - intros i n. rewrite H1, Hflt. intros Hi. rewrite map_removed_keys. rewrite lookup_snapshot. unfold current, restored. cbn [f_next f frame_of]. fold ri.
    destruct (Z.ltb_spec i (old_next_id u)); [|done]. destruct (table s !! i) eqn:Hti; [|done]. split; [done|].
    intros ([j m] & -> & Hin)%list_elem_of_fmap. cbn in *. by rewrite (Hbo _ _ Hin) in Hti.
  - intros i n ([j m] & Heq & Hin)%list_elem_of_fmap. cbn in Heq. simplify_eq. specialize (Hfr _ _ Hin) as Hlt. cbn in Hlt. split; [|done].
    rewrite lookup_snapshot. unfold current, restored. cbn [f_next f frame_of]. fold ri. rewrite (proj2 (Z.ltb_lt _ _)) by done.
    rewrite (Hbo _ _ Hin). change (f_removed f) with (before (removed_values s) (removed_values_end u)).
    by rewrite (proj2 (find_removed_Some _ _ _ Hndb) Hin).
Qed.

End Undo.

End Theory.
