(* ===== verification/UndoIndexOps.v ===== *)
(** * The operations on a table keep its snapshots ([chaindb], [undo_index.hpp])

    Creating, changing and removing objects keep the snapshots of all sessions; a new session adds one, undo goes back to the last one. *)

From S2P Require Import Prelude UndoIndex UndoIndexTheory.
From stdpp Require Import gmap list.
Open Scope Z_scope.

Section Ops.
Context {V K : Type} `{EqDecision K} (keys : list (V → K)).

Notation node := (node V).
Notation old_node := (old_node V).
Notation undo_index := (undo_index V).
Notation index_ok := (index_ok keys).
Notation stack_ok := (stack_ok keys).
Notation table_ok := (table_ok keys).
Notation remove := UndoIndex.remove.
Implicit Types (s : undo_index) (t : gmap Z node) (u : undo_state) (id : Z) (v : V) (n : node) (e : old_node) (r : list (Z * node)) (ol : list old_node).

Definition view s : list (gmap Z node * Z) := snapshots (table s) (undo_stack s) (old_values s) (removed_values s).

Lemma table_ok_mono t next mono mono' r : mono <= mono' → table_ok t next mono r → table_ok t next mono' r.
Proof. intros H [H0 H1 H2 H3 H4]. split; [lia|done| |done|done]. intros id n Hl. destruct (H2 id n Hl). lia. Qed.

Lemma stack_ok_mono t next mono mono' us ol r : mono <= mono' → stack_ok t next mono us ol r → stack_ok t next mono' us ol r.
Proof.
  intros H. destruct us as [|u us]; cbn; [intros [? _]; split; [by eapply table_ok_mono|done]|].
  intros (H1 & H2 & H3 & H4 & H5 & H6 & H7). split_and!; try done; [by eapply table_ok_mono|lia].
Qed.

Lemma stack_ok_table t next mono us ol r : stack_ok t next mono us ol r → table_ok t next mono r.
Proof. destruct us; cbn; tauto. Qed.

Lemma undo_ok s : index_ok s → index_ok (undo keys s) ∧ view (undo keys s) = tail (view s) ∧
  (table (undo keys s), next_id (undo keys s)) = match view s with [] => (table s, next_id s) | x :: _ => x end.
Proof.
  intros Hok. destruct (undo_stack s) as [|u us] eqn:Hs.
  - assert (undo keys s = s) as -> by (unfold undo; by rewrite Hs). unfold view. by rewrite Hs.
  - rewrite (undo_top keys s u us Hs Hok). destruct (top_ok keys s u us Hs Hok) as (_ & _ & _ & _ & _ & Hc & Hrest).
    split; [|unfold view; rewrite Hs; done]. unfold UndoIndexTheory.index_ok. cbn. eapply stack_ok_mono; [|done]. lia.
Qed.

Lemma add_session_ok s : index_ok s → index_ok (add_session s) ∧ view (add_session s) = (table s, next_id s) :: view s.
Proof.
  intros Hok. pose proof (stack_ok_table _ _ _ _ _ _ Hok) as [H0 Hu Hb Hn Hout].
  set (u := UndoState (length (old_values s)) (length (removed_values s)) (next_id s) (monotonic_revision s + 1)).
  assert (snapshot (table s) (frame_of u (old_values s) (removed_values s)) = table s) as Hsnap.
  { apply map_eq. intros id. rewrite lookup_snapshot. unfold frame_of. cbn. rewrite !before_all. cbn. unfold current, restored. cbn.
    destruct (table s !! id) as [n|] eqn:Hid; [|by destruct (_ <? _)]. destruct (Hb id n Hid). by rewrite (proj2 (Z.ltb_lt _ _)). }
  split.
  - unfold UndoIndexTheory.index_ok, add_session. cbn [table next_id monotonic_revision undo_stack old_values removed_values]. fold u. cbn.
    rewrite Hsnap, !from_all. replace (monotonic_revision s + 1 - 1) with (monotonic_revision s) by lia.
    split; [split; try done; [lia|]; intros id n Hid; destruct (Hb id n Hid); lia|]. split_and!; try done; try lia. split.
    + unfold frame_of. cbn. rewrite before_all. by intros id n ?%elem_of_nil.
    + unfold frame_of. cbn. rewrite before_all. constructor.
    + unfold frame_of. cbn. rewrite before_all. by intros e ?%elem_of_nil.
    + rewrite Hsnap. cbn. intros id n Hid. destruct (Hb id n Hid). lia.
    + cbn. intros id n Hid Hge. destruct (Hb id n Hid). lia.
  - unfold view, add_session. cbn [table next_id monotonic_revision undo_stack old_values removed_values]. fold u. cbn.
    by rewrite Hsnap, !from_all.
Qed.

(** ** Changes *)

(** A change that the last session can undo. *)
Lemma change_ok t next mono u us ol r t' next' ol' r' : stack_ok t next mono (u :: us) ol r →
  table_ok t' next' mono r' → (old_values_end u <= length ol')%nat → (removed_values_end u <= length r')%nat → next <= next' →
  from ol' (old_values_end u) = from ol (old_values_end u) → from r' (removed_values_end u) = from r (removed_values_end u) →
  snapshot t' (frame_of u ol' r') = snapshot t (frame_of u ol r) → frame_ok t' (frame_of u ol' r') →
  stack_ok t' next' mono (u :: us) ol' r' ∧ snapshots t' (u :: us) ol' r' = snapshots t (u :: us) ol r.
Proof.
  cbn. intros (H1 & H2 & H3 & H4 & H5 & H6 & H7) Ht Hol Hr Hnext Ho' Hr' Hsnap Hf. rewrite Hsnap, Ho', Hr'. split; [|done].
  split_and!; try done. lia.
Qed.

Lemma emplace_ok s v s' id : index_ok s → emplace keys s v = Ok (s', id) →
  index_ok s' ∧ view s' = view s ∧ id = next_id s ∧ (∃ m, table s' = <[id := Node v m]> (table s)) ∧ next_id s' = next_id s + 1.
Proof.
  intros Hok. unfold emplace. destruct (conflict _ _ _ _) eqn:Hc; [done|]. intros [= <- <-]. cbn [table next_id].
  pose proof (stack_ok_table _ _ _ _ _ _ Hok) as [H0 Hu Hb Hn Hout].
  assert (table s !! next_id s = None) as Hnew.
  { destruct (table s !! next_id s) as [n|] eqn:Hid; [|done]. destruct (Hb _ _ Hid). lia. }
  set (m := match undo_stack s with [] => 0 | _ => monotonic_revision s end).
  assert (table_ok (<[next_id s := Node v m]> (table s)) (next_id s + 1) (monotonic_revision s) (removed_values s)) as Ht.
  { split; [done|by apply unique_insert| |done|].
    - intros id n [[<- <-]|[_ Hl]]%lookup_insert_Some; [subst m; cbn; destruct (undo_stack s); lia|]. destruct (Hb id n Hl). lia.
    - intros id n Hin. destruct (Hout id n Hin). rewrite lookup_insert_ne by lia. split; [done|lia]. }
  unfold UndoIndexTheory.index_ok, view in *. cbn [table next_id monotonic_revision undo_stack old_values removed_values].
  destruct (undo_stack s) as [|u us]; [cbn; eauto 10|].
  assert (∃ f, f = frame_of u (old_values s) (removed_values s)) as [f Hf] by eauto. 
  cbn in Hok. rewrite <- Hf in Hok. destruct Hok as (_ & Ho & Hr & [F1 F2 F3 F4 F5] & Hne & Hct & Hrest). assert (f_next f = old_next_id u) as Hfn by (by subst f).
  assert (snapshot (<[next_id s := Node v m]> (table s)) f = snapshot (table s) f) as Hsnap.
  { apply map_eq. intros id. rewrite !lookup_snapshot. destruct (Z.ltb_spec id (f_next f)); [|done]. unfold current. by rewrite lookup_insert_ne by lia. }
  destruct (change_ok (table s) (next_id s) (monotonic_revision s) u us (old_values s) (removed_values s) (<[next_id s := Node v m]> (table s)) (next_id s + 1)
    (old_values s) (removed_values s)) as [H1 H2]; rewrite <- ?Hf; [cbn; rewrite <- Hf; split_and!; try done|done|done|done|lia|done|done|done| |split_and!; eauto].
  split; try done.
  - intros e He Hlt. destruct (F3 e He Hlt) as (Hid & n & Hcur & Hm). split; [done|]. exists n. split; [|done]. unfold current in *.
    by rewrite lookup_insert_ne by lia.
  - by rewrite Hsnap.
  - intros id n [[<- <-]|[_ Hl]]%lookup_insert_Some Hge; [|by eapply F5]. subst f. cbn. subst m. cbn. lia.
Qed.

(** An object that the session changed has an old value, one that it did not change has none. *)
Lemma changed_has_old t f id n : frame_ok t f → current t f id = Some n → id < f_next f → f_ctime f <= mtime n →
  ∃ e, find_in (f_ctime f) (f_old f) id = Some e.
Proof.
  intros [_ _ _ Hb _] Hc Hid Hm. destruct (find_in _ _ _) as [e|] eqn:He; [by eauto|]. exfalso.
  assert (snapshot t f !! id = Some n) as Hs; [|specialize (Hb _ _ Hs); lia].
  rewrite lookup_snapshot, (proj2 (Z.ltb_lt _ _)), Hc by done. unfold restored, restore_in. cbn [fmap option_fmap option_map]. by rewrite He.
Qed.

Lemma unchanged_has_no_old t f id n : frame_ok t f → t !! id = Some n → mtime n < f_ctime f → id < f_next f ∧ find_in (f_ctime f) (f_old f) id = None.
Proof.
  intros [_ _ Ho _ Hnew] Ht Hm. split; [destruct (Z.lt_ge_cases id (f_next f)) as [?|Hge]; [done|specialize (Hnew _ _ Ht Hge); lia]|].
  destruct (find_in _ _ _) as [e|] eqn:He; [|done]. apply find_in_Some in He as (Hin & <- & Hlt). destruct (Ho e Hin Hlt) as (_ & n' & Hc & Hm').
  unfold current in Hc. rewrite Ht in Hc. simplify_eq. lia.
Qed.

(** A new value where no copy is needed. *)
Lemma set_value_ok s id n v : index_ok s → table s !! id = Some n → conflict keys (table s) id v = false →
  match undo_stack s with [] => True | u :: _ => ctime u <= mtime n end →
  index_ok (with_table s (<[id := Node v (mtime n)]> (table s))) ∧ view (with_table s (<[id := Node v (mtime n)]> (table s))) = view s.
Proof.
  intros Hok Hl Hc Hm. pose proof (stack_ok_table _ _ _ _ _ _ Hok) as [H0 Hu Hb Hn Hout].
  assert (table_ok (<[id := Node v (mtime n)]> (table s)) (next_id s) (monotonic_revision s) (removed_values s)) as Ht.
  { split; [done|by apply unique_insert| |done|].
    - intros i n' [[<- <-]|[_ Hi]]%lookup_insert_Some; [by apply (Hb id n)|by apply (Hb i)].
    - intros i n' Hin. destruct (Hout i n' Hin) as [Hi ?]. split; [|done]. apply lookup_insert_None. split; [done|congruence]. }
  unfold UndoIndexTheory.index_ok, view, with_table in *. cbn [table next_id monotonic_revision undo_stack old_values removed_values].
  destruct (undo_stack s) as [|u us]; [cbn; eauto|]. pose proof Hok as (_ & Ho & Hr & Hf & Hne & Hct & Hrest).
  set (f := frame_of u (old_values s) (removed_values s)) in *.
  assert (∀ i, restored f i <$> current (<[id := Node v (mtime n)]> (table s)) f i = restored f i <$> current (table s) f i ∨ f_next f <= i) as Hcur.
  { intros i. destruct (Z.lt_ge_cases i (f_next f)) as [Hlt|?]; [left|by right]. unfold current. destruct (decide (id = i)) as [<-|?]; [|by rewrite lookup_insert_ne].
    rewrite lookup_insert_eq, Hl. destruct (changed_has_old (table s) f id n Hf) as [e He]; [unfold current; by rewrite Hl|done|done|].
    unfold restored, restore_in. cbn [fmap option_fmap option_map]. by rewrite He. }
  assert (snapshot (<[id := Node v (mtime n)]> (table s)) f = snapshot (table s) f) as Hsnap.
  { apply map_eq. intros i. rewrite !lookup_snapshot. destruct (Hcur i) as [->|?]; [done|]. by rewrite (proj2 (Z.ltb_ge _ _)). }
  destruct Hf as [F1 F2 F3 F4 F5].
  eapply change_ok; [exact Hok|done|done|done|done|done|done|done|]. fold f. split; try done.
  - intros e He Hlt. destruct (F3 e He Hlt) as (Hid & n' & Hcu & Hm'). split; [done|]. unfold current in *. destruct (decide (id = old_current e)) as [Heq|?].
    + subst id. rewrite lookup_insert_eq. eexists. split; [done|]. rewrite Hl in Hcu. by simplify_eq.
    + rewrite lookup_insert_ne by done. eauto.
  - by rewrite Hsnap.
  - intros i n' [[<- <-]|[_ Hi]]%lookup_insert_Some Hge; [|by eapply F5]. exact (F5 id n Hl Hge).
Qed.

(** A new value, with a copy of the old one. *)
Lemma backup_ok s u us id n v : index_ok s → undo_stack s = u :: us → table s !! id = Some n → conflict keys (table s) id v = false → mtime n < ctime u →
  let s' := UndoIndex (<[id := Node v (monotonic_revision s)]> (table s)) (undo_stack s) (OldNode id (item n) (mtime n) :: old_values s) (removed_values s)
    (next_id s) (revision s) (monotonic_revision s) in
  index_ok s' ∧ view s' = view s.
Proof.
  intros Hok Hs Hl Hc Hm s'. pose proof (stack_ok_table _ _ _ _ _ _ Hok) as [H0 Hu Hb Hn Hout].
  assert (table_ok (<[id := Node v (monotonic_revision s)]> (table s)) (next_id s) (monotonic_revision s) (removed_values s)) as Ht.
  { split; [done|by apply unique_insert| |done|].
    - intros i n' [[<- <-]|[_ Hi]]%lookup_insert_Some; [split; [by apply (Hb id n)|done]|by apply (Hb i)].
    - intros i n' Hin. destruct (Hout i n' Hin) as [Hi ?]. split; [|done]. apply lookup_insert_None. split; [done|congruence]. }
  unfold UndoIndexTheory.index_ok, view, s' in *. cbn [table next_id monotonic_revision undo_stack old_values removed_values].
  rewrite Hs in *. pose proof Hok as (_ & Ho & Hr & Hf & Hne & Hct & Hrest).
  set (f := frame_of u (old_values s) (removed_values s)) in *. set (e0 := OldNode id (item n) (mtime n)).
  assert (frame_of u (e0 :: old_values s) (removed_values s) = Frame (e0 :: f_old f) (f_removed f) (f_next f) (f_ctime f)) as Hf'.
  { unfold frame_of. by rewrite before_cons. }
  destruct (unchanged_has_no_old (table s) f id n Hf Hl Hm) as [Hid Hnone]. destruct Hf as [F1 F2 F3 F4 F5].
  set (f' := Frame (e0 :: f_old f) (f_removed f) (f_next f) (f_ctime f)) in *.
  assert (∀ i, find_in (f_ctime f) (e0 :: f_old f) i = if id =? i then Some e0 else find_in (f_ctime f) (f_old f) i) as Hfi.
  { intros i. unfold find_in. cbn. rewrite (proj2 (Z.ltb_lt (mtime n) _)), andb_true_r by done. by destruct (id =? i). }
  assert (snapshot (<[id := Node v (monotonic_revision s)]> (table s)) f' = snapshot (table s) f) as Hsnap.
  { apply map_eq. intros i. rewrite !lookup_snapshot. cbn [f_next f']. destruct (Z.ltb_spec i (f_next f)); [|done].
    unfold current, restored, restore_in. cbn [f_ctime f_old f_removed f']. rewrite Hfi. destruct (Z.eqb_spec id i) as [<-|?].
    - rewrite lookup_insert_eq, Hl, Hnone. by destruct n.
    - by rewrite lookup_insert_ne. }
  eapply change_ok; [exact Hok|done|cbn; lia|done|done|by apply from_cons|done|by rewrite Hf'|]. rewrite Hf'. split; [done| | | |].
  - cbn [f_old f_ctime f']. rewrite filter_cons_True by done. rewrite fmap_cons. apply NoDup_cons. split; [|done].
    intros (e & Heq & [Hlt He]%list_elem_of_filter)%list_elem_of_fmap. cbn in Heq.
    pose proof (find_in_None _ _ _ Hnone e He (eq_sym Heq)). lia.
  - cbn [f_old f_ctime f_next f']. intros e [->|He]%elem_of_cons Hlt.
    + split; [done|]. exists (Node v (monotonic_revision s)). unfold current. cbn. by rewrite lookup_insert_eq.
    + destruct (F3 e He Hlt) as (Hide & n' & Hcu & Hm'). split; [done|]. exists n'. split; [|done]. unfold current in *. cbn [f_removed f'].
      rewrite lookup_insert_ne; [done|]. intros Heq. pose proof (find_in_None _ _ _ Hnone e He (eq_sym Heq)). lia.
  - by rewrite Hsnap.
  - cbn [f_ctime f_next f']. intros i n' [[<- <-]|[_ Hi]]%lookup_insert_Some Hge; [done|by eapply F5].
Qed.

(** Removal; the value may have been changed first. *)
Lemma table_remove_ok s id n n1 : index_ok s → table s !! id = Some n → mtime n1 = mtime n →
  match undo_stack s with [] => True | u :: _ => n1 = n ∨ ctime u <= mtime n end →
  index_ok (remove s id n1) ∧ view (remove s id n1) = view s ∧ table (remove s id n1) = delete id (table s) ∧ next_id (remove s id n1) = next_id s.
Proof.
  intros Hok Hl Hmt Hm. pose proof (stack_ok_table _ _ _ _ _ _ Hok) as [H0 Hu Hb Hn Hout].
  assert (table_ok (delete id (table s)) (next_id s) (monotonic_revision s) (removed_values s)) as Ht.
  { split; [done|by apply unique_delete| |done|].
    - intros i n' [_ Hi]%lookup_delete_Some. by apply (Hb i).
    - intros i n' Hin. destruct (Hout i n' Hin) as [Hi ?]. split; [|done]. apply lookup_delete_None. by right. }
  unfold remove. unfold UndoIndexTheory.index_ok, view in *. destruct (undo_stack s) as [|u us] eqn:Hs.
  { unfold with_table. rewrite Hs. cbn. eauto. }
  pose proof Hok as (_ & Ho & Hr & Hf & Hne & Hct & Hrest).
  set (f := frame_of u (old_values s) (removed_values s)) in *.
  destruct (Z.leb_spec (old_next_id u) id) as [Hge|Hlt].
  - unfold with_table. cbn [table next_id monotonic_revision undo_stack old_values removed_values]. rewrite ?Hs.
    assert (snapshot (delete id (table s)) f = snapshot (table s) f) as Hsnap.
    { apply map_eq. intros i. rewrite !lookup_snapshot. destruct (Z.ltb_spec i (f_next f)) as [Hi|]; [|done]. unfold current.
      rewrite lookup_delete_ne; [done|]. change (f_next f) with (old_next_id u) in Hi. lia. }
    destruct Hf as [F1 F2 F3 F4 F5].
    destruct (change_ok (table s) (next_id s) (monotonic_revision s) u us (old_values s) (removed_values s) (delete id (table s)) (next_id s)
      (old_values s) (removed_values s) Hok) as [H1 H2]; [done..| |by split_and!]. fold f. split; [done|done| |by rewrite Hsnap|].
    + intros e He Hle. destruct (F3 e He Hle) as (Hid & n' & Hcu & Hm'). split; [done|]. exists n'. split; [|done]. unfold current in *.
      change (f_next f) with (old_next_id u) in Hid. by rewrite lookup_delete_ne by lia.
    + intros i n' [_ Hi]%lookup_delete_Some. by apply F5.
  - cbn [table next_id monotonic_revision undo_stack old_values removed_values]. rewrite ?Hs.
    assert (frame_of u (old_values s) ((id, n1) :: removed_values s) = Frame (f_old f) ((id, n1) :: f_removed f) (f_next f) (f_ctime f)) as Hf'.
    { unfold frame_of. by rewrite before_cons. }
    set (f' := Frame (f_old f) ((id, n1) :: f_removed f) (f_next f) (f_ctime f)) in *.
    assert (∀ i, i ≠ id → current (delete id (table s)) f' i = current (table s) f i) as Hcur.
    { intros i Hne'. unfold current. rewrite lookup_delete_ne by done. destruct (table s !! i); [done|]. unfold find_removed. cbn. by rewrite (proj2 (Z.eqb_neq _ _)). }
    assert (current (delete id (table s)) f' id = Some n1) as Hcid.
    { unfold current. rewrite lookup_delete_eq. unfold find_removed. cbn. by rewrite Z.eqb_refl. }
    assert (snapshot (delete id (table s)) f' = snapshot (table s) f) as Hsnap.
    { apply map_eq. intros i. rewrite !lookup_snapshot. cbn [f_next f']. destruct (Z.ltb_spec i (f_next f)); [|done]. unfold restored. cbn [f_ctime f_old f'].
      destruct (decide (i = id)) as [->|?]; [|by rewrite Hcur]. rewrite Hcid. unfold current. rewrite Hl. destruct Hm as [->|Hm]; [done|].
      destruct (changed_has_old (table s) f id n Hf) as [e He]; [unfold current; by rewrite Hl|done|done|]. unfold restore_in. cbn [fmap option_fmap option_map]. by rewrite He. }
    destruct Hf as [F1 F2 F3 F4 F5].
    destruct (change_ok (table s) (next_id s) (monotonic_revision s) u us (old_values s) (removed_values s) (delete id (table s)) (next_id s)
      (old_values s) ((id, n1) :: removed_values s) Hok) as [H1 H2]; [|done|cbn; lia|done|done|by apply from_cons|by rewrite Hf'| |by split_and!].
    + destruct Ht as [T0 T1 T2 T3 T4]. split; [done|done|done| |].
      * rewrite fmap_cons. apply NoDup_cons. split; [|done]. intros ([i n'] & Heq & Hin)%list_elem_of_fmap. cbn in Heq. subst i.
        destruct (Hout _ _ Hin). congruence.
      * intros i n' [[= -> ->]|Hin]%elem_of_cons; [|by apply (T4 i n')]. split; [apply lookup_delete_eq|by apply (Hb id n)].
    + rewrite Hf'. split; [|done| |by rewrite Hsnap|].
      * intros i n' [[= -> ->]|Hin]%elem_of_cons; [done|by eapply F1].
      * intros e He Hle. destruct (F3 e He Hle) as (Hid & n' & Hcu & Hm'). split; [done|]. destruct (decide (old_current e = id)) as [Heq|?].
        -- rewrite Heq, Hcid. exists n1. split; [done|]. rewrite Hmt. unfold current in Hcu. rewrite Heq, Hl in Hcu. by simplify_eq.
        -- rewrite Hcur by done. eauto.
      * intros i n' [_ Hi]%lookup_delete_Some. by apply F5.
Qed.

Lemma conflict_insert t id v n : conflict keys (<[id := n]> t) id v = conflict keys t id v.
Proof.
  apply eq_bool_prop_intro. rewrite !Is_true_true, !conflict_true. split; intros (i & n' & Hne & Hl & Hk); exists i, n';
    [rewrite lookup_insert_ne in Hl by done|rewrite lookup_insert_ne by done]; done.
Qed.

(** A change that conflicts with another object is put back if there is a copy. *)
Definition puts_back s id v : bool :=
  match undo_stack s, table s !! id with
  | u :: _, Some n => (mtime n <? ctime u) && conflict keys (table s) id v
  | _, _ => false
  end.

Lemma modify_ok s id (m : V → V * option exn) n s' x : index_ok s → table s !! id = Some n → puts_back s id (m (item n)).1 = false →
  modify keys s id m = (s', x) →
  index_ok s' ∧ view s' = view s ∧ next_id s' = next_id s ∧
  if conflict keys (table s) id (m (item n)).1
  then table s' = delete id (table s) ∧ x = match (m (item n)).2 with Some x => Some x | None => Some logic_error end
  else (∃ k, table s' = <[id := Node (m (item n)).1 k]> (table s)) ∧ x = (m (item n)).2.
Proof.
  intros Hok Hl Hp. unfold modify, puts_back in *. rewrite Hl in *. unfold on_modify.
  destruct (undo_stack s) as [|u us] eqn:Hs; [|destruct (Z.leb_spec (ctime u) (mtime n)) as [Hle|Hlt]].
  - destruct (m (item n)) as [v thrown]. cbn [fst snd] in *. destruct (conflict keys (table s) id v) eqn:Hc.
    + destruct (table_remove_ok s id n (Node v (mtime n)) Hok Hl eq_refl) as (H1 & H2 & H3 & H4); [by rewrite Hs|]. intros [= <- <-]. done.
    + destruct (set_value_ok s id n v Hok Hl Hc) as [H1 H2]; [by rewrite Hs|]. intros [= <- <-]. split_and!; eauto.
  - destruct (m (item n)) as [v thrown]. cbn [fst snd] in *. destruct (conflict keys (table s) id v) eqn:Hc.
    + destruct (table_remove_ok s id n (Node v (mtime n)) Hok Hl eq_refl) as (H1 & H2 & H3 & H4); [rewrite Hs; by right|]. intros [= <- <-]. done.
    + destruct (set_value_ok s id n v Hok Hl Hc) as [H1 H2]; [by rewrite Hs|]. intros [= <- <-]. split_and!; eauto.
  - cbn [item table]. destruct (m (item n)) as [v thrown]. cbn [fst snd] in *. rewrite (proj2 (Z.ltb_lt _ _) Hlt), andb_true_l in Hp.
    rewrite conflict_insert, Hp. destruct (backup_ok s u us id n v Hok Hs Hl Hp Hlt) as [H1 H2]. intros [= <- <-]. unfold with_table.
    cbn [table next_id monotonic_revision undo_stack old_values removed_values mtime]. rewrite insert_insert_eq, <- Hs. split_and!; eauto.
Qed.

End Ops.
