(* ===== verification/UndoIndexSquash.v ===== *)
(** * Squash and commit drop snapshots ([chaindb], [undo_index.hpp])

    Squashing the last two sessions keeps the snapshot of the earlier one, and committing keeps those of the sessions that stay open, although both drop old values. *)

From S2P Require Import Prelude UndoIndex UndoIndexTheory UndoIndexOps.
From stdpp Require Import gmap list.
Open Scope Z_scope.

Section Squash.
Context {V K : Type} `{EqDecision K} (keys : list (V → K)).

Notation node := (node V).
Notation old_node := (old_node V).
Notation undo_index := (undo_index V).
Notation index_ok := (index_ok keys).
Notation stack_ok := (stack_ok keys).
Notation table_ok := (table_ok keys).
Implicit Types (s : undo_index) (t : gmap Z node) (u : undo_state) (id : Z) (v : V) (n : node) (e : old_node) (r : list (Z * node)) (ol : list old_node).

(** ** The loop of [compress_impl] over old values *)

Lemma find_in_cons c e ol id : find_in c (e :: ol) id = if (old_current e =? id) && (old_mtime e <? c) then Some e else find_in c ol id.
Proof. done. Qed.

Lemma find_in_app c ol ol' id : find_in c (ol ++ ol') id = match find_in c ol id with Some e => Some e | None => find_in c ol' id end.
Proof. induction ol as [|e ol IH]; [done|]. cbn [app]. rewrite !find_in_cons. by destruct (_ && _). Qed.

Lemma compress_old_loop u t ol : ∀ r, NoDup (old_current <$> filter (λ e, old_mtime e < ctime u) ol) →
  let lr := compress_old u t ol r in
  lr.1 = filter (λ e, old_mtime e < ctime u ∧ is_Some (t !! old_current e)) ol ∧
  (∀ id, find_removed lr.2 id = match t !! id with Some _ => find_removed r id | None => restore_in (ctime u) ol id <$> find_removed r id end) ∧
  lr.2.*1 = r.*1.
Proof.
  induction ol as [|e ol IH]; intros r Hn.
  { cbn [compress_old fst snd]. split; [done|]. split; [|done]. intros id. destruct (t !! id); [done|]. by destruct (find_removed r id). }
  cbn [compress_old]. destruct (Z.leb_spec (ctime u) (old_mtime e)) as [Hge|Hlt].
  - rewrite filter_cons_False in Hn by lia. rewrite filter_cons_False by lia. destruct (IH r Hn) as (H1 & H2 & H3). split; [done|]. split; [|done].
    intros id. rewrite H2. destruct (t !! id); [done|]. destruct (find_removed r id); [|done]. cbn [fmap option_fmap option_map]. unfold restore_in.
    by rewrite find_in_cons, (proj2 (Z.ltb_ge (old_mtime e) _)), andb_false_r by lia.
  - rewrite filter_cons_True, fmap_cons in Hn by done. apply NoDup_cons in Hn as [Hx Hn].
    assert (∀ n, restore_in (ctime u) ol (old_current e) n = n) as Hno.
    { intros n. unfold restore_in. destruct (find_in _ _ _) as [e'|] eqn:Hf; [|done]. apply find_in_Some in Hf as (Hin & Heq & ?). destruct Hx. rewrite <- Heq.
      apply list_elem_of_fmap_2. by apply list_elem_of_filter. }
    assert (∀ id n, restore_in (ctime u) (e :: ol) id n = if old_current e =? id then old_node_of e else restore_in (ctime u) ol id n) as Hri.
    { intros id n. unfold restore_in. rewrite find_in_cons, (proj2 (Z.ltb_lt _ _) Hlt), andb_true_r. by destruct (old_current e =? id). }
    destruct (t !! old_current e) as [n0|] eqn:Ht.
    + rewrite filter_cons_True by eauto. destruct (IH r Hn) as (H1 & H2 & H3). destruct (compress_old u t ol r) as [l1 r1]. cbn [fst snd] in *.
      split; [by rewrite H1|]. split; [|done]. intros id. rewrite H2. destruct (t !! id) eqn:Hid; [done|]. destruct (find_removed r id); [|done].
      cbn [fmap option_fmap option_map]. rewrite Hri. destruct (Z.eqb_spec (old_current e) id); [by simplify_eq|done].
    + rewrite filter_cons_False by (intros [_ [? ?]]; congruence).
      destruct (IH (alter_removed (λ _, Node (old_item e) (old_mtime e)) (old_current e) r) Hn) as (H1 & H2 & H3). split; [done|]. split; [|by rewrite H3, alter_removed_keys].
      intros id. rewrite H2, find_alter_removed. destruct (t !! id) eqn:Hid.
      * destruct (Z.eqb_spec (old_current e) id); [by simplify_eq|done].
      * destruct (Z.eqb_spec (old_current e) id) as [<-|Hne]; destruct (find_removed r _); cbn [fmap option_fmap option_map]; [|done| |done].
        -- by rewrite Hno, Hri, Z.eqb_refl.
        -- by rewrite Hri, (proj2 (Z.eqb_neq _ _)).
Qed.

Lemma nodup_old_le c c' ol : c' <= c → NoDup (old_current <$> filter (λ e, old_mtime e < c) ol) → NoDup (old_current <$> filter (λ e, old_mtime e < c') ol).
Proof.
  intros Hc Hn. eapply sublist_NoDup; [exact Hn|]. apply fmap_sublist. clear Hn. induction ol as [|e ol IH]; [done|].
  destruct (decide (old_mtime e < c')).
  - rewrite !filter_cons_True by lia. by constructor.
  - rewrite (filter_cons_False (λ e, old_mtime e < c')) by done. destruct (decide (old_mtime e < c)).
    + rewrite filter_cons_True by done. by constructor.
    + by rewrite filter_cons_False.
Qed.

Lemma find_in_le c c' ol id e : c' <= c → NoDup (old_current <$> filter (λ e, old_mtime e < c) ol) → find_in c' ol id = Some e → find_in c ol id = Some e.
Proof. intros Hc Hn (Hin & <- & Hlt)%find_in_Some. apply find_in_elem; [done|done|lia]. Qed.

(** ** Two frames *)

Section Merge.
Context (t : gmap Z node) (f1 f2 : frame (V := V)).
Hypothesis H1 : frame_ok t f1.
Hypothesis H2 : frame_ok (snapshot t f1) f2.
Hypothesis Hn : f_next f2 <= f_next f1.
Hypothesis Hc : f_ctime f2 < f_ctime f1.
Hypothesis Hr1 : NoDup (f_removed f1).*1.
Hypothesis Hout1 : ∀ id n, (id, n) ∈ f_removed f1 → t !! id = None.
Hypothesis Hout2 : ∀ id n, (id, n) ∈ f_removed f2 → t !! id = None ∧ find_removed (f_removed f1) id = None.

Let kept_old := filter (λ e, old_mtime e < f_ctime f2 ∧ is_Some (t !! old_current e)) (f_old f1).
Let kept_removed := filter (λ p, p.1 < f_next f2) (map_removed (restore_in (f_ctime f2) (f_old f1)) (f_removed f1)).

Definition merged : frame := Frame (kept_old ++ f_old f2) (kept_removed ++ f_removed f2) (f_next f2) (f_ctime f2).

Lemma find_kept_old id : find_in (f_ctime f2) kept_old id = match t !! id with Some _ => find_in (f_ctime f2) (f_old f1) id | None => None end.
Proof using Type.
  unfold kept_old. induction (f_old f1) as [|e ol IH]; [by destruct (t !! id)|]. destruct (decide (old_mtime e < f_ctime f2 ∧ is_Some (t !! old_current e))) as [[Hm Hi]|Hno].
  - rewrite filter_cons_True by done. rewrite !find_in_cons, IH. destruct (Z.eqb_spec (old_current e) id) as [<-|?]; cbn [andb]; [|done].
    rewrite (proj2 (Z.ltb_lt _ _)) by done. by destruct Hi as [? ->].
  - rewrite filter_cons_False by done. rewrite find_in_cons, IH. destruct (t !! id) eqn:Hid; [|done]. destruct (Z.eqb_spec (old_current e) id) as [<-|?]; cbn [andb]; [|done].
    destruct (Z.ltb_spec (old_mtime e) (f_ctime f2)); [|done]. destruct Hno. eauto.
Qed.

Lemma find_kept_removed id : id < f_next f2 → find_removed kept_removed id = restore_in (f_ctime f2) (f_old f1) id <$> find_removed (f_removed f1) id.
Proof using Type.
  intros Hid. unfold kept_removed. rewrite <- find_map_removed. induction (map_removed _ _) as [|[i n] r IH]; [done|]. destruct (decide (i < f_next f2)).
  - rewrite filter_cons_True by done. unfold find_removed in *. cbn. by destruct (i =? id).
  - rewrite filter_cons_False by done. rewrite IH. unfold find_removed. cbn. by rewrite (proj2 (Z.eqb_neq i id)) by lia.
Qed.

(** The two sessions do not both go back to an old value from before the earlier one. *)
Lemma old_exclusive id e1 : find_in (f_ctime f2) (f_old f1) id = Some e1 → find_in (f_ctime f2) (f_old f2) id = None ∧ id < f_next f2.
Proof using H1 H2 Hc.
  intros He. assert (find_in (f_ctime f1) (f_old f1) id = Some e1) as He1 by (apply find_in_le with (f_ctime f2); [lia|apply H1|done]).
  apply find_in_Some in He as (Hin & Heq & Hlt). destruct (fo_old _ _ H1 e1 Hin) as (Hid & n & Hcur & _); [lia|]. rewrite Heq in *.
  assert (snapshot t f1 !! id = Some (old_node_of e1)) as Hs.
  { rewrite lookup_snapshot, (proj2 (Z.ltb_lt _ _)), Hcur by done. unfold restored, restore_in. cbn [fmap option_fmap option_map]. by rewrite He1. }
  destruct (unchanged_has_no_old _ f2 id _ H2 Hs) as [? ?]; [done|]. done.
Qed.

Lemma merged_current id : id < f_next f2 →
  current t merged id = match current t f1 id with
  | Some n => Some (match t !! id with Some _ => n | None => restore_in (f_ctime f2) (f_old f1) id n end)
  | None => find_removed (f_removed f2) id end.
Proof using Type.
  intros Hid. unfold current. cbn [f_removed merged]. rewrite find_removed_app, find_kept_removed by done.
  destruct (t !! id); [done|]. by destruct (find_removed (f_removed f1) id).
Qed.

Lemma merged_snapshot : snapshot t merged = snapshot (snapshot t f1) f2.
Proof using H1 H2 Hn Hc.
  apply map_eq. intros id. rewrite !lookup_snapshot. cbn [f_next merged]. destruct (Z.ltb_spec id (f_next f2)) as [Hid|]; [|done].
  rewrite merged_current by done. unfold restored at 1. cbn [f_ctime f_old merged]. unfold restore_in at 1. rewrite find_in_app, find_kept_old.
  unfold current at 2. rewrite lookup_snapshot, (proj2 (Z.ltb_lt _ _)) by lia. destruct (current t f1 id) as [n|] eqn:Hcur.
  2: { unfold current in Hcur. destruct (t !! id); [done|]. by destruct (find_removed (f_removed f2) id). }
  cbn [fmap option_fmap option_map]. unfold restored. unfold restore_in at 3. destruct (find_in (f_ctime f2) (f_old f1) id) as [e|] eqn:He.
  - destruct (old_exclusive id e He) as [Hno _]. assert (find_in (f_ctime f1) (f_old f1) id = Some e) as -> by (apply find_in_le with (f_ctime f2); [lia|apply H1|done]).
    unfold restore_in. rewrite Hno. destruct (t !! id); [done|]. cbn [fmap option_fmap option_map]. by rewrite He.
  - destruct (find_in (f_ctime f1) (f_old f1) id) as [e|] eqn:He1.
    + assert (snapshot t f1 !! id = Some (old_node_of e)) as Hs.
      { rewrite lookup_snapshot, (proj2 (Z.ltb_lt _ _)), Hcur by lia. unfold restored, restore_in. cbn [fmap option_fmap option_map]. by rewrite He1. }
      apply find_in_Some in He1 as (Hin & Heq & _). destruct (changed_has_old _ f2 id (old_node_of e) H2) as [e2 He2].
      * unfold current. by rewrite Hs.
      * done.
      * cbn. by apply (find_in_None _ _ _ He e).
      * unfold restore_in. rewrite He2. by destruct (t !! id).
    + unfold restore_in. rewrite He. by destruct (t !! id).
Qed.

Lemma current_changed f (t0 : gmap Z node) id n e : frame_ok t0 f → current t0 f id = Some n → find_in (f_ctime f) (f_old f) id = Some e → f_ctime f <= mtime n.
Proof using Type.
  intros Hf Hcur (Hin & <- & Hlt)%find_in_Some. destruct (fo_old _ _ Hf e Hin Hlt) as (_ & n' & Hcur' & Hm). congruence.
Qed.

Lemma merged_ok : frame_ok t merged.
Proof using H1 H2 Hn Hc.
  pose proof (nodup_old_le (f_ctime f1) (f_ctime f2) (f_old f1) ltac:(lia) (fo_old_nodup _ _ H1)) as Hnd1.
  assert (∀ e, e ∈ kept_old → e ∈ f_old f1 ∧ old_mtime e < f_ctime f2 ∧ is_Some (t !! old_current e) ∧ find_in (f_ctime f2) (f_old f1) (old_current e) = Some e) as Hkept.
  { intros e [[Hlt Hs] Hin]%list_elem_of_filter. split_and!; try done. by apply find_in_elem. }
  split; cbn [f_removed f_next f_old f_ctime merged].
  - intros id n [[Hid _]%list_elem_of_filter|Hin]%elem_of_app; [done|by eapply (fo_removed _ _ H2)].
  - rewrite filter_app, fmap_app. apply NoDup_app. split_and!.
    + eapply sublist_NoDup; [exact Hnd1|]. apply fmap_sublist. unfold kept_old. rewrite list_filter_filter.
      clear. induction (f_old f1) as [|e ol IH]; [done|]. destruct (decide (old_mtime e < f_ctime f2)).
      * rewrite (filter_cons_True (λ e, old_mtime e < f_ctime f2)) by done. rewrite filter_cons. case_decide; [by constructor|by constructor].
      * rewrite (filter_cons_False (λ e, old_mtime e < f_ctime f2)) by done. rewrite filter_cons_False by tauto. done.
    + intros id (e & -> & [Hlt Hin]%list_elem_of_filter)%list_elem_of_fmap (e' & Heq & [Hlt' Hin']%list_elem_of_filter)%list_elem_of_fmap.
      destruct (Hkept e Hin) as (_ & _ & _ & He). destruct (old_exclusive _ _ He) as [Hno _]. pose proof (find_in_None _ _ _ Hno e' Hin' (eq_sym Heq)). lia.
    + apply (fo_old_nodup _ _ H2).
  - intros e [Hin|Hin]%elem_of_app Hlt.
    + destruct (Hkept e Hin) as (Hin1 & _ & [n Hs] & He). destruct (old_exclusive _ _ He) as [_ Hid]. split; [done|]. exists n.
      assert (current t f1 (old_current e) = Some n) as Hcur by (unfold current; by rewrite Hs). rewrite merged_current, Hcur, Hs by done. split; [done|].
      pose proof (current_changed f1 t (old_current e) n e H1 Hcur ltac:(apply find_in_le with (f_ctime f2); [lia|apply H1|done])). lia.
    + destruct (fo_old _ _ H2 e Hin Hlt) as (Hid & m & Hcur2 & Hm). split; [done|]. rewrite merged_current by done. unfold current in Hcur2.
      rewrite lookup_snapshot, (proj2 (Z.ltb_lt _ _)) in Hcur2 by lia. destruct (current t f1 (old_current e)) as [n|] eqn:Hcur; [|by exists m].
      cbn [fmap option_fmap option_map] in Hcur2. simplify_eq.
      assert (find_in (f_ctime f2) (f_old f1) (old_current e) = None) as Hno.
      { destruct (find_in (f_ctime f2) (f_old f1) (old_current e)) as [e1|] eqn:He1; [|done]. destruct (old_exclusive _ _ He1) as [Hno _].
        pose proof (find_in_None _ _ _ Hno e Hin eq_refl). lia. }
      exists n. split; [unfold restore_in; rewrite Hno; by destruct (t !! old_current e)|]. unfold restored, restore_in in Hm.
      destruct (find_in (f_ctime f1) (f_old f1) (old_current e)) as [e1|] eqn:He1; [|done]. pose proof (current_changed f1 t _ n e1 H1 Hcur He1). lia.
  - intros id n. rewrite merged_snapshot. apply (fo_before _ _ H2).
  - intros id n Ht Hge. destruct (Z.lt_ge_cases id (f_next f1)) as [Hlt|Hge1]; [|pose proof (fo_new _ _ H1 id n Ht Hge1); lia].
    assert (current t f1 id = Some n) as Hcur by (unfold current; by rewrite Ht).
    assert (snapshot t f1 !! id = Some (restored f1 id n)) as Hs by (by rewrite lookup_snapshot, (proj2 (Z.ltb_lt _ _)), Hcur).
    pose proof (fo_new _ _ H2 id _ Hs Hge) as Hm. unfold restored, restore_in in Hm. destruct (find_in (f_ctime f1) (f_old f1) id) as [e1|] eqn:He1; [|done].
    pose proof (current_changed f1 t _ n e1 H1 Hcur He1). lia.
Qed.

End Merge.

(** ** Squash *)

Lemma squash_ok s : index_ok s → index_ok (squash s) ∧ view (squash s) = tail (view s) ∧ table (squash s) = table s ∧ next_id (squash s) = next_id s.
Proof.
  intros Hok. unfold squash. destruct (undo_stack s) as [|u1 [|u2 us]] eqn:Hs.
  - unfold squash_fast. rewrite Hs. unfold view. by rewrite Hs.
  - unfold squash_fast, dispose_undo. rewrite Hs. unfold view. rewrite Hs. cbn. split; [|done]. unfold UndoIndexTheory.index_ok. cbn. split; [|done].
    apply stack_ok_table in Hok as [H0 Hu Hb Hn Hout]. split; try done; [constructor|by intros id n ?%elem_of_nil].
  - destruct (top_ok keys s u1 (u2 :: us) Hs Hok) as ([H0 Hu Hb Hnd Hout] & Hf1 & He1 & Hr1 & Hn1 & Hc1 & Hrest).
    set (f1 := frame_of u1 (old_values s) (removed_values s)) in *. set (ol2 := from (old_values s) (old_values_end u1)) in *.
    set (r2 := from (removed_values s) (removed_values_end u1)) in *. cbn in Hrest. destruct Hrest as (Ht2 & He2 & Hr2 & Hf2 & Hn2 & Hc2 & Hrest).
    set (f2 := frame_of u2 ol2 r2) in *.
    assert (before (removed_values s) (removed_values_end u1) ++ r2 = removed_values s) as Hsplit by apply before_from.
    pose proof Hnd as Hnd'. rewrite <- Hsplit, fmap_app in Hnd'. apply NoDup_app in Hnd' as (Hndb & Hdisj & Hndr).
    destruct (compress_old_loop u2 (table s) (before (old_values s) (old_values_end u1)) (removed_values s)) as (L1 & L2 & L3).
    { apply nodup_old_le with (ctime u1); [lia|apply Hf1]. }
    unfold compress_impl. rewrite Hs. destruct (compress_old _ _ _ _) as [l r]. cbn [fst snd] in *.
    assert (r = map_removed (restore_in (ctime u2) (f_old f1)) (removed_values s)) as ->.
    { apply assoc_eq; [by rewrite map_removed_keys|by rewrite L3|]. intros id. rewrite L2, find_map_removed.
      destruct (find_removed (removed_values s) id) as [n|] eqn:Hr; [|by repeat case_match]. apply find_removed_Some in Hr as Hin; [|done].
      by destruct (Hout _ _ Hin) as [-> _]. }
    rewrite map_removed_before, map_removed_from. fold r2. rewrite (map_removed_id _ r2).
    2: { intros id n Hin. unfold restore_in. destruct (find_in _ _ _) as [e|] eqn:He; [|done].
         pose proof (find_in_le (ctime u1) (ctime u2) _ _ _ ltac:(lia) (fo_old_nodup _ _ Hf1) He) as He'.
         pose proof (restore_earlier keys s u1 (u2 :: us) Hs Hok id n n Hin) as Hre. unfold restore_in in Hre. change (f_old f1) with (before (old_values s) (old_values_end u1)) in He'.
         by rewrite He' in Hre. }
    unfold squash_fast. cbn [undo_stack table old_values removed_values next_id revision monotonic_revision].
    fold ol2. subst l. change (ctime u2) with (f_ctime f2). change (old_next_id u2) with (f_next f2). change (before (old_values s) (old_values_end u1)) with (f_old f1).
    change (before (removed_values s) (removed_values_end u1)) with (f_removed f1).
    set (ko := filter (λ e, old_mtime e < f_ctime f2 ∧ is_Some (table s !! old_current e)) (f_old f1)).
    set (kr := filter (λ p, p.1 < f_next f2) (map_removed (restore_in (f_ctime f2) (f_old f1)) (f_removed f1))).
    assert (frame_of u2 (ko ++ ol2) (kr ++ r2) = merged (table s) f1 f2) as Hm.
    { unfold frame_of, merged. by rewrite !before_app. }
    assert (snapshot (table s) (merged (table s) f1 f2) = snapshot (snapshot (table s) f1) f2) as Hsnap by (apply merged_snapshot; [done|done|done|cbn; lia]).
    split_and!; [| |done|done].
    + unfold UndoIndexTheory.index_ok. cbn [undo_stack table old_values removed_values next_id revision monotonic_revision]. cbn [UndoIndexTheory.stack_ok]. rewrite Hm, !from_app, Hsnap by done.
      split; [|split_and!].
      * split; try done.
        -- rewrite fmap_app. apply NoDup_app. split_and!; [| |done].
           ++ eapply sublist_NoDup; [exact Hndb|]. etrans; [apply fmap_sublist, sublist_filter|]. by rewrite map_removed_keys.
           ++ intros id ([i n] & -> & [_ Hin]%list_elem_of_filter)%list_elem_of_fmap. apply Hdisj. rewrite <- (map_removed_keys (restore_in (f_ctime f2) (f_old f1))).
              apply list_elem_of_fmap. by exists (i, n).
        -- intros id n [[_ ([i m] & [= -> ->] & Hin)%list_elem_of_fmap]%list_elem_of_filter|Hin]%elem_of_app.
           ++ apply (Hout i m). rewrite <- Hsplit. set_solver.
           ++ apply (Hout id n). rewrite <- Hsplit. set_solver.
      * rewrite length_app. lia.
      * rewrite length_app. lia.
      * apply merged_ok; [done|done|done|cbn; lia].
      * lia.
      * lia.
      * done.
    + unfold view. cbn [undo_stack table old_values removed_values]. rewrite Hs. cbn [snapshots tail]. by rewrite Hm, !from_app, Hsnap.
Qed.

(** ** Commit *)

Lemma commit_stack k o ro us : ∀ t next mono ol r, stack_ok t next mono us ol r →
  (∀ u, u ∈ take k us → (o <= old_values_end u)%nat ∧ (ro <= removed_values_end u)%nat) →
  stack_ok t next mono (shift_state o ro <$> take k us) (drop_last o ol) (drop_last ro r) ∧
  snapshots t (shift_state o ro <$> take k us) (drop_last o ol) (drop_last ro r) = take k (snapshots t us ol r).
Proof.
  revert k. induction us as [|u us IH]; intros k t next mono ol r Hok Hends;
    assert (table_ok t next mono (drop_last ro r)) as Ht by
      (apply stack_ok_table in Hok as [H0 Hu Hb Hn Hout]; split; try done; [eapply sublist_NoDup; [exact Hn|apply fmap_sublist, sublist_take]|];
       intros id n Hin; apply (Hout id n); by eapply sublist_subseteq; [apply sublist_take|]).
  - destruct k; cbn; split; try done; by split.
  - destruct k as [|k]; [by cbn|]. cbn [take fmap list_fmap] in *. cbn [UndoIndexTheory.stack_ok] in Hok. destruct Hok as (_ & He & Hr & Hf & Hn & Hc & Hrest).
    destruct (Hends u) as [Heo Her]; [by left|].
    assert (frame_of (shift_state o ro u) (drop_last o ol) (drop_last ro r) = frame_of u ol r) as Hfr.
    { unfold frame_of. cbn [shift_state old_values_end removed_values_end old_next_id ctime]. by rewrite !before_drop_last. }
    destruct (IH k _ _ _ _ _ Hrest) as [H1 H2]; [intros u' Hu'; apply Hends; by right|].
    cbn [UndoIndexTheory.stack_ok snapshots take]. rewrite Hfr. cbn [shift_state old_values_end removed_values_end old_next_id ctime].
    rewrite !from_drop_last by done. split; [|by rewrite H2]. split_and!; try done; unfold drop_last; rewrite length_take; lia.
Qed.

Lemma ends_mono us k ub : ∀ t next mono ol r, stack_ok t next mono us ol r → last (take k us) = Some ub →
  (old_values_end ub <= length ol)%nat ∧ (removed_values_end ub <= length r)%nat ∧
  ∀ u, u ∈ take k us → (old_values_end ub <= old_values_end u)%nat ∧ (removed_values_end ub <= removed_values_end u)%nat.
Proof.
  revert k. induction us as [|u us IH]; intros k t next mono ol r Hok Hl; [by destruct k|]. destruct k as [|k]; [done|].
  cbn [take] in *. destruct Hok as (_ & He & Hr & _ & _ & _ & Hrest). destruct (take k us) as [|u' us'] eqn:Hk.
  - cbn in Hl. simplify_eq. split_and!; [done|done|]. by intros u' ->%list_elem_of_singleton.
  - rewrite last_cons_cons in Hl. destruct (IH k _ _ _ _ _ Hrest) as (H1 & H2 & H3); [by rewrite Hk|]. rewrite Hk in H3. rewrite !length_from in * by done.
    split_and!; [lia|lia|]. intros x [->|Hx]%elem_of_cons; [lia|auto].
Qed.

Lemma length_view s : length (view s) = length (undo_stack s).
Proof. unfold view. generalize (table s), (old_values s), (removed_values s). induction (undo_stack s) as [|u us IH]; intros t ol r; [done|]. cbn. by rewrite IH. Qed.

(** The sessions that stay open. *)
Definition commit_keeps (rev revision : Z) (n : nat) : nat :=
  if rev <? revision then Z.to_nat (revision - rev) `min` n else 0%nat.

Lemma commit_ok s rev : index_ok s → index_ok (commit s rev) ∧ view (commit s rev) = take (commit_keeps rev (revision s) (length (view s))) (view s) ∧
  table (commit s rev) = table s ∧ next_id (commit s rev) = next_id s ∧ revision (commit s rev) = revision s.
Proof.
  intros Hok. unfold commit, commit_keeps. destruct (Z.ltb_spec rev (revision s)) as [Hlt|Hge].
  2: { rewrite Z.min_r, Z.eqb_refl by lia. split; [|done]. apply stack_ok_table in Hok as [H0 Hu Hb Hn Hout]. split; [|done]. split; try done; [constructor|].
       by intros id n ?%elem_of_nil. }
  rewrite Z.min_l, (proj2 (Z.eqb_neq _ _)) by lia. rewrite length_view. destruct (Z.ltb_spec (revision s - rev) (Z.of_nat (length (undo_stack s)))) as [Hk|Hk].
  2: { rewrite Nat.min_r, take_ge by (rewrite ?length_view; lia). done. }
  rewrite Nat.min_l by lia. set (k := Z.to_nat (revision s - rev)). destruct (last (take k (undo_stack s))) as [ub|] eqn:Hl.
  2: { apply last_None in Hl. apply (f_equal length) in Hl. rewrite length_take in Hl. cbn in Hl. lia. }
  destruct (ends_mono _ _ _ _ _ _ _ _ Hok Hl) as (_ & _ & Hends).
  destruct (commit_stack k (dropped (old_values_end ub)) (dropped (removed_values_end ub)) _ _ _ _ _ _ Hok) as [H1 H2].
  { intros u Hu. destruct (Hends u Hu). unfold dropped. lia. }
  done.
Qed.

End Squash.
