(* ===== verification/UndoIndexRefinement.v ===== *)
(** * A table with an undo stack is a stack of snapshots ([chaindb])

    The specification keeps a copy of the whole table for every session. Every sequence of operations on the table with its shared lists and time stamps gives the
    same tables and the same errors, as long as no change is put back after a conflict; such a change breaks undo. *)

From S2P Require Import Prelude UndoIndex UndoIndexTheory UndoIndexOps UndoIndexSquash.
From stdpp Require Import gmap list.
Open Scope Z_scope.

Section Refinement.
Context {V K : Type} `{EqDecision K} (keys : list (V → K)).

Inductive operation : Type :=
| Create (v : V)
| Modify (id : Z) (m : V → V * option exn)
| Remove (id : Z)
| StartSession
| Undo
| Squash
| Commit (rev : Z)
| SetRevision (rev : Z).

Definition exec (s : undo_index V) (o : operation) : undo_index V * option exn :=
  match o with
  | Create v => match emplace keys s v with Ok (s, _) => (s, None) | Err x => (s, Some x) end
  | Modify id m => modify keys s id m
  | Remove id => match remove_object s id with Ok s => (s, None) | Err x => (s, Some x) end
  | StartSession => (add_session s, None)
  | Undo => (undo keys s, None)
  | Squash => (squash s, None)
  | Commit rev => (commit s rev, None)
  | SetRevision rev => match set_revision s rev with Ok s => (s, None) | Err x => (s, Some x) end
  end.

(** ** The specification *)

Record snapshot_db : Type := SnapshotDb {
  sd_table : gmap Z V;
  sd_next : Z;
  sd_stack : list (gmap Z V * Z);
  sd_revision : Z }.

Definition sd_init : snapshot_db := SnapshotDb ∅ 0 [] 0.

Definition sd_conflict (t : gmap Z V) (id : Z) (v : V) : bool := existsb (λ p, negb (p.1 =? id) && same_key keys v p.2) (map_to_list t).

Definition sd_exec (a : snapshot_db) (o : operation) : snapshot_db * option exn :=
  let '(SnapshotDb t n st rev) := a in
  match o with
  | Create v => if sd_conflict t n v then (a, Some logic_error) else (SnapshotDb (<[n := v]> t) (n + 1) st rev, None)
  | Modify id m =>
    match t !! id with
    | None => (a, Some undefined_behaviour)
    | Some v =>
      let '(v', thrown) := m v in
      if sd_conflict t id v' then (SnapshotDb (delete id t) n st rev, match thrown with Some x => Some x | None => Some logic_error end)
      else (SnapshotDb (<[id := v']> t) n st rev, thrown)
    end
  | Remove id => match t !! id with None => (a, Some out_of_range) | Some _ => (SnapshotDb (delete id t) n st rev, None) end
  | StartSession => (SnapshotDb t n ((t, n) :: st) (rev + 1), None)
  | Undo => match st with [] => (a, None) | (t', n') :: st => (SnapshotDb t' n' st (rev - 1), None) end
  | Squash => match st with [] => (a, None) | _ :: st => (SnapshotDb t n st (rev - 1), None) end
  | Commit r => (SnapshotDb t n (take (commit_keeps r rev (length st)) st) rev, None)
  | SetRevision r =>
    match st with
    | _ :: _ => (a, Some logic_error)
    | [] => if r <? rev then (a, Some logic_error) else (SnapshotDb t n [] r, None)
    end
  end.

(** ** The abstraction *)

Definition items (t : gmap Z (node V)) : gmap Z V := item <$> t.

Definition abstract (s : undo_index V) : snapshot_db :=
  SnapshotDb (items (table s)) (next_id s) ((λ p, (items p.1, p.2)) <$> view s) (revision s).

(** The change that is put back. *)
Definition op_puts_back (s : undo_index V) (o : operation) : bool :=
  match o with
  | Modify id m => match table s !! id with Some n => puts_back keys s id (m (item n)).1 | None => false end
  | _ => false
  end.

Lemma conflict_items t id v : sd_conflict (items t) id v = conflict keys t id v.
Proof.
  apply eq_bool_prop_intro. rewrite !Is_true_true, conflict_true. unfold sd_conflict. rewrite existsb_exists. split.
  - intros ([i w] & Hin%list_elem_of_In & Hb). apply elem_of_map_to_list in Hin. unfold items in Hin. apply lookup_fmap_Some in Hin as (n & <- & Hl).
    apply andb_true_iff in Hb as [Hne Hk]. cbn in *. exists i, n. split; [|done]. by apply negb_true_iff, Z.eqb_neq in Hne.
  - intros (i & n & Hne & Hl & Hk). exists (i, item n). split.
    + apply list_elem_of_In, elem_of_map_to_list. unfold items. rewrite lookup_fmap, Hl. done.
    + cbn. rewrite Hk, andb_true_r. by apply negb_true_iff, Z.eqb_neq.
Qed.

Lemma items_insert t id v m : items (<[id := Node v m]> t) = <[id := v]> (items t).
Proof. apply fmap_insert. Qed.

Lemma items_delete t id : items (delete id t) = delete id (items t).
Proof. apply fmap_delete. Qed.

Lemma lookup_items t id : items t !! id = item <$> t !! id.
Proof. apply lookup_fmap. Qed.

Lemma abstract_eq s t n st rev : items (table s) = t → next_id s = n → (λ p, (items p.1, p.2)) <$> view s = st → revision s = rev →
  abstract s = SnapshotDb t n st rev.
Proof. by intros <- <- <- <-. Qed.

Lemma modify_revision s id m : revision (modify keys s id m).1 = revision s.
Proof.
  unfold modify, on_modify. destruct (table s !! id) as [n|]; [|done]. destruct (undo_stack s) as [|u us] eqn:Hs; [|destruct (_ <=? _)];
    destruct (m _) as [v thrown]; destruct (conflict _ _ _ _); try done; cbn; unfold UndoIndex.remove; rewrite ?Hs; try done. by destruct (_ <=? _).
Qed.

Lemma squash_revision (s : undo_index V) : revision (squash s) = match undo_stack s with [] => revision s | _ => revision s - 1 end.
Proof.
  unfold squash, squash_fast, compress_impl. destruct (undo_stack s) as [|u1 [|u2 us]] eqn:Hs; rewrite ?Hs; [done|done|].
  by destruct (compress_old _ _ _ _).
Qed.

Lemma exec_refines s o : index_ok keys s → op_puts_back s o = false →
  index_ok keys (exec s o).1 ∧ sd_exec (abstract s) o = (abstract (exec s o).1, (exec s o).2).
Proof.
  intros Hok Hp. pose proof (length_view s) as Hlen. destruct o as [v|id m|id| | | |rev|rev]; cbn [exec sd_exec abstract].
  - rewrite conflict_items. unfold emplace at 3. destruct (conflict keys (table s) (next_id s) v) eqn:Hc.
    { unfold emplace. by rewrite Hc. }
    destruct (emplace keys s v) as [[s' i]|x] eqn:He; [|unfold emplace in He; by rewrite Hc in He].
    destruct (emplace_ok keys s v s' i Hok He) as (H1 & H2 & -> & [k H3] & H4). cbn [fst snd]. split; [done|]. f_equal. symmetry.
    apply abstract_eq; [by rewrite H3, items_insert|done|by rewrite H2|]. unfold emplace in He. rewrite Hc in He. by simplify_eq.
  - rewrite lookup_items. cbn in Hp. destruct (table s !! id) as [n|] eqn:Hl; [|unfold modify; by rewrite Hl]. cbn [fmap option_fmap option_map].
    destruct (modify keys s id m) as [s' x] eqn:Hm. pose proof (modify_revision s id m) as Hrev. rewrite Hm in Hrev. cbn [fst snd] in *.
    destruct (modify_ok keys s id m n s' x Hok Hl Hp Hm) as (H1 & H2 & H3 & H4). split; [done|]. rewrite <- conflict_items in H4.
    destruct (m (item n)) as [v thrown]. cbn [fst snd] in *. destruct (sd_conflict (items (table s)) id v).
    + destruct H4 as [H4 ->]. f_equal. symmetry. apply abstract_eq; [by rewrite H4, items_delete|done|by rewrite H2|done].
    + destruct H4 as [[k H4] ->]. f_equal. symmetry. apply abstract_eq; [by rewrite H4, items_insert|done|by rewrite H2|done].
  - rewrite lookup_items. unfold remove_object. destruct (table s !! id) as [n|] eqn:Hl; [|done]. cbn [fmap option_fmap option_map fst snd].
    destruct (table_remove_ok keys s id n n Hok Hl eq_refl) as (H1 & H2 & H3 & H4); [destruct (undo_stack s); auto|]. split; [done|]. f_equal. symmetry.
    apply abstract_eq; [by rewrite H3, items_delete|done|by rewrite H2|]. unfold UndoIndex.remove. destruct (undo_stack s); [done|]. by destruct (_ <=? _).
  - cbn [fst snd]. destruct (add_session_ok keys s Hok) as [H1 H2]. split; [done|]. f_equal. symmetry. apply abstract_eq; [done|done|by rewrite H2|done].
  - cbn [fst snd]. destruct (undo_ok keys s Hok) as (H1 & H2 & H3). split; [done|]. destruct (view s) as [|[t' n'] st] eqn:Hv; cbn in *.
    + assert (undo keys s = s) as ->; [|unfold abstract; by rewrite Hv]. unfold undo. by destruct (undo_stack s).
    + f_equal. symmetry. injection H3 as H3 H4. apply abstract_eq; [by rewrite H3|done|by rewrite H2|].
      unfold undo. destruct (undo_stack s); [done|]. by destruct (foldl _ _ _).
  - cbn [fst snd]. destruct (squash_ok keys s Hok) as (H1 & H2 & H3 & H4). split; [done|]. pose proof (squash_revision s) as Hrev.
    destruct (view s) as [|x st] eqn:Hv; cbn in *.
    + destruct (undo_stack s) eqn:Hs; [|done]. assert (squash s = s) as -> by (unfold squash, squash_fast; by rewrite Hs). unfold abstract. by rewrite Hv.
    + f_equal. symmetry. apply abstract_eq; [by rewrite H3|done|by rewrite H2|]. rewrite Hrev. by destruct (undo_stack s).
  - cbn [fst snd]. destruct (commit_ok keys s rev Hok) as (H1 & H2 & H3 & H4 & H5). split; [done|]. f_equal. symmetry.
    apply abstract_eq; [by rewrite H3|done| |done]. rewrite H2, fmap_take, length_fmap. done.
  - unfold set_revision. unfold view in *. destruct (undo_stack s) as [|u us] eqn:Hs; [|done]. cbn. destruct (rev <? revision s).
    + split; [done|]. unfold abstract, view. cbn [fst snd]. by rewrite Hs.
    + cbn. split; [|done]. apply stack_ok_table in Hok. by split.
Qed.

(** ** Runs *)

Fixpoint run (s : undo_index V) (os : list operation) : undo_index V * list (option exn) :=
  match os with
  | [] => (s, [])
  | o :: os => let '(s, x) := exec s o in let '(s, xs) := run s os in (s, x :: xs)
  end.

Fixpoint sd_run (a : snapshot_db) (os : list operation) : snapshot_db * list (option exn) :=
  match os with
  | [] => (a, [])
  | o :: os => let '(a, x) := sd_exec a o in let '(a, xs) := sd_run a os in (a, x :: xs)
  end.

Fixpoint puts_back_in (s : undo_index V) (os : list operation) : bool :=
  match os with
  | [] => false
  | o :: os => op_puts_back s o || puts_back_in (exec s o).1 os
  end.

Lemma run_refines os : ∀ s, index_ok keys s → puts_back_in s os = false →
  index_ok keys (run s os).1 ∧ sd_run (abstract s) os = (abstract (run s os).1, (run s os).2).
Proof.
  induction os as [|o os IH]; intros s Hok Hp; [done|]. cbn [puts_back_in sd_run run] in *. apply orb_false_iff in Hp as [Hp1 Hp2].
  destruct (exec_refines s o Hok Hp1) as [H1 H2]. rewrite H2. destruct (exec s o) as [s1 x]. cbn [fst snd] in *.
  destruct (IH s1 H1 Hp2) as [H3 H4]. rewrite H4. by destruct (run s1 os).
Qed.

Lemma init_ok : index_ok keys (undo_index_init (V := V)).
Proof.
  split; [|done]. unfold undo_index_init. cbn [table next_id monotonic_revision removed_values].
  split; [done| | |constructor|by intros id n ?%elem_of_nil].
  - by intros id id' n n' ?%lookup_empty_Some.
  - by intros id n ?%lookup_empty_Some.
Qed.

Lemma undo_times_view st : ∀ s, index_ok keys s → view s = st →
  undo_stack (undo_times keys (length st) s) = [] ∧
  (table (undo_times keys (length st) s), next_id (undo_times keys (length st) s)) = match last st with Some x => x | None => (table s, next_id s) end.
Proof.
  induction st as [|x st IH]; intros s Hok Hv.
  - split; [|done]. pose proof (length_view s) as Hl. rewrite Hv in Hl. by destruct (undo_stack s) eqn:Hs.
  - destruct (undo_ok keys s Hok) as (H1 & H2 & H3). rewrite Hv in H2, H3. destruct (IH (undo keys s) H1 H2) as [H4 H5].
    cbn [length undo_times]. split; [done|]. rewrite H5, H3. destruct st as [|y st]; [done|]. rewrite last_cons_cons. destruct (last (y :: st)) eqn:Hl; [done|]. by apply last_None in Hl.
Qed.

(** *** Objects without a copy *)

Lemma restore_old_keeps u id (n : node V) (ol : list (old_node V)) : (∀ e, e ∈ ol → old_current e = id → ctime u <= old_mtime e) → ∀ t r, t !! id = Some n →
  (foldl (λ tr e, restore_old u e tr) (t, r) ol).1 !! id = Some n.
Proof.
  induction ol as [|e ol IH]; intros He t r Ht; [done|]. cbn [foldl]. destruct (restore_old u e (t, r)) as [t1 r1] eqn:E.
  apply IH; [intros x Hx; apply He; by right|]. unfold restore_old in E. cbn [fst snd] in E.
  destruct (Z.ltb_spec (old_mtime e) (ctime u)) as [Hlt|_]; [|by simplify_eq]. destruct (decide (old_current e = id)) as [Hid|Hid].
  - pose proof (He e (list_elem_of_here _ _) Hid). lia.
  - destruct (t !! old_current e); simplify_eq; [by rewrite lookup_insert_ne|done].
Qed.

Lemma restore_removed_keeps u id n l : ∀ t : gmap Z (node V), t !! id = Some n → foldl (λ t p, restore_removed keys u p t) t l !! id = Some n.
Proof.
  induction l as [|p l IH]; intros t Ht; [done|]. cbn [foldl]. apply IH. unfold restore_removed. destruct (_ <? _); [|done].
  destruct (t !! p.1) eqn:E; [done|]. destruct (conflict _ _ _ _); [done|]. rewrite lookup_insert_ne; [done|]. intros Hp. congruence.
Qed.

(** Undo leaves an object alone that the session did not copy. *)
Lemma undo_keeps (s : undo_index V) u us id n : undo_stack s = u :: us → table s !! id = Some n → id < old_next_id u →
  (∀ e, e ∈ before (old_values s) (old_values_end u) → old_current e = id → ctime u <= old_mtime e) → table (undo keys s) !! id = Some n.
Proof.
  intros Hs Ht Hid He. unfold undo. rewrite Hs.
  pose proof (restore_old_keeps u id n _ He (filter (λ p, p.1 < old_next_id u) (table s)) (removed_values s)) as H.
  destruct (foldl _ _ _) as [t r]. cbn [table]. apply restore_removed_keeps, H. by apply map_lookup_filter_Some.
Qed.

(** An object with an older time stamp has no copy in the session. *)
Lemma older_has_no_copy (s : undo_index V) u us id n : index_ok keys s → undo_stack s = u :: us → table s !! id = Some n → mtime n < ctime u →
  id < old_next_id u ∧ ctime u <= monotonic_revision s ∧
  ∀ e, e ∈ before (old_values s) (old_values_end u) → old_current e = id → ctime u <= old_mtime e.
Proof.
  intros Hok Hs Ht Hm. unfold index_ok in Hok. rewrite Hs in Hok. destruct Hok as (_ & _ & _ & Hf & _ & Hmono & _). split; [|split; [done|]].
  - destruct (Z.lt_ge_cases id (old_next_id u)) as [|Hge]; [done|]. pose proof (fo_new _ _ Hf id n Ht Hge) as H. cbn in H. lia.
  - intros e He Hid. destruct (Z.lt_ge_cases (old_mtime e) (ctime u)) as [Hlt|]; [|done].
    destruct (fo_old _ _ Hf e He Hlt) as (_ & n' & Hc & Hle). unfold current in Hc. rewrite Hid, Ht in Hc. simplify_eq. cbn in Hle. lia.
Qed.

End Refinement.

(** C9: Refinement of the undo stack: after every sequence of creations, changes, removals, new sessions, undos, squashes and commits in which no change had to be put
    back after a conflict, the table, the next id, the errors and what undo goes back to are those of the specification that copies the whole table for
    each session. In particular undo restores every object exactly, however the sessions were nested and squashed. *)
Theorem undo_index_refines_snapshots {V K} `{EqDecision K} (keys : list (V → K)) (os : list operation) :
  puts_back_in keys undo_index_init os = false →
  sd_run keys sd_init os = (abstract (run keys undo_index_init os).1, (run keys undo_index_init os).2).
Proof. intros Hp. exact (proj2 (run_refines keys os _ (init_ok keys) Hp)). Qed.

(** Keys stay unique, and undoing every session after any such sequence gives the table as it was when the first open session began. *)
Theorem undo_all_restores_first_snapshot {V K} `{EqDecision K} (keys : list (V → K)) (os : list operation) :
  puts_back_in keys undo_index_init os = false →
  let s := (run keys undo_index_init os).1 in
  unique keys (table s) ∧ undo_stack (undo_all keys s) = [] ∧
  (items (table (undo_all keys s)), next_id (undo_all keys s)) =
    match last (sd_stack (sd_run keys sd_init os).1) with Some x => x | None => (items (table s), next_id s) end.
Proof.
  intros Hp s. destruct (run_refines keys os _ (init_ok keys) Hp) as [Hok Hr]. change (abstract undo_index_init) with (@sd_init V) in Hr. rewrite Hr. fold s in Hok |- *.
  split; [by apply stack_ok_table in Hok as [_ ? _ _ _]|]. cbn [fst abstract sd_stack]. unfold undo_all. rewrite <- (length_view s).
  destruct (undo_times_view keys (view s) s Hok eq_refl) as [H1 H2]. split; [done|]. rewrite fmap_last.
  destruct (last (view s)) as [x|]; cbn [fmap option_fmap option_map]; by rewrite <- H2 || (injection H2 as -> ->).
Qed.

(** C39: a change that conflicts with another object is put back, but the time stamp that marks the object as copied stays, and so a later change of the object in the same
    session is not copied and not undone. After any sequence of operations without such a change, of any table, if a change of an object has to be put back and another change
    of it then succeeds, undo leaves the value of that second change, where it would have given back the old value before. *)
Theorem put_back_change_escapes_undo {V K} `{EqDecision K} (keys : list (V → K)) (os : list operation) id n m1 m2 :
  puts_back_in keys undo_index_init os = false →
  let s := (run keys undo_index_init os).1 in
  table s !! id = Some n → puts_back keys s id (m1 (item n)).1 = true →
  let s1 := (modify keys s id m1).1 in
  conflict keys (table s1) id (m2 (item n)).1 = false →
  let s2 := (modify keys s1 id m2).1 in
  (modify keys s id m1).2 ≠ None ∧ items (table s1) !! id = Some (item n) ∧
  items (table (undo keys s)) !! id = Some (item n) ∧ items (table (undo keys s2)) !! id = Some (m2 (item n)).1.
Proof.
  intros Hp s Ht Hpb s1 Hc2 s2. destruct (run_refines keys os _ (init_ok keys) Hp) as [Hok _]. fold s in Hok. unfold puts_back in Hpb.
  destruct (undo_stack s) as [|u us] eqn:Hs; [done|]. rewrite Ht in Hpb. apply andb_true_iff in Hpb as [Hm%Z.ltb_lt Hc].
  destruct (older_has_no_copy keys s u us id n Hok Hs Ht Hm) as (Hid & Hmono & Hno).
  set (c := λ v, UndoIndex (<[id := Node v (monotonic_revision s)]> (table s)) (undo_stack s) (old_values s) (removed_values s) (next_id s) (revision s) (monotonic_revision s)).
  assert (s1 = c (item n) ∧ (modify keys s id m1).2 ≠ None) as [E1 Hx].
  { unfold s1, modify. rewrite Ht. unfold on_modify. rewrite Hs, (proj2 (Z.leb_gt _ _) Hm). cbn [item mtime]. destruct (m1 (item n)) as [v x]. cbn [table].
    cbn [fst] in Hc. rewrite conflict_insert, Hc. cbn. rewrite insert_insert_eq. split; [unfold c; by rewrite Hs|by destruct x]. }
  assert (s2 = c (m2 (item n)).1) as E2.
  { unfold s2, modify. rewrite E1 in *. cbn [c table undo_stack] in *. rewrite lookup_insert_eq. unfold on_modify. cbn [c undo_stack mtime]. rewrite Hs.
    rewrite (proj2 (Z.leb_le _ _) Hmono). cbn [item]. destruct (m2 (item n)) as [v x]. cbn [fst] in *. cbn [c table]. rewrite Hc2. cbn. rewrite insert_insert_eq.
    unfold with_table, c. cbn. by rewrite Hs. }
  split; [done|]. unfold items. rewrite !lookup_fmap. split; [by rewrite E1; cbn [c table]; rewrite lookup_insert_eq|]. split.
  - by rewrite (undo_keeps keys s u us id n Hs Ht Hid Hno).
  - rewrite E2, (undo_keeps keys (c (m2 (item n)).1) u us id (Node (m2 (item n)).1 (monotonic_revision s))); [done|exact Hs|apply lookup_insert_eq|done|exact Hno].
Qed.
