(* ===== verification/UndoIndexExample.v ===== *)
(** * An undo stack on concrete tables ([chaindb])

    Numbers under one unique index: sessions that are nested, squashed and undone, and what a change that is put back does to undo. *)

From S2P Require Import Prelude UndoIndex UndoIndexTheory UndoIndexOps UndoIndexSquash UndoIndexRefinement.
From stdpp Require Import gmap list.
Open Scope Z_scope.

Module UndoIndexExample.

Definition keys : list (Z → Z) := [λ v, v].

Definition set (id v : Z) : operation (V := Z) := Modify id (λ _, (v, None)).

Definition nested : list (operation (V := Z)) :=
  [Create 10; Create 20; StartSession; set 0 11; StartSession; set 0 12; Remove 1; Create 30; set 2 31; Squash; StartSession; set 2 32].

Definition value (os : list (operation (V := Z))) (id : Z) : option Z := item <$> table (run keys undo_index_init os).1 !! id.

Lemma undo_index_refines_snapshots_witness :
  value nested 0 = Some 12 ∧ value nested 1 = None ∧ value nested 2 = Some 32 ∧
  sd_run keys sd_init nested = (abstract (run keys undo_index_init nested).1, (run keys undo_index_init nested).2).
Proof.
  split; [vm_compute; reflexivity|]. split; [vm_compute; reflexivity|]. split; [vm_compute; reflexivity|].
  apply (undo_index_refines_snapshots keys nested). vm_compute. reflexivity.
Defined.

Lemma undo_all_restores_first_snapshot_witness :
  items (table (undo_all keys (run keys undo_index_init nested).1)) !! 0 = Some 10 ∧ next_id (undo_all keys (run keys undo_index_init nested).1) = 2 ∧
  undo_stack (undo_all keys (run keys undo_index_init nested).1) = [].
Proof.
  destruct (undo_all_restores_first_snapshot keys nested) as (_ & H1 & _); [vm_compute; reflexivity|].
  split; [vm_compute; reflexivity|]. split; [vm_compute; reflexivity|]. exact H1.
Defined.

(** A change that conflicts with another object is put back, but the time stamp that marks the object as copied stays: a later change of the object in the same session
    is not copied, and undo does not take it back. It does not help that the failed change was in a session of its own that was undone: squashing a later session
    into the outer one then drops the old value, and undoing the outer session leaves the changed value. *)
Theorem failed_change_breaks_undo :
  let before := [Create 10; Create 20; StartSession] in
  let one := before ++ [set 0 20; set 0 30; Undo] in
  let two := before ++ [StartSession; set 0 20; Undo; StartSession; set 0 30; Squash; Undo] in
  (run keys undo_index_init one).2 = [None; None; None; Some logic_error; None; None] ∧
  value before 0 = Some 10 ∧ value one 0 = Some 30 ∧ undo_stack (run keys undo_index_init one).1 = [] ∧
  value two 0 = Some 30 ∧ undo_stack (run keys undo_index_init two).1 = [].
Proof. vm_compute. repeat split. Qed.

Lemma put_back_change_escapes_undo_witness :
  let s := (run keys undo_index_init [Create 10; Create 20; StartSession]).1 in
  let s2 := (modify keys (modify keys s 0 (λ _, (20, None))).1 0 (λ _, (30, None))).1 in
  items (table (undo keys s)) !! 0 = Some 10 ∧ items (table (undo keys s2)) !! 0 = Some 30.
Proof.
  destruct (put_back_change_escapes_undo keys [Create 10; Create 20; StartSession] 0 (Node 10 0) (λ _, (20, None)) (λ _, (30, None)))
    as (_ & _ & H1 & H2); [vm_compute; reflexivity..|]. exact (conj H1 H2).
Defined.

End UndoIndexExample.
