(* ===== verification/TransactionContext.v ===== *)
(** * The resources of a transaction ([transaction_context.cpp])

    How a transaction gets its limits of network and CPU usage from the block, the chain, its header, the accounts that pay and the node, how it is checked against them while
    it runs and at its end, and how it is billed; how it is recorded against duplicates, and what an interruption for recompiled code does. Times are in microseconds.
    The actions that run are an argument; permissions, traces, digests and deep mind logging are left out. An exception ends the transaction, whose changes
    are undone. *)

From S2P Require Import Prelude ResourceLimits TransactionQueue.
From stdpp Require Import gmap list sorting.
Open Scope Z_scope.

(** ** Data *)

Record trx_config : Type := TrxConfig {
  max_transaction_net_usage : Z;
  max_transaction_cpu_usage : Z;
  min_transaction_cpu_usage : Z;
  net_usage_leeway : Z;
  base_per_transaction_net_usage : Z;
  context_free_discount_net_usage_num : Z;
  context_free_discount_net_usage_den : Z;
  max_transaction_lifetime : Z }.

(** The header of a transaction, and the actors of the authorizations of its actions. *)
Record trx_header : Type := TrxHeader {
  th_id : Z;
  th_expiration : Z;
  max_net_usage_words : Z;
  max_cpu_usage_ms : Z;
  delay_sec : Z;
  th_actors : list (list Z) }.

Inductive cpu_reason : Type :=
| account_cpu_limit_reached
| on_chain_consensus_max_transaction_cpu_usage
| user_specified_trx_max_cpu_usage_ms
| node_configured_max_transaction_time
| speculative_executed_adjusted_max_transaction_time.

(** What the controller gives: its state, and the settings of the transaction. *)
Record trx_env : Type := TrxEnv {
  te_config : trx_config;
  te_kind : meta_type;
  skip_trx_checks : bool;
  is_speculative_block : bool;
  is_write_window : bool;
  only_bill_first_authorizer : bool;
  disable_deferred_trxs : bool;
  pending_block_time : Z;
  time_slot : Z;
  te_greylist_limit : Z;
  is_resource_greylisted : Z → bool;
  trx_start : Z;
  given_block_deadline : Z;
  leeway : Z;
  max_transaction_time_subjective : Z;
  subjective_cpu_bill_us : Z;
  explicit_billed_cpu_time : bool;
  given_billed_cpu_time_us : Z }.

Record transaction_context : Type := TransactionContext {
  is_initialized : bool;
  net_limit : Z;
  net_limit_due_to_block : bool;
  net_limit_due_to_greylist : bool;
  cpu_limit_due_to_greylist : bool;
  eager_net_limit : Z;
  init_net_usage : Z;
  objective_duration_limit : Z;
  block_deadline : Z;
  deadline : Z;
  deadline_exception_code : exn;
  billing_timer_exception_code : exn;
  tx_cpu_usage_reason : cpu_reason;
  billed_cpu_time_us : Z;
  pseudo_start : Z;
  paused_time : Z;
  billed_time : Z;
  bill_to_accounts : list Z;
  validate_ram_usage : list Z;
  trx_net_usage : Z;
  trx_elapsed : Z }.

(** The part of the database that is modelled: resources, and the ids of the transactions of recent blocks with their expirations. *)
Record chain_db : Type := ChainDb { db_resources : resource_db; db_transactions : gmap Z Z }.

Inductive timer_state : Type := timer_running | timer_timed_out | timer_interrupted | timer_stopped.

#[export] Instance timer_state_eq_dec : EqDecision timer_state.
Proof. solve_decision. Defined.

Definition env_read_only (env : trx_env) : bool := bool_decide (te_kind env = read_only).
Definition env_transient (env : trx_env) : bool := bool_decide (te_kind env = read_only) || bool_decide (te_kind env = dry_run).

(** [fc::time_point::maximum()] and [fc::microseconds::maximum()]. *)
Definition time_maximum : Z := i64_max.

Section Context.
Context (env : trx_env).
Implicit Types (c : transaction_context) (d : chain_db).

(** The member initialisers and the constructor. *)
Definition trx_context_init : transaction_context :=
  TransactionContext false 0 true false false 0 0 0 (given_block_deadline env) time_maximum block_cpu_usage_exceeded block_cpu_usage_exceeded
    account_cpu_limit_reached (given_billed_cpu_time_us env) (trx_start env) 0 0 [] [] 0 0.

(** ** Limits *)

(** The limits that the next steps lower. *)
Record limits : Type := Limits {
  l_net : Z;
  l_net_due_to_block : bool;
  l_objective : Z;
  l_deadline : Z;
  l_code : exn;
  l_reason : cpu_reason }.

Definition far_future_time : Z := trx_start env + 31449600000000.

Definition init_block_deadline : Z := if given_block_deadline env =? time_maximum then far_future_time else given_block_deadline env.

Definition block_limits (d : resource_db) : limits :=
  let objective := if env_read_only env && negb (is_write_window env) then init_block_deadline - trx_start env else i64 (get_block_cpu_limit d) in
  Limits (get_block_net_limit d) true objective (trx_start env + objective) block_cpu_usage_exceeded account_cpu_limit_reached.

Definition chain_limits (l : limits) : limits :=
  let cfg := te_config env in
  let l := if (max_transaction_net_usage cfg <=? l_net l) && negb (env_read_only env)
           then Limits (max_transaction_net_usage cfg) false (l_objective l) (l_deadline l) (l_code l) (l_reason l) else l in
  if (max_transaction_cpu_usage cfg <=? l_objective l) && negb (env_read_only env)
  then Limits (l_net l) (l_net_due_to_block l) (max_transaction_cpu_usage cfg) (trx_start env + max_transaction_cpu_usage cfg) tx_cpu_usage_exceeded
         on_chain_consensus_max_transaction_cpu_usage
  else l.

Definition header_limits (h : trx_header) (l : limits) : limits :=
  let net := max_net_usage_words h * 8 in
  let l := if (0 <? net) && (net <=? l_net l) then Limits net false (l_objective l) (l_deadline l) (l_code l) (l_reason l) else l in
  let cpu := max_cpu_usage_ms h * 1000 in
  if (0 <? max_cpu_usage_ms h) && (cpu <=? l_objective l)
  then Limits (l_net l) (l_net_due_to_block l) cpu (trx_start env + cpu) tx_cpu_usage_exceeded user_specified_trx_max_cpu_usage_ms
  else l.

(** ** What the accounts can pay *)

Definition large_number_no_overflow : Z := i64_max / 2.

Definition greylist_limit_of (force_elastic_limits : bool) (a : Z) : Z :=
  if negb force_elastic_limits && is_speculative_block env then if is_resource_greylisted env a then 1 else te_greylist_limit env
  else maximum_elastic_resource_multiplier.

Fixpoint accounts_can_pay (d : resource_db) (force : bool) (accounts : list Z) (net cpu : Z) (gnet gcpu : bool) : result (Z * Z * bool * bool) :=
  match accounts with
  | [] => Ok (net, cpu, gnet, gcpu)
  | a :: accounts =>
    '(nl, ng) ← get_account_net_limit d a (greylist_limit_of force a);
    let '(net, gnet) := if 0 <=? nl then (Z.min net nl, gnet || ng) else (net, gnet) in
    '(cl, cg) ← get_account_cpu_limit d a (greylist_limit_of force a);
    let '(cpu, gcpu) := if 0 <=? cl then (Z.min cpu cl, gcpu || cg) else (cpu, gcpu) in
    accounts_can_pay d force accounts net cpu gnet gcpu
  end.

Definition max_bandwidth_billed_accounts_can_pay (d : resource_db) (accounts : list Z) (force : bool) : result (Z * Z * bool * bool) :=
  '(net, cpu, gnet, gcpu) ← accounts_can_pay d force accounts large_number_no_overflow large_number_no_overflow false false;
  check ((negb force && is_speculative_block env) || (negb gcpu && negb gnet)) transaction_exception;;
  Ok (net, cpu, gnet, gcpu).

(** ** Checks *)

Definition check_net_usage c : result unit :=
  if negb (skip_trx_checks env) && (eager_net_limit c <? trx_net_usage c) then
    Err (if net_limit_due_to_block c then block_net_usage_exceeded
         else if net_limit_due_to_greylist c then greylist_net_usage_exceeded else tx_net_usage_exceeded)
  else Ok tt.

Definition with_net_usage c (n : Z) : transaction_context :=
  TransactionContext (is_initialized c) (net_limit c) (net_limit_due_to_block c) (net_limit_due_to_greylist c) (cpu_limit_due_to_greylist c) (eager_net_limit c)
    (init_net_usage c) (objective_duration_limit c) (block_deadline c) (deadline c) (deadline_exception_code c) (billing_timer_exception_code c)
    (tx_cpu_usage_reason c) (billed_cpu_time_us c) (pseudo_start c) (paused_time c) (billed_time c) (bill_to_accounts c) (validate_ram_usage c) n (trx_elapsed c).

Definition add_net_usage c (u : Z) : result transaction_context :=
  let c := with_net_usage c (u64 (trx_net_usage c + u)) in check_net_usage c;; Ok c.

(** [checktime], where the timer is in a state. *)
Definition checktime c (t : timer_state) : result unit :=
  if decide (t = timer_running) then Ok tt
  else if decide (t = timer_interrupted) then Err interrupt_exception
  else if explicit_billed_cpu_time env || bool_decide (deadline_exception_code c = deadline_exception) then Err deadline_exception
  else if decide (deadline_exception_code c = block_cpu_usage_exceeded) then Err block_cpu_usage_exceeded
  else if decide (deadline_exception_code c = tx_cpu_usage_exceeded)
  then Err (if cpu_limit_due_to_greylist c then greylist_cpu_usage_exceeded else tx_cpu_usage_exceeded)
  else if decide (deadline_exception_code c = leeway_deadline_exception) then Err leeway_deadline_exception
  else Err transaction_exception.

(** The limit that applies to a CPU time, and what is thrown beyond it. *)
Definition cpu_limit_and_error (objective : Z) (code : exn) (greylist : bool) (account_cpu_limit : Z) : Z * exn :=
  let cpu_limited_by_account := account_cpu_limit <=? objective in
  if negb cpu_limited_by_account && bool_decide (code = block_cpu_usage_exceeded) then (objective, block_cpu_usage_exceeded)
  else
    let graylisted := greylist && cpu_limited_by_account in
    (if graylisted then account_cpu_limit else if cpu_limited_by_account then account_cpu_limit else objective,
     if graylisted then greylist_cpu_usage_exceeded else tx_cpu_usage_exceeded).

Definition validate_account_cpu_usage (objective : Z) (code : exn) (greylist : bool) (billed_us account_cpu_limit : Z) : result unit :=
  if (0 <? billed_us) && negb (skip_trx_checks env) then
    let '(limit, x) := cpu_limit_and_error objective code greylist account_cpu_limit in check (billed_us <=? limit) x
  else Ok tt.

Definition validate_account_cpu_usage_estimate (objective : Z) (code : exn) (greylist : bool) (prev_billed_us account_cpu_limit : Z) : result unit :=
  if (0 <=? prev_billed_us) && negb (skip_trx_checks env) then
    let '(limit, x) := cpu_limit_and_error objective code greylist account_cpu_limit in check (prev_billed_us <? limit) x
  else Ok tt.

Definition validate_cpu_usage_to_bill (objective : Z) (code : exn) (greylist : bool) (billed_us account_cpu_limit : Z) (check_minimum : bool) : result unit :=
  if skip_trx_checks env then Ok tt
  else
    (if check_minimum then check (min_transaction_cpu_usage (te_config env) <=? billed_us) transaction_exception else Ok tt);;
    validate_account_cpu_usage objective code greylist billed_us account_cpu_limit.

(** ** The start *)

Definition first_authorizer_of (h : trx_header) : Z :=
  match concat (th_actors h) with a :: _ => a | [] => 0 end.

(** A [flat_set] of accounts. *)
Definition accounts_to_bill (h : trx_header) : list Z :=
  if only_bill_first_authorizer env then [first_authorizer_of h] else merge_sort Z.le (remove_dups (concat (th_actors h))).

(** Nine tenths of what the account has left; the product is of 64 bits. *)
Definition estimate_limit (limit : Z) : Z :=
  let limit := if 0 <? limit then i64 (limit - u64 (limit * 1000) / 10000) else limit in
  if limit <? 0 then 0 else limit.

(** What the accounts, the node and the deadline of the block make of the limits: the limit on network usage while the transaction runs, the deadline and its
    exception. *)
Definition account_deadline (l : limits) (account_net account_cpu : Z) : Z * limits :=
  if env_read_only env then (l_net l, l)
  else
    let new_eager := Z.min (l_net l) (u64 (account_net + net_usage_leeway (te_config env))) in
    let due_to_block := if new_eager <? l_net l then false else l_net_due_to_block l in
    let eager := if new_eager <? l_net l then new_eager else l_net l in
    let l := Limits (l_net l) due_to_block (l_objective l) (l_deadline l) (l_code l) (l_reason l) in
    if account_cpu + leeway env <=? l_deadline l - trx_start env
    then (eager, Limits (l_net l) due_to_block (l_objective l) (trx_start env + account_cpu + leeway env) leeway_deadline_exception (l_reason l))
    else (eager, l).

Definition node_deadline (billed : Z) (l : limits) : limits :=
  let t := max_transaction_time_subjective env in
  let l := if negb (t =? time_maximum) && (trx_start env + t <=? l_deadline l)
           then Limits (l_net l) (l_net_due_to_block l) (l_objective l) (trx_start env + t) tx_cpu_usage_exceeded
                  (if 0 <? billed then speculative_executed_adjusted_max_transaction_time else node_configured_max_transaction_time)
           else l in
  if init_block_deadline <? l_deadline l
  then Limits (l_net l) (l_net_due_to_block l) (l_objective l) init_block_deadline deadline_exception (l_reason l) else l.

Definition subjective_deadline (greylist : bool) (billed account_cpu : Z) (l : limits) : result limits :=
  if env_read_only env || explicit_billed_cpu_time env then Ok l
  else
    let left := account_cpu - subjective_cpu_bill_us env + leeway env in
    let l := if (0 <? subjective_cpu_bill_us env) && (trx_start env + left <? l_deadline l)
             then Limits (l_net l) (l_net_due_to_block l) (l_objective l) (trx_start env + left) tx_cpu_usage_exceeded account_cpu_limit_reached else l in
    validate_account_cpu_usage_estimate (l_objective l) (l_code l) greylist billed (estimate_limit left);;
    Ok l.

(** [init]; the timer is in this state when the deadline has been set. *)
Definition trx_init c d (h : trx_header) (initial_net_usage : Z) (t : timer_state) : result (transaction_context * chain_db) :=
  check (negb (is_initialized c)) transaction_exception;;
  let rl := db_resources d in
  let l := header_limits h (chain_limits (block_limits rl)) in
  let billed := billed_cpu_time_us c in
  '(accounts, rl, account_net, account_cpu, gnet, gcpu) ←
    (if env_read_only env then Ok ([], rl, 0, 0, false, false)
     else
       (if explicit_billed_cpu_time env then validate_cpu_usage_to_bill (l_objective l) (l_code l) false billed i64_max false else Ok tt);;
       let accounts := accounts_to_bill h in
       rl ← update_account_usage rl accounts (time_slot env);
       '(net, cpu, gnet, gcpu) ← max_bandwidth_billed_accounts_can_pay rl accounts false;
       Ok (accounts, rl, net, cpu, gnet, gcpu));
  let '(eager, l') := account_deadline l account_net account_cpu in
  let l' := node_deadline billed l' in
  l' ← subjective_deadline gcpu billed account_cpu l';
  let '(end_, code) := if explicit_billed_cpu_time env then (init_block_deadline, deadline_exception) else (l_deadline l', l_code l') in
  let eager := eager / 8 * 8 in
  let c := TransactionContext false (l_net l') (l_net_due_to_block l') gnet gcpu eager initial_net_usage (l_objective l') init_block_deadline end_ code
             (l_code l') (l_reason l') billed (pseudo_start c) (paused_time c) (billed_time c) accounts (validate_ram_usage c) (trx_net_usage c) (trx_elapsed c) in
  c ← (if 0 <? initial_net_usage then add_net_usage c initial_net_usage else Ok c);
  let end_ := if skip_trx_checks env then block_deadline c else end_ in
  let c := TransactionContext true (net_limit c) (net_limit_due_to_block c) (net_limit_due_to_greylist c) (cpu_limit_due_to_greylist c) (eager_net_limit c)
             (init_net_usage c) (objective_duration_limit c) (block_deadline c) end_ (deadline_exception_code c) (billing_timer_exception_code c)
             (tx_cpu_usage_reason c) (billed_cpu_time_us c) (pseudo_start c) (paused_time c) (billed_time c) (bill_to_accounts c) (validate_ram_usage c)
             (trx_net_usage c) (trx_elapsed c) in
  checktime c t;;
  Ok (c, ChainDb rl (db_transactions d)).

(** The network usage of a packed transaction. *)
Definition discounted_size (prunable : Z) : Z :=
  let num := context_free_discount_net_usage_num (te_config env) in
  let den := context_free_discount_net_usage_den (te_config env) in
  if (0 <? den) && (num <? den) then u64 (u64 (u64 (prunable * num) + den) - 1) / den else prunable.

Definition initial_net_usage_of (h : trx_header) (unprunable prunable : Z) : Z :=
  let base := base_per_transaction_net_usage (te_config env) in
  let n := u64 (base + unprunable + discounted_size prunable) in
  if 0 <? delay_sec h then u64 (n + base + 32) else n.

Definition validate_expiration (h : trx_header) : result unit :=
  check (pending_block_time env <=? th_expiration h * 1000000) expired_tx_exception;;
  check (th_expiration h * 1000000 <=? pending_block_time env + max_transaction_lifetime (te_config env) * 1000000) tx_exp_too_far_exception.

Definition disallow_transaction_extensions : exn :=
  if is_speculative_block env then subjective_block_production_exception else disallowed_transaction_extensions_bad_block_exception.

(** An id that is there already is a duplicate. *)
Definition record_transaction d (id expire : Z) : result chain_db :=
  match db_transactions d !! id with
  | Some _ => Err tx_duplicate
  | None => Ok (ChainDb (db_resources d) (<[id := expire]> (db_transactions d)))
  end.

(** [onblock], and the other transactions that the node makes itself; deferred ones. *)
Definition init_for_implicit_trx c d (h : trx_header) (extensions : bool) (t : timer_state) : result (transaction_context * chain_db) :=
  check (negb extensions) disallow_transaction_extensions;;
  trx_init c d h 0 t.

Definition init_for_deferred_trx c d (h : trx_header) (extensions : bool) (t : timer_state) : result (transaction_context * chain_db) :=
  check ((th_expiration h =? 0) || negb extensions) disallow_transaction_extensions;;
  trx_init c d h 0 t.

(** [other_checks] stands for the checks of the signatures, of the referenced block and accounts and of extensions. *)
Definition init_for_input_trx c d (h : trx_header) (unprunable prunable : Z) (other_checks : result unit) (t : timer_state) :
    result (transaction_context * chain_db) :=
  check (negb (disable_deferred_trxs env || env_transient env) || (delay_sec h =? 0)) transaction_exception;;
  (if negb (skip_trx_checks env) && negb (env_read_only env) then validate_expiration h else Ok tt);;
  other_checks;;
  '(c, d) ← trx_init c d h (initial_net_usage_of h unprunable prunable) t;
  d ← (if env_read_only env then Ok d else record_transaction d (th_id h) (th_expiration h));
  Ok (c, d).

(** ** Running *)

Definition add_ram_usage c d (account ram_delta : Z) : result (transaction_context * chain_db) :=
  rl ← add_pending_ram_usage (db_resources d) account ram_delta;
  let v := if (0 <? ram_delta) && negb (bool_decide (account ∈ validate_ram_usage c)) then account :: validate_ram_usage c else validate_ram_usage c in
  Ok (TransactionContext (is_initialized c) (net_limit c) (net_limit_due_to_block c) (net_limit_due_to_greylist c) (cpu_limit_due_to_greylist c) (eager_net_limit c)
        (init_net_usage c) (objective_duration_limit c) (block_deadline c) (deadline c) (deadline_exception_code c) (billing_timer_exception_code c)
        (tx_cpu_usage_reason c) (billed_cpu_time_us c) (pseudo_start c) (paused_time c) (billed_time c) (bill_to_accounts c) v (trx_net_usage c) (trx_elapsed c),
      ChainDb rl (db_transactions d)).

Definition with_timer c (pseudo paused billed end_ : Z) (code : exn) : transaction_context :=
  TransactionContext (is_initialized c) (net_limit c) (net_limit_due_to_block c) (net_limit_due_to_greylist c) (cpu_limit_due_to_greylist c) (eager_net_limit c)
    (init_net_usage c) (objective_duration_limit c) (block_deadline c) end_ code (billing_timer_exception_code c)
    (tx_cpu_usage_reason c) (billed_cpu_time_us c) pseudo paused billed (bill_to_accounts c) (validate_ram_usage c) (trx_net_usage c) (trx_elapsed c).

Definition pause_billing_timer c (now : Z) : transaction_context :=
  with_timer c 0 now (now - pseudo_start c) (deadline c) (deadline_exception_code c).

(** A time of 0 is no time. *)
Definition resume_billing_timer c (resume_from now : Z) : transaction_context :=
  let paused := if resume_from =? 0 then paused_time c else resume_from in
  let end_ := deadline c + (now - paused) in
  if block_deadline c <? end_
  then with_timer c (now - billed_time c) paused (billed_time c) (block_deadline c) deadline_exception
  else with_timer c (now - billed_time c) paused (billed_time c) end_ (deadline_exception_code c).

(** [reset]: the changes of the session are undone, [saved] is the database that it began with. *)
Definition reset c (saved : chain_db) (now : Z) : transaction_context * chain_db :=
  let c := resume_billing_timer (with_net_usage c (init_net_usage c)) (trx_start env) now in
  (TransactionContext (is_initialized c) (net_limit c) (net_limit_due_to_block c) (net_limit_due_to_greylist c) (cpu_limit_due_to_greylist c) (eager_net_limit c)
     (init_net_usage c) (objective_duration_limit c) (block_deadline c) (deadline c) (deadline_exception_code c) (billing_timer_exception_code c)
     (tx_cpu_usage_reason c) (billed_cpu_time_us c) (pseudo_start c) (paused_time c) (billed_time c) (bill_to_accounts c) [] (trx_net_usage c) 0, saved).

(** [exec]: what the actions do in each of the at most two attempts; code that was compiled meanwhile interrupts the first one. *)
Definition trx_exec c d (saved : chain_db) (actions : nat → transaction_context → chain_db → result (transaction_context * chain_db)) (now : Z) :
    result (transaction_context * chain_db) :=
  check (is_initialized c) transaction_exception;;
  match actions 0%nat c d with
  | Err x =>
    if decide (x = interrupt_oc_exception) then let '(c, d) := reset c saved now in actions 1%nat c d else Err x
  | r => r
  end.

(** ** The end *)

Definition round_up_8 (n : Z) : Z := u64 (n + 7) / 8 * 8.

Definition update_billed_cpu_time c (now : Z) : Z :=
  if explicit_billed_cpu_time env then billed_cpu_time_us c
  else Z.max (now - pseudo_start c) (min_transaction_cpu_usage (te_config env)).

(** What [finalize] checks before it bills: the context, with the network usage and the time that are billed. *)
Definition finalize_checks c d (now : Z) : result transaction_context :=
  check (is_initialized c) transaction_exception;;
  mapM (verify_account_ram_usage (db_resources d)) (validate_ram_usage c);;
  '(account_net, account_cpu, gnet, gcpu) ← max_bandwidth_billed_accounts_can_pay (db_resources d) (bill_to_accounts c) false;
  let '(net, due_to_block) := if u64 account_net <=? net_limit c then (u64 account_net, false) else (net_limit c, net_limit_due_to_block c) in
  let limited := account_cpu <=? objective_duration_limit c in
  let objective := if limited then account_cpu else objective_duration_limit c in
  let code := if limited then tx_cpu_usage_exceeded else billing_timer_exception_code c in
  let reason := if limited then account_cpu_limit_reached else tx_cpu_usage_reason c in
  let gcpu := cpu_limit_due_to_greylist c || gcpu in
  let billed := update_billed_cpu_time c now in
  let c := TransactionContext true net due_to_block (net_limit_due_to_greylist c || gnet) gcpu net (init_net_usage c) objective (block_deadline c) (deadline c)
             (deadline_exception_code c) code reason billed (pseudo_start c) (paused_time c) (billed_time c) (bill_to_accounts c) (validate_ram_usage c)
             (round_up_8 (trx_net_usage c)) (now - trx_start env) in
  check_net_usage c;;
  validate_cpu_usage_to_bill objective code gcpu billed account_cpu true;;
  Ok c.

Definition with_elapsed c (e : Z) : transaction_context :=
  TransactionContext (is_initialized c) (net_limit c) (net_limit_due_to_block c) (net_limit_due_to_greylist c) (cpu_limit_due_to_greylist c) (eager_net_limit c)
    (init_net_usage c) (objective_duration_limit c) (block_deadline c) (deadline c) (deadline_exception_code c) (billing_timer_exception_code c)
    (tx_cpu_usage_reason c) (billed_cpu_time_us c) (pseudo_start c) (paused_time c) (billed_time c) (bill_to_accounts c) (validate_ram_usage c) (trx_net_usage c) e.

Definition trx_finalize c d (now : Z) : result (transaction_context * chain_db) :=
  if env_read_only env then
    check (is_initialized c) transaction_exception;;
    Ok (with_elapsed (with_net_usage c (round_up_8 (trx_net_usage c))) (now - trx_start env), d)
  else
    c ← finalize_checks c d now;
    rl ← add_transaction_usage (db_resources d) (bill_to_accounts c) (u64 (billed_cpu_time_us c)) (trx_net_usage c) (time_slot env);
    Ok (c, ChainDb rl (db_transactions d)).

End Context.

(** ** The deduplication list *)

(** [clear_expired_input_transactions] removes in the order of expiration until one has not expired or time is up: [k] are removed. Which of those that expire at the same
    time goes first is left open. *)
Fixpoint first_to_expire (l : list (Z * Z)) : option (Z * Z) :=
  match l with
  | [] => None
  | p :: l => match first_to_expire l with Some q => if q.2 <? p.2 then Some q else Some p | None => Some p end
  end.

Fixpoint clear_expired_input_transactions (k : nat) (m : gmap Z Z) (now : Z) : gmap Z Z :=
  match k with
  | O => m
  | S k =>
    match first_to_expire (map_to_list m) with
    | Some (id, expire) => if expire * 1000000 <? now then clear_expired_input_transactions k (delete id m) now else m
    | None => m
    end
  end.
