(* ===== verification/TransactionContextTheory.v ===== *)
(** * The resources of a transaction: theorems

    What the start of a transaction sets up, that its end bills no more than it checked and never fails to bill it, and that no transaction is
    accepted twice. *)

From S2P Require Import Prelude ResourceLimits TransactionQueue TransactionContext.
From stdpp Require Import gmap list sorting.
Open Scope Z_scope.

(** ** The limits of one resource *)

Section Usage.
Context (window vlimit weight total : Z).
Context (Hw : 0 < window <= rate_limiting_precision) (Hv : 0 <= vlimit <= 2 ^ 42) (Hwt : weight < 2 ^ 63) (Ht : 0 <= total).

Lemma max_user_use_exact limit : 0 <= limit <= 2 ^ 42 → 0 <= weight →
  max_user_use_in_window window limit weight total = limit * window * weight / total.
Proof using Hw Hwt.
  clear Hv Ht. unfold rate_limiting_precision, max_user_use_in_window in *. intros Hl H0.
  assert (0 <= limit * window <= 2 ^ 42 * 1000000) by nia. rewrite (u128_small (limit * window)) by (unfold u128_max; lia).
  rewrite u128_small; [done|]. unfold u128_max. nia.
Qed.

(** More of the same resource: what was used rounds up before, and down after. *)
Lemma used_after v n : 0 <= v → 0 <= n →
  (v + contribution n window) * window / rate_limiting_precision <= integer_divide_ceil (v * window) rate_limiting_precision + n.
Proof using Hw.
  clear Hv Hwt Ht. intros H0 Hn. unfold contribution. assert (0 < rate_limiting_precision) as HP by done.
  assert (0 <= n * rate_limiting_precision) as HnP by nia.
  pose proof (ceil_bounds (n * rate_limiting_precision) window HnP ltac:(lia)) as [_ H2].
  pose proof (ceil_bounds (v * window) rate_limiting_precision ltac:(nia) HP) as [H3 _].
  set (q := integer_divide_ceil (v * window) rate_limiting_precision) in *. set (k := integer_divide_ceil (n * rate_limiting_precision) window) in *.
  apply Z.lt_succ_r, Z.div_lt_upper_bound; [done|]. nia.
Qed.

(** What an account has left, as [get_account_cpu_limit] and [get_account_net_limit] tell it: an amount within it passes the check of the billing. *)
Lemma amount_left_passes el_max_usage usage greylist arl g n e :
  0 <= value_ex usage → value_ex usage + contribution n window <= u64_max →
  0 <= el_max_usage → 0 <= greylist → el_max_usage * greylist <= 2 ^ 42 → 0 < n →
  account_limit_ex weight total window vlimit el_max_usage usage greylist None = Ok (arl, g) →
  (0 <= arl_available arl → n <= arl_available arl) →
  check_account_usage (value_ex usage + contribution n window) window vlimit weight total e = Ok tt.
Proof using All.
  intros H0 Hmax He Hg Heg Hn H Ha. unfold check_account_usage. destruct (Z.leb_spec 0 weight) as [Hw0|]; [|done].
  destruct (Z.ltb_spec 0 total) as [Ht0|]; [|done]. cbn [andb]. unfold account_limit_ex in H.
  rewrite (proj2 (Z.ltb_ge weight 0)), (proj2 (Z.eqb_neq total 0)) in H by lia. cbn [orb] in H.
  rewrite (u64_small (el_max_usage * greylist)) in H by (unfold is_u64; nia).
  set (limit := if (greylist <? maximum_elastic_resource_multiplier) && (el_max_usage * greylist <? vlimit) then el_max_usage * greylist else vlimit) in *.
  assert (0 <= limit <= vlimit) as Hl.
  { unfold limit. destruct (_ && _) eqn:E; [|lia]. apply andb_prop in E as [_ E%Z.ltb_lt]. nia. }
  assert (0 <= contribution n window) as Hc by (apply ceil_nonneg; [unfold rate_limiting_precision|]; lia).
  unfold rate_limiting_precision, u64_max in *.
  rewrite (u128_small (value_ex usage * window)) in H by (unfold u128_max; nia).
  inv_ok H. inv_ok H. inv_ok H. inv_ok H. simplify_eq. cbn [arl_available] in Ha.
  pose proof (ceil_nonneg (value_ex usage * window) 1000000 ltac:(nia) ltac:(lia)) as Hq.
  apply check_true, Z.leb_le. rewrite u128_small by (unfold u128_max; nia).
  etrans; [apply used_after; lia|]. unfold rate_limiting_precision.
  destruct (Z.leb_spec (max_user_use_in_window window limit weight total) (integer_divide_ceil (value_ex usage * window) 1000000)) as [|Hlt].
  { simplify_eq. lia. }
  unfold downgrade_cast_i64 in Ha0. inv_ok Ha0. simplify_eq.
  specialize (Ha ltac:(lia)). rewrite !max_user_use_exact in * by lia.
  assert (limit * window * weight / total <= vlimit * window * weight / total); [|lia].
  apply Z.div_le_mono; [done|]. repeat apply Z.mul_le_mono_nonneg_r; lia.
Qed.
End Usage.

(** ** Accumulators that are at the slot of the block *)

Definition acc_small (x : usage_accumulator) : Prop := acc_ok x ∧ value_ex x <= 2 ^ 63 ∧ consumed x <= 2 ^ 63.
Definition acc_ready (slot : Z) (x : usage_accumulator) : Prop := acc_small x ∧ last_ordinal x = slot.

Definition usage_ready (slot : Z) (u : resource_usage_object) : Prop := acc_ready slot (net_usage u) ∧ acc_ready slot (cpu_usage u).

Definition account_ready (d : resource_db) (slot a : Z) : Prop := ∃ u, rl_usage d !! a = Some u ∧ usage_ready slot u.

Definition window_ok (w : Z) : Prop := 0 < w <= rate_limiting_precision.

Lemma add_ready x n slot w : acc_ready slot x → is_u32 slot → window_ok w → 0 <= n <= 2 ^ 32 →
  accumulator_add x n slot w = Ok (add_spec x n slot w) ∧ value_ex (add_spec x n slot w) = value_ex x + contribution n w ∧
  value_ex x + contribution n w <= u64_max.
Proof.
  intros ((Hx & Hv & Hc) & Hl) Hs [Hw Hw'] Hn. unfold rate_limiting_precision in *.
  pose proof (ceil_le (n * rate_limiting_precision) w ltac:(unfold rate_limiting_precision; lia) Hw) as Hle. fold (contribution n w) in Hle.
  unfold rate_limiting_precision in Hle.
  assert (value_ex x + contribution n w <= u64_max) as Hm by (unfold u64_max; lia).
  split_and!; [|unfold add_spec, decayed; cbn [value_ex]; by rewrite (proj2 (Z.ltb_ge _ _)) by lia|done].
  apply add_ok; [done|unfold is_u64; lia|done|unfold is_u32; lia|done|].
  unfold add_pre. change max_raw_value with 18446744073709. unfold u64_max in *. split_and!; lia.
Qed.

Lemma add_nothing x slot w x' : acc_small x → is_u32 slot → window_ok w → accumulator_add x 0 slot w = Ok x' → acc_ready slot x'.
Proof.
  intros (Hx & Hv & Hc) Hs [Hw Hw'] H. unfold rate_limiting_precision in *. assert (is_u64 0) as H0 by done. assert (is_u32 w) as Hw32 by (unfold is_u32; lia).
  destruct (decide (add_pre x 0 slot w)) as [Hp|Hp]; [|by destruct (add_err x Hx 0 slot w H0 Hs Hw32 Hw Hp) as [e He]; congruence].
  destruct (add_ok x Hx 0 slot w H0 Hs Hw32 Hw Hp) as [He Hok]. rewrite He in H. simplify_eq. unfold acc_ready, acc_small. split_and!; [done|..|done].
  - destruct (decayed_range (value_ex x) (last_ordinal x) slot w) as [_ Hd]; [apply Hx|done|].
    unfold add_spec. cbn [value_ex]. change (contribution 0 w) with (integer_divide_ceil 0 w). unfold integer_divide_ceil. rewrite Z.mod_0_l, Z.div_0_l by lia.
    simpl. lia.
  - unfold add_spec. cbn [consumed]. destruct (_ =? _); [lia|]. unfold average_of.
    pose proof (decayed_range (value_ex x) (last_ordinal x) slot w ltac:(apply Hx) Hw) as Hd.
    pose proof (ceil_le (decayed (value_ex x) (last_ordinal x) slot w) rate_limiting_precision ltac:(lia) ltac:(done)). lia.
Qed.

(** ** Accounts *)

(** The numbers of the tables are in the ranges that the configuration of a chain gives them. *)
Record resources_ok (d : resource_db) : Prop := {
  ro_windows : window_ok (account_cpu_usage_average_window (rl_config d)) ∧ window_ok (account_net_usage_average_window (rl_config d));
  ro_max : 0 <= el_max (cpu_limit_parameters (rl_config d)) <= 2 ^ 32 ∧ 0 <= el_max (net_limit_parameters (rl_config d)) <= 2 ^ 32;
  ro_virtual : 0 <= virtual_cpu_limit (rl_state d) <= 2 ^ 42 ∧ 0 <= virtual_net_limit (rl_state d) <= 2 ^ 42;
  ro_totals : 0 <= total_cpu_weight (rl_state d) ∧ 0 <= total_net_weight (rl_state d);
  ro_pending : 0 <= pending_cpu_usage (rl_state d) <= el_max (cpu_limit_parameters (rl_config d)) ∧
               0 <= pending_net_usage (rl_state d) <= el_max (net_limit_parameters (rl_config d)) }.

Definition weights_ok (d : resource_db) : Prop :=
  ∀ a l, get_account_limits d a = Ok l → cpu_weight l < 2 ^ 63 ∧ net_weight l < 2 ^ 63.

Definition usages_small (d : resource_db) : Prop :=
  ∀ a u, rl_usage d !! a = Some u → acc_small (net_usage u) ∧ acc_small (cpu_usage u).

Lemma update_account_usage_inv slot accounts : is_u32 slot → ∀ d d', window_ok (account_cpu_usage_average_window (rl_config d)) →
  window_ok (account_net_usage_average_window (rl_config d)) → usages_small d → update_account_usage d accounts slot = Ok d' →
  d' = with_usage d (rl_usage d') ∧ (∀ a, account_ready d slot a ∨ a ∈ accounts → account_ready d' slot a).
Proof.
  intros Hs. induction accounts as [|a accounts IH]; intros d d' Hc Hn Hu H; cbn [update_account_usage] in H.
  { simplify_eq. split; [by destruct d'|]. intros a [Ha|Ha%elem_of_nil]; done. }
  inv_ok H. inv_ok H. unfold db_get in Ha. destruct (rl_usage d !! a) as [u|] eqn:E; [|done]. simplify_eq.
  unfold bill_account in Ha0. inv_ok Ha0. inv_ok Ha0. simplify_eq. destruct (Hu _ _ E) as [Hun Huc].
  apply add_nothing in Ha, Ha1; [|done..].
  apply IH in H as [Hd Hr]; [|done|done|]; cycle 1.
  { intros b v. cbn [rl_usage with_usage]. rewrite lookup_insert_Some. intros [[_ <-]|[_ Hb]]; [|by eapply Hu]. split; [apply Ha|apply Ha1]. }
  split; [by rewrite Hd|]. intros b Hb. apply Hr. destruct (decide (b = a)) as [->|Hne].
  - left. eexists. cbn [rl_usage with_usage]. rewrite lookup_insert_eq. done.
  - destruct Hb as [(v & Hv & Hvr)|[Hb|Hb]%elem_of_cons]; [|done|by right]. left. exists v. cbn [rl_usage with_usage]. by rewrite lookup_insert_ne.
Qed.

(** Billing succeeds when it does for each of the accounts. *)
Lemma bill_accounts_ok cpu net slot accounts : NoDup accounts → ∀ d,
  (∀ a, a ∈ accounts → ∃ u l u', rl_usage d !! a = Some u ∧ get_account_limits d a = Ok l ∧ bill_account (rl_config d) u cpu net slot = Ok u' ∧
     check_account_usage (value_ex (cpu_usage u')) (account_cpu_usage_average_window (rl_config d)) (virtual_cpu_limit (rl_state d)) (cpu_weight l)
       (total_cpu_weight (rl_state d)) tx_cpu_usage_exceeded = Ok tt ∧
     check_account_usage (value_ex (net_usage u')) (account_net_usage_average_window (rl_config d)) (virtual_net_limit (rl_state d)) (net_weight l)
       (total_net_weight (rl_state d)) tx_net_usage_exceeded = Ok tt) →
  ∃ usage, bill_accounts d accounts cpu net slot = Ok (with_usage d usage).
Proof.
  induction accounts as [|a accounts IH]; intros Hnd d Hall; cbn [bill_accounts].
  { exists (rl_usage d). by destruct d. }
  apply NoDup_cons in Hnd as [Ha Hnd]. destruct (Hall a) as (u & l & u' & Hu & Hl & Hb & Hc & Hn); [set_solver|].
  unfold db_get at 1. rewrite Hu, bind_ok, Hl, bind_ok, Hb, bind_ok, Hc, bind_ok, Hn, bind_ok.
  destruct (IH Hnd (with_usage d (<[a:=u']> (rl_usage d)))) as [usage Hus]; [|by exists usage].
  intros b Hin. destruct (Hall b) as (v & lv & v' & Hv & Hr); [set_solver|]. exists v, lv, v'. split; [|done].
  cbn [rl_usage with_usage]. by rewrite lookup_insert_ne by (intros ->; done).
Qed.

Section Limits.
Context (env : trx_env) (d : resource_db).

(** What can be billed is within what each of the accounts has left. *)
Definition can_pay (a net cpu : Z) : Prop :=
  ∃ nl ng cl cg, get_account_net_limit d a (greylist_limit_of env false a) = Ok (nl, ng) ∧ get_account_cpu_limit d a (greylist_limit_of env false a) = Ok (cl, cg) ∧
    (0 <= nl → net <= nl) ∧ (0 <= cl → cpu <= cl).

Lemma accounts_can_pay_inv accounts : ∀ net0 cpu0 gn0 gc0 net cpu gn gc, 0 <= net0 → 0 <= cpu0 →
  accounts_can_pay env d false accounts net0 cpu0 gn0 gc0 = Ok (net, cpu, gn, gc) →
  0 <= net <= net0 ∧ 0 <= cpu <= cpu0 ∧ ∀ a, a ∈ accounts → can_pay a net cpu.
Proof.
  induction accounts as [|a accounts IH]; intros net0 cpu0 gn0 gc0 net cpu gn gc Hn Hc H; cbn [accounts_can_pay] in H.
  { simplify_eq. split_and!; [lia..|]. by intros ? ?%elem_of_nil. }
  inv_ok H. destruct a0 as [nl ng]. destruct (if 0 <=? nl then _ else _) as [net1 gn1] eqn:En in H.
  inv_ok H. destruct a0 as [cl cg]. destruct (if 0 <=? cl then _ else _) as [cpu1 gc1] eqn:Ec in H.
  assert (0 <= net1 <= net0 ∧ (0 <= nl → net1 <= nl)) as [Hn1 Hnl] by (destruct (Z.leb_spec 0 nl); simplify_eq; lia).
  assert (0 <= cpu1 <= cpu0 ∧ (0 <= cl → cpu1 <= cl)) as [Hc1 Hcl] by (destruct (Z.leb_spec 0 cl); simplify_eq; lia).
  apply IH in H as (H1 & H2 & H3); [|lia..]. split_and!; [lia..|].
  intros b [->|Hb]%elem_of_cons; [|by apply H3]. exists nl, ng, cl, cg. split_and!; [done..|lia|lia].
Qed.

Lemma max_bandwidth_inv accounts net cpu gn gc :
  max_bandwidth_billed_accounts_can_pay env d accounts false = Ok (net, cpu, gn, gc) →
  0 <= net < 2 ^ 63 ∧ 0 <= cpu < 2 ^ 63 ∧ ∀ a, a ∈ accounts → can_pay a net cpu.
Proof.
  unfold max_bandwidth_billed_accounts_can_pay. intros H. inv_ok H. destruct a as [[[n1 c1] g1] g2]. inv_ok H. simplify_eq.
  assert (large_number_no_overflow < 2 ^ 63) by done. assert (0 <= large_number_no_overflow) by done.
  apply accounts_can_pay_inv in Ha as (H1 & H2 & H3); [|done..]. split_and!; [lia..|done].
Qed.

Context (Hd : resources_ok d) (Hwt : weights_ok d) (Hg : 0 <= te_greylist_limit env <= 1000).

Lemma greylist_range a : 0 <= greylist_limit_of env false a <= 1000.
Proof using Hg.
  clear Hd Hwt. unfold greylist_limit_of. change maximum_elastic_resource_multiplier with 1000. destruct (_ && _); [|lia]. destruct (is_resource_greylisted env a); lia.
Qed.

(** An account that can pay for positive amounts is billed. *)
Lemma can_pay_billed slot a net cpu net' cpu' : is_u32 slot → account_ready d slot a → can_pay a net cpu → 0 < net' <= 2 ^ 32 → 0 < cpu' <= 2 ^ 32 → net' <= net → cpu' <= cpu →
  ∃ u l u', rl_usage d !! a = Some u ∧ get_account_limits d a = Ok l ∧ bill_account (rl_config d) u cpu' net' slot = Ok u' ∧
     check_account_usage (value_ex (cpu_usage u')) (account_cpu_usage_average_window (rl_config d)) (virtual_cpu_limit (rl_state d)) (cpu_weight l)
       (total_cpu_weight (rl_state d)) tx_cpu_usage_exceeded = Ok tt ∧
     check_account_usage (value_ex (net_usage u')) (account_net_usage_average_window (rl_config d)) (virtual_net_limit (rl_state d)) (net_weight l)
       (total_net_weight (rl_state d)) tx_net_usage_exceeded = Ok tt.
Proof using All.
  intros Hs (u & Hu & Hun & Huc) (nl & ng & cl & cg & Hn & Hc & Hln & Hlc) Hn' Hc' Hnn Hcc.
  destruct Hd as [[Hwc Hwn] [Hmc Hmn] [Hvc Hvn] [Htc Htn] _]. pose proof (greylist_range a) as Hga.
  unfold get_account_net_limit, get_account_net_limit_ex, db_get at 1 in Hn. rewrite Hu, bind_ok in Hn. inv_ok Hn. inv_ok Ha. destruct a0 as [an g1].
  unfold get_account_cpu_limit, get_account_cpu_limit_ex, db_get at 1 in Hc. rewrite Hu, bind_ok in Hc. inv_ok Hc. inv_ok Ha1. destruct a0 as [ac g2]. simplify_eq.
  assert (a2 = a1) as -> by congruence. destruct (Hwt _ _ Ha0) as [Hw1 Hw2].
  destruct (add_ready _ net' _ _ Hun Hs Hwn ltac:(lia)) as (En & Vn & Bn). destruct (add_ready _ cpu' _ _ Huc Hs Hwc ltac:(lia)) as (Ec & Vc & Bc).
  eexists u, _, _. split_and!; [done|done|unfold bill_account; by rewrite En, bind_ok, Ec, bind_ok|..]; cbn [cpu_usage net_usage].
  - rewrite Vc. eapply (amount_left_passes _ _ _ _ Hwc Hvc Hw1 Htc); [apply Huc|done|apply Hmc|apply Hga|nia|lia|done|lia].
  - rewrite Vn. eapply (amount_left_passes _ _ _ _ Hwn Hvn Hw2 Htn); [apply Hun|done|apply Hmn|apply Hga|nia|lia|done|lia].
Qed.
End Limits.

(** ** The start *)

Lemma accounts_to_bill_NoDup env h : NoDup (accounts_to_bill env h).
Proof.
  unfold accounts_to_bill. destruct (only_bill_first_authorizer env); [apply NoDup_singleton|].
  rewrite merge_sort_Permutation. apply NoDup_remove_dups.
Qed.

(** The limits of the block, of the chain and of the header of the transaction. *)
Definition net_within (env : trx_env) (d : resource_db) (h : trx_header) (net : Z) : Prop :=
  net <= get_block_net_limit d ∧ net <= max_transaction_net_usage (te_config env) ∧ (0 < max_net_usage_words h → net <= max_net_usage_words h * 8).

Definition cpu_within (env : trx_env) (d : resource_db) (h : trx_header) (cpu : Z) : Prop :=
  cpu <= get_block_cpu_limit d ∧ cpu <= max_transaction_cpu_usage (te_config env) ∧ (0 < max_cpu_usage_ms h → cpu <= max_cpu_usage_ms h * 1000).

Section Start.
Context (env : trx_env) (Hro : env_read_only env = false).

Lemma block_room d : resources_ok d →
  get_block_net_limit d = el_max (net_limit_parameters (rl_config d)) - pending_net_usage (rl_state d) ∧
  get_block_cpu_limit d = el_max (cpu_limit_parameters (rl_config d)) - pending_cpu_usage (rl_state d).
Proof.
  intros [_ [Hm1 Hm2] _ _ [Hp1 Hp2]]. unfold get_block_net_limit, get_block_cpu_limit. rewrite !u64_small by (unfold is_u64; lia). done.
Qed.

Lemma lowered_limits d h : resources_ok d →
  let l := header_limits env h (chain_limits env (block_limits env d)) in net_within env d h (l_net l) ∧ cpu_within env d h (l_objective l).
Proof using Hro.
  intros Hd. destruct (block_room d Hd) as [Hn Hc]. destruct Hd as [_ [Hm1 Hm2] _ _ [Hp1 Hp2]].
  unfold net_within, cpu_within, block_limits, chain_limits, header_limits. rewrite Hro. cbn [negb andb]. rewrite !andb_true_r.
  rewrite i64_small by (unfold is_i64; rewrite Hc; lia). cbn [l_net l_objective].
  set (bn := get_block_net_limit d) in *. set (bc := get_block_cpu_limit d) in *. clearbody bn bc.
  set (mn := max_transaction_net_usage _). set (mc := max_transaction_cpu_usage _). clearbody mn mc.
  destruct (Z.leb_spec mn bn), (Z.leb_spec mc bc); cbn [l_net l_objective];
    repeat match goal with |- context [if ?b then _ else _] => destruct b eqn:? end; cbn [l_net l_objective] in *; breflect;
    repeat match goal with H : (_ && _)%bool = false |- _ => apply andb_false_iff in H as [H|H]; breflect end; lia.
Qed.

Lemma account_deadline_keeps l an ac : let l' := (account_deadline env l an ac).2 in l_net l' = l_net l ∧ l_objective l' = l_objective l.
Proof. unfold account_deadline. destruct (env_read_only env); [done|]. by destruct (_ + leeway env <=? _). Qed.

Lemma node_deadline_keeps b l : l_net (node_deadline env b l) = l_net l ∧ l_objective (node_deadline env b l) = l_objective l.
Proof. unfold node_deadline. destruct (negb _ && _); by destruct (_ <? _). Qed.

Lemma subjective_deadline_keeps g b ac l l' : subjective_deadline env g b ac l = Ok l' → l_net l' = l_net l ∧ l_objective l' = l_objective l.
Proof. unfold subjective_deadline. destruct (_ || _); [by intros; simplify_eq|]. intros H. inv_ok H. simplify_eq. by destruct (_ && _). Qed.

(** What [init] leaves. *)
Lemma trx_init_inv c d h n t c1 d1 : is_u32 (time_slot env) → resources_ok (db_resources d) → usages_small (db_resources d) →
  trx_init env c d h n t = Ok (c1, d1) →
  is_initialized c1 = true ∧ bill_to_accounts c1 = accounts_to_bill env h ∧
  net_within env (db_resources d) h (net_limit c1) ∧ cpu_within env (db_resources d) h (objective_duration_limit c1) ∧
  db_resources d1 = with_usage (db_resources d) (rl_usage (db_resources d1)) ∧ db_transactions d1 = db_transactions d ∧
  ∀ a, a ∈ accounts_to_bill env h → account_ready (db_resources d1) (time_slot env) a.
Proof using Hro.
  intros Hs Hd Hu H. destruct (lowered_limits (db_resources d) h Hd) as [Hln Hlc]. unfold trx_init in H. rewrite Hro in H. inv_ok H. clear Ha.
  set (l := header_limits env h (chain_limits env (block_limits env (db_resources d)))) in *.
  inv_ok H. destruct a0 as [[[[[accounts rl] an] ac] gn] gc]. inv_ok Ha. clear Ha0. inv_ok Ha. inv_ok Ha. destruct a2 as [[[n1 c2] g1] g2]. simplify_eq.
  destruct (update_account_usage_inv (time_slot env) (accounts_to_bill env h) Hs (db_resources d) rl) as [Erl Hready]; [apply Hd|apply Hd|done|done|].
  pose proof (account_deadline_keeps l an ac) as [E1 E1']. destruct (account_deadline env l an ac) as [eager l1]. cbn [snd] in E1, E1'.
  pose proof (node_deadline_keeps (billed_cpu_time_us c) l1) as [E2 E2']. inv_ok H. apply subjective_deadline_keeps in Ha as [E3 E3'].
  destruct (if explicit_billed_cpu_time env then _ else _) as [end_ code]. inv_ok H.
  match type of Ha with (if _ then add_net_usage _ ?c0 _ else _) = _ =>
    assert (bill_to_accounts a2 = bill_to_accounts c0 ∧ net_limit a2 = net_limit c0 ∧ objective_duration_limit a2 = objective_duration_limit c0) as (F1 & F2 & F3) end.
  { destruct (0 <? n); [|by simplify_eq]. unfold add_net_usage in Ha. inv_ok Ha. by simplify_eq. }
  inv_ok H. simplify_eq. cbn [is_initialized bill_to_accounts net_limit objective_duration_limit db_resources db_transactions] in *.
  rewrite F2, F3, E3, E3', E2, E2', E1, E1'. split_and!; try done. intros b Hin. apply Hready. by right.
Qed.
End Start.

(** ** The actions *)

(** What the actions of a transaction keep: the limits of its context, and of the tables the configuration, the state of the block and the bandwidth
    that the billed accounts have used. Their RAM and the limits of accounts may change. *)
Record actions_keep (c : transaction_context) (d : chain_db) (c' : transaction_context) (d' : chain_db) : Prop := {
  ak_context : is_initialized c' = is_initialized c ∧ bill_to_accounts c' = bill_to_accounts c ∧ net_limit c' = net_limit c ∧
               objective_duration_limit c' = objective_duration_limit c;
  ak_chain : rl_config (db_resources d') = rl_config (db_resources d) ∧ rl_state (db_resources d') = rl_state (db_resources d);
  ak_usage : ∀ a u, rl_usage (db_resources d) !! a = Some u →
    ∃ u', rl_usage (db_resources d') !! a = Some u' ∧ net_usage u' = net_usage u ∧ cpu_usage u' = cpu_usage u;
  ak_transactions : db_transactions d' = db_transactions d }.

Lemma actions_keep_refl c d : actions_keep c d c d.
Proof. split; [done..| |done]. intros a u Hu. by exists u. Qed.

Lemma actions_keep_trans c1 d1 c2 d2 c3 d3 : actions_keep c1 d1 c2 d2 → actions_keep c2 d2 c3 d3 → actions_keep c1 d1 c3 d3.
Proof.
  intros [(H1 & H2 & H3 & H4) [H5 H6] H7 H8] [(K1 & K2 & K3 & K4) [K5 K6] K7 K8]. split; [split_and!; congruence|split; congruence| |congruence].
  intros a u Hu. destruct (H7 _ _ Hu) as (u1 & Hu1 & E1 & E1'). destruct (K7 _ _ Hu1) as (u2 & Hu2 & E2 & E2'). exists u2. split_and!; congruence.
Qed.

Lemma add_ram_usage_keeps c d a delta c' d' : add_ram_usage c d a delta = Ok (c', d') → actions_keep c d c' d'.
Proof.
  unfold add_ram_usage, add_pending_ram_usage. intros H. inv_ok H. simplify_eq. destruct (_ =? 0).
  { simplify_eq. split; [done..| |done]. intros b u Hu. by exists u. }
  inv_ok Ha. inv_ok Ha. inv_ok Ha. simplify_eq. unfold db_get in Ha0. destruct (rl_usage (db_resources d) !! a) as [u0|] eqn:E; [|done]. simplify_eq.
  split; [done..| |done]. cbn [db_resources rl_usage with_usage]. intros b u Hu. destruct (decide (b = a)) as [->|Hne].
  - rewrite lookup_insert_eq. eexists. simplify_eq. done.
  - rewrite lookup_insert_ne by done. by exists u.
Qed.

Lemma add_net_usage_keeps env c d n c' : add_net_usage env c n = Ok c' → actions_keep c d c' d.
Proof. unfold add_net_usage. intros H. inv_ok H. simplify_eq. split; [done..| |done]. intros b u Hu. by exists u. Qed.

Lemma pause_keeps c d now : actions_keep c d (pause_billing_timer c now) d.
Proof. split; [done..| |done]. intros a u Hu. by exists u. Qed.

Lemma resume_keeps c d from now : actions_keep c d (resume_billing_timer c from now) d.
Proof. unfold resume_billing_timer. destruct (_ <? _); (split; [done..| |done]); intros a u Hu; by exists u. Qed.

Lemma set_account_limits_keeps c rl m a ram net cpu rl' b : set_account_limits rl a ram net cpu = Ok (rl', b) →
  actions_keep c (ChainDb rl m) c (ChainDb rl' m).
Proof. unfold set_account_limits. intros H. inv_ok H. simplify_eq. split; [done..| |done]. intros x u Hu. by exists u. Qed.

(** ** The end *)

Section End.
Context (env : trx_env) (Hro : env_read_only env = false) (Hck : skip_trx_checks env = false).
Implicit Types (c : transaction_context) (d : chain_db).

(** What is billed was checked against the accounts and the context. *)
Lemma finalize_checks_inv c d now c' : 0 < trx_net_usage c <= i64_max → finalize_checks env c d now = Ok c' → 0 < billed_cpu_time_us c' →
  bill_to_accounts c' = bill_to_accounts c ∧
  ∃ net cpu, (∀ a, a ∈ bill_to_accounts c → can_pay env (db_resources d) a net cpu) ∧
    0 < trx_net_usage c' ∧ trx_net_usage c' <= net ∧ trx_net_usage c' <= net_limit c ∧
    0 < billed_cpu_time_us c' ∧ billed_cpu_time_us c' <= cpu ∧ billed_cpu_time_us c' <= objective_duration_limit c.
Proof using Hck.
  intros Hn H Hpos. unfold finalize_checks in H. inv_ok H. inv_ok H. inv_ok H. destruct a1 as [[[net cpu] gn] gc]. clear Ha Ha0.
  apply max_bandwidth_inv in Ha1 as (Hnet & Hcpu & Hpay). rewrite (u64_small net) in H by (unfold is_u64; lia).
  destruct (if net <=? net_limit c then _ else _) as [nl due] eqn:En. assert (nl <= net ∧ nl <= net_limit c) as Hnl.
  { destruct (Z.leb_spec net (net_limit c)); simplify_eq; lia. }
  inv_ok H. inv_ok H. simplify_eq. cbn [bill_to_accounts trx_net_usage billed_cpu_time_us] in Hpos |- *. split; [done|]. exists net, cpu. split; [done|].
  assert (0 < round_up_8 (trx_net_usage c)) as Hr.
  { unfold round_up_8, i64_max in *. rewrite u64_small by (unfold is_u64; lia). assert (1 <= (trx_net_usage c + 7) / 8); [|lia]. apply Z.div_le_lower_bound; lia. }
  unfold check_net_usage in Ha. rewrite Hck in Ha. cbn [negb andb eager_net_limit trx_net_usage] in Ha. destruct (Z.ltb_spec nl (round_up_8 (trx_net_usage c))); [done|].
  unfold validate_cpu_usage_to_bill in Ha0. rewrite Hck in Ha0. inv_ok Ha0. apply check_inv, Z.leb_le in Ha1.
  set (billed := update_billed_cpu_time env c now) in *.
  unfold validate_account_cpu_usage in Ha0. rewrite Hck, (proj2 (Z.ltb_lt 0 billed)) in Ha0 by lia. cbn [negb andb] in Ha0.
  unfold cpu_limit_and_error in Ha0.
  destruct (Z.leb_spec cpu (objective_duration_limit c)) as [Hle|Hlt].
  - rewrite Z.leb_refl in Ha0. cbn [negb andb] in Ha0. apply check_inv, Z.leb_le in Ha0. destruct (_ && true); lia.
  - rewrite (proj2 (Z.leb_gt _ _) Hlt), andb_false_r in Ha0. cbn [negb andb] in Ha0.
    destruct (bool_decide _); cbn [andb] in Ha0; apply check_inv, Z.leb_le in Ha0; lia.
Qed.

End End.

(** C12: what a transaction uses is billed once it has been checked, when it is billed some CPU time and some network usage. A transaction gets its
    limits when it starts, its actions run without interruption, and the checks at its end pass: then the billing succeeds, though it rounds and limits in other
    ways than the checks, and what is billed is within the limits of the block, of the chain and of the header of the transaction. Conditions: it is not
    read-only and its checks are not skipped; the accumulators, weights, windows and limits of the accounts and of the chain are in the ranges of [resources_ok],
    [usages_small] and [weights_ok]; network usage is below [2^63]. Without positive usage the billing may fail: the checks compare zero with what is left of an
    over-used account, which is zero too. *)
Theorem checked_transaction_is_billed env d h n t c1 d1 c2 d2 now c3 :
  env_read_only env = false → skip_trx_checks env = false →
  is_u32 (time_slot env) → 0 <= te_greylist_limit env <= 1000 → resources_ok (db_resources d) → usages_small (db_resources d) →
  trx_init env (trx_context_init env) d h n t = Ok (c1, d1) →
  actions_keep c1 d1 c2 d2 → weights_ok (db_resources d2) → 0 < trx_net_usage c2 <= i64_max →
  finalize_checks env c2 d2 now = Ok c3 → 0 < billed_cpu_time_us c3 →
  (∃ d3, trx_finalize env c2 d2 now = Ok (c3, d3) ∧
     pending_cpu_usage (rl_state (db_resources d3)) = pending_cpu_usage (rl_state (db_resources d)) + billed_cpu_time_us c3 ∧
     pending_net_usage (rl_state (db_resources d3)) = pending_net_usage (rl_state (db_resources d)) + trx_net_usage c3) ∧
  cpu_within env (db_resources d) h (billed_cpu_time_us c3) ∧ net_within env (db_resources d) h (trx_net_usage c3).
Proof.
  intros Hro Hck Hs Hg Hd Hu Hinit Hkeep Hwt Hnet Hfin Hpos.
  apply trx_init_inv in Hinit as (_ & Hbill & Hnw & Hcw & Erl & _ & Hready); [|done..].
  destruct (block_room _ Hd) as [Hbn Hbc].
  destruct (finalize_checks_inv env Hck c2 d2 now c3 Hnet Hfin Hpos) as (Hb3 & net & cpu & Hpay & Hn0 & Hn1 & Hn2 & Hc0 & Hc1 & Hc2).
  destruct Hkeep as [(_ & Kb & Kn & Kc) [Kcfg Kst] Kus _]. rewrite Kn in Hn2. rewrite Kc in Hc2. rewrite Kb in Hpay, Hb3.
  rewrite Erl in Kcfg, Kst. cbn [rl_config rl_state with_usage] in Kcfg, Kst.
  assert (resources_ok (db_resources d2)) as Hd2. { destruct Hd. split; rewrite ?Kcfg, ?Kst; done. }
  unfold net_within, cpu_within in *. rewrite Hbn, Hbc in *. destruct Hd as [_ [Hm1 Hm2] _ _ [Hp1 Hp2]].
  split; [|lia]. unfold trx_finalize. rewrite Hro, Hfin, bind_ok, (u64_small (billed_cpu_time_us c3)) by (unfold is_u64; lia).
  destruct (bill_accounts_ok (billed_cpu_time_us c3) (trx_net_usage c3) (time_slot env) (bill_to_accounts c3)) with (d := db_resources d2) as [usage Husage].
  - rewrite Hb3, Hbill. apply accounts_to_bill_NoDup.
  - rewrite Hb3. intros a Ha. eapply can_pay_billed; [done..| |by apply Hpay|lia|lia|lia|lia]. rewrite Hbill in Ha.
    destruct (Hready a Ha) as (u & Hu0 & Hur & Hur'). destruct (Kus _ _ Hu0) as (u' & Hu' & E & E'). exists u'. unfold usage_ready. by rewrite E, E'.
  - unfold add_transaction_usage. rewrite Husage, bind_ok. cbn [rl_state rl_config with_usage with_state]. rewrite Kst, Kcfg, !u64_small by (unfold is_u64; lia).
    rewrite !check_bind by (apply Z.leb_le; lia). rewrite bind_ok. eexists. split; [done|]. done.
Qed.

(** ** Duplicates *)

Lemma first_to_expire_in l p : first_to_expire l = Some p → p ∈ l.
Proof.
  revert p. induction l as [|q l IH]; intros p; cbn [first_to_expire]; [done|].
  destruct (first_to_expire l) as [r|]; [destruct (_ <? _)|]; intros; simplify_eq; set_solver.
Qed.

(** Only what has expired is removed. *)
Lemma clear_expired_keeps now k : ∀ m id e, m !! id = Some e → now <= e * 1000000 → clear_expired_input_transactions k m now !! id = Some e.
Proof.
  induction k as [|k IH]; intros m id e Hm He; cbn [clear_expired_input_transactions]; [done|].
  destruct (first_to_expire (map_to_list m)) as [[i x]|] eqn:E; [|done]. destruct (Z.ltb_spec (x * 1000000) now) as [Hx|]; [|done].
  apply first_to_expire_in, elem_of_map_to_list in E. apply IH; [|done]. rewrite lookup_delete_ne; [done|]. intros ->. simplify_eq. lia.
Qed.

(** One branch of the chain: the time of the block that is built, the database, and the transactions that were accepted, each with whether it was restarted. *)
Record branch : Type := Branch { br_time : Z; br_db : chain_db; br_accepted : list (trx_header * bool) }.

(** Code that was compiled meanwhile interrupts the first attempt. *)
Definition is_restarted (c : transaction_context) (d : chain_db) (actions : nat → transaction_context → chain_db → result (transaction_context * chain_db)) : bool :=
  match actions 0%nat c d with Err x => bool_decide (x = interrupt_oc_exception) | Ok _ => false end.

(** Actions do not reach the list of transactions. *)
Definition leave_list (actions : nat → transaction_context → chain_db → result (transaction_context * chain_db)) : Prop :=
  ∀ i c d c' d', actions i c d = Ok (c', d') → db_transactions d' = db_transactions d.

(** A block starts, with the removal of transactions that have expired; or a transaction is accepted: it starts, its actions run, once or
    again after an interruption, and it is checked and billed. *)
Inductive branch_step : branch → branch → Prop :=
| step_block now d hs now' k rl : now <= now' →
    branch_step (Branch now d hs) (Branch now' (ChainDb rl (clear_expired_input_transactions k (db_transactions d) now')) hs)
| step_accept now d hs env c h unprunable prunable other t c1 d1 actions now1 c2 d2 now2 c3 d3 :
    pending_block_time env = now → skip_trx_checks env = false → env_read_only env = false →
    init_for_input_trx env c d h unprunable prunable other t = Ok (c1, d1) → leave_list actions →
    trx_exec env c1 d1 d actions now1 = Ok (c2, d2) → trx_finalize env c2 d2 now2 = Ok (c3, d3) →
    branch_step (Branch now d hs) (Branch now d3 ((h, is_restarted c1 d1 actions) :: hs)).

(** What a transaction accepted without a restart leaves in the list. *)
Definition on_record (b : branch) (h : trx_header) : Prop :=
  db_transactions (br_db b) !! th_id h = Some (th_expiration h) ∨ th_expiration h * 1000000 < br_time b.

(** Every transaction that was accepted without a restart is in the list or has expired, and was not accepted again. *)
Definition branch_inv (b : branch) : Prop :=
  (∀ hs1 h r hs2 h', br_accepted b = hs1 ++ (h, r) :: hs2 → (h', false) ∈ hs2 → th_id h' ≠ th_id h) ∧
  ∀ h, (h, false) ∈ br_accepted b → on_record b h.

Lemma trx_finalize_list env c d now c' d' : trx_finalize env c d now = Ok (c', d') → db_transactions d' = db_transactions d.
Proof.
  unfold trx_finalize. destruct (env_read_only env); intros H.
  - inv_ok H. by simplify_eq.
  - inv_ok H. inv_ok H. by simplify_eq.
Qed.

(** After a restart the list is that from before the transaction started. *)
Lemma trx_exec_list env c d saved actions now c' d' : leave_list actions → trx_exec env c d saved actions now = Ok (c', d') →
  db_transactions d' = if is_restarted c d actions then db_transactions saved else db_transactions d.
Proof.
  intros Hl H. unfold trx_exec in H. inv_ok H. unfold is_restarted. destruct (actions 0%nat c d) as [[c1 d1]|x] eqn:E.
  - simplify_eq. by eapply Hl.
  - destruct (decide (x = interrupt_oc_exception)) as [->|]; [|done]. rewrite bool_decide_eq_true_2 by done. apply Hl in H. exact H.
Qed.

Lemma init_for_input_trx_inv env c d h u p other t c1 d1 : skip_trx_checks env = false → env_read_only env = false →
  init_for_input_trx env c d h u p other t = Ok (c1, d1) →
  pending_block_time env <= th_expiration h * 1000000 ∧ db_transactions d !! th_id h = None ∧
  db_transactions d1 = <[th_id h := th_expiration h]> (db_transactions d).
Proof.
  intros Hck Hro H. unfold init_for_input_trx in H. rewrite Hck, Hro in H. inv_ok H. inv_ok H. inv_ok H. inv_ok H. destruct a2 as [c' d']. inv_ok H. simplify_eq.
  unfold validate_expiration in Ha0. apply bind_inv in Ha0 as (? & Hx%check_inv%Z.leb_le & _). split; [done|].
  assert (db_transactions d' = db_transactions d) as E.
  { unfold trx_init in Ha2. inv_ok Ha2. inv_ok Ha2. destruct a3 as [[[[[x1 x2] x3] x4] x5] x6]. destruct (account_deadline _ _ _ _). inv_ok Ha2.
    destruct (explicit_billed_cpu_time env); inv_ok Ha2; inv_ok Ha2; by simplify_eq. }
  unfold record_transaction in Ha3. rewrite E in Ha3. destruct (db_transactions d !! th_id h) eqn:F; [done|]. by simplify_eq.
Qed.

Section Duplicates.
(** The id of a transaction is the digest of all its fields, its expiration too. *)
Context (all : trx_header → Prop) (Hid : ∀ h h', all h → all h' → th_id h = th_id h' → th_expiration h = th_expiration h').

Lemma branch_step_inv b b' : branch_step b b' → Forall (λ x, all x.1) (br_accepted b') → branch_inv b → branch_inv b'.
Proof using Hid.
  intros Hst Hall [Hnd Hin]. destruct Hst as [now d hs now' k rl Hle|now d hs env c h u p other t c1 d1 actions now1 c2 d2 now2 c3 d3 Ht Hck Hro Hinit Hl Hex Hfin];
    unfold on_record in *; cbn [br_accepted br_db br_time] in *.
  { split; [done|]. intros h Hh. unfold on_record. cbn [br_db br_time db_transactions]. destruct (Hin h Hh) as [Hl|Hl]; [|right; lia].
    destruct (Z.lt_ge_cases (th_expiration h * 1000000) now') as [|Hge]; [by right|left]. by apply clear_expired_keeps. }
  apply init_for_input_trx_inv in Hinit as (Hexp & Hnew & E); [|done..]. rewrite Ht in Hexp. apply Forall_cons in Hall as [Hh Hall]. rewrite Forall_forall in Hall.
  pose proof (trx_finalize_list _ _ _ _ _ _ Hfin) as E3. rewrite (trx_exec_list _ _ _ _ _ _ _ _ Hl Hex), E in E3.
  split; unfold on_record; cbn [br_accepted br_db br_time].
  - intros hs1 h0 r hs2 h' Heq Hh'. destruct hs1 as [|x hs1]; [|injection Heq as _ Heq; by eapply Hnd]. injection Heq as <- _ <-.
    intros Eid. destruct (Hin h' Hh') as [Hx|Hx]; [by rewrite Eid, Hnew in Hx|]. rewrite (Hid h' h (Hall _ Hh') Hh Eid) in Hx. lia.
  - intros h' [[= -> Er]|Hh']%elem_of_cons; [rewrite E3, <- Er; left; apply lookup_insert_eq|].
    destruct (Hin h' Hh') as [Hx|]; [|by right]. left. rewrite E3. destruct (is_restarted _ _ _); [done|].
    rewrite lookup_insert_ne; [done|]. intros Eq. by rewrite <- Eq, Hnew in Hx.
Qed.
End Duplicates.

Lemma branch_grows b b' : rtc branch_step b b' → ∃ hs, br_accepted b' = hs ++ br_accepted b.
Proof.
  induction 1 as [b|b1 b2 b3 Hst _ [hs IH]]; [by exists []|]. rewrite IH. destruct Hst; [by exists hs|]. cbn [br_accepted]. eexists (hs ++ [_]). by rewrite <- app_assoc.
Qed.

Lemma accepted_once hs : (∀ hs1 h r hs2 h', hs = hs1 ++ (h, r) :: hs2 → (h', false) ∈ hs2 → th_id h' ≠ th_id h) →
  Forall (λ x, x.2 = false) hs → NoDup (th_id ∘ fst <$> hs).
Proof.
  induction hs as [|[h r] hs IH]; intros Hn HF; [by apply NoDup_nil|]. apply Forall_cons in HF as [_ HF]. rewrite fmap_cons. apply NoDup_cons. split.
  - intros ([h' r'] & Eid & Hh')%list_elem_of_fmap. pose proof (proj1 (Forall_forall _ _) HF _ Hh') as Hr. cbn in Hr, Eid. subst r'.
    by apply (Hn [] h r hs h' eq_refl Hh').
  - apply IH; [|done]. intros hs1 h0 r0 hs2 h' -> Hh'. by apply (Hn ((h, r) :: hs1) h0 r0 hs2).
Qed.

(** C13: a transaction that was accepted without being restarted is not accepted again on its branch of the chain; so none is accepted twice when none is
    restarted. An accepted transaction is recorded with its expiration, the removal of old records takes only those that have expired, however many it has the time for,
    and what has expired is refused. Conditions: the checks of transactions are not skipped, and transactions of one id have one expiration, as ids are digests. *)
Theorem no_transaction_accepted_twice now d b :
  rtc branch_step (Branch now d []) b →
  (∀ h h', h ∈ (br_accepted b).*1 → h' ∈ (br_accepted b).*1 → th_id h = th_id h' → th_expiration h = th_expiration h') →
  (∀ hs1 h r hs2 h', br_accepted b = hs1 ++ (h, r) :: hs2 → th_id h' = th_id h → (h', false) ∉ hs2) ∧
  (Forall (λ x, x.2 = false) (br_accepted b) → NoDup (th_id ∘ fst <$> br_accepted b)).
Proof.
  intros Hr Hid. cut (branch_inv b).
  { intros [Hn _]. split; [|by apply accepted_once]. intros hs1 h r hs2 h' Heq Eid Hin. by apply (Hn hs1 h r hs2 h'). }
  assert (∀ b0, rtc branch_step b0 b → branch_inv b0 → branch_inv b) as Hgen.
  { clear Hr. intros b0 Hr. induction Hr as [b|b1 b2 b3 Hst Hr IH]; [done|]. intros Hb. apply IH; [done|].
    eapply (branch_step_inv (λ h, h ∈ (br_accepted b3).*1)); [|done| |done]; [exact Hid|].
    apply Forall_forall. intros x Hx. apply list_elem_of_fmap_2. destruct (branch_grows _ _ Hr) as [hs ->]. set_solver. }
  apply (Hgen _ Hr). split; [by intros [|] ? ? ? ? ?|]. intros h Hh. by apply elem_of_nil in Hh.
Qed.

(** C38: a restart forgets that the transaction was accepted. Whatever its actions do, the database after an accepted transaction is one on which its
    record succeeds again, or is refused as a duplicate, according to whether an interruption restarted it: the restart undoes the session in which the start
    of the transaction recorded it, and repeats only the actions. *)
Theorem restarted_transaction_is_forgotten env c d h unprunable prunable other t c1 d1 actions now1 c2 d2 now2 c3 d3 :
  skip_trx_checks env = false → env_read_only env = false →
  init_for_input_trx env c d h unprunable prunable other t = Ok (c1, d1) → leave_list actions →
  trx_exec env c1 d1 d actions now1 = Ok (c2, d2) → trx_finalize env c2 d2 now2 = Ok (c3, d3) →
  if is_restarted c1 d1 actions
  then db_transactions d3 = db_transactions d ∧ ∃ d4, record_transaction d3 (th_id h) (th_expiration h) = Ok d4
  else ∀ expire, record_transaction d3 (th_id h) expire = Err tx_duplicate.
Proof.
  intros Hck Hro Hinit Hl Hex Hfin. apply init_for_input_trx_inv in Hinit as (_ & Hnew & E); [|done..].
  pose proof (trx_finalize_list _ _ _ _ _ _ Hfin) as E3. rewrite (trx_exec_list _ _ _ _ _ _ _ _ Hl Hex), E in E3. unfold record_transaction.
  destruct (is_restarted _ _ _); rewrite E3; [rewrite Hnew; eauto|]. intros expire. by rewrite lookup_insert_eq.
Qed.
