(* ===== verification/TransactionContextExample.v ===== *)
(** * The resources of a transaction: examples

    A transaction of an account that has used no CPU time, or all that it may have, half a window ago; what an interruption changes. *)

From S2P Require Import Prelude ResourceLimits TransactionQueue TransactionContext TransactionContextTheory.
From stdpp Require Import gmap list sorting.
Open Scope Z_scope.

Module TransactionExample.

Definition slot : Z := 90000.

Definition config : trx_config := TrxConfig 524288 150000 100 500 12 20 100 3600.

(** A block that another node produced is validated. *)
Definition env : trx_env :=
  TrxEnv config input false false true false true (90000 * 500000) slot 1000 (λ _, false) 1000 time_maximum 0 time_maximum 0 true 250.

(** One account, with a millionth of the CPU time of the chain, and another one without limits. *)
Definition resources (cpu : usage_accumulator) : resource_db :=
  let c := resource_limits_config_default in
  ResourceDb {[ 1 := ResourceLimitsObject 1 1 5000; 2 := unlimited ]} ∅
    {[ 1 := ResourceUsageObject accumulator_default cpu 40; 2 := ResourceUsageObject accumulator_default accumulator_default 0 ]}
    c (ResourceLimitsState accumulator_default accumulator_default 600 900 1000 1000000 5000 (el_max (net_limit_parameters c)) (el_max (cpu_limit_parameters c))).

Definition idle : chain_db := ChainDb (resources accumulator_default) ∅.
Definition busy : chain_db := ChainDb (resources (UsageAccumulator 3600 200000 1)) ∅.

Definition header : trx_header := TrxHeader 77 45100 0 0 0 [[1; 2]; [1]].

(** The actions add nothing, but code that was compiled meanwhile interrupts the first attempt. *)
Definition interrupted (i : nat) (c : transaction_context) (d : chain_db) : result (transaction_context * chain_db) :=
  match i with O => Err interrupt_oc_exception | _ => Ok (c, d) end.

Definition undisturbed (i : nat) (c : transaction_context) (d : chain_db) : result (transaction_context * chain_db) := Ok (c, d).

Definition start (d : chain_db) : result (transaction_context * chain_db) :=
  init_for_input_trx env (trx_context_init env) d header 100 0 (Ok tt) timer_running.

(** Start, actions, the checks at the end and the billing. *)
Definition apply_trx (actions : nat → transaction_context → chain_db → result (transaction_context * chain_db)) (d : chain_db) : result chain_db :=
  '(c, d1) ← start d; '(c, d2) ← trx_exec env c d1 d actions 5000; '(_, d3) ← trx_finalize env c d2 6000; Ok d3.

(** An interruption for recompiled code undoes what the start of a transaction recorded. Its restart undoes the whole session, with the record against
    duplicates and the decayed usage of the accounts, and repeats only the actions. A node that was interrupted then accepts the transaction a second time, which
    other nodes refuse as a duplicate; and as it checks against usage that has not decayed, it refuses a transaction, and so the block, that other nodes accept. *)
Theorem interrupted_transaction_is_forgotten :
  (∃ d, apply_trx undisturbed idle = Ok d ∧ apply_trx undisturbed d = Err tx_duplicate) ∧
  (∃ d d', apply_trx interrupted idle = Ok d ∧ apply_trx undisturbed d = Ok d') ∧
  (∃ d, apply_trx undisturbed busy = Ok d) ∧ apply_trx interrupted busy = Err tx_cpu_usage_exceeded.
Proof.
  split_and!.
  - eexists. split; [vm_compute; reflexivity|vm_compute; reflexivity].
  - do 2 eexists. split; [vm_compute; reflexivity|vm_compute; reflexivity].
  - eexists. vm_compute. reflexivity.
  - vm_compute. reflexivity.
Qed.

(** ** Witnesses *)

Lemma started : ∃ c d, trx_init env (trx_context_init env) busy header 120 timer_running = Ok (c, d) ∧ trx_net_usage c = 120 ∧
  ∃ c', finalize_checks env c d 6000 = Ok c' ∧ 0 < billed_cpu_time_us c'.
Proof.
  eexists _, _. split; [vm_compute; reflexivity|]. split; [reflexivity|eexists; split; [vm_compute; reflexivity|reflexivity]].
Qed.

Lemma busy_ok : resources_ok (db_resources busy) ∧ usages_small (db_resources busy).
Proof.
  split; [split; vm_compute; intuition congruence|]. intros a u H. cbn [busy db_resources resources rl_usage] in H.
  apply lookup_insert_Some in H as [[_ <-]|[_ [_ <-]%lookup_singleton_Some]]; vm_compute; intuition congruence.
Qed.

Lemma busy_weights usage : weights_ok (with_usage (db_resources busy) usage).
Proof.
  intros a l H. unfold get_account_limits, db_get in H. cbn [busy db_resources resources with_usage rl_pending rl_limits] in H. rewrite lookup_empty in H.
  destruct (_ !! a) as [x|] eqn:E; [|done]. simplify_eq. apply lookup_insert_Some in E as [[_ <-]|[_ [_ <-]%lookup_singleton_Some]]; vm_compute; intuition congruence.
Qed.

Lemma checked_transaction_is_billed_witness : ∃ c d c' d', trx_init env (trx_context_init env) busy header 120 timer_running = Ok (c, d) ∧
  trx_finalize env c d 6000 = Ok (c', d').
Proof.
  destruct started as (c & d & Hi & Hn & c' & Hf & Hp). destruct busy_ok as [Hr Hu].
  destruct (trx_init_inv env eq_refl _ _ _ _ _ _ _ ltac:(vm_compute; intuition congruence) Hr Hu Hi) as (_ & _ & _ & _ & Ed & _).
  assert (weights_ok (db_resources d)) as Hw by (rewrite Ed; apply busy_weights).
  assert (0 < trx_net_usage c <= i64_max) as Hnet by (rewrite Hn; vm_compute; intuition congruence).
  destruct (checked_transaction_is_billed env busy header 120 timer_running c d c d 6000 c') as [(d' & Hd & _) _];
    [reflexivity|reflexivity|vm_compute; intuition congruence|vm_compute; intuition congruence|exact Hr|exact Hu|exact Hi|apply actions_keep_refl|exact Hw|exact Hnet|exact Hf|exact Hp|].
  exists c, d, c', d'. split; [exact Hi|exact Hd].
Defined.

Lemma accepted actions : actions = undisturbed ∨ actions = interrupted → ∃ c d c2 d2 c3 d3, start idle = Ok (c, d) ∧
  trx_exec env c d idle actions 5000 = Ok (c2, d2) ∧ trx_finalize env c2 d2 6000 = Ok (c3, d3).
Proof. intros [->| ->]; do 6 eexists; (split; [vm_compute; reflexivity|]); (split; [vm_compute; reflexivity|]); vm_compute; reflexivity. Qed.

Lemma undisturbed_leave : leave_list undisturbed.
Proof. intros i c d c' d' H. by injection H as <- <-. Qed.

Lemma interrupted_leave : leave_list interrupted.
Proof. intros [|i] c d c' d' H; [done|]. by injection H as <- <-. Qed.

Lemma no_transaction_accepted_twice_witness : ∃ b, rtc branch_step (Branch (90000 * 500000) idle []) b ∧ br_accepted b = [(header, false)] ∧
  NoDup (th_id ∘ fst <$> br_accepted b).
Proof.
  destruct (accepted undisturbed) as (c & d & c2 & d2 & c3 & d3 & Hd & Hx & Hf); [by left|].
  exists (Branch (90000 * 500000) d3 [(header, false)]).
  assert (rtc branch_step (Branch (90000 * 500000) idle []) (Branch (90000 * 500000) d3 [(header, false)])) as Hr.
  { eapply rtc_l; [|apply rtc_refl]. change false with (is_restarted c d undisturbed).
    eapply (step_accept _ _ _ env); [reflexivity|reflexivity|reflexivity|exact Hd|exact undisturbed_leave|exact Hx|exact Hf]. }
  split; [exact Hr|]. split; [reflexivity|]. destruct (no_transaction_accepted_twice _ _ _ Hr) as [_ H].
  - intros h h' Hh Hh' _. apply list_elem_of_singleton in Hh, Hh'. by subst.
  - apply H. by repeat constructor.
Defined.

Lemma restarted_transaction_is_forgotten_witness : ∃ d3 d4, apply_trx interrupted idle = Ok d3 ∧
  db_transactions d3 = db_transactions idle ∧ record_transaction d3 (th_id header) (th_expiration header) = Ok d4.
Proof.
  destruct (accepted interrupted) as (c & d & c2 & d2 & c3 & d3 & Hd & Hx & Hf); [by right|].
  destruct (restarted_transaction_is_forgotten env (trx_context_init env) idle header 100 0 (Ok tt) timer_running c d interrupted 5000 c2 d2 6000 c3 d3
    eq_refl eq_refl Hd interrupted_leave Hx Hf) as (E & d4 & H4).
  exists d3, d4. split; [|split; [exact E|exact H4]]. unfold apply_trx. rewrite Hd, bind_ok, Hx, bind_ok, Hf. reflexivity.
Defined.

End TransactionExample.
